(* ===== verification/_CoqProject ===== *)
-Q . S2P
Prelude.v
Field.v
Gf2m.v
GfP.v
Element.v
Plane.v
Fano.v
Hamming.v
Lrc.v
Erasure.v
Lines.v
Varint.v
Wire.v
Lagrange.v
Shamir.v
Bounded.v
Codec.v
Stream.v
StreamWorld.v
Ergon.v
ErgonExec.v
ErgonCodec.v
Sig.v
Htlc.v
Sums.v
Token.v
Params.v
Vote.v
Incentive.v
Stake.v
Hermes.v
Ledger.v
Scheduler.v
Executor.v
Pqvrf.v
Committee.v
Kem.v
Cells.v
Conn.v
ConnWorld.v
Handshake.v
Overlay.v
SessionWorld.v
Threshold.v
Tx.v
Block.v
Commit.v
NoteTree.v
Shielded.v
PoolCodec.v
Wallet.v
Keyper.v
Merkle.v
Naming.v
Content.v
Por.v
Market.v
Hybrid.v
PoolLedger.v
ErgonHost.v
Chain.v
Accounts.v
Messages.v
CrossCell.v
Hierarchy.v
Da.v
EngineState.v
TinyCell.v
Pipeline.v
Openings.v
Engine.v
Agreement.v
Safety.v
Fuel.v
Replay.v
Network.v
Limits.v
