(* ===== verification/Prelude.v ===== *)
(** * FANOS: a verification development

    FANOS is a peer-to-peer platform whose addressing, quorums and codes come from finite
    projective planes, with a replicated ledger on top.  This library models the parts that carry
    its core logic, from [src/rust/crates], and proves them correct.  Each file opens with the
    source files it models.

    ** The program's parts and the files that model them

    - Finite fields ([fanos-field]): [Field.v] is the trait with its provided methods (a record of
      operations on [u32] representatives) and the laws a lawful instance satisfies; [Gf2m.v] the
      binary fields with their branchless carry-less multiplication; [GfP.v] the prime fields and
      the compile-time primality gate.  Everything above is proved against [FieldLaws], which the
      two instances discharge.
    - Projective geometry ([fanos-geometry]): [Element.v] (triples, cross product, canonical form),
      [Plane.v] (points, lines, join, meet, indexing, enumeration, for any lawful field), [Fano.v]
      (the compile-time tables of the seven-point cell and the partition of a plane into cells),
      [Lines.v] (how many points serve every line).
    - Codes ([fanos-code]): [Hamming.v], [Lrc.v] (the peeling decoder on loss masks), [Erasure.v]
      (the byte codec built on it).
    - Wire formats ([fanos-wire], [fanos-wire-derive]): [Varint.v], [Wire.v] (the codec trait as a
      class, its instances, and the class of canonical codecs the instances satisfy).
    - Primitives ([fanos-primitives], [fanos-pqcrypto]): [Shamir.v] over the generic interpolation
      lemmas of [Lagrange.v]; [Bounded.v] (capacity-bounded map); [Codec.v] (total reader and
      writers; ordered maps); [Sig.v] (labelled hashing and the hybrid signature); [Merkle.v] (the
      tree with a count-binding root).
    - Sealing ([fanos-pqcrypto], [fanos-threshold], [fanos-taxis/src/tx.rs]): [Kem.v] (the hybrid
      key encapsulation, its generator and the authenticated cipher), [Threshold.v] (a payload
      sealed to a committee), [Tx.v] (sealed transactions and their commitments).
    - Consensus data ([fanos-taxis], [fanos-vrf/src/pqvrf.rs]): [Params.v] (quorum sizes), [Vote.v]
      (votes and certificates), [Incentive.v] (equivocation evidence, rewards, the stage game),
      [Pqvrf.v] (the Merkle-tree VRF), [Committee.v] (leaders, lines and tickets), [Block.v]
      (blocks, their commitments, availability and frame budget), [Chain.v] (the trait
      [StateMachine] as a class, the finalized chain, execution checkpoints), [Accounts.v] (the
      reference state machine, an instance of the class), [Messages.v] (the messages, inputs and
      outputs of the engine with their bytes and frames), [Keyper.v] (the registry of decryption
      keys and sealing to it), [CrossCell.v] (the outbox and its receipts), [Hierarchy.v] (a parent
      that anchors the checkpoints of child cells), [Da.v] (data-availability sampling).
    - Consensus engine ([fanos-taxis/src/consensus.rs]): [EngineState.v] is the state of
      [ConsensusEngine] in four records by life time; [Pipeline.v] the handlers that do not vote
      (the pool, openings, execution of finalized blocks, attestations and checkpoints);
      [Engine.v] the handlers that vote, lock, finalize, propose and synchronise, up to [step],
      which dispatches an input as the source's [step] does.  Every handler takes the engine and
      returns it with the outputs; the counters that only the diagnostic probe reads are left out.
    - Theory of the engine, no code of its own: [Agreement.v] (what a log of votes must satisfy for
      decisions to be unique), [Safety.v] (every handler keeps the engine's invariant and adds only
      admissible votes), [Network.v] (a cell of engines among faulty seats), [Replay.v] (the
      reference replayer of committed blocks and adopted states), [Fuel.v] (termination), [Openings.v] (the search for
      shares that open a transaction), [Limits.v] (where the code departs from its comments),
      [TinyCell.v] (a concrete cell for the witnesses).
    - Ledger ([fanos-hermes], [fanos-dromos]): [Htlc.v] (one contract), [Token.v] (balances and
      nonces), [Stake.v] (bonds and slashing guard), [Hermes.v] (the book of contracts), and
      [Ledger.v], which composes them as [hybrid.rs] does; [Sums.v] holds the sums over maps.
      [Naming.v] is the name registry.  Storage ([fanos-thesauros]): [Content.v] (chunk ids, manifests,
      sealed objects), [Por.v] (challenges and proofs of retrievability), [Market.v] (the life of a deal
      and the market's state).  [Hybrid.v] adds names and storage to [Ledger.v]: the whole dispatch of
      these transactions, the sweep of a block start and block rewards.
      [ErgonHost.v] presents that ledger as the state of terms, with the two effects and the predicate
      it offers them and the transaction that carries a signed term.
      [PoolLedger.v] adds the shielded pool to it: shielding public tokens, shielded transactions, the sink that
      backs the pool, and the pool as a state machine of its own.
      [Scheduler.v] is the conflict scheduler that cuts a block into waves, [Executor.v] the
      parallel executor that verifies in chunks and commits wave by wave.

    - Shielded pool ([fanos-obolos]): [Commit.v] (the lattice commitment to amounts and its balance check),
      [NoteTree.v] (the commitment tree with its paths, the nullifier set), [Shielded.v] (notes and their delivery,
      transactions, the transparent proof and its verifier, the builder, the pool), [PoolCodec.v] (the bytes of a
      submission), [Wallet.v] (spending and viewing keys).

    - Term language ([fanos-ergon]): [Ergon.v] (values, expressions, footprints, terms and their type
      check), [ErgonExec.v] (the evaluator, with the state and the host as interfaces: [State] with the
      laws [StateLaws], which a finite map satisfies on all keys and the ledger on those of its own point, and
      [HostOps], whose rules are programs over the view they are handed and keep no state of their own), [ErgonCodec.v] (the canonical encoding).

    - Streams ([fanos-stream]): [Stream.v] (segments, the round-trip estimator, the selective-repeat sender
      and the bounded receiver); [StreamWorld.v], no code of its own, puts one of each on a network that
      loses, repeats and reorders.
    - Connections and sessions ([fanos-diaulos]): [Cells.v] (sealed cells of one size and the frames in them), [Conn.v] (many
      streams under one pair of keys, the single-stream endpoint, the session layer's memory budget), [Handshake.v] (the
      one-round-trip handshake and dialling), [Overlay.v] (the client and the service half over datagrams).
      [ConnWorld.v] and [SessionWorld.v], no code of their own, put two connections and two halves of a session on such a
      network; a session there is simulated by the two connections, and each stream of these by [StreamWorld.v].

    ** How code is represented

    A [w]-bit integer is a [Z] with its wrap-around written out ([wrap]); an operation the release
    profile wraps is wrapped here, one that saturates saturates.  Bytes are [Z]s below 256.  A
    method with [&mut self] returns the new state beside its result.  [Result] is [result],
    [Option] is [option].  A [BTreeMap] over 32-byte keys is a finite map whose iteration is the
    sorted list of its entries.  Loops are structural, or carry fuel with a theorem that the fuel
    is enough (the peeling decoders, at most one round per lost point; the primality loop; square
    and multiply; the search for shares that open, which the source itself bounds; the loops of a stream over its tail,
    its gaps and its held segments, one round for each).  The draw of audit
    indices is bounded by nothing in the source: [Por.draw_loop] answers [None] when the fuel ends, and
    [draw_loop_enough] says when it does not; the drawing of commitment randomness is the same
    ([Commit.rand_loop]), and [Commit.rand_from_seed_returns] gives its result as soon as the blocks drawn
    hold the trits it needs, so that the theorems on built transactions show the build returns.  The engine
    feeds its own votes back to itself: [accept_vote] and [step] carry fuel for that re-entry and
    answer [None] without it.  [Fuel.fuel_for], eight per stored vote and thirteen more, is always
    enough, because every re-entry either uses up a vote slot of the round or moves the round on.

    Code outside the repository is a parameter: BLAKE3, Ed25519 and ML-DSA-65 are the operations of
    the class [Crypto], and [CryptoLaws] states the documented widths, round trips and "a signature
    verifies under its own key"; X25519, ML-KEM-768 and ChaCha20-Poly1305 are those of [KemCrypto]
    with the round trips of [KemLaws].  The instances [toy_crypto] and [toy_kem] show the laws can
    hold and let the witnesses compute.  A hash into 32 bytes has collisions somewhere, so a statement
    that rests on collision resistance names the messages it depends on: it ends in [Sig.broken_on] of an
    explicit finite list, the messages hashed by the very computations it speaks of, and says that two
    different ones of these have one digest (or one the digest of zeros).  [broken_on] is decidable; the
    witnesses evaluate it to false on their inputs where the claim is a refusal.

    ** What the theorems show

    - Fields and geometry: the word-level operations are field operations; two points have one
      line, two lines one point; the enumerators and indices are exact; the tables of the base cell
      are the plane over two elements.
    - Codes: the peeling decoder computes the largest stopping set, recovers any three losses and
      fails on four exactly at hyperovals; the byte codec recovers a payload exactly then.
    - Wire: every accepted encoding is the canonical one, and it decodes to what was encoded.
    - Secret sharing: any quorum recovers the secret, also after resharing; fewer shares are
      consistent with every secret.
    - Consensus: quorums overlap in more than the fault budget, so two conflicting certificates
      expose more than [f] equivocators with evidence the slashing rule accepts; honesty is an
      equilibrium exactly under the stated conditions.
    - Blocks and sealing: any quorum of a committee opens what was sealed to it; a block's hash
      binds its content; the availability check returns the payload exactly when the loss is
      recoverable; a packed block fits a frame as long as its certificate and openings leave room, and none
      does when they do not; blocks and messages survive their bytes; a VRF root
      admits one output per index; the leader is the least member of the elected line.
    - Engine: two correct validators never commit different blocks at one height and never sign
      conflicting votes, for any schedule and up to [f] faulty seats, a seat that is rolled back below
      its height counting as faulty ([Network.v]); the ledger is the replay of the committed blocks and
      of the states adopted on a quorum's word, whatever the inputs ([Replay.v]); every input is answered
      ([Fuel.v]).  The network theorems assume that signatures of correct validators are not forged and
      that rounds fit 32 bits and heights stay below [2^64 - 1].  [Limits.v] shows that a rolled-back
      validator can be slashed, and three ways a validator offers blocks that its peers must refuse, one
      of them forced on it by a single opening of unbounded length.
    - Openings and sampling: a transaction sealed through a cell's registry is admitted and opens
      from the committed shares of any threshold of members in cells of order two and three, as long as the
      openings stand under no more names than there are members; made-up openings in a block, or one false share in a larger cell, keep it closed ([Openings.v]).
      Sampling returns a block exactly when the shards suffice and never evicts a relevant block;
      one shard of the wrong length stalls it ([Da.v]).
    - Between cells: a Merkle root opens to its own leaves and nothing else; a receipt proves that
      the source cell emitted the message; a parent's record of a child never regresses, and a
      conflict exposes the seats that attested twice.
    - Ledger: settlement is exact and atomic, supply is conserved, transfers cannot be replayed; a
      contract pays once; slashing takes a bond once; the stake sink and the swap escrow hold
      exactly what they owe in every reachable state, and with storage and names so does the storage
      escrow, as long as nobody pays a sink by a plain transfer.  A name stays with its owner until the
      owner signs a payment on it; an accepted audit shows possession of the challenged
      leaves, a provider that holds its chunk is paid, and a deal hands out its price and no more, all of it once it is closed;
      an audit of all leaves can be replayed, and a full sealed chunk fits no deal.  The scheduler's waves are the least
      partition its hazards allow, and executing a block of transfers, swaps, stakes and slashings in parallel gives the state and the
      outcomes of executing it transaction by transaction.  Four theorems show where the code departs
      from its documentation (plain transfers into a sink, staking signatures that do not name the
      operation, claims with trailing bytes, quorum overflow at extreme orders).

    - Terms: evaluation stays inside the footprint a term derives and depends on nothing else; checked
      parallel branches commute; a failed term leaves no trace when what it wrote was there before; an
      encoding is canonical; a term spends only for the account that signed it and takes no live name;
      a transfer as a term is the native transfer.  Five statements show where the ledger departs from
      this: a transfer to oneself mints, a failed registration keeps its name, a rejected term may
      commit, two points alias one balance, and the deepest well-typed terms have no encoding.

    - Streams: the reader sees a prefix of what was written, all of it at the end, whatever the network
      does; from every state, with all that is in flight lost, a bounded run of the retransmission timer and
      a network that loses nothing more completes the stream; no peer overfills a receiver or moves its declared end.  The first two hold for streams
      of fewer than [2^32 - 64] segments, the range of a sequence number.
    - Connections and sessions: each multiplexed stream delivers as if it were alone; a peer never makes a connection hold
      more streams or bytes than the budget states; no counter is used twice.  A session that dials a genuine key over a network
      that forges no hello opens after one exchange of hellos and then runs such a connection to its end.  A stream
      retired early shuts out older ones that have not arrived yet.

    - Shielded pool: an accepted transaction conserves value over the integers, not only modulo the commitment's
      prime; no leaf is spent twice under indices in range; the sink of the ledger holds what the accepted openings
      declare; a submission has one encoding; what a wallet builds is accepted, and who is paid sees the payment and
      can spend it.  Two theorems show how the verifier falls short of its purpose: an output's note is
      tied to no amount, so anyone takes the backing, and the index of a leaf is read in part, so a note is spent again.

    ** What is not modelled

    The lattice zero-knowledge proofs of the pool, which the ledger does not call; overlay routing, onion routing and
    rendezvous; and all drivers, user interfaces and bindings.  Memory zeroisation, display strings and floating-point figures are out
    of scope.

    This file holds what every other file shares: the result type and its notations, machine
    integers and their bits, byte strings, and the tactics [bitwise] and [by_decide]. *)
From Stdlib Require Export ZArith Lia Bool.
From stdpp Require Export prelude list_numbers gmap.
#[global] Open Scope Z_scope.
#[global] Arguments Z.testbit : simpl never.
#[global] Arguments Z.shiftl : simpl never.
#[global] Arguments Z.shiftr : simpl never.
#[global] Arguments Z.land : simpl never.
#[global] Arguments Z.lor : simpl never.
#[global] Arguments Z.lxor : simpl never.
#[global] Arguments Z.pow : simpl never.

(** ** Rust's [Result]

    The source threads errors through [Result<T, E>] and the [?] operator; both are
    modelled by this type and its bind. *)

Inductive result (A E : Type) : Type :=
| Ok (a : A)
| Err (e : E).
Arguments Ok {A E} a.
Arguments Err {A E} e.

Definition rbind {A B E} (r : result A E) (k : A -> result B E) : result B E :=
  match r with Ok a => k a | Err e => Err e end.

Definition ok_or {A E} (o : option A) (e : E) : result A E :=
  match o with Some a => Ok a | None => Err e end.

Declare Scope fanos_scope.
Delimit Scope fanos_scope with fanos.
Notation "'let?' x ':=' r 'in' k" := (rbind r (fun x => k))
  (at level 10, x pattern, r at level 100, k at level 200)
  : fanos_scope.
Notation "'letO' x ':=' r 'in' k" := (match r with Some x => k | None => None end)
  (at level 10, x pattern, r at level 100, k at level 200)
  : fanos_scope.
#[global] Open Scope fanos_scope.

Lemma rbind_Ok {A B E} (r : result A E) (k : A -> result B E) b :
  rbind r k = Ok b <-> exists a, r = Ok a /\ k a = Ok b.
Proof. destruct r; simpl; split; [eauto|by intros (? & [= <-] & ?)|done|by intros (? & ? & ?)]. Qed.

Lemma ok_or_Ok {A E} (o : option A) (e : E) a : ok_or o e = Ok a <-> o = Some a.
Proof. destruct o; simpl; split; congruence. Qed.

(** [iter.map(f).collect::<Result<Vec<_>, _>>()], and a loop that pushes [f(x)?]. *)
Fixpoint rmapM {A B E} (f : A -> result B E) (l : list A) : result (list B) E :=
  match l with
  | [] => Ok []
  | x :: l => let? y := f x in let? ys := rmapM f l in Ok (y :: ys)
  end.

Lemma rmapM_total {A B E} (f : A -> result B E) (g : A -> B) l :
  (forall x, x ∈ l -> f x = Ok (g x)) -> rmapM f l = Ok (g <$> l).
Proof.
  induction l as [|x l IH]; intros H; [done|]. simpl. rewrite (H x) by set_solver. simpl.
  rewrite IH by set_solver. done.
Qed.

(** ** Machine integers

    A [w]-bit unsigned integer is a [Z] in [0, 2^w); an operation that can leave the range
    is followed by the wrap-around the hardware (and Rust's release profile) performs. *)

Definition wrap (w x : Z) : Z := x mod 2 ^ w.
Definition in_u (w x : Z) : Prop := 0 <= x < 2 ^ w.
Abbreviation w8 := (wrap 8).
Abbreviation w32 := (wrap 32).
Abbreviation w64 := (wrap 64).
Abbreviation is_u8 := (in_u 8).
Abbreviation is_u32 := (in_u 32).
Abbreviation is_u64 := (in_u 64).

(** [u64::saturating_add] and friends. *)
Definition sat_add (w x y : Z) : Z := Z.min (x + y) (2 ^ w - 1).
Definition sat_mul (w x y : Z) : Z := Z.min (x * y) (2 ^ w - 1).
Definition sat_sub (x y : Z) : Z := Z.max (x - y) 0.

Lemma wrap_small w x : in_u w x -> wrap w x = x.
Proof. apply Z.mod_small. Qed.

Lemma wrap_range w x : 0 <= w -> in_u w (wrap w x).
Proof. intros. apply Z.mod_pos_bound, Z.pow_pos_nonneg; lia. Qed.

Lemma in_u_0 w : 0 <= w -> in_u w 0.
Proof. intros. split; [lia|]. apply Z.pow_pos_nonneg; lia. Qed.

Lemma in_u_mono v w x : v <= w -> in_u v x -> in_u w x.
Proof.
  intros Hle [H0 H1]. split; [done|].
  eapply Z.lt_le_trans; [exact H1|]. apply Z.pow_le_mono_r; lia.
Qed.

#[global] Instance in_u_dec w x : Decision (in_u w x).
Proof. unfold in_u. apply _. Defined.

(** ** Bits *)

Lemma testbit_high w x i : in_u w x -> w <= i -> Z.testbit x i = false.
Proof.
  intros [H0 H1] Hi. destruct (Z.eq_dec x 0) as [->|Hx]; [apply Z.bits_0|].
  apply Z.bits_above_log2; [done|].
  apply Z.log2_lt_pow2; [lia|]. eapply Z.lt_le_trans; [exact H1|].
  apply Z.pow_le_mono_r; lia.
Qed.

(** A non-negative number whose bits vanish from [w] on is a [w]-bit number. *)
Lemma in_u_bits w x :
  0 <= w -> 0 <= x -> (forall i, w <= i -> Z.testbit x i = false) -> in_u w x.
Proof.
  intros Hw Hx Hb. split; [done|].
  destruct (Z.eq_dec x 0) as [->|Hne]; [apply Z.pow_pos_nonneg; lia|].
  apply Z.log2_lt_pow2; [lia|].
  destruct (Z_lt_le_dec (Z.log2 x) w) as [|Hge]; [done|].
  specialize (Hb _ Hge). rewrite Z.bit_log2 in Hb by lia. done.
Qed.

Lemma land_ones_wrap w x : 0 <= w -> Z.land x (2 ^ w - 1) = wrap w x.
Proof.
  intros. unfold wrap. rewrite <- Z.land_ones by done. f_equal.
  rewrite Z.ones_equiv. lia.
Qed.

Lemma in_u_lxor w x y : 0 <= w -> in_u w x -> in_u w y -> in_u w (Z.lxor x y).
Proof.
  intros Hw Hx Hy. apply in_u_bits; [done| |].
  - apply Z.lxor_nonneg. split; intros; [apply Hy|apply Hx].
  - intros i Hi. rewrite Z.lxor_spec, !(testbit_high w) by done. done.
Qed.

Lemma in_u_land_l w x y : 0 <= w -> in_u w x -> 0 <= y -> in_u w (Z.land x y).
Proof.
  intros Hw Hx Hy. apply in_u_bits; [done| |].
  - apply Z.land_nonneg. left. apply Hx.
  - intros i Hi. rewrite Z.land_spec, (testbit_high w x) by done. done.
Qed.


Lemma in_u_lor w x y : 0 <= w -> in_u w x -> in_u w y -> in_u w (Z.lor x y).
Proof.
  intros Hw Hx Hy. apply in_u_bits; [done| |].
  - apply Z.lor_nonneg. split; [apply Hx|apply Hy].
  - intros i Hi. rewrite Z.lor_spec, !(testbit_high w) by done. done.
Qed.

Lemma in_u_shiftr w x k : 0 <= w -> 0 <= k -> in_u w x -> in_u w (Z.shiftr x k).
Proof.
  intros Hw Hk Hx. apply in_u_bits; [done| |].
  - apply Z.shiftr_nonneg, Hx.
  - intros i Hi. rewrite Z.shiftr_spec by lia. apply (testbit_high w); [done|lia].
Qed.

Lemma wrap_spec w x i :
  0 <= w -> 0 <= i -> Z.testbit (wrap w x) i = (i <? w) && Z.testbit x i.
Proof.
  intros Hw Hi. unfold wrap. destruct (Z.ltb_spec i w).
  - rewrite Z.mod_pow2_bits_low by lia. done.
  - rewrite Z.mod_pow2_bits_high by lia. done.
Qed.

Create Rewrite HintDb bits.
#[global] Hint Rewrite Z.lxor_spec Z.land_spec Z.lor_spec Z.bits_0 : bits.
#[global] Hint Rewrite wrap_spec Z.shiftr_spec Z.shiftl_spec using lia : bits.

(** Equality of two integers, bit by bit. *)
Ltac bitwise :=
  apply Z.bits_inj'; intros ?i ?Hi; autorewrite with bits;
  repeat match goal with
         | |- context [Z.testbit ?x ?i] => destruct (Z.testbit x i)
         end; try done.

Lemma wrap_lxor w x y :
  0 <= w -> wrap w (Z.lxor x y) = Z.lxor (wrap w x) (wrap w y).
Proof. intros. bitwise; by destruct (_ <? _). Qed.

(** The all-ones / all-zeros mask [0u32.wrapping_sub(bit)] the branchless code builds:
    and-ing with it selects or clears. *)
Lemma land_mask w x (b : bool) :
  0 <= w -> in_u w x ->
  Z.land x (wrap w (0 - Z.b2z b)) = if b then x else 0.
Proof.
  intros Hw Hx. destruct b; simpl Z.b2z.
  - apply Z.bits_inj'; intros i Hi. rewrite Z.land_spec, wrap_spec by done.
    change (0 - 1) with (-1). rewrite Z.bits_m1 by done.
    destruct (Z.ltb_spec i w); [by rewrite !andb_true_r|].
    by rewrite (testbit_high w x).
  - replace (wrap w (0 - 0)) with 0; [apply Z.land_0_r|].
    symmetry. apply wrap_small, in_u_0; done.
Qed.

Lemma land_1_b2z x : Z.land x 1 = Z.b2z (Z.testbit x 0).
Proof. change 1 with (Z.ones 1) at 1. rewrite Z.land_ones by lia. by rewrite Z.bit0_mod. Qed.

(** ** Big- and little-endian byte strings *)

Fixpoint be_bytes (n : nat) (x : Z) : list Z :=
  match n with
  | O => []
  | S n => w8 (Z.shiftr x (8 * Z.of_nat n)) :: be_bytes n x
  end.

Definition from_be (l : list Z) : Z := fold_left (fun acc b => acc * 256 + b) l 0.

Definition le_bytes (n : nat) (x : Z) : list Z := reverse (be_bytes n x).
Definition from_le (l : list Z) : Z := from_be (reverse l).

Definition is_bytes (l : list Z) : Prop := Forall is_u8 l.

Lemma length_be_bytes n x : length (be_bytes n x) = n.
Proof. induction n; simpl; congruence. Qed.

Lemma is_bytes_be n x : is_bytes (be_bytes n x).
Proof. induction n; simpl; constructor; [apply wrap_range; lia|done]. Qed.

Lemma be_bytes_snoc n x :
  be_bytes (S n) x = be_bytes n (Z.shiftr x 8) ++ [w8 x].
Proof.
  revert x. induction n as [|n IH]; intros x; [by cbn; rewrite Z.shiftr_0_r|].
  change (be_bytes (S (S n)) x) with (w8 (Z.shiftr x (8 * Z.of_nat (S n))) :: be_bytes (S n) x).
  rewrite IH. cbn [be_bytes app]. f_equal. f_equal.
  rewrite Z.shiftr_shiftr by lia. f_equal. lia.
Qed.

Lemma from_be_snoc l b : from_be (l ++ [b]) = from_be l * 256 + b.
Proof. unfold from_be. by rewrite fold_left_app. Qed.

Lemma from_be_be_bytes n : forall x, from_be (be_bytes n x) = wrap (8 * Z.of_nat n) x.
Proof.
  induction n as [|n IH]; intros x; [by unfold wrap; rewrite Z.mod_1_r|].
  rewrite be_bytes_snoc, from_be_snoc, IH. unfold wrap.
  rewrite Z.shiftr_div_pow2 by lia.
  replace (8 * Z.of_nat (S n)) with (8 + 8 * Z.of_nat n) by lia.
  rewrite Z.pow_add_r, Z.rem_mul_r by (pose proof (Z.pow_pos_nonneg 2 (8 * Z.of_nat n)); lia).
  change (2 ^ 8) with 256. lia.
Qed.

Lemma from_be_id n x : in_u (8 * Z.of_nat n) x -> from_be (be_bytes n x) = x.
Proof. intros. rewrite from_be_be_bytes. by apply wrap_small. Qed.

Lemma from_be_range l : is_bytes l -> in_u (8 * Z.of_nat (length l)) (from_be l).
Proof.
  induction l as [|b l IH] using rev_ind; intros H; [done|].
  apply Forall_app in H as [Hl Hb]. apply Forall_cons in Hb as [Hb _].
  rewrite from_be_snoc, length_app. simpl. destruct (IH Hl) as [H0 H1].
  unfold in_u in *. replace (8 * Z.of_nat (length l + 1)) with (8 * Z.of_nat (length l) + 8) by lia.
  rewrite Z.pow_add_r by lia. change (2 ^ 8) with 256 in *. nia.
Qed.

Lemma be_bytes_from_be l : is_bytes l -> be_bytes (length l) (from_be l) = l.
Proof.
  induction l as [|b l IH] using rev_ind; intros H; [done|].
  apply Forall_app in H as [Hl Hb]. apply Forall_cons in Hb as [[Hb0 Hb1] _].
  rewrite length_app, Nat.add_1_r, be_bytes_snoc, from_be_snoc.
  change (2 ^ 8) with 256 in Hb1.
  assert (E : Z.shiftr (from_be l * 256 + b) 8 = from_be l).
  { rewrite Z.shiftr_div_pow2 by lia. change (2 ^ 8) with 256.
    rewrite Z.div_add_l, Z.div_small by lia. lia. }
  rewrite E, IH by done. f_equal. f_equal. unfold wrap. change (2 ^ 8) with 256.
  rewrite Z.add_comm, Z.mod_add, Z.mod_small by lia. done.
Qed.

Lemma be_bytes_from_be_n n l : is_bytes l -> length l = n -> be_bytes n (from_be l) = l.
Proof. intros ? <-. by apply be_bytes_from_be. Qed.

Lemma length_le_bytes n x : length (le_bytes n x) = n.
Proof. unfold le_bytes. by rewrite length_reverse, length_be_bytes. Qed.

Lemma is_bytes_le n x : is_bytes (le_bytes n x).
Proof. apply Forall_reverse, is_bytes_be. Qed.

Lemma from_le_id n x : in_u (8 * Z.of_nat n) x -> from_le (le_bytes n x) = x.
Proof. unfold from_le, le_bytes. rewrite reverse_involutive. apply from_be_id. Qed.

Lemma from_le_range l : is_bytes l -> in_u (8 * Z.of_nat (length l)) (from_le l).
Proof.
  intros. rewrite <- (length_reverse l). apply from_be_range. by apply Forall_reverse.
Qed.

Lemma le_bytes_from_le l : is_bytes l -> le_bytes (length l) (from_le l) = l.
Proof.
  intros. unfold le_bytes, from_le. rewrite <- (length_reverse l), be_bytes_from_be.
  - apply reverse_involutive.
  - by apply Forall_reverse.
Qed.

Lemma le_bytes_from_le_n n l : is_bytes l -> length l = n -> le_bytes n (from_le l) = l.
Proof. intros ? <-. by apply le_bytes_from_le. Qed.

Lemma is_bytes_app l1 l2 : is_bytes (l1 ++ l2) <-> is_bytes l1 /\ is_bytes l2.
Proof. apply Forall_app. Qed.

Lemma is_bytes_take n l : is_bytes l -> is_bytes (take n l).
Proof. apply Forall_take. Qed.

Lemma is_bytes_drop n l : is_bytes l -> is_bytes (drop n l).
Proof. apply Forall_drop. Qed.

#[global] Instance is_bytes_dec l : Decision (is_bytes l).
Proof. unfold is_bytes. apply _. Defined.

#[global] Arguments be_bytes : simpl never.
#[global] Arguments le_bytes : simpl never.
#[global] Arguments from_be : simpl never.
#[global] Arguments from_le : simpl never.

(** [count_ones], [is_power_of_two] and [trailing_zeros] of a [w]-bit word. *)
Definition set_bits (w x : Z) : list Z := filter (fun i => Z.testbit x i = true) (seqZ 0 w).
Definition count_ones (w x : Z) : Z := Z.of_nat (length (set_bits w x)).
Definition is_power_of_two (w x : Z) : bool := count_ones w x =? 1.
Definition trailing_zeros (w x : Z) : Z := default w (head (set_bits w x)).

(** ** Lists *)

Lemma forallb_seqZ (f : Z -> bool) m n :
  forallb f (seqZ m n) = true -> forall i, m <= i < m + n -> f i = true.
Proof.
  intros H i Hi. rewrite forallb_forall in H. apply H, list_elem_of_In, elem_of_seqZ. lia.
Qed.

Lemma mapM_total {A B} (f : A -> option B) (g : A -> B) l :
  (forall x, x ∈ l -> f x = Some (g x)) -> mapM f l = Some (g <$> l).
Proof.
  induction l as [|x l IH]; intros H; simpl; [done|].
  rewrite (H x) by set_solver. simpl. rewrite IH by set_solver. done.
Qed.

(** Discharge a decidable closed goal by evaluating its decision procedure. *)
Ltac by_decide := refine (bool_decide_unpack _ _); vm_compute; exact I.
