(* ===== verification/Field.v ===== *)
(** * Finite fields: the [Field] trait of fanos-field

    [Field] is the record of operations an implementor of the Rust trait supplies
    (fanos-field/src/lib.rs); [pow], [inv] and [div] are its provided methods.
    [FieldLaws] states what every client of the trait relies on: on canonical codes
    ([0 <= a < Q]) the operations form a field whose inverse is the Fermat power.  The
    two implementors discharge it in [Gf2m] and [GfP]; the plane, the secret sharing and
    the codes are proved against the interface only.

    The second half packs canonical codes into a carrier type [elt] on which [ring] and
    [field] work, with a tactic that lifts goals about codes to it. *)
From Stdlib Require Import Field_theory Ring_theory Field_tac Eqdep_dec.
From S2P Require Import Prelude.
Local Open Scope Z_scope.

Inductive FieldKind := Binary | Prime.

Class Field := {
  f_Q : Z;
  f_P : Z;
  f_M : Z;
  f_KIND : FieldKind;
  f_add : Z -> Z -> Z;
  f_sub : Z -> Z -> Z;
  f_neg : Z -> Z;
  f_mul : Z -> Z -> Z;
  f_reduce : Z -> Z;
}.

Section Provided.
Context {F : Field}.

Definition f_zero : Z := 0.
Definition f_one : Z := 1.
Definition f_is_zero (a : Z) : bool := a =? 0.
Definition f_in_range (a : Z) : bool := a <? f_Q.

(** The square-and-multiply loop [while e > 0]; a [u64] exponent is exhausted after 64
    halvings, so 64 units of fuel never run out ([pow_correct]). *)
Fixpoint pow_loop (fuel : nat) (acc b e : Z) : Z :=
  match fuel with
  | O => acc
  | S fuel =>
      if 0 <? e then
        let acc := if Z.land e 1 =? 1 then f_mul acc b else acc in
        pow_loop fuel acc (f_mul b b) (Z.shiftr e 1)
      else acc
  end.

Definition f_pow (base e : Z) : Z := pow_loop 64 f_one base e.
Definition f_inv (a : Z) : Z := f_pow a (f_Q - 2).
Definition f_div (a b : Z) : Z := f_mul a (f_inv b).

End Provided.
Arguments f_pow : simpl never.
Arguments f_inv : simpl never.
#[global] Strategy 100 [pow_loop f_pow f_inv].

(** [element_width]: the bytes one canonical element occupies on the wire. *)
Definition element_width (q : Z) : Z :=
  let max := sat_sub q 1 in
  if max =? 0 then 1 else Z.log2 max / 8 + 1.

(** A canonical element code. *)
Definition canon (F : Field) (a : Z) : Prop := 0 <= a < f_Q.

(** ** The interface's laws *)

Class FieldLaws (F : Field) : Prop := {
  fl_Q : 2 <= f_Q < 2 ^ 32;
  fl_add_in a b : canon F a -> canon F b -> canon F (f_add a b);
  fl_neg_in a : canon F a -> canon F (f_neg a);
  fl_mul_in a b : canon F a -> canon F b -> canon F (f_mul a b);
  fl_add_comm a b : canon F a -> canon F b -> f_add a b = f_add b a;
  fl_add_assoc a b c : canon F a -> canon F b -> canon F c ->
    f_add a (f_add b c) = f_add (f_add a b) c;
  fl_add_0 a : canon F a -> f_add 0 a = a;
  fl_add_neg a : canon F a -> f_add a (f_neg a) = 0;
  fl_sub a b : canon F a -> canon F b -> f_sub a b = f_add a (f_neg b);
  fl_mul_comm a b : canon F a -> canon F b -> f_mul a b = f_mul b a;
  fl_mul_assoc a b c : canon F a -> canon F b -> canon F c ->
    f_mul a (f_mul b c) = f_mul (f_mul a b) c;
  fl_mul_1 a : canon F a -> f_mul 1 a = a;
  fl_distr a b c : canon F a -> canon F b -> canon F c ->
    f_mul (f_add a b) c = f_add (f_mul a c) (f_mul b c);
  fl_inv a : canon F a -> a <> 0 -> f_mul (f_inv a) a = 1;
}.

(** The reference exponentiation: [n] multiplications from 1. *)
Fixpoint npow {F : Field} (a : Z) (n : nat) : Z :=
  match n with O => 1 | S n => f_mul a (npow a n) end.

(** Multiplication alone (no inverse law): what [pow] needs, stated separately because the
    implementors use it to establish [fl_inv]. *)
Class MulMonoid (F : Field) : Prop := {
  mm_Q : 2 <= f_Q;
  mm_mul_in a b : canon F a -> canon F b -> canon F (f_mul a b);
  mm_mul_comm a b : canon F a -> canon F b -> f_mul a b = f_mul b a;
  mm_mul_assoc a b c : canon F a -> canon F b -> canon F c ->
    f_mul a (f_mul b c) = f_mul (f_mul a b) c;
  mm_mul_1 a : canon F a -> f_mul 1 a = a;
}.

#[global] Instance laws_monoid F : FieldLaws F -> MulMonoid F.
Proof. intros L. split; apply L. Qed.

Create HintDb canon.

Section Pow.
Context {F : Field} {MM : MulMonoid F}.

Lemma canon_0 : canon F 0.
Proof. pose proof mm_Q. unfold canon. lia. Qed.
Lemma canon_1 : canon F 1.
Proof. pose proof mm_Q. unfold canon. lia. Qed.
#[local] Hint Resolve canon_0 canon_1 mm_mul_in : canon.

Lemma npow_in a n : canon F a -> canon F (npow a n).
Proof. intros. induction n; simpl; auto with canon. Qed.
#[local] Hint Resolve npow_in : canon.

Lemma mm_mul_1_r a : canon F a -> f_mul a 1 = a.
Proof. intros. rewrite mm_mul_comm by auto with canon. by apply mm_mul_1. Qed.

Lemma npow_add a n m : canon F a -> npow a (n + m) = f_mul (npow a n) (npow a m).
Proof.
  intros Ha. induction n; simpl.
  - rewrite mm_mul_1; auto with canon.
  - rewrite IHn, mm_mul_assoc; auto with canon.
Qed.

Lemma npow_mul a n m : canon F a -> npow a (n * m) = npow (npow a n) m.
Proof.
  intros Ha. induction m; simpl.
  - by rewrite Nat.mul_0_r.
  - rewrite Nat.mul_succ_r, Nat.add_comm, npow_add by done. by rewrite IHm.
Qed.

Lemma npow_1 n : npow 1 n = 1.
Proof. induction n; simpl; [done|]. rewrite IHn. apply mm_mul_1, canon_1. Qed.

Lemma npow_sqr b n : canon F b -> npow (f_mul b b) n = npow b (2 * n).
Proof.
  intros Hb. rewrite npow_mul by done. f_equal. simpl.
  by rewrite mm_mul_1_r.
Qed.

Lemma pow_loop_correct fuel : forall acc b e,
  canon F acc -> canon F b -> 0 <= e < 2 ^ Z.of_nat fuel ->
  pow_loop fuel acc b e = f_mul acc (npow b (Z.to_nat e)).
Proof.
  induction fuel as [|fuel IH]; intros acc b e Hacc Hb He; simpl pow_loop.
  - replace e with 0 by (simpl in He; lia). simpl. by rewrite mm_mul_1_r.
  - destruct (Z.ltb_spec 0 e) as [Hpos|Hz].
    2:{ replace e with 0 by lia. simpl. by rewrite mm_mul_1_r. }
    assert (Hhalf : 0 <= Z.shiftr e 1 < 2 ^ Z.of_nat fuel).
    { rewrite Z.shiftr_div_pow2 by lia. change (2 ^ 1) with 2.
      replace (Z.of_nat (S fuel)) with (Z.succ (Z.of_nat fuel)) in He by lia.
      rewrite Z.pow_succ_r in He by lia.
      split; [apply Z.div_pos; lia | apply Z.div_lt_upper_bound; lia]. }
    assert (He2 : Z.to_nat e = (2 * Z.to_nat (Z.shiftr e 1)
              + (if (Z.land e 1 =? 1)%Z then 1 else 0))%nat).
    { rewrite land_1_b2z, Z.bit0_mod, Z.shiftr_div_pow2 by lia. change (2 ^ 1) with 2.
      pose proof (Z.div_mod e 2). pose proof (Z.mod_pos_bound e 2).
      destruct (Z.eqb_spec (e mod 2) 1); lia. }
    rewrite IH; [|by destruct (_ =? _); auto with canon|auto with canon|done].
    rewrite He2, npow_sqr by done. destruct (Z.land e 1 =? 1).
    + rewrite Nat.add_1_r. simpl (npow b (S _)).
      rewrite mm_mul_assoc by auto with canon. done.
    + by rewrite Nat.add_0_r.
Qed.

Lemma pow_npow a e : canon F a -> 0 <= e < 2 ^ 64 -> f_pow a e = npow a (Z.to_nat e).
Proof.
  intros. unfold f_pow. rewrite pow_loop_correct by auto with canon.
  apply mm_mul_1. auto with canon.
Qed.

(** Fermat's criterion: when [a^(q-1) = 1] the provided [inv] inverts [a]. *)
Lemma inv_of_fermat a :
  canon F a -> f_Q < 2 ^ 32 -> npow a (Z.to_nat (f_Q - 1)) = 1 ->
  f_mul (f_inv a) a = 1.
Proof.
  intros Ha HQ Hf. pose proof mm_Q. unfold f_inv. rewrite pow_npow by lia || done.
  rewrite mm_mul_comm by auto with canon. rewrite <- Hf.
  replace (Z.to_nat (f_Q - 1)) with (S (Z.to_nat (f_Q - 2))) by lia. done.
Qed.

End Pow.

Section LawsCanon.
Context {F : Field} {FL : FieldLaws F}.
Lemma fl_canon_0 : canon F 0.
Proof. apply canon_0. Qed.
Lemma fl_canon_1 : canon F 1.
Proof. apply canon_1. Qed.
Lemma fl_npow_in a n : canon F a -> canon F (npow a n).
Proof. apply npow_in. Qed.
End LawsCanon.
#[global] Hint Resolve fl_canon_0 fl_canon_1 fl_npow_in : canon.
#[global] Hint Resolve fl_add_in fl_neg_in fl_mul_in : canon.

(** ** The carrier: canonical codes as a type, so that [ring] and [field] apply *)

Record elt (F : Field) := mk_elt {
  code : Z;
  code_ok : ((0 <=? code) && (code <? f_Q)) = true;
}.
Arguments mk_elt {F} code code_ok.
Arguments code {F} e.

Section Carrier.
Context {F : Field}.

Lemma canon_bool z : canon F z <-> ((0 <=? z) && (z <? f_Q)) = true.
Proof. unfold canon. rewrite andb_true_iff, Z.leb_le, Z.ltb_lt. lia. Qed.

Definition elt_of (z : Z) (H : canon F z) : elt F := mk_elt z (proj1 (canon_bool z) H).

Lemma code_in (x : elt F) : canon F (code x).
Proof. destruct x as [z H]. by apply canon_bool. Qed.

Lemma code_inj (x y : elt F) : code x = code y -> x = y.
Proof.
  destruct x as [x Hx], y as [y Hy]. simpl. intros ->. f_equal.
  apply (UIP_dec Bool.bool_dec).
Qed.

#[global] Instance elt_eq_dec : EqDecision (elt F).
Proof.
  intros x y. destruct (decide (code x = code y)) as [E|E].
  - left. by apply code_inj.
  - right. congruence.
Defined.

Lemma lift_code z : canon F z -> exists x : elt F, z = code x.
Proof. intros H. by exists (elt_of z H). Qed.

Context {FL : FieldLaws F}.

Definition e0 : elt F := elt_of 0 canon_0.
Definition e1 : elt F := elt_of 1 canon_1.
Definition eadd (x y : elt F) : elt F :=
  elt_of (f_add (code x) (code y)) (fl_add_in _ _ (code_in x) (code_in y)).
Definition emul (x y : elt F) : elt F :=
  elt_of (f_mul (code x) (code y)) (fl_mul_in _ _ (code_in x) (code_in y)).
Definition eopp (x : elt F) : elt F := elt_of (f_neg (code x)) (fl_neg_in _ (code_in x)).
Definition esub (x y : elt F) : elt F := eadd x (eopp y).

Lemma inv_in a : canon F a -> canon F (f_inv a).
Proof.
  intros Ha. unfold f_inv. pose proof fl_Q.
  rewrite pow_npow by (done || lia). by apply npow_in.
Qed.

Definition einv (x : elt F) : elt F := elt_of (f_inv (code x)) (inv_in _ (code_in x)).
Definition ediv (x y : elt F) : elt F := emul x (einv y).

Lemma elt_ring : ring_theory e0 e1 eadd emul esub eopp eq.
Proof.
  split; intros; apply code_inj; simpl;
    eauto using fl_add_0, fl_add_comm, fl_add_assoc, fl_mul_1, fl_mul_comm,
      fl_mul_assoc, fl_distr, fl_add_neg, code_in.
Qed.

Lemma elt_field : field_theory e0 e1 eadd emul esub eopp ediv einv eq.
Proof.
  split; [apply elt_ring| |done|].
  - intros H. apply (f_equal code) in H. done.
  - intros x Hx. apply code_inj. simpl. apply fl_inv; [apply code_in|].
    intros Hz. apply Hx. by apply code_inj.
Qed.

Lemma sub_in a b : canon F a -> canon F b -> canon F (f_sub a b).
Proof. intros. rewrite fl_sub by done. auto with canon. Qed.

Lemma div_in a b : canon F a -> canon F b -> canon F (f_div a b).
Proof. intros. unfold f_div. auto using inv_in with canon. Qed.

Lemma code_add x y : f_add (code x) (code y) = code (eadd x y).
Proof. reflexivity. Qed.
Lemma code_mul x y : f_mul (code x) (code y) = code (emul x y).
Proof. reflexivity. Qed.
Lemma code_neg x : f_neg (code x) = code (eopp x).
Proof. reflexivity. Qed.
Lemma code_inv x : f_inv (code x) = code (einv x).
Proof. reflexivity. Qed.
Lemma code_sub x y : f_sub (code x) (code y) = code (esub x y).
Proof. simpl. apply fl_sub; apply code_in. Qed.
Lemma code_0 : 0 = code e0. Proof. reflexivity. Qed.
Lemma code_1 : 1 = code e1. Proof. reflexivity. Qed.

Lemma code_eq x y : code x = code y <-> x = y.
Proof. split; [apply code_inj|congruence]. Qed.

Add Field efield : elt_field.

Lemma elt_mul_eq_0 x y : emul x y = e0 <-> x = e0 \/ y = e0.
Proof.
  split; [|by intros [-> | ->]; ring]. intros H.
  destruct (decide (x = e0)) as [|Hx]; [by left|right].
  transitivity (emul (einv x) (emul x y)); [by field|]. rewrite H. ring.
Qed.

Lemma elt_sub_eq_0 x y : esub x y = e0 <-> x = y.
Proof.
  split; intros H; [|subst; ring].
  transitivity (eadd (esub x y) y); [ring|]. rewrite H. ring.
Qed.

End Carrier.

#[global] Hint Resolve sub_in div_in inv_in code_in : canon.

(** [lift_codes]: every canonical code of the context becomes the code of a carrier
    element, and the operations on codes become the carrier's. *)
Ltac fold_codes :=
  repeat match goal with
         | H : context [f_add (code _) (code _)] |- _ => rewrite code_add in H
         | H : context [f_mul (code _) (code _)] |- _ => rewrite code_mul in H
         | H : context [f_sub (code _) (code _)] |- _ => rewrite code_sub in H
         | H : context [f_neg (code _)] |- _ => rewrite code_neg in H
         | H : context [f_inv (code _)] |- _ => rewrite code_inv in H
         end;
  repeat first [ rewrite code_add | rewrite code_mul | rewrite code_sub
               | rewrite code_neg | rewrite code_inv ].

Ltac lift_codes :=
  repeat match goal with
         | H : canon ?F ?a |- _ =>
             is_var a;
             let x := fresh "x" in
             destruct (lift_code a H) as [x ->]; clear H; rename x into a
         end;
  fold_codes.
