(* ===== verification/Gf2m.v ===== *)
(** * Binary extension fields GF(2^m) (fanos-field/src/gf2m.rs)

    [clmul] is the branchless shift-and-reduce loop on 32-bit words, masks included.
    The file shows that for every supported degree [1 <= m <= 16] the operations satisfy
    [FieldLaws]:

    - the loop computes the sum over the set bits [i] of [b] of [xtime^i a], where
      [xtime] is multiplication by the indeterminate ([clmul_opm]);
    - two linear maps that commute with [xtime] agree when they agree at 1, which gives
      commutativity and associativity whatever the reduction polynomial is;
    - the tabulated polynomials are primitive: the orbit of 1 under [xtime] returns to 1
      after exactly [2^m - 1] steps (evaluated), so every non-zero element is a power of
      the generator and Fermat's power inverts it. *)
From S2P Require Import Prelude Field.
Local Open Scope Z_scope.

Definition irreducible (m : Z) : Z :=
  match m with
  | 1 => 3
  | 2 => 7
  | 3 => 11
  | 4 => 19
  | 5 => 37
  | 6 => 67
  | 7 => 131
  | 8 => 0x11D
  | 9 => 0x211
  | 10 => 0x409
  | 11 => 0x805
  | 12 => 0x1053
  | 13 => 0x201B
  | 14 => 0x4443
  | 15 => 0x8003
  | 16 => 0x1100B
  | _ => 0
  end.

Definition POLY (m : Z) : Z := irreducible m.
Definition MASK (m : Z) : Z :=
  if 32 <=? m then 2 ^ 32 - 1 else w32 (Z.shiftl 1 m) - 1.

(** One iteration of the [while i < M] loop, on the loop's mutable variables. *)
Definition clmul_step (m : Z) (st : Z * Z * Z) : Z * Z * Z :=
  let '(a, b, acc) := st in
  let add_mask := w32 (0 - Z.land b 1) in
  let acc := Z.lxor acc (Z.land a add_mask) in
  let b := Z.shiftr b 1 in
  let reduce_mask := w32 (0 - Z.land (Z.shiftr a (m - 1)) 1) in
  let a := Z.land (Z.lxor (w32 (Z.shiftl a 1)) (Z.land (POLY m) reduce_mask)) (MASK m) in
  (a, b, acc).

Definition clmul (m a b : Z) : Z :=
  let '(_, _, acc) :=
    Nat.iter (Z.to_nat m) (clmul_step m) (Z.land a (MASK m), Z.land b (MASK m), 0) in
  Z.land acc (MASK m).

Definition Gf2m (m : Z) : Field := {|
  f_Q := w32 (Z.shiftl 1 m);
  f_P := 2;
  f_M := m;
  f_KIND := Binary;
  f_add a b := Z.land (Z.lxor a b) (MASK m);
  f_sub a b := Z.land (Z.lxor a b) (MASK m);
  f_neg a := Z.land a (MASK m);
  f_mul a b := clmul m a b;
  f_reduce x := Z.land (w32 x) (MASK m);
|}.

(** The type aliases of lib.rs. *)
Definition F2 := Gf2m 1.
Definition F4 := Gf2m 2.
Definition F8 := Gf2m 3.
Definition F16 := Gf2m 4.
Definition F32b := Gf2m 5.
Definition F256 := Gf2m 8.

(** ** Multiplication by the indeterminate *)

Definition xtime (m a : Z) : Z :=
  wrap m (Z.lxor (Z.shiftl a 1) (if Z.testbit a (m - 1) then POLY m else 0)).

(** [opm m n b a]: the sum of [xtime^i a] over the set bits [i < n] of [b]. *)
Fixpoint opm (m : Z) (n : nat) (b a : Z) : Z :=
  match n with
  | O => 0
  | S n => Z.lxor (if Z.testbit b 0 then a else 0)
                  (opm m n (Z.shiftr b 1) (xtime m a))
  end.

Section Degree.
Context (m : Z) (Hm : 1 <= m <= 16).

Abbreviation X := (xtime m).
Abbreviation op := (opm m (Z.to_nat m)).
Abbreviation inF := (in_u m).

Lemma MASK_pow : MASK m = 2 ^ m - 1.
Proof.
  unfold MASK. destruct (Z.leb_spec 32 m); [lia|].
  rewrite Z.shiftl_1_l, wrap_small; [done|].
  split; [apply Z.pow_nonneg; lia|]. apply Z.pow_lt_mono_r; lia.
Qed.

Lemma land_MASK x : Z.land x (MASK m) = wrap m x.
Proof. rewrite MASK_pow. apply land_ones_wrap. lia. Qed.

Lemma Q_pow : f_Q (Field := Gf2m m) = 2 ^ m.
Proof.
  simpl. rewrite Z.shiftl_1_l, wrap_small; [done|].
  split; [apply Z.pow_nonneg; lia|]. apply Z.pow_lt_mono_r; lia.
Qed.

Lemma canon_inF a : canon (Gf2m m) a <-> inF a.
Proof. unfold canon, in_u. by rewrite Q_pow. Qed.

Lemma POLY_u32 : in_u 32 (POLY m).
Proof.
  assert (m ∈ seqZ 1 16) as Hin by (apply elem_of_seqZ; lia).
  revert Hin. generalize m. apply (proj1 (Forall_forall _ _)).
  refine (bool_decide_unpack (Forall (fun z => in_u 32 (POLY z)) (seqZ 1 16)) _).
  vm_compute. done.
Qed.

(** The word-level body of the loop is [xtime] and a conditional addition. *)
Lemma clmul_step_eq a b acc :
  inF a ->
  clmul_step m (a, b, acc) =
    (X a, Z.shiftr b 1, Z.lxor acc (if Z.testbit b 0 then a else 0)).
Proof.
  intros Ha. unfold clmul_step, xtime.
  rewrite !land_1_b2z, Z.shiftr_spec, Z.add_0_l by lia.
  assert (in_u 32 a) by (apply (in_u_mono m); [lia|done]).
  pose proof POLY_u32. rewrite !land_mask, land_MASK by (lia || done).
  do 2 f_equal. rewrite !wrap_lxor by lia. f_equal.
  apply Z.bits_inj'. intros i Hi. rewrite !wrap_spec by lia.
  destruct (Z.ltb_spec i m), (Z.ltb_spec i 32); simpl; done || lia.
Qed.

Lemma X_in a : inF (X a).
Proof. apply wrap_range. lia. Qed.

Lemma X_lxor a b : X (Z.lxor a b) = Z.lxor (X a) (X b).
Proof.
  unfold xtime. rewrite <- wrap_lxor by lia. f_equal. rewrite Z.lxor_spec.
  destruct (Z.testbit a (m - 1)), (Z.testbit b (m - 1)); simpl; bitwise.
Qed.

Lemma X_0 : X 0 = 0.
Proof. unfold xtime. rewrite Z.bits_0. simpl. apply wrap_small, in_u_0. lia. Qed.

Lemma opm_in n : forall b a, inF a -> inF (opm m n b a).
Proof.
  induction n; intros b a Ha; simpl; [apply in_u_0; lia|].
  apply in_u_lxor; [lia| |apply IHn, X_in]. destruct (Z.testbit b 0); [done|].
  apply in_u_0; lia.
Qed.

Lemma clmul_iter n : forall a b acc, inF a ->
  snd (Nat.iter n (clmul_step m) (a, b, acc)) = Z.lxor acc (opm m n b a).
Proof.
  induction n; intros a b acc Ha; simpl opm.
  - simpl. by rewrite Z.lxor_0_r.
  - rewrite Nat.iter_succ_r, clmul_step_eq by done.
    rewrite IHn by apply X_in. by rewrite Z.lxor_assoc.
Qed.

Lemma clmul_opm a b : inF a -> inF b -> clmul m a b = op b a.
Proof.
  intros Ha Hb. unfold clmul. rewrite !land_MASK, !wrap_small by done.
  destruct (Nat.iter _ _ _) as [[a' b'] acc] eqn:E.
  pose proof (clmul_iter (Z.to_nat m) a b 0 Ha) as H. rewrite E in H. simpl in H.
  rewrite H, Z.lxor_0_l, land_MASK. apply wrap_small, opm_in, Ha.
Qed.

Lemma clmul_in a b : inF a -> inF b -> inF (clmul m a b).
Proof. intros. rewrite clmul_opm by done. by apply opm_in. Qed.

(** ** Linearity *)

Lemma opm_lxor n : forall b a a', opm m n b (Z.lxor a a') = Z.lxor (opm m n b a) (opm m n b a').
Proof.
  induction n; intros; simpl; [done|].
  rewrite X_lxor, IHn. destruct (Z.testbit b 0); bitwise.
Qed.

Lemma opm_lxor_l n : forall b b' a, opm m n (Z.lxor b b') a = Z.lxor (opm m n b a) (opm m n b' a).
Proof.
  induction n; intros; simpl; [done|].
  rewrite Z.shiftr_lxor, IHn, Z.lxor_spec.
  destruct (Z.testbit b 0), (Z.testbit b' 0); simpl; bitwise.
Qed.

Lemma opm_0 n : forall b, opm m n b 0 = 0.
Proof.
  induction n; intros; simpl; [done|]. rewrite X_0, IHn. by destruct (Z.testbit b 0).
Qed.

(** A linear map commuting with [X] commutes with every [opm]. *)
Record commuting (T : Z -> Z) : Prop := {
  com_lxor a b : T (Z.lxor a b) = Z.lxor (T a) (T b);
  com_X a : T (X a) = X (T a);
}.

Lemma com_0 T : commuting T -> T 0 = 0.
Proof.
  intros HT. rewrite <- (Z.lxor_nilpotent 0) at 1. rewrite com_lxor by done.
  apply Z.lxor_nilpotent.
Qed.

Lemma com_opm T : commuting T -> forall n b a, T (opm m n b a) = opm m n b (T a).
Proof.
  intros HT. induction n; intros; simpl; [by apply com_0|].
  rewrite com_lxor, IHn, com_X by done.
  destruct (Z.testbit b 0); [done|]. by rewrite com_0.
Qed.

Lemma X_commuting : commuting X.
Proof. split; [apply X_lxor|done]. Qed.

Lemma op_commuting b : commuting (op b).
Proof. split; [intros; apply opm_lxor|intros; symmetry; apply com_opm, X_commuting]. Qed.

(** ** [op b 1 = b]: the powers of the indeterminate are the unit vectors *)

Lemma X_pow2 i : 0 <= i < m - 1 -> X (2 ^ i) = 2 ^ (i + 1).
Proof.
  intros Hi. unfold xtime. rewrite Z.pow2_bits_eqb by lia.
  destruct (Z.eqb_spec i (m - 1)); [lia|]. rewrite Z.lxor_0_r, Z.shiftl_mul_pow2 by lia.
  rewrite <- Z.pow_add_r by lia. apply wrap_small.
  split; [apply Z.pow_nonneg; lia|]. apply Z.pow_lt_mono_r; lia.
Qed.

Lemma opm_pow2 n : forall b i,
  0 <= i -> i + Z.of_nat n = m -> 0 <= b < 2 ^ Z.of_nat n -> opm m n b (2 ^ i) = b * 2 ^ i.
Proof.
  induction n as [|n IH]; intros b i Hi Hn Hb; simpl opm.
  { simpl in Hb. replace b with 0 by lia. done. }
  assert (Hb2 : 0 <= Z.shiftr b 1 < 2 ^ Z.of_nat n).
  { rewrite Z.shiftr_div_pow2 by lia. change (2 ^ 1) with 2.
    rewrite Nat2Z.inj_succ, Z.pow_succ_r in Hb by lia.
    split; [apply Z.div_pos; lia|apply Z.div_lt_upper_bound; lia]. }
  assert (Hrest : opm m n (Z.shiftr b 1) (X (2 ^ i)) = Z.shiftr b 1 * 2 ^ (i + 1)).
  { destruct n as [|n']; [simpl in Hb2; simpl; lia|].
    rewrite X_pow2, IH by lia. done. }
  rewrite Hrest, <- !Z.shiftl_mul_pow2 by lia.
  apply Z.bits_inj'. intros j Hj. rewrite Z.lxor_spec, !Z.shiftl_spec by lia.
  assert (Hbit : Z.testbit (if Z.testbit b 0 then 2 ^ i else 0) j
                 = (j =? i) && Z.testbit b 0).
  { destruct (Z.testbit b 0); rewrite ?Z.bits_0, ?andb_false_r, ?andb_true_r; [|done].
    rewrite Z.pow2_bits_eqb by lia. apply Z.eqb_sym. }
  rewrite Hbit. destruct (Z.eqb_spec j i) as [->|Hne]; simpl.
  - rewrite Z.sub_diag, (Z.testbit_neg_r _ (i - (i + 1))) by lia. by rewrite xorb_false_r.
  - destruct (Z_lt_le_dec j i).
    + by rewrite !Z.testbit_neg_r by lia.
    + rewrite Z.shiftr_spec by lia. simpl. f_equal. lia.
Qed.

Lemma op_1 b : inF b -> op b 1 = b.
Proof.
  intros Hb. pose proof (opm_pow2 (Z.to_nat m) b 0) as H.
  rewrite Z.pow_0_r, Z.mul_1_r in H. apply H; rewrite ?Z2Nat.id by lia; done || lia.
Qed.

Lemma inF_1 : inF 1.
Proof. split; [lia|]. apply Z.pow_gt_1; lia. Qed.

Lemma op_comm a b : inF a -> inF b -> op b a = op a b.
Proof.
  intros Ha Hb. rewrite <- (op_1 a Ha) at 1. rewrite (com_opm _ (op_commuting b)).
  by rewrite op_1.
Qed.

Lemma op_assoc a b c : inF a -> inF b -> inF c -> op c (op b a) = op (op c b) a.
Proof.
  intros Ha Hb Hc. rewrite (op_comm a (op c b)) by auto using opm_in.
  rewrite (com_opm _ (op_commuting a)). by rewrite (op_comm a b).
Qed.

(** ** The multiplicative group *)

Definition orbit (k : nat) : Z := Nat.iter k X 1.

Lemma orbit_in k : inF (orbit k).
Proof. destruct k; [apply inF_1|apply X_in]. Qed.

Lemma orbit_add j k : orbit (j + k) = Nat.iter j X (orbit k).
Proof. unfold orbit. apply Nat.iter_add. Qed.

Lemma op_iter_X j a b : op b (Nat.iter j X a) = Nat.iter j X (op b a).
Proof. induction j; simpl; [done|]. by rewrite (com_X _ (op_commuting b)), IHj. Qed.

Lemma op_orbit j k : op (orbit j) (orbit k) = orbit (j + k).
Proof.
  rewrite Nat.add_comm. rewrite orbit_add. unfold orbit at 2. rewrite op_iter_X.
  by rewrite op_1 by apply orbit_in.
Qed.

End Degree.

(** The orbit of 1 under [xtime] first returns to 1 after exactly [n] steps. *)
Fixpoint first_return (m : Z) (n : nat) (a : Z) : bool :=
  match n with
  | O => false
  | S O => xtime m a =? 1
  | S n => negb (xtime m a =? 1) && first_return m n (xtime m a)
  end.

Definition primitive (m : Z) : bool := first_return m (Z.to_nat (2 ^ m - 1)) 1.

Lemma primitive_all : forallb primitive (seqZ 1 16) = true.
Proof. vm_compute. reflexivity. Qed.

Section Primitive.
Context (m : Z) (Hm : 1 <= m <= 16).

Lemma first_return_spec n : forall a, first_return m n a = true ->
  Nat.iter n (xtime m) a = 1 /\
  (forall k, (0 < k < n)%nat -> Nat.iter k (xtime m) a <> 1).
Proof.
  induction n as [|n IH]; intros a H; [done|]. destruct n as [|n].
  - simpl in H |- *. split; [by apply Z.eqb_eq|lia].
  - cbn [first_return] in H. apply andb_true_iff in H as [H1 H2].
    apply negb_true_iff, Z.eqb_neq in H1. apply IH in H2 as [H2 H3].
    rewrite Nat.iter_succ_r. split; [done|]. intros k Hk.
    destruct k as [|[|k]]; [lia|done|]. rewrite Nat.iter_succ_r. apply H3. lia.
Qed.

(** The order of the multiplicative group. *)
Definition group_order : nat := Z.to_nat (2 ^ m - 1).

Lemma order_pos : (0 < group_order)%nat.
Proof. unfold group_order. pose proof (Z.pow_gt_1 2 m). lia. Qed.

Lemma orbit_order :
  orbit m group_order = 1 /\
  forall k, (0 < k < group_order)%nat -> orbit m k <> 1.
Proof.
  apply first_return_spec. pose proof primitive_all as H.
  rewrite forallb_True_1 in H || rewrite forallb_forall in H.
  apply H, list_elem_of_In, elem_of_seqZ. lia.
Qed.

Lemma orbit_nonzero k : (k <= group_order)%nat -> orbit m k <> 0.
Proof.
  intros Hk E. destruct orbit_order as [H1 _].
  replace group_order with ((group_order - k) + k)%nat in H1 by lia.
  rewrite orbit_add, E in H1.
  assert (E0 : forall j, Nat.iter j (xtime m) 0 = 0).
  { induction j as [|j IHj]; simpl; [done|]. by rewrite IHj, X_0. }
  by rewrite E0 in H1.
Qed.

Lemma orbit_inj j k :
  (j < k < group_order)%nat -> orbit m j <> orbit m k.
Proof.
  intros Hjk E. destruct orbit_order as [H1 H2].
  apply (H2 (group_order - k + j)%nat); [lia|].
  rewrite orbit_add, E, <- orbit_add. by replace (group_order - k + k)%nat with group_order by lia.
Qed.

(** Every non-zero element is a power of the generator. *)
Lemma orbit_onto a : in_u m a -> a <> 0 -> exists k, (k < group_order)%nat /\ a = orbit m k.
Proof.
  intros Ha Hnz.
  set (L := map (orbit m) (seq 0 group_order)).
  set (U := map Z.of_nat (seq 1 group_order)).
  assert (HU : forall x, In x U <-> in_u m x /\ x <> 0).
  { intros x. unfold U. rewrite in_map_iff. unfold in_u, group_order.
    pose proof (Z.pow_pos_nonneg 2 m). split.
    - intros (n & <- & Hn%in_seq). lia.
    - intros [? ?]. exists (Z.to_nat x). rewrite in_seq. lia. }
  assert (Hnd : List.NoDup L).
  { apply NoDup_ListNoDup, NoDup_alt. unfold L. intros i j x Hi Hj.
    apply list_lookup_fmap_Some in Hi as (i' & -> & [-> Hi]%lookup_seq).
    apply list_lookup_fmap_Some in Hj as (j' & E & [-> Hj]%lookup_seq). simpl in E.
    destruct (Nat.lt_trichotomy i j) as [?|[?|?]]; [|done|]; exfalso.
    - by apply (orbit_inj i j).
    - by apply (orbit_inj j i). }
  assert (Hincl : incl L U).
  { intros x (k & <- & Hk%in_seq)%in_map_iff. apply HU.
    split; [by apply orbit_in|apply orbit_nonzero; lia]. }
  assert (Hback : incl U L).
  { apply (List.NoDup_length_incl Hnd); [|done]. unfold L, U.
    rewrite !List.length_map, !List.length_seq. done. }
  assert (HaU : In a U) by (by apply HU).
  apply Hback, in_map_iff in HaU as (k & <- & Hk%in_seq). exists k. split; [lia|done].
Qed.

End Primitive.

(** ** The field laws *)

Lemma gf2m_monoid m : 1 <= m <= 16 -> MulMonoid (Gf2m m).
Proof.
  intros Hm. split.
  - rewrite Q_pow by done. pose proof (Z.pow_le_mono_r 2 1 m). lia.
  - intros a b Ha Hb. rewrite canon_inF in * by done. simpl.
    by apply clmul_in.
  - intros a b Ha Hb. rewrite canon_inF in * by done. simpl.
    rewrite !clmul_opm by done. by apply op_comm.
  - intros a b c Ha Hb Hc. rewrite canon_inF in * by done. simpl.
    rewrite !clmul_opm by (done || by apply clmul_in). symmetry. by apply op_assoc.
  - intros a Ha. rewrite canon_inF in * by done. simpl.
    rewrite clmul_opm by (done || by apply inF_1). by apply op_1.
Qed.

Lemma npow_orbit m k n :
  1 <= m <= 16 -> npow (F := Gf2m m) (orbit m k) n = orbit m (n * k).
Proof.
  intros Hm. induction n as [|n IH]; simpl; [done|].
  rewrite IH, clmul_opm by (done || by apply orbit_in). rewrite op_orbit by done.
  by rewrite Nat.add_comm.
Qed.

Lemma orbit_multiple m k : 1 <= m <= 16 -> orbit m (group_order m * k) = 1.
Proof.
  intros Hm. destruct (orbit_order m Hm) as [H1 _].
  induction k as [|k IH]; [by rewrite Nat.mul_0_r|].
  by rewrite Nat.mul_succ_r, Nat.add_comm, orbit_add, IH.
Qed.

Lemma gf2m_inv m a :
  1 <= m <= 16 -> canon (Gf2m m) a -> a <> 0 ->
  f_mul (Field := Gf2m m) (f_inv (F := Gf2m m) a) a = 1.
Proof.
  intros Hm Ha Hnz. pose proof (gf2m_monoid m Hm) as MM.
  apply inv_of_fermat; [done| |].
  - rewrite Q_pow by done. apply Z.pow_lt_mono_r; lia.
  - apply canon_inF in Ha; [|done].
    destruct (orbit_onto m Hm a Ha Hnz) as (k & _ & ->).
    rewrite npow_orbit, Q_pow by done. by apply orbit_multiple.
Qed.

Lemma gf2m_laws m : 1 <= m <= 16 -> FieldLaws (Gf2m m).
Proof.
  intros Hm. pose proof (gf2m_monoid m Hm) as MM.
  assert (Hadd : forall a b, in_u m a -> in_u m b ->
            Z.land (Z.lxor a b) (MASK m) = Z.lxor a b).
  { intros. rewrite land_MASK by done. apply wrap_small, in_u_lxor; lia || done. }
  assert (Hneg : forall a, in_u m a -> Z.land a (MASK m) = a).
  { intros. rewrite land_MASK by done. by apply wrap_small. }
  assert (Hx : forall a b, in_u m a -> in_u m b -> in_u m (Z.lxor a b)).
  { intros. apply in_u_lxor; lia || done. }
  pose proof (in_u_0 m ltac:(lia)) as H0.
  pose proof (clmul_in m Hm) as Hc.
  split; try apply MM; intros; rewrite ?canon_inF in * by done; simpl;
    rewrite ?Hneg, ?Hadd by auto; auto.
  - pose proof (Q_pow m Hm) as HQ. simpl in HQ. rewrite HQ.
    pose proof (Z.pow_le_mono_r 2 1 m). pose proof (Z.pow_lt_mono_r 2 m 32). lia.
  - apply Z.lxor_comm.
  - rewrite (Hadd b c), (Hadd a b), !Hadd by auto. symmetry. apply Z.lxor_assoc.
  - rewrite (Hneg a), Hadd by auto. apply Z.lxor_nilpotent.
  - by rewrite (Hneg b), Hadd by auto.
  - rewrite !clmul_opm by auto. apply opm_lxor. lia.
  - apply gf2m_inv; [done|by apply canon_inF|done].
Qed.

#[global] Instance F2_laws : FieldLaws F2. Proof. apply gf2m_laws. lia. Qed.
#[global] Instance F4_laws : FieldLaws F4. Proof. apply gf2m_laws. lia. Qed.
#[global] Instance F8_laws : FieldLaws F8. Proof. apply gf2m_laws. lia. Qed.
#[global] Instance F16_laws : FieldLaws F16. Proof. apply gf2m_laws. lia. Qed.
#[global] Instance F32b_laws : FieldLaws F32b. Proof. apply gf2m_laws. lia. Qed.
#[global] Instance F256_laws : FieldLaws F256. Proof. apply gf2m_laws. lia. Qed.

(** ** What the loop computes: the carry-less product, reduced

    [clprod] is the schoolbook carry-less (polynomial) product; [ideal p] the multiples of
    [p] in GF(2)[x], a polynomial being the integer whose bits are its coefficients. *)

Fixpoint clprod (n : nat) (a b : Z) : Z :=
  match n with
  | O => 0
  | S n => Z.lxor (if Z.testbit b 0 then a else 0)
                  (clprod n (Z.shiftl a 1) (Z.shiftr b 1))
  end.

Inductive ideal (p : Z) : Z -> Prop :=
| ideal_0 : ideal p 0
| ideal_gen : ideal p p
| ideal_x x : ideal p x -> ideal p (Z.shiftl x 1)
| ideal_lxor x y : ideal p x -> ideal p y -> ideal p (Z.lxor x y).

Section Reduction.
Context (m : Z) (Hm : 1 <= m <= 16).

Lemma POLY_degree : in_u (m + 1) (POLY m) /\ Z.testbit (POLY m) m = true.
Proof.
  assert (m ∈ seqZ 1 16) as Hin by (apply elem_of_seqZ; lia).
  revert Hin. generalize m. apply (proj1 (Forall_forall _ _)).
  refine (bool_decide_unpack
    (Forall (fun z => in_u (z + 1) (POLY z) /\ Z.testbit (POLY z) z = true) (seqZ 1 16)) _).
  vm_compute. done.
Qed.

(** One step of [xtime] is the shift, minus the polynomial when the degree reached [m]. *)
Lemma xtime_mod a :
  in_u m a ->
  xtime m a = Z.lxor (Z.shiftl a 1) (if Z.testbit a (m - 1) then POLY m else 0).
Proof.
  intros Ha. destruct POLY_degree as [Hp Hpm]. unfold xtime. apply wrap_small, in_u_bits; [lia| |].
  - apply Z.lxor_nonneg. rewrite Z.shiftl_nonneg. destruct (Z.testbit a (m - 1)).
    + split; intros; [apply Hp|apply Ha].
    + split; intros; [lia|apply Ha].
  - intros i Hi. rewrite Z.lxor_spec, Z.shiftl_spec by lia.
    destruct (Z.eq_dec i m) as [->|Hne].
    + destruct (Z.testbit a (m - 1)) eqn:E; [by rewrite Hpm|by rewrite Z.bits_0].
    + rewrite (testbit_high m a) by (done || lia).
      destruct (Z.testbit a (m - 1)); [|by rewrite Z.bits_0].
      by rewrite (testbit_high (m + 1) (POLY m)) by (done || lia).
Qed.

Lemma clprod_shiftl n : forall a b, clprod n (Z.shiftl a 1) b = Z.shiftl (clprod n a b) 1.
Proof.
  induction n as [|n IH]; intros; simpl; [done|].
  rewrite Z.shiftl_lxor, <- IH. destruct (Z.testbit b 0); [done|].
  by rewrite Z.shiftl_0_l.
Qed.

(** Congruent multiplicands have congruent products. *)
Lemma clprod_ideal n : forall a b, ideal (POLY m) a -> ideal (POLY m) (clprod n a b).
Proof.
  induction n as [|n IH]; intros; simpl; [constructor|].
  apply ideal_lxor; [destruct (Z.testbit b 0); [done|constructor]|].
  by apply IH, ideal_x.
Qed.

Lemma clprod_lxor n : forall a a' b,
  clprod n (Z.lxor a a') b = Z.lxor (clprod n a b) (clprod n a' b).
Proof.
  induction n as [|n IH]; intros; simpl; [done|].
  rewrite Z.shiftl_lxor, IH. destruct (Z.testbit b 0); bitwise.
Qed.

Lemma opm_clprod n : forall a b,
  in_u m a -> ideal (POLY m) (Z.lxor (clprod n a b) (opm m n b a)).
Proof.
  induction n as [|n IH]; intros a b Ha; simpl; [constructor|].
  set (h := if Z.testbit b 0 then a else 0).
  set (c := if Z.testbit a (m - 1) then POLY m else 0).
  replace (Z.lxor _ _) with
    (Z.lxor (clprod n c (Z.shiftr b 1))
       (Z.lxor (clprod n (xtime m a) (Z.shiftr b 1)) (opm m n (Z.shiftr b 1) (xtime m a)))).
  - apply ideal_lxor; [|by apply IH, X_in]. apply clprod_ideal.
    unfold c. destruct (Z.testbit a (m - 1)); constructor.
  - rewrite (xtime_mod a Ha), clprod_lxor. fold c.
    generalize (clprod n (Z.shiftl a 1) (Z.shiftr b 1)) as s, (clprod n c (Z.shiftr b 1)) as t,
      (opm m n (Z.shiftr b 1) (Z.lxor (Z.shiftl a 1) c)) as o. intros. bitwise.
Qed.

Lemma clmul_reduces a b :
  in_u m a -> in_u m b ->
  in_u m (clmul m a b) /\
  ideal (POLY m) (Z.lxor (clprod (Z.to_nat m) a b) (clmul m a b)).
Proof.
  intros. split; [by apply clmul_in|]. rewrite clmul_opm by done. by apply opm_clprod.
Qed.

End Reduction.

(** For every supported degree the branchless word loop [clmul] computes the
    carry-less product of its operands reduced modulo the degree's polynomial: the result
    is an [m]-bit code that differs from the schoolbook product by a multiple of [POLY]. *)
Theorem clmul_is_reduced_product (m a b : Z) :
  1 <= m <= 16 -> 0 <= a < 2 ^ m -> 0 <= b < 2 ^ m ->
  0 <= clmul m a b < 2 ^ m /\
  ideal (POLY m) (Z.lxor (clprod (Z.to_nat m) a b) (clmul m a b)).
Proof. intros Hm Ha Hb. by apply clmul_reduces. Qed.

Lemma clmul_is_reduced_product_witness :
  clmul 8 0x53 0xCA = 143 /\
  ideal (POLY 8) (Z.lxor (clprod (Z.to_nat 8) 0x53 0xCA) (clmul 8 0x53 0xCA)).
Proof.
  split; [vm_compute; reflexivity|].
  apply (clmul_is_reduced_product 8 0x53 0xCA); lia.
Defined.

(** C39: for every degree the code supports (1 to 16) the operations of [Gf2m] form a
    field on the codes [0 .. 2^m - 1]: closed, commutative, associative, distributive, with
    [inv] (the Fermat power computed by the square-and-multiply ladder) inverting every
    non-zero element. *)
Theorem gf2m_is_field (m : Z) : 1 <= m <= 16 -> FieldLaws (Gf2m m).
Proof. exact (gf2m_laws m). Qed.

Lemma gf2m_is_field_witness :
  FieldLaws (Gf2m 16) /\ f_Q (Field := Gf2m 16) = 65536 /\
  f_mul (Field := Gf2m 16) (f_inv (F := Gf2m 16) 0xBEEF) 0xBEEF = 1.
Proof.
  split; [apply (gf2m_is_field 16); lia|]. split; vm_compute; reflexivity.
Defined.
