(* ===== verification/GfP.v ===== *)
(** * Prime fields GF(p) (fanos-field/src/gfp.rs)

    [is_prime] is the trial-division gate that decides at compile time whether [GfP<p>]
    builds; it is proved to decide primality of every 32-bit number.  For a prime modulus
    the operations satisfy [FieldLaws]. *)
From Stdlib Require Import Znumtheory Zdivisibility ZmodInv.
From S2P Require Import Prelude Field.
Local Open Scope Z_scope.

(** The [while i.saturating_mul(i) <= n] loop; [None] is exhausted fuel. *)
Fixpoint is_prime_loop (fuel : nat) (n i : Z) : option bool :=
  match fuel with
  | O => None
  | S fuel =>
      if sat_mul 32 i i <=? n then
        if n mod i =? 0 then Some false
        else is_prime_loop fuel n (i + 2)
      else Some true
  end.

(** Fuel: [i] starts at 3 and stops at the first odd number whose square exceeds [n], so
    [sqrt n] iterations suffice ([is_prime_total]). *)
Definition is_prime_fuel (n : Z) : nat := Z.to_nat (Z.sqrt n).

Definition is_prime_run (n : Z) : option bool :=
  if n <? 2 then Some false
  else if n mod 2 =? 0 then Some (n =? 2)
  else is_prime_loop (is_prime_fuel n) n 3.

Definition is_prime (n : Z) : bool :=
  match is_prime_run n with Some b => b | None => false end.

Definition GfP (p : Z) : Field := {|
  f_Q := p;
  f_P := p;
  f_M := 1;
  f_KIND := Prime;
  f_add a b := let s := a + b in w32 (if p <=? s then s - p else s);
  f_sub a b := if b <=? a then a - b else w32 (w32 (a + p) - b);
  f_neg a := if a =? 0 then 0 else p - a;
  f_mul a b := w32 ((a * b) mod p);
  f_reduce x := w32 (x mod p);
|}.

Definition F5 := GfP 5.
Definition F11 := GfP 11.
Definition F7 := GfP 7.
Definition F13 := GfP 13.
Definition F31 := GfP 31.
Definition F127 := GfP 127.

(** ** The primality gate *)

(** No divisor below [i]: what the loop has established when it tests [i]. *)
Definition no_divisor_below (n i : Z) : Prop := forall d, 1 < d < i -> ~ (d | n).

Lemma no_divisor_sqrt n i :
  1 < n -> 1 < i -> no_divisor_below n i -> n < i * i -> Z.prime n.
Proof.
  intros Hn Hi Hno Hsq. split; [done|]. intros d Hd [e He].
  assert (1 < e) by nia.
  destruct (Z_lt_le_dec d i).
  - apply (Hno d); [lia|]. by exists e.
  - apply (Hno e); [nia|]. exists d. lia.
Qed.

Lemma no_divisor_step n i :
  1 < i -> Z.odd i = true -> Z.odd n = true ->
  no_divisor_below n i -> n mod i <> 0 -> no_divisor_below n (i + 2).
Proof.
  intros Hi Hoi Hon Hno Hmod d Hd Hdiv.
  destruct (Z_lt_le_dec d i); [by apply (Hno d); [lia|]|].
  destruct (Z.eq_dec d i) as [->|].
  - by apply Hmod, Z.mod_divide; [lia|].
  - assert (d = i + 1) as -> by lia. destruct Hdiv as [e ->].
    rewrite Z.odd_mul, Z.odd_add, Hoi in Hon. rewrite andb_false_r in Hon. done.
Qed.

Lemma sat_sq_le n i : 1 < i -> 0 <= n < 2 ^ 32 - 1 -> (sat_mul 32 i i <=? n) = (i * i <=? n).
Proof.
  intros. unfold sat_mul. destruct (Z.leb_spec (i * i) n), (Z.leb_spec (Z.min (i * i) (2 ^ 32 - 1)) n);
    done || lia.
Qed.

Lemma is_prime_loop_correct fuel : forall n i,
  3 <= n < 2 ^ 32 - 1 -> Z.odd n = true -> 3 <= i -> Z.odd i = true -> no_divisor_below n i ->
  (1 <= fuel)%nat -> Z.sqrt n < i + 2 * Z.of_nat fuel - 2 ->
  exists b, is_prime_loop fuel n i = Some b /\ (b = true <-> Z.prime n).
Proof.
  induction fuel as [|fuel IH]; intros n i Hn Hon Hi Hoi Hno H1 Hfuel; [lia|].
  cbn [is_prime_loop]. rewrite sat_sq_le by lia.
  destruct (Z.leb_spec (i * i) n) as [Hle|Hgt].
  - assert (i <= Z.sqrt n) by (apply Z.sqrt_le_square; lia).
    destruct (Z.eqb_spec (n mod i) 0) as [Hd|Hd].
    + exists false. split; [done|]. split; [done|]. intros [_ Hp]. exfalso.
      apply (Hp i); [nia|]. by apply Z.mod_divide; [lia|].
    + apply IH; try lia; [done|by rewrite Z.odd_add, Hoi|].
      by apply no_divisor_step; try lia.
  - exists true. split; [done|]. split; [intros _|done].
    by apply (no_divisor_sqrt n i); try lia.
Qed.

Lemma is_prime_run_correct n :
  0 <= n < 2 ^ 32 -> exists b, is_prime_run n = Some b /\ (b = true <-> Z.prime n).
Proof.
  intros Hn. unfold is_prime_run. destruct (Z.ltb_spec n 2) as [H2|H2].
  { exists false. split; [done|]. split; [done|]. intros [? _]. lia. }
  destruct (Z.eqb_spec (n mod 2) 0) as [He|He].
  { exists (n =? 2). split; [done|]. rewrite Z.eqb_eq. split; [intros ->; apply Z.prime_2|].
    intros [_ Hp]. destruct (Z.eq_dec n 2); [done|]. exfalso.
    apply (Hp 2); [lia|]. by apply Z.mod_divide; [lia|]. }
  assert (Hodd : Z.odd n = true).
  { pose proof (Zmod_odd n) as E. destruct (Z.odd n); [done|lia]. }
  assert (n <> 2) by (intros ->; done).
  assert (Hs : 1 <= Z.sqrt n) by (apply Z.sqrt_le_square; lia).
  destruct (Z.eq_dec n (2 ^ 32 - 1)) as [->|Hmax].
  { exists false. split; [reflexivity|]. split; [done|]. intros [_ Hp]. exfalso.
    apply (Hp 3); [lia|]. by exists 1431655765. }
  apply is_prime_loop_correct; try lia; try done.
  - intros d Hd Hdiv. assert (d = 2) as -> by lia. apply He, Z.mod_divide; done || lia.
  - unfold is_prime_fuel. lia.
  - unfold is_prime_fuel. lia.
Qed.

Lemma is_prime_iff n : 0 <= n < 2 ^ 32 -> is_prime n = true <-> Z.prime n.
Proof.
  intros Hn. unfold is_prime. destruct (is_prime_run_correct n Hn) as (b & -> & H). done.
Qed.

(** ** The field laws *)

Section Laws.
Context (p : Z) (Hp : Z.prime p) (Hw : p < 2 ^ 32).

Lemma p_ge_2 : 2 <= p.
Proof. by apply Z.prime_ge_2. Qed.

Lemma w32_canon x : 0 <= x < p -> w32 x = x.
Proof. intros. apply wrap_small. unfold in_u. lia. Qed.

Lemma gfp_add a b : canon (GfP p) a -> canon (GfP p) b -> f_add (Field := GfP p) a b = (a + b) mod p.
Proof.
  unfold canon. simpl. intros Ha Hb. destruct (Z.leb_spec p (a + b)).
  - rewrite w32_canon by lia. rewrite <- (Z.mod_small (a + b - p) p) by lia.
    rewrite <- (Z.mod_add (a + b - p) 1 p) by lia. f_equal. lia.
  - rewrite w32_canon by lia. symmetry. apply Z.mod_small. lia.
Qed.

Lemma gfp_neg a : canon (GfP p) a -> f_neg (Field := GfP p) a = (- a) mod p.
Proof.
  unfold canon. simpl. intros Ha. destruct (Z.eqb_spec a 0) as [->|].
  - by rewrite Z.mod_0_l by lia.
  - rewrite <- (Z.mod_add (- a) 1 p), Z.mod_small by lia. lia.
Qed.

Lemma gfp_sub a b : canon (GfP p) a -> canon (GfP p) b -> f_sub (Field := GfP p) a b = (a - b) mod p.
Proof.
  unfold canon. simpl. intros Ha Hb. destruct (Z.leb_spec b a).
  - rewrite Z.mod_small by lia. done.
  - unfold wrap. rewrite Zminus_mod_idemp_l.
    rewrite <- (Z.mod_add (a - b) 1 p), !Z.mod_small by lia. lia.
Qed.

Lemma gfp_mul a b : f_mul (Field := GfP p) a b = (a * b) mod p.
Proof. pose proof p_ge_2. simpl. apply w32_canon, Z.mod_pos_bound. lia. Qed.

Lemma gfp_mod_in x : canon (GfP p) (x mod p).
Proof. pose proof p_ge_2. unfold canon. simpl. apply Z.mod_pos_bound. lia. Qed.

Lemma gfp_mod_small a : canon (GfP p) a -> a mod p = a.
Proof. apply Z.mod_small. Qed.

Lemma gfp_monoid : MulMonoid (GfP p).
Proof.
  pose proof p_ge_2. split; intros; rewrite ?gfp_mul.
  - done.
  - apply gfp_mod_in.
  - f_equal. lia.
  - rewrite Zmult_mod_idemp_l, Zmult_mod_idemp_r. f_equal. lia.
  - rewrite Z.mul_1_l. by apply gfp_mod_small.
Qed.

Lemma gfp_npow a n : canon (GfP p) a -> npow (F := GfP p) a n = a ^ Z.of_nat n mod p.
Proof.
  intros Ha. pose proof p_ge_2. induction n as [|n IH]; cbn [npow].
  - rewrite Z.pow_0_r. symmetry. apply Z.mod_small. lia.
  - rewrite gfp_mul, IH, Zmult_mod_idemp_r, Nat2Z.inj_succ, Z.pow_succ_r by lia. done.
Qed.

Lemma gfp_laws : FieldLaws (GfP p).
Proof.
  pose proof p_ge_2. pose proof gfp_monoid as MM.
  split; try apply MM; intros;
    rewrite ?gfp_sub, ?gfp_neg, ?gfp_add, ?gfp_mul by
      (auto; rewrite ?gfp_add, ?gfp_neg, ?gfp_mul by auto; apply gfp_mod_in || apply canon_0);
    rewrite ?gfp_add, ?gfp_neg, ?gfp_mul by auto; try apply gfp_mod_in.
  - simpl. lia.
  - f_equal. lia.
  - rewrite Zplus_mod_idemp_l, Zplus_mod_idemp_r. f_equal. lia.
  - simpl. by apply gfp_mod_small.
  - rewrite Zplus_mod_idemp_r, Z.add_opp_diag_r. by apply Z.mod_0_l; lia.
  - rewrite Zplus_mod_idemp_r. done.
  - rewrite Zmult_mod_idemp_l, <- Zplus_mod. f_equal. lia.
  - rewrite <- gfp_mul. apply inv_of_fermat; [done|done|].
    rewrite gfp_npow by done. simpl f_Q. rewrite Z2Nat.id by lia.
    apply Z.fermat_nz; [done|]. rewrite gfp_mod_small by done. done.
Qed.

End Laws.

Lemma gfp_laws_gate p : 0 <= p < 2 ^ 32 -> is_prime p = true -> FieldLaws (GfP p).
Proof. intros Hp H. apply gfp_laws; [|lia]. by apply is_prime_iff. Qed.

#[global] Instance F5_laws : FieldLaws F5. Proof. by apply gfp_laws_gate. Qed.
#[global] Instance F7_laws : FieldLaws F7. Proof. by apply gfp_laws_gate. Qed.
#[global] Instance F11_laws : FieldLaws F11. Proof. by apply gfp_laws_gate. Qed.
#[global] Instance F13_laws : FieldLaws F13. Proof. by apply gfp_laws_gate. Qed.
#[global] Instance F31_laws : FieldLaws F31. Proof. by apply gfp_laws_gate. Qed.
#[global] Instance F127_laws : FieldLaws F127. Proof. by apply gfp_laws_gate. Qed.

(** The compile-time gate is exact and its loop terminates: for every [u32] [n] the
    trial division returns within its fuel, and it answers [true] exactly for the primes. *)
Theorem is_prime_decides (n : Z) :
  0 <= n < 2 ^ 32 ->
  is_prime_run n <> None /\ (is_prime n = true <-> Z.prime n).
Proof.
  intros Hn. split; [|by apply is_prime_iff].
  destruct (is_prime_run_correct n Hn) as (b & -> & _). done.
Qed.

Lemma is_prime_decides_witness :
  is_prime 127 = true /\ Z.prime 127 /\ is_prime 4294967295 = false.
Proof.
  split; [reflexivity|]. split; [|reflexivity].
  apply (is_prime_decides 127); [lia|reflexivity].
Defined.

(** Every modulus the gate admits gives a field: the operations of [GfP<p>] on the
    residues [0 .. p - 1], with the u32 wrap-around of [sub] and the Fermat [inv]
    included, satisfy all the field laws. *)
Theorem gfp_is_field (p : Z) : 0 <= p < 2 ^ 32 -> is_prime p = true -> FieldLaws (GfP p).
Proof. apply gfp_laws_gate. Qed.

Lemma gfp_is_field_witness :
  FieldLaws (GfP 127) /\ f_mul (Field := GfP 127) (f_inv (F := GfP 127) 93) 93 = 1.
Proof.
  split; [apply (gfp_is_field 127); [lia|reflexivity]|]. vm_compute. reflexivity.
Defined.
