(* ===== verification/Element.v ===== *)
(** * The homogeneous-triple algebra (fanos-geometry/src/element.rs)

    Points and lines of PG(2, q) are triples of field codes up to scaling.  [cross] joins
    two points and meets two lines, [dot] is incidence, [canonicalize] scales the first
    non-zero coordinate to 1.  Everything here is proved for any lawful [Field]. *)
From Stdlib Require Import Field_tac.
From S2P Require Import Prelude Field.
Local Open Scope Z_scope.

Definition Triple : Type := Z * Z * Z.

Definition TRIPLE_WIRE_LEN : nat := 12.

Definition encode_triple (t : Triple) : list Z :=
  let '(x, y, z) := t in be_bytes 4 x ++ be_bytes 4 y ++ be_bytes 4 z.

Definition decode_triple (bytes : list Z) : option Triple :=
  if (length bytes =? TRIPLE_WIRE_LEN)%nat then
    Some (from_be (take 4 bytes), from_be (take 4 (drop 4 bytes)), from_be (drop 8 bytes))
  else None.

Section Ops.
Context {F : Field}.

Definition cross (a b : Triple) : Triple :=
  let '(a0, a1, a2) := a in
  let '(b0, b1, b2) := b in
  (f_sub (f_mul a1 b2) (f_mul a2 b1),
   f_sub (f_mul a2 b0) (f_mul a0 b2),
   f_sub (f_mul a0 b1) (f_mul a1 b0)).

Definition dot (a b : Triple) : Z :=
  let '(a0, a1, a2) := a in
  let '(b0, b1, b2) := b in
  f_add (f_add (f_mul a0 b0) (f_mul a1 b1)) (f_mul a2 b2).

Definition is_zero (a : Triple) : bool := bool_decide (a = (0, 0, 0)).

Definition is_valid (a : Triple) : bool :=
  let '(a0, a1, a2) := a in
  negb (is_zero a) && f_in_range a0 && f_in_range a1 && f_in_range a2.

Definition canonicalize (a : Triple) : option Triple :=
  let '(a0, a1, a2) := a in
  letO lead_inv :=
    (if negb (a0 =? 0) then Some (f_inv a0)
     else if negb (a1 =? 0) then Some (f_inv a1)
     else if negb (a2 =? 0) then Some (f_inv a2)
     else None) in
  Some (f_mul a0 lead_inv, f_mul a1 lead_inv, f_mul a2 lead_inv).

End Ops.

Definition is_canonical (a : Triple) : bool :=
  match a with
  | (0, 0, 0) => false
  | (0, 0, z) => z =? 1
  | (0, y, _) => y =? 1
  | (x, _, _) => x =? 1
  end.

(** ** The wire form *)

Definition u32_triple (t : Triple) : Prop :=
  let '(x, y, z) := t in is_u32 x /\ is_u32 y /\ is_u32 z.

Lemma decode_encode_triple t : u32_triple t -> decode_triple (encode_triple t) = Some t.
Proof.
  destruct t as [[x y] z]. intros (Hx & Hy & Hz). unfold decode_triple, encode_triple.
  rewrite !length_app, !length_be_bytes. simpl (_ =? _)%nat. cbv iota.
  rewrite take_app_length', drop_app_length' by (by rewrite length_be_bytes).
  rewrite take_app_length' by (by rewrite length_be_bytes).
  rewrite app_assoc, drop_app_length' by (by rewrite length_app, !length_be_bytes).
  rewrite !from_be_id; done.
Qed.

Lemma encode_decode_triple bs t :
  is_bytes bs -> decode_triple bs = Some t -> encode_triple t = bs.
Proof.
  unfold decode_triple. intros Hb. destruct (Nat.eqb_spec (length bs) TRIPLE_WIRE_LEN) as [Hl|]; [|done].
  intros [= <-]. unfold TRIPLE_WIRE_LEN in Hl. unfold encode_triple.
  rewrite !be_bytes_from_be_n;
    rewrite ?length_take, ?length_drop, ?Hl; auto using is_bytes_take, is_bytes_drop.
  replace (drop 8 bs) with (drop 4 (drop 4 bs)) by (by rewrite drop_drop).
  by rewrite !take_drop.
Qed.

(** ** Vector identities and projective equality *)

Section Laws.
Context {F : Field} {FL : FieldLaws F}.
Add Field efield : (elt_field (F := F)).

(** Every coordinate is a canonical code. *)
Definition tin (t : Triple) : Prop :=
  let '(x, y, z) := t in canon F x /\ canon F y /\ canon F z.

Lemma cross_in a b : tin a -> tin b -> tin (cross a b).
Proof.
  destruct a as [[? ?] ?], b as [[? ?] ?]. simpl. intros (?&?&?) (?&?&?).
  auto 10 with canon.
Qed.

Ltac tri :=
  repeat match goal with
    | H : tin ?t |- _ => is_var t; destruct t as [[? ?] ?]
    | H : tin (_, _, _) |- _ => destruct H as (? & ? & ?)
    end; simpl in *.

Lemma dot_in a b : tin a -> tin b -> canon F (dot a b).
Proof. intros. tri. auto 10 with canon. Qed.

Lemma dot_comm a b : tin a -> tin b -> dot a b = dot b a.
Proof. intros. tri. lift_codes. apply code_eq. ring. Qed.

(** The cross product is orthogonal to both operands. *)
Lemma dot_cross_l a b : tin a -> tin b -> dot a (cross a b) = 0.
Proof. intros. tri. lift_codes. change 0 with (code (F:=F) e0). apply code_eq. ring. Qed.

Lemma dot_cross_r a b : tin a -> tin b -> dot b (cross a b) = 0.
Proof. intros. tri. lift_codes. change 0 with (code (F:=F) e0). apply code_eq. ring. Qed.

Lemma cross_self a : tin a -> cross a a = (0, 0, 0).
Proof.
  intros. tri. lift_codes. change 0 with (code (F:=F) e0).
  repeat f_equal; ring.
Qed.

(** [(a x b) x l = (a.l) b - (b.l) a] vanishes when [l] is orthogonal to both. *)
Lemma cross_cross_0 a b l :
  tin a -> tin b -> tin l -> dot a l = 0 -> dot b l = 0 ->
  cross (cross a b) l = (0, 0, 0).
Proof.
  destruct a as [[a0 a1] a2], b as [[b0 b1] b2], l as [[l0 l1] l2]. simpl.
  intros (?&?&?) (?&?&?) (?&?&?). lift_codes.
  change 0 with (code (F:=F) e0). rewrite !code_eq.
  intros H1 H2.
  set (u := eadd (eadd (emul a0 l0) (emul a1 l1)) (emul a2 l2)) in *.
  set (v := eadd (eadd (emul b0 l0) (emul b1 l1)) (emul b2 l2)) in *.
  assert (K : forall x y w, w = esub (emul x u) (emul y v) -> code w = code (F:=F) e0).
  { intros x y w ->. rewrite H1, H2. apply code_eq. ring. }
  f_equal; [f_equal|]; [apply (K b0 a0)|apply (K b1 a1)|apply (K b2 a2)]; subst u v; ring.
Qed.

Lemma cross_anti_0 a b :
  tin a -> tin b -> cross a b = (0, 0, 0) -> cross b a = (0, 0, 0).
Proof.
  destruct a as [[a0 a1] a2], b as [[b0 b1] b2]. simpl.
  intros (?&?&?) (?&?&?). lift_codes. change 0 with (code (F:=F) e0).
  intros [[E1 E2]%pair_eq E3]%pair_eq. rewrite code_eq in E1, E2, E3.
  apply (proj1 (elt_sub_eq_0 _ _)) in E1, E2, E3.
  assert (K : forall x y u v : elt F, emul x y = emul u v -> emul v u = emul y x).
  { intros x y u v H. transitivity (emul u v); [ring|]. rewrite <- H. ring. }
  f_equal; [f_equal|]; apply code_eq, elt_sub_eq_0; by apply K.
Qed.

Lemma tri_nonzero (x y z : Z) : (x, y, z) <> (0, 0, 0) <-> x <> 0 \/ y <> 0 \/ z <> 0.
Proof.
  split.
  - intros H. destruct (Z.eq_dec x 0), (Z.eq_dec y 0), (Z.eq_dec z 0); subst; auto.
  - intros H [= -> -> ->]. destruct H as [H|[H|H]]; by apply H.
Qed.

Lemma canonical_shapes a :
  is_canonical a = true <->
  (exists y z, a = (1, y, z)) \/ (exists z, a = (0, 1, z)) \/ a = (0, 0, 1).
Proof.
  destruct a as [[x y] z]. split.
  - unfold is_canonical. destruct x as [|[]|]; try done; [|naive_solver].
    destruct y as [|[]|]; try done; [|naive_solver].
    destruct z as [|[]|]; try done. naive_solver.
  - intros [(y' & z' & [= -> -> ->]) | [(z' & [= -> -> ->]) | [= -> -> ->]]]; done.
Qed.

Lemma canonical_nonzero a : is_canonical a = true -> a <> (0, 0, 0).
Proof. intros H ->. done. Qed.

Lemma canonicalize_None a : canonicalize a = None <-> a = (0, 0, 0).
Proof.
  destruct a as [[x y] z]. simpl.
  destruct (Z.eqb_spec x 0), (Z.eqb_spec y 0), (Z.eqb_spec z 0); subst; simpl;
    split; intros; simplify_eq; done.
Qed.

Lemma mul_inv_r a : canon F a -> a <> 0 -> f_mul a (f_inv a) = 1.
Proof. intros. rewrite fl_mul_comm by auto with canon. by apply fl_inv. Qed.

Lemma mul_0_l a : canon F a -> f_mul 0 a = 0.
Proof.
  intros. change 0 with (code (F:=F) e0). lift_codes. apply code_eq. ring.
Qed.

Lemma mul_0_r a : canon F a -> f_mul a 0 = 0.
Proof. intros. rewrite fl_mul_comm by auto with canon. by apply mul_0_l. Qed.

(** [canonicalize] multiplies by a non-zero scalar and lands on a canonical triple. *)
Lemma canonicalize_scale a c :
  tin a -> canonicalize a = Some c ->
  tin c /\ is_canonical c = true /\
  exists k, canon F k /\ k <> 0 /\
    c = (let '(x, y, z) := a in (f_mul x k, f_mul y k, f_mul z k)).
Proof.
  destruct a as [[x y] z]. intros (Hx & Hy & Hz).
  assert (Hk : forall k, canon F k -> k <> 0 -> canon F (f_inv k) /\ f_inv k <> 0).
  { intros k Hk Hk0. split; [simpl; auto 10 with canon|]. intros E.
    pose proof (mul_inv_r k Hk Hk0) as M. rewrite E, mul_0_r in M; done. }
  simpl. destruct (Z.eqb_spec x 0) as [->|Hx0]; simpl.
  1: destruct (Z.eqb_spec y 0) as [->|Hy0]; simpl.
  1: destruct (Z.eqb_spec z 0) as [->|Hz0]; simpl; [done|].
  all: intros [= <-].
  - destruct (Hk z Hz Hz0). split; [simpl; auto 10 with canon|].
    split; [|exists (f_inv z); auto]. rewrite !mul_0_l, mul_inv_r by done. done.
  - destruct (Hk y Hy Hy0). split; [simpl; auto 10 with canon|].
    split; [|exists (f_inv y); auto]. rewrite mul_0_l, mul_inv_r by done. done.
  - destruct (Hk x Hx Hx0). split; [simpl; auto 10 with canon|].
    split; [|exists (f_inv x); auto]. rewrite mul_inv_r by done. done.
Qed.

Lemma canonicalize_in a c : tin a -> canonicalize a = Some c -> tin c.
Proof. intros Ha Hc. by destruct (canonicalize_scale a c Ha Hc). Qed.

Lemma canonicalize_canonical a c :
  tin a -> canonicalize a = Some c -> is_canonical c = true.
Proof. intros Ha Hc. by destruct (canonicalize_scale a c Ha Hc) as (_ & ? & _). Qed.

(** Scaling does not change incidence. *)
Lemma canonicalize_dot a c w :
  tin a -> tin w -> canonicalize a = Some c -> dot w c = 0 <-> dot w a = 0.
Proof.
  intros Ha Hw Hc. destruct (canonicalize_scale a c Ha Hc) as (_ & _ & k & Hk & Hk0 & ->).
  destruct a as [[x y] z], w as [[u v] t]. simpl in *.
  destruct Ha as (?&?&?), Hw as (?&?&?). lift_codes.
  change 0 with (code (F:=F) e0) in *. rewrite !code_eq in *.
  set (d := eadd (eadd (emul u x) (emul v y)) (emul t z)).
  replace (eadd _ _) with (emul k d) by (subst d; ring).
  rewrite elt_mul_eq_0. naive_solver.
Qed.

(** A non-zero triple parallel to a canonical one has it as its canonical form. *)
Lemma parallel_canonicalize a v :
  tin a -> tin v -> is_canonical a = true -> v <> (0, 0, 0) ->
  cross a v = (0, 0, 0) -> canonicalize v = Some a.
Proof.
  intros Ha Hv Hc Hnz Hcr. destruct v as [[x y] z]. apply tri_nonzero in Hnz.
  destruct Hv as (Hx & Hy & Hz). pose proof (mul_0_l) as M0.
  apply canonical_shapes in Hc as [(p & q & ->) | [(q & ->) | ->]]; simpl in Ha, Hcr;
    rewrite ?fl_mul_1 in Hcr by auto; rewrite ?M0 in Hcr by auto; injection Hcr as E1 E2 E3.
  - destruct Ha as (_ & Hp & Hq).
    assert (Ey : y = f_mul p x).
    { clear - E3 Hx Hy Hp FL. lift_codes. change 0 with (code (F:=F) e0) in *.
      rewrite code_eq in *. by apply elt_sub_eq_0. }
    assert (Ez : z = f_mul q x).
    { clear - E2 Hx Hz Hq FL. lift_codes. change 0 with (code (F:=F) e0) in *.
      rewrite code_eq in *. symmetry. by apply elt_sub_eq_0. }
    assert (Hx0 : x <> 0).
    { intros ->. rewrite mul_0_r in Ey, Ez by done. naive_solver. }
    simpl. destruct (Z.eqb_spec x 0); [done|]. simpl.
    rewrite Ey, Ez, <- !fl_mul_assoc, mul_inv_r by auto with canon.
    rewrite !(fl_mul_comm _ 1), !fl_mul_1 by auto with canon. done.
  - destruct Ha as (_ & _ & Hq).
    assert (Ex : x = 0).
    { clear - E3 Hx FL. pose proof (canon_0 (F:=F)). lift_codes.
      change 0 with (code (F:=F) e0) in *. rewrite code_sub, code_eq in *.
      symmetry. by apply elt_sub_eq_0. }
    subst x.
    assert (Ez : z = f_mul q y).
    { clear - E1 Hy Hz Hq FL. lift_codes. change 0 with (code (F:=F) e0) in *.
      rewrite code_eq in *. by apply elt_sub_eq_0. }
    assert (Hy0 : y <> 0).
    { intros ->. rewrite mul_0_r in Ez by done. naive_solver. }
    simpl. destruct (Z.eqb_spec y 0); [done|]. simpl.
    rewrite Ez, <- fl_mul_assoc, !mul_inv_r, mul_0_l by auto with canon.
    rewrite (fl_mul_comm _ 1), fl_mul_1 by auto with canon. done.
  - assert (Hneg : forall w, canon F w -> f_sub 0 w = 0 -> w = 0).
    { intros w Hw Ew. clear - Ew Hw FL. pose proof (canon_0 (F:=F)). lift_codes.
      change 0 with (code (F:=F) e0) in *. rewrite code_sub, code_eq in *.
      symmetry. by apply elt_sub_eq_0. }
    assert (Hpos : forall w, canon F w -> f_sub w 0 = 0 -> w = 0).
    { intros w Hw Ew. clear - Ew Hw FL. pose proof (canon_0 (F:=F)). lift_codes.
      change 0 with (code (F:=F) e0) in *. rewrite code_sub, code_eq in *.
      by apply elt_sub_eq_0. }
    apply Hneg in E1; [|done]. apply Hpos in E2; [|done]. subst.
    assert (z <> 0) by naive_solver.
    simpl. destruct (Z.eqb_spec z 0); [done|]. simpl.
    rewrite !mul_0_l, mul_inv_r by auto with canon. done.
Qed.

Lemma canonicalize_id a : tin a -> is_canonical a = true -> canonicalize a = Some a.
Proof.
  intros. apply parallel_canonicalize; auto using canonical_nonzero, cross_self.
Qed.

(** ** Linear combinations *)

Definition scale (k : Z) (a : Triple) : Triple :=
  let '(x, y, z) := a in (f_mul k x, f_mul k y, f_mul k z).
Definition vadd (a b : Triple) : Triple :=
  let '(x, y, z) := a in let '(u, v, w) := b in (f_add x u, f_add y v, f_add z w).

Lemma scale_in k a : canon F k -> tin a -> tin (scale k a).
Proof. destruct a as [[? ?] ?]. simpl. intros ? (?&?&?). auto with canon. Qed.

Lemma vadd_in a b : tin a -> tin b -> tin (vadd a b).
Proof.
  destruct a as [[? ?] ?], b as [[? ?] ?]. simpl. intros (?&?&?) (?&?&?). auto with canon.
Qed.

Lemma canonicalize_parallel a c : tin a -> canonicalize a = Some c -> cross c a = (0, 0, 0).
Proof.
  intros Ha Hc. destruct (canonicalize_scale a c Ha Hc) as (_ & _ & k & Hk & _ & ->).
  destruct a as [[x y] z]. simpl in *. destruct Ha as (?&?&?). lift_codes.
  change 0 with (code (F:=F) e0). f_equal; [f_equal|]; apply code_eq; ring.
Qed.

(** Scaling by a non-zero factor does not change the canonical form. *)
Lemma canonicalize_scale_inv k a c :
  canon F k -> k <> 0 -> tin a -> canonicalize a = Some c -> canonicalize (scale k a) = Some c.
Proof.
  intros Hk Hk0 Ha Hc. pose proof (canonicalize_parallel a c Ha Hc) as Hpar.
  destruct (canonicalize_scale a c Ha Hc) as (Hin & Hcan & _).
  assert (Hnz : a <> (0, 0, 0)) by (intros ->; simpl in Hc; done).
  apply parallel_canonicalize; [done|by apply scale_in|done| |].
  - destruct a as [[x y] z]. apply tri_nonzero. apply tri_nonzero in Hnz.
    destruct Ha as (?&?&?). lift_codes. change 0 with (code (F:=F) e0) in *.
    rewrite !code_eq, !elt_mul_eq_0 in *. naive_solver.
  - destruct a as [[x y] z], c as [[u v] w]. simpl in *.
    destruct Ha as (?&?&?), Hin as (?&?&?). lift_codes. change 0 with (code (F:=F) e0) in *.
    apply pair_eq in Hpar as [[E1 E2]%pair_eq E3]. rewrite code_eq in E1, E2, E3.
    assert (K : forall d e : elt F, e = e0 -> d = emul k e -> code d = code (F:=F) e0).
    { intros d e -> ->. apply code_eq. ring. }
    f_equal; [f_equal|]; [apply (K _ _ E1)|apply (K _ _ E2)|apply (K _ _ E3)]; ring.
Qed.

(** Equal canonical forms mean parallel triples. *)
Lemma same_canonical_parallel a b c :
  tin a -> tin b -> canonicalize a = Some c -> canonicalize b = Some c ->
  cross a b = (0, 0, 0).
Proof.
  intros Ha Hb Hca Hcb.
  destruct (canonicalize_scale a c Ha Hca) as (_ & _ & k & Hk & Hk0 & ->).
  destruct (canonicalize_scale b _ Hb Hcb) as (_ & _ & j & Hj & Hj0 & E).
  destruct a as [[x y] z], b as [[u v] w]. simpl in Ha, Hb |- *. clear Hca Hcb.
  destruct Ha as (?&?&?), Hb as (?&?&?). lift_codes. change 0 with (code (F:=F) e0) in *.
  apply pair_eq in E as [[E1 E2]%pair_eq E3]. rewrite code_eq in *.
  assert (K : forall d : elt F, emul (emul k j) d = e0 -> code d = code (F:=F) e0).
  { intros d Hd. rewrite elt_mul_eq_0, elt_mul_eq_0 in Hd. apply code_eq. naive_solver. }
  f_equal; [f_equal|]; apply K.
  - transitivity (esub (emul (emul y k) (emul w j)) (emul (emul z k) (emul v j))); [ring|].
    rewrite E2, E3. ring.
  - transitivity (esub (emul (emul z k) (emul u j)) (emul (emul x k) (emul w j))); [ring|].
    rewrite E1, E3. ring.
  - transitivity (esub (emul (emul x k) (emul v j)) (emul (emul y k) (emul u j))); [ring|].
    rewrite E1, E2. ring.
Qed.

(** The cross product of two members of the pencil [t p + q]. *)
Lemma cross_pencil p q s t :
  tin p -> tin q -> canon F s -> canon F t ->
  cross (vadd (scale s p) q) (vadd (scale t p) q) = scale (f_sub s t) (cross p q).
Proof.
  destruct p as [[p0 p1] p2], q as [[q0 q1] q2]. simpl. intros (?&?&?) (?&?&?) ? ?.
  lift_codes. f_equal; [f_equal|]; apply code_eq; ring.
Qed.

Lemma cross_pencil_base p q t :
  tin p -> tin q -> canon F t -> cross p (vadd (scale t p) q) = cross p q.
Proof.
  destruct p as [[p0 p1] p2], q as [[q0 q1] q2]. simpl. intros (?&?&?) (?&?&?) ?.
  lift_codes. f_equal; [f_equal|]; apply code_eq; ring.
Qed.

Lemma scale_eq_0 k a : canon F k -> tin a -> scale k a = (0, 0, 0) -> k = 0 \/ a = (0, 0, 0).
Proof.
  destruct a as [[x y] z]. simpl. intros ? (?&?&?). lift_codes.
  change 0 with (code (F:=F) e0) in *. intros [[E1 E2]%pair_eq E3]%pair_eq.
  rewrite code_eq, elt_mul_eq_0 in E1, E2, E3. rewrite code_eq.
  destruct (decide (k = e0)); [by left|right]. naive_solver.
Qed.

Lemma dot_pencil p q l t :
  tin p -> tin q -> tin l -> canon F t -> dot p l = 0 -> dot q l = 0 ->
  dot (vadd (scale t p) q) l = 0.
Proof.
  destruct p as [[p0 p1] p2], q as [[q0 q1] q2], l as [[l0 l1] l2]. simpl.
  intros (?&?&?) (?&?&?) (?&?&?) ?. lift_codes.
  change 0 with (code (F:=F) e0). rewrite !code_eq. intros H1 H2.
  transitivity (eadd (emul t (eadd (eadd (emul p0 l0) (emul p1 l1)) (emul p2 l2)))
                  (eadd (eadd (emul q0 l0) (emul q1 l1)) (emul q2 l2))); [ring|].
  rewrite H1, H2. ring.
Qed.

(** [a p + b q] with [b <> 0] is a multiple of a member of the pencil. *)
Lemma pencil_factor p q a b :
  tin p -> tin q -> canon F a -> canon F b -> b <> 0 ->
  vadd (scale a p) (scale b q) = scale b (vadd (scale (f_mul a (f_inv b)) p) q).
Proof.
  destruct p as [[p0 p1] p2], q as [[q0 q1] q2]. simpl. intros (?&?&?) (?&?&?) ? ? Hb.
  lift_codes. change 0 with (code (F:=F) e0) in Hb. rewrite code_eq in Hb.
  f_equal; [f_equal|]; apply code_eq; field; done.
Qed.

End Laws.
