(* ===== verification/Plane.v ===== *)
(** * The plane PG(2, q) (fanos-geometry/src/plane.rs and the line laws of lib.rs)

    [Point] and [Line] wrap a coordinate triple; [point_ok] / [line_ok] is the type
    invariant of the Rust newtypes (canonical codes in canonical form), established by
    every constructor.  The theorems are the incidence axioms the overlay is built on:
    two points have exactly one join, two lines exactly one meet, a line has exactly
    [q + 1] points and its [Θ(q)] enumerator lists them, and the canonical index is a
    bijection with [0 .. q^2 + q]. *)
From Stdlib Require Import Field_tac.
From S2P Require Import Prelude Field Element.
Local Open Scope Z_scope.

Record Point (F : Field) := wrap_point { p_coords : Triple }.
Record Line (F : Field) := wrap_line { l_coords : Triple }.
Arguments wrap_point {F} p_coords.
Arguments p_coords {F} p.
Arguments wrap_line {F} l_coords.
Arguments l_coords {F} l.

#[global] Instance point_eq_dec F : EqDecision (Point F).
Proof. solve_decision. Defined.
#[global] Instance line_eq_dec F : EqDecision (Line F).
Proof. solve_decision. Defined.

Section Ops.
Context {F : Field}.

Definition plane_N : Z := f_Q * f_Q + f_Q + 1.
Definition LINE_SIZE : Z := f_Q + 1.

Definition index_of_coords (c : Triple) : Z :=
  match c with
  | (1, y, z) => y * f_Q + z
  | (0, 1, z) => f_Q * f_Q + z
  | _ => f_Q * f_Q + f_Q
  end.

(** [None] is the panic of the range assertion. *)
Definition coords_of_index (i : Z) : option Triple :=
  let n := f_Q * f_Q + f_Q + 1 in
  if negb (i <? n) then None
  else if i <? f_Q * f_Q then Some (1, i / f_Q, i mod f_Q)
  else if i <? f_Q * f_Q + f_Q then Some (0, 1, i - f_Q * f_Q)
  else Some (0, 0, 1).

Definition point_new (coords : Triple) : option (Point F) :=
  if negb (is_valid coords) then None else wrap_point <$> canonicalize coords.
Definition point_index (p : Point F) : Z := index_of_coords (p_coords p).
Definition point_at (i : Z) : option (Point F) := wrap_point <$> coords_of_index i.
Definition point_join (p q : Point F) : option (Line F) :=
  wrap_line <$> canonicalize (cross (p_coords p) (p_coords q)).
Definition point_is_on (p : Point F) (l : Line F) : bool :=
  dot (p_coords p) (l_coords l) =? 0.

Definition line_new (coords : Triple) : option (Line F) :=
  if negb (is_valid coords) then None else wrap_line <$> canonicalize coords.
Definition line_index (l : Line F) : Z := index_of_coords (l_coords l).
Definition line_at (i : Z) : option (Line F) := wrap_line <$> coords_of_index i.
Definition line_meet (l k : Line F) : option (Point F) :=
  wrap_point <$> canonicalize (cross (l_coords l) (l_coords k)).
Definition line_contains (l : Line F) (p : Point F) : bool :=
  dot (l_coords l) (p_coords p) =? 0.

Definition plane_points : list (Point F) := omap point_at (seqZ 0 plane_N).
Definition plane_lines : list (Line F) := omap line_at (seqZ 0 plane_N).

Definition points_on (l : Line F) : list (Point F) :=
  let '(a, b, c) := l_coords l in
  let neg x := f_sub 0 x in
  let '(p0, p1) :=
    if negb (a =? 0) then ((neg c, 0, a), (b, neg a, 0))
    else if negb (b =? 0) then ((0, c, neg b), (b, 0, 0))
    else ((0, c, 0), (neg c, 0, 0)) in
  let '(u0, u1, u2) := p0 in
  let '(v0, v1, v2) := p1 in
  omap (fun tri => wrap_point <$> canonicalize tri)
    (p0 :: map (fun t => (f_add (f_mul t u0) v0, f_add (f_mul t u1) v1, f_add (f_mul t u2) v2))
             (seqZ 0 f_Q)).

Definition lines_through (p : Point F) : list (Line F) :=
  map (fun q => wrap_line (p_coords q)) (points_on (wrap_line (p_coords p))).

End Ops.

(** The type invariant of the newtypes. *)
Definition point_ok {F} (p : Point F) : Prop :=
  tin (F := F) (p_coords p) /\ is_canonical (p_coords p) = true.
Definition line_ok {F} (l : Line F) : Prop :=
  tin (F := F) (l_coords l) /\ is_canonical (l_coords l) = true.

Section Incidence.
Context {F : Field} {FL : FieldLaws F}.
Add Field efield : (elt_field (F := F)).

(** ** Constructors establish the invariant *)

Lemma is_valid_tin c : is_u32 (fst (fst c)) -> is_u32 (snd (fst c)) -> is_u32 (snd c) ->
  is_valid c = true -> tin (F := F) c /\ c <> (0, 0, 0).
Proof.
  destruct c as [[x y] z]. simpl. intros [? _] [? _] [? _]. unfold is_valid, f_in_range, is_zero.
  rewrite !andb_true_iff, negb_true_iff, bool_decide_eq_false, !Z.ltb_lt.
  unfold canon. intros [[[? ?] ?] ?]. repeat split; done || lia.
Qed.

Lemma canonicalize_ok a c :
  tin (F := F) a -> canonicalize a = Some c -> tin (F := F) c /\ is_canonical c = true.
Proof. intros Ha Hc. eauto using canonicalize_in, canonicalize_canonical. Qed.

Lemma join_ok p q l : point_ok p -> point_ok q -> point_join p q = Some l -> line_ok l.
Proof.
  intros [Hp _] [Hq _]. unfold point_join.
  intros (c & Hc & ->)%fmap_Some. by apply (canonicalize_ok _ _ (cross_in _ _ Hp Hq)).
Qed.

(** ** The Steiner property and its dual *)

(** The core of both: two distinct canonical triples have one canonical common normal. *)
Lemma common_normal a b :
  tin (F := F) a -> tin (F := F) b -> is_canonical a = true -> is_canonical b = true ->
  a <> b ->
  exists l, canonicalize (cross a b) = Some l /\ tin (F := F) l /\ is_canonical l = true /\
    dot a l = 0 /\ dot b l = 0 /\
    forall k, tin (F := F) k -> is_canonical k = true -> dot a k = 0 -> dot b k = 0 -> k = l.
Proof.
  intros Ha Hb Ca Cb Hne.
  assert (Hnz : cross a b <> (0, 0, 0)).
  { intros E. apply Hne.
    pose proof (parallel_canonicalize a b Ha Hb Ca (canonical_nonzero _ Cb) E) as H1.
    rewrite canonicalize_id in H1 by done. congruence. }
  pose proof (cross_in a b Ha Hb) as Hx.
  destruct (canonicalize (cross a b)) as [l|] eqn:El; [|by apply canonicalize_None in El].
  destruct (canonicalize_ok _ _ Hx El) as [Hl Cl].
  exists l. split; [done|]. split; [done|]. split; [done|].
  split; [by apply (canonicalize_dot _ _ a Hx Ha El), dot_cross_l|].
  split; [by apply (canonicalize_dot _ _ b Hx Hb El), dot_cross_r|].
  intros k Hk Ck Hak Hbk.
  enough (canonicalize (cross a b) = Some k) by congruence.
  apply parallel_canonicalize; [done..|].
  apply cross_anti_0; [done..|]. by apply cross_cross_0.
Qed.

(** ** The canonical index *)

Lemma q_pos : 2 <= f_Q (Field := F).
Proof. pose proof (fl_Q (F := F)). lia. Qed.

Lemma coords_of_index_of_coords c :
  tin (F := F) c -> is_canonical c = true -> coords_of_index (index_of_coords c) = Some c.
Proof.
  intros Hc Hcan. pose proof q_pos. unfold coords_of_index.
  apply canonical_shapes in Hcan as [(y & z & ->) | [(z & ->) | ->]];
    simpl in Hc |- *; unfold canon in Hc; destruct Hc as (_ & ? & ?).
  - destruct (Z.ltb_spec (y * f_Q + z) (f_Q * f_Q + f_Q + 1)); [|nia].
    destruct (Z.ltb_spec (y * f_Q + z) (f_Q * f_Q)); [|nia]. simpl.
    rewrite Z.div_add_l, Z.div_small, Z.add_0_r by lia.
    rewrite Z.add_comm, Z.mod_add, Z.mod_small by lia. done.
  - destruct (Z.ltb_spec (f_Q * f_Q + z) (f_Q * f_Q + f_Q + 1)); [|lia].
    destruct (Z.ltb_spec (f_Q * f_Q + z) (f_Q * f_Q)); [lia|].
    destruct (Z.ltb_spec (f_Q * f_Q + z) (f_Q * f_Q + f_Q)); [|lia]. simpl.
    do 2 f_equal. lia.
  - destruct (Z.ltb_spec (f_Q * f_Q + f_Q) (f_Q * f_Q + f_Q + 1)); [|lia].
    destruct (Z.ltb_spec (f_Q * f_Q + f_Q) (f_Q * f_Q)); [lia|].
    destruct (Z.ltb_spec (f_Q * f_Q + f_Q) (f_Q * f_Q + f_Q)); [lia|]. done.
Qed.

Lemma index_of_coords_of_index i :
  0 <= i < plane_N -> exists c, coords_of_index i = Some c /\ tin (F := F) c /\
    is_canonical c = true /\ index_of_coords c = i.
Proof.
  intros Hi. pose proof q_pos. unfold coords_of_index, plane_N in *.
  destruct (Z.ltb_spec i (f_Q * f_Q + f_Q + 1)); [|lia].
  pose proof (fl_canon_0 (F := F)). pose proof (fl_canon_1 (F := F)). simpl negb. cbv iota.
  destruct (Z.ltb_spec i (f_Q * f_Q)); [|destruct (Z.ltb_spec i (f_Q * f_Q + f_Q))].
  - exists (1, i / f_Q, i mod f_Q). split; [done|].
    pose proof (Z.mod_pos_bound i f_Q). pose proof (Z.div_mod i f_Q).
    split; [|split; [done|]]; [|simpl; lia].
    split; [done|]. split; [|unfold canon; lia]. unfold canon.
    split; [apply Z.div_pos; lia|apply Z.div_lt_upper_bound; lia].
  - exists (0, 1, i - f_Q * f_Q). simpl. unfold canon in *. split; [done|].
    split; [lia|]. split; [done|lia].
  - exists (0, 0, 1). simpl. unfold canon in *. split; [done|]. split; [lia|]. split; [done|lia].
Qed.

Lemma index_range c :
  tin (F := F) c -> is_canonical c = true -> 0 <= index_of_coords (F := F) c < plane_N.
Proof.
  intros Hc Hcan. pose proof q_pos. unfold plane_N.
  apply canonical_shapes in Hcan as [(y & z & ->) | [(z & ->) | ->]];
    simpl in Hc |- *; unfold canon in Hc; destruct Hc as (_ & ? & ?); nia.
Qed.

(** ** The enumerations *)

Lemma enum_spec {A} (w : Triple -> A) (c : A -> Triple) (Hwc : forall a, w (c a) = a)
    (Hcw : forall t, c (w t) = t) :
  let all := omap (fun i => w <$> coords_of_index (F := F) i) (seqZ 0 plane_N) in
  base.NoDup all /\ length all = Z.to_nat plane_N /\
  forall a, a ∈ all <-> tin (F := F) (c a) /\ is_canonical (c a) = true.
Proof.
  intros all. pose proof q_pos.
  assert (E : w <$> (default (0, 0, 0) <$> (coords_of_index (F := F) <$> seqZ 0 plane_N)) = all).
  { unfold all. assert (Hall : forall i, i ∈ seqZ 0 plane_N -> 0 <= i < plane_N)
      by (intros i ?%elem_of_seqZ; lia).
    induction (seqZ 0 plane_N) as [|i l IH]; [done|]. simpl.
    destruct (index_of_coords_of_index i) as (t & -> & _); [apply Hall; left|]. simpl.
    f_equal. apply IH. intros. apply Hall. by right. }
  split; [|split].
  - rewrite <- E. rewrite <- list_fmap_compose. rewrite <- list_fmap_compose.
    apply NoDup_fmap_2_strong; [|apply NoDup_seqZ].
    intros i j Hi%elem_of_seqZ Hj%elem_of_seqZ Eq. simpl in Eq.
    apply (f_equal c) in Eq. rewrite !Hcw in Eq.
    destruct (index_of_coords_of_index i) as (t & Et & _ & _ & <-); [lia|].
    destruct (index_of_coords_of_index j) as (u & Eu & _ & _ & <-); [lia|].
    rewrite Et, Eu in Eq. simpl in Eq. by subst.
  - rewrite <- E, !length_fmap. apply length_seqZ.
  - intros a. unfold all. rewrite list_elem_of_omap. split.
    + intros (i & Hi%elem_of_seqZ & (t & Ht & ->)%fmap_Some).
      destruct (index_of_coords_of_index i) as (u & Eu & Hu & Cu & _); [lia|].
      rewrite Hcw. assert (t = u) as -> by congruence. done.
    + intros [Ht Ct]. exists (index_of_coords (c a)).
      rewrite elem_of_seqZ, coords_of_index_of_coords by done.
      pose proof (index_range (c a) Ht Ct). split; [lia|]. simpl. by rewrite Hwc.
Qed.

Lemma plane_points_spec :
  base.NoDup (plane_points (F := F)) /\ length (plane_points (F := F)) = Z.to_nat plane_N /\
  forall p, p ∈ plane_points <-> point_ok (F := F) p.
Proof. apply (enum_spec wrap_point p_coords); [by intros []|done]. Qed.

Lemma plane_lines_spec :
  base.NoDup (plane_lines (F := F)) /\ length (plane_lines (F := F)) = Z.to_nat plane_N /\
  forall l, l ∈ plane_lines <-> line_ok (F := F) l.
Proof. apply (enum_spec wrap_line l_coords); [by intros []|done]. Qed.

(** ** The points of a line *)

(** The pencil through [p0] and [p1]: the raw triples [points_on] canonicalizes. *)
Definition pencil (p0 p1 : Triple) : list Triple :=
  p0 :: map (fun t => vadd (scale (F := F) t p0) p1) (seqZ 0 f_Q).

Section Pencil.
Context (p0 p1 : Triple) (H0 : tin (F := F) p0) (H1 : tin (F := F) p1).
Context (Hind : cross (F := F) p0 p1 <> (0, 0, 0)).

Lemma pencil_in u : u ∈ pencil p0 p1 -> tin (F := F) u.
Proof.
  unfold pencil. rewrite elem_of_cons, list_elem_of_fmap.
  intros [-> | (t & -> & Ht%elem_of_seqZ)]; [done|].
  apply vadd_in; [apply scale_in; [unfold canon; lia|done]|done].
Qed.

Lemma p0_nonzero : p0 <> (0, 0, 0).
Proof.
  intros ->. apply Hind. destruct p1 as [[x y] z]. simpl in *. destruct H1 as (?&?&?).
  rewrite !mul_0_l, fl_sub, fl_add_neg by auto with canon. done.
Qed.

Lemma pencil_nonzero u : u ∈ pencil p0 p1 -> u <> (0, 0, 0).
Proof.
  unfold pencil. rewrite elem_of_cons, list_elem_of_fmap.
  intros [-> | (t & -> & Ht%elem_of_seqZ)]; [apply p0_nonzero|]. intros E.
  apply Hind. rewrite <- (cross_pencil_base p0 p1 t) by (done || unfold canon; lia).
  rewrite E. destruct p0 as [[x y] z]. simpl in *. destruct H0 as (?&?&?).
  rewrite !mul_0_r, fl_sub, fl_add_neg by auto with canon. done.
Qed.

(** Distinct members of the pencil are not parallel. *)
Lemma pencil_injective i j u v :
  pencil p0 p1 !! i = Some u -> pencil p0 p1 !! j = Some v -> (i < j)%nat ->
  cross (F := F) u v <> (0, 0, 0).
Proof.
  unfold pencil. intros Hu Hv Hij. destruct j as [|j]; [lia|].
  simpl in Hv. apply list_lookup_fmap_Some in Hv as (t & -> & [-> Ht]%lookup_seqZ).
  destruct i as [|i].
  - simpl in Hu. simplify_eq. rewrite cross_pencil_base by (done || unfold canon; lia). done.
  - simpl in Hu. apply list_lookup_fmap_Some in Hu as (s & -> & [-> Hs]%lookup_seqZ).
    rewrite cross_pencil by (done || unfold canon; lia). intros E.
    apply scale_eq_0 in E; [|apply sub_in; unfold canon; lia|by apply cross_in].
    destruct E as [E|E]; [|done].
    assert (Ec : 0 + Z.of_nat i = 0 + Z.of_nat j); [|lia].
    assert (canon F (0 + Z.of_nat i)) by (unfold canon; lia).
    assert (canon F (0 + Z.of_nat j)) by (unfold canon; lia).
    revert E. generalize dependent (0 + Z.of_nat i). generalize dependent (0 + Z.of_nat j).
    intros a Ha b Hb. clear - FL Ha Hb. lift_codes. change 0 with (code (F:=F) e0).
    rewrite !code_eq. apply elt_sub_eq_0.
Qed.

Let pts : list (Point F) := omap (fun tri => wrap_point <$> canonicalize tri) (pencil p0 p1).

Lemma pencil_points_fmap :
  pts = (fun u => wrap_point (default (0, 0, 0) (canonicalize u))) <$> pencil p0 p1.
Proof.
  unfold pts. pose proof pencil_nonzero as Hnz. revert Hnz.
  induction (pencil p0 p1) as [|u l IH]; intros Hnz; [done|]. simpl.
  destruct (canonicalize u) as [c|] eqn:E.
  - simpl. f_equal. apply IH. intros. apply Hnz. by right.
  - apply canonicalize_None in E. exfalso. apply (Hnz u); [left|done].
Qed.

Lemma pencil_points_length : length pts = Z.to_nat (f_Q + 1).
Proof.
  rewrite pencil_points_fmap, length_fmap. unfold pencil. simpl.
  rewrite length_map, length_seqZ. pose proof q_pos. lia.
Qed.

Lemma pencil_points_NoDup : base.NoDup pts.
Proof.
  rewrite pencil_points_fmap. apply NoDup_alt. intros i j x Hi Hj.
  apply list_lookup_fmap_Some in Hi as (u & -> & Hu).
  apply list_lookup_fmap_Some in Hj as (v & E & Hv).
  injection E as E.
  assert (Hcu := pencil_nonzero u ltac:(by eapply list_elem_of_lookup_2)).
  assert (Hcv := pencil_nonzero v ltac:(by eapply list_elem_of_lookup_2)).
  assert (Hiu := pencil_in u ltac:(by eapply list_elem_of_lookup_2)).
  assert (Hiv := pencil_in v ltac:(by eapply list_elem_of_lookup_2)).
  destruct (canonicalize u) as [c|] eqn:Eu; [|by apply canonicalize_None in Eu].
  destruct (canonicalize v) as [d|] eqn:Ev; [|by apply canonicalize_None in Ev].
  simpl in E. subst d.
  destruct (Nat.lt_trichotomy i j) as [Hlt|[?|Hlt]]; [|done|]; exfalso.
  - by apply (pencil_injective i j u v Hu Hv Hlt), (same_canonical_parallel u v c).
  - by apply (pencil_injective j i v u Hv Hu Hlt), (same_canonical_parallel v u c).
Qed.

(** Completeness: a canonical combination of the basis is listed. *)
Lemma pencil_points_complete c a b :
  tin (F := F) c -> is_canonical c = true -> canon F a -> canon F b ->
  c = vadd (scale (F := F) a p0) (scale (F := F) b p1) -> wrap_point c ∈ pts.
Proof.
  intros Hc Cc Ha Hb E. apply list_elem_of_omap.
  assert (Hpick : forall k u, canon F k -> u ∈ pencil p0 p1 -> c = scale (F := F) k u ->
            exists x, x ∈ pencil p0 p1 /\ wrap_point <$> canonicalize x = Some (wrap_point (F:=F) c)).
  { intros k u Hk Hu Ec. exists u. split; [done|].
    destruct (canonicalize u) as [d|] eqn:Eu.
    2:{ apply canonicalize_None in Eu. by apply pencil_nonzero in Hu. }
    assert (Hk0 : k <> 0).
    { intros ->. apply pencil_in in Hu. destruct u as [[x y] z]. destruct Hu as (?&?&?).
      simpl in Ec. rewrite !mul_0_l in Ec by done. rewrite Ec in Cc. done. }
    pose proof (canonicalize_scale_inv k u d Hk Hk0 (pencil_in u Hu) Eu) as H.
    rewrite <- Ec, canonicalize_id in H by done. simpl. congruence. }
  destruct (Z.eq_dec b 0) as [->|Hb0].
  - apply (Hpick a p0); [done|unfold pencil; left|].
    rewrite E. destruct p0 as [[x y] z], p1 as [[u v] w]. simpl in *.
    destruct H0 as (?&?&?), H1 as (?&?&?). rewrite !mul_0_l by done.
    rewrite !(fl_add_comm _ 0), !fl_add_0 by auto with canon. done.
  - apply (Hpick b (vadd (scale (F := F) (f_mul a (f_inv b)) p0) p1)); [done| |].
    + right. apply list_elem_of_fmap. eexists. split; [done|]. apply elem_of_seqZ.
      assert (canon F (f_mul a (f_inv b))) by auto with canon. unfold canon in *. lia.
    + rewrite E. by apply pencil_factor.
Qed.

Lemma pencil_points_incident l p :
  tin (F := F) l -> dot p0 l = 0 -> dot p1 l = 0 -> p ∈ pts ->
  point_ok p /\ dot (p_coords p) l = 0.
Proof.
  intros Hl Hd0 Hd1 (u & Hu & (c & Hc & ->)%fmap_Some)%list_elem_of_omap. simpl.
  pose proof (pencil_in u Hu) as Hui. destruct (canonicalize_ok u c Hui Hc) as [Hci Hcc].
  split; [done|]. rewrite dot_comm by done. apply (canonicalize_dot u c l Hui Hl Hc).
  rewrite dot_comm by done. clear Hc Hui Hci Hcc. revert Hu. unfold pencil.
  rewrite elem_of_cons, list_elem_of_fmap. intros [-> | (t & -> & Ht%elem_of_seqZ)]; [done|].
  apply dot_pencil; try done.
Qed.

End Pencil.

(** The basis [points_on] reads off a canonical line, and the pencil it enumerates. *)
Definition line_basis (l : Triple) : Triple * Triple :=
  let '(a, b, c) := l in
  let neg x := f_sub 0 x in
  if negb (a =? 0) then ((neg c, 0, a), (b, neg a, 0))
  else if negb (b =? 0) then ((0, c, neg b), (b, 0, 0))
  else ((0, c, 0), (neg c, 0, 0)).

Lemma points_on_pencil l :
  points_on l =
    let '(p0, p1) := line_basis (l_coords l) in
    omap (fun tri => wrap_point <$> canonicalize tri) (pencil p0 p1).
Proof.
  destruct l as [[[a b] c]]. unfold points_on, line_basis, pencil. simpl.
  destruct (negb (a =? 0)); [done|]. by destruct (negb (b =? 0)).
Qed.

Lemma line_basis_spec l p0 p1 :
  tin (F := F) l -> is_canonical l = true -> line_basis l = (p0, p1) ->
  tin (F := F) p0 /\ tin (F := F) p1 /\ cross (F := F) p0 p1 <> (0, 0, 0) /\
  dot p0 l = 0 /\ dot p1 l = 0 /\
  forall v, tin (F := F) v -> dot v l = 0 ->
    exists a b, canon F a /\ canon F b /\ v = vadd (scale (F := F) a p0) (scale (F := F) b p1).
Proof.
  intros Hl Cl. apply canonical_shapes in Cl as Hs.
  pose proof (fl_canon_0 (F := F)) as C0. pose proof (fl_canon_1 (F := F)) as C1.
  assert (N1 : e1 (F := F) <> e0) by (intros E; by apply (f_equal code) in E).
  assert (Hopp : forall z : elt F, eopp z = e0 -> z = e0).
  { intros z E. transitivity (eopp (eopp z)); [ring|]. rewrite E. ring. }
  assert (Hz : forall z w : elt F, z = w -> w <> e0 -> code z <> code (F := F) e0).
  { intros z w -> Hw E. by apply Hw, code_eq. }
  destruct Hs as [(b & c & ->) | [(c & ->) | ->]]; simpl; intros [= <- <-];
    destruct Hl as (_ & Hb & Hc);
    (split; [simpl; auto with canon|]); (split; [simpl; auto with canon|]); simpl in *;
    change 1 with (code (F:=F) e1); clear Cl C0 C1.
  - lift_codes. change 0 with (code (F:=F) e0). lift_codes. split; [|split; [|split]].
    + intros [[E _]%pair_eq _]%pair_eq. revert E. apply (Hz _ e1); [ring|done].
    + apply code_eq. ring.
    + apply code_eq. ring.
    + intros [[x y] z] (?&?&?) E. cbn [dot] in E. lift_codes. rewrite code_eq in E.
      exists (code z), (code (eopp y)). split; [apply code_in|]. split; [apply code_in|].
      lift_codes. f_equal; [f_equal|]; apply code_eq; [|ring|ring].
      transitivity (esub x (eadd (eadd (emul x e1) (emul y b)) (emul z c))); [rewrite E|]; ring.
  - lift_codes. change 0 with (code (F:=F) e0). lift_codes. split; [|split; [|split]].
    + intros [[_ E]%pair_eq _]%pair_eq. revert E. apply (Hz _ (eopp e1)); [ring|].
      intros E. by apply N1, Hopp.
    + apply code_eq. ring.
    + apply code_eq. ring.
    + intros [[x y] z] (?&?&?) E. cbn [dot] in E. lift_codes. rewrite code_eq in E.
      exists (code (eopp z)), (code x). split; [apply code_in|]. split; [apply code_in|].
      lift_codes. f_equal; [f_equal|]; apply code_eq; [ring| |ring].
      transitivity (esub y (eadd (eadd (emul x e0) (emul y e1)) (emul z c))); [rewrite E|]; ring.
  - change 0 with (code (F:=F) e0). lift_codes. split; [|split; [|split]].
    + intros [_ E]%pair_eq. revert E. apply (Hz _ e1); [ring|done].
    + apply code_eq. ring.
    + apply code_eq. ring.
    + intros [[x y] z] (?&?&?) E. cbn [dot] in E. lift_codes. rewrite code_eq in E.
      exists (code y), (code (eopp x)). split; [apply code_in|]. split; [apply code_in|].
      lift_codes. f_equal; [f_equal|]; apply code_eq; [ring|ring|].
      transitivity (eadd (eadd (emul x e0) (emul y e0)) (emul z e1)); [ring|rewrite E; ring].
Qed.

Lemma points_on_spec l :
  line_ok l ->
  base.NoDup (points_on l) /\ length (points_on l) = Z.to_nat (LINE_SIZE (F := F)) /\
  forall p, p ∈ points_on l <-> point_ok p /\ point_is_on p l = true.
Proof.
  intros [Hl Cl]. rewrite points_on_pencil. destruct (line_basis (l_coords l)) as [p0 p1] eqn:E.
  destruct (line_basis_spec _ _ _ Hl Cl E) as (H0 & H1 & Hind & Hd0 & Hd1 & Hspan).
  split; [by apply pencil_points_NoDup|]. split; [by apply pencil_points_length|].
  intros p. unfold point_is_on. rewrite Z.eqb_eq. split.
  - by apply pencil_points_incident.
  - intros [[Hp Cp] Hd]. destruct (Hspan _ Hp Hd) as (a & b & Ha & Hb & Ep).
    destruct p as [c]. by apply (pencil_points_complete p0 p1 H0 H1 Hind c a b).
Qed.

Lemma lines_through_spec p :
  point_ok p ->
  base.NoDup (lines_through p) /\ length (lines_through p) = Z.to_nat (LINE_SIZE (F := F)) /\
  forall l, l ∈ lines_through p <-> line_ok l /\ line_contains l p = true.
Proof.
  intros Hp. unfold lines_through.
  destruct (points_on_spec (wrap_line (p_coords p)) Hp) as (Hnd & Hlen & Hin).
  split; [|split].
  - apply (NoDup_fmap_2_strong (fun q : Point F => wrap_line (p_coords q))); [|done].
    intros [x] [y] _ _ [= ->]. done.
  - by rewrite length_map.
  - intros [c]. rewrite list_elem_of_fmap. split.
    + intros ([c'] & [= ->] & [Hq Hon]%Hin). done.
    + intros [Hl Hon]. exists (wrap_point c). split; [done|]. by apply Hin.
Qed.

Lemma join_spec p q :
  point_ok p -> point_ok q ->
  (p = q -> point_join p q = None) /\
  (p <> q -> exists l, point_join p q = Some l /\ line_ok l /\
     point_is_on p l = true /\ point_is_on q l = true /\
     forall k, line_ok k -> point_is_on p k = true -> point_is_on q k = true -> k = l).
Proof.
  destruct p as [a], q as [b]. unfold point_ok, line_ok, point_join, point_is_on. simpl.
  intros [Ha Ca] [Hb Cb]. split.
  - intros [= ->]. rewrite cross_self by done. done.
  - intros Hne. destruct (common_normal a b) as (l & -> & Hl & Cl & Hal & Hbl & Huniq);
      [done..|congruence|].
    exists (wrap_line l). simpl. rewrite !Z.eqb_eq. split; [done|]. split; [done|].
    split; [done|]. split; [done|]. intros [k] [Hk Ck]. simpl. rewrite !Z.eqb_eq. intros.
    f_equal. by apply Huniq.
Qed.

Lemma meet_spec l k :
  line_ok l -> line_ok k ->
  (l = k -> line_meet l k = None) /\
  (l <> k -> exists p, line_meet l k = Some p /\ point_ok p /\
     line_contains l p = true /\ line_contains k p = true /\
     forall q, point_ok q -> line_contains l q = true -> line_contains k q = true -> q = p).
Proof.
  destruct l as [a], k as [b]. unfold point_ok, line_ok, line_meet, line_contains. simpl.
  intros [Ha Ca] [Hb Cb]. split.
  - intros [= ->]. rewrite cross_self by done. done.
  - intros Hne. destruct (common_normal a b) as (c & -> & Hl & Cl & Hal & Hbl & Huniq);
      [done..|congruence|].
    exists (wrap_point c). simpl. rewrite !Z.eqb_eq. split; [done|]. split; [done|].
    split; [done|]. split; [done|]. intros [q] [Hq Cq]. simpl. rewrite !Z.eqb_eq. intros.
    f_equal. by apply Huniq.
Qed.

Lemma new_spec c :
  u32_triple c ->
  (point_new c = None <-> is_valid c = false) /\ forall p, point_new c = Some p -> point_ok p.
Proof.
  intros Hu. unfold point_new. destruct (is_valid c) eqn:E; simpl.
  - destruct c as [[x y] z]. destruct Hu as (?&?&?).
    destruct (is_valid_tin (x, y, z)) as [Hin Hnz]; [done..|].
    destruct (canonicalize (x, y, z)) as [d|] eqn:Ed.
    + split; [done|]. intros p [= <-]. by apply (canonicalize_ok (x, y, z)).
    + by apply canonicalize_None in Ed.
  - done.
Qed.

End Incidence.

(** The Steiner property, for every lawful field: [join] of two distinct points is a
    line through both and the only one; [join] of a point with itself is [None]. *)
Theorem join_is_unique_line (F : Field) (FL : FieldLaws F) (p q : Point F) :
  point_ok p -> point_ok q ->
  (p = q -> point_join p q = None) /\
  (p <> q -> exists l, point_join p q = Some l /\ line_ok l /\
     point_is_on p l = true /\ point_is_on q l = true /\
     forall k, line_ok k -> point_is_on p k = true -> point_is_on q k = true -> k = l).
Proof. apply join_spec. Qed.

(** The dual Steiner property (quorum intersection): two distinct lines meet in exactly
    one point, which [meet] returns; equal lines have no [meet]. *)
Theorem meet_is_unique_point (F : Field) (FL : FieldLaws F) (l k : Line F) :
  line_ok l -> line_ok k ->
  (l = k -> line_meet l k = None) /\
  (l <> k -> exists p, line_meet l k = Some p /\ point_ok p /\
     line_contains l p = true /\ line_contains k p = true /\
     forall q, point_ok q -> line_contains l q = true -> line_contains k q = true -> q = p).
Proof. apply meet_spec. Qed.

(** The [Θ(q)] enumerator [points_on] lists exactly the points incident to the line,
    each once, [q + 1] of them. *)
Theorem points_on_enumerates_line (F : Field) (FL : FieldLaws F) (l : Line F) :
  line_ok l ->
  base.NoDup (points_on l) /\ length (points_on l) = Z.to_nat (LINE_SIZE (F := F)) /\
  forall p, p ∈ points_on l <-> point_ok p /\ point_is_on p l = true.
Proof. apply points_on_spec. Qed.

(** The canonical index is a bijection between the points and [0 .. q^2 + q]: [at]
    inverts [index] on every point, and every in-range index is the index of [at] of it. *)
Theorem point_index_bijection (F : Field) (FL : FieldLaws F) :
  (forall p : Point F, point_ok p ->
     0 <= point_index p < plane_N (F := F) /\ point_at (point_index p) = Some p) /\
  (forall i, 0 <= i < plane_N (F := F) ->
     exists p : Point F, point_at i = Some p /\ point_ok p /\ point_index p = i).
Proof.
  split.
  - intros [c] [Hc Cc]. unfold point_index, point_at. simpl. split; [by apply index_range|].
    by rewrite coords_of_index_of_coords.
  - intros i Hi. destruct (index_of_coords_of_index i Hi) as (c & E & Hc & Cc & Ei).
    exists (wrap_point c). unfold point_at. rewrite E. done.
Qed.

(** ** Witnesses on the base cell and on a prime plane *)

From S2P Require Import Gf2m GfP.

#[global] Instance tin_dec F t : Decision (tin (F := F) t).
Proof. destruct t as [[x y] z]. unfold tin, canon. apply _. Defined.
#[global] Instance point_ok_dec F (p : Point F) : Decision (point_ok p).
Proof. unfold point_ok. apply _. Defined.
#[global] Instance line_ok_dec F (l : Line F) : Decision (line_ok l).
Proof. unfold line_ok. apply _. Defined.

Lemma join_is_unique_line_witness :
  l_coords <$> point_join (F := F7) (wrap_point (1, 2, 3)) (wrap_point (0, 1, 4))
    = Some (1, 2, 3) /\
  exists l, point_join (F := F7) (wrap_point (1, 2, 3)) (wrap_point (0, 1, 4)) = Some l /\ line_ok l.
Proof.
  split; [vm_compute; reflexivity|].
  destruct (join_is_unique_line F7 F7_laws (wrap_point (1, 2, 3)) (wrap_point (0, 1, 4)))
    as [_ H]; [by_decide..|].
  destruct H as (l & H1 & H2 & _); [discriminate|]. exists l. split; assumption.
Defined.

Lemma meet_is_unique_point_witness :
  p_coords <$> line_meet (F := F4) (wrap_line (1, 2, 3)) (wrap_line (0, 1, 2)) = Some (0, 1, 3) /\
  exists p, line_meet (F := F4) (wrap_line (1, 2, 3)) (wrap_line (0, 1, 2)) = Some p /\ point_ok p.
Proof.
  split; [vm_compute; reflexivity|].
  destruct (meet_is_unique_point F4 F4_laws (wrap_line (1, 2, 3)) (wrap_line (0, 1, 2)))
    as [_ H]; [by_decide..|].
  destruct H as (p & H1 & H2 & _); [discriminate|]. exists p. split; assumption.
Defined.

Lemma points_on_enumerates_line_witness :
  map p_coords (points_on (F := F2) (wrap_line (1, 1, 0))) = [(0, 0, 1); (1, 1, 0); (1, 1, 1)] /\
  base.NoDup (points_on (F := F2) (wrap_line (1, 1, 0))).
Proof.
  split; [vm_compute; reflexivity|].
  destruct (points_on_enumerates_line F2 F2_laws (wrap_line (1, 1, 0))) as [H _]; [by_decide|].
  exact H.
Defined.

Lemma point_index_bijection_witness :
  point_index (F := F5) (wrap_point (1, 2, 3)) = 13 /\
  exists p : Point F5, point_at 30 = Some p /\ point_index p = 30.
Proof.
  split; [vm_compute; reflexivity|].
  destruct (point_index_bijection F5 F5_laws) as [_ H].
  destruct (H 30) as (p & H1 & _ & H2); [vm_compute; split; [discriminate|reflexivity]|].
  exists p. split; assumption.
Defined.
