(* ===== verification/Fano.v ===== *)
(** * The base Fano cell and the cell partition

    [fanos-geometry/src/fano.rs]: the compile-time incidence tables of [PG(2,2)], the
    mediator map, and the rule that splits a larger plane into seven-member cells.  The
    tables are built by the source from raw [GF(2)] arithmetic (and, xor); the theorems
    relate them to the generic plane over [F2], and show that the cell rule partitions
    every plane it accepts. *)
From S2P Require Import Prelude Field Gf2m GfP Element Plane.
Local Open Scope Z_scope.

Module Fano.

Definition N : Z := 7.
Definition LINE_SIZE : Z := 3.

Definition coords_at (i : Z) : Triple :=
  if i <? 4 then (1, i / 2, i mod 2)
  else if i <? 6 then (0, 1, i - 4)
  else (0, 0, 1).

Definition index_of (c : Triple) : Z :=
  let '(x, y, z) := c in
  if x =? 1 then y * 2 + z
  else if (x =? 0) && (y =? 1) then 4 + z
  else 6.

Definition incident_gf2 (p l : Triple) : bool :=
  let '(p0, p1, p2) := p in
  let '(l0, l1, l2) := l in
  Z.land (Z.lxor (Z.lxor (Z.land p0 l0) (Z.land p1 l1)) (Z.land p2 l2)) 1 =? 0.

Definition build_point_coords : list Triple := coords_at <$> seqZ 0 N.

Definition build_line_points : list (list Z) :=
  (fun l => filter (fun p => incident_gf2 (coords_at p) (coords_at l) = true) (seqZ 0 N))
    <$> seqZ 0 N.

Definition build_incidence : list Z :=
  (fun l => foldl (fun inc p =>
     if incident_gf2 (coords_at p) (coords_at l) then Z.lor inc (Z.shiftl 1 p) else inc)
     0 (seqZ 0 N)) <$> seqZ 0 N.

Definition txor (a b : Triple) : Triple :=
  let '(a0, a1, a2) := a in
  let '(b0, b1, b2) := b in (Z.lxor a0 b0, Z.lxor a1 b1, Z.lxor a2 b2).

Definition build_mediator : list (list Z) :=
  (fun i => (fun j => if i =? j then -1 else index_of (txor (coords_at i) (coords_at j)))
     <$> seqZ 0 N) <$> seqZ 0 N.

Definition POINT_COORDS : list Triple := Eval vm_compute in build_point_coords.
Definition LINE_POINTS : list (list Z) := Eval vm_compute in build_line_points.
Definition POINT_LINES : list (list Z) := LINE_POINTS.
Definition INCIDENCE : list Z := Eval vm_compute in build_incidence.
Definition MEDIATOR : list (list Z) := Eval vm_compute in build_mediator.

(** [usize] indexing of a table: [slice::get]. *)
Definition tget {A} (t : list A) (i : Z) : option A := t !! Z.to_nat i.

Definition mediator (i j : Z) : option Z :=
  if (N <=? i) || (N <=? j) || (i =? j) then None
  else letO row := tget MEDIATOR i in
       letO m := tget row j in
       if m <? 0 then None else Some m.

(** ** Cells: seven distinct points of a plane *)

Section Cells.
Context {F : Field}.

#[export] Instance Point_eq_dec : EqDecision (Point F).
Proof. intros [a] [b]. destruct (decide (a = b)); [left|right]; congruence. Defined.

Record CellMembers := { members : list Triple }.

(** [for (i, a) in points.enumerate() { if points.skip(i+1).any(|b| a == b) .. }] *)
Fixpoint has_repeat (ps : list (Point F)) : bool :=
  match ps with
  | [] => false
  | a :: ps => existsb (fun b => bool_decide (a = b)) ps || has_repeat ps
  end.

(** The argument is the source's array [[Triple; 7]]. *)
Definition cell_members_new (ms : list Triple) : option CellMembers :=
  letO points := mapM (point_new (F := F)) ms in
  if has_repeat points then None else Some {| members := ms |}.

Definition cells_in_order (q : Z) : option Z :=
  let n := q * q + q + 1 in
  if n mod N =? 0 then Some (n / N) else None.

Definition cells_in : option Z := cells_in_order f_Q.

Definition cell_of (p : Point F) : option Z :=
  (fun cells => point_index p mod cells) <$> cells_in.

(** [None] of [point_at] is the source's panic; [cell_members_of_spec] shows it is never
    reached. *)
Definition cell_members_of (c : Z) : option CellMembers :=
  letO cells := cells_in in
  if cells <=? c then None
  else letO ms := mapM (fun i => p_coords <$> point_at (F := F) (c + i * cells)) (seqZ 0 N) in
       cell_members_new ms.

End Cells.

(** ** The tables against the generic plane *)

Section Tables.

Definition pt (i : Z) : option (Point F2) := point_at i.
Definition ln (i : Z) : option (Line F2) := line_at i.

(** One cell of the tables checked against the plane over [F2]. *)
Definition tables_agree (l p : Z) : bool :=
  match pt p, ln l, tget INCIDENCE l, tget LINE_POINTS l, tget POINT_COORDS p with
  | Some P, Some L, Some inc, Some row, Some c =>
      Bool.eqb (Z.testbit inc p) (point_is_on P L) &&
      Bool.eqb (bool_decide (p ∈ row)) (point_is_on P L) &&
      bool_decide (c = p_coords P) && (Z.of_nat (length row) =? LINE_SIZE) &&
      (0 <=? inc) && (inc <? 128)
  | _, _, _, _, _ => false
  end.

Definition mediates (i j : Z) : bool :=
  if i =? j then bool_decide (mediator i j = None)
  else match pt i, pt j, mediator i j with
       | Some P, Some Q, Some k =>
           match point_join P Q, pt k with
           | Some L, Some K =>
               point_is_on K L && negb (k =? i) && negb (k =? j) && (0 <=? k) && (k <? 7) &&
               forallb (fun m => match pt m with
                 | Some M => implb (point_is_on M L) ((m =? i) || (m =? j) || (m =? k))
                 | None => false end) (seqZ 0 7)
           | _, _ => false
           end
       | _, _, _ => false
       end.

Lemma tables_agree_all :
  forallb (fun l => forallb (tables_agree l) (seqZ 0 7)) (seqZ 0 7) = true.
Proof. vm_compute. reflexivity. Qed.

Lemma mediates_all : forallb (fun i => forallb (mediates i) (seqZ 0 7)) (seqZ 0 7) = true.
Proof. vm_compute. reflexivity. Qed.

Lemma check_pair (f : Z -> Z -> bool) :
  forallb (fun i => forallb (f i) (seqZ 0 7)) (seqZ 0 7) = true ->
  forall i j, 0 <= i < 7 -> 0 <= j < 7 -> f i j = true.
Proof.
  intros H i j Hi Hj. apply (forallb_seqZ (f i) 0 7); [|lia].
  apply (forallb_seqZ (fun i => forallb (f i) (seqZ 0 7)) 0 7); [done|lia].
Qed.

(** The compile-time tables, built from raw xor/and arithmetic, agree with the generic
    plane over [F2]: bit [p] of [INCIDENCE[l]] and membership in [LINE_POINTS[l]] both say
    that point [p] lies on line [l], every line lists [LINE_SIZE] points, and
    [POINT_COORDS] holds the canonical coordinates. *)
Theorem fano_tables_match_plane (p l : Z) :
  0 <= p < N -> 0 <= l < N ->
  exists P L inc row,
    point_at (F := F2) p = Some P /\ line_at (F := F2) l = Some L /\
    tget INCIDENCE l = Some inc /\ tget LINE_POINTS l = Some row /\
    tget POINT_COORDS p = Some (p_coords P) /\
    Z.testbit inc p = point_is_on P L /\ (p ∈ row <-> point_is_on P L = true) /\
    Z.of_nat (length row) = LINE_SIZE.
Proof.
  intros Hp Hl. pose proof (check_pair _ tables_agree_all l p Hl Hp) as H.
  unfold tables_agree, pt, ln in H.
  destruct (point_at p) as [P|], (line_at l) as [L|], (tget INCIDENCE l) as [inc|],
    (tget LINE_POINTS l) as [row|], (tget POINT_COORDS p) as [c|]; try discriminate.
  exists P, L, inc, row.
  rewrite !andb_true_iff, !eqb_true_iff, bool_decide_eq_true, Z.eqb_eq in H.
  destruct H as (((((H1 & H2) & H3) & H4) & _) & _).
  repeat split; try congruence; intros.
  - rewrite <- H2. by apply bool_decide_eq_true.
  - apply (bool_decide_eq_true (p ∈ row)). congruence.
Qed.

(** [mediator i j] is the third point of the line through two distinct points [i] and
    [j] (and the only other point of that line); it is [None] exactly when the indices are
    equal or one is out of range. *)
Theorem mediator_is_third_point (i j : Z) :
  0 <= i -> 0 <= j ->
  (mediator i j = None <-> i = j \/ N <= i \/ N <= j) /\
  (i <> j -> i < N -> j < N -> exists k P Q K L,
     mediator i j = Some k /\ 0 <= k < N /\ k <> i /\ k <> j /\
     point_at (F := F2) i = Some P /\ point_at (F := F2) j = Some Q /\
     point_at (F := F2) k = Some K /\ point_join P Q = Some L /\ point_is_on K L = true /\
     forall m M, 0 <= m < N -> point_at m = Some M -> point_is_on M L = true ->
       m = i \/ m = j \/ m = k).
Proof.
  intros Hi Hj. destruct (decide (i < N /\ j < N)) as [[Hi' Hj']|Hout].
  2: { unfold mediator. rewrite (proj2 (orb_true_iff (N <=? i) (N <=? j))) by lia.
       split; [split; [lia|done]|lia]. }
  pose proof (check_pair _ mediates_all i j) as H. unfold N in *.
  specialize (H ltac:(lia) ltac:(lia)). unfold mediates, pt in H.
  destruct (i =? j) eqn:E; [rewrite Z.eqb_eq in E; apply bool_decide_eq_true in H; split;
    [split; auto|done]|]. rewrite Z.eqb_neq in E.
  destruct (point_at (F := F2) i) as [P|], (point_at (F := F2) j) as [Q|], (mediator i j) as [k|];
    try discriminate.
  destruct (point_join P Q) as [L|] eqn:EL, (point_at (F := F2) k) as [K|] eqn:EK; try discriminate.
  rewrite !andb_true_iff, !negb_true_iff, !Z.eqb_neq, Z.leb_le, Z.ltb_lt in H.
  destruct H as (((((H1 & H2) & H3) & H4) & H5) & H6).
  split; [split; [done|lia]|]. intros _ _ _. exists k, P, Q, K, L.
  repeat split; try done. intros m M Hm EM HL.
  pose proof (forallb_seqZ _ 0 7 H6 m ltac:(lia)) as Hc. cbv beta in Hc. rewrite EM, HL in Hc. simpl in Hc.
  rewrite !orb_true_iff, !Z.eqb_eq in Hc. lia.
Qed.

Lemma fano_tables_match_plane_witness :
  (0 <= 4 < N /\ 0 <= 6 < N) /\
  exists inc row, tget INCIDENCE 6 = Some inc /\ tget LINE_POINTS 6 = Some row /\
    Z.testbit inc 4 = true /\ Z.of_nat (length row) = LINE_SIZE.
Proof.
  split; [by_decide|].
  destruct (fano_tables_match_plane 4 6) as (P & L & inc & row & _ & _ & H1 & H2 & _ & _ & _ & H3);
    [by_decide..|].
  exists inc, row. repeat split; try assumption.
  vm_compute in H1. injection H1 as <-. reflexivity.
Defined.

Lemma mediator_is_third_point_witness :
  mediator 0 1 = Some 6 /\ mediator 3 3 = None.
Proof.
  split; [vm_compute; reflexivity|].
  destruct (mediator_is_third_point 3 3) as [H _]; [by_decide..|].
  apply H. left. reflexivity.
Defined.

End Tables.

(** ** The cell rule partitions every plane it accepts *)

Section Partition.
Context {F : Field} {FL : FieldLaws F}.

Lemma has_repeat_spec (ps : list (Point F)) : has_repeat ps = false <-> base.NoDup ps.
Proof.
  induction ps as [|a ps IH]; simpl; [by split; [constructor|]|].
  rewrite orb_false_iff, IH, NoDup_cons. apply and_iff_compat_r.
  rewrite <- not_true_iff_false, existsb_exists. setoid_rewrite bool_decide_eq_true.
  setoid_rewrite <- list_elem_of_In. naive_solver.
Qed.

Lemma point_new_ok (p : Point F) : point_ok p -> point_new (p_coords p) = Some p.
Proof.
  destruct p as [c]. intros [Hc Cc]. unfold point_new. simpl in *.
  rewrite canonicalize_id by done. pose proof (canonical_nonzero _ Cc) as Hnz.
  unfold is_valid. destruct c as [[x y] z]. destruct Hc as (Hx & Hy & Hz). unfold canon in *.
  unfold f_in_range. rewrite !(proj2 (Z.ltb_lt _ _)) by lia.
  unfold is_zero. rewrite bool_decide_false by done. done.
Qed.

Lemma cells_in_spec cells :
  cells_in (F := F) = Some cells <-> plane_N (F := F) = N * cells.
Proof.
  unfold cells_in, cells_in_order, plane_N, N. case_match eqn:E.
  - rewrite Z.eqb_eq in E. pose proof (Z.div_mod (f_Q * f_Q + f_Q + 1) 7 ltac:(lia)).
    split; [intros [= <-]; lia|intros H1; f_equal; lia].
  - rewrite Z.eqb_neq in E. split; [done|]. intros H. rewrite H, Z.mul_comm, Z.mod_mul in E; lia.
Qed.

Lemma cells_pos cells : plane_N (F := F) = N * cells -> 0 < cells.
Proof. unfold plane_N, N. pose proof (q_pos (F := F)). nia. Qed.

(** The point of seat [i] in cell [c]. *)
Definition seat (cells c i : Z) : Point F :=
  default (wrap_point (0, 0, 1)) (point_at (c + i * cells)).

Lemma seat_range cells c i :
  plane_N (F := F) = N * cells -> 0 <= c < cells -> 0 <= i < N ->
  0 <= c + i * cells < plane_N (F := F).
Proof. intros ->. unfold N. nia. Qed.

Lemma seat_spec cells c i :
  plane_N (F := F) = N * cells -> 0 <= c < cells -> 0 <= i < N ->
  point_at (c + i * cells) = Some (seat cells c i) /\ point_ok (seat cells c i) /\
  point_index (seat cells c i) = c + i * cells.
Proof.
  intros HN Hc Hi. pose proof (seat_range _ _ _ HN Hc Hi) as Hr.
  destruct (index_of_coords_of_index _ Hr) as (t & E & Ht & Ct & Ei).
  unfold seat, point_at. rewrite E. simpl. done.
Qed.

Lemma seat_of_index cells c i :
  0 < cells -> 0 <= c < cells -> i mod cells = c -> i = c + (i / cells) * cells.
Proof. intros ? ? <-. pose proof (Z.div_mod i cells). lia. Qed.

Lemma cell_members_of_spec cells c :
  cells_in (F := F) = Some cells -> 0 <= c < cells ->
  cell_members_of (F := F) c
    = Some {| members := p_coords ∘ seat cells c <$> seqZ 0 N |}.
Proof.
  intros Hcells Hc. pose proof (proj1 (cells_in_spec _) Hcells) as HN.
  assert (Hs : forall i, i ∈ seqZ 0 N -> 0 <= i < N) by (intros i; rewrite elem_of_seqZ; lia).
  unfold cell_members_of. rewrite Hcells, (proj2 (Z.leb_gt _ _)) by lia.
  rewrite (mapM_total _ (p_coords ∘ seat cells c)).
  2: { intros i Hi%Hs. destruct (seat_spec _ _ _ HN Hc Hi) as [-> _]. done. }
  unfold cell_members_new. rewrite (mapM_total _ wrap_point).
  2: { intros t (i & -> & Hi%Hs)%list_elem_of_fmap. simpl. rewrite point_new_ok by
         (by apply seat_spec). by destruct (seat cells c i). }
  rewrite (proj2 (has_repeat_spec _)); [done|].
  rewrite <- list_fmap_compose. apply NoDup_fmap_2_strong; [|apply NoDup_seqZ].
  intros i j Hi%Hs Hj%Hs E. simpl in E.
  assert (Es : seat cells c i = seat cells c j).
  { destruct (seat cells c i), (seat cells c j). simpl in E. congruence. }
  destruct (seat_spec _ _ _ HN Hc Hi) as (_ & _ & Ii).
  destruct (seat_spec _ _ _ HN Hc Hj) as (_ & _ & Ij).
  rewrite Es in Ii. pose proof (cells_pos _ HN). nia.
Qed.

End Partition.

(** When the plane splits into cells, the rule [index mod cells] partitions it: a
    point's cell exists and is in range, and for every cell the derived roster is accepted,
    holds seven distinct coordinates, and lists exactly the points the rule sends there. *)
Theorem cells_partition_plane (F : Field) (FL : FieldLaws F) (cells : Z) :
  cells_in (F := F) = Some cells ->
  (forall p : Point F, point_ok p -> exists c, cell_of p = Some c /\ 0 <= c < cells) /\
  (forall c, 0 <= c < cells -> exists ms, cell_members_of (F := F) c = Some ms /\
     Z.of_nat (length (members ms)) = N /\ base.NoDup (members ms) /\
     forall p : Point F, point_ok p -> (p_coords p ∈ members ms <-> cell_of p = Some c)) /\
  (forall c, cells <= c -> cell_members_of (F := F) c = None).
Proof.
  intros Hcells. pose proof (proj1 (cells_in_spec _) Hcells) as HN.
  pose proof (cells_pos _ HN) as Hpos. split; [|split].
  - intros p _. unfold cell_of. rewrite Hcells. simpl. eexists. split; [done|].
    by apply Z.mod_pos_bound.
  - intros c Hc. eexists. split; [by apply cell_members_of_spec|]. cbn [members]. split; [done|].
    assert (Hs : forall i, i ∈ seqZ 0 N -> 0 <= i < N) by (intros i; rewrite elem_of_seqZ; lia).
    split.
    + apply NoDup_fmap_2_strong; [|apply NoDup_seqZ]. intros i j Hi%Hs Hj%Hs E. simpl in E.
      destruct (seat_spec _ _ _ HN Hc Hi) as (_ & _ & Ii).
      destruct (seat_spec _ _ _ HN Hc Hj) as (_ & _ & Ij).
      unfold point_index in *. rewrite E in Ii. nia.
    + intros p Hp. rewrite list_elem_of_fmap. unfold cell_of. rewrite Hcells. cbn [fmap option_fmap option_map].
      split.
      * intros (i & E & Hi%Hs). destruct (seat_spec _ _ _ HN Hc Hi) as (_ & _ & Ii).
        unfold point_index in *. simpl in E. rewrite E, Ii, Z.mod_add, Z.mod_small by lia. done.
      * intros [= E]. destruct p as [t]. destruct Hp as [Ht Ct].
        pose proof (index_range t Ht Ct) as Hr. unfold point_index in E. simpl in *.
        exists (index_of_coords (F := F) t / cells). split.
        -- unfold seat, point_at. rewrite <- (seat_of_index cells c) by (done || lia).
           by rewrite coords_of_index_of_coords.
        -- apply elem_of_seqZ. split; [apply Z.div_pos; lia|].
           apply Z.div_lt_upper_bound; [lia|]. unfold N in *. lia.
  - intros c Hc. unfold cell_members_of. rewrite Hcells, (proj2 (Z.leb_le _ _)) by lia. done.
Qed.

Lemma cells_partition_plane_witness :
  cells_in (F := F11) = Some 19 /\ exists ms, cell_members_of (F := F11) 7 = Some ms /\
    base.NoDup (members ms).
Proof.
  split; [vm_compute; reflexivity|].
  destruct (cells_partition_plane F11 F11_laws 19) as (_ & H & _); [vm_compute; reflexivity|].
  destruct (H 7) as (ms & H1 & _ & H2 & _); [by_decide|]. exists ms. split; assumption.
Defined.

End Fano.
