(* ===== verification/Hamming.v ===== *)
(** * The Hamming(7,4) code of the base cell

    [fanos-code/src/hamming.rs]: the three-parity-check syndrome, the single-error locator,
    the codeword tables and the address of a Fano point. *)
From S2P Require Import Prelude Field Element Plane Fano.
Local Open Scope Z_scope.

Module Hamming.

Definition N : Z := 7.

Definition syndrome (word : Z) : Z :=
  let w := Z.land word 0x7F in
  let s0 := Z.land (count_ones 32 (Z.land w 0x55)) 1 in
  let s1 := Z.land (count_ones 32 (Z.land w 0x66)) 1 in
  let s2 := Z.land (count_ones 32 (Z.land w 0x78)) 1 in
  Z.lor (Z.lor s0 (Z.shiftl s1 1)) (Z.shiftl s2 2).

Definition locate_single (word : Z) : option Z :=
  let p := syndrome word in if p =? 0 then None else Some p.

Definition is_codeword (word : Z) : bool := syndrome word =? 0.

Definition build_codewords : list Z := filter (fun w => is_codeword w = true) (seqZ 0 0x80).

Definition build_weight3 : list Z := filter (fun c => count_ones 8 c = 3) build_codewords.

Definition CODEWORDS : list Z := build_codewords.
Definition LINE_CODEWORDS : list Z := build_weight3.

Definition point_address (point_index : Z) : Z :=
  let '(x, y, z) := default (0, 0, 0) (Fano.tget Fano.POINT_COORDS point_index) in
  4 * x + 2 * y + z.

(** ** Reference definitions and theorems *)

(** The textbook syndrome: the xor of the addresses [1..7] of the set bits. *)
Definition xor_of_addresses (word : Z) : Z :=
  foldl (fun acc i => if Z.testbit word i then Z.lxor acc (i + 1) else acc) 0 (seqZ 0 7).

(** The position mask of a set of Fano points. *)
Definition line_mask_of (points : list Z) : Z :=
  foldl (fun m p => Z.lor m (Z.shiftl 1 (point_address p - 1))) 0 points.

Definition flip (word p : Z) : Z := Z.lxor word (Z.shiftl 1 (p - 1)).

Definition word_ok (w : Z) : bool :=
  (syndrome w =? xor_of_addresses w) &&
  (match locate_single w with
   | None => is_codeword w
   | Some p => (1 <=? p) && (p <=? 7) && is_codeword (flip w p)
   end) &&
  forallb (fun p => implb (is_codeword w) (bool_decide (locate_single (flip w p) = Some p)))
    (seqZ 1 7).

Lemma words_ok : forallb word_ok (seqZ 0 128) = true.
Proof. vm_compute. reflexivity. Qed.

(** On every seven-bit word the branchless syndrome is the xor of the addresses of
    the set bits; the located position, when there is one, flips the word to a codeword; and
    a codeword with any one position flipped is located back to that very position. *)
Theorem hamming_decodes_single_errors (w : Z) :
  0 <= w < 128 ->
  syndrome w = xor_of_addresses w /\
  (locate_single w = None <-> is_codeword w = true) /\
  (forall p, locate_single w = Some p -> 1 <= p <= 7 /\ is_codeword (flip w p) = true) /\
  (is_codeword w = true -> forall p, 1 <= p <= 7 -> locate_single (flip w p) = Some p).
Proof.
  intros Hw. pose proof (forallb_seqZ _ 0 128 words_ok w ltac:(lia)) as H.
  unfold word_ok in H. rewrite !andb_true_iff, Z.eqb_eq in H. destruct H as [[H1 H2] H3].
  split; [done|]. split; [|split].
  - unfold locate_single, is_codeword. cbv zeta. destruct (syndrome w =? 0); split; congruence.
  - intros p E. rewrite E, !andb_true_iff, !Z.leb_le in H2. tauto.
  - intros Hc p Hp. pose proof (forallb_seqZ _ 1 7 H3 p ltac:(lia)) as Hl. cbv beta in Hl.
    rewrite Hc in Hl. simpl in Hl. by apply bool_decide_eq_true in Hl.
Qed.

Lemma hamming_decodes_single_errors_witness :
  is_codeword 0x2D = true /\ locate_single (flip 0x2D 5) = Some 5.
Proof.
  split; [vm_compute; reflexivity|].
  destruct (hamming_decodes_single_errors 0x2D) as (_ & _ & _ & H); [by_decide|].
  apply H; [vm_compute; reflexivity|by_decide].
Defined.

(** The Fano plane is the Hamming code: there are sixteen codewords, any two differ in
    at least three positions, and the weight-three codewords are exactly the position masks
    of the seven geometric lines. *)
Theorem fano_lines_are_weight3_codewords :
  length CODEWORDS = 16%nat /\ base.NoDup (line_mask_of <$> Fano.LINE_POINTS) /\
  (forall m, m ∈ LINE_CODEWORDS <-> m ∈ line_mask_of <$> Fano.LINE_POINTS) /\
  (forall c d, c ∈ CODEWORDS -> d ∈ CODEWORDS -> c <> d -> 3 <= count_ones 8 (Z.lxor c d)).
Proof.
  split; [vm_compute; reflexivity|]. split; [by_decide|]. split.
  - assert (H : LINE_CODEWORDS ≡ₚ (line_mask_of <$> Fano.LINE_POINTS)) by by_decide.
    intros m. by rewrite H.
  - assert (H : Forall (fun c => Forall (fun d =>
      c <> d -> 3 <= count_ones 8 (Z.lxor c d)) CODEWORDS) CODEWORDS) by by_decide.
    intros c d Hc Hd. rewrite Forall_forall in H. specialize (H c Hc).
    rewrite Forall_forall in H. by apply H.
Qed.

End Hamming.
