(* ===== verification/Lrc.v ===== *)
(** * The recoverability oracle of the projective erasure code

    [fanos-code/src/lrc.rs]: peeling a set of lost Fano nodes line by line, and the
    hyperoval test. *)
From S2P Require Import Prelude Field Element Plane Fano.
Local Open Scope Z_scope.

Module Lrc.

Definition locality (q : Z) : Z := q.
Definition availability (q : Z) : Z := w32 (q + 1).

(** Clearing bits: [lost &= !x] on a [u8]. *)
Definition clear (lost x : Z) : Z := Z.land lost (Z.lxor x 0xFF).

(** One line of the [for l in 0..N] body: the updated [lost] and [progressed]. *)
Definition peel_line (st : Z * bool) (l : Z) : Z * bool :=
  let '(lost, progressed) := st in
  match Fano.tget Fano.INCIDENCE l with
  | None => (lost, progressed)
  | Some line_mask =>
      let lost_on_line := Z.land line_mask lost in
      if is_power_of_two 8 lost_on_line then (clear lost lost_on_line, true)
      else (lost, progressed)
  end.

Definition peel_pass (lost : Z) : Z * bool := foldl peel_line (lost, false) (seqZ 0 Fano.N).

(** The outer [loop]; [None] is exhausted fuel. *)
Fixpoint peel_loop (fuel : nat) (lost : Z) : option Z :=
  match fuel with
  | O => None
  | S fuel =>
      let '(lost, progressed) := peel_pass lost in
      if progressed then peel_loop fuel lost else Some lost
  end.

(** Every pass but the last clears one of seven bits, so eight passes suffice
    ([peel_terminates]). *)
Definition peel_fano (lost : Z) : Z := default 0xFF (peel_loop 8 (Z.land lost 0x7F)).

Definition is_recoverable_fano (lost : Z) : bool := peel_fano lost =? 0.

Definition is_hyperoval_fano (mask : Z) : bool :=
  let mask := Z.land mask 0x7F in
  if negb (count_ones 8 mask =? 4) then false
  else forallb (fun l => match Fano.tget Fano.INCIDENCE l with
         | Some line_mask => negb (Z.land line_mask mask =? line_mask)
         | None => true
         end) (seqZ 0 Fano.N).

(** ** The stopping set *)

(** [s] is a sub-mask of [m]. *)
Definition submask (s m : Z) : bool := Z.land s m =? s.

(** No Fano line meets [s] in exactly one point: nothing in [s] can be peeled. *)
Definition stopping (s : Z) : bool :=
  forallb (fun line => negb (count_ones 8 (Z.land line s) =? 1)) Fano.INCIDENCE.

Lemma masks_ok (f : Z -> bool) :
  forallb f (seqZ 0 128) = true -> forall m, 0 <= m < 128 -> f m = true.
Proof. intros H m Hm. apply (forallb_seqZ f 0 128); [done|lia]. Qed.

Lemma mask_low m : 0 <= Z.land m 0x7F < 128.
Proof. change 0x7F with (2 ^ 7 - 1). rewrite land_ones_wrap by lia. by apply wrap_range. Qed.

Lemma peel_terminates m : exists s, peel_loop 8 (Z.land m 0x7F) = Some s.
Proof.
  assert (H : forallb (fun m => bool_decide (is_Some (peel_loop 8 m))) (seqZ 0 128) = true)
    by (vm_compute; reflexivity).
  pose proof (masks_ok _ H _ (mask_low m)) as Hc. by apply bool_decide_eq_true in Hc.
Qed.

Lemma peel_stopping_all :
  forallb (fun m => let r := peel_fano m in
    submask r m && stopping r &&
    forallb (fun s => implb (submask s m && stopping s) (submask s r)) (seqZ 0 128))
    (seqZ 0 128) = true.
Proof. vm_compute. reflexivity. Qed.

Lemma boundary_all :
  forallb (fun m =>
    implb (count_ones 8 m <=? 3) (is_recoverable_fano m) &&
    implb (count_ones 8 m =? 4) (Bool.eqb (is_recoverable_fano m) (negb (is_hyperoval_fano m))))
    (seqZ 0 128) = true.
Proof. vm_compute. reflexivity. Qed.

(** For every loss mask the peeling decoder terminates (within its fuel) with the
    maximal stopping set: a subset of the losses no line meets in exactly one point, which
    contains every other such subset of the losses. *)
Theorem peel_fano_maximal_stopping_set (m : Z) :
  0 <= m < 128 ->
  peel_loop 8 (Z.land m 0x7F) = Some (peel_fano m) /\
  submask (peel_fano m) m = true /\ stopping (peel_fano m) = true /\
  forall s, 0 <= s < 128 -> submask s m = true -> stopping s = true ->
    submask s (peel_fano m) = true.
Proof.
  intros Hm. split.
  - unfold peel_fano. destruct (peel_terminates m) as [s ->]. done.
  - pose proof (masks_ok _ peel_stopping_all m Hm) as H. cbv beta zeta in H.
    rewrite !andb_true_iff in H. destruct H as [[H1 H2] H3]. do 2 (split; [done|]).
    intros s Hs Hsub Hst. pose proof (masks_ok _ H3 s Hs) as H. cbv beta in H.
    by rewrite Hsub, Hst in H.
Qed.

(** The recovery boundary of the base cell: any three simultaneous losses are
    recovered, and four losses are unrecoverable exactly when they form a hyperoval. *)
Theorem fano_recovery_boundary (m : Z) :
  0 <= m < 128 ->
  (count_ones 8 m <= 3 -> is_recoverable_fano m = true) /\
  (count_ones 8 m = 4 -> (is_recoverable_fano m = false <-> is_hyperoval_fano m = true)).
Proof.
  intros Hm. pose proof (masks_ok _ boundary_all m Hm) as H. cbv beta in H.
  rewrite andb_true_iff, !implb_true_iff, Z.leb_le, Z.eqb_eq, eqb_true_iff in H.
  destruct H as [H1 H2]. split; [done|]. intros H%H2. rewrite H.
  destruct (is_hyperoval_fano m); simpl; split; congruence.
Qed.

Lemma peel_fano_maximal_stopping_set_witness :
  stopping 0x0F = true /\ submask 0x0F (peel_fano 0x1F) = true.
Proof.
  split; [vm_compute; reflexivity|].
  destruct (peel_fano_maximal_stopping_set 0x1F) as (_ & _ & _ & H); [by_decide|].
  apply H; [by_decide|vm_compute; reflexivity..].
Defined.

Lemma fano_recovery_boundary_witness :
  is_recoverable_fano 0x45 = true /\ is_hyperoval_fano 0x0F = true /\
  is_recoverable_fano 0x0F = false.
Proof.
  split; [|split].
  - destruct (fano_recovery_boundary 0x45) as [H _]; [by_decide|]. apply H. by_decide.
  - vm_compute. reflexivity.
  - destruct (fano_recovery_boundary 0x0F) as [_ H]; [by_decide|].
    apply H; [by_decide|]. vm_compute. reflexivity.
Defined.

End Lrc.
