(* ===== verification/Erasure.v ===== *)
(** * The byte-level projective erasure codec

    [fanos-code/src/erasure.rs]: the [7,3,4] simplex code striped over a payload, its
    peeling decoder and the PKCS#7-style padding. *)
From S2P Require Import Prelude Field Element Plane Fano Lrc.
Local Open Scope Z_scope.

Module Erasure.

Definition N : Z := Fano.N.
Definition K : Z := 3.

(** Element [i] of a coordinate triple. *)
Definition tri (c : Triple) : list Z := let '(x, y, z) := c in [x; y; z].

Definition is_basis (r : Z) (c : Triple) : bool :=
  forallb (fun i => match Fano.tget (tri c) i with
    | Some v => v =? (if i =? r then 1 else 0) | None => false end) (seqZ 0 3).

Definition build_basis_points : list Z :=
  (fun r => default 0 (head (filter (fun p =>
     match Fano.tget Fano.POINT_COORDS p with Some c => is_basis r c | None => false end = true)
     (seqZ 0 Fano.N)))) <$> seqZ 0 K.

Definition BASIS_POINTS : list Z := build_basis_points.

(** [for (r, &c) in coords.enumerate() { if c != 0 && let Some(d) = data.get(r) {..} }] *)
Definition encode_symbol (data : list Z) (coords : Triple) : Z :=
  foldl (fun value rc => let '(r, c) := rc in
    if c =? 0 then value else
    match Fano.tget data r with Some d => Z.lxor value d | None => value end)
    0 (zip (seqZ 0 3) (tri coords)).

Definition encode_group (data : list Z) : list Z :=
  (fun p => match Fano.tget Fano.POINT_COORDS p with
            | Some coords => encode_symbol data coords | None => 0 end) <$> seqZ 0 N.

Definition decode_group (symbols : list Z) : list Z :=
  (fun p => default 0 (Fano.tget symbols p)) <$> BASIS_POINTS.

Definition mask_of (symbols : list (option Z)) : Z :=
  foldl (fun mask ps => match snd ps with
    | None => Z.lor mask (Z.shiftl 1 (fst ps)) | Some _ => mask end)
    0 (zip (seqZ 0 N) symbols).

(** The rebuilt byte: the xor of the line's other known members. *)
Definition rebuild (symbols : list (option Z)) (line_mask missing : Z) : Z :=
  foldl (fun value p =>
    if negb (Z.land line_mask (Z.shiftl 1 p) =? 0) && negb (p =? missing) then
      match Fano.tget symbols p with Some (Some byte) => Z.lxor value byte | _ => value end
    else value) 0 (seqZ 0 Fano.N).

Definition peel_group_line (st : list (option Z) * Z * bool) (l : Z) : list (option Z) * Z * bool :=
  let '(symbols, lost, progressed) := st in
  match Fano.tget Fano.INCIDENCE l with
  | None => (symbols, lost, progressed)
  | Some line_mask =>
      let lost_on_line := Z.land line_mask lost in
      if is_power_of_two 8 lost_on_line then
        let missing := trailing_zeros 8 lost_on_line in
        let value := rebuild symbols line_mask missing in
        (<[Z.to_nat missing := Some value]> symbols, Lrc.clear lost lost_on_line, true)
      else (symbols, lost, progressed)
  end.

Definition peel_group_pass (symbols : list (option Z)) (lost : Z) : list (option Z) * Z * bool :=
  foldl peel_group_line (symbols, lost, false) (seqZ 0 Fano.N).

Fixpoint peel_group_loop (fuel : nat) (symbols : list (option Z)) (lost : Z) :
    option (list (option Z) * Z) :=
  match fuel with
  | O => None
  | S fuel =>
      let '(symbols, lost, progressed) := peel_group_pass symbols lost in
      if progressed then peel_group_loop fuel symbols lost else Some (symbols, lost)
  end.

(** The symbols after the in-place update and the returned stopping-set mask; the fuel is
    that of [Lrc.peel_fano], with which the masks move in lockstep. *)
Definition peel_group (symbols : list (option Z)) : list (option Z) * Z :=
  default (symbols, 0xFF) (peel_group_loop 8 symbols (mask_of symbols)).

Definition pad (data : list Z) : list Z :=
  let rem := Z.of_nat (length data) mod K in
  let pad_len := if rem =? 0 then K else K - rem in
  data ++ replicate (Z.to_nat pad_len) (w8 pad_len).

Definition unpad (data : list Z) : option (list Z) :=
  letO pad_len := last data in
  if (pad_len =? 0) || (K <? pad_len) || (Z.of_nat (length data) <? pad_len) then None
  else
    let start := (length data - Z.to_nat pad_len)%nat in
    if existsb (fun b => negb (b =? pad_len)) (drop start data) then None
    else Some (take start data).

(** [as_chunks::<3>]: the full groups, the remainder dropped. *)
Fixpoint as_chunks (l : list Z) : list (list Z) :=
  match l with a :: b :: c :: l => [a; b; c] :: as_chunks l | _ => [] end.

Definition encode (data : list Z) : list (list Z) :=
  let chunks := as_chunks (pad data) in
  (fun p => omap (fun group => Fano.tget (encode_group group) p) chunks) <$> seqZ 0 N.

(** One stripe of [reconstruct]: gather the column, gate on the oracle, peel, decode. *)
Definition reconstruct_stripe (shards : list (option (list Z))) (g : nat) : option (list Z) :=
  let symbols := (fun p => match Fano.tget shards p with
                           | Some (Some s) => s !! g | _ => None end) <$> seqZ 0 N in
  if negb (Lrc.is_recoverable_fano (mask_of symbols)) then None
  else
    let '(symbols, remaining) := peel_group symbols in
    if negb (remaining =? 0) then None
    else Some (decode_group ((fun p => default 0 (default None (Fano.tget symbols p))) <$> seqZ 0 N)).

Definition first_len (shards : list (option (list Z))) : option nat :=
  head (omap (fun s => length <$> s) shards).

Definition reconstruct (shards : list (option (list Z))) : option (list Z) :=
  letO groups := first_len shards in
  if existsb (fun s => match s with Some s => negb (Nat.eqb (length s) groups) | None => false end)
       shards then None
  else letO stripes := mapM (reconstruct_stripe shards) (seq 0 groups) in
       unpad (concat stripes).

(** ** Linearity

    Every operation of the decoder commutes with a xor-linear map of the symbols, so the
    decoder's behaviour on all payloads follows from its behaviour on the three basis
    messages [1], [2], [4] taken as formal symbols. *)

Section Linear.
Context (h : Z -> Z) (h_0 : h 0 = 0) (h_xor : forall a b, h (Z.lxor a b) = Z.lxor (h a) (h b)).

Abbreviation lift := (fmap (M := list) (fmap (M := option) h)).

Lemma mask_of_lift s : mask_of (lift s) = mask_of s.
Proof.
  unfold mask_of. set (ids := seqZ 0 N). clearbody ids.
  set (acc := 0) at 1. change 0 with acc. clearbody acc. revert ids acc.
  induction s as [|x s IH]; intros [|i ids] acc; simpl; try done. rewrite IH. by destruct x.
Qed.

Lemma tget_lift s p : Fano.tget (lift s) p = fmap (M := option) (fmap (M := option) h) (Fano.tget s p).
Proof. apply list_lookup_fmap. Qed.

Lemma rebuild_lift s lm m : rebuild (lift s) lm m = h (rebuild s lm m).
Proof.
  unfold rebuild. set (ps := seqZ 0 Fano.N). clearbody ps.
  enough (H : forall acc, foldl (fun value p =>
      if negb (Z.land lm (Z.shiftl 1 p) =? 0) && negb (p =? m) then
        match Fano.tget (lift s) p with Some (Some byte) => Z.lxor value byte | _ => value end
      else value) (h acc) ps = h (foldl (fun value p =>
      if negb (Z.land lm (Z.shiftl 1 p) =? 0) && negb (p =? m) then
        match Fano.tget s p with Some (Some byte) => Z.lxor value byte | _ => value end
      else value) acc ps)) by (rewrite <- H, h_0; done).
  induction ps as [|p ps IH]; intros acc; [done|]. cbn [foldl].
  rewrite <- IH, tget_lift. f_equal. case_match; [|done].
  destruct (Fano.tget s p) as [[b|]|]; simpl; by rewrite ?h_xor.
Qed.

Lemma peel_line_lift s lost pr l :
  peel_group_line (lift s, lost, pr) l
  = let '(s', lost', pr') := peel_group_line (s, lost, pr) l in (lift s', lost', pr').
Proof.
  unfold peel_group_line. destruct (Fano.tget _ l); [|done]. cbv zeta.
  destruct (is_power_of_two _ _); [|done]. by rewrite rebuild_lift, list_fmap_insert.
Qed.

Lemma peel_pass_lift s lost :
  peel_group_pass (lift s) lost
  = let '(s', lost', pr') := peel_group_pass s lost in (lift s', lost', pr').
Proof.
  unfold peel_group_pass. generalize false. generalize (seqZ 0 Fano.N). intros ls.
  revert s lost. induction ls as [|l ls IH]; intros s lost pr; [done|].
  cbn [foldl]. rewrite peel_line_lift.
  destruct (peel_group_line (s, lost, pr) l) as [[s' lost'] pr']. apply IH.
Qed.

Lemma peel_loop_lift fuel s lost :
  peel_group_loop fuel (lift s) lost
  = (fun r => (lift (fst r), snd r)) <$> peel_group_loop fuel s lost.
Proof.
  revert s lost. induction fuel as [|fuel IH]; intros s lost; [done|]. cbn [peel_group_loop].
  rewrite peel_pass_lift. destruct (peel_group_pass s lost) as [[s' lost'] pr'].
  destruct pr'; [apply IH|done].
Qed.

Lemma peel_group_lift s :
  peel_group (lift s) = (lift (fst (peel_group s)), snd (peel_group s)).
Proof.
  unfold peel_group. rewrite mask_of_lift, peel_loop_lift.
  by destruct (peel_group_loop 8 s (mask_of s)).
Qed.

End Linear.

(** Erasing the points of a mask from a full column. *)
Definition erase {A} (m : Z) (col : list A) : list (option A) :=
  imap (fun p x => if Z.testbit m (Z.of_nat p) then None else Some x) col.

Lemma erase_fmap {A B} (f : A -> B) m col : erase m (f <$> col) = fmap (M := list) (fmap (M := option) f) (erase m col).
Proof.
  unfold erase. rewrite fmap_imap, imap_fmap. apply imap_ext. intros i x _. simpl.
  by destruct (Z.testbit _ _).
Qed.

(** The formal basis message. *)
Definition generic : list Z := encode_group [1; 2; 4].

(** The evaluation of formal symbols at a concrete message. *)
Definition eval (d : list Z) (x : Z) : Z :=
  let pick i := if Z.testbit x i then default 0 (Fano.tget d i) else 0 in
  Z.lxor (Z.lxor (pick 0) (pick 1)) (pick 2).

Lemma eval_xor d a b : eval d (Z.lxor a b) = Z.lxor (eval d a) (eval d b).
Proof.
  unfold eval. cbv zeta. rewrite !Z.lxor_spec.
  destruct (Z.testbit a 0), (Z.testbit b 0), (Z.testbit a 1), (Z.testbit b 1),
    (Z.testbit a 2), (Z.testbit b 2); cbn [xorb]; rewrite ?Z.lxor_0_l, ?Z.lxor_0_r;
    apply Z.bits_inj'; intros n Hn; rewrite ?Z.lxor_spec, ?Z.bits_0;
    repeat match goal with |- context [Z.testbit ?v n] => destruct (Z.testbit v n) end;
    reflexivity.
Qed.

Lemma encode_group_eval a b c : encode_group [a; b; c] = eval [a; b; c] <$> generic.
Proof.
  replace generic with [1; 5; 3; 7; 2; 6; 4] by reflexivity.
  cbv -[Z.lxor]. by rewrite ?Z.lxor_0_l, ?Z.lxor_0_r.
Qed.

Lemma decode_encode_group a b c : decode_group (encode_group [a; b; c]) = [a; b; c].
Proof. cbv -[Z.lxor]. by rewrite ?Z.lxor_0_l, ?Z.lxor_0_r. Qed.

(** The decoder on the formal message, for every erasure mask: it stops where the oracle
    says, and a full recovery restores the whole column. *)
Definition generic_ok (m : Z) : bool :=
  let '(s, lost) := peel_group (erase m generic) in
  (lost =? Lrc.peel_fano m) && (mask_of (erase m generic) =? m) &&
  bool_decide (is_Some (peel_group_loop 8 (erase m generic) m)) &&
  implb (lost =? 0) (bool_decide (s = Some <$> generic)).

Lemma generic_ok_all : forallb generic_ok (seqZ 0 128) = true.
Proof. vm_compute. reflexivity. Qed.

(** Byte-carrying peeling of an erased codeword column: it stops at the oracle's stopping
    set and a full recovery restores the column. *)
Lemma peel_group_column a b c m :
  0 <= m < 128 ->
  let col := encode_group [a; b; c] in
  mask_of (erase m col) = m /\ snd (peel_group (erase m col)) = Lrc.peel_fano m /\
  (Lrc.peel_fano m = 0 -> fst (peel_group (erase m col)) = Some <$> col).
Proof.
  intros Hm col. unfold col.
  pose proof (Lrc.masks_ok _ generic_ok_all m Hm) as H. unfold generic_ok in H.
  rewrite encode_group_eval, erase_fmap, mask_of_lift, peel_group_lift by
    (done || apply eval_xor).
  destruct (peel_group (erase m generic)) as [s lost]. simpl.
  rewrite !andb_true_iff, !Z.eqb_eq, implb_true_iff, Z.eqb_eq, !bool_decide_eq_true in H.
  destruct H as [[[<- H2] _] H3]. split; [done|]. split; [done|].
  intros E%H3. rewrite E. rewrite <- !list_fmap_compose. done.
Qed.

Lemma erase_seqZ {A} m (f : Z -> A) :
  erase m (f <$> seqZ 0 N) = (fun p => if Z.testbit m p then None else Some (f p)) <$> seqZ 0 N.
Proof. reflexivity. Qed.

Lemma encode_group_seqZ g :
  encode_group g = (fun p => default 0 (Fano.tget (encode_group g) p)) <$> seqZ 0 N.
Proof. reflexivity. Qed.

(** Shard [p] of a list of groups. *)
Definition shard (chunks : list (list Z)) (p : Z) : list Z :=
  (fun g => default 0 (Fano.tget (encode_group g) p)) <$> chunks.

Lemma omap_total {A B} (f : A -> option B) (g : A -> B) (l : list A) :
  (forall x, f x = Some (g x)) -> omap f l = g <$> l.
Proof. intros H. induction l as [|x l IH]; [done|]. csimpl. by rewrite H, IH. Qed.

Lemma encode_shards data : encode data = shard (as_chunks (pad data)) <$> seqZ 0 N.
Proof.
  unfold encode. cbv zeta. apply list_fmap_ext. intros i p Hp%list_elem_of_lookup_2.
  rewrite elem_of_seqZ in Hp. apply omap_total. intros g.
  assert (Hl : is_Some (Fano.tget (encode_group g) p)).
  { apply lookup_lt_is_Some. unfold encode_group. rewrite length_fmap, length_seqZ.
    unfold N, Fano.N in *. lia. }
  destruct Hl as [x ->]. done.
Qed.

Lemma list_ind3 {A} (P : list A -> Prop) :
  P [] -> (forall a, P [a]) -> (forall a b, P [a; b]) ->
  (forall a b c l, P l -> P (a :: b :: c :: l)) -> forall l, P l.
Proof.
  intros H0 H1 H2 H3 l. remember (length l) as n eqn:E. revert l E.
  induction (lt_wf n) as [n _ IH]. intros [|a [|b [|c l]]] ->; auto.
  apply H3. apply (IH (length l)); simpl; lia.
Qed.

Lemma as_chunks_shape l g : g ∈ as_chunks l -> exists a b c, g = [a; b; c].
Proof.
  induction l as [| | |a b c l IH] using list_ind3; simpl; [by intros ?%elem_of_nil..|].
  rewrite elem_of_cons. intros [->|H]; eauto.
Qed.

Lemma concat_as_chunks l : Z.of_nat (length l) mod K = 0 -> concat (as_chunks l) = l.
Proof.
  induction l as [|a|a b|a b c l IH] using list_ind3; simpl; [done..|]. intros H.
  rewrite IH; [done|]. unfold K in *.
  replace (Z.of_nat (S (S (S (length l))))) with (Z.of_nat (length l) + 1 * 3) in H by lia.
  by rewrite Z.mod_add in H.
Qed.

Lemma pad_len_range (data : list Z) :
  let rem := Z.of_nat (length data) mod K in
  let n := if rem =? 0 then K else K - rem in 1 <= n <= K.
Proof.
  cbv zeta. pose proof (Z.mod_pos_bound (Z.of_nat (length data)) K). unfold K in *.
  case_match; lia.
Qed.

Lemma pad_aligned data : Z.of_nat (length (pad data)) mod K = 0.
Proof.
  unfold pad. cbv zeta. pose proof (pad_len_range data) as Hn. cbv zeta in Hn.
  rewrite length_app, length_replicate. unfold K in *.
  pose proof (Z.div_mod (Z.of_nat (length data)) 3 ltac:(lia)) as Hd.
  destruct (Z.of_nat (length data) mod 3 =? 0) eqn:E; [rewrite Z.eqb_eq in E|];
    match goal with |- ?x mod 3 = 0 =>
      replace x with ((Z.of_nat (length data) / 3 + 1) * 3) by lia end; apply Z.mod_mul; lia.
Qed.

Lemma unpad_pad data : unpad (pad data) = Some data.
Proof.
  pose proof (pad_len_range data) as Hn. unfold pad, unpad. cbv zeta in *.
  set (n := if Z.of_nat (length data) mod K =? 0 then K else K - Z.of_nat (length data) mod K) in *.
  clearbody n.
  assert (En : exists k, Z.to_nat n = S k) by (exists (pred (Z.to_nat n)); lia).
  rewrite wrap_small by (unfold in_u, K in *; lia). destruct En as [k Ek].
  assert (Hlast : last (data ++ replicate (Z.to_nat n) n) = Some n).
  { rewrite Ek, replicate_S_end, app_assoc. apply last_snoc. }
  rewrite Hlast, length_app, length_replicate.
  replace ((n =? 0) || (K <? n) || (Z.of_nat (length data + Z.to_nat n) <? n))%bool with false
    by (symmetry; rewrite !orb_false_iff, Z.eqb_neq, !Z.ltb_ge; lia).
  replace (length data + Z.to_nat n - Z.to_nat n)%nat with (length data) by lia.
  rewrite drop_app_length, take_app_length.
  replace (existsb _ _) with false; [done|]. symmetry. apply not_true_iff_false.
  rewrite existsb_exists. intros (x & Hx%list_elem_of_In & Hne).
  apply elem_of_replicate in Hx as [-> _]. by rewrite Z.eqb_refl in Hne.
Qed.

(** Column [g] of the erased shards is the erased codeword of group [g]. *)
Lemma column_erased chunks m g ck :
  chunks !! g = Some ck ->
  (fun p => match Fano.tget (erase m (shard chunks <$> seqZ 0 N)) p with
            | Some (Some s) => s !! g | _ => None end) <$> seqZ 0 N
  = erase m (encode_group ck).
Proof.
  intros Hg. rewrite (encode_group_seqZ ck), !erase_seqZ. apply list_fmap_ext.
  intros i p Hi. assert (Hp : p = Z.of_nat i /\ (i < 7)%nat).
  { rewrite lookup_seqZ in Hi. unfold N, Fano.N in Hi. lia. }
  destruct Hp as [-> Hp]. unfold Fano.tget at 1. rewrite Nat2Z.id, list_lookup_fmap, Hi. simpl.
  destruct (Z.testbit m (Z.of_nat i)); [done|]. unfold shard.
  by rewrite list_lookup_fmap, Hg.
Qed.

Lemma reconstruct_stripe_erased chunks m g ck :
  0 <= m < 128 -> chunks !! g = Some ck -> (exists a b c, ck = [a; b; c]) ->
  reconstruct_stripe (erase m (shard chunks <$> seqZ 0 N)) g
  = if Lrc.is_recoverable_fano m then Some ck else None.
Proof.
  intros Hm Hg (a & b & c & ->). unfold reconstruct_stripe. rewrite (column_erased _ _ _ _ Hg).
  destruct (peel_group_column a b c m Hm) as (H1 & H2 & H3). rewrite H1.
  unfold Lrc.is_recoverable_fano in *. destruct (Lrc.peel_fano m =? 0) eqn:E; [|done].
  rewrite Z.eqb_eq in E. cbn [negb].
  destruct (peel_group (erase m (encode_group [a; b; c]))) as [s lost]. simpl in H2, H3.
  rewrite H2, E, H3 by done. cbn [negb Z.eqb].
  transitivity (Some (decode_group (encode_group [a; b; c]))); [reflexivity|].
  by rewrite decode_encode_group.
Qed.

Lemma first_len_erased chunks m ps :
  first_len ((fun p => if Z.testbit m p then None else Some (shard chunks p)) <$> ps)
  = if forallb (Z.testbit m) ps then None else Some (length chunks).
Proof.
  unfold first_len. induction ps as [|p ps IH]; [done|]. csimpl.
  destruct (Z.testbit m p); csimpl; [exact IH|]. unfold shard. by rewrite length_fmap.
Qed.

Lemma all_lost_unrecoverable m :
  0 <= m < 128 -> forallb (Z.testbit m) (seqZ 0 N) = true -> Lrc.is_recoverable_fano m = false.
Proof.
  intros Hm Hall. assert (H : forallb (fun m => implb (forallb (Z.testbit m) (seqZ 0 N))
    (negb (Lrc.is_recoverable_fano m))) (seqZ 0 128) = true) by (vm_compute; reflexivity).
  pose proof (Lrc.masks_ok _ H m Hm) as Hc. cbv beta in Hc. rewrite Hall in Hc.
  by apply negb_true_iff.
Qed.

(** Erased shards are never malformed. *)
Lemma erased_lengths chunks m :
  existsb (fun s => match s with Some s => negb (Nat.eqb (length s) (length chunks))
                               | None => false end)
    (erase m (shard chunks <$> seqZ 0 N)) = false.
Proof.
  rewrite erase_seqZ. apply not_true_iff_false. rewrite existsb_exists.
  intros (s & Hs%list_elem_of_In & E). apply list_elem_of_fmap in Hs as (p & -> & _).
  destruct (Z.testbit m p); [done|]. unfold shard in E.
  by rewrite length_fmap, Nat.eqb_refl in E.
Qed.

Lemma mapM_seq_lookup {A} (f : nat -> option A) l :
  (forall i x, l !! i = Some x -> f i = Some x) -> mapM f (seq 0 (length l)) = Some l.
Proof.
  intros H. apply mapM_Some, Forall2_same_length_lookup. split; [by rewrite length_seq|].
  intros i x y Hx Hy. apply lookup_seq in Hx as [-> _]. by apply H.
Qed.

Lemma pad_chunks_nonempty data : exists ck cks, as_chunks (pad data) = ck :: cks.
Proof.
  destruct (as_chunks (pad data)) as [|ck cks] eqn:E; [|eauto].
  pose proof (concat_as_chunks _ (pad_aligned data)) as H. rewrite E in H. simpl in H.
  pose proof (unpad_pad data) as Hu. by rewrite <- H in Hu.
Qed.

Lemma reconstruct_erased (data : list Z) (m : Z) :
  0 <= m < 128 ->
  reconstruct (erase m (encode data))
  = if Lrc.is_recoverable_fano m then Some data else None.
Proof.
  intros Hm. rewrite encode_shards. set (chunks := as_chunks (pad data)).
  assert (Hstripe : forall g ck, chunks !! g = Some ck ->
    reconstruct_stripe (erase m (shard chunks <$> seqZ 0 N)) g
    = if Lrc.is_recoverable_fano m then Some ck else None).
  { intros g ck Hg. apply reconstruct_stripe_erased; [done..|].
    eapply as_chunks_shape, list_elem_of_lookup_2, Hg. }
  unfold reconstruct. rewrite erase_seqZ at 1. rewrite first_len_erased.
  destruct (forallb (Z.testbit m) (seqZ 0 N)) eqn:Hall; [by rewrite all_lost_unrecoverable|].
  rewrite erased_lengths. destruct (Lrc.is_recoverable_fano m).
  - rewrite (mapM_seq_lookup _ chunks Hstripe). unfold chunks.
    by rewrite concat_as_chunks, unpad_pad by apply pad_aligned.
  - destruct (pad_chunks_nonempty data) as (ck & cks & E). fold chunks in E.
    specialize (Hstripe 0%nat ck). rewrite E in Hstripe. rewrite E.
    cbn [length seq mapM]. rewrite Hstripe by done. done.
Qed.

(** C30: the codec recovers exactly what the oracle promises: for every payload and every
    set of erased points, [reconstruct] of the surviving shards returns the payload when the
    peeling oracle declares the pattern recoverable, and [None] otherwise. *)
Theorem reconstruct_erased_encode (data : list Z) (m : Z) :
  0 <= m < 128 ->
  reconstruct (erase m (encode data))
  = if Lrc.is_recoverable_fano m then Some data else None.
Proof. apply reconstruct_erased. Qed.

Lemma reconstruct_erased_encode_witness :
  encode [7; 9] = [[7]; [6]; [14]; [15]; [9]; [8]; [1]] /\
  reconstruct (erase 0x45 (encode [7; 9])) = Some [7; 9].
Proof.
  split; [vm_compute; reflexivity|].
  rewrite (reconstruct_erased_encode [7; 9] 0x45); [vm_compute; reflexivity|by_decide].
Defined.

End Erasure.
