(* ===== verification/Lines.v ===== *)
(** * Line thresholds and servable lines

    [fanos-geometry/src/lib.rs]: the two-thirds threshold of a line, the number of points
    that make every line reach it, and the exact count of servable lines of an occupancy. *)
From S2P Require Import Prelude Field Gf2m Element Plane.
Local Open Scope Z_scope.

(** [usize::div_ceil]. *)
Definition div_ceil (a b : Z) : Z := (a + b - 1) / b.

Definition line_threshold (line_size : Z) : Z :=
  let t := div_ceil (2 * line_size) 3 in
  if t =? 0 then 1 else t.

Definition plane_points_of (line_size : Z) : Z := line_size * line_size - line_size + 1.

Definition points_serving_every_line (line_size : Z) : Z :=
  plane_points_of line_size - (line_size - line_threshold line_size).

Section Servable.
Context {F : Field}.

(** [iter.filter(f).count()]. *)
Definition count_where {A} (f : A -> bool) (l : list A) : Z :=
  Z.of_nat (length (filter (fun x => f x = true) l)).

Definition servable_lines (occupied : Point F -> bool) : Z :=
  let t := line_threshold LINE_SIZE in
  count_where (fun line => t <=? count_where occupied (points_on line)) plane_lines.

End Servable.

(** The [while k <= n] loop of [members_for_a_covered_plane], as the sum over its range. *)
Definition members_for_a_covered_plane (line_size : Z) : Z :=
  let n := plane_points_of line_size in
  let spare := line_size / 3 in
  let draws := foldl (fun draws k => draws + (n + k / 2) / k) 0 (seqZ (spare + 1) (n - spare)) in
  draws * 3 / 2.

(** ** Counting *)

Lemma count_split {A} (f : A -> bool) l :
  count_where f l + count_where (fun x => negb (f x)) l = Z.of_nat (length l).
Proof.
  unfold count_where. induction l as [|x l IH]; [done|].
  rewrite !filter_cons. destruct (f x); simpl; rewrite ?decide_True, ?decide_False by done;
    simpl; lia.
Qed.

Lemma count_all {A} (f : A -> bool) l :
  (forall x, x ∈ l -> f x = true) -> count_where f l = Z.of_nat (length l).
Proof.
  intros H. unfold count_where. induction l as [|x l IH]; [done|].
  rewrite filter_cons_True by (apply H; set_solver). simpl. rewrite !Nat2Z.inj_succ.
  rewrite IH by (intros; apply H; set_solver). done.
Qed.

Lemma count_missing {A} (f : A -> bool) l x :
  x ∈ l -> f x = false -> count_where f l < Z.of_nat (length l).
Proof.
  intros Hx Hf. unfold count_where. apply Nat2Z.inj_lt.
  apply (length_filter_lt _ l x Hx). by rewrite Hf.
Qed.

Lemma count_incl {A} (f : A -> bool) l k :
  base.NoDup l -> (forall x, x ∈ l -> x ∈ k) -> count_where f l <= count_where f k.
Proof.
  intros Hnd Hin. unfold count_where. apply Nat2Z.inj_le, submseteq_length.
  apply NoDup_submseteq; [by apply NoDup_filter|]. intros x.
  rewrite !list_elem_of_filter. naive_solver.
Qed.

Lemma count_ext {A} (f g : A -> bool) l :
  (forall x, x ∈ l -> f x = g x) -> count_where f l = count_where g l.
Proof.
  intros H. unfold count_where. induction l as [|x l IH]; [done|].
  specialize (IH ltac:(intros; apply H; set_solver)). pose proof (H x ltac:(set_solver)) as Hx.
  rewrite !filter_cons, Hx. destruct (decide _); simpl; lia.
Qed.

(** A duplicate-free sub-list is counted by its length. *)
Lemma count_members `{EqDecision A} (s l : list A) :
  base.NoDup s -> base.NoDup l -> (forall x, x ∈ s -> x ∈ l) ->
  count_where (fun x => bool_decide (x ∈ s)) l = Z.of_nat (length s).
Proof.
  intros Hs Hl Hin. unfold count_where. f_equal. apply Permutation_length.
  apply NoDup_Permutation; [by apply NoDup_filter|done|]. intros x.
  rewrite list_elem_of_filter, bool_decide_eq_true. naive_solver.
Qed.

Lemma line_threshold_bounds m : 1 <= m -> 1 <= line_threshold m <= m.
Proof.
  intros Hm. unfold line_threshold, div_ceil. cbv zeta.
  assert (H := Z.div_mod (2 * m + 3 - 1) 3 ltac:(lia)).
  assert (H' := Z.mod_pos_bound (2 * m + 3 - 1) 3 ltac:(lia)).
  destruct (_ =? 0) eqn:E; lia.
Qed.

Section Coverage.
Context {F : Field} {FL : FieldLaws F}.

#[local] Instance point_eq_dec : EqDecision (Point F).
Proof. intros [a] [b]. destruct (decide (a = b)); [left|right]; congruence. Defined.

Lemma plane_points_of_N : plane_points_of (LINE_SIZE (F := F)) = plane_N (F := F).
Proof. unfold plane_points_of, LINE_SIZE, plane_N. lia. Qed.

Lemma length_points_on (l : Line F) :
  line_ok l -> Z.of_nat (length (points_on l)) = LINE_SIZE (F := F).
Proof.
  intros Hl. destruct (points_on_spec l Hl) as (_ & -> & _).
  pose proof (q_pos (F := F)). unfold LINE_SIZE. lia.
Qed.

(** A line's vacancies are among the plane's. *)
Lemma line_count (occ : Point F -> bool) l :
  line_ok l ->
  LINE_SIZE (F := F) - (plane_N (F := F) - count_where occ plane_points)
  <= count_where occ (points_on l).
Proof.
  intros Hl. destruct (points_on_spec l Hl) as (Hnd & _ & Hin).
  destruct (plane_points_spec (F := F)) as (Hpn & Hlen & Hpin).
  pose proof (count_split occ (points_on l)) as H1.
  pose proof (count_split occ (plane_points (F := F))) as H2.
  pose proof (count_incl (fun x => negb (occ x)) (points_on l) plane_points Hnd) as H3.
  rewrite length_points_on in H1 by done. rewrite Hlen in H2.
  pose proof (q_pos (F := F)). assert (0 <= plane_N (F := F)) by (unfold plane_N; nia).
  assert (forall x, x ∈ points_on l -> x ∈ plane_points) as H4; [|specialize (H3 H4); lia].
  intros x Hx%Hin. apply Hpin, Hx.
Qed.

(** The occupancy that withholds the first [k] points of a line. *)
Definition withhold (l : Line F) (k : nat) (p : Point F) : bool :=
  negb (bool_decide (p ∈ take k (points_on l))).

Lemma withhold_counts l k :
  line_ok l -> Z.of_nat k <= LINE_SIZE (F := F) ->
  count_where (withhold l k) (points_on l) = LINE_SIZE (F := F) - Z.of_nat k /\
  count_where (withhold l k) plane_points = plane_N (F := F) - Z.of_nat k.
Proof.
  intros Hl Hk. destruct (points_on_spec l Hl) as (Hnd & _ & Hin).
  destruct (plane_points_spec (F := F)) as (Hpn & Hlen & Hpin).
  set (s := take k (points_on l)).
  assert (Hs : base.NoDup s) by (apply (sublist_NoDup _ _ Hnd), sublist_take).
  assert (Hsub : forall x, x ∈ s -> x ∈ points_on l).
  { intros x. unfold s. rewrite !list_elem_of_lookup. setoid_rewrite lookup_take_Some. naive_solver. }
  assert (Hls : length s = k).
  { unfold s. rewrite length_take. pose proof (length_points_on l Hl). lia. }
  pose proof (q_pos (F := F)). assert (0 <= plane_N (F := F)) by (unfold plane_N; nia).
  split.
  - pose proof (count_split (fun x => bool_decide (x ∈ s)) (points_on l)) as H1.
    rewrite count_members, Hls, length_points_on in H1 by done. unfold withhold. fold s. lia.
  - pose proof (count_split (fun x => bool_decide (x ∈ s)) (plane_points (F := F))) as H1.
    rewrite count_members, Hls, Hlen in H1; [unfold withhold; fold s; lia|done..|].
    intros x Hx%Hsub%Hin. apply Hpin, Hx.
Qed.

End Coverage.

(** [points_serving_every_line] is exactly the count a per-line guarantee costs.  When
    that many points of the plane are occupied, whatever the placement, every line reaches
    its threshold and [servable_lines] is the number of lines; with one point fewer there is
    a placement in which some line is not servable. *)
Theorem servable_floor_exact (F : Field) (FL : FieldLaws F) :
  (forall occ : Point F -> bool,
     points_serving_every_line LINE_SIZE <= count_where occ plane_points ->
     servable_lines occ = plane_N (F := F)) /\
  (exists occ : Point F -> bool,
     count_where occ plane_points = points_serving_every_line (LINE_SIZE (F := F)) - 1 /\
     servable_lines occ < plane_N (F := F)).
Proof.
  pose proof (q_pos (F := F)) as Hq. destruct (plane_lines_spec (F := F)) as (_ & Hlen & Hin).
  assert (HN : 0 <= plane_N (F := F)) by (unfold plane_N; nia).
  assert (Hlen' : Z.of_nat (length (plane_lines (F := F))) = plane_N (F := F)) by lia.
  pose proof (line_threshold_bounds (LINE_SIZE (F := F)) ltac:(unfold LINE_SIZE; lia)) as Ht.
  unfold points_serving_every_line, servable_lines. rewrite plane_points_of_N.
  cbv zeta. split.
  - intros occ Hocc. rewrite count_all; [done|]. intros l Hl%Hin.
    pose proof (line_count occ l Hl). apply Z.leb_le. lia.
  - set (l0 := wrap_line (1, 0, 0) : Line F).
    assert (Hl0 : line_ok l0).
    { split; [|done]. repeat split; unfold canon; simpl; lia. }
    set (k := Z.to_nat (LINE_SIZE (F := F) - line_threshold (LINE_SIZE (F := F)) + 1)).
    destruct (withhold_counts l0 k Hl0) as [H1 H2]; [lia|].
    exists (withhold l0 k). split; [lia|]. rewrite <- Hlen'.
    apply (count_missing _ _ l0); [by apply Hin|]. apply Z.leb_gt. lia.
Qed.

Lemma servable_floor_exact_witness :
  points_serving_every_line (LINE_SIZE (F := F2)) = 6 /\
  servable_lines (F := F2) (fun p => negb (bool_decide (p_coords p = (1, 1, 1)))) = 7.
Proof.
  split; [vm_compute; reflexivity|].
  destruct (servable_floor_exact F2 F2_laws) as [H _].
  change 7 with (plane_N (F := F2)). apply H. by_decide.
Defined.
