(* ===== verification/Varint.v ===== *)
(** * QUIC variable-length integers, canonical form

    [fanos-wire/src/varint.rs] and the decoding errors of [fanos-wire/src/error.rs]. *)
From S2P Require Import Prelude.
Local Open Scope Z_scope.

Inductive WireError :=
| UnexpectedEnd | NonCanonicalVarint | FieldElementOutOfRange | NonCanonicalProjective
| FrameLengthOverflow | UnknownCriticalFrame | ValueTooLarge | UnsupportedVersion
| TrailingBytes.

#[global] Instance WireError_eq_dec : EqDecision WireError.
Proof. solve_decision. Defined.

Module Varint.

Definition MAX : Z := 2 ^ 62 - 1.

Definition encoded_len (value : Z) : nat :=
  if value <? Z.shiftl 1 6 then 1
  else if value <? Z.shiftl 1 14 then 2
  else if value <? Z.shiftl 1 30 then 4
  else 8.

Definition tag_of (len : nat) : Z :=
  match len with 1%nat => 0 | 2%nat => 1 | 4%nat => 2 | _ => 3 end.

(** The bytes pushed by [encode]; [None] is the panic on an unrepresentable value. *)
Definition encode (value : Z) : option (list Z) :=
  if MAX <? value then None
  else
    let len := encoded_len value in
    match be_bytes len value with
    | first :: rest => Some (Z.lor first (Z.shiftl (tag_of len) 6) :: rest)
    | [] => Some []
    end.

(** [for &b in bytes { value = (value << 8) | b }] at width [w]. *)
Definition fold_bytes (w value : Z) (l : list Z) : Z :=
  fold_left (fun value b => Z.lor (wrap w (Z.shiftl value 8)) b) l value.

Definition decode (buf : list Z) : result (Z * nat) WireError :=
  let? first := ok_or (head buf) UnexpectedEnd in
  let len := Z.to_nat (Z.shiftl 1 (Z.shiftr first 6)) in
  if (length buf <? len)%nat then Err UnexpectedEnd
  else
    let value := fold_bytes 64 (Z.land first 0x3F) (take (len - 1) (drop 1 buf)) in
    if negb (encoded_len value =? len)%nat then Err NonCanonicalVarint
    else Ok (value, len).

(** ** Byte arithmetic *)

Lemma lor_shiftl_add v b k : 0 <= k -> in_u k b -> Z.lor (Z.shiftl v k) b = v * 2 ^ k + b.
Proof.
  intros Hk Hb. rewrite <- Z.lxor_lor, <- Z.add_nocarry_lxor, Z.shiftl_mul_pow2; try done.
  all: apply Z.bits_inj'; intros n Hn; rewrite Z.land_spec, Z.bits_0.
  all: destruct (Z_lt_le_dec n k);
    [rewrite Z.shiftl_spec_low by lia; done|rewrite (testbit_high k b) by done; apply andb_false_r].
Qed.

Lemma fold_bytes_from_be w l v :
  is_bytes l -> 0 <= v -> v * 256 ^ Z.of_nat (length l) + 256 ^ Z.of_nat (length l) <= 2 ^ w ->
  fold_bytes w v l = fold_left (fun acc b => acc * 256 + b) l v.
Proof.
  revert v. induction l as [|b l IH]; intros v Hl Hv Hr; [done|].
  apply Forall_cons in Hl as [Hb Hl]. simpl length in Hr. rewrite Nat2Z.inj_succ in Hr.
  rewrite Z.pow_succ_r in Hr by lia. unfold fold_bytes in *. cbn [fold_left].
  assert (0 < 256 ^ Z.of_nat (length l)) by (apply Z.pow_pos_nonneg; lia).
  rewrite wrap_small.
  2: { rewrite Z.shiftl_mul_pow2 by lia. unfold in_u. nia. }
  rewrite (lor_shiftl_add v b 8) by (lia || done). change (2 ^ 8) with 256.
  unfold in_u in Hb. apply IH; [done|nia|nia].
Qed.

Lemma from_be_cons b l : from_be (b :: l) = fold_left (fun acc b => acc * 256 + b) l b.
Proof. reflexivity. Qed.

Lemma from_be_cons_val b l : from_be (b :: l) = b * 256 ^ Z.of_nat (length l) + from_be l.
Proof.
  rewrite from_be_cons. unfold from_be. revert b.
  induction l as [|c l IH] using rev_ind; intros b; [simpl; lia|].
  rewrite !fold_left_app. cbn [fold_left]. rewrite IH, length_app, Nat2Z.inj_add.
  rewrite Z.pow_add_r by lia. simpl. lia.
Qed.

(** The four encoding classes. *)
Lemma encoded_len_spec v :
  0 <= v <= MAX ->
  let n := encoded_len v in
  (n = 1 \/ n = 2 \/ n = 4 \/ n = 8)%nat /\ in_u (8 * Z.of_nat n - 2) v /\
  Z.to_nat (Z.shiftl 1 (tag_of n)) = n /\ 0 <= tag_of n < 4.
Proof.
  unfold encoded_len, MAX, in_u. change (Z.shiftl 1 6) with 64.
  change (Z.shiftl 1 14) with 16384. change (Z.shiftl 1 30) with 1073741824.
  intros Hv. cbv zeta.
  destruct (v <? 64) eqn:E1; [|destruct (v <? 16384) eqn:E2; [|destruct (v <? 1073741824) eqn:E3]].
  all: rewrite ?Z.ltb_lt, ?Z.ltb_ge in *; split; [lia|]; split; [|split; [reflexivity|simpl; lia]].
  - change (8 * Z.of_nat 1 - 2) with 6. lia.
  - change (8 * Z.of_nat 2 - 2) with 14. lia.
  - change (8 * Z.of_nat 4 - 2) with 30. lia.
  - change (8 * Z.of_nat 8 - 2) with 62. lia.
Qed.

(** The first byte splits into tag and low bits. *)
Definition byte_ok (b : Z) : bool :=
  (Z.lor (Z.land b 63) (Z.shiftl (Z.shiftr b 6) 6) =? b) && (0 <=? Z.shiftr b 6) &&
  (Z.shiftr b 6 <? 4) && (0 <=? Z.land b 63) && (Z.land b 63 <? 64) &&
  (tag_of (Z.to_nat (Z.shiftl 1 (Z.shiftr b 6))) =? Z.shiftr b 6).

Definition tagged_ok (t b : Z) : bool :=
  let f := Z.lor b (Z.shiftl t 6) in (Z.shiftr f 6 =? t) && (Z.land f 63 =? b) && (0 <=? f) && (f <? 256).

Lemma byte_split b :
  is_u8 b ->
  Z.lor (Z.land b 63) (Z.shiftl (Z.shiftr b 6) 6) = b /\ 0 <= Z.shiftr b 6 < 4 /\
  0 <= Z.land b 63 < 64 /\ tag_of (Z.to_nat (Z.shiftl 1 (Z.shiftr b 6))) = Z.shiftr b 6.
Proof.
  intros Hb. assert (H : forallb byte_ok (seqZ 0 256) = true) by (vm_compute; reflexivity).
  pose proof (forallb_seqZ _ _ _ H b Hb) as Hc. unfold byte_ok in Hc.
  rewrite !andb_true_iff, !Z.eqb_eq, !Z.leb_le, !Z.ltb_lt in Hc. tauto.
Qed.

Lemma byte_tag t b :
  0 <= t < 4 -> 0 <= b < 64 ->
  let f := Z.lor b (Z.shiftl t 6) in Z.shiftr f 6 = t /\ Z.land f 63 = b /\ is_u8 f.
Proof.
  intros Ht Hb. cbv zeta.
  assert (H : forallb (fun t => forallb (tagged_ok t) (seqZ 0 64)) (seqZ 0 4) = true)
    by (vm_compute; reflexivity).
  pose proof (forallb_seqZ _ _ _ (forallb_seqZ _ _ _ H t ltac:(lia)) b ltac:(lia)) as Hc.
  unfold tagged_ok in Hc. rewrite !andb_true_iff, !Z.eqb_eq, Z.leb_le, Z.ltb_lt in Hc.
  unfold in_u. change (2 ^ 8) with 256. tauto.
Qed.

(** The top byte of a value in its class leaves the two tag bits free. *)
Lemma be_top n v :
  in_u (8 * Z.of_nat (S n) - 2) v ->
  exists top rest, be_bytes (S n) v = top :: rest /\ 0 <= top < 64 /\ length rest = n /\ is_bytes rest.
Proof.
  intros [H0 H1]. exists (w8 (Z.shiftr v (8 * Z.of_nat n))), (be_bytes n v).
  split; [done|]. split; [|split; [apply length_be_bytes|apply is_bytes_be]].
  rewrite Z.shiftr_div_pow2 by lia.
  assert (Hp : 0 < 2 ^ (8 * Z.of_nat n)) by (apply Z.pow_pos_nonneg; lia).
  assert (Hlt : v / 2 ^ (8 * Z.of_nat n) < 64).
  { apply Z.div_lt_upper_bound; [done|].
    replace (8 * Z.of_nat (S n) - 2) with (8 * Z.of_nat n + 6) in H1 by lia.
    rewrite Z.pow_add_r in H1 by lia. lia. }
  assert (0 <= v / 2 ^ (8 * Z.of_nat n)) by (apply Z.div_pos; lia).
  rewrite wrap_small; [lia|]. unfold in_u. lia.
Qed.

Lemma encode_shape v :
  0 <= v <= MAX ->
  let n := encoded_len v in
  exists top rest, encode v = Some (Z.lor top (Z.shiftl (tag_of n) 6) :: rest) /\
    be_bytes n v = top :: rest /\ 0 <= top < 64 /\ S (length rest) = n /\ is_bytes rest /\
    v = fold_bytes 64 top rest.
Proof.
  intros Hv n. destruct (encoded_len_spec v Hv) as (Hn & Hr & _). fold n in Hn, Hr.
  assert (Hn' : exists k, n = S k /\ (k <= 7)%nat) by (exists (pred n); lia).
  destruct Hn' as (k & En & Hk). rewrite En in Hr.
  destruct (be_top k v Hr) as (top & rest & Eb & Htop & Hlen & Hrest).
  exists top, rest. unfold encode. fold n. rewrite (proj2 (Z.ltb_ge _ _)), En, Eb by lia.
  do 5 (split; [done || lia|]).
  rewrite fold_bytes_from_be; [|done|lia|].
  - rewrite <- from_be_cons, <- Eb, from_be_id; [done|].
    eapply in_u_mono; [|exact Hr]. lia.
  - rewrite Hlen. replace 256 with (2 ^ 8) by done. rewrite <- Z.pow_mul_r by lia.
    replace (2 ^ 64) with (256 ^ 8) by done.
    assert (2 ^ (8 * Z.of_nat k) <= 2 ^ 56) by (apply Z.pow_le_mono_r; lia).
    change (256 ^ 8) with (256 * 2 ^ 56). nia.
Qed.

Lemma encode_len v bs : 0 <= v <= MAX -> encode v = Some bs -> length bs = encoded_len v.
Proof.
  intros Hv E. destruct (encode_shape v Hv) as (top & rest & E' & _ & _ & <- & _). simplify_eq. done.
Qed.

Lemma encode_Some v : 0 <= v <= MAX -> exists bs, encode v = Some bs /\ is_bytes bs.
Proof.
  intros Hv. destruct (encode_shape v Hv) as (top & rest & E & _ & Ht & _ & Hrest & _).
  eexists. split; [exact E|]. destruct (encoded_len_spec v Hv) as (_ & _ & _ & Htag).
  constructor; [|done]. by apply byte_tag.
Qed.

Lemma decode_encode v bs rest :
  0 <= v <= MAX -> encode v = Some bs -> decode (bs ++ rest) = Ok (v, length bs).
Proof.
  intros Hv E. pose proof (encode_len v bs Hv E) as Hlen.
  destruct (encode_shape v Hv) as (top & tl & E' & _ & Htop & Htl & _ & Ev).
  destruct (encoded_len_spec v Hv) as (_ & _ & Hsh & Htag).
  rewrite E' in E. injection E as <-. destruct (byte_tag _ top Htag Htop) as (T1 & T2 & _).
  unfold decode. cbn [head app ok_or rbind]. rewrite T1, T2, Hsh.
  rewrite (proj2 (Nat.ltb_ge _ _)) by (simpl; rewrite length_app; lia).
  replace (encoded_len v - 1)%nat with (length tl) by lia. cbn [drop skipn]. rewrite ?drop_0.
  rewrite take_app_length, <- Ev, Nat.eqb_refl. by rewrite Hlen.
Qed.

Lemma decode_inv buf v n :
  is_bytes buf -> decode buf = Ok (v, n) ->
  0 <= v <= MAX /\ encode v = Some (take n buf) /\ (n <= length buf)%nat.
Proof.
  destruct buf as [|b buf]; [done|]. intros [Hb Hbuf]%Forall_cons.
  unfold decode. cbn [head ok_or rbind drop skipn]. rewrite ?drop_0.
  destruct (byte_split b Hb) as (Hjoin & Ht & Hl & Htag).
  set (len := Z.to_nat (Z.shiftl 1 (Z.shiftr b 6))) in *.
  destruct (length (b :: buf) <? len)%nat eqn:E1; [done|]. rewrite Nat.ltb_ge in E1.
  destruct (negb _) eqn:E2; [done|]. rewrite negb_false_iff, Nat.eqb_eq in E2.
  intros [= Ev En]. rewrite Ev in E2. subst n.
  assert (Hlen : (1 <= len <= 8)%nat).
  { assert (Hs : Z.shiftr b 6 = 0 \/ Z.shiftr b 6 = 1 \/ Z.shiftr b 6 = 2 \/ Z.shiftr b 6 = 3) by lia.
    unfold len. destruct Hs as [-> | [-> | [-> | ->]]]; vm_compute; lia. }
  set (k := (len - 1)%nat) in *.
  assert (Hk : length (take k buf) = k) by (rewrite length_take; simpl in E1; lia).
  pose proof (is_bytes_take k buf Hbuf) as Htk.
  assert (Hpow : 256 ^ Z.of_nat k <= 2 ^ 56).
  { replace 256 with (2 ^ 8) by done. rewrite <- Z.pow_mul_r by lia.
    apply Z.pow_le_mono_r; lia. }
  assert (Hv : v = from_be (Z.land b 63 :: take k buf)).
  { rewrite from_be_cons, <- (fold_bytes_from_be 64); [done|done|lia|]. rewrite Hk.
    change (2 ^ 64) with (256 * 2 ^ 56). nia. }
  assert (Hby : is_bytes (Z.land b 63 :: take k buf)) by (constructor; [unfold in_u; lia|done]).
  assert (Hbe : be_bytes len v = Z.land b 63 :: take k buf).
  { rewrite Hv. apply be_bytes_from_be_n; [done|]. simpl. rewrite Hk. lia. }
  assert (Hmax : 0 <= v <= MAX).
  { rewrite Hv. pose proof (from_be_range _ Htk) as Hr. rewrite Hk in Hr.
    rewrite from_be_cons_val, Hk. unfold in_u in Hr.
    rewrite Z.pow_mul_r in Hr by lia. change (2 ^ 8) with 256 in Hr.
    assert (0 < 256 ^ Z.of_nat k) by (apply Z.pow_pos_nonneg; lia). unfold MAX.
    change (2 ^ 62) with (64 * 2 ^ 56). nia. }
  split; [done|]. split; [|done]. unfold encode.
  rewrite (proj2 (Z.ltb_ge _ _)), E2, Hbe, Htag, Hjoin by lia.
  replace len with (S k) by lia. done.
Qed.

(** Varints round-trip: a representable value encodes to [encoded_len] bytes, which
    decode back to it from the front of any buffer; values beyond [2^62 - 1] panic. *)
Theorem varint_roundtrip (v : Z) (rest : list Z) :
  0 <= v ->
  (v <= MAX -> exists bs, encode v = Some bs /\ is_bytes bs /\ length bs = encoded_len v /\
     decode (bs ++ rest) = Ok (v, encoded_len v)) /\
  (MAX < v -> encode v = None).
Proof.
  intros H0. split.
  - intros Hm. destruct (encode_Some v) as (bs & E & Hbs); [lia|]. exists bs.
    pose proof (encode_len v bs ltac:(lia) E) as Hl. rewrite <- Hl.
    repeat split; try done. apply decode_encode; [lia|done].
  - intros Hm. unfold encode. by rewrite (proj2 (Z.ltb_lt _ _)).
Qed.

(** Varints are canonical: whatever a decoder accepts from a byte buffer is exactly
    the encoding of the value it returns, so no value has a second encoding. *)
Theorem varint_canonical (buf : list Z) (v : Z) (n : nat) :
  is_bytes buf -> decode buf = Ok (v, n) ->
  0 <= v <= MAX /\ encode v = Some (take n buf) /\ (n <= length buf)%nat.
Proof. apply decode_inv. Qed.

Lemma varint_roundtrip_witness :
  (0 <= 15293 <= MAX) /\ encode 15293 = Some [0x7B; 0xBD] /\ encode (2 ^ 62) = None.
Proof.
  split; [by_decide|]. split; [vm_compute; reflexivity|].
  destruct (varint_roundtrip (2 ^ 62) []) as [_ H]; [by_decide|]. apply H. by_decide.
Defined.

Lemma varint_canonical_witness :
  decode [0x9D; 0x7F; 0x3E; 0x7D; 0x01] = Ok (494878333, 4%nat) /\
  encode 494878333 = Some [0x9D; 0x7F; 0x3E; 0x7D].
Proof.
  split; [vm_compute; reflexivity|].
  destruct (varint_canonical [0x9D; 0x7F; 0x3E; 0x7D; 0x01] 494878333 4) as (_ & H & _);
    [by_decide|vm_compute; reflexivity|]. exact H.
Defined.

End Varint.
