(* ===== verification/Wire.v ===== *)
(** * The [Wire] trait: one canonical encoding per value

    [fanos-wire/src/wire.rs], the field-element and projective codecs of
    [fanos-wire/src/element.rs], the struct rule of [fanos-wire-derive], and the [ERROR]
    frame body of [fanos-wire/src/error.rs].

    [Wire] is the trait; [WireLaws] is its contract: an encoding exists for every
    representable value, decodes back from the front of any input, and is the only byte
    string accepted for that value.  Every implementor discharges the contract, and
    [from_wire] is proved against it. *)
From S2P Require Import Prelude Field Element Plane Varint Gf2m.
Local Open Scope Z_scope.

(** [wire_encode] returns the appended bytes, [None] where the source panics (a varint above
    [2^62 - 1]); [wire_decode] returns the value and the advanced cursor. *)
Class Wire (A : Type) := {
  wire_encode : A -> option (list Z);
  wire_decode : list Z -> result (A * list Z) WireError;
}.

Definition to_wire `{Wire A} (a : A) : option (list Z) := wire_encode a.

Definition from_wire `{Wire A} (bytes : list Z) : result A WireError :=
  let? (value, cur) := wire_decode bytes in
  match cur with [] => Ok value | _ :: _ => Err TrailingBytes end.

Definition wtake (cur : list Z) (n : nat) : result (list Z * list Z) WireError :=
  if (length cur <? n)%nat then Err UnexpectedEnd else Ok (take n cur, drop n cur).

(** [slice.get(n..)]. *)
Definition get_from (buf : list Z) (n : nat) : option (list Z) :=
  if (n <=? length buf)%nat then Some (drop n buf) else None.

(** ** Primitive implementors *)

(** [u8], [u16], [u32], [u64]: [n] bytes. *)
Record uint (n : nat) := mk_uint { u_val : Z }.
Arguments mk_uint {n} u_val.
Arguments u_val {n} u.

(** [i16], [i32], [i64]: two's complement in [n] bytes. *)
Record sint (n : nat) := mk_sint { s_val : Z }.
Arguments mk_sint {n} s_val.
Arguments s_val {n} s.

(** [[u8; n]]. *)
Record byte_array (n : nat) := mk_array { a_bytes : list Z }.
Arguments mk_array {n} a_bytes.
Arguments a_bytes {n} b.

#[global] Instance wire_uint n : Wire (uint n) := {
  wire_encode a := Some (be_bytes n (u_val a));
  wire_decode cur := let? (bytes, cur) := wtake cur n in Ok (mk_uint (from_be bytes), cur);
}.

Definition to_signed (n : nat) (x : Z) : Z :=
  let w := 8 * Z.of_nat n in if x <? 2 ^ (w - 1) then x else x - 2 ^ w.

#[global] Instance wire_sint n : Wire (sint n) := {
  wire_encode a := Some (be_bytes n (wrap (8 * Z.of_nat n) (s_val a)));
  wire_decode cur := let? (bytes, cur) := wtake cur n in
    Ok (mk_sint (to_signed n (from_be bytes)), cur);
}.

#[global] Instance wire_bool : Wire bool := {
  wire_encode b := Some [Z.b2z b];
  wire_decode cur := let? (bytes, cur) := wtake cur 1 in
    match head bytes with
    | Some 0 => Ok (false, cur)
    | Some 1 => Ok (true, cur)
    | _ => Err FieldElementOutOfRange
    end;
}.

#[global] Instance wire_array n : Wire (byte_array n) := {
  wire_encode a := Some (a_bytes a);
  wire_decode cur := let? (bytes, cur) := wtake cur n in Ok (mk_array bytes, cur);
}.

(** [[u32; 3]]: the field-erased coordinate. *)
#[global] Instance wire_triple : Wire Triple := {
  wire_encode t := let '(x, y, z) := t in
    letO bx := wire_encode (mk_uint x : uint 4) in
    letO b_y := wire_encode (mk_uint y : uint 4) in
    letO bz := wire_encode (mk_uint z : uint 4) in Some (bx ++ b_y ++ bz);
  wire_decode cur :=
    let? (x, cur) := wire_decode (A := uint 4) cur in
    let? (y, cur) := wire_decode (A := uint 4) cur in
    let? (z, cur) := wire_decode (A := uint 4) cur in Ok ((u_val x, u_val y, u_val z), cur);
}.

(** ** Composite implementors *)

Section Composite.
Context {A B : Type} `{Wire A} `{Wire B}.

Fixpoint encode_elems (l : list A) : option (list Z) :=
  match l with
  | [] => Some []
  | a :: l => letO b := wire_encode a in letO bs := encode_elems l in Some (b ++ bs)
  end.

(** [for _ in 0..len { out.push(T::wire_decode(cur)?) }] *)
Fixpoint decode_elems (n : nat) (cur : list Z) : result (list A * list Z) WireError :=
  match n with
  | O => Ok ([], cur)
  | S n =>
      let? (a, cur) := wire_decode (A := A) cur in
      let? (l, cur) := decode_elems n cur in Ok (a :: l, cur)
  end.

(** [Vec<T>] and [VecDeque<T>]; [usize::try_from] of a [u64] is total on a 64-bit target. *)
#[global] Instance wire_vec : Wire (list A) := {
  wire_encode l :=
    letO h := Varint.encode (Z.of_nat (length l)) in
    letO bs := encode_elems l in Some (h ++ bs);
  wire_decode cur :=
    let? (len, consumed) := Varint.decode cur in
    let? cur := ok_or (get_from cur consumed) UnexpectedEnd in
    decode_elems (Z.to_nat len) cur;
}.

#[global] Instance wire_option : Wire (option A) := {
  wire_encode o :=
    match o with
    | None => Some [0]
    | Some v => letO bs := wire_encode v in Some (1 :: bs)
    end;
  wire_decode cur :=
    let? (bytes, cur) := wtake cur 1 in
    match head bytes with
    | Some 0 => Ok (None, cur)
    | Some 1 => let? (v, cur) := wire_decode (A := A) cur in Ok (Some v, cur)
    | _ => Err FieldElementOutOfRange
    end;
}.

(** [#[derive(Wire)]]: the fields in declaration order, a struct being the nested pair of its
    fields ending in [unit]. *)
#[global] Instance wire_pair : Wire (A * B) := {
  wire_encode p :=
    letO ba := wire_encode (fst p) in letO bb := wire_encode (snd p) in Some (ba ++ bb);
  wire_decode cur :=
    let? (a, cur) := wire_decode (A := A) cur in
    let? (b, cur) := wire_decode (A := B) cur in Ok ((a, b), cur);
}.

End Composite.

#[global] Instance wire_unit : Wire unit := {
  wire_encode _ := Some [];
  wire_decode cur := Ok (tt, cur);
}.

(** ** Field elements and projective points *)

Section Projective.
Context {F : Field}.

Definition width : nat := Z.to_nat (element_width f_Q).

Definition encode_element (elem : Z) : list Z := be_bytes width elem.

Definition decode_element (buf : list Z) : result (Z * nat) WireError :=
  let w := width in
  if (length buf <? w)%nat then Err UnexpectedEnd
  else
    let value := Varint.fold_bytes 32 0 (take w buf) in
    if negb (f_in_range value) then Err FieldElementOutOfRange else Ok (value, w).

Definition encode_coords (c : Triple) : list Z :=
  let '(x, y, z) := c in encode_element x ++ encode_element y ++ encode_element z.

Definition encode_point (p : Point F) : list Z := encode_coords (p_coords p).
Definition encode_line (l : Line F) : list Z := encode_coords (l_coords l).

Definition decode_coord (buf : list Z) (idx : nat) : result Z WireError :=
  let? rest := ok_or (get_from buf (idx * width)) UnexpectedEnd in
  let? (elem, _) := decode_element rest in Ok elem.

Definition decode_triple_wire (buf : list Z) : result (Triple * nat) WireError :=
  let? x := decode_coord buf 0 in
  let? y := decode_coord buf 1 in
  let? z := decode_coord buf 2 in
  if negb (is_canonical (x, y, z)) then Err NonCanonicalProjective
  else Ok ((x, y, z), (3 * width)%nat).

Definition decode_point (buf : list Z) : result (Point F * nat) WireError :=
  let? (coords, n) := decode_triple_wire buf in
  let? point := ok_or (point_new coords) NonCanonicalProjective in Ok (point, n).

Definition decode_line (buf : list Z) : result (Line F * nat) WireError :=
  let? (coords, n) := decode_triple_wire buf in
  let? line := ok_or (line_new coords) NonCanonicalProjective in Ok (line, n).

#[global] Instance wire_point : Wire (Point F) := {
  wire_encode p := Some (encode_point p);
  wire_decode cur := let? (point, n) := decode_point cur in
    let? cur := ok_or (get_from cur n) UnexpectedEnd in Ok (point, cur);
}.

#[global] Instance wire_line : Wire (Line F) := {
  wire_encode l := Some (encode_line l);
  wire_decode cur := let? (line, n) := decode_line cur in
    let? cur := ok_or (get_from cur n) UnexpectedEnd in Ok (line, cur);
}.

End Projective.

(** ** Byte strings and [ERROR] bodies *)

Definition encode_bytes (bytes : list Z) : option (list Z) :=
  letO h := Varint.encode (Z.of_nat (length bytes)) in Some (h ++ bytes).

(** [buf.get(head..end)] after [head.checked_add(len)] at [usize] width. *)
Definition decode_bytes (buf : list Z) : result (list Z * nat) WireError :=
  let? (len, hd) := Varint.decode buf in
  if 2 ^ 64 <=? Z.of_nat hd + len then Err ValueTooLarge
  else if Z.of_nat (length buf) <? Z.of_nat hd + len then Err UnexpectedEnd
  else Ok (take (Z.to_nat len) (drop hd buf), (hd + Z.to_nat len)%nat).

Inductive ProtocolError :=
| Unsupported | Malformed | NonCanonical | BadCoord | EpochStale | SybilReject | NoRoute
| QuorumUnavail | ThresholdUnmet | PathBroken | HolonomyFail | CoverStarved
| SvcUnreachable | RdvExpired | PowRequired.

Definition ALL : list ProtocolError :=
  [Unsupported; Malformed; NonCanonical; BadCoord; EpochStale; SybilReject; NoRoute;
   QuorumUnavail; ThresholdUnmet; PathBroken; HolonomyFail; CoverStarved; SvcUnreachable;
   RdvExpired; PowRequired].

Definition error_index (e : ProtocolError) : Z :=
  match e with
  | Unsupported => 0 | Malformed => 1 | NonCanonical => 2 | BadCoord => 3 | EpochStale => 4
  | SybilReject => 5 | NoRoute => 6 | QuorumUnavail => 7 | ThresholdUnmet => 8
  | PathBroken => 9 | HolonomyFail => 10 | CoverStarved => 11 | SvcUnreachable => 12
  | RdvExpired => 13 | PowRequired => 14
  end.

(** The discriminants of the [repr(u16)] enum. *)
Definition code (e : ProtocolError) : Z :=
  match e with
  | Unsupported => 100 | Malformed => 101 | NonCanonical => 102
  | BadCoord => 200 | EpochStale => 201 | SybilReject => 202
  | NoRoute => 300 | QuorumUnavail => 301 | ThresholdUnmet => 302
  | PathBroken => 400 | HolonomyFail => 401 | CoverStarved => 402
  | SvcUnreachable => 500 | RdvExpired => 501 | PowRequired => 502
  end.

Definition class (e : ProtocolError) : Z := code e / 100.

Definition from_code (c : Z) : option ProtocolError :=
  match c with
  | 100 => Some Unsupported | 101 => Some Malformed | 102 => Some NonCanonical
  | 200 => Some BadCoord | 201 => Some EpochStale | 202 => Some SybilReject
  | 300 => Some NoRoute | 301 => Some QuorumUnavail | 302 => Some ThresholdUnmet
  | 400 => Some PathBroken | 401 => Some HolonomyFail | 402 => Some CoverStarved
  | 500 => Some SvcUnreachable | 501 => Some RdvExpired | 502 => Some PowRequired
  | _ => None
  end.

Definition encode_error (err : ProtocolError) (reason : list Z) : option (list Z) :=
  letO h := Varint.encode (code err) in Some (h ++ reason).

Definition decode_error (body : list Z) : result (Z * list Z) WireError :=
  let? (c, n) := Varint.decode body in
  let? reason := ok_or (get_from body n) UnexpectedEnd in Ok (c, reason).

(** ** The contract of the trait *)

Class WireLaws (A : Type) `{Wire A} := {
  wire_dom : A -> Prop;
  wl_total a : wire_dom a -> exists bs, wire_encode a = Some bs /\ is_bytes bs;
  wl_roundtrip a bs rest :
    wire_dom a -> wire_encode a = Some bs -> wire_decode (bs ++ rest) = Ok (a, rest);
  wl_canonical buf a rest :
    is_bytes buf -> wire_decode buf = Ok (a, rest) ->
    wire_dom a /\ exists bs, wire_encode a = Some bs /\ buf = bs ++ rest;
}.

Lemma wtake_Ok cur n h t : wtake cur n = Ok (h, t) <-> length h = n /\ cur = h ++ t.
Proof.
  unfold wtake. destruct (length cur <? n)%nat eqn:E.
  - rewrite Nat.ltb_lt in E. split; [done|]. intros [H ->]. rewrite length_app in E. lia.
  - rewrite Nat.ltb_ge in E. split.
    + intros [= <- <-]. rewrite length_take, take_drop. split; [lia|done].
    + intros [H ->]. rewrite <- H, take_app_length, drop_app_length. done.
Qed.

Lemma wtake_app h t : wtake (h ++ t) (length h) = Ok (h, t).
Proof. by apply wtake_Ok. Qed.

Lemma wtake_app_n n h t : length h = n -> wtake (h ++ t) n = Ok (h, t).
Proof. intros. by apply wtake_Ok. Qed.

Lemma get_from_app h t : get_from (h ++ t) (length h) = Some t.
Proof.
  unfold get_from. rewrite (proj2 (Nat.leb_le _ _)) by (rewrite length_app; lia).
  by rewrite drop_app_length.
Qed.

Lemma get_from_Some buf n t : get_from buf n = Some t -> buf = take n buf ++ t.
Proof. unfold get_from. case_match; [|done]. intros [= <-]. by rewrite take_drop. Qed.

(** Split the success of a chain of fallible reads. *)
Ltac ok_inv :=
  repeat match goal with
  | H : rbind ?r _ = Ok _ |- _ =>
      let v := fresh "v" in let E := fresh "E" in
      apply rbind_Ok in H as (v & E & H);
      lazymatch type of v with (_ * _)%type => destruct v | _ => idtac end
  | H : ok_or _ _ = Ok _ |- _ => apply ok_or_Ok in H
  | H : wtake _ _ = Ok _ |- _ => apply wtake_Ok in H as [? ->]
  | H : Ok _ = Ok _ |- _ => injection H as; subst
  end.

#[global] Program Instance laws_uint n : WireLaws (uint n) := {
  wire_dom a := in_u (8 * Z.of_nat n) (u_val a);
}.
Next Obligation. intros n a _. eexists. split; [done|apply is_bytes_be]. Qed.
Next Obligation.
  intros n [x] bs rest Hx [= <-]. cbn in *.
  rewrite (wtake_app_n n) by apply length_be_bytes. cbn. by rewrite from_be_id.
Qed.
Next Obligation.
  intros n buf a rest Hb E. cbn in E. ok_inv. apply is_bytes_app in Hb as [Hl _]. cbn.
  split; [by apply from_be_range|]. eexists. split; [done|]. by rewrite be_bytes_from_be.
Qed.

Lemma to_signed_spec n x :
  (0 < n)%nat -> in_u (8 * Z.of_nat n) x ->
  - 2 ^ (8 * Z.of_nat n - 1) <= to_signed n x < 2 ^ (8 * Z.of_nat n - 1) /\
  wrap (8 * Z.of_nat n) (to_signed n x) = x.
Proof.
  intros Hn [H0 H1]. unfold to_signed, wrap. cbv zeta.
  assert (E : 2 ^ (8 * Z.of_nat n) = 2 * 2 ^ (8 * Z.of_nat n - 1)).
  { rewrite <- Z.pow_succ_r by lia. f_equal. lia. }
  destruct (x <? 2 ^ (8 * Z.of_nat n - 1)) eqn:El;
    rewrite ?Z.ltb_lt, ?Z.ltb_ge in El; split; try lia.
  - apply Z.mod_small. lia.
  - replace (x - 2 ^ (8 * Z.of_nat n)) with (x + (-1) * 2 ^ (8 * Z.of_nat n)) by lia.
    rewrite Z.mod_add by lia. apply Z.mod_small. lia.
Qed.

Lemma signed_wrap n x :
  (0 < n)%nat -> - 2 ^ (8 * Z.of_nat n - 1) <= x < 2 ^ (8 * Z.of_nat n - 1) ->
  to_signed n (wrap (8 * Z.of_nat n) x) = x.
Proof.
  intros Hn Hx. unfold to_signed, wrap. cbv zeta.
  assert (E : 2 ^ (8 * Z.of_nat n) = 2 * 2 ^ (8 * Z.of_nat n - 1)).
  { rewrite <- Z.pow_succ_r by lia. f_equal. lia. }
  destruct (decide (0 <= x)).
  - rewrite Z.mod_small by lia. by rewrite (proj2 (Z.ltb_lt _ _)) by lia.
  - rewrite <- (Z.mod_add _ 1) by lia. rewrite Z.mod_small by lia.
    rewrite (proj2 (Z.ltb_ge _ _)) by lia. lia.
Qed.

#[global] Program Instance laws_sint n : WireLaws (sint (S n)) := {
  wire_dom a := - 2 ^ (8 * Z.of_nat (S n) - 1) <= s_val a < 2 ^ (8 * Z.of_nat (S n) - 1);
}.
Next Obligation. intros n a _. eexists. split; [done|apply is_bytes_be]. Qed.
Next Obligation.
  intros n [x] bs rest Hx [= <-]. cbn [wire_decode wire_sint s_val] in *.
  rewrite (wtake_app_n (S n)) by apply length_be_bytes. cbn [rbind].
  rewrite from_be_id by (apply wrap_range; lia). by rewrite signed_wrap by (lia || done).
Qed.
Next Obligation.
  intros n buf a rest Hb E. cbn [wire_decode wire_sint] in E. ok_inv.
  apply is_bytes_app in Hb as [Hl _]. pose proof (from_be_range _ Hl) as Hr.
  cbn [s_val wire_encode wire_sint]. match goal with H : length _ = _ |- _ => rewrite H in Hr end.
  destruct (to_signed_spec (S n) _ ltac:(lia) Hr) as [H1 H2]. split; [done|].
  eexists. split; [done|]. by rewrite H2, be_bytes_from_be_n.
Qed.

#[global] Program Instance laws_bool : WireLaws bool := { wire_dom _ := True }.
Next Obligation. intros b _. eexists. split; [done|]. by_decide || (destruct b; by_decide). Qed.
Next Obligation. intros [|] bs rest _ [= <-]; done. Qed.
Next Obligation.
  intros buf a rest Hb E. cbn [wire_decode wire_bool] in E. ok_inv.
  match goal with H : length ?l = 1%nat |- _ => destruct l as [|b [|]]; try done end.
  cbn in E. split; [done|]. destruct b as [|[| |]|]; try done; ok_inv; by eexists.
Qed.

#[global] Program Instance laws_array n : WireLaws (byte_array n) := {
  wire_dom a := length (a_bytes a) = n /\ is_bytes (a_bytes a);
}.
Next Obligation. intros n a [_ Ha]. by eexists. Qed.
Next Obligation. intros n [l] bs rest [Hl _] [= <-]. cbn in *. by rewrite (wtake_app_n n). Qed.
Next Obligation.
  intros n buf a rest Hb E. cbn in E. ok_inv. apply is_bytes_app in Hb as [Hl _]. cbn. by eauto.
Qed.

#[global] Program Instance laws_unit : WireLaws unit := { wire_dom _ := True }.
Next Obligation. intros [] _. eexists. split; [done|constructor]. Qed.
Next Obligation. intros [] bs rest _ [= <-]. done. Qed.
Next Obligation. intros buf [] rest _ [= ->]. split; [done|]. by exists []. Qed.

Section CompositeLaws.
Context {A B : Type} `{LA : WireLaws A} `{LB : WireLaws B}.

#[global] Program Instance laws_pair : WireLaws (A * B) := {
  wire_dom p := wire_dom (fst p) /\ wire_dom (snd p);
}.
Next Obligation.
  intros [a b] [Ha Hb]. destruct (wl_total a Ha) as (x & Ex & Hx), (wl_total b Hb) as (y & Ey & Hy).
  exists (x ++ y). cbn. rewrite Ex, Ey. split; [done|]. by apply is_bytes_app.
Qed.
Next Obligation.
  intros [a b] bs rest [Ha Hb] E. cbn in *. destruct (wl_total a Ha) as (x & Ex & _).
  destruct (wl_total b Hb) as (y & Ey & _). rewrite Ex, Ey in E. injection E as <-.
  rewrite <- app_assoc, (wl_roundtrip a x) by done. cbn. by rewrite (wl_roundtrip b y).
Qed.
Next Obligation.
  intros buf [a b] rest Hb E. cbn in E. ok_inv.
  apply wl_canonical in E0 as (Ha & x & Ex & ->); [|done]. apply is_bytes_app in Hb as [_ Hb].
  apply wl_canonical in E1 as (Hb' & y & Ey & ->); [|done]. split; [done|].
  exists (x ++ y). cbn. rewrite Ex, Ey. by rewrite app_assoc.
Qed.

#[global] Program Instance laws_option : WireLaws (option A) := {
  wire_dom o := match o with Some a => wire_dom a | None => True end;
}.
Next Obligation.
  intros [a|] Ha; cbn; [|by exists [0]; split; [done|by_decide]].
  destruct (wl_total a Ha) as (x & -> & Hx). eexists. split; [done|]. constructor; [by_decide|done].
Qed.
Next Obligation.
  intros [a|] bs rest Ha E; cbn in *; [|by injection E as <-].
  destruct (wl_total a Ha) as (x & Ex & _). rewrite Ex in E. injection E as <-. cbn.
  by rewrite drop_0, (wl_roundtrip a x).
Qed.
Next Obligation.
  intros buf o rest Hb E. cbn [wire_decode wire_option] in E. ok_inv.
  match goal with H : length ?l = 1%nat |- _ => destruct l as [|b [|]]; try done end.
  cbn in E. apply is_bytes_app in Hb as [_ Hb]. destruct b as [|[| |]|]; try done; ok_inv.
  - by split; [|eexists].
  - apply wl_canonical in E0 as (Ha & x & Ex & ->); [|done]. split; [done|].
    exists (1 :: x). cbn. by rewrite Ex.
Qed.

Lemma encode_elems_total l :
  Forall wire_dom l -> exists bs, encode_elems (A := A) l = Some bs /\ is_bytes bs.
Proof.
  induction 1 as [|a l Ha _ (y & Ey & Hy)]; [by exists []; split; [|constructor]|].
  destruct (wl_total a Ha) as (x & Ex & Hx). exists (x ++ y). cbn. rewrite Ex, Ey.
  split; [done|]. by apply is_bytes_app.
Qed.

Lemma decode_encode_elems l bs rest :
  Forall wire_dom l -> encode_elems (A := A) l = Some bs ->
  decode_elems (length l) (bs ++ rest) = Ok (l, rest).
Proof.
  intros Hl. revert bs. induction Hl as [|a l Ha Hl IH]; intros bs E; cbn in *; [by simplify_eq|].
  destruct (wl_total a Ha) as (x & Ex & _). rewrite Ex in E.
  destruct (encode_elems l) as [y|]; [|done]. injection E as <-.
  rewrite <- app_assoc, (wl_roundtrip a x) by done. cbn. by rewrite IH.
Qed.

Lemma decode_elems_inv n buf l rest :
  is_bytes buf -> decode_elems (A := A) n buf = Ok (l, rest) ->
  length l = n /\ Forall wire_dom l /\ exists bs, encode_elems l = Some bs /\ buf = bs ++ rest.
Proof.
  revert buf l. induction n as [|n IH]; intros buf l Hb E; cbn in E; ok_inv.
  - split; [done|]. split; [constructor|]. by exists [].
  - apply wl_canonical in E0 as (Ha & x & Ex & ->); [|done]. apply is_bytes_app in Hb as [_ Hb].
    apply IH in E1 as (Hl & Hd & y & Ey & ->); [|done]. split; [cbn; congruence|].
    split; [by constructor|]. exists (x ++ y). cbn. rewrite Ex, Ey. by rewrite app_assoc.
Qed.

#[global] Program Instance laws_vec : WireLaws (list A) := {
  wire_dom l := Forall wire_dom l /\ Z.of_nat (length l) <= Varint.MAX;
}.
Next Obligation.
  intros l [Hl Hn]. destruct (Varint.encode_Some (Z.of_nat (length l))) as (h & Eh & Hh); [lia|].
  destruct (encode_elems_total l Hl) as (y & Ey & Hy). exists (h ++ y). cbn. rewrite Eh, Ey.
  split; [done|]. by apply is_bytes_app.
Qed.
Next Obligation.
  intros l bs rest [Hl Hn] E. cbn in *.
  destruct (Varint.encode (Z.of_nat (length l))) as [h|] eqn:Eh; [|done].
  destruct (encode_elems l) as [y|] eqn:Ey; [|done]. injection E as <-.
  rewrite <- app_assoc, (Varint.decode_encode (Z.of_nat (length l)) h) by (done || lia). cbn [rbind].
  rewrite get_from_app. cbn [ok_or rbind]. rewrite Nat2Z.id. by apply decode_encode_elems.
Qed.
Next Obligation.
  intros buf l rest Hb E. cbn in E. ok_inv.
  apply Varint.decode_inv in E0 as (Hv & Eh & Hn); [|done].
  apply get_from_Some in E1. rewrite E1 in Hb. apply is_bytes_app in Hb as [_ Hb].
  apply decode_elems_inv in E as (Hl & Hd & y & Ey & ->); [|done]. cbn.
  split; [split; [done|lia]|]. exists (take n buf ++ y).
  replace (Z.of_nat (length l)) with z by lia. rewrite Eh, Ey. split; [done|].
  by rewrite <- app_assoc.
Qed.

End CompositeLaws.

#[global] Program Instance laws_triple : WireLaws Triple := { wire_dom t := u32_triple t }.
Next Obligation.
  intros [[x y] z] _. eexists. split; [done|]. rewrite !is_bytes_app. auto using is_bytes_be.
Qed.
Next Obligation.
  intros [[x y] z] bs rest (Hx & Hy & Hz) E.
  cbn [wire_encode wire_triple wire_uint u_val] in E. assert (bs = be_bytes 4 x ++ be_bytes 4 y ++ be_bytes 4 z) as -> by congruence.
  cbn [wire_decode wire_triple]. rewrite <- !app_assoc.
  rewrite (wl_roundtrip (mk_uint x : uint 4)) by done. cbn [rbind].
  rewrite (wl_roundtrip (mk_uint y : uint 4)) by done. cbn [rbind].
  rewrite (wl_roundtrip (mk_uint z : uint 4)) by done. done.
Qed.
Next Obligation.
  intros buf [[x y] z] rest Hb E. cbn [wire_decode wire_triple] in E.
  apply rbind_Ok in E as ([x0 c0] & E0 & E). apply rbind_Ok in E as ([y0 c1] & E1 & E).
  apply rbind_Ok in E as ([z0 c2] & E2 & E). injection E as <- <- <- <-.
  apply (wl_canonical (A := uint 4)) in E0 as (D0 & b0 & [= <-] & ->); [|done].
  apply is_bytes_app in Hb as [_ Hb].
  apply (wl_canonical (A := uint 4)) in E1 as (D1 & b1 & [= <-] & ->); [|done].
  apply is_bytes_app in Hb as [_ Hb].
  apply (wl_canonical (A := uint 4)) in E2 as (D2 & b2 & [= <-] & ->); [|done].
  split; [done|]. eexists. split; [done|]. by rewrite <- !app_assoc.
Qed.

Section ProjectiveLaws.
Context {F : Field} {FL : FieldLaws F}.

Lemma width_spec :
  Z.of_nat (width (F := F)) <= 4 /\ forall x, canon F x -> in_u (8 * Z.of_nat (width (F := F))) x.
Proof.
  pose proof fl_Q as HQ. unfold width, element_width, sat_sub. cbv zeta.
  rewrite Z.max_l, (proj2 (Z.eqb_neq _ _)) by lia.
  pose proof (Z.log2_spec (@f_Q F - 1) ltac:(lia)) as Hl.
  assert (Hlog : 0 <= Z.log2 (@f_Q F - 1) < 32).
  { split; [apply Z.log2_nonneg|]. apply Z.log2_lt_pow2; lia. }
  assert (Hw : 0 <= Z.log2 (@f_Q F - 1) / 8 <= 3).
  { split; [apply Z.div_pos; lia|]. assert (Z.log2 (@f_Q F - 1) / 8 < 4); [|lia].
    apply Z.div_lt_upper_bound; lia. }
  rewrite Z2Nat.id by lia. split; [lia|]. intros x [H0 H1]. split; [done|].
  apply Z.lt_le_trans with (2 ^ Z.succ (Z.log2 (@f_Q F - 1))); [lia|].
  apply Z.pow_le_mono_r; [lia|]. pose proof (Z.div_mod (Z.log2 (@f_Q F - 1)) 8 ltac:(lia)).
  pose proof (Z.mod_pos_bound (Z.log2 (@f_Q F - 1)) 8 ltac:(lia)). lia.
Qed.

Lemma fold_element l :
  is_bytes l -> length l = width (F := F) -> Varint.fold_bytes 32 0 l = from_be l.
Proof.
  intros Hl Hn. destruct width_spec as [Hw _]. rewrite Varint.fold_bytes_from_be; [done|done|lia|].
  rewrite Hn. replace 256 with (2 ^ 8) by done. rewrite <- Z.pow_mul_r by lia.
  rewrite Z.mul_0_l, Z.add_0_l. apply Z.pow_le_mono_r; lia.
Qed.

Lemma length_encode_element x : length (encode_element (F := F) x) = width (F := F).
Proof. apply length_be_bytes. Qed.

Lemma decode_encode_element x rest :
  canon F x -> decode_element (encode_element x ++ rest) = Ok (x, width (F := F)).
Proof.
  intros Hx. unfold decode_element. pose proof (length_encode_element x) as Hl.
  rewrite (proj2 (Nat.ltb_ge _ _)) by (rewrite length_app; lia). rewrite <- Hl, take_app_length.
  rewrite fold_element by (done || apply is_bytes_be). unfold encode_element.
  rewrite from_be_id by (by apply width_spec). unfold f_in_range.
  rewrite (proj2 (Z.ltb_lt _ _)) by apply Hx. by rewrite length_be_bytes.
Qed.

Lemma decode_element_inv buf x n :
  is_bytes buf -> decode_element (F := F) buf = Ok (x, n) ->
  canon F x /\ n = width (F := F) /\ exists rest, buf = encode_element x ++ rest.
Proof.
  intros Hb. unfold decode_element. destruct (_ <? _)%nat eqn:E1; [done|].
  rewrite Nat.ltb_ge in E1. destruct (negb _) eqn:E2; [done|]. intros [= <- <-].
  rewrite negb_false_iff in E2. unfold f_in_range in E2. rewrite Z.ltb_lt in E2.
  pose proof (is_bytes_take (width (F := F)) _ Hb) as Ht.
  assert (Hlen : length (take (width (F := F)) buf) = width (F := F)) by (rewrite length_take; lia).
  rewrite fold_element in * by done. pose proof (from_be_range _ Ht) as [H0 _].
  split; [done|]. split; [done|]. exists (drop (width (F := F)) buf).
  unfold encode_element. by rewrite be_bytes_from_be_n, take_drop by done.
Qed.

Lemma decode_coord_app pre x rest idx :
  canon F x -> length pre = (idx * width (F := F))%nat ->
  decode_coord (F := F) (pre ++ encode_element x ++ rest) idx = Ok x.
Proof.
  intros Hx Hl. unfold decode_coord. rewrite <- Hl, get_from_app. cbn [ok_or rbind].
  by rewrite decode_encode_element.
Qed.

Lemma decode_coord_inv pre buf x idx :
  is_bytes buf -> length pre = (idx * width (F := F))%nat ->
  decode_coord (F := F) (pre ++ buf) idx = Ok x ->
  canon F x /\ exists rest, buf = encode_element x ++ rest.
Proof.
  intros Hb Hl E. unfold decode_coord in E. rewrite <- Hl, get_from_app in E.
  cbn [ok_or rbind] in E. ok_inv. by apply decode_element_inv in E0 as (? & _ & ?).
Qed.

Lemma decode_triple_wire_app c rest :
  tin (F := F) c -> is_canonical c = true ->
  decode_triple_wire (F := F) (encode_coords (F := F) c ++ rest)
  = Ok (c, length (encode_coords (F := F) c)).
Proof.
  destruct c as [[x y] z]. intros (Hx & Hy & Hz) Hc. unfold decode_triple_wire, encode_coords.
  rewrite <- !app_assoc.
  pose proof (decode_coord_app [] x (encode_element y ++ encode_element z ++ rest) 0 Hx eq_refl) as E0.
  cbn [app] in E0. rewrite E0. cbn [rbind].
  rewrite (decode_coord_app (encode_element x) y) by (done || (rewrite length_encode_element; lia)).
  cbn [rbind]. rewrite app_assoc.
  rewrite (decode_coord_app (encode_element x ++ encode_element y) z)
    by (done || (rewrite length_app, !length_encode_element; lia)).
  cbn [rbind]. rewrite Hc. cbn [negb]. do 2 f_equal.
  rewrite !length_app, !length_encode_element. lia.
Qed.

Lemma decode_triple_wire_inv buf c n :
  is_bytes buf -> decode_triple_wire (F := F) buf = Ok (c, n) ->
  tin (F := F) c /\ is_canonical c = true /\ n = length (encode_coords (F := F) c) /\
  exists rest, buf = encode_coords (F := F) c ++ rest.
Proof.
  intros Hb E. unfold decode_triple_wire in E. ok_inv.
  destruct (negb _) eqn:Ec; [done|]. rewrite negb_false_iff in Ec. ok_inv.
  apply (decode_coord_inv []) in E0 as (Hx & r0 & ->); [|done..].
  apply is_bytes_app in Hb as [_ Hb].
  apply decode_coord_inv in E1 as (Hy & r1 & ->); [|done|rewrite length_encode_element; lia].
  apply is_bytes_app in Hb as [_ Hb]. rewrite app_assoc in E2.
  apply decode_coord_inv in E2 as (Hz & r2 & ->);
    [|done|rewrite length_app, !length_encode_element; lia].
  split; [done|]. split; [done|]. unfold encode_coords. split.
  - rewrite !length_app, !length_encode_element. lia.
  - exists r2. by rewrite <- !app_assoc.
Qed.

Lemma is_bytes_coords c : is_bytes (encode_coords (F := F) c).
Proof. destruct c as [[x y] z]. unfold encode_coords. rewrite !is_bytes_app. unfold encode_element. auto using is_bytes_be. Qed.

Lemma new_canonical c :
  tin (F := F) c -> is_canonical c = true ->
  point_new (F := F) c = Some (wrap_point c) /\ line_new (F := F) c = Some (wrap_line c).
Proof.
  intros Hc Cc. unfold point_new, line_new. rewrite canonicalize_id by done.
  pose proof (canonical_nonzero _ Cc) as Hnz.
  replace (is_valid c) with true; [done|]. symmetry.
  unfold is_valid, is_zero, f_in_range. destruct c as [[x y] z].
  destruct Hc as (Hx & Hy & Hz). unfold canon in *.
  rewrite !(proj2 (Z.ltb_lt _ _)) by lia. by rewrite bool_decide_false.
Qed.

#[global] Program Instance laws_point : WireLaws (Point F) := { wire_dom p := point_ok p }.
Next Obligation. intros p _. eexists. split; [done|apply is_bytes_coords]. Qed.
Next Obligation.
  intros [c] bs rest [Hc Cc] [= <-]. cbn [wire_decode wire_point]. unfold decode_point, encode_point.
  cbn [p_coords] in *. rewrite decode_triple_wire_app by done. cbn [rbind].
  destruct (new_canonical c Hc Cc) as [-> _]. cbn [ok_or rbind]. by rewrite get_from_app.
Qed.
Next Obligation.
  intros buf p rest Hb E. cbn [wire_decode wire_point] in E. unfold decode_point in E. ok_inv.
  apply decode_triple_wire_inv in E2 as (Hc & Cc & -> & r & ->); [|done].
  destruct (new_canonical _ Hc Cc) as [En _]. rewrite En in E3. injection E3 as <-.
  rewrite get_from_app in E1. injection E1 as ->. split; [done|]. by eexists.
Qed.

#[global] Program Instance laws_line : WireLaws (Line F) := { wire_dom l := line_ok l }.
Next Obligation. intros p _. eexists. split; [done|apply is_bytes_coords]. Qed.
Next Obligation.
  intros [c] bs rest [Hc Cc] [= <-]. cbn [wire_decode wire_line]. unfold decode_line, encode_line.
  cbn [l_coords] in *. rewrite decode_triple_wire_app by done. cbn [rbind].
  destruct (new_canonical c Hc Cc) as [_ ->]. cbn [ok_or rbind]. by rewrite get_from_app.
Qed.
Next Obligation.
  intros buf p rest Hb E. cbn [wire_decode wire_line] in E. unfold decode_line in E. ok_inv.
  apply decode_triple_wire_inv in E2 as (Hc & Cc & -> & r & ->); [|done].
  destruct (new_canonical _ Hc Cc) as [_ En]. rewrite En in E3. injection E3 as <-.
  rewrite get_from_app in E1. injection E1 as ->. split; [done|]. by eexists.
Qed.

End ProjectiveLaws.

(** ** The contract lifted to whole messages *)

(** The canonical-encoding rule: for every type that satisfies the trait's contract,
    [from_wire] accepts a byte string exactly when it is the encoding of a representable
    value, and returns that value. *)
Theorem from_wire_iff_to_wire {A} `{WireLaws A} (bytes : list Z) (a : A) :
  is_bytes bytes ->
  (from_wire bytes = Ok a <-> wire_dom a /\ to_wire a = Some bytes).
Proof.
  intros Hb. unfold from_wire, to_wire. split.
  - intros E. ok_inv. destruct l; [|done]. injection E as ->.
    apply wl_canonical in E0 as (Hd & bs & Ebs & ->); [|done]. by rewrite app_nil_r.
  - intros [Hd E]. rewrite <- (app_nil_r bytes), (wl_roundtrip a bytes) by done. done.
Qed.

Lemma from_wire_iff_to_wire_witness :
  let a : list (option Triple) * (bool * unit) := ([None; Some (1, 2, 3)], (true, tt)) in
  let bytes := [2; 0; 1; 0; 0; 0; 1; 0; 0; 0; 2; 0; 0; 0; 3; 1] in
  to_wire a = Some bytes /\ from_wire bytes = Ok a.
Proof.
  cbv zeta. split; [vm_compute; reflexivity|].
  apply (from_wire_iff_to_wire (A := list (option Triple) * (bool * unit))); [by_decide|].
  split; [|vm_compute; reflexivity]. cbn. repeat split; try by_decide.
  constructor; [exact I|]. constructor; [|constructor]. by_decide.
Defined.

(** A typed point decodes from the front of a buffer exactly when the buffer starts with
    the field-width encoding of a canonical point; the encoding and its decoding are inverse. *)
Theorem point_codec_canonical (F : Field) (FL : FieldLaws F) (buf : list Z) (p : Point F) (n : nat) :
  is_bytes buf ->
  (decode_point buf = Ok (p, n) <->
   point_ok p /\ n = length (encode_point p) /\ exists rest, buf = encode_point p ++ rest).
Proof.
  intros Hb. unfold decode_point, encode_point. split.
  - intros E. ok_inv. apply decode_triple_wire_inv in E0 as (Hc & Cc & -> & r & ->); [|done].
    destruct (new_canonical _ Hc Cc) as [En _]. rewrite En in E1. injection E1 as <-. split; [done|]. split; [done|]. by exists r.
  - intros ((Hc & Cc) & -> & rest & ->). rewrite decode_triple_wire_app by done. cbn [rbind].
    destruct (new_canonical _ Hc Cc) as [-> _]. by destruct p.
Qed.

Lemma point_codec_canonical_witness :
  decode_point (F := F256) [1; 7; 200; 9] = Ok (wrap_point (1, 7, 200), 3%nat) /\
  encode_point (F := F256) (wrap_point (1, 7, 200)) = [1; 7; 200].
Proof.
  split; [|vm_compute; reflexivity].
  apply (point_codec_canonical F256 F256_laws); [by_decide|]. split; [by_decide|].
  split; [vm_compute; reflexivity|]. exists [9]. vm_compute. reflexivity.
Defined.

Lemma decode_bytes_app bytes h rest :
  Z.of_nat (length bytes) <= Varint.MAX -> Varint.encode (Z.of_nat (length bytes)) = Some h ->
  decode_bytes ((h ++ bytes) ++ rest) = Ok (bytes, length (h ++ bytes)).
Proof.
  intros Hl Eh. unfold decode_bytes.
  rewrite <- app_assoc, (Varint.decode_encode (Z.of_nat (length bytes)) h) by (done || lia).
  cbn [rbind]. pose proof (Varint.encode_len (Z.of_nat (length bytes)) h ltac:(lia) Eh) as Hh.
  destruct (Varint.encoded_len_spec (Z.of_nat (length bytes)) ltac:(lia)) as [Hn _].
  unfold Varint.MAX in Hl.
  rewrite (proj2 (Z.leb_gt _ _)), (proj2 (Z.ltb_ge _ _)) by (rewrite ?length_app; lia).
  by rewrite drop_app_length, Nat2Z.id, take_app_length, length_app.
Qed.

(** An [ERROR] frame body carries its taxonomy entry and reason faithfully, the code
    resolves back to the entry that was sent, a code resolves to at most that one entry, and
    a body too short for its code is rejected. *)
Theorem error_frame_roundtrip (err : ProtocolError) (reason : list Z) :
  (exists body, encode_error err reason = Some body /\
     decode_error body = Ok (code err, reason)) /\
  from_code (code err) = Some err /\
  (forall c e, from_code c = Some e -> c = code e) /\ decode_error [] = Err UnexpectedEnd.
Proof.
  split; [|split; [by destruct err|split; [|done]]].
  - assert (Hr : 0 <= code err <= Varint.MAX) by (destruct err; by_decide).
    destruct (Varint.encode_Some _ Hr) as (h & Eh & _). exists (h ++ reason).
    unfold encode_error, decode_error. rewrite Eh. split; [done|].
    rewrite (Varint.decode_encode (code err) h) by done. cbn [rbind].
    by rewrite get_from_app.
  - intros c e. unfold from_code. repeat case_match; intros [= <-]; reflexivity.
Qed.
