(* ===== verification/Lagrange.v ===== *)
(** * Interpolation over the field carrier

    The algebra behind the secret sharing: evaluation of coefficient lists, the Lagrange
    sum at zero over an explicit list of abscissae, existence and uniqueness of the
    interpolating polynomial.  Everything is over the carrier [elt] of an arbitrary field. *)
From Stdlib Require Import Field_theory Ring_theory Field_tac.
From S2P Require Import Prelude Field.
Local Open Scope Z_scope.

Section Lagrange.
Context {F : Field} {FL : FieldLaws F}.
Abbreviation K := (elt F).
Add Field efield : (elt_field (F := F)).

Declare Scope elt_scope.
Delimit Scope elt_scope with E.
#[local] Notation "0" := e0 : elt_scope.
#[local] Notation "1" := e1 : elt_scope.
#[local] Infix "+" := eadd : elt_scope.
#[local] Infix "*" := emul : elt_scope.
#[local] Infix "-" := esub : elt_scope.
#[local] Infix "/" := ediv : elt_scope.
#[local] Open Scope elt_scope.

(** The polynomial of a coefficient list, constant term first. *)
Fixpoint peval (p : list K) (x : K) : K :=
  match p with [] => 0 | c :: p => c + x * peval p x end.

(** Every element of a list with the rest of the list. *)
Fixpoint picks {A} (l : list A) : list (A * list A) :=
  match l with
  | [] => []
  | a :: l => (a, l) :: ((fun tr => (fst tr, a :: snd tr)) <$> picks l)
  end.

(** [Π m / (m - x)], the Lagrange weight of [x] at zero. *)
Fixpoint weight (x : K) (others : list K) : K :=
  match others with [] => 1 | m :: ms => m / (m - x) * weight x ms end.

Fixpoint wsum (f : K -> K) (ps : list (K * list K)) : K :=
  match ps with [] => 0 | tr :: ps => f (fst tr) * weight (fst tr) (snd tr) + wsum f ps end.

Definition lagrange (l : list K) (f : K -> K) : K := wsum f (picks l).

Lemma lagrange_cons a l f :
  lagrange (a :: l) f
  = f a * weight a l + wsum f ((fun tr => (fst tr, a :: snd tr)) <$> picks l).
Proof. reflexivity. Qed.

Lemma picks_fst {A} (l : list A) : (picks l).*1 = l.
Proof.
  induction l as [|a l IH]; [done|]. simpl. f_equal. rewrite <- IH at 2.
  rewrite <- list_fmap_compose. done.
Qed.

Lemma picks_elem {A} (l : list A) tr : tr ∈ picks l -> fst tr ∈ l.
Proof. intros H. rewrite <- (picks_fst l). by apply list_elem_of_fmap_2. Qed.

Lemma sub_nz (x y : K) : x <> y -> x - y <> 0.
Proof. intros H E. by apply H, elt_sub_eq_0. Qed.

(** ** The Lagrange sum at zero *)

Lemma wsum_neville f a b ps :
  a <> b -> (forall tr, tr ∈ ps -> fst tr <> a /\ fst tr <> b) ->
  (b - a) * wsum f ((fun tr => (fst tr, a :: b :: snd tr)) <$> ps)
  = b * wsum f ((fun tr => (fst tr, a :: snd tr)) <$> ps)
    - a * wsum f ((fun tr => (fst tr, b :: snd tr)) <$> ps).
Proof.
  intros Hab. induction ps as [|[t r] ps IH]; intros Hps; [csimpl; ring|].
  specialize (IH ltac:(set_solver)). destruct (Hps (t, r)) as [Ha Hb]; [set_solver|].
  csimpl in *. set (s1 := wsum f _) in *. set (s2 := wsum f ((fun tr => (fst tr, a :: snd tr)) <$> ps)) in *.
  set (s3 := wsum f ((fun tr => (fst tr, b :: snd tr)) <$> ps)) in *.
  transitivity ((b - a) * (f t * (a / (a - t) * (b / (b - t) * weight t r))) + (b - a) * s1); [ring|].
  rewrite IH. field. split; by apply sub_nz.
Qed.

Lemma lagrange_neville f a b l :
  a <> b -> a ∉ l -> b ∉ l ->
  (b - a) * lagrange (a :: b :: l) f = b * lagrange (a :: l) f - a * lagrange (b :: l) f.
Proof.
  intros Hab Ha Hb. rewrite !lagrange_cons. cbn [picks]. rewrite fmap_cons. cbn [fst snd].
  rewrite <- list_fmap_compose. unfold compose. cbn [fst snd].
  assert (Hps : forall tr, tr ∈ picks l -> fst tr <> a /\ fst tr <> b).
  { intros tr Htr%picks_elem. split; congruence. }
  pose proof (wsum_neville f a b (picks l) Hab Hps) as H.
  cbn [wsum fst snd].
  transitivity (((b - a) * (f a * weight a (b :: l)) + (b - a) * (f b * weight b (a :: l)))
    + (b - a) * wsum f ((fun tr => (fst tr, a :: b :: snd tr)) <$> picks l)); [ring|].
  rewrite H. simpl. field. split; apply sub_nz; congruence.
Qed.

Lemma mul_cancel_l (a x y : K) : a <> 0 -> a * x = a * y -> x = y.
Proof.
  intros Ha E. transitivity (a * x / a); [by field|]. rewrite E. by field.
Qed.

Lemma one_nz : (1 : K) <> 0.
Proof. apply (F_1_neq_0 (elt_field (F := F))). Qed.

Lemma mul_div_one (w : K) : 1 / 1 * w = w.
Proof. field. apply one_nz. Qed.

Lemma lagrange_one l :
  l <> [] -> base.NoDup l -> lagrange l (fun _ => 1) = 1.
Proof.
  remember (length l) as n eqn:En. revert l En. induction n as [|n IH]; intros l En Hl Hnd.
  { by destruct l. }
  destruct l as [|a [|b l]]; [done|unfold lagrange; simpl; ring|].
  apply NoDup_cons in Hnd as [Ha Hnd]. apply NoDup_cons in Hnd as [Hb Hnd].
  apply (mul_cancel_l (b - a)); [apply sub_nz; set_solver|].
  rewrite lagrange_neville by set_solver. simpl in En.
  rewrite !IH; try done; [ring|by simpl; lia|by constructor|by simpl; lia|constructor; set_solver].
Qed.

(** Synthetic division by [x - c]; a polynomial that vanishes at [c] and has a zero
    quotient is the zero list. *)
Lemma div_linear p c :
  exists q, length q = pred (length p) /\
    (forall x, peval p x = peval p c + (x - c) * peval q x) /\
    (Forall (fun d => d = 0) q -> peval p c = 0 -> Forall (fun d => d = 0) p).
Proof.
  induction p as [|a p (q & Hq & Hdiv & Hzero)].
  { exists []. split; [done|]. split; [intros; simpl; ring|done]. }
  destruct p as [|b p].
  { exists []. split; [done|]. split; [intros; simpl; ring|]. simpl. intros _ E.
    constructor; [|done]. rewrite <- E. ring. }
  exists (peval (b :: p) c :: q). split; [simpl in *; lia|]. split.
  - intros x. cbn [peval]. cbn [peval] in Hdiv. rewrite (Hdiv x). ring.
  - intros [Hc Hq0]%Forall_cons E. constructor; [|by apply Hzero].
    cbn [peval] in E, Hc. rewrite Hc in E. rewrite <- E. ring.
Qed.

Lemma wsum_linear f g h c ps :
  (forall t, f t = c * g t + h t) -> wsum f ps = c * wsum g ps + wsum h ps.
Proof. intros H. induction ps as [|tr ps IH]; simpl; [ring|]. rewrite IH, H. ring. Qed.

(** Reading [g] through the factor [x - a] removes [a] from the abscissae. *)
Lemma wsum_shift g a ps :
  (forall tr, tr ∈ ps -> fst tr <> a) ->
  wsum (fun t => (t - a) * g t) ((fun tr => (fst tr, a :: snd tr)) <$> ps) = (0 - a) * wsum g ps.
Proof.
  induction ps as [|[t r] ps IH]; intros Hps; csimpl; [ring|].
  rewrite IH by set_solver. field. apply sub_nz. intros ->. by apply (Hps (t, r)); [left|].
Qed.

Theorem lagrange_at_zero l p :
  l <> [] -> base.NoDup l -> (length p <= length l)%nat ->
  lagrange l (peval p) = peval p 0.
Proof.
  revert p. induction l as [|a l IH]; intros p Hl Hnd Hp; [done|].
  destruct (decide (l = [])) as [->|Hne].
  { destruct p as [|c [|]]; [| |simpl in Hp; lia]; unfold lagrange; simpl; ring. }
  destruct (div_linear p a) as (q & Hq & Hdiv & _).
  pose proof (lagrange_one (a :: l) Hl Hnd) as Hone.
  apply NoDup_cons in Hnd as [Ha Hnd]. unfold lagrange in *.
  rewrite (wsum_linear (peval p) (fun _ => 1) (fun t => (t - a) * peval q t) (peval p a))
    by (intros t; rewrite (Hdiv t); ring).
  rewrite Hone. cbn [picks wsum fst snd].
  rewrite wsum_shift by (intros tr Htr%picks_elem; congruence).
  rewrite IH by (done || simpl in Hp; lia). rewrite (Hdiv 0). ring.
Qed.

(** ** Uniqueness and existence of the interpolating polynomial *)

Lemma roots_zero p l :
  base.NoDup l -> (length p <= length l)%nat -> (forall x, x ∈ l -> peval p x = 0) ->
  Forall (fun c => c = 0) p.
Proof.
  revert p. induction l as [|a l IH]; intros p Hnd Hp Hz.
  { destruct p; [constructor|simpl in Hp; lia]. }
  destruct (div_linear p a) as (q & Hq & Hdiv & Hzero).
  apply NoDup_cons in Hnd as [Ha Hnd]. assert (Epa : peval p a = 0) by (apply Hz; left).
  apply Hzero; [|done]. apply IH; [done|simpl in Hp; lia|]. intros x Hx.
  assert (E : peval p x = 0) by (apply Hz; by right). rewrite (Hdiv x), Epa in E.
  assert (E' : (x - a) * peval q x = 0) by (rewrite <- E; ring).
  apply elt_mul_eq_0 in E' as [E'|E']; [|done].
  apply (proj1 (elt_sub_eq_0 _ _)) in E'. subst a. by destruct Ha.
Qed.

Lemma peval_zip_sub p q x :
  length p = length q -> peval (zip_with esub p q) x = peval p x - peval q x.
Proof.
  revert q. induction p as [|a p IH]; intros [|b q] Hl; simpl in *; try done; [ring|].
  rewrite IH by lia. ring.
Qed.

Lemma zip_sub_zero p q :
  length p = length q -> Forall (fun c => c = 0) (zip_with esub p q) -> p = q.
Proof.
  revert q. induction p as [|a p IH]; intros [|b q] Hl H; simpl in *; try done.
  apply Forall_cons in H as [E H]. apply (proj1 (elt_sub_eq_0 _ _)) in E. f_equal; [done|].
  apply IH; [lia|done].
Qed.

Lemma interpolant_unique p q l :
  base.NoDup l -> length p = length q -> (length p <= length l)%nat ->
  (forall x, x ∈ l -> peval p x = peval q x) -> p = q.
Proof.
  intros Hnd Hpq Hl H. apply zip_sub_zero; [done|]. apply (roots_zero _ l); [done| |].
  - rewrite length_zip_with. lia.
  - intros x Hx. rewrite peval_zip_sub, (H x Hx) by done. ring.
Qed.

Fixpoint padd (p q : list K) : list K :=
  match p, q with
  | [], q => q
  | p, [] => p
  | a :: p, b :: q => (a + b) :: padd p q
  end.

Lemma peval_padd p q x : peval (padd p q) x = peval p x + peval q x.
Proof.
  revert q. induction p as [|a p IH]; intros [|b q]; simpl; try ring. rewrite IH. ring.
Qed.

Lemma length_padd p q : length (padd p q) = (length p `max` length q)%nat.
Proof. revert q. induction p as [|a p IH]; intros [|b q]; simpl; try done. by rewrite IH. Qed.

Definition pscale (c : K) (p : list K) : list K := emul c <$> p.

Lemma peval_pscale c p x : peval (pscale c p) x = c * peval p x.
Proof. unfold pscale. induction p as [|a p IH]; csimpl; [ring|]. rewrite IH. ring. Qed.

(** [Π (x - r)] as a coefficient list of one more element than [l]. *)
Fixpoint vanish (l : list K) : list K :=
  match l with
  | [] => [1]
  | r :: l => padd (0 :: vanish l) (pscale (0 - r) (vanish l))
  end.

Lemma length_vanish l : length (vanish l) = S (length l).
Proof.
  induction l as [|r l IH]; [done|]. cbn [vanish]. rewrite length_padd. simpl length at 1.
  unfold pscale. rewrite length_fmap, IH. simpl. lia.
Qed.

Lemma peval_vanish_cons r l x : peval (vanish (r :: l)) x = (x - r) * peval (vanish l) x.
Proof. cbn [vanish]. rewrite peval_padd, peval_pscale. cbn [peval]. ring. Qed.

Lemma vanish_zero l x : peval (vanish l) x = 0 <-> x ∈ l.
Proof.
  induction l as [|r l IH].
  - split; [|by intros ?%elem_of_nil]. simpl. intros H. exfalso.
    apply (F_1_neq_0 (elt_field (F := F))). rewrite <- H. ring.
  - rewrite peval_vanish_cons, elt_mul_eq_0, elt_sub_eq_0, IH, elem_of_cons. done.
Qed.

(** A polynomial through any values at distinct abscissae (Newton's construction). *)
Lemma interpolate l (f : K -> K) :
  base.NoDup l -> exists p, length p = length l /\ forall x, x ∈ l -> peval p x = f x.
Proof.
  induction l as [|a l IH]; intros Hnd; [by exists []; split; [|intros x ?%elem_of_nil]|].
  apply NoDup_cons in Hnd as [Ha Hnd]. destruct (IH Hnd) as (p & Hp & Hval).
  set (v := peval (vanish l) a).
  assert (Hv : v <> 0) by (intros E; by apply Ha, vanish_zero).
  exists (padd p (pscale ((f a - peval p a) / v) (vanish l))). split.
  - rewrite length_padd. unfold pscale. rewrite length_fmap, length_vanish, Hp. simpl. lia.
  - intros x. rewrite peval_padd, peval_pscale. intros [->|Hx]%elem_of_cons.
    + fold v. by field.
    + rewrite (Hval x Hx), (proj2 (vanish_zero l x) Hx). ring.
Qed.

End Lagrange.
