(* ===== verification/Shamir.v ===== *)
(** * Shamir secret sharing over GF(256)

    [fanos-primitives/src/shamir.rs]: byte-wise splitting, Lagrange reconstruction at zero
    and the proactive resharing combine step. *)
From Stdlib Require Import Field_theory Ring_theory Field_tac.
From S2P Require Import Prelude Field Gf2m Lagrange.
Local Open Scope Z_scope.

Module Shamir.

Record Share := mk_share { sx : Z; sy : list Z }.

Inductive ShamirError := BadThreshold | BadShareCount | InsufficientRandomness | BadShares.

(** The field operations on bytes. *)
Definition mul (a b : Z) : Z := w8 (f_mul (Field := F256) a b).
Definition add (a b : Z) : Z := w8 (f_add (Field := F256) a b).
Definition inv (a : Z) : Z := w8 (f_inv (F := F256) a).

(** The Horner loop [for c in 0..degree], over the remaining indices [cs]. *)
Fixpoint horner (randomness : list Z) (len i : nat) (x : Z) (cs : list nat) (acc : Z) :
    result Z ShamirError :=
  match cs with
  | [] => Ok acc
  | c :: cs =>
      let? coeff := ok_or (randomness !! (c * len + i)%nat) InsufficientRandomness in
      horner randomness len i x cs (add (mul acc x) coeff)
  end.

Definition eval_byte (randomness : list Z) (len degree : nat) (x : Z) (is0 : nat * Z) :
    result Z ShamirError :=
  let '(i, s0) := is0 in
  let? acc := horner randomness len i x (seq 0 degree) 0 in
  Ok (add (mul acc x) s0).

Definition split (secret : list Z) (threshold shares : Z) (randomness : list Z) :
    result (list Share) ShamirError :=
  if (threshold =? 0) || (shares <? threshold) then Err BadThreshold
  else if shares =? 0 then Err BadShareCount
  else
    let len := length secret in
    let degree := Z.to_nat (threshold - 1) in
    if (length randomness <? degree * len)%nat then Err InsufficientRandomness
    else rmapM (fun x =>
           let? y := rmapM (eval_byte randomness len degree x) (zip (seq 0 len) secret) in
           Ok (mk_share x y)) (seqZ 1 shares).

(** [for (a, xa) in xs.enumerate() { for xb in xs.skip(a+1) { if xa == xb .. } }] *)
Fixpoint has_duplicate (xs : list Z) : bool :=
  match xs with
  | [] => false
  | a :: xs => existsb (fun b => a =? b) xs || has_duplicate xs
  end.

(** The Lagrange coefficient [λ_j] at zero. *)
Definition lagrange_coeff (xs : list Z) (j : nat) (xj : Z) : Z :=
  let '(num, den) := foldl (fun nd mx =>
      if (fst mx =? j)%nat then nd
      else (mul (fst nd) (snd mx), mul (snd nd) (add (snd mx) xj)))
      (1, 1) (zip (seq 0 (length xs)) xs) in
  mul num (inv den).

(** [for (out, v) in acc.iter_mut().zip(y)]: each [out] becomes [add(out, mul(coeff, v))]. *)
Fixpoint accumulate (coeff : Z) (acc y : list Z) : list Z :=
  match acc, y with
  | o :: acc, v :: y => add o (mul coeff v) :: accumulate coeff acc y
  | acc, _ => acc
  end.

(** [Σ_j λ_j · ys[j]], the loop shared by both functions below. *)
Definition weighted_sum (len : nat) (xs : list Z) (ys : list (list Z)) : list Z :=
  foldl (fun acc jxy => let '(j, (x, y)) := jxy in accumulate (lagrange_coeff xs j x) acc y)
    (replicate len 0) (zip (seq 0 (length xs)) (zip xs ys)).

Definition reconstruct (shares : list Share) : result (list Z) ShamirError :=
  let? first := ok_or (head shares) BadShares in
  let len := length (sy first) in
  if existsb (fun s => negb (length (sy s) =? len)%nat || (sx s =? 0)) shares then Err BadShares
  else if has_duplicate (sx <$> shares) then Err BadShares
  else Ok (weighted_sum len (sx <$> shares) (sy <$> shares)).

Definition combine_contributions (new_x : Z) (contributions : list Share) (old_xs : list Z) :
    result Share ShamirError :=
  if (new_x =? 0) || (length contributions =? 0)%nat ||
     negb (length contributions =? length old_xs)%nat then Err BadShares
  else
    let? first := ok_or (head contributions) BadShares in
    let len := length (sy first) in
    if existsb (fun c => negb (length (sy c) =? len)%nat) contributions ||
       existsb (fun x => x =? 0) old_xs then Err BadShares
    else if has_duplicate old_xs then Err BadShares
    else Ok (mk_share new_x (weighted_sum len old_xs (sy <$> contributions))).

(** ** Bytes as field elements *)

Section Spec.
Abbreviation K := (elt F256).
Add Field f256 : (elt_field (F := F256)).

Lemma Q256 : @f_Q F256 = 256. Proof. reflexivity. Qed.

Lemma u8_canon a : is_u8 a <-> canon F256 a.
Proof. unfold in_u, canon. rewrite Q256. done. Qed.

Lemma code_u8 (a : K) : w8 (code a) = code a.
Proof. apply wrap_small, (proj2 (u8_canon _)), code_in. Qed.

Lemma mul_code (a b : K) : mul (code a) (code b) = code (emul a b).
Proof. unfold mul. rewrite code_mul. apply code_u8. Qed.
Lemma add_code (a b : K) : add (code a) (code b) = code (eadd a b).
Proof. unfold add. rewrite code_add. apply code_u8. Qed.
Lemma inv_code (a : K) : inv (code a) = code (einv a).
Proof. unfold inv. rewrite code_inv. apply code_u8. Qed.

(** In characteristic two subtraction is addition. *)
Lemma sub_is_add (a b : K) : esub a b = eadd a b.
Proof.
  apply code_inj. rewrite <- code_sub, <- code_add. reflexivity.
Qed.

Lemma lift_bytes l : is_bytes l -> exists l' : list K, l = code <$> l'.
Proof.
  induction 1 as [|b l Hb _ (l' & ->)]; [by exists []|].
  apply (proj1 (u8_canon b)) in Hb. destruct (lift_code b Hb) as [b' ->]. by exists (b' :: l').
Qed.

Lemma codes_bytes (l : list K) : is_bytes (code <$> l).
Proof. apply Forall_fmap, Forall_true. intros x. apply (proj2 (u8_canon _)), code_in. Qed.

(** ** The Lagrange coefficient of the code is the interpolation weight *)

Lemma foldl_skip {A B} (f : B -> A -> B) (xs : list A) (j k : nat) (acc : B) :
  (k <= j)%nat ->
  foldl (fun b mx => if (fst mx =? j)%nat then b else f b (snd mx)) acc (zip (seq k (length xs)) xs)
  = foldl f acc (delete (j - k)%nat xs).
Proof.
  assert (Hpast : forall (xs : list A) k acc, (j < k)%nat ->
    foldl (fun b mx => if (fst mx =? j)%nat then b else f b (snd mx)) acc (zip (seq k (length xs)) xs)
    = foldl f acc xs).
  { clear. intros xs. induction xs as [|x xs IH]; intros k acc Hk; [done|]. simpl.
    rewrite (proj2 (Nat.eqb_neq _ _)) by lia. apply IH. lia. }
  revert k acc. induction xs as [|x xs IH]; intros k acc Hk; [done|]. simpl.
  destruct (k =? j)%nat eqn:E.
  - rewrite Nat.eqb_eq in E. subst. rewrite Nat.sub_diag, Hpast by lia. done.
  - rewrite Nat.eqb_neq in E. rewrite IH by lia.
    replace (j - k)%nat with (S (j - S k)) by lia. done.
Qed.

Definition numden (x : K) (ms : list K) (nd : K * K) : K * K :=
  foldl (fun nd m => (emul (fst nd) m, emul (snd nd) (eadd m x))) nd ms.

Lemma numden_code (x : K) ms n d :
  foldl (fun nd m => (mul (fst nd) m, mul (snd nd) (add m (code x)))) (code n, code d) (code <$> ms)
  = (code (fst (numden x ms (n, d))), code (snd (numden x ms (n, d)))).
Proof.
  unfold numden. revert n d. induction ms as [|m ms IH]; intros n d; [done|]. csimpl.
  rewrite add_code, !mul_code. apply IH.
Qed.

Lemma numden_weight (x : K) ms n d :
  d <> e0 -> x ∉ ms ->
  snd (numden x ms (n, d)) <> e0 /\
  ediv (fst (numden x ms (n, d))) (snd (numden x ms (n, d))) = emul (ediv n d) (weight x ms).
Proof.
  revert n d. induction ms as [|m ms IH]; intros n d Hd Hx; [split; [done|simpl; by field]|].
  unfold numden in *. cbn [foldl fst snd weight].
  assert (Hm : eadd m x <> e0).
  { rewrite <- sub_is_add. apply sub_nz. set_solver. }
  destruct (IH (emul n m) (emul d (eadd m x))) as [H1 H2]; [|set_solver|].
  { intros E. apply elt_mul_eq_0 in E. tauto. }
  split; [done|]. rewrite H2, sub_is_add. by field.
Qed.

Lemma lagrange_coeff_code xs j (x : K) :
  x ∉ delete j xs ->
  lagrange_coeff (code <$> xs) j (code x) = code (weight x (delete j xs)).
Proof.
  intros Hx. unfold lagrange_coeff.
  pose proof (foldl_skip (fun nd m => (mul (fst nd) m, mul (snd nd) (add m (code x))))
    (code <$> xs) j 0 (1, 1) ltac:(lia)) as E. cbv beta in E. rewrite E, Nat.sub_0_r.
  rewrite <- list_fmap_delete. change (1, 1) with (code (F := F256) e1, code (F := F256) e1).
  rewrite numden_code. destruct (numden_weight x (delete j xs) e1 e1) as [_ H2];
    [apply one_nz|done|].
  rewrite inv_code, mul_code. f_equal. unfold ediv in H2 at 1. rewrite H2. apply mul_div_one.
Qed.

(** ** The weighted sum *)

Fixpoint dot (ws vs : list K) : K :=
  match ws, vs with w :: ws, v :: vs => eadd (emul w v) (dot ws vs) | _, _ => e0 end.

Definition weights (xs : list K) : list K := (fun tr => weight (fst tr) (snd tr)) <$> picks xs.

Definition at_idx (v : list K) (i : nat) : K := default e0 (v !! i).

Lemma lagrange_dot xs f : lagrange xs f = dot (weights xs) (f <$> xs).
Proof.
  unfold lagrange, weights. rewrite <- (picks_fst xs) at 3.
  induction (picks xs) as [|tr ps IH]; [done|]. csimpl. rewrite IH. ring.
Qed.

Lemma picks_lookup {A} (l : list A) j : picks l !! j = (fun x => (x, delete j l)) <$> l !! j.
Proof.
  revert j. induction l as [|a l IH]; intros [|j]; [done..|]. cbn [picks]. simpl lookup.
  rewrite list_lookup_fmap, IH. cbn. by destruct (l !! j).
Qed.

Lemma NoDup_delete_elem {A} (l : list A) j x : base.NoDup l -> l !! j = Some x -> x ∉ delete j l.
Proof.
  intros Hnd Hj. rewrite (delete_take_drop l j), elem_of_app. intros [H|H].
  - apply list_elem_of_lookup in H as (i & (Hi & ?)%lookup_take_Some).
    pose proof (NoDup_lookup _ _ _ _ Hnd Hi Hj). lia.
  - apply list_elem_of_lookup in H as (i & Hi). rewrite lookup_drop in Hi.
    pose proof (NoDup_lookup _ _ _ _ Hnd Hi Hj). lia.
Qed.

(** A list of length [n] as the table of its entries. *)
Lemma as_table (v : list K) n : length v = n -> v = at_idx v <$> seq 0 n.
Proof.
  intros <-. apply list_eq. intros i. rewrite list_lookup_fmap. unfold at_idx.
  destruct (decide (i < length v)%nat) as [Hi|Hi].
  - rewrite lookup_seq_lt by done. simpl. destruct (lookup_lt_is_Some_2 v i Hi) as [x ->]. done.
  - rewrite lookup_seq_ge, lookup_ge_None_2 by lia. done.
Qed.

Lemma accumulate_table (w : K) g h (l : list nat) :
  accumulate (code w) (code <$> (g <$> l)) (code <$> (h <$> l))
  = code <$> ((fun i => eadd (g i) (emul w (h i))) <$> l).
Proof. induction l as [|i l IH]; [done|]. csimpl. by rewrite mul_code, add_code, IH. Qed.

Lemma accumulate_all ws vss g n :
  length vss = length ws -> Forall (fun v => length v = n) vss ->
  foldl (fun acc wv => accumulate (code (fst wv)) acc (code <$> snd wv))
    (code <$> (g <$> seq 0 n)) (zip ws vss)
  = code <$> ((fun i => eadd (g i) (dot ws (flip at_idx i <$> vss))) <$> seq 0 n).
Proof.
  revert vss g. induction ws as [|w ws IH]; intros [|v vss] g Hl Hn; try done.
  - simpl. f_equal. apply list_fmap_ext. intros. ring.
  - apply Forall_cons in Hn as [Hv Hn]. cbn [zip zip_with foldl fst snd].
    rewrite (as_table v n Hv), accumulate_table, IH by (done || simpl in Hl; lia).
    f_equal. apply list_fmap_ext. intros j i Hj. csimpl. rewrite <- (as_table v n Hv). ring.
Qed.

Lemma foldl_fmap {A B C} (f : C -> B -> C) (g : A -> B) a l :
  foldl f a (g <$> l) = foldl (fun acc x => f acc (g x)) a l.
Proof. revert a. induction l as [|x l IH]; intros a; [done|]. csimpl. apply IH. Qed.

Lemma coeffs_are_weights (xs : list K) (vss : list (list K)) :
  base.NoDup xs -> length vss = length xs ->
  (fun jxy : nat * (Z * list Z) =>
     (lagrange_coeff (code <$> xs) (fst jxy) (fst (snd jxy)), snd (snd jxy))) <$>
    zip (seq 0 (length xs)) (zip (code <$> xs) ((fun v : list K => code <$> v) <$> vss))
  = (fun wv : K * list K => (code (fst wv), code <$> snd wv)) <$> zip (weights xs) vss.
Proof.
  intros Hnd Hl. apply list_eq. intros j. rewrite !list_lookup_fmap.
  destruct (decide (j < length xs)%nat) as [Hj|Hj].
  - destruct (lookup_lt_is_Some_2 xs j Hj) as [x Hx].
    destruct (lookup_lt_is_Some_2 vss j) as [v Hv]; [lia|].
    rewrite !lookup_zip_with, lookup_seq_lt, !list_lookup_fmap, Hx, Hv by done. unfold weights.
    rewrite list_lookup_fmap, picks_lookup, Hx. simpl.
    rewrite lagrange_coeff_code by by apply NoDup_delete_elem. done.
  - rewrite !lookup_ge_None_2; [done|..].
    + rewrite length_zip_with. lia.
    + rewrite length_zip_with, length_seq. lia.
Qed.

Lemma weighted_sum_code (xs : list K) (vss : list (list K)) n :
  base.NoDup xs -> length vss = length xs -> Forall (fun v => length v = n) vss ->
  weighted_sum n (code <$> xs) ((fun v : list K => code <$> v) <$> vss)
  = code <$> ((fun i => dot (weights xs) (flip at_idx i <$> vss)) <$> seq 0 n).
Proof.
  intros Hnd Hl Hn. unfold weighted_sum. rewrite length_fmap.
  assert (Hz : replicate n 0 = code <$> ((fun _ => e0 : K) <$> seq 0 n)).
  { apply replicate_as_elem_of. rewrite !length_fmap, length_seq. split; [done|].
    intros y (c & -> & Hc)%list_elem_of_fmap. apply list_elem_of_fmap in Hc as (? & -> & _). done. }
  pose proof (f_equal (foldl (fun acc cv => accumulate (fst cv) acc (snd cv)) (replicate n 0))
    (coeffs_are_weights xs vss Hnd Hl)) as E.
  rewrite !foldl_fmap in E. cbn [fst snd] in E. etransitivity; [|etransitivity; [exact E|]].
  - clear. generalize (replicate n 0).
    induction (zip (seq 0 (length xs)) _) as [|[j [x y]] l IH]; intros a; [done|]. simpl. apply IH.
  - rewrite Hz, (accumulate_all (weights xs) vss) by
      (done || (unfold weights; rewrite length_fmap, <- (length_fmap fst), picks_fst; done)).
    f_equal. apply list_fmap_ext. intros. ring.
Qed.

(** ** Reconstruction of polynomial evaluations *)

Lemma has_duplicate_spec xs : has_duplicate xs = false <-> base.NoDup xs.
Proof.
  induction xs as [|a xs IH]; simpl; [by split; [constructor|]|].
  rewrite orb_false_iff, IH, NoDup_cons. apply and_iff_compat_r.
  rewrite <- not_true_iff_false, existsb_exists. setoid_rewrite Z.eqb_eq.
  setoid_rewrite <- list_elem_of_In. naive_solver.
Qed.

Lemma NoDup_codes (xs : list K) : base.NoDup xs -> base.NoDup (code <$> xs).
Proof. apply NoDup_fmap_2. intros x y. apply code_inj. Qed.

(** The share of a vector of polynomials at [x]. *)
Definition share_at (polys : list (list K)) (x : K) : Share :=
  mk_share (code x) ((fun p => code (peval p x)) <$> polys).

Lemma share_at_y polys x : sy (share_at polys x) = code <$> (flip peval x <$> polys).
Proof. unfold share_at. cbn [sy]. by rewrite <- list_fmap_compose. Qed.

(** A table over the indices of [l] is a map over [l]. *)
Lemma column_table {A B} (f : nat -> B) (g : A -> B) (h : B -> Z) (l : list A) :
  (forall i a, l !! i = Some a -> f i = g a) ->
  h <$> (f <$> seq 0 (length l)) = (fun a => h (g a)) <$> l.
Proof.
  intros H. rewrite <- list_fmap_compose. apply list_eq. intros i. rewrite !list_lookup_fmap.
  destruct (decide (i < length l)%nat) as [Hi|Hi].
  - rewrite lookup_seq_lt by done. destruct (lookup_lt_is_Some_2 l i Hi) as [a Ha].
    rewrite Ha. simpl. by rewrite (H i a Ha).
  - rewrite lookup_seq_ge, lookup_ge_None_2 by lia. done.
Qed.

Lemma reconstruct_evals polys xs :
  xs <> [] -> base.NoDup xs -> e0 ∉ xs -> Forall (fun p => length p <= length xs)%nat polys ->
  reconstruct (share_at polys <$> xs) = Ok ((fun p => code (peval p e0)) <$> polys).
Proof.
  intros Hne Hnd H0 Hp. unfold reconstruct. destruct xs as [|x0 xs0] eqn:Exs; [done|].
  rewrite <- Exs in *. assert (Hh : head (share_at polys <$> xs) = Some (share_at polys x0)).
  { by rewrite Exs. }
  rewrite Hh. cbn [ok_or rbind]. assert (Hlen : length (sy (share_at polys x0)) = length polys).
  { unfold share_at. cbn [sy]. by rewrite length_fmap. }
  rewrite Hlen. replace (existsb _ _) with false.
  2: { symmetry. apply not_true_iff_false. rewrite existsb_exists.
       intros (s & Hs%list_elem_of_In & E). apply list_elem_of_fmap in Hs as (x & -> & Hx).
       unfold share_at in E. cbn [sx sy] in E. rewrite length_fmap, Nat.eqb_refl in E. simpl in E.
       rewrite Z.eqb_eq in E. change 0 with (code (e0 : K)) in E. apply code_inj in E. by subst. }
  rewrite <- !list_fmap_compose. unfold compose. cbn [sx share_at].
  rewrite (proj2 (has_duplicate_spec _)) by by apply NoDup_codes. f_equal.
  replace ((fun x => sy (share_at polys x)) <$> xs)
    with ((fun v : list K => code <$> v) <$> ((fun x => flip peval x <$> polys) <$> xs)).
  2: { rewrite <- list_fmap_compose. apply list_fmap_ext. intros. by rewrite share_at_y. }
  rewrite weighted_sum_code; [|done|by rewrite length_fmap|].
  2: { apply Forall_fmap, Forall_true. intros x. simpl. by rewrite length_fmap. }
  apply column_table. intros i p Hi. rewrite <- list_fmap_compose.
  rewrite <- (lagrange_at_zero xs p Hne Hnd), lagrange_dot.
  - f_equal. apply list_fmap_ext. intros j x _. unfold compose. simpl. unfold at_idx.
    by rewrite list_lookup_fmap, Hi.
  - rewrite Forall_forall in Hp. apply Hp. by eapply list_elem_of_lookup_2.
Qed.

(** ** What [split] computes *)

(** The coefficients of byte [i]'s polynomial in [randomness], top first. *)
Definition coeffs (R : list K) (len d i : nat) : list K :=
  (fun c => at_idx R (c * len + i)) <$> seq 0 d.

Definition byte_poly (R : list K) (len d : nat) (is0 : nat * K) : list K :=
  snd is0 :: reverse (coeffs R len d (fst is0)).

Definition polys_of (S R : list K) (d : nat) : list (list K) :=
  byte_poly R (length S) d <$> zip (seq 0 (length S)) S.

Definition toK (x : Z) : K :=
  match decide (canon F256 x) with left H => elt_of x H | right _ => e0 end.

Lemma code_toK x : is_u8 x -> code (toK x) = x.
Proof. intros H. unfold toK. destruct (decide _) as [|n]; [done|]. by destruct n. Qed.

Lemma toK_code (x : K) : toK (code x) = x.
Proof. apply code_inj, code_toK, u8_canon, code_in. Qed.

Lemma foldl_horner (l : list K) x :
  foldl (fun acc a => eadd (emul acc x) a) e0 l = peval (reverse l) x.
Proof.
  induction l as [|a l IH] using rev_ind; [done|].
  rewrite foldl_app, reverse_app. cbn [foldl]. rewrite IH. simpl. ring.
Qed.

Lemma horner_code R len i (x : K) cs acc :
  (forall c, c ∈ cs -> c * len + i < length R)%nat ->
  horner (code <$> R) len i (code x) cs (code acc)
  = Ok (code (foldl (fun acc a => eadd (emul acc x) a) acc
         ((fun c => at_idx R (c * len + i)) <$> cs))).
Proof.
  revert acc. induction cs as [|c cs IH]; intros acc H; [done|]. cbn [horner].
  destruct (lookup_lt_is_Some_2 R (c * len + i)) as [a Ha]; [apply H; left|].
  rewrite list_lookup_fmap, Ha. cbn [fmap option_fmap option_map ok_or rbind].
  rewrite mul_code, add_code, IH by (intros; apply H; by right). csimpl.
  unfold at_idx at 2. by rewrite Ha.
Qed.

Lemma eval_byte_code R len d (x : K) i s0 :
  (d * len <= length R)%nat -> (i < len)%nat ->
  eval_byte (code <$> R) len d (code x) (i, code s0)
  = Ok (code (peval (byte_poly R len d (i, s0)) x)).
Proof.
  intros HR Hi. unfold eval_byte. change 0 with (code (e0 : K)). rewrite horner_code.
  - cbn [rbind]. rewrite mul_code, add_code, foldl_horner. do 2 f_equal.
    unfold byte_poly. cbn [peval fst snd]. unfold coeffs. ring.
  - intros c Hc%elem_of_seq. nia.
Qed.

Lemma split_evals (S R : list K) t n :
  1 <= t <= n -> n <= 255 -> (Z.to_nat (t - 1) * length S <= length R)%nat ->
  split (code <$> S) t n (code <$> R)
  = Ok (share_at (polys_of S R (Z.to_nat (t - 1))) ∘ toK <$> seqZ 1 n).
Proof.
  intros Ht Hn HR. unfold split. rewrite !length_fmap.
  replace ((t =? 0) || (n <? t))%bool with false
    by (symmetry; rewrite orb_false_iff, Z.eqb_neq, Z.ltb_ge; lia).
  rewrite (proj2 (Z.eqb_neq n 0)), (proj2 (Nat.ltb_ge _ _)) by lia.
  apply rmapM_total. intros x Hx%elem_of_seqZ.
  set (d := Z.to_nat (t - 1)) in *. unfold compose, share_at.
  rewrite code_toK by (unfold in_u; lia).
  rewrite (rmapM_total _ (fun is0 => code (peval (byte_poly R (length S) d (fst is0, toK (snd is0))) (toK x)))).
  - cbn [rbind]. do 2 f_equal. unfold polys_of. set (L := length S).
    generalize (seq 0 L). clear. clearbody L.
    induction S as [|s S IH]; intros [|i is0]; csimpl; try done. rewrite toK_code, IH. reflexivity.
  - intros [i s0] H. apply list_elem_of_lookup in H as (k & Hk).
    rewrite lookup_zip_with in Hk. destruct (seq 0 (length S) !! k) as [i'|] eqn:Ei; [|done].
    rewrite list_lookup_fmap in Hk. destruct (S !! k) as [s'|] eqn:Es; [|done].
    simpl in Hk. injection Hk as <- <-. apply lookup_seq in Ei as [-> Hlt].
    cbn [fst snd]. rewrite toK_code. rewrite <- (code_toK x) at 1 by (unfold in_u; lia).
    by apply eval_byte_code.
Qed.

Lemma polys_of_length S R d p : p ∈ polys_of S R d -> length p = Datatypes.S d.
Proof.
  intros (is0 & -> & _)%list_elem_of_fmap. unfold byte_poly, coeffs. simpl.
  by rewrite length_reverse, length_fmap, length_seq.
Qed.

Lemma zip_seq_snd {A} (l : list A) k : (zip (seq k (length l)) l).*2 = l.
Proof. revert k. induction l as [|a l IH]; intros k; [done|]. csimpl. by rewrite IH. Qed.

Lemma polys_of_secret S R d : (fun p => code (peval p e0)) <$> polys_of S R d = code <$> S.
Proof.
  unfold polys_of. rewrite <- list_fmap_compose. rewrite <- (zip_seq_snd S 0) at 4.
  rewrite <- list_fmap_compose. apply list_fmap_ext. intros k is0 _. unfold compose, byte_poly. cbn [peval].
  apply code_eq. ring.
Qed.

(** A duplicate-free selection of shares is the evaluation at distinct non-zero points. *)
Lemma selection_evals polys n (sel : list Share) :
  n <= 255 -> base.NoDup sel ->
  (forall s, s ∈ sel -> s ∈ share_at polys ∘ toK <$> seqZ 1 n) ->
  exists xs, sel = share_at polys <$> xs /\ base.NoDup xs /\ e0 ∉ xs.
Proof.
  intros Hn Hnd Hin. exists (toK ∘ sx <$> sel).
  assert (Hs : forall s, s ∈ sel -> s = share_at polys (toK (sx s)) /\ 1 <= sx s <= 255).
  { intros s Hs%Hin. apply list_elem_of_fmap in Hs as (x & -> & Hx%elem_of_seqZ).
    unfold compose, share_at. cbn [sx]. rewrite toK_code, code_toK by (unfold in_u; lia).
    split; [done|lia]. }
  split; [|split].
  - rewrite <- list_fmap_compose. rewrite <- (list_fmap_id sel) at 1. apply list_fmap_ext.
    intros k s Hk%list_elem_of_lookup_2. by apply Hs.
  - apply NoDup_fmap_2_strong; [|done]. intros s1 s2 H1 H2 E. unfold compose in E.
    rewrite (proj1 (Hs s1 H1)), (proj1 (Hs s2 H2)), E. done.
  - intros (s & E & H)%list_elem_of_fmap. destruct (Hs s H) as [_ Hx].
    apply (f_equal code) in E. unfold compose in E. rewrite code_toK in E by (unfold in_u; lia).
    simpl in E. lia.
Qed.

Lemma reconstruct_selection S R t n sel :
  1 <= t <= n -> n <= 255 -> base.NoDup sel ->
  (forall s, s ∈ sel -> s ∈ share_at (polys_of S R (Z.to_nat (t - 1))) ∘ toK <$> seqZ 1 n) ->
  t <= Z.of_nat (length sel) -> reconstruct sel = Ok (code <$> S).
Proof.
  intros Ht Hn Hnd Hin Hlen.
  destruct (selection_evals _ _ _ Hn Hnd Hin) as (xs & -> & Hxs & H0).
  rewrite length_fmap in Hlen. rewrite reconstruct_evals, polys_of_secret; [done| |done|done|].
  - intros ->. simpl in Hlen. lia.
  - apply Forall_forall. intros p Hp%polys_of_length. lia.
Qed.

(** ** Below the threshold *)

(** What the holders of the points [xs] see of a sharing. *)
Definition view (xs : list Z) (r : result (list Share) ShamirError) : list Share :=
  match r with Ok ss => filter (fun s => sx s ∈ xs) ss | Err _ => [] end.

Lemma view_evals xs polys n :
  n <= 255 ->
  view xs (Ok (share_at polys ∘ toK <$> seqZ 1 n))
  = share_at polys ∘ toK <$> filter (fun x => x ∈ xs) (seqZ 1 n).
Proof.
  intros Hn. unfold view. assert (Hs : Forall (fun x => 1 <= x <= 255) (seqZ 1 n)).
  { apply Forall_forall. intros x ?%elem_of_seqZ. lia. }
  induction Hs as [|x l Hx _ IH]; [done|]. rewrite fmap_cons, !filter_cons, IH.
  assert (Ex : sx ((share_at polys ∘ toK) x) = x).
  { apply code_toK. unfold in_u. lia. }
  rewrite Ex. by case_decide.
Qed.

Lemma finite_choice (P : nat -> list K -> Prop) n :
  (forall i, (i < n)%nat -> exists q, P i q) -> exists f, forall i, (i < n)%nat -> P i (f i).
Proof.
  intros H. induction n as [|n IH]; [exists (fun _ => []); lia|].
  destruct IH as [f Hf]; [intros; apply H; lia|]. destruct (H n) as [q Hq]; [lia|].
  exists (fun i => if decide (i = n) then q else f i). intros i Hi.
  destruct (decide (i = n)) as [->|]; [done|]. apply Hf. lia.
Qed.

(** The randomness whose byte [i] has the coefficients [C i]. *)
Definition pack (C : nat -> list K) (len d : nat) : list K :=
  (fun k => at_idx (C (k mod len)%nat) (k / len)) <$> seq 0 (d * len).

Lemma at_idx_pack C len d c i :
  (i < len)%nat -> (c < d)%nat -> at_idx (pack C len d) (c * len + i) = at_idx (C i) c.
Proof.
  intros Hi Hc. unfold pack. unfold at_idx at 1. rewrite list_lookup_fmap, lookup_seq_lt by nia.
  simpl. rewrite Nat.add_comm, Nat.Div0.mod_add, Nat.mod_small, Nat.div_add, Nat.div_small by lia.
  done.
Qed.

Lemma coeffs_pack C len d i :
  (i < len)%nat -> length (C i) = d -> coeffs (pack C len d) len d i = C i.
Proof.
  intros Hi Hl. rewrite (as_table (C i) d Hl). unfold coeffs. apply list_fmap_ext.
  intros k c Hc. apply lookup_seq in Hc as [-> Hc]. simpl. by apply at_idx_pack.
Qed.

(** Randomness is determined by its coefficient lists. *)
Lemma coeffs_determine R R' len d :
  length R = (d * len)%nat -> length R' = (d * len)%nat ->
  (forall i, (i < len)%nat -> coeffs R len d i = coeffs R' len d i) -> R = R'.
Proof.
  intros HR HR' H. rewrite (as_table R _ HR), (as_table R' _ HR'). apply list_fmap_ext.
  intros k k' Hk. apply lookup_seq in Hk as [-> Hk]. simpl.
  assert (Hlen : len <> 0%nat) by lia.
  assert (Hc : (k / len < d)%nat) by (apply Nat.Div0.div_lt_upper_bound; lia).
  pose proof (Nat.mod_upper_bound k len Hlen) as Hm.
  specialize (H _ Hm). apply (f_equal (fun l => l !! (k / len)%nat)) in H. unfold coeffs in H.
  rewrite !list_lookup_fmap, lookup_seq_lt in H by done. simpl in H. injection H as H.
  replace (k / len * len + k mod len)%nat with k in H; [done|].
  rewrite (Nat.div_mod_eq k len) at 1. lia.
Qed.

Lemma polys_of_lookup S R d i s : S !! i = Some s ->
  polys_of S R d !! i = Some (byte_poly R (length S) d (i, s)).
Proof.
  intros Hi. unfold polys_of. rewrite list_lookup_fmap, lookup_zip_with.
  rewrite lookup_seq_lt by (by eapply lookup_lt_Some). by rewrite Hi.
Qed.

(** Two sharings look alike at [x] iff their byte polynomials agree there. *)
Lemma share_at_eq S S' R R' d x :
  length S = length S' ->
  (share_at (polys_of S R d) x = share_at (polys_of S' R' d) x <->
   forall i s s', S !! i = Some s -> S' !! i = Some s' ->
     peval (byte_poly R (length S) d (i, s)) x = peval (byte_poly R' (length S) d (i, s')) x).
Proof.
  intros Hl. unfold share_at. split.
  - intros [= E] i s s' Hs Hs'. apply (f_equal (fun l => l !! i)) in E.
    rewrite !list_lookup_fmap, (polys_of_lookup _ _ _ _ s), (polys_of_lookup _ _ _ _ s') in E by done.
    simpl in E. injection E as E. rewrite Hl at 2. by apply code_inj.
  - intros H. f_equal. apply list_eq. intros i. rewrite !list_lookup_fmap.
    destruct (S !! i) as [s|] eqn:Hs.
    + destruct (lookup_lt_is_Some_2 S' i) as [s' Hs']; [rewrite <- Hl; by eapply lookup_lt_Some|].
      rewrite (polys_of_lookup _ _ _ _ s), (polys_of_lookup _ _ _ _ s') by done.
      cbn [fmap option_fmap option_map]. rewrite (H i s s') by done. by rewrite Hl.
    + apply lookup_ge_None in Hs. rewrite !lookup_ge_None_2; [done|..];
        unfold polys_of; rewrite length_fmap, length_zip_with, length_seq; lia.
Qed.

Lemma hide_exists (S S' R : list K) (X : list K) d :
  length S' = length S -> base.NoDup X -> e0 ∉ X -> length X = d ->
  exists R', length R' = (d * length S)%nat /\
    forall x, x ∈ X -> share_at (polys_of S' R' d) x = share_at (polys_of S R d) x.
Proof.
  intros Hl Hnd H0 Hd. set (len := length S).
  destruct (finite_choice (fun i q => length q = d /\ forall x s s', x ∈ X ->
    S !! i = Some s -> S' !! i = Some s' ->
    peval (byte_poly R len d (i, s)) x = peval (s' :: reverse q) x) len) as [C HC].
  { intros i Hi. destruct (lookup_lt_is_Some_2 S i Hi) as [s Hs].
    destruct (lookup_lt_is_Some_2 S' i) as [s' Hs']; [lia|].
    destruct (interpolate X (fun x => ediv (esub (peval (byte_poly R len d (i, s)) x) s') x) Hnd)
      as (q & Hq & Hval).
    exists (reverse q). rewrite length_reverse, reverse_involutive. split; [lia|].
    intros x t t' Hx Ht Ht'. simplify_eq. cbn [peval]. rewrite (Hval x Hx).
    assert (x <> e0) by congruence. by field. }
  exists (pack C len d). split; [unfold pack; by rewrite length_fmap, length_seq|].
  intros x Hx. apply share_at_eq; [done|]. intros i s' s Hs' Hs. rewrite Hl. fold len.
  assert (Hi : (i < len)%nat) by (by eapply lookup_lt_Some).
  destruct (HC i Hi) as [HCl HCv]. rewrite (HCv x s s' Hx Hs Hs'). unfold byte_poly.
  cbn [fst snd]. by rewrite coeffs_pack.
Qed.

Lemma hide_unique (S' R1 R2 : list K) (X : list K) d :
  base.NoDup X -> e0 ∉ X -> length X = d ->
  length R1 = (d * length S')%nat -> length R2 = (d * length S')%nat ->
  (forall x, x ∈ X -> share_at (polys_of S' R1 d) x = share_at (polys_of S' R2 d) x) -> R1 = R2.
Proof.
  intros Hnd H0 Hd H1 H2 H. apply (coeffs_determine _ _ (length S') d); [done..|].
  intros i Hi. destruct (lookup_lt_is_Some_2 S' i Hi) as [s' Hs'].
  assert (E : byte_poly R1 (length S') d (i, s') = byte_poly R2 (length S') d (i, s')).
  { apply (interpolant_unique _ _ (e0 :: X)); [by constructor| | |].
    - unfold byte_poly, coeffs. simpl. by rewrite !length_reverse, !length_fmap.
    - unfold byte_poly, coeffs. simpl. rewrite length_reverse, length_fmap, length_seq. lia.
    - intros x [->|Hx]%elem_of_cons.
      + unfold byte_poly. cbn [peval snd]. ring.
      + by apply (proj1 (share_at_eq S' S' R1 R2 d x eq_refl) (H x Hx) i s' s'). }
  unfold byte_poly in E. cbn [fst snd] in E. injection E as E. by apply (inj reverse).
Qed.

Lemma fmap_eq_elem {A B} (f g : A -> B) (l : list A) :
  f <$> l = g <$> l -> forall x, x ∈ l -> f x = g x.
Proof.
  induction l as [|a l IH]; intros E x Hx; [by apply elem_of_nil in Hx|]. csimpl in E.
  injection E as E1 E2. apply elem_of_cons in Hx as [->|Hx]; auto.
Qed.

Lemma view_eq_iff S S' R R' t n xs :
  1 <= t <= n -> n <= 255 -> length S' = length S -> (forall x, x ∈ xs -> 1 <= x <= n) ->
  (Z.to_nat (t - 1) * length S <= length R)%nat -> (Z.to_nat (t - 1) * length S <= length R')%nat ->
  let d := Z.to_nat (t - 1) in
  view xs (split (code <$> S') t n (code <$> R')) = view xs (split (code <$> S) t n (code <$> R)) <->
  forall x, x ∈ toK <$> xs -> share_at (polys_of S' R' d) x = share_at (polys_of S R d) x.
Proof.
  intros Ht Hn Hl Hin HR HR' d. rewrite !split_evals, !view_evals by lia. fold d. split.
  - intros E x (z & -> & Hz)%list_elem_of_fmap. apply (fmap_eq_elem _ _ _ E z).
    apply list_elem_of_filter. split; [done|]. apply elem_of_seqZ. apply Hin in Hz. lia.
  - intros H. apply list_fmap_ext. intros k x Hx%list_elem_of_lookup_2.
    apply list_elem_of_filter in Hx as [Hx _]. apply H. by apply list_elem_of_fmap_2.
Qed.

(** The points of a set of holders in the carrier. *)
Lemma holders xs n :
  n <= 255 -> base.NoDup xs -> (forall x, x ∈ xs -> 1 <= x <= n) ->
  base.NoDup (toK <$> xs) /\ e0 ∉ toK <$> xs.
Proof.
  intros Hn Hnd Hin. split.
  - apply NoDup_fmap_2_strong; [|done]. intros x y Hx%Hin Hy%Hin E.
    rewrite <- (code_toK x), <- (code_toK y), E by (unfold in_u; lia). done.
  - intros (x & E & Hx%Hin)%list_elem_of_fmap. apply (f_equal code) in E.
    rewrite code_toK in E by (unfold in_u; lia). simpl in E. lia.
Qed.

(** ** Resharing *)

Definition pcomb (ws : list K) (ps : list (list K)) : list K :=
  foldr (fun wp acc => padd (pscale (fst wp) (snd wp)) acc) [] (zip ws ps).

Lemma peval_pcomb ws ps x : peval (pcomb ws ps) x = dot ws (flip peval x <$> ps).
Proof.
  revert ps. induction ws as [|w ws IH]; intros [|p ps]; [done..|]. unfold pcomb in *. csimpl.
  by rewrite peval_padd, peval_pscale, IH.
Qed.

Lemma length_pcomb ws ps n :
  Forall (fun p => length p <= n)%nat ps -> (length (pcomb ws ps) <= n)%nat.
Proof.
  intros H. revert ws. induction H as [|p ps Hp _ IH]; intros [|w ws]; unfold pcomb in *; simpl; try lia.
  rewrite length_padd. specialize (IH ws). unfold pscale at 1. rewrite length_fmap. lia.
Qed.

(** Byte [i]'s polynomials of all contributors, and their Lagrange combination. *)
Definition nth_polys (Ps : list (list (list K))) (i : nat) : list (list K) :=
  (fun ps => default [] (ps !! i)) <$> Ps.

Definition combined (X : list K) (Ps : list (list (list K))) (n : nat) : list (list K) :=
  (fun i => pcomb (weights X) (nth_polys Ps i)) <$> seq 0 n.

Lemma shares_y (Ps : list (list (list K))) x :
  sy <$> ((fun ps => share_at ps x) <$> Ps)
  = (fun v : list K => code <$> v) <$> ((fun ps : list (list K) => flip peval x <$> ps) <$> Ps).
Proof. rewrite <- !list_fmap_compose. apply list_fmap_ext. intros. apply share_at_y. Qed.

Lemma combine_evals (X : list K) (Ps : list (list (list K))) n x :
  x <> e0 -> X <> [] -> base.NoDup X -> e0 ∉ X -> length Ps = length X ->
  Forall (fun ps => length ps = n) Ps ->
  combine_contributions (code x) ((fun ps => share_at ps x) <$> Ps) (code <$> X)
  = Ok (share_at (combined X Ps n) x).
Proof.
  intros Hx HX Hnd H0 Hl Hn. unfold combine_contributions. rewrite !length_fmap, Hl, Nat.eqb_refl.
  rewrite (proj2 (Z.eqb_neq _ _)), (proj2 (Nat.eqb_neq _ _)); [|by destruct X|].
  2: { intros E. apply Hx. by apply code_inj. }
  cbn [orb negb]. assert (Hh : exists ps0, ps0 ∈ Ps /\
    head ((fun ps => share_at ps x) <$> Ps) = Some (share_at ps0 x)).
  { destruct Ps as [|ps0 Ps0]; [by destruct X|]. exists ps0. split; [left|done]. }
  destruct Hh as (ps0 & Hin0 & ->). cbn [ok_or rbind].
  assert (Hlen : length (sy (share_at ps0 x)) = n).
  { unfold share_at. cbn [sy]. rewrite length_fmap. rewrite Forall_forall in Hn. by apply Hn. }
  rewrite Hlen.
  replace (existsb _ _ || existsb _ _)%bool with false.
  2: { symmetry. apply orb_false_iff. rewrite <- !not_true_iff_false, !existsb_exists. split.
       - intros (s & Hs%list_elem_of_In & E). apply list_elem_of_fmap in Hs as (ps & -> & Hps).
         rewrite Forall_forall in Hn. unfold share_at in E. cbn [sy] in E.
         by rewrite length_fmap, (Hn ps Hps), Nat.eqb_refl in E.
       - intros (z & Hz%list_elem_of_In & E). apply list_elem_of_fmap in Hz as (y & -> & Hy).
         rewrite Z.eqb_eq in E. change 0 with (code (e0 : K)) in E. apply code_inj in E. by subst. }
  rewrite (proj2 (has_duplicate_spec _)) by by apply NoDup_codes. rewrite shares_y.
  f_equal. unfold share_at. f_equal.
  rewrite weighted_sum_code; [|done|by rewrite length_fmap|].
  2: { apply Forall_fmap. eapply Forall_impl; [exact Hn|]. intros ps. simpl. by rewrite length_fmap. }
  unfold combined. rewrite <- !list_fmap_compose. apply list_fmap_ext. intros _ i _.
  unfold compose. rewrite peval_pcomb. do 2 f_equal. unfold nth_polys.
  rewrite <- !list_fmap_compose. apply list_fmap_ext. intros _ ps _. unfold compose, at_idx. simpl.
  rewrite list_lookup_fmap. by destruct (ps !! i).
Qed.

(** The sub-shares member [x] of the new committee receives. *)
Definition contribution_for (x : Z) (subs : list (list Share)) : list Share :=
  omap (fun ss => ss !! Z.to_nat (x - 1)) subs.

Definition reshared (polys : list (list K)) (d : nat) (xR : K * list K) : list (list K) :=
  polys_of (flip peval (fst xR) <$> polys) (snd xR) d.

Lemma rmapM_fmap {A B C E} (f : B -> result C E) (g : A -> B) l :
  rmapM f (g <$> l) = rmapM (fun x => f (g x)) l.
Proof. induction l as [|x l IH]; [done|]. csimpl. by rewrite IH. Qed.

Lemma contribution_for_evals (Ps : list (list (list K))) n x :
  1 <= x <= n -> n <= 255 ->
  contribution_for x ((fun P => share_at P ∘ toK <$> seqZ 1 n) <$> Ps)
  = (fun P => share_at P (toK x)) <$> Ps.
Proof.
  intros Hx Hn. unfold contribution_for. induction Ps as [|P Ps IH]; [done|]. rewrite !fmap_cons.
  cbn [omap list_omap]. rewrite list_lookup_fmap.
  rewrite (proj2 (lookup_seqZ 1 n _ x)) by lia. cbn. f_equal. exact IH.
Qed.

Lemma reshared_at_zero polys d X Rs i p :
  length Rs = length X -> polys !! i = Some p ->
  flip peval e0 <$> nth_polys (reshared polys d <$> zip X Rs) i = peval p <$> X.
Proof.
  intros Hl Hi. unfold nth_polys. rewrite <- !list_fmap_compose.
  rewrite <- (fst_zip X Rs) at 2 by lia. rewrite <- list_fmap_compose. apply list_fmap_ext.
  intros k [x R] _. unfold compose, reshared. cbn [fst snd flip].
  rewrite (polys_of_lookup _ _ _ _ (peval p x)) by (rewrite list_lookup_fmap, Hi; done).
  unfold byte_poly. cbn. ring.
Qed.

Lemma combined_secret polys d X Rs :
  X <> [] -> base.NoDup X -> length Rs = length X ->
  Forall (fun p => length p <= length X)%nat polys ->
  (fun G => code (peval G e0)) <$> combined X (reshared polys d <$> zip X Rs) (length polys)
  = (fun p => code (peval p e0)) <$> polys.
Proof.
  intros HX Hnd Hl Hp. unfold combined.
  etransitivity; [|apply (column_table (fun i => peval (pcomb (weights X)
    (nth_polys (reshared polys d <$> zip X Rs) i)) e0) (fun p => peval p e0) code polys)].
  - rewrite <- !list_fmap_compose. done.
  - intros i p Hi. rewrite peval_pcomb, (reshared_at_zero _ _ _ _ _ p) by done.
    rewrite <- lagrange_dot. apply lagrange_at_zero; [done..|].
    rewrite Forall_forall in Hp. apply Hp. by eapply list_elem_of_lookup_2.
Qed.

Lemma lift_randomness rs n :
  Forall (fun r => is_bytes r /\ (n <= length r)%nat) rs ->
  exists Rs : list (list K), rs = (fun R : list K => code <$> R) <$> Rs /\
    Forall (fun R => n <= length R)%nat Rs.
Proof.
  induction 1 as [|r rs [(R & ->)%lift_bytes Hl] _ (Rs & -> & HRs)]; [by exists []; split; [|constructor]|].
  exists (R :: Rs). split; [done|]. constructor; [by rewrite length_fmap in Hl|done].
Qed.

Lemma zip_fmap2 {A B C D} (f : A -> C) (g : B -> D) l k :
  zip (f <$> l) (g <$> k) = (fun ab => (f (fst ab), g (snd ab))) <$> zip l k.
Proof. revert k. induction l as [|a l IH]; intros [|b k]; [done..|]. csimpl. by rewrite IH. Qed.

(** The shares of a sharing and what any quorum of them reconstructs. *)
Lemma split_selection (secret randomness : list Z) (t n : Z) :
  is_bytes secret -> is_bytes randomness -> 1 <= t <= n -> n <= 255 ->
  (Z.to_nat (t - 1) * length secret <= length randomness)%nat ->
  exists shares, split secret t n randomness = Ok shares /\ Z.of_nat (length shares) = n /\
    (forall i s, shares !! i = Some s ->
      sx s = Z.of_nat i + 1 /\ length (sy s) = length secret /\ is_bytes (sy s)) /\
    forall sel, base.NoDup sel -> (forall s, s ∈ sel -> s ∈ shares) ->
      t <= Z.of_nat (length sel) -> reconstruct sel = Ok secret.
Proof.
  intros (S & ->)%lift_bytes (R & ->)%lift_bytes Ht Hn HR. rewrite !length_fmap in HR.
  eexists. split; [by apply split_evals|]. split; [rewrite length_fmap, length_seqZ; lia|]. split.
  - intros i s Hs. rewrite list_lookup_fmap in Hs.
    destruct (seqZ 1 n !! i) as [x|] eqn:Ex; [|done]. apply lookup_seqZ in Ex as [-> Hi].
    injection Hs as <-. unfold compose. rewrite share_at_y. unfold share_at. cbn [sx].
    rewrite code_toK by (unfold in_u; lia). split; [lia|]. split; [|apply codes_bytes].
    rewrite !length_fmap. unfold polys_of. rewrite length_fmap, length_zip_with, length_seq. lia.
  - intros sel Hnd Hin Hlen. by apply (reconstruct_selection S R t n).
Qed.

End Spec.

(** C24: any threshold-sized selection of distinct shares reconstructs the secret: for every
    secret, every polynomial randomness and every [1 <= t <= n <= 255], [split] succeeds
    with [n] shares, and [reconstruct] of any [t] or more distinct ones returns the secret. *)
Theorem reconstruct_recovers_secret (secret randomness : list Z) (t n : Z) :
  is_bytes secret -> is_bytes randomness -> 1 <= t <= n -> n <= 255 ->
  (Z.to_nat (t - 1) * length secret <= length randomness)%nat ->
  exists shares, split secret t n randomness = Ok shares /\ Z.of_nat (length shares) = n /\
    forall sel, base.NoDup sel -> (forall s, s ∈ sel -> s ∈ shares) ->
      t <= Z.of_nat (length sel) -> reconstruct sel = Ok secret.
Proof.
  intros H1 H2 H3 H4 H5. destruct (split_selection _ _ _ _ H1 H2 H3 H4 H5) as (shares & ? & ? & _ & ?). eauto.
Qed.

Lemma reconstruct_recovers_secret_witness :
  exists shares, split [42; 7] 2 3 [9; 200] = Ok shares /\ Z.of_nat (length shares) = 3.
Proof.
  destruct (reconstruct_recovers_secret [42; 7] [9; 200] 2 3) as (shares & H1 & H2 & _);
    [by_decide|by_decide|by_decide|by_decide|by_decide|].
  exists shares. split; assumption.
Defined.

(** Proactive resharing keeps the secret: when any old quorum re-splits its own shares
    to a new committee and every new member combines the contributions it received, any new
    quorum of the resulting shares reconstructs the original secret. *)
Theorem reshare_preserves_secret (secret randomness : list Z) (told nold t n : Z) :
  is_bytes secret -> is_bytes randomness -> 1 <= told <= nold -> nold <= 255 ->
  1 <= t <= n -> n <= 255 ->
  (Z.to_nat (told - 1) * length secret <= length randomness)%nat ->
  exists olds, split secret told nold randomness = Ok olds /\
    forall sel rs, base.NoDup sel -> (forall s, s ∈ sel -> s ∈ olds) ->
      told <= Z.of_nat (length sel) -> length rs = length sel ->
      Forall (fun r => is_bytes r /\ (Z.to_nat (t - 1) * length secret <= length r)%nat) rs ->
      exists subs news,
        rmapM (fun sr => split (sy (fst sr)) t n (snd sr)) (zip sel rs) = Ok subs /\
        rmapM (fun x => combine_contributions x (contribution_for x subs) (sx <$> sel))
          (seqZ 1 n) = Ok news /\
        forall sel', base.NoDup sel' -> (forall s, s ∈ sel' -> s ∈ news) ->
          t <= Z.of_nat (length sel') -> reconstruct sel' = Ok secret.
Proof.
  intros (S & ->)%lift_bytes (R & ->)%lift_bytes Hto Hno Ht Hn HR. rewrite !length_fmap in *.
  set (polys := polys_of S R (Z.to_nat (told - 1))). set (d := Z.to_nat (t - 1)) in *.
  eexists. split; [by apply split_evals|]. intros sel rs Hnd Hin Hlen Hrs HF.
  destruct (selection_evals _ _ _ Hno Hnd Hin) as (X & -> & HX & H0). rewrite !length_fmap in *.
  destruct (lift_randomness _ _ HF) as (Rs & -> & HRs). rewrite length_fmap in Hrs.
  assert (HXne : X <> []) by (intros ->; simpl in Hlen; lia).
  assert (Hpl : length polys = length S).
  { unfold polys, polys_of. rewrite length_fmap, length_zip_with, length_seq. lia. }
  set (Ps := reshared polys d <$> zip X Rs).
  exists ((fun P => share_at P ∘ toK <$> seqZ 1 n) <$> Ps),
    (share_at (combined X Ps (length S)) ∘ toK <$> seqZ 1 n).
  split; [|split].
  - rewrite zip_fmap2, rmapM_fmap. unfold Ps. rewrite <- list_fmap_compose. apply rmapM_total.
    intros [x R'] Hx. cbn [fst snd]. rewrite share_at_y. apply split_evals; [done..|].
    rewrite length_fmap. fold polys d. rewrite Hpl. apply elem_of_zip_r in Hx.
    rewrite Forall_forall in HRs. by apply HRs.
  - apply rmapM_total. intros x Hx%elem_of_seqZ. rewrite contribution_for_evals by lia.
    rewrite <- list_fmap_compose. unfold compose. cbn [sx share_at].
    rewrite <- (code_toK x) at 1 by (unfold in_u; lia). apply combine_evals; try done.
    + intros E%(f_equal code). rewrite code_toK in E by (unfold in_u; lia). simpl in E. lia.
    + unfold Ps. rewrite length_fmap, length_zip_with. lia.
    + apply Forall_fmap, Forall_true. intros xR. unfold compose, reshared, polys_of.
      rewrite length_fmap, length_zip_with, length_seq, length_fmap. lia.
  - intros sel' Hnd' Hin' Hlen'.
    destruct (selection_evals _ _ _ Hn Hnd' Hin') as (Y & -> & HY & HY0). rewrite length_fmap in Hlen'.
    rewrite reconstruct_evals; [|by intros ->; simpl in Hlen'; lia|done|done|].
    + rewrite <- Hpl. unfold Ps. rewrite combined_secret; [|done..|].
      * unfold polys. by rewrite polys_of_secret.
      * apply Forall_forall. intros p Hp%polys_of_length. lia.
    + apply Forall_fmap, Forall_true. intros i. apply length_pcomb. apply Forall_fmap.
      apply Forall_fmap, Forall_true. intros xR. unfold compose, reshared.
      destruct (polys_of _ _ _ !! i) as [p|] eqn:E; [|simpl; lia].
      apply list_elem_of_lookup_2, polys_of_length in E. simpl. lia.
Qed.

Lemma reshare_preserves_secret_witness :
  exists olds, split [42] 2 3 [9] = Ok olds.
Proof.
  destruct (reshare_preserves_secret [42] [9] 2 3 2 4) as (olds & H & _); try by_decide.
  exists olds. exact H.
Defined.

(** Below the threshold nothing is learnt: for any [t - 1] distinct share holders and
    any alternative secret of the same length there is exactly one randomness under which the
    alternative produces the very same shares for them, so the shares seen are equally likely
    under every secret. *)
Theorem split_hides_secret (secret secret' randomness : list Z) (t n : Z) (xs : list Z) :
  is_bytes secret -> is_bytes secret' -> is_bytes randomness ->
  length secret' = length secret -> 1 <= t <= n -> n <= 255 ->
  length randomness = (Z.to_nat (t - 1) * length secret)%nat ->
  base.NoDup xs -> Z.of_nat (length xs) = t - 1 -> (forall x, x ∈ xs -> 1 <= x <= n) ->
  exists! randomness', is_bytes randomness' /\ length randomness' = length randomness /\
    view xs (split secret' t n randomness') = view xs (split secret t n randomness).
Proof.
  intros (S & ->)%lift_bytes (S' & ->)%lift_bytes (R & ->)%lift_bytes Hl Ht Hn HR Hnd Hlen Hin.
  rewrite !length_fmap in *. destruct (holders xs n Hn Hnd Hin) as [HX HX0].
  set (d := Z.to_nat (t - 1)) in *.
  assert (HXd : length (toK <$> xs) = d) by (rewrite length_fmap; lia).
  destruct (hide_exists S S' R _ d Hl HX HX0 HXd) as (R' & HR' & Hsame).
  exists (code <$> R'). split.
  - split; [apply codes_bytes|]. split; [by rewrite length_fmap, HR', HR|].
    apply (view_eq_iff S S' R R'); fold d; lia || done.
  - intros r ((R2 & ->)%lift_bytes & HR2 & Hv). rewrite length_fmap in HR2. f_equal.
    pose proof (proj1 (view_eq_iff S S' R R2 t n xs Ht Hn Hl Hin ltac:(lia) ltac:(lia)) Hv) as Hs.
    fold d in Hs. rewrite <- Hl in *. apply (hide_unique S' R' R2 (toK <$> xs) d); try done; [lia|].
    intros x Hx. by rewrite Hsame, Hs.
Qed.

Lemma split_hides_secret_witness :
  exists! r', is_bytes r' /\ length r' = 2%nat /\
    view [2] (split [1; 2] 2 3 r') = view [2] (split [42; 7] 2 3 [9; 200]).
Proof.
  refine (split_hides_secret [42; 7] [1; 2] [9; 200] 2 3 [2] _ _ _ _ _ _ _ _ _ _); try by_decide.
  intros x ->%list_elem_of_singleton. by_decide.
Defined.

End Shamir.
