(* ===== verification/Bounded.v ===== *)
(** * The bounded FIFO map

    [fanos-primitives/src/collections.rs]: a map shadowed by the queue of its keys in
    insertion order, evicting the oldest key beyond its capacity.  The abstract
    specification is the plain list of entries in insertion order; the theorems show that
    every operation preserves the shadowing invariant and implements its list counterpart. *)
From S2P Require Import Prelude.
Local Open Scope Z_scope.

Module Bounded.
Section Ops.
Context {K : Type} `{Countable K} {V : Type}.

Record BoundedMap := mk_bm {
  bm_map : gmap K V;
  bm_order : list K;
  bm_capacity : nat;
}.

Definition new (capacity : nat) : BoundedMap := mk_bm ∅ [] (Nat.max capacity 1).

Definition insert (b : BoundedMap) (key : K) (value : V) : BoundedMap * option (K * V) :=
  let map := <[key := value]> (bm_map b) in
  if bool_decide (is_Some (bm_map b !! key)) then
    (mk_bm map (bm_order b) (bm_capacity b), None)
  else
    let order := bm_order b ++ [key] in
    if (bm_capacity b <? size map)%nat then
      match order with
      | oldest :: order =>
          (mk_bm (delete oldest map) order (bm_capacity b), (fun v => (oldest, v)) <$> map !! oldest)
      | [] => (mk_bm map order (bm_capacity b), None)
      end
    else (mk_bm map order (bm_capacity b), None).

Definition get (b : BoundedMap) (key : K) : option V := bm_map b !! key.

(** Writing through the reference [get_mut] returns. *)
Definition get_mut (b : BoundedMap) (key : K) (f : V -> V) : BoundedMap :=
  mk_bm (alter f key (bm_map b)) (bm_order b) (bm_capacity b).

(** [iter().position(p)]. *)
Fixpoint position (p : K -> bool) (l : list K) : option nat :=
  match l with
  | [] => None
  | k :: l => if p k then Some O else S <$> position p l
  end.

Definition remove_oldest_where (b : BoundedMap) (disposable : K -> bool) :
    BoundedMap * option (K * V) :=
  match position disposable (bm_order b) with
  | None => (b, None)
  | Some at_ =>
      match bm_order b !! at_ with
      | None => (b, None)
      | Some key =>
          (mk_bm (delete key (bm_map b)) (delete at_ (bm_order b)) (bm_capacity b),
           (fun v => (key, v)) <$> bm_map b !! key)
      end
  end.

(** The closure passed to [order.retain], threading the map it removes from. *)
Fixpoint retain_loop (keep : K -> V -> bool) (map : gmap K V) (order : list K) :
    gmap K V * list K :=
  match order with
  | [] => (map, [])
  | k :: order =>
      match map !! k with
      | Some v =>
          if keep k v then let '(map, order) := retain_loop keep map order in (map, k :: order)
          else retain_loop keep (delete k map) order
      | None => retain_loop keep map order
      end
  end.

Definition retain (b : BoundedMap) (keep : K -> V -> bool) : BoundedMap :=
  let '(map, order) := retain_loop keep (bm_map b) (bm_order b) in
  mk_bm map order (bm_capacity b).

Definition remove (b : BoundedMap) (key : K) : BoundedMap * option V :=
  match bm_map b !! key with
  | None => (b, None)
  | Some value =>
      let order := match position (fun k => bool_decide (k = key)) (bm_order b) with
                   | Some pos => delete pos (bm_order b)
                   | None => bm_order b
                   end in
      (mk_bm (delete key (bm_map b)) order (bm_capacity b), Some value)
  end.

Definition contains_key (b : BoundedMap) (key : K) : bool := bool_decide (is_Some (bm_map b !! key)).
Definition len (b : BoundedMap) : nat := size (bm_map b).
Definition is_empty (b : BoundedMap) : bool := bool_decide (bm_map b = ∅).

(** ** The abstract specification: entries in insertion order *)

Definition entries (b : BoundedMap) : list (K * V) :=
  omap (fun k => (fun v => (k, v)) <$> bm_map b !! k) (bm_order b).

Definition keys (l : list (K * V)) : list K := l.*1.

Definition fifo_insert (cap : nat) (l : list (K * V)) (k : K) (v : V) :
    list (K * V) * option (K * V) :=
  if bool_decide (k ∈ keys l) then
    ((fun kv => if bool_decide (fst kv = k) then (k, v) else kv) <$> l, None)
  else if (cap <? S (length l))%nat then (tail (l ++ [(k, v)]), head (l ++ [(k, v)]))
  else (l ++ [(k, v)], None).

Definition fifo_remove (l : list (K * V)) (k : K) : list (K * V) :=
  filter (fun kv => fst kv <> k) l.

Definition fifo_retain (keep : K -> V -> bool) (l : list (K * V)) : list (K * V) :=
  filter (fun kv => keep (fst kv) (snd kv) = true) l.

(** The invariant: the queue tracks exactly the live keys, within the bound. *)
Definition inv (b : BoundedMap) : Prop :=
  base.NoDup (bm_order b) /\ (forall k, k ∈ bm_order b <-> is_Some (bm_map b !! k)) /\
  (length (bm_order b) <= bm_capacity b)%nat /\ (1 <= bm_capacity b)%nat.

(** ** Invariant and refinement *)

Implicit Types b : BoundedMap.

Lemma inv_size b : inv b -> size (bm_map b) = length (bm_order b).
Proof.
  intros (Hnd & Hdom & _). rewrite <- size_dom.
  replace (dom (bm_map b)) with (list_to_set (C := gset K) (bm_order b)).
  - by rewrite size_list_to_set.
  - apply set_eq. intros k. rewrite elem_of_list_to_set, elem_of_dom. apply Hdom.
Qed.

Definition entries_of (m : gmap K V) (o : list K) : list (K * V) :=
  omap (fun k => (fun v => (k, v)) <$> m !! k) o.

Lemma entries_of_cons m k o :
  entries_of m (k :: o) = match m !! k with Some v => [(k, v)] | None => [] end ++ entries_of m o.
Proof. unfold entries_of. csimpl. by destruct (m !! k). Qed.

Lemma entries_of_app m o1 o2 : entries_of m (o1 ++ o2) = entries_of m o1 ++ entries_of m o2.
Proof.
  induction o1 as [|k o1 IH]; [done|]. cbn [app]. rewrite !entries_of_cons, IH. by rewrite app_assoc.
Qed.

Lemma entries_of_ext m m' o :
  (forall k, k ∈ o -> m !! k = m' !! k) -> entries_of m o = entries_of m' o.
Proof.
  induction o as [|k o IH]; intros H1; [done|]. rewrite !entries_of_cons, (H1 k), IH by set_solver.
  done.
Qed.

Lemma entries_of_keys m o : (forall k, k ∈ o -> is_Some (m !! k)) -> keys (entries_of m o) = o.
Proof.
  unfold keys. induction o as [|k o IH]; intros H1; [done|]. rewrite entries_of_cons.
  destruct (H1 k) as [v ->]; [set_solver|]. csimpl. rewrite IH by set_solver. done.
Qed.

Lemma inv_keys b : inv b -> keys (entries b) = bm_order b.
Proof. intros (_ & Hdom & _). apply entries_of_keys. intros k. apply Hdom. Qed.

Lemma inv_entries_length b : inv b -> length (entries b) = length (bm_order b).
Proof. intros Hb. rewrite <- (inv_keys b Hb). unfold keys. by rewrite length_fmap. Qed.

Lemma entries_of_update m o k v :
  is_Some (m !! k) ->
  entries_of (<[k := v]> m) o
  = (fun kv => if bool_decide (fst kv = k) then (k, v) else kv) <$> entries_of m o.
Proof.
  intros Hk. induction o as [|x o IH]; [done|]. rewrite !entries_of_cons, fmap_app, IH. f_equal.
  destruct (decide (x = k)) as [->|Hx].
  - rewrite lookup_insert_eq. destruct Hk as [w ->]. csimpl. by rewrite bool_decide_true.
  - rewrite lookup_insert_ne by done. destruct (m !! x) as [w|]; [|done]. csimpl.
    by rewrite bool_decide_false.
Qed.

Lemma insert_spec b k v :
  inv b ->
  inv (fst (insert b k v)) /\
  (entries (fst (insert b k v)), snd (insert b k v)) = fifo_insert (bm_capacity b) (entries b) k v /\
  bm_capacity (fst (insert b k v)) = bm_capacity b.
Proof.
  intros Hb. pose proof (inv_size b Hb) as Hsz. pose proof (inv_keys b Hb) as Hk.
  pose proof (inv_entries_length b Hb) as Hlen. destruct Hb as (Hnd & Hdom & Hcap & Hpos).
  unfold insert, fifo_insert. rewrite Hk, Hlen.
  destruct (decide (k ∈ bm_order b)) as [Hin|Hin].
  - rewrite (bool_decide_true (is_Some _)), (bool_decide_true (k ∈ _)) by (done || by apply Hdom).
    cbn [fst snd bm_capacity].
    split; [|split; [|done]].
    + split; [done|]. split; [|done]. cbn. intros x. rewrite lookup_insert_is_Some'.
      rewrite Hdom. split; [by right|]. intros [<-|]; [by apply Hdom|done].
    + f_equal. apply entries_of_update. by apply Hdom.
  - assert (Hnone : bm_map b !! k = None) by (apply eq_None_not_Some; intros Hs; by apply Hin, Hdom).
    rewrite (bool_decide_false (is_Some _)) by (rewrite Hnone; apply is_Some_None).
    rewrite (bool_decide_false (k ∈ _)) by done. rewrite map_size_insert_None, Hsz by done.
    assert (He : entries_of (<[k := v]> (bm_map b)) (bm_order b ++ [k]) = entries b ++ [(k, v)]).
    { rewrite entries_of_app, entries_of_cons, lookup_insert_eq. f_equal.
      apply entries_of_ext. intros x Hx. apply lookup_insert_ne. congruence. }
    assert (Hnd' : base.NoDup (bm_order b ++ [k])).
    { apply NoDup_app. split; [done|]. split; [set_solver|apply NoDup_singleton]. }
    assert (Hdom' : forall x, x ∈ bm_order b ++ [k] <-> is_Some (<[k := v]> (bm_map b) !! x)).
    { intros x. rewrite elem_of_app, list_elem_of_singleton, Hdom, lookup_insert_is_Some'.
      split; intros [|]; auto. }
    destruct (_ <? _)%nat eqn:Ecap.
    + destruct (bm_order b ++ [k]) as [|old rest] eqn:Eo; [by destruct (bm_order b)|].
      cbn [fst snd bm_capacity]. apply NoDup_cons in Hnd' as [Hold Hrest].
      assert (Hsome : is_Some (<[k := v]> (bm_map b) !! old)) by (apply Hdom'; left).
      rewrite entries_of_cons in He. destruct Hsome as [w Hw]. rewrite Hw in *.
      split; [|split; [|done]].
      * split; [done|]. split; [|split; [|done]]; cbn.
        -- intros x. rewrite lookup_delete_is_Some, <- Hdom', elem_of_cons. set_solver.
        -- apply (f_equal length) in Eo. rewrite length_app in Eo. simpl in Eo. lia.
      * rewrite <- He. cbn. f_equal. apply entries_of_ext. intros x Hx.
        apply lookup_delete_ne. congruence.
    + rewrite Nat.ltb_ge in Ecap. cbn [fst snd bm_capacity]. split; [|split; [|done]].
      * split; [done|]. split; [done|]. cbn. rewrite length_app. simpl. lia.
      * f_equal. exact He.
Qed.

Lemma position_Some p l i :
  position p l = Some i ->
  exists l1 k l2, l = l1 ++ k :: l2 /\ length l1 = i /\ p k = true /\ Forall (fun x => p x = false) l1.
Proof.
  revert i. induction l as [|x l IH]; intros i E; [done|]. cbn in E. destruct (p x) eqn:Ex.
  - injection E as <-. by exists [], x, l.
  - apply fmap_Some in E as (j & Ej & ->). destruct (IH j Ej) as (l1 & k & l2 & -> & <- & Hk & HF).
    exists (x :: l1), k, l2. by repeat split; [|constructor].
Qed.

Lemma position_None p l : position p l = None <-> Forall (fun x => p x = false) l.
Proof.
  induction l as [|x l IH]; [by split; [constructor|]|]. cbn. rewrite Forall_cons.
  destruct (p x) eqn:Ex; [by split; [|intros [? _]]|]. rewrite fmap_None, IH. naive_solver.
Qed.

(** Taking one key out of the middle of the queue and of the map. *)
Lemma drop_key_spec b l1 k l2 :
  inv b -> bm_order b = l1 ++ k :: l2 ->
  let b' := mk_bm (delete k (bm_map b)) (l1 ++ l2) (bm_capacity b) in
  inv b' /\ entries b' = fifo_remove (entries b) k.
Proof.
  intros (Hnd & Hdom & Hcap & Hpos) E b'. rewrite E in *.
  apply NoDup_app in Hnd as (H1 & H12 & [H2 H3]%NoDup_cons).
  assert (Hk1 : k ∉ l1) by (intros Hk; apply (H12 k Hk); left).
  assert (Hrest : forall x, x ∈ l1 ++ l2 -> x <> k) by (intros x; rewrite elem_of_app; set_solver).
  split.
  - split; [|split; [|split; [|done]]]; cbn.
    + apply NoDup_app. split; [done|]. split; [|done]. intros x Hx Hx2. apply (H12 x Hx). by right.
    + intros x. rewrite lookup_delete_is_Some, <- Hdom, !elem_of_app, elem_of_cons. set_solver.
    + rewrite length_app in *. simpl in *. lia.
  - assert (Hf : forall o, k ∉ o -> fifo_remove (entries_of (bm_map b) o) k = entries_of (bm_map b) o).
    { intros o. unfold fifo_remove. induction o as [|x o IH]; intros Ho; [done|].
      rewrite entries_of_cons, filter_app, IH by set_solver. f_equal.
      destruct (bm_map b !! x); [|done]. rewrite filter_cons_True; [done|]. simpl. set_solver. }
    unfold entries, b'. cbn [bm_map bm_order]. rewrite E.
    change (entries_of (delete k (bm_map b)) (l1 ++ l2)
      = fifo_remove (entries_of (bm_map b) (l1 ++ k :: l2)) k).
    rewrite (entries_of_ext _ (bm_map b)) by (intros x Hx; apply lookup_delete_ne; by apply not_eq_sym, Hrest).
    rewrite !entries_of_app, entries_of_cons. unfold fifo_remove. rewrite !filter_app.
    pose proof (Hf l1 Hk1) as F1. pose proof (Hf l2 H2) as F2. unfold fifo_remove in F1, F2.
    rewrite F1, F2. f_equal. destruct (bm_map b !! k); [|done].
    rewrite filter_cons_False; [done|]. simpl. tauto.
Qed.

Lemma delete_middle {A} (l1 : list A) k l2 : delete (length l1) (l1 ++ k :: l2) = l1 ++ l2.
Proof. induction l1 as [|x l1 IH]; [done|]. cbn. f_equal. exact IH. Qed.

Lemma remove_spec b k :
  inv b ->
  inv (fst (remove b k)) /\ entries (fst (remove b k)) = fifo_remove (entries b) k /\
  snd (remove b k) = get b k /\ bm_capacity (fst (remove b k)) = bm_capacity b.
Proof.
  intros Hb. unfold remove, get. destruct (bm_map b !! k) as [v|] eqn:Ek.
  - destruct (position (fun x => bool_decide (x = k)) (bm_order b)) as [i|] eqn:Ei.
    + destruct (position_Some _ _ _ Ei) as (l1 & x & l2 & Eo & <- & Ex & _).
      apply bool_decide_eq_true in Ex as ->. rewrite Eo, delete_middle.
      destruct (drop_key_spec b l1 k l2 Hb Eo) as [H1 H2]. done.
    + exfalso. apply position_None in Ei. destruct Hb as (_ & Hdom & _).
      assert (Hin : k ∈ bm_order b) by (apply Hdom; by rewrite Ek).
      rewrite Forall_forall in Ei. specialize (Ei k Hin). by rewrite bool_decide_true in Ei.
  - cbn [fst snd]. split; [done|]. split; [|done]. unfold fifo_remove. symmetry.
    pose proof (inv_keys b Hb) as Hk. destruct Hb as (_ & Hdom & _).
    assert (Hnot : k ∉ keys (entries b)).
    { rewrite Hk, Hdom, Ek. apply is_Some_None. }
    unfold keys in Hnot. clear -Hnot. induction (entries b) as [|kv l IH]; [done|].
    rewrite filter_cons_True by set_solver. f_equal. apply IH. set_solver.
Qed.

Lemma Forall_keys (P : K -> Prop) (l : list (K * V)) :
  Forall P (keys l) -> Forall (fun kv => P (fst kv)) l.
Proof. unfold keys. by rewrite Forall_fmap. Qed.

(** The evicted entry is the oldest disposable one. *)
Lemma remove_oldest_where_spec b p :
  inv b ->
  inv (fst (remove_oldest_where b p)) /\
  match snd (remove_oldest_where b p) with
  | Some (k, v) => exists l1 l2, entries b = l1 ++ (k, v) :: l2 /\ p k = true /\
      Forall (fun kv => p (fst kv) = false) l1 /\ entries (fst (remove_oldest_where b p)) = l1 ++ l2
  | None => Forall (fun kv => p (fst kv) = false) (entries b) /\ fst (remove_oldest_where b p) = b
  end.
Proof.
  intros Hb. pose proof (inv_keys b Hb) as Hkeys. unfold remove_oldest_where.
  destruct (position p (bm_order b)) as [i|] eqn:Ei.
  - destruct (position_Some _ _ _ Ei) as (l1 & k & l2 & Eo & <- & Ek & HF).
    rewrite Eo, list_lookup_middle, delete_middle by done. cbn [fst snd].
    destruct (drop_key_spec b l1 k l2 Hb Eo) as [H1 H2]. split; [done|].
    destruct Hb as (Hnd & Hdom & _). destruct (proj1 (Hdom k)) as [v Hv]; [rewrite Eo; set_solver|].
    rewrite Hv. cbn. exists (entries_of (bm_map b) l1), (entries_of (bm_map b) l2).
    unfold entries. cbn [bm_map bm_order]. rewrite Eo.
    change (omap _ (l1 ++ k :: l2)) with (entries_of (bm_map b) (l1 ++ k :: l2)).
    rewrite entries_of_app, entries_of_cons, Hv. split; [done|]. split; [done|]. split.
    + assert (Hs : forall x, x ∈ l1 -> is_Some (bm_map b !! x)).
      { intros x Hx. apply Hdom. rewrite Eo. set_solver. }
      apply (Forall_keys (fun x => p x = false)). by rewrite entries_of_keys.
    + change (omap _ (l1 ++ l2)) with (entries_of (delete k (bm_map b)) (l1 ++ l2)).
      rewrite <- entries_of_app. apply entries_of_ext. intros x Hx. apply lookup_delete_ne.
      intros ->. rewrite Eo in Hnd. apply NoDup_app in Hnd as (_ & Hd & [Hx2 _]%NoDup_cons).
      apply elem_of_app in Hx as [Hx|Hx]; [|done]. apply (Hd x Hx). left.
  - split; [done|]. split; [|done]. apply (Forall_keys (fun x => p x = false)).
    rewrite Hkeys. by apply position_None.
Qed.

Lemma retain_loop_spec keep m o :
  base.NoDup o -> (forall k, k ∈ o -> is_Some (m !! k)) ->
  entries_of (fst (retain_loop keep m o)) (snd (retain_loop keep m o))
    = fifo_retain keep (entries_of m o) /\
  snd (retain_loop keep m o) = keys (fifo_retain keep (entries_of m o)) /\
  (forall k, fst (retain_loop keep m o) !! k
     = if decide (k ∈ o /\ k ∉ snd (retain_loop keep m o)) then None else m !! k).
Proof.
  revert m. induction o as [|k o IH]; intros m Hnd Hs.
  { cbn. split; [done|]. split; [done|]. intros k. case_decide; [set_solver|done]. }
  apply NoDup_cons in Hnd as [Hk Hnd]. destruct (Hs k) as [v Hv]; [set_solver|].
  cbn [retain_loop]. rewrite Hv, entries_of_cons, Hv. unfold fifo_retain in *. rewrite filter_app.
  destruct (keep k v) eqn:Ekeep.
  - rewrite filter_cons_True by done. cbn [filter list_filter app].
    destruct (IH m Hnd ltac:(set_solver)) as (I1 & I2 & I3).
    destruct (retain_loop keep m o) as [m' o'] eqn:E. cbn [fst snd] in *.
    assert (Hk' : k ∉ o').
    { rewrite I2. unfold keys. intros (kv & -> & (_ & Hin)%list_elem_of_filter)%list_elem_of_fmap.
      apply Hk. rewrite <- (entries_of_keys m o) by set_solver. by apply list_elem_of_fmap_2. }
    assert (Em : m' !! k = Some v) by (rewrite I3, decide_False, Hv by tauto; done).
    split; [|split].
    + rewrite entries_of_cons, Em, I1. done.
    + rewrite I2. done.
    + intros x. rewrite I3. destruct (decide (x = k)) as [->|Hx].
      * rewrite !decide_False by set_solver. done.
      * apply decide_ext. set_solver.
  - rewrite filter_cons_False by (simpl; congruence). cbn [filter list_filter app].
    assert (Hd : forall x, x ∈ o -> delete k m !! x = m !! x).
    { intros x Hx. apply lookup_delete_ne. congruence. }
    destruct (IH (delete k m) Hnd) as (I1 & I2 & I3).
    { intros x Hx. rewrite Hd by done. apply Hs. set_solver. }
    rewrite (entries_of_ext (delete k m) m o) in I1, I2 by done. split; [done|]. split; [done|].
    intros x. rewrite I3. destruct (decide (x = k)) as [->|Hx].
    + rewrite lookup_delete_eq. assert (Hk' : k ∉ snd (retain_loop keep (delete k m) o)).
      { rewrite I2. unfold keys. intros (kv & -> & (_ & Hin)%list_elem_of_filter)%list_elem_of_fmap.
        apply Hk. rewrite <- (entries_of_keys m o) by set_solver. by apply list_elem_of_fmap_2. }
      rewrite (decide_True (P := k ∈ k :: o /\ _)) by set_solver. by case_decide.
    + rewrite lookup_delete_ne by done. apply decide_ext. set_solver.
Qed.

Lemma retain_spec b keep :
  inv b ->
  inv (retain b keep) /\ entries (retain b keep) = fifo_retain keep (entries b) /\
  bm_capacity (retain b keep) = bm_capacity b.
Proof.
  intros Hb. pose proof Hb as (Hnd & Hdom & Hcap & Hpos).
  destruct (retain_loop_spec keep (bm_map b) (bm_order b) Hnd) as (H1 & H2 & H3); [by intros k; apply Hdom|].
  unfold retain. destruct (retain_loop keep (bm_map b) (bm_order b)) as [m o]. cbn [fst snd] in *.
  assert (Hsub : o `sublist_of` bm_order b).
  { pose proof (inv_keys b Hb) as Ho. unfold entries in Ho. fold (entries_of (bm_map b) (bm_order b)) in Ho.
    rewrite H2. rewrite <- Ho at 2. unfold keys, fifo_retain. apply fmap_sublist, sublist_filter. }
  split; [|done]. split; [|split; [|split; [|done]]]; cbn.
  - by eapply sublist_NoDup.
  - intros k. rewrite H3. split.
    + intros Hk. rewrite decide_False by tauto. apply Hdom. by eapply elem_of_sublist.
    + case_decide as Hd; [intros [? ?]; done|]. intros Hs%Hdom.
      destruct (decide (k ∈ o)); [done|]. tauto.
  - pose proof (sublist_length _ _ Hsub). lia.
Qed.

Lemma get_mut_spec b k f :
  inv b -> inv (get_mut b k f) /\ bm_capacity (get_mut b k f) = bm_capacity b /\
  keys (entries (get_mut b k f)) = keys (entries b).
Proof.
  intros Hb. assert (Hi : inv (get_mut b k f)).
  { destruct Hb as (Hnd & Hdom & Hc). split; [done|]. split; [|done]. cbn. intros x.
    rewrite Hdom, lookup_alter_is_Some. done. }
  split; [done|]. split; [done|]. by rewrite !inv_keys.
Qed.

Lemma new_inv n : inv (new n).
Proof.
  split; [constructor|]. split; [|cbn; split; lia]. cbn. intros k.
  rewrite lookup_empty. split; [by intros ?%elem_of_nil|by intros [? ?]].
Qed.

(** ** Every sequence of operations *)

Inductive step : BoundedMap -> BoundedMap -> Prop :=
| step_insert b k v : step b (fst (insert b k v))
| step_get_mut b k f : step b (get_mut b k f)
| step_remove_oldest b p : step b (fst (remove_oldest_where b p))
| step_retain b keep : step b (retain b keep)
| step_remove b k : step b (fst (remove b k)).

Lemma step_inv b b' : step b b' -> inv b -> inv b' /\ bm_capacity b' = bm_capacity b.
Proof.
  intros Hs Hb. destruct Hs as [b k v|b k f|b p|b keep|b k].
  - destruct (insert_spec b k v Hb) as (? & _ & ?). done.
  - destruct (get_mut_spec b k f Hb) as (? & ? & _). done.
  - destruct (remove_oldest_where_spec b p Hb) as [? _]. split; [done|].
    unfold remove_oldest_where. repeat case_match; done.
  - destruct (retain_spec b keep Hb) as (? & _ & ?). done.
  - destruct (remove_spec b k Hb) as (? & _ & _ & ?). done.
Qed.

Lemma rtc_inv b b' : rtc step b b' -> inv b -> inv b' /\ bm_capacity b' = bm_capacity b.
Proof.
  induction 1 as [b|b1 b2 b3 Hs _ IH]; intros Hb; [done|].
  destruct (step_inv _ _ Hs Hb) as [H2 E2]. destruct (IH H2) as [H3 E3]. split; [done|congruence].
Qed.

End Ops.
Arguments BoundedMap K {_ _} V.

(** C40: the bounded map implements a FIFO list of entries: on states satisfying the
    shadowing invariant, [insert] updates a known key in place, appends a new one and evicts
    exactly the oldest entry beyond the capacity; [remove] and [retain] are the list filters;
    [remove_oldest_where] takes out the first entry its predicate accepts; [get] reads the
    entry.  Every operation re-establishes the invariant. *)
Theorem bounded_map_refines_fifo `{Countable K} {V} (b : BoundedMap K V) :
  inv b ->
  (forall k v, inv (fst (insert b k v)) /\
     (entries (fst (insert b k v)), snd (insert b k v))
     = fifo_insert (bm_capacity b) (entries b) k v) /\
  (forall k, inv (fst (remove b k)) /\ entries (fst (remove b k)) = fifo_remove (entries b) k /\
     snd (remove b k) = get b k) /\
  (forall keep, inv (retain b keep) /\ entries (retain b keep) = fifo_retain keep (entries b)) /\
  (forall p, inv (fst (remove_oldest_where b p)) /\
     match snd (remove_oldest_where b p) with
     | Some (k, v) => exists l1 l2, entries b = l1 ++ (k, v) :: l2 /\ p k = true /\
         Forall (fun kv => p (fst kv) = false) l1 /\
         entries (fst (remove_oldest_where b p)) = l1 ++ l2
     | None => Forall (fun kv => p (fst kv) = false) (entries b) /\
         fst (remove_oldest_where b p) = b
     end) /\
  (forall k v, get b k = Some v <-> (k, v) ∈ entries b).
Proof.
  intros Hb. split; [|split; [|split; [|split]]].
  - intros k v. destruct (insert_spec b k v Hb) as (? & ? & _). done.
  - intros k. destruct (remove_spec b k Hb) as (? & ? & ? & _). done.
  - intros keep. destruct (retain_spec b keep Hb) as (? & ? & _). done.
  - intros p. by apply remove_oldest_where_spec.
  - intros k v. unfold get, entries. destruct Hb as (_ & Hdom & _). rewrite list_elem_of_omap. split.
    + intros E. exists k. rewrite E. split; [apply Hdom; by rewrite E|done].
    + intros (x & _ & (w & Ew & [= <- <-])%fmap_Some). done.
Qed.

Lemma bounded_map_refines_fifo_witness :
  let b := fst (insert (fst (insert (new (K := Z) (V := Z) 2) 5 50)) 3 30) in
  entries b = [(5, 50); (3, 30)] /\ snd (insert b 9 90) = Some (5, 50) /\ inv (fst (insert b 9 90)).
Proof.
  cbv zeta. split; [vm_compute; reflexivity|]. split; [vm_compute; reflexivity|].
  apply bounded_map_refines_fifo. apply step_inv with (fst (insert (new 2) 5 50));
    [apply step_insert|]. apply step_inv with (new 2); [apply step_insert|]. apply new_inv.
Defined.

(** The memory bound: in every state reachable from [new capacity] by any sequence of
    operations the map holds at most [max capacity 1] entries, one per queued key. *)
Theorem bounded_map_never_exceeds_capacity `{Countable K} {V} (capacity : nat) (b : BoundedMap K V) :
  rtc step (new capacity) b ->
  (len b <= Nat.max capacity 1)%nat /\ len b = length (bm_order b) /\ base.NoDup (bm_order b).
Proof.
  intros Hr. destruct (rtc_inv _ _ Hr (new_inv capacity)) as [Hi Hc]. unfold len.
  rewrite (inv_size b Hi). destruct Hi as (? & _ & ? & _). cbn in Hc. split; [lia|done].
Qed.

Lemma bounded_map_never_exceeds_capacity_witness :
  (len (fst (insert (new (K := Z) (V := Z) 0) 5%Z 50%Z)) <= 1)%nat.
Proof.
  apply (bounded_map_never_exceeds_capacity 0). apply rtc_once, step_insert.
Defined.

End Bounded.
