(* ===== verification/Codec.v ===== *)
(** * The bounded byte codec of the ledger components

    [fanos-primitives/src/codec.rs]: the cursor [Reader] with its total accessors, and the
    little-endian writers.  A [BTreeMap] is a finite map whose iteration is sorted by key
    ([btree_list]). *)
From stdpp Require Import sorting.
From S2P Require Import Prelude.
Local Open Scope Z_scope.

(** ** Ordered maps *)

(** The lexicographic order of byte strings. *)
Fixpoint bytes_leb (a b : list Z) : bool :=
  match a, b with
  | [], _ => true
  | _ :: _, [] => false
  | x :: a, y :: b => (x <? y) || ((x =? y) && bytes_leb a b)
  end.

Definition key_le {V} (a b : list Z * V) : Prop := bytes_leb (fst a) (fst b) = true.

#[global] Instance key_le_dec {V} (a b : list Z * V) : Decision (key_le a b).
Proof. unfold key_le. apply _. Defined.

Abbreviation btree :=
  (@gmap (list Z) (@list_eq_dec Z Z.eq_dec) (@list_countable Z Z.eq_dec Z_countable)).

(** Iteration of a [BTreeMap] in key order. *)
Definition btree_list {V} (m : btree V) : list (list Z * V) := merge_sort key_le (map_to_list m).

(** [iter.collect::<BTreeMap<_, _>>()]: later entries overwrite earlier ones. *)
Definition btree_collect {V} (l : list (list Z * V)) : btree V :=
  foldl (fun m kv => <[fst kv := snd kv]> m) ∅ l.

(** A [BTreeSet] of byte strings and its iteration in order. *)
Abbreviation bset :=
  (@gset (list Z) (@list_eq_dec Z Z.eq_dec) (@list_countable Z Z.eq_dec Z_countable)).

Definition bytes_le (a b : list Z) : Prop := bytes_leb a b = true.

#[global] Instance bytes_le_dec (a b : list Z) : Decision (bytes_le a b).
Proof. unfold bytes_le. apply _. Defined.

Lemma bytes_leb_total a : forall b, bytes_leb a b = true \/ bytes_leb b a = true.
Proof.
  induction a as [|x a IH]; intros [|y b]; simpl; auto.
  destruct (Z.lt_total x y) as [Hlt|[->|Hgt]].
  - left. by rewrite (proj2 (Z.ltb_lt x y) Hlt).
  - rewrite Z.ltb_irrefl, Z.eqb_refl. simpl. apply IH.
  - right. by rewrite (proj2 (Z.ltb_lt y x) Hgt).
Qed.

Lemma bytes_leb_antisym a : forall b, bytes_leb a b = true -> bytes_leb b a = true -> a = b.
Proof.
  induction a as [|x a IH]; intros [|y b]; simpl; try done.
  rewrite !orb_true_iff, !andb_true_iff, !Z.ltb_lt, !Z.eqb_eq.
  intros [?|[-> H1]] [?|[? H2]]; try lia. by rewrite (IH b).
Qed.

Lemma bytes_leb_trans a : forall b c, bytes_leb a b = true -> bytes_leb b c = true -> bytes_leb a c = true.
Proof.
  induction a as [|x a IH]; intros [|y b] [|z c]; simpl; try done.
  rewrite !orb_true_iff, !andb_true_iff, !Z.ltb_lt, !Z.eqb_eq.
  intros [?|[-> H1]] [?|[-> H2]]; try (left; lia). right. eauto.
Qed.

#[global] Instance bytes_le_transitive : Transitive bytes_le.
Proof. intros a b c. apply bytes_leb_trans. Qed.
#[global] Instance bytes_le_antisym : AntiSymm (=) bytes_le.
Proof. intros a b. apply bytes_leb_antisym. Qed.
#[global] Instance bytes_le_total : Total bytes_le.
Proof. intros a b. apply bytes_leb_total. Qed.

Definition bset_list (s : bset) : list (list Z) := merge_sort bytes_le (elements s).

(** ** Slices *)

(** [bytes.get(a..b)] and [bytes.get(a..)]. *)
Definition slice {A} (a b : nat) (l : list A) : option (list A) :=
  if ((a <=? b) && (b <=? length l))%nat then Some (take (b - a) (drop a l)) else None.

Definition slice_from {A} (a : nat) (l : list A) : option (list A) :=
  if (a <=? length l)%nat then Some (drop a l) else None.

(** ** The reader *)

Record Reader := mk_reader { rd_bytes : list Z; rd_off : nat }.

Definition reader_new (bytes : list Z) : Reader := mk_reader bytes 0.

(** The overflow of [off.checked_add(n)] implies the failure of the slice. *)
Definition rd_take (r : Reader) (n : nat) : option (list Z * Reader) :=
  let end_ := (rd_off r + n)%nat in
  if (end_ <=? length (rd_bytes r))%nat then
    Some (take n (drop (rd_off r) (rd_bytes r)), mk_reader (rd_bytes r) end_)
  else None.

Definition rd_array (n : nat) (r : Reader) : option (list Z * Reader) := rd_take r n.
Definition rd_slice (r : Reader) (n : nat) : option (list Z * Reader) := rd_take r n.

Definition rd_u8 (r : Reader) : option (Z * Reader) :=
  letO (s, r) := rd_take r 1 in letO b := head s in Some (b, r).

Definition rd_u32 (r : Reader) : option (Z * Reader) :=
  letO (s, r) := rd_array 4 r in Some (from_le s, r).

Definition rd_u64 (r : Reader) : option (Z * Reader) :=
  letO (s, r) := rd_array 8 r in Some (from_le s, r).

Definition rd_var_bytes (r : Reader) : option (list Z * Reader) :=
  letO (len, r) := rd_u32 r in rd_take r (Z.to_nat len).

Fixpoint rd_loop {T} (f : Reader -> option (T * Reader)) (count : nat) (r : Reader) :
    option (list T * Reader) :=
  match count with
  | O => Some ([], r)
  | S count => letO (x, r) := f r in letO (xs, r) := rd_loop f count r in Some (x :: xs, r)
  end.

Definition rd_seq {T} (min_elem : nat) (f : Reader -> option (T * Reader)) (r : Reader) :
    option (list T * Reader) :=
  letO (count, r) := rd_u32 r in
  let remaining := (length (rd_bytes r) - rd_off r)%nat in
  if (min_elem =? 0)%nat || (Z.of_nat (remaining / min_elem) <? count) then None
  else rd_loop f (Z.to_nat count) r.

Definition rd_rest (r : Reader) : list Z * Reader :=
  (drop (rd_off r) (rd_bytes r), mk_reader (rd_bytes r) (length (rd_bytes r))).

Definition rd_is_empty (r : Reader) : bool := (rd_off r =? length (rd_bytes r))%nat.

Definition rd_finish (r : Reader) : option unit := if rd_is_empty r then Some tt else None.

(** ** The writers: the bytes each appends *)

Definition put_u32 (v : Z) : list Z := le_bytes 4 v.
Definition put_u64 (v : Z) : list Z := le_bytes 8 v.

(** [u32::try_from(n).unwrap_or(u32::MAX)]. *)
Definition u32_sat (n : nat) : Z := Z.min (Z.of_nat n) (2 ^ 32 - 1).

Definition put_var_bytes (b : list Z) : list Z := put_u32 (u32_sat (length b)) ++ b.

Definition put_seq {T} (count : nat) (items : list T) (f : T -> list Z) : list Z :=
  put_u32 (u32_sat count) ++ concat (f <$> items).

Definition put_map {V} (m : btree V) (kv : list Z -> V -> list Z) : list Z :=
  put_u32 (u32_sat (size m)) ++ concat ((fun e => kv (fst e) (snd e)) <$> btree_list m).

Definition read_map {V} (min_elem : nat) (kv : Reader -> option ((list Z * V) * Reader))
    (r : Reader) : option (btree V * Reader) :=
  letO (l, r) := rd_seq min_elem kv r in Some (btree_collect l, r).

(** ** What is left to read *)

Definition rest_of (r : Reader) : list Z := drop (rd_off r) (rd_bytes r).
Definition rd_ok (r : Reader) : Prop := (rd_off r <= length (rd_bytes r))%nat.

(** [dec] reads exactly the bytes [bs] from the front and returns [a]. *)
Definition reads {A} (dec : Reader -> option (A * Reader)) (bs : list Z) (a : A) : Prop :=
  forall r rest, rd_ok r -> rest_of r = bs ++ rest ->
    exists r', dec r = Some (a, r') /\ rest_of r' = rest /\ rd_ok r'.

(** Whatever [dec] accepts is the encoding of its result: nothing but [enc a] was consumed. *)
Definition exact {A} (dec : Reader -> option (A * Reader)) (enc : A -> list Z) (dom : A -> Prop) : Prop :=
  forall r a r', rd_ok r -> is_bytes (rest_of r) -> dec r = Some (a, r') ->
    dom a /\ rest_of r = enc a ++ rest_of r' /\ rd_ok r'.

Lemma rd_new_ok bytes : rd_ok (reader_new bytes) /\ rest_of (reader_new bytes) = bytes.
Proof. unfold rd_ok, rest_of. simpl. split; [lia|done]. Qed.

Lemma rd_take_reads n bs : length bs = n -> reads (fun r => rd_take r n) bs bs.
Proof.
  intros <- r rest Hr E. unfold rd_take, rest_of, rd_ok in *.
  pose proof (f_equal length E) as El. rewrite length_drop, length_app in El.
  rewrite (proj2 (Nat.leb_le _ _)) by lia. eexists. split; [rewrite E, take_app_length; done|].
  simpl. rewrite <- drop_drop, E, drop_app_length. split; [done|lia].
Qed.

Lemma rd_take_exact r n s r' :
  rd_ok r -> rd_take r n = Some (s, r') ->
  length s = n /\ rest_of r = s ++ rest_of r' /\ rd_ok r'.
Proof.
  unfold rd_take, rest_of, rd_ok. intros Hr. case_match eqn:E; [|done]. intros [= <- <-].
  rewrite Nat.leb_le in E. simpl. rewrite length_take, length_drop, <- drop_drop, take_drop.
  split; [lia|done].
Qed.

Lemma rd_finish_iff r : rd_ok r -> rd_finish r = Some tt <-> rest_of r = [].
Proof.
  unfold rd_ok, rd_finish, rd_is_empty, rest_of. intros Hr. case_match eqn:E.
  - rewrite Nat.eqb_eq in E. rewrite E, drop_all. done.
  - rewrite Nat.eqb_neq in E. split; [done|]. intros E'%(f_equal length).
    rewrite length_drop in E'. simpl in E'. lia.
Qed.

Lemma rd_u8_reads b : reads rd_u8 [b] b.
Proof.
  intros r rest Hr E. destruct (rd_take_reads 1 [b] eq_refl r rest Hr E) as (r' & E' & H).
  exists r'. unfold rd_u8. by rewrite E'.
Qed.

Lemma rd_u8_exact : exact rd_u8 (fun b => [b]) is_u8.
Proof.
  intros r a r' Hr Hb E. unfold rd_u8 in E. destruct (rd_take r 1) as [[s r1]|] eqn:Et; [|done].
  apply rd_take_exact in Et as (Hl & Er & Hr1); [|done].
  destruct s as [|b [|]]; try done. injection E as <- <-. rewrite Er in Hb.
  apply is_bytes_app in Hb as [Hb _]. apply Forall_cons in Hb as [Hb _]. done.
Qed.

Lemma rd_le_reads n v :
  in_u (8 * Z.of_nat n) v ->
  reads (fun r => letO (s, r) := rd_array n r in Some (from_le s, r)) (le_bytes n v) v.
Proof.
  intros Hv r rest Hr E.
  destruct (rd_take_reads n (le_bytes n v) (length_le_bytes n v) r rest Hr E) as (r' & E' & H).
  exists r'. unfold rd_array. rewrite E', from_le_id by done. done.
Qed.

Lemma rd_le_exact n :
  exact (fun r => letO (s, r) := rd_array n r in Some (from_le s, r)) (le_bytes n)
    (in_u (8 * Z.of_nat n)).
Proof.
  intros r a r' Hr Hb E. unfold rd_array in E. destruct (rd_take r n) as [[s r1]|] eqn:Et; [|done].
  apply rd_take_exact in Et as (Hl & Er & Hr1); [|done]. injection E as <- <-.
  rewrite Er in Hb. apply is_bytes_app in Hb as [Hb _]. split.
  - rewrite <- Hl. by apply from_le_range.
  - by rewrite le_bytes_from_le_n.
Qed.

Lemma rd_u32_reads v : is_u32 v -> reads rd_u32 (put_u32 v) v.
Proof. apply (rd_le_reads 4). Qed.
Lemma rd_u64_reads v : is_u64 v -> reads rd_u64 (put_u64 v) v.
Proof. apply (rd_le_reads 8). Qed.
Lemma rd_u32_exact : exact rd_u32 put_u32 is_u32.
Proof. apply (rd_le_exact 4). Qed.
Lemma rd_u64_exact : exact rd_u64 put_u64 is_u64.
Proof. apply (rd_le_exact 8). Qed.

Lemma u32_sat_small n : Z.of_nat n < 2 ^ 32 -> u32_sat n = Z.of_nat n.
Proof. unfold u32_sat. lia. Qed.

Lemma rd_var_bytes_reads b :
  Z.of_nat (length b) < 2 ^ 32 -> reads rd_var_bytes (put_var_bytes b) b.
Proof.
  intros Hb r rest Hr E. unfold put_var_bytes in E. rewrite u32_sat_small, <- app_assoc in E by done.
  destruct (rd_u32_reads (Z.of_nat (length b)) ltac:(unfold in_u; lia) r (b ++ rest) Hr E)
    as (r1 & E1 & R1 & H1).
  destruct (rd_take_reads (length b) b eq_refl r1 rest H1 R1) as (r2 & E2 & R2 & H2).
  exists r2. unfold rd_var_bytes. by rewrite E1, Nat2Z.id, E2.
Qed.

Lemma rd_var_bytes_exact :
  exact rd_var_bytes put_var_bytes (fun b => is_bytes b /\ Z.of_nat (length b) < 2 ^ 32).
Proof.
  intros r a r' Hr Hb E. unfold rd_var_bytes in E.
  destruct (rd_u32 r) as [[len r1]|] eqn:E1; [|done].
  apply rd_u32_exact in E1 as (Hlen & Er & Hr1); [|done..].
  apply rd_take_exact in E as (Hl & Er1 & Hr'); [|done].
  rewrite Er, Er1 in Hb. rewrite !is_bytes_app in Hb. destruct Hb as (_ & Ha & _).
  unfold in_u in Hlen. split; [split; [done|lia]|]. split; [|done].
  rewrite Er, Er1, app_assoc. unfold put_var_bytes. rewrite u32_sat_small by lia. do 3 f_equal. lia.
Qed.

Lemma rd_loop_reads {T} (f : Reader -> option (T * Reader)) (enc : T -> list Z) l :
  Forall (fun x => reads f (enc x) x) l ->
  reads (rd_loop f (length l)) (concat (enc <$> l)) l.
Proof.
  induction 1 as [|x l Hx _ IH]; intros r rest Hr E; [by exists r|].
  csimpl in E. rewrite <- app_assoc in E. destruct (Hx r _ Hr E) as (r1 & E1 & R1 & H1).
  destruct (IH r1 rest H1 R1) as (r2 & E2 & R2 & H2). exists r2. cbn [length rd_loop].
  by rewrite E1, E2.
Qed.

Lemma concat_min_length {T} (enc : T -> list Z) n l :
  Forall (fun x => n <= length (enc x))%nat l -> (length l * n <= length (concat (enc <$> l)))%nat.
Proof.
  induction 1 as [|x l Hx _ IH]; [done|]. csimpl. rewrite length_app. lia.
Qed.

Lemma rd_seq_reads {T} (f : Reader -> option (T * Reader)) (enc : T -> list Z) min_elem l :
  (0 < min_elem)%nat -> Z.of_nat (length l) < 2 ^ 32 ->
  Forall (fun x => reads f (enc x) x /\ (min_elem <= length (enc x))%nat) l ->
  reads (rd_seq min_elem f) (put_seq (length l) l enc) l.
Proof.
  intros Hm Hl HF r rest Hr E. unfold put_seq in E. rewrite u32_sat_small, <- app_assoc in E by done.
  destruct (rd_u32_reads (Z.of_nat (length l)) ltac:(unfold in_u; lia) r _ Hr E)
    as (r1 & E1 & R1 & H1).
  assert (Hf : Forall (fun x => reads f (enc x) x) l) by (eapply Forall_impl; [exact HF|intros ? [? ?]; done]).
  destruct (rd_loop_reads f enc l Hf r1 rest H1 R1) as (r2 & E2 & R2 & H2).
  exists r2. unfold rd_seq. rewrite E1.
  assert (Hn : (length l * min_elem <= length (concat (enc <$> l)))%nat).
  { apply concat_min_length. eapply Forall_impl; [exact HF|intros ? [? ?]; done]. }
  assert (Hrem : (length (concat (enc <$> l)) <= length (rd_bytes r1) - rd_off r1)%nat).
  { pose proof (f_equal length R1) as EL. unfold rest_of in EL.
    rewrite length_drop, length_app in EL. lia. }
  assert (Hdiv : (length l <= (length (rd_bytes r1) - rd_off r1) / min_elem)%nat).
  { apply Nat.div_le_lower_bound; lia. }
  rewrite (proj2 (Nat.eqb_neq _ _)), (proj2 (Z.ltb_ge _ _)), Nat2Z.id by lia. done.
Qed.


Lemma btree_collect_snoc {V} (l : list (list Z * V)) kv :
  btree_collect (l ++ [kv]) = <[fst kv := snd kv]> (btree_collect l).
Proof. unfold btree_collect. by rewrite foldl_app. Qed.

Lemma btree_collect_reverse {V} (l : list (list Z * V)) :
  btree_collect (reverse l) = list_to_map l.
Proof.
  induction l as [|[k v] l IH]; [done|]. rewrite reverse_cons, btree_collect_snoc, IH. done.
Qed.

Lemma btree_collect_perm {V} (m : btree V) l : l ≡ₚ map_to_list m -> btree_collect l = m.
Proof.
  intros Hp. rewrite <- (reverse_involutive l), btree_collect_reverse.
  rewrite <- (list_to_map_to_list m). apply list_to_map_proper.
  - rewrite reverse_Permutation, Hp. apply NoDup_fst_map_to_list.
  - by rewrite reverse_Permutation.
Qed.

Lemma btree_list_perm {V} (m : btree V) : btree_list m ≡ₚ map_to_list m.
Proof. apply merge_sort_Permutation. Qed.

Lemma btree_list_elem {V} (m : btree V) k v : (k, v) ∈ btree_list m <-> m !! k = Some v.
Proof. rewrite (btree_list_perm m). apply elem_of_map_to_list. Qed.

Lemma btree_list_length {V} (m : btree V) : length (btree_list m) = size m.
Proof. unfold size, map_size. by rewrite (btree_list_perm m), ?length_map_to_list. Qed.

Lemma bset_list_perm (s : bset) : bset_list s ≡ₚ elements s.
Proof. apply merge_sort_Permutation. Qed.

Lemma bset_list_elem (s : bset) k : k ∈ bset_list s <-> k ∈ s.
Proof. rewrite (bset_list_perm s). apply elem_of_elements. Qed.

Lemma bset_list_NoDup (s : bset) : NoDup (bset_list s).
Proof. rewrite (bset_list_perm s). apply NoDup_elements. Qed.

Lemma bset_list_length (s : bset) : length (bset_list s) = size s.
Proof. unfold size, set_size. simpl. by rewrite (bset_list_perm s). Qed.

Lemma read_map_reads {V} (kv : list Z -> V -> list Z)
    (dec : Reader -> option ((list Z * V) * Reader)) (min_elem : nat) (m : btree V) :
  (0 < min_elem)%nat -> Z.of_nat (size m) < 2 ^ 32 ->
  (forall k v, m !! k = Some v ->
     reads dec (kv k v) (k, v) /\ (min_elem <= length (kv k v))%nat) ->
  reads (read_map min_elem dec) (put_map m kv) m.
Proof.
  intros Hm Hs Hkv r rest Hr E. unfold put_map in E. rewrite <- btree_list_length in E.
  assert (HF : Forall (fun e => reads dec (kv (fst e) (snd e)) e /\
    (min_elem <= length (kv (fst e) (snd e)))%nat) (btree_list m)).
  { apply Forall_forall. intros [k v] He%btree_list_elem. by apply Hkv. }
  rewrite <- btree_list_length in Hs.
  destruct (rd_seq_reads dec (fun e => kv (fst e) (snd e)) min_elem (btree_list m) Hm Hs HF r rest Hr E)
    as (r' & E' & H). exists r'. unfold read_map. rewrite E'.
  rewrite (btree_collect_perm m); [done|]. apply btree_list_perm.
Qed.

(** ** Slices of a concatenation *)

Lemma slice_mid {A} (p m s : list A) a b :
  length p = a -> (a + length m)%nat = b -> slice a b (p ++ m ++ s) = Some m.
Proof.
  intros <- <-. unfold slice. rewrite !length_app, !(proj2 (Nat.leb_le _ _)) by lia. simpl.
  rewrite drop_app_length. f_equal. rewrite Nat.add_comm, Nat.add_sub. apply take_app_length.
Qed.

Lemma slice_prefix {A} (m s : list A) b : length m = b -> slice 0 b (m ++ s) = Some m.
Proof. intros. by apply (slice_mid []). Qed.

Lemma slice_from_app {A} (p s : list A) a : length p = a -> slice_from a (p ++ s) = Some s.
Proof.
  intros <-. unfold slice_from. rewrite length_app, (proj2 (Nat.leb_le _ _)) by lia.
  by rewrite drop_app_length.
Qed.

Lemma slice_Some {A} a b (l : list A) :
  (a <= b)%nat -> (b <= length l)%nat -> slice a b l = Some (take (b - a) (drop a l)).
Proof. intros. unfold slice. by rewrite !(proj2 (Nat.leb_le _ _)) by lia. Qed.

Lemma slice_from_Some {A} a (l : list A) : (a <= length l)%nat -> slice_from a l = Some (drop a l).
Proof. intros. unfold slice_from. by rewrite (proj2 (Nat.leb_le _ _)) by lia. Qed.

Lemma slice_inv {A} a b (l s : list A) :
  slice a b l = Some s ->
  (a <= b <= length l)%nat /\ s = take (b - a) (drop a l) /\ length s = (b - a)%nat.
Proof.
  unfold slice. case_match eqn:E; [|done]. rewrite andb_true_iff, !Nat.leb_le in E.
  intros [= <-]. rewrite length_take, length_drop. split; [lia|split; [done|lia]].
Qed.

Lemma slice_from_inv {A} a (l s : list A) :
  slice_from a l = Some s -> (a <= length l)%nat /\ s = drop a l.
Proof. unfold slice_from. case_match eqn:E; [|done]. rewrite Nat.leb_le in E. by intros [= <-]. Qed.

Lemma take_drop_at {A} (l : list A) a n b :
  (a + n)%nat = b -> take n (drop a l) ++ drop b l = drop a l.
Proof. intros <-. by rewrite <- drop_drop, take_drop. Qed.
