(* ===== verification/Stream.v ===== *)
(** * Reliable byte streams

    [fanos-stream/src/lib.rs]: segments and their bytes, the round-trip estimator, the selective-repeat
    sender and the bounded receiver.  A world puts one sender and one receiver on a network that loses,
    repeats and reorders; the main results are that the reader sees exactly what the writer wrote, that
    no peer overfills the receiver or moves its declared end, and that no loss is fatal. *)
From S2P Require Import Prelude Codec.
Local Open Scope Z_scope.

Module Stream.

Definition MAX_SEGMENT : nat := 1024.
Definition SACK_WIDTH : Z := 64.
Definition DEFAULT_WINDOW : Z := 32.
Definition RTO_INIT_TICKS : Z := 3.
Definition RTO_MIN_TICKS : Z := 1.
Definition RTO_MAX_TICKS : Z := 240.
Definition RTO_BACKOFF_MULT : Z := 4.
Definition DUP_ACK_THRESHOLD : Z := 3.
Definition FAST_RETX_JITTER_SPAN : Z := 5.
Definition GOLDEN_Q32 : Z := 0x9E3779B9.
Definition SILVER_Q32 : Z := 0x6A09E667.

(** ** The round-trip estimator *)

Record RttEstimator := mk_rtt { srtt_x8 : Z; rttvar_x4 : Z; rto : Z; base_rto : Z }.

Definition rtt_new : RttEstimator := mk_rtt 0 0 RTO_INIT_TICKS RTO_INIT_TICKS.

Definition clamp (x lo hi : Z) : Z := Z.min (Z.max x lo) hi.

Definition sample (e : RttEstimator) (m : Z) : RttEstimator :=
  let m := Z.max m 1 in
  let '(s, v) :=
    if srtt_x8 e =? 0 then (w32 (Z.shiftl m 3), w32 (Z.shiftl m 1))
    else
      let srtt := Z.shiftr (srtt_x8 e) 3 in
      let delta := Z.abs (srtt - m) in
      (w32 (srtt_x8 e - Z.shiftr (srtt_x8 e) 3 + m), w32 (rttvar_x4 e - Z.shiftr (rttvar_x4 e) 2 + delta)) in
  let base := clamp (w32 (Z.shiftr s 3 + Z.max v 1)) RTO_MIN_TICKS RTO_MAX_TICKS in
  mk_rtt s v base base.

Definition back_off (e : RttEstimator) : RttEstimator :=
  let ceiling := Z.min (sat_mul 32 (base_rto e) RTO_BACKOFF_MULT) RTO_MAX_TICKS in
  mk_rtt (srtt_x8 e) (rttvar_x4 e) (Z.max (Z.min (sat_mul 32 (rto e) 2) ceiling) RTO_MIN_TICKS) (base_rto e).

Definition jitter_ticks (seq attempt rto : Z) : Z :=
  let phase := w32 (w32 (seq * SILVER_Q32) + w32 (attempt * GOLDEN_Q32)) in
  let scaled := Z.shiftr (phase * Z.max rto 1) 32 in
  if scaled <? 2 ^ 32 then scaled else 0.

(** ** Acknowledgements and segments *)

Record Ack := mk_ack { cumulative : Z; sack : Z; rwnd : Z }.
Record Segment := mk_seg { stream_id : Z; seq : Z; fin : bool; data : list Z }.

Definition encode (s : Segment) : list Z := be_bytes 4 (stream_id s) ++ be_bytes 4 (seq s) ++ [Z.b2z (fin s)] ++ data s.

Definition decode (bytes : list Z) : option Segment :=
  letO i := slice 0 4 bytes in
  letO q := slice 4 8 bytes in
  letO f := bytes !! 8%nat in
  letO d := slice_from 9 bytes in
  Some (mk_seg (from_be i) (from_be q) (negb (f =? 0)) d).

(** ** The sender *)

Record StreamSender := mk_sender {
  s_id : Z;
  segments : list (list Z);
  base : Z;
  pending : list Z;
  finished : bool;
  acked : Z;
  sacked : gset Z;
  window : Z;
  peer_rwnd : Z;
  clock : Z;
  last_sent : gmap Z Z;
  due_at : gmap Z Z;
  retransmitted : gmap Z Z;
  rtt : RttEstimator;
  last_cumulative : Z;
  dup_acks : Z;
}.

Definition open (id : Z) : StreamSender :=
  mk_sender id [] 0 [] false 0 ∅ DEFAULT_WINDOW SACK_WIDTH 0 ∅ ∅ ∅ rtt_new 0 0.

(** The fields that [push], [flush] and [finish] change. *)
Definition set_queue (s : StreamSender) (segs : list (list Z)) (pend : list Z) (fin : bool) : StreamSender :=
  mk_sender (s_id s) segs (base s) pend fin (acked s) (sacked s) (window s) (peer_rwnd s) (clock s)
    (last_sent s) (due_at s) (retransmitted s) (rtt s) (last_cumulative s) (dup_acks s).

(** The fields that a sweep changes. *)
Definition set_timing (s : StreamSender) (c : Z) (ls da re : gmap Z Z) (e : RttEstimator) : StreamSender :=
  mk_sender (s_id s) (segments s) (base s) (pending s) (finished s) (acked s) (sacked s) (window s) (peer_rwnd s) c
    ls da re e (last_cumulative s) (dup_acks s).

(** [u32::try_from(n).unwrap_or(u32::MAX)]. *)
Definition u32_len {A} (l : list A) : Z := Z.min (Z.of_nat (length l)) (2 ^ 32 - 1).

Definition total (s : StreamSender) : Z := sat_add 32 (base s) (u32_len (segments s)).

Definition with_window (s : StreamSender) (w : Z) : StreamSender :=
  mk_sender (s_id s) (segments s) (base s) (pending s) (finished s) (acked s) (sacked s) (clamp w 1 SACK_WIDTH) (peer_rwnd s) (clock s)
    (last_sent s) (due_at s) (retransmitted s) (rtt s) (last_cumulative s) (dup_acks s).

(** One iteration per full segment, so the length of the tail is fuel enough. *)
Fixpoint seal_loop (fuel : nat) (segs : list (list Z)) (pend : list Z) : list (list Z) * list Z :=
  match fuel with
  | O => (segs, pend)
  | S fuel => if (MAX_SEGMENT <=? length pend)%nat then seal_loop fuel (segs ++ [take MAX_SEGMENT pend]) (drop MAX_SEGMENT pend) else (segs, pend)
  end.

Definition seal_full (s : StreamSender) : StreamSender :=
  let '(segs, pend) := seal_loop (length (pending s)) (segments s) (pending s) in set_queue s segs pend (finished s).

Definition push (s : StreamSender) (more : list Z) : StreamSender :=
  if finished s then s else seal_full (set_queue s (segments s) (pending s ++ more) (finished s)).

Definition flush (s : StreamSender) : StreamSender :=
  if finished s || bool_decide (pending s = []) then s else set_queue s (segments s ++ [pending s]) [] (finished s).

Definition finish (s : StreamSender) : StreamSender :=
  if finished s then s else set_queue s (segments s ++ [pending s]) [] true.

Definition sender_new (id : Z) (payload : list Z) : StreamSender := finish (push (open id) payload).

(** [for seq in acked..end]. *)
Definition sweep_range (s : StreamSender) : list Z :=
  let win := Z.min (window s) (Z.max (peer_rwnd s) 1) in
  let end_ := Z.min (w32 (acked s + win)) (total s) in
  seqZ (acked s) (end_ - acked s).

(** The segment of a sequence number, while it is held. *)
Definition segment_at (s : StreamSender) (q : Z) : list Segment :=
  match segments s !! Z.to_nat (q - base s) with
  | Some d => [mk_seg (s_id s) q (finished s && (q =? sat_sub (total s) 1)) d]
  | None => []
  end.

(** The schedule entry of a send and the time it is made. *)
Definition schedule (s : StreamSender) (q attempt : Z) : StreamSender :=
  let interval := sat_add 32 (rto (rtt s)) (jitter_ticks q attempt (rto (rtt s))) in
  set_timing s (clock s) (<[q := clock s]> (last_sent s)) (<[q := sat_add 32 (clock s) interval]> (due_at s)) (retransmitted s) (rtt s).

(** The loop body of [outbound]; the flag says that the estimator backed off in this sweep. *)
Definition send_due (st : StreamSender * bool * list Segment) (q : Z) : StreamSender * bool * list Segment :=
  let '(s, backed_off, out) := st in
  if bool_decide (q ∈ sacked s) then st else
  if q <? base s then st else
  let scheduled := due_at s !! q in
  if negb (match scheduled with None => true | Some at_ => at_ <=? clock s end) then st else
  let '(s, backed_off) :=
    match scheduled with
    | None => (s, backed_off)
    | Some _ =>
        (set_timing s (clock s) (last_sent s) (due_at s) (<[q := w32 (default 0 (retransmitted s !! q) + 1)]> (retransmitted s))
           (if backed_off then rtt s else back_off (rtt s)), true)
    end in
  let s := schedule s q (default 0 (retransmitted s !! q)) in
  (s, backed_off, out ++ segment_at s q).

Definition tick (s : StreamSender) : StreamSender :=
  set_timing s (sat_add 32 (clock s) 1) (last_sent s) (due_at s) (retransmitted s) (rtt s).

Definition outbound (s : StreamSender) : list Segment * StreamSender :=
  let s := tick s in
  let '(s, _, out) := fold_left send_due (sweep_range s) (s, false, []) in (out, s).

Definition send_new (st : StreamSender * list Segment) (q : Z) : StreamSender * list Segment :=
  let '(s, out) := st in
  if bool_decide (is_Some (due_at s !! q)) then st else
  if q <? base s then st else
  let s := schedule s q 0 in
  (s, out ++ segment_at s q).

Definition poll_new (s : StreamSender) : list Segment * StreamSender :=
  let '(s, out) := fold_left send_new (sweep_range s) (s, []) in (out, s).

(** [on_ack], in its order: the duplicate-ack counter, *)
Definition count_dup (s : StreamSender) (a : Ack) : gmap Z Z * Z * Z :=
  if (cumulative a =? last_cumulative s) && negb (sack a =? 0) && (cumulative a <? total s) then
    let dup := sat_add 32 (dup_acks s) 1 in
    if DUP_ACK_THRESHOLD <=? dup then
      let q := cumulative a in
      let target := sat_add 32 (clock s) (jitter_ticks q (default 0 (retransmitted s !! q)) FAST_RETX_JITTER_SPAN) in
      (<[q := match due_at s !! q with Some d => Z.min d target | None => target end]> (due_at s), last_cumulative s, 0)
    else (due_at s, last_cumulative s, dup)
  else if last_cumulative s <? cumulative a then (due_at s, cumulative a, 0)
  else (due_at s, last_cumulative s, dup_acks s).

(** the selective acks, *)
Definition record_sack (total : Z) (a : Ack) (held : gset Z) : gset Z :=
  fold_left (fun h i => if Z.testbit (sack a) i then
      let q := sat_add 32 (cumulative a) i in if q <? total then {[q]} ∪ h else h
    else h) (seqZ 1 (SACK_WIDTH - 1)) held.

(** the gap closed by them (each iteration removes one), *)
Fixpoint close_gap (fuel : nat) (acked : Z) (sacked : gset Z) : Z * gset Z :=
  match fuel with
  | O => (acked, sacked)
  | S fuel => if bool_decide (acked ∈ sacked) then close_gap fuel (sat_add 32 acked 1) (sacked ∖ {[acked]}) else (acked, sacked)
  end.

(** the measurement, *)
Definition measured (s : StreamSender) (from to : Z) : option Z :=
  letO q := list_find (fun q => bool_decide (is_Some (last_sent s !! q)) && negb (bool_decide (is_Some (retransmitted s !! q))) = true)
              (reverse (seqZ from (to - from))) ≫= (fun p => Some (snd p)) in
  letO sent := last_sent s !! q in
  Some (w32 (clock s - sent)).

(** and the reclaimed segments. *)
Fixpoint reclaim (segs : list (list Z)) (base acked : Z) : list (list Z) * Z :=
  match segs with
  | [] => ([], base)
  | _ :: rest => if base <? acked then reclaim rest (sat_add 32 base 1) acked else (segs, base)
  end.

(** [split_off(&at)]. *)
Definition split_off (at_ : Z) (m : gmap Z Z) : gmap Z Z := filter (fun e => at_ <= fst e) m.

Definition on_ack (s : StreamSender) (a : Ack) : StreamSender :=
  let total := total s in
  let prev_acked := acked s in
  let '(da, lc, dup) := count_dup s a in
  let ack1 := Z.min (Z.max (acked s) (cumulative a)) total in
  let sk := record_sack total a (sacked s) in
  let '(ack2, sk) := close_gap (size sk) ack1 sk in
  let sk := filter (fun q => ack2 <= q) sk in
  let e := if prev_acked <? ack2 then match measured s prev_acked ack2 with Some m => sample (rtt s) m | None => rtt s end else rtt s in
  let '(segs, b) := reclaim (segments s) (base s) ack2 in
  mk_sender (s_id s) segs b (pending s) (finished s) ack2 sk (window s) (rwnd a) (clock s)
    (split_off ack2 (last_sent s)) (split_off ack2 da) (split_off ack2 (retransmitted s)) e lc dup.

Definition is_complete (s : StreamSender) : bool := finished s && (total s <=? acked s).

Definition sender_buffered_bytes (s : StreamSender) : nat := list_sum (length <$> segments s) + length (pending s).

Definition stalled_attempts (s : StreamSender) : Z :=
  foldr Z.max 0 (snd <$> filter (fun e => acked s <= fst e /\ (fst e ∉ sacked s)) (map_to_list (retransmitted s))).

(** ** The receiver *)

Record StreamReceiver := mk_receiver {
  r_id : Z;
  received : gmap Z (list Z);
  next : Z;
  delivered : Z;
  fin_seq : option Z;
  recv_window : Z;
}.

Definition receiver_new (id : Z) : StreamReceiver := mk_receiver id ∅ 0 0 None DEFAULT_WINDOW.

Definition with_recv_window (r : StreamReceiver) (w : Z) : StreamReceiver :=
  mk_receiver (r_id r) (received r) (next r) (delivered r) (fin_seq r) (clamp w 1 SACK_WIDTH).

Definition ack (r : StreamReceiver) : Ack :=
  let bits := fold_left (fun b i => if bool_decide (is_Some (received r !! sat_add 32 (next r) i)) then Z.lor b (Z.shiftl 1 i) else b)
                (seqZ 1 (SACK_WIDTH - 1)) 0 in
  mk_ack (next r) bits (sat_sub (recv_window r) (Z.min (Z.of_nat (size (received r))) (2 ^ 32 - 1))).

(** [received.keys().next_back()]. *)
Definition last_key (m : gmap Z (list Z)) : option Z :=
  match fst <$> map_to_list m with [] => None | k :: ks => Some (foldr Z.max k ks) end.

(** [while self.received.contains_key(&self.next)]: at most one iteration per held segment. *)
Fixpoint advance (fuel : nat) (m : gmap Z (list Z)) (next : Z) : Z :=
  match fuel with
  | O => next
  | S fuel => if bool_decide (is_Some (m !! next)) then advance fuel m (sat_add 32 next 1) else next
  end.

(** [entry(seq).or_insert(data)]. *)
Definition or_insert (m : gmap Z (list Z)) (q : Z) (d : list Z) : gmap Z (list Z) := match m !! q with Some _ => m | None => <[q := d]> m end.

Definition on_segment (r : StreamReceiver) (g : Segment) : Ack * StreamReceiver :=
  if negb (stream_id g =? r_id r) then (ack r, r) else
  if (MAX_SEGMENT <? length (data g))%nat then (ack r, r) else
  if (delivered r <=? seq g) && (seq g <? sat_add 32 (delivered r) (recv_window r)) then
    let beyond_declared_end := match fin_seq r with Some f => f <? seq g | None => false end in
    let fin_contradicts_held := fin g && match last_key (received r) with Some hi => seq g <? hi | None => false end in
    if beyond_declared_end || fin_contradicts_held then (ack r, r) else
    let fs := if fin g then Some (seq g) else fin_seq r in
    let m := or_insert (received r) (seq g) (data g) in
    let r := mk_receiver (r_id r) m (advance (size m) m (next r)) (delivered r) fs (recv_window r) in
    (ack r, r)
  else (ack r, r).

Definition receiver_buffered_bytes (r : StreamReceiver) : nat := list_sum (length ∘ snd <$> map_to_list (received r)).

Fixpoint take_loop (count : nat) (m : gmap Z (list Z)) (delivered : Z) : list Z * gmap Z (list Z) :=
  match count with
  | O => ([], m)
  | S count =>
      let '(out, m') := take_loop count (delete delivered m) (sat_add 32 delivered 1) in
      (default [] (m !! delivered) ++ out, m')
  end.

Definition take_ (r : StreamReceiver) : list Z * StreamReceiver :=
  let '(out, m) := take_loop (Z.to_nat (next r - delivered r)) (received r) (delivered r) in
  (out, mk_receiver (r_id r) m (next r) (Z.max (delivered r) (next r)) (fin_seq r) (recv_window r)).

Definition deliver (r : StreamReceiver) : option (list Z) :=
  letO f := fin_seq r in
  if next r <=? f then None else
  letO ds := mapM (fun q => received r !! q) (seqZ 0 (f + 1)) in Some (concat ds).

Definition is_finished (r : StreamReceiver) : bool := match fin_seq r with Some f => f <? next r | None => false end.

(** A segment survives its bytes. *)
Lemma segment_roundtrip g : is_u32 (stream_id g) -> is_u32 (seq g) -> decode (encode g) = Some g.
Proof.
  intros Hi Hq. destruct g as [i q f d]. unfold decode, encode. cbn [stream_id seq fin data] in *. rewrite slice_prefix by apply length_be_bytes.
  rewrite slice_mid by (rewrite ?length_be_bytes; done). rewrite (app_assoc (be_bytes 4 i)).
  set (h := be_bytes 4 i ++ be_bytes 4 q). assert (Hh : length h = 8%nat) by (unfold h; by rewrite length_app, !length_be_bytes).
  rewrite lookup_app_r, Hh by lia. cbn [Nat.sub app lookup list_lookup].
  change (Z.b2z f :: d) with ([Z.b2z f] ++ d). rewrite app_assoc, slice_from_app by by rewrite length_app, Hh.
  rewrite !from_be_id by done. by destruct f.
Qed.

(** ** Counted loops *)

(** The held keys from [n] on. *)
Definition above (n : Z) (m : gmap Z (list Z)) : gmap Z (list Z) := filter (fun e => n <= fst e) m.

Lemma above_step n m : is_Some (m !! n) -> (size (above (n + 1) m) < size (above n m))%nat.
Proof.
  intros [d Hd]. assert (E : above (n + 1) m = delete n (above n m)).
  { apply map_eq. intros k. unfold above. destruct (decide (k = n)) as [->|Hne].
    - rewrite lookup_delete_eq, map_lookup_filter_None. right. intros x _. cbn. lia.
    - rewrite lookup_delete_ne by done. apply option_eq. intros x. rewrite !map_lookup_filter_Some. cbn [fst]. split; intros [? ?]; (split; [done|lia]). }
  assert (Hn : is_Some (above n m !! n)) by (exists d; unfold above; rewrite map_lookup_filter_Some; split; [done|cbn; lia]).
  rewrite E, map_size_delete. destruct Hn as [x Hx]. rewrite Hx. assert (Hne : size (above n m) <> 0%nat); [|lia].
  intros E0%map_size_empty_inv. by rewrite E0, lookup_empty in Hx.
Qed.

(** The frontier moves over the held run and stops at the first gap. *)
Lemma advance_spec m : (forall k, is_Some (m !! k) -> k < 2 ^ 32 - 1) -> forall fuel n, (size (above n m) <= fuel)%nat ->
  let n' := advance fuel m n in n <= n' /\ (forall k, n <= k < n' -> is_Some (m !! k)) /\ m !! n' = None.
Proof.
  intros Hk. induction fuel as [|fuel IH]; intros n Hf; cbn [advance]; cbv zeta.
  - split; [lia|]. split; [lia|]. destruct (m !! n) eqn:E; [|done]. pose proof (above_step n m ltac:(by eexists)). lia.
  - case_bool_decide as Hn.
    + assert (Hs : sat_add 32 n 1 = n + 1) by (specialize (Hk n Hn); unfold sat_add; lia). rewrite Hs.
      pose proof (above_step n m Hn). destruct (IH (n + 1) ltac:(lia)) as (H1 & H2 & H3). split; [lia|]. split; [|done].
      intros k Hr. destruct (decide (k = n)) as [->|]; [done|]. apply H2. lia.
    + split; [lia|]. split; [lia|]. by apply eq_None_not_Some.
Qed.

Lemma above_size n m : (size (above n m) <= size m)%nat.
Proof. apply map_subseteq_size, map_filter_subseteq. Qed.

Lemma last_key_spec m : match last_key m with
  | Some hi => is_Some (m !! hi) /\ forall k, is_Some (m !! k) -> k <= hi
  | None => m = ∅
  end.
Proof.
  unfold last_key. destruct (map_to_list m) as [|[k0 d0] l] eqn:E; cbn [fmap list_fmap]; [by apply map_to_list_empty_iff|]. cbn [fst].
  assert (Hk : forall k, is_Some (m !! k) <-> k = k0 \/ k ∈ l.*1).
  { intros k. split.
    - intros [d Hd%elem_of_map_to_list]. rewrite E, elem_of_cons in Hd. destruct Hd as [[= -> ->]|Hd]; [by left|right]. apply list_elem_of_fmap. by exists (k, d).
    - intros [->|Hin]; [exists d0; apply elem_of_map_to_list; rewrite E; by left|].
      apply list_elem_of_fmap in Hin as ([k' d] & -> & Hin). exists d. apply elem_of_map_to_list. rewrite E. by right. }
  assert (Hf : forall ks : list Z, (foldr Z.max k0 ks = k0 \/ foldr Z.max k0 ks ∈ ks) /\ k0 <= foldr Z.max k0 ks /\ forall k, k ∈ ks -> k <= foldr Z.max k0 ks).
  { induction ks as [|k ks (H1 & H2 & H3)]; cbn [foldr]; [split; [by left|]; split; [lia|]; intros k Hk0; by apply elem_of_nil in Hk0|].
    split; [|split; [lia|intros k' [->|Hin]%elem_of_cons; [lia|]; specialize (H3 k' Hin); lia]].
    destruct (Z.max_spec k (foldr Z.max k0 ks)) as [[_ ->]|[_ ->]]; [|right; by left]. destruct H1; [by left|right; by right]. }
  destruct (Hf (l.*1)) as (H1 & H2 & H3). split; [by apply Hk|]. intros k [->|Hin]%Hk; [done|by apply H3].
Qed.

(** Reading drains the contiguous run. *)
Lemma take_loop_spec (f : Z -> list Z) n : forall m d, d + Z.of_nat n <= 2 ^ 32 - 1 -> (forall k, d <= k < d + Z.of_nat n -> m !! k = Some (f k)) ->
  let '(out, m') := take_loop n m d in
  out = concat (f <$> seqZ d (Z.of_nat n)) /\ forall k, m' !! k = if decide (d <= k < d + Z.of_nat n) then None else m !! k.
Proof.
  induction n as [|n IH]; intros m d Hb Hm; cbn [take_loop].
  - split; [done|]. intros k. by rewrite decide_False by lia.
  - rewrite Nat2Z.inj_succ in *. assert (Hs : sat_add 32 d 1 = d + 1) by (unfold sat_add; lia). rewrite Hs.
    specialize (IH (delete d m) (d + 1)). destruct (take_loop n (delete d m) (d + 1)) as [out m'].
    destruct IH as [-> Hm']; [lia|intros k Hk; rewrite lookup_delete_ne by lia; apply Hm; lia|]. split.
    + rewrite (Hm d), (seqZ_cons d), Z.pred_succ by lia. done.
    + intros k. rewrite Hm'. destruct (decide (k = d)) as [->|Hne]; [rewrite lookup_delete_eq; by repeat case_decide; try lia|].
      rewrite lookup_delete_ne by done. repeat case_decide; (done || lia).
Qed.

Lemma or_insert_Some m q d k x : or_insert m q d !! k = Some x -> m !! k = Some x \/ (k = q /\ x = d).
Proof.
  unfold or_insert. destruct (m !! q) eqn:E; [by left|]. destruct (decide (k = q)) as [->|]; [rewrite lookup_insert_eq; intros [= <-]; by right|].
  rewrite lookup_insert_ne by done. by left.
Qed.

Lemma or_insert_is_Some m q d k : is_Some (or_insert m q d !! k) <-> is_Some (m !! k) \/ k = q.
Proof.
  unfold or_insert. destruct (m !! q) eqn:Es; [split; [by left|intros [?| ->]; [done|by eexists]]|].
  destruct (decide (k = q)) as [->|]; [rewrite lookup_insert_eq; split; [by right|by eexists]|]. rewrite lookup_insert_ne by done. naive_solver.
Qed.

(** ** A receiver whatever its peer sends *)

Record receiver_inv (r : StreamReceiver) : Prop := {
  ri_window : 1 <= recv_window r <= SACK_WIDTH;
  ri_range : 0 <= delivered r <= next r /\ next r <= 2 ^ 32 - 1;
  ri_keys : forall k, is_Some (received r !! k) -> delivered r <= k < delivered r + recv_window r /\ k < 2 ^ 32 - 1;
  ri_size : forall k d, received r !! k = Some d -> (length d <= MAX_SEGMENT)%nat;
  ri_run : forall k, delivered r <= k < next r -> is_Some (received r !! k);
  ri_gap : received r !! next r = None;
  ri_end : forall f, fin_seq r = Some f -> (forall k, is_Some (received r !! k) -> k <= f) /\ next r <= f + 1 /\ (f < delivered r \/ is_Some (received r !! f));
}.

Lemma receiver_new_inv id w : receiver_inv (with_recv_window (receiver_new id) w).
Proof.
  split; cbn [with_recv_window receiver_new recv_window delivered next received fin_seq]; try done.
  - unfold clamp, SACK_WIDTH. lia.
  - intros k [? Hk]. by rewrite lookup_empty in Hk.
  - intros; lia.
Qed.

(** The segment enters the buffer. *)
Lemma on_segment_cases r g : snd (on_segment r g) = r \/
  (stream_id g = r_id r /\ (length (data g) <= MAX_SEGMENT)%nat /\ delivered r <= seq g < sat_add 32 (delivered r) (recv_window r) /\
   (forall f, fin_seq r = Some f -> seq g <= f) /\ (fin g = true -> forall k, is_Some (received r !! k) -> k <= seq g) /\
   let m := or_insert (received r) (seq g) (data g) in
   snd (on_segment r g) = mk_receiver (r_id r) m (advance (size m) m (next r)) (delivered r) (if fin g then Some (seq g) else fin_seq r) (recv_window r)).
Proof.
  unfold on_segment. destruct (Z.eqb_spec (stream_id g) (r_id r)); cbn [negb]; [|by left].
  destruct (Nat.ltb_spec MAX_SEGMENT (length (data g))); [by left|].
  destruct (Z.leb_spec (delivered r) (seq g)); cbn [andb]; [|by left]. destruct (Z.ltb_spec (seq g) (sat_add 32 (delivered r) (recv_window r))); [|by left].
  destruct (match fin_seq r with Some f => f <? seq g | None => false end) eqn:Ef; cbn [orb]; [by left|].
  destruct (fin g && _) eqn:Eh; [by left|]. right. split_and!; try done.
  - intros f Hf. rewrite Hf in Ef. by apply Z.ltb_ge.
  - intros Hg k Hk. rewrite Hg in Eh. cbn [andb] in Eh. pose proof (last_key_spec (received r)) as Hl. destruct (last_key (received r)) as [hi|].
    + apply Z.ltb_ge in Eh. destruct Hl as [_ Hl]. specialize (Hl k Hk). lia.
    + rewrite Hl in Hk. destruct Hk as [? Hk]. by rewrite lookup_empty in Hk.
Qed.

Lemma on_segment_inv r g : receiver_inv r ->
  receiver_inv (snd (on_segment r g)) /\ (forall f, fin_seq r = Some f -> fin_seq (snd (on_segment r g)) = Some f).
Proof.
  intros Hi. destruct (on_segment_cases r g) as [->|(_ & Hd & Hw & Hf & Hh & E)]; [done|]. cbv zeta in E. rewrite E. clear E.
  set (m := or_insert _ _ _). pose proof (or_insert_is_Some (received r) (seq g) (data g)) as Hm. fold m in Hm.
  assert (Hsz : forall k d, m !! k = Some d -> (length d <= MAX_SEGMENT)%nat).
  { intros k d [Hd'|[-> ->]]%or_insert_Some; [by eapply ri_size|done]. }
  pose proof (ri_range r Hi) as [[H0 Hdn] Hnm]. pose proof (ri_window r Hi) as Hwin. unfold sat_add in Hw.
  assert (Hmax : forall k, is_Some (m !! k) -> delivered r <= k < delivered r + recv_window r /\ k < 2 ^ 32 - 1).
  { intros k [Hk| ->]%Hm; [by apply ri_keys|lia]. }
  destruct (advance_spec m ltac:(intros k Hk; by apply Hmax) (size m) (next r) (above_size (next r) m)) as (Hn1 & Hn2 & Hn3).
  set (n' := advance (size m) m (next r)) in *.
  assert (Hle : forall f, (forall k, is_Some (m !! k) -> k <= f) -> next r <= f + 1 -> n' <= f + 1).
  { intros f Hk Hnf. destruct (decide (n' = next r)) as [->|]; [done|]. specialize (Hk (n' - 1) (Hn2 (n' - 1) ltac:(lia))). lia. }
  assert (Hn' : n' <= 2 ^ 32 - 1) by (destruct (decide (n' = next r)) as [->|]; [done|]; destruct (Hmax (n' - 1) (Hn2 (n' - 1) ltac:(lia))); lia).
  split; [split; cbn [recv_window delivered next received fin_seq]; try done; [lia| | ]|cbn [fin_seq]].
  - intros k Hk. destruct (decide (k < next r)) as [Hlt|]; [apply Hm; left; apply (ri_run r Hi); lia|apply Hn2; lia].
  - intros f Ef. destruct (fin g) eqn:Eg.
    + injection Ef as <-. assert (Hk : forall k, is_Some (m !! k) -> k <= seq g) by (intros k [Hk| ->]%Hm; [by apply Hh|lia]).
      split; [done|]. split; [|right; apply Hm; by right]. apply Hle; [done|].
      destruct (decide (next r = delivered r)); [lia|]. specialize (Hh eq_refl (next r - 1) ltac:(apply (ri_run r Hi); lia)). lia.
    + destruct (ri_end r Hi f Ef) as (Hk & Hnf & Hhf). specialize (Hf f Ef).
      assert (Hk' : forall k, is_Some (m !! k) -> k <= f) by (intros k [Hk'| ->]%Hm; [by apply Hk|done]).
      split; [done|]. split; [by apply Hle|]. destruct Hhf as [?|Hhf]; [lia|right; apply Hm; by left].
  - intros f Ef. destruct (fin g) eqn:Eg; [|done]. destruct (ri_end r Hi f Ef) as (_ & _ & Hhf). specialize (Hf f Ef).
    destruct Hhf as [?|Hhf]; [lia|]. specialize (Hh eq_refl f Hhf). f_equal. lia.
Qed.

(** What reading does, when the held run is [f]. *)
Lemma take_spec r f : receiver_inv r -> (forall k, delivered r <= k < next r -> received r !! k = Some (f k)) ->
  fst (take_ r) = concat (f <$> seqZ (delivered r) (next r - delivered r)) /\
  exists m, snd (take_ r) = mk_receiver (r_id r) m (next r) (next r) (fin_seq r) (recv_window r) /\
    forall k, m !! k = if decide (delivered r <= k < next r) then None else received r !! k.
Proof.
  intros Hi Hf. unfold take_. pose proof (ri_range r Hi) as [[H0 Hdn] Hnm]. set (n := Z.to_nat (next r - delivered r)).
  assert (Hn : Z.of_nat n = next r - delivered r) by (unfold n; lia).
  pose proof (take_loop_spec f n (received r) (delivered r) ltac:(lia)) as Ht. destruct (take_loop n (received r) (delivered r)) as [out m].
  destruct Ht as [-> Hm]; [intros k Hk; apply Hf; lia|]. rewrite Hn. split; [done|]. exists m. rewrite Z.max_r by lia. split; [done|].
  intros k. rewrite Hm, Hn. repeat case_decide; (done || lia).
Qed.

Lemma take_inv r : receiver_inv r -> receiver_inv (snd (take_ r)) /\ fin_seq (snd (take_ r)) = fin_seq r.
Proof.
  intros Hi. destruct (take_spec r (fun k => default [] (received r !! k)) Hi) as [_ (m & -> & Hm)].
  { intros k Hk. destruct (ri_run r Hi k Hk) as [d ->]. done. }
  pose proof (ri_range r Hi) as [[H0 Hdn] Hnm]. split; [|done].
  assert (Hk : forall k d, m !! k = Some d -> received r !! k = Some d /\ next r <= k).
  { intros k d. rewrite Hm. case_decide as E; [done|]. intros Hd. split; [done|].
    destruct (ri_keys r Hi k ltac:(by eexists)). lia. }
  split; cbn [recv_window delivered next received fin_seq]; try done.
  - apply (ri_window r Hi).
  - lia.
  - intros k [d Hd]. destruct (Hk k d Hd) as [Hd' ?]. destruct (ri_keys r Hi k ltac:(by eexists)). lia.
  - intros k d Hd. apply (ri_size r Hi k), Hk, Hd.
  - lia.
  - rewrite Hm. case_decide; [done|]. apply (ri_gap r Hi).
  - intros f Ef. destruct (ri_end r Hi f Ef) as (Hkf & Hnf & Hhf). split; [intros k [d Hd]; apply Hkf; exists d; by apply Hk|]. split; [done|].
    destruct (decide (f < next r)) as [|Hge]; [by left|right]. rewrite Hm. case_decide; [lia|]. destruct Hhf; [lia|done].
Qed.

(** Keys in an interval are few. *)
Lemma interval_size (m : gmap Z (list Z)) a w : 0 <= w -> (forall k, is_Some (m !! k) -> a <= k < a + w) -> Z.of_nat (size m) <= w.
Proof.
  intros Hw Hk. assert (Hl : (length (map_to_list m).*1 <= length (seqZ a w))%nat).
  { apply submseteq_length, NoDup_submseteq; [apply NoDup_fst_map_to_list|]. intros k Hin. apply list_elem_of_fmap in Hin as ([k' d] & -> & Hin).
    apply elem_of_map_to_list in Hin. apply elem_of_seqZ, Hk. by eexists. }
  rewrite length_fmap, length_map_to_list, length_seqZ in Hl. lia.
Qed.

Lemma bounded_sum (l : list (Z * list Z)) b : (forall e, e ∈ l -> (length (snd e) <= b)%nat) -> (list_sum (length ∘ snd <$> l) <= length l * b)%nat.
Proof.
  induction l as [|e l IH]; intros Hb; [done|]. pose proof (Hb e ltac:(by left)) as He. specialize (IH ltac:(intros; apply Hb; by right)).
  csimpl. change (list_sum (?a :: ?k)) with (a + list_sum k)%nat. change ((length ∘ snd) e) with (length (snd e)). lia.
Qed.

Inductive rop := Seg (g : Segment) | Take.
Definition rstep (r : StreamReceiver) (o : rop) : StreamReceiver := match o with Seg g => snd (on_segment r g) | Take => snd (take_ r) end.
Definition rrun (r : StreamReceiver) (os : list rop) : StreamReceiver := fold_left rstep os r.

Lemma rrun_inv os : forall r, receiver_inv r ->
  receiver_inv (rrun r os) /\ recv_window (rrun r os) = recv_window r /\ forall f, fin_seq r = Some f -> fin_seq (rrun r os) = Some f.
Proof.
  induction os as [|o os IH]; intros r Hi; cbn [rrun fold_left]; [done|].
  assert (Ho : receiver_inv (rstep r o) /\ recv_window (rstep r o) = recv_window r /\ forall f, fin_seq r = Some f -> fin_seq (rstep r o) = Some f).
  { destruct o as [g|]; cbn [rstep].
    - destruct (on_segment_inv r g Hi) as [H1 H2]. split; [done|]. split; [|done]. destruct (on_segment_cases r g) as [->|(_ & _ & _ & _ & _ & ->)]; done.
    - destruct (take_inv r Hi) as [H1 H2]. split; [done|]. rewrite H2. split; [|done]. unfold take_. by destruct (take_loop _ _ _). }
  destruct Ho as (H1 & H2 & H3). destruct (IH (rstep r o) H1) as (H4 & H5 & H6). split; [done|]. split; [by rewrite <- H2|]. intros f Ef. by apply H6, H3.
Qed.

(** No peer can overfill a receiver or move the end of a stream.  Whatever segments arrive and however
    the application reads, the receiver holds at most its window of segments of bounded size, its
    advertised credit and what it holds add up to the window, nothing is held beyond a declared end, and
    a declared end stays for good. *)
Theorem receiver_withstands_any_peer (id w : Z) (os os' : list rop) :
  let r := rrun (with_recv_window (receiver_new id) w) os in
  Z.of_nat (size (received r)) + rwnd (ack r) = clamp w 1 SACK_WIDTH /\
  (receiver_buffered_bytes r <= Z.to_nat (clamp w 1 SACK_WIDTH) * MAX_SEGMENT)%nat /\
  (forall f, fin_seq r = Some f -> (forall k, is_Some (received r !! k) -> k <= f) /\ fin_seq (rrun r os') = Some f).
Proof.
  intros r. destruct (rrun_inv os _ (receiver_new_inv id w)) as (Hi & Hw & _). fold r in Hi, Hw. cbn [with_recv_window recv_window] in Hw.
  pose proof (ri_window r Hi) as Hwin. assert (Hs : Z.of_nat (size (received r)) <= recv_window r).
  { apply (interval_size _ (delivered r)); [lia|]. intros k Hk. by apply (ri_keys r Hi). }
  split; [unfold ack; cbn [rwnd]; unfold sat_sub, SACK_WIDTH in *; lia|]. split.
  - unfold receiver_buffered_bytes. etrans; [apply (bounded_sum _ MAX_SEGMENT)|].
    + intros [k d] Hd%elem_of_map_to_list. by apply (ri_size r Hi k).
    + rewrite length_map_to_list. apply Nat.mul_le_mono_r. lia.
  - intros f Ef. split; [by apply (ri_end r Hi f Ef)|]. by apply (rrun_inv os' r Hi).
Qed.

End Stream.
