(* ===== verification/StreamWorld.v ===== *)
(** * Reliable delivery

    One sender and one receiver of [Stream.v] on a network that hands over any segment or
    acknowledgement in flight at any time and any number of times, and may lose any of them for good
    ([Lose], [LoseAck]).  The ghost fields [pushed], [sealed] and [taken] record what the writer wrote, the segments it
    was cut into and what the reader read. *)
From S2P Require Import Prelude Codec Stream.
Local Open Scope Z_scope.

Module StreamWorld.
Import Stream.

Record World := mk_world {
  sender : StreamSender;
  receiver : StreamReceiver;
  flight : list Segment;
  acks : list Ack;
  pushed : list Z;
  sealed : list (list Z);
  taken : list Z;
}.

Definition world_new (id ws wr : Z) : World :=
  mk_world (with_window (open id) ws) (with_recv_window (receiver_new id) wr) [] [] [] [] [].

Inductive event :=
| Push (bytes : list Z)
| Flush
| Finish
| Sweep
| Poll
| Arrive (i : nat)
| AckArrive (i : nat)
| Lose (i : nat)
| LoseAck (i : nat)
| Read.

(** The sender after an operation that only seals. *)
Definition sealing (w : World) (s : StreamSender) (more : list Z) : World :=
  mk_world s (receiver w) (flight w) (acks w) (pushed w ++ more) (sealed w ++ drop (length (segments (sender w))) (segments s)) (taken w).

Definition sending (w : World) (r : list Segment * StreamSender) : World :=
  mk_world (snd r) (receiver w) (flight w ++ fst r) (acks w) (pushed w) (sealed w) (taken w).

Definition step (w : World) (e : event) : World :=
  match e with
  | Push bytes => sealing w (push (sender w) bytes) (if finished (sender w) then [] else bytes)
  | Flush => sealing w (flush (sender w)) []
  | Finish => sealing w (finish (sender w)) []
  | Sweep => sending w (outbound (sender w))
  | Poll => sending w (poll_new (sender w))
  | Arrive i =>
      match flight w !! i with
      | Some g => let '(a, r) := on_segment (receiver w) g in
          mk_world (sender w) r (flight w) (acks w ++ [a]) (pushed w) (sealed w) (taken w)
      | None => w
      end
  | AckArrive i =>
      match acks w !! i with
      | Some a => mk_world (on_ack (sender w) a) (receiver w) (flight w) (acks w) (pushed w) (sealed w) (taken w)
      | None => w
      end
  | Lose i => mk_world (sender w) (receiver w) (delete i (flight w)) (acks w) (pushed w) (sealed w) (taken w)
  | LoseAck i => mk_world (sender w) (receiver w) (flight w) (delete i (acks w)) (pushed w) (sealed w) (taken w)
  | Read => let '(out, r) := take_ (receiver w) in
      mk_world (sender w) r (flight w) (acks w) (pushed w) (sealed w) (taken w ++ out)
  end.

Definition run (w : World) (es : list event) : World := fold_left step es w.

(** ** The invariant *)

(** The receiver has had segment [q]. *)
Definition has (r : StreamReceiver) (q : Z) : Prop := q < next r \/ is_Some (received r !! q).

Definition len (w : World) : Z := Z.of_nat (length (sealed w)).

Record timing (s : StreamSender) : Prop := {
  t_clock : 0 <= clock s <= 2 ^ 32 - 1;
  t_rto : 1 <= rto (rtt s) <= RTO_MAX_TICKS /\ 1 <= base_rto (rtt s) <= RTO_MAX_TICKS;
  t_due : forall q at_, due_at s !! q = Some at_ -> at_ <= 2 ^ 32 - 1 /\ at_ <= clock s + 2 * RTO_MAX_TICKS;
}.

Record inv (w : World) : Prop := {
  i_recv : receiver_inv (receiver w);
  i_id : r_id (receiver w) = s_id (sender w);
  i_base : base (sender w) = acked (sender w);
  i_segs : segments (sender w) = drop (Z.to_nat (acked (sender w))) (sealed w);
  i_push : pushed w = concat (sealed w) ++ pending (sender w);
  i_pend : (length (pending (sender w)) < MAX_SEGMENT)%nat;
  i_fin : finished (sender w) = true -> pending (sender w) = [] /\ 0 < len w;
  i_sizes : Forall (fun d => length d <= MAX_SEGMENT)%nat (sealed w);
  i_order : 0 <= acked (sender w) <= next (receiver w) /\ next (receiver w) <= len w;
  i_sacked : forall q, q ∈ sacked (sender w) -> acked (sender w) < q /\ has (receiver w) q;
  i_window : 1 <= window (sender w) <= SACK_WIDTH;
  i_flight : forall g, g ∈ flight w -> stream_id g = s_id (sender w) /\ 0 <= seq g /\
    sealed w !! Z.to_nat (seq g) = Some (data g) /\ fin g = finished (sender w) && (seq g =? len w - 1);
  i_acks : forall a, a ∈ acks w -> 0 <= cumulative a <= next (receiver w) /\
    forall i, 1 <= i < SACK_WIDTH -> Z.testbit (sack a) i = true -> has (receiver w) (cumulative a + i);
  i_held : forall k d, received (receiver w) !! k = Some d -> sealed w !! Z.to_nat k = Some d;
  i_end : forall f, fin_seq (receiver w) = Some f -> finished (sender w) = true /\ f = len w - 1;
  i_last : finished (sender w) = true -> has (receiver w) (len w - 1) -> fin_seq (receiver w) = Some (len w - 1);
  i_taken : taken w = concat (take (Z.to_nat (delivered (receiver w))) (sealed w));
  i_time : timing (sender w);
}.

(** The streams whose sequence space does not run out. *)
Definition fits (w : World) : Prop := len w < 2 ^ 32 - SACK_WIDTH.

Lemma world_new_inv id ws wr : inv (world_new id ws wr).
Proof.
  split; cbn; try done.
  - apply receiver_new_inv.
  - unfold MAX_SEGMENT. lia.
  - unfold clamp, SACK_WIDTH. lia.
  - intros g Hg. by apply elem_of_nil in Hg.
  - intros a Ha. by apply elem_of_nil in Ha.
Qed.

(** ** Sealing *)

Lemma total_len w : inv w -> fits w -> total (sender w) = len w.
Proof.
  intros Hi Hf. unfold total, u32_len, fits, SACK_WIDTH, len in *. rewrite (i_base w Hi), (i_segs w Hi), length_drop.
  pose proof (i_order w Hi) as Ho. unfold len in Ho. unfold sat_add. lia.
Qed.

(** What an operation that seals does: it appends [new] and leaves [pend]. *)
Lemma sealing_inv w s more new pend fin' : inv w ->
  s = set_queue (sender w) (segments (sender w) ++ new) pend fin' -> (finished (sender w) = true -> fin' = true) ->
  (fin' = true -> finished (sender w) = false -> exists d, new = [d]) -> (finished (sender w) = true -> new = []) ->
  pending (sender w) ++ more = concat new ++ pend -> Forall (fun d => length d <= MAX_SEGMENT)%nat new ->
  (length pend < MAX_SEGMENT)%nat -> (fin' = true -> pend = []) -> inv (sealing w s more).
Proof.
  intros Hi -> Hfm Hfn Hnn Hbytes Hsz Hpl Hpe. unfold sealing. cbn [segments set_queue]. rewrite drop_app_length.
  pose proof (i_order w Hi) as [[Ha0 Han] Hnl]. unfold len in *.
  assert (Hl : forall k d, sealed w !! k = Some d -> (sealed w ++ new) !! k = Some d) by (intros; by apply lookup_app_l_Some).
  assert (Hlen : Z.of_nat (length (sealed w ++ new)) = Z.of_nat (length (sealed w)) + Z.of_nat (length new)) by (rewrite length_app; lia).
  assert (Hk : forall q, has (receiver w) q -> q < Z.of_nat (length (sealed w))).
  { intros q [?|[d Hd]]; [lia|]. pose proof (ri_keys _ (i_recv w Hi) q ltac:(by eexists)). pose proof (ri_range _ (i_recv w Hi)).
    apply (i_held w Hi) in Hd. apply lookup_lt_Some in Hd. lia. }
  split; cbn [sender receiver flight acks pushed sealed taken set_queue s_id segments base pending finished acked sacked window]; unfold len; cbn [sealed].
  - apply (i_recv w Hi).
  - apply (i_id w Hi).
  - apply (i_base w Hi).
  - rewrite (i_segs w Hi), drop_app_le by lia. done.
  - rewrite (i_push w Hi), concat_app, <- !app_assoc. by f_equal.
  - done.
  - intros Hf. split; [by apply Hpe|]. rewrite Hlen. destruct (finished (sender w)) eqn:E.
    + destruct (i_fin w Hi E) as [_ Hp]. unfold len in Hp. lia.
    + destruct (Hfn Hf eq_refl) as [d ->]. cbn. lia.
  - apply Forall_app. split; [apply (i_sizes w Hi)|done].
  - lia.
  - apply (i_sacked w Hi).
  - apply (i_window w Hi).
  - intros g Hg. destruct (i_flight w Hi g Hg) as (H1 & H2 & H3 & H4). split_and!; try done; [by apply Hl|]. rewrite H4, Hlen. unfold len.
    apply lookup_lt_Some in H3. destruct (finished (sender w)) eqn:E.
    + rewrite (Hnn eq_refl). cbn [length]. rewrite (Hfm eq_refl). do 2 f_equal. lia.
    + destruct fin'; [|done]. destruct (Hfn eq_refl eq_refl) as [d ->]. cbn [length andb]. symmetry. apply Z.eqb_neq. lia.
  - apply (i_acks w Hi).
  - intros k d Hd. by apply Hl, (i_held w Hi).
  - intros f Hf. destruct (i_end w Hi f Hf) as [E ->]. split; [by apply Hfm|]. rewrite Hlen, (Hnn E). unfold len. cbn. lia.
  - intros Hf Hh. specialize (Hk _ Hh). destruct (finished (sender w)) eqn:E.
    + rewrite (Hnn eq_refl), app_nil_r in *. by apply (i_last w Hi).
    + destruct (Hfn Hf eq_refl) as [d ->]. cbn [length] in *. lia.
  - rewrite (i_taken w Hi), take_app_le; [done|]. pose proof (ri_range _ (i_recv w Hi)). lia.
  - destruct (i_time w Hi). by split.
Qed.

Lemma seal_loop_spec fuel : forall segs pend, (length pend <= fuel)%nat -> exists new pend', seal_loop fuel segs pend = (segs ++ new, pend') /\
  pend = concat new ++ pend' /\ Forall (fun d => length d <= MAX_SEGMENT)%nat new /\ (length pend' < MAX_SEGMENT)%nat.
Proof.
  induction fuel as [|fuel IH]; intros segs pend Hf; cbn [seal_loop].
  - exists [], pend. rewrite app_nil_r. split_and!; try done. unfold MAX_SEGMENT. lia.
  - destruct (Nat.leb_spec MAX_SEGMENT (length pend)) as [Hm|Hm].
    + destruct (IH (segs ++ [take MAX_SEGMENT pend]) (drop MAX_SEGMENT pend)) as (new & pend' & E & Hb & Hs & Hl); [rewrite length_drop; unfold MAX_SEGMENT in *; lia|].
      exists (take MAX_SEGMENT pend :: new), pend'. rewrite E, <- app_assoc. split_and!; try done.
      * cbn [concat]. by rewrite <- app_assoc, <- Hb, take_drop.
      * constructor; [rewrite length_take; lia|done].
    + exists [], pend. rewrite app_nil_r. by split_and!.
Qed.

Lemma set_queue_id s : set_queue s (segments s ++ []) (pending s) (finished s) = s.
Proof. rewrite app_nil_r. by destruct s. Qed.

Lemma sealing_nothing w : inv w -> inv (sealing w (sender w) []).
Proof.
  intros Hi. apply (sealing_inv w _ _ [] (pending (sender w)) (finished (sender w)) Hi); try done.
  - by rewrite set_queue_id.
  - intros E. by rewrite E.
  - by rewrite app_nil_r.
  - apply (i_pend w Hi).
  - intros E. by apply (i_fin w Hi).
Qed.

(** The tail becomes a segment. *)
Lemma sealing_tail w fin' : inv w -> finished (sender w) = false ->
  inv (sealing w (set_queue (sender w) (segments (sender w) ++ [pending (sender w)]) [] fin') []).
Proof.
  intros Hi E. pose proof (i_pend w Hi) as Hp. apply (sealing_inv w _ _ [pending (sender w)] [] fin' Hi); rewrite ?E; try done.
  - by eexists.
  - cbn. by rewrite !app_nil_r.
  - constructor; [lia|constructor].
  - cbn. unfold MAX_SEGMENT. lia.
Qed.

Lemma push_inv w bytes : inv w -> inv (step w (Push bytes)).
Proof.
  intros Hi. cbn [step]. unfold push. destruct (finished (sender w)) eqn:E; [by apply sealing_nothing|].
  unfold seal_full. cbn [set_queue pending segments finished].
  destruct (seal_loop_spec (length (pending (sender w) ++ bytes)) (segments (sender w)) (pending (sender w) ++ bytes) ltac:(lia)) as (new & pend & -> & Hb & Hs & Hl).
  apply (sealing_inv w _ _ new pend (finished (sender w)) Hi); rewrite ?E; try done.
Qed.

Lemma flush_inv w : inv w -> inv (step w Flush).
Proof.
  intros Hi. cbn [step]. unfold flush. destruct (finished (sender w)) eqn:E; cbn [orb]; [by apply sealing_nothing|].
  case_bool_decide; [by apply sealing_nothing|by apply sealing_tail].
Qed.

Lemma finish_inv w : inv w -> inv (step w Finish).
Proof. intros Hi. cbn [step]. unfold finish. destruct (finished (sender w)) eqn:E; [by apply sealing_nothing|by apply sealing_tail]. Qed.

(** ** Sweeps *)

(** What a sweep leaves alone. *)
Definition core (s : StreamSender) := (s_id s, segments s, base s, pending s, finished s, acked s, sacked s, window s, peer_rwnd s).

Lemma segment_at_core s s' q : core s = core s' -> segment_at s q = segment_at s' q.
Proof. unfold core. intros E. injection E as E1 E2 E3 _ E5 _ _ _ _. unfold segment_at, total. by rewrite E1, E2, E3, E5. Qed.

Lemma jitter_range q a r : 0 <= jitter_ticks q a r < Z.max r 1.
Proof.
  unfold jitter_ticks. cbv zeta. set (p := w32 _). assert (Hp : 0 <= p < 2 ^ 32) by (apply wrap_range; lia). rewrite Z.shiftr_div_pow2 by lia.
  assert (0 <= p * Z.max r 1 / 2 ^ 32 < Z.max r 1) by (split; [apply Z.div_pos; nia|apply Z.div_lt_upper_bound; nia]). case_match; lia.
Qed.

Lemma back_off_range e : 1 <= rto e <= RTO_MAX_TICKS -> 1 <= base_rto e <= RTO_MAX_TICKS ->
  1 <= rto (back_off e) <= RTO_MAX_TICKS /\ base_rto (back_off e) = base_rto e.
Proof. unfold back_off, sat_mul, RTO_BACKOFF_MULT, RTO_MAX_TICKS, RTO_MIN_TICKS. cbn. lia. Qed.

Lemma schedule_timing s q a : timing s -> timing (schedule s q a).
Proof.
  intros [Hc Hr Hd]. split; cbn [schedule set_timing clock rtt due_at]; try done. intros q' at_.
  destruct (decide (q' = q)) as [->|Hne]; [rewrite lookup_insert_eq|rewrite lookup_insert_ne by done; apply Hd].
  intros [= <-]. pose proof (jitter_range q a (rto (rtt s))). unfold sat_add. lia.
Qed.

Lemma send_due_spec s b out q s' b' out' : timing s -> send_due (s, b, out) q = (s', b', out') ->
  core s' = core s /\ clock s' = clock s /\ timing s' /\ (out' = out \/ out' = out ++ segment_at s q).
Proof.
  intros Ht. unfold send_due. case_bool_decide; [intros [= <- <- <-]; auto|]. case_match; [intros [= <- <- <-]; auto|]. cbv zeta.
  case_match; [intros [= <- <- <-]; auto|]. destruct (due_at s !! q) eqn:Ed.
  - set (s1 := set_timing s _ _ _ _ _). assert (Ht1 : timing s1).
    { destruct Ht as [Hc [Hr Hb] Hd]. split; cbn [s1 set_timing clock rtt due_at]; try done. destruct b; [done|].
      destruct (back_off_range (rtt s) Hr Hb) as [? E2]. by rewrite E2. }
    intros [= <- <- <-]. split_and!; [done|done|by apply schedule_timing|by right].
  - intros [= <- <- <-]. split_and!; [done|done|by apply schedule_timing|by right].
Qed.

Lemma send_new_spec s out q s' out' : timing s -> send_new (s, out) q = (s', out') ->
  core s' = core s /\ clock s' = clock s /\ timing s' /\ (out' = out \/ out' = out ++ segment_at s q).
Proof.
  intros Ht. unfold send_new. case_bool_decide; [intros [= <- <-]; auto|]. case_match; [intros [= <- <-]; auto|].
  intros [= <- <-]. split_and!; [done|done|by apply schedule_timing|by right].
Qed.

(** A whole sweep: what it sends are segments of the range. *)
Lemma sweep_due_spec l : forall s b out s' b' out', timing s -> fold_left send_due l (s, b, out) = (s', b', out') ->
  core s' = core s /\ clock s' = clock s /\ timing s' /\ forall g, g ∈ out' -> g ∈ out \/ exists q, q ∈ l /\ g ∈ segment_at s q.
Proof.
  induction l as [|q l IH]; intros s b out s' b' out' Ht; cbn [fold_left]; [intros [= <- <- <-]; split_and!; auto|].
  destruct (send_due (s, b, out) q) as [[s1 b1] out1] eqn:E1. intros E. destruct (send_due_spec _ _ _ _ _ _ _ Ht E1) as (Hc & Hk & Ht1 & Ho).
  destruct (IH _ _ _ _ _ _ Ht1 E) as (Hc' & Hk' & Ht' & Ho'). split_and!; [congruence|congruence|done|]. intros g Hg.
  destruct (Ho' g Hg) as [Hin|(q' & Hq & Hin)]; [|right; exists q'; split; [by right|by rewrite (segment_at_core s s1)]].
  destruct Ho as [->| ->]; [by left|]. apply elem_of_app in Hin as [|]; [by left|right; exists q; split; [by left|done]].
Qed.

Lemma sweep_new_spec l : forall s out s' out', timing s -> fold_left send_new l (s, out) = (s', out') ->
  core s' = core s /\ clock s' = clock s /\ timing s' /\ forall g, g ∈ out' -> g ∈ out \/ exists q, q ∈ l /\ g ∈ segment_at s q.
Proof.
  induction l as [|q l IH]; intros s out s' out' Ht; cbn [fold_left]; [intros [= <- <-]; split_and!; auto|].
  destruct (send_new (s, out) q) as [s1 out1] eqn:E1. intros E. destruct (send_new_spec _ _ _ _ _ Ht E1) as (Hc & Hk & Ht1 & Ho).
  destruct (IH _ _ _ _ Ht1 E) as (Hc' & Hk' & Ht' & Ho'). split_and!; [congruence|congruence|done|]. intros g Hg.
  destruct (Ho' g Hg) as [Hin|(q' & Hq & Hin)]; [|right; exists q'; split; [by right|by rewrite (segment_at_core s s1)]].
  destruct Ho as [->| ->]; [by left|]. apply elem_of_app in Hin as [|]; [by left|right; exists q; split; [by left|done]].
Qed.

Lemma tick_timing s : timing s -> timing (tick s).
Proof. intros [Hc Hr Hd]. split; cbn [tick set_timing clock rtt due_at]; unfold sat_add; [lia|done|]. intros q at_ H. specialize (Hd q at_ H). lia. Qed.

(** A held segment is the sealed one. *)
Lemma segment_at_sealed w q g : inv w -> fits w -> acked (sender w) <= q -> g ∈ segment_at (sender w) q ->
  seq g = q /\ stream_id g = s_id (sender w) /\ sealed w !! Z.to_nat (seq g) = Some (data g) /\ fin g = finished (sender w) && (seq g =? len w - 1).
Proof.
  intros Hi Hf Hq. unfold segment_at. rewrite (i_base w Hi), (i_segs w Hi), lookup_drop, total_len by done. pose proof (i_order w Hi) as Ho.
  destruct (sealed w !! _) as [d|] eqn:E; [|by intros Hn%elem_of_nil]. rewrite elem_of_cons. intros [->|Hn%elem_of_nil]; [|done]. cbn [seq stream_id data fin].
  replace (Z.to_nat q) with (Z.to_nat (acked (sender w)) + Z.to_nat (q - acked (sender w)))%nat by lia. split_and!; try done.
  apply lookup_lt_Some in E. unfold sat_sub, len. do 2 f_equal. lia.
Qed.

Lemma sending_inv w out s : inv w -> fits w -> core s = core (sender w) -> timing s ->
  (forall g, g ∈ out -> exists q, acked (sender w) <= q /\ g ∈ segment_at (sender w) q) -> inv (sending w (out, s)).
Proof.
  intros Hi Hf Hc Ht Ho. injection Hc as E1 E2 E3 E4 E5 E6 E7 E8 E9. pose proof (i_order w Hi) as Hord.
  assert (Hs : forall g, g ∈ out -> stream_id g = s_id (sender w) /\ 0 <= seq g /\
    sealed w !! Z.to_nat (seq g) = Some (data g) /\ fin g = finished (sender w) && (seq g =? len w - 1)).
  { intros g Hg. destruct (Ho g Hg) as (q & Hq & Hin). destruct (segment_at_sealed w q g Hi Hf Hq Hin) as (E & ? & ? & ?). split_and!; try done. lia. }
  destruct Hi. split; cbn [sending fst snd sender receiver flight acks pushed sealed taken]; unfold len in *; cbn [sealed];
    rewrite ?E1, ?E2, ?E3, ?E4, ?E5, ?E6, ?E7, ?E8; try done.
  intros g [Hg|Hg]%elem_of_app; [by apply i_flight0|by apply Hs].
Qed.

Lemma range_from s q : q ∈ sweep_range s -> acked s <= q.
Proof. unfold sweep_range. rewrite elem_of_seqZ. lia. Qed.

Lemma sweep_inv w : inv w -> fits w -> inv (step w Sweep).
Proof.
  intros Hi Hf. cbn [step]. unfold outbound. destruct (fold_left _ _ _) as [[s b] out] eqn:E.
  destruct (sweep_due_spec _ _ _ _ _ _ _ (tick_timing _ (i_time w Hi)) E) as (Hc & _ & Ht & Ho). apply sending_inv; try done.
  intros g Hg. destruct (Ho g Hg) as [Hn%elem_of_nil|(q & Hq & Hin)]; [done|]. exists q. split; [by apply range_from in Hq|done].
Qed.

Lemma poll_inv w : inv w -> fits w -> inv (step w Poll).
Proof.
  intros Hi Hf. cbn [step]. unfold poll_new. destruct (fold_left _ _ _) as [s out] eqn:E.
  destruct (sweep_new_spec _ _ _ _ _ (i_time w Hi) E) as (Hc & _ & Ht & Ho). apply sending_inv; try done.
  intros g Hg. destruct (Ho g Hg) as [Hn%elem_of_nil|(q & Hq & Hin)]; [done|]. exists q. split; [by apply range_from|done].
Qed.

(** ** Arrivals *)

Lemma has_mono r r' q : next r <= next r' -> (forall k, is_Some (received r !! k) -> has r' k) -> has r q -> has r' q.
Proof. intros Hn Hr [?|?]; [left; lia|by apply Hr]. Qed.

Lemma fold_bits (P : Z -> Prop) `{forall i, Decision (P i)} l : forall b i, 0 <= i -> Forall (fun j => 0 <= j) l ->
  Z.testbit (fold_left (fun b i => if bool_decide (P i) then Z.lor b (Z.shiftl 1 i) else b) l b) i = true -> Z.testbit b i = true \/ P i.
Proof.
  induction l as [|j l IH]; intros b i Hi Hl; cbn [fold_left]; [by left|]. apply Forall_cons in Hl as [Hj Hl]. intros Ht.
  apply IH in Ht as [Ht|]; [|by right|done|done]. revert Ht. case_bool_decide; [|by left]. rewrite Z.lor_spec, orb_true_iff. intros [?|Ht]; [by left|].
  rewrite Z.shiftl_spec in Ht by done. destruct (decide (i = j)) as [->|Hne]; [by right|]. exfalso. revert Ht.
  destruct (decide (i < j)); [rewrite Z.testbit_neg_r by lia; done|]. rewrite Z.bits_above_log2; [done|lia|cbn; lia].
Qed.

(** An acknowledgement reports what the receiver has. *)
Lemma ack_spec r i : receiver_inv r -> next r < 2 ^ 32 - SACK_WIDTH -> 1 <= i < SACK_WIDTH -> Z.testbit (sack (ack r)) i = true -> has r (cumulative (ack r) + i).
Proof.
  intros Hi Hn Hr. unfold ack. cbn [sack cumulative]. intros Ht.
  apply (fold_bits (fun i => is_Some (received r !! sat_add 32 (next r) i))) in Ht as [Ht|Ht]; [by rewrite Z.bits_0 in Ht| |lia|].
  - right. unfold sat_add, SACK_WIDTH in *. by rewrite Z.min_l in Ht by lia.
  - apply Forall_forall. intros j Hj%elem_of_seqZ. lia.
Qed.

(** What an arriving segment of the stream does to the receiver. *)
Record fed (w : World) (r' : StreamReceiver) : Prop := {
  f_inv : receiver_inv r';
  f_id : r_id r' = r_id (receiver w);
  f_next : next (receiver w) <= next r' <= len w;
  f_delivered : delivered r' = delivered (receiver w);
  f_grows : forall q, has (receiver w) q -> has r' q;
  f_held : forall k d, received r' !! k = Some d -> sealed w !! Z.to_nat k = Some d;
  f_end : forall f, fin_seq r' = Some f -> finished (sender w) = true /\ f = len w - 1;
  f_last : finished (sender w) = true -> has r' (len w - 1) -> fin_seq r' = Some (len w - 1);
}.

Lemma fed_same w : inv w -> fed w (receiver w).
Proof. intros Hi. pose proof (i_order w Hi). destruct Hi. split; try done; lia. Qed.

Lemma segment_feeds w g : inv w -> g ∈ flight w -> fed w (snd (on_segment (receiver w) g)).
Proof.
  intros Hi Hg. destruct (i_flight w Hi g Hg) as (Gid & Gq & Gd & Gf). destruct (on_segment_inv (receiver w) g (i_recv w Hi)) as [Hri _].
  destruct (on_segment_cases (receiver w) g) as [->|(_ & _ & _ & _ & _ & E)]; [by apply fed_same|]. cbv zeta in E. rewrite E in *. clear E.
  set (m := or_insert _ _ _) in *. set (n' := advance _ _ _) in *.
  destruct (advance_spec m ltac:(intros k Hk; by apply (ri_keys _ Hri)) (size m) (next (receiver w)) (above_size _ m)) as (Hn1 & Hn2 & Hn3). fold n' in Hn1, Hn2, Hn3.
  assert (Hheld : forall k d, m !! k = Some d -> sealed w !! Z.to_nat k = Some d).
  { intros k d [Hd|[-> ->]]%or_insert_Some; [by apply (i_held w Hi)|done]. }
  pose proof (or_insert_is_Some (received (receiver w)) (seq g) (data g)) as Hm. fold m in Hm.
  pose proof (i_order w Hi) as Ho. pose proof (ri_range _ (i_recv w Hi)) as Hrr. pose proof (lookup_lt_Some _ _ _ Gd) as Glt. unfold len in *.
  split; cbn [r_id received next delivered fin_seq]; unfold len; try done.
  - split; [done|]. destruct (decide (n' = next (receiver w))) as [->|]; [lia|]. destruct (Hn2 (n' - 1) ltac:(lia)) as [d Hd]. apply Hheld, lookup_lt_Some in Hd. lia.
  - intros q [?|?]; [left; cbn; lia|right; cbn; apply Hm; by left].
  - intros f. destruct (fin g) eqn:Ef; [|by apply (i_end w Hi)]. intros [= <-]. symmetry in Gf. apply andb_true_iff in Gf as [? ?%Z.eqb_eq]. done.
  - intros Hfin Hh. rewrite Hfin in Gf. cbn [andb] in Gf. destruct (fin g); [f_equal; symmetry in Gf; by apply Z.eqb_eq in Gf|].
    symmetry in Gf. apply Z.eqb_neq in Gf. apply (i_last w Hi); [done|]. unfold len.
    assert (Hsome : is_Some (m !! (Z.of_nat (length (sealed w)) - 1)) -> has (receiver w) (Z.of_nat (length (sealed w)) - 1)).
    { intros [?|?]%Hm; [by right|congruence]. }
    destruct Hh as [Hlt|?]; [|by apply Hsome]. cbn [next] in Hlt. destruct (decide (Z.of_nat (length (sealed w)) - 1 < next (receiver w))); [by left|].
    apply Hsome, Hn2. lia.
Qed.

Lemma on_segment_ack r g : fst (on_segment r g) = ack (snd (on_segment r g)).
Proof. unfold on_segment. by repeat case_match. Qed.

Lemma arrive_inv w i : inv w -> fits w -> inv (step w (Arrive i)).
Proof.
  intros Hi Hf. cbn [step]. destruct (flight w !! i) as [g|] eqn:Eg; [|done]. apply list_elem_of_lookup_2 in Eg.
  pose proof (segment_feeds w g Hi Eg) as Hfed. pose proof (on_segment_ack (receiver w) g) as Ea.
  destruct (on_segment (receiver w) g) as [a r']. cbn [fst snd] in *. subst a. destruct Hfed. unfold fits in Hf.
  pose proof (i_order w Hi). destruct Hi. split; cbn [sender receiver flight acks pushed sealed taken]; unfold len in *; cbn [sealed]; try done.
  - by rewrite f_id0.
  - lia.
  - intros q Hq. destruct (i_sacked0 q Hq). split; [done|by apply f_grows0].
  - intros a [Ha|Ha]%elem_of_app.
    + destruct (i_acks0 a Ha) as [Hc Hs]. split; [lia|]. intros j Hj Hb. by apply f_grows0, Hs.
    + apply list_elem_of_singleton in Ha as ->. pose proof (ri_range _ f_inv0). split; [cbn; lia|]. intros j Hj Hb. apply ack_spec; try done. lia.
  - by rewrite f_delivered0.
Qed.

Lemma take_more (l : list (list Z)) n : forall d, 0 <= d -> d + Z.of_nat n <= Z.of_nat (length l) ->
  concat (take (Z.to_nat d) l) ++ concat ((fun k => default [] (l !! Z.to_nat k)) <$> seqZ d (Z.of_nat n)) = concat (take (Z.to_nat (d + Z.of_nat n)) l).
Proof.
  induction n as [|n IH]; intros d Hd Hl; [rewrite Z.add_0_r; apply app_nil_r|].
  rewrite (seqZ_cons d) by lia. destruct (lookup_lt_is_Some_2 l (Z.to_nat d) ltac:(lia)) as [x Hx].
  cbn [fmap list_fmap concat]. rewrite Hx. cbn [default]. replace (Z.pred (Z.of_nat (S n))) with (Z.of_nat n) by lia.
  specialize (IH (Z.succ d) ltac:(lia) ltac:(lia)). rewrite Z2Nat.inj_succ in IH by lia. rewrite (take_S_r l (Z.to_nat d) x Hx), concat_app in IH. cbn [concat] in IH.
  rewrite app_nil_r, <- app_assoc in IH. rewrite app_assoc in IH. rewrite app_assoc. etrans; [exact IH|]. do 3 f_equal. lia.
Qed.

Lemma read_inv w : inv w -> inv (step w Read).
Proof.
  intros Hi. cbn [step]. destruct (take_inv (receiver w) (i_recv w Hi)) as [Hri _].
  pose proof (ri_range _ (i_recv w Hi)) as Hrr. pose proof (i_order w Hi) as Ho.
  destruct (take_spec (receiver w) (fun k => default [] (sealed w !! Z.to_nat k)) (i_recv w Hi)) as [Eo (m & Er & Hm)].
  { intros k Hk. destruct (ri_run _ (i_recv w Hi) k Hk) as [d Hd]. pose proof (i_held w Hi k d Hd) as ->. done. }
  destruct (take_ (receiver w)) as [out r']. cbn [fst snd] in *. subst out r'.
  assert (Hh : forall q, has (mk_receiver (r_id (receiver w)) m (next (receiver w)) (next (receiver w)) (fin_seq (receiver w)) (recv_window (receiver w))) q <-> has (receiver w) q).
  { intros q. unfold has. cbn [next received]. rewrite Hm. case_decide; [|done]. split; left; lia. }
  assert (Htk : taken w ++ concat ((fun k => default [] (sealed w !! Z.to_nat k)) <$> seqZ (delivered (receiver w)) (next (receiver w) - delivered (receiver w))) =
    concat (take (Z.to_nat (next (receiver w))) (sealed w))).
  { rewrite (i_taken w Hi). pose proof (take_more (sealed w) (Z.to_nat (next (receiver w) - delivered (receiver w))) (delivered (receiver w))) as Ht.
    unfold len in Ho. rewrite Z2Nat.id in Ht by lia. rewrite Ht by lia. do 3 f_equal. lia. }
  destruct Hi. split; cbn [sender receiver flight acks pushed sealed taken r_id next delivered fin_seq]; unfold len in *; cbn [sealed]; try done.
  - intros q Hq. destruct (i_sacked0 q Hq). split; [done|by apply Hh].
  - intros a Ha. destruct (i_acks0 a Ha) as [Hc Hs]. split; [done|]. intros j Hj Hb. by apply Hh, Hs.
  - cbn [received]. intros k d. rewrite Hm. case_decide; [done|]. apply i_held0.
  - intros Hfin Hx%Hh. by apply i_last0.
Qed.

(** ** Acknowledgements *)

Lemma record_sack_spec t a h q : q ∈ record_sack t a h -> q ∈ h \/ exists i, 1 <= i < SACK_WIDTH /\ Z.testbit (sack a) i = true /\ q = sat_add 32 (cumulative a) i /\ q < t.
Proof.
  unfold record_sack. assert (Hl : Forall (fun i => 1 <= i < SACK_WIDTH) (seqZ 1 (SACK_WIDTH - 1))) by (apply Forall_forall; intros i Hi%elem_of_seqZ; lia).
  revert Hl h. generalize (seqZ 1 (SACK_WIDTH - 1)). induction l as [|i l IH]; intros Hl h; cbn [fold_left]; [by left|]. apply Forall_cons in Hl as [Hi Hl].
  intros [Hq|?]%IH; [|by right|done]. revert Hq. case_match eqn:Eb; [|by left]. case_match eqn:Et; [|by left]. rewrite elem_of_union, elem_of_singleton.
  intros [->|]; [right|by left]. exists i. apply Z.ltb_lt in Et. done.
Qed.

Lemma close_gap_spec fuel : forall a (sk : gset Z), (forall q : Z, q ∈ sk -> q < 2 ^ 32 - 1) -> (size sk <= fuel)%nat ->
  let '(b, sk') := close_gap fuel a sk in a <= b /\ (forall k, a <= k < b -> k ∈ sk) /\ (b ∉ sk') /\ sk' ⊆ sk.
Proof.
  induction fuel as [|fuel IH]; intros a sk Hk Hf; cbn [close_gap].
  - split; [lia|]. split; [lia|]. split; [|done]. intros Ha. assert (Hs : size sk = 0%nat) by lia. apply size_empty_inv in Hs. set_solver.
  - case_bool_decide as Ha; [|split; [lia|]; split; [lia|]; by split].
    assert (Hs : sat_add 32 a 1 = a + 1) by (specialize (Hk a Ha); unfold sat_add; lia). rewrite Hs.
    specialize (IH (a + 1) (sk ∖ {[a]})). destruct (close_gap fuel (a + 1) (sk ∖ {[a]})) as [b sk']. destruct IH as (H1 & H2 & H3 & H4).
    + set_solver.
    + assert (Hsub : size (sk ∖ {[a]}) = (size sk - 1)%nat) by (rewrite size_difference by set_solver; by rewrite size_singleton). lia.
    + split; [lia|]. split; [|split; [done|set_solver]]. intros k Hr. destruct (decide (k = a)) as [->|]; [done|]. specialize (H2 k ltac:(lia)). set_solver.
Qed.

Lemma reclaim_spec segs : forall b a, 0 <= b <= a -> a - b <= Z.of_nat (length segs) -> a < 2 ^ 32 - 1 -> reclaim segs b a = (drop (Z.to_nat (a - b)) segs, a).
Proof.
  induction segs as [|d segs IH]; intros b a Hb Hl Ha; cbn [reclaim length] in *; [assert (b = a) as -> by lia; by rewrite drop_nil|].
  destruct (Z.ltb_spec b a) as [Hlt|Hge]; [|assert (b = a) as -> by lia; by rewrite Z.sub_diag].
  assert (Hs : sat_add 32 b 1 = b + 1) by (unfold sat_add; lia). rewrite Hs, IH by lia.
  replace (Z.to_nat (a - b)) with (S (Z.to_nat (a - (b + 1)))) by lia. done.
Qed.

Lemma sample_range e m : 1 <= rto (sample e m) <= RTO_MAX_TICKS /\ 1 <= base_rto (sample e m) <= RTO_MAX_TICKS.
Proof. unfold sample. cbv zeta. match goal with |- context [let (_, _) := ?p in _] => destruct p end. cbn [rto base_rto]. unfold clamp, RTO_MIN_TICKS, RTO_MAX_TICKS. lia. Qed.

Lemma split_off_Some n m q x : split_off n m !! q = Some x -> m !! q = Some x.
Proof. unfold split_off. rewrite map_lookup_filter_Some. by intros [? _]. Qed.

Lemma count_dup_due s a q x : timing s -> fst (fst (count_dup s a)) !! q = Some x -> x <= 2 ^ 32 - 1 /\ x <= clock s + 2 * RTO_MAX_TICKS.
Proof.
  intros [Hc _ Hd]. unfold count_dup. cbv zeta.
  assert (Hj : forall p at_, sat_add 32 (clock s) (jitter_ticks p at_ FAST_RETX_JITTER_SPAN) <= 2 ^ 32 - 1 /\
    sat_add 32 (clock s) (jitter_ticks p at_ FAST_RETX_JITTER_SPAN) <= clock s + 2 * RTO_MAX_TICKS).
  { intros p at_. pose proof (jitter_range p at_ FAST_RETX_JITTER_SPAN) as Hr. unfold sat_add, FAST_RETX_JITTER_SPAN, RTO_MAX_TICKS in *. lia. }
  destruct (_ && _); [|case_match; apply Hd]. destruct (DUP_ACK_THRESHOLD <=? _); [|apply Hd]. cbn [fst].
  destruct (decide (q = cumulative a)) as [->|Hne]; [rewrite lookup_insert_eq|rewrite lookup_insert_ne by done; apply Hd].
  specialize (Hj (cumulative a) (default 0 (retransmitted s !! cumulative a))). intros [= <-]. destruct (due_at s !! cumulative a); lia.
Qed.

Lemma ack_inv w i : inv w -> fits w -> inv (step w (AckArrive i)).
Proof.
  intros Hi Hf. cbn [step]. destruct (acks w !! i) as [a|] eqn:Ea; [|done]. apply list_elem_of_lookup_2 in Ea. destruct (i_acks w Hi a Ea) as [Hc Hs].
  pose proof (total_len w Hi Hf) as Htot. pose proof (i_order w Hi) as Ho. unfold on_ack. rewrite Htot.
  pose proof (fun q x => count_dup_due (sender w) a q x (i_time w Hi)) as Hdue. destruct (count_dup (sender w) a) as [[da lc] dup]. cbn [fst] in Hdue.
  set (a1 := Z.min (Z.max (acked (sender w)) (cumulative a)) (len w)). set (sk := record_sack (len w) a (sacked (sender w))).
  assert (Hsk : forall q, q ∈ sk -> has (receiver w) q).
  { intros q [Hq|(j & Hj & Hb & -> & Hlt)]%record_sack_spec; [by apply (i_sacked w Hi)|]. unfold fits, SACK_WIDTH, sat_add in *. rewrite Z.min_l by lia. by apply Hs. }
  assert (Hkeys : forall q, has (receiver w) q -> q < len w).
  { intros q [?|[d Hd]]; [lia|]. pose proof (ri_keys _ (i_recv w Hi) q ltac:(by eexists)). pose proof (ri_range _ (i_recv w Hi)).
    apply (i_held w Hi) in Hd. apply lookup_lt_Some in Hd. unfold len. lia. }
  pose proof (close_gap_spec (size sk) a1 sk) as Hg. destruct (close_gap (size sk) a1 sk) as [a2 sk'].
  destruct Hg as (H1 & H2 & H3 & H4); [intros q Hq; unfold fits, SACK_WIDTH in Hf; pose proof (Hkeys q (Hsk q Hq)); lia|done|].
  assert (Ha2 : a2 <= next (receiver w)).
  { destruct (Z.le_gt_cases a2 (next (receiver w))) as [|Hgt]; [done|]. exfalso.
    assert (Hn : a1 <= next (receiver w) < a2) by (unfold a1; lia). destruct (Hsk (next (receiver w)) (H2 _ Hn)) as [?|Hx]; [lia|].
    rewrite (ri_gap _ (i_recv w Hi)) in Hx. by destruct Hx. }
  assert (Ha1 : acked (sender w) <= a1) by (unfold a1; lia).
  unfold fits, SACK_WIDTH, len in *. rewrite (i_segs w Hi), (i_base w Hi), reclaim_spec by (rewrite ?length_drop; lia).
  destruct (i_time w Hi) as [Tc Tr Td].
  destruct Hi. split; cbn [sender receiver flight acks pushed sealed taken s_id base acked segments pending finished sacked window]; unfold len in *; cbn [sealed]; try done.
  - rewrite drop_drop. f_equal. lia.
  - lia.
  - intros q. rewrite elem_of_filter. intros [Hle Hin]. split; [|by apply Hsk, H4]. destruct (decide (q = a2)) as [->|]; [done|lia].
  - split; cbn [clock rtt due_at]; [done| |intros q x Hx%split_off_Some; by apply Hdue in Hx]. repeat case_match; try done. apply sample_range.
Qed.

(** ** Losses *)

(** What is left of a network after losses. *)
Lemma fewer_inv w fl ak : inv w -> fl ⊆ flight w -> ak ⊆ acks w ->
  inv (mk_world (sender w) (receiver w) fl ak (pushed w) (sealed w) (taken w)).
Proof.
  intros Hi Hf Ha. destruct Hi. split; cbn [sender receiver flight acks pushed sealed taken]; unfold len in *; cbn [sealed]; try done.
  - intros g Hg. by apply i_flight0, Hf.
  - intros a Hx. by apply i_acks0, Ha.
Qed.

Lemma lose_inv w i : inv w -> inv (step w (Lose i)).
Proof. intros Hi. cbn [step]. by apply fewer_inv; [|apply list_subseteq_delete|]. Qed.

Lemma lose_ack_inv w i : inv w -> inv (step w (LoseAck i)).
Proof. intros Hi. cbn [step]. by apply fewer_inv; [| |apply list_subseteq_delete]. Qed.

(** Every event keeps the invariant while the sequence numbers last. *)
Lemma world_step_inv w e : inv w -> fits w -> inv (step w e).
Proof.
  intros Hi Hf. destruct e; [by apply push_inv|by apply flush_inv|by apply finish_inv|by apply sweep_inv|by apply poll_inv|by apply arrive_inv|by apply ack_inv|by apply lose_inv|by apply lose_ack_inv|by apply read_inv].
Qed.

Lemma step_len w e : len w <= len (step w e).
Proof. unfold len. destruct e; cbn [step]; repeat case_match; cbn [sealing sending sealed]; rewrite ?length_app; lia. Qed.

Lemma run_len es : forall w, len w <= len (run w es).
Proof. induction es as [|e es IH]; intros w; cbn [run fold_left]; [done|]. pose proof (step_len w e). specialize (IH (step w e)). unfold run in IH. lia. Qed.

Lemma world_run_inv es : forall w, inv w -> fits (run w es) -> inv (run w es).
Proof.
  induction es as [|e es IH]; intros w Hi Hf; [done|]. cbn [run fold_left] in *. apply IH; [|done]. apply world_step_inv; [done|].
  unfold fits in *. pose proof (step_len w e). pose proof (run_len es (step w e)). unfold run in *. lia.
Qed.

(** ** The claims *)

Lemma finished_all w : inv w -> is_finished (receiver w) = true -> finished (sender w) = true /\ next (receiver w) = len w.
Proof.
  intros Hi. unfold is_finished. destruct (fin_seq (receiver w)) as [f|] eqn:Ef; [|done]. intros Hlt%Z.ltb_lt.
  destruct (i_end w Hi f Ef) as [Hfin ->]. pose proof (i_order w Hi). split; [done|lia].
Qed.

Lemma read_taken w : inv w -> taken (step w Read) = concat (take (Z.to_nat (next (receiver w))) (sealed w)).
Proof.
  intros Hi. pose proof (i_taken _ (read_inv w Hi)) as Ht.
  assert (E : delivered (receiver (step w Read)) = next (receiver w) /\ sealed (step w Read) = sealed w).
  { cbn [step]. destruct (take_spec (receiver w) (fun k => default [] (received (receiver w) !! k)) (i_recv w Hi)) as [_ (m & Er & _)].
    { intros k Hk. destruct (ri_run _ (i_recv w Hi) k Hk) as [d ->]. done. }
    destruct (take_ (receiver w)) as [out r']. cbn [snd] in Er. by subst r'. }
  destruct E as [E1 E2]. by rewrite Ht, E1, E2.
Qed.

Lemma read_all w : inv w -> finished (sender w) = true -> next (receiver w) = len w -> taken (step w Read) = pushed w.
Proof.
  intros Hi Hf Hn. rewrite read_taken, Hn, (i_push w Hi) by done. destruct (i_fin w Hi Hf) as [-> _]. unfold len. by rewrite Nat2Z.id, firstn_all, app_nil_r.
Qed.

(** The reader sees exactly what the writer wrote.  Whatever a network that loses, repeats and reorders
    does with segments and acknowledgements, and in whatever order the two ends push, flush, finish, sweep
    and read, what was read is a prefix of what was written; a receiver that counts its stream as finished
    reads all of it; and a sender counts its stream as complete only when the receiver has all of it. *)
Theorem stream_delivers_exactly (id ws wr : Z) (es : list event) :
  let w := run (world_new id ws wr) es in fits w ->
  taken w `prefix_of` pushed w /\
  (is_finished (receiver w) = true -> taken (step w Read) = pushed w) /\
  (is_complete (sender w) = true -> is_finished (receiver w) = true).
Proof.
  intros w Hf. pose proof (world_run_inv es _ (world_new_inv id ws wr) Hf) as Hi. fold w in Hi. split; [|split].
  - rewrite (i_taken w Hi), (i_push w Hi). exists (concat (drop (Z.to_nat (delivered (receiver w))) (sealed w)) ++ pending (sender w)).
    by rewrite app_assoc, <- concat_app, take_drop.
  - intros [Hfin Hn]%finished_all; [|done]. by apply read_all.
  - unfold is_complete. rewrite andb_true_iff, Z.leb_le, (total_len w Hi Hf). intros [Hfin Ha]. pose proof (i_order w Hi). destruct (i_fin w Hi Hfin) as [_ Hpos].
    unfold is_finished. rewrite (i_last w Hi Hfin); [apply Z.ltb_lt; lia|left; lia].
Qed.

(** ** No loss is fatal *)

(** The events of the network, the retransmission timer and the reader. *)
Definition quiet (e : event) : Prop := match e with Sweep | Arrive _ | AckArrive _ | Read => True | _ => False end.

(** What such events leave alone. *)
Definition written (w : World) := (pushed w, sealed w, finished (sender w)).

Lemma outbound_core s : timing s -> core (snd (outbound s)) = core s.
Proof.
  intros Ht. unfold outbound. destruct (fold_left _ _ _) as [[s' b] out] eqn:E. by destruct (sweep_due_spec _ _ _ _ _ _ _ (tick_timing _ Ht) E) as (Hc & _).
Qed.

Lemma on_ack_finished s a : finished (on_ack s a) = finished s.
Proof. unfold on_ack. cbv zeta. destruct (count_dup s a) as [[? ?] ?]. destruct (close_gap _ _ _). by destruct (reclaim _ _ _). Qed.

Lemma quiet_written w e : inv w -> quiet e -> written (step w e) = written w.
Proof.
  intros Hi He. unfold written. destruct e; try done; cbn [step].
  - pose proof (outbound_core _ (i_time w Hi)) as Hc. injection Hc as _ _ _ _ E _ _ _ _. cbn [sending pushed sealed sender]. by rewrite E.
  - case_match; [|done]. by destruct (on_segment _ _).
  - case_match; [|done]. cbn [sender]. by rewrite on_ack_finished.
  - by destruct (take_ _).
Qed.

Lemma written_fits w w' : written w' = written w -> (fits w' <-> fits w) /\ len w' = len w.
Proof. unfold written, fits, len. intros [= _ -> _]. done. Qed.

Lemma quiet_run es : forall w, inv w -> fits w -> Forall quiet es -> inv (run w es) /\ written (run w es) = written w.
Proof.
  induction es as [|e es IH]; intros w Hi Hf Hq; [done|]. apply Forall_cons in Hq as [He Hq]. cbn [run fold_left].
  pose proof (quiet_written w e Hi He) as Hw. destruct (written_fits w _ Hw) as [Hfw _].
  destruct (IH (step w e) (world_step_inv w e Hi Hf) ltac:(by apply Hfw) Hq) as [H1 H2]. unfold run in H2. by rewrite H2.
Qed.

(** The sweep reaches the oldest segment first. *)
Lemma sweep_range_head w : inv w -> fits w -> acked (sender w) < len w -> exists rest, sweep_range (tick (sender w)) = acked (sender w) :: rest /\ acked (sender w) ∉ rest.
Proof.
  intros Hi Hf Hlt. unfold sweep_range. change (total (tick (sender w))) with (total (sender w)). rewrite total_len by done.
  cbn [tick set_timing window peer_rwnd acked]. pose proof (i_window w Hi) as Hw. unfold fits, SACK_WIDTH in *. pose proof (i_order w Hi).
  rewrite wrap_small by (unfold in_u; lia). set (n := Z.min _ (len w) - _). assert (0 < n) by (unfold n; lia).
  rewrite seqZ_cons by done. eexists. split; [done|]. rewrite elem_of_seqZ. lia.
Qed.

(** Later steps of a sweep keep what was sent and the schedule of other segments. *)
Lemma send_due_keeps l q0 : forall s b out s' b' out', timing s -> q0 ∉ l -> fold_left send_due l (s, b, out) = (s', b', out') ->
  due_at s' !! q0 = due_at s !! q0 /\ forall g, g ∈ out -> g ∈ out'.
Proof.
  induction l as [|q l IH]; intros s b out s' b' out' Ht Hq; cbn [fold_left]; [by intros [= <- <- <-]|]. rewrite elem_of_cons in Hq.
  destruct (send_due (s, b, out) q) as [[s1 b1] out1] eqn:E1. intros E. destruct (send_due_spec _ _ _ _ _ _ _ Ht E1) as (_ & _ & Ht1 & Ho).
  destruct (IH _ _ _ _ _ _ Ht1 ltac:(tauto) E) as [Hd Hg]. split; [|intros g Hin; apply Hg; destruct Ho as [->| ->]; [done|by apply elem_of_app; left]].
  rewrite Hd. revert E1. unfold send_due. case_bool_decide; [by intros [= <- _ _]|]. case_match; [by intros [= <- _ _]|]. cbv zeta.
  case_match; [by intros [= <- _ _]|]. assert (Hne : q <> q0) by naive_solver.
  destruct (due_at s !! q); intros [= <- _ _]; cbn [schedule set_timing due_at]; by rewrite lookup_insert_ne.
Qed.

(** A sweep either sends the oldest unacknowledged segment or leaves its schedule alone. *)
Lemma sweep_oldest w : inv w -> fits w -> acked (sender w) < len w ->
  (exists g, g ∈ fst (outbound (sender w)) /\ seq g = acked (sender w)) \/
  (exists at_, due_at (sender w) !! acked (sender w) = Some at_ /\ clock (tick (sender w)) < at_ /\
     due_at (snd (outbound (sender w))) !! acked (sender w) = Some at_ /\ clock (snd (outbound (sender w))) = clock (tick (sender w))).
Proof.
  intros Hi Hf Hlt. destruct (sweep_range_head w Hi Hf Hlt) as (rest & Er & Hrest). unfold outbound. rewrite Er. set (s0 := tick (sender w)).
  pose proof (tick_timing _ (i_time w Hi)) as Ht0. fold s0 in Ht0. set (q := acked (sender w)) in *.
  destruct (fold_left send_due (q :: rest) (s0, false, [])) as [[s' b'] out'] eqn:E.
  destruct (sweep_due_spec _ _ _ _ _ _ _ Ht0 E) as (_ & Hclk & _). cbn [fold_left] in E.
  destruct (send_due (s0, false, []) q) as [[s1 b1] out1] eqn:E1. destruct (send_due_spec _ _ _ _ _ _ _ Ht0 E1) as (_ & _ & Ht1 & _).
  destruct (send_due_keeps rest q _ _ _ _ _ _ Ht1 Hrest E) as [Hd Hg]. cbn [fst snd].
  assert (Hseg : exists g, segment_at s0 q = [g] /\ seq g = q).
  { unfold segment_at. change (segments s0) with (segments (sender w)). change (base s0) with (base (sender w)). rewrite (i_base w Hi), (i_segs w Hi), lookup_drop.
    unfold q. rewrite Z.sub_diag, Nat.add_0_r. pose proof (i_order w Hi). unfold len in Hlt.
    destruct (lookup_lt_is_Some_2 (sealed w) (Z.to_nat (acked (sender w))) ltac:(unfold q in *; lia)) as [d ->]. by eexists. }
  destruct Hseg as (g & Hs & Hq). revert E1. unfold send_due.
  rewrite bool_decide_eq_false_2; [|intros Hin; destruct (i_sacked w Hi q Hin); unfold q in *; lia].
  change (base s0) with (base (sender w)). rewrite (i_base w Hi), Z.ltb_irrefl. cbv zeta. destruct (due_at s0 !! q) as [at_|] eqn:Ed.
  - destruct (Z.leb_spec at_ (clock s0)) as [Hle|Hgt]; cbn [negb].
    + intros [= <- <- <-]. left. exists g. split; [|done]. apply Hg. rewrite (segment_at_core _ s0) by done. rewrite Hs. by left.
    + intros [= <- <- <-]. right. exists at_. split_and!; try done. by rewrite Hd.
  - cbn [negb]. intros [= <- <- <-]. left. exists g. split; [|done]. apply Hg. rewrite (segment_at_core _ s0) by done. rewrite Hs. by left.
Qed.

(** So after at most [2 * RTO_MAX_TICKS + 1] sweeps it is on its way. *)
Lemma sweeps_resend k : forall w, inv w -> fits w -> acked (sender w) < len w ->
  (forall at_, due_at (sender w) !! acked (sender w) = Some at_ -> at_ <= clock (sender w) + Z.of_nat k) ->
  exists n, (n <= k + 1)%nat /\ let w' := run w (replicate n Sweep) in
    receiver w' = receiver w /\ acks w' = acks w /\ acked (sender w') = acked (sender w) /\ exists g, g ∈ flight w' /\ seq g = acked (sender w).
Proof.
  induction k as [|k IH]; intros w Hi Hf Hlt Hdue.
  all: destruct (sweep_oldest w Hi Hf Hlt) as [(g & Hg & Hq)|(at_ & Hd & Hgt & Hd' & Hc)].
  1,3: exists 1%nat; split; [lia|]; pose proof (outbound_core _ (i_time w Hi)) as Hcore; injection Hcore as _ _ _ _ _ E _ _ _;
    cbn [run replicate fold_left step sending sender receiver acks flight]; split_and!; try done; exists g; split; [apply elem_of_app; by right|done].
  - specialize (Hdue at_ Hd). pose proof (t_clock _ (i_time w Hi)) as Hclk. pose proof (t_due _ (i_time w Hi) _ _ Hd). cbn [tick set_timing clock] in Hgt. unfold sat_add in Hgt. lia.
  - pose proof (outbound_core _ (i_time w Hi)) as Hcore. injection Hcore as _ _ _ _ _ E _ _ _. specialize (Hdue at_ Hd).
    pose proof (t_clock _ (i_time w Hi)) as Hclk. pose proof (t_due _ (i_time w Hi) _ _ Hd). cbn [tick set_timing clock] in Hgt, Hc. unfold sat_add in Hgt, Hc.
    destruct (IH (step w Sweep) (sweep_inv w Hi Hf) Hf) as (n & Hn & H1 & H2 & H3 & H4).
    + cbn [step sending sender]. rewrite E. exact Hlt.
    + cbn [step sending sender]. rewrite E, Hd', Hc. intros x [= <-]. lia.
    + exists (S n). split; [lia|]. cbn [replicate run fold_left]. cbn [step sending sender receiver acks] in H1, H2, H3, H4 |- *. rewrite E in H3, H4. done.
Qed.

(** A drained receiver takes the segment it waits for. *)
Lemma segment_accepted w g : inv w -> fits w -> g ∈ flight w -> delivered (receiver w) = next (receiver w) -> seq g <= next (receiver w) ->
  seq g < next (snd (on_segment (receiver w) g)).
Proof.
  intros Hi Hf Hg Hdr Hle. pose proof (f_next _ _ (segment_feeds w g Hi Hg)) as Hn. destruct (decide (seq g = next (receiver w))) as [Eq|]; [|lia].
  destruct (i_flight w Hi g Hg) as (Gid & Gq & Gd & Gf). pose proof (on_segment_inv (receiver w) g (i_recv w Hi)) as [Hri _].
  pose proof (lookup_lt_Some _ _ _ Gd) as Glt. pose proof (ri_window _ (i_recv w Hi)) as Hw. pose proof (i_order w Hi) as Ho.
  enough (Hsome : is_Some (received (snd (on_segment (receiver w) g)) !! seq g)).
  { destruct (decide (next (snd (on_segment (receiver w) g)) = next (receiver w))) as [E|]; [|lia].
    pose proof (ri_gap _ Hri) as Hgap. rewrite E, <- Eq in Hgap. rewrite Hgap in Hsome. by destruct Hsome. }
  unfold on_segment. rewrite Gid, (i_id w Hi), Z.eqb_refl. cbn [negb].
  pose proof (i_sizes w Hi) as Hsz. rewrite Forall_lookup in Hsz. rewrite (proj2 (Nat.ltb_ge _ _) (Hsz _ _ Gd)).
  unfold fits, SACK_WIDTH, len, sat_add in *. rewrite (proj2 (Z.leb_le _ _)), (proj2 (Z.ltb_lt _ _)) by lia. cbn [andb].
  assert (Hend : match fin_seq (receiver w) with Some f => f <? seq g | None => false end = false).
  { destruct (fin_seq (receiver w)) as [f|] eqn:Ef; [|done]. destruct (i_end w Hi f Ef) as [_ ->]. apply Z.ltb_ge. unfold len. lia. }
  assert (Hhi : fin g && match last_key (received (receiver w)) with Some hi => seq g <? hi | None => false end = false).
  { destruct (fin g) eqn:Efin; [|done]. symmetry in Gf. apply andb_true_iff in Gf as [_ Gf%Z.eqb_eq]. unfold len in Gf. cbn [andb].
    pose proof (last_key_spec (received (receiver w))) as Hl. destruct (last_key _) as [hi|]; [|done]. destruct Hl as [[d Hd] _].
    pose proof (ri_keys _ (i_recv w Hi) hi ltac:(by eexists)). pose proof (ri_range _ (i_recv w Hi)).
    apply (i_held w Hi) in Hd. apply lookup_lt_Some in Hd. apply Z.ltb_ge. lia. }
  rewrite Hend, Hhi. cbn [orb snd received]. apply or_insert_is_Some. by right.
Qed.

Lemma close_gap_grows fuel : forall a sk, a <= 2 ^ 32 - 1 -> a <= fst (close_gap fuel a sk).
Proof.
  induction fuel as [|fuel IH]; intros a sk Ha; cbn [close_gap]; [done|]. case_bool_decide; [|done].
  specialize (IH (sat_add 32 a 1) (sk ∖ {[a]})). unfold sat_add in *. lia.
Qed.

Lemma ack_advances s a : total s <= 2 ^ 32 - 1 -> Z.min (Z.max (acked s) (cumulative a)) (total s) <= acked (on_ack s a).
Proof.
  intros Ht. unfold on_ack. cbv zeta. destruct (count_dup s a) as [[? ?] ?]. set (a1 := Z.min _ _).
  pose proof (close_gap_grows (size (record_sack (total s) a (sacked s))) a1 (record_sack (total s) a (sacked s)) ltac:(unfold a1; lia)).
  destruct (close_gap _ _ _). by destruct (reclaim _ _ _).
Qed.

(** Everything in flight is lost. *)
Definition blackout (w : World) : World := mk_world (sender w) (receiver w) [] [] (pushed w) (sealed w) (taken w).

Lemma blackout_inv w : inv w -> inv (blackout w).
Proof. intros Hi. by apply fewer_inv; [|apply list_subseteq_nil|apply list_subseteq_nil]. Qed.

(** It is what losing the oldest, again and again, ends in. *)
Lemma blackout_reached w : run w (replicate (length (flight w)) (Lose 0) ++ replicate (length (acks w)) (LoseAck 0)) = blackout w.
Proof.
  destruct w as [s r fl ak p se t]. unfold run. rewrite fold_left_app. cbn [flight acks].
  assert (E1 : fold_left step (replicate (length fl) (Lose 0)) (mk_world s r fl ak p se t) = mk_world s r [] ak p se t)
    by (induction fl as [|g fl IH]; [done|exact IH]). rewrite E1. clear E1.
  induction ak as [|a ak IH]; [done|exact IH].
Qed.

(** One round on a network that loses nothing more acknowledges at least one segment. *)
Lemma round w : inv w -> fits w -> acked (sender w) < len w ->
  exists es, (length es <= 484)%nat /\ Forall quiet es /\ acked (sender w) < acked (sender (run w es)).
Proof.
  intros Hi Hf Hlt. set (w0 := step w Read). pose proof (read_inv w Hi) as Hi0. fold w0 in Hi0.
  pose proof (quiet_written w Read Hi I) as Hw0. fold w0 in Hw0. destruct (written_fits w w0 Hw0) as [Hf0 Hl0].
  assert (Hs0 : sender w0 = sender w /\ delivered (receiver w0) = next (receiver w0)).
  { unfold w0. cbn [step]. destruct (take_spec (receiver w) (fun k => default [] (received (receiver w) !! k)) (i_recv w Hi)) as [_ (m & Er & _)].
    { intros k Hk. destruct (ri_run _ (i_recv w Hi) k Hk) as [d ->]. done. }
    destruct (take_ (receiver w)) as [out r']. cbn [snd] in Er. by subst r'. }
  destruct Hs0 as [Hs0 Hd0].
  destruct (sweeps_resend 480 w0 Hi0 ltac:(by apply Hf0)) as (n & Hn & Hr & Ha & Hk & g & Hg & Hq); [rewrite Hs0, Hl0; done| |].
  { intros at_ Hat. pose proof (t_due _ (i_time w0 Hi0) _ _ Hat) as [_ Hb]. exact Hb. }
  set (w1 := run w0 (replicate n Sweep)) in *. assert (Hqs : Forall quiet (replicate n Sweep)) by (by apply Forall_replicate).
  destruct (quiet_run (replicate n Sweep) w0 Hi0 ltac:(by apply Hf0) Hqs) as [Hi1 Hw1]. fold w1 in Hi1, Hw1. destruct (written_fits w0 w1 Hw1) as [Hf1 Hl1].
  apply list_elem_of_lookup_1 in Hg as [i Hgi]. pose proof (list_elem_of_lookup_2 _ _ _ Hgi) as Hg.
  assert (Hfw1 : fits w1) by (by apply Hf1, Hf0). pose proof (i_order w1 Hi1) as Ho1.
  assert (Hacc : seq g < next (snd (on_segment (receiver w1) g))) by (apply segment_accepted; try done; rewrite ?Hr; try done; rewrite Hq, <- Hk; rewrite Hr in Ho1; lia).
  exists (Read :: replicate n Sweep ++ [Arrive i; AckArrive (length (acks w0))]).
  split; [cbn [length]; rewrite length_app, length_replicate; cbn; lia|].
  split; [constructor; [done|]; apply Forall_app; split; [done|by repeat constructor]|].
  assert (E : run w (Read :: replicate n Sweep ++ [Arrive i; AckArrive (length (acks w0))]) = step (step w1 (Arrive i)) (AckArrive (length (acks w0)))).
  { unfold w1, w0, run. cbn [fold_left]. by rewrite fold_left_app. }
  rewrite E. clear E. cbn [step]. rewrite Hgi. pose proof (on_segment_ack (receiver w1) g) as Eack. destruct (on_segment (receiver w1) g) as [a r']. cbn [fst snd] in Eack, Hacc.
  cbn [acks sender]. rewrite <- Ha, lookup_app_r, Nat.sub_diag by done. cbn [lookup list_lookup sender].
  pose proof (total_len w1 Hi1 Hfw1) as Ht. pose proof (ack_advances (sender w1) a) as Hadv. rewrite Ht in Hadv. subst a. cbn [cumulative ack] in Hadv.
  unfold fits, SACK_WIDTH in Hfw1. specialize (Hadv ltac:(lia)). rewrite Hs0 in Hk, Hq. lia.
Qed.

(** Rounds follow each other until all is acknowledged, and the reader reads the rest. *)
Lemma completes w : fits w -> finished (sender w) = true -> inv w ->
  exists es', Forall quiet es' /\ Z.of_nat (length es') <= 484 * (len w - acked (sender w)) + 1 /\
    let w' := run w es' in is_complete (sender w') = true /\ pushed w' = pushed w /\ taken w' = pushed w.
Proof.
  intros Hf Hfin Hi.
  remember (Z.to_nat (len w - acked (sender w))) as k eqn:Ek. revert w Hf Hfin Hi Ek. induction k as [k IH] using lt_wf_ind. intros w Hf Hfin Hi Ek.
  pose proof (i_order w Hi) as Ho. destruct (decide (acked (sender w) < len w)) as [Hlt|Hge].
  - destruct (round w Hi Hf Hlt) as (es1 & Hl1 & Hq1 & Ha1). destruct (quiet_run es1 w Hi Hf Hq1) as [Hi1 Hw1].
    destruct (written_fits w _ Hw1) as [Hf1 Hl]. pose proof Hw1 as Hw. injection Hw as Hp _ Hfn. pose proof (i_order _ Hi1).
    destruct (IH (Z.to_nat (len (run w es1) - acked (sender (run w es1)))) ltac:(lia) (run w es1) ltac:(by apply Hf1) ltac:(congruence) Hi1 eq_refl)
      as (es2 & Hq2 & Hl2 & Hc & Hp2 & Ht). exists (es1 ++ es2). unfold run in *. rewrite fold_left_app. split; [by apply Forall_app|].
    split; [rewrite length_app; rewrite Hl in Hl2; lia|]. split; [done|]. split; congruence.
  - exists [Read]. split; [by repeat constructor|]. split; [cbn; lia|]. cbn [run fold_left]. pose proof (quiet_written w Read Hi I) as Hw. injection Hw as Hp Hs Hfn.
    pose proof (read_inv w Hi) as Hi'. destruct (written_fits w _ (quiet_written w Read Hi I)) as [Hf' Hl'].
    assert (Hs' : sender (step w Read) = sender w) by (cbn [step]; by destruct (take_ (receiver w))).
    split; [unfold is_complete; rewrite (total_len _ Hi' ltac:(by apply Hf')), Hl', Hs', Hfin; apply Z.leb_le; lia|]. split; [done|]. apply read_all; try done; lia.
Qed.

(** C16: no loss is fatal.  Take any reachable state of a finished stream, after whatever losses, and then lose
    everything in flight as well: only the retransmission timer can bring a segment back.  Some run of that
    timer, the network and the reader, of at most 484 events for each segment not yet acknowledged and one
    more, completes the sender and hands the reader all that was written. *)
Theorem stream_always_recovers (id ws wr : Z) (es : list event) :
  let w := run (world_new id ws wr) es in fits w -> finished (sender w) = true ->
  exists es', Forall quiet es' /\ Z.of_nat (length es') <= 484 * (len w - acked (sender w)) + 1 /\
    let w' := run (blackout w) es' in is_complete (sender w') = true /\ pushed w' = pushed w /\ taken w' = pushed w.
Proof.
  intros w Hf Hfin. pose proof (world_run_inv es _ (world_new_inv id ws wr) Hf) as Hi. fold w in Hi.
  apply (completes (blackout w)); [done|done|by apply blackout_inv].
Qed.

(** ** Witnesses *)

(** Three segments; the first is late, the others arrive in the wrong order, one of them twice. *)
Definition w_events : list event :=
  [Push [1; 2; 3]; Flush; Push [4]; Flush; Push [5; 6]; Finish; Sweep; Arrive 2; AckArrive 0; Arrive 1; Arrive 1; AckArrive 1; Read].
Local Abbreviation w_world := (run (world_new 7 4 4) w_events).

Lemma w_fits : fits w_world.
Proof. vm_compute. reflexivity. Qed.

Example w_seen : (taken w_world, pushed w_world, acked (sender w_world), next (receiver w_world)) = ([], [1; 2; 3; 4; 5; 6], 0, 0).
Proof. vm_compute. reflexivity. Qed.

(** After the retransmission the gap closes and everything is read. *)
Definition w_repaired : list event := w_events ++ replicate 6 Sweep ++ [Arrive 3; AckArrive 3].

Lemma w_finished : is_finished (receiver (run (world_new 7 4 4) w_repaired)) = true.
Proof. vm_compute. reflexivity. Qed.

Lemma stream_delivers_exactly_witness : taken (step (run (world_new 7 4 4) w_repaired) Read) = [1; 2; 3; 4; 5; 6].
Proof.
  assert (Hf : fits (run (world_new 7 4 4) w_repaired)) by (vm_compute; reflexivity).
  destruct (stream_delivers_exactly 7 4 4 w_repaired Hf) as (_ & H & _).
  rewrite (H w_finished). vm_compute. reflexivity.
Defined.

Lemma w_done : finished (sender w_world) = true.
Proof. vm_compute. reflexivity. Qed.

Lemma w_pushed : pushed w_world = [1; 2; 3; 4; 5; 6].
Proof. vm_compute. reflexivity. Qed.

(** Everything of that state is lost, the acknowledgements too, and the stream still completes. *)
Lemma stream_always_recovers_witness : exists es', taken (run (blackout w_world) es') = [1; 2; 3; 4; 5; 6].
Proof.
  rewrite <- w_pushed. destruct (stream_always_recovers 7 4 4 w_events w_fits w_done) as (es' & _ & _ & _ & _ & H). by exists es'.
Defined.

End StreamWorld.
