(* ===== verification/Ergon.v ===== *)
(** * ERGON: the term algebra

    [fanos-ergon/src/value.rs] and [fanos-ergon/src/lib.rs]: values and total expressions, keys and
    footprints, effects, predicates, claims and terms, the footprint derived by structural induction,
    well-typedness and cost. *)
From stdpp Require Import sorting.
From S2P Require Import Prelude Codec.
Local Open Scope Z_scope.

Module Ergon.

Definition D_MAX : Z := 3.
Definition EXPR_DEPTH_MAX : Z := 8.

(** ** Keys and footprints *)

Record Key := at_key { point : Z; space : Z; slot : list Z }.

#[global] Instance Key_eq_dec : EqDecision Key.
Proof. solve_decision. Defined.

#[global] Instance Key_countable : Countable Key.
Proof.
  refine (inj_countable' (fun k => (point k, space k, slot k)) (fun t => at_key (fst (fst t)) (snd (fst t)) (snd t)) _).
  by intros [].
Defined.

Definition small (point space n : Z) : Key := at_key point space (replicate 24 0 ++ be_bytes 8 n).

(** The derived order: point, then space, then slot. *)
Definition key_ord (k : Key) : list Z := point k :: space k :: slot k.
Definition key_le (a b : Key) : Prop := bytes_leb (key_ord a) (key_ord b) = true.

#[global] Instance key_le_dec a b : Decision (key_le a b).
Proof. unfold key_le. apply _. Defined.

(** [Vec::dedup]: of consecutive equal elements the first stays. *)
Fixpoint dedup {A} `{EqDecision A} (l : list A) : list A :=
  match l with
  | x :: ((y :: _) as rest) => if decide (x = y) then dedup rest else x :: dedup rest
  | _ => l
  end.

(** [sort_unstable] then [dedup]. *)
Definition normalise (l : list Key) : list Key := dedup (merge_sort key_le l).

Record Footprint := mk_fp { reads : list Key; writes : list Key }.

Definition fp_empty : Footprint := mk_fp [] [].
Definition fp_new (rs ws : list Key) : Footprint := mk_fp (normalise rs) (normalise ws).
Definition width (f : Footprint) : nat := length (reads f) + length (writes f).
Definition union (f g : Footprint) : Footprint := fp_new (reads f ++ reads g) (writes f ++ writes g).

(** The linear merge of two sorted slices. *)
Fixpoint intersects (a : list Key) : list Key -> bool :=
  fix go (b : list Key) : bool :=
    match a, b with
    | x :: a', y :: b' =>
        if decide (x = y) then true
        else if decide (key_le x y) then intersects a' b else go b'
    | _, _ => false
    end.

Definition conflicts (f g : Footprint) : bool :=
  intersects (writes f) (writes g) || intersects (writes f) (reads g) || intersects (reads f) (writes g).

Definition parallel_safe (f g : Footprint) : bool := negb (conflicts f g).

Definition points (f : Footprint) : list Z := dedup (merge_sort Z.le (point <$> reads f ++ writes f)).

Inductive Locality := Empty | Point (p : Z) | Line (l : Z) | PlaneWide.

Definition fp_locality (common_line : list Z -> option Z) (f : Footprint) : Locality :=
  match points f with
  | [] => Empty
  | [p] => Point p
  | ps => match common_line ps with Some l => Line l | None => PlaneWide end
  end.

(** ** Values *)

Inductive Value :=
| Int (n : Z)
| Bytes32 (b : list Z)
| Bytes (b : list Z)
| Record_ (fields : list (Z * Value)).

Inductive Fault :=
| Overflow
| DivByZero
| TypeMismatch
| ArgOutOfRange (index : Z) (supplied : nat)
| Missing (k : Key)
| ExprDepth (depth : Z)
| OutsideFootprint (k : Key)
| Rejected (kind : Z)
| ClaimUnproven (kind : Z).

Definition as_int (v : Value) : result Z Fault := match v with Int n => Ok n | _ => Err TypeMismatch end.

Definition as_u64 (v : Value) : result Z Fault :=
  match v with
  | Int n => if bool_decide (0 <= n < 2 ^ 64) then Ok n else Err Overflow
  | _ => Err TypeMismatch
  end.

Definition as_bytes32 (v : Value) : result (list Z) Fault := match v with Bytes32 b => Ok b | _ => Err TypeMismatch end.
Definition as_bytes (v : Value) : result (list Z) Fault := match v with Bytes b => Ok b | _ => Err TypeMismatch end.

(** The binary search by tag, on fields that are sorted by tag. *)
Definition field (v : Value) (tag : Z) : result Value Fault :=
  match v with
  | Record_ fields => ok_or (snd <$> list_find (fun e => fst e = tag) fields ≫= fun p => Some (snd p)) TypeMismatch
  | _ => Err TypeMismatch
  end.

(** Whether two neighbours have the same tag. *)
Fixpoint repeats (fields : list (Z * Value)) : bool :=
  match fields with
  | a :: ((b :: _) as rest) => (fst a =? fst b) || repeats rest
  | _ => false
  end.

Definition tag_le (a b : Z * Value) : Prop := fst a <= fst b.

#[global] Instance tag_le_dec a b : Decision (tag_le a b).
Proof. unfold tag_le. apply _. Defined.

Definition record (fields : list (Z * Value)) : option Value :=
  let fields := merge_sort tag_le fields in
  if repeats fields then None else Some (Record_ fields).

(** [iter.max().unwrap_or(0)] on depths, which are never negative. *)
Definition zmax (l : list Z) : Z := foldr Z.max 0 l.

Fixpoint value_depth (v : Value) : Z :=
  match v with
  | Record_ fields => 1 + zmax (map (fun '(_, v) => value_depth v) fields)
  | _ => 1
  end.

Fixpoint value_eqb (v w : Value) : bool :=
  match v, w with
  | Int n, Int m => n =? m
  | Bytes32 b, Bytes32 c => bool_decide (b = c)
  | Bytes b, Bytes c => bool_decide (b = c)
  | Record_ f, Record_ g =>
      (fix go (f g : list (Z * Value)) : bool :=
         match f, g with
         | [], [] => true
         | (t, v) :: f, (u, w) :: g => (t =? u) && value_eqb v w && go f g
         | _, _ => false
         end) f g
  | _, _ => false
  end.

(** ** Expressions *)

Inductive BinOp := Add | Sub | Mul | Div | Rem | Min | Max.
Inductive Cmp := Eq | Ne | Lt | Le | Gt | Ge.

Inductive Expr :=
| Lit (v : Value)
| Load (k : Key)
| Arg (i : Z)
| Bin (op : BinOp) (lhs rhs : Expr).

Definition checked (w x : Z) : result Z Fault := if bool_decide (0 <= x < 2 ^ w) then Ok x else Err Overflow.

Definition binop_apply (op : BinOp) (a b : Z) : result Z Fault :=
  match op with
  | Add => checked 128 (a + b)
  | Sub => checked 128 (a - b)
  | Mul => checked 128 (a * b)
  | Div => if b =? 0 then Err DivByZero else Ok (a / b)
  | Rem => if b =? 0 then Err DivByZero else Ok (a mod b)
  | Min => Ok (if a <? b then a else b)
  | Max => Ok (if b <? a then a else b)
  end.

Definition cmp_apply (op : Cmp) (a b : Value) : result bool Fault :=
  let comparable := match a, b with
    | Int _, Int _ | Bytes32 _, Bytes32 _ | Record_ _, Record_ _ | Bytes _, Bytes _ => true
    | _, _ => false
    end in
  match op, a, b with
  | Eq, _, _ => if comparable then Ok (value_eqb a b) else Err TypeMismatch
  | Ne, _, _ => if comparable then Ok (negb (value_eqb a b)) else Err TypeMismatch
  | Lt, Int p, Int q => Ok (p <? q)
  | Le, Int p, Int q => Ok (p <=? q)
  | Gt, Int p, Int q => Ok (q <? p)
  | Ge, Int p, Int q => Ok (q <=? p)
  | _, _, _ => Err TypeMismatch
  end.

Fixpoint expr_depth (e : Expr) : Z :=
  match e with
  | Bin _ l r => 1 + Z.max (expr_depth l) (expr_depth r)
  | _ => 1
  end.

Fixpoint collect_reads (e : Expr) : list Key :=
  match e with
  | Load k => [k]
  | Bin _ l r => collect_reads l ++ collect_reads r
  | _ => []
  end.

(** ** Effects, predicates, claims and terms *)

Record Effect := mk_effect { kind : Z; footprint : Footprint; args : list Expr; external : bool }.

Definition internal (kind : Z) (f : Footprint) : Effect := mk_effect kind f [] false.
Definition external_ (kind : Z) (f : Footprint) : Effect := mk_effect kind f [] true.
Definition with_args (e : Effect) (args : list Expr) : Effect := mk_effect (kind e) (footprint e) args (external e).

Definition effect_footprint (e : Effect) : Footprint :=
  match args e with
  | [] => footprint e
  | _ => fp_new (reads (footprint e) ++ concat (collect_reads <$> args e)) (writes (footprint e))
  end.

Inductive Predicate :=
| Host (kind : Z) (reads : list Key) (args : list Expr)
| Compare (op : Cmp) (lhs rhs : Expr)
| And (parts : list Predicate)
| Or (parts : list Predicate)
| Not (inner : Predicate).

Definition host (kind : Z) (reads : list Key) : Predicate := Host kind (normalise reads) [].
Definition host_with (kind : Z) (reads : list Key) (args : list Expr) : Predicate := Host kind (normalise reads) args.

Fixpoint pred_reads (p : Predicate) : list Key :=
  match p with
  | Host _ reads args => reads ++ concat (collect_reads <$> args)
  | Compare _ l r => collect_reads l ++ collect_reads r
  | And parts | Or parts => concat (map pred_reads parts)
  | Not inner => pred_reads inner
  end.

Definition pred_footprint (p : Predicate) : Footprint := fp_new (pred_reads p) [].

Fixpoint pred_expr_depth (p : Predicate) : Z :=
  match p with
  | Host _ _ args => zmax (expr_depth <$> args)
  | Compare _ l r => Z.max (expr_depth l) (expr_depth r)
  | And parts | Or parts => zmax (map pred_expr_depth parts)
  | Not inner => pred_expr_depth inner
  end.

Record Claim := mk_claim { c_kind : Z; c_footprint : Footprint; proof_bytes : Z }.

Inductive Term :=
| Do (e : Effect)
| Seq (ts : list Term)
| Par (ts : list Term)
| Gate (p : Predicate) (t : Term)
| Alt (bs : list (Predicate * Term))
| Prove (c : Claim).

Fixpoint term_footprint (t : Term) : Footprint :=
  match t with
  | Do e => effect_footprint e
  | Seq ts | Par ts => fold_left (fun acc t => union acc (term_footprint t)) ts fp_empty
  | Gate p t => union (term_footprint t) (pred_footprint p)
  | Alt bs => fold_left (fun acc '(p, t) => union (union acc (term_footprint t)) (pred_footprint p)) bs fp_empty
  | Prove c => c_footprint c
  end.

Definition locality (common_line : list Z -> option Z) (t : Term) : Locality := fp_locality common_line (term_footprint t).

Fixpoint depth (t : Term) : Z :=
  match t with
  | Do _ | Prove _ => 0
  | Seq ts | Par ts => 1 + zmax (map depth ts)
  | Gate _ t => 1 + depth t
  | Alt bs => 1 + zmax (map (fun '(_, t) => depth t) bs)
  end.

Fixpoint size (t : Term) : nat :=
  match t with
  | Do _ | Prove _ => 1
  | Seq ts | Par ts => 1 + list_sum (map size ts)
  | Gate _ t => 1 + size t
  | Alt bs => 1 + list_sum (map (fun '(_, t) => size t) bs)
  end.

Fixpoint is_external (t : Term) : bool :=
  match t with
  | Do e => external e
  | Prove _ => false
  | Seq ts | Par ts => existsb is_external ts
  | Gate _ t => is_external t
  | Alt bs => existsb (fun '(_, t) => is_external t) bs
  end.

Fixpoint effect_kinds (t : Term) : list Z :=
  match t with
  | Do e => [kind e]
  | Prove _ => []
  | Seq ts | Par ts => concat (map effect_kinds ts)
  | Gate _ t => effect_kinds t
  | Alt bs => concat (map (fun '(_, t) => effect_kinds t) bs)
  end.

(** ** Well-typedness *)

Inductive TypeError :=
| TooDeep (depth : Z)
| ParallelConflict (left right : nat)
| EmptyCombinator
| ProofTooLarge (bytes cap : Z)
| ExprTooDeep (depth cap : Z)
| FootprintTooWide (width cap : nat).

(** A [None] width is [usize::MAX]. *)
Record Limits := mk_limits { l_proof_bytes : Z; footprint_width : option nat }.

Definition unbounded : Limits := mk_limits (2 ^ 32 - 1) None.

Fixpoint expr_depth_of (t : Term) : Z :=
  match t with
  | Do e => zmax (expr_depth <$> args e)
  | Seq ts | Par ts => zmax (map expr_depth_of ts)
  | Gate p t => Z.max (pred_expr_depth p) (expr_depth_of t)
  | Alt bs => zmax (map (fun '(p, t) => Z.max (pred_expr_depth p) (expr_depth_of t)) bs)
  | Prove _ => 0
  end.

(** [iter.try_for_each]. *)
Definition try_each {A E} (f : A -> result unit E) (l : list A) : result unit E :=
  fold_right (fun x acc => match f x with Ok _ => acc | Err e => Err e end) (Ok tt) l.

(** The first conflicting pair of branches, in the order of the two loops. *)
Fixpoint row_conflict (i j : nat) (a : Footprint) (l : list Footprint) : option TypeError :=
  match l with
  | [] => None
  | b :: l => if parallel_safe a b then row_conflict i (S j) a l else Some (ParallelConflict i j)
  end.

Fixpoint par_conflict (i : nat) (prints : list Footprint) : option TypeError :=
  match prints with
  | [] => None
  | a :: l => match row_conflict i (S i) a l with Some e => Some e | None => par_conflict (S i) l end
  end.

Fixpoint check_structure (limits : Limits) (t : Term) : result unit TypeError :=
  match t with
  | Do _ => Ok tt
  | Prove c => if l_proof_bytes limits <? proof_bytes c then Err (ProofTooLarge (proof_bytes c) (l_proof_bytes limits)) else Ok tt
  | Seq ts => match ts with [] => Err EmptyCombinator | _ => try_each (check_structure limits) ts end
  | Par ts =>
      match ts with
      | [] => Err EmptyCombinator
      | _ => match par_conflict 0 (term_footprint <$> ts) with
             | Some e => Err e
             | None => try_each (check_structure limits) ts
             end
      end
  | Gate _ t => check_structure limits t
  | Alt bs => match bs with [] => Err EmptyCombinator | _ => try_each (fun '(_, t) => check_structure limits t) bs end
  end.

Definition well_typed (t : Term) (limits : Limits) : result unit TypeError :=
  let depth := depth t in
  if D_MAX <? depth then Err (TooDeep depth) else
  let ed := expr_depth_of t in
  if EXPR_DEPTH_MAX <? ed then Err (ExprTooDeep ed EXPR_DEPTH_MAX) else
  let width := width (term_footprint t) in
  match footprint_width limits with
  | Some cap => if (cap <? width)%nat then Err (FootprintTooWide width cap) else check_structure limits t
  | None => check_structure limits t
  end.

(** [Checked::new]. *)
Definition checked_new (t : Term) (limits : Limits) : result Term TypeError := let? _ := well_typed t limits in Ok t.

(** Units; [u64] sums. *)
Fixpoint cost (t : Term) : Z :=
  match t with
  | Do _ => 1
  | Prove c => 1 + proof_bytes c / 32
  | Seq ts | Par ts => w64 (1 + foldr Z.add 0 (map cost ts))
  | Gate _ t => w64 (1 + 1 + cost t)
  | Alt bs => w64 (1 + Z.of_nat (length bs) * 1 + zmax (map (fun '(_, t) => cost t) bs))
  end.

(** ** Induction over the nested types *)

Section value_induction.
  Context (P : Value -> Prop).
  Hypothesis HI : forall n, P (Int n).
  Hypothesis H32 : forall b, P (Bytes32 b).
  Hypothesis HB : forall b, P (Bytes b).
  Hypothesis HR : forall fs, Forall (fun f => P (snd f)) fs -> P (Record_ fs).

Fixpoint value_rect' (v : Value) : P v :=
  match v with
  | Int n => HI n
  | Bytes32 b => H32 b
  | Bytes b => HB b
  | Record_ fs => HR fs ((fix go l : Forall (fun f => P (snd f)) l :=
      match l with [] => Forall_nil_2 _ | f :: l => Forall_cons_2 _ f l (value_rect' (snd f)) (go l) end) fs)
  end.
End value_induction.

Section pred_induction.
  Context (P : Predicate -> Prop).
  Hypothesis HH : forall k r a, P (Host k r a).
  Hypothesis HC : forall o l r, P (Compare o l r).
  Hypothesis HA : forall ps, Forall P ps -> P (And ps).
  Hypothesis HO : forall ps, Forall P ps -> P (Or ps).
  Hypothesis HN : forall p, P p -> P (Not p).

Fixpoint pred_rect' (p : Predicate) : P p :=
  let go := fix go l : Forall P l := match l with [] => Forall_nil_2 _ | p :: l => Forall_cons_2 _ p l (pred_rect' p) (go l) end in
  match p with
  | Host k r a => HH k r a
  | Compare o l r => HC o l r
  | And ps => HA ps (go ps)
  | Or ps => HO ps (go ps)
  | Not p => HN p (pred_rect' p)
  end.
End pred_induction.

Section term_induction.
  Context (P : Term -> Prop).
  Hypothesis HD : forall e, P (Do e).
  Hypothesis HS : forall ts, Forall P ts -> P (Seq ts).
  Hypothesis HP : forall ts, Forall P ts -> P (Par ts).
  Hypothesis HG : forall p t, P t -> P (Gate p t).
  Hypothesis HA : forall bs, Forall (fun b => P (snd b)) bs -> P (Alt bs).
  Hypothesis HV : forall c, P (Prove c).

Fixpoint term_rect' (t : Term) : P t :=
  let go := fix go l : Forall P l := match l with [] => Forall_nil_2 _ | t :: l => Forall_cons_2 _ t l (term_rect' t) (go l) end in
  match t with
  | Do e => HD e
  | Seq ts => HS ts (go ts)
  | Par ts => HP ts (go ts)
  | Gate p t => HG p t (term_rect' t)
  | Alt bs => HA bs ((fix goa l : Forall (fun b => P (snd b)) l :=
      match l with [] => Forall_nil_2 _ | b :: l => Forall_cons_2 _ b l (term_rect' (snd b)) (goa l) end) bs)
  | Prove c => HV c
  end.
End term_induction.

(** ** Normal footprints *)

#[global] Instance key_le_transitive : Transitive key_le.
Proof. intros a b c. apply bytes_leb_trans. Qed.
#[global] Instance key_le_total : Total key_le.
Proof. intros a b. apply bytes_leb_total. Qed.
#[global] Instance key_le_antisym : AntiSymm (=) key_le.
Proof.
  intros a b H1 H2. pose proof (bytes_leb_antisym _ _ H1 H2) as E. unfold key_ord in E. destruct a, b. simpl in E. congruence.
Qed.

Definition key_lt (a b : Key) : Prop := key_le a b /\ a <> b.

Definition normal (l : list Key) : Prop := StronglySorted key_lt l.
Definition fp_ok (f : Footprint) : Prop := normal (reads f) /\ normal (writes f).

Lemma dedup_cons {A} `{EqDecision A} (x y : A) l : dedup (x :: y :: l) = if decide (x = y) then dedup (y :: l) else x :: dedup (y :: l).
Proof. done. Qed.

Lemma dedup_elem {A} `{EqDecision A} (l : list A) x : x ∈ dedup l <-> x ∈ l.
Proof.
  induction l as [|y [|z l] IH]; [done|done|]. rewrite dedup_cons. case_decide as E.
  - rewrite IH, (elem_of_cons (z :: l)). subst. rewrite elem_of_cons. tauto.
  - rewrite elem_of_cons, IH, (elem_of_cons (z :: l)). done.
Qed.

Lemma dedup_strict (l : list Key) : StronglySorted key_le l -> normal (dedup l).
Proof.
  unfold normal. induction l as [|y [|z l] IH]; intros Hs; [constructor|repeat constructor|]. rewrite dedup_cons.
  apply StronglySorted_cons in Hs as [HF Hs]. specialize (IH Hs). case_decide as E; [done|]. apply StronglySorted_cons. split; [|done].
  apply Forall_forall. intros x Hx. rewrite dedup_elem in Hx. rewrite Forall_forall in HF. split; [by apply HF|]. intros ->.
  apply elem_of_cons in Hx as [|Hx]; [done|]. apply E. apply (anti_symm key_le); [apply HF; by left|].
  apply StronglySorted_cons in Hs as [HF' _]. rewrite Forall_forall in HF'. by apply HF'.
Qed.

Lemma normalise_elem l k : k ∈ normalise l <-> k ∈ l.
Proof. unfold normalise. rewrite dedup_elem. by rewrite (merge_sort_Permutation key_le l). Qed.

Lemma normalise_normal l : normal (normalise l).
Proof. apply dedup_strict, StronglySorted_merge_sort; apply _. Qed.

Lemma length_normalise l : (length (normalise l) <= length l)%nat.
Proof.
  unfold normalise. rewrite <- (merge_sort_Permutation key_le l) at 2. generalize (merge_sort key_le l). clear l.
  induction l as [|x [|y l] IH]; [done|done|]. rewrite dedup_cons. case_decide; cbn [length] in *; lia.
Qed.

Lemma normal_weak l : normal l -> StronglySorted key_le l.
Proof.
  unfold normal. induction 1 as [|x l Hs IH HF]; constructor; [done|]. eapply Forall_impl; [done|]. by intros y [? _].
Qed.

Lemma dedup_id l : normal l -> dedup l = l.
Proof.
  unfold normal. induction 1 as [|x l Hs IH HF]; [done|]. destruct l as [|y l]; [done|]. rewrite dedup_cons.
  apply Forall_cons in HF as [[_ Hne] _]. rewrite decide_False by done. f_equal. exact IH.
Qed.

(** A normal list is its own normal form. *)
Lemma normalise_id l : normal l -> normalise l = l.
Proof.
  intros Hn. unfold normalise. rewrite <- (dedup_id l Hn) at 2. f_equal.
  apply (StronglySorted_unique key_le); [apply StronglySorted_merge_sort; apply _|by apply normal_weak|apply merge_sort_Permutation].
Qed.

Lemma fp_new_ok rs ws : fp_ok (fp_new rs ws).
Proof. split; apply normalise_normal. Qed.

Lemma fp_new_id f : fp_ok f -> fp_new (reads f) (writes f) = f.
Proof. intros [Hr Hw]. unfold fp_new. rewrite !normalise_id by done. by destruct f. Qed.

(** The merge finds a common key exactly when there is one. *)
Lemma keys_intersect_spec a : normal a -> forall b, normal b -> (intersects a b = true <-> exists k, k ∈ a /\ k ∈ b).
Proof.
  unfold normal. induction 1 as [|x a Ha IHa HFa].
  { intros b _. split; [by destruct b|]. intros (k & Hk & _). by apply elem_of_nil in Hk. }
  induction 1 as [|y b Hb IHb HFb].
  { split; [done|]. intros (k & _ & Hk). by apply elem_of_nil in Hk. }
  assert (Hyb : StronglySorted key_lt (y :: b)) by by constructor.
  rewrite Forall_forall in HFa, HFb. cbn [intersects]. case_decide as E.
  { subst y. split; [|done]. intros _. exists x. split; by left. }
  case_decide as Hle.
  - rewrite (IHa (y :: b) Hyb). split; intros (k & Hk & Hk'); exists k; (split; [|done]).
    + by right.
    + apply elem_of_cons in Hk as [->|]; [|done]. exfalso. apply elem_of_cons in Hk' as [|Hk']; [done|].
      destruct (HFb _ Hk') as [Hyx _]. by apply E, (anti_symm key_le).
  - assert (Hyx : key_le y x) by (destruct (total key_le x y); done).
    etrans; [exact IHb|]. split; intros (k & Hk & Hk'); exists k; (split; [done|]).
    + by right.
    + apply elem_of_cons in Hk' as [->|]; [|done]. exfalso. apply elem_of_cons in Hk as [|Hk]; [done|].
      destruct (HFa _ Hk) as [Hxy _]. done.
Qed.

(** Two terms may run side by side: what one writes the other does not touch. *)
Definition independent (f g : Footprint) : Prop :=
  (forall k, k ∈ writes f -> (k ∉ reads g) /\ (k ∉ writes g)) /\ (forall k, k ∈ writes g -> (k ∉ reads f) /\ (k ∉ writes f)).

Lemma parallel_safe_spec f g : fp_ok f -> fp_ok g -> (parallel_safe f g = true <-> independent f g).
Proof.
  intros [Hrf Hwf] [Hrg Hwg]. unfold parallel_safe, conflicts. rewrite negb_true_iff, !orb_false_iff.
  assert (Hf : forall a b, normal a -> normal b -> (intersects a b = false <-> forall k, k ∈ a -> k ∉ b)).
  { intros a b Ha Hb. rewrite <- not_true_iff_false, keys_intersect_spec by done. split; [|by intros Hn (k & ? & ?); eapply Hn].
    intros Hn k ? ?. apply Hn. by exists k. }
  rewrite !Hf by done. split.
  - intros [[Hww Hwr] Hrw]. split; intros k Hk; split; [by apply Hwr|by apply Hww| |]; intros Hk'; [by apply (Hrw k)|by apply (Hww k)].
  - intros [H1 H2]. split; [split|]; intros k Hk; [by apply H1|by apply H1|]. intros Hk'. by destruct (H2 k Hk').
Qed.

(** ** The derived footprint covers every part of a term *)

Definition covers (g f : Footprint) : Prop := reads f ⊆ reads g /\ writes f ⊆ writes g.

#[global] Instance covers_preorder : PreOrder covers.
Proof. split; [by intros f; split|]. intros f g h [H1 H2] [H3 H4]. split; by etrans. Qed.

Lemma union_covers f g : covers (union f g) f /\ covers (union f g) g.
Proof.
  assert (Hu : forall k, (k ∈ reads (union f g) <-> k ∈ reads f ++ reads g) /\ (k ∈ writes (union f g) <-> k ∈ writes f ++ writes g))
    by (intros k; split; apply normalise_elem).
  repeat split; intros k Hk; destruct (Hu k) as [Hr Hw]; apply Hr || apply Hw; apply elem_of_app; auto.
Qed.

(** Accumulating covers what was there and every step. *)
Lemma fold_covers {A} (step : Footprint -> A -> Footprint) (part : A -> Footprint) l : forall acc,
  (forall acc x, covers (step acc x) acc /\ covers (step acc x) (part x)) ->
  covers (fold_left step l acc) acc /\ Forall (fun x => covers (fold_left step l acc) (part x)) l.
Proof.
  induction l as [|x l IH]; intros acc Hs; cbn [fold_left]; [split; [reflexivity|constructor]|].
  destruct (IH (step acc x) Hs) as [H1 H2]. destruct (Hs acc x) as [H3 H4].
  split; [exact (transitivity H1 H3)|]. constructor; [exact (transitivity H1 H4)|done].
Qed.

Lemma seq_covers ts : Forall (fun t => covers (term_footprint (Seq ts)) (term_footprint t)) ts.
Proof. apply (fold_covers (fun acc t => union acc (term_footprint t)) term_footprint). intros. apply union_covers. Qed.

Lemma par_covers ts : Forall (fun t => covers (term_footprint (Par ts)) (term_footprint t)) ts.
Proof. apply seq_covers. Qed.

Lemma gate_covers p t : covers (term_footprint (Gate p t)) (term_footprint t) /\ covers (term_footprint (Gate p t)) (pred_footprint p).
Proof. apply union_covers. Qed.

Lemma alt_covers bs : Forall (fun b => covers (term_footprint (Alt bs)) (term_footprint (snd b)) /\
  covers (term_footprint (Alt bs)) (pred_footprint (fst b))) bs.
Proof.
  cbn [term_footprint]. set (step := fun acc '(p, t) => union (union acc (term_footprint t)) (pred_footprint p)).
  assert (Hs : forall acc b, covers (step acc b) acc /\ covers (step acc b) (term_footprint (snd b)) /\ covers (step acc b) (pred_footprint (fst b))).
  { intros acc [p t]. unfold step. destruct (union_covers (union acc (term_footprint t)) (pred_footprint p)) as [H1 H2].
    destruct (union_covers acc (term_footprint t)) as [H3 H4]. split; [exact (transitivity H1 H3)|]. split; [exact (transitivity H1 H4)|done]. }
  destruct (fold_covers step (fun b => term_footprint (snd b)) bs fp_empty) as [_ H1]; [intros acc b; destruct (Hs acc b) as (? & ? & _); done|].
  destruct (fold_covers step (fun b => pred_footprint (fst b)) bs fp_empty) as [_ H2]; [intros acc b; destruct (Hs acc b) as (? & _ & ?); done|].
  rewrite Forall_forall in H1, H2 |- *. intros b Hb. split; [by apply H1|by apply H2].
Qed.

Lemma effect_covers e : writes (footprint e) ⊆ writes (effect_footprint e) /\ reads (footprint e) ⊆ reads (effect_footprint e) /\
  forall a k, a ∈ args e -> k ∈ collect_reads a -> k ∈ reads (effect_footprint e).
Proof.
  unfold effect_footprint. destruct (args e) as [|a l] eqn:E.
  - split; [done|]. split; [done|]. intros a k Ha. by apply elem_of_nil in Ha.
  - unfold fp_new. cbn [reads writes]. split; [intros k Hk; by apply normalise_elem|].
    split; [intros k Hk; apply normalise_elem, elem_of_app; by left|].
    intros b k Hb Hk. apply normalise_elem, elem_of_app. right. apply list_elem_of_In, in_concat. exists (collect_reads b).
    split; apply list_elem_of_In; [|done]. apply list_elem_of_fmap. by exists b.
Qed.

Lemma pred_covers p k : k ∈ pred_reads p -> k ∈ reads (pred_footprint p).
Proof. intros Hk. by apply normalise_elem. Qed.

(** ** Where footprints are normal *)

(** The declared footprints of a term, which only [Footprint::new] builds. *)
Fixpoint term_ok (t : Term) : Prop :=
  match t with
  | Do e => fp_ok (footprint e)
  | Seq ts | Par ts => foldr (fun t acc => term_ok t /\ acc) True ts
  | Gate _ t => term_ok t
  | Alt bs => foldr (fun '(_, t) acc => term_ok t /\ acc) True bs
  | Prove c => fp_ok (c_footprint c)
  end.

Lemma term_footprint_ok t : term_ok t -> fp_ok (term_footprint t).
Proof.
  destruct t as [e|ts|ts|p t|bs|c]; cbn [term_ok term_footprint]; intros Ht; try done.
  - unfold effect_footprint. destruct (args e); [done|apply fp_new_ok].
  - destruct ts as [|x ts] using rev_ind; [repeat constructor|]. rewrite fold_left_app. apply fp_new_ok.
  - destruct ts as [|x ts] using rev_ind; [repeat constructor|]. rewrite fold_left_app. apply fp_new_ok.
  - apply fp_new_ok.
  - destruct bs as [|[p t] bs] using rev_ind; [repeat constructor|]. rewrite fold_left_app. apply fp_new_ok.
Qed.

Lemma foldr_Forall {A} (P : A -> Prop) l : foldr (fun x acc => P x /\ acc) True l <-> Forall P l.
Proof. induction l as [|x l IH]; simpl; [by rewrite Forall_nil|]. by rewrite Forall_cons, IH. Qed.

(** The check of a parallel composition, as a relation between its branches. *)
Lemma par_conflict_None ts : forall i, par_conflict i ts = None -> ForallOrdPairs (fun f g => parallel_safe f g = true) ts.
Proof.
  assert (Hrow : forall l i j a, row_conflict i j a l = None -> Forall (fun g => parallel_safe a g = true) l).
  { induction l as [|b l IH]; intros i j a; cbn [row_conflict]; [by constructor|]. case_match; [|done]. constructor; [done|by eapply IH]. }
  induction ts as [|a l IH]; intros i; cbn [par_conflict]; [constructor|]. destruct (row_conflict i (S i) a l) eqn:Er; [done|].
  constructor; [by eapply Hrow|by eapply IH].
Qed.

End Ergon.
