(* ===== verification/ErgonExec.v ===== *)
(** * ERGON: execution

    [fanos-ergon/src/exec.rs] and the evaluation of expressions of [value.rs]: the state and host
    interfaces, the view confined to a footprint, the undo journal and the evaluator.  A host rule is
    native code that touches the state only through the view it is handed; it is a program over that
    view's two operations. *)
From S2P Require Import Prelude Codec Ergon.
Import Ergon.
Local Open Scope Z_scope.

Module ErgonExec.

(** [Reader] and [State].  Reading takes a shared reference, but an implementation may note the key it
    was asked for in a cell, so a read returns the state too. *)
Class State (S : Type) := { get : S -> Key -> option Value * S; set : S -> Key -> Value -> S }.

(** What a host rule does with the [&mut dyn State] it is given, and with a [&dyn Reader]. *)
Inductive prog (A : Type) :=
| Ret (a : A)
| Get (k : Key) (rest : option Value -> prog A)
| Put (k : Key) (v : Value) (rest : prog A).
Arguments Ret {A} a.
Arguments Get {A} k rest.
Arguments Put {A} k v rest.

Inductive rprog (A : Type) :=
| RRet (a : A)
| RGet (k : Key) (rest : option Value -> rprog A).
Arguments RRet {A} a.
Arguments RGet {A} k rest.

(** [trait Host], for hosts whose rules change nothing in the host itself: [effect] takes [&mut self],
    but the ledger's host, the only one outside the tests, holds a caller and a height that no rule
    changes.  The theorems below are about such hosts. *)
Record HostOps := mk_host {
  effect : Z -> list Value -> prog (result unit Fault);
  predicate : Z -> list Key -> list Value -> rprog (result bool Fault);
  verify : Claim -> result bool Fault;
}.

Definition verify_default (c : Claim) : result bool Fault := Ok false.

Record Receipt := mk_receipt { effects : nat; predicates : nat; claims : nat; declined : nat }.

Definition receipt_default : Receipt := mk_receipt 0 0 0 0.
Definition count_effect (r : Receipt) : Receipt := mk_receipt (effects r + 1) (predicates r) (claims r) (declined r).
Definition count_predicate (r : Receipt) : Receipt := mk_receipt (effects r) (predicates r + 1) (claims r) (declined r).
Definition count_claim (r : Receipt) : Receipt := mk_receipt (effects r) (predicates r) (claims r + 1) (declined r).
Definition count_declined (r : Receipt) : Receipt := mk_receipt (effects r) (predicates r) (claims r) (declined r + 1).

(** The first violation is kept. *)
Definition note (violation : option Key) (k : Key) : option Key :=
  match violation with Some k => Some k | None => Some k end.

Section exec.
  Context {S : Type} `{State S}.

(** ** The journal *)

Record Journal := mk_journal { inner : S; undo : list (Key * option Value) }.

Definition journal_new (s : S) : Journal := mk_journal s [].

Definition jget (j : Journal) (k : Key) : option Value * Journal :=
  let '(v, s) := get (inner j) k in (v, mk_journal s (undo j)).

Definition jset (j : Journal) (k : Key) (v : Value) : Journal :=
  let j := if existsb (fun e => bool_decide (fst e = k)) (undo j) then j
           else let '(before, s) := get (inner j) k in mk_journal s (undo j ++ [(k, before)]) in
  mk_journal (set (inner j) k v) (undo j).

(** An absent key is given back as the integer zero. *)
Definition restore (s : S) (e : Key * option Value) : S :=
  match snd e with Some v => set s (fst e) v | None => set s (fst e) (Int 0) end.

(** The entries are popped from the end. *)
Definition rollback (j : Journal) : Journal := mk_journal (fold_left restore (reverse (undo j)) (inner j)) [].

(** ** Confined views *)

Fixpoint run_confined {A} (fp : Footprint) (p : prog A) (j : Journal) (violation : option Key) : A * Journal * option Key :=
  match p with
  | Ret a => (a, j, violation)
  | Get k rest =>
      if bool_decide (k ∈ reads fp \/ k ∈ writes fp)
      then let '(v, j) := jget j k in run_confined fp (rest v) j violation
      else run_confined fp (rest None) j (note violation k)
  | Put k v rest =>
      if bool_decide (k ∈ writes fp) then run_confined fp rest (jset j k v) violation
      else run_confined fp rest j (note violation k)
  end.

Fixpoint run_reader {A} (reads : list Key) (p : rprog A) (j : Journal) (violation : option Key) : A * Journal * option Key :=
  match p with
  | RRet a => (a, j, violation)
  | RGet k rest =>
      if bool_decide (k ∈ reads) then let '(v, j) := jget j k in run_reader reads (rest v) j violation
      else run_reader reads (rest None) j (note violation k)
  end.

(** ** Expressions *)

Section eval.
  Context (host : HostOps) (args : list Value).

Fixpoint eval_unchecked (e : Expr) (j : Journal) : result Value Fault * Journal :=
  match e with
  | Lit v => (Ok v, j)
  | Load k => let '(v, j) := jget j k in (ok_or v (Missing k), j)
  | Arg i => (ok_or (args !! Z.to_nat i) (ArgOutOfRange i (length args)), j)
  | Bin op l r =>
      match eval_unchecked l j with
      | (Err f, j) => (Err f, j)
      | (Ok a, j) =>
          match as_int a with
          | Err f => (Err f, j)
          | Ok a =>
              match eval_unchecked r j with
              | (Err f, j) => (Err f, j)
              | (Ok b, j) => ((let? b := as_int b in let? n := binop_apply op a b in Ok (Int n)), j)
              end
          end
      end
  end.

Definition eval_expr (e : Expr) (j : Journal) : result Value Fault * Journal :=
  let d := expr_depth e in
  if EXPR_DEPTH_MAX <? d then (Err (ExprDepth d), j) else eval_unchecked e j.

Fixpoint eval_args (es : list Expr) (j : Journal) : result (list Value) Fault * Journal :=
  match es with
  | [] => (Ok [], j)
  | e :: es =>
      match eval_expr e j with
      | (Err f, j) => (Err f, j)
      | (Ok v, j) => match eval_args es j with (Err f, j) => (Err f, j) | (Ok vs, j) => (Ok (v :: vs), j) end
      end
  end.

(** ** Predicates and terms *)

Fixpoint eval_predicate (p : Predicate) (j : Journal) (r : Receipt) : result bool Fault * Journal * Receipt :=
  let r := count_predicate r in
  match p with
  | Host kind reads exprs =>
      match eval_args exprs j with
      | (Err f, j) => (Err f, j, r)
      | (Ok vs, j) =>
          let '(verdict, j, violation) := run_reader reads (predicate host kind reads vs) j None in
          match violation with Some k => (Err (OutsideFootprint k), j, r) | None => (verdict, j, r) end
      end
  | Compare op lhs rhs =>
      match eval_expr lhs j with
      | (Err f, j) => (Err f, j, r)
      | (Ok a, j) =>
          match eval_expr rhs j with
          | (Err f, j) => (Err f, j, r)
          | (Ok b, j) => (cmp_apply op a b, j, r)
          end
      end
  | And parts =>
      (fix go ps j r := match ps with
        | [] => (Ok true, j, r)
        | p :: ps => match eval_predicate p j r with
            | (Err f, j, r) => (Err f, j, r)
            | (Ok false, j, r) => (Ok false, j, r)
            | (Ok true, j, r) => go ps j r
            end
        end) parts j r
  | Or parts =>
      (fix go ps j r := match ps with
        | [] => (Ok false, j, r)
        | p :: ps => match eval_predicate p j r with
            | (Err f, j, r) => (Err f, j, r)
            | (Ok true, j, r) => (Ok true, j, r)
            | (Ok false, j, r) => go ps j r
            end
        end) parts j r
  | Not inner =>
      match eval_predicate inner j r with (Err f, j, r) => (Err f, j, r) | (Ok b, j, r) => (Ok (negb b), j, r) end
  end.

(** A rule behind the view confined to [fp]; the violation wins over the rule's own answer. *)
Definition run_rule (fp : Footprint) (p : prog (result unit Fault)) (j : Journal) : result unit Fault * Journal :=
  let '(outcome, j, violation) := run_confined fp p j None in
  match violation with Some k => (Err (OutsideFootprint k), j) | None => (outcome, j) end.

Fixpoint run (t : Term) (j : Journal) (r : Receipt) : result unit Fault * Journal * Receipt :=
  match t with
  | Do e =>
      match eval_args (Ergon.args e) j with
      | (Err f, j) => (Err f, j, r)
      | (Ok vs, j) =>
          match run_rule (effect_footprint e) (effect host (kind e) vs) j with
          | (Err f, j) => (Err f, j, r)
          | (Ok _, j) => (Ok tt, j, count_effect r)
          end
      end
  | Seq ts | Par ts =>
      (fix go ts j r := match ts with
        | [] => (Ok tt, j, r)
        | t :: ts => match run t j r with (Err f, j, r) => (Err f, j, r) | (Ok _, j, r) => go ts j r end
        end) ts j r
  | Gate p body =>
      match eval_predicate p j r with
      | (Err f, j, r) => (Err f, j, r)
      | (Ok true, j, r) => run body j r
      | (Ok false, j, r) => (Ok tt, j, r)
      end
  | Alt bs =>
      (fix go bs j r := match bs with
        | [] => (Ok tt, j, r)
        | (p, body) :: bs => match eval_predicate p j r with
            | (Err f, j, r) => (Err f, j, r)
            | (Ok true, j, r) => run body j r
            | (Ok false, j, r) => go bs j (count_declined r)
            end
        end) bs j r
  | Prove c =>
      match verify host c with
      | Err f => (Err f, j, r)
      | Ok false => (Err (ClaimUnproven (c_kind c)), j, r)
      | Ok true =>
          match run_rule (c_footprint c) (effect host (c_kind c) []) j with
          | (Err f, j) => (Err f, j, r)
          | (Ok _, j) => (Ok tt, j, count_claim r)
          end
      end
  end.

Definition eval (t : Term) (s : S) : result Receipt Fault * S :=
  match run t (journal_new s) receipt_default with
  | (Ok _, j, r) => (Ok r, inner j)
  | (Err f, j, _) => (Err f, inner (rollback j))
  end.

End eval.
End exec.


(** ** What a state promises

    The laws of a state on the keys of [D]: a read changes nothing that is read, a write changes its
    key as [write] says and no other key. *)

Definition view {S} `{State S} (s : S) (k : Key) : option Value := fst (get s k).

Class StateLaws (S : Type) `{State S} (D : Key -> Prop) := {
  write : Key -> Value -> option Value -> option Value;
  view_get : forall s k k', view (snd (get s k)) k' = view s k';
  view_set_eq : forall s k v, D k -> view (set s k v) k = write k v (view s k);
  view_set_ne : forall s k k' v, D k -> D k' -> k <> k' -> view (set s k v) k' = view s k';
}.

(** The reference state: a finite map. *)
#[global] Instance map_state : State (gmap Key Value) := { get s k := (s !! k, s); set s k v := <[k := v]> s }.

#[global] Program Instance map_state_laws : StateLaws (gmap Key Value) (fun _ => True) := { write k v _ := Some v }.
Next Obligation. done. Qed.
Next Obligation. intros s k v _. apply lookup_insert_eq. Qed.
Next Obligation. intros s k k' v _ _ Hne. by apply lookup_insert_ne. Qed.

Section laws.
  Context {S : Type} `{StateLaws S D}.
  Implicit Types (j : @Journal S) (F : Key -> Prop).

Definition jview j (k : Key) : option Value := view (inner j) k.

(** Two journals that answer every read alike. *)
Definition same j j' : Prop := forall k, jview j k = jview j' k.

#[global] Instance same_equiv : Equivalence same.
Proof. split; [by intros j k|by intros j j' E k; rewrite E|]. intros a b c E1 E2 k. by rewrite E1, E2. Qed.

Definition agree F j j' : Prop := forall k, F k -> jview j k = jview j' k.

#[global] Instance agree_proper F : Proper (same ==> same ==> iff) (agree F).
Proof. intros a a' Ea b b' Eb. split; intros Hf k Hk; [rewrite <- Ea, <- Eb|rewrite Ea, Eb]; by apply Hf. Qed.

#[global] Instance same_jview : Proper (same ==> eq ==> eq) jview.
Proof. intros j j' E k k' ->. apply E. Qed.

Lemma jget_same j k : same (snd (jget j k)) j.
Proof. intros k'. unfold jget, jview. pose proof (view_get (inner j) k k') as Hv. destruct (get (inner j) k). exact Hv. Qed.

Lemma jget_view j k : fst (jget j k) = jview j k.
Proof. unfold jget, jview, view. by destruct (get (inner j) k). Qed.

Lemma jset_before j k v : exists j0, same j0 j /\ jset j k v = mk_journal (set (inner j0) k v) (undo j0).
Proof.
  unfold jset. destruct (existsb _ _); [by exists j|]. pose proof (view_get (inner j) k) as Hv.
  destruct (get (inner j) k) as [b s]. by exists (mk_journal s (undo j ++ [(k, b)])).
Qed.

Lemma jset_eq j k v : D k -> jview (jset j k v) k = write k v (jview j k).
Proof.
  intros Hk. destruct (jset_before j k v) as (j0 & Hs & ->). unfold jview. cbn [inner]. rewrite view_set_eq by done.
  f_equal. apply Hs.
Qed.

Lemma jset_ne j k k' v : D k -> D k' -> k <> k' -> jview (jset j k v) k' = jview j k'.
Proof.
  intros Hk Hk' Hne. destruct (jset_before j k v) as (j0 & Hs & ->). unfold jview at 1. cbn [inner]. rewrite view_set_ne by done. apply Hs.
Qed.

Lemma jset_agree F j j' k v : (forall k, F k -> D k) -> F k -> agree F j j' -> agree F (jset j k v) (jset j' k v).
Proof.
  intros HD Hk Ha k' Hk'. destruct (decide (k = k')) as [<-|Hne]; [rewrite !jset_eq by auto; f_equal; by apply Ha|].
  rewrite !jset_ne by auto. by apply Ha.
Qed.

Lemma same_get j0 : forall j k, same j j0 -> same (snd (jget j k)) j0.
Proof. intros j k E. etrans; [apply jget_same|done]. Qed.

(** ** What holds of the journal throughout

    A property that reads keep and that writes to keys of [W] keep holds after any term that writes only
    to [W]. *)

Section preserved.
  Context (host : HostOps) (args : list Value) (I : @Journal S -> Prop).
  Hypothesis Hget : forall j k, I j -> I (snd (jget j k)).

Lemma eval_unchecked_pres e : forall j, I j -> I (snd (eval_unchecked args e j)).
Proof.
  induction e as [v|k|i|op l IHl r IHr]; intros j Hj; cbn [eval_unchecked]; try done.
  - specialize (Hget j k Hj). by destruct (jget j k).
  - specialize (IHl j Hj). destruct (eval_unchecked args l j) as [[a|f] j1]; [|done]. destruct (as_int a); [|done].
    specialize (IHr j1 IHl). by destruct (eval_unchecked args r j1) as [[b|f] j2].
Qed.

Lemma eval_expr_pres e j : I j -> I (snd (eval_expr args e j)).
Proof. intros Hj. unfold eval_expr. cbv zeta. case_match; [done|]. by apply eval_unchecked_pres. Qed.

Lemma eval_args_pres es : forall j, I j -> I (snd (eval_args args es j)).
Proof.
  induction es as [|e es IH]; intros j Hj; cbn [eval_args]; [done|]. pose proof (eval_expr_pres e j Hj) as Hs.
  destruct (eval_expr args e j) as [[v|f] j1]; [|done]. specialize (IH j1 Hs). by destruct (eval_args args es j1) as [[vs|f] j2].
Qed.

Lemma run_reader_pres {A} reads (p : rprog A) : forall j v, I j -> I (snd (fst (run_reader reads p j v))).
Proof.
  induction p as [a|k rest IH]; intros j v Hj; cbn [run_reader]; [done|]. case_bool_decide; [|by apply IH].
  specialize (Hget j k Hj). destruct (jget j k) as [x j1]. by apply IH.
Qed.

Lemma eval_predicate_pres p : forall j r, I j -> I (snd (fst (eval_predicate host args p j r))).
Proof.
  induction p as [kind reads es|op l r0|ps HF|ps HF|p IH] using pred_rect'; intros j r Hj; cbn [eval_predicate].
  - pose proof (eval_args_pres es j Hj) as Hs. destruct (eval_args args es j) as [[vs|f] j1]; [|done].
    pose proof (run_reader_pres reads (predicate host kind reads vs) j1 None Hs) as Hr.
    by destruct (run_reader _ _ j1 None) as [[v j2] [k|]].
  - pose proof (eval_expr_pres l j Hj) as Hs. destruct (eval_expr args l j) as [[a|f] j1]; [|done].
    pose proof (eval_expr_pres r0 j1 Hs) as Hs'. by destruct (eval_expr args r0 j1) as [[b|f] j2].
  - generalize (count_predicate r) as rc. revert j Hj. induction HF as [|p ps Hp _ IH]; intros j Hj rc; [done|].
    specialize (Hp j rc Hj). destruct (eval_predicate host args p j rc) as [[[[]|f] j1] r1]; [|done..]. by apply IH.
  - generalize (count_predicate r) as rc. revert j Hj. induction HF as [|p ps Hp _ IH]; intros j Hj rc; [done|].
    specialize (Hp j rc Hj). destruct (eval_predicate host args p j rc) as [[[[]|f] j1] r1]; [done| |done]. by apply IH.
  - specialize (IH j (count_predicate r) Hj). by destruct (eval_predicate host args p j _) as [[[b|f] j1] r1].
Qed.

(** First for a host whose rules keep it: only what its rules write matters. *)

  Context (W : Key -> Prop).

Section rules.
  Hypothesis Hrule : forall fp kind vs j, (forall k, k ∈ writes fp -> W k) -> I j -> I (snd (run_rule fp (effect host kind vs) j)).

(** The loops over the children of a composite. *)
Fixpoint run_list (ts : list Term) (j : Journal) (r : Receipt) : result unit Fault * Journal * Receipt :=
  match ts with
  | [] => (Ok tt, j, r)
  | t :: ts => match run host args t j r with (Err f, j, r) => (Err f, j, r) | (Ok _, j, r) => run_list ts j r end
  end.

Lemma run_seq ts : run host args (Seq ts) = run_list ts.
Proof. done. Qed.

Lemma run_par ts : run host args (Par ts) = run_list ts.
Proof. done. Qed.

Lemma run_list_pres ts : Forall (fun t => forall j r, I j -> I (snd (fst (run host args t j r)))) ts ->
  forall j r, I j -> I (snd (fst (run_list ts j r))).
Proof.
  induction 1 as [|t ts Ht _ IH]; intros j r Hj; cbn [run_list]; [done|]. specialize (Ht j r Hj).
  destruct (run host args t j r) as [[[u|f] j1] r1]; [|done]. by apply IH.
Qed.

Lemma run_inv t : (forall k, k ∈ writes (term_footprint t) -> W k) -> forall j r, I j -> I (snd (fst (run host args t j r))).
Proof.
  induction t as [e|ts HF|ts HF|p t IH|bs HF|c] using term_rect'; intros HW j r Hj.
  - cbn [run]. pose proof (eval_args_pres (Ergon.args e) j Hj) as Hs. destruct (eval_args args (Ergon.args e) j) as [[vs|f] j1]; [|done].
    pose proof (Hrule (effect_footprint e) (kind e) vs j1 HW Hs) as Hr. by destruct (run_rule _ _ j1) as [[u|f] j2].
  - rewrite run_seq. apply run_list_pres; [|done]. pose proof (seq_covers ts) as HC. rewrite Forall_forall in HF, HC |- *.
    intros t Hin. apply HF; [done|]. intros k Hk. destruct (HC t Hin) as [_ Hc]. by apply HW, Hc.
  - rewrite run_par. apply run_list_pres; [|done]. pose proof (par_covers ts) as HC. rewrite Forall_forall in HF, HC |- *.
    intros t Hin. apply HF; [done|]. intros k Hk. destruct (HC t Hin) as [_ Hc]. by apply HW, Hc.
  - destruct (gate_covers p t) as [[_ Hc] _]. cbn [run]. pose proof (eval_predicate_pres p j r Hj) as Hs.
    destruct (eval_predicate host args p j r) as [[[[]|f] j1] r1]; [|done..]. apply IH; [|done]. intros. by apply HW, Hc.
  - pose proof (alt_covers bs) as HC. revert HW HC. generalize (term_footprint (Alt bs)) as fp. intros fp HW HC. cbn [run].
    revert j r Hj. induction HF as [|[p t] bs Ht _ IH]; intros j r Hj; [done|]. apply Forall_cons in HC as [[[_ Hc] _] HC]. cbn [fst snd] in *.
    pose proof (eval_predicate_pres p j r Hj) as Hs. destruct (eval_predicate host args p j r) as [[[[]|f] j1] r1]; [|by apply IH|done].
    apply Ht; [|done]. intros. by apply HW, Hc.
  - cbn [run]. destruct (verify host c) as [[]|]; [|done..].
    pose proof (Hrule (c_footprint c) (c_kind c) [] j HW Hj) as Hr. by destruct (run_rule _ _ j) as [[u|f] j2].
Qed.

End rules.

(** Then for whatever the rules write. *)
  Hypothesis Hset : forall j k v, W k -> I j -> I (jset j k v).

Lemma run_rule_pres fp p j : (forall k, k ∈ writes fp -> W k) -> I j -> I (snd (run_rule fp p j)).
Proof.
  intros HW Hj. unfold run_rule. assert (Hc : forall v, I (snd (fst (run_confined fp p j v)))).
  { revert j Hj. induction p as [a|k rest IH|k w rest IH]; intros j Hj v; cbn [run_confined]; [done| |].
    - case_bool_decide; [|by apply IH]. specialize (Hget j k Hj). destruct (jget j k) as [x j1]. by apply IH.
    - case_bool_decide as Hk; apply IH; [|done]. by apply Hset; [apply HW|]. }
  specialize (Hc None). by destruct (run_confined fp p j None) as [[o j1] [v|]].
Qed.

Lemma run_pres t : (forall k, k ∈ writes (term_footprint t) -> W k) -> forall j r, I j -> I (snd (fst (run host args t j r))).
Proof. apply run_inv. intros fp kind vs j. apply run_rule_pres. Qed.

End preserved.

(** ** Reading changes nothing and depends on what is read *)

Section reads.
  Context (args : list Value).

Lemma eval_unchecked_same e : forall j, same (snd (eval_unchecked args e j)) j.
Proof. intros j. apply (eval_unchecked_pres args (fun j' => same j' j) (same_get j)). reflexivity. Qed.

Lemma eval_unchecked_local e : forall j j', (forall k, k ∈ collect_reads e -> jview j k = jview j' k) ->
  fst (eval_unchecked args e j) = fst (eval_unchecked args e j').
Proof.
  induction e as [v|k|i|op l IHl r IHr]; intros j j' Ha; cbn [eval_unchecked collect_reads] in *; try done.
  - pose proof (jget_view j k) as E1. pose proof (jget_view j' k) as E2. destruct (jget j k), (jget j' k). cbn [fst] in *.
    by rewrite E1, E2, Ha by set_solver.
  - specialize (IHl j j' ltac:(set_solver)). pose proof (eval_unchecked_same l j) as S1. pose proof (eval_unchecked_same l j') as S2.
    destruct (eval_unchecked args l j) as [a j1], (eval_unchecked args l j') as [a' j1']. cbn [fst snd] in *. subst a'.
    destruct a as [a|f]; [|done]. destruct (as_int a); [|done].
    assert (Hr : fst (eval_unchecked args r j1) = fst (eval_unchecked args r j1')).
    { apply IHr. intros k Hk. rewrite (S1 k), (S2 k). apply Ha. set_solver. }
    destruct (eval_unchecked args r j1) as [b j2], (eval_unchecked args r j1') as [b' j2']. cbn [fst] in Hr. subst b'. by destruct b.
Qed.

Lemma eval_expr_same e j : same (snd (eval_expr args e j)) j.
Proof. apply (eval_expr_pres args (fun j' => same j' j) (same_get j)). reflexivity. Qed.

Lemma eval_expr_local e j j' : (forall k, k ∈ collect_reads e -> jview j k = jview j' k) ->
  fst (eval_expr args e j) = fst (eval_expr args e j').
Proof. intros Ha. unfold eval_expr. cbv zeta. case_match; [done|]. by apply eval_unchecked_local. Qed.

Lemma eval_args_same es : forall j, same (snd (eval_args args es j)) j.
Proof. intros j. apply (eval_args_pres args (fun j' => same j' j) (same_get j)). reflexivity. Qed.

Lemma eval_args_local es : forall j j', (forall a k, a ∈ es -> k ∈ collect_reads a -> jview j k = jview j' k) ->
  fst (eval_args args es j) = fst (eval_args args es j').
Proof.
  induction es as [|e es IH]; intros j j' Ha; cbn [eval_args]; [done|].
  pose proof (eval_expr_local e j j' ltac:(intros; eapply Ha; [by left|done])) as E.
  pose proof (eval_expr_same e j) as S1. pose proof (eval_expr_same e j') as S2.
  destruct (eval_expr args e j) as [v j1], (eval_expr args e j') as [v' j1']. cbn [fst snd] in *. subst v'. destruct v as [v|f]; [|done].
  assert (Hr : fst (eval_args args es j1) = fst (eval_args args es j1')).
  { apply IH. intros a k Hin Hk. rewrite (S1 k), (S2 k). eapply Ha; [by right|done]. }
  destruct (eval_args args es j1) as [b j2], (eval_args args es j1') as [b' j2']. cbn [fst] in Hr. subst b'. by destruct b.
Qed.

End reads.
(** ** Views confined to a footprint *)

Lemma run_reader_local {A} reads (p : rprog A) : forall j j' v, (forall k, k ∈ reads -> jview j k = jview j' k) ->
  fst (fst (run_reader reads p j v)) = fst (fst (run_reader reads p j' v)) /\
  snd (run_reader reads p j v) = snd (run_reader reads p j' v).
Proof.
  induction p as [a|k rest IH]; intros j j' v Ha; cbn [run_reader]; [done|]. case_bool_decide as Hk; [|by apply IH].
  pose proof (jget_view j k) as E1. pose proof (jget_view j' k) as E2. pose proof (jget_same j k) as S1. pose proof (jget_same j' k) as S2.
  destruct (jget j k) as [x j1], (jget j' k) as [x' j1']. cbn [fst snd] in *.
  assert (x = x') as -> by (rewrite E1, E2; by apply Ha). apply IH. intros k' Hk'. rewrite (S1 k'), (S2 k'). by apply Ha.
Qed.

Lemma run_confined_local {A} fp F (p : prog A) : (forall k, F k -> D k) -> (forall k, k ∈ reads fp \/ k ∈ writes fp -> F k) ->
  forall j j' v, agree F j j' ->
  fst (fst (run_confined fp p j v)) = fst (fst (run_confined fp p j' v)) /\
  agree F (snd (fst (run_confined fp p j v))) (snd (fst (run_confined fp p j' v))) /\
  snd (run_confined fp p j v) = snd (run_confined fp p j' v).
Proof.
  intros HD HF. induction p as [a|k rest IH|k w rest IH]; intros j j' v Ha; cbn [run_confined]; [done| |].
  - case_bool_decide as Hk; [|by apply IH]. pose proof (jget_view j k) as E1. pose proof (jget_view j' k) as E2.
    pose proof (jget_same j k) as S1. pose proof (jget_same j' k) as S2. destruct (jget j k) as [x j1], (jget j' k) as [x' j1']. cbn [fst snd] in *.
    assert (x = x') as -> by (rewrite E1, E2; by apply Ha, HF). apply IH. by rewrite S1, S2.
  - case_bool_decide as Hk; [|by apply IH]. apply IH, jset_agree; auto.
Qed.

Lemma run_rule_local fp F p j j' : (forall k, F k -> D k) -> (forall k, k ∈ reads fp \/ k ∈ writes fp -> F k) -> agree F j j' ->
  fst (run_rule fp p j) = fst (run_rule fp p j') /\ agree F (snd (run_rule fp p j)) (snd (run_rule fp p j')).
Proof.
  intros HD HF Ha. unfold run_rule. destruct (run_confined_local fp F p HD HF j j' None Ha) as (H1 & H2 & H3).
  destruct (run_confined fp p j None) as [[o j1] v], (run_confined fp p j' None) as [[o' j1'] v']. cbn [fst snd] in *. subst.
  by destruct v'.
Qed.

(** ** Predicates *)

Section terms.
  Context (host : HostOps) (args : list Value).

Lemma eval_predicate_same p : forall j r, same (snd (fst (eval_predicate host args p j r))) j.
Proof. intros j r. apply (eval_predicate_pres host args (fun j' => same j' j) (same_get j)). reflexivity. Qed.

(** The answer and the count of a predicate depend on the keys it reads. *)
Definition answers_alike p j j' r : Prop :=
  fst (fst (eval_predicate host args p j r)) = fst (fst (eval_predicate host args p j' r)) /\
  snd (eval_predicate host args p j r) = snd (eval_predicate host args p j' r).

Lemma eval_predicate_local p : forall j j' r, (forall k, k ∈ pred_reads p -> jview j k = jview j' k) -> answers_alike p j j' r.
Proof.
  unfold answers_alike. induction p as [kind reads es|op l r0|ps HF|ps HF|p IH] using pred_rect'; intros j j' r Ha; cbn [eval_predicate pred_reads] in *.
  - assert (Hargs : forall a k, a ∈ es -> k ∈ collect_reads a -> jview j k = jview j' k).
    { intros a k Hin Hk. apply Ha, elem_of_app. right. apply list_elem_of_In, in_concat. exists (collect_reads a).
      split; apply list_elem_of_In; [|done]. apply list_elem_of_fmap. by exists a. }
    pose proof (eval_args_local args es j j' Hargs) as E. pose proof (eval_args_same args es j) as S1. pose proof (eval_args_same args es j') as S2.
    destruct (eval_args args es j) as [vs j1], (eval_args args es j') as [vs' j1']. cbn [fst snd] in *. subst vs'. destruct vs as [vs|f]; [|done].
    destruct (run_reader_local reads (predicate host kind reads vs) j1 j1' None) as [H1 H2].
    { intros k Hk. rewrite (S1 k), (S2 k). apply Ha, elem_of_app. by left. }
    destruct (run_reader _ _ j1 None) as [[v j2] vi], (run_reader _ _ j1' None) as [[v' j2'] vi']. cbn [fst snd] in *. subst. by destruct vi'.
  - pose proof (eval_expr_local args l j j' ltac:(set_solver)) as E. pose proof (eval_expr_same args l j) as S1. pose proof (eval_expr_same args l j') as S2.
    destruct (eval_expr args l j) as [a j1], (eval_expr args l j') as [a' j1']. cbn [fst snd] in *. subst a'. destruct a as [a|f]; [|done].
    assert (E2 : fst (eval_expr args r0 j1) = fst (eval_expr args r0 j1')).
    { apply eval_expr_local. intros k Hk. rewrite (S1 k), (S2 k). apply Ha. set_solver. }
    destruct (eval_expr args r0 j1) as [b j2], (eval_expr args r0 j1') as [b' j2']. cbn [fst] in E2. subst b'. by destruct b.
  - generalize (count_predicate r) as rc. revert j j' Ha. induction HF as [|p ps Hp _ IH]; intros j j' Ha rc; [done|].
    destruct (Hp j j' rc) as [H1 H2]; [set_solver|]. pose proof (eval_predicate_same p j rc) as S1. pose proof (eval_predicate_same p j' rc) as S2.
    destruct (eval_predicate host args p j rc) as [[b j1] r1], (eval_predicate host args p j' rc) as [[b' j1'] r1']. cbn [fst snd] in *. subst.
    destruct b' as [[]|]; [|done..]. apply IH. intros k Hk. rewrite (S1 k), (S2 k). apply Ha. set_solver.
  - generalize (count_predicate r) as rc. revert j j' Ha. induction HF as [|p ps Hp _ IH]; intros j j' Ha rc; [done|].
    destruct (Hp j j' rc) as [H1 H2]; [set_solver|]. pose proof (eval_predicate_same p j rc) as S1. pose proof (eval_predicate_same p j' rc) as S2.
    destruct (eval_predicate host args p j rc) as [[b j1] r1], (eval_predicate host args p j' rc) as [[b' j1'] r1']. cbn [fst snd] in *. subst.
    destruct b' as [[]|]; [done| |done]. apply IH. intros k Hk. rewrite (S1 k), (S2 k). apply Ha. set_solver.
  - destruct (IH j j' (count_predicate r) Ha) as [H1 H2].
    destruct (eval_predicate host args p j _) as [[b j1] r1], (eval_predicate host args p j' _) as [[b' j1'] r1']. cbn [fst snd] in *. subst. by destruct b'.
Qed.

(** ** Terms *)

Definition after t j r : Journal := snd (fst (run host args t j r)).

(** A term writes nothing outside the writes of its footprint. *)
Lemma run_frame t : (forall k, k ∈ writes (term_footprint t) -> D k) ->
  forall j r k, D k -> k ∉ writes (term_footprint t) -> jview (after t j r) k = jview j k.
Proof. intros HD j r k Hk Hw. unfold after.
  apply (run_pres host args (fun j' => jview j' k = jview j k) ltac:(intros j' k' <-; apply jget_same) (fun k' => k' ∈ writes (term_footprint t))); try done.
  intros j' k' v Hk' <-. apply jset_ne; [by apply HD|done|]. by intros ->. Qed.

(** What a term does depends on the keys of its footprint. *)
Definition alike F t j j' r : Prop :=
  fst (fst (run host args t j r)) = fst (fst (run host args t j' r)) /\ agree F (after t j r) (after t j' r) /\
  snd (run host args t j r) = snd (run host args t j' r).

Definition touches t (k : Key) : Prop := k ∈ reads (term_footprint t) \/ k ∈ writes (term_footprint t).

Lemma run_list_local F ts : Forall (fun t => forall j j' r, agree F j j' -> alike F t j j' r) ts -> forall j j' r, agree F j j' ->
  fst (fst (run_list host args ts j r)) = fst (fst (run_list host args ts j' r)) /\ agree F (snd (fst (run_list host args ts j r))) (snd (fst (run_list host args ts j' r))) /\
  snd (run_list host args ts j r) = snd (run_list host args ts j' r).
Proof.
  induction 1 as [|t ts Ht _ IH]; intros j j' r Ha; cbn [run_list]; [done|]. destruct (Ht j j' r Ha) as (H1 & H2 & H3). unfold after in H2.
  destruct (run host args t j r) as [[o j1] r1], (run host args t j' r) as [[o' j1'] r1']. cbn [fst snd] in *. subst.
  destruct o'; [|done]. by apply IH.
Qed.

Lemma pred_same_agree F p j j' r : (forall k, k ∈ reads (pred_footprint p) -> F k) -> agree F j j' ->
  answers_alike p j j' r /\
  agree F (snd (fst (eval_predicate host args p j r))) (snd (fst (eval_predicate host args p j' r))).
Proof.
  intros HF Ha. split; [apply eval_predicate_local; intros k Hk; apply Ha, HF; by apply pred_covers|].
  by rewrite !eval_predicate_same.
Qed.

Lemma run_local F t : (forall k, F k -> D k) -> (forall k, touches t k -> F k) -> forall j j' r, agree F j j' -> alike F t j j' r.
Proof.
  intros HD. induction t as [e|ts HF|ts HF|p t IH|bs HF|c] using term_rect'; intros HT j j' r Ha.
  - unfold alike, after. cbn [run]. destruct (effect_covers e) as (_ & _ & Hc).
    pose proof (eval_args_local args (Ergon.args e) j j' ltac:(intros a k Hin Hk; apply Ha, HT; left; by eapply Hc)) as E.
    pose proof (eval_args_same args (Ergon.args e) j) as S1. pose proof (eval_args_same args (Ergon.args e) j') as S2.
    destruct (eval_args args _ j) as [vs j1], (eval_args args _ j') as [vs' j1']. cbn [fst snd] in *. subst vs'.
    assert (Ha1 : agree F j1 j1') by (by rewrite S1, S2). destruct vs as [vs|f]; [|done].
    destruct (run_rule_local (effect_footprint e) F (effect host (kind e) vs) j1 j1' HD HT Ha1) as [H1 H2].
    destruct (run_rule _ _ j1) as [o j2], (run_rule _ _ j1') as [o' j2']. cbn [fst snd] in *. subst o'. by destruct o.
  - unfold alike, after. rewrite run_seq. apply run_list_local; [|done]. pose proof (seq_covers ts) as HC. rewrite Forall_forall in HF, HC |- *.
    intros t Hin j0 j0' r0. apply HF; [done|]. intros k Hk. apply HT. destruct (HC t Hin) as [Hr Hw]. destruct Hk; [left|right]; auto.
  - unfold alike, after. rewrite run_par. apply run_list_local; [|done]. pose proof (par_covers ts) as HC. rewrite Forall_forall in HF, HC |- *.
    intros t Hin j0 j0' r0. apply HF; [done|]. intros k Hk. apply HT. destruct (HC t Hin) as [Hr Hw]. destruct Hk; [left|right]; auto.
  - destruct (gate_covers p t) as [[Hr Hw] [Hp _]]. unfold alike, after. cbn [run].
    destruct (pred_same_agree F p j j' r ltac:(intros k Hk; apply HT; left; by apply Hp) Ha) as [[H1 H2] H3].
    destruct (eval_predicate host args p j r) as [[b j1] r1], (eval_predicate host args p j' r) as [[b' j1'] r1']. cbn [fst snd] in *. subst.
    destruct b' as [[]|]; [|done..]. apply IH; [|done]. intros k Hk. apply HT. destruct Hk; [left|right]; auto.
  - pose proof (alt_covers bs) as HC. unfold alike, after. cbn [run]. revert HT HC. unfold touches at 1. generalize (term_footprint (Alt bs)) as fp. intros fp HT HC.
    revert j j' r Ha. induction HF as [|[p t] bs Ht _ IH]; intros j j' r Ha; [done|]. apply Forall_cons in HC as [[[Hr Hw] [Hp _]] HC]. cbn [fst snd] in *.
    destruct (pred_same_agree F p j j' r ltac:(intros k Hk; apply HT; left; by apply Hp) Ha) as [[H1 H2] H3].
    destruct (eval_predicate host args p j r) as [[b j1] r1], (eval_predicate host args p j' r) as [[b' j1'] r1']. cbn [fst snd] in *. subst.
    destruct b' as [[]|]; [|by apply IH|done]. apply Ht; [|done]. intros k Hk. apply HT. destruct Hk; [left|right]; auto.
  - unfold alike, after. cbn [run]. destruct (verify host c) as [[]|]; [|done..].
    destruct (run_rule_local (c_footprint c) F (effect host (c_kind c) []) j j' HD HT Ha) as [H1 H2].
    destruct (run_rule _ _ j) as [o j2], (run_rule _ _ j') as [o' j2']. cbn [fst snd] in *. subst o'. by destruct o.
Qed.

(** The receipt only counts. *)
Lemma eval_predicate_receipt p : forall j r r', fst (eval_predicate host args p j r) = fst (eval_predicate host args p j r').
Proof.
  induction p as [kind reads es|op l r0|ps HF|ps HF|p IH] using pred_rect'; intros j r r'; cbn [eval_predicate].
  - destruct (eval_args args es j) as [[vs|f] j1]; [|done]. by destruct (run_reader _ _ j1 None) as [[v j2] [k|]].
  - destruct (eval_expr args l j) as [[a|f] j1]; [|done]. by destruct (eval_expr args r0 j1) as [[b|f] j2].
  - generalize (count_predicate r'), (count_predicate r). intros rc' rc. revert j rc rc'. induction HF as [|p ps Hp _ IH]; intros j rc rc'; [done|].
    specialize (Hp j rc rc'). destruct (eval_predicate host args p j rc) as [[b j1] r1], (eval_predicate host args p j rc') as [[b' j1'] r1'].
    cbn [fst] in Hp. injection Hp as -> ->. destruct b' as [[]|]; [|done..]. apply IH.
  - generalize (count_predicate r'), (count_predicate r). intros rc' rc. revert j rc rc'. induction HF as [|p ps Hp _ IH]; intros j rc rc'; [done|].
    specialize (Hp j rc rc'). destruct (eval_predicate host args p j rc) as [[b j1] r1], (eval_predicate host args p j rc') as [[b' j1'] r1'].
    cbn [fst] in Hp. injection Hp as -> ->. destruct b' as [[]|]; [done| |done]. apply IH.
  - specialize (IH j (count_predicate r) (count_predicate r')).
    destruct (eval_predicate host args p j (count_predicate r)) as [[b j1] r1], (eval_predicate host args p j _) as [[b' j1'] r1'].
    cbn [fst] in IH. injection IH as -> ->. by destruct b'.
Qed.

Lemma run_list_receipt ts : Forall (fun t => forall j r r', fst (run host args t j r) = fst (run host args t j r')) ts ->
  forall j r r', fst (run_list host args ts j r) = fst (run_list host args ts j r').
Proof.
  induction 1 as [|t ts Ht _ IH]; intros j r r'; cbn [run_list]; [done|]. specialize (Ht j r r').
  destruct (run host args t j r) as [[o j1] r1], (run host args t j r') as [[o' j1'] r1']. cbn [fst] in Ht. injection Ht as -> ->.
  destruct o'; [|done]. apply IH.
Qed.

Lemma run_receipt t : forall j r r', fst (run host args t j r) = fst (run host args t j r').
Proof.
  induction t as [e|ts HF|ts HF|p t IH|bs HF|c] using term_rect'; intros j r r'.
  - cbn [run]. destruct (eval_args args _ j) as [[vs|f] j1]; [|done]. by destruct (run_rule _ _ j1) as [[u|f] j2].
  - rewrite run_seq. by apply run_list_receipt.
  - rewrite run_par. by apply run_list_receipt.
  - cbn [run]. pose proof (eval_predicate_receipt p j r r') as Hp.
    destruct (eval_predicate host args p j r) as [[b j1] r1], (eval_predicate host args p j r') as [[b' j1'] r1']. cbn [fst] in Hp. injection Hp as -> ->.
    destruct b' as [[]|]; [|done..]. apply IH.
  - cbn [run]. revert j r r'. induction HF as [|[p t] bs Ht _ IH]; intros j r r'; [done|]. cbn [snd] in Ht.
    pose proof (eval_predicate_receipt p j r r') as Hp.
    destruct (eval_predicate host args p j r) as [[b j1] r1], (eval_predicate host args p j r') as [[b' j1'] r1']. cbn [fst] in Hp. injection Hp as -> ->.
    destruct b' as [[]|]; [apply Ht|apply IH|done].
  - cbn [run]. destruct (verify host c) as [[]|]; [|done..]. by destruct (run_rule _ _ j) as [[u|f] j2].
Qed.

(** ** Independent terms *)

Definition apart t u : Prop := independent (term_footprint t) (term_footprint u).

#[global] Instance apart_symmetric : Symmetric apart.
Proof. by intros t u [H1 H2]. Qed.

Lemma pairs_perm (R : Term -> Term -> Prop) `{!Symmetric R} ts ts' : ts ≡ₚ ts' -> ForallOrdPairs R ts -> ForallOrdPairs R ts'.
Proof.
  induction 1 as [|t ts ts' Hp IH|t u ts|ts1 ts2 ts3 _ IH1 _ IH2]; intros HF; [done| | |auto].
  - inversion HF as [|? ? HF1 HF2]; subst. constructor; [by rewrite <- Hp|auto].
  - inversion HF as [|? ? HF1 HF2]; subst. inversion HF2 as [|? ? HF3 HF4]; subst. inversion HF1 as [|? ? Hut HF5]; subst.
    constructor; [constructor; [by symmetry|done]|]. by constructor.
Qed.

(** What [t] does when it runs on its own. *)
Definition succeeds t j : Prop := fst (fst (run host args t j receipt_default)) = Ok tt.
Definition alone t j : Journal := after t j receipt_default.

Lemma succeeds_any t j r : succeeds t j <-> fst (fst (run host args t j r)) = Ok tt.
Proof. unfold succeeds. by rewrite (run_receipt t j receipt_default r). Qed.

Lemma after_any t j r : after t j r = alone t j.
Proof. unfold alone, after. by rewrite (run_receipt t j r receipt_default). Qed.

(** A term that ran before an independent one is not noticed. *)
Lemma apart_agree t u j r : (forall k, touches t k -> D k) -> (forall k, touches u k -> D k) -> apart t u ->
  agree (touches u) (after t j r) j.
Proof.
  intros Ht Hu [Ha _] k Hk. apply run_frame; [intros k' Hk'; apply Ht; by right|by apply Hu|].
  intros Hw. destruct (Ha k Hw) as [Hr Hw']. by destruct Hk.
Qed.

Lemma alone_agree u j j' : (forall k, touches u k -> D k) -> agree (touches u) j j' ->
  (succeeds u j <-> succeeds u j') /\ agree (touches u) (alone u j) (alone u j').
Proof.
  intros Hu Ha. destruct (run_local (touches u) u Hu ltac:(done) j j' receipt_default Ha) as (H1 & H2 & _).
  unfold succeeds. by rewrite H1.
Qed.

(** Running independent terms one after the other: every one of them does what it does alone. *)
Lemma run_independent ts : ForallOrdPairs apart ts -> (forall t k, t ∈ ts -> touches t k -> D k) -> forall j r,
  (fst (fst (run_list host args ts j r)) = Ok tt <-> Forall (fun t => succeeds t j) ts) /\
  (Forall (fun t => succeeds t j) ts -> forall k, D k ->
    (forall t, t ∈ ts -> k ∈ writes (term_footprint t) -> jview (snd (fst (run_list host args ts j r))) k = jview (alone t j) k) /\
    ((forall t, t ∈ ts -> k ∉ writes (term_footprint t)) -> jview (snd (fst (run_list host args ts j r))) k = jview j k)).
Proof.
  induction 1 as [|t ts Hap HO IH]; intros HD j r; cbn [run_list].
  { split; [by rewrite Forall_nil|]. intros _ k Hk. split; [by intros t ?%elem_of_nil|done]. }
  assert (Ht : forall k, touches t k -> D k) by (intros k; apply HD; by left).
  assert (Hu : forall u k, u ∈ ts -> touches u k -> D k) by (intros u k Hin; apply HD; by right).
  rewrite Forall_cons. rewrite (succeeds_any t j r). pose proof (after_any t j r) as Ea. unfold after in Ea.
  assert (Hag : forall u, u ∈ ts -> agree (touches u) (alone t j) j).
  { intros u Hin. rewrite <- (after_any t j r). apply apart_agree; [done|by intros k; apply Hu|]. rewrite Forall_forall in Hap. by apply Hap. }
  pose proof (run_frame t ltac:(intros k Hk; apply Ht; by right) j r) as Hfr. unfold after in Hfr.
  destruct (run host args t j r) as [[o j1] r1]. cbn [fst snd] in *. subst j1. destruct o as [[]|f]; [|by split; [split; [done|by intros [? _]]|intros [? _]]].
  destruct (IH Hu (alone t j) r1) as [IH1 IH2].
  assert (Hsame : Forall (fun u => succeeds u (alone t j)) ts <-> Forall (fun u => succeeds u j) ts).
  { rewrite !Forall_forall. split; intros Hs u Hin; destruct (alone_agree u _ _ ltac:(by intros k; apply Hu) (Hag u Hin)) as [Hiff _]; by apply Hiff, Hs. }
  rewrite IH1, Hsame. split; [by split; [|intros [_ ?]]|]. intros [_ Hs] k Hk. destruct (IH2 (proj2 Hsame Hs) k Hk) as [V1 V2]. split.
  - intros u [->|Hin]%elem_of_cons Hw.
    + apply V2. intros v Hin Hw'. rewrite Forall_forall in Hap. destruct (Hap v Hin) as [Hx _]. by destruct (Hx k Hw) as [_ ?].
    + rewrite (V1 u Hin Hw). destruct (alone_agree u _ _ ltac:(by intros k'; apply Hu) (Hag u Hin)) as [_ Hv]. apply Hv. by right.
  - intros Hn. rewrite V2; [apply Hfr; [done|apply Hn; by left]|]. intros u Hin. apply Hn. by right.
Qed.

(** ** Rolling back *)

(** The journal knows what the state [s] held at every key it wrote, and only keys of [W]. *)
Definition journalled (W : Key -> Prop) (s : S) j : Prop :=
  (forall k b, (k, b) ∈ undo j -> W k /\ b = view s k) /\ base.NoDup (fst <$> undo j) /\
  (forall k, D k -> k ∉ fst <$> undo j -> jview j k = view s k).

Lemma journalled_get W s j k : journalled W s j -> journalled W s (snd (jget j k)).
Proof.
  intros (H1 & H2 & H3). pose proof (jget_same j k) as Hs. assert (Hu : undo (snd (jget j k)) = undo j) by (unfold jget; by destruct (get (inner j) k)).
  split; [by rewrite Hu|]. split; [by rewrite Hu|]. intros k' Hk' Hn. rewrite (Hs k'). apply H3; [done|]. by rewrite <- Hu.
Qed.

Lemma journalled_set W s j k v : (forall k, W k -> D k) -> W k -> journalled W s j -> journalled W s (jset j k v).
Proof.
  intros HD Hw (H1 & H2 & H3). assert (Hne : forall k', D k' -> k' <> k -> jview (jset j k v) k' = jview j k').
  { intros k' Hk' Hn. apply jset_ne; auto. }
  assert (Hx : existsb (fun e => bool_decide (fst e = k)) (undo j) = true <-> k ∈ fst <$> undo j).
  { rewrite existsb_exists, list_elem_of_fmap. split.
    - intros (e & Hin%list_elem_of_In & E%bool_decide_eq_true). by exists e.
    - intros (e & -> & Hin). exists e. split; [by apply list_elem_of_In|]. by rewrite bool_decide_eq_true. }
  assert (Hu : undo (jset j k v) = if existsb (fun e => bool_decide (fst e = k)) (undo j) then undo j else undo j ++ [(k, jview j k)]).
  { unfold jset, jview, view. destruct (existsb _ _); [done|]. by destruct (get (inner j) k). }
  unfold journalled. rewrite Hu. destruct (existsb _ (undo j)); cbn [fst].
  - split; [done|]. split; [done|]. intros k' Hk' Hn. rewrite Hne; [by apply H3|done|]. intros ->. by apply Hn, Hx.
  - assert (Hnk : k ∉ fst <$> undo j) by (intros Hin; by apply Hx in Hin). rewrite fmap_app. cbn [fmap list_fmap fst]. split; [|split].
    + intros k' b [Hin|Hin]%elem_of_app; [by apply H1|]. apply list_elem_of_singleton in Hin. injection Hin as -> ->. split; [done|].
      apply H3; [by apply HD|done].
    + apply NoDup_app. split; [done|]. split; [|apply NoDup_singleton]. intros k' Hin ->%list_elem_of_singleton. done.
    + intros k' Hk' Hn. rewrite not_elem_of_app in Hn. destruct Hn as [Hn1 Hn2]. rewrite Hne; [by apply H3|done|]. intros ->. apply Hn2. by left.
Qed.

Lemma run_journalled t s r : (forall k, k ∈ writes (term_footprint t) -> D k) ->
  journalled (fun k => k ∈ writes (term_footprint t)) s (after t (journal_new s) r).
Proof.
  intros HD. apply (run_pres host args (journalled (fun k => k ∈ writes (term_footprint t)) s)) with (W := fun k => k ∈ writes (term_footprint t)); try done.
  - intros j k. apply journalled_get.
  - intros j k v Hk. by apply journalled_set.
  - split; [by intros k b ?%elem_of_nil|]. split; [constructor|done].
Qed.

(** What a key holds after the entries of [l] are restored. *)
Lemma restore_view l : forall s k, (forall e, e ∈ l -> D (fst e)) -> D k ->
  (k ∉ fst <$> l -> view (fold_left restore l s) k = view s k) /\
  (base.NoDup (fst <$> l) -> forall b, (k, b) ∈ l -> exists old, view (fold_left restore l s) k = write k (default (Int 0) b) old).
Proof.
  induction l as [|[k0 b0] l IH]; intros s k HD Hk; cbn [fold_left].
  { split; [done|]. by intros _ b ?%elem_of_nil. }
  assert (Er : restore s (k0, b0) = set s k0 (default (Int 0) b0)) by (unfold restore; by destruct b0). rewrite Er.
  assert (Hk0 : D k0) by (apply (HD (k0, b0)); by left).
  destruct (IH (set s k0 (default (Int 0) b0)) k ltac:(intros e He; apply HD; by right) Hk) as [IH1 IH2]. cbn [fmap list_fmap fst]. split.
  - intros Hn. rewrite not_elem_of_cons in Hn. destruct Hn as [Hne Hn]. rewrite IH1 by done. by apply view_set_ne.
  - intros [Hnd HN]%NoDup_cons b [[= -> ->]|Hin]%elem_of_cons; [|by apply IH2].
    exists (view s k0). rewrite IH1 by done. by apply view_set_eq.
Qed.

(** What a failed evaluation leaves at each key. *)
Lemma rollback_view t s r k : (forall k, k ∈ writes (term_footprint t) -> D k) -> D k ->
  let s' := inner (rollback (after t (journal_new s) r)) in
  view s' k = view s k \/ (k ∈ writes (term_footprint t) /\ exists old, view s' k = write k (default (Int 0) (view s k)) old).
Proof.
  intros HD Hk s'. destruct (run_journalled t s r HD) as (H1 & H2 & H3). set (j := after t (journal_new s) r) in *.
  destruct (restore_view (reverse (undo j)) (inner j) k) as [V1 V2]; [|done|].
  { intros [k' b] Hin. rewrite elem_of_reverse in Hin. apply HD. by apply (H1 k' b). }
  destruct (decide (k ∈ fst <$> undo j)) as [Hin|Hn].
  - right. apply list_elem_of_fmap in Hin as ([k' b] & -> & Hin). destruct (H1 k' b Hin) as [Hw ->]. split; [done|].
    apply V2; [|by rewrite elem_of_reverse]. by rewrite reverse_Permutation.
  - left. unfold s', rollback. cbn [inner]. rewrite V1; [by apply H3|]. by rewrite reverse_Permutation.
Qed.

Lemma eval_Ok t s r s' : eval host args t s = (Ok r, s') -> succeeds t (journal_new s) /\ s' = inner (alone t (journal_new s)).
Proof.
  unfold eval, succeeds, alone, after. destruct (run host args t _ _) as [[[[]|f] j] r0]; [|done]. by intros [= _ <-].
Qed.

End terms.
End laws.

(** ** Claims *)

Section claims.
  Context {S : Type} `{StateLaws S D} (host : HostOps) (args : list Value).

(** C17: the derived footprint tells the truth, on the keys on which the state is one.  Let the state
    obey the laws of a map on the keys of [D] (all keys for a finite map, those of the ledger's own point
    for the ledger, which aliases the others), and let the term touch only keys of [D].  Whatever the
    rules of a host without state of its own do, evaluating the term leaves every key of [D] outside the
    writes of its footprint as it was, also when it fails; and on two states that hold the same at the
    keys of the footprint it gives the same receipt or the same fault and, when it succeeds, the same
    values at those keys. *)
Theorem footprint_is_sound (t : Term) (s s' : S) :
  (forall k, touches t k -> D k) ->
  (forall k, D k -> k ∉ writes (term_footprint t) -> view (snd (eval host args t s)) k = view s k) /\
  ((forall k, touches t k -> view s k = view s' k) ->
   fst (eval host args t s) = fst (eval host args t s') /\
   (forall r, fst (eval host args t s) = Ok r -> forall k, touches t k ->
     view (snd (eval host args t s)) k = view (snd (eval host args t s')) k)).
Proof.
  intros HD. assert (HW : forall k, k ∈ writes (term_footprint t) -> D k) by (intros k Hk; apply HD; by right). split.
  - intros k Hk Hn. pose proof (run_frame host args t HW (journal_new s) receipt_default k Hk Hn) as Hf.
    pose proof (rollback_view host args t s receipt_default k HW Hk) as Hr. unfold eval, after in *.
    destruct (run host args t (journal_new s) receipt_default) as [[[u|f] j] r]; cbn [fst snd] in *; [exact Hf|].
    by destruct Hr as [|[? _]].
  - intros Ha. destruct (run_local host args (touches t) t HD ltac:(done) (journal_new s) (journal_new s') receipt_default Ha) as (H1 & H2 & H3).
    unfold eval, after in *. destruct (run host args t (journal_new s) _) as [[o j] r], (run host args t (journal_new s') _) as [[o' j'] r'].
    cbn [fst snd] in *. subst. destruct o'; [|done]. split; [done|]. intros ? _ k Hk. by apply H2.
Qed.

(** C19: the branches of a parallel composition may run in any order.  Let the state obey the laws of a
    map on the keys of [D], the branches touch only keys of [D], and the host keep no state of its own.
    If the composition passes the type check then, in whatever order its branches are run, it succeeds
    or fails alike, and when it succeeds the state answers every read of a key of [D] alike.  (Where two
    keys are one cell, as the ledger's keys of different points are, the check lets conflicting branches
    pass.) *)
Theorem parallel_order_is_irrelevant (limits : Limits) (ts ts' : list Term) (s : S) :
  term_ok (Par ts) -> check_structure limits (Par ts) = Ok tt -> ts ≡ₚ ts' ->
  (forall t k, t ∈ ts -> touches t k -> D k) ->
  ((exists r, fst (eval host args (Par ts) s) = Ok r) <-> (exists r, fst (eval host args (Par ts') s) = Ok r)) /\
  ((exists r, fst (eval host args (Par ts) s) = Ok r) -> forall k, D k ->
    view (snd (eval host args (Par ts) s)) k = view (snd (eval host args (Par ts') s)) k).
Proof.
  intros Hok Hc Hp HD. cbn [term_ok] in Hok. rewrite foldr_Forall in Hok.
  assert (HA : ForallOrdPairs apart ts).
  { cbn [check_structure] in Hc. destruct ts as [|t0 ts0]; [constructor|]. revert Hc Hok. generalize (t0 :: ts0) as l. intros l Hc Hok.
    destruct (par_conflict 0 (term_footprint <$> l)) eqn:Ec; [done|]. apply par_conflict_None in Ec. clear Hc.
    induction l as [|t l IH]; [constructor|]. inversion Ec as [|? ? Hf Hr]; subst. apply Forall_cons in Hok as [Ht Hok].
    constructor; [|by apply IH]. rewrite Forall_fmap in Hf. rewrite Forall_forall in Hf, Hok |- *. intros u Hu.
    apply parallel_safe_spec; [by apply term_footprint_ok|by apply term_footprint_ok, Hok|by apply Hf]. }
  pose proof (pairs_perm apart ts ts' Hp HA) as HA'. assert (HD' : forall t k, t ∈ ts' -> touches t k -> D k) by (intros t k Hin; apply HD; by rewrite Hp).
  destruct (run_independent host args ts HA HD (journal_new s) receipt_default) as [O1 V1].
  destruct (run_independent host args ts' HA' HD' (journal_new s) receipt_default) as [O2 V2].
  assert (Hs : Forall (fun t => succeeds host args t (journal_new s)) ts <-> Forall (fun t => succeeds host args t (journal_new s)) ts') by (by rewrite Hp).
  unfold eval. rewrite !run_par.
  destruct (run_list host args ts (journal_new s) receipt_default) as [[o j] r], (run_list host args ts' (journal_new s) receipt_default) as [[o' j'] r'].
  cbn [fst snd] in *. destruct o as [[]|f], o' as [[]|f']; cbn [fst snd].
  - split; [split; intros _; by eexists|]. intros _ k Hk. destruct (V1 (proj1 O1 eq_refl) k Hk) as [W1 N1]. destruct (V2 (proj1 O2 eq_refl) k Hk) as [W2 N2].
    unfold jview in *. destruct (decide (Exists (fun t => k ∈ writes (term_footprint t)) ts)) as [Hex|Hn].
    + apply Exists_exists in Hex as (t & Hin & Hw). rewrite (W1 t Hin Hw), (W2 t) by (by rewrite <- ?Hp). done.
    + assert (Hno : forall t, t ∈ ts -> k ∉ writes (term_footprint t)) by (intros t Hin Hw; apply Hn, Exists_exists; by exists t).
      rewrite N1, N2 by (intros t; rewrite <- ?Hp; by apply Hno). done.
  - pose proof (proj2 O2 (proj1 Hs (proj1 O1 eq_refl))). done.
  - pose proof (proj2 O1 (proj2 Hs (proj1 O2 eq_refl))). done.
  - split; [split; by intros [? ?]|by intros [? ?]].
Qed.

(** A failed evaluation leaves no trace, if nothing it writes was absent.  When every key a term may
    write holds a value that the state takes back, the state after a fault answers every read as before
    the term ran. *)
Theorem failed_eval_leaves_no_trace (t : Term) (s : S) f s' :
  (forall k, k ∈ writes (term_footprint t) -> D k /\ exists v, view s k = Some v /\ forall old, write k v old = Some v) ->
  eval host args t s = (Err f, s') -> forall k, D k -> view s' k = view s k.
Proof.
  intros HW He k Hk. pose proof (rollback_view host args t s receipt_default k (fun k Hk => proj1 (HW k Hk)) Hk) as Hr.
  unfold eval, after in *. destruct (run host args t (journal_new s) receipt_default) as [[[u|f'] j] r]; [done|]. injection He as _ <-.
  cbn [fst snd] in Hr. destruct Hr as [|[Hin [old Hr]]]; [done|]. etrans; [exact Hr|].
  destruct (HW k Hin) as [_ (v & -> & Hb)]. by apply Hb.
Qed.

End claims.

(** ** Witnesses: a host with one rule that adds to a cell, on the map state *)

Definition w_key (n : Z) : Key := small 0 0 n.

Definition w_add (vs : list Value) (k : Key) : prog (result unit Fault) :=
  match vs with
  | [Int n] => Get k (fun v => match v with
      | Some (Int m) => if m + n <? 100 then Put k (Int (m + n)) (Ret (Ok tt)) else Ret (Err Overflow)
      | _ => Put k (Int n) (Ret (Ok tt))
      end)
  | _ => Ret (Err TypeMismatch)
  end.

Definition w_host : HostOps := mk_host (fun kind vs => w_add vs (w_key kind)) (fun _ _ _ => RRet (Ok true)) verify_default.
Definition w_do (kind n : Z) : Term := Do (with_args (internal kind (fp_new [] [w_key kind])) [Lit (Int n)]).
Definition w_state : gmap Key Value := {[ w_key 1 := Int 5; w_key 2 := Int 7 ]}.

#[global] Instance touches_dec t k : Decision (touches t k).
Proof. unfold touches. apply _. Defined.

Lemma w_untouched : ~ touches (w_do 1 3) (w_key 2).
Proof. by_decide. Qed.

Lemma footprint_is_sound_witness :
  view (snd (eval w_host [] (w_do 1 3) w_state)) (w_key 2) = Some (Int 7) /\
  fst (eval w_host [] (w_do 1 3) w_state) = fst (eval w_host [] (w_do 1 3) (<[w_key 2 := Int 9]> w_state)).
Proof.
  destruct (@footprint_is_sound (gmap Key Value) map_state (fun _ => True) map_state_laws w_host [] (w_do 1 3) w_state (<[w_key 2 := Int 9]> w_state)
    ltac:(done)) as [Hf Hl]. split.
  - exact (eq_trans (Hf (w_key 2) I ltac:(intros Hw; apply w_untouched; by right)) eq_refl).
  - refine (proj1 (Hl _)). intros k Hk. symmetry. apply lookup_insert_ne. intros E. apply w_untouched. rewrite E. exact Hk.
Defined.

Definition w_par : list Term := [w_do 1 3; w_do 2 4].

Lemma w_par_ok : term_ok (Par w_par).
Proof. split; [|split; [|done]]; apply fp_new_ok. Qed.

Lemma parallel_order_is_irrelevant_witness :
  view (snd (eval w_host [] (Par w_par) w_state)) (w_key 2) = view (snd (eval w_host [] (Par (reverse w_par)) w_state)) (w_key 2).
Proof.
  destruct (@parallel_order_is_irrelevant (gmap Key Value) map_state (fun _ => True) map_state_laws w_host [] unbounded w_par (reverse w_par) w_state)
    as [_ Hv]; [exact w_par_ok|vm_compute; reflexivity|by rewrite reverse_Permutation|done|].
  apply Hv; [|done]. eexists. vm_compute. reflexivity.
Defined.

(** The second addition overflows after the first one was made. *)
Definition w_fail : Term := Seq [w_do 1 3; w_do 2 95].

Lemma w_fails : fst (eval w_host [] w_fail w_state) = Err Overflow.
Proof. vm_compute. reflexivity. Qed.

Lemma w_fail_present k : k ∈ writes (term_footprint w_fail) -> is_Some (w_state !! k).
Proof.
  assert (Hw : writes (term_footprint w_fail) = [w_key 1; w_key 2]) by (vm_compute; reflexivity). rewrite Hw.
  intros [->|[->|Hx%elem_of_nil]%elem_of_cons]%elem_of_cons; [by eexists|by eexists|done].
Qed.

Lemma failed_eval_leaves_no_trace_witness :
  view (snd (eval w_host [] w_fail w_state)) (w_key 1) = view w_state (w_key 1).
Proof.
  pose proof w_fails as Ho. destruct (eval w_host [] w_fail w_state) as [o s'] eqn:E. cbn [fst] in Ho. subst o.
  refine (@failed_eval_leaves_no_trace (gmap Key Value) map_state (fun _ => True) map_state_laws w_host [] w_fail w_state Overflow s' _ E (w_key 1) I).
  intros k Hk. split; [done|]. destruct (w_fail_present k Hk) as [v Hv]. exists v. split; [exact Hv|]. intros old. reflexivity.
Defined.

(** A key that was absent does not come back absent: it comes back as the integer zero. *)
Example absent_key_comes_back_as_zero :
  view (∅ : gmap Key Value) (w_key 1) = None /\
  fst (eval w_host [] (Seq [w_do 1 3; w_do 2 4; w_do 2 96]) ∅) = Err Overflow /\
  view (snd (eval w_host [] (Seq [w_do 1 3; w_do 2 4; w_do 2 96]) ∅)) (w_key 1) = Some (Int 0).
Proof. vm_compute. done. Qed.

End ErgonExec.
