(* ===== verification/ErgonCodec.v ===== *)
(** * ERGON: the canonical encoding of a term

    [fanos-ergon/src/codec.rs]: the encoder and the total, depth-bounded decoder of values, keys,
    footprints, expressions, predicates, effects, claims and terms.  The main result is that the two
    are a bijection between the encodable terms and the byte strings the decoder accepts.  The cursor
    is the [Reader] of the byte codec, with big-endian integers. *)
From stdpp Require Import sorting.
From S2P Require Import Prelude Codec Ergon.
Local Open Scope Z_scope.

Module ErgonCodec.
Import Ergon.

Definition SEQ_MAX : Z := 4096.

(** ** The cursor: big-endian integers, booleans, sequences *)

Definition rd_be (n : nat) (r : Reader) : option (Z * Reader) :=
  letO (s, r) := rd_take r n in Some (from_be s, r).

Definition rd_u16 : Reader -> option (Z * Reader) := rd_be 2.
Definition rd_u32 : Reader -> option (Z * Reader) := rd_be 4.
Definition rd_u128 : Reader -> option (Z * Reader) := rd_be 16.
Definition rd_array32 (r : Reader) : option (list Z * Reader) := rd_take r 32.

Definition rd_bool (r : Reader) : option (bool * Reader) :=
  letO (b, r) := rd_u8 r in
  if b =? 0 then Some (false, r) else if b =? 1 then Some (true, r) else None.

Definition rd_seq {T} (item : Reader -> option (T * Reader)) (r : Reader) : option (list T * Reader) :=
  letO (n, r) := rd_u16 r in
  if SEQ_MAX <? n then None else rd_loop item (Z.to_nat n) r.

Definition put_u16 (v : Z) : list Z := be_bytes 2 v.
Definition put_u32 (v : Z) : list Z := be_bytes 4 v.

(** [u16::try_from(n).unwrap_or(u16::MAX)]. *)
Definition u16_sat (n : nat) : Z := Z.min (Z.of_nat n) (2 ^ 16 - 1).

Definition put_seq {T} (items : list T) (f : T -> list Z) : list Z :=
  put_u16 (u16_sat (length items)) ++ concat (map f items).

(** ** Leaves *)

Definition put_key (k : Key) : list Z := put_u32 (point k) ++ put_u16 (space k) ++ slot k.

Definition key (r : Reader) : option (Key * Reader) :=
  letO (point, r) := rd_u32 r in
  letO (space, r) := rd_u16 r in
  letO (slot, r) := rd_array32 r in
  Some (at_key point space slot, r).

Fixpoint put_value (v : Value) : list Z :=
  match v with
  | Int n => 0 :: be_bytes 16 n
  | Bytes32 b => 1 :: b
  | Bytes b => 3 :: put_seq b (fun byte => [byte])
  | Record_ fields => 2 :: put_seq fields (fun '(tag, val) => be_bytes 2 tag ++ put_value val)
  end.

(** The closure of the record case with its captured [last]. *)
Fixpoint fields_loop (val : Reader -> option (Value * Reader)) (count : nat) (last : option Z) (r : Reader) :
    option (list (Z * Value) * Reader) :=
  match count with
  | O => Some ([], r)
  | S count =>
      letO (tag, r) := rd_u16 r in
      if match last with Some prev => tag <=? prev | None => false end then None else
      letO (v, r) := val r in
      letO (fs, r) := fields_loop val count (Some tag) r in
      Some ((tag, v) :: fs, r)
  end.

(** [lv] counts the levels below the bound: [EXPR_DEPTH_MAX + 1 - depth]. *)
Fixpoint value_at (lv : nat) (r : Reader) : option (Value * Reader) :=
  match lv with
  | O => None
  | S lv =>
      letO (tag, r) := rd_u8 r in
      if tag =? 0 then letO (n, r) := rd_u128 r in Some (Int n, r)
      else if tag =? 1 then letO (b, r) := rd_array32 r in Some (Bytes32 b, r)
      else if tag =? 3 then letO (b, r) := rd_seq rd_u8 r in Some (Bytes b, r)
      else if tag =? 2 then
        letO (fields, r) :=
          (letO (n, r) := rd_u16 r in if SEQ_MAX <? n then None else fields_loop (value_at lv) (Z.to_nat n) None r) in
        Some (Record_ fields, r)
      else None
  end.

Definition value : Reader -> option (Value * Reader) := value_at (Z.to_nat EXPR_DEPTH_MAX).

Definition encode_value (v : Value) : list Z := put_value v.

Definition decode_value (bytes : list Z) : option Value :=
  letO (v, r) := value (reader_new bytes) in letO _ := rd_finish r in Some v.

Definition put_footprint (f : Footprint) : list Z := put_seq (reads f) put_key ++ put_seq (writes f) put_key.

(** [keys.windows(2).all(|w| w.first() < w.last())]. *)
Fixpoint is_sorted_unique (keys : list Key) : bool :=
  match keys with
  | x :: ((y :: _) as rest) => bool_decide (key_le x y) && bool_decide (x <> y) && is_sorted_unique rest
  | _ => true
  end.

Definition footprint_ (r : Reader) : option (Footprint * Reader) :=
  letO (rs, r) := rd_seq key r in
  letO (ws, r) := rd_seq key r in
  if negb (is_sorted_unique rs) || negb (is_sorted_unique ws) then None else Some (fp_new rs ws, r).

Definition put_binop (op : BinOp) : list Z :=
  [match op with Add => 0 | Sub => 1 | Mul => 2 | Div => 3 | Rem => 4 | Min => 5 | Max => 6 end].

Definition binop (r : Reader) : option (BinOp * Reader) :=
  letO (b, r) := rd_u8 r in
  letO op := [Add; Sub; Mul; Div; Rem; Min; Max] !! Z.to_nat b in Some (op, r).

Definition put_cmp (op : Cmp) : list Z :=
  [match op with Eq => 0 | Ne => 1 | Lt => 2 | Le => 3 | Gt => 4 | Ge => 5 end].

Definition cmp (r : Reader) : option (Cmp * Reader) :=
  letO (b, r) := rd_u8 r in
  letO op := [Eq; Ne; Lt; Le; Gt; Ge] !! Z.to_nat b in Some (op, r).

(** ** Expressions and predicates *)

Fixpoint put_expr (e : Expr) : list Z :=
  match e with
  | Lit v => 0 :: put_value v
  | Load k => 1 :: put_key k
  | Arg i => [2; i]
  | Bin op l r => 3 :: put_binop op ++ put_expr l ++ put_expr r
  end.

Fixpoint expr_at (lv : nat) (r : Reader) : option (Expr * Reader) :=
  match lv with
  | O => None
  | S lv =>
      letO (tag, r) := rd_u8 r in
      if tag =? 0 then letO (v, r) := value r in Some (Lit v, r)
      else if tag =? 1 then letO (k, r) := key r in Some (Load k, r)
      else if tag =? 2 then letO (i, r) := rd_u8 r in Some (Arg i, r)
      else if tag =? 3 then
        letO (op, r) := binop r in
        letO (lhs, r) := expr_at lv r in
        letO (rhs, r) := expr_at lv r in
        Some (Bin op lhs rhs, r)
      else None
  end.

Definition expr : Reader -> option (Expr * Reader) := expr_at (Z.to_nat EXPR_DEPTH_MAX).

Fixpoint put_predicate (p : Predicate) : list Z :=
  match p with
  | Host kind reads args => 0 :: put_u16 kind ++ put_seq reads put_key ++ put_seq args put_expr
  | Compare op l r => 1 :: put_cmp op ++ put_expr l ++ put_expr r
  | And parts => 2 :: put_seq parts put_predicate
  | Or parts => 3 :: put_seq parts put_predicate
  | Not inner => 4 :: put_predicate inner
  end.

Fixpoint predicate_at (lv : nat) (r : Reader) : option (Predicate * Reader) :=
  match lv with
  | O => None
  | S lv =>
      letO (tag, r) := rd_u8 r in
      if tag =? 0 then
        letO (kind, r) := rd_u16 r in
        letO (rs, r) := rd_seq key r in
        if negb (is_sorted_unique rs) then None else
        letO (args, r) := rd_seq expr r in
        Some (Host kind rs args, r)
      else if tag =? 1 then
        letO (op, r) := cmp r in
        letO (lhs, r) := expr r in
        letO (rhs, r) := expr r in
        Some (Compare op lhs rhs, r)
      else if tag =? 2 then letO (ps, r) := rd_seq (predicate_at lv) r in Some (And ps, r)
      else if tag =? 3 then letO (ps, r) := rd_seq (predicate_at lv) r in Some (Or ps, r)
      else if tag =? 4 then letO (p, r) := predicate_at lv r in Some (Not p, r)
      else None
  end.

Definition predicate : Reader -> option (Predicate * Reader) := predicate_at (Z.to_nat EXPR_DEPTH_MAX).

(** ** Effects, claims, terms *)

Definition put_effect (e : Effect) : list Z :=
  put_u16 (kind e) ++ put_footprint (footprint e) ++ put_seq (args e) put_expr ++ [Z.b2z (external e)].

Definition effect (r : Reader) : option (Effect * Reader) :=
  letO (kind, r) := rd_u16 r in
  letO (fp, r) := footprint_ r in
  letO (args, r) := rd_seq expr r in
  letO (external, r) := rd_bool r in
  Some (mk_effect kind fp args external, r).

Definition put_claim (c : Claim) : list Z := put_u16 (c_kind c) ++ put_footprint (c_footprint c) ++ put_u32 (proof_bytes c).

Definition claim (r : Reader) : option (Claim * Reader) :=
  letO (kind, r) := rd_u16 r in
  letO (fp, r) := footprint_ r in
  letO (bytes, r) := rd_u32 r in
  Some (mk_claim kind fp bytes, r).

Fixpoint put_term (t : Term) : list Z :=
  match t with
  | Do e => 0 :: put_effect e
  | Seq ts => 1 :: put_seq ts put_term
  | Par ts => 2 :: put_seq ts put_term
  | Gate p b => 3 :: put_predicate p ++ put_term b
  | Alt bs => 4 :: put_seq bs (fun '(p, b) => put_predicate p ++ put_term b)
  | Prove c => 5 :: put_claim c
  end.

(** [lv] is [D_MAX + 1 - depth]. *)
Fixpoint term_at (lv : nat) (r : Reader) : option (Term * Reader) :=
  match lv with
  | O => None
  | S lv =>
      letO (tag, r) := rd_u8 r in
      if tag =? 0 then letO (e, r) := effect r in Some (Do e, r)
      else if tag =? 1 then letO (ts, r) := rd_seq (term_at lv) r in Some (Seq ts, r)
      else if tag =? 2 then letO (ts, r) := rd_seq (term_at lv) r in Some (Par ts, r)
      else if tag =? 3 then
        letO (p, r) := predicate r in
        letO (t, r) := term_at lv r in
        Some (Gate p t, r)
      else if tag =? 4 then
        letO (bs, r) := rd_seq (fun r => letO (p, r) := predicate r in letO (t, r) := term_at lv r in Some ((p, t), r)) r in
        Some (Alt bs, r)
      else if tag =? 5 then letO (c, r) := claim r in Some (Prove c, r)
      else None
  end.

Definition encode (t : Term) : list Z := put_term t.

Definition decode (bytes : list Z) : option Term :=
  letO (t, r) := term_at (Z.to_nat D_MAX) (reader_new bytes) in letO _ := rd_finish r in Some t.

(** [Checked::decode]: [Err None] for bytes that are no encoding, [Err (Some e)] for an ill-typed term. *)
Definition checked_decode (bytes : list Z) (limits : Limits) : result Term (option TypeError) :=
  match decode bytes with
  | None => Err None
  | Some t => match checked_new t limits with Ok t => Ok t | Err e => Err (Some e) end
  end.

(** ** The encodable data *)

Definition key_enc (k : Key) : Prop := is_u32 (point k) /\ in_u 16 (space k) /\ is_bytes (slot k) /\ length (slot k) = 32%nat.

Definition short {A} (l : list A) : Prop := Z.of_nat (length l) <= SEQ_MAX.

Definition tag_lt (a b : Z * Value) : Prop := fst a < fst b.

Fixpoint value_enc (lv : nat) (v : Value) : Prop :=
  match lv with
  | O => False
  | S lv =>
      match v with
      | Int n => in_u 128 n
      | Bytes32 b => is_bytes b /\ length b = 32%nat
      | Bytes b => short b /\ is_bytes b
      | Record_ fs => short fs /\ StronglySorted tag_lt fs /\ Forall (fun f => in_u 16 (fst f) /\ value_enc lv (snd f)) fs
      end
  end.

Definition keys_enc (l : list Key) : Prop := short l /\ normal l /\ Forall key_enc l.
Definition fp_enc (f : Footprint) : Prop := keys_enc (reads f) /\ keys_enc (writes f).

Fixpoint expr_enc (lv : nat) (e : Expr) : Prop :=
  match lv with
  | O => False
  | S lv =>
      match e with
      | Lit v => value_enc (Z.to_nat EXPR_DEPTH_MAX) v
      | Load k => key_enc k
      | Arg i => is_u8 i
      | Bin _ l r => expr_enc lv l /\ expr_enc lv r
      end
  end.

Definition args_enc (l : list Expr) : Prop := short l /\ Forall (expr_enc (Z.to_nat EXPR_DEPTH_MAX)) l.

Fixpoint pred_enc (lv : nat) (p : Predicate) : Prop :=
  match lv with
  | O => False
  | S lv =>
      match p with
      | Host kind rs args => in_u 16 kind /\ keys_enc rs /\ args_enc args
      | Compare _ l r => expr_enc (Z.to_nat EXPR_DEPTH_MAX) l /\ expr_enc (Z.to_nat EXPR_DEPTH_MAX) r
      | And ps | Or ps => short ps /\ Forall (pred_enc lv) ps
      | Not p => pred_enc lv p
      end
  end.

Definition effect_enc (e : Effect) : Prop := in_u 16 (kind e) /\ fp_enc (footprint e) /\ args_enc (args e).
Definition claim_enc (c : Claim) : Prop := in_u 16 (c_kind c) /\ fp_enc (c_footprint c) /\ is_u32 (proof_bytes c).

Fixpoint term_enc (lv : nat) (t : Term) : Prop :=
  match lv with
  | O => False
  | S lv =>
      match t with
      | Do e => effect_enc e
      | Seq ts | Par ts => short ts /\ Forall (term_enc lv) ts
      | Gate p t => pred_enc (Z.to_nat EXPR_DEPTH_MAX) p /\ term_enc lv t
      | Alt bs => short bs /\ Forall (fun b => pred_enc (Z.to_nat EXPR_DEPTH_MAX) (fst b) /\ term_enc lv (snd b)) bs
      | Prove c => claim_enc c
      end
  end.

Definition encodable (t : Term) : Prop := term_enc (Z.to_nat D_MAX) t.

(** ** Decoders that invert their encoders *)

(** [dec] reads back every encoding of the domain and accepts nothing else. *)
Definition codec {A} (dec : Reader -> option (A * Reader)) (enc : A -> list Z) (dom : A -> Prop) : Prop :=
  (forall a, dom a -> Codec.reads dec (enc a) a) /\ exact dec enc dom.

(** One read: the next encoding at the front of the reader. *)
Ltac rd_step L :=
  match goal with
  | Hr : rd_ok ?r, E : rest_of ?r = _ |- _ =>
      let r1 := fresh "r" in let E1 := fresh "Ed" in let R1 := fresh "E" in let H1 := fresh "Hr" in
      edestruct (proj1 L) as (r1 & E1 & R1 & H1); cycle 1;
      [exact Hr|rewrite <- ?app_assoc in E; exact E|cbv beta in E1; rewrite ?E1; clear Hr E|try done]
  end.

(** One accepted read: what it consumed. *)
Ltac ex_step L :=
  match goal with
  | Hr : rd_ok ?r, Hb : is_bytes (rest_of ?r), E : _ = Some _ |- _ =>
      match type of E with
      | context [match ?d with Some _ => _ | None => None end] =>
          let a := fresh "a" in let r1 := fresh "r" in let Ed := fresh "Ed" in
          let Hd := fresh "Hd" in let Er := fresh "Er" in let Hr1 := fresh "Hr" in let Hb1 := fresh "Hb" in
          destruct d as [[a r1]|] eqn:Ed; [|discriminate E];
          apply (proj2 L) in Ed as (Hd & Er & Hr1); [|exact Hr|exact Hb];
          rewrite Er in Hb; apply is_bytes_app in Hb as [_ Hb1]
      end
  end.

Lemma be_codec n : codec (rd_be n) (be_bytes n) (in_u (8 * Z.of_nat n)).
Proof.
  split.
  - intros v Hv r rest Hr E. destruct (rd_take_reads n _ (length_be_bytes n v) r rest Hr E) as (r' & E' & H).
    exists r'. unfold rd_be. by rewrite E', from_be_id.
  - intros r a r' Hr Hb E. unfold rd_be in E. destruct (rd_take r n) as [[s r1]|] eqn:Et; [|done].
    apply rd_take_exact in Et as (Hl & Er & Hr1); [|done]. injection E as <- <-.
    rewrite Er in Hb. apply is_bytes_app in Hb as [Hb _]. split; [rewrite <- Hl; by apply from_be_range|].
    by rewrite be_bytes_from_be_n.
Qed.

Lemma u16_codec : codec rd_u16 put_u16 (in_u 16). Proof. apply (be_codec 2). Qed.
Lemma u32_codec : codec rd_u32 put_u32 is_u32. Proof. apply (be_codec 4). Qed.
Lemma u128_codec : codec rd_u128 (be_bytes 16) (in_u 128). Proof. apply (be_codec 16). Qed.

Lemma u8_codec : codec rd_u8 (fun b => [b]) is_u8.
Proof. split; [intros; apply rd_u8_reads|apply rd_u8_exact]. Qed.

Lemma array32_codec : codec rd_array32 (fun b => b) (fun b => is_bytes b /\ length b = 32%nat).
Proof.
  split; [intros b [_ Hb]; by apply rd_take_reads|].
  intros r a r' Hr Hb E. apply rd_take_exact in E as (Hl & Er & Hr1); [|done]. rewrite Er in Hb. by apply is_bytes_app in Hb as [Hb _].
Qed.

Lemma bool_codec : codec rd_bool (fun b => [Z.b2z b]) (fun _ => True).
Proof.
  split.
  - intros b _ r rest Hr E. unfold rd_bool. rd_step u8_codec; [exists r0; by destruct b|by destruct b].
  - intros r a r' Hr Hb E. unfold rd_bool in E. ex_step u8_codec.
    repeat case_match; simplify_eq; rewrite ?Z.eqb_eq in *; subst; done.
Qed.

Lemma loop_codec {T} (f : Reader -> option (T * Reader)) enc dom : codec f enc dom ->
  forall n, codec (rd_loop f n) (fun l => concat (map enc l)) (fun l => length l = n /\ Forall dom l).
Proof.
  intros [Hr He] n. split.
  - intros l [<- HF]. apply rd_loop_reads. by eapply Forall_impl.
  - induction n as [|n IH]; intros r l r' Hok Hb E; cbn [rd_loop] in E; [by simplify_eq|].
    ex_step (conj Hr He). destruct (rd_loop f n r0) as [[l' r2]|] eqn:El; [|done].
    apply IH in El as ((Hl & HF) & Er' & ?); [|done..]. injection E as <- <-.
    split; [split; [simpl; by rewrite Hl|by constructor]|]. split; [|done]. rewrite Er, Er'. cbn [map concat]. by rewrite app_assoc.
Qed.

Lemma u16_sat_short {A} (l : list A) : short l -> u16_sat (length l) = Z.of_nat (length l) /\ in_u 16 (Z.of_nat (length l)).
Proof. unfold short, SEQ_MAX, u16_sat, in_u. lia. Qed.

(** A counted loop after its [u16] count. *)
Lemma counted_codec {T} (loop : nat -> Reader -> option (list T * Reader)) (enc : T -> list Z) (dom : list T -> Prop) :
  (forall n, codec (loop n) (fun l => concat (map enc l)) (fun l => length l = n /\ dom l)) ->
  codec (fun r => letO (n, r) := rd_u16 r in if SEQ_MAX <? n then None else loop (Z.to_nat n) r)
    (fun l => put_seq l enc) (fun l => short l /\ dom l).
Proof.
  intros Hl. split.
  - intros l [Hs Hd] r rest Hr E. unfold put_seq in E. destruct (u16_sat_short l Hs) as [-> Hu] in E.
    rd_step u16_codec. rewrite (proj2 (Z.ltb_ge _ _)), Nat2Z.id by exact Hs. by eapply (Hl (length l)).
  - intros r a r' Hr Hb E. ex_step u16_codec. case_match eqn:Es; [done|]. rewrite Z.ltb_ge in Es.
    unfold in_u in Hd. apply (Hl (Z.to_nat a0)) in E as ((Hn & HF) & Er' & ?); [|done..].
    assert (Hsh : short a) by (unfold short; lia). split; [done|]. split; [|done]. unfold put_seq.
    destruct (u16_sat_short a Hsh) as [-> _]. rewrite Er, Er', Hn, Z2Nat.id, app_assoc by lia. done.
Qed.

Lemma seq_codec {T} (f : Reader -> option (T * Reader)) enc dom : codec f enc dom ->
  codec (rd_seq f) (fun l => put_seq l enc) (fun l => short l /\ Forall dom l).
Proof. intros Hf. apply counted_codec. intros n. by apply loop_codec. Qed.

Lemma key_codec : codec key put_key key_enc.
Proof.
  split.
  - intros [p s sl] (Hp & Hs & Hb & Hl) r rest Hr E. unfold put_key in E. cbn [point space slot] in *. unfold key.
    rd_step u32_codec. rd_step u16_codec. rd_step array32_codec. by eexists.
  - intros r a r' Hr Hb E. unfold key in E. ex_step u32_codec. ex_step u16_codec. ex_step array32_codec.
    injection E as <- <-. split; [done|]. split; [|done]. unfold put_key. cbn [point space slot]. rewrite Er, Er0, Er1, !app_assoc. done.
Qed.

(** The decoder's order check, as strict sortedness. *)
Lemma is_sorted_unique_iff l : is_sorted_unique l = true <-> normal l.
Proof.
  unfold normal. induction l as [|x [|y l] IH]; [split; by constructor|split; by repeat constructor|].
  cbn [is_sorted_unique]. rewrite !andb_true_iff, !bool_decide_eq_true, IH. split.
  - intros [[Hle Hne] Hs]. apply StronglySorted_cons. split; [|done]. constructor; [done|].
    apply StronglySorted_cons in Hs as [HF Hs]. eapply Forall_impl; [exact HF|]. intros z [Hyz Hnyz]. split; [by etrans|].
    intros ->. apply Hne. by apply (anti_symm key_le).
  - intros [HF Hs]%StronglySorted_cons. by apply Forall_cons in HF as [[? ?] _].
Qed.

Lemma keys_codec : codec (fun r => letO (rs, r) := rd_seq key r in if negb (is_sorted_unique rs) then None else Some (rs, r))
  (fun l => put_seq l put_key) keys_enc.
Proof.
  split.
  - intros l (Hs & Hn & HF) r rest Hr E. rd_step (seq_codec _ _ _ key_codec). rewrite (proj2 (is_sorted_unique_iff l) Hn). by eexists.
  - intros r a r' Hr Hb E. ex_step (seq_codec _ _ _ key_codec). destruct (is_sorted_unique a0) eqn:Es; [|done].
    injection E as <- <-. destruct Hd. by rewrite is_sorted_unique_iff in Es.
Qed.

Lemma footprint_codec : codec footprint_ put_footprint fp_enc.
Proof.
  split.
  - intros f [(Hs & Hn & HF) (Hs' & Hn' & HF')] r rest Hr E. unfold put_footprint in E. unfold footprint_.
    rd_step (seq_codec _ _ _ key_codec). rd_step (seq_codec _ _ _ key_codec).
    rewrite !(proj2 (is_sorted_unique_iff _)) by done. exists r1. cbn [negb orb]. by rewrite fp_new_id.
  - intros r f r' Hr Hb E. unfold footprint_ in E. ex_step (seq_codec _ _ _ key_codec). ex_step (seq_codec _ _ _ key_codec).
    destruct (is_sorted_unique a) eqn:Es; [|done]. destruct (is_sorted_unique a0) eqn:Es'; [|done]. injection E as <- <-.
    rewrite is_sorted_unique_iff in Es, Es'. pose proof (fp_new_id (mk_fp a a0) (conj Es Es')) as Ef. cbn [reads writes] in Ef. rewrite Ef.
    unfold fp_enc, keys_enc, put_footprint. cbn [reads writes]. destruct Hd, Hd0. split; [done|]. split; [|done]. by rewrite Er, Er0, app_assoc.
Qed.

(** A one-byte enumeration. *)
Lemma enum_codec {A} (ops : list A) (code : A -> Z) :
  (forall a, ops !! Z.to_nat (code a) = Some a /\ is_u8 (code a)) -> (forall i a, ops !! i = Some a -> code a = Z.of_nat i) ->
  codec (fun r => letO (b, r) := rd_u8 r in letO op := ops !! Z.to_nat b in Some (op, r)) (fun a => [code a]) (fun _ => True).
Proof.
  intros Hc Hi. split.
  - intros a _ r rest Hr E. destruct (Hc a) as [Ha Hu]. rd_step u8_codec. rewrite Ha. by eexists.
  - intros r a r' Hr Hb E. ex_step u8_codec. destruct (ops !! Z.to_nat a0) eqn:Eo; [|done]. injection E as <- <-.
    apply Hi in Eo. unfold in_u in Hd. rewrite Z2Nat.id in Eo by lia. by rewrite Eo.
Qed.

Lemma binop_codec : codec binop put_binop (fun _ => True).
Proof.
  apply (enum_codec [Add; Sub; Mul; Div; Rem; Min; Max] (fun op => match op with Add => 0 | Sub => 1 | Mul => 2 | Div => 3 | Rem => 4 | Min => 5 | Max => 6 end)).
  - intros []; (split; [done|unfold in_u; lia]).
  - intros i a. do 7 (destruct i as [|i]; [by intros [= <-]|]). done.
Qed.

Lemma cmp_codec : codec cmp put_cmp (fun _ => True).
Proof.
  apply (enum_codec [Eq; Ne; Lt; Le; Gt; Ge] (fun op => match op with Eq => 0 | Ne => 1 | Lt => 2 | Le => 3 | Gt => 4 | Ge => 5 end)).
  - intros []; (split; [done|unfold in_u; lia]).
  - intros i a. do 6 (destruct i as [|i]; [by intros [= <-]|]). done.
Qed.

(** ** Values *)

Definition above (last : option Z) (f : Z * Value) : Prop := match last with Some prev => prev < fst f | None => True end.

Definition fields_enc (dom : Value -> Prop) (fs : list (Z * Value)) : Prop :=
  StronglySorted tag_lt fs /\ Forall (fun f => in_u 16 (fst f) /\ dom (snd f)) fs.

Lemma fields_codec val enc dom : codec val enc dom -> forall n last,
  codec (fields_loop val n last) (fun l => concat (map (fun '(tag, v) => be_bytes 2 tag ++ enc v) l))
    (fun l => length l = n /\ Forall (above last) l /\ fields_enc dom l).
Proof.
  intros Hv. induction n as [|n IH]; intros last; split.
  - intros l [Hl _] r rest Hr E. apply nil_length_inv in Hl as ->. by exists r.
  - intros r l r' Hr Hb E. cbn [fields_loop] in E. simplify_eq. unfold fields_enc. split_and!; try done; constructor.
  - intros [|[tag v] l] [Hl (Ha & Hs & HF)] r rest Hr E; [done|]. injection Hl as Hl. cbn [map concat] in E. rewrite <- !app_assoc in E.
    apply Forall_cons in Ha as [Ha _]. apply StronglySorted_cons in Hs as [Hlt Hs]. apply Forall_cons in HF as [[Ht Hd] HF].
    cbn [fields_loop]. cbn [fst snd] in *. rd_step u16_codec.
    assert (Hn : match last with Some prev => tag <=? prev | None => false end = false) by (destruct last; [apply Z.leb_gt, Ha|done]).
    rewrite Hn. rd_step Hv. rd_step (IH (Some tag)). by eexists.
  - intros r l r' Hr Hb E. cbn [fields_loop] in E. ex_step u16_codec. case_match eqn:Hlast; [done|]. ex_step Hv. ex_step (IH (Some a)).
    injection E as <- <-. destruct Hd1 as (Hl & Ha & Hs & HF).
    split; [|split; [cbn [map concat]; rewrite Er, Er0, Er1, <- !app_assoc; done|done]].
    split; [simpl; by rewrite Hl|]. split; [|split; [apply StronglySorted_cons; by split|by constructor]].
    assert (Hab : above last (a, a0)) by (destruct last; [by apply Z.leb_gt|done]).
    constructor; [done|]. eapply Forall_impl; [exact Ha|]. intros f Hf. destruct last; [|done]. cbn [above fst] in *. lia.
Qed.

(** The body of a tag: the branch of the decoder the byte selects. *)
Ltac on_tags E := repeat (match type of E with context [if ?t =? ?k then _ else _] => destruct (Z.eqb_spec t k) end; [subst|]); [..|discriminate E].

(** An accepted read ends with the consumed bytes in the order of the encoding. *)
Ltac consumed := split; [|split; [|done]]; [|repeat match goal with Er : rest_of _ = _ |- _ => rewrite Er; clear Er end; cbn [app put_value put_expr put_predicate put_term]; by rewrite <- ?app_assoc].

Lemma record_codec val enc dom : codec val enc dom ->
  codec (fun r => letO (n, r) := rd_u16 r in if SEQ_MAX <? n then None else fields_loop val (Z.to_nat n) None r)
    (fun fs => put_seq fs (fun '(tag, v) => be_bytes 2 tag ++ enc v)) (fun fs => short fs /\ fields_enc dom fs).
Proof.
  intros Hv. apply (counted_codec (fun n => fields_loop val n None)). intros n. destruct (fields_codec val enc dom Hv n None) as [Hr He].
  split; [intros l [Hl Hd]; apply Hr; split; [done|]; split; [|done]; by apply Forall_true|].
  intros r l r' H1 H2 E. apply He in E as ((? & _ & ?) & ? & ?); done.
Qed.

Lemma value_codec lv : codec (value_at lv) put_value (value_enc lv).
Proof.
  induction lv as [|lv IH]; [by split|]. split.
  - intros v Hv r rest Hr E. cbn [value_at]. destruct v as [n|b|b|fs]; cbn [put_value value_enc] in E, Hv;
      match type of E with _ = (?t :: ?l) ++ _ => change (t :: l) with ([t] ++ l) in E end; rd_step u8_codec; cbn [Z.eqb].
    + rd_step u128_codec. by eexists.
    + rd_step array32_codec. by eexists.
    + cbn [Pos.eqb]. rd_step (seq_codec _ _ _ u8_codec). by eexists.
    + cbn [Pos.eqb]. rd_step (record_codec _ _ _ IH). by eexists.
  - intros r v r' Hr Hb E. cbn [value_at] in E. ex_step u8_codec. on_tags E.
    + ex_step u128_codec. injection E as <- <-. by consumed.
    + ex_step array32_codec. injection E as <- <-. by consumed.
    + ex_step (seq_codec _ _ _ u8_codec). injection E as <- <-. by consumed.
    + ex_step (record_codec _ _ _ IH). injection E as <- <-. by consumed.
Qed.

Lemma value_top : codec value put_value (value_enc (Z.to_nat EXPR_DEPTH_MAX)).
Proof. apply value_codec. Qed.

(** ** Expressions and predicates *)

(** The encoding starts with a tag byte. *)
Ltac rd_tag := match goal with E : rest_of _ = (?t :: ?l) ++ _ |- _ => change (t :: l) with ([t] ++ l) in E end; rd_step u8_codec; cbn [Z.eqb Pos.eqb].

Lemma expr_codec lv : codec (expr_at lv) put_expr (expr_enc lv).
Proof.
  induction lv as [|lv IH]; [by split|]. split.
  - intros e He r rest Hr E. cbn [expr_at]. destruct e as [v|k|i|op l m]; cbn [put_expr expr_enc] in E, He; rd_tag.
    + rd_step value_top. by eexists.
    + rd_step key_codec. by eexists.
    + rd_step u8_codec. by eexists.
    + destruct He as [Hl Hm]. rd_step binop_codec. rd_step IH. rd_step IH. by eexists.
  - intros r e r' Hr Hb E. cbn [expr_at] in E. ex_step u8_codec. on_tags E.
    + ex_step value_top. injection E as <- <-. by consumed.
    + ex_step key_codec. injection E as <- <-. by consumed.
    + ex_step u8_codec. injection E as <- <-. by consumed.
    + ex_step binop_codec. ex_step IH. ex_step IH. injection E as <- <-. by consumed.
Qed.

Lemma expr_top : codec expr put_expr (expr_enc (Z.to_nat EXPR_DEPTH_MAX)).
Proof. apply expr_codec. Qed.

Lemma args_codec : codec (rd_seq expr) (fun l => put_seq l put_expr) args_enc.
Proof. apply seq_codec, expr_codec. Qed.

Lemma predicate_codec lv : codec (predicate_at lv) put_predicate (pred_enc lv).
Proof.
  induction lv as [|lv IH]; [by split|]. split.
  - intros p Hp r rest Hr E. cbn [predicate_at]. destruct p as [k rs a|op l m|ps|ps|p]; cbn [put_predicate pred_enc] in E, Hp; rd_tag.
    + destruct Hp as (Hk & (Hs & Hn & HF) & Ha). rd_step u16_codec. rd_step (seq_codec _ _ _ key_codec).
      rewrite (proj2 (is_sorted_unique_iff rs) Hn). cbn [negb]. rd_step args_codec. by eexists.
    + destruct Hp as [Hl Hm]. rd_step cmp_codec. rd_step expr_top. rd_step expr_top. by eexists.
    + rd_step (seq_codec _ _ _ IH). by eexists.
    + rd_step (seq_codec _ _ _ IH). by eexists.
    + rd_step IH. by eexists.
  - intros r p r' Hr Hb E. cbn [predicate_at] in E. ex_step u8_codec. on_tags E.
    + ex_step u16_codec. ex_step (seq_codec _ _ _ key_codec). destruct (is_sorted_unique a0) eqn:Es; [|done].
      cbn [negb] in E. ex_step args_codec. injection E as <- <-. rewrite is_sorted_unique_iff in Es. destruct Hd1. by consumed.
    + ex_step cmp_codec. ex_step expr_top. ex_step expr_top. injection E as <- <-. by consumed.
    + ex_step (seq_codec _ _ _ IH). injection E as <- <-. by consumed.
    + ex_step (seq_codec _ _ _ IH). injection E as <- <-. by consumed.
    + ex_step IH. injection E as <- <-. by consumed.
Qed.

Lemma predicate_top : codec predicate put_predicate (pred_enc (Z.to_nat EXPR_DEPTH_MAX)).
Proof. apply predicate_codec. Qed.

(** ** Effects, claims and terms *)

Lemma effect_codec : codec effect put_effect effect_enc.
Proof.
  split.
  - intros e (Hk & Hf & Ha) r rest Hr E. unfold put_effect in E. unfold effect. rd_step u16_codec. rd_step footprint_codec.
    rd_step args_codec. rd_step bool_codec. eexists. by destruct e.
  - intros r e r' Hr Hb E. unfold effect in E. ex_step u16_codec. ex_step footprint_codec. ex_step args_codec. ex_step bool_codec.
    injection E as <- <-. unfold put_effect. cbn [kind footprint args external]. by consumed.
Qed.

Lemma claim_codec : codec claim put_claim claim_enc.
Proof.
  split.
  - intros c (Hk & Hf & Hp) r rest Hr E. unfold put_claim in E. unfold claim. rd_step u16_codec. rd_step footprint_codec.
    rd_step u32_codec. eexists. by destruct c.
  - intros r c r' Hr Hb E. unfold claim in E. ex_step u16_codec. ex_step footprint_codec. ex_step u32_codec.
    injection E as <- <-. unfold put_claim. cbn [c_kind c_footprint proof_bytes]. by consumed.
Qed.

Lemma branch_codec (dec : Reader -> option (Term * Reader)) enc dom : codec dec enc dom ->
  codec (fun r => letO (p, r) := predicate r in letO (t, r) := dec r in Some ((p, t), r))
    (fun '(p, b) => put_predicate p ++ enc b) (fun b => pred_enc (Z.to_nat EXPR_DEPTH_MAX) (fst b) /\ dom (snd b)).
Proof.
  intros Hd. split.
  - intros [p t] [Hp Ht] r rest Hr E. rd_step predicate_top. rd_step Hd. by eexists.
  - intros r b r' Hr Hb E. ex_step predicate_top. ex_step Hd. injection E as <- <-. by consumed.
Qed.

Lemma term_codec lv : codec (term_at lv) put_term (term_enc lv).
Proof.
  induction lv as [|lv IH]; [by split|]. split.
  - intros t Ht r rest Hr E. cbn [term_at]. destruct t as [e|ts|ts|p t|bs|c]; cbn [put_term term_enc] in E, Ht; rd_tag.
    + rd_step effect_codec. by eexists.
    + rd_step (seq_codec _ _ _ IH). by eexists.
    + rd_step (seq_codec _ _ _ IH). by eexists.
    + destruct Ht as [Hp Ht]. rd_step predicate_top. rd_step IH. by eexists.
    + rd_step (seq_codec _ _ _ (branch_codec _ _ _ IH)). by eexists.
    + rd_step claim_codec. by eexists.
  - intros r t r' Hr Hb E. cbn [term_at] in E. ex_step u8_codec. on_tags E.
    + ex_step effect_codec. injection E as <- <-. by consumed.
    + ex_step (seq_codec _ _ _ IH). injection E as <- <-. by consumed.
    + ex_step (seq_codec _ _ _ IH). injection E as <- <-. by consumed.
    + ex_step predicate_top. ex_step IH. injection E as <- <-. by consumed.
    + ex_step (seq_codec _ _ _ (branch_codec _ _ _ IH)). injection E as <- <-. by consumed.
    + ex_step claim_codec. injection E as <- <-. by consumed.
Qed.

(** ** The bijection *)

Lemma try_each_Ok {A E} (f : A -> result unit E) l : try_each f l = Ok tt -> Forall (fun x => f x = Ok tt) l.
Proof. induction l as [|x l IH]; cbn; [by constructor|]. destruct (f x) as [[]|] eqn:Ex; [|done]. intros H. constructor; [done|by apply IH]. Qed.

Lemma zmax_lt {A} (f : A -> Z) l b : Forall (fun x => f x < b) l -> zmax (map f l) < Z.max 1 b.
Proof. unfold zmax. induction 1; cbn [map foldr]; lia. Qed.

(** A combinator that is not empty has a part below it, so its levels are used up. *)
Lemma parts_depth {A} (f : A -> Z) (P : A -> Prop) lv l : l <> [] -> (forall x, P x -> f x < Z.of_nat lv) -> (lv = 0%nat -> forall x, ~ P x) ->
  Forall P l -> 1 + zmax (map f l) < Z.of_nat (S lv).
Proof.
  intros Hne Hf H0 HF. destruct lv as [|lv]; [destruct HF as [|x ? Hx]; [done|by destruct (H0 eq_refl x)]|].
  pose proof (zmax_lt f l (Z.of_nat (S lv)) (Forall_impl _ _ _ HF Hf)). lia.
Qed.

(** A term without an empty combinator decodes only below the nesting ceiling. *)
Lemma term_enc_depth limits lv : forall t, check_structure limits t = Ok tt -> term_enc lv t -> depth t < Z.of_nat lv.
Proof.
  induction lv as [|lv IH]; [done|]. intros [e|ts|ts|p t|bs|c]; cbn [term_enc depth check_structure]; try lia.
  - destruct ts as [|t ts]; [done|]. intros Hc%try_each_Ok [_ HF].
    apply (parts_depth depth (fun t => check_structure limits t = Ok tt /\ term_enc lv t)); [done|intros ? [? ?]; by apply IH|intros -> ? [_ []]|].
    rewrite Forall_and. by split.
  - destruct ts as [|t ts]; [done|]. case_match; [done|]. intros Hc%try_each_Ok [_ HF].
    apply (parts_depth depth (fun t => check_structure limits t = Ok tt /\ term_enc lv t)); [done|intros ? [? ?]; by apply IH|intros -> ? [_ []]|].
    rewrite Forall_and. by split.
  - intros Hc [_ Ht]. specialize (IH t Hc Ht). lia.
  - destruct bs as [|b bs]; [done|]. intros Hc%try_each_Ok [_ HF].
    apply (parts_depth (fun '(_, t) => depth t) (fun b => check_structure limits (snd b) = Ok tt /\ term_enc lv (snd b)));
      [done|intros [p t] [? ?]; by apply (IH t)|intros -> ? [_ []]|].
    rewrite Forall_and. split; [eapply Forall_impl; [exact Hc|by intros []]|eapply Forall_impl; [exact HF|by intros ? [_ ?]]].
Qed.

(** Decoded footprints are in normal form. *)
Lemma term_enc_ok lv : forall t, term_enc lv t -> term_ok t.
Proof.
  induction lv as [|lv IH]; [done|]. assert (Hf : forall f, fp_enc f -> fp_ok f) by (intros f [(_ & ? & _) (_ & ? & _)]; by split).
  intros [e|ts|ts|p t|bs|c]; cbn [term_enc term_ok].
  - intros (_ & ? & _). by apply Hf.
  - intros [_ HF]. apply foldr_Forall. by eapply Forall_impl.
  - intros [_ HF]. apply foldr_Forall. by eapply Forall_impl.
  - intros [_ ?]. by apply IH.
  - intros [_ HF]. induction HF as [|[p t] bs [_ Ht] _ IHb]; [done|]. split; [by apply IH|done].
  - intros (_ & ? & _). by apply Hf.
Qed.

Lemma term_decode_encode t : encodable t -> decode (encode t) = Some t.
Proof.
  intros Ht. destruct (rd_new_ok (encode t)) as [Hr E]. rewrite <- (app_nil_r (encode t)) in E at 2.
  destruct (proj1 (term_codec _) t Ht _ _ Hr E) as (r' & Ed & R' & Hr'). unfold decode. rewrite Ed.
  by rewrite (proj2 (rd_finish_iff r' Hr') R').
Qed.

Lemma term_decode_inv b t : is_bytes b -> decode b = Some t -> encode t = b /\ encodable t.
Proof.
  intros Hb. unfold decode. destruct (rd_new_ok b) as [Hr E]. destruct (term_at _ _) as [[t' r]|] eqn:Ed; [|done].
  apply (term_codec (Z.to_nat D_MAX)) in Ed as (Ht & Er & Hr'); [|done|by rewrite E].
  destruct (rd_finish r) as [[]|] eqn:Ef; [|done]. intros [= <-]. apply rd_finish_iff in Ef; [|done].
  rewrite Ef, app_nil_r, E in Er. done.
Qed.

(** ** The claims *)

(** C20: the encoding is a bijection between the encodable terms and the byte strings that decode: a byte
    string decodes to a term exactly when it is that term's encoding, so no two byte strings name one
    contract and no byte string names two; and a decoded term carries footprints in normal form. *)
Theorem term_encoding_is_canonical (b : list Z) (t : Term) : is_bytes b ->
  (decode b = Some t <-> encode t = b /\ encodable t) /\ (decode b = Some t -> term_ok t).
Proof.
  intros Hb. split; [split; [by apply term_decode_inv|]|].
  - intros [<- Ht]. by apply term_decode_encode.
  - intros Hd. apply term_decode_inv in Hd as [_ Ht]; [|done]. by eapply term_enc_ok.
Qed.

Definition w_key : Key := small 1 2 3.
Definition w_term : Term :=
  Seq [Do (with_args (internal 7 (fp_new [w_key] [w_key])) [Bin Add (Load w_key) (Lit (Record_ [(1, Int 5); (2, Bytes [9])]))]);
       Gate (Not (Compare Lt (Arg 0) (Lit (Int 4)))) (Prove (mk_claim 3 fp_empty 64))].

Lemma w_decodes : decode (encode w_term) = Some w_term.
Proof. vm_compute. reflexivity. Qed.

Lemma term_encoding_is_canonical_witness : encode w_term = encode w_term /\ encodable w_term /\ term_ok w_term.
Proof.
  assert (Hb : is_bytes (encode w_term)) by by_decide.
  destruct (term_encoding_is_canonical (encode w_term) w_term Hb) as [H1 H2].
  destruct (proj1 H1 w_decodes) as [E He]. exact (conj E (conj He (H2 w_decodes))).
Defined.

(** The decoder stops one level short of the type check.  A term of the full depth [D_MAX] can be
    well typed, but no byte string decodes to it: its own encoding is refused. *)
Theorem deepest_terms_have_no_encoding (t : Term) (limits : Limits) (b : list Z) :
  is_bytes b -> well_typed t limits = Ok tt -> depth t = D_MAX -> decode b <> Some t.
Proof.
  intros Hb Hw Hd Ht. apply term_decode_inv in Ht as [_ He]; [|done]. unfold well_typed in Hw. rewrite Hd in Hw.
  assert (Hc : check_structure limits t = Ok tt) by (repeat case_match; done).
  apply (term_enc_depth limits) in He; [|done]. rewrite Hd in He. done.
Qed.

Definition w_deep : Term := Seq [Par [Gate (Compare Eq (Arg 0) (Arg 0)) (Do (internal 7 fp_empty))]].

Lemma deepest_terms_have_no_encoding_witness :
  well_typed w_deep unbounded = Ok tt /\ decode (encode w_deep) <> Some w_deep.
Proof.
  assert (Hb : is_bytes (encode w_deep)) by by_decide.
  assert (Hw : well_typed w_deep unbounded = Ok tt) by (vm_compute; reflexivity).
  exact (conj Hw (deepest_terms_have_no_encoding w_deep unbounded (encode w_deep) Hb Hw eq_refl)).
Defined.

(** The wire path: what [Checked::decode] returns is well typed and is named by exactly these bytes. *)
Lemma checked_decode_spec b limits t : is_bytes b -> checked_decode b limits = Ok t ->
  encode t = b /\ term_ok t /\ well_typed t limits = Ok tt.
Proof.
  intros Hb. unfold checked_decode. destruct (decode b) as [t'|] eqn:Ed; [|done]. unfold checked_new.
  destruct (well_typed t' limits) as [[]|] eqn:Ew; cbn [rbind]; [|done]. intros [= <-].
  apply term_decode_inv in Ed as [E He]; [|done]. split; [done|]. split; [by eapply term_enc_ok|done].
Qed.

End ErgonCodec.
