(* ===== verification/Sig.v ===== *)
(** * Hashing and the hybrid signature

    [fanos-primitives/src/hash.rs] (labelled hashing) and [fanos-pqcrypto/src/sig.rs] (the
    Ed25519 and ML-DSA-65 hybrid).  The two signature schemes and BLAKE3 are third-party crates:
    they are the operations of the class [Crypto], and what the code relies on is [CryptoLaws]. *)
From Stdlib Require Export String.
From stdpp Require Export strings.
From S2P Require Import Prelude Codec.
Local Open Scope Z_scope.

(** [label.as_bytes()]. *)
Definition ascii_bytes (s : string) : list Z :=
  map (fun c => Z.of_N (Ascii.N_of_ascii c)) (list_ascii_of_string s).

Definition ED25519_VK_LEN : nat := 32.
Definition MLDSA65_VK_LEN : nat := 1952.
Definition ED25519_SIG_LEN : nat := 64.
Definition MLDSA65_SIG_LEN : nat := 3309.
Definition HYBRID_SIG_LEN : nat := ED25519_SIG_LEN + MLDSA65_SIG_LEN.
Definition HYBRID_VK_LEN : nat := ED25519_VK_LEN + MLDSA65_VK_LEN.

(** The operations of the crates [blake3], [ed25519_dalek] and [ml_dsa]. *)
Class Crypto := {
  blake3 : list Z -> list Z;
  EdSigningKey : Type;
  EdVerifyingKey : Type;
  EdSignature : Type;
  MlSigningKey : Type;
  MlVerifyingKey : Type;
  MlSignature : Type;
  ed_verifying_key : EdSigningKey -> EdVerifyingKey;
  ed_sign : EdSigningKey -> list Z -> EdSignature;
  ed_verify : EdVerifyingKey -> list Z -> EdSignature -> bool;
  ed_vk_as_bytes : EdVerifyingKey -> list Z;
  ed_vk_from_bytes : list Z -> option EdVerifyingKey;
  ed_sig_to_bytes : EdSignature -> list Z;
  ed_sig_from_bytes : list Z -> EdSignature;
  ml_verifying_key : MlSigningKey -> MlVerifyingKey;
  ml_sign : MlSigningKey -> list Z -> MlSignature;
  ml_verify : MlVerifyingKey -> list Z -> MlSignature -> bool;
  ml_vk_encode : MlVerifyingKey -> list Z;
  ml_vk_decode : list Z -> MlVerifyingKey;
  ml_sig_encode : MlSignature -> list Z;
  ml_sig_try_from : list Z -> option MlSignature;
}.

(** Their documented behaviour: fixed widths, serialisation that round-trips, and signatures that
    verify under the signer's own key. *)
Class CryptoLaws `{Crypto} := {
  blake3_length : forall m, length (blake3 m) = 32%nat;
  blake3_bytes : forall m, is_bytes (blake3 m);
  ed_vk_length : forall k, length (ed_vk_as_bytes k) = ED25519_VK_LEN;
  ed_vk_bytes : forall k, is_bytes (ed_vk_as_bytes k);
  ed_vk_roundtrip : forall k, ed_vk_from_bytes (ed_vk_as_bytes k) = Some k;
  ed_sig_length : forall s, length (ed_sig_to_bytes s) = ED25519_SIG_LEN;
  ed_sig_bytes : forall s, is_bytes (ed_sig_to_bytes s);
  ed_sig_roundtrip : forall s, ed_sig_from_bytes (ed_sig_to_bytes s) = s;
  ed_sign_verifies : forall k m, ed_verify (ed_verifying_key k) m (ed_sign k m) = true;
  ml_vk_length : forall k, length (ml_vk_encode k) = MLDSA65_VK_LEN;
  ml_vk_bytes : forall k, is_bytes (ml_vk_encode k);
  ml_vk_roundtrip : forall k, ml_vk_decode (ml_vk_encode k) = k;
  ml_sig_length : forall s, length (ml_sig_encode s) = MLDSA65_SIG_LEN;
  ml_sig_bytes : forall s, is_bytes (ml_sig_encode s);
  ml_sig_roundtrip : forall s, ml_sig_try_from (ml_sig_encode s) = Some s;
  ml_sign_verifies : forall k m, ml_verify (ml_verifying_key k) m (ml_sign k m) = true;
}.

Section sig.
  Context `{Crypto}.

Definition labeled_hasher (label : string) (data : list Z) : list Z :=
  ascii_bytes label ++ [0x1f] ++ data.

Definition hash_labeled (label : string) (data : list Z) : list Z :=
  blake3 (labeled_hasher label data).

Record HybridSigSecret := mk_secret { sk_ed25519 : EdSigningKey; sk_mldsa : MlSigningKey }.
Record HybridVerifier := mk_verifier { vk_ed25519 : EdVerifyingKey; vk_mldsa : MlVerifyingKey }.
Record HybridSignature := mk_signature { sig_ed25519 : EdSignature; sig_mldsa : MlSignature }.

(** The verifier [HybridSigSecret::generate] returns with a secret. *)
Definition verifier_of (k : HybridSigSecret) : HybridVerifier :=
  mk_verifier (ed_verifying_key (sk_ed25519 k)) (ml_verifying_key (sk_mldsa k)).

Definition hybrid_sign (k : HybridSigSecret) (message : list Z) : HybridSignature :=
  mk_signature (ed_sign (sk_ed25519 k) message) (ml_sign (sk_mldsa k) message).

Definition sig_to_bytes (s : HybridSignature) : list Z :=
  ed_sig_to_bytes (sig_ed25519 s) ++ ml_sig_encode (sig_mldsa s).

Definition sig_from_bytes (bytes : list Z) : option HybridSignature :=
  if negb (length bytes =? HYBRID_SIG_LEN)%nat then None else
  letO ed := slice 0 ED25519_SIG_LEN bytes in
  let ed25519 := ed_sig_from_bytes ed in
  letO ml := slice_from ED25519_SIG_LEN bytes in
  letO mldsa := ml_sig_try_from ml in
  Some (mk_signature ed25519 mldsa).

Definition hybrid_verify (k : HybridVerifier) (message : list Z) (s : HybridSignature) : bool :=
  ed_verify (vk_ed25519 k) message (sig_ed25519 s) && ml_verify (vk_mldsa k) message (sig_mldsa s).

Definition vk_encode (k : HybridVerifier) : list Z :=
  ed_vk_as_bytes (vk_ed25519 k) ++ ml_vk_encode (vk_mldsa k).

(** [EncodedVerifyingKey::try_from] only checks the length, which the first test fixes. *)
Definition vk_decode (bytes : list Z) : option HybridVerifier :=
  if negb (length bytes =? HYBRID_VK_LEN)%nat then None else
  letO ed := slice 0 ED25519_VK_LEN bytes in
  letO ed25519 := ed_vk_from_bytes ed in
  letO enc := slice_from ED25519_VK_LEN bytes in
  Some (mk_verifier ed25519 (ml_vk_decode enc)).

(** ** Lemmas *)

  Context `{!CryptoLaws}.

Lemma hash_labeled_length label data : length (hash_labeled label data) = 32%nat.
Proof. apply blake3_length. Qed.

Lemma hash_labeled_bytes label data : is_bytes (hash_labeled label data).
Proof. apply blake3_bytes. Qed.

Lemma sig_to_bytes_length s : length (sig_to_bytes s) = HYBRID_SIG_LEN.
Proof. unfold sig_to_bytes. by rewrite length_app, ed_sig_length, ml_sig_length. Qed.

Lemma sig_to_bytes_bytes s : is_bytes (sig_to_bytes s).
Proof. apply is_bytes_app. split; [apply ed_sig_bytes|apply ml_sig_bytes]. Qed.

Lemma sig_from_to s : sig_from_bytes (sig_to_bytes s) = Some s.
Proof.
  unfold sig_from_bytes. rewrite sig_to_bytes_length, Nat.eqb_refl. cbn [negb].
  unfold sig_to_bytes at 1. rewrite slice_prefix, ed_sig_roundtrip by apply ed_sig_length.
  unfold sig_to_bytes. rewrite slice_from_app, ml_sig_roundtrip by apply ed_sig_length. by destruct s.
Qed.

Lemma vk_encode_length k : length (vk_encode k) = HYBRID_VK_LEN.
Proof. unfold vk_encode. by rewrite length_app, ed_vk_length, ml_vk_length. Qed.

Lemma vk_encode_bytes k : is_bytes (vk_encode k).
Proof. apply is_bytes_app. split; [apply ed_vk_bytes|apply ml_vk_bytes]. Qed.

Lemma vk_decode_encode k : vk_decode (vk_encode k) = Some k.
Proof.
  unfold vk_decode. rewrite vk_encode_length, Nat.eqb_refl. cbn [negb].
  unfold vk_encode at 1. rewrite slice_prefix, ed_vk_roundtrip by apply ed_vk_length.
  unfold vk_encode. rewrite slice_from_app, ml_vk_roundtrip by apply ed_vk_length. by destruct k.
Qed.

(** ** Breaks of the hash among the messages hashed

    A hash with 32-byte outputs has collisions; what a design relies on is that none turns up among
    the finitely many messages that are hashed.  [broken_on hashed] says one did: two different
    messages of the list with one digest, or one with the zero digest that stands for "nothing
    committed".  It is decidable, and false of any list on which the hash is injective and never zero
    ([toy_hash_intact]).  A theorem that rests on the hash ends in "or [broken_on] of these messages",
    the messages being those its own run of the code hashes. *)
Definition broken_on (hashed : list (list Z)) : Prop :=
  Exists (fun m => blake3 m = replicate 32 0 \/ Exists (fun m' => m <> m' /\ blake3 m = blake3 m') hashed) hashed.

#[export] Instance broken_on_dec hashed : Decision (broken_on hashed).
Proof. unfold broken_on. apply _. Defined.

Lemma broken_on_iff hashed : broken_on hashed <->
  (exists m, m ∈ hashed /\ blake3 m = replicate 32 0) \/
  (exists m m', m ∈ hashed /\ m' ∈ hashed /\ m <> m' /\ blake3 m = blake3 m').
Proof.
  unfold broken_on. rewrite Exists_exists. split.
  - intros (m & Hm & [E|(m' & Hm' & Hn & E)%Exists_exists]); eauto 10.
  - intros [(m & Hm & E)|(m & m' & Hm & Hm' & Hn & E)]; exists m; (split; [done|]); [by left|].
    right. apply Exists_exists. eauto.
Qed.

Lemma intact_mono hashed hashed' : hashed ⊆ hashed' -> ~ broken_on hashed' -> ~ broken_on hashed.
Proof.
  rewrite !broken_on_iff. intros Hs Hb [(m & Hm & E)|(m & m' & Hm & Hm' & Hn & E)]; apply Hb; [left|right]; eauto 10.
Qed.

Lemma unless_broken hashed (P : Prop) : (~ broken_on hashed -> P) -> P \/ broken_on hashed.
Proof. destruct (decide (broken_on hashed)); auto. Qed.

Lemma hash_inj hashed m m' : ~ broken_on hashed -> m ∈ hashed -> m' ∈ hashed -> blake3 m = blake3 m' -> m = m'.
Proof. rewrite broken_on_iff. intros Hb Hm Hm' E. destruct (decide (m = m')); [done|]. destruct Hb. eauto 10. Qed.

Lemma hash_labeled_inj hashed label a b : ~ broken_on hashed ->
  labeled_hasher label a ∈ hashed -> labeled_hasher label b ∈ hashed ->
  hash_labeled label a = hash_labeled label b -> a = b.
Proof. intros Hb Ha Hb' E. apply (hash_inj hashed) in E; [|done..]. do 2 apply app_inv_head in E. done. Qed.

Lemma hash_labeled_nonzero hashed label a : ~ broken_on hashed -> labeled_hasher label a ∈ hashed ->
  hash_labeled label a <> replicate 32 0.
Proof. rewrite broken_on_iff. intros Hb Ha E. apply Hb. eauto. Qed.

Lemma hybrid_sign_verifies k m : hybrid_verify (verifier_of k) m (hybrid_sign k m) = true.
Proof. unfold hybrid_verify. simpl. by rewrite ed_sign_verifies, ml_sign_verifies. Qed.

End sig.

(** ** A concrete instance

    Small executable functions that satisfy [CryptoLaws]: a key is a bit, the Ed25519 signature of
    a message under it is the bit itself, and the digest of a message is its checksum followed by
    its length.  Witnesses evaluate the development at this instance. *)

Definition toy_blake3 (m : list Z) : list Z :=
  le_bytes 24 (fold_left (fun acc b => (acc * 257 + b) mod 2305843009213693951) m 1) ++
  le_bytes 8 (Z.of_nat (length m)).

Definition toy_bit (n : nat) (b : bool) : list Z := Z.b2z b :: replicate n 0.
Definition toy_unbit (l : list Z) : option bool :=
  match l with 0 :: _ => Some false | 1 :: _ => Some true | _ => None end.

Definition toy_crypto : Crypto := {|
  blake3 := toy_blake3;
  EdSigningKey := bool; EdVerifyingKey := bool; EdSignature := bool;
  MlSigningKey := unit; MlVerifyingKey := unit; MlSignature := unit;
  ed_verifying_key k := k;
  ed_sign k _ := k;
  ed_verify k _ s := eqb k s;
  ed_vk_as_bytes := toy_bit 31;
  ed_vk_from_bytes := toy_unbit;
  ed_sig_to_bytes := toy_bit 63;
  ed_sig_from_bytes l := default false (toy_unbit l);
  ml_verifying_key k := k;
  ml_sign _ _ := tt;
  ml_verify _ _ _ := true;
  ml_vk_encode _ := replicate 1952 0;
  ml_vk_decode _ := tt;
  ml_sig_encode _ := replicate 3309 0;
  ml_sig_try_from l := if (length l =? 3309)%nat then Some tt else None;
|}.

Lemma is_bytes_zeros n : is_bytes (replicate n 0).
Proof. apply Forall_replicate. by apply in_u_0. Qed.

Lemma is_bytes_toy_bit n b : is_bytes (toy_bit n b).
Proof. constructor; [by destruct b|apply is_bytes_zeros]. Qed.

Lemma toy_laws : @CryptoLaws toy_crypto.
Proof.
  split; cbn [toy_crypto blake3 ed_vk_as_bytes ed_vk_from_bytes ed_sig_to_bytes ed_sig_from_bytes
    ed_verify ed_verifying_key ed_sign ml_vk_encode ml_vk_decode ml_sig_encode ml_sig_try_from
    ml_verify ml_verifying_key ml_sign];
    intros; try apply length_replicate; try apply is_bytes_zeros; try apply is_bytes_toy_bit.
  - unfold toy_blake3. by rewrite length_app, !length_le_bytes.
  - apply is_bytes_app. split; apply is_bytes_le.
  - unfold toy_bit. cbn [length]. by rewrite length_replicate.
  - by destruct k.
  - unfold toy_bit. cbn [length]. by rewrite length_replicate.
  - by destruct s.
  - by destruct k.
  - by destruct k.
  - rewrite length_replicate. by destruct s.
  - done.
Qed.

(** Two names, a note tree's node and an opening hashed at the concrete instance: no collision. *)
Example toy_hash_intact : ~ @broken_on toy_crypto
  [labeled_hasher "a" [1]; labeled_hasher "a" [2]; labeled_hasher "b" [1]; labeled_hasher "node" (replicate 64 7)].
Proof. by_decide. Qed.
