(* ===== verification/Htlc.v ===== *)
(** * The hash time-locked contract

    [fanos-hermes/src/htlc.rs]: the terms and their bytes, the lifecycle state machine, and the
    snapshot bytes of a contract. *)
From S2P Require Import Prelude Codec Sig.
Local Open Scope Z_scope.

Module Htlc.

Definition TERMS_LEN : nat := 32 + 32 + 8 + 32 + 8.

Definition HASHLOCK_LABEL : string := "FANOS-hermes-v1/htlc-hashlock".

Definition hashlock `{Crypto} (preimage : list Z) : list Z := hash_labeled HASHLOCK_LABEL preimage.

Record HtlcTerms := mk_terms {
  sender : list Z;
  recipient : list Z;
  amount : Z;
  lock_hash : list Z;
  timeout : Z;
}.

Definition terms_to_bytes (t : HtlcTerms) : list Z :=
  sender t ++ recipient t ++ le_bytes 8 (amount t) ++ lock_hash t ++ le_bytes 8 (timeout t).

Definition terms_from_bytes (bytes : list Z) : option HtlcTerms :=
  if negb (length bytes =? TERMS_LEN)%nat then None else
  letO s := slice 0 32 bytes in
  letO r := slice 32 64 bytes in
  letO a := slice 64 72 bytes in
  letO h := slice 72 104 bytes in
  letO t := slice 104 112 bytes in
  Some (mk_terms s r (from_le a) h (from_le t)).

Inductive HtlcState := Locked | Claimed | Refunded.

#[global] Instance HtlcState_eq_dec : EqDecision HtlcState.
Proof. solve_decision. Defined.

Inductive Resolution := Pay (to : list Z) (amt : Z).

Record Htlc := mk_htlc { terms : HtlcTerms; state : HtlcState }.

Definition new (t : HtlcTerms) : Htlc := mk_htlc t Locked.

Definition state_code (s : HtlcState) : Z :=
  match s with Locked => 0 | Claimed => 1 | Refunded => 2 end.

Definition to_bytes (h : Htlc) : list Z := terms_to_bytes (terms h) ++ [state_code (state h)].

Definition from_bytes (bytes : list Z) : option Htlc :=
  let r := reader_new bytes in
  letO (tb, r) := rd_slice r TERMS_LEN in
  letO t := terms_from_bytes tb in
  letO (c, r) := rd_u8 r in
  letO s := (match c with 0 => Some Locked | 1 => Some Claimed | 2 => Some Refunded | _ => None end) in
  letO _ := rd_finish r in
  Some (mk_htlc t s).

(** [&mut self]: the contract after the call is returned with the resolution. *)
Definition claim `{Crypto} (h : Htlc) (preimage : list Z) (height : Z) : option Resolution * Htlc :=
  if bool_decide (state h <> Locked) || (timeout (terms h) <=? height)
     || bool_decide (hashlock preimage <> lock_hash (terms h))
  then (None, h)
  else (Some (Pay (recipient (terms h)) (amount (terms h))), mk_htlc (terms h) Claimed).

Definition refund (h : Htlc) (height : Z) : option Resolution * Htlc :=
  if bool_decide (state h <> Locked) || (height <? timeout (terms h))
  then (None, h)
  else (Some (Pay (sender (terms h)) (amount (terms h))), mk_htlc (terms h) Refunded).

(** ** Bytes *)

Definition is_digest (l : list Z) : Prop := length l = 32%nat /\ is_bytes l.

#[global] Instance is_digest_dec l : Decision (is_digest l).
Proof. unfold is_digest. apply _. Defined.

Definition terms_ok (t : HtlcTerms) : Prop :=
  is_digest (sender t) /\ is_digest (recipient t) /\ is_u64 (amount t) /\
  is_digest (lock_hash t) /\ is_u64 (timeout t).

#[global] Instance terms_ok_dec t : Decision (terms_ok t).
Proof. unfold terms_ok. apply _. Defined.

Lemma terms_to_bytes_length t : terms_ok t -> length (terms_to_bytes t) = TERMS_LEN.
Proof.
  intros ([H1 _] & [H2 _] & _ & [H3 _] & _). unfold terms_to_bytes.
  by rewrite !length_app, !length_le_bytes, H1, H2, H3.
Qed.

Lemma terms_to_bytes_bytes t : terms_ok t -> is_bytes (terms_to_bytes t).
Proof.
  intros ([_ H1] & [_ H2] & _ & [_ H3] & _). unfold terms_to_bytes. rewrite !is_bytes_app.
  repeat split; auto using is_bytes_le.
Qed.

Lemma terms_from_to t : terms_ok t -> terms_from_bytes (terms_to_bytes t) = Some t.
Proof.
  intros Ht. unfold terms_from_bytes. rewrite terms_to_bytes_length, Nat.eqb_refl by done.
  cbn [negb]. destruct t as [s r a h t]. destruct Ht as ([Hs _] & [Hr _] & Ha & [Hh _] & Ht).
  simpl in Hs, Hr, Ha, Hh, Ht. unfold terms_to_bytes. cbn [sender recipient amount lock_hash timeout].
  rewrite slice_prefix by done. rewrite slice_mid by (rewrite ?Hs, ?Hr; done).
  rewrite (app_assoc s), slice_mid by (rewrite ?length_app, ?length_le_bytes, ?Hs, ?Hr; done).
  rewrite (app_assoc (s ++ r)), slice_mid
    by (rewrite ?length_app, ?length_le_bytes, ?Hs, ?Hr, ?Hh; done).
  rewrite (app_assoc _ h), <- (app_nil_r (le_bytes 8 t)), slice_mid
    by (rewrite ?length_app, ?length_le_bytes, ?Hs, ?Hr, ?Hh; done).
  by rewrite !from_le_id.
Qed.

Lemma terms_to_from bytes t :
  is_bytes bytes -> terms_from_bytes bytes = Some t -> terms_ok t /\ terms_to_bytes t = bytes.
Proof.
  intros Hb. unfold terms_from_bytes. destruct (Nat.eqb_spec (length bytes) TERMS_LEN) as [El|]; [|done].
  cbn [negb]. change TERMS_LEN with 112%nat in El. rewrite !slice_Some by lia.
  intros [= <-]. unfold terms_ok, is_digest, terms_to_bytes.
  cbn [sender recipient amount lock_hash timeout].
  assert (Hl : forall a n, (a + n <= 112)%nat -> length (take n (drop a bytes)) = n)
    by (intros; rewrite length_take, length_drop; lia).
  assert (Hs : forall a n, is_bytes (take n (drop a bytes))) by (intros; by apply is_bytes_take, is_bytes_drop).
  split.
  - repeat split; try apply Hl; try apply Hs; try lia; pose proof (from_le_range _ (Hs 64 8)%nat);
      pose proof (from_le_range _ (Hs 104 8)%nat); rewrite Hl in * by lia; unfold in_u in *; simpl in *; lia.
  - rewrite !le_bytes_from_le_n by (try apply Hl; try apply Hs; lia).
    rewrite (take_ge (drop 104 bytes) 8) by (rewrite length_drop; lia).
    rewrite (take_drop_at _ 72 32 104), (take_drop_at _ 64 8 72), (take_drop_at _ 32 32 64) by done.
    by apply (take_drop_at bytes 0 32 32).
Qed.

Lemma state_code_range s : is_u8 (state_code s).
Proof. by destruct s. Qed.

Lemma htlc_from_to h : terms_ok (terms h) -> from_bytes (to_bytes h) = Some h.
Proof.
  intros Ht. unfold from_bytes.
  destruct (rd_new_ok (to_bytes h)) as [H0 R0]. unfold to_bytes in R0 at 2.
  destruct (rd_take_reads TERMS_LEN _ (terms_to_bytes_length _ Ht) _ _ H0 R0) as (r1 & E1 & R1 & H1).
  destruct (rd_u8_reads (state_code (state h)) r1 [] H1 R1) as (r2 & E2 & R2 & H2).
  unfold rd_slice. rewrite E1, terms_from_to by done. rewrite E2.
  apply (rd_finish_iff r2 H2) in R2. rewrite R2. by destruct h as [t []].
Qed.

Lemma to_from_bytes bytes h :
  is_bytes bytes -> from_bytes bytes = Some h -> terms_ok (terms h) /\ to_bytes h = bytes.
Proof.
  intros Hb E. unfold from_bytes in E. destruct (rd_new_ok bytes) as [H0 R0].
  destruct (rd_slice _ _) as [[tb r1]|] eqn:E1; [|done].
  apply rd_take_exact in E1 as (Hl & R1 & H1); [|done]. rewrite R0 in R1.
  destruct (terms_from_bytes tb) as [t|] eqn:Et; [|done].
  rewrite R1 in Hb. pose proof (proj1 (proj1 (is_bytes_app _ _) Hb)) as Htb.
  pose proof (proj2 (proj1 (is_bytes_app _ _) Hb)) as Hrest.
  apply terms_to_from in Et as [Hok Et]; [|done].
  destruct (rd_u8 r1) as [[c r2]|] eqn:E2; [|done].
  apply rd_u8_exact in E2 as (Hc & R2 & H2); [|done..].
  destruct (match c with 0 => _ | _ => _ end) as [s|] eqn:Es; [|done].
  destruct (rd_finish r2) as [[]|] eqn:Ef; [|done]. apply rd_finish_iff in Ef; [|done].
  injection E as <-. split; [done|]. unfold to_bytes. cbn [terms state].
  rewrite Et, R1, R2, Ef. f_equal. f_equal.
  destruct c as [|[[]|[]|]|]; try done; by injection Es as <-.
Qed.

(** A contract's snapshot bytes decode to it, and whatever bytes decode are exactly the bytes
    of the contract decoded, so the snapshot encoding is a bijection onto the well-formed
    contracts: truncated, over-long and unknown-state buffers are rejected. *)
Theorem htlc_bytes_canonical bytes h :
  is_bytes bytes -> terms_ok (terms h) -> from_bytes bytes = Some h <-> bytes = to_bytes h.
Proof.
  intros Hb Hh. split.
  - intros E. by apply to_from_bytes in E as [_ <-].
  - intros ->. by apply htlc_from_to.
Qed.

(** ** The lifecycle *)

Section lifecycle.
  Context `{Crypto}.

(** One call on a contract at some block height, and what it paid. *)
Inductive op := OpClaim (preimage : list Z) | OpRefund.

Definition run (h : Htlc) (o : op) (height : Z) : option Resolution * Htlc :=
  match o with OpClaim p => claim h p height | OpRefund => refund h height end.

(** A history of calls with the block height of each; the payments made, in order. *)
Fixpoint history (h : Htlc) (l : list (op * Z)) : list Resolution * Htlc :=
  match l with
  | [] => ([], h)
  | (o, height) :: l =>
      let '(r, h') := run h o height in
      let '(rs, h'') := history h' l in (option_list r ++ rs, h'')
  end.

(** The single transition of the lifecycle, as an abstract relation: from [Locked] to
    [Claimed] before the timeout against a preimage, or to [Refunded] from the timeout on. *)
Inductive resolves (t : HtlcTerms) : op * Z -> Resolution -> HtlcState -> Prop :=
| resolves_claim p height :
    height < timeout t -> hashlock p = lock_hash t ->
    resolves t (OpClaim p, height) (Pay (recipient t) (amount t)) Claimed
| resolves_refund height :
    timeout t <= height ->
    resolves t (OpRefund, height) (Pay (sender t) (amount t)) Refunded.

Lemma run_locked h o height :
  match run h o height with
  | (Some r, h') => state h = Locked /\ terms h' = terms h /\ resolves (terms h) (o, height) r (state h')
  | (None, h') => h' = h /\ (state h = Locked -> forall r s, ~ resolves (terms h) (o, height) r s)
  end.
Proof.
  destruct o as [p|]; simpl; unfold claim, refund;
    match goal with |- context [if ?b then _ else _] => destruct b eqn:E end.
  - split; [done|]. intros Hs r s Hr. inversion Hr; subst.
    rewrite !orb_true_iff, Z.leb_le, !bool_decide_eq_true in E. naive_solver lia.
  - rewrite !orb_false_iff, Z.leb_gt, !bool_decide_eq_false in E. destruct E as [[E1 E2] E3].
    apply dec_stable in E1, E3. by repeat constructor.
  - split; [done|]. intros Hs r s Hr. inversion Hr; subst.
    rewrite !orb_true_iff, Z.ltb_lt, !bool_decide_eq_true in E. naive_solver lia.
  - rewrite !orb_false_iff, Z.ltb_ge, !bool_decide_eq_false in E. destruct E as [E1 E2].
    apply dec_stable in E1. by repeat constructor.
Qed.

Lemma history_resolved h l : state h <> Locked -> history h l = ([], h).
Proof.
  intros Hs. induction l as [|[o height] l IH]; [done|]. simpl.
  pose proof (run_locked h o height) as Hr. destruct (run h o height) as [[r|] h'].
  - by destruct Hr.
  - destruct Hr as [-> _]. by rewrite IH.
Qed.

(** Whatever sequence of claims and refunds arrives, at whatever heights, a fresh contract pays
    at most once.  If it paid, the payment is that of the first call the lifecycle admits: to the
    recipient for a matching preimage strictly before the timeout, or to the sender at or after
    it; every earlier call was inadmissible and every later one pays nothing.  If it did not pay,
    no call was admissible and the contract is still locked, unchanged. *)
Theorem htlc_pays_exactly_once t l :
  match history (new t) l with
  | ([], h) => h = new t /\ Forall (fun c => forall r s, ~ resolves t c r s) l
  | ([r], h) => exists l1 c l2, l = l1 ++ c :: l2 /\ resolves t c r (state h) /\ terms h = t /\
                  Forall (fun c => forall r s, ~ resolves t c r s) l1
  | _ => False
  end.
Proof.
  induction l as [|[o height] l IH]; [by split|]. cbn [history].
  pose proof (run_locked (new t) o height) as Hr. destruct (run (new t) o height) as [[r|] h'] eqn:E.
  - destruct Hr as (_ & Ht & Hres). rewrite history_resolved by (inversion Hres; congruence).
    simpl. exists [], (o, height), l. by repeat split.
  - destruct Hr as [-> Hno]. destruct (history (new t) l) as [[|r [|]] h]; simpl in *; [| |done].
    + destruct IH as [-> HF]. split; [done|]. constructor; [by apply Hno|done].
    + destruct IH as (l1 & c & l2 & -> & Hres & Ht & HF). exists ((o, height) :: l1), c, l2.
      repeat split; [done..|]. constructor; [by apply Hno|done].
Qed.

End lifecycle.

(** Witnesses at a concrete contract. *)
Definition sample_terms : HtlcTerms :=
  mk_terms (replicate 32 0xA1) (replicate 32 0xB0) 500 (replicate 32 7) 100.

Lemma htlc_bytes_canonical_witness :
  from_bytes (to_bytes (new sample_terms)) = Some (new sample_terms).
Proof.
  apply (htlc_bytes_canonical (to_bytes (new sample_terms)) (new sample_terms));
    [by_decide|by_decide|reflexivity].
Defined.

End Htlc.
