(* ===== verification/Sums.v ===== *)
(** * Sums over finite maps

    The value totals the ledgers are about ([BTreeMap::values().sum()]): how a sum changes under
    insertion, deletion and in-place update of one entry, and its saturating variant. *)
From S2P Require Import Prelude Codec.
Local Open Scope Z_scope.

(** [msum f m] adds [f v] over the entries of [m]. *)
Definition msum {V} (f : V -> Z) (m : btree V) : Z := map_fold (fun _ v acc => f v + acc) 0 m.

Section msum.
  Context {V : Type} (f : V -> Z).
  Implicit Types m : btree V.

Lemma msum_empty : msum f ∅ = 0.
Proof. apply map_fold_empty. Qed.

Lemma msum_insert_new m k v : m !! k = None -> msum f (<[k := v]> m) = f v + msum f m.
Proof.
  intros. unfold msum. rewrite map_fold_insert_L; [done| |done]. intros. lia.
Qed.

Lemma msum_delete m k v : m !! k = Some v -> msum f (delete k m) = msum f m - f v.
Proof.
  intros Hk. rewrite <- (insert_delete_id m k v Hk) at 2.
  rewrite msum_insert_new by apply lookup_delete_eq. lia.
Qed.

Lemma msum_insert m k v :
  msum f (<[k := v]> m) = msum f m - default 0 (f <$> m !! k) + f v.
Proof.
  destruct (m !! k) as [w|] eqn:E; simpl.
  - rewrite <- insert_delete_eq, msum_insert_new by apply lookup_delete_eq.
    rewrite (msum_delete m k w E). lia.
  - rewrite msum_insert_new by done. lia.
Qed.

Lemma msum_nonneg m : (forall k v, m !! k = Some v -> 0 <= f v) -> 0 <= msum f m.
Proof.
  induction m as [|k v m Hk IH] using map_ind; intros Hm; [by rewrite msum_empty|].
  rewrite msum_insert_new by done. assert (0 <= f v) by (apply (Hm k); by rewrite lookup_insert_eq).
  assert (0 <= msum f m); [|lia]. apply IH. intros k' v' Hk'. apply (Hm k').
  rewrite lookup_insert_ne; [done|congruence].
Qed.

(** One entry is at most the sum of the entries. *)
Lemma msum_le m k v :
  (forall k v, m !! k = Some v -> 0 <= f v) -> m !! k = Some v -> f v <= msum f m.
Proof.
  intros Hm Hk. rewrite <- (insert_delete_id m k v Hk), msum_insert_new by apply lookup_delete_eq.
  assert (0 <= msum f (delete k m)); [|lia]. apply msum_nonneg. intros k' v'.
  rewrite lookup_delete_Some. intros [_ ?]. eauto.
Qed.

(** Two different entries together are at most the sum. *)
Lemma msum_le2 m k v k' v' :
  (forall k v, m !! k = Some v -> 0 <= f v) -> k <> k' -> m !! k = Some v -> m !! k' = Some v' ->
  f v + f v' <= msum f m.
Proof.
  intros Hm Hne Hk Hk'. rewrite <- (insert_delete_id m k v Hk), msum_insert_new by apply lookup_delete_eq.
  assert (f v' <= msum f (delete k m)); [|lia]. apply (msum_le _ k').
  - intros ? ?. rewrite lookup_delete_Some. intros [_ ?]. eauto.
  - by rewrite lookup_delete_ne.
Qed.

Lemma msum_list m : msum f m = foldr (fun e acc => f (snd e) + acc) 0 (map_to_list m).
Proof.
  unfold msum. rewrite map_fold_foldr. induction (map_to_list m) as [|[k v] l IH]; [done|].
  simpl. by rewrite IH.
Qed.

End msum.

(** ** Saturating accumulation

    [iter.fold(0u64, |acc, v| acc.saturating_add(v))]. *)

Definition sat_sum (w : Z) (l : list Z) : Z := fold_left (sat_add w) l 0.

Lemma sat_sum_exact_from w l acc :
  0 <= acc -> Forall (fun v => 0 <= v) l -> acc + foldr Z.add 0 l < 2 ^ w ->
  fold_left (sat_add w) l acc = acc + foldr Z.add 0 l.
Proof.
  revert acc. induction l as [|v l IH]; intros acc H0 HF Hlt; simpl in *; [lia|].
  apply Forall_cons in HF as [Hv HF].
  assert (0 <= foldr Z.add 0 l).
  { clear -HF. induction HF; simpl; lia. }
  assert (E : sat_add w acc v = acc + v) by (unfold sat_add; lia).
  rewrite E, IH by (done || lia). lia.
Qed.

Lemma sat_sum_exact w l :
  Forall (fun v => 0 <= v) l -> foldr Z.add 0 l < 2 ^ w -> sat_sum w l = foldr Z.add 0 l.
Proof. intros. unfold sat_sum. rewrite sat_sum_exact_from; [lia|done..]. Qed.

Lemma foldr_add_perm l1 l2 : l1 ≡ₚ l2 -> foldr Z.add 0 l1 = foldr Z.add 0 l2.
Proof. induction 1; simpl; lia. Qed.

(** The saturating total of a map's values, taken in key order, is the exact sum when that fits. *)
Lemma sat_sum_btree {V} w (f : V -> Z) (m : btree V) :
  (forall k v, m !! k = Some v -> 0 <= f v) -> msum f m < 2 ^ w ->
  sat_sum w ((fun e => f (snd e)) <$> btree_list m) = msum f m.
Proof.
  intros Hm Hlt.
  assert (E : foldr Z.add 0 ((fun e => f (snd e)) <$> btree_list m) = msum f m).
  { rewrite msum_list.
    transitivity (foldr Z.add 0 ((fun e : list Z * V => f (snd e)) <$> map_to_list m)).
    - apply foldr_add_perm. by rewrite btree_list_perm.
    - induction (map_to_list m) as [|[k v] l IH]; [done|]. csimpl. by rewrite IH. }
  rewrite sat_sum_exact; [done| |by rewrite E].
  apply Forall_fmap, Forall_forall. intros [k v] He%btree_list_elem. simpl. eauto.
Qed.

(** The sum of [f] over a list of entries in any order. *)
Lemma msum_btree_list {V} (f : V -> Z) (m : btree V) :
  foldr (fun e acc => f (snd e) + acc) 0 (btree_list m) = msum f m.
Proof.
  rewrite msum_list. generalize (btree_list_perm m). generalize (btree_list m) as l1. generalize (map_to_list m) as l2.
  intros l2 l1 Hp. induction Hp; simpl; lia.
Qed.

(** Values that do not count are zero in the sum; the saturating total over those that do. *)
Definition counted {V} (P : V -> Prop) `{!forall v, Decision (P v)} (f : V -> Z) (v : V) : Z := if decide (P v) then f v else 0.

Lemma sat_sum_filtered {V} w (P : V -> Prop) `{!forall v, Decision (P v)} (f : V -> Z) (m : btree V) :
  (forall k v, m !! k = Some v -> P v -> 0 <= f v) -> msum (counted P f) m < 2 ^ w ->
  sat_sum w ((fun e => f (snd e)) <$> filter (fun e => P (snd e)) (btree_list m)) = msum (counted P f) m.
Proof.
  intros Hm Hlt.
  assert (E : foldr Z.add 0 ((fun e => f (snd e)) <$> filter (fun e : list Z * V => P (snd e)) (btree_list m)) = msum (counted P f) m).
  { rewrite <- msum_btree_list. induction (btree_list m) as [|e l IH]; [done|]. rewrite filter_cons. cbn [foldr].
    unfold counted at 1. case_decide; csimpl; rewrite IH; lia. }
  rewrite sat_sum_exact; [done| |by rewrite E].
  apply Forall_fmap, Forall_forall. intros [k v] [HP He%btree_list_elem]%list_elem_of_filter. by eapply Hm.
Qed.

Lemma msum_filter {V} (P : V -> Prop) `{!forall v, Decision (P v)} (f : V -> Z) (m : btree V) :
  (forall k v, m !! k = Some v -> ~ P v -> f v = 0) -> msum f (filter (fun e => P (snd e)) m) = msum f m.
Proof.
  induction m as [|k v m Hk IH] using map_ind; intros Hz; [by rewrite map_filter_empty|].
  assert (IH' : msum f (filter (fun e => P (snd e)) m) = msum f m).
  { apply IH. intros k' v' Hk'. apply (Hz k'). rewrite lookup_insert_ne; [done|]. intros ->. congruence. }
  destruct (decide (P v)) as [HP|HP].
  - rewrite map_filter_insert_True by done. rewrite !msum_insert_new, IH' by (try apply map_lookup_filter_None; auto). done.
  - rewrite map_filter_insert_False, delete_id by done. rewrite IH', msum_insert_new by done.
    rewrite (Hz k v) by (done || by rewrite lookup_insert_eq). lia.
Qed.

Lemma msum_fmap {V} (f : V -> Z) (g : V -> V) (m : btree V) : msum f (g <$> m) = msum (fun v => f (g v)) m.
Proof.
  induction m as [|k v m Hk IH] using map_ind; [by rewrite fmap_empty, !msum_empty|].
  rewrite fmap_insert, !msum_insert_new, IH by (rewrite ?lookup_fmap, ?Hk; done). done.
Qed.

Lemma msum_diff {V} (f g h : V -> Z) (m : btree V) : (forall k v, m !! k = Some v -> f v = g v - h v) ->
  msum f m = msum g m - msum h m.
Proof.
  induction m as [|k v m Hk IH] using map_ind; intros Hd; [by rewrite !msum_empty|].
  rewrite !msum_insert_new by done. rewrite IH.
  - rewrite (Hd k v) by (by rewrite lookup_insert_eq). lia.
  - intros k' v' Hk'. apply (Hd k'). rewrite lookup_insert_ne; [done|]. intros ->. congruence.
Qed.
