(* ===== verification/Token.v ===== *)
(** * The authenticated token ledger

    [fanos-dromos/src/token.rs]: signed transfers and their bytes, the authorisation of a storage
    audit, the balance/nonce ledger with every operation that changes it, its state root and its
    snapshot bytes. *)
From S2P Require Import Prelude Codec Sig Sums.
Local Open Scope Z_scope.

Module Token.

Definition ACCOUNT_LABEL : string := "FANOS-dromos-v1/account-id".
Definition TRANSFER_LABEL : string := "FANOS-dromos-v1/transfer".
Definition ROOT_LABEL : string := "FANOS-dromos-v1/token-root".
Definition PROVER_AUTH_LABEL : string := "FANOS-v1/dromos-prover-auth".

Record Transfer := mk_transfer {
  t_from : list Z;
  t_to : list Z;
  t_amount : Z;
  t_nonce : Z;
}.

Definition signable (t : Transfer) : list Z :=
  ascii_bytes TRANSFER_LABEL ++ t_from t ++ t_to t ++ le_bytes 8 (t_amount t) ++ le_bytes 8 (t_nonce t).

Inductive TokenError := Unauthorized | BadNonce | NonceAhead | InsufficientFunds.

Definition WIRE_LEN : nat := 80 + HYBRID_VK_LEN + HYBRID_SIG_LEN.

(** ** Signed transfers *)

Section signed.
  Context `{Crypto}.

Definition account_id (verifier : HybridVerifier) : list Z :=
  hash_labeled ACCOUNT_LABEL (vk_encode verifier).

Record SignedTransfer := mk_signed {
  transfer : Transfer;
  from_key : HybridVerifier;
  sig : list Z;
}.

Definition sign (t : Transfer) (signer : HybridSigSecret) (key : HybridVerifier) : SignedTransfer :=
  mk_signed t key (sig_to_bytes (hybrid_sign signer (signable t))).

Definition verify (st : SignedTransfer) : bool :=
  if bool_decide (account_id (from_key st) <> t_from (transfer st)) then false else
  match sig_from_bytes (sig st) with
  | None => false
  | Some s => hybrid_verify (from_key st) (signable (transfer st)) s
  end.

Definition st_to_bytes (st : SignedTransfer) : list Z :=
  t_from (transfer st) ++ t_to (transfer st) ++ le_bytes 8 (t_amount (transfer st)) ++
  le_bytes 8 (t_nonce (transfer st)) ++ vk_encode (from_key st) ++ sig st.

Definition st_from_bytes (bytes : list Z) : option SignedTransfer :=
  if negb (length bytes =? 80 + HYBRID_VK_LEN + HYBRID_SIG_LEN)%nat then None else
  letO from := slice 0 32 bytes in
  letO to := slice 32 64 bytes in
  letO amount := slice 64 72 bytes in
  letO nonce := slice 72 80 bytes in
  letO kb := slice 80 (80 + HYBRID_VK_LEN) bytes in
  letO key := vk_decode kb in
  letO sg := slice_from (80 + HYBRID_VK_LEN) bytes in
  Some (mk_signed (mk_transfer from to (from_le amount) (from_le nonce)) key sg).

(** ** Audit authorisations *)

Record ProverAuth := mk_auth { provider_key : HybridVerifier; auth_sig : list Z }.

Definition AUTH_WIRE_LEN : nat := HYBRID_VK_LEN + HYBRID_SIG_LEN.

Definition challenge (deal_id response : list Z) : list Z :=
  let response_hash := hash_labeled PROVER_AUTH_LABEL response in
  ascii_bytes PROVER_AUTH_LABEL ++ deal_id ++ response_hash.

Definition auth_sign (deal_id response : list Z) (signer : HybridSigSecret) (key : HybridVerifier) :
    ProverAuth :=
  mk_auth key (sig_to_bytes (hybrid_sign signer (challenge deal_id response))).

Definition auth_verify (a : ProverAuth) (deal_id response provider : list Z) : bool :=
  if bool_decide (account_id (provider_key a) <> provider) then false else
  match sig_from_bytes (auth_sig a) with
  | None => false
  | Some s => hybrid_verify (provider_key a) (challenge deal_id response) s
  end.

Definition auth_to_bytes (a : ProverAuth) : list Z := vk_encode (provider_key a) ++ auth_sig a.

Definition auth_from_bytes (bytes : list Z) : option ProverAuth :=
  if negb (length bytes =? AUTH_WIRE_LEN)%nat then None else
  letO kb := slice 0 HYBRID_VK_LEN bytes in
  letO key := vk_decode kb in
  letO sg := slice_from HYBRID_VK_LEN bytes in
  Some (mk_auth key sg).

End signed.

(** ** The ledger *)

Record TokenLedger := mk_ledger { balances : btree Z; nonces : btree Z }.

#[global] Instance TokenLedger_eq_dec : EqDecision TokenLedger.
Proof. solve_decision. Defined.

Definition new : TokenLedger := mk_ledger ∅ ∅.

Definition credit (l : TokenLedger) (account : list Z) (amount : Z) : TokenLedger :=
  let bal := default 0 (balances l !! account) in
  mk_ledger (<[account := sat_add 64 bal amount]> (balances l)) (nonces l).

Definition balance (l : TokenLedger) (account : list Z) : Z := default 0 (balances l !! account).
Definition nonce (l : TokenLedger) (account : list Z) : Z := default 0 (nonces l !! account).

(** [if let Some(bal) = self.balances.get_mut(from) { *bal -= amount; }]. *)
Definition debit (l : TokenLedger) (from : list Z) (amount : Z) : TokenLedger :=
  match balances l !! from with
  | Some bal => mk_ledger (<[from := w64 (bal - amount)]> (balances l)) (nonces l)
  | None => l
  end.

(** [*self.nonces.entry(account).or_insert(0) += 1]. *)
Definition bump_nonce (l : TokenLedger) (account : list Z) : TokenLedger :=
  mk_ledger (balances l) (<[account := w64 (nonce l account + 1)]> (nonces l)).

Definition set_balance (l : TokenLedger) (account : list Z) (amount : Z) : TokenLedger :=
  mk_ledger (<[account := amount]> (balances l)) (nonces l).

Definition move_system (l : TokenLedger) (from to : list Z) (amount : Z) : bool * TokenLedger :=
  if balance l from <? amount then (false, l)
  else (true, credit (debit l from amount) to amount).

Definition consume_nonce (l : TokenLedger) (account : list Z) (n : Z) : bool * TokenLedger :=
  if negb (nonce l account =? n) then (false, l) else (true, bump_nonce l account).

Definition accounts (l : TokenLedger) : bset := dom (balances l) ∪ dom (nonces l).

Definition record_bytes (l : TokenLedger) (a : list Z) : list Z :=
  a ++ le_bytes 8 (balance l a) ++ le_bytes 8 (nonce l a).

(** The buffer [state_root] hashes. *)
Definition root_preimage (l : TokenLedger) : list Z :=
  concat (record_bytes l <$> bset_list (accounts l)).

Definition to_bytes (l : TokenLedger) : list Z :=
  le_bytes 4 (w32 (Z.of_nat (size (accounts l)))) ++ concat (record_bytes l <$> bset_list (accounts l)).

Fixpoint read_accounts (bytes : list Z) (count off : nat) (l : TokenLedger) : option (TokenLedger * nat) :=
  match count with
  | O => Some (l, off)
  | S count =>
      letO account := slice off (off + 32) bytes in
      letO b := slice (off + 32) (off + 40) bytes in
      letO n := slice (off + 40) (off + 48) bytes in
      let bal := from_le b in
      let non := from_le n in
      let l := if 0 <? bal then mk_ledger (<[account := bal]> (balances l)) (nonces l) else l in
      let l := if 0 <? non then mk_ledger (balances l) (<[account := non]> (nonces l)) else l in
      read_accounts bytes count (off + 48) l
  end.

Definition from_bytes (bytes : list Z) : option TokenLedger :=
  letO c := slice 0 4 bytes in
  let count := from_le c in
  if Z.of_nat ((length bytes - 4) / 48) <? count then None else
  letO (l, off) := read_accounts bytes (Z.to_nat count) 4 new in
  if (off =? length bytes)%nat then Some l else None.

Section apply.
  Context `{Crypto}.

Definition state_root (l : TokenLedger) : list Z := hash_labeled ROOT_LABEL (root_preimage l).

Definition apply_with_verdict (l : TokenLedger) (st : SignedTransfer) (sig_ok : bool) :
    result unit TokenError * TokenLedger :=
  if negb sig_ok then (Err Unauthorized, l) else
  let t := transfer st in
  let expected := nonce l (t_from t) in
  if expected <? t_nonce t then (Err NonceAhead, l) else
  if negb (t_nonce t =? expected) then (Err BadNonce, l) else
  if balance l (t_from t) <? t_amount t then (Err InsufficientFunds, l) else
  let l := debit l (t_from t) (t_amount t) in
  let l := credit l (t_to t) (t_amount t) in
  (Ok tt, bump_nonce l (t_from t)).

Definition apply (l : TokenLedger) (st : SignedTransfer) : result unit TokenError * TokenLedger :=
  apply_with_verdict l st (verify st).

Definition is_premature (l : TokenLedger) (st : SignedTransfer) : bool :=
  nonce l (t_from (transfer st)) <? t_nonce (transfer st).

End apply.

(** ** The invariant

    Every stored value is a [u64] and the supply fits a [u64], so no credit saturates. *)

Definition values_ok (m : btree Z) : Prop := map_Forall (fun _ v => is_u64 v) m.
Definition total (l : TokenLedger) : Z := msum id (balances l).
Definition ledger_ok (l : TokenLedger) : Prop :=
  values_ok (balances l) /\ values_ok (nonces l) /\ total l < 2 ^ 64.

#[global] Instance ledger_ok_dec l : Decision (ledger_ok l).
Proof. unfold ledger_ok, values_ok. apply _. Defined.

(** The change of one account's entry: [x] at [a], nothing elsewhere. *)
Definition delta (a : list Z) (x : Z) (b : list Z) : Z := if decide (b = a) then x else 0.

Lemma values_ok_nonneg m : values_ok m -> forall k v, m !! k = Some v -> 0 <= v.
Proof. intros Hm k v Hk. by apply (Hm k v) in Hk as [? _]. Qed.

Lemma default_range m a : values_ok m -> is_u64 (default 0 (m !! a)).
Proof. intros Hm. destruct (m !! a) eqn:E; simpl; [by apply (Hm a)|done]. Qed.

Lemma balance_range l a : ledger_ok l -> is_u64 (balance l a).
Proof. intros [Hb _]. by apply default_range. Qed.

Lemma nonce_range l a : ledger_ok l -> is_u64 (nonce l a).
Proof. intros (_ & Hn & _). by apply default_range. Qed.

Lemma balance_le_total l a : ledger_ok l -> balance l a <= total l.
Proof.
  intros (Hb & _ & _). unfold balance, total. destruct (balances l !! a) eqn:E; simpl.
  - by apply (msum_le id _ a); [apply values_ok_nonneg|].
  - apply msum_nonneg. by apply values_ok_nonneg.
Qed.

Lemma balance_insert m n a x b :
  balance (mk_ledger (<[a := x]> m) n) b = if decide (b = a) then x else default 0 (m !! b).
Proof.
  unfold balance. simpl. case_decide; subst; [by rewrite lookup_insert_eq|].
  by rewrite lookup_insert_ne.
Qed.

Lemma total_insert m n a x :
  total (mk_ledger (<[a := x]> m) n) = msum id m - default 0 (m !! a) + x.
Proof.
  unfold total. simpl. rewrite msum_insert. by destruct (m !! a).
Qed.

(** A credit that does not saturate adds exactly its amount to one balance and to the total. *)
Lemma credit_exact l a x :
  ledger_ok l -> 0 <= x -> total l + x < 2 ^ 64 ->
  ledger_ok (credit l a x) /\ total (credit l a x) = total l + x /\
  (forall b, balance (credit l a x) b = balance l b + delta a x b) /\ nonces (credit l a x) = nonces l.
Proof.
  intros Hok Hx Hlt. pose proof (balance_le_total l a Hok) as Hle.
  pose proof (balance_range l a Hok) as [H0 _]. unfold credit. fold (balance l a).
  assert (E : sat_add 64 (balance l a) x = balance l a + x) by (unfold sat_add; lia). rewrite E.
  assert (Ht : total (mk_ledger (<[a := balance l a + x]> (balances l)) (nonces l)) = total l + x).
  { rewrite total_insert. fold (balance l a). unfold total. lia. }
  destruct Hok as (Hb & Hn & _). split; [split; [|split]|split; [|split]]; simpl.
  - apply map_Forall_insert_2; [unfold in_u; lia|done].
  - done.
  - lia.
  - done.
  - intros b. rewrite balance_insert. unfold delta. case_decide; subst; [done|unfold balance; lia].
  - done.
Qed.

Lemma debit_exact l a x :
  ledger_ok l -> 0 <= x <= balance l a ->
  ledger_ok (debit l a x) /\ total (debit l a x) = total l - x /\
  (forall b, balance (debit l a x) b = balance l b - delta a x b) /\ nonces (debit l a x) = nonces l.
Proof.
  intros Hok Hx. pose proof (balance_range l a Hok) as Hr. unfold debit. unfold balance in Hx, Hr.
  destruct (balances l !! a) as [v|] eqn:E; simpl in Hx, Hr.
  - assert (Hw : w64 (v - x) = v - x) by (apply wrap_small; unfold in_u in *; lia). rewrite Hw.
    assert (Ht : total (mk_ledger (<[a := v - x]> (balances l)) (nonces l)) = total l - x).
    { rewrite total_insert, E. unfold total. simpl. lia. }
    destruct Hok as (Hb & Hn & Hlt). split; [split; [|split]|split; [|split]]; simpl; try done.
    + apply map_Forall_insert_2; [unfold in_u in *; lia|done].
    + lia.
    + intros b. rewrite balance_insert. unfold delta, balance. case_decide; subst; [|lia].
      by rewrite E.
  - assert (x = 0) as -> by lia. split; [done|]. split; [lia|]. split; [|done].
    intros b. unfold delta. case_decide; lia.
Qed.

(** Moving value between two accounts, the same or different: the total is conserved, the two
    balances change by exactly the amount, and nothing else moves. *)
Lemma move_exact l from to x :
  ledger_ok l -> 0 <= x <= balance l from ->
  let l' := credit (debit l from x) to x in
  ledger_ok l' /\ total l' = total l /\
  (forall b, balance l' b = balance l b - delta from x b + delta to x b) /\ nonces l' = nonces l.
Proof.
  intros Hok Hx l'. destruct (debit_exact l from x Hok Hx) as (Hok1 & Ht1 & Hb1 & Hn1).
  destruct (credit_exact (debit l from x) to x Hok1) as (Hok2 & Ht2 & Hb2 & Hn2);
    [lia|rewrite Ht1; destruct Hok as (_ & _ & ?); lia|].
  unfold l'. split; [done|]. split; [lia|]. split; [|congruence].
  intros b. rewrite Hb2, Hb1. lia.
Qed.

Lemma bump_nonce_exact l a :
  ledger_ok l ->
  ledger_ok (bump_nonce l a) /\ total (bump_nonce l a) = total l /\
  (forall b, balance (bump_nonce l a) b = balance l b) /\
  (forall b, nonce (bump_nonce l a) b = if decide (b = a) then w64 (nonce l a + 1) else nonce l b).
Proof.
  intros (Hb & Hn & Ht). split; [split; [done|split; [|done]]|split; [done|split; [done|]]].
  - apply map_Forall_insert_2; [by apply wrap_range|done].
  - intros b. unfold bump_nonce, nonce at 1. simpl. case_decide; subst; [by rewrite lookup_insert_eq|].
    by rewrite lookup_insert_ne.
Qed.

Lemma nonce_same l l' : nonces l' = nonces l -> forall b, nonce l' b = nonce l b.
Proof. unfold nonce. by intros ->. Qed.

(** ** Settlement *)

Definition transfer_ok (t : Transfer) : Prop := is_u64 (t_amount t) /\ is_u64 (t_nonce t).

#[global] Instance transfer_ok_dec t : Decision (transfer_ok t).
Proof. unfold transfer_ok. apply _. Defined.

Section settle.
  Context `{Crypto}.

(** The abstract meaning of a transfer on (balance, nonce) functions. *)
Definition settles (t : Transfer) (l l' : TokenLedger) : Prop :=
  t_nonce t = nonce l (t_from t) /\ t_amount t <= balance l (t_from t) /\
  (forall b, balance l' b = balance l b - delta (t_from t) (t_amount t) b + delta (t_to t) (t_amount t) b) /\
  (forall b, nonce l' b = if decide (b = t_from t) then w64 (nonce l b + 1) else nonce l b).

Lemma apply_settles l st :
  ledger_ok l -> transfer_ok (transfer st) ->
  match apply l st with
  | (Ok _, l') => verify st = true /\ settles (transfer st) l l' /\ ledger_ok l' /\ total l' = total l
  | (Err e, l') => l' = l
  end.
Proof.
  intros Hok [Ha Hn]. unfold apply, apply_with_verdict.
  destruct (verify st); simpl; [|done].
  destruct (Z.ltb_spec (nonce l (t_from (transfer st))) (t_nonce (transfer st))); [done|].
  destruct (Z.eqb_spec (t_nonce (transfer st)) (nonce l (t_from (transfer st)))) as [En|]; simpl; [|done].
  destruct (Z.ltb_spec (balance l (t_from (transfer st))) (t_amount (transfer st))); [done|].
  set (t := transfer st) in *.
  destruct (move_exact l (t_from t) (t_to t) (t_amount t) Hok ltac:(unfold in_u in *; lia))
    as (Hok1 & Ht1 & Hb1 & Hn1).
  destruct (bump_nonce_exact _ (t_from t) Hok1) as (Hok2 & Ht2 & Hb2 & Hn2).
  split; [done|]. split; [|split; [done|congruence]].
  repeat split; [done|done| |]; intros b.
  - rewrite Hb2. apply Hb1.
  - rewrite Hn2, !(nonce_same _ _ Hn1). by case_decide; subst.
Qed.

(** C27: settling a signed transfer is exact and atomic.  With a supply that fits a [u64], it succeeds
    exactly when the key hashes to the sending account and the signature verifies, the nonce is
    the sender's next one and the balance covers the amount; then the sender and the recipient
    (also when they are the same account) change by exactly the amount, the sender's nonce
    advances by one, no other account changes and the total supply is conserved.  Otherwise the
    ledger is untouched and the error is the first of: unauthorised, nonce ahead (retryable),
    nonce behind (replay), insufficient funds. *)
Theorem apply_is_exact_and_atomic l st :
  ledger_ok l -> transfer_ok (transfer st) ->
  let t := transfer st in
  match apply l st with
  | (Ok _, l') =>
      verify st = true /\ settles t l l' /\ ledger_ok l' /\ total l' = total l
  | (Err e, l') =>
      l' = l /\
      match e with
      | Unauthorized => verify st = false
      | NonceAhead => verify st = true /\ is_premature l st = true
      | BadNonce => verify st = true /\ t_nonce t < nonce l (t_from t)
      | InsufficientFunds =>
          verify st = true /\ t_nonce t = nonce l (t_from t) /\ balance l (t_from t) < t_amount t
      end
  end.
Proof.
  intros Hok Ht t. pose proof (apply_settles l st Hok Ht) as Hs.
  destruct (apply l st) as [[u|e] l'] eqn:E; [done|]. split; [done|].
  unfold apply, apply_with_verdict, is_premature in *. fold t in E |- *.
  destruct (verify st); simpl in E; [|by injection E as <- _].
  destruct (Z.ltb_spec (nonce l (t_from t)) (t_nonce t)); [by injection E as <- _|].
  destruct (Z.eqb_spec (t_nonce t) (nonce l (t_from t))); simpl in E; [|injection E as <- _; split; [done|lia]].
  destruct (Z.ltb_spec (balance l (t_from t)) (t_amount t)); [by injection E as <- _|done].
Qed.

(** ** Histories *)

(** Every operation that changes a ledger. *)
Inductive op :=
| OpApply (st : SignedTransfer)
| OpCredit (account : list Z) (amount : Z)
| OpMoveSystem (from to : list Z) (amount : Z)
| OpConsumeNonce (account : list Z) (n : Z)
| OpBumpNonce (account : list Z)
| OpSetBalance (account : list Z) (amount : Z).

Definition step (l : TokenLedger) (o : op) : TokenLedger :=
  match o with
  | OpApply st => snd (apply l st)
  | OpCredit a x => credit l a x
  | OpMoveSystem f t x => snd (move_system l f t x)
  | OpConsumeNonce a n => snd (consume_nonce l a n)
  | OpBumpNonce a => bump_nonce l a
  | OpSetBalance a x => set_balance l a x
  end.

Definition run (l : TokenLedger) (ops : list op) : TokenLedger := fold_left step ops l.

(** Well-typed operations other than the raw balance setter, and what each issues. *)
Definition op_ok (o : op) : Prop :=
  match o with
  | OpApply st => transfer_ok (transfer st)
  | OpCredit _ x | OpMoveSystem _ _ x => is_u64 x
  | OpConsumeNonce _ _ | OpBumpNonce _ => True
  | OpSetBalance _ _ => False
  end.

Definition issued (o : op) : Z := match o with OpCredit _ x => x | _ => 0 end.
Definition issuance (ops : list op) : Z := foldr (fun o acc => issued o + acc) 0 ops.

Lemma issued_nonneg o : op_ok o -> 0 <= issued o.
Proof. destruct o; simpl; unfold in_u; lia. Qed.

Lemma issuance_nonneg ops : Forall op_ok ops -> 0 <= issuance ops.
Proof. induction 1 as [|o ops Ho _ IH]; simpl; [lia|]. apply issued_nonneg in Ho. lia. Qed.

Lemma step_conserves l o :
  ledger_ok l -> op_ok o -> total l + issued o < 2 ^ 64 ->
  ledger_ok (step l o) /\ total (step l o) = total l + issued o.
Proof.
  intros Hok Ho Hlt. destruct o as [st|a x|f t x|a n|a|a x]; simpl in *.
  - pose proof (apply_settles l st Hok Ho) as Hs. destruct (apply l st) as [[u|e] l']; simpl.
    + destruct Hs as (_ & _ & Hok' & ->). split; [done|lia].
    + subst l'. split; [done|lia].
  - destruct (credit_exact l a x Hok) as (? & ? & _); [by destruct Ho|done|done].
  - unfold move_system. destruct (Z.ltb_spec (balance l f) x); simpl; [split; [done|lia]|].
    destruct (move_exact l f t x Hok) as (? & ? & _); [unfold in_u in Ho; lia|]. split; [done|lia].
  - unfold consume_nonce. case_match; simpl; [split; [done|lia]|].
    destruct (bump_nonce_exact l a Hok) as (? & ? & _). split; [done|lia].
  - destruct (bump_nonce_exact l a Hok) as (? & ? & _). split; [done|lia].
  - done.
Qed.

(** Over any history of transfers, system moves, nonce updates and issuances, whether each step
    succeeds or is refused, the supply grows by exactly what was issued: as long as that total
    fits a [u64] nothing is created, destroyed or lost to saturation, and the ledger invariant
    holds in every state. *)
Theorem supply_is_conserved l ops :
  ledger_ok l -> Forall op_ok ops -> total l + issuance ops < 2 ^ 64 ->
  ledger_ok (run l ops) /\ total (run l ops) = total l + issuance ops.
Proof.
  intros Hok HF. revert l Hok. induction HF as [|o ops Ho HF IH]; intros l Hok Hlt; simpl in *.
  - split; [done|lia].
  - pose proof (issuance_nonneg ops HF) as Hn.
    destruct (step_conserves l o Hok Ho) as [Hok' Ht']; [lia|].
    destruct (IH (step l o) Hok') as [Hok'' Ht'']; [lia|]. split; [done|lia].
Qed.

(** One step advances a nonce by at most one, and never back before the counter wraps. *)
Lemma step_nonce l o a :
  0 <= nonce l a < 2 ^ 64 - 1 -> nonce l a <= nonce (step l o) a <= nonce l a + 1.
Proof.
  intros Hr.
  assert (Hbump : forall l' b, nonces l' = nonces l -> nonce l a <= nonce (bump_nonce l' b) a <= nonce l a + 1).
  { intros l' b El. unfold bump_nonce, nonce at 2 4. simpl. rewrite (nonce_same _ _ El), El.
    destruct (decide (b = a)) as [->|Hne].
    - rewrite lookup_insert_eq. simpl. rewrite wrap_small by (unfold in_u; lia). lia.
    - rewrite lookup_insert_ne by done. fold (nonce l a). lia. }
  destruct o as [st|b x|f t x|b n|b|b x]; simpl.
  - unfold apply, apply_with_verdict.
    destruct (negb _); [simpl; lia|]. case_match; [simpl; lia|]. case_match; [simpl; lia|].
    case_match; [simpl; lia|]. cbn [snd]. apply Hbump. unfold credit, debit. simpl.
    by case_match.
  - unfold nonce. simpl. fold (nonce l a). lia.
  - unfold move_system. case_match; simpl; [lia|]. unfold nonce, credit, debit. simpl.
    case_match; simpl; fold (nonce l a); lia.
  - unfold consume_nonce. case_match; simpl; [lia|]. by apply Hbump.
  - by apply Hbump.
  - unfold nonce. simpl. fold (nonce l a). lia.
Qed.

Lemma run_nonce l ops a :
  0 <= nonce l a -> nonce l a + Z.of_nat (length ops) < 2 ^ 64 -> nonce l a <= nonce (run l ops) a.
Proof.
  revert l. induction ops as [|o ops IH]; intros l H0 Hlt; simpl in *; [lia|].
  pose proof (step_nonce l o a ltac:(lia)). specialize (IH (step l o) ltac:(lia) ltac:(lia)). lia.
Qed.

(** Replay protection.  Once a signed transfer has settled, it can never settle again: after any
    further operations whatsoever on the ledger (fewer than the [2^64] steps it takes to wrap the
    nonce counter), applying the same signed transfer is refused as a replay and changes
    nothing. *)
Theorem replay_is_refused l st l' ops :
  transfer_ok (transfer st) -> apply l st = (Ok tt, l') ->
  t_nonce (transfer st) + 1 + Z.of_nat (length ops) < 2 ^ 64 ->
  apply (run l' ops) st = (Err BadNonce, run l' ops).
Proof.
  intros [_ Hn] E Hlt. set (t := transfer st) in *. unfold in_u in Hn.
  assert (Hv : verify st = true /\ nonce l' (t_from t) = t_nonce t + 1).
  { unfold apply, apply_with_verdict in E. fold t in E.
    destruct (verify st); simpl in E; [|done]. split; [done|].
    destruct (_ <? t_nonce t); [done|]. destruct (Z.eqb_spec (t_nonce t) (nonce l (t_from t))) as [En|]; [|done].
    simpl in E. destruct (_ <? t_amount t); [done|]. injection E as <-.
    unfold bump_nonce, nonce at 1. simpl. rewrite lookup_insert_eq. simpl.
    assert (Hn' : forall m, nonces (debit l (t_from t) m) = nonces l) by (intros; unfold debit; by case_match).
    unfold nonce. simpl. rewrite Hn'. fold (nonce l (t_from t)). rewrite <- En.
    apply wrap_small. unfold in_u. lia. }
  destruct Hv as [Hv Hn']. pose proof (run_nonce l' ops (t_from t) ltac:(lia) ltac:(lia)) as Hge.
  unfold apply, apply_with_verdict. rewrite Hv. simpl. fold t.
  rewrite (proj2 (Z.ltb_ge _ _)) by lia. rewrite (proj2 (Z.eqb_neq _ _)) by lia. done.
Qed.

End settle.

(** ** Snapshots *)

(** What a restored ledger keeps: the entries that are not zero. *)
Definition normalize (l : TokenLedger) : TokenLedger :=
  mk_ledger (filter (fun kv => 0 < snd kv) (balances l)) (filter (fun kv => 0 < snd kv) (nonces l)).

Definition keys_ok (l : TokenLedger) : Prop :=
  set_Forall (fun a => length a = 32%nat) (accounts l) /\ Z.of_nat (size (accounts l)) < 2 ^ 32.

#[global] Instance keys_ok_dec l : Decision (keys_ok l).
Proof. unfold keys_ok. apply _. Defined.

(** One iteration of the restoring loop. *)
Definition restore_one (l acc : TokenLedger) (a : list Z) : TokenLedger :=
  let acc := if 0 <? balance l a then mk_ledger (<[a := balance l a]> (balances acc)) (nonces acc) else acc in
  if 0 <? nonce l a then mk_ledger (balances acc) (<[a := nonce l a]> (nonces acc)) else acc.

Lemma length_record l a : length a = 32%nat -> length (record_bytes l a) = 48%nat.
Proof. intros Ha. unfold record_bytes. by rewrite !length_app, !length_le_bytes, Ha. Qed.

Lemma length_records l accs :
  Forall (fun a => length a = 32%nat) accs -> length (concat (record_bytes l <$> accs)) = (48 * length accs)%nat.
Proof.
  induction 1 as [|a accs Ha _ IH]; [done|]. csimpl. rewrite length_app, IH, length_record by done. lia.
Qed.

Lemma read_accounts_records l accs pre acc :
  values_ok (balances l) -> values_ok (nonces l) -> Forall (fun a => length a = 32%nat) accs ->
  read_accounts (pre ++ concat (record_bytes l <$> accs)) (length accs) (length pre) acc =
    Some (fold_left (restore_one l) accs acc, (length pre + 48 * length accs)%nat).
Proof.
  intros Hb Hn HF. revert pre acc. induction HF as [|a accs Ha _ IH]; intros pre acc.
  { cbn. f_equal. f_equal. lia. }
  csimpl. cbn [read_accounts]. set (tl := concat (record_bytes l <$> accs)) in *.
  assert (E1 : slice (length pre) (length pre + 32) (pre ++ record_bytes l a ++ tl) = Some a).
  { unfold record_bytes. rewrite <- !app_assoc. apply slice_mid; [done|by rewrite Ha]. }
  assert (E2 : slice (length pre + 32) (length pre + 40) (pre ++ record_bytes l a ++ tl) =
    Some (le_bytes 8 (balance l a))).
  { unfold record_bytes. rewrite <- !app_assoc, (app_assoc pre).
    apply slice_mid; rewrite ?length_app, ?length_le_bytes; lia. }
  assert (E3 : slice (length pre + 40) (length pre + 48) (pre ++ record_bytes l a ++ tl) =
    Some (le_bytes 8 (nonce l a))).
  { unfold record_bytes. rewrite <- !app_assoc, (app_assoc pre), (app_assoc (pre ++ a)).
    apply slice_mid; rewrite ?length_app, ?length_le_bytes; lia. }
  rewrite E1, E2, E3, !from_le_id by (apply default_range; done).
  specialize (IH (pre ++ record_bytes l a) (restore_one l acc a)).
  rewrite <- app_assoc, length_app, length_record in IH by done.
  etransitivity; [exact IH|]. simpl. do 2 f_equal. lia.
Qed.

Lemma restored_lookup l accs acc a :
  balances (fold_left (restore_one l) accs acc) !! a =
    (if decide (a ∈ accs /\ 0 < balance l a) then Some (balance l a) else balances acc !! a) /\
  nonces (fold_left (restore_one l) accs acc) !! a =
    (if decide (a ∈ accs /\ 0 < nonce l a) then Some (nonce l a) else nonces acc !! a).
Proof.
  revert acc. induction accs as [|b accs IH]; intros acc; cbn [fold_left].
  - split; rewrite decide_False; [done|set_solver|done|set_solver].
  - destruct (IH (restore_one l acc b)) as [-> ->]. unfold restore_one.
    split; repeat case_decide; repeat case_match; simpl; rewrite ?Z.ltb_lt, ?Z.ltb_ge in *;
      try destruct (decide (a = b)) as [->|]; rewrite ?lookup_insert_eq, ?lookup_insert_ne by done;
      try done; set_solver by lia.
Qed.

Lemma filter_pos_lookup (m : btree Z) a :
  (filter (fun kv => 0 < snd kv) m : btree Z) !! a =
    if decide (0 < default 0 (m !! a)) then m !! a else None.
Proof.
  case_decide as E; destruct (m !! a) as [v|] eqn:Em; simpl in E; try lia.
  - by apply map_lookup_filter_Some.
  - apply map_lookup_filter_None. right. intros w Hw. simpl. congruence.
  - apply map_lookup_filter_None. by left.
Qed.

Lemma in_accounts l a : a ∈ bset_list (accounts l) <-> is_Some (balances l !! a) \/ is_Some (nonces l !! a).
Proof. unfold accounts. by rewrite bset_list_elem, elem_of_union, !elem_of_dom. Qed.

Lemma restored_is_normalize l : fold_left (restore_one l) (bset_list (accounts l)) new = normalize l.
Proof.
  pose proof (restored_lookup l (bset_list (accounts l)) new) as Hr.
  destruct (fold_left _ _ _) as [b n]. unfold normalize. simpl in Hr.
  f_equal; apply map_eq; intros a; specialize (Hr a); rewrite filter_pos_lookup.
  - destruct Hr as [-> _]. unfold balance. pose proof (in_accounts l a).
    destruct (balances l !! a); simpl; repeat case_decide; first [lia|naive_solver].
  - destruct Hr as [_ ->]. unfold nonce. pose proof (in_accounts l a).
    destruct (nonces l !! a); simpl; repeat case_decide; first [lia|naive_solver].
Qed.

Lemma accounts_keys l : keys_ok l -> Forall (fun a => length a = 32%nat) (bset_list (accounts l)).
Proof. intros [Hk _]. apply Forall_forall. intros a Ha%bset_list_elem. by apply Hk. Qed.

Lemma from_to_bytes l :
  values_ok (balances l) -> values_ok (nonces l) -> keys_ok l -> from_bytes (to_bytes l) = Some (normalize l).
Proof.
  intros Hb Hn Hk. pose proof (accounts_keys l Hk) as HF. destruct Hk as [_ Hs].
  unfold from_bytes. unfold to_bytes at 1. rewrite slice_prefix by apply length_le_bytes.
  rewrite wrap_small, from_le_id by (unfold in_u; simpl; lia).
  assert (El : length (to_bytes l) = (4 + size (accounts l) * 48)%nat).
  { unfold to_bytes. rewrite length_app, length_le_bytes, length_records, bset_list_length by done. lia. }
  rewrite El. replace (4 + size (accounts l) * 48 - 4)%nat with (size (accounts l) * 48)%nat by lia.
  rewrite Nat.div_mul, (proj2 (Z.ltb_ge _ _)), Nat2Z.id by lia.
  pose proof (read_accounts_records l (bset_list (accounts l))
    (le_bytes 4 (w32 (Z.of_nat (size (accounts l))))) new Hb Hn HF) as E.
  rewrite length_le_bytes, bset_list_length in E. fold (to_bytes l) in E. rewrite E.
  rewrite restored_is_normalize, (proj2 (Nat.eqb_eq _ _)) by lia. done.
Qed.

Lemma normalize_observes l a :
  values_ok (balances l) -> values_ok (nonces l) ->
  balance (normalize l) a = balance l a /\ nonce (normalize l) a = nonce l a.
Proof.
  intros Hb Hn. pose proof (default_range _ a Hb). pose proof (default_range _ a Hn).
  unfold balance, nonce, normalize. simpl. rewrite !filter_pos_lookup. unfold in_u in *.
  split; case_decide; try done; simpl; lia.
Qed.

Lemma normalize_accounts l :
  values_ok (balances l) -> values_ok (nonces l) ->
  forall a, a ∈ accounts (normalize l) <-> 0 < balance l a \/ 0 < nonce l a.
Proof.
  intros Hb Hn a. unfold accounts, normalize. simpl.
  rewrite elem_of_union, !elem_of_dom, !filter_pos_lookup. unfold balance, nonce.
  destruct (balances l !! a), (nonces l !! a); simpl; repeat case_decide; naive_solver (eauto; lia).
Qed.

Lemma normalize_record l a :
  values_ok (balances l) -> values_ok (nonces l) -> record_bytes (normalize l) a = record_bytes l a.
Proof. intros Hb Hn. unfold record_bytes. by destruct (normalize_observes l a Hb Hn) as [-> ->]. Qed.

(** A token snapshot restores the ledger up to inert entries: it always decodes, every account
    has its balance and its nonce back, and the bytes hashed into the state root are reproduced
    exactly when no account carries both a zero balance and a zero nonce. *)
Theorem token_snapshot_restores l :
  values_ok (balances l) -> values_ok (nonces l) -> keys_ok l ->
  exists l', from_bytes (to_bytes l) = Some l' /\
    (forall a, balance l' a = balance l a /\ nonce l' a = nonce l a) /\
    (root_preimage l' = root_preimage l <-> set_Forall (fun a => 0 < balance l a \/ 0 < nonce l a) (accounts l)).
Proof.
  intros Hb Hn Hk. exists (normalize l). split; [by apply from_to_bytes|].
  split; [intros; by apply normalize_observes|].
  assert (Hsub : accounts (normalize l) ⊆ accounts l).
  { intros a [Ha|Ha]%normalize_accounts; try done; unfold balance, nonce, accounts in *;
      rewrite elem_of_union, !elem_of_dom.
    - left. destruct (balances l !! a); [by eexists|]. simpl in Ha. lia.
    - right. destruct (nonces l !! a); [by eexists|]. simpl in Ha. lia. }
  split.
  - intros E. assert (Hlen : size (accounts (normalize l)) = size (accounts l)).
    { apply (f_equal length) in E. unfold root_preimage in E.
      pose proof (accounts_keys l Hk) as HF.
      assert (HF' : Forall (fun a => length a = 32%nat) (bset_list (accounts (normalize l)))).
      { apply Forall_forall. intros a Ha%bset_list_elem. apply Hsub in Ha. by apply Hk. }
      rewrite !length_records, !bset_list_length in E by done. lia. }
    assert (Heq : accounts l ≡ accounts (normalize l)).
    { symmetry. apply set_subseteq_size_equiv; [done|lia]. }
    intros a Ha. apply (normalize_accounts l Hb Hn). by rewrite <- Heq.
  - intros HF. assert (Heq : accounts (normalize l) = accounts l).
    { apply set_eq. intros a. split; [apply Hsub|]. intros Ha.
      apply (normalize_accounts l Hb Hn). by apply HF. }
    unfold root_preimage. rewrite Heq. f_equal. apply list_fmap_ext. intros. by apply normalize_record.
Qed.

(** A restored snapshot need not reproduce the state root.  After an account pays out its whole
    balance by a system move (as the stake sink does on a full unbond), its zero entry is hashed
    into the root of the live ledger but is dropped by the restore, so the two ledgers, equal in
    every balance and nonce, hash different bytes. *)
Theorem drained_account_changes_root :
  let a := replicate 32 1 in
  let b := replicate 32 2 in
  let l := snd (move_system (credit new a 5) a b 5) in
  exists l', from_bytes (to_bytes l) = Some l' /\ balance l' a = balance l a /\
    balance l' b = balance l b /\ root_preimage l' <> root_preimage l.
Proof.
  eexists. split; [vm_compute; reflexivity|]. split; [vm_compute; reflexivity|].
  split; [vm_compute; reflexivity|]. vm_compute. discriminate.
Qed.

(** ** The signed-transfer wire form *)

Section wire.
  Context `{Crypto} `{!CryptoLaws}.

Definition st_ok (st : SignedTransfer) : Prop :=
  length (t_from (transfer st)) = 32%nat /\ length (t_to (transfer st)) = 32%nat /\
  transfer_ok (transfer st) /\ length (sig st) = HYBRID_SIG_LEN.

Lemma st_to_bytes_length st : st_ok st -> length (st_to_bytes st) = WIRE_LEN.
Proof.
  intros (Hf & Ht & _ & Hs). unfold st_to_bytes.
  rewrite !length_app, !length_le_bytes, vk_encode_length, Hf, Ht, Hs. unfold WIRE_LEN. lia.
Qed.

Lemma st_from_to st : st_ok st -> st_from_bytes (st_to_bytes st) = Some st.
Proof.
  intros Hok. unfold st_from_bytes. rewrite st_to_bytes_length by done. unfold WIRE_LEN.
  rewrite Nat.eqb_refl. cbn [negb]. destruct st as [[f t a n] k sg].
  destruct Hok as (Hf & Ht & [Ha Hn] & Hs). simpl in Hf, Ht, Ha, Hn, Hs. unfold st_to_bytes. cbn [transfer from_key Token.sig t_from t_to t_amount t_nonce].
  set (kb := vk_encode k). assert (Hk : length kb = HYBRID_VK_LEN) by apply vk_encode_length.
  rewrite slice_prefix by done. rewrite slice_mid by (rewrite ?Hf, ?Ht; done).
  rewrite (app_assoc f), slice_mid by (rewrite ?length_app, ?length_le_bytes; lia).
  rewrite (app_assoc (f ++ t)), slice_mid by (rewrite ?length_app, ?length_le_bytes; lia).
  rewrite (app_assoc ((f ++ t) ++ _)), slice_mid by (rewrite ?length_app, ?length_le_bytes; lia).
  unfold kb at 1. rewrite vk_decode_encode, (app_assoc _ kb), slice_from_app
    by (rewrite ?length_app, ?length_le_bytes; lia).
  by rewrite !from_le_id.
Qed.

Lemma sign_verifies t sk :
  t_from t = account_id (verifier_of sk) -> verify (sign t sk (verifier_of sk)) = true.
Proof.
  intros Hf. unfold verify, sign. cbn [from_key transfer Token.sig].
  rewrite bool_decide_false by (intros Hc; by apply Hc).
  by rewrite sig_from_to, hybrid_sign_verifies.
Qed.

Lemma auth_from_to k deal response sk :
  auth_from_bytes (auth_to_bytes (auth_sign deal response sk k)) = Some (auth_sign deal response sk k).
Proof.
  unfold auth_from_bytes, auth_to_bytes, auth_sign. cbn [provider_key auth_sig].
  rewrite length_app, vk_encode_length, sig_to_bytes_length, Nat.eqb_refl. cbn [negb].
  rewrite slice_prefix, vk_decode_encode by apply vk_encode_length.
  by rewrite slice_from_app by apply vk_encode_length.
Qed.

(** An honest payment arrives.  A transfer signed with the owner's key, written to its wire form,
    decoded by a validator and applied at the sender's next nonce settles, whenever the balance
    covers it. *)
Theorem honest_transfer_settles l t sk :
  ledger_ok l -> transfer_ok t -> t_from t = account_id (verifier_of sk) -> length (t_to t) = 32%nat ->
  t_nonce t = nonce l (t_from t) -> t_amount t <= balance l (t_from t) ->
  exists st l', st_from_bytes (st_to_bytes (sign t sk (verifier_of sk))) = Some st /\
    apply l st = (Ok tt, l') /\ settles t l l'.
Proof.
  intros Hok Ht Hf Hto Hn Hb. set (st := sign t sk (verifier_of sk)).
  assert (Hst : st_ok st).
  { repeat split; simpl; [|done|apply Ht|apply Ht|apply Ht|apply Ht|apply sig_to_bytes_length].
    rewrite Hf. apply hash_labeled_length. }
  pose proof (apply_settles l st Hok Ht) as Hs.
  assert (E : exists l', apply l st = (Ok tt, l')).
  { unfold apply, apply_with_verdict. assert (verify st = true) as -> by by apply sign_verifies.
    cbn [negb]. unfold st. cbn [transfer sign]. rewrite Hn, Z.ltb_irrefl, Z.eqb_refl. cbn [negb].
    rewrite (proj2 (Z.ltb_ge _ _)) by done. by eexists. }
  destruct E as [l' E]. rewrite E in Hs. exists st, l'. split; [by apply st_from_to|].
  split; [done|]. by destruct Hs as (_ & Hs & _).
Qed.

End wire.

(** ** Witnesses at the concrete signature instance *)

Definition w_key : @HybridSigSecret toy_crypto := @mk_secret toy_crypto true tt.
Definition w_alice : list Z := @account_id toy_crypto (@verifier_of toy_crypto w_key).
Definition w_bob : list Z := replicate 32 2.
Definition w_transfer : Transfer := mk_transfer w_alice w_bob 300 0.
Definition w_st : @SignedTransfer toy_crypto :=
  @sign toy_crypto w_transfer w_key (@verifier_of toy_crypto w_key).
Definition w_ledger : TokenLedger := credit new w_alice 1000.
Definition w_after : TokenLedger := snd (@apply toy_crypto w_ledger w_st).

Lemma apply_is_exact_and_atomic_witness :
  ledger_ok w_ledger /\ transfer_ok w_transfer /\
  exists l', @apply toy_crypto w_ledger w_st = (Ok tt, l') /\ balance l' w_bob = 300 /\
    settles (transfer w_st) w_ledger l'.
Proof.
  assert (Hok : ledger_ok w_ledger) by by_decide.
  assert (Ht : transfer_ok w_transfer) by by_decide.
  split; [exact Hok|]. split; [exact Ht|].
  pose proof (@apply_is_exact_and_atomic toy_crypto w_ledger w_st Hok Ht) as Hs. cbv zeta in Hs.
  assert (E : @apply toy_crypto w_ledger w_st = (Ok tt, w_after)) by (vm_compute; reflexivity).
  rewrite E in Hs. exists w_after. split; [exact E|]. split; [vm_compute; reflexivity|].
  destruct Hs as (_ & Hs & _). exact Hs.
Defined.

Lemma supply_is_conserved_witness :
  total (@run toy_crypto w_ledger [OpApply w_st; OpCredit w_bob 7; OpMoveSystem w_bob w_alice 5; OpApply w_st])
    = 1007.
Proof.
  transitivity (total w_ledger +
    @issuance toy_crypto [OpApply w_st; OpCredit w_bob 7; OpMoveSystem w_bob w_alice 5; OpApply w_st]);
    [|vm_compute; reflexivity].
  apply (@supply_is_conserved toy_crypto); [by_decide| |vm_compute; reflexivity].
  repeat (constructor; [first [by_decide | done]|]). constructor.
Defined.

Lemma replay_is_refused_witness :
  @apply toy_crypto (@run toy_crypto w_after [OpCredit w_alice 5]) w_st =
    (Err BadNonce, @run toy_crypto w_after [OpCredit w_alice 5]).
Proof.
  apply (@replay_is_refused toy_crypto w_ledger w_st w_after);
    [by_decide|vm_compute; reflexivity|vm_compute; reflexivity].
Defined.

Lemma token_snapshot_restores_witness :
  exists l', from_bytes (to_bytes w_after) = Some l' /\ balance l' w_bob = 300 /\
    root_preimage l' = root_preimage w_after.
Proof.
  destruct (token_snapshot_restores w_after) as (l' & E & Ho & Hr); [by_decide..|].
  exists l'. split; [done|]. split.
  - rewrite (proj1 (Ho w_bob)). vm_compute. reflexivity.
  - apply Hr. by_decide.
Defined.

Lemma honest_transfer_settles_witness :
  exists st l', @st_from_bytes toy_crypto (@st_to_bytes toy_crypto w_st) = Some st /\
    @apply toy_crypto w_ledger st = (Ok tt, l') /\ settles w_transfer w_ledger l'.
Proof.
  apply (@honest_transfer_settles toy_crypto toy_laws w_ledger w_transfer w_key);
    [by_decide|by_decide|reflexivity|vm_compute; reflexivity|vm_compute; reflexivity|vm_compute; discriminate].
Defined.

End Token.
