(* ===== verification/Params.v ===== *)
(** * Quorum parameters of a consensus cell

    [fanos-taxis/src/params.rs] and [fanos-geometry/src/tolerance.rs]: the Byzantine budget, the
    quorum and the sealing threshold a projective cell of order [q] derives.  [usize] is 64 bits
    wide; the arithmetic that can leave the range is wrapped. *)
From S2P Require Import Prelude.
Local Open Scope Z_scope.

Module Params.

(** [n.saturating_sub(1) / 3]. *)
Definition fault_budget (n : Z) : Z := sat_sub n 1 / 3.

Record CellParams := mk_params { q : Z; n : Z; f : Z; quorum : Z }.

#[global] Instance CellParams_eq_dec : EqDecision CellParams.
Proof. solve_decision. Defined.

Definition FANO : CellParams := mk_params 2 7 2 5.

Definition checked_u64 (x : Z) : option Z := if decide (is_u64 x) then Some x else None.

Definition for_order (q : Z) : option CellParams :=
  if q <? 2 then None else
  letO sq := checked_u64 (q * q) in
  letO s := checked_u64 (sq + q) in
  letO n := checked_u64 (s + 1) in
  let f := fault_budget n in
  let quorum := w64 (w64 (n + f) + 2) / 2 in
  Some (mk_params q n f quorum).

Definition checked (q n' f' quorum' : Z) : option CellParams :=
  letO derived := for_order q in
  if (n derived =? n') && (f derived =? f') && (quorum derived =? quorum') then Some derived else None.

Definition line_size (p : CellParams) : Z := q p + 1.
Definition seal_committee_size (p : CellParams) : Z := n p.

(** [u8::try_from(..).unwrap_or(u8::MAX)]. *)
Definition seal_threshold (p : CellParams) : Z :=
  let t := Z.min (f p + 1) (n p) in if t <=? 255 then t else 255.

Definition seal_is_sound (p : CellParams) : bool :=
  let m := seal_committee_size p in
  let t := seal_threshold p in
  (2 * f p + 1 <=? m) && (f p <? t) && (t <=? m - f p).

Definition is_safe (p : CellParams) : bool := w64 (n p + f p) <? w64 (2 * quorum p).
Definition is_live (p : CellParams) : bool := quorum p <=? n p - f p.
Definition is_tight (p : CellParams) : bool := n p =? w64 (w64 (3 * f p) + 1).

(** ** Facts about the derived parameters *)

(** Below [2^31] no intermediate value leaves 64 bits. *)
Lemma for_order_small q0 :
  2 <= q0 < 2 ^ 31 ->
  for_order q0 = Some (mk_params q0 (q0 * q0 + q0 + 1) ((q0 * q0 + q0) / 3)
                    ((q0 * q0 + q0 + 1 + (q0 * q0 + q0) / 3 + 2) / 2)).
Proof.
  intros Hq. unfold for_order. rewrite (proj2 (Z.ltb_ge _ _)) by lia.
  assert (Hsq : 0 <= q0 * q0 < 2 ^ 62).
  { split; [nia|]. change (2 ^ 62) with (2 ^ 31 * 2 ^ 31). apply Z.mul_lt_mono_nonneg; lia. }
  unfold checked_u64. rewrite !decide_True by (unfold in_u; lia).
  unfold fault_budget, sat_sub. rewrite Z.max_l by lia.
  replace (q0 * q0 + q0 + 1 - 1) with (q0 * q0 + q0) by lia.
  set (s := q0 * q0 + q0) in *.
  assert (0 <= s / 3 < 2 ^ 62) by (split; [apply Z.div_pos; lia|apply Z.div_lt_upper_bound; lia]).
  rewrite (wrap_small 64 (s + 1 + s / 3)), wrap_small by (unfold in_u; lia). done.
Qed.

Lemma small_params q0 p :
  q0 < 2 ^ 31 -> for_order q0 = Some p ->
  2 <= q0 /\ q p = q0 /\ n p = q0 * q0 + q0 + 1 /\ 3 * f p <= n p - 1 <= 3 * f p + 2 /\
  n p + f p + 1 <= 2 * quorum p <= n p + f p + 2 /\ 0 <= f p /\ n p < 2 ^ 63.
Proof.
  intros Hlt E. assert (Hge : 2 <= q0).
  { unfold for_order in E. destruct (Z.ltb_spec q0 2); [done|lia]. }
  rewrite (for_order_small q0) in E by lia. injection E as <-. simpl.
  set (s := q0 * q0 + q0) in *.
  assert (0 <= s < 2 ^ 62 + 2 ^ 31).
  { split; [unfold s; nia|]. unfold s. change (2 ^ 62) with (2 ^ 31 * 2 ^ 31). nia. }
  pose proof (Z.div_mod s 3 ltac:(lia)). pose proof (Z.mod_pos_bound s 3 ltac:(lia)).
  pose proof (Z.div_mod (s + 1 + s / 3 + 2) 2 ltac:(lia)).
  pose proof (Z.mod_pos_bound (s + 1 + s / 3 + 2) 2 ltac:(lia)).
  repeat split; try lia.
Qed.

(** The parameters derived for any plane order [2 <= q < 2^31] form a masking quorum system:
    two quorums overlap in more than the fault budget ([is_safe]) and the honest validators alone
    make a quorum ([is_live]); the cell is tight ([n = 3 f + 1]) exactly when [q] is not 1 modulo
    3; the one-byte sealing threshold is sound exactly up to [q = 27]; and parameters from
    outside are accepted only if they are these. *)
Theorem cell_params_are_sound q0 :
  2 <= q0 < 2 ^ 31 ->
  exists p, for_order q0 = Some p /\ n p = q0 * q0 + q0 + 1 /\
    is_safe p = true /\ is_live p = true /\
    (is_tight p = true <-> q0 mod 3 <> 1) /\
    (seal_is_sound p = true <-> q0 <= 27) /\
    (forall n' f' quorum' p', checked q0 n' f' quorum' = Some p' <->
       p' = p /\ n' = n p /\ f' = f p /\ quorum' = quorum p).
Proof.
  intros Hq. destruct (for_order q0) as [p|] eqn:E; [|by rewrite for_order_small in E].
  exists p. destruct (small_params q0 p ltac:(lia) E) as (_ & Hq' & Hn & Hf & HQ & H0 & Hlt).
  split; [done|]. split; [done|].
  assert (Hw : forall x, 0 <= x < 2 ^ 64 -> w64 x = x) by (intros; by apply wrap_small).
  split; [|split; [|split; [|split]]].
  - unfold is_safe. rewrite !Hw by lia. apply Z.ltb_lt. lia.
  - unfold is_live. apply Z.leb_le. lia.
  - unfold is_tight. rewrite (Hw (3 * f p)), Hw by lia. rewrite Z.eqb_eq.
    pose proof (Z.div_mod q0 3 ltac:(lia)) as Ed. pose proof (Z.mod_pos_bound q0 3 ltac:(lia)).
    set (k := q0 / 3) in *. set (r := q0 mod 3) in *.
    assert (En : n p = 3 * (3 * k * k + 2 * k * r + k) + (r * r + r) + 1) by (rewrite Hn, Ed; ring).
    assert (r = 0 \/ r = 1 \/ r = 2) as [Er|[Er|Er]] by lia; rewrite Er in En |- *; lia.
  - unfold seal_is_sound, seal_committee_size, seal_threshold. cbv zeta. rewrite Z.min_l by lia.
    rewrite !andb_true_iff, !Z.leb_le, Z.ltb_lt.
    destruct (Z.leb_spec (f p + 1) 255); (split; [intros; nia|intros; repeat split; nia]).
  - intros n' f' quorum' p'. unfold checked. rewrite E.
    destruct (Z.eqb_spec (n p) n'), (Z.eqb_spec (f p) f'), (Z.eqb_spec (quorum p) quorum'); simpl;
      split; naive_solver.
Qed.

Lemma cell_params_are_sound_witness :
  exists p, for_order 2 = Some p /\ n p = 7 /\ is_safe p = true.
Proof.
  destruct (cell_params_are_sound 2 ltac:(lia)) as (p & E & Hn & Hs & _).
  exists p. split; [exact E|]. split; [exact Hn|exact Hs].
Defined.

(** The derivation is not sound for every order a [u32] can name: for the prime order
    [4294967291] the sum [n + f + 2] exceeds 64 bits, the wrapped quorum is below the fault
    budget, and two such quorums need not share any validator. *)
Theorem quorum_overflows_at_large_order :
  exists p, for_order 4294967291 = Some p /\ quorum p <= f p /\ 2 * quorum p < n p.
Proof. eexists. split; [vm_compute; reflexivity|]. vm_compute. split; [discriminate|reflexivity]. Qed.

End Params.
