(* ===== verification/Vote.v ===== *)
(** * Votes and quorum certificates

    [fanos-taxis/src/vote.rs]: the signable vote, the signed vote and the certificate, with their
    bytes and their verification. *)
From S2P Require Import Prelude Codec Sig.
Local Open Scope Z_scope.

Module Vote.

Inductive Phase := Prepare | Commit.

#[global] Instance Phase_eq_dec : EqDecision Phase.
Proof. solve_decision. Defined.

Definition code (p : Phase) : Z := match p with Prepare => 0 | Commit => 1 end.

Definition from_code (c : Z) : option Phase :=
  match c with 0 => Some Prepare | 1 => Some Commit | _ => None end.

Definition VOTE_LEN : nat := 8 + 4 + 32 + 1 + 1.

Definition NIL : list Z := replicate 32 0.

Record Vote := mk_vote {
  height : Z;
  round : Z;
  block_hash : list Z;
  phase : Phase;
  voter : Z;
}.

#[global] Instance Vote_eq_dec : EqDecision Vote.
Proof. solve_decision. Defined.

Definition vote_to_bytes (v : Vote) : list Z :=
  be_bytes 8 (height v) ++ be_bytes 4 (round v) ++ block_hash v ++ [code (phase v)] ++ [voter v].

Definition vote_from_bytes (bytes : list Z) : option Vote :=
  letO bytes := slice 0 VOTE_LEN bytes in
  letO h := slice 0 8 bytes in
  letO r := slice 8 12 bytes in
  letO b := slice 12 44 bytes in
  letO c := bytes !! 44%nat in
  letO p := from_code c in
  letO v := bytes !! 45%nat in
  Some (mk_vote (from_be h) (from_be r) b p v).

Record SignedVote := mk_signed { vote : Vote; sig : list Z }.

Definition sv_to_bytes (sv : SignedVote) : list Z := vote_to_bytes (vote sv) ++ sig sv.

Definition sv_from_bytes (bytes : list Z) : option SignedVote :=
  if negb (length bytes =? VOTE_LEN + HYBRID_SIG_LEN)%nat then None else
  letO vb := slice 0 VOTE_LEN bytes in
  letO v := vote_from_bytes vb in
  letO sg := slice_from VOTE_LEN bytes in
  Some (mk_signed v sg).

Record Certificate := mk_cert {
  c_phase : Phase;
  c_height : Z;
  c_round : Z;
  c_block_hash : list Z;
  votes : list SignedVote;
}.

Definition cert_to_bytes (c : Certificate) : list Z :=
  [code (c_phase c)] ++ be_bytes 8 (c_height c) ++ be_bytes 4 (c_round c) ++ c_block_hash c ++
  be_bytes 4 (u32_sat (length (votes c))) ++ concat (sv_to_bytes <$> votes c).

Definition vote_len : nat := VOTE_LEN + HYBRID_SIG_LEN.

Fixpoint read_votes (bytes : list Z) (n off : nat) : option (list SignedVote * nat) :=
  match n with
  | O => Some ([], off)
  | S n =>
      let end_ := (off + vote_len)%nat in
      letO s := slice off end_ bytes in
      letO sv := sv_from_bytes s in
      letO (svs, off) := read_votes bytes n end_ in
      Some (sv :: svs, off)
  end.

Definition cert_from_bytes (bytes : list Z) : option Certificate :=
  letO c := head bytes in
  letO p := from_code c in
  letO h := slice 1 9 bytes in
  letO r := slice 9 13 bytes in
  letO b := slice 13 45 bytes in
  letO n := slice 45 49 bytes in
  letO (svs, off) := read_votes bytes (Z.to_nat (from_be n)) 49 in
  if negb (off =? length bytes)%nat then None
  else Some (mk_cert p (from_be h) (from_be r) b svs).

Section verification.
  Context `{Crypto}.

Definition sign (v : Vote) (signer : HybridSigSecret) : SignedVote :=
  mk_signed v (sig_to_bytes (hybrid_sign signer (vote_to_bytes v))).

Definition verify (sv : SignedVote) (verifier : HybridVerifier) : bool :=
  match sig_from_bytes (sig sv) with
  | None => false
  | Some s => hybrid_verify verifier (vote_to_bytes (vote sv)) s
  end.

(** The loop of [Certificate::verify]: [None] is an early [return false]. *)
Fixpoint count_votes (c : Certificate) (verifiers : list HybridVerifier) (svs : list SignedVote)
    (seen : list bool) (count : nat) : option nat :=
  match svs with
  | [] => Some count
  | sv :: svs =>
      let v := vote sv in
      if bool_decide (phase v <> c_phase c) || negb (height v =? c_height c)
         || negb (round v =? c_round c) || bool_decide (block_hash v <> c_block_hash c) then None else
      let idx := Z.to_nat (voter v) in
      match verifiers !! idx with
      | None => None
      | Some verifier =>
          match seen !! idx with
          | Some false =>
              if negb (verify sv verifier) then None
              else count_votes c verifiers svs (<[idx := true]> seen) (S count)
          | _ => None
          end
      end
  end.

Definition cert_verify (c : Certificate) (quorum : nat) (verifiers : list HybridVerifier) : bool :=
  match count_votes c verifiers (votes c) (replicate (length verifiers) false) 0 with
  | None => false
  | Some count => (quorum <=? count)%nat
  end.

(** ** What a verified certificate holds *)

(** A vote for the claim of [c] that verifies under its voter's key. *)
Definition supports (c : Certificate) (verifiers : list HybridVerifier) (sv : SignedVote) : Prop :=
  phase (vote sv) = c_phase c /\ height (vote sv) = c_height c /\ round (vote sv) = c_round c /\
  block_hash (vote sv) = c_block_hash c /\
  exists k, verifiers !! Z.to_nat (voter (vote sv)) = Some k /\ verify sv k = true.

Definition idx (sv : SignedVote) : nat := Z.to_nat (voter (vote sv)).

Lemma supports_test c v :
  bool_decide (phase v <> c_phase c) || negb (height v =? c_height c)
    || negb (round v =? c_round c) || bool_decide (block_hash v <> c_block_hash c) = false <->
  phase v = c_phase c /\ height v = c_height c /\ round v = c_round c /\ block_hash v = c_block_hash c.
Proof.
  rewrite !orb_false_iff, !negb_false_iff, !Z.eqb_eq, !bool_decide_eq_false.
  split; [|naive_solver]. intros [[[H1 H2] H3] H4]. apply dec_stable in H1, H4. done.
Qed.

Lemma count_votes_spec c verifiers svs seen count m :
  length seen = length verifiers ->
  count_votes c verifiers svs seen count = Some m <->
  m = (count + length svs)%nat /\ Forall (supports c verifiers) svs /\ NoDup (idx <$> svs) /\
  Forall (fun sv => seen !! idx sv = Some false) svs.
Proof.
  revert seen count. induction svs as [|sv svs IH]; intros seen count Hl; cbn [count_votes].
  { csimpl. split.
    - intros [= <-]. rewrite Nat.add_0_r. repeat split; constructor.
    - intros (-> & _). by rewrite Nat.add_0_r. }
  csimpl. rewrite NoDup_cons, !Forall_cons. fold (idx sv).
  match goal with |- context [if ?b then None else _] => destruct b eqn:Et end.
  { split; [done|]. intros (_ & [(H1 & H2 & H3 & H4 & _) _] & _).
    apply not_false_iff_true in Et. exfalso. apply Et. by apply supports_test. }
  apply supports_test in Et as (H1 & H2 & H3 & H4).
  destruct (verifiers !! idx sv) as [k|] eqn:Ek.
  2: { split; [done|]. intros (_ & [(_ & _ & _ & _ & k & Hk & _) _] & _). unfold idx in Ek. congruence. }
  destruct (seen !! idx sv) as [[]|] eqn:Es; [split; [done|naive_solver]| |split; [done|naive_solver]].
  destruct (verify sv k) eqn:Ev; simpl.
  2: { split; [done|]. intros (_ & [(_ & _ & _ & _ & k' & Hk & Hv) _] & _). unfold idx in Ek. congruence. }
  rewrite IH by (by rewrite length_insert).
  assert (Hs : supports c verifiers sv) by (repeat split; try done; by exists k).
  assert (Hseen : Forall (fun sv' => (<[idx sv := true]> seen) !! idx sv' = Some false) svs <->
    (idx sv ∉ (idx <$> svs)) /\ Forall (fun sv' => seen !! idx sv' = Some false) svs).
  { rewrite !Forall_forall. split.
    - intros HF. split.
      + intros (sv' & E & Hin)%list_elem_of_fmap. specialize (HF sv' Hin). rewrite <- E in HF.
        rewrite list_lookup_insert_eq in HF by (rewrite Hl; by apply lookup_lt_Some in Ek). done.
      + intros sv' Hin. specialize (HF sv' Hin).
        destruct (decide (idx sv = idx sv')) as [E|Hne]; [|by rewrite list_lookup_insert_ne in HF].
        rewrite <- E in HF. rewrite list_lookup_insert_eq in HF by (rewrite Hl; by apply lookup_lt_Some in Ek).
        done.
    - intros [Hni HF] sv' Hin. rewrite list_lookup_insert_ne; [by apply HF|].
      intros E. apply Hni. rewrite E. by apply list_elem_of_fmap_2. }
  rewrite Hseen, Nat.add_succ_r. tauto.
Qed.

(** A certificate verifies exactly when it has [quorum] votes, each supporting its claim, from
    distinct validators. *)
Lemma cert_verify_iff c quorum verifiers :
  cert_verify c quorum verifiers = true <->
  (quorum <= length (votes c))%nat /\ Forall (supports c verifiers) (votes c) /\ NoDup (idx <$> votes c).
Proof.
  unfold cert_verify.
  destruct (count_votes c verifiers (votes c) (replicate (length verifiers) false) 0) as [m|] eqn:E.
  - apply count_votes_spec in E as (-> & H1 & H2 & _); [|by rewrite length_replicate].
    rewrite Nat.leb_le. tauto.
  - split; [done|]. intros (_ & H1 & H2).
    assert (E' : count_votes c verifiers (votes c) (replicate (length verifiers) false) 0 = Some (length (votes c))).
    { apply count_votes_spec; [by rewrite length_replicate|]. repeat split; [done..|].
      eapply Forall_impl; [exact H1|]. intros sv (_ & _ & _ & _ & k & Hk & _).
      apply lookup_replicate_2. by apply lookup_lt_Some in Hk. }
    congruence.
Qed.

End verification.

(** ** Bytes *)

Definition vote_ok (v : Vote) : Prop :=
  is_u64 (height v) /\ is_u32 (round v) /\ length (block_hash v) = 32%nat /\ is_u8 (voter v).

#[global] Instance vote_ok_dec v : Decision (vote_ok v).
Proof. unfold vote_ok. apply _. Defined.

Definition sv_ok (sv : SignedVote) : Prop := vote_ok (vote sv) /\ length (sig sv) = HYBRID_SIG_LEN.

#[global] Instance sv_ok_dec sv : Decision (sv_ok sv).
Proof. unfold sv_ok. apply _. Defined.

Lemma from_code_code p : from_code (code p) = Some p.
Proof. by destruct p. Qed.

Lemma code_from_code c p : from_code c = Some p -> code p = c.
Proof. destruct c as [|[]|]; simpl; try done; by intros [= <-]. Qed.

Lemma vote_to_bytes_length v : length (block_hash v) = 32%nat -> length (vote_to_bytes v) = VOTE_LEN.
Proof. intros Hb. unfold vote_to_bytes. by rewrite !length_app, !length_be_bytes, Hb. Qed.

Lemma vote_from_to v : vote_ok v -> vote_from_bytes (vote_to_bytes v) = Some v.
Proof.
  intros (Hh & Hr & Hb & Hv). unfold vote_from_bytes.
  rewrite slice_Some by (rewrite ?vote_to_bytes_length by done; unfold VOTE_LEN; lia).
  rewrite take_ge by (rewrite length_drop, vote_to_bytes_length by done; unfold VOTE_LEN; lia).
  change (drop 0 (vote_to_bytes v)) with (vote_to_bytes v).
  destruct v as [h r b p w]. simpl in Hh, Hr, Hb, Hv. unfold vote_to_bytes.
  cbn [height round block_hash phase voter].
  set (bs := be_bytes 8 h ++ _).
  assert (Hl : forall i, (44 <= i)%nat -> bs !! i = [code p; w] !! (i - 44)%nat).
  { intros i Hi. unfold bs. rewrite !app_assoc, <- (app_assoc _ [_]), lookup_app_r;
      rewrite !length_app, !length_be_bytes, Hb; [done|lia]. }
  rewrite !Hl by lia. unfold bs.
  rewrite slice_prefix, slice_mid by (rewrite ?length_be_bytes; done).
  rewrite (app_assoc (be_bytes 8 h)), slice_mid by (rewrite ?length_app, ?length_be_bytes; lia).
  simpl. rewrite from_code_code. by rewrite !from_be_id.
Qed.

Lemma sv_to_bytes_length sv : sv_ok sv -> length (sv_to_bytes sv) = vote_len.
Proof.
  intros [(_ & _ & Hb & _) Hs]. unfold sv_to_bytes. by rewrite length_app, vote_to_bytes_length, Hs.
Qed.

Lemma sv_from_to sv : sv_ok sv -> sv_from_bytes (sv_to_bytes sv) = Some sv.
Proof.
  intros Hok. unfold sv_from_bytes. rewrite sv_to_bytes_length by done. unfold vote_len.
  rewrite Nat.eqb_refl. cbn [negb]. destruct Hok as [Hv Hs].
  assert (length (vote_to_bytes (vote sv)) = VOTE_LEN) by (apply vote_to_bytes_length; apply Hv).
  unfold sv_to_bytes. rewrite slice_prefix, vote_from_to, slice_from_app by done. by destruct sv.
Qed.

Lemma read_votes_concat svs pre :
  Forall sv_ok svs ->
  read_votes (pre ++ concat (sv_to_bytes <$> svs)) (length svs) (length pre) =
    Some (svs, (length pre + length svs * vote_len)%nat).
Proof.
  intros HF. revert pre. induction HF as [|sv svs Hsv _ IH]; intros pre.
  { cbn. f_equal. f_equal. lia. }
  rewrite fmap_cons. cbn [concat length read_votes]. rewrite slice_mid by (rewrite ?sv_to_bytes_length by done; done).
  rewrite sv_from_to by done. specialize (IH (pre ++ sv_to_bytes sv)).
  rewrite length_app, sv_to_bytes_length, <- app_assoc in IH by done. rewrite IH.
  do 2 f_equal. rewrite Nat.mul_succ_l. lia.
Qed.

Definition cert_ok (c : Certificate) : Prop :=
  is_u64 (c_height c) /\ is_u32 (c_round c) /\ length (c_block_hash c) = 32%nat /\
  Forall sv_ok (votes c) /\ Z.of_nat (length (votes c)) < 2 ^ 32.

#[global] Instance cert_ok_dec c : Decision (cert_ok c).
Proof. unfold cert_ok. apply _. Defined.

(** A certificate survives the wire: the bytes a block records as its previous commit decode to
    the very same claim and votes, in the same order, whatever the signatures contain. *)
Theorem certificate_roundtrip c : cert_ok c -> cert_from_bytes (cert_to_bytes c) = Some c.
Proof.
  intros (Hh & Hr & Hb & HF & Hn). unfold cert_from_bytes.
  set (tl := concat (sv_to_bytes <$> votes c)).
  assert (E : cert_to_bytes c = ([code (c_phase c)] ++ be_bytes 8 (c_height c) ++ be_bytes 4 (c_round c) ++
    c_block_hash c ++ be_bytes 4 (Z.of_nat (length (votes c)))) ++ tl).
  { unfold cert_to_bytes. rewrite u32_sat_small by done. by rewrite <- !app_assoc. }
  set (hd := [code (c_phase c)] ++ _) in E.
  assert (Hhd : length hd = 49%nat) by (unfold hd; rewrite !length_app, !length_be_bytes, Hb; done).
  pose proof (read_votes_concat (votes c) hd HF) as Ev. fold tl in Ev. rewrite <- E, Hhd in Ev.
  assert (El : length (cert_to_bytes c) = (49 + length (votes c) * vote_len)%nat).
  { rewrite E, length_app, Hhd. f_equal. unfold tl. clear -HF.
    induction HF as [|sv svs Hs _ IH]; [done|]. rewrite fmap_cons. cbn [concat length].
    rewrite length_app, sv_to_bytes_length, IH, Nat.mul_succ_l by done. lia. }
  rewrite El. rewrite E at 1. cbn [head app hd]. rewrite from_code_code.
  assert (S1 : slice 1 9 (cert_to_bytes c) = Some (be_bytes 8 (c_height c))).
  { rewrite E. unfold hd. rewrite <- !app_assoc. by apply (slice_mid [_]); rewrite ?length_be_bytes. }
  assert (S2 : slice 9 13 (cert_to_bytes c) = Some (be_bytes 4 (c_round c))).
  { rewrite E. unfold hd. rewrite <- !app_assoc, (app_assoc [_]). by apply slice_mid;
      rewrite ?length_app, ?length_be_bytes. }
  assert (S3 : slice 13 45 (cert_to_bytes c) = Some (c_block_hash c)).
  { rewrite E. unfold hd. rewrite <- !app_assoc, (app_assoc [_]), (app_assoc ([_] ++ _)).
    apply slice_mid; rewrite ?length_app, ?length_be_bytes, ?Hb; done. }
  assert (S4 : slice 45 49 (cert_to_bytes c) = Some (be_bytes 4 (Z.of_nat (length (votes c))))).
  { rewrite E. unfold hd. rewrite <- !app_assoc, (app_assoc [_]), (app_assoc ([_] ++ _)), (app_assoc _ (c_block_hash c)).
    apply slice_mid; rewrite ?length_app, ?length_be_bytes, ?Hb; done. }
  rewrite S1, S2, S3, S4, !from_be_id, Nat2Z.id, Ev, Nat.eqb_refl by (unfold in_u in *; simpl; lia).
  by destruct c.
Qed.

Definition w_vote : Vote := mk_vote 1 0 (replicate 32 7) Commit 3.

Lemma certificate_roundtrip_witness :
  let c := mk_cert Commit 1 0 (replicate 32 7) [mk_signed w_vote (replicate HYBRID_SIG_LEN 5)] in
  cert_from_bytes (cert_to_bytes c) = Some c.
Proof. apply certificate_roundtrip. by_decide. Defined.

End Vote.
