(* ===== verification/Incentive.v ===== *)
(** * Equivocation evidence and the incentive game

    [fanos-taxis/src/incentive.rs]: the slashable proof of equivocation, the reward split and the
    stage game whose equilibrium the module claims.  The [i128] payoffs cannot overflow (a
    coalition has fewer than [2^63] members and every parameter is a [u64]), so they are
    integers. *)
From S2P Require Import Prelude Codec Sig Params Vote.
Local Open Scope Z_scope.

Module Incentive.

Record SlashEvidence := mk_evidence {
  ev_validator : Z;
  ev_height : Z;
  ev_round : Z;
  ev_phase : Vote.Phase;
  ev_vote_a : Vote.SignedVote;
  ev_vote_b : Vote.SignedVote;
}.

Definition detect_equivocation `{Crypto} (a b : Vote.SignedVote) (verifier : HybridVerifier) :
    option SlashEvidence :=
  let va := Vote.vote a in
  let vb := Vote.vote b in
  if negb (Vote.voter va =? Vote.voter vb) || negb (Vote.height va =? Vote.height vb)
     || negb (Vote.round va =? Vote.round vb) || bool_decide (Vote.phase va <> Vote.phase vb) then None else
  if bool_decide (Vote.block_hash va = Vote.block_hash vb) then None else
  if negb (Vote.verify a verifier) || negb (Vote.verify b verifier) then None else
  Some (mk_evidence (Vote.voter va) (Vote.height va) (Vote.round va) (Vote.phase va) a b).

(** ** Payment *)

Definition reveal_gated_beneficiaries (voters : list Z) (revealers : gset Z) (block_has_txs : bool) :
    list Z :=
  filter (fun v => negb block_has_txs || bool_decide (v ∈ revealers) = true) voters.

Definition distribute (fee : Z) (eligible_signers : list Z) : list (Z * Z) :=
  match eligible_signers with
  | [] => []
  | _ => let share := fee / Z.of_nat (length eligible_signers) in
         (fun s => (s, share)) <$> eligible_signers
  end.

Record RewardParams := mk_reward { fee : Z; rq : Z; vote_cost : Z; slash : Z }.

Definition reward_per_participant (p : RewardParams) : Z := if rq p =? 0 then 0 else fee p / rq p.
Definition covers_cost (p : RewardParams) : bool := vote_cost p <=? reward_per_participant p.
Definition slashing_deters (p : RewardParams) : bool := 0 <? slash p.
Definition honest_is_nash (p : RewardParams) : bool := covers_cost p && slashing_deters p.

Inductive Economics := Unincentivised | Incentivised (p : RewardParams).

Definition reward_per_block (e : Economics) : Z :=
  match e with Unincentivised => 0 | Incentivised p => fee p end.

Definition is_runnable (e : Economics) : bool :=
  match e with Unincentivised => true | Incentivised p => honest_is_nash p end.

(** ** The stage game *)

Inductive Strategy :=
| Honest | Abstain | Equivocate | MevReorder | WithholdData | WithholdReveal | Censor.

Definition payoff (params : RewardParams) (strategy : Strategy) : Z :=
  let r := reward_per_participant params in
  let c := vote_cost params in
  let s := slash params in
  match strategy with
  | Honest => r - c
  | Abstain => 0
  | Equivocate => - s
  | MevReorder => r - c
  | WithholdData => 0
  | WithholdReveal => 0
  | Censor => 0
  end.

Definition DEVIATIONS : list Strategy :=
  [Abstain; Equivocate; MevReorder; WithholdData; WithholdReveal; Censor].

Definition best_response_is_honest (params : RewardParams) : bool :=
  if negb (honest_is_nash params) then false else
  let honest := payoff params Honest in
  forallb (fun d => payoff params d <=? honest) DEVIATIONS.

Definition blocking_threshold (cell : Params.CellParams) : Z :=
  sat_sub (Params.seal_committee_size cell) (Params.seal_threshold cell) + 1.

Definition blocks_committee (coalition : list Z) (cell : Params.CellParams) : bool :=
  let held := length (filter (fun m => m < Params.seal_committee_size cell) coalition) in
  blocking_threshold cell <=? Z.of_nat held.

Definition can_permanently_censor (coalition : list Z) (cell : Params.CellParams) : bool :=
  blocks_committee coalition cell.

Definition coalition_payoff (params : RewardParams) (cell : Params.CellParams) (coalition : list Z)
    (bribe : Z) (strategy : Strategy) : Z :=
  let k := Z.min (Z.of_nat (length coalition)) (2 ^ 64 - 1) in
  let r := reward_per_participant params in
  let c := vote_cost params in
  let s := slash params in
  match strategy with
  | Honest | MevReorder => k * (r - c)
  | Abstain | WithholdData | WithholdReveal => 0
  | Equivocate => - k * s
  | Censor => k * (r - c) + (if can_permanently_censor coalition cell then bribe else 0)
  end.

Definition COALITION_DEVIATIONS : list Strategy := DEVIATIONS.

Definition coalition_best_response_is_honest (params : RewardParams) (cell : Params.CellParams)
    (coalition : list Z) (bribe : Z) : bool :=
  if negb (honest_is_nash params) then false else
  let honest := coalition_payoff params cell coalition bribe Honest in
  forallb (fun d => coalition_payoff params cell coalition bribe d <=? honest) COALITION_DEVIATIONS.

(** ** Accountable safety *)

Lemma detect_equivocation_iff `{Crypto} a b k :
  is_Some (detect_equivocation a b k) <->
  Vote.voter (Vote.vote a) = Vote.voter (Vote.vote b) /\ Vote.height (Vote.vote a) = Vote.height (Vote.vote b) /\
  Vote.round (Vote.vote a) = Vote.round (Vote.vote b) /\ Vote.phase (Vote.vote a) = Vote.phase (Vote.vote b) /\
  Vote.block_hash (Vote.vote a) <> Vote.block_hash (Vote.vote b) /\
  Vote.verify a k = true /\ Vote.verify b k = true.
Proof.
  unfold detect_equivocation. cbv zeta.
  destruct (Z.eqb_spec (Vote.voter (Vote.vote a)) (Vote.voter (Vote.vote b)));
    destruct (Z.eqb_spec (Vote.height (Vote.vote a)) (Vote.height (Vote.vote b)));
    destruct (Z.eqb_spec (Vote.round (Vote.vote a)) (Vote.round (Vote.vote b)));
    simpl; try (split; [by intros [? [=]]|naive_solver]).
  case_bool_decide; [split; [by intros [? [=]]|naive_solver]|].
  case_bool_decide; [split; [by intros [? [=]]|naive_solver]|].
  destruct (Vote.verify a k), (Vote.verify b k); simpl; (split; [intros [? [=]]|]); naive_solver.
Qed.

(** Two duplicate-free lists of indices below [n] share at least [|a| + |b| - n] of them. *)
Lemma quorum_intersection (a b : list nat) n :
  NoDup a -> NoDup b -> Forall (fun i => i < n)%nat a -> Forall (fun i => i < n)%nat b ->
  (length a + length b <= n + length (filter (fun i => i ∈ b) a))%nat.
Proof.
  intros Ha Hb Fa Fb.
  set (A := list_to_set a : gset nat). set (B := list_to_set b : gset nat).
  assert (HA : size A = length a) by (by apply size_list_to_set).
  assert (HB : size B = length b) by (by apply size_list_to_set).
  assert (HI : (size (A ∩ B) <= length (filter (fun i => i ∈ b) a))%nat).
  { rewrite <- (size_list_to_set (C := gset nat) (filter (fun i => i ∈ b) a)) by (by apply NoDup_filter).
    apply subseteq_size. intros i. unfold A, B.
    rewrite elem_of_intersection, !elem_of_list_to_set, list_elem_of_filter. tauto. }
  assert (HU : (size (A ∪ B) <= n)%nat).
  { rewrite <- (size_set_seq (C := gset nat) 0 n). apply subseteq_size. intros i. unfold A, B.
    rewrite elem_of_union, !elem_of_list_to_set, elem_of_set_seq.
    rewrite Forall_forall in Fa, Fb. intros [Hi|Hi]; [apply Fa in Hi|apply Fb in Hi]; lia. }
  rewrite size_union_alt, size_difference_alt in HU.
  assert (size (B ∩ A) <= size B)%nat by (apply subseteq_size; set_solver).
  rewrite (intersection_comm_L B A) in *. lia.
Qed.

Section accountable.
  Context `{Crypto}.

(** Validator [i] signed conflicting votes of the two certificates, and the proof names it. *)
Definition caught (verifiers : list HybridVerifier) (c1 c2 : Vote.Certificate) (i : nat) : Prop :=
  exists k a b ev, verifiers !! i = Some k /\ a ∈ Vote.votes c1 /\ b ∈ Vote.votes c2 /\
    detect_equivocation a b k = Some ev /\ Z.to_nat (ev_validator ev) = i.

Lemma supports_index c verifiers sv : Vote.supports c verifiers sv -> (Vote.idx sv < length verifiers)%nat.
Proof. intros (_ & _ & _ & _ & k & Hk & _). by apply lookup_lt_Some in Hk. Qed.

Lemma conflicting_votes_caught verifiers c1 c2 a b :
  Vote.c_phase c1 = Vote.c_phase c2 -> Vote.c_height c1 = Vote.c_height c2 ->
  Vote.c_round c1 = Vote.c_round c2 -> Vote.c_block_hash c1 <> Vote.c_block_hash c2 ->
  a ∈ Vote.votes c1 -> b ∈ Vote.votes c2 -> Vote.voter (Vote.vote a) = Vote.voter (Vote.vote b) ->
  Vote.supports c1 verifiers a -> Vote.supports c2 verifiers b ->
  caught verifiers c1 c2 (Vote.idx a).
Proof.
  intros Ep Eh Er Hne Ha Hb Ev (Hp1 & Hh1 & Hr1 & Hb1 & k1 & Hk1 & Hv1) (Hp2 & Hh2 & Hr2 & Hb2 & k2 & Hk2 & Hv2).
  assert (k2 = k1) as -> by (rewrite <- Ev in Hk2; congruence).
  destruct (proj2 (detect_equivocation_iff a b k1)) as [ev Hev]; [repeat split; congruence|].
  exists k1, a, b, ev. repeat split; try done. clear -Hev. unfold detect_equivocation in Hev.
  repeat case_match; try done. by injection Hev as <-.
Qed.

(** C23: accountable safety of the quorum certificates.  In a cell of any order below [2^31] whose
    committee has [n] keys, if two certificates for the same height, round and phase but
    different blocks both verify at the cell's quorum, then more than [f] validators are caught:
    each signed both sides, and the two votes are evidence [detect_equivocation] accepts against
    that validator's key.  So with at most [f] equivocators no two conflicting certificates
    verify. *)
Theorem conflicting_certificates_expose_f_plus_one q0 p verifiers c1 c2 :
  q0 < 2 ^ 31 -> Params.for_order q0 = Some p -> Z.of_nat (length verifiers) = Params.n p ->
  Vote.cert_verify c1 (Z.to_nat (Params.quorum p)) verifiers = true ->
  Vote.cert_verify c2 (Z.to_nat (Params.quorum p)) verifiers = true ->
  Forall (fun sv => 0 <= Vote.voter (Vote.vote sv)) (Vote.votes c1 ++ Vote.votes c2) ->
  Vote.c_phase c1 = Vote.c_phase c2 -> Vote.c_height c1 = Vote.c_height c2 ->
  Vote.c_round c1 = Vote.c_round c2 -> Vote.c_block_hash c1 <> Vote.c_block_hash c2 ->
  exists culprits : list nat,
    NoDup culprits /\ Params.f p < Z.of_nat (length culprits) /\ Forall (caught verifiers c1 c2) culprits.
Proof.
  intros Hq Ep Hn (Q1 & S1 & N1)%Vote.cert_verify_iff (Q2 & S2 & N2)%Vote.cert_verify_iff Hv E1 E2 E3 Hne.
  destruct (Params.small_params q0 p Hq Ep) as (_ & _ & _ & _ & HQ & Hf & _).
  apply Forall_app in Hv as [V1 V2].
  exists (filter (fun i => i ∈ Vote.idx <$> Vote.votes c2) (Vote.idx <$> Vote.votes c1)).
  split; [by apply NoDup_filter|]. split.
  - pose proof (quorum_intersection _ _ (length verifiers) N1 N2) as HI. rewrite !length_fmap in HI.
    assert (F : forall c, Forall (Vote.supports c verifiers) (Vote.votes c) ->
      Forall (fun i => i < length verifiers)%nat (Vote.idx <$> Vote.votes c)).
    { intros c Hc. apply Forall_fmap. eapply Forall_impl; [exact Hc|]. apply supports_index. }
    specialize (HI (F c1 S1) (F c2 S2)). lia.
  - apply Forall_forall. intros i. rewrite list_elem_of_filter, !list_elem_of_fmap.
    intros [(b & Eb & Hb) (a & -> & Ha)]. rewrite Forall_forall in S1, S2, V1, V2.
    apply (conflicting_votes_caught verifiers c1 c2 a b); auto.
    specialize (V1 a Ha). specialize (V2 b Hb). unfold Vote.idx in Eb. lia.
Qed.

End accountable.

(** ** The equilibrium *)

Lemma distribute_sum fee0 l :
  0 <= fee0 -> l <> [] ->
  0 <= fee0 - foldr Z.add 0 (snd <$> distribute fee0 l) < Z.of_nat (length l).
Proof.
  intros Hf Hl. assert (E : forall s (l : list Z), foldr Z.add 0 (snd <$> ((fun x => (x, s)) <$> l)) = s * Z.of_nat (length l)).
  { intros s l'. induction l' as [|x l' IH]; [simpl; lia|]. csimpl. rewrite IH. lia. }
  destruct l as [|x l]; [done|]. unfold distribute. rewrite E.
  set (m := Z.of_nat (length (x :: l))). assert (0 < m) by (unfold m; simpl; lia).
  pose proof (Z.div_mod fee0 m ltac:(lia)). pose proof (Z.mod_pos_bound fee0 m ltac:(lia)). lia.
Qed.

Lemma small_coalition_cannot_censor q0 p coalition :
  q0 < 2 ^ 31 -> Params.for_order q0 = Some p -> Z.of_nat (length coalition) <= Params.f p ->
  can_permanently_censor coalition p = false.
Proof.
  intros Hq Ep Hc. destruct (Params.small_params q0 p Hq Ep) as (H2 & _ & Hn & Hf & _ & H0 & _).
  unfold can_permanently_censor, blocks_committee. apply Z.leb_gt.
  match goal with |- context [length (filter ?P coalition)] =>
    pose proof (length_filter P coalition); generalize dependent (length (filter P coalition)) end.
  intros held Hh. unfold blocking_threshold, sat_sub, Params.seal_committee_size, Params.seal_threshold. cbv zeta.
  destruct (Z.leb_spec (Z.min (Params.f p + 1) (Params.n p)) 255); lia.
Qed.

(** Honest validation is an equilibrium exactly under the two stated conditions.  The machine
    check of the unilateral game answers precisely [C1 and C2] (the per-signer reward covers the
    cost, and the slash is positive); and within a cell, for every coalition no larger than the
    fault budget and every bribe, the coalitional check answers the same, because such a
    coalition can never block the sealing committee: censorship earns nothing over honest
    play. *)
Theorem honesty_is_an_equilibrium params q0 cell coalition bribe :
  q0 < 2 ^ 31 -> Params.for_order q0 = Some cell -> Z.of_nat (length coalition) <= Params.f cell ->
  best_response_is_honest params = honest_is_nash params /\
  can_permanently_censor coalition cell = false /\
  coalition_best_response_is_honest params cell coalition bribe = honest_is_nash params.
Proof.
  intros Hq Ep Hc. pose proof (small_coalition_cannot_censor q0 cell coalition Hq Ep Hc) as Hno.
  unfold best_response_is_honest, coalition_best_response_is_honest, honest_is_nash, covers_cost, slashing_deters.
  destruct (Z.leb_spec (vote_cost params) (reward_per_participant params)); simpl; [|done].
  destruct (Z.ltb_spec 0 (slash params)); simpl; [|done]. rewrite Hno.
  unfold payoff. cbv zeta. set (k := Z.min _ _). assert (0 <= k) by lia.
  split; [|split; [done|]].
  - rewrite !andb_true_iff, !Z.leb_le. repeat split; lia.
  - rewrite !andb_true_iff, !Z.leb_le. repeat split; nia.
Qed.

(** ** Witnesses at the Fano cell *)

Definition w_key : @HybridSigSecret toy_crypto := @mk_secret toy_crypto true tt.
Definition w_cert (h : Z) : Vote.Certificate :=
  Vote.mk_cert Vote.Commit 1 0 (replicate 32 h)
    ((fun i => @Vote.sign toy_crypto (Vote.mk_vote 1 0 (replicate 32 h) Vote.Commit i) w_key) <$> seqZ 0 5).

Lemma conflicting_certificates_expose_f_plus_one_witness :
  exists culprits : list nat, NoDup culprits /\ 2 < Z.of_nat (length culprits) /\
    Forall (@caught toy_crypto (replicate 7 (@verifier_of toy_crypto w_key)) (w_cert 1) (w_cert 2)) culprits.
Proof.
  apply (@conflicting_certificates_expose_f_plus_one toy_crypto 2 Params.FANO);
    [reflexivity|vm_compute; reflexivity|reflexivity|vm_compute; reflexivity|vm_compute; reflexivity| | | | |].
  - by_decide.
  - reflexivity.
  - reflexivity.
  - reflexivity.
  - vm_compute. discriminate.
Defined.

Lemma honesty_is_an_equilibrium_witness :
  coalition_best_response_is_honest (mk_reward 100 5 10 50) Params.FANO [3; 6] 1000000 = true.
Proof.
  destruct (honesty_is_an_equilibrium (mk_reward 100 5 10 50) 2 Params.FANO [3; 6] 1000000) as (_ & _ & E);
    [reflexivity|vm_compute; reflexivity|vm_compute; discriminate|].
  rewrite E. vm_compute. reflexivity.
Defined.

End Incentive.
