(* ===== verification/Stake.v ===== *)
(** * Staking and slashing state

    [fanos-dromos/src/stake.rs]: staking operations and slashing proofs with their bytes, the
    bonded-stake ledger with the guard of already punished faults, and its snapshot. *)
From S2P Require Import Prelude Codec Sig Sums Vote Incentive Token.
Local Open Scope Z_scope.

Module Stake.

Definition STAKE_ROOT_LABEL : string := "FANOS-dromos-v1/stake-root".
Definition SLASHED_SLOT_LABEL : string := "FANOS-dromos-v1/slashed-slot".
Definition STAKE_SINK : list Z := ascii_bytes "FANOS-dromos-stake-collateral!!!".

Section txs.
  Context `{Crypto}.

Inductive StakeTx :=
| Bond (st : Token.SignedTransfer)
| Unbond (st : Token.SignedTransfer).

Definition transfer (tx : StakeTx) : Token.SignedTransfer :=
  match tx with Bond st | Unbond st => st end.

Definition tx_to_bytes (tx : StakeTx) : list Z :=
  let '(tag, st) := match tx with Bond st => (0, st) | Unbond st => (1, st) end in
  [tag] ++ Token.st_to_bytes st.

Definition tx_from_bytes (bytes : list Z) : option StakeTx :=
  match bytes with
  | [] => None
  | tag :: rest =>
      letO st := Token.st_from_bytes rest in
      match tag with 0 => Some (Bond st) | 1 => Some (Unbond st) | _ => None end
  end.

Record SlashTx := mk_slash {
  vote_a : Vote.SignedVote;
  vote_b : Vote.SignedVote;
  verifier : HybridVerifier;
}.

Definition evidence (tx : SlashTx) : option Incentive.SlashEvidence :=
  Incentive.detect_equivocation (vote_a tx) (vote_b tx) (verifier tx).

Definition slash_to_bytes (tx : SlashTx) : list Z :=
  put_var_bytes (Vote.sv_to_bytes (vote_a tx)) ++ put_var_bytes (Vote.sv_to_bytes (vote_b tx)) ++
  put_var_bytes (vk_encode (verifier tx)).

Definition slash_from_bytes (bytes : list Z) : option SlashTx :=
  let r := reader_new bytes in
  letO (ab, r) := rd_var_bytes r in
  letO a := Vote.sv_from_bytes ab in
  letO (bb, r) := rd_var_bytes r in
  letO b := Vote.sv_from_bytes bb in
  letO (kb, r) := rd_var_bytes r in
  letO k := vk_decode kb in
  if negb (rd_is_empty r) then None else Some (mk_slash a b k).

Definition slot_key (account : list Z) (ev : Incentive.SlashEvidence) : list Z :=
  hash_labeled SLASHED_SLOT_LABEL
    (account ++ be_bytes 8 (Incentive.ev_height ev) ++ be_bytes 4 (Incentive.ev_round ev) ++
     [Vote.code (Incentive.ev_phase ev)]).

End txs.

(** ** The ledger *)

Record StakeLedger := mk_stake { bonded_map : btree Z; slashed : bset }.

Definition new : StakeLedger := mk_stake ∅ ∅.

Definition bonded (s : StakeLedger) (account : list Z) : Z := default 0 (bonded_map s !! account).

Definition total_bonded (s : StakeLedger) : Z := sat_sum 64 (snd <$> btree_list (bonded_map s)).

Definition bonded_count (s : StakeLedger) : nat := size (bonded_map s).

Definition increase (s : StakeLedger) (account : list Z) (amount : Z) : StakeLedger :=
  let e := default 0 (bonded_map s !! account) in
  mk_stake (<[account := sat_add 64 e amount]> (bonded_map s)) (slashed s).

Definition decrease (s : StakeLedger) (account : list Z) (amount : Z) : bool * StakeLedger :=
  match bonded_map s !! account with
  | None => (false, s)
  | Some bal =>
      if bal <? amount then (false, s) else
      let bal := bal - amount in
      let m := <[account := bal]> (bonded_map s) in
      (true, mk_stake (if bal =? 0 then delete account m else m) (slashed s))
  end.

Definition record_slashed (s : StakeLedger) (slot : list Z) : bool * StakeLedger :=
  (bool_decide (slot ∉ slashed s), mk_stake (bonded_map s) ({[slot]} ∪ slashed s)).

Definition to_bytes (s : StakeLedger) : list Z :=
  put_u32 (u32_sat (size (bonded_map s))) ++
  concat ((fun e => fst e ++ put_u64 (snd e)) <$> btree_list (bonded_map s)) ++
  put_u32 (u32_sat (size (slashed s))) ++ concat (bset_list (slashed s)).

Definition read_stake (r : Reader) : option ((list Z * Z) * Reader) :=
  letO (acct, r) := rd_array 32 r in
  letO (amt, r) := rd_u64 r in
  Some ((acct, amt), r).

Definition from_bytes (bytes : list Z) : option StakeLedger :=
  let r := reader_new bytes in
  letO (n, r) := rd_u32 r in
  letO (entries, r) := rd_loop read_stake (Z.to_nat n) r in
  letO (m, r) := rd_u32 r in
  letO (slots, r) := rd_loop (rd_array 32) (Z.to_nat m) r in
  letO _ := rd_finish r in
  Some (mk_stake (btree_collect entries) (list_to_set slots)).

Definition state_root `{Crypto} (s : StakeLedger) : list Z := hash_labeled STAKE_ROOT_LABEL (to_bytes s).

(** ** The total *)

Definition bonded_sum (s : StakeLedger) : Z := msum id (bonded_map s).

Definition stake_ok (s : StakeLedger) : Prop := Token.values_ok (bonded_map s) /\ bonded_sum s < 2 ^ 64.

#[global] Instance stake_ok_dec s : Decision (stake_ok s).
Proof. unfold stake_ok, Token.values_ok. apply _. Defined.

Lemma total_bonded_exact s : stake_ok s -> total_bonded s = bonded_sum s.
Proof.
  intros [Hv Hlt]. apply (sat_sum_btree 64 id (bonded_map s)); [|done].
  by apply Token.values_ok_nonneg.
Qed.

Lemma bonded_le s a : stake_ok s -> 0 <= bonded s a <= bonded_sum s.
Proof.
  intros [Hv _]. unfold bonded, bonded_sum. destruct (bonded_map s !! a) as [v|] eqn:E; simpl.
  - split; [by apply (Token.values_ok_nonneg _ Hv a)|].
    by apply (msum_le id _ a); [apply Token.values_ok_nonneg|].
  - split; [done|]. apply msum_nonneg. by apply Token.values_ok_nonneg.
Qed.

Lemma increase_exact s a x :
  stake_ok s -> 0 <= x -> bonded_sum s + x < 2 ^ 64 ->
  stake_ok (increase s a x) /\ bonded_sum (increase s a x) = bonded_sum s + x /\
  (forall b, bonded (increase s a x) b = bonded s b + Token.delta a x b).
Proof.
  intros Hok Hx Hlt. pose proof (bonded_le s a Hok) as Hle. destruct Hok as [Hv Ht].
  unfold increase. fold (bonded s a).
  assert (E : sat_add 64 (bonded s a) x = bonded s a + x) by (unfold sat_add; lia). rewrite E.
  assert (Es : bonded_sum (mk_stake (<[a := bonded s a + x]> (bonded_map s)) (slashed s)) = bonded_sum s + x).
  { unfold bonded_sum. simpl. rewrite msum_insert. unfold bonded.
    destruct (bonded_map s !! a); simpl; unfold id; lia. }
  split; [split|split]; simpl.
  - apply map_Forall_insert_2; [unfold in_u; lia|done].
  - lia.
  - done.
  - intros b. unfold bonded at 1. simpl. unfold Token.delta. case_decide; subst.
    + by rewrite lookup_insert_eq.
    + rewrite lookup_insert_ne by done. fold (bonded s b). lia.
Qed.

Lemma decrease_exact s a x :
  stake_ok s -> 0 <= x <= bonded s a ->
  stake_ok (snd (decrease s a x)) /\ bonded_sum (snd (decrease s a x)) = bonded_sum s - x /\
  (forall b, bonded (snd (decrease s a x)) b = bonded s b - Token.delta a x b) /\
  (fst (decrease s a x) = true <-> is_Some (bonded_map s !! a)).
Proof.
  intros Hok Hx. pose proof (bonded_le s a Hok) as Hle. destruct Hok as [Hv Ht]. unfold decrease.
  unfold bonded in Hx, Hle. destruct (bonded_map s !! a) as [v|] eqn:E; simpl in Hx, Hle.
  2: { assert (x = 0) as -> by lia. simpl. split; [done|]. split; [lia|]. split.
       - intros b. unfold Token.delta. case_decide; lia.
       - split; [done|by intros [? ?]]. }
  rewrite (proj2 (Z.ltb_ge _ _)) by lia. cbn [fst snd bonded_map].
  pose proof (Hv a v E) as [_ Hv64].
  assert (Hnew : forall m', m' = (if v - x =? 0 then delete a (<[a := v - x]> (bonded_map s))
    else <[a := v - x]> (bonded_map s)) ->
    Token.values_ok m' /\ msum id m' = msum id (bonded_map s) - x /\
    forall b, default 0 (m' !! b) = default 0 (bonded_map s !! b) - Token.delta a x b).
  { assert (Hvi : Token.values_ok (<[a := v - x]> (bonded_map s)))
      by (apply map_Forall_insert_2; [unfold in_u in *; lia|done]).
    assert (Hsum : msum id (<[a := v - x]> (bonded_map s)) = msum id (bonded_map s) - x).
    { rewrite msum_insert, E. simpl. unfold id. lia. }
    intros m' ->. unfold Token.delta. destruct (Z.eqb_spec (v - x) 0) as [E0|E0].
    - split; [by apply map_Forall_delete|]. split.
      + rewrite (msum_delete _ _ a (v - x)) by apply lookup_insert_eq. rewrite Hsum. unfold id. lia.
      + intros b. case_decide; subst.
        * rewrite lookup_delete_eq, E. simpl. lia.
        * rewrite lookup_delete_ne, lookup_insert_ne by done. lia.
    - split; [done|]. split; [done|]. intros b. case_decide; subst.
      + rewrite lookup_insert_eq, E. done.
      + rewrite lookup_insert_ne by done. lia. }
  destruct (Hnew _ eq_refl) as (H1 & H2 & H3). unfold stake_ok, bonded_sum, bonded in *.
  cbn [bonded_map]. rewrite H2. split; [split; [done|lia]|]. split; [done|]. split; [done|by split].
Qed.

(** ** Snapshots *)

Definition keys_ok (s : StakeLedger) : Prop :=
  map_Forall (fun k _ => length k = 32%nat) (bonded_map s) /\
  set_Forall (fun k => length k = 32%nat) (slashed s) /\
  Z.of_nat (size (bonded_map s)) < 2 ^ 32 /\ Z.of_nat (size (slashed s)) < 2 ^ 32.

#[global] Instance keys_ok_dec s : Decision (keys_ok s).
Proof. unfold keys_ok. apply _. Defined.

Lemma read_stake_reads k v :
  length k = 32%nat -> is_u64 v -> reads read_stake (k ++ put_u64 v) (k, v).
Proof.
  intros Hk Hv r rest Hr E. rewrite <- app_assoc in E.
  destruct (rd_take_reads 32 k Hk r _ Hr E) as (r1 & E1 & R1 & H1).
  destruct (rd_u64_reads v Hv r1 rest H1 R1) as (r2 & E2 & R2 & H2).
  exists r2. unfold read_stake, rd_array. by rewrite E1, E2.
Qed.

(** The stake snapshot is lossless: its bytes decode to the very same bonded stakes and the very
    same set of punished faults, so a restored validator commits to the same stake root and
    refuses the same replayed proofs. *)
Theorem stake_snapshot_roundtrip s :
  Token.values_ok (bonded_map s) -> keys_ok s -> from_bytes (to_bytes s) = Some s.
Proof.
  intros Hv (Hk & Hks & Hn & Hm). unfold from_bytes.
  assert (Un : is_u32 (Z.of_nat (size (bonded_map s)))) by (split; [lia|done]).
  assert (Um : is_u32 (Z.of_nat (size (slashed s)))) by (split; [lia|done]).
  destruct (rd_new_ok (to_bytes s)) as [H0 R0].
  unfold to_bytes in R0 at 2. rewrite !u32_sat_small in R0 by done.
  destruct (rd_u32_reads _ Un _ _ H0 R0) as (r1 & E1 & R1 & H1).
  assert (F1 : Forall (fun e => reads read_stake (fst e ++ put_u64 (snd e)) e) (btree_list (bonded_map s))).
  { apply Forall_forall. intros [k v] He%btree_list_elem. apply read_stake_reads; [by apply (Hk k v)|by apply (Hv k)]. }
  destruct (rd_loop_reads read_stake (fun e => fst e ++ put_u64 (snd e)) _ F1 r1 _ H1 R1) as (r2 & E2 & R2 & H2).
  destruct (rd_u32_reads _ Um r2 _ H2 R2) as (r3 & E3 & R3 & H3).
  assert (F2 : Forall (fun k => reads (rd_array 32) (id k) k) (bset_list (slashed s))).
  { apply Forall_forall. intros k Hin%bset_list_elem. apply rd_take_reads. by apply Hks. }
  rewrite <- (app_nil_r (concat _)), <- (list_fmap_id (bset_list (slashed s))) in R3.
  destruct (rd_loop_reads (rd_array 32) id _ F2 r3 [] H3 R3) as (r4 & E4 & R4 & H4).
  rewrite btree_list_length in E2. rewrite bset_list_length in E4.
  rewrite E1, Nat2Z.id, E2, E3, Nat2Z.id, E4, (proj2 (rd_finish_iff r4 H4) R4).
  rewrite (btree_collect_perm (bonded_map s)) by apply btree_list_perm.
  assert (E : (list_to_set (bset_list (slashed s)) : bset) = slashed s).
  { apply set_eq. intros k. by rewrite elem_of_list_to_set, bset_list_elem. }
  rewrite E. by destruct s.
Qed.

Definition w_stake : StakeLedger :=
  snd (record_slashed (increase (increase new (replicate 32 1) 100) (replicate 32 2) 250) (replicate 32 9)).

Lemma stake_snapshot_roundtrip_witness : from_bytes (to_bytes w_stake) = Some w_stake.
Proof. apply stake_snapshot_roundtrip; by_decide. Defined.

End Stake.
