(* ===== verification/Hermes.v ===== *)
(** * Atomic swaps on the ledger

    [fanos-dromos/src/hermes.rs]: contract identifiers, the swap transactions and their bytes, the
    book of contracts with its root and its snapshot. *)
From S2P Require Import Prelude Codec Sig Sums Htlc Token.
Local Open Scope Z_scope.

Module Hermes.

Definition HTLC_ESCROW : list Z := ascii_bytes "FANOS-hermes-htlc-escrow-sink!!!".
Definition HTLC_ID_LABEL : string := "FANOS-dromos-v1/htlc-id".
Definition HTLC_ROOT_LABEL : string := "FANOS-dromos-v1/htlc-root".

Definition OP_LOCK : Z := 0.
Definition OP_CLAIM : Z := 1.
Definition OP_REFUND : Z := 2.

Record HtlcBook := mk_book { htlcs : btree Htlc.Htlc }.

Definition state (b : HtlcBook) (id : list Z) : option Htlc.HtlcState := Htlc.state <$> htlcs b !! id.
Definition len (b : HtlcBook) : nat := size (htlcs b).
Definition is_empty (b : HtlcBook) : bool := (len b =? 0)%nat.

Definition to_bytes (b : HtlcBook) : list Z :=
  put_map (htlcs b) (fun id h => id ++ put_var_bytes (Htlc.to_bytes h)).

Definition read_entry (r : Reader) : option ((list Z * Htlc.Htlc) * Reader) :=
  letO (id, r) := rd_array 32 r in
  letO (hb, r) := rd_var_bytes r in
  letO h := Htlc.from_bytes hb in
  Some ((id, h), r).

Definition from_bytes (bytes : list Z) : option HtlcBook :=
  let r := reader_new bytes in
  letO (m, r) := read_map 36 read_entry r in
  letO _ := rd_finish r in
  Some (mk_book m).

Section crypto.
  Context `{Crypto}.

Definition htlc_id (terms : Htlc.HtlcTerms) (funding_nonce : Z) : list Z :=
  hash_labeled HTLC_ID_LABEL (Htlc.terms_to_bytes terms ++ le_bytes 8 funding_nonce).

Definition state_root (b : HtlcBook) : list Z :=
  hash_labeled HTLC_ROOT_LABEL
    (concat ((fun e => fst e ++ [Htlc.state_code (Htlc.state (snd e))]) <$> btree_list (htlcs b))).

Inductive HtlcTx :=
| Lock (terms : Htlc.HtlcTerms) (payment : Token.SignedTransfer)
| Claim (id preimage : list Z)
| Refund (id : list Z).

Definition tx_to_bytes (tx : HtlcTx) : list Z :=
  match tx with
  | Lock terms payment => [OP_LOCK] ++ Htlc.terms_to_bytes terms ++ Token.st_to_bytes payment
  | Claim id preimage => [OP_CLAIM] ++ id ++ preimage
  | Refund id => [OP_REFUND] ++ id
  end.

Definition tx_from_bytes (bytes : list Z) : option HtlcTx :=
  match bytes with
  | [] => None
  | op :: body =>
      if op =? OP_LOCK then
        letO tb := slice 0 Htlc.TERMS_LEN body in
        letO terms := Htlc.terms_from_bytes tb in
        letO pb := slice_from Htlc.TERMS_LEN body in
        letO payment := Token.st_from_bytes pb in
        Some (Lock terms payment)
      else if op =? OP_CLAIM then
        letO id := slice 0 32 body in
        letO preimage := slice 32 64 body in
        Some (Claim id preimage)
      else if (op =? OP_REFUND) && (length body =? 32)%nat then Some (Refund body)
      else None
  end.

(** ** The transaction bytes *)

Definition tx_ok (tx : HtlcTx) : Prop :=
  match tx with
  | Lock terms payment => Htlc.terms_ok terms /\ Token.st_ok payment
  | Claim id preimage => length id = 32%nat /\ length preimage = 32%nat
  | Refund id => length id = 32%nat
  end.

Lemma tx_from_to `{!CryptoLaws} tx : tx_ok tx -> tx_from_bytes (tx_to_bytes tx) = Some tx.
Proof.
  destruct tx as [terms payment|id preimage|id]; simpl tx_ok; cbn [tx_to_bytes tx_from_bytes app].
  - intros [Ht Hp]. rewrite Z.eqb_refl.
    rewrite slice_prefix, Htlc.terms_from_to, slice_from_app by auto using Htlc.terms_to_bytes_length.
    by rewrite Token.st_from_to.
  - intros [Hi Hp]. change (OP_CLAIM =? OP_LOCK) with false. rewrite Z.eqb_refl.
    rewrite slice_prefix by done. rewrite <- (app_nil_r preimage) at 1. by rewrite slice_mid by lia.
  - intros Hi. change (OP_REFUND =? OP_LOCK) with false. change (OP_REFUND =? OP_CLAIM) with false.
    rewrite Z.eqb_refl, Hi. done.
Qed.

(** Swap transactions survive the wire, and the decoder is not canonical for claims: the bytes
    of a claim followed by anything at all decode to the same claim (while the same tail makes a
    refund malformed). *)
Theorem claim_decoding_is_malleable `{!CryptoLaws} tx tail :
  tx_ok tx ->
  tx_from_bytes (tx_to_bytes tx) = Some tx /\
  match tx with
  | Claim _ _ => tx_from_bytes (tx_to_bytes tx ++ tail) = Some tx
  | Refund _ => tail <> [] -> tx_from_bytes (tx_to_bytes tx ++ tail) = None
  | Lock _ _ => tail <> [] -> tx_from_bytes (tx_to_bytes tx ++ tail) = None
  end.
Proof.
  intros Hok. split; [by apply tx_from_to|].
  destruct tx as [terms payment|id preimage|id]; simpl in Hok;
    cbn [tx_to_bytes tx_from_bytes app]; rewrite <- ?app_assoc.
  - destruct Hok as [Ht Hp]. intros Hne. rewrite Z.eqb_refl.
    rewrite slice_prefix, Htlc.terms_from_to, slice_from_app by auto using Htlc.terms_to_bytes_length.
    assert (E : Token.st_from_bytes (Token.st_to_bytes payment ++ tail) = None); [|by rewrite E].
    unfold Token.st_from_bytes. rewrite length_app, Token.st_to_bytes_length by done.
    destruct tail; [done|]. rewrite (proj2 (Nat.eqb_neq _ _)); [done|]. unfold Token.WIRE_LEN. simpl length. lia.
  - destruct Hok as [Hi Hp]. change (OP_CLAIM =? OP_LOCK) with false. rewrite Z.eqb_refl.
    rewrite slice_prefix by done. rewrite slice_mid by lia. done.
  - intros Hne. change (OP_REFUND =? OP_LOCK) with false. change (OP_REFUND =? OP_CLAIM) with false.
    rewrite Z.eqb_refl, length_app, Hok. destruct tail; [done|].
    rewrite (proj2 (Nat.eqb_neq _ _)); [done|]. simpl. lia.
Qed.

End crypto.

(** ** Snapshots *)

Definition book_ok (b : HtlcBook) : Prop :=
  map_Forall (fun k h => length k = 32%nat /\ Htlc.terms_ok (Htlc.terms h)) (htlcs b) /\
  Z.of_nat (size (htlcs b)) < 2 ^ 32.

#[global] Instance book_ok_dec b : Decision (book_ok b).
Proof. unfold book_ok. apply _. Defined.

Lemma read_entry_reads k h :
  length k = 32%nat -> Htlc.terms_ok (Htlc.terms h) ->
  reads read_entry (k ++ put_var_bytes (Htlc.to_bytes h)) (k, h).
Proof.
  intros Hk Hh r rest Hr E. rewrite <- app_assoc in E.
  destruct (rd_take_reads 32 k Hk r _ Hr E) as (r1 & E1 & R1 & H1).
  assert (Hl : Z.of_nat (length (Htlc.to_bytes h)) < 2 ^ 32).
  { unfold Htlc.to_bytes. rewrite length_app, Htlc.terms_to_bytes_length by done.
    unfold Htlc.TERMS_LEN. simpl length. lia. }
  destruct (rd_var_bytes_reads _ Hl r1 rest H1 R1) as (r2 & E2 & R2 & H2).
  exists r2. unfold read_entry, rd_array. by rewrite E1, E2, Htlc.htlc_from_to.
Qed.

(** The snapshot of the swap book is lossless: it decodes to the same contracts, under the same
    identifiers, in the same lifecycle states. *)
Theorem htlc_book_roundtrip b : book_ok b -> from_bytes (to_bytes b) = Some b.
Proof.
  intros [Hb Hs]. unfold from_bytes. destruct (rd_new_ok (to_bytes b)) as [H0 R0].
  rewrite <- (app_nil_r (to_bytes b)) in R0 at 2.
  assert (Hr : reads (read_map 36 read_entry) (to_bytes b) (htlcs b)).
  { unfold to_bytes. refine (read_map_reads (fun id h => id ++ put_var_bytes (Htlc.to_bytes h)) read_entry 36 _ _ Hs _); [lia|].
    intros k h Hk. apply Hb in Hk as [Hl Hh].
    split; [by apply read_entry_reads|]. unfold put_var_bytes, put_u32.
    rewrite !length_app, length_le_bytes, Hl. lia. }
  destruct (Hr _ [] H0 R0) as (r' & E & R & H). rewrite E, (proj2 (rd_finish_iff r' H) R).
  by destruct b.
Qed.

Definition w_book : HtlcBook := mk_book {[ replicate 32 3 := Htlc.new Htlc.sample_terms ]}.

Lemma htlc_book_roundtrip_witness : from_bytes (to_bytes w_book) = Some w_book.
Proof. apply htlc_book_roundtrip. by_decide. Defined.

Lemma claim_decoding_is_malleable_witness :
  @tx_from_bytes toy_crypto (@tx_to_bytes toy_crypto (Claim (replicate 32 1) (replicate 32 2)) ++ [9; 9]) =
    Some (Claim (replicate 32 1) (replicate 32 2)).
Proof.
  apply (@claim_decoding_is_malleable toy_crypto toy_laws (Claim (replicate 32 1) (replicate 32 2)) [9; 9]).
  split; reflexivity.
Defined.

End Hermes.
