(* ===== verification/Ledger.v ===== *)
(** * The hybrid ledger: escrow, staking and slashing

    [fanos-dromos/src/hybrid.rs]: the transparent, swap, staking and slashing transactions over the
    token ledger, the swap book and the stake ledger, and the conservation of the two keyless
    sinks that back them.  The shielded pool, the name registry, the storage market and the term
    evaluator keep their own state, which these operations never touch. *)
From S2P Require Import Prelude Codec Sig Sums Htlc Vote Incentive Token Stake Hermes.
Local Open Scope Z_scope.

Module Ledger.

Definition TREASURY : list Z := ascii_bytes "FANOS-onoma-treasury-v1-account!".

Record HybridLedger := mk_hybrid {
  tokens : Token.TokenLedger;
  htlcs : Hermes.HtlcBook;
  stake : Stake.StakeLedger;
  height : Z;
}.

Definition new (genesis_tokens : Token.TokenLedger) : HybridLedger :=
  mk_hybrid genesis_tokens (Hermes.mk_book ∅) Stake.new 0.

Inductive ExecOutcome := Applied | Rejected | Deferred | Malformed.

Definition outcome (ok : bool) : ExecOutcome := if ok then Applied else Rejected.

(** The saturating total of the still-locked contracts. *)
Definition locked_total (L : HybridLedger) : Z :=
  sat_sum 64 ((fun e => Htlc.amount (Htlc.terms (snd e))) <$>
    filter (fun e => Htlc.state (snd e) = Htlc.Locked) (btree_list (Hermes.htlcs (htlcs L)))).

(** [Conservation::stake] and [Conservation::htlc]: what the sink holds and what it owes. *)
Definition conservation_stake (L : HybridLedger) : Z * Z :=
  (Token.balance (tokens L) Stake.STAKE_SINK, Stake.total_bonded (stake L)).
Definition conservation_htlc (L : HybridLedger) : Z * Z :=
  (Token.balance (tokens L) Hermes.HTLC_ESCROW, locked_total L).

Section ops.
  Context `{Crypto}.

(** [None] is premature (the funding nonce is ahead). *)
Definition lock_htlc (L : HybridLedger) (terms : Htlc.HtlcTerms) (payment : Token.SignedTransfer) :
    option bool * HybridLedger :=
  let t := Token.transfer payment in
  if (Htlc.amount terms =? 0) || negb (Token.verify payment)
     || bool_decide (Token.t_from t <> Htlc.sender terms)
     || bool_decide (Token.t_to t <> Hermes.HTLC_ESCROW)
     || negb (Token.t_amount t =? Htlc.amount terms) then (Some false, L) else
  let id := Hermes.htlc_id terms (Token.t_nonce t) in
  if bool_decide (is_Some (Hermes.htlcs (htlcs L) !! id)) then (Some false, L) else
  if Token.is_premature (tokens L) payment then (None, L) else
  match Token.apply (tokens L) payment with
  | (Err _, _) => (Some false, L)
  | (Ok _, tokens') =>
      (Some true, mk_hybrid tokens' (Hermes.mk_book (<[id := Htlc.new terms]> (Hermes.htlcs (htlcs L))))
                    (stake L) (height L))
  end.

(** The shared tail of a claim and a refund: store the resolved contract and release the escrow;
    the result of the release is only asserted in debug builds. *)
Definition settle_htlc (L : HybridLedger) (id : list Z) (r : option Htlc.Resolution * Htlc.Htlc) :
    bool * HybridLedger :=
  match r with
  | (None, _) => (false, L)
  | (Some (Htlc.Pay to amount), h') =>
      (true, mk_hybrid (snd (Token.move_system (tokens L) Hermes.HTLC_ESCROW to amount))
               (Hermes.mk_book (<[id := h']> (Hermes.htlcs (htlcs L)))) (stake L) (height L))
  end.

Definition claim_htlc (L : HybridLedger) (id preimage : list Z) : bool * HybridLedger :=
  match Hermes.htlcs (htlcs L) !! id with
  | None => (false, L)
  | Some h => settle_htlc L id (Htlc.claim h preimage (height L))
  end.

Definition refund_htlc (L : HybridLedger) (id : list Z) : bool * HybridLedger :=
  match Hermes.htlcs (htlcs L) !! id with
  | None => (false, L)
  | Some h => settle_htlc L id (Htlc.refund h (height L))
  end.

Definition apply_stake (L : HybridLedger) (tx : Stake.StakeTx) : bool * HybridLedger :=
  let st := Stake.transfer tx in
  let t := Token.transfer st in
  if bool_decide (Token.t_to t <> Stake.STAKE_SINK) then (false, L) else
  match tx with
  | Stake.Bond _ =>
      match Token.apply (tokens L) st with
      | (Ok _, tokens') =>
          (true, mk_hybrid tokens' (htlcs L)
                   (Stake.increase (stake L) (Token.t_from t) (Token.t_amount t)) (height L))
      | (Err _, _) => (false, L)
      end
  | Stake.Unbond _ =>
      if negb (Token.verify st) || (Stake.bonded (stake L) (Token.t_from t) <? Token.t_amount t)
      then (false, L) else
      let '(ok, tokens1) := Token.consume_nonce (tokens L) (Token.t_from t) (Token.t_nonce t) in
      if negb ok then (false, L) else
      let stake' := snd (Stake.decrease (stake L) (Token.t_from t) (Token.t_amount t)) in
      let tokens2 := snd (Token.move_system tokens1 Stake.STAKE_SINK (Token.t_from t) (Token.t_amount t)) in
      (true, mk_hybrid tokens2 (htlcs L) stake' (height L))
  end.

Definition apply_slash (L : HybridLedger) (tx : Stake.SlashTx) : bool * HybridLedger :=
  match Stake.evidence tx with
  | None => (false, L)
  | Some ev =>
      let account := Token.account_id (Stake.verifier tx) in
      let slot := Stake.slot_key account ev in
      let '(fresh, stake1) := Stake.record_slashed (stake L) slot in
      if negb fresh then (false, mk_hybrid (tokens L) (htlcs L) stake1 (height L)) else
      let amount := Stake.bonded stake1 account in
      if 0 <? amount then
        let stake2 := snd (Stake.decrease stake1 account amount) in
        let tokens' := snd (Token.move_system (tokens L) Stake.STAKE_SINK TREASURY amount) in
        (true, mk_hybrid tokens' (htlcs L) stake2 (height L))
      else (true, mk_hybrid (tokens L) (htlcs L) stake1 (height L))
  end.

(** ** Transactions *)

Inductive Tx :=
| TxTransparent (st : Token.SignedTransfer)
| TxHtlc (tx : Hermes.HtlcTx)
| TxStake (tx : Stake.StakeTx)
| TxSlash (tx : Stake.SlashTx).

(** The arms of [apply_with_verdict] for these tags, on the decoded body. *)
Definition exec_transparent (L : HybridLedger) (st : Token.SignedTransfer) : ExecOutcome * HybridLedger :=
  match Token.apply_with_verdict (tokens L) st (Token.verify st) with
  | (Ok _, tokens') => (Applied, mk_hybrid tokens' (htlcs L) (stake L) (height L))
  | (Err Token.NonceAhead, _) => (Deferred, L)
  | (Err _, _) => (Rejected, L)
  end.

Definition exec_htlc (L : HybridLedger) (tx : Hermes.HtlcTx) : ExecOutcome * HybridLedger :=
  match tx with
  | Hermes.Lock terms payment =>
      let '(r, L') := lock_htlc L terms payment in
      (match r with None => Deferred | Some ok => outcome ok end, L')
  | Hermes.Claim id preimage =>
      match Hermes.state (htlcs L) id with
      | None => (Deferred, L)
      | Some _ => let '(ok, L') := claim_htlc L id preimage in (outcome ok, L')
      end
  | Hermes.Refund id =>
      match Hermes.state (htlcs L) id with
      | None => (Deferred, L)
      | Some _ => let '(ok, L') := refund_htlc L id in (outcome ok, L')
      end
  end.

Definition exec_stake (L : HybridLedger) (tx : Stake.StakeTx) : ExecOutcome * HybridLedger :=
  let '(ok, L') := apply_stake L tx in (outcome ok, L').

Definition exec_slash (L : HybridLedger) (tx : Stake.SlashTx) : ExecOutcome * HybridLedger :=
  let '(ok, L') := apply_slash L tx in (outcome ok, L').

Definition exec (L : HybridLedger) (tx : Tx) : ExecOutcome * HybridLedger :=
  match tx with
  | TxTransparent st => exec_transparent L st
  | TxHtlc tx => exec_htlc L tx
  | TxStake tx => exec_stake L tx
  | TxSlash tx => exec_slash L tx
  end.

(** The two effects of [begin_block] on this state. *)
Definition set_height (L : HybridLedger) (h : Z) : HybridLedger :=
  mk_hybrid (tokens L) (htlcs L) (stake L) h.

Definition prune_htlcs (L : HybridLedger) : HybridLedger :=
  mk_hybrid (tokens L)
    (Hermes.mk_book (filter (fun e => Htlc.state (snd e) = Htlc.Locked) (Hermes.htlcs (htlcs L))))
    (stake L) (height L).

Inductive event := Exec (tx : Tx) | BeginBlock (h : Z).

Definition step (L : HybridLedger) (e : event) : HybridLedger :=
  match e with
  | Exec tx => snd (exec L tx)
  | BeginBlock h => prune_htlcs (set_height L h)
  end.

Definition run (L : HybridLedger) (es : list event) : HybridLedger := fold_left step es L.

End ops.

(** ** The conservation invariant *)

Definition locked_amount (h : Htlc.Htlc) : Z :=
  if decide (Htlc.state h = Htlc.Locked) then Htlc.amount (Htlc.terms h) else 0.

Definition locked_sum (L : HybridLedger) : Z := msum locked_amount (Hermes.htlcs (htlcs L)).

Definition is_sink (a : list Z) : Prop := a = Stake.STAKE_SINK \/ a = Hermes.HTLC_ESCROW.

#[global] Instance is_sink_dec a : Decision (is_sink a).
Proof. unfold is_sink. apply _. Defined.

Definition contract_ok (h : Htlc.Htlc) : Prop :=
  0 <= Htlc.amount (Htlc.terms h) /\ ~ is_sink (Htlc.recipient (Htlc.terms h)) /\
  ~ is_sink (Htlc.sender (Htlc.terms h)).

(** Both sinks hold exactly what they owe, the supply fits, and no open contract pays a sink. *)
Definition inv (L : HybridLedger) : Prop :=
  Token.ledger_ok (tokens L) /\ Token.values_ok (Stake.bonded_map (stake L)) /\
  Stake.bonded_sum (stake L) = Token.balance (tokens L) Stake.STAKE_SINK /\
  locked_sum L = Token.balance (tokens L) Hermes.HTLC_ESCROW /\
  map_Forall (fun _ h => contract_ok h) (Hermes.htlcs (htlcs L)).

#[global] Instance inv_dec L : Decision (inv L).
Proof. unfold inv, contract_ok, Token.values_ok. apply _. Defined.

Lemma sinks_distinct : Stake.STAKE_SINK <> Hermes.HTLC_ESCROW.
Proof. by vm_compute. Qed.

Lemma treasury_not_sink : ~ is_sink TREASURY.
Proof. intros [E|E]; by vm_compute in E. Qed.

Lemma locked_amount_nonneg (m : btree Htlc.Htlc) : map_Forall (fun _ h => contract_ok h) m ->
  forall (k : list Z) h, m !! k = Some h -> 0 <= locked_amount h.
Proof. intros Hm k h Hk. unfold locked_amount. case_decide; [|done]. by apply Hm in Hk as [? _]. Qed.

Lemma inv_stake_ok L : inv L -> Stake.stake_ok (stake L).
Proof.
  intros (Hok & Hv & Hs & _). split; [done|]. rewrite Hs. by apply Token.balance_range.
Qed.

(** The saturating sum the ledger computes is the exact one. *)
Lemma locked_total_exact L :
  map_Forall (fun _ h => contract_ok h) (Hermes.htlcs (htlcs L)) -> locked_sum L < 2 ^ 64 ->
  locked_total L = locked_sum L.
Proof.
  intros Hc Hlt. change (locked_sum L) with
    (msum (counted (fun h => Htlc.state h = Htlc.Locked) (fun h => Htlc.amount (Htlc.terms h))) (Hermes.htlcs (htlcs L))) in *.
  rewrite <- (sat_sum_filtered 64); [done| |done].
  intros k h Hk _. by apply Hc in Hk as [? _].
Qed.

Lemma inv_conserves L :
  inv L -> fst (conservation_stake L) = snd (conservation_stake L) /\
           fst (conservation_htlc L) = snd (conservation_htlc L).
Proof.
  intros Hi. pose proof (inv_stake_ok L Hi) as Hso. destruct Hi as (Hok & Hv & Hs & Hh & Hc). simpl. split.
  - by rewrite Stake.total_bonded_exact.
  - rewrite locked_total_exact; [done|done|]. rewrite Hh. by apply Token.balance_range.
Qed.

Lemma delta_ne a x b : b <> a -> Token.delta a x b = 0.
Proof. intros. unfold Token.delta. by rewrite decide_False. Qed.

Lemma delta_eq a x : Token.delta a x a = x.
Proof. unfold Token.delta. by rewrite decide_True. Qed.

(** A system move out of an account that holds the amount happens, exactly. *)
Lemma move_system_exact l from to x :
  Token.ledger_ok l -> 0 <= x <= Token.balance l from ->
  let l' := snd (Token.move_system l from to x) in
  Token.ledger_ok l' /\ Token.total l' = Token.total l /\
  (forall b, Token.balance l' b = Token.balance l b - Token.delta from x b + Token.delta to x b).
Proof.
  intros Hok Hx. unfold Token.move_system. rewrite (proj2 (Z.ltb_ge _ _)) by lia. simpl.
  by destruct (Token.move_exact l from to x Hok Hx) as (? & ? & ? & _).
Qed.

(** An account that is neither end of a payment keeps its balance, whatever the payment does. *)
Lemma move_untouched l from to x b : b <> from -> b <> to ->
  Token.balance (Token.credit (Token.debit l from x) to x) b = Token.balance l b.
Proof.
  intros Hf Ht. unfold Token.balance, Token.credit, Token.debit. cbn [Token.balances].
  rewrite lookup_insert_ne by done. case_match; [|done]. cbn [Token.balances]. by rewrite lookup_insert_ne.
Qed.

Lemma move_system_untouched l from to x b : b <> from -> b <> to ->
  Token.balance (snd (Token.move_system l from to x)) b = Token.balance l b.
Proof. intros. unfold Token.move_system. case_match; [done|]. by apply move_untouched. Qed.

Lemma apply_untouched `{Crypto} l st b : b <> Token.t_from (Token.transfer st) -> b <> Token.t_to (Token.transfer st) ->
  Token.balance (snd (Token.apply l st)) b = Token.balance l b.
Proof.
  intros. unfold Token.apply, Token.apply_with_verdict. cbv zeta. repeat (case_match; [done|]). cbn [snd].
  rewrite <- (move_untouched l (Token.t_from (Token.transfer st)) (Token.t_to (Token.transfer st)) (Token.t_amount (Token.transfer st)) b) by done.
  done.
Qed.

Section conservation.
  Context `{Crypto}.
  (** The sinks are keyless: no verifying key hashes to them. *)
  Hypothesis keyless : forall k, ~ is_sink (Token.account_id k).

(** The transactions in scope: well-typed amounts, no plain transfer to a sink, and no contract
    that names a sink as its recipient. *)
Definition tx_ok (tx : Tx) : Prop :=
  match tx with
  | TxTransparent st => Token.transfer_ok (Token.transfer st) /\ ~ is_sink (Token.t_to (Token.transfer st))
  | TxHtlc (Hermes.Lock terms payment) =>
      Token.transfer_ok (Token.transfer payment) /\ ~ is_sink (Htlc.recipient terms)
  | TxHtlc _ => True
  | TxStake tx => Token.transfer_ok (Token.transfer (Stake.transfer tx))
  | TxSlash _ => True
  end.

Definition event_ok (e : event) : Prop := match e with Exec tx => tx_ok tx | BeginBlock _ => True end.

Lemma verify_from st : Token.verify st = true -> ~ is_sink (Token.t_from (Token.transfer st)).
Proof.
  unfold Token.verify. case_bool_decide as E; [done|]. rewrite <- E. intros _. apply keyless.
Qed.

Lemma sender_not_sink a : ~ is_sink a -> Stake.STAKE_SINK <> a /\ Hermes.HTLC_ESCROW <> a.
Proof. unfold is_sink. naive_solver. Qed.

(** What a settled transfer does to the two sinks. *)
Lemma settled_sinks l st l' :
  Token.ledger_ok l -> Token.transfer_ok (Token.transfer st) -> Token.apply l st = (Ok tt, l') ->
  Token.ledger_ok l' /\ Token.total l' = Token.total l /\
  ~ is_sink (Token.t_from (Token.transfer st)) /\ 0 <= Token.t_amount (Token.transfer st) /\
  forall b, is_sink b ->
    Token.balance l' b = Token.balance l b + Token.delta (Token.t_to (Token.transfer st)) (Token.t_amount (Token.transfer st)) b.
Proof.
  intros Hok Ht E. pose proof (Token.apply_settles l st Hok Ht) as Hs. rewrite E in Hs.
  destruct Hs as (Hv & (_ & _ & Hb & _) & Hok' & Htot). apply verify_from in Hv.
  split; [done|]. split; [done|]. split; [done|]. split; [apply Ht|]. intros b Hsb.
  rewrite Hb, (delta_ne (Token.t_from _)); [lia|]. by intros ->.
Qed.

Lemma lock_preserves L terms payment :
  inv L -> Token.transfer_ok (Token.transfer payment) -> ~ is_sink (Htlc.recipient terms) ->
  inv (snd (lock_htlc L terms payment)) /\
  Token.total (tokens (snd (lock_htlc L terms payment))) = Token.total (tokens L).
Proof.
  intros Hi Ht Hr. unfold lock_htlc. cbv zeta.
  match goal with |- context [if ?b then (Some false, L) else _] => destruct b eqn:Eg end; [done|].
  rewrite !orb_false_iff, negb_false_iff, !bool_decide_eq_false, Z.eqb_neq, negb_false_iff, Z.eqb_eq in Eg.
  destruct Eg as ((((Hnz & Hv) & Ef%dec_stable) & Eto%dec_stable) & Ea).
  case_bool_decide as Hid; [done|]. apply eq_None_not_Some in Hid.
  destruct (Token.is_premature _ _); [done|].
  destruct (Token.apply (tokens L) payment) as [[[]|e] l'] eqn:E; [|done]. cbn [snd tokens].
  destruct Hi as (Hok & Hsv & Hs & Hh & Hc).
  destruct (settled_sinks _ _ _ Hok Ht E) as (Hok' & Htot & Hf & Ha & Hb).
  split; [|done]. unfold inv. cbn [tokens htlcs stake Hermes.htlcs].
  split; [done|]. split; [done|]. rewrite Eto, Ea in Hb.
  rewrite !Hb by (unfold is_sink; auto). rewrite delta_eq, delta_ne by apply sinks_distinct.
  split; [lia|]. split.
  - unfold locked_sum in *. cbn [htlcs Hermes.htlcs]. rewrite msum_insert_new by done.
    unfold locked_amount at 1. simpl. rewrite Hh. lia.
  - apply map_Forall_insert_2; [|done]. unfold contract_ok. simpl. rewrite <- Ea, <- Ef. done.
Qed.

(** Resolving a locked contract: the escrow releases exactly what it owed for it. *)
Lemma settle_preserves L id h to h' :
  inv L -> Hermes.htlcs (htlcs L) !! id = Some h -> Htlc.state h = Htlc.Locked ->
  Htlc.state h' <> Htlc.Locked -> Htlc.terms h' = Htlc.terms h -> ~ is_sink to ->
  let L' := snd (settle_htlc L id (Some (Htlc.Pay to (Htlc.amount (Htlc.terms h))), h')) in
  inv L' /\ Token.total (tokens L') = Token.total (tokens L).
Proof.
  intros (Hok & Hsv & Hs & Hh & Hc) Hid Hlk Hres Ht Hto. simpl.
  pose proof (locked_amount_nonneg _ Hc) as Hnn. pose proof (Hc id h Hid) as Hch.
  assert (Hx : 0 <= Htlc.amount (Htlc.terms h) <= Token.balance (tokens L) Hermes.HTLC_ESCROW).
  { rewrite <- Hh. split; [apply Hch|]. pose proof (msum_le locked_amount _ id h Hnn Hid) as Hle.
    unfold locked_amount at 1 in Hle. by rewrite decide_True in Hle. }
  destruct (move_system_exact (tokens L) Hermes.HTLC_ESCROW to _ Hok Hx) as (Hok' & Htot & Hb).
  split; [|done]. unfold inv. cbn [tokens htlcs stake Hermes.htlcs].
  destruct (sender_not_sink to Hto). pose proof sinks_distinct.
  split; [done|]. split; [done|]. rewrite !Hb, delta_eq, !(delta_ne to), delta_ne by done.
  split; [lia|]. split.
  - unfold locked_sum in *. cbn [htlcs Hermes.htlcs]. rewrite msum_insert, Hid, Hh. simpl.
    unfold locked_amount. rewrite decide_True, decide_False by done. lia.
  - apply map_Forall_insert_2; [|done]. unfold contract_ok. by rewrite Ht.
Qed.

Lemma claim_preserves L id preimage :
  inv L -> inv (snd (claim_htlc L id preimage)) /\
  Token.total (tokens (snd (claim_htlc L id preimage))) = Token.total (tokens L).
Proof.
  intros Hi. unfold claim_htlc. destruct (Hermes.htlcs (htlcs L) !! id) as [h|] eqn:E; [|done].
  pose proof (Htlc.run_locked h (Htlc.OpClaim preimage) (height L)) as Hr. simpl in Hr.
  destruct (Htlc.claim h preimage (height L)) as [[r|] h']; [|done].
  destruct Hr as (Hlk & Ht & Hres). inversion Hres; subst.
  apply settle_preserves with (h := h); [done|done|done| |done|].
  - congruence.
  - destruct Hi as (_ & _ & _ & _ & Hc). by apply Hc in E as (_ & ? & _).
Qed.

Lemma refund_preserves L id :
  inv L -> inv (snd (refund_htlc L id)) /\
  Token.total (tokens (snd (refund_htlc L id))) = Token.total (tokens L).
Proof.
  intros Hi. unfold refund_htlc. destruct (Hermes.htlcs (htlcs L) !! id) as [h|] eqn:E; [|done].
  pose proof (Htlc.run_locked h Htlc.OpRefund (height L)) as Hr. simpl in Hr.
  destruct (Htlc.refund h (height L)) as [[r|] h']; [|done].
  destruct Hr as (Hlk & Ht & Hres). inversion Hres; subst.
  apply settle_preserves with (h := h); [done|done|done| |done|].
  - congruence.
  - destruct Hi as (_ & _ & _ & _ & Hc). by apply Hc in E as (_ & _ & ?).
Qed.

Lemma transparent_preserves L st :
  inv L -> Token.transfer_ok (Token.transfer st) -> ~ is_sink (Token.t_to (Token.transfer st)) ->
  inv (snd (exec L (TxTransparent st))) /\
  Token.total (tokens (snd (exec L (TxTransparent st)))) = Token.total (tokens L).
Proof.
  intros Hi Ht Hto. cbn [exec]. unfold exec_transparent. fold (Token.apply (tokens L) st).
  destruct (Token.apply (tokens L) st) as [[[]|e] l'] eqn:E; [|by destruct e]. cbn [snd tokens].
  destruct Hi as (Hok & Hsv & Hs & Hh & Hc).
  destruct (settled_sinks _ _ _ Hok Ht E) as (Hok' & Htot & Hf & Ha & Hb).
  split; [|done]. unfold inv. cbn [tokens htlcs stake].
  destruct (sender_not_sink _ Hto).
  rewrite !Hb, !delta_ne by (unfold is_sink; auto). rewrite !Z.add_0_r. done.
Qed.

(** Taking [x] out of a bond and out of the sink, towards an account that is not a sink. *)
Lemma release_preserves L tokens1 a to x :
  inv L -> Token.ledger_ok tokens1 ->
  (forall b, Token.balance tokens1 b = Token.balance (tokens L) b) ->
  0 <= x <= Stake.bonded (stake L) a -> ~ is_sink to ->
  let L' := mk_hybrid (snd (Token.move_system tokens1 Stake.STAKE_SINK to x)) (htlcs L)
              (snd (Stake.decrease (stake L) a x)) (height L) in
  inv L' /\ Token.total (tokens L') = Token.total tokens1.
Proof.
  intros Hi Hok1 Hb1 Hx Hto. pose proof (inv_stake_ok L Hi) as Hso.
  destruct Hi as (Hok & Hsv & Hs & Hh & Hc). pose proof (Stake.bonded_le (stake L) a Hso) as Hle.
  destruct (Stake.decrease_exact (stake L) a x Hso Hx) as ([Hsv' _] & Hsum & _ & _).
  destruct (move_system_exact tokens1 Stake.STAKE_SINK to x Hok1) as (Hok' & Htot & Hb);
    [rewrite Hb1; lia|].
  split; [|done]. unfold inv, locked_sum in *. cbn [tokens htlcs stake].
  destruct (sender_not_sink to Hto). pose proof sinks_distinct.
  split; [done|]. split; [done|]. rewrite !Hb, !Hb1, delta_eq, !(delta_ne to), delta_ne by done.
  split; [lia|]. split; [lia|done].
Qed.

Lemma stake_preserves L tx :
  inv L -> Token.transfer_ok (Token.transfer (Stake.transfer tx)) ->
  inv (snd (apply_stake L tx)) /\
  Token.total (tokens (snd (apply_stake L tx))) = Token.total (tokens L).
Proof.
  intros Hi Ht. unfold apply_stake. cbv zeta. case_bool_decide as Eto; [done|].
  set (st := Stake.transfer tx) in *. set (t := Token.transfer st) in *. destruct tx as [st'|st'].
  - destruct (Token.apply (tokens L) st) as [[[]|e] l'] eqn:E; [|done]. cbn [snd tokens].
    pose proof (inv_stake_ok L Hi) as Hso. destruct Hi as (Hok & Hsv & Hs & Hh & Hc).
    destruct (settled_sinks _ _ _ Hok Ht E) as (Hok' & Htot & Hf & Ha & Hb). fold t in Hb, Ha.
    split; [|done]. rewrite Eto in Hb. pose proof sinks_distinct.
    pose proof (Hb Stake.STAKE_SINK ltac:(by left)) as Hbs. rewrite delta_eq in Hbs.
    pose proof (Hb Hermes.HTLC_ESCROW ltac:(by right)) as Hbh. rewrite delta_ne in Hbh by done.
    pose proof (Token.balance_range l' Stake.STAKE_SINK Hok') as [_ Hlt].
    destruct (Stake.increase_exact (stake L) (Token.t_from t) (Token.t_amount t) Hso Ha) as ([Hsv' _] & Hsum & _);
      [lia|].
    unfold inv, locked_sum in *. cbn [tokens htlcs stake].
    split; [done|]. split; [done|]. split; [lia|]. split; [lia|done].
  - destruct (negb (Token.verify st) || _) eqn:Eg; [done|].
    rewrite orb_false_iff, negb_false_iff, Z.ltb_ge in Eg. destruct Eg as [Hv Hle].
    unfold Token.consume_nonce. destruct (negb (_ =? Token.t_nonce t)); [done|]. cbn [snd negb].
    destruct (Token.bump_nonce_exact (tokens L) (Token.t_from t)) as (Hok1 & Htot1 & Hb1 & _); [apply Hi|].
    rewrite <- Htot1. apply release_preserves; try done; [split; [apply Ht|done]|by apply verify_from].
Qed.

Lemma slash_preserves L tx :
  inv L -> inv (snd (apply_slash L tx)) /\
  Token.total (tokens (snd (apply_slash L tx))) = Token.total (tokens L).
Proof.
  intros Hi. unfold apply_slash. destruct (Stake.evidence tx) as [ev|]; [|done]. cbv zeta.
  destruct (Stake.record_slashed (stake L) _) as [fresh s1] eqn:Er.
  assert (Hi1 : inv (mk_hybrid (tokens L) (htlcs L) s1 (height L))).
  { unfold Stake.record_slashed in Er. injection Er as _ <-. exact Hi. }
  destruct fresh; cbn [negb]; [|done]. case_match eqn:Ep; [|done]. cbn [snd]. apply Z.ltb_lt in Ep.
  apply (release_preserves (mk_hybrid (tokens L) (htlcs L) s1 (height L)) (tokens L) _ TREASURY);
    [done|apply Hi|done|simpl; lia|apply treasury_not_sink].
Qed.

Lemma prune_preserves L h : inv L -> inv (prune_htlcs (set_height L h)).
Proof.
  intros (Hok & Hsv & Hs & Hh & Hc). unfold inv, locked_sum in *. cbn [prune_htlcs set_height tokens htlcs stake Hermes.htlcs].
  split; [done|]. split; [done|]. split; [done|]. split.
  2: { intros k h' [Hk _]%map_lookup_filter_Some. by apply (Hc k). }
  rewrite <- Hh. refine (msum_filter (fun h => Htlc.state h = Htlc.Locked) locked_amount _ _). intros k c _ Hn. unfold locked_amount. by rewrite decide_False.
Qed.

Lemma step_preserves L e :
  inv L -> event_ok e -> inv (step L e) /\ Token.total (tokens (step L e)) = Token.total (tokens L).
Proof.
  intros Hi He. destruct e as [[st|[terms payment|id preimage|id]|tx|tx]|h]; cbn [step exec exec_htlc]; unfold exec_transparent, exec_stake, exec_slash.
  - destruct He. by apply transparent_preserves.
  - pose proof (lock_preserves L terms payment Hi (proj1 He) (proj2 He)).
    by destruct (lock_htlc L terms payment).
  - pose proof (claim_preserves L id preimage Hi). case_match; [|done]. by destruct (claim_htlc L id preimage).
  - pose proof (refund_preserves L id Hi). case_match; [|done]. by destruct (refund_htlc L id).
  - pose proof (stake_preserves L tx Hi He). by destruct (apply_stake L tx).
  - pose proof (slash_preserves L tx Hi). by destruct (apply_slash L tx).
  - split; [by apply prune_preserves|done].
Qed.

(** The conservation invariants hold in every reachable state.  Whatever transfers, swaps, bonds,
    unbonds, slashings and block starts arrive, in whatever order and whether they succeed or
    not, as long as no key hashes to a sink and no transaction names a sink as a plain recipient:
    the stake sink holds exactly the total bonded stake, the swap escrow holds exactly the locked
    contracts (the very pairs the ledger compares), every release is covered, and the total
    supply never changes. *)
Theorem conservation_is_invariant L es :
  inv L -> Forall event_ok es ->
  inv (run L es) /\
  fst (conservation_stake (run L es)) = snd (conservation_stake (run L es)) /\
  fst (conservation_htlc (run L es)) = snd (conservation_htlc (run L es)) /\
  Token.total (tokens (run L es)) = Token.total (tokens L).
Proof.
  intros Hi HF.
  assert (Hr : inv (run L es) /\ Token.total (tokens (run L es)) = Token.total (tokens L)).
  { revert L Hi. induction HF as [|e es He _ IH]; intros L Hi; [done|]. simpl.
    destruct (step_preserves L e Hi He) as [Hi' Ht']. destruct (IH _ Hi') as [Hi'' Ht''].
    split; [done|congruence]. }
  destruct Hr as [Hi' Ht']. destruct (inv_conserves _ Hi') as [Hcs Hch]. done.
Qed.

End conservation.

(** ** Slashing *)

Section slashing.
  Context `{Crypto}.

Lemma settle_stake L id r : stake (snd (settle_htlc L id r)) = stake L.
Proof. by destruct r as [[[]|] ?]. Qed.

Lemma claim_stake L id preimage : stake (snd (claim_htlc L id preimage)) = stake L.
Proof. unfold claim_htlc. destruct (_ !! id); [apply settle_stake|done]. Qed.

Lemma refund_stake L id : stake (snd (refund_htlc L id)) = stake L.
Proof. unfold refund_htlc. destruct (_ !! id); [apply settle_stake|done]. Qed.

Lemma decrease_slashed s a x : Stake.slashed (snd (Stake.decrease s a x)) = Stake.slashed s.
Proof. unfold Stake.decrease. by repeat case_match. Qed.

Lemma slash_records L tx ev :
  Stake.evidence tx = Some ev ->
  Stake.slashed (stake (snd (apply_slash L tx))) =
    {[Stake.slot_key (Token.account_id (Stake.verifier tx)) ev]} ∪ Stake.slashed (stake L).
Proof.
  intros Ev. unfold apply_slash. rewrite Ev. unfold Stake.record_slashed. cbv zeta.
  destruct (negb _); [done|]. destruct (0 <? _); [|done]. cbn [snd stake]. by rewrite decrease_slashed.
Qed.

(** The guard only grows. *)
Lemma step_slashed L e slot : slot ∈ Stake.slashed (stake L) -> slot ∈ Stake.slashed (stake (step L e)).
Proof.
  intros Hs. destruct e as [[st|[terms payment|id preimage|id]|tx|tx]|h]; cbn [step exec exec_htlc]; unfold exec_transparent, exec_stake, exec_slash; [| | | | | |done].
  - destruct (Token.apply_with_verdict _ _ _) as [[u|[]] l']; done.
  - unfold lock_htlc. cbv zeta. by repeat case_match; simplify_eq.
  - case_match; [|done]. pose proof (claim_stake L id preimage) as E.
    destruct (claim_htlc L id preimage). simpl in *. by rewrite E.
  - case_match; [|done]. pose proof (refund_stake L id) as E.
    destruct (refund_htlc L id). simpl in *. by rewrite E.
  - unfold apply_stake. cbv zeta. case_bool_decide; [done|]. destruct tx.
    + by repeat case_match; simplify_eq.
    + destruct (negb _ || _); [done|]. destruct (Token.consume_nonce _ _ _) as [ok tk].
      destruct (negb ok); [done|]. simpl. by rewrite decrease_slashed.
  - destruct (Stake.evidence tx) as [ev|] eqn:Ev.
    + pose proof (slash_records L tx ev Ev) as E. destruct (apply_slash L tx). simpl in *. rewrite E. set_solver.
    + unfold apply_slash. by rewrite Ev.
Qed.

Lemma run_slashed L es slot : slot ∈ Stake.slashed (stake L) -> slot ∈ Stake.slashed (stake (run L es)).
Proof.
  revert L. induction es as [|e es IH]; intros L Hs; [done|]. simpl. by apply IH, step_slashed.
Qed.

Definition recorded (L : HybridLedger) (slot : list Z) : HybridLedger :=
  mk_hybrid (tokens L) (htlcs L) (snd (Stake.record_slashed (stake L) slot)) (height L).

Lemma slash_true L tx ev L' :
  Stake.evidence tx = Some ev -> apply_slash L tx = (true, L') ->
  let a := Token.account_id (Stake.verifier tx) in
  let b := Stake.bonded (stake L) a in
  let R := recorded L (Stake.slot_key a ev) in
  if 0 <? b then
    L' = mk_hybrid (snd (Token.move_system (tokens L) Stake.STAKE_SINK TREASURY b)) (htlcs L)
           (snd (Stake.decrease (stake R) a b)) (height L)
  else L' = R.
Proof.
  intros Ev E a b R. unfold apply_slash in E. rewrite Ev in E. fold a in E.
  destruct (Stake.record_slashed (stake L) (Stake.slot_key a ev)) as [fresh s1] eqn:Er.
  assert (Es : s1 = stake R) by (unfold R, recorded; cbn [stake]; by rewrite Er).
  destruct fresh; cbn [negb] in E; [|done]. cbv zeta in E.
  assert (Eb : Stake.bonded s1 a = b) by (by rewrite Es). rewrite Eb, Es in E.
  case_match; by injection E as <-.
Qed.

Lemma recorded_inv L slot : inv L -> inv (recorded L slot).
Proof. done. Qed.

Lemma slash_again L tx ev :
  Stake.evidence tx = Some ev ->
  Stake.slot_key (Token.account_id (Stake.verifier tx)) ev ∈ Stake.slashed (stake L) ->
  apply_slash L tx = (false, L).
Proof.
  intros Ev Hin. unfold apply_slash. rewrite Ev. unfold Stake.record_slashed. cbv zeta.
  rewrite bool_decide_false by (intros Hn; by apply Hn). cbn [negb]. f_equal.
  rewrite (subseteq_union_1_L {[_]} (Stake.slashed (stake L))) by set_solver.
  by destruct L as [? ? [] ?].
Qed.

(** Slashing confiscates everything, once.  An accepted proof takes the equivocator's entire bond
    to the treasury; afterwards, whatever else happens on the ledger (re-bonding included), every
    further proof against the same key for the same height, round and phase is rejected and
    leaves the ledger untouched. *)
Theorem slash_confiscates_once L tx ev L' :
  inv L -> Stake.evidence tx = Some ev -> apply_slash L tx = (true, L') ->
  let a := Token.account_id (Stake.verifier tx) in
  Stake.bonded (stake L') a = 0 /\
  Token.balance (tokens L') TREASURY = Token.balance (tokens L) TREASURY + Stake.bonded (stake L) a /\
  forall es tx' ev', Stake.verifier tx' = Stake.verifier tx -> Stake.evidence tx' = Some ev' ->
    Incentive.ev_height ev' = Incentive.ev_height ev -> Incentive.ev_round ev' = Incentive.ev_round ev ->
    Incentive.ev_phase ev' = Incentive.ev_phase ev ->
    exec (run L' es) (TxSlash tx') = (Rejected, run L' es).
Proof.
  intros Hi Ev E a. pose proof (slash_true L tx ev L' Ev E) as HL'. fold a in HL'. cbv zeta in HL'.
  set (b := Stake.bonded (stake L) a) in *. set (R := recorded L (Stake.slot_key a ev)) in *.
  pose proof (Stake.bonded_le _ a (inv_stake_ok L Hi)) as Hb0. fold b in Hb0.
  assert (Hin : Stake.slot_key a ev ∈ Stake.slashed (stake L')).
  { pose proof (slash_records L tx ev Ev) as Er. rewrite E in Er. cbn [snd] in Er. rewrite Er. set_solver. }
  split; [|split].
  - destruct (Z.ltb_spec 0 b); subst L'; [|change (b = 0); lia]. cbn [stake].
    destruct (Stake.decrease_exact (stake R) a b (inv_stake_ok L Hi)) as (_ & _ & Hb & _);
      [change (0 <= b <= b); lia|].
    rewrite Hb, delta_eq. change (b - b = 0). lia.
  - destruct Hi as (Hok & Hsv & Hs & Hrest).
    destruct (Z.ltb_spec 0 b); subst L'; [|cbn [tokens R recorded]; lia]. cbn [tokens].
    destruct (move_system_exact (tokens L) Stake.STAKE_SINK TREASURY b Hok) as (_ & _ & Hb); [lia|].
    rewrite Hb, delta_eq, delta_ne; [lia|]. intros E'. apply treasury_not_sink. by left.
  - intros es tx' ev' Ek Ev' Eh Er Ep. cbn [exec]. unfold exec_slash. rewrite (slash_again _ tx' ev'); [done|done|].
    apply run_slashed. rewrite Ek. fold a. unfold Stake.slot_key in *. rewrite Eh, Er, Ep. done.
Qed.

End slashing.

(** ** Where the invariant needs its hypotheses *)

Section limits.
  Context `{Crypto}.

(** Nothing stops a plain signed transfer from paying the stake sink.  Such a transfer is applied
    like any other, no bond is recorded for it, and the sink then holds more than the total bonded
    stake by exactly the amount paid: the equality the ledger checks is broken by one ordinary
    transaction. *)
Theorem plain_transfer_to_sink_breaks_conservation L st L' :
  (forall k, ~ is_sink (Token.account_id k)) ->
  inv L -> Token.transfer_ok (Token.transfer st) ->
  Token.t_to (Token.transfer st) = Stake.STAKE_SINK ->
  exec L (TxTransparent st) = (Applied, L') ->
  fst (conservation_stake L') = snd (conservation_stake L') + Token.t_amount (Token.transfer st).
Proof.
  intros Hk Hi Ht Eto E. cbn [exec] in E; unfold exec_transparent in E. fold (Token.apply (tokens L) st) in E.
  destruct (Token.apply (tokens L) st) as [[[]|[]] l'] eqn:Ea; try done. injection E as <-.
  pose proof (inv_conserves L Hi) as [Hs _]. simpl in Hs |- *.
  destruct (settled_sinks Hk _ _ _ (proj1 Hi) Ht Ea) as (_ & _ & _ & _ & Hb).
  rewrite Eto in Hb. rewrite Hb by (by left). rewrite delta_eq. lia.
Qed.

(** The signature of a staking operation does not say which operation it authorises.  A transfer
    to the stake sink signed for an unbond is accepted just as well as a bond, or as a plain
    payment into the sink, from the same state: whoever relays it chooses which of the three the
    ledger executes. *)
Theorem stake_authorisation_is_ambiguous L st :
  let t := Token.transfer st in
  Token.verify st = true -> Token.t_to t = Stake.STAKE_SINK ->
  Token.t_nonce t = Token.nonce (tokens L) (Token.t_from t) ->
  Token.t_amount t <= Token.balance (tokens L) (Token.t_from t) ->
  Token.t_amount t <= Stake.bonded (stake L) (Token.t_from t) ->
  fst (exec L (TxStake (Stake.Unbond st))) = Applied /\
  fst (exec L (TxStake (Stake.Bond st))) = Applied /\
  fst (exec L (TxTransparent st)) = Applied.
Proof.
  intros t Hv Eto En Hb Hs.
  assert (Ha : exists l', Token.apply (tokens L) st = (Ok tt, l')).
  { unfold Token.apply, Token.apply_with_verdict. rewrite Hv. cbn [negb]. fold t.
    rewrite <- En, Z.ltb_irrefl, Z.eqb_refl. cbn [negb]. rewrite (proj2 (Z.ltb_ge _ _)) by done. by eexists. }
  destruct Ha as [l' Ha]. cbn [exec]. unfold exec_stake, exec_transparent, apply_stake. cbn [Stake.transfer]. fold t.
  rewrite bool_decide_false by (intros Hc; by apply Hc). split; [|split].
  - rewrite Hv, (proj2 (Z.ltb_ge _ _)) by done. cbn [negb orb].
    unfold Token.consume_nonce. rewrite <- En, Z.eqb_refl. done.
  - by rewrite Ha.
  - fold (Token.apply (tokens L) st). by rewrite Ha.
Qed.

End limits.

(** ** Witnesses at the concrete signature instance *)

Definition w_key : @HybridSigSecret toy_crypto := @mk_secret toy_crypto true tt.
Definition w_vk : @HybridVerifier toy_crypto := @verifier_of toy_crypto w_key.
Definition w_alice : list Z := @Token.account_id toy_crypto w_vk.
Definition w_bob : list Z := replicate 32 2.
Definition w_pay (to : list Z) (amount nonce : Z) : @Token.SignedTransfer toy_crypto :=
  @Token.sign toy_crypto (Token.mk_transfer w_alice to amount nonce) w_key w_vk.
Definition w_terms (to : list Z) : Htlc.HtlcTerms :=
  Htlc.mk_terms w_alice to 300 (@Htlc.hashlock toy_crypto (replicate 32 5)) 10.
Definition w_vote (h : Z) : Vote.SignedVote :=
  @Vote.sign toy_crypto (Vote.mk_vote 1 0 (replicate 32 h) Vote.Commit 3) w_key.
Definition w_slash : @Stake.SlashTx toy_crypto := @Stake.mk_slash toy_crypto (w_vote 1) (w_vote 2) w_vk.
Definition w_start : HybridLedger := new (Token.credit Token.new w_alice 1000).
Definition w_id (to : list Z) (n : Z) : list Z := @Hermes.htlc_id toy_crypto (w_terms to) n.

(** Bond 200, lock 300 for Bob, who claims it; unbond 50; get slashed. *)
Definition w_events : list (@event toy_crypto) :=
  [ Exec (TxStake (Stake.Bond (w_pay Stake.STAKE_SINK 200 0)));
    Exec (TxHtlc (Hermes.Lock (w_terms w_bob) (w_pay Hermes.HTLC_ESCROW 300 1)));
    BeginBlock 5;
    Exec (TxHtlc (Hermes.Claim (w_id w_bob 1) (replicate 32 5)));
    Exec (TxStake (Stake.Unbond (w_pay Stake.STAKE_SINK 50 2)));
    Exec (TxSlash w_slash) ].

Lemma w_keyless : forall k : @HybridVerifier toy_crypto, ~ is_sink (@Token.account_id toy_crypto k).
Proof. intros [[] []]; by_decide. Qed.

Definition w_bonded : HybridLedger := @run toy_crypto w_start (take 1 w_events).

Lemma conservation_is_invariant_witness :
  let L := @run toy_crypto w_start w_events in
  fst (conservation_stake L) = snd (conservation_stake L) /\
  Token.total (tokens L) = 1000 /\ Token.balance (tokens L) w_bob = 300 /\
  Token.balance (tokens L) TREASURY = 150.
Proof.
  intros L. destruct (@conservation_is_invariant toy_crypto w_keyless w_start w_events) as (_ & Hs & _ & Ht).
  - by_decide.
  - repeat (constructor; [vm_compute; intuition discriminate|]). constructor.
  - split; [exact Hs|]. split; [etransitivity; [exact Ht|vm_compute; reflexivity]|].
    split; vm_compute; reflexivity.
Defined.

Lemma slash_confiscates_once_witness :
  exists L', @apply_slash toy_crypto w_bonded w_slash = (true, L') /\
    Stake.bonded (stake L') w_alice = 0 /\ Token.balance (tokens L') TREASURY = 200 /\
    @exec toy_crypto L' (TxSlash w_slash) = (Rejected, L').
Proof.
  destruct (@Stake.evidence toy_crypto w_slash) as [ev|] eqn:Ev; [|vm_compute in Ev; discriminate].
  assert (E : fst (@apply_slash toy_crypto w_bonded w_slash) = true) by (vm_compute; reflexivity).
  destruct (@apply_slash toy_crypto w_bonded w_slash) as [ok L'] eqn:EL. cbn [fst] in E. subst ok.
  assert (Hi : inv w_bonded) by by_decide.
  assert (Hb : Token.balance (tokens w_bonded) TREASURY + Stake.bonded (stake w_bonded) w_alice = 200)
    by (vm_compute; reflexivity).
  destruct (@slash_confiscates_once toy_crypto w_bonded w_slash ev L' Hi Ev EL) as (H1 & H2 & H3).
  exists L'. split; [reflexivity|]. split; [exact H1|].
  split; [exact (eq_trans H2 Hb)|].
  exact (H3 [] w_slash ev eq_refl Ev eq_refl eq_refl eq_refl).
Defined.

Lemma plain_transfer_to_sink_breaks_conservation_witness :
  exists L', @exec toy_crypto w_start (TxTransparent (w_pay Stake.STAKE_SINK 7 0)) = (Applied, L') /\
    fst (conservation_stake L') = snd (conservation_stake L') + 7.
Proof.
  assert (E : fst (@exec toy_crypto w_start (TxTransparent (w_pay Stake.STAKE_SINK 7 0))) = Applied)
    by (vm_compute; reflexivity).
  destruct (@exec toy_crypto w_start (TxTransparent (w_pay Stake.STAKE_SINK 7 0))) as [o L'] eqn:EL.
  cbn [fst] in E. subst o. exists L'. split; [reflexivity|].
  refine (@plain_transfer_to_sink_breaks_conservation toy_crypto w_start _ L' w_keyless _ _ _ EL);
    [by_decide|by_decide|reflexivity].
Defined.

Lemma stake_authorisation_is_ambiguous_witness :
  let st := w_pay Stake.STAKE_SINK 50 1 in
  fst (@exec toy_crypto w_bonded (TxStake (Stake.Unbond st))) = Applied /\
  fst (@exec toy_crypto w_bonded (TxTransparent st)) = Applied.
Proof.
  intros st. destruct (@stake_authorisation_is_ambiguous toy_crypto w_bonded st) as (H1 & _ & H3);
    [vm_compute; reflexivity|reflexivity|vm_compute; reflexivity|vm_compute; discriminate|vm_compute; discriminate|].
  split; [exact H1|exact H3].
Defined.

(** A contract that names the escrow itself as its recipient is accepted and, once claimed, leaves
    its amount in the escrow with no contract that owes it. *)
Example escrow_as_recipient_strands_value :
  conservation_htlc (@run toy_crypto w_start
    [ Exec (TxHtlc (Hermes.Lock (w_terms Hermes.HTLC_ESCROW) (w_pay Hermes.HTLC_ESCROW 300 0)));
      Exec (TxHtlc (Hermes.Claim (w_id Hermes.HTLC_ESCROW 0) (replicate 32 5))) ]) = (300, 0).
Proof. vm_compute. reflexivity. Qed.

End Ledger.
