(* ===== verification/Scheduler.v ===== *)
(** * The deterministic parallel scheduler

    [fanos-dromos/src/scheduler.rs]: declared footprints, the conflict test and the partition of an
    ordered block into waves.  The state key is any countable type here; [Executor.v] instantiates
    it with the ledger's keys.  Waves and indices are [usize] values below the number of
    transactions, so they are natural numbers without wrap-around.

    The second half is about any executor whose transactions stay within their footprints: a run
    that keeps conflicting transactions in order gives the serial result ([reorder_run]). *)
From Stdlib Require Import Sorted.
From S2P Require Import Prelude.
Local Open Scope nat_scope.

Module Scheduler.

Section scheduler.
  Context {K : Type} `{Countable K}.

Record AccessList := mk_access { reads : gset K; writes : gset K }.

(** [AccessList::new] and [AccessList::default]. *)
Definition access_new (rs ws : list K) : AccessList := mk_access (list_to_set rs) (list_to_set ws).
Definition access_default : AccessList := mk_access ∅ ∅.

Definition intersects (a b : gset K) : bool :=
  let '(small, large) := if size a <=? size b then (a, b) else (b, a) in
  existsb (fun k => bool_decide (k ∈ large)) (elements small).

Definition conflicts_with (a b : AccessList) : bool :=
  intersects (writes a) (writes b) || intersects (writes a) (reads b) || intersects (reads a) (writes b).

(** [if let Some(&w) = last.get(k) { wave = wave.max(w + 1); }] *)
Definition after (last : gmap K nat) (wave : nat) (k : K) : nat :=
  match last !! k with Some w => wave `max` (w + 1) | None => wave end.

(** The wave of one transaction, from the last writers and readers of its keys. *)
Definition wave_for (last_write last_read : gmap K nat) (a : AccessList) : nat :=
  let wave := fold_left (fun wave k => after last_read (after last_write wave k) k) (elements (writes a)) 0 in
  fold_left (fun wave k => after last_write wave k) (elements (reads a)) wave.

(** [let e = last.entry(k).or_insert(wave); *e = ( *e ).max(wave);] *)
Definition record_access (wave : nat) (last : gmap K nat) (k : K) : gmap K nat :=
  let e := default wave (last !! k) in
  <[k := e `max` wave]> last.

Definition sched_step (st : gmap K nat * gmap K nat * list nat) (a : AccessList) :
    gmap K nat * gmap K nat * list nat :=
  let '(last_write, last_read, wave_of) := st in
  let wave := wave_for last_write last_read a in
  (fold_left (record_access wave) (elements (writes a)) last_write,
   fold_left (record_access wave) (elements (reads a)) last_read,
   wave_of ++ [wave]).

Definition waves_of (access : list AccessList) : list nat :=
  snd (fold_left sched_step access (∅, ∅, [])).

(** [wave_of.iter().copied().max().map_or(0, |m| m + 1)] *)
Definition wave_count (wave_of : list nat) : nat :=
  match wave_of with [] => 0 | w :: ws => fold_left max ws w + 1 end.

Definition push_bucket (waves : list (list nat)) (e : nat * nat) : list (list nat) :=
  alter (fun bucket => bucket ++ [fst e]) (snd e) waves.

Definition schedule (access : list AccessList) : list (list nat) :=
  let wave_of := waves_of access in
  fold_left push_bucket (zip (seq 0 (length wave_of)) wave_of) (replicate (wave_count wave_of) []).

Definition width (waves : list (list nat)) : nat := fold_right max 0 (length <$> waves).

(** ** Conflicts *)

(** One side writes a key the other reads or writes. *)
Definition conflict (a b : AccessList) : Prop :=
  exists k, (k ∈ writes a /\ k ∈ reads b ∪ writes b) \/ (k ∈ reads a /\ k ∈ writes b).

Lemma intersects_spec a b : intersects a b = true <-> exists k, k ∈ a /\ k ∈ b.
Proof.
  unfold intersects. destruct (size a <=? size b); rewrite existsb_exists; split.
  all: intros (k & Hk & Hk'); exists k; try (apply list_elem_of_In, elem_of_elements in Hk; apply bool_decide_eq_true in Hk').
  all: try (rewrite <- list_elem_of_In, elem_of_elements, bool_decide_eq_true). all: done.
Qed.

Lemma conflicts_with_spec a b : conflicts_with a b = true <-> conflict a b.
Proof.
  unfold conflicts_with, conflict. rewrite !orb_true_iff, !intersects_spec. set_solver.
Qed.

Lemma conflict_sym a b : conflict a b -> conflict b a.
Proof. unfold conflict. set_solver. Qed.

(** ** Waves

    [level access ws]: the wave of every transaction is past the wave of each earlier transaction it
    conflicts with, and it is 0 or one past one of them. *)

Definition level (access : list AccessList) (ws : list nat) : Prop :=
  length ws = length access /\
  forall j a w, access !! j = Some a -> ws !! j = Some w ->
    (forall i b v, i < j -> access !! i = Some b -> ws !! i = Some v -> conflict b a -> v < w) /\
    (w = 0 \/ exists i b v, i < j /\ access !! i = Some b /\ ws !! i = Some v /\ conflict b a /\ w = S v).

(** [last] holds, for each key, the highest wave of the transactions so far that have it in [keys]. *)
Definition last_ok (keys : AccessList -> gset K) (access : list AccessList) (ws : list nat)
    (last : gmap K nat) : Prop :=
  (forall k w, last !! k = Some w ->
     exists i a, access !! i = Some a /\ ws !! i = Some w /\ k ∈ keys a) /\
  (forall k i a w, access !! i = Some a -> ws !! i = Some w -> k ∈ keys a ->
     exists w', last !! k = Some w' /\ w <= w').

(** A loop that raises [wave] past every hazard [P k w] of its keys, and only as far as one. *)
Lemma fold_hazards (P : K -> nat -> Prop) (f : nat -> K -> nat) ks w0 :
  (forall wave k, wave <= f wave k /\ (forall w, P k w -> w < f wave k) /\
     (f wave k = wave \/ exists w, P k w /\ f wave k = S w)) ->
  let n := fold_left f ks w0 in
  w0 <= n /\ (forall k w, k ∈ ks -> P k w -> w < n) /\
  (n = w0 \/ exists k w, k ∈ ks /\ P k w /\ n = S w).
Proof.
  intros Hf. revert w0. induction ks as [|k ks IH]; intros w0; simpl.
  - split; [done|]. split; [set_solver|]. by left.
  - destruct (IH (f w0 k)) as (Hle & Hall & Hat). destruct (Hf w0 k) as (Hle' & Hall' & Hat').
    split; [lia|]. split.
    + intros k' w [->|Hk]%elem_of_cons HP; [apply Hall' in HP; lia | eauto].
    + destruct Hat as [->|(k' & w & Hk & HP & ->)]; [|right; exists k', w; set_solver].
      destruct Hat' as [->|(w & HP & ->)]; [by left|]. right. exists k, w. set_solver.
Qed.

Lemma after_hazard last wave k :
  wave <= after last wave k /\ (forall w, last !! k = Some w -> w < after last wave k) /\
  (after last wave k = wave \/ exists w, last !! k = Some w /\ after last wave k = S w).
Proof.
  unfold after. destruct (last !! k) as [v|]; [|split; [done|]; split; [done|by left]].
  split; [lia|]. split; [intros w [= ->]; lia|].
  destruct (decide (wave <= v)); [right; exists v; split; [done|lia] | left; lia].
Qed.

Lemma after_both_hazard lw lr wave k :
  let f := after lr (after lw wave k) k in
  wave <= f /\ (forall w, lw !! k = Some w \/ lr !! k = Some w -> w < f) /\
  (f = wave \/ exists w, (lw !! k = Some w \/ lr !! k = Some w) /\ f = S w).
Proof.
  intros f. destruct (after_hazard lw wave k) as (A1 & A2 & A3).
  destruct (after_hazard lr (after lw wave k) k) as (B1 & B2 & B3). fold f in B1, B2, B3.
  split; [lia|]. split.
  - intros w [E|E]; [apply A2 in E; lia | by apply B2].
  - destruct B3 as [->|(w & E & ->)]; [|right; eauto]. destruct A3 as [->|(w & E & ->)]; [by left|right; eauto].
Qed.

(** Which earlier wave a transaction must come after. *)
Definition hazard (lw lr : gmap K nat) (a : AccessList) (w : nat) : Prop :=
  exists k, (k ∈ writes a /\ (lw !! k = Some w \/ lr !! k = Some w)) \/ (k ∈ reads a /\ lw !! k = Some w).

Lemma wave_for_spec lw lr a :
  (forall w, hazard lw lr a w -> w < wave_for lw lr a) /\
  (wave_for lw lr a = 0 \/ exists w, hazard lw lr a w /\ wave_for lw lr a = S w).
Proof.
  unfold wave_for, hazard. cbv zeta.
  destruct (fold_hazards (fun k w => lw !! k = Some w \/ lr !! k = Some w) _ (elements (writes a)) 0
    (after_both_hazard lw lr)) as (_ & A2 & A3).
  set (n := fold_left _ (elements (writes a)) 0) in *.
  destruct (fold_hazards (fun k w => lw !! k = Some w) _ (elements (reads a)) n (after_hazard lw)) as (B1 & B2 & B3).
  set (m := fold_left _ (elements (reads a)) n) in *. split.
  - intros w (k & [[Hk%elem_of_elements E]|[Hk%elem_of_elements E]]); [apply (A2 k w Hk) in E; lia | by apply (B2 k)].
  - destruct B3 as [->|(k & w & Hk%elem_of_elements & E & ->)]; [|right; eauto 6].
    destruct A3 as [->|(k & w & Hk%elem_of_elements & E & ->)]; [by left | right; eauto 6].
Qed.

Lemma record_lookup wave ks last k :
  fold_left (record_access wave) ks last !! k =
  if decide (k ∈ ks) then Some (default wave (last !! k) `max` wave) else last !! k.
Proof.
  revert last. induction ks as [|k' ks IH]; intros last; [done|]. cbn [fold_left]. rewrite IH. unfold record_access.
  destruct (decide (k = k')) as [->|Hne].
  - rewrite lookup_insert_eq. rewrite (decide_True (P := k' ∈ k' :: ks)) by set_solver.
    simpl. case_decide; f_equal; lia.
  - rewrite lookup_insert_ne by done. rewrite (decide_ext (k ∈ k' :: ks) (k ∈ ks)) by set_solver. done.
Qed.

Lemma lookup_snoc_inv {A} (l : list A) x i y :
  (l ++ [x]) !! i = Some y -> (l !! i = Some y /\ i < length l) \/ (i = length l /\ y = x).
Proof.
  intros [E|[Hlen E]]%lookup_app_Some; [left; eauto using lookup_lt_Some|right].
  apply list_lookup_singleton_Some in E as [? ->]. split; [lia|done].
Qed.

Lemma last_ok_record keys access ws last a wave :
  length ws = length access -> last_ok keys access ws last ->
  last_ok keys (access ++ [a]) (ws ++ [wave]) (fold_left (record_access wave) (elements (keys a)) last).
Proof.
  intros Hlen [H1 H2]. split.
  - intros k w. rewrite record_lookup. case_decide as Hk.
    + rewrite elem_of_elements in Hk. intros [= <-]. destruct (last !! k) as [v|] eqn:E; simpl.
      * destruct (decide (v <= wave)) as [Hle|Hle].
        -- exists (length access), a. replace (v `max` wave) with wave by lia.
           rewrite list_lookup_middle, <- Hlen, list_lookup_middle by done. done.
        -- destruct (H1 k v E) as (i & b & Hi & Hw & Hb). exists i, b. replace (v `max` wave) with v by lia.
           by rewrite !lookup_app_l by eauto using lookup_lt_Some.
      * exists (length access), a. rewrite Nat.max_id.
        rewrite list_lookup_middle, <- Hlen, list_lookup_middle by done. done.
    + intros E. destruct (H1 k w E) as (i & b & Hi & Hw & Hb). exists i, b.
      by rewrite !lookup_app_l by eauto using lookup_lt_Some.
  - intros k i b w Hi Hw Hk. rewrite record_lookup.
    apply lookup_snoc_inv in Hi as [[Hi Hlt]|[-> ->]].
    + rewrite lookup_app_l in Hw by lia. destruct (H2 k i b w Hi Hw Hk) as (w' & -> & Hle).
      case_decide; simpl; eexists; split; [done|lia|done|lia].
    + rewrite <- Hlen in Hw. rewrite list_lookup_middle in Hw by done. injection Hw as ->.
      rewrite decide_True by (by apply elem_of_elements). eexists; split; [done|lia].
Qed.

Lemma hazard_conflict access ws lw lr a w :
  last_ok writes access ws lw -> last_ok reads access ws lr -> hazard lw lr a w ->
  exists i b, access !! i = Some b /\ ws !! i = Some w /\ conflict b a.
Proof.
  intros [W1 _] [R1 _] (k & [[Hk [E|E]]|[Hk E]]).
  - destruct (W1 k w E) as (i & b & ? & ? & ?). exists i, b. split; [done|]. split; [done|]. exists k. set_solver.
  - destruct (R1 k w E) as (i & b & ? & ? & ?). exists i, b. split; [done|]. split; [done|]. exists k. set_solver.
  - destruct (W1 k w E) as (i & b & ? & ? & ?). exists i, b. split; [done|]. split; [done|]. exists k. set_solver.
Qed.

Lemma conflict_hazard access ws lw lr a i b v :
  last_ok writes access ws lw -> last_ok reads access ws lr ->
  access !! i = Some b -> ws !! i = Some v -> conflict b a -> exists w, hazard lw lr a w /\ v <= w.
Proof.
  intros [_ W2] [_ R2] Hi Hv (k & [[Hw [Hr|Hw']%elem_of_union]|[Hr Hw]]).
  - destruct (W2 k i b v Hi Hv Hw) as (w & E & ?). exists w. split; [|done]. exists k. auto.
  - destruct (W2 k i b v Hi Hv Hw) as (w & E & ?). exists w. split; [|done]. exists k. auto.
  - destruct (R2 k i b v Hi Hv Hr) as (w & E & ?). exists w. split; [|done]. exists k. auto.
Qed.

(** The loop invariant of [schedule]. *)
Definition sched_ok (access : list AccessList) (st : gmap K nat * gmap K nat * list nat) : Prop :=
  let '(lw, lr, ws) := st in
  level access ws /\ last_ok writes access ws lw /\ last_ok reads access ws lr.

Lemma sched_step_ok access st a : sched_ok access st -> sched_ok (access ++ [a]) (sched_step st a).
Proof.
  destruct st as [[lw lr] ws]. intros ([Hlen Hlev] & Hw & Hr). simpl.
  split; [|split; by apply last_ok_record]. split; [rewrite !length_app; simpl; lia|].
  destruct (wave_for_spec lw lr a) as [Hlt Hat].
  intros j c w Hj Hwj. apply lookup_snoc_inv in Hj as [[Hj Hjl]|[-> ->]].
  - rewrite lookup_app_l in Hwj by lia. destruct (Hlev j c w Hj Hwj) as [A B]. split.
    + intros i b v Hij. rewrite !lookup_app_l by lia. by apply A.
    + destruct B as [->|(i & b & v & Hij & ? & ? & ? & ?)]; [by left|]. right. exists i, b, v.
      rewrite !lookup_app_l by lia. done.
  - rewrite <- Hlen, list_lookup_middle in Hwj by done. injection Hwj as <-. split.
    + intros i b v Hij. rewrite !lookup_app_l by lia. intros Hi Hv Hc.
      destruct (conflict_hazard _ _ _ _ _ _ _ _ Hw Hr Hi Hv Hc) as (w & Hz & Hle). apply Hlt in Hz. lia.
    + destruct Hat as [->|(w & Hz & ->)]; [by left|]. right.
      destruct (hazard_conflict _ _ _ _ _ _ Hw Hr Hz) as (i & b & Hi & Hv & Hc). exists i, b, w.
      pose proof (lookup_lt_Some _ _ _ Hi). rewrite !lookup_app_l by lia. done.
Qed.

Lemma waves_of_level access : level access (waves_of access).
Proof.
  unfold waves_of. assert (Hok : sched_ok access (fold_left sched_step access (∅, ∅, []))).
  { induction access as [|a access IH] using rev_ind.
    - split; [split; [done|]; by intros j a w Hj|]. by split; split; intros ? ? *.
    - rewrite fold_left_app. by apply sched_step_ok. }
  by destruct (fold_left sched_step access _) as [[? ?] ?], Hok.
Qed.

Lemma waves_of_length access : length (waves_of access) = length access.
Proof. by destruct (waves_of_level access). Qed.

(** ** The buckets *)

Lemma fold_max_ge ws w : w <= fold_left max ws w /\ forall v, v ∈ ws -> v <= fold_left max ws w.
Proof.
  revert w. induction ws as [|x ws IH]; intros w; simpl; [split; [done|set_solver]|].
  destruct (IH (w `max` x)) as [A B]. split; [lia|]. intros v [->|Hv]%elem_of_cons; [lia|by apply B].
Qed.

Lemma fold_max_in ws w : fold_left max ws w ∈ w :: ws.
Proof.
  revert w. induction ws as [|x ws IH]; intros w; simpl; [set_solver|].
  specialize (IH (w `max` x)). apply elem_of_cons in IH as [E|IH]; [|set_solver].
  rewrite E. destruct (Nat.max_spec w x) as [[_ ->]|[_ ->]]; set_solver.
Qed.

Lemma wave_count_lt ws i w : ws !! i = Some w -> w < wave_count ws.
Proof.
  destruct ws as [|x ws]; [done|]. intros Hi%list_elem_of_lookup_2. simpl.
  destruct (fold_max_ge ws x) as [A B]. apply elem_of_cons in Hi as [->|Hi]; [lia|]. apply B in Hi. lia.
Qed.

Lemma wave_count_in ws w : wave_count ws = S w -> w ∈ ws.
Proof.
  destruct ws as [|x ws]; [done|]. simpl. intros E. replace w with (fold_left max ws x) by lia. apply fold_max_in.
Qed.

Lemma buckets_length ws cnt : length (fold_left push_bucket ws (replicate cnt [])) = cnt.
Proof.
  rewrite <- (length_replicate cnt ([] : list nat)) at 2. generalize (replicate cnt ([] : list nat)) as b.
  induction ws as [|e ws IH]; intros b; simpl; [done|]. rewrite IH. apply length_alter.
Qed.

Lemma filter_Forall_iff {A} (P Q : A -> Prop) `{forall x, Decision (P x), forall x, Decision (Q x)} (l : list A) :
  (forall x, x ∈ l -> P x <-> Q x) -> filter P l = filter Q l.
Proof.
  induction l as [|x l IH]; intros HPQ; [done|]. rewrite !filter_cons, IH by set_solver.
  by rewrite (decide_ext (P x) (Q x)) by set_solver.
Qed.

Lemma buckets_lookup ws cnt w :
  w < cnt ->
  fold_left push_bucket (zip (seq 0 (length ws)) ws) (replicate cnt []) !! w =
  Some (filter (fun i => ws !! i = Some w) (seq 0 (length ws))).
Proof.
  intros Hw. induction ws as [|x ws IH] using rev_ind; [by apply lookup_replicate_2|].
  rewrite length_app, Nat.add_1_r, seq_S, Nat.add_0_l, zip_with_app, fold_left_app by (by rewrite length_seq).
  cbn [zip_with fold_left]. unfold push_bucket at 1. cbn [fst snd]. rewrite filter_app.
  assert (E : filter (fun i => (ws ++ [x]) !! i = Some w) (seq 0 (length ws)) =
              filter (fun i => ws !! i = Some w) (seq 0 (length ws))).
  { apply filter_Forall_iff. intros i [_ Hi]%elem_of_seq. by rewrite lookup_app_l by lia. }
  rewrite E. destruct (decide (x = w)) as [->|Hne].
  - rewrite list_lookup_alter_eq, IH. cbn [fmap option_fmap option_map]. f_equal. f_equal.
    rewrite filter_cons_True by (by rewrite list_lookup_middle). done.
  - rewrite list_lookup_alter_ne, IH by done. rewrite filter_cons_False, app_nil_r; [done|].
    rewrite list_lookup_middle by done. congruence.
Qed.

Lemma schedule_length access : length (schedule access) = wave_count (waves_of access).
Proof. apply buckets_length. Qed.

Lemma schedule_lookup access w b :
  schedule access !! w = Some b ->
  b = filter (fun i => waves_of access !! i = Some w) (seq 0 (length access)).
Proof.
  intros Hb. pose proof (lookup_lt_Some _ _ _ Hb) as Hlt. rewrite schedule_length in Hlt.
  unfold schedule in Hb. cbv zeta in Hb. rewrite buckets_lookup, waves_of_length in Hb by done. congruence.
Qed.

Lemma schedule_elem access w b i :
  schedule access !! w = Some b -> i ∈ b <-> waves_of access !! i = Some w.
Proof.
  intros ->%schedule_lookup. rewrite list_elem_of_filter, elem_of_seq. split; [tauto|].
  intros E. split; [done|]. apply lookup_lt_Some in E. rewrite waves_of_length in E. lia.
Qed.

(** Every transaction is in the wave [waves_of] gives it. *)
Lemma schedule_has access i w : waves_of access !! i = Some w -> exists b, schedule access !! w = Some b /\ i ∈ b.
Proof.
  intros E. pose proof (wave_count_lt _ _ _ E) as Hlt. rewrite <- schedule_length in Hlt.
  apply lookup_lt_is_Some_2 in Hlt as [b Hb]. exists b. split; [done|]. by apply (schedule_elem access w).
Qed.

Lemma elem_of_concat {A} (x : A) (ls : list (list A)) : x ∈ concat ls <-> exists i l, ls !! i = Some l /\ x ∈ l.
Proof.
  rewrite list_elem_of_In, in_concat. split.
  - intros (l & [i Hi]%list_elem_of_In%list_elem_of_lookup & Hx%list_elem_of_In). eauto.
  - intros (i & l & Hi%list_elem_of_lookup_2 & Hx). exists l. by rewrite <- !list_elem_of_In.
Qed.

Lemma NoDup_concat {A} (ls : list (list A)) :
  Forall NoDup ls ->
  (forall i j l1 l2 x, ls !! i = Some l1 -> ls !! j = Some l2 -> x ∈ l1 -> x ∈ l2 -> i = j) ->
  NoDup (concat ls).
Proof.
  induction 1 as [|l ls Hl Hls IH]; intros Hd; simpl; [constructor|]. apply NoDup_app. split; [done|]. split.
  - intros x Hx (j & l2 & Hj & Hx2)%elem_of_concat.
    by discriminate (Hd 0 (S j) l l2 x eq_refl Hj Hx Hx2).
  - apply IH. intros i j l1 l2 x H1 H2 Hx1 Hx2. by injection (Hd (S i) (S j) l1 l2 x H1 H2 Hx1 Hx2).
Qed.

Lemma schedule_perm access : concat (schedule access) ≡ₚ seq 0 (length access).
Proof.
  apply NoDup_Permutation.
  - apply NoDup_concat.
    + apply Forall_lookup. intros w b ->%schedule_lookup. apply NoDup_filter, NoDup_seq.
    + intros i j l1 l2 x H1 H2 Hx1%(schedule_elem _ _ _ _ H1) Hx2%(schedule_elem _ _ _ _ H2). congruence.
  - apply NoDup_seq.
  - intros i. rewrite elem_of_seq, elem_of_concat, <- waves_of_length. split.
    + intros (w & b & Hb & Hi%(schedule_elem _ _ _ _ Hb)%lookup_lt_Some). lia.
    + intros [_ [w Hw]%lookup_lt_is_Some_2]. destruct (schedule_has _ _ _ Hw) as (b & ? & ?). eauto.
Qed.

Lemma StronglySorted_filter {A} (R : relation A) (P : A -> Prop) `{forall x, Decision (P x)} (l : list A) :
  StronglySorted R l -> StronglySorted R (filter P l).
Proof.
  induction 1 as [|x l Hl IH Hx]; [constructor|]. rewrite filter_cons. case_decide; [|done].
  constructor; [done|]. rewrite Forall_forall in *. intros y [_ Hy]%list_elem_of_filter. by apply Hx.
Qed.

Lemma StronglySorted_seq a n : StronglySorted lt (seq a n).
Proof.
  revert a. induction n as [|n IH]; intros a; simpl; constructor; [done|].
  apply Forall_forall. intros x Hx%elem_of_seq. lia.
Qed.

(** [respects_order access f]: [f] puts each transaction strictly after the earlier ones it
    conflicts with. *)
Definition respects_order (access : list AccessList) (f : nat -> nat) : Prop :=
  forall i j a b, i < j -> access !! i = Some a -> access !! j = Some b ->
    conflicts_with a b = true -> f i < f j.

Lemma waves_increase access i j a b v w :
  i < j -> access !! i = Some a -> access !! j = Some b -> conflict a b ->
  waves_of access !! i = Some v -> waves_of access !! j = Some w -> v < w.
Proof. intros Hij Ha Hb Hc Hv Hw. destruct (waves_of_level access) as [_ Hl]. by eapply (Hl j b w). Qed.

Lemma waves_least access f j w : respects_order access f -> waves_of access !! j = Some w -> w <= f j.
Proof.
  intros Hf. destruct (waves_of_level access) as [Hlen Hl]. revert w.
  induction (Nat.lt_wf_0 j) as [j _ IH]. intros w Hw. pose proof (lookup_lt_Some _ _ _ Hw) as Hj.
  rewrite Hlen in Hj. apply lookup_lt_is_Some_2 in Hj as [a Ha]. destruct (Hl j a w Ha Hw) as [_ [->|Hat]]; [lia|].
  destruct Hat as (i & b & v & Hij & Hb & Hv & Hc & ->). apply conflicts_with_spec in Hc.
  pose proof (IH i Hij v Hv). pose proof (Hf i j b a Hij Hb Ha Hc). lia.
Qed.

(** Below an inhabited wave every wave is inhabited. *)
Lemma waves_dense access i w v : waves_of access !! i = Some w -> v <= w -> exists j, waves_of access !! j = Some v.
Proof.
  intros Hi. remember (w - v) as n eqn:En. revert i w Hi En. induction n as [|n IH]; intros i w Hi En Hv.
  - exists i. by replace v with w by lia.
  - destruct (waves_of_level access) as [Hlen Hl]. pose proof (lookup_lt_Some _ _ _ Hi) as Hlt. rewrite Hlen in Hlt.
    apply lookup_lt_is_Some_2 in Hlt as [a Ha].
    destruct (Hl i a w Ha Hi) as [_ [->|(j & b & u & _ & _ & Hu & _ & ->)]]; [lia|]. apply (IH j u Hu); lia.
Qed.

Lemma schedule_nonempty access w b : schedule access !! w = Some b -> b <> [].
Proof.
  intros Hb ->. pose proof (lookup_lt_Some _ _ _ Hb) as Hlt. rewrite schedule_length in Hlt.
  destruct (wave_count (waves_of access)) as [|m] eqn:E; [lia|].
  apply wave_count_in, list_elem_of_lookup in E as [i Hi].
  destruct (waves_dense access i m w Hi ltac:(lia)) as [j Hj]. apply (schedule_elem _ _ _ _ Hb) in Hj. set_solver.
Qed.

(** The schedule is a partition of the block into conflict-free waves, and the shortest one.
    Every transaction is in exactly one wave; no wave is empty; each wave lists its transactions in
    block order and no two of them conflict; of two conflicting transactions the later is in a
    strictly later wave; and any assignment of waves with that last property puts every
    transaction at least as late as the schedule does. *)
Theorem schedule_is_least_partition access :
  concat (schedule access) ≡ₚ seq 0 (length access) /\
  (forall w b, schedule access !! w = Some b -> b <> [] /\ StronglySorted lt b) /\
  (forall w b i j x y, schedule access !! w = Some b -> i ∈ b -> j ∈ b -> i <> j ->
     access !! i = Some x -> access !! j = Some y -> conflicts_with x y = false) /\
  (forall v w b c i j x y, schedule access !! v = Some b -> schedule access !! w = Some c ->
     i ∈ b -> j ∈ c -> i < j -> access !! i = Some x -> access !! j = Some y ->
     conflicts_with x y = true -> v < w) /\
  (forall f w b j, respects_order access f -> schedule access !! w = Some b -> j ∈ b -> w <= f j).
Proof.
  split; [apply schedule_perm|]. split; [|split; [|split]].
  - intros w b Hb. split; [by eapply schedule_nonempty|]. apply schedule_lookup in Hb as ->.
    apply StronglySorted_filter, StronglySorted_seq.
  - intros w b i j x y Hb Hi%(schedule_elem _ _ _ _ Hb) Hj%(schedule_elem _ _ _ _ Hb) Hne Hx Hy.
    apply not_true_is_false. intros Hc%conflicts_with_spec.
    destruct (decide (i < j)) as [Hlt|Hge].
    + pose proof (waves_increase access i j x y w w Hlt Hx Hy Hc Hi Hj). lia.
    + apply conflict_sym in Hc. pose proof (waves_increase access j i y x w w ltac:(lia) Hy Hx Hc Hj Hi). lia.
  - intros v w b c i j x y Hb Hc Hi%(schedule_elem _ _ _ _ Hb) Hj%(schedule_elem _ _ _ _ Hc) Hlt Hx Hy Hcf%conflicts_with_spec.
    by eapply (waves_increase access i j).
  - intros f w b j Hf Hb Hj%(schedule_elem _ _ _ _ Hb). by eapply waves_least.
Qed.

End scheduler.
Arguments AccessList K {_ _}.

(** ** Executing a schedule

    A state [S] is a frame (what no transaction of the block changes) and a value at each key.  A
    task is a transaction with its footprint; [pre] is what its footprint may assume of the state
    it meets. *)

Section reorder.
  Context {K S O V F : Type} `{Countable K} (get : S -> K -> V) (frame : S -> F).
  Hypothesis get_ext : forall s s', frame s = frame s' -> (forall k, get s k = get s' k) -> s = s'.

Record task := mk_task { footprint : AccessList K; pre : S -> Prop; act : S -> O * S }.

Definition agree (a : AccessList K) (s s' : S) : Prop :=
  frame s = frame s' /\ forall k, k ∈ reads a ∪ writes a -> get s k = get s' k.

(** A task writes only its write set, and what it does depends only on its footprint. *)
Definition confined (t : task) : Prop :=
  forall s, pre t s ->
    frame (snd (act t s)) = frame s /\
    (forall k, k ∉ writes (footprint t) -> get (snd (act t s)) k = get s k) /\
    forall s', agree (footprint t) s s' ->
      pre t s' /\ fst (act t s') = fst (act t s) /\
      forall k, k ∈ writes (footprint t) -> get (snd (act t s')) k = get (snd (act t s)) k.

(** The body of the commit loop: run transaction [i] and store its outcome in slot [i]. *)
Definition exec_at (ts : list task) (st : list O * S) (i : nat) : list O * S :=
  match ts !! i with
  | None => st
  | Some t => let '(o, s') := act t (snd st) in (<[i := o]> (fst st), s')
  end.

Definition run (ts : list task) (order : list nat) (st : list O * S) : list O * S :=
  fold_left (exec_at ts) order st.

(** Every task of the run meets a state that satisfies its assumption. *)
Fixpoint valid (ts : list task) (order : list nat) (s : S) : Prop :=
  match order with
  | [] => True
  | i :: order => exists t, ts !! i = Some t /\ pre t s /\ valid ts order (snd (act t s))
  end.

Definition independent (ts : list task) (i j : nat) : Prop :=
  forall t u, ts !! i = Some t -> ts !! j = Some u -> ~ conflict (footprint t) (footprint u).

Lemma agree_sym a s s' : agree a s s' -> agree a s' s.
Proof. intros [E A]. split; [done|]. intros k Hk. by rewrite A. Qed.

Lemma act_agree t u s :
  confined t -> pre t s -> ~ conflict (footprint t) (footprint u) -> agree (footprint u) s (snd (act t s)).
Proof.
  intros Ht Hp Hn. destruct (Ht s Hp) as (Ef & Efr & _). split; [done|]. intros k Hk. rewrite Efr; [done|].
  intros Hw. apply Hn. exists k. set_solver.
Qed.

(** Two adjacent tasks that do not conflict commute. *)
Lemma commute t u s :
  confined t -> confined u -> ~ conflict (footprint t) (footprint u) ->
  pre t s -> pre u (snd (act t s)) ->
  let s1 := snd (act t s) in let s2 := snd (act u s) in
  pre u s /\ pre t s2 /\ fst (act u s) = fst (act u s1) /\ fst (act t s2) = fst (act t s) /\
  snd (act t s2) = snd (act u s1).
Proof.
  intros Ht Hu Hn Hpt Hpu s1 s2. fold s1 in Hpu.
  destruct (Hu s1 Hpu) as (Ef1 & Efr1 & Hag1).
  destruct (Hag1 s (agree_sym _ _ _ (act_agree t u s Ht Hpt Hn))) as (Hpu' & Eo & Ew). fold s2 in Ew.
  destruct (Ht s Hpt) as (Ef & Efr & Hag). destruct (Hu s Hpu') as (Ef2 & Efr2 & _).
  assert (Hn' : ~ conflict (footprint u) (footprint t)) by (intros Hc; by apply Hn, conflict_sym).
  destruct (Hag s2 (act_agree u t s Hu Hpu' Hn')) as (Hpt' & Eo' & Ew').
  destruct (Ht s2 Hpt') as (Ef3 & Efr3 & _).
  split; [done|]. split; [done|]. split; [done|]. split; [done|].
  apply get_ext; [by rewrite Ef3, Ef1; unfold s1, s2; rewrite Ef, Ef2|]. intros k.
  destruct (decide (k ∈ writes (footprint t))) as [Hk|Hk].
  - rewrite Ew', Efr1 by (try done; intros Hk'; apply Hn; exists k; set_solver). done.
  - rewrite Efr3 by done. destruct (decide (k ∈ writes (footprint u))) as [Hk'|Hk']; [by apply Ew|].
    rewrite Efr1 by done. unfold s1, s2. by rewrite Efr, Efr2.
Qed.

Context (ts : list task) (all_confined : Forall confined ts).

Lemma exec_at_some st i t :
  ts !! i = Some t -> exec_at ts st i = (<[i := fst (act t (snd st))]> (fst st), snd (act t (snd st))).
Proof. intros E. unfold exec_at. rewrite E. by destruct (act t (snd st)). Qed.

(** A task moves past a block of tasks it does not conflict with. *)
Lemma delay x p q os s :
  (forall y, y ∈ p -> x <> y /\ independent ts x y) -> valid ts (x :: p ++ q) s ->
  valid ts (p ++ x :: q) s /\ run ts (p ++ x :: q) (os, s) = run ts (x :: p ++ q) (os, s).
Proof.
  revert os s. induction p as [|y p IH]; intros os s Hp Hv; [done|].
  destruct Hv as (t & Ht & Hpt & u & Hu & Hpu & Hv). cbn [app] in *.
  destruct (Hp y ltac:(set_solver)) as [Hne Hi].
  rewrite Forall_lookup in all_confined.
  destruct (commute t u s (all_confined _ _ Ht) (all_confined _ _ Hu) (Hi t u Ht Hu) Hpt Hpu)
    as (Hpu' & Hpt' & Eo & Eo' & Es).
  destruct (IH (<[y := fst (act u s)]> os) (snd (act u s))) as [Hv' Er].
  - intros z Hz. apply Hp. set_solver.
  - exists t. rewrite Es. done.
  - split; [by exists u|]. unfold run in *. cbn [fold_left] in *. rewrite (exec_at_some _ y u Hu). cbn [fst snd].
    rewrite Er. f_equal. rewrite !(exec_at_some _ x t Ht), (exec_at_some _ y u Hu). cbn [fst snd].
    rewrite Es, Eo, Eo'. f_equal. by apply list_insert_insert_ne.
Qed.

Lemma StronglySorted_app_inv {A} (R : relation A) l1 x l2 :
  StronglySorted R (l1 ++ x :: l2) -> StronglySorted R (l1 ++ l2) /\ forall y, y ∈ l1 -> R y x.
Proof.
  induction l1 as [|z l1 IH]; cbn [app]; intros [Hs Hf]%StronglySorted_inv; [split; [done|set_solver]|].
  apply IH in Hs as [Hs Hy]. apply Forall_app in Hf as [Hf1 [Hzx Hf2]%Forall_cons]. split.
  - constructor; [done|]. by apply Forall_app.
  - intros y [->|?]%elem_of_cons; [done|by apply Hy].
Qed.

(** Any order of the tasks that keeps conflicting ones in serial order gives the serial result. *)
Lemma reorder_run l l' os s :
  StronglySorted lt l -> l' ≡ₚ l ->
  StronglySorted (fun a b => b < a -> independent ts b a) l' -> valid ts l s ->
  valid ts l' s /\ run ts l' (os, s) = run ts l (os, s).
Proof.
  intros Hl. revert l' os s. induction Hl as [|x l Hl IH Hx]; intros l' os s Hperm Hs Hv.
  - by apply Permutation_nil_r in Hperm as ->.
  - assert (Hin : x ∈ l') by (rewrite Hperm; set_solver).
    apply list_elem_of_split in Hin as (p & q & ->).
    assert (Hperm' : p ++ q ≡ₚ l) by (eapply Permutation_cons_inv; by rewrite <- Hperm, Permutation_middle).
    apply StronglySorted_app_inv in Hs as [Hs Hy]. destruct Hv as (t & Ht & Hpt & Hv).
    destruct (IH (p ++ q) (<[x := fst (act t s)]> os) _ Hperm' Hs Hv) as [Hv' Er].
    destruct (delay x p q os s) as [Hvd Erd].
    + intros y Hyp. assert (Hlt : x < y).
      { rewrite Forall_forall in Hx. apply Hx. rewrite <- Hperm'. set_solver. }
      split; [lia|]. by apply Hy.
    + by exists t.
    + split; [done|]. rewrite Erd. unfold run in *. cbn [fold_left]. rewrite (exec_at_some _ x t Ht). done.
Qed.

(** The waves of a schedule, each in any order. *)
Definition reordering (waves waves' : list (list nat)) : Prop := Forall2 Permutation waves' waves.

Lemma StronglySorted_by_wave {A} (R : relation A) (ls : list (list A)) :
  (forall i j l1 l2 x y, i <= j -> ls !! i = Some l1 -> ls !! j = Some l2 -> x ∈ l1 -> y ∈ l2 -> R x y) ->
  StronglySorted R (concat ls).
Proof.
  induction ls as [|l ls IH]; intros HR; simpl; [constructor|].
  assert (Hls : StronglySorted R (concat ls)).
  { apply IH. intros i j l1 l2 x y Hij H1 H2. apply (HR (Datatypes.S i) (Datatypes.S j) l1 l2 x y); [lia|done|done]. }
  assert (Hl : forall x y, x ∈ l -> y ∈ l \/ y ∈ concat ls -> R x y).
  { intros x y Hx [Hy|(j & l2 & Hj & Hy)%elem_of_concat];
      [by apply (HR 0 0 l l) | by apply (HR 0 (Datatypes.S j) l l2); [lia| | | |]]. }
  clear HR IH. induction l as [|x l IHl]; cbn [app]; [done|]. constructor.
  - apply IHl. intros x' y Hx'. set_solver.
  - apply Forall_forall. intros y Hy%elem_of_app. apply Hl; set_solver.
Qed.

Lemma schedule_run waves' os s :
  reordering (schedule (footprint <$> ts)) waves' -> valid ts (seq 0 (length ts)) s ->
  run ts (concat waves') (os, s) = run ts (seq 0 (length ts)) (os, s).
Proof.
  intros Hw Hv. apply reorder_run; [apply StronglySorted_seq| | |done].
  - rewrite <- (length_fmap footprint ts), <- schedule_perm. induction Hw as [|b b' bs bs' Hb _ IH]; simpl; [done|by rewrite Hb, IH].
  - apply StronglySorted_by_wave. intros v w b c i j Hvw Hb Hc Hi Hj Hlt t u Ht Hu Hcf.
    destruct (Forall2_lookup_l _ _ _ _ _ Hw Hb) as (b0 & Hb0 & Pb).
    destruct (Forall2_lookup_l _ _ _ _ _ Hw Hc) as (c0 & Hc0 & Pc).
    rewrite Pb in Hi. rewrite Pc in Hj. apply (schedule_elem _ _ _ _ Hb0) in Hi. apply (schedule_elem _ _ _ _ Hc0) in Hj.
    assert (w < v); [|lia].
    eapply (waves_increase (footprint <$> ts) j i); [done| | |done|done|done]; rewrite list_lookup_fmap; [by rewrite Ht|by rewrite Hu].
Qed.

End reorder.
End Scheduler.
