(* ===== verification/Executor.v ===== *)
(** * Block execution through the parallel scheduler

    [fanos-dromos/src/hybrid.rs] ([execute_block], [access_lists], [verify_batch] and what they call),
    with the state keys of [fanos-dromos/src/ergon_host.rs] and [fanos-ergon/src/lib.rs], for blocks
    of transparent, swap, staking and slashing transactions; [None] is a transaction whose body
    does not decode.  The reference is the serial [apply_block] of [fanos-taxis/src/state.rs], which
    an override has to equal. *)
From S2P Require Import Prelude Codec Sig Htlc Vote Incentive Token Stake Hermes Ledger Scheduler Ergon.
Local Open Scope Z_scope.

Module Executor.

Abbreviation Key := Ergon.Key.
Abbreviation at_key := Ergon.at_key.
Abbreviation point := Ergon.point.
Abbreviation space := Ergon.space.
Abbreviation slot := Ergon.slot.

Definition LEDGER_POINT : Z := 0.
Definition SPACE_BALANCE : Z := 0.
Definition SPACE_HTLC : Z := 4.

Definition htlc_key (contract : list Z) : Key := at_key LEDGER_POINT SPACE_HTLC contract.
Definition balance_key (account : list Z) : Key := at_key LEDGER_POINT SPACE_BALANCE account.

Abbreviation AccessList := (Scheduler.AccessList Key).

Section executor.
  Context `{Crypto}.

(** ** Footprints *)

(** The parties of a contract: from committed state, or from a lock earlier in the block. *)
Definition htlc_party (L : Ledger.HybridLedger) (id : list Z) (pending : btree (list Z * list Z)) :
    option (list Z * list Z) :=
  match Hermes.htlcs (Ledger.htlcs L) !! id with
  | Some h => Some (Htlc.sender (Htlc.terms h), Htlc.recipient (Htlc.terms h))
  | None => pending !! id
  end.

Definition access_of (L : Ledger.HybridLedger) (tx : option Ledger.Tx) (pending_htlc : btree (list Z * list Z)) :
    AccessList :=
  match tx with
  | Some (Ledger.TxTransparent st) =>
      Scheduler.access_new [] [balance_key (Token.t_from (Token.transfer st)); balance_key (Token.t_to (Token.transfer st))]
  | Some (Ledger.TxHtlc (Hermes.Lock terms payment)) =>
      Scheduler.access_new []
        [balance_key (Htlc.sender terms); balance_key Hermes.HTLC_ESCROW;
         htlc_key (Hermes.htlc_id terms (Token.t_nonce (Token.transfer payment)))]
  | Some (Ledger.TxHtlc (Hermes.Claim id _)) =>
      Scheduler.access_new [] ([balance_key Hermes.HTLC_ESCROW; htlc_key id] ++
        match htlc_party L id pending_htlc with Some (_, recipient) => [balance_key recipient] | None => [] end)
  | Some (Ledger.TxHtlc (Hermes.Refund id)) =>
      Scheduler.access_new [] ([balance_key Hermes.HTLC_ESCROW; htlc_key id] ++
        match htlc_party L id pending_htlc with Some (sender, _) => [balance_key sender] | None => [] end)
  | Some (Ledger.TxStake tx) =>
      Scheduler.access_new []
        [balance_key (Token.t_from (Token.transfer (Stake.transfer tx))); balance_key Stake.STAKE_SINK]
  | Some (Ledger.TxSlash tx) =>
      Scheduler.access_new []
        [balance_key (Token.account_id (Stake.verifier tx)); balance_key Stake.STAKE_SINK; balance_key Ledger.TREASURY]
  | None => Scheduler.access_default
  end.

(** The contracts locked earlier in the block. *)
Definition note_lock (pending : btree (list Z * list Z)) (tx : option Ledger.Tx) : btree (list Z * list Z) :=
  match tx with
  | Some (Ledger.TxHtlc (Hermes.Lock terms payment)) =>
      <[Hermes.htlc_id terms (Token.t_nonce (Token.transfer payment)) := (Htlc.sender terms, Htlc.recipient terms)]> pending
  | _ => pending
  end.

Definition access_lists (L : Ledger.HybridLedger) (txs : list (option Ledger.Tx)) : list AccessList :=
  fst (fold_left (fun acc tx => (fst acc ++ [access_of L tx (snd acc)], note_lock (snd acc) tx)) txs ([], ∅)).

(** ** Batched verification *)

(** A stateless job: the transfer whose signature is checked ahead. *)
Definition stateless_job (tx : option Ledger.Tx) : option Token.SignedTransfer :=
  match tx with Some (Ledger.TxTransparent st) => Some st | _ => None end.

Definition eval_job (job : nat * Token.SignedTransfer) : nat * bool := (fst job, Token.verify (snd job)).

(** [slice::chunks] for a positive size; the fuel is the length. *)
Fixpoint chunks_fuel {A} (fuel n : nat) (l : list A) : list (list A) :=
  match fuel, l with
  | S fuel, _ :: _ => take n l :: chunks_fuel fuel n (drop n l)
  | _, _ => []
  end.
Definition chunks {A} (n : nat) (l : list A) : list (list A) := chunks_fuel (length l) n l.

(** [threads] is the machine's parallelism; a worker [c] with [panics c] contributes no verdicts. *)
Definition par_verify (threads : nat) (panics : nat -> bool) (jobs : list (nat * Token.SignedTransfer)) :
    list (nat * bool) :=
  if ((threads <=? 1) || (length jobs <=? 1))%nat then eval_job <$> jobs else
  let chunk := ((length jobs + threads - 1) / threads)%nat in
  concat (imap (fun c js => if panics c then [] else eval_job <$> js) (chunks chunk jobs)).

Definition verify_batch (threads : nat) (panics : nat -> bool) (txs : list (option Ledger.Tx)) :
    list (option bool) :=
  let jobs := omap (fun e => pair (fst e) <$> stateless_job (snd e)) (zip (seq 0 (length txs)) txs) in
  let verdicts := replicate (length txs) None in
  match jobs with
  | [] => verdicts
  | _ => fold_left (fun vs e => <[fst e := Some (snd e)]> vs) (par_verify threads panics jobs) verdicts
  end.

(** ** Execution *)

Definition apply_with_verdict (L : Ledger.HybridLedger) (tx : option Ledger.Tx) (verdict : option bool) :
    Ledger.ExecOutcome * Ledger.HybridLedger :=
  match tx with
  | Some (Ledger.TxTransparent st) =>
      let ok := match verdict with Some v => v | None => Token.verify st end in
      match Token.apply_with_verdict (Ledger.tokens L) st ok with
      | (Ok _, tokens') => (Ledger.Applied, Ledger.mk_hybrid tokens' (Ledger.htlcs L) (Ledger.stake L) (Ledger.height L))
      | (Err Token.NonceAhead, _) => (Ledger.Deferred, L)
      | (Err _, _) => (Ledger.Rejected, L)
      end
  | Some (Ledger.TxHtlc tx) => Ledger.exec_htlc L tx
  | Some (Ledger.TxStake tx) => Ledger.exec_stake L tx
  | Some (Ledger.TxSlash tx) => Ledger.exec_slash L tx
  | None => (Ledger.Malformed, L)
  end.

(** The ledger with the two counters [execute_block] keeps beside it. *)
Record Exec := mk_exec { ledger : Ledger.HybridLedger; waves_last_block : nat; parallel_blocks : Z }.

(** The body of the commit loop. *)
Definition commit (txs : list (option Ledger.Tx)) (verdicts : list (option bool))
    (st : list Ledger.ExecOutcome * Ledger.HybridLedger) (i : nat) : list Ledger.ExecOutcome * Ledger.HybridLedger :=
  match txs !! i, fst st !! i with
  | Some tx, Some _ =>
      let '(o, L') := apply_with_verdict (snd st) tx (mjoin (verdicts !! i)) in (<[i := o]> (fst st), L')
  | _, _ => st
  end.

Definition commit_waves (txs : list (option Ledger.Tx)) (verdicts : list (option bool))
    (waves : list (list nat)) (L : Ledger.HybridLedger) : list Ledger.ExecOutcome * Ledger.HybridLedger :=
  fold_left (fun st wave => fold_left (commit txs verdicts) wave st) waves
    (replicate (length txs) Ledger.Malformed, L).

Definition execute_block (threads : nat) (panics : nat -> bool) (E : Exec) (txs : list (option Ledger.Tx)) :
    list Ledger.ExecOutcome * Exec :=
  let access := access_lists (ledger E) txs in
  let waves := Scheduler.schedule access in
  let parallel := match waves with [] => parallel_blocks E | _ => sat_add 64 (parallel_blocks E) 1 end in
  let verdicts := verify_batch threads panics txs in
  let '(outcomes, L') := commit_waves txs verdicts waves (ledger E) in
  (outcomes, mk_exec L' (length waves) parallel).

(** [StateMachine::apply_block]: the serial reference. *)
Definition apply_block (L : Ledger.HybridLedger) (txs : list (option Ledger.Tx)) :
    list Ledger.ExecOutcome * Ledger.HybridLedger :=
  fold_left (fun st tx => let '(o, L') := apply_with_verdict (snd st) tx None in (fst st ++ [o], L')) txs ([], L).

(** ** The state as seen through the keys

    A balance key holds the account's balance and nonce; the key of the stake sink holds the stake
    ledger besides; a contract key holds the contract.  The height is the frame. *)

Inductive View :=
| VAccount (balance nonce : option Z) (stake : option Stake.StakeLedger)
| VHtlc (h : option Htlc.Htlc)
| VNone.

Definition get (L : Ledger.HybridLedger) (k : Key) : View :=
  if negb (point k =? LEDGER_POINT) then VNone
  else if space k =? SPACE_BALANCE then
    VAccount (Token.balances (Ledger.tokens L) !! slot k) (Token.nonces (Ledger.tokens L) !! slot k)
      (if decide (slot k = Stake.STAKE_SINK) then Some (Ledger.stake L) else None)
  else if space k =? SPACE_HTLC then VHtlc (Hermes.htlcs (Ledger.htlcs L) !! slot k)
  else VNone.

Lemma get_balance_key L a :
  get L (balance_key a) =
  VAccount (Token.balances (Ledger.tokens L) !! a) (Token.nonces (Ledger.tokens L) !! a)
    (if decide (a = Stake.STAKE_SINK) then Some (Ledger.stake L) else None).
Proof. reflexivity. Qed.

Lemma get_htlc_key L i : get L (htlc_key i) = VHtlc (Hermes.htlcs (Ledger.htlcs L) !! i).
Proof. reflexivity. Qed.

Lemma get_ext L L' : Ledger.height L = Ledger.height L' -> (forall k, get L k = get L' k) -> L = L'.
Proof.
  intros Eh Eg. destruct L as [[b n] [m] s h], L' as [[b' n'] [m'] s' h']. cbn in Eh. subst h'.
  assert (Es : s = s').
  { pose proof (Eg (balance_key Stake.STAKE_SINK)) as E. rewrite !get_balance_key, !decide_True in E by done.
    by injection E. }
  subst s'. f_equal; f_equal; apply map_eq; intros a.
  1,2: pose proof (Eg (balance_key a)) as E; rewrite !get_balance_key in E; by injection E.
  pose proof (Eg (htlc_key a)) as E. rewrite !get_htlc_key in E. by injection E.
Qed.

(** Two ledgers agree on the accounts [A] and the contracts [I]. *)
Definition tok_on (A : list Z -> Prop) (l l' : Token.TokenLedger) : Prop :=
  forall a, A a -> Token.balances l !! a = Token.balances l' !! a /\ Token.nonces l !! a = Token.nonces l' !! a.

Definition same_on (A I : list Z -> Prop) (L L' : Ledger.HybridLedger) : Prop :=
  tok_on A (Ledger.tokens L) (Ledger.tokens L') /\
  (A Stake.STAKE_SINK -> Ledger.stake L = Ledger.stake L') /\
  (forall i, I i -> Hermes.htlcs (Ledger.htlcs L) !! i = Hermes.htlcs (Ledger.htlcs L') !! i).

(** The access list that writes the accounts [A] and the contracts [I]. *)
Definition touch (A I : list (list Z)) : AccessList :=
  Scheduler.access_new [] ((balance_key <$> A) ++ (htlc_key <$> I)).

Lemma in_touch A I k :
  k ∈ Scheduler.writes (touch A I) <->
  (exists a, a ∈ A /\ k = balance_key a) \/ (exists i, i ∈ I /\ k = htlc_key i).
Proof. unfold touch. simpl. rewrite elem_of_list_to_set, elem_of_app, !list_elem_of_fmap. naive_solver. Qed.

Lemma get_same (P : Key -> Prop) L L' :
  (forall k, P k -> get L k = get L' k) <->
  same_on (fun a => P (balance_key a)) (fun i => P (htlc_key i)) L L'.
Proof.
  split.
  - intros E. split; [|split].
    + intros a Ha. apply E in Ha. rewrite !get_balance_key in Ha. by injection Ha.
    + intros Ha. apply E in Ha. rewrite !get_balance_key, !decide_True in Ha by done. by injection Ha.
    + intros i Hi. apply E in Hi. rewrite !get_htlc_key in Hi. by injection Hi.
  - intros (Ht & Hs & Hh) [p sp s] Hk. unfold get. cbn [point space slot].
    destruct (Z.eqb_spec p LEDGER_POINT) as [->|]; cbn [negb]; [|done].
    destruct (Z.eqb_spec sp SPACE_BALANCE) as [->|].
    + destruct (Ht s Hk) as [-> ->]. f_equal. case_decide; [|done]. subst s. by rewrite Hs.
    + destruct (Z.eqb_spec sp SPACE_HTLC) as [->|]; [|done]. by rewrite (Hh s Hk).
Qed.

Lemma same_on_mono (A B I J : list Z -> Prop) L L' :
  (forall a, A a -> B a) -> (forall i, I i -> J i) -> same_on B J L L' -> same_on A I L L'.
Proof. intros HA HI (Ht & Hs & Hh). split; [|split]; [intros a Ha; by apply Ht, HA | auto | auto]. Qed.

Lemma touch_balance A I a : balance_key a ∈ Scheduler.writes (touch A I) <-> a ∈ A.
Proof. rewrite in_touch. split; [intros [(? & ? & [= ->])|(? & ? & ?)]; done | eauto]. Qed.

Lemma touch_htlc A I i : htlc_key i ∈ Scheduler.writes (touch A I) <-> i ∈ I.
Proof. rewrite in_touch. split; [intros [(? & ? & ?)|(? & ? & [= ->])]; done | eauto]. Qed.

Abbreviation task := (@Scheduler.task Key Ledger.HybridLedger Ledger.ExecOutcome _ _).

(** What a transaction with the footprint [touch A I] has to satisfy, in terms of the ledger. *)
Definition local_to (A I : list (list Z)) (pre : Ledger.HybridLedger -> Prop)
    (act : Ledger.HybridLedger -> Ledger.ExecOutcome * Ledger.HybridLedger) : Prop :=
  forall L, pre L ->
    Ledger.height (snd (act L)) = Ledger.height L /\
    same_on (fun a => a ∉ A) (fun i => i ∉ I) (snd (act L)) L /\
    forall L', Ledger.height L = Ledger.height L' -> same_on (fun a => a ∈ A) (fun i => i ∈ I) L L' ->
      pre L' /\ fst (act L') = fst (act L) /\
      same_on (fun a => a ∈ A) (fun i => i ∈ I) (snd (act L')) (snd (act L)).

Lemma local_confined A I pre act :
  local_to A I pre act -> Scheduler.confined get Ledger.height (Scheduler.mk_task (touch A I) pre act).
Proof.
  intros Hl L Hp. destruct (Hl L Hp) as (Eh & Eoff & Hon). cbn [Scheduler.act Scheduler.pre Scheduler.footprint] in *.
  split; [done|]. split.
  - apply get_same. revert Eoff. apply same_on_mono; intros x Hx Hin; apply Hx; [by apply touch_balance|by apply touch_htlc].
  - intros L' [Eh' Eg]. destruct (Hon L' Eh') as (Hp' & Eo & Es).
    { apply get_same in Eg. revert Eg. apply same_on_mono; intros x Hx; apply elem_of_union_r; [by apply touch_balance|by apply touch_htlc]. }
    split; [done|]. split; [done|]. apply get_same. revert Es.
    apply same_on_mono; intros x Hx; [by apply touch_balance in Hx|by apply touch_htlc in Hx].
Qed.

(** ** Token operations are local to the accounts they name *)

Definition tok_local (A : list Z -> Prop) (f : Token.TokenLedger -> Token.TokenLedger) : Prop :=
  (forall l, tok_on (fun a => ~ A a) (f l) l) /\ (forall l l', tok_on A l l' -> tok_on A (f l) (f l')).

Lemma tok_local_compose A f g : tok_local A f -> tok_local A g -> tok_local A (fun l => g (f l)).
Proof.
  intros [F1 F2] [G1 G2]. split; [|auto]. intros l a Ha. destruct (G1 (f l) a Ha) as [-> ->]. by apply F1.
Qed.

Lemma tok_local_id A : tok_local A (fun l => l).
Proof. split; [by intros l a _|done]. Qed.

Lemma insert_same (m m' : btree Z) a v b :
  m !! b = m' !! b -> <[a := v]> m !! b = <[a := v]> m' !! b.
Proof. intros E. destruct (decide (a = b)) as [->|]; [by rewrite !lookup_insert_eq | by rewrite !lookup_insert_ne]. Qed.

Lemma tok_local_credit (A : list Z -> Prop) a x : A a -> tok_local A (fun l => Token.credit l a x).
Proof.
  intros Ha. split.
  - intros l b Hb. unfold Token.credit. simpl. rewrite lookup_insert_ne; [done|]. by intros ->.
  - intros l l' E b Hb. unfold Token.credit. simpl. rewrite (proj1 (E a Ha)). destruct (E b Hb) as [Eb ->].
    split; [by apply insert_same|done].
Qed.

Lemma tok_local_debit (A : list Z -> Prop) a x : A a -> tok_local A (fun l => Token.debit l a x).
Proof.
  intros Ha. split.
  - intros l b Hb. unfold Token.debit. destruct (Token.balances l !! a); simpl; [|done].
    rewrite lookup_insert_ne; [done|]. by intros ->.
  - intros l l' E b Hb. unfold Token.debit. rewrite (proj1 (E a Ha)). destruct (E b Hb) as [Eb En].
    destruct (Token.balances l' !! a); simpl; [|done]. split; [by apply insert_same|done].
Qed.

Lemma tok_local_bump (A : list Z -> Prop) a : A a -> tok_local A (fun l => Token.bump_nonce l a).
Proof.
  intros Ha. split.
  - intros l b Hb. unfold Token.bump_nonce. simpl. rewrite lookup_insert_ne; [done|]. by intros ->.
  - intros l l' E b Hb. unfold Token.bump_nonce, Token.nonce. simpl. rewrite (proj2 (E a Ha)). destruct (E b Hb) as [-> En].
    split; [done|by apply insert_same].
Qed.

Lemma tok_on_values (A : list Z -> Prop) l l' a :
  tok_on A l l' -> A a -> Token.balance l a = Token.balance l' a /\ Token.nonce l a = Token.nonce l' a.
Proof. intros E Ha. unfold Token.balance, Token.nonce. by destruct (E a Ha) as [-> ->]. Qed.

(** The same for operations with a result. *)
Definition tok_op_local {R} (A : list Z -> Prop) (f : Token.TokenLedger -> R * Token.TokenLedger) : Prop :=
  (forall l, tok_on (fun a => ~ A a) (snd (f l)) l) /\
  (forall l l', tok_on A l l' -> fst (f l) = fst (f l') /\ tok_on A (snd (f l)) (snd (f l'))).

Lemma move_system_local (A : list Z -> Prop) from to x :
  A from -> A to -> tok_op_local A (fun l => Token.move_system l from to x).
Proof.
  intros Hf Ht.
  destruct (tok_local_compose A _ _ (tok_local_debit A from x Hf) (tok_local_credit A to x Ht)) as [C1 C2]. split.
  - intros l. unfold Token.move_system. case_match; [by intros a _|apply C1].
  - intros l l' E. unfold Token.move_system. rewrite (proj1 (tok_on_values A l l' from E Hf)).
    case_match; simpl; [done|]. split; [done|by apply C2].
Qed.

Lemma consume_nonce_local (A : list Z -> Prop) a n : A a -> tok_op_local A (fun l => Token.consume_nonce l a n).
Proof.
  intros Ha. destruct (tok_local_bump A a Ha) as [C1 C2]. split.
  - intros l. unfold Token.consume_nonce. case_match; [by intros b _|apply C1].
  - intros l l' E. unfold Token.consume_nonce. rewrite (proj2 (tok_on_values A l l' a E Ha)).
    case_match; simpl; [done|]. split; [done|by apply C2].
Qed.

Lemma apply_local (A : list Z -> Prop) st ok :
  A (Token.t_from (Token.transfer st)) -> A (Token.t_to (Token.transfer st)) ->
  tok_op_local A (fun l => Token.apply_with_verdict l st ok).
Proof.
  intros Hf Ht.
  destruct (tok_local_compose A _ _ (tok_local_compose A _ _ (tok_local_debit A _ (Token.t_amount (Token.transfer st)) Hf)
    (tok_local_credit A _ (Token.t_amount (Token.transfer st)) Ht)) (tok_local_bump A _ Hf)) as [C1 C2]. split.
  - intros l. unfold Token.apply_with_verdict. repeat (case_match; [by intros a _|]). apply C1.
  - intros l l' E. unfold Token.apply_with_verdict. destruct (tok_on_values A l l' _ E Hf) as [-> ->].
    repeat (case_match; [done|]). simpl. split; [done|by apply C2].
Qed.

(** ** Transactions are local to their footprints *)

Lemma same_on_refl A I L : same_on A I L L.
Proof. split; [by intros a _|]. done. Qed.

Lemma same_on_sym A I L L' : same_on A I L L' -> same_on A I L' L.
Proof.
  intros (Ht & Hs & Hh). split; [|split].
  - intros a Ha. by destruct (Ht a Ha) as [-> ->].
  - intros Ha. by rewrite Hs.
  - intros i Hi. by rewrite Hh.
Qed.

Lemma tok_op_snd {R} A (f : _ -> R * _) : tok_op_local A f -> tok_local A (fun l => snd (f l)).
Proof. intros [F1 F2]. split; [done|]. intros l l' E. by apply F2. Qed.

Ltac in_list := rewrite ?elem_of_cons; tauto.

(** The two halves of [local_to], with the second one as a relation between two runs. *)
Lemma local_intro A I pre act :
  (forall L, pre L -> Ledger.height (snd (act L)) = Ledger.height L /\
     same_on (fun a => a ∉ A) (fun i => i ∉ I) (snd (act L)) L) ->
  (forall L L', pre L -> Ledger.height L = Ledger.height L' -> same_on (fun a => a ∈ A) (fun i => i ∈ I) L L' ->
     pre L' /\ fst (act L) = fst (act L') /\
     same_on (fun a => a ∈ A) (fun i => i ∈ I) (snd (act L)) (snd (act L'))) ->
  local_to A I pre act.
Proof.
  intros Hoff Hon L Hp. destruct (Hoff L Hp) as [Eh Eo]. split; [done|]. split; [done|].
  intros L' Eh' E. destruct (Hon L L' Hp Eh' E) as (? & ? & ?). split; [done|]. split; [done|]. by apply same_on_sym.
Qed.

Lemma transparent_local st v :
  local_to [Token.t_from (Token.transfer st); Token.t_to (Token.transfer st)] [] (fun _ => True)
    (fun L => apply_with_verdict L (Some (Ledger.TxTransparent st)) v).
Proof.
  set (A := [_; _]). unfold apply_with_verdict. set (ok := match v with Some v => v | None => Token.verify st end).
  destruct (apply_local (fun a => a ∈ A) st ok) as [F1 F2]; [subst A; in_list|subst A; in_list|].
  apply local_intro.
  - intros L _. specialize (F1 (Ledger.tokens L)).
    destruct (Token.apply_with_verdict (Ledger.tokens L) st ok) as [[u|[]] t]; split; try done; try apply same_on_refl.
  - intros L L' _ Eh E. split; [done|]. destruct (F2 _ _ (proj1 E)) as [Er Et].
    destruct (Token.apply_with_verdict (Ledger.tokens L) st ok) as [r t].
    destruct (Token.apply_with_verdict (Ledger.tokens L') st ok) as [r' t'].
    cbn [fst snd] in Er, Et. subst r'. destruct r as [u|[]]; split; try done. split; [exact Et|apply E].
Qed.

Lemma insert_on (I : list Z -> Prop) (m m' : btree Htlc.Htlc) i h :
  (forall j, I j -> m !! j = m' !! j) -> forall j, I j -> <[i := h]> m !! j = <[i := h]> m' !! j.
Proof.
  intros E j Hj. destruct (decide (i = j)) as [->|]; [by rewrite !lookup_insert_eq|].
  rewrite !lookup_insert_ne by done. by apply E.
Qed.

Lemma lock_local terms payment :
  let id := Hermes.htlc_id terms (Token.t_nonce (Token.transfer payment)) in
  local_to [Htlc.sender terms; Hermes.HTLC_ESCROW] [id] (fun _ => True)
    (fun L => Ledger.exec_htlc L (Hermes.Lock terms payment)).
Proof.
  intros id. set (A := [_; _]). unfold Ledger.exec_htlc, Ledger.lock_htlc. fold id. cbv zeta.
  match goal with |- context [if ?b then (Some false, _) else _] => destruct b eqn:Eg end.
  { apply local_intro; intros L; [|intros L'; cbn [fst snd]; done]. intros _. split; [done|apply same_on_refl]. }
  rewrite !orb_false_iff, !bool_decide_eq_false in Eg. destruct Eg as (((_ & Ef%dec_stable) & Et%dec_stable) & _).
  destruct (apply_local (fun a => a ∈ A) payment (Token.verify payment)) as [F1 F2];
    [rewrite Ef; subst A; in_list | rewrite Et; subst A; in_list |].
  apply local_intro.
  - intros L _. specialize (F1 (Ledger.tokens L)). unfold Token.apply.
    case_bool_decide; [split; [done|apply same_on_refl]|].
    destruct (Token.is_premature _ _); [split; [done|apply same_on_refl]|].
    destruct (Token.apply_with_verdict (Ledger.tokens L) payment _) as [[u|e] t]; [|split; [done|apply same_on_refl]].
    split; [done|]. split; [exact F1|]. split; [done|]. intros i Hi. cbn. rewrite lookup_insert_ne; [done|set_solver].
  - intros L L' _ Eh E. split; [done|]. pose proof E as (Ht & Hs & Hh). rewrite (Hh id) by set_solver.
    case_bool_decide; [done|]. unfold Token.is_premature.
    destruct (tok_on_values _ _ _ (Token.t_from (Token.transfer payment)) Ht) as [_ ->]; [rewrite Ef; subst A; in_list|].
    destruct (_ <? _); [done|]. destruct (F2 _ _ Ht) as [Er Ett]. unfold Token.apply.
    destruct (Token.apply_with_verdict (Ledger.tokens L) payment _) as [r t].
    destruct (Token.apply_with_verdict (Ledger.tokens L') payment _) as [r' t'].
    cbn [fst snd] in Er, Ett. subst r'. destruct r as [u|e]; [|done]. split; [done|].
    split; [exact Ett|]. split; [exact Hs|]. by apply insert_on.
Qed.

(** A claim or a refund of the contract [id]. *)
Definition resolve (L : Ledger.HybridLedger) (id : list Z) (o : Htlc.op) : Ledger.ExecOutcome * Ledger.HybridLedger :=
  match Hermes.state (Ledger.htlcs L) id with
  | None => (Ledger.Deferred, L)
  | Some _ =>
      let '(ok, L') := match Hermes.htlcs (Ledger.htlcs L) !! id with
                       | None => (false, L)
                       | Some h => Ledger.settle_htlc L id (Htlc.run h o (Ledger.height L))
                       end in
      (Ledger.outcome ok, L')
  end.

Definition payee (o : Htlc.op) (parties : list Z * list Z) : list Z :=
  match o with Htlc.OpClaim _ => snd parties | Htlc.OpRefund => fst parties end.

Definition parties (h : Htlc.Htlc) : list Z * list Z := (Htlc.sender (Htlc.terms h), Htlc.recipient (Htlc.terms h)).

Lemma run_pays h o height to x h' :
  Htlc.run h o height = (Some (Htlc.Pay to x), h') -> to = payee o (parties h) /\ Htlc.terms h' = Htlc.terms h.
Proof.
  intros E. pose proof (Htlc.run_locked h o height) as Hr. rewrite E in Hr. destruct Hr as (_ & Et & Hres).
  by inversion Hres.
Qed.

(** What the footprint of a claim or refund assumes: its payee is declared if the contract exists. *)
Definition declared (party : option (list Z * list Z)) (id : list Z) (L : Ledger.HybridLedger) : Prop :=
  forall h, Hermes.htlcs (Ledger.htlcs L) !! id = Some h -> party = Some (parties h).

Lemma resolve_local party id o :
  local_to (Hermes.HTLC_ESCROW :: match party with Some p => [payee o p] | None => [] end) [id]
    (declared party id) (fun L => resolve L id o).
Proof.
  set (A := _ :: _). apply local_intro.
  - intros L Hd. unfold resolve, Hermes.state. specialize (Hd : forall h, _).
    destruct (Hermes.htlcs (Ledger.htlcs L) !! id) as [h|] eqn:E; cbn [fmap option_fmap option_map];
      [|split; [done|apply same_on_refl]]. specialize (Hd h eq_refl).
    destruct (Htlc.run h o (Ledger.height L)) as [[[to x]|] h'] eqn:Er; cbn [Ledger.settle_htlc snd];
      [|split; [done|apply same_on_refl]].
    apply run_pays in Er as [-> _].
    destruct (move_system_local (fun a => a ∈ A) Hermes.HTLC_ESCROW (payee o (parties h)) x) as [F _];
      [subst A; in_list | subst A; rewrite Hd; in_list |].
    split; [done|]. split; [apply F|]. split; [done|]. intros i Hi. cbn. rewrite lookup_insert_ne; [done|set_solver].
  - intros L L' Hd Eh E. pose proof E as (Ht & Hs & Hh). assert (Ei := Hh id ltac:(set_solver)).
    split; [unfold declared in *; by rewrite <- Ei|].
    unfold resolve, Hermes.state, declared in *. rewrite <- Ei, <- Eh.
    destruct (Hermes.htlcs (Ledger.htlcs L) !! id) as [h|] eqn:E1; cbn [fmap option_fmap option_map]; [|done].
    specialize (Hd h eq_refl).
    destruct (Htlc.run h o (Ledger.height L)) as [[[to x]|] h'] eqn:Er; cbn [Ledger.settle_htlc fst snd]; [|done].
    apply run_pays in Er as [-> _].
    destruct (move_system_local (fun a => a ∈ A) Hermes.HTLC_ESCROW (payee o (parties h)) x) as [_ F];
      [subst A; in_list | subst A; rewrite Hd; in_list |].
    split; [done|]. split; [by apply F|]. split; [exact Hs|]. by apply insert_on.
Qed.

Lemma stake_local tx :
  local_to [Token.t_from (Token.transfer (Stake.transfer tx)); Stake.STAKE_SINK] [] (fun _ => True)
    (fun L => Ledger.exec_stake L tx).
Proof.
  set (A := [_; _]). set (st := Stake.transfer tx) in A. set (from := Token.t_from (Token.transfer st)) in A.
  unfold Ledger.exec_stake, Ledger.apply_stake. fold st. cbv zeta. fold from.
  assert (Hf : from ∈ A) by (subst A; in_list). assert (Hk : Stake.STAKE_SINK ∈ A) by (subst A; in_list).
  case_bool_decide as Et.
  { apply local_intro; intros L; [|intros L'; cbn [fst snd]; done]. intros _. split; [done|apply same_on_refl]. }
  destruct tx as [b|u]; cbn [Stake.transfer] in st; fold st.
  - destruct (apply_local (fun a => a ∈ A) st (Token.verify st)) as [F1 F2]; [done|by rewrite Et|].
    unfold Token.apply. apply local_intro.
    + intros L _. specialize (F1 (Ledger.tokens L)).
      destruct (Token.apply_with_verdict (Ledger.tokens L) st _) as [[?|e] t]; (split; [done|]); [|apply same_on_refl].
      split; [exact F1|]. done.
    + intros L L' _ Eh E. split; [done|]. pose proof E as (Ht & Hs & Hh). specialize (Hs Hk).
      destruct (F2 _ _ Ht) as [Er Ett]. rewrite Hs.
      destruct (Token.apply_with_verdict (Ledger.tokens L) st _) as [r t].
      destruct (Token.apply_with_verdict (Ledger.tokens L') st _) as [r' t'].
      cbn [fst snd] in Er, Ett. subst r'. destruct r as [?|e]; [|done]. split; [done|]. split; [exact Ett|]. done.
  - destruct (consume_nonce_local (fun a => a ∈ A) from (Token.t_nonce (Token.transfer st))) as [C1 C2]; [done|].
    destruct (move_system_local (fun a => a ∈ A) Stake.STAKE_SINK from (Token.t_amount (Token.transfer st))) as [M1 M2];
      [done|done|].
    apply local_intro.
    + intros L _. specialize (C1 (Ledger.tokens L)). destruct (_ || _); [split; [done|apply same_on_refl]|].
      destruct (Token.consume_nonce (Ledger.tokens L) from _) as [[] t]; cbn [negb]; (split; [done|]);
        [|apply same_on_refl].
      split; [|done]. cbn [snd Ledger.tokens] in *. intros a Ha. destruct (M1 t a Ha) as [-> ->]. by apply C1.
    + intros L L' _ Eh E. split; [done|]. pose proof E as (Ht & Hs & Hh). specialize (Hs Hk). rewrite <- Hs.
      destruct (_ || _); [done|]. destruct (C2 _ _ Ht) as [Er Ett].
      destruct (Token.consume_nonce (Ledger.tokens L) from _) as [r t].
      destruct (Token.consume_nonce (Ledger.tokens L') from _) as [r' t'].
      cbn [fst snd] in Er, Ett. subst r'. destruct r; cbn [negb]; [|done]. split; [done|].
      split; [by apply M2|]. done.
Qed.

Lemma slash_local tx :
  local_to [Token.account_id (Stake.verifier tx); Stake.STAKE_SINK; Ledger.TREASURY] [] (fun _ => True)
    (fun L => Ledger.exec_slash L tx).
Proof.
  set (A := [_; _; _]). unfold Ledger.exec_slash, Ledger.apply_slash. cbv zeta.
  assert (Hk : Stake.STAKE_SINK ∈ A) by (subst A; in_list). assert (Ht : Ledger.TREASURY ∈ A) by (subst A; in_list).
  destruct (Stake.evidence tx) as [ev|].
  2:{ apply local_intro; intros L; [|intros L'; cbn [fst snd]; done]. intros _. split; [done|apply same_on_refl]. }
  set (acct := Token.account_id (Stake.verifier tx)) in *. apply local_intro.
  - intros L _. destruct (Stake.record_slashed (Ledger.stake L) (Stake.slot_key acct ev)) as [[] s]; cbn [negb].
    2:{ split; [done|]. by split. }
    destruct (0 <? Stake.bonded s acct); (split; [done|]); [|by split].
    split; [|done]. by apply (move_system_local (fun a => a ∈ A)).
  - intros L L' _ Eh E. split; [done|]. pose proof E as (Htk & Hs & Hh). specialize (Hs Hk). rewrite <- Hs.
    destruct (Stake.record_slashed (Ledger.stake L) (Stake.slot_key acct ev)) as [[] s]; cbn [negb].
    2:{ split; [done|]. by split. }
    destruct (0 <? Stake.bonded s acct); (split; [done|]); [|by split].
    split; [|done]. by apply (move_system_local (fun a => a ∈ A)).
Qed.

(** ** A block as a list of confined tasks *)

Definition pending_of (txs : list (option Ledger.Tx)) : btree (list Z * list Z) := fold_left note_lock txs ∅.

Definition assumes (L0 : Ledger.HybridLedger) (tx : option Ledger.Tx) (pending : btree (list Z * list Z)) :
    Ledger.HybridLedger -> Prop :=
  match tx with
  | Some (Ledger.TxHtlc (Hermes.Claim id _)) | Some (Ledger.TxHtlc (Hermes.Refund id)) =>
      declared (htlc_party L0 id pending) id
  | _ => fun _ => True
  end.

Definition tx_task (L0 : Ledger.HybridLedger) (tx : option Ledger.Tx) (pending : btree (list Z * list Z))
    (verdict : option bool) : task :=
  Scheduler.mk_task (access_of L0 tx pending) (assumes L0 tx pending) (fun L => apply_with_verdict L tx verdict).

Lemma access_touch L0 id pending (o : Htlc.op) l :
  l = match htlc_party L0 id pending with Some p => [balance_key (payee o p)] | None => [] end ->
  Scheduler.access_new [] ([balance_key Hermes.HTLC_ESCROW; htlc_key id] ++ l) =
  touch (Hermes.HTLC_ESCROW :: match htlc_party L0 id pending with Some p => [payee o p] | None => [] end) [id].
Proof.
  intros ->. unfold touch, Scheduler.access_new. f_equal. apply set_eq. intros k.
  rewrite !elem_of_list_to_set. destruct (htlc_party L0 id pending); set_solver.
Qed.

Lemma tx_confined L0 tx pending verdict :
  Scheduler.confined get Ledger.height (tx_task L0 tx pending verdict).
Proof.
  destruct tx as [[st|[terms payment|id preimage|id]|tx|tx]|]; unfold tx_task.
  - exact (local_confined _ _ _ _ (transparent_local st verdict)).
  - exact (local_confined _ _ _ _ (lock_local terms payment)).
  - cbn [access_of]. rewrite (access_touch L0 id pending (Htlc.OpClaim preimage)) by (by destruct htlc_party as [[]|]).
    exact (local_confined _ _ _ _ (resolve_local (htlc_party L0 id pending) id (Htlc.OpClaim preimage))).
  - cbn [access_of]. rewrite (access_touch L0 id pending Htlc.OpRefund) by (by destruct htlc_party as [[]|]).
    exact (local_confined _ _ _ _ (resolve_local (htlc_party L0 id pending) id Htlc.OpRefund)).
  - exact (local_confined _ _ _ _ (stake_local tx)).
  - exact (local_confined _ _ _ _ (slash_local tx)).
  - intros L _. cbn. split; [done|]. split; [done|]. intros L' _. by split.
Qed.

Definition block_tasks (L0 : Ledger.HybridLedger) (txs : list (option Ledger.Tx)) (verdicts : list (option bool)) :
    list task :=
  imap (fun i tx => tx_task L0 tx (pending_of (take i txs)) (mjoin (verdicts !! i))) txs.

Lemma block_tasks_lookup L0 txs verdicts i :
  block_tasks L0 txs verdicts !! i =
  (fun tx => tx_task L0 tx (pending_of (take i txs)) (mjoin (verdicts !! i))) <$> txs !! i.
Proof. apply list_lookup_imap. Qed.

Lemma block_tasks_confined L0 txs verdicts :
  Forall (Scheduler.confined get Ledger.height) (block_tasks L0 txs verdicts).
Proof.
  apply Forall_lookup. intros i t. rewrite block_tasks_lookup. intros (tx & _ & ->)%fmap_Some. apply tx_confined.
Qed.

Lemma access_lists_snoc L txs tx :
  access_lists L (txs ++ [tx]) = access_lists L txs ++ [access_of L tx (pending_of txs)].
Proof.
  unfold access_lists. rewrite fold_left_app. cbn [fold_left fst]. f_equal. f_equal. f_equal.
  unfold pending_of. set (step := fun _ _ => _).
  assert (E : forall out p, snd (fold_left step txs (out, p)) = fold_left note_lock txs p) by
    (induction txs as [|x txs IH]; intros out p; [done|]; cbn [fold_left]; apply IH).
  apply E.
Qed.

Lemma access_lists_tasks L txs verdicts :
  Scheduler.footprint <$> block_tasks L txs verdicts = access_lists L txs.
Proof.
  apply list_eq. intros i. rewrite list_lookup_fmap, block_tasks_lookup.
  induction txs as [|tx txs IH] using rev_ind; [done|]. rewrite access_lists_snoc.
  assert (Hlen : length (access_lists L txs) = length txs).
  { clear IH. induction txs as [|y txs IH] using rev_ind; [done|]. rewrite access_lists_snoc, !length_app. simpl. lia. }
  destruct (decide (i < length txs)%nat) as [Hi|Hi].
  - rewrite !lookup_app_l, take_app_le by lia. apply IH.
  - destruct (decide (i = length txs)) as [->|Hne].
    + rewrite (lookup_app_r (access_lists L txs)), list_lookup_middle, take_app_length by lia.
      rewrite Hlen, Nat.sub_diag. done.
    + rewrite (lookup_ge_None_2 (txs ++ _)), (lookup_ge_None_2 (access_lists L txs ++ _))
        by (rewrite length_app; simpl; lia). done.
Qed.

(** ** The serial run meets every assumption *)

(** No two locks of the block hash to one contract id with different parties. *)
Definition no_collision (txs : list (option Ledger.Tx)) : Prop :=
  forall t1 p1 t2 p2,
    Some (Ledger.TxHtlc (Hermes.Lock t1 p1)) ∈ txs -> Some (Ledger.TxHtlc (Hermes.Lock t2 p2)) ∈ txs ->
    Hermes.htlc_id t1 (Token.t_nonce (Token.transfer p1)) = Hermes.htlc_id t2 (Token.t_nonce (Token.transfer p2)) ->
    (Htlc.sender t1, Htlc.recipient t1) = (Htlc.sender t2, Htlc.recipient t2).

Lemma pending_from txs id p :
  pending_of txs !! id = Some p ->
  exists t pay, Some (Ledger.TxHtlc (Hermes.Lock t pay)) ∈ txs /\
    id = Hermes.htlc_id t (Token.t_nonce (Token.transfer pay)) /\ p = (Htlc.sender t, Htlc.recipient t).
Proof.
  induction txs as [|tx txs IH] using rev_ind; [done|]. unfold pending_of. rewrite fold_left_app. cbn [fold_left].
  fold (pending_of txs). intros E.
  assert (Hold : pending_of txs !! id = Some p -> exists t pay, Some (Ledger.TxHtlc (Hermes.Lock t pay)) ∈ txs ++ [tx] /\
    id = Hermes.htlc_id t (Token.t_nonce (Token.transfer pay)) /\ p = (Htlc.sender t, Htlc.recipient t)).
  { intros (t & pay & ? & ?)%IH. exists t, pay. split; [set_solver|done]. }
  unfold note_lock in E. repeat case_match; try by apply Hold.
  apply lookup_insert_Some in E as [[<- <-]|[_ E]]; [|by apply Hold].
  exists terms, payment. split; [set_solver|done].
Qed.

(** What one transaction does to the contracts: it keeps each one's terms, and only a lock adds one. *)
Definition htlcs_step (tx : option Ledger.Tx) (m m' : btree Htlc.Htlc) : Prop :=
  forall id,
    (is_Some (m !! id) -> is_Some (m' !! id)) /\
    forall h', m' !! id = Some h' ->
      (exists h, m !! id = Some h /\ Htlc.terms h = Htlc.terms h') \/
      (m !! id = None /\ exists t pay, tx = Some (Ledger.TxHtlc (Hermes.Lock t pay)) /\
         id = Hermes.htlc_id t (Token.t_nonce (Token.transfer pay)) /\ Htlc.terms h' = t).

Lemma htlcs_step_refl tx m : htlcs_step tx m m.
Proof. intros id. split; [done|]. intros h' E. left. by exists h'. Qed.

Lemma resolve_htlcs tx L id o :
  htlcs_step tx (Hermes.htlcs (Ledger.htlcs L)) (Hermes.htlcs (Ledger.htlcs (snd (resolve L id o)))).
Proof.
  unfold resolve, Hermes.state. destruct (Hermes.htlcs (Ledger.htlcs L) !! id) as [h|] eqn:E;
    cbn [fmap option_fmap option_map]; [|apply htlcs_step_refl].
  destruct (Htlc.run h o (Ledger.height L)) as [[[to x]|] h1] eqn:Er; cbn [Ledger.settle_htlc snd];
    [|apply htlcs_step_refl].
  apply run_pays in Er as [_ Et]. intros i. cbn. split.
  - intros Hi. destruct (decide (i = id)) as [->|]; [by rewrite lookup_insert_eq|by rewrite lookup_insert_ne].
  - intros h' [[<- <-]|[_ E']]%lookup_insert_Some; left; [by exists h|by exists h'].
Qed.

Lemma apply_htlcs L tx v :
  htlcs_step tx (Hermes.htlcs (Ledger.htlcs L)) (Hermes.htlcs (Ledger.htlcs (snd (apply_with_verdict L tx v)))).
Proof.
  destruct tx as [[st|[t pay|i p|i]|tx|tx]|]; cbn [apply_with_verdict].
  - destruct (Token.apply_with_verdict _ _ _) as [[?|[]] ?]; apply htlcs_step_refl.
  - unfold Ledger.exec_htlc, Ledger.lock_htlc. cbv zeta. destruct (_ || _); [apply htlcs_step_refl|].
    case_bool_decide as Hn; [apply htlcs_step_refl|]. apply eq_None_not_Some in Hn.
    destruct (Token.is_premature _ _); [apply htlcs_step_refl|].
    destruct (Token.apply _ _) as [[?|?] t']; [|apply htlcs_step_refl]. intros id. cbn [snd Ledger.htlcs Hermes.htlcs]. split.
    + intros Hi. destruct (decide (id = Hermes.htlc_id t (Token.t_nonce (Token.transfer pay)))) as [->|Hne];
        [by rewrite lookup_insert_eq|by rewrite lookup_insert_ne].
    + intros h' [[<- <-]|[_ E]]%lookup_insert_Some; [|left; by exists h']. right. split; [done|]. by exists t, pay.
  - apply (resolve_htlcs _ L i (Htlc.OpClaim p)).
  - apply (resolve_htlcs _ L i Htlc.OpRefund).
  - unfold Ledger.exec_stake, Ledger.apply_stake. cbv zeta. case_bool_decide; [apply htlcs_step_refl|].
    destruct tx as [st|st]; [destruct (Token.apply _ _) as [[?|?] ?]; apply htlcs_step_refl|].
    destruct (_ || _); [apply htlcs_step_refl|]. destruct (Token.consume_nonce _ _ _) as [[] ?]; apply htlcs_step_refl.
  - unfold Ledger.exec_slash, Ledger.apply_slash. destruct (Stake.evidence tx); [|apply htlcs_step_refl]. cbv zeta.
    destruct (Stake.record_slashed _ _) as [[] ?]; cbn [negb]; [|apply htlcs_step_refl].
    destruct (_ <? _); apply htlcs_step_refl.
  - apply htlcs_step_refl.
Qed.

(** Between two transactions of the serial run: committed contracts are still there, and the parties
    of every contract are those [htlc_party] declares. *)
Definition serial_inv (L0 : Ledger.HybridLedger) (txs : list (option Ledger.Tx)) (L : Ledger.HybridLedger) : Prop :=
  forall id,
    (is_Some (Hermes.htlcs (Ledger.htlcs L0) !! id) -> is_Some (Hermes.htlcs (Ledger.htlcs L) !! id)) /\
    declared (htlc_party L0 id (pending_of txs)) id L.

Lemma serial_inv_step L0 txs L tx v :
  no_collision (txs ++ [tx]) -> serial_inv L0 txs L -> serial_inv L0 (txs ++ [tx]) (snd (apply_with_verdict L tx v)).
Proof.
  intros Hnc Hi id. destruct (Hi id) as [Hc Hd]. destruct (apply_htlcs L tx v id) as [Hk Hnew].
  split; [auto|]. intros h' E. unfold pending_of. rewrite fold_left_app. cbn [fold_left]. fold (pending_of txs).
  destruct (Hnew h' E) as [(h & Eh & Et)|(Eh & t & pay & -> & -> & Et)].
  - specialize (Hd h Eh). unfold parties in *. rewrite <- Et. unfold htlc_party in *.
    destruct (Hermes.htlcs (Ledger.htlcs L0) !! id); [done|]. unfold note_lock.
    destruct tx as [[?|[t pay|? ?|?]|?|?]|]; try done.
    destruct (decide (id = Hermes.htlc_id t (Token.t_nonce (Token.transfer pay)))) as [->|Hne];
      [|by rewrite lookup_insert_ne by done]. rewrite lookup_insert_eq. f_equal.
    apply pending_from in Hd as (t0 & pay0 & Hin & E0 & ->). apply (Hnc t pay t0 pay0); set_solver.
  - unfold htlc_party, note_lock, parties. rewrite lookup_insert_eq, Et.
    destruct (Hermes.htlcs (Ledger.htlcs L0) !! _) eqn:E0; [|done].
    destruct Hc as [x Hx]; [by eexists|]. congruence.
Qed.

Lemma no_collision_app txs txs' : no_collision (txs ++ txs') -> no_collision txs.
Proof. intros Hn t1 p1 t2 p2 H1 H2. apply Hn; set_solver. Qed.

Lemma serial_inv_assumes L0 txs L tx : serial_inv L0 txs L -> assumes L0 tx (pending_of txs) L.
Proof. intros Hi. destruct tx as [[?|[]|?|?]|]; try done; apply Hi. Qed.

Lemma block_valid L0 txs verdicts : no_collision txs ->
  Scheduler.valid (block_tasks L0 txs verdicts) (seq 0 (length txs)) L0.
Proof.
  intros Hn.
  assert (Hgen : forall k i L, (i + k = length txs)%nat -> serial_inv L0 (take i txs) L ->
    Scheduler.valid (block_tasks L0 txs verdicts) (seq i k) L).
  { induction k as [|k IH]; intros i L Hik Hi; [done|]. cbn [seq Scheduler.valid].
    destruct (lookup_lt_is_Some_2 txs i ltac:(lia)) as [tx Htx].
    exists (tx_task L0 tx (pending_of (take i txs)) (mjoin (verdicts !! i))).
    split; [by rewrite block_tasks_lookup, Htx|]. split; [by apply serial_inv_assumes|].
    apply IH; [lia|]. rewrite (take_S_r _ _ _ Htx). apply serial_inv_step; [|done].
    rewrite <- (take_S_r _ _ _ Htx). apply (no_collision_app _ (drop (S i) txs)). by rewrite take_drop. }
  apply Hgen; [lia|]. intros id. split; [done|]. intros h E. unfold htlc_party. by rewrite E.
Qed.

(** ** Batched verdicts are the inline ones *)

Definition sound_verdicts (txs : list (option Ledger.Tx)) (verdicts : list (option bool)) : Prop :=
  forall i v, verdicts !! i = Some (Some v) ->
    exists st, txs !! i = Some (Some (Ledger.TxTransparent st)) /\ v = Token.verify st.

Lemma chunks_elem {A} (x : A) n l c : c ∈ chunks n l -> x ∈ c -> x ∈ l.
Proof.
  unfold chunks. generalize (length l) as fuel. intros fuel. revert l.
  induction fuel as [|fuel IH]; intros l Hc Hx; [set_solver|]. destruct l as [|y l]; [set_solver|]. cbn [chunks_fuel] in Hc.
  rewrite <- (take_drop n (y :: l)), elem_of_app.
  apply elem_of_cons in Hc as [->|Hc]; [by left|]. right. by apply IH.
Qed.

Lemma par_verify_elem threads panics jobs e : e ∈ par_verify threads panics jobs -> e ∈ eval_job <$> jobs.
Proof.
  unfold par_verify. case_match; [done|]. cbv zeta. intros (c & js & Hc & He)%Scheduler.elem_of_concat.
  rewrite list_lookup_imap in Hc. apply fmap_Some in Hc as (l & Hl & ->). case_match; [set_solver|].
  apply list_elem_of_fmap in He as (j & -> & Hj). apply list_elem_of_fmap. exists j. split; [done|].
  apply list_elem_of_lookup_2 in Hl. by eapply chunks_elem.
Qed.

Lemma fold_verdicts (es : list (nat * bool)) (vs : list (option bool)) i v :
  fold_left (fun vs e => <[fst e := Some (snd e)]> vs) es vs !! i = Some (Some v) ->
  vs !! i = Some (Some v) \/ (i, v) ∈ es.
Proof.
  revert vs. induction es as [|[j w] es IH]; intros vs; cbn [fold_left fst snd]; [by left|].
  intros [E|Hin]%IH; [|right; set_solver]. destruct (decide (i = j)) as [->|Hne].
  - apply list_lookup_insert_Some in E as [(_ & [= ->] & _)|[? _]]; [right; set_solver|done].
  - rewrite list_lookup_insert_ne in E by done. by left.
Qed.

Lemma verify_batch_sound threads panics txs : sound_verdicts txs (verify_batch threads panics txs).
Proof.
  intros i v. unfold verify_batch. set (jobs := omap _ _).
  assert (Hrep : ~ replicate (length txs) (None : option bool) !! i = Some (Some v))
    by (intros [E _]%lookup_replicate; done).
  destruct jobs as [|j js] eqn:Ej; [by intros E|]. rewrite <- Ej.
  intros [E|He%par_verify_elem]%fold_verdicts; [done|].
  apply list_elem_of_fmap in He as ([k st] & [= -> ->] & Hj). exists st. split; [|done].
  unfold jobs in Hj. apply list_elem_of_omap in Hj as ([k' tx] & Hz & E). cbn [fst snd] in E.
  apply fmap_Some in E as (st' & E & [= -> ->]). apply elem_of_lookup_zip_with in Hz as (n & a & b & [= -> ->] & Ha & Hb).
  apply lookup_seq in Ha as [-> _]. cbn [Nat.add]. rewrite Hb. destruct b as [[]|]; try discriminate E. by injection E as ->.
Qed.

Lemma verdict_inline txs verdicts i tx L :
  sound_verdicts txs verdicts -> txs !! i = Some tx ->
  apply_with_verdict L tx (mjoin (verdicts !! i)) = apply_with_verdict L tx None.
Proof.
  intros Hs Hi. destruct (verdicts !! i) as [[v|]|] eqn:E; [|done|done].
  destruct (Hs i v E) as (st & Hst & ->). rewrite Hst in Hi. by injection Hi as <-.
Qed.

(** ** The theorem *)

Lemma exec_at_length (ts : list task) st i : length (fst (Scheduler.exec_at ts st i)) = length (fst st).
Proof.
  unfold Scheduler.exec_at. destruct (ts !! i) as [t|]; [|done].
  destruct (Scheduler.act t (snd st)). apply length_insert.
Qed.

(** The commit loop is the generic run of the block's tasks. *)
Lemma commit_run L0 txs verdicts order st :
  length (fst st) = length txs ->
  fold_left (commit txs verdicts) order st = Scheduler.run (block_tasks L0 txs verdicts) order st.
Proof.
  revert st. induction order as [|i order IH]; intros st Hlen; [done|]. unfold Scheduler.run in *. cbn [fold_left].
  assert (E : commit txs verdicts st i = Scheduler.exec_at (block_tasks L0 txs verdicts) st i).
  { unfold commit, Scheduler.exec_at. rewrite block_tasks_lookup. destruct (txs !! i) as [tx|] eqn:Ei; [|done].
    apply lookup_lt_Some in Ei. rewrite <- Hlen in Ei. by apply lookup_lt_is_Some_2 in Ei as [o ->]. }
  rewrite E. apply IH. by rewrite exec_at_length.
Qed.

Lemma fold_left_concat {A B} (f : A -> B -> A) (ls : list (list B)) a :
  fold_left (fun a l => fold_left f l a) ls a = fold_left f (concat ls) a.
Proof. revert a. induction ls as [|l ls IH]; intros a; [done|]. cbn. by rewrite fold_left_app, IH. Qed.

Lemma commit_waves_run L0 txs verdicts waves :
  commit_waves txs verdicts waves L0 =
  Scheduler.run (block_tasks L0 txs verdicts) (concat waves) (replicate (length txs) Ledger.Malformed, L0).
Proof. unfold commit_waves. rewrite fold_left_concat. apply commit_run. simpl. apply length_replicate. Qed.

Lemma serial_run L0 txs verdicts : sound_verdicts txs verdicts ->
  Scheduler.run (block_tasks L0 txs verdicts) (seq 0 (length txs)) (replicate (length txs) Ledger.Malformed, L0) =
  apply_block L0 txs.
Proof.
  intros Hs.
  assert (Hgen : forall k, (k <= length txs)%nat ->
    length (fst (apply_block L0 (take k txs))) = k /\
    Scheduler.run (block_tasks L0 txs verdicts) (seq 0 k) (replicate (length txs) Ledger.Malformed, L0) =
    (fst (apply_block L0 (take k txs)) ++ replicate (length txs - k) Ledger.Malformed, snd (apply_block L0 (take k txs)))).
  { induction k as [|k IH]; intros Hk; [by rewrite Nat.sub_0_r|]. destruct IH as [Hlen Hrun]; [lia|].
    destruct (lookup_lt_is_Some_2 txs k ltac:(lia)) as [tx Htx].
    rewrite seq_S. unfold Scheduler.run in *. rewrite fold_left_app, Hrun, (take_S_r _ _ _ Htx). cbn [fold_left].
    unfold apply_block. rewrite fold_left_app. fold (apply_block L0 (take k txs)). cbn [fold_left].
    unfold Scheduler.exec_at. rewrite Nat.add_0_l, block_tasks_lookup, Htx.
    cbn [fmap option_fmap option_map snd tx_task Scheduler.act].
    rewrite (verdict_inline txs verdicts k tx _ Hs Htx).
    destruct (apply_block L0 (take k txs)) as [outs L]. cbn [fst snd] in *.
    destruct (apply_with_verdict L tx None) as [o L']. cbn [fst snd].
    split; [rewrite length_app; simpl; lia|]. f_equal.
    replace (length txs - k)%nat with (S (length txs - S k)) by lia. cbn [replicate].
    rewrite <- Hlen, insert_app_r_alt, Nat.sub_diag, <- app_assoc by lia. done. }
  destruct (Hgen (length txs)) as [_ E]; [done|]. rewrite E, Nat.sub_diag, app_nil_r, take_ge by done. by destruct (apply_block L0 txs).
Qed.

(** C10: executing a block through the parallel scheduler is executing it serially.  Whatever the
    number of verification threads, whichever of them panic, and in whatever order each wave's
    transactions commit, the outcomes and the resulting ledger are those of running the
    transactions one by one in block order, for every block of transparent, swap, staking and
    slashing transactions (four of the nine transaction tags; the others are not in this model) in which no two locks with
    different parties hash to the same contract id. *)
Theorem execute_block_is_serial threads panics E txs waves' :
  no_collision txs ->
  Scheduler.reordering (Scheduler.schedule (access_lists (ledger E) txs)) waves' ->
  commit_waves txs (verify_batch threads panics txs) waves' (ledger E) = apply_block (ledger E) txs /\
  (fst (execute_block threads panics E txs), ledger (snd (execute_block threads panics E txs))) =
  apply_block (ledger E) txs.
Proof.
  intros Hn Hw. set (verdicts := verify_batch threads panics txs).
  assert (Hany : forall ws, Scheduler.reordering (Scheduler.schedule (access_lists (ledger E) txs)) ws ->
    commit_waves txs verdicts ws (ledger E) = apply_block (ledger E) txs).
  { intros ws Hws. rewrite commit_waves_run, <- (serial_run (ledger E) txs verdicts) by apply verify_batch_sound.
    rewrite <- (access_lists_tasks _ _ verdicts) in Hws.
    assert (El : length (block_tasks (ledger E) txs verdicts) = length txs) by apply length_imap.
    rewrite <- El at 2. apply (Scheduler.schedule_run get Ledger.height get_ext).
    - apply block_tasks_confined.
    - exact Hws.
    - rewrite El. by apply block_valid. }
  split; [by apply Hany|]. unfold execute_block. cbv zeta. fold verdicts. rewrite Hany.
  - by destruct (apply_block (ledger E) txs).
  - apply Forall2_same_length_lookup_2; [done|]. intros i x y Hx Hy. rewrite Hx in Hy. by injection Hy as ->.
Qed.

End executor.
(** Witness: Alice pays Bob, locks a contract for him, he claims it, and one body is malformed. *)
Definition w_block : list (option (@Ledger.Tx toy_crypto)) :=
  [ Some (Ledger.TxTransparent (Ledger.w_pay Ledger.w_bob 100 0)); None;
    Some (Ledger.TxHtlc (Hermes.Lock (Ledger.w_terms Ledger.w_bob) (Ledger.w_pay Hermes.HTLC_ESCROW 300 1)));
    Some (Ledger.TxHtlc (Hermes.Claim (Ledger.w_id Ledger.w_bob 1) (replicate 32 5))) ].
Definition w_exec : Exec := mk_exec Ledger.w_start 0 0.
Definition w_waves : list (list nat) :=
  reverse <$> Scheduler.schedule (@access_lists toy_crypto Ledger.w_start w_block).

Lemma execute_block_is_serial_witness :
  w_waves = [[1; 0]; [2]; [3]]%nat /\
  (fst (@execute_block toy_crypto 4 (Nat.eqb 0) w_exec w_block),
   ledger (snd (@execute_block toy_crypto 4 (Nat.eqb 0) w_exec w_block))) =
  @apply_block toy_crypto Ledger.w_start w_block /\
  fst (@apply_block toy_crypto Ledger.w_start w_block) =
  [Ledger.Applied; Ledger.Malformed; Ledger.Applied; Ledger.Applied].
Proof.
  split; [vm_compute; reflexivity|]. split; [|vm_compute; reflexivity].
  refine (proj2 (@execute_block_is_serial toy_crypto 4 (Nat.eqb 0) w_exec w_block w_waves _ _)).
  - intros t1 p1 t2 p2 H1 H2 _. unfold w_block in H1, H2.
    rewrite !elem_of_cons, elem_of_nil in H1, H2.
    destruct H1 as [[=]|[[=]|[[= -> ->]|[[=]|[]]]]], H2 as [[=]|[[=]|[[= -> ->]|[[=]|[]]]]]. reflexivity.
  - apply Forall2_fmap_l, Forall_Forall2_diag, Forall_forall. intros l _. apply reverse_Permutation.
Defined.

End Executor.
