(* ===== verification/Pqvrf.v ===== *)
(** * The Merkle-tree verifiable random function

    [fanos-vrf/src/pqvrf.rs]: a validator commits to a tree of pseudo-random leaves by its root;
    revealing a leaf with its authentication path is the proof that it is the committed value, and
    the revealed leaves of one epoch are folded into a beacon. *)
From Stdlib Require Import Sorted.
From stdpp Require Import sorting.
From S2P Require Import Prelude Codec Sig.
Local Open Scope Z_scope.

Module Pqvrf.

Definition LEAF_LABEL : string := "FANOS-v1/pqvrf-leaf".
Definition NODE_LABEL : string := "FANOS-v1/pqvrf-node".
Definition BEACON_LABEL : string := "FANOS-v1/pqvrf-beacon".
Definition MAX_HEIGHT : Z := 24.

Record MerkleProof := mk_proof { siblings : list (list Z) }.

Record MerkleVrfSecret := mk_vrf { vrf_height : Z; levels : list (list (list Z)) }.

Record BeaconShare := mk_share { sh_root : list Z; sh_output : list Z; sh_proof : MerkleProof }.

#[global] Instance MerkleProof_eq_dec : EqDecision MerkleProof.
Proof. solve_decision. Defined.

Definition proof_len (p : MerkleProof) : nat := length (siblings p).

Definition proof_to_bytes (p : MerkleProof) : list Z := concat (siblings p).

(** [bytes.as_chunks::<32>()]: the whole 32-byte chunks. *)
Fixpoint as_chunks32 (n : nat) (l : list Z) : list (list Z) :=
  match n with O => [] | S n => take 32 l :: as_chunks32 n (drop 32 l) end.

Definition proof_from_bytes (bytes : list Z) (height : Z) : option MerkleProof :=
  if negb (Z.of_nat (length bytes) =? height * 32) then None
  else Some (mk_proof (as_chunks32 (length bytes / 32) bytes)).

(** [1u64 << height]: the release build masks the shift amount. *)
Definition shl_one (height : Z) : Z := Z.shiftl 1 (height mod 64).

Section vrf.
  Context `{Crypto}.

Definition hash_leaf (seed : list Z) (index : Z) : list Z :=
  hash_labeled LEAF_LABEL (seed ++ be_bytes 8 index).

Definition hash_node (left right : list Z) : list Z := hash_labeled NODE_LABEL (left ++ right).

(** The inner loop of [generate]: hash the nodes of one level in pairs. *)
Fixpoint pair_up (cur : list (list Z)) : list (list Z) :=
  match cur with
  | a :: b :: cur => hash_node a b :: pair_up cur
  | _ => []
  end.

Fixpoint build_levels (height : nat) (cur : list (list Z)) : list (list (list Z)) :=
  match height with
  | O => [cur]
  | S height => cur :: build_levels height (pair_up cur)
  end.

Definition generate (seed : list Z) (height : Z) : option MerkleVrfSecret :=
  if MAX_HEIGHT <? height then None else
  let leaf_count := shl_one height in
  let leaves := hash_leaf seed <$> seqZ 0 leaf_count in
  Some (mk_vrf height (build_levels (Z.to_nat height) leaves)).

Definition root (s : MerkleVrfSecret) : list Z :=
  default (replicate 32 0) (last (levels s) ≫= head).

Definition domain (s : MerkleVrfSecret) : Z := shl_one (vrf_height s).

(** The loop of [prove]: the sibling on every level up to the root. *)
Fixpoint collect_siblings (n : nat) (lvls : list (list (list Z))) (idx : Z) : option (list (list Z)) :=
  match n with
  | O => Some []
  | S n =>
      letO layer := head lvls in
      letO sib := layer !! Z.to_nat (Z.lxor idx 1) in
      letO rest := collect_siblings n (tail lvls) (Z.shiftr idx 1) in
      Some (sib :: rest)
  end.

Definition prove (s : MerkleVrfSecret) (index : Z) : option (list Z * MerkleProof) :=
  if domain s <=? index then None else
  letO leaves := head (levels s) in
  letO output := leaves !! Z.to_nat index in
  letO sibs := collect_siblings (Z.to_nat (vrf_height s)) (levels s) index in
  Some (output, mk_proof sibs).

(** The loop of [verify]: fold the path into a root. *)
Fixpoint fold_path (acc : list Z) (idx : Z) (sibs : list (list Z)) : list Z :=
  match sibs with
  | [] => acc
  | sib :: sibs =>
      let acc := if Z.land idx 1 =? 0 then hash_node acc sib else hash_node sib acc in
      fold_path acc (Z.shiftr idx 1) sibs
  end.

Definition verify (root : list Z) (height index : Z) (output : list Z) (proof : MerkleProof) : bool :=
  if negb (Z.of_nat (proof_len proof) =? height) || (shl_one height <=? index) then false
  else bool_decide (fold_path output index (siblings proof) = root).

Definition share_verify (s : BeaconShare) (epoch height : Z) : bool :=
  verify (sh_root s) height epoch (sh_output s) (sh_proof s).

Definition beacon_seed (epoch height : Z) (shares : list BeaconShare) : option (list Z) :=
  if bool_decide (shares = []) || negb (forallb (fun s => share_verify s epoch height) shares) then None else
  let entries := merge_sort bytes_le ((fun s => sh_root s ++ sh_output s) <$> shares) in
  Some (hash_labeled BEACON_LABEL (be_bytes 8 epoch ++ concat entries)).

(** ** The tree *)

Lemma pair_up_lookup cur j a b :
  cur !! (2 * j)%nat = Some a -> cur !! (2 * j + 1)%nat = Some b ->
  pair_up cur !! j = Some (hash_node a b).
Proof.
  revert cur. induction j as [|j IH]; intros [|x [|y cur]]; try done.
  - simpl. by intros [= ->] [= ->].
  - replace (2 * S j)%nat with (S (S (2 * j))) by lia. simpl. apply IH.
Qed.

Lemma pair_up_length cur n : length cur = (2 * n)%nat -> length (pair_up cur) = n.
Proof.
  revert cur. induction n as [|n IH]; intros [|x [|y cur]]; simpl; intros Hl; try lia.
  f_equal. apply IH. lia.
Qed.

(** An index and its sibling are the two children of the node above. *)
Lemma sibling_pair idx : 0 <= idx ->
  (Z.land idx 1 = 0 /\ idx = 2 * Z.shiftr idx 1 /\ Z.lxor idx 1 = 2 * Z.shiftr idx 1 + 1) \/
  (Z.land idx 1 = 1 /\ idx = 2 * Z.shiftr idx 1 + 1 /\ Z.lxor idx 1 = 2 * Z.shiftr idx 1).
Proof.
  intros Hi. rewrite <- Z.div2_spec.
  assert (Hl : Z.land idx 1 = Z.b2z (Z.odd idx)) by (rewrite land_1_b2z; by rewrite Z.bit0_odd).
  pose proof (Z.div2_odd idx) as Hd.
  assert (Hx : Z.lxor idx 1 = 2 * Z.div2 idx + Z.b2z (negb (Z.odd idx))).
  { apply Z.bits_inj'. intros n Hn. rewrite Z.lxor_spec.
    destruct (Z.eq_dec n 0) as [->|Hne].
    - rewrite Z.testbit_0_r, Z.bit0_odd. by destruct (Z.odd idx).
    - rewrite (Z.bits_above_log2 1 n), xorb_false_r by (simpl; lia).
      replace n with (Z.succ (n - 1)) at 2 by lia. rewrite Z.testbit_succ_r by lia.
      rewrite Z.div2_spec, Z.shiftr_spec by lia. f_equal. lia. }
  rewrite Hl, Hx. clear Hl Hx. revert Hd. destruct (Z.odd idx); simpl Z.b2z; lia.
Qed.

(** The path collected from a level of [2 ^ n] nodes folds to the node at the top. *)
Lemma path_folds n : forall cur idx node,
  length cur = (2 ^ n)%nat -> 0 <= idx -> cur !! Z.to_nat idx = Some node ->
  exists sibs top, collect_siblings n (build_levels n cur) idx = Some sibs /\ length sibs = n /\
    last (build_levels n cur) = Some [top] /\ fold_path node idx sibs = top.
Proof.
  induction n as [|n IH]; intros cur idx node Hl Hi Hn.
  { apply lookup_lt_Some in Hn as Hlt. simpl in Hl. destruct cur as [|c [|]]; try done.
    simpl in Hlt. replace (Z.to_nat idx) with 0%nat in Hn by lia. simplify_eq/=. by exists [], node. }
  apply lookup_lt_Some in Hn as Hlt.
  assert (H2 : (2 ^ S n = 2 * 2 ^ n)%nat) by (simpl; lia). rewrite H2 in Hl.
  assert (Hup : length (pair_up cur) = (2 ^ n)%nat) by (by apply pair_up_length).
  assert (Hsib : exists sib, cur !! Z.to_nat (Z.lxor idx 1) = Some sib /\
    pair_up cur !! Z.to_nat (Z.shiftr idx 1) =
      Some (if Z.land idx 1 =? 0 then hash_node node sib else hash_node sib node)).
  { set (j := Z.shiftr idx 1) in *.
    assert (Hj0 : 0 <= j) by (apply Z.shiftr_nonneg; lia).
    destruct (sibling_pair idx Hi) as [(Hb & Hidx & Hx)|(Hb & Hidx & Hx)]; fold j in Hidx, Hx; rewrite Hb, Hx.
    - destruct (lookup_lt_is_Some_2 cur (Z.to_nat (2 * j + 1))) as [sib Hs]; [lia|].
      exists sib. split; [done|]. simpl. apply pair_up_lookup; [rewrite <- Hn|rewrite <- Hs]; f_equal; lia.
    - destruct (lookup_lt_is_Some_2 cur (Z.to_nat (2 * j))) as [sib Hs]; [lia|].
      exists sib. split; [done|]. simpl. apply pair_up_lookup; [rewrite <- Hs|rewrite <- Hn]; f_equal; lia. }
  destruct Hsib as (sib & Hs & Hp).
  destruct (IH (pair_up cur) (Z.shiftr idx 1) _ Hup ltac:(apply Z.shiftr_nonneg; lia) Hp)
    as (sibs & top & Hc & Hlen & Hlast & Hfold).
  exists (sib :: sibs), top. cbn [build_levels collect_siblings head tail]. rewrite Hs, Hc.
  split; [done|]. split; [simpl; by rewrite Hlen|]. split; [|done].
  rewrite last_cons, Hlast. done.
Qed.

Lemma shl_one_pow height : 0 <= height <= MAX_HEIGHT -> shl_one height = 2 ^ height.
Proof.
  unfold MAX_HEIGHT. intros Hh. unfold shl_one. rewrite Z.mod_small by lia.
  by rewrite Z.shiftl_1_l.
Qed.

Lemma path_folds_collision sibs : forall sibs' acc acc' idx,
  length sibs = length sibs' -> length acc = 32%nat -> length acc' = 32%nat ->
  Forall (fun s => length s = 32%nat) sibs -> Forall (fun s => length s = 32%nat) sibs' ->
  (forall m, length (blake3 m) = 32%nat) ->
  acc <> acc' -> fold_path acc idx sibs = fold_path acc' idx sibs' ->
  exists m m', m <> m' /\ blake3 m = blake3 m'.
Proof.
  induction sibs as [|s sibs IH]; intros [|s' sibs'] acc acc' idx; try done.
  intros [= Hl] Ha Ha' [Hs Hss]%Forall_cons [Hs' Hss']%Forall_cons Hb Hne. cbn [fold_path].
  set (l := if Z.land idx 1 =? 0 then acc ++ s else s ++ acc).
  set (l' := if Z.land idx 1 =? 0 then acc' ++ s' else s' ++ acc').
  assert (Hll : l <> l').
  { unfold l, l'. destruct (Z.land idx 1 =? 0); intros E.
    - apply app_inj_1 in E as [? _]; congruence.
    - apply app_inj_1 in E as [_ ?]; congruence. }
  replace (if Z.land idx 1 =? 0 then hash_node acc s else hash_node s acc) with (hash_labeled NODE_LABEL l)
    by (unfold l; by destruct (_ =? _)).
  replace (if Z.land idx 1 =? 0 then hash_node acc' s' else hash_node s' acc') with (hash_labeled NODE_LABEL l')
    by (unfold l'; by destruct (_ =? _)).
  destruct (decide (hash_labeled NODE_LABEL l = hash_labeled NODE_LABEL l')) as [E|Hn].
  - intros _. exists (labeled_hasher NODE_LABEL l), (labeled_hasher NODE_LABEL l'). split; [|done].
    unfold labeled_hasher. intros E'. apply app_inv_head in E'. by simplify_eq.
  - apply IH; auto; apply Hb.
Qed.

End vrf.

(** ** The beacon's order of shares *)

Lemma merge_sort_perm (l l' : list (list Z)) : l ≡ₚ l' -> merge_sort bytes_le l = merge_sort bytes_le l'.
Proof.
  intros Hp. apply (StronglySorted_unique bytes_le); [apply (StronglySorted_merge_sort bytes_le)..|]; [apply _..|].
  etrans; [apply merge_sort_Permutation|]. etrans; [exact Hp|]. symmetry. apply merge_sort_Permutation.
Qed.

Lemma forallb_perm {A} (f : A -> bool) l l' : l ≡ₚ l' -> forallb f l = forallb f l'.
Proof.
  intros Hp. apply eq_bool_prop_intro. rewrite !forallb_True. by rewrite Hp.
Qed.

(** ** Claims *)

(** Over its whole domain a generated tree proves the leaf it committed to: the output is the
    hash of the seed and the index, and the proof verifies against the published root; outside the
    domain [prove] refuses, and a height above the maximum generates nothing. *)
Theorem vrf_proves_its_domain `{Crypto} (seed : list Z) (height index : Z) :
  0 <= height -> 0 <= index ->
  match generate seed height with
  | None => MAX_HEIGHT < height
  | Some s =>
      (index < 2 ^ height ->
        exists proof, prove s index = Some (hash_leaf seed index, proof) /\
          verify (root s) height index (hash_leaf seed index) proof = true) /\
      (2 ^ height <= index -> prove s index = None)
  end.
Proof.
  intros Hh Hi. unfold generate. destruct (Z.ltb_spec MAX_HEIGHT height) as [|Hm]; [done|].
  rewrite shl_one_pow by lia. unfold prove, domain, root. cbn [vrf_height levels].
  rewrite shl_one_pow by lia. split.
  - intros Hlt. rewrite (proj2 (Z.leb_gt _ _) Hlt).
    set (cur := hash_leaf seed <$> seqZ 0 (2 ^ height)).
    assert (Hl : length cur = (2 ^ Z.to_nat height)%nat).
    { unfold cur. rewrite length_fmap, length_seqZ. apply Nat2Z.inj.
      by rewrite Z2Nat.id, Nat2Z.inj_pow, Z2Nat.id by lia. }
    assert (Hn : cur !! Z.to_nat index = Some (hash_leaf seed index)).
    { unfold cur. rewrite list_lookup_fmap, lookup_seqZ_lt by lia. simpl. do 2 f_equal. lia. }
    destruct (path_folds (Z.to_nat height) cur index _ Hl Hi Hn) as (sibs & top & Hc & Hlen & Hlast & Hf).
    replace (head (build_levels (Z.to_nat height) cur)) with (Some cur) by (by destruct (Z.to_nat height)).
    rewrite Hn, Hc. exists (mk_proof sibs). split; [done|]. rewrite Hlast. simpl.
    unfold verify, proof_len. simpl. rewrite Hlen, Z2Nat.id, Z.eqb_refl by lia. simpl.
    rewrite shl_one_pow, (proj2 (Z.leb_gt _ _) Hlt) by lia. by apply bool_decide_eq_true.
  - intros Hge. by rewrite (proj2 (Z.leb_le _ _) Hge).
Qed.

Lemma vrf_proves_its_domain_witness :
  match @generate toy_crypto (replicate 32 7) 2 with
  | None => MAX_HEIGHT < 2
  | Some s =>
      (3 < 2 ^ 2 ->
        exists proof, @prove s 3 = Some (@hash_leaf toy_crypto (replicate 32 7) 3, proof) /\
          @verify toy_crypto (root s) 2 3 (@hash_leaf toy_crypto (replicate 32 7) 3) proof = true) /\
      (2 ^ 2 <= 3 -> @prove s 3 = None)
  end.
Proof. apply (@vrf_proves_its_domain toy_crypto (replicate 32 7) 2 3); lia. Defined.

(** A verified output is unique: whoever shows two different outputs for one root and one
    index has shown a collision of the hash, so a validator cannot grind its ticket. *)
Theorem vrf_output_unique `{CryptoLaws} (rt : list Z) (height index : Z) (o o' : list Z) (p p' : MerkleProof) :
  length o = 32%nat -> length o' = 32%nat ->
  Forall (fun s => length s = 32%nat) (siblings p) -> Forall (fun s => length s = 32%nat) (siblings p') ->
  verify rt height index o p = true -> verify rt height index o' p' = true ->
  o = o' \/ exists m m', m <> m' /\ blake3 m = blake3 m'.
Proof.
  intros Ho Ho' Hp Hp'. unfold verify, proof_len.
  destruct (Z.eqb_spec (Z.of_nat (length (siblings p))) height) as [E|]; [|done].
  destruct (Z.eqb_spec (Z.of_nat (length (siblings p'))) height) as [E'|]; [|done]. simpl.
  destruct (shl_one height <=? index); [done|]. rewrite !bool_decide_eq_true. intros Hf Hf'.
  destruct (decide (o = o')) as [|Hne]; [by left|right].
  apply (path_folds_collision (siblings p) (siblings p') o o' index); auto using blake3_length; [lia|congruence].
Qed.

Definition w_proof : MerkleProof := mk_proof [replicate 32 1].

Lemma vrf_output_unique_witness :
  let rt := @fold_path toy_crypto (replicate 32 5) 1 (siblings w_proof) in
  @verify toy_crypto rt 1 1 (replicate 32 5) w_proof = true /\
  (replicate 32 5 = replicate 32 5 \/ exists m m', m <> m' /\ @blake3 toy_crypto m = @blake3 toy_crypto m').
Proof.
  split; [vm_compute; reflexivity|].
  apply (@vrf_output_unique toy_crypto toy_laws
    (@fold_path toy_crypto (replicate 32 5) 1 (siblings w_proof)) 1 1 _ _ w_proof w_proof).
  - vm_compute; reflexivity.
  - vm_compute; reflexivity.
  - repeat constructor.
  - repeat constructor.
  - vm_compute; reflexivity.
  - vm_compute; reflexivity.
Defined.

(** The beacon of an epoch does not depend on the order in which the shares arrived. *)
Lemma beacon_seed_order `{Crypto} epoch height shares shares' :
  shares ≡ₚ shares' -> beacon_seed epoch height shares = beacon_seed epoch height shares'.
Proof.
  intros Hp. unfold beacon_seed. rewrite (forallb_perm _ _ _ Hp).
  replace (bool_decide (shares' = [])) with (bool_decide (shares = [])).
  2: { apply bool_decide_ext. split; intros ->; [by apply Permutation_nil|]. by apply Permutation_nil. }
  destruct (_ || _); [done|]. do 4 f_equal. apply merge_sort_perm. by rewrite Hp.
Qed.

Lemma as_chunks32_concat l : Forall (fun s : list Z => length s = 32%nat) l ->
  as_chunks32 (length l) (concat l) = l.
Proof.
  induction 1 as [|s l Hs Hl IH]; [done|]. cbn [length as_chunks32 concat].
  rewrite take_app_length', drop_app_length' by done. by rewrite IH.
Qed.

(** A proof of the right width survives its bytes. *)
Lemma proof_bytes_roundtrip p height :
  Forall (fun s : list Z => length s = 32%nat) (siblings p) -> Z.of_nat (proof_len p) = height ->
  proof_from_bytes (proof_to_bytes p) height = Some p.
Proof.
  intros Hp <-. unfold proof_from_bytes, proof_to_bytes, proof_len.
  assert (Hl : length (concat (siblings p)) = (length (siblings p) * 32)%nat).
  { clear -Hp. induction Hp as [|s l Hs Hl IH]; [done|]. simpl. rewrite length_app. lia. }
  rewrite Hl, Nat2Z.inj_mul, Z.eqb_refl, Nat.div_mul by lia. simpl.
  rewrite as_chunks32_concat by done. by destruct p.
Qed.

End Pqvrf.
