(* ===== verification/Committee.v ===== *)
(** * Leaders, lines and tickets

    [fanos-taxis/src/committee.rs]: the beacon elects a line of the seven-point cell for every
    height and round, the elected line a leader, and in the secret election the holder of the
    lowest verified ticket. *)
From S2P Require Import Prelude Codec Sig Fano Pqvrf.
Local Open Scope Z_scope.

Module Committee.

Definition LEADER_LINE_LABEL : string := "FANOS-v1/taxis-leader-line".
Definition LEADER_MEMBER_LABEL : string := "FANOS-v1/taxis-leader-member".
Definition SEAL_LINE_LABEL : string := "FANOS-v1/taxis-seal-line".
Definition LEADER_TICKET_LABEL : string := "FANOS-v1/taxis-leader-ticket".

Definition election_preimage (seed : list Z) (height round : Z) : list Z :=
  seed ++ be_bytes 8 height ++ be_bytes 4 round.

Definition draw (digest : list Z) : Z := from_be (take 8 digest).

(** [iter.min_by_key(key)] for a key ordered as a byte string: the first least element. *)
Definition min_by_key {A} (key : A -> list Z) (l : list A) : option A :=
  match l with
  | [] => None
  | x :: l => Some (fold_left (fun m y => if bytes_leb (key m) (key y) then m else y) l x)
  end.

Definition line_members (line : Z) : option (list Z) := Fano.tget Fano.LINE_POINTS line.

Definition cross_shard_bridge (line_a line_b : Z) : option Z :=
  if (line_a =? line_b) || (Fano.N <=? line_a) || (Fano.N <=? line_b) then None else
  letO a := line_members line_a in
  letO b := line_members line_b in
  List.find (fun p => bool_decide (p ∈ b)) a.

Section election.
  Context `{Crypto}.

Definition leader_line (seed : list Z) (height round : Z) : Z :=
  draw (hash_labeled LEADER_LINE_LABEL (election_preimage seed height round)) mod Fano.N.

Definition leader (seed : list Z) (height round : Z) : Z :=
  let line := leader_line seed height round in
  let preimage := election_preimage seed height round in
  let member_key := fun member => hash_labeled LEADER_MEMBER_LABEL (preimage ++ [w8 member]) in
  default 0 (line_members line ≫= min_by_key member_key).

Definition epoch_seal_line (seed : list Z) (epoch : Z) : Z :=
  draw (hash_labeled SEAL_LINE_LABEL (seed ++ be_bytes 8 epoch)) mod Fano.N.

Definition is_line_member (seed : list Z) (height round member : Z) : bool :=
  match line_members (leader_line seed height round) with
  | Some m => bool_decide (member ∈ m)
  | None => false
  end.

Definition leader_ticket (vrf_output seed : list Z) (height round : Z) : list Z :=
  hash_labeled LEADER_TICKET_LABEL (vrf_output ++ seed ++ be_bytes 8 height ++ be_bytes 4 round).

Definition verify_leader_ticket (root : list Z) (vrf_height vrf_index : Z) (seed : list Z)
    (height round : Z) (vrf_output : list Z) (proof : Pqvrf.MerkleProof) : option (list Z) :=
  if negb (Pqvrf.verify root vrf_height vrf_index vrf_output proof) then None
  else Some (leader_ticket vrf_output seed height round).

(** ** Lemmas *)

Lemma min_by_key_spec {A} (key : A -> list Z) l m :
  min_by_key key l = Some m -> m ∈ l /\ Forall (fun y => bytes_leb (key m) (key y) = true) l.
Proof.
  destruct l as [|x l]; [done|]. intros [= <-].
  assert (Hg : forall l x, let m := fold_left (fun m y => if bytes_leb (key m) (key y) then m else y) l x in
    m ∈ x :: l /\ bytes_leb (key m) (key x) = true /\ Forall (fun y => bytes_leb (key m) (key y) = true) l).
  { clear x l. induction l as [|y l IH]; intros x; simpl.
    - split; [set_solver|]. split; [|done]. by destruct (Codec.bytes_leb_total (key x) (key x)).
    - destruct (bytes_leb (key x) (key y)) eqn:E.
      + destruct (IH x) as (H1 & H2 & H3). split; [set_solver|]. split; [done|].
        constructor; [|done]. eapply Codec.bytes_leb_trans; eassumption.
      + destruct (IH y) as (H1 & H2 & H3). split; [set_solver|].
        destruct (Codec.bytes_leb_total (key x) (key y)) as [|Hyx]; [congruence|].
        split; [eapply Codec.bytes_leb_trans; eassumption|by constructor]. }
  destruct (Hg l x) as (H1 & H2 & H3). split; [done|by constructor].
Qed.

Lemma min_by_key_None {A} (key : A -> list Z) l : min_by_key key l = None -> l = [].
Proof. by destruct l. Qed.

Lemma leader_line_range seed height round : 0 <= leader_line seed height round < 7.
Proof. apply Z.mod_pos_bound. done. Qed.

Lemma line_members_small line : 0 <= line < 7 ->
  exists a b c, line_members line = Some [a; b; c] /\ Forall (fun p => 0 <= p < 7) [a; b; c].
Proof.
  intros Hl. assert (line ∈ seqZ 0 7) as Hin by (apply elem_of_seqZ; lia). clear Hl.
  revert line Hin. apply Forall_forall. vm_compute seqZ.
  repeat constructor; eexists _, _, _; (split; [reflexivity|repeat constructor; done]).
Qed.

End election.

(** Every pair of distinct lines, checked against the tables. *)
Definition bridge_ok (a b : Z) : bool :=
  (a =? b) ||
  match cross_shard_bridge a b, line_members a, line_members b with
  | Some p, Some ma, Some mb =>
      bool_decide (p ∈ ma) && bool_decide (p ∈ mb) &&
      forallb (fun x => negb (bool_decide (x ∈ mb)) || (x =? p)) ma
  | _, _, _ => false
  end.

Lemma bridge_ok_all : forallb (fun a => forallb (bridge_ok a) (seqZ 0 7)) (seqZ 0 7) = true.
Proof. vm_compute. reflexivity. Qed.

(** ** Claims *)

(** The elected leader is a member of the elected line, and of that line it holds the least
    key; every validator computes the same one from the beacon, the height and the round. *)
Theorem leader_is_least_on_elected_line `{Crypto} (seed : list Z) (height round : Z) :
  is_line_member seed height round (leader seed height round) = true /\
  0 <= leader seed height round < 7 /\
  forall m, is_line_member seed height round m = true ->
    bytes_leb
      (hash_labeled LEADER_MEMBER_LABEL (election_preimage seed height round ++ [w8 (leader seed height round)]))
      (hash_labeled LEADER_MEMBER_LABEL (election_preimage seed height round ++ [w8 m])) = true.
Proof.
  unfold is_line_member, leader.
  destruct (line_members_small _ (leader_line_range seed height round)) as (a & b & c & -> & Hr).
  cbn [mbind option_bind].
  match goal with |- context [min_by_key ?k [a; b; c]] => destruct (min_by_key k [a; b; c]) as [p|] eqn:E end;
    [|by apply min_by_key_None in E].
  apply min_by_key_spec in E as [Hin Hmin]. rewrite Forall_forall in Hr, Hmin. simpl.
  split; [by apply bool_decide_eq_true|]. split; [by apply Hr|].
  intros m Hm%bool_decide_eq_true. by apply Hmin.
Qed.

(** Two distinct lines of the cell have exactly one validator in common, and the bridge is
    that validator. *)
Theorem bridge_is_the_common_member (a b : Z) :
  0 <= a < 7 -> 0 <= b < 7 -> a <> b ->
  exists p ma mb, cross_shard_bridge a b = Some p /\ line_members a = Some ma /\ line_members b = Some mb /\
    forall x, x ∈ ma /\ x ∈ mb <-> x = p.
Proof.
  intros Ha Hb Hne. pose proof bridge_ok_all as Hall.
  rewrite forallb_forall in Hall. specialize (Hall a ltac:(apply list_elem_of_In, elem_of_seqZ; lia)).
  rewrite forallb_forall in Hall. specialize (Hall b ltac:(apply list_elem_of_In, elem_of_seqZ; lia)).
  unfold bridge_ok in Hall. rewrite (proj2 (Z.eqb_neq a b) Hne) in Hall. simpl in Hall.
  destruct (cross_shard_bridge a b) as [p|]; [|done].
  destruct (line_members a) as [ma|]; [|done]. destruct (line_members b) as [mb|]; [|done].
  apply andb_true_iff in Hall as [[H1%bool_decide_eq_true H2%bool_decide_eq_true]%andb_true_iff H3].
  exists p, ma, mb. do 3 (split; [done|]). intros x. split; [|by intros ->].
  intros [Hxa Hxb]. rewrite forallb_forall in H3. specialize (H3 x ltac:(by apply list_elem_of_In)).
  apply orb_true_iff in H3 as [H3|?%Z.eqb_eq]; [|done].
  rewrite negb_true_iff, bool_decide_eq_false in H3. done.
Qed.

Lemma bridge_is_the_common_member_witness :
  exists p ma mb, cross_shard_bridge 2 5 = Some p /\ line_members 2 = Some ma /\ line_members 5 = Some mb /\
    forall x, x ∈ ma /\ x ∈ mb <-> x = p.
Proof. apply (bridge_is_the_common_member 2 5); lia. Defined.

End Committee.
