(* ===== verification/Kem.v ===== *)
(** * The hybrid key encapsulation and the authenticated cipher

    [fanos-pqcrypto/src/kem.rs] (X25519 with ML-KEM-768), [fanos-pqcrypto/src/rng.rs] (the
    deterministic generator it draws from) and [fanos-primitives/src/aead.rs].  The primitives
    themselves are third-party crates: they are the operations of [KemCrypto], and [KemLaws] is
    their documented behaviour. *)
From S2P Require Import Prelude Codec Sig.
Local Open Scope Z_scope.

(** [SeedRng]: a position in the extendable output of one BLAKE3 input. *)
Record SeedRng := mk_rng { rng_input : list Z; rng_pos : nat }.

Definition MLKEM768_CT_LEN : nat := 1088.
Definition MLKEM768_EK_LEN : nat := 1184.
Definition X25519_LEN : nat := 32.
Definition CIPHERTEXT_LEN : nat := X25519_LEN + MLKEM768_CT_LEN.
Definition PUBLIC_LEN : nat := X25519_LEN + MLKEM768_EK_LEN.

(** The operations of the crates [blake3] (its extendable output), [x25519_dalek], [ml_kem],
    [sha3] and [chacha20poly1305]. *)
Class KemCrypto := {
  blake3_xof : list Z -> nat -> nat -> list Z;
  XSecret : Type;
  XPublic : Type;
  x_random_from_rng : SeedRng -> XSecret * SeedRng;
  x_public_from : XSecret -> XPublic;
  x_diffie_hellman : XSecret -> XPublic -> list Z;
  x_was_contributory : list Z -> bool;
  x_public_as_bytes : XPublic -> list Z;
  x_public_of_bytes : list Z -> XPublic;
  x_secret_as_bytes : XSecret -> list Z;
  MlDecapKey : Type;
  MlEncapKey : Type;
  ml_generate_keypair : SeedRng -> (MlDecapKey * MlEncapKey) * SeedRng;
  ml_encapsulate : MlEncapKey -> SeedRng -> (list Z * list Z) * SeedRng;
  ml_decapsulate : MlDecapKey -> list Z -> list Z;
  ml_ek_to_bytes : MlEncapKey -> list Z;
  ml_ek_new : list Z -> option MlEncapKey;
  shake256 : list Z -> nat -> list Z;
  chacha_encrypt : list Z -> list Z -> list Z -> option (list Z);
  chacha_decrypt : list Z -> list Z -> list Z -> option (list Z);
}.

(** Documented behaviour: Diffie-Hellman is symmetric, a decapsulation returns the encapsulated
    secret, keys survive their encodings, and the cipher decrypts what it encrypted under the
    same key and nonce, adding a 16-byte tag. *)
Class KemLaws `{KemCrypto} := {
  blake3_xof_length : forall m p n, length (blake3_xof m p n) = n;
  blake3_xof_bytes : forall m p n, is_bytes (blake3_xof m p n);
  x_dh_symmetric : forall a b, x_diffie_hellman a (x_public_from b) = x_diffie_hellman b (x_public_from a);
  x_public_length : forall p, length (x_public_as_bytes p) = X25519_LEN;
  x_public_roundtrip : forall p, x_public_of_bytes (x_public_as_bytes p) = p;
  ml_pair_decapsulates : forall r0 r,
    let '((dk, ek), _) := ml_generate_keypair r0 in
    let '((ct, ss), _) := ml_encapsulate ek r in
    ml_decapsulate dk ct = ss /\ length ct = MLKEM768_CT_LEN;
  ml_ek_length : forall k, length (ml_ek_to_bytes k) = MLKEM768_EK_LEN;
  ml_ek_roundtrip : forall k, ml_ek_new (ml_ek_to_bytes k) = Some k;
  shake256_length : forall m n, length (shake256 m n) = n;
  chacha_roundtrip : forall k n p c, chacha_encrypt k n p = Some c -> chacha_decrypt k n c = Some p;
  chacha_length : forall k n p c, chacha_encrypt k n p = Some c -> length c = (length p + 16)%nat;
}.

(** [hash_xof] of [fanos-primitives/src/hash.rs]: the labelled input, extended. *)
Definition hash_xof `{KemCrypto} (label : string) (data : list Z) (n : nat) : list Z := blake3_xof (labeled_hasher label data) 0 n.

Module Kem.
Section kem.
  Context `{KemCrypto}.

(** ** The generator *)

Definition from_seed (seed : list Z) : SeedRng :=
  mk_rng (ascii_bytes "FANOS-v1/pq-keygen-rng" ++ seed) 0.

Definition fill (r : SeedRng) (n : nat) : list Z * SeedRng :=
  (blake3_xof (rng_input r) (rng_pos r) n, mk_rng (rng_input r) (rng_pos r + n)).

Definition try_next_u32 (r : SeedRng) : Z * SeedRng :=
  let '(b, r) := fill r 4 in (from_le b, r).

Definition try_next_u64 (r : SeedRng) : Z * SeedRng :=
  let '(b, r) := fill r 8 in (from_le b, r).

(** ** The cipher *)

Definition aead_seal (key nonce plaintext : list Z) : option (list Z) := chacha_encrypt key nonce plaintext.
Definition aead_open (key nonce ciphertext : list Z) : option (list Z) := chacha_decrypt key nonce ciphertext.

(** ** The hybrid encapsulation *)

Definition KEM_COMBINER_LABEL : string := "FANOS-v1/hybrid-kem/X25519+ML-KEM-768".

Record HybridKemSecret := mk_kem_secret { ks_x25519 : XSecret; ks_mlkem : MlDecapKey }.
Record HybridKemPublic := mk_kem_public { kp_x25519 : XPublic; kp_mlkem : MlEncapKey }.
Record HybridCiphertext := mk_ciphertext { ct_x25519_ephemeral : list Z; ct_mlkem : list Z }.

Definition ct_to_bytes (c : HybridCiphertext) : list Z := ct_x25519_ephemeral c ++ ct_mlkem c.

Definition ct_from_bytes (bytes : list Z) : option HybridCiphertext :=
  if negb (length bytes =? CIPHERTEXT_LEN)%nat then None else
  letO e := slice 0 32 bytes in
  letO m := slice_from 32 bytes in
  Some (mk_ciphertext e m).

Definition combine (x25519_ss mlkem_ss x25519_ephemeral mlkem_ct x25519_recipient_pk : list Z) : list Z :=
  shake256 (ascii_bytes KEM_COMBINER_LABEL ++ x25519_ss ++ mlkem_ss ++ x25519_ephemeral ++ mlkem_ct ++
    x25519_recipient_pk) 32.

Definition generate (rng : SeedRng) : (HybridKemSecret * HybridKemPublic) * SeedRng :=
  let '(x_sk, rng) := x_random_from_rng rng in
  let x_pk := x_public_from x_sk in
  let '((dk, ek), rng) := ml_generate_keypair rng in
  ((mk_kem_secret x_sk dk, mk_kem_public x_pk ek), rng).

Definition decapsulate (s : HybridKemSecret) (c : HybridCiphertext) : option (list Z) :=
  let ephemeral := x_public_of_bytes (ct_x25519_ephemeral c) in
  let x_ss := x_diffie_hellman (ks_x25519 s) ephemeral in
  if negb (x_was_contributory x_ss) then None else
  let mlkem_ss := ml_decapsulate (ks_mlkem s) (ct_mlkem c) in
  let recipient_pk := x_public_from (ks_x25519 s) in
  Some (combine x_ss mlkem_ss (ct_x25519_ephemeral c) (ct_mlkem c) (x_public_as_bytes recipient_pk)).

Definition derive_subkey (s : HybridKemSecret) (domain : string) : list Z :=
  shake256 (ascii_bytes domain ++ x_secret_as_bytes (ks_x25519 s)) 32.

Definition encode (p : HybridKemPublic) : list Z :=
  x_public_as_bytes (kp_x25519 p) ++ ml_ek_to_bytes (kp_mlkem p).

Definition decode (bytes : list Z) : option HybridKemPublic :=
  if negb (length bytes =? PUBLIC_LEN)%nat then None else
  letO x := slice 0 32 bytes in
  letO e := slice_from 32 bytes in
  letO mlkem := ml_ek_new e in
  Some (mk_kem_public (x_public_of_bytes x) mlkem).

Definition encapsulate (p : HybridKemPublic) (rng : SeedRng) :
    option (HybridCiphertext * list Z) * SeedRng :=
  let '(ephemeral, rng) := x_random_from_rng rng in
  let ephemeral_pk := x_public_from ephemeral in
  let x_ss := x_diffie_hellman ephemeral (kp_x25519 p) in
  if negb (x_was_contributory x_ss) then (None, rng) else
  let '((mlkem_ct, mlkem_ss), rng) := ml_encapsulate (kp_mlkem p) rng in
  let ephemeral_bytes := x_public_as_bytes ephemeral_pk in
  let session := combine x_ss mlkem_ss ephemeral_bytes mlkem_ct (x_public_as_bytes (kp_x25519 p)) in
  (Some (mk_ciphertext ephemeral_bytes mlkem_ct, session), rng).

(** A key pair that [generate] produced. *)
Definition pair (s : HybridKemSecret) (p : HybridKemPublic) : Prop :=
  exists rng, fst (generate rng) = (s, p).

  Context `{!KemLaws}.

Lemma ct_from_to c :
  length (ct_x25519_ephemeral c) = X25519_LEN -> length (ct_mlkem c) = MLKEM768_CT_LEN ->
  ct_from_bytes (ct_to_bytes c) = Some c.
Proof.
  intros He Hm. unfold ct_from_bytes, ct_to_bytes. rewrite length_app, He, Hm. unfold CIPHERTEXT_LEN.
  rewrite Nat.eqb_refl. cbn [negb]. rewrite slice_prefix, slice_from_app by exact He. by destruct c.
Qed.

Lemma ek_decode_encode p : decode (encode p) = Some p.
Proof.
  unfold decode, encode. rewrite length_app, x_public_length, ml_ek_length. unfold PUBLIC_LEN.
  rewrite Nat.eqb_refl. cbn [negb]. rewrite slice_prefix, slice_from_app by apply x_public_length.
  rewrite ml_ek_roundtrip, x_public_roundtrip. by destruct p.
Qed.

(** The recipient derives the sender's session key, and the ciphertext has its fixed width. *)
Lemma decapsulate_encapsulate s p rng c k rng' :
  pair s p -> encapsulate p rng = (Some (c, k), rng') ->
  decapsulate s c = Some k /\ ct_from_bytes (ct_to_bytes c) = Some c /\ length (ct_to_bytes c) = CIPHERTEXT_LEN.
Proof.
  intros [r0 Hg] He. unfold generate in Hg. destruct (x_random_from_rng r0) as [x_sk r1].
  pose proof (ml_pair_decapsulates r1) as Hml.
  destruct (ml_generate_keypair r1) as [[dk ek] r2]. simpl in Hg. injection Hg as <- <-.
  unfold encapsulate in He. destruct (x_random_from_rng rng) as [eph r3]. cbn [kp_x25519 kp_mlkem] in He.
  destruct (x_was_contributory (x_diffie_hellman eph (x_public_from x_sk))) eqn:Ec; simpl in He; [|done].
  specialize (Hml r3). destruct (ml_encapsulate ek r3) as [[mct mss] r4]. destruct Hml as [Hd Hl].
  injection He as <- <- _. split.
  - unfold decapsulate. cbn [ct_x25519_ephemeral ct_mlkem ks_x25519 ks_mlkem].
    by rewrite x_public_roundtrip, x_dh_symmetric, Ec, Hd.
  - split; [apply ct_from_to; [apply x_public_length|exact Hl]|].
    unfold ct_to_bytes. cbn [ct_x25519_ephemeral ct_mlkem]. rewrite length_app, x_public_length, Hl. reflexivity.
Qed.

End kem.
End Kem.

(** ** A concrete instance

    Executable functions that satisfy [KemLaws]: the Diffie-Hellman group is addition modulo 251
    of one-byte exponents, encapsulation reveals its secret, and the cipher appends a tag that is
    the sum of the key. *)

Definition toy_dh (a b : Z) : list Z := [(a * b) mod 251; 1].
Definition toy_tag (key nonce : list Z) : list Z := be_bytes 16 (fold_left Z.add (key ++ nonce) 0).

Definition toy_kem : KemCrypto := {|
  blake3_xof m p n := replicate n (Z.of_nat (length m + p) mod 256);
  XSecret := Z; XPublic := Z;
  x_random_from_rng r := (Z.of_nat (rng_pos r), mk_rng (rng_input r) (rng_pos r + 32));
  x_public_from a := a;
  x_diffie_hellman := toy_dh;
  x_was_contributory _ := true;
  x_public_as_bytes p := p :: replicate 31 0;
  x_public_of_bytes l := default 0 (head l);
  x_secret_as_bytes p := p :: replicate 31 0;
  MlDecapKey := unit; MlEncapKey := unit;
  ml_generate_keypair r := ((tt, tt), r);
  ml_encapsulate _ r := ((replicate MLKEM768_CT_LEN 7, [3]), r);
  ml_decapsulate _ _ := [3];
  ml_ek_to_bytes _ := replicate MLKEM768_EK_LEN 0;
  ml_ek_new _ := Some tt;
  shake256 m n := replicate n (Z.of_nat (length m) mod 256);
  chacha_encrypt k n p := Some (p ++ toy_tag k n);
  chacha_decrypt k n c :=
    if (length c <? 16)%nat then None
    else if bool_decide (drop (length c - 16) c = toy_tag k n) then Some (take (length c - 16) c) else None;
|}.

Lemma toy_kem_laws : @KemLaws toy_kem.
Proof.
  split; cbn [toy_kem blake3_xof x_diffie_hellman x_public_from x_public_as_bytes x_public_of_bytes
    ml_generate_keypair ml_encapsulate ml_decapsulate ml_ek_to_bytes ml_ek_new shake256 chacha_encrypt
    chacha_decrypt]; intros; try apply length_replicate; try reflexivity.
  - apply Forall_replicate. apply (wrap_range 8). lia.
  - unfold toy_dh. by rewrite Z.mul_comm.
  - split; [done|apply length_replicate].
  - cbn in k. by destruct k.
  - match goal with Hc : Some _ = Some _ |- _ => injection Hc as <- end.
    assert (Ht : length (toy_tag k n) = 16%nat) by apply length_be_bytes.
    rewrite length_app, Ht. rewrite (proj2 (Nat.ltb_ge _ _)) by lia.
    replace (length p + 16 - 16)%nat with (length p) by lia.
    rewrite drop_app_length, take_app_length. by rewrite bool_decide_eq_true_2.
  - match goal with Hc : Some _ = Some _ |- _ => injection Hc as <- end.
    by rewrite length_app; unfold toy_tag; rewrite length_be_bytes.
Qed.
