(* ===== verification/Cells.v ===== *)
(** * Cells and frames of a connection

    [fanos-diaulos/src/cell.rs] (the constant-size sealed cell) and [fanos-diaulos/src/frame.rs] (what a cell
    carries). *)
From S2P Require Import Prelude Codec Sig Kem Wire Stream.
Local Open Scope Z_scope.

Module Cells.
Import Stream.

Definition CELL_PLAINTEXT : nat := 1040.
Definition NONCE_LEN : nat := 8.
Definition TAG_LEN : nat := 16.
Definition CELL_LEN : nat := NONCE_LEN + CELL_PLAINTEXT + TAG_LEN.

Definition FT_PADDING : Z := 0.
Definition FT_DATA : Z := 1.
Definition FT_ACK : Z := 2.
Definition FT_RESET : Z := 3.

Inductive Frame :=
| Data (g : Segment)
| AckOf (stream_id : Z) (a : Ack)
| Padding
| Reset (stream_id : Z).

Definition encode_frame (f : Frame) : list Z :=
  match f with
  | Data s =>
      let len := Nat.min (length (data s)) MAX_SEGMENT in
      [FT_DATA] ++ be_bytes 4 (stream_id s) ++ be_bytes 4 (seq s) ++ [Z.b2z (fin s)] ++
      be_bytes 2 (Z.min (Z.of_nat len) (2 ^ 16 - 1)) ++ take len (data s)
  | AckOf id a => [FT_ACK] ++ be_bytes 4 id ++ be_bytes 4 (cumulative a) ++ be_bytes 8 (sack a) ++ be_bytes 4 (rwnd a)
  | Padding => [FT_PADDING]
  | Reset id => [FT_RESET] ++ be_bytes 4 id
  end.

(** [uN::wire_decode(&mut cur).ok()?] of an [n]-byte integer. *)
Definition get_be (n : nat) (cur : list Z) : option (Z * list Z) :=
  match wtake cur n with Ok (b, cur) => Some (from_be b, cur) | Err _ => None end.

Definition decode_frame (bytes : list Z) : option Frame :=
  match bytes with
  | [] => None
  | ftype :: cur =>
      if ftype =? FT_PADDING then Some Padding else
      if ftype =? FT_RESET then letO (id, _) := get_be 4 cur in Some (Reset id) else
      if ftype =? FT_DATA then
        letO (id, cur) := get_be 4 cur in
        letO (q, cur) := get_be 4 cur in
        match cur with
        | [] => None
        | f :: cur =>
            letO (len, cur) := get_be 2 cur in
            if Z.of_nat MAX_SEGMENT <? len then None else
            letO d := slice 0 (Z.to_nat len) cur in
            Some (Data (mk_seg id q (negb (f =? 0)) d))
        end
      else if ftype =? FT_ACK then
        letO (id, cur) := get_be 4 cur in
        letO (c, cur) := get_be 4 cur in
        letO (s, cur) := get_be 8 cur in
        letO (w, _) := get_be 4 cur in
        Some (AckOf id (mk_ack c s w))
      else None
  end.

Section cells.
  Context `{KemCrypto}.

Definition aead_nonce (cnonce : Z) : list Z := replicate 4 0 ++ le_bytes 8 cnonce.

Definition seal (key : list Z) (cnonce : Z) (frame : list Z) : option (list Z) :=
  if (CELL_PLAINTEXT <? length frame)%nat then None else
  let plaintext := frame ++ replicate (CELL_PLAINTEXT - length frame) 0 in
  letO ciphertext := Kem.aead_seal key (aead_nonce cnonce) plaintext in
  Some (le_bytes 8 cnonce ++ ciphertext).

Definition open (key cell : list Z) : option (list Z) :=
  if negb (length cell =? CELL_LEN)%nat then None else
  Kem.aead_open key (aead_nonce (from_le (take NONCE_LEN cell))) (drop NONCE_LEN cell).

End cells.

(** ** Round trips *)

(** What the types of the source fix, and the sender's bound on a segment. *)
Definition frame_ok (f : Frame) : Prop :=
  match f with
  | Data g => is_u32 (stream_id g) /\ is_u32 (seq g) /\ (length (data g) <= MAX_SEGMENT)%nat
  | AckOf id a => is_u32 id /\ is_u32 (cumulative a) /\ is_u64 (sack a) /\ is_u32 (rwnd a)
  | Padding => True
  | Reset id => is_u32 id
  end.

Lemma get_be_app n x rest : in_u (8 * Z.of_nat n) x -> get_be n (be_bytes n x ++ rest) = Some (x, rest).
Proof. intros Hx. unfold get_be. rewrite (wtake_app_n n) by apply length_be_bytes. by rewrite from_be_id. Qed.

Lemma length_frame f : frame_ok f -> (length (encode_frame f) <= CELL_PLAINTEXT)%nat.
Proof.
  unfold CELL_PLAINTEXT. destruct f as [g|id a| |id]; cbn [encode_frame frame_ok]; rewrite ?length_app, ?length_be_bytes; cbn [length]; try lia.
  intros (_ & _ & Hl). rewrite length_take. unfold MAX_SEGMENT in *. lia.
Qed.

Lemma decode_padded f pad : frame_ok f -> decode_frame (encode_frame f ++ pad) = Some f.
Proof.
  destruct f as [[id q b d]|id [c s w]| |id]; cbn [frame_ok encode_frame stream_id seq fin data cumulative sack rwnd].
  - intros (Hi & Hq & Hl). rewrite <- !app_assoc. cbn [app decode_frame]. change (FT_DATA =? FT_PADDING) with false. change (FT_DATA =? FT_RESET) with false.
    change (FT_DATA =? FT_DATA) with true. cbv iota. rewrite get_be_app by done. cbn [mbind option_bind]. rewrite get_be_app by done. cbn [mbind option_bind].
    assert (Hlen : Nat.min (length d) MAX_SEGMENT = length d) by (unfold MAX_SEGMENT in *; lia). rewrite Hlen.
    assert (Hb : Z.min (Z.of_nat (length d)) (2 ^ 16 - 1) = Z.of_nat (length d)) by (unfold MAX_SEGMENT in *; lia). rewrite Hb.
    rewrite get_be_app by (unfold in_u, MAX_SEGMENT in *; lia). cbn [mbind option_bind]. rewrite (proj2 (Z.ltb_ge _ _)) by lia.
    rewrite Nat2Z.id, firstn_all, slice_prefix by done. cbn [mbind option_bind]. by destruct b.
  - intros (Hi & Hc & Hs & Hw). rewrite <- !app_assoc. cbn [app decode_frame]. change (FT_ACK =? FT_PADDING) with false. change (FT_ACK =? FT_RESET) with false.
    change (FT_ACK =? FT_DATA) with false. change (FT_ACK =? FT_ACK) with true. cbv iota.
    do 4 (rewrite get_be_app by done; cbn [mbind option_bind]). done.
  - done.
  - intros Hi. rewrite <- app_assoc. cbn [app decode_frame]. change (FT_RESET =? FT_PADDING) with false. change (FT_RESET =? FT_RESET) with true. cbv iota.
    by rewrite get_be_app by done.
Qed.

(** A decoded segment never exceeds the bound of the sender. *)
Lemma decode_bound b g : decode_frame b = Some (Data g) -> (length (data g) <= MAX_SEGMENT)%nat.
Proof.
  destruct b as [|ft cur]; [done|]. cbn [decode_frame]. destruct (ft =? FT_PADDING); [done|]. destruct (ft =? FT_RESET); [by destruct (get_be 4 cur) as [[]|]|].
  destruct (ft =? FT_DATA).
  - destruct (get_be 4 cur) as [[i c1]|]; [|done]. cbn [mbind option_bind]. destruct (get_be 4 c1) as [[q [|f c2]]|]; [done| |done]. cbn [mbind option_bind].
    destruct (get_be 2 c2) as [[len c3]|]; [|done]. cbn [mbind option_bind]. destruct (Z.ltb_spec (Z.of_nat MAX_SEGMENT) len); [done|].
    destruct (slice 0 (Z.to_nat len) c3) as [d|] eqn:Es; [|done]. cbn [mbind option_bind]. intros [= <-]. apply slice_inv in Es as (_ & _ & Hl). cbn [data]. lia.
  - destruct (ft =? FT_ACK); [|done]. destruct (get_be 4 cur) as [[i c1]|]; [|done]. cbn [mbind option_bind]. destruct (get_be 4 c1) as [[q c2]|]; [|done]. cbn [mbind option_bind].
    destruct (get_be 8 c2) as [[s c3]|]; [|done]. cbn [mbind option_bind]. by destruct (get_be 4 c3) as [[w c4]|].
Qed.

Section sealed.
  Context `{KemCrypto} {HKL : KemLaws}.

(** A sealed cell has the constant size and opens, under its key, to the frame it carries. *)
Lemma cell_roundtrip key n f cell : is_u64 n -> frame_ok f -> seal key n (encode_frame f) = Some cell ->
  length cell = CELL_LEN /\ exists b, open key cell = Some b /\ decode_frame b = Some f.
Proof.
  intros Hn Hf. unfold seal. rewrite (proj2 (Nat.ltb_ge _ _)) by by apply length_frame. pose proof (length_frame f Hf) as Hl.
  set (pad := replicate _ 0). destruct (Kem.aead_seal key (aead_nonce n) (encode_frame f ++ pad)) as [c|] eqn:Ec; [|done]. cbn [mbind option_bind]. intros E. apply (inj Some) in E. subst cell.
  pose proof (chacha_length _ _ _ _ Ec) as Hc. rewrite length_app in Hc. unfold pad in Hc. rewrite length_replicate in Hc.
  assert (Hlen : length (le_bytes 8 n ++ c) = CELL_LEN) by (rewrite length_app, length_le_bytes, Hc; unfold CELL_LEN, NONCE_LEN, TAG_LEN; lia).
  split; [done|]. exists (encode_frame f ++ pad). split; [|by apply decode_padded]. unfold open. rewrite Hlen, Nat.eqb_refl. cbn [negb].
  rewrite (take_app_length' (le_bytes 8 n) c NONCE_LEN), (drop_app_length' (le_bytes 8 n) c NONCE_LEN) by by rewrite length_le_bytes.
  rewrite from_le_id by done. by apply chacha_roundtrip.
Qed.

End sealed.
End Cells.
