(* ===== verification/Conn.v ===== *)
(** * Connections: streams multiplexed over one channel of cells

    [fanos-diaulos/src/conn.rs] (many streams under two direction keys and one nonce counter) and
    [fanos-diaulos/src/endpoint.rs] (one stream).  A method that returns early with [None] has its state beside
    the result, as it stands at that point. *)
From S2P Require Import Prelude Codec Sig Kem Wire Stream Cells.
From stdpp Require Import sorting.
Local Open Scope Z_scope.

Module Conn.
Import Stream Cells.

Definition MAX_CONCURRENT_STREAMS : nat := 256.

Record Duplex := mk_duplex { sender : StreamSender; receiver : StreamReceiver }.

Definition duplex_new (id : Z) : Duplex := mk_duplex (Stream.open id) (receiver_new id).

Record Connection := mk_conn {
  key_tx : list Z;
  key_rx : list Z;
  nonce_tx : Z;
  next_local_id : Z;
  peer_id_parity : Z;
  peer_closed_below : Z;
  streams : gmap Z Duplex;
  accept_queue : list Z;
}.

Definition conn_new (key_tx key_rx : list Z) (initiator : bool) : Connection :=
  mk_conn key_tx key_rx 0 (Z.b2z (negb initiator)) (Z.b2z initiator) 0 ∅ [].

Definition set_streams (m : gmap Z Duplex) (c : Connection) : Connection :=
  mk_conn (key_tx c) (key_rx c) (nonce_tx c) (next_local_id c) (peer_id_parity c) (peer_closed_below c) m (accept_queue c).
Definition set_nonce (n : Z) (c : Connection) : Connection :=
  mk_conn (key_tx c) (key_rx c) n (next_local_id c) (peer_id_parity c) (peer_closed_below c) (streams c) (accept_queue c).
Definition set_local (id : Z) (c : Connection) : Connection :=
  mk_conn (key_tx c) (key_rx c) (nonce_tx c) id (peer_id_parity c) (peer_closed_below c) (streams c) (accept_queue c).
Definition set_closed (n : Z) (c : Connection) : Connection :=
  mk_conn (key_tx c) (key_rx c) (nonce_tx c) (next_local_id c) (peer_id_parity c) n (streams c) (accept_queue c).
Definition set_queue (q : list Z) (c : Connection) : Connection :=
  mk_conn (key_tx c) (key_rx c) (nonce_tx c) (next_local_id c) (peer_id_parity c) (peer_closed_below c) (streams c) q.

Definition open_stream (c : Connection) : option Z * Connection :=
  if (MAX_CONCURRENT_STREAMS <=? size (streams c))%nat then (None, c) else
  let id := next_local_id c in
  if 2 ^ 32 <=? id + 2 then (None, c) else
  (Some id, set_streams (<[id := duplex_new id]> (streams c)) (set_local (id + 2) c)).

Definition accept (c : Connection) : option Z * Connection :=
  match accept_queue c with [] => (None, c) | id :: q => (Some id, set_queue q c) end.

Definition with_stream (c : Connection) (id : Z) (f : Duplex -> Duplex) : Connection :=
  match streams c !! id with Some s => set_streams (<[id := f s]> (streams c)) c | None => c end.

Definition write (c : Connection) (id : Z) (bytes : list Z) : Connection := with_stream c id (fun s => mk_duplex (push (sender s) bytes) (receiver s)).
Definition flush (c : Connection) (id : Z) : Connection := with_stream c id (fun s => mk_duplex (Stream.flush (sender s)) (receiver s)).
Definition finish (c : Connection) (id : Z) : Connection := with_stream c id (fun s => mk_duplex (Stream.finish (sender s)) (receiver s)).

Definition read (c : Connection) (id : Z) : list Z * Connection :=
  match streams c !! id with
  | Some s => let '(out, r) := take_ (receiver s) in (out, set_streams (<[id := mk_duplex (sender s) r]> (streams c)) c)
  | None => ([], c)
  end.

Definition sender_complete (c : Connection) (id : Z) : bool :=
  match streams c !! id with Some s => is_complete (sender s) | None => false end.
Definition receiver_finished (c : Connection) (id : Z) : bool :=
  match streams c !! id with Some s => is_finished (receiver s) | None => false end.
Definition is_stream_done (c : Connection) (id : Z) : bool := sender_complete c id && receiver_finished c id.
Definition stream_count (c : Connection) : nat := size (streams c).
Definition conn_stalled_attempts (c : Connection) : Z := map_fold (fun _ s acc => Z.max (stalled_attempts (sender s)) acc) 0 (streams c).
Definition buffered_bytes (c : Connection) : nat :=
  map_fold (fun _ s acc => sender_buffered_bytes (sender s) + receiver_buffered_bytes (receiver s) + acc)%nat 0%nat (streams c).

(** The frontier moves past an id of the peer's parity. *)
Definition close_id (c : Connection) (id : Z) : Connection :=
  if Z.land id 1 =? peer_id_parity c then set_closed (Z.max (peer_closed_below c) (sat_add 32 id 1)) c else c.

Definition retire_stream (c : Connection) (id : Z) : bool * Connection :=
  if negb (is_stream_done c id) || negb (bool_decide (is_Some (streams c !! id))) then (false, c) else
  (true, close_id (set_streams (delete id (streams c)) c) id).

Definition next_nonce (c : Connection) : option Z * Connection :=
  if 2 ^ 64 <=? nonce_tx c + 1 then (None, c) else (Some (nonce_tx c), set_nonce (nonce_tx c + 1) c).

Definition drop_stream (c : Connection) (id : Z) : Connection :=
  close_id (set_queue (filter (fun i => i <> id) (accept_queue c)) (set_streams (delete id (streams c)) c)) id.

(** The ids in the order of the map. *)
Definition ids (m : gmap Z Duplex) : list Z := merge_sort Z.le (elements (dom m)).

(** One stream's turn of a sweep: its segments, then its acknowledgement. *)
Definition sweep_one (poll : StreamSender -> list Segment * StreamSender) (st : gmap Z Duplex * list Frame) (id : Z) : gmap Z Duplex * list Frame :=
  let '(m, frames) := st in
  match m !! id with
  | Some s => let '(segs, snd') := poll (sender s) in
      (<[id := mk_duplex snd' (receiver s)]> m, frames ++ map Data segs ++ [AckOf id (ack (receiver s))])
  | None => (m, frames)
  end.

Definition sweep (poll : StreamSender -> list Segment * StreamSender) (m : gmap Z Duplex) : gmap Z Duplex * list Frame :=
  fold_left (sweep_one poll) (ids m) (m, []).

Section cells.
  Context `{KemCrypto}.

Definition reset_stream (c : Connection) (id : Z) : option (list Z) * Connection :=
  match streams c !! id with
  | None => (None, c)
  | Some _ =>
      let c := drop_stream c id in
      match next_nonce c with
      | (None, c) => (None, c)
      | (Some n, c) => (seal (key_tx c) n (encode_frame (Reset id)), c)
      end
  end.

Definition seal_one (st : list (list Z) * Connection) (f : Frame) : list (list Z) * Connection :=
  let '(cells, c) := st in
  match next_nonce c with
  | (None, c) => (cells, c)
  | (Some n, c) => (cells ++ option_list (seal (key_tx c) n (encode_frame f)), c)
  end.

Definition seal_frames (c : Connection) (frames : list Frame) : list (list Z) * Connection := fold_left seal_one frames ([], c).

Definition outbound (c : Connection) : list (list Z) * Connection :=
  let '(m, frames) := sweep Stream.outbound (streams c) in seal_frames (set_streams m c) frames.

Definition outbound_new (c : Connection) : list (list Z) * Connection :=
  let '(m, frames) := sweep poll_new (streams c) in seal_frames (set_streams m c) frames.

Fixpoint pad_loop (missing : nat) (cells : list (list Z)) (c : Connection) : list (list Z) * Connection :=
  match missing with
  | O => (cells, c)
  | S missing =>
      match next_nonce c with
      | (None, c) => (cells, c)
      | (Some n, c) =>
          match seal (key_tx c) n (encode_frame Padding) with
          | Some cell => pad_loop missing (cells ++ [cell]) c
          | None => (cells, c)
          end
      end
  end.

Definition outbound_padded (c : Connection) (min_cells : nat) : list (list Z) * Connection :=
  let '(cells, c) := outbound c in pad_loop (min_cells - length cells) cells c.

Definition on_frame (c : Connection) (f : option Frame) : Connection :=
  match f with
  | Some (Data g) =>
      let id := stream_id g in
      let c :=
        if bool_decide (is_Some (streams c !! id)) then c else
        let admissible := (Z.land id 1 =? peer_id_parity c) && (peer_closed_below c <=? id) && (size (streams c) <? MAX_CONCURRENT_STREAMS)%nat in
        if admissible then set_queue (accept_queue c ++ [id]) (set_streams (<[id := duplex_new id]> (streams c)) c) else c in
      with_stream c id (fun s => mk_duplex (sender s) (snd (on_segment (receiver s) g)))
  | Some (AckOf id a) => with_stream c id (fun s => mk_duplex (on_ack (sender s) a) (receiver s))
  | Some (Reset id) => drop_stream c id
  | _ => c
  end.

Definition on_cell (c : Connection) (cell : list Z) : Connection :=
  match Cells.open (key_rx c) cell with None => c | Some b => on_frame c (decode_frame b) end.

(** ** One stream on its own *)

Record StreamEndpoint := mk_endpoint {
  e_id : Z; e_sender : StreamSender; e_receiver : StreamReceiver; e_key_tx : list Z; e_key_rx : list Z; e_nonce_tx : Z;
}.

Definition endpoint_new (id : Z) (key_tx key_rx : list Z) : StreamEndpoint := mk_endpoint id (Stream.open id) (receiver_new id) key_tx key_rx 0.

Definition e_set (e : StreamEndpoint) (s : StreamSender) (r : StreamReceiver) (n : Z) : StreamEndpoint :=
  mk_endpoint (e_id e) s r (e_key_tx e) (e_key_rx e) n.

Definition e_write (e : StreamEndpoint) (bytes : list Z) : StreamEndpoint := e_set e (push (e_sender e) bytes) (e_receiver e) (e_nonce_tx e).
Definition e_finish (e : StreamEndpoint) : StreamEndpoint := e_set e (Stream.finish (e_sender e)) (e_receiver e) (e_nonce_tx e).
Definition e_read (e : StreamEndpoint) : list Z * StreamEndpoint :=
  let '(out, r) := take_ (e_receiver e) in (out, e_set e (e_sender e) r (e_nonce_tx e)).
Definition e_is_done (e : StreamEndpoint) : bool := is_complete (e_sender e) && is_finished (e_receiver e).

Definition e_next_nonce (e : StreamEndpoint) : option Z * StreamEndpoint :=
  if 2 ^ 64 <=? e_nonce_tx e + 1 then (None, e) else (Some (e_nonce_tx e), e_set e (e_sender e) (e_receiver e) (e_nonce_tx e + 1)).

(** The frames of one call, in order; the first exhausted nonce ends it. *)
Fixpoint e_seal (e : StreamEndpoint) (frames : list Frame) : list (list Z) * StreamEndpoint :=
  match frames with
  | [] => ([], e)
  | f :: frames =>
      match e_next_nonce e with
      | (None, e) => ([], e)
      | (Some n, e) =>
          let cell := seal (e_key_tx e) n (encode_frame f) in
          let '(cells, e) := e_seal e frames in (option_list cell ++ cells, e)
      end
  end.

Definition e_outbound (e : StreamEndpoint) : list (list Z) * StreamEndpoint :=
  let '(segs, s) := Stream.outbound (e_sender e) in
  let e := e_set e s (e_receiver e) (e_nonce_tx e) in
  e_seal e (map Data segs ++ [AckOf (e_id e) (ack (e_receiver e))]).

Definition e_on_cell (e : StreamEndpoint) (cell : list Z) : StreamEndpoint :=
  match Cells.open (e_key_rx e) cell with
  | None => e
  | Some b =>
      match decode_frame b with
      | Some (Data g) => e_set e (e_sender e) (snd (on_segment (e_receiver e) g)) (e_nonce_tx e)
      | Some (AckOf id a) => if id =? e_id e then e_set e (on_ack (e_sender e) a) (e_receiver e) (e_nonce_tx e) else e
      | _ => e
      end
  end.

End cells.

(** ** What a sweep leaves alone *)

Lemma close_id_fields c id : streams (close_id c id) = streams c /\ key_tx (close_id c id) = key_tx c /\ key_rx (close_id c id) = key_rx c /\ nonce_tx (close_id c id) = nonce_tx c /\
  next_local_id (close_id c id) = next_local_id c /\ peer_id_parity (close_id c id) = peer_id_parity c /\ accept_queue (close_id c id) = accept_queue c /\
  peer_closed_below c <= peer_closed_below (close_id c id) /\ (is_u32 id -> id < 2 ^ 32 - 1 -> Z.land id 1 = peer_id_parity c -> id < peer_closed_below (close_id c id)).
Proof.
  unfold close_id. destruct (Z.eqb_spec (Z.land id 1) (peer_id_parity c)) as [|Hne]; cbn [set_closed streams key_tx key_rx nonce_tx next_local_id peer_id_parity accept_queue peer_closed_below];
    split_and!; try done; try lia. intros Hi Hlt _. unfold sat_add, in_u in *. lia.
Qed.

Lemma sweep_one_lookup poll m fs id : sweep_one poll (m, fs) id =
  match m !! id with
  | Some s => (<[id := mk_duplex (snd (poll (sender s))) (receiver s)]> m, fs ++ map Data (fst (poll (sender s))) ++ [AckOf id (ack (receiver s))])
  | None => (m, fs)
  end.
Proof. unfold sweep_one. destruct (m !! id) as [s|]; [|done]. by destruct (poll (sender s)). Qed.

Section sealing.
  Context `{KemCrypto}.

Lemma next_nonce_spec c : 0 <= nonce_tx c < 2 ^ 64 ->
  match next_nonce c with
  | (None, c') => c' = c
  | (Some n, c') => n = nonce_tx c /\ is_u64 n /\ c' = set_nonce (n + 1) c /\ n + 1 < 2 ^ 64
  end.
Proof. intros Hn. unfold next_nonce. destruct (Z.leb_spec (2 ^ 64) (nonce_tx c + 1)); [done|]. split_and!; try done. Qed.

(** Only the counter of a connection changes when it seals. *)
Definition sealed_from (c c' : Connection) : Prop := exists n, c' = set_nonce n c /\ nonce_tx c <= n < 2 ^ 64.

Lemma sealed_from_refl c : 0 <= nonce_tx c < 2 ^ 64 -> sealed_from c c.
Proof. intros Hn. exists (nonce_tx c). split; [by destruct c|lia]. Qed.

Lemma sealed_from_trans c c' c'' : sealed_from c c' -> sealed_from c' c'' -> sealed_from c c''.
Proof. intros (n & -> & Hn) (n' & -> & Hn'). exists n'. cbn [set_nonce nonce_tx] in *. split; [done|lia]. Qed.

(** The cells of a connection between two counters: each seals one frame under a counter of its own. *)
Inductive minted (key : list Z) : Z -> Z -> list Frame -> list (list Z) -> Prop :=
| minted_nil n : minted key n n [] []
| minted_skip n n' f fs cells : minted key n n' fs cells -> minted key n n' (f :: fs) cells
| minted_lost n n' f fs cells : minted key (n + 1) n' fs cells -> minted key n n' (f :: fs) cells
| minted_cell n n' f fs cell cells : is_u64 n -> seal key n (encode_frame f) = Some cell -> minted key (n + 1) n' fs cells -> minted key n n' (f :: fs) (cell :: cells).

Lemma seal_all fs : forall c cells, 0 <= nonce_tx c < 2 ^ 64 ->
  let '(out, c') := fold_left seal_one fs (cells, c) in
  sealed_from c c' /\ exists new, out = cells ++ new /\ minted (key_tx c) (nonce_tx c) (nonce_tx c') fs new.
Proof.
  induction fs as [|f fs IH]; intros c cells Hn; cbn [fold_left].
  - split; [by apply sealed_from_refl|]. exists []. rewrite app_nil_r. split; [done|constructor].
  - cbn [seal_one]. pose proof (next_nonce_spec c Hn) as Hs. destruct (next_nonce c) as [[n|] c1].
    + destruct Hs as (-> & Hu & -> & Hlt). cbn [set_nonce key_tx].
      specialize (IH (set_nonce (nonce_tx c + 1) c) (cells ++ option_list (seal (key_tx c) (nonce_tx c) (encode_frame f))) ltac:(cbn; lia)).
      destruct (fold_left seal_one fs _) as [out c']. destruct IH as (Hf & new & -> & Hm). cbn [set_nonce key_tx nonce_tx] in Hm.
      split; [eapply sealed_from_trans; [|exact Hf]; exists (nonce_tx c + 1); split; [done|lia]|].
      destruct (seal (key_tx c) (nonce_tx c) (encode_frame f)) as [cell|] eqn:Es; cbn [option_list].
      * exists (cell :: new). rewrite <- app_assoc. split; [done|]. by apply minted_cell.
      * exists new. rewrite app_nil_r. split; [done|]. by apply minted_lost.
    + subst c1. specialize (IH c cells Hn). destruct (fold_left seal_one fs _) as [out c']. destruct IH as (Hf & new & -> & Hm).
      split; [done|]. exists new. split; [done|]. by apply minted_skip.
Qed.

Lemma minted_elem key n n' fs cells : minted key n n' fs cells -> forall cell, cell ∈ cells -> exists f m, f ∈ fs /\ n <= m < n' /\ is_u64 m /\ seal key m (encode_frame f) = Some cell.
Proof.
  intros Hm. assert (Hle : n <= n') by (induction Hm; lia). induction Hm as [n|n n' f fs cells Hm IH|n n' f fs cells Hm IH|n n' f fs cell cells Hu Es Hm IH]; intros x Hx.
  - by apply elem_of_nil in Hx.
  - destruct (IH ltac:(lia) x Hx) as (g & m & Hg & Hr & Hu & E). exists g, m. split; [by right|done].
  - assert (Hl : n + 1 <= n') by (clear -Hm; induction Hm; lia). destruct (IH Hl x Hx) as (g & m & Hg & Hr & Hu & E). exists g, m. split; [by right|]. split; [lia|done].
  - assert (Hl : n + 1 <= n') by (clear -Hm; induction Hm; lia). apply elem_of_cons in Hx as [->|Hx].
    + exists f, n. split; [by left|]. split; [lia|done].
    + destruct (IH Hl x Hx) as (g & m & Hg & Hr & Hu' & E). exists g, m. split; [by right|]. split; [lia|done].
Qed.

(** Padding. *)
Lemma pad_all k : forall c cells, 0 <= nonce_tx c < 2 ^ 64 ->
  let '(out, c') := pad_loop k cells c in
  sealed_from c c' /\ exists new, out = cells ++ new /\ minted (key_tx c) (nonce_tx c) (nonce_tx c') (replicate k Padding) new.
Proof.
  induction k as [|k IH]; intros c cells Hn; cbn [pad_loop replicate].
  - split; [by apply sealed_from_refl|]. exists []. rewrite app_nil_r. split; [done|constructor].
  - pose proof (next_nonce_spec c Hn) as Hs. destruct (next_nonce c) as [[n|] c1].
    + destruct Hs as (-> & Hu & -> & Hlt). cbn [set_nonce key_tx].
      destruct (seal (key_tx c) (nonce_tx c) (encode_frame Padding)) as [cell|] eqn:Es.
      * specialize (IH (set_nonce (nonce_tx c + 1) c) (cells ++ [cell]) ltac:(cbn; lia)). destruct (pad_loop k _ _) as [out c'].
        destruct IH as (Hf & new & -> & Hm). cbn [set_nonce key_tx nonce_tx] in Hm. split; [eapply sealed_from_trans; [|exact Hf]; exists (nonce_tx c + 1); split; [done|lia]|].
        exists (cell :: new). rewrite <- app_assoc. split; [done|]. by apply minted_cell.
      * split; [exists (nonce_tx c + 1); split; [done|lia]|]. exists []. rewrite app_nil_r. split; [done|]. apply minted_lost. cbn [set_nonce nonce_tx].
        clear. induction k as [|k IH]; cbn [replicate]; [constructor|by apply minted_skip].
    + subst c1. split; [by apply sealed_from_refl|]. exists []. rewrite app_nil_r. split; [done|]. apply minted_skip.
      clear. induction k as [|k IH]; cbn [replicate]; [constructor|by apply minted_skip].
Qed.

End sealing.
(** ** The memory budget of the session layer *)

Definition SESSION_SHARE : Z := 64 * 1024 * 1024.
Definition SESSION_MEMORY_BUDGET : Z := SESSION_SHARE.
Definition QUEUE_DEPTH : Z := 2 * SACK_WIDTH.
Definition MAX_SESSIONS : Z := SESSION_MEMORY_BUDGET / (2 * QUEUE_DEPTH * Z.of_nat CELL_LEN).
Definition STREAM_STATE_PER_SESSION : Z := Z.of_nat MAX_CONCURRENT_STREAMS * DEFAULT_WINDOW * Z.of_nat MAX_SEGMENT.
Definition SESSION_WORST_CASE : Z := MAX_SESSIONS * (2 * QUEUE_DEPTH * Z.of_nat CELL_LEN + STREAM_STATE_PER_SESSION).
Definition SESSION_OVERRUN : Z := sat_sub SESSION_WORST_CASE SESSION_MEMORY_BUDGET.

(** The assertions the source makes at compile time. *)
Lemma session_budget : SESSION_OVERRUN = 2063495168 /\ MAX_SESSIONS * 2 * QUEUE_DEPTH * Z.of_nat CELL_LEN <= SESSION_MEMORY_BUDGET /\
  2 * SACK_WIDTH <= QUEUE_DEPTH /\ SESSION_MEMORY_BUDGET < (MAX_SESSIONS + 1) * 2 * QUEUE_DEPTH * Z.of_nat CELL_LEN.
Proof. by vm_compute. Qed.

End Conn.
