(* ===== verification/ConnWorld.v ===== *)
(** * Two ends of a connection

    Two connections of [Conn.v], the initiator ([true]) and the responder ([false]), on a network that keeps
    every cell it was ever given and hands over any of them at any time, any number of times, or never, with
    whatever other bytes it likes.  Each stream, in each direction, behaves as the sender and the receiver
    of [StreamWorld.v]. *)
From S2P Require Import Prelude Codec Sig Kem Wire Stream StreamWorld Cells Conn.
Local Open Scope Z_scope.

Module ConnWorld.
Import Stream Cells.

(** The connections, the cells each end emitted, what each end wrote to a stream and what it read from it. *)
Record world := mk_world {
  conn : bool -> Conn.Connection;
  wire : bool -> list (list Z);
  wrote : bool -> Z -> list Z;
  got : bool -> Z -> list Z;
}.

Definition upd {A} (f : bool -> A) (s : bool) (x : A) : bool -> A := fun t => if Bool.eqb t s then x else f t.
Definition log (f : bool -> Z -> list Z) (s : bool) (id : Z) (bytes : list Z) : bool -> Z -> list Z :=
  fun t i => if Bool.eqb t s && (i =? id) then f t i ++ bytes else f t i.

Definition world_new (k1 k2 : list Z) : world :=
  mk_world (fun s => if s then Conn.conn_new k1 k2 true else Conn.conn_new k2 k1 false) (fun _ => []) (fun _ _ => []) (fun _ _ => []).

Inductive event :=
| Open | Accept
| Write (id : Z) (bytes : list Z) | Flush (id : Z) | Finish (id : Z) | Read (id : Z)
| Sweep | Poll | Padded (min_cells : nat)
| Retire (id : Z) | Abandon (id : Z)
| Cell (cell : list Z).

Definition accepts (c : Conn.Connection) (id : Z) : bool :=
  match Conn.streams c !! id with Some d => negb (finished (Conn.sender d)) | None => false end.

Section run.
  Context `{KemCrypto}.

Definition set_conn (w : world) (s : bool) (c : Conn.Connection) : world := mk_world (upd (conn w) s c) (wire w) (wrote w) (got w).
Definition emit (w : world) (s : bool) (r : list (list Z) * Conn.Connection) : world :=
  mk_world (upd (conn w) s (snd r)) (upd (wire w) s (wire w s ++ fst r)) (wrote w) (got w).

Definition step (w : world) (s : bool) (e : event) : world :=
  let c := conn w s in
  match e with
  | Open => set_conn w s (snd (Conn.open_stream c))
  | Accept => set_conn w s (snd (Conn.accept c))
  | Write id bytes => mk_world (upd (conn w) s (Conn.write c id bytes)) (wire w) (log (wrote w) s id (if accepts c id then bytes else [])) (got w)
  | Flush id => set_conn w s (Conn.flush c id)
  | Finish id => set_conn w s (Conn.finish c id)
  | Read id => mk_world (upd (conn w) s (snd (Conn.read c id))) (wire w) (wrote w) (log (got w) s id (fst (Conn.read c id)))
  | Sweep => emit w s (Conn.outbound c)
  | Poll => emit w s (Conn.outbound_new c)
  | Padded n => emit w s (Conn.outbound_padded c n)
  | Retire id => set_conn w s (snd (Conn.retire_stream c id))
  | Abandon id => emit w s (option_list (fst (Conn.reset_stream c id)), snd (Conn.reset_stream c id))
  | Cell cell => set_conn w s (Conn.on_cell c cell)
  end.

(** The network cannot forge: bytes it makes up do not open. *)
Definition allowed (w : world) (s : bool) (e : event) : Prop :=
  match e with Cell cell => cell ∈ wire w (negb s) \/ Cells.open (Conn.key_rx (conn w s)) cell = None | _ => True end.

(** The sequence space of no live stream runs out. *)
Definition small (w : world) : Prop := forall s id d, Conn.streams (conn w s) !! id = Some d -> total (Conn.sender d) < 2 ^ 32 - SACK_WIDTH.

Inductive reachable (k1 k2 : list Z) : world -> Prop :=
| reach_new : reachable k1 k2 (world_new k1 k2)
| reach_step w s e : reachable k1 k2 w -> small w -> allowed w s e -> reachable k1 k2 (step w s e).

End run.

(** ** Each stream is a stream of [StreamWorld] *)

(** Who opens an id. *)
Definition owner (id : Z) : bool := Z.land id 1 =? 0.

Lemma parity_mod id : Z.land id 1 = id mod 2.
Proof. change 1 with (Z.ones 1). by rewrite Z.land_ones. Qed.

Definition shadow := bool -> gmap Z StreamWorld.World.

Definition carried (sh : shadow) (s : bool) (f : Frame) : Prop :=
  match f with
  | Data g => exists W, sh s !! stream_id g = Some W /\ g ∈ StreamWorld.flight W
  | AckOf id a => exists W, sh (negb s) !! id = Some W /\ a ∈ StreamWorld.acks W
  | _ => True
  end.

Section invariant.
  Context `{KemCrypto}.

Record J (w : world) (sh : shadow) : Prop := {
  j_keys : forall s, Conn.key_tx (conn w s) = Conn.key_rx (conn w (negb s));
  j_parity : forall s, Conn.peer_id_parity (conn w s) = Z.b2z s;
  j_local : forall s, 0 <= Conn.next_local_id (conn w s) < 2 ^ 32 /\ owner (Conn.next_local_id (conn w s)) = s;
  j_nonce : forall s, 0 <= Conn.nonce_tx (conn w s) < 2 ^ 64;
  j_dom : forall s id, is_Some (sh s !! id) -> is_Some (sh (negb s) !! id);
  j_ids : forall s id, is_Some (sh s !! id) -> 0 <= id < Conn.next_local_id (conn w (owner id));
  j_inv : forall s id W, sh s !! id = Some W -> StreamWorld.inv W /\ s_id (StreamWorld.sender W) = id /\
    StreamWorld.pushed W = wrote w s id /\ StreamWorld.taken W = got w (negb s) id;
  j_fits : forall s id W, sh s !! id = Some W -> Conn.streams (conn w s) !! id = None -> StreamWorld.fits W;
  j_live : forall s id d, Conn.streams (conn w s) !! id = Some d -> exists W W', sh s !! id = Some W /\ sh (negb s) !! id = Some W' /\
    StreamWorld.sender W = Conn.sender d /\ StreamWorld.receiver W' = Conn.receiver d;
  j_fresh : forall s id W W', sh s !! id = Some W -> sh (negb s) !! id = Some W' -> Conn.streams (conn w s) !! id = None -> owner id = negb s ->
    Conn.peer_closed_below (conn w s) <= id -> StreamWorld.sender W = Stream.open id /\ StreamWorld.receiver W' = receiver_new id;
  j_none : forall s id, sh s !! id = None -> wrote w s id = [] /\ got w (negb s) id = [];
  j_wire : forall s cell, cell ∈ wire w s -> exists b f, Cells.open (Conn.key_tx (conn w s)) cell = Some b /\ decode_frame b = Some f /\ carried sh s f;
}.

Lemma world_new_J k1 k2 : J (world_new k1 k2) (fun _ => ∅).
Proof.
  split.
  - by intros [].
  - by intros [].
  - by intros [].
  - intros []; cbn; lia.
  - intros s id [W Hs]. cbv beta in Hs. by rewrite lookup_empty in Hs.
  - intros s id [W Hs]. cbv beta in Hs. by rewrite lookup_empty in Hs.
  - intros s id W Hs. cbv beta in Hs. by rewrite lookup_empty in Hs.
  - intros s id W Hs. cbv beta in Hs. by rewrite lookup_empty in Hs.
  - intros [] id d Hs; cbn in Hs; by rewrite lookup_empty in Hs.
  - intros s id W W' Hs. cbv beta in Hs. by rewrite lookup_empty in Hs.
  - done.
  - intros s cell Hc. by apply elem_of_nil in Hc.
Qed.

(** A live sender that is small fits. *)
Lemma total_fits W : StreamWorld.inv W -> total (StreamWorld.sender W) < 2 ^ 32 - SACK_WIDTH -> StreamWorld.fits W.
Proof.
  intros Hi. unfold total, u32_len, StreamWorld.fits, StreamWorld.len, SACK_WIDTH. pose proof (StreamWorld.i_order W Hi) as Ho. unfold StreamWorld.len in Ho.
  rewrite (StreamWorld.i_base W Hi), (StreamWorld.i_segs W Hi), length_drop. unfold sat_add. lia.
Qed.

Lemma carried_mono (sh sh' : shadow) s f : (forall t id W, sh t !! id = Some W -> exists W', sh' t !! id = Some W' /\
  (forall g, g ∈ StreamWorld.flight W -> g ∈ StreamWorld.flight W') /\ (forall a, a ∈ StreamWorld.acks W -> a ∈ StreamWorld.acks W')) -> carried sh s f -> carried sh' s f.
Proof.
  intros Hm. destruct f as [g|id a| |id]; [| |done|done]; intros (W & Hs & Hin); destruct (Hm _ _ _ Hs) as (W' & Hs' & Hf & Ha); exists W'; auto.
Qed.

Lemma upd_eq {A} (f : bool -> A) s x : upd f s x s = x.
Proof. unfold upd. by rewrite Bool.eqb_reflx. Qed.

Lemma upd_ne {A} (f : bool -> A) s x : upd f s x (negb s) = f (negb s).
Proof. unfold upd. by destruct s. Qed.

Lemma side (P : bool -> Prop) s : P s -> P (negb s) -> forall t, P t.
Proof. intros H1 H2 t. by destruct s, t. Qed.

(** The shadows of one stream change. *)
Definition put (sh : shadow) (s : bool) (id : Z) (W W' : StreamWorld.World) : shadow :=
  fun t => if Bool.eqb t s then <[id := W]> (sh s) else <[id := W']> (sh (negb s)).

Lemma put_eq sh s id W W' : put sh s id W W' s = <[id := W]> (sh s).
Proof. unfold put. by rewrite Bool.eqb_reflx. Qed.

Lemma put_ne sh s id W W' : put sh s id W W' (negb s) = <[id := W']> (sh (negb s)).
Proof. unfold put. by destruct s. Qed.

Lemma put_other sh s id W W' t i : i <> id -> put sh s id W W' t !! i = sh t !! i.
Proof. intros Hi. revert t. refine (side _ s _ _); [rewrite put_eq|rewrite put_ne]; by rewrite lookup_insert_ne. Qed.

Lemma put_Some sh s id W W' : is_Some (sh s !! id) -> is_Some (sh (negb s) !! id) -> forall t i, is_Some (put sh s id W W' t !! i) <-> is_Some (sh t !! i).
Proof.
  intros H1 H2 t i. destruct (decide (i = id)) as [->|Hne]; [|by rewrite put_other]. revert t. refine (side _ s _ _); [rewrite put_eq|rewrite put_ne]; rewrite lookup_insert_eq; split; eauto.
Qed.

(** What is shared by two states of a stream in one direction, one later than the other. *)
Definition later (W W2 : StreamWorld.World) : Prop :=
  StreamWorld.inv W2 /\ s_id (StreamWorld.sender W2) = s_id (StreamWorld.sender W) /\
  (forall g, g ∈ StreamWorld.flight W -> g ∈ StreamWorld.flight W2) /\ (forall a, a ∈ StreamWorld.acks W -> a ∈ StreamWorld.acks W2).

Lemma put_carried sh s id W W' W2 W2' t f : sh s !! id = Some W -> sh (negb s) !! id = Some W' -> later W W2 -> later W' W2' -> carried sh t f -> carried (put sh s id W2 W2') t f.
Proof.
  intros H1 H2 (_ & _ & Hf & Ha) (_ & _ & Hf' & Ha'). apply carried_mono. intros t' i V. destruct (decide (i = id)) as [->|Hne]; [|rewrite put_other by done; eauto].
  revert t'. refine (side _ s _ _); [rewrite put_eq, lookup_insert_eq|rewrite put_ne, lookup_insert_eq]; intros E; simplify_eq; eauto.
Qed.

(** One end changes its part of one live stream. *)
Lemma touch w w2 sh s id d d2 W W' W2 W2' : J w sh -> Conn.streams (conn w s) !! id = Some d -> sh s !! id = Some W -> sh (negb s) !! id = Some W' ->
  later W W2 -> later W' W2' -> StreamWorld.sender W2 = Conn.sender d2 -> StreamWorld.receiver W2' = Conn.receiver d2 ->
  StreamWorld.receiver W2 = StreamWorld.receiver W -> StreamWorld.sender W2' = StreamWorld.sender W' -> (StreamWorld.fits W' -> StreamWorld.fits W2') ->
  conn w2 s = Conn.set_streams (<[id := d2]> (Conn.streams (conn w s))) (conn w s) -> conn w2 (negb s) = conn w (negb s) -> (forall t, wire w2 t = wire w t) ->
  (forall t i, i <> id -> wrote w2 t i = wrote w t i /\ got w2 t i = got w t i) ->
  StreamWorld.pushed W2 = wrote w2 s id -> StreamWorld.taken W2 = got w2 (negb s) id -> StreamWorld.pushed W2' = wrote w2 (negb s) id -> StreamWorld.taken W2' = got w2 s id ->
  J w2 (put sh s id W2 W2').
Proof.
  intros HJ Hd HW HW' HL HL' Es Er Er1 Es1 Hfit Ec Ec' Ew Elog Ep Et Ep' Et'.
  assert (Hdom : forall t i, is_Some (put sh s id W2 W2' t !! i) <-> is_Some (sh t !! i)) by (apply put_Some; eauto).
  assert (Hsame : forall t, Conn.key_tx (conn w2 t) = Conn.key_tx (conn w t) /\ Conn.key_rx (conn w2 t) = Conn.key_rx (conn w t) /\ Conn.nonce_tx (conn w2 t) = Conn.nonce_tx (conn w t) /\
    Conn.next_local_id (conn w2 t) = Conn.next_local_id (conn w t) /\ Conn.peer_id_parity (conn w2 t) = Conn.peer_id_parity (conn w t) /\
    Conn.peer_closed_below (conn w2 t) = Conn.peer_closed_below (conn w t)).
  { refine (side _ s _ _); [by rewrite Ec|by rewrite Ec']. }
  assert (Hstr : forall t i, i <> id \/ t = negb s -> Conn.streams (conn w2 t) !! i = Conn.streams (conn w t) !! i).
  { refine (side _ s _ _).
    - intros i Hi. rewrite Ec. cbn [Conn.set_streams Conn.streams]. rewrite lookup_insert_ne; [done|]. destruct Hi as [Hi|Hi]; [done|by destruct s].
    - intros i _. by rewrite Ec'. }
  assert (Hhere : Conn.streams (conn w2 s) !! id = Some d2) by (rewrite Ec; cbn [Conn.set_streams Conn.streams]; apply lookup_insert_eq).
  destruct HL as (HI & Hid & Hfl & Hac). destruct HL' as (HI' & Hid' & Hfl' & Hac').
  destruct (j_inv w sh HJ s id W HW) as (_ & Hsid & _). destruct (j_inv w sh HJ (negb s) id W' HW') as (_ & Hsid' & _).
  assert (Hput : put sh s id W2 W2' s !! id = Some W2) by (rewrite put_eq; apply lookup_insert_eq).
  assert (Hput' : put sh s id W2 W2' (negb s) !! id = Some W2') by (rewrite put_ne; apply lookup_insert_eq).
  split.
  - intros t. destruct (Hsame t) as (-> & _). destruct (Hsame (negb t)) as (_ & -> & _). apply (j_keys w sh HJ).
  - intros t. destruct (Hsame t) as (_ & _ & _ & _ & -> & _). apply (j_parity w sh HJ).
  - intros t. destruct (Hsame t) as (_ & _ & _ & -> & _). apply (j_local w sh HJ).
  - intros t. destruct (Hsame t) as (_ & _ & -> & _). apply (j_nonce w sh HJ).
  - intros t i. rewrite !Hdom. apply (j_dom w sh HJ).
  - intros t i. rewrite Hdom. destruct (Hsame (owner i)) as (_ & _ & _ & -> & _). apply (j_ids w sh HJ).
  - intros t i V. destruct (decide (i = id)) as [->|Hne].
    + revert t. refine (side _ s _ _); [rewrite Hput|rewrite Hput', Bool.negb_involutive]; intros [= <-]; [by rewrite Hid|by rewrite Hid'].
    + rewrite put_other by done. intros HV. destruct (Elog t i Hne) as [-> _]. destruct (Elog (negb t) i Hne) as [_ ->]. by apply (j_inv w sh HJ).
  - intros t i V. destruct (decide (i = id)) as [->|Hne].
    + revert t. refine (side _ s _ _); [by rewrite Hhere|]. rewrite Hput'. intros [= <-] Hn. rewrite Hstr in Hn by by right. apply Hfit. by apply (j_fits w sh HJ (negb s) id).
    + rewrite put_other, Hstr by auto. apply (j_fits w sh HJ).
  - intros t i e. destruct (decide (i = id)) as [->|Hne].
    + revert t. refine (side _ s _ _).
      * rewrite Hhere. intros [= <-]. exists W2, W2'. done.
      * rewrite Hstr by by right. intros He. destruct (j_live w sh HJ _ _ _ He) as (V & V' & HV & HV' & E1 & E2). rewrite Bool.negb_involutive in *. simplify_eq.
        exists W2', W2. split; [done|]. split; [done|]. split; congruence.
    + rewrite Hstr by auto. intros He. destruct (j_live w sh HJ _ _ _ He) as (V & V' & HV & HV' & E). exists V, V'. by rewrite !put_other.
  - intros t i V V'. destruct (decide (i = id)) as [->|Hne].
    + revert t. refine (side _ s _ _); [by rewrite Hhere|]. rewrite Hput', Bool.negb_involutive, Hput. intros [= <-] [= <-]. rewrite Hstr by by right.
      destruct (Hsame (negb s)) as (_ & _ & _ & _ & _ & ->). intros Hn Ho Hb. rewrite Es1, Er1. apply (j_fresh w sh HJ (negb s) id W' W); rewrite ?Bool.negb_involutive in *; done.
    + rewrite !put_other, Hstr by auto. destruct (Hsame t) as (_ & _ & _ & _ & _ & ->). apply (j_fresh w sh HJ).
  - intros t i. destruct (decide (i = id)) as [->|Hne].
    + revert t. refine (side _ s _ _); [by rewrite Hput|by rewrite Hput'].
    + rewrite put_other by done. destruct (Elog t i Hne) as [-> _]. destruct (Elog (negb t) i Hne) as [_ ->]. apply (j_none w sh HJ).
  - intros t cell. rewrite Ew. intros Hc. destruct (j_wire w sh HJ t cell Hc) as (b & f & Ho & Hdec & Hcar). destruct (Hsame t) as (-> & _). exists b, f.
    split; [done|]. split; [done|]. by eapply put_carried; [exact HW|exact HW'|..].
Qed.

(** One end changes nothing but its counter and its queue. *)
Lemma idle w w2 sh s : J w sh -> Conn.streams (conn w2 s) = Conn.streams (conn w s) -> Conn.key_tx (conn w2 s) = Conn.key_tx (conn w s) -> Conn.key_rx (conn w2 s) = Conn.key_rx (conn w s) ->
  0 <= Conn.nonce_tx (conn w2 s) < 2 ^ 64 -> Conn.next_local_id (conn w2 s) = Conn.next_local_id (conn w s) -> Conn.peer_id_parity (conn w2 s) = Conn.peer_id_parity (conn w s) ->
  Conn.peer_closed_below (conn w2 s) = Conn.peer_closed_below (conn w s) -> conn w2 (negb s) = conn w (negb s) ->
  (forall t i, wrote w2 t i = wrote w t i /\ got w2 t i = got w t i) ->
  (forall t cell, cell ∈ wire w2 t -> cell ∈ wire w t \/ exists b f, Cells.open (Conn.key_tx (conn w t)) cell = Some b /\ decode_frame b = Some f /\ carried sh t f) -> J w2 sh.
Proof.
  intros HJ E1 E2 E3 E4 E5 E6 E7 Ec Elog Hw.
  assert (Hsame : forall t, Conn.streams (conn w2 t) = Conn.streams (conn w t) /\ Conn.key_tx (conn w2 t) = Conn.key_tx (conn w t) /\ Conn.key_rx (conn w2 t) = Conn.key_rx (conn w t) /\
    0 <= Conn.nonce_tx (conn w2 t) < 2 ^ 64 /\ Conn.next_local_id (conn w2 t) = Conn.next_local_id (conn w t) /\ Conn.peer_id_parity (conn w2 t) = Conn.peer_id_parity (conn w t) /\
    Conn.peer_closed_below (conn w2 t) = Conn.peer_closed_below (conn w t)).
  { refine (side _ s _ _); [done|]. rewrite Ec. pose proof (j_nonce w sh HJ (negb s)). done. }
  split.
  - intros t. destruct (Hsame t) as (_ & -> & _). destruct (Hsame (negb t)) as (_ & _ & -> & _). apply (j_keys w sh HJ).
  - intros t. destruct (Hsame t) as (_ & _ & _ & _ & _ & -> & _). apply (j_parity w sh HJ).
  - intros t. destruct (Hsame t) as (_ & _ & _ & _ & -> & _). apply (j_local w sh HJ).
  - intros t. apply (Hsame t).
  - apply (j_dom w sh HJ).
  - intros t i. destruct (Hsame (owner i)) as (_ & _ & _ & _ & -> & _). apply (j_ids w sh HJ).
  - intros t i V HV. destruct (Elog t i) as [-> _]. destruct (Elog (negb t) i) as [_ ->]. by apply (j_inv w sh HJ).
  - intros t i V. destruct (Hsame t) as (-> & _). apply (j_fits w sh HJ).
  - intros t i V. destruct (Hsame t) as (-> & _). apply (j_live w sh HJ).
  - intros t i V V'. destruct (Hsame t) as (-> & _ & _ & _ & _ & _ & ->). apply (j_fresh w sh HJ).
  - intros t i. destruct (Elog t i) as [-> _]. destruct (Elog (negb t) i) as [_ ->]. apply (j_none w sh HJ).
  - intros t cell Hc. destruct (Hsame t) as (_ & -> & _). destruct (Hw t cell Hc) as [Hc'|Hc']; [by apply (j_wire w sh HJ)|done].
Qed.

(** One end gives up a stream. *)
Lemma dropped w sh s id c2 : J w sh -> small w -> Conn.streams c2 = delete id (Conn.streams (conn w s)) -> Conn.key_tx c2 = Conn.key_tx (conn w s) -> Conn.key_rx c2 = Conn.key_rx (conn w s) ->
  Conn.nonce_tx c2 = Conn.nonce_tx (conn w s) -> Conn.next_local_id c2 = Conn.next_local_id (conn w s) -> Conn.peer_id_parity c2 = Conn.peer_id_parity (conn w s) ->
  Conn.peer_closed_below (conn w s) <= Conn.peer_closed_below c2 ->
  (0 <= id < 2 ^ 32 - 1 -> Z.land id 1 = Conn.peer_id_parity (conn w s) -> id < Conn.peer_closed_below c2) -> J (set_conn w s c2) sh.
Proof.
  intros HJ Hsm E1 E2 E3 E4 E5 E6 E7 E8.
  assert (Hsame : forall t, Conn.key_tx (conn (set_conn w s c2) t) = Conn.key_tx (conn w t) /\ Conn.key_rx (conn (set_conn w s c2) t) = Conn.key_rx (conn w t) /\
    Conn.nonce_tx (conn (set_conn w s c2) t) = Conn.nonce_tx (conn w t) /\ Conn.next_local_id (conn (set_conn w s c2) t) = Conn.next_local_id (conn w t) /\
    Conn.peer_id_parity (conn (set_conn w s c2) t) = Conn.peer_id_parity (conn w t) /\ Conn.peer_closed_below (conn w t) <= Conn.peer_closed_below (conn (set_conn w s c2) t)).
  { refine (side _ s _ _); cbn [set_conn conn]; [by rewrite upd_eq|rewrite upd_ne]. split_and!; done. }
  assert (Hstr : forall t i, Conn.streams (conn (set_conn w s c2) t) !! i = if Bool.eqb t s && (i =? id) then None else Conn.streams (conn w t) !! i).
  { refine (side _ s _ _); cbn [set_conn conn]; intros i; [rewrite upd_eq, E1, Bool.eqb_reflx|rewrite upd_ne; by destruct s]. cbn [andb].
    destruct (Z.eqb_spec i id) as [->|]; [apply lookup_delete_eq|by apply lookup_delete_ne]. }
  split.
  - intros t. destruct (Hsame t) as (-> & _). destruct (Hsame (negb t)) as (_ & -> & _). apply (j_keys w sh HJ).
  - intros t. destruct (Hsame t) as (_ & _ & _ & _ & -> & _). apply (j_parity w sh HJ).
  - intros t. destruct (Hsame t) as (_ & _ & _ & -> & _). apply (j_local w sh HJ).
  - intros t. destruct (Hsame t) as (_ & _ & -> & _). apply (j_nonce w sh HJ).
  - apply (j_dom w sh HJ).
  - intros t i. destruct (Hsame (owner i)) as (_ & _ & _ & -> & _). apply (j_ids w sh HJ).
  - apply (j_inv w sh HJ).
  - intros t i V HV. rewrite Hstr. intros Hn. destruct (Conn.streams (conn w t) !! i) as [d|] eqn:Ed; [|by apply (j_fits w sh HJ t i)].
    destruct (j_live w sh HJ t i d Ed) as (V0 & V' & HV0 & _ & Es & _). simplify_eq. destruct (j_inv w sh HJ t i V HV) as (HI & _).
    apply total_fits; [done|]. rewrite Es. by apply (Hsm t i).
  - intros t i d. rewrite Hstr. destruct (_ && _); [done|]. apply (j_live w sh HJ).
  - intros t i V V' HV HV' Hn Ho Hb. destruct (Hsame t) as (_ & _ & _ & _ & _ & Hge). rewrite Hstr in Hn. destruct (Bool.eqb t s && (i =? id)) eqn:Eb.
    + exfalso. apply andb_true_iff in Eb as [->%Bool.eqb_prop ->%Z.eqb_eq]. pose proof (j_ids w sh HJ s id ltac:(eauto)) as Hr. pose proof (j_local w sh HJ (owner id)) as [Hl _].
      cbn [set_conn conn] in Hb. rewrite upd_eq in Hb. assert (id < Conn.peer_closed_below c2); [|lia]. apply E8; [lia|]. rewrite (j_parity w sh HJ). unfold owner in Ho.
      assert (Hm : 0 <= Z.land id 1 < 2) by (rewrite parity_mod; apply Z.mod_pos_bound; lia).
      destruct (Z.eqb_spec (Z.land id 1) 0), s; cbn in *; try done; lia.
    + apply (j_fresh w sh HJ t i V V'); try done. lia.
  - apply (j_none w sh HJ).
  - intros t cell Hc. destruct (Hsame t) as (-> & _). by apply (j_wire w sh HJ).
Qed.

(** One end opens a stream. *)
Definition blank (id : Z) : StreamWorld.World := StreamWorld.world_new id DEFAULT_WINDOW DEFAULT_WINDOW.

Lemma opened w sh s : J w sh -> Conn.next_local_id (conn w s) + 2 < 2 ^ 32 ->
  let id := Conn.next_local_id (conn w s) in
  J (set_conn w s (Conn.set_streams (<[id := Conn.duplex_new id]> (Conn.streams (conn w s))) (Conn.set_local (id + 2) (conn w s)))) (put sh s id (blank id) (blank id)).
Proof.
  intros HJ Hroom id. destruct (j_local w sh HJ s) as [Hl Ho]. fold id in Hl, Ho.
  assert (Hnone : forall t, sh t !! id = None).
  { intros t. destruct (sh t !! id) eqn:E; [|done]. pose proof (j_ids w sh HJ t id ltac:(eauto)) as Hr. rewrite Ho in Hr. unfold id in Hr. lia. }
  set (c2 := Conn.set_streams _ _).
  assert (Hstr : forall t i, Conn.streams (conn (set_conn w s c2) t) !! i = if Bool.eqb t s && (i =? id) then Some (Conn.duplex_new id) else Conn.streams (conn w t) !! i).
  { refine (side _ s _ _); cbn [set_conn conn]; intros i; [rewrite upd_eq, Bool.eqb_reflx|rewrite upd_ne; by destruct s]. unfold c2. cbn [andb Conn.set_streams Conn.set_local Conn.streams].
    destruct (Z.eqb_spec i id) as [->|]; [apply lookup_insert_eq|by apply lookup_insert_ne]. }
  assert (Hsame : forall t, Conn.key_tx (conn (set_conn w s c2) t) = Conn.key_tx (conn w t) /\ Conn.key_rx (conn (set_conn w s c2) t) = Conn.key_rx (conn w t) /\
    Conn.nonce_tx (conn (set_conn w s c2) t) = Conn.nonce_tx (conn w t) /\ Conn.next_local_id (conn w t) <= Conn.next_local_id (conn (set_conn w s c2) t) /\
    Conn.peer_id_parity (conn (set_conn w s c2) t) = Conn.peer_id_parity (conn w t) /\ Conn.peer_closed_below (conn (set_conn w s c2) t) = Conn.peer_closed_below (conn w t)).
  { refine (side _ s _ _); cbn [set_conn conn]; [rewrite upd_eq; unfold c2; cbn [Conn.set_streams Conn.set_local Conn.key_tx Conn.key_rx Conn.nonce_tx Conn.next_local_id Conn.peer_id_parity Conn.peer_closed_below]
      |rewrite upd_ne]; split_and!; try done; unfold id; lia. }
  assert (Hlocal : Conn.next_local_id (conn (set_conn w s c2) s) = id + 2) by (cbn [set_conn conn]; by rewrite upd_eq).
  assert (Hput : forall t, put sh s id (blank id) (blank id) t !! id = Some (blank id)) by (refine (side _ s _ _); [rewrite put_eq|rewrite put_ne]; apply lookup_insert_eq).
  split.
  - intros t. destruct (Hsame t) as (-> & _). destruct (Hsame (negb t)) as (_ & -> & _). apply (j_keys w sh HJ).
  - intros t. destruct (Hsame t) as (_ & _ & _ & _ & -> & _). apply (j_parity w sh HJ).
  - refine (side _ s _ _); [rewrite Hlocal|cbn [set_conn conn]; rewrite upd_ne; apply (j_local w sh HJ)]. split; [unfold id in *; lia|].
    rewrite <- Ho. unfold owner. f_equal. rewrite !parity_mod, Z.add_mod by lia. change (2 mod 2) with 0.
    rewrite Z.add_0_r. by apply Z.mod_mod.
  - intros t. destruct (Hsame t) as (_ & _ & -> & _). apply (j_nonce w sh HJ).
  - intros t i. destruct (decide (i = id)) as [->|Hne]; [rewrite !Hput; eauto|]. rewrite !put_other by done. apply (j_dom w sh HJ).
  - intros t i. destruct (decide (i = id)) as [->|Hne]; [intros _; rewrite Ho, Hlocal; lia|]. rewrite put_other by done. intros Hi%(j_ids w sh HJ).
    destruct (Hsame (owner i)) as (_ & _ & _ & Hge & _). lia.
  - intros t i V. destruct (decide (i = id)) as [->|Hne]; [rewrite Hput; intros [= <-]|rewrite put_other by done; apply (j_inv w sh HJ)].
    cbn [set_conn wrote got]. destruct (j_none w sh HJ t id (Hnone t)) as [-> ->]. split; [apply StreamWorld.world_new_inv|done].
  - intros t i V. destruct (decide (i = id)) as [->|Hne]; [rewrite Hput; by intros [= <-]|rewrite put_other by done]. rewrite Hstr, (proj2 (Z.eqb_neq _ _)), andb_false_r by done. apply (j_fits w sh HJ).
  - intros t i d. rewrite Hstr. destruct (Bool.eqb t s && (i =? id)) eqn:Eb.
    + apply andb_true_iff in Eb as [->%Bool.eqb_prop ->%Z.eqb_eq]. intros [= <-]. exists (blank id), (blank id). rewrite !Hput. done.
    + destruct (decide (i = id)) as [->|Hne]; [|rewrite !put_other by done; apply (j_live w sh HJ)]. intros (V & V' & HV & _)%(j_live w sh HJ). by rewrite Hnone in HV.
  - intros t i V V'. destruct (decide (i = id)) as [->|Hne].
    + rewrite !Hput. by intros [= <-] [= <-].
    + rewrite !put_other, Hstr, (proj2 (Z.eqb_neq _ _)), andb_false_r by done. destruct (Hsame t) as (_ & _ & _ & _ & _ & ->). apply (j_fresh w sh HJ).
  - intros t i. destruct (decide (i = id)) as [->|Hne]; [by rewrite Hput|]. rewrite put_other by done. apply (j_none w sh HJ).
  - intros t cell Hc. destruct (Hsame t) as (-> & _). destruct (j_wire w sh HJ t cell Hc) as (b & f & Hop & Hdec & Hcar). exists b, f. split; [done|]. split; [done|].
    revert Hcar. apply carried_mono. intros t' i V HV. exists V. rewrite put_other; [done|]. intros ->. by rewrite Hnone in HV.
Qed.

(** ** Steps of a stream *)

Lemma poll_core s : StreamWorld.timing s -> StreamWorld.core (snd (poll_new s)) = StreamWorld.core s.
Proof.
  intros Ht. unfold poll_new. destruct (fold_left _ _ _) as [s' out] eqn:E. by destruct (StreamWorld.sweep_new_spec _ _ _ _ _ Ht E) as (Hc & _).
Qed.

Lemma step_id W e : StreamWorld.inv W -> s_id (StreamWorld.sender (StreamWorld.step W e)) = s_id (StreamWorld.sender W).
Proof.
  intros Hi. pose proof (StreamWorld.i_time W Hi) as Ht. destruct e; cbn [StreamWorld.step StreamWorld.sealing StreamWorld.sending StreamWorld.sender].
  - unfold push. destruct (finished _); [done|]. unfold seal_full. by destruct (seal_loop _ _ _).
  - unfold flush. by destruct (_ || _).
  - unfold finish. by destruct (finished _).
  - pose proof (StreamWorld.outbound_core _ Ht) as E. by injection E as ->.
  - pose proof (poll_core _ Ht) as E. by injection E as ->.
  - destruct (_ !! _); [|done]. by destruct (on_segment _ _).
  - destruct (_ !! _) as [a|]; [|done]. cbn [StreamWorld.sender]. unfold on_ack. cbv zeta. destruct (count_dup _ _) as [[? ?] ?]. destruct (close_gap _ _ _). by destruct (reclaim _ _ _).
  - done.
  - done.
  - by destruct (take_ _).
Qed.

(** The events of the two ends and arrivals; the connection's own wire does the losing. *)
Definition lossless (e : StreamWorld.event) : Prop := match e with StreamWorld.Lose _ | StreamWorld.LoseAck _ => False | _ => True end.

Lemma later_step W e : lossless e -> StreamWorld.inv W -> StreamWorld.fits W -> later W (StreamWorld.step W e).
Proof.
  intros Hls Hi Hf. split; [by apply StreamWorld.world_step_inv|]. split; [by apply step_id|].
  destruct e; try (by destruct Hls); cbn [StreamWorld.step StreamWorld.sealing StreamWorld.sending StreamWorld.flight StreamWorld.acks]; try done.
  - split; [intros; apply elem_of_app; by left|done].
  - split; [intros; apply elem_of_app; by left|done].
  - destruct (_ !! _); [|done]. destruct (on_segment _ _). cbn [StreamWorld.flight StreamWorld.acks]. split; [done|]. intros; apply elem_of_app; by left.
  - by destruct (_ !! _).
  - by destruct (take_ _).
Qed.

Lemma later_refl W : StreamWorld.inv W -> later W W.
Proof. by split. Qed.

(** The receiver emits its acknowledgement. *)
Definition acking (W : StreamWorld.World) : StreamWorld.World :=
  StreamWorld.mk_world (StreamWorld.sender W) (StreamWorld.receiver W) (StreamWorld.flight W) (StreamWorld.acks W ++ [ack (StreamWorld.receiver W)])
    (StreamWorld.pushed W) (StreamWorld.sealed W) (StreamWorld.taken W).

Lemma later_acking W : StreamWorld.inv W -> StreamWorld.fits W -> later W (acking W).
Proof.
  intros Hi Hf. split; [|split; [done|split; [done|intros a Ha; apply elem_of_app; by left]]]. pose proof (StreamWorld.i_recv W Hi) as Hr. pose proof (StreamWorld.i_order W Hi) as Ho.
  unfold StreamWorld.fits in Hf. destruct Hi. split; cbn [acking StreamWorld.sender StreamWorld.receiver StreamWorld.flight StreamWorld.acks StreamWorld.pushed StreamWorld.sealed StreamWorld.taken];
    unfold StreamWorld.len in *; cbn [acking StreamWorld.sealed]; try done.
  intros a [Ha|Ha]%elem_of_app; [by apply i_acks|]. apply list_elem_of_singleton in Ha as ->. pose proof (ri_range _ Hr). split; [cbn [ack cumulative]; lia|].
  intros j Hj Hb. apply StreamWorld.ack_spec; try done. lia.
Qed.

(** What an end emits fits its cell. *)
Lemma ack_frame_ok id r : is_u32 id -> receiver_inv r -> frame_ok (AckOf id (ack r)).
Proof.
  intros Hi Hr. cbn [frame_ok ack cumulative sack rwnd]. pose proof (ri_range r Hr). pose proof (ri_window r Hr). split; [done|]. split; [unfold in_u; lia|].
  split; [|unfold in_u, sat_sub, SACK_WIDTH in *; lia].
  assert (Hg : forall l b, Forall (fun i => 0 <= i < 64) l -> is_u64 b ->
    is_u64 (fold_left (fun b i => if bool_decide (is_Some (received r !! sat_add 32 (next r) i)) then Z.lor b (Z.shiftl 1 i) else b) l b)).
  { induction l as [|i l IH]; intros b Hl Hb; [done|]. apply Forall_cons in Hl as [Hi' Hl]. cbn [fold_left]. apply IH; [done|]. case_bool_decide; [|done].
    apply in_u_lor; [lia|done|]. rewrite Z.shiftl_1_l. split; [apply Z.pow_nonneg; lia|apply Z.pow_lt_mono_r; lia]. }
  apply Hg; [|apply in_u_0; lia]. apply Forall_forall. intros i Hi'%elem_of_seqZ. unfold SACK_WIDTH in Hi'. lia.
Qed.

Lemma data_frame_ok W g : StreamWorld.inv W -> StreamWorld.fits W -> is_u32 (s_id (StreamWorld.sender W)) -> g ∈ StreamWorld.flight W -> frame_ok (Data g).
Proof.
  intros Hi Hf Hu Hg. destruct (StreamWorld.i_flight W Hi g Hg) as (Es & Hq & Hd & _). pose proof (lookup_lt_Some _ _ _ Hd) as Hlt. unfold StreamWorld.fits, StreamWorld.len in Hf.
  cbn [frame_ok]. split; [by rewrite Es|]. split; [unfold in_u, SACK_WIDTH in *; lia|]. eapply Forall_lookup_1 in Hd; [|apply (StreamWorld.i_sizes W Hi)]. done.
Qed.

Lemma id_u32 w sh s id : J w sh -> is_Some (sh s !! id) -> is_u32 id /\ id < 2 ^ 32 - 1.
Proof. intros HJ Hs. pose proof (j_ids w sh HJ s id Hs). destruct (j_local w sh HJ (owner id)) as [? _]. unfold in_u. lia. Qed.

(** The shadows of a live stream. *)
Lemma live_shadow w sh s id d : J w sh -> small w -> Conn.streams (conn w s) !! id = Some d -> exists W W',
  sh s !! id = Some W /\ sh (negb s) !! id = Some W' /\ StreamWorld.sender W = Conn.sender d /\ StreamWorld.receiver W' = Conn.receiver d /\
  StreamWorld.inv W /\ StreamWorld.inv W' /\ StreamWorld.fits W /\ StreamWorld.fits W' /\
  StreamWorld.pushed W = wrote w s id /\ StreamWorld.taken W = got w (negb s) id /\ StreamWorld.pushed W' = wrote w (negb s) id /\ StreamWorld.taken W' = got w s id.
Proof.
  intros HJ Hsm Hd. destruct (j_live w sh HJ s id d Hd) as (W & W' & HW & HW' & Es & Er). exists W, W'.
  destruct (j_inv w sh HJ s id W HW) as (HI & _ & Hp & Ht). destruct (j_inv w sh HJ (negb s) id W' HW') as (HI' & _ & Hp' & Ht'). rewrite Bool.negb_involutive in Ht'.
  assert (Hf : StreamWorld.fits W) by (apply total_fits; [done|]; rewrite Es; by apply (Hsm s id)).
  assert (Hf' : StreamWorld.fits W').
  { destruct (Conn.streams (conn w (negb s)) !! id) as [e|] eqn:Ee; [|by apply (j_fits w sh HJ (negb s) id)].
    destruct (j_live w sh HJ (negb s) id e Ee) as (V & V' & HV & _ & Es' & _). simplify_eq. apply total_fits; [done|]. rewrite Es'. by apply (Hsm (negb s) id). }
  done.
Qed.

(** ** Steps of a connection *)

Lemma log_here f s id b : log f s id b s id = f s id ++ b.
Proof. unfold log. by rewrite Bool.eqb_reflx, Z.eqb_refl. Qed.

Lemma log_peer f s id b i : log f s id b (negb s) i = f (negb s) i.
Proof. unfold log. by destruct s. Qed.

Lemma log_other f s id b t i : i <> id -> log f s id b t i = f t i.
Proof. intros Hi. unfold log. by rewrite (proj2 (Z.eqb_neq _ _) Hi), andb_false_r. Qed.

Lemma log_nil f s id t i : log f s id [] t i = f t i.
Proof. unfold log. destruct (_ && _); [apply app_nil_r|done]. Qed.

(** A step that leaves the connection as it is. *)
Lemma same_conn w w2 sh s : J w sh -> conn w2 s = conn w s -> conn w2 (negb s) = conn w (negb s) -> (forall t i, wrote w2 t i = wrote w t i /\ got w2 t i = got w t i) ->
  (forall t, wire w2 t = wire w t) -> J w2 sh.
Proof.
  intros HJ E E' El Ew. apply (idle w w2 sh s); rewrite ?E; try done; [apply (j_nonce w sh HJ)|]. intros t cell. rewrite Ew. by left.
Qed.

(** The end that writes steps its sender. *)
Lemma sender_step w sh s id (f : Conn.Duplex -> StreamSender) e more : lossless e -> J w sh -> small w ->
  (forall d W, Conn.streams (conn w s) !! id = Some d -> StreamWorld.sender W = Conn.sender d -> StreamWorld.sender (StreamWorld.step W e) = f d /\ StreamWorld.receiver (StreamWorld.step W e) = StreamWorld.receiver W /\
    StreamWorld.pushed (StreamWorld.step W e) = StreamWorld.pushed W ++ (if accepts (conn w s) id then more else []) /\ StreamWorld.taken (StreamWorld.step W e) = StreamWorld.taken W) ->
  exists sh', J (mk_world (upd (conn w) s (Conn.with_stream (conn w s) id (fun d => Conn.mk_duplex (f d) (Conn.receiver d)))) (wire w)
    (log (wrote w) s id (if accepts (conn w s) id then more else [])) (got w)) sh'.
Proof.
  intros Hls HJ Hsm Hstep. unfold Conn.with_stream. destruct (Conn.streams (conn w s) !! id) as [d|] eqn:Ed.
  - destruct (live_shadow w sh s id d HJ Hsm Ed) as (W & W' & HW & HW' & Es & Er & HI & HI' & Hf & Hf' & Hp & Ht & Hp' & Ht').
    destruct (Hstep d W eq_refl Es) as (E1 & E2 & E3 & E4).
    eexists. apply (touch w _ sh s id d (Conn.mk_duplex (f d) (Conn.receiver d)) W W' (StreamWorld.step W e) W' HJ Ed HW HW'); try done; cbn [conn wire wrote got].
    + by apply later_step.
    + apply upd_eq.
    + apply upd_ne.
    + intros t i Hi. by rewrite log_other.
    + rewrite E3, log_here. by rewrite Hp.
    + by rewrite E4.
    + by rewrite log_peer.
  - exists sh. apply (same_conn w _ sh s); try done; cbn [conn wrote got]; [apply upd_eq|apply upd_ne|]. intros t i. unfold accepts. rewrite Ed. by rewrite log_nil.
Qed.

Lemma write_J w sh s id bytes : J w sh -> small w -> exists sh', J (step w s (Write id bytes)) sh'.
Proof.
  intros HJ Hsm. cbn [step]. unfold Conn.write. apply (sender_step w sh s id (fun d => push (Conn.sender d) bytes) (StreamWorld.Push bytes)); [done|done|done|].
  intros d W Ed Es.
  cbn [StreamWorld.step StreamWorld.sealing StreamWorld.sender StreamWorld.receiver StreamWorld.pushed StreamWorld.taken]. unfold accepts. rewrite Ed, Es. by destruct (finished _).
Qed.

Lemma flush_J w sh s id : J w sh -> small w -> exists sh', J (step w s (Flush id)) sh'.
Proof.
  intros HJ Hsm. destruct (sender_step w sh s id (fun d => flush (Conn.sender d)) StreamWorld.Flush [] I HJ Hsm) as [sh' HJ'].
  - intros d W Ed Es. cbn [StreamWorld.step StreamWorld.sealing StreamWorld.sender StreamWorld.receiver StreamWorld.pushed StreamWorld.taken]. rewrite Es. by destruct (accepts _ _).
  - exists sh'. apply (same_conn _ _ sh' s HJ'); try done. intros t i. cbn [step set_conn wrote got]. destruct (accepts _ _); by rewrite log_nil.
Qed.

Lemma finish_J w sh s id : J w sh -> small w -> exists sh', J (step w s (Finish id)) sh'.
Proof.
  intros HJ Hsm. destruct (sender_step w sh s id (fun d => finish (Conn.sender d)) StreamWorld.Finish [] I HJ Hsm) as [sh' HJ'].
  - intros d W Ed Es. cbn [StreamWorld.step StreamWorld.sealing StreamWorld.sender StreamWorld.receiver StreamWorld.pushed StreamWorld.taken]. rewrite Es. by destruct (accepts _ _).
  - exists sh'. apply (same_conn _ _ sh' s HJ'); try done. intros t i. cbn [step set_conn wrote got]. destruct (accepts _ _); by rewrite log_nil.
Qed.

(** The end that reads steps its receiver, or an acknowledgement its sender. *)
Lemma receiver_step w sh s id d W' e r out : lossless e -> J w sh -> small w -> Conn.streams (conn w s) !! id = Some d -> sh (negb s) !! id = Some W' ->
  StreamWorld.receiver (StreamWorld.step W' e) = r -> StreamWorld.sender (StreamWorld.step W' e) = StreamWorld.sender W' -> StreamWorld.sealed (StreamWorld.step W' e) = StreamWorld.sealed W' ->
  StreamWorld.pushed (StreamWorld.step W' e) = StreamWorld.pushed W' -> StreamWorld.taken (StreamWorld.step W' e) = StreamWorld.taken W' ++ out ->
  exists sh', J (mk_world (upd (conn w) s (Conn.set_streams (<[id := Conn.mk_duplex (Conn.sender d) r]> (Conn.streams (conn w s))) (conn w s))) (wire w) (wrote w) (log (got w) s id out)) sh'.
Proof.
  intros Hls HJ Hsm Ed HW' E1 E2 E3 E4 E5. destruct (live_shadow w sh s id d HJ Hsm Ed) as (W & V & HW & HV & Es & Er & HI & HI' & Hf & Hf' & Hp & Ht & Hp' & Ht'). assert (V = W') as -> by congruence. subst r.
  eexists. apply (touch w _ sh s id d (Conn.mk_duplex (Conn.sender d) (StreamWorld.receiver (StreamWorld.step W' e))) W W' W (StreamWorld.step W' e) HJ Ed HW HW'); try done; cbn [conn wire wrote got].
  - by apply later_step.
  - unfold StreamWorld.fits, StreamWorld.len. by rewrite E3.
  - apply upd_eq.
  - apply upd_ne.
  - intros t i Hi. by rewrite log_other.
  - by rewrite log_peer.
  - by rewrite E4.
  - by rewrite E5, log_here, Ht'.
Qed.

Lemma read_J w sh s id : J w sh -> small w -> exists sh', J (step w s (Read id)) sh'.
Proof.
  intros HJ Hsm. cbn [step]. unfold Conn.read. destruct (Conn.streams (conn w s) !! id) as [d|] eqn:Ed.
  - destruct (live_shadow w sh s id d HJ Hsm Ed) as (W & W' & HW & HW' & Es & Er & _).
    destruct (take_ (Conn.receiver d)) as [out r] eqn:Et. cbn [fst snd].
    apply (receiver_step w sh s id d W' StreamWorld.Read r out); try done; cbn [StreamWorld.step]; rewrite Er, Et; done.
  - exists sh. apply (same_conn w _ sh s); try done; cbn [conn wrote got fst snd]; [apply upd_eq|apply upd_ne|]. intros t i. by rewrite log_nil.
Qed.

Lemma ack_J w sh s id a : J w sh -> small w -> carried sh (negb s) (AckOf id a) -> exists sh', J (set_conn w s (Conn.on_frame (conn w s) (Some (AckOf id a)))) sh'.
Proof.
  intros HJ Hsm (W & HW & Ha). rewrite Bool.negb_involutive in HW. cbn [Conn.on_frame]. unfold Conn.with_stream. destruct (Conn.streams (conn w s) !! id) as [d|] eqn:Ed.
  - destruct (live_shadow w sh s id d HJ Hsm Ed) as (V & W' & HV & HW' & Es & Er & HI & HI' & Hf & Hf' & Hp & Ht & Hp' & Ht'). assert (V = W) as -> by congruence.
    apply list_elem_of_lookup_1 in Ha as [i Ha].
    assert (Est : StreamWorld.step W (StreamWorld.AckArrive i) = StreamWorld.mk_world (on_ack (StreamWorld.sender W) a) (StreamWorld.receiver W) (StreamWorld.flight W) (StreamWorld.acks W)
      (StreamWorld.pushed W) (StreamWorld.sealed W) (StreamWorld.taken W)) by (cbn [StreamWorld.step]; by rewrite Ha).
    eexists. apply (touch w _ sh s id d (Conn.mk_duplex (on_ack (Conn.sender d) a) (Conn.receiver d)) W W' (StreamWorld.step W (StreamWorld.AckArrive i)) W' HJ Ed HW HW');
      rewrite ?Est; cbn [set_conn conn wire wrote got StreamWorld.sender StreamWorld.receiver StreamWorld.pushed StreamWorld.taken Conn.sender Conn.receiver]; try done.
    + rewrite <- Est. by apply later_step.
    + by rewrite Es.
    + apply upd_eq.
    + apply upd_ne.
  - exists sh. apply (same_conn w _ sh s); try done; cbn [set_conn conn]; [apply upd_eq|apply upd_ne].
Qed.

Lemma drop_stream_J w sh s id : J w sh -> small w -> J (set_conn w s (Conn.drop_stream (conn w s) id)) sh.
Proof.
  intros HJ Hsm. unfold Conn.drop_stream. set (c := Conn.set_queue _ _). destruct (Conn.close_id_fields c id) as (E1 & E2 & E3 & E4 & E5 & E6 & _ & E7 & E8).
  apply (dropped w sh s id); try done. intros [H1 H2] Hp. apply E8; [unfold in_u; lia|done|done].
Qed.

Lemma retire_J w sh s id : J w sh -> small w -> J (step w s (Retire id)) sh.
Proof.
  intros HJ Hsm. cbn [step]. unfold Conn.retire_stream. destruct (_ || _); cbn [snd].
  - apply (same_conn w _ sh s); try done; cbn [set_conn conn]; [apply upd_eq|apply upd_ne].
  - set (c := Conn.set_streams _ _). destruct (Conn.close_id_fields c id) as (E1 & E2 & E3 & E4 & E5 & E6 & _ & E7 & E8).
    apply (dropped w sh s id); try done. intros [H1 H2] Hp. apply E8; [unfold in_u; lia|done|done].
Qed.

(** A first segment opens the stream at the other end. *)
Lemma implicit_open_J w sh s id q : J w sh -> is_Some (sh s !! id) -> Conn.streams (conn w s) !! id = None -> owner id = negb s -> Conn.peer_closed_below (conn w s) <= id ->
  J (set_conn w s (Conn.set_queue q (Conn.set_streams (<[id := Conn.duplex_new id]> (Conn.streams (conn w s))) (conn w s)))) sh.
Proof.
  intros HJ [W HW] Hn Ho Hb. destruct (j_dom w sh HJ s id ltac:(eauto)) as [W' HW']. destruct (j_fresh w sh HJ s id W W' HW HW' Hn Ho Hb) as [Es Er].
  set (c2 := Conn.set_queue _ _).
  assert (Hstr : forall t i, Conn.streams (conn (set_conn w s c2) t) !! i = if Bool.eqb t s && (i =? id) then Some (Conn.duplex_new id) else Conn.streams (conn w t) !! i).
  { refine (side _ s _ _); cbn [set_conn conn]; intros i; [rewrite upd_eq, Bool.eqb_reflx|rewrite upd_ne; by destruct s]. unfold c2. cbn [andb Conn.set_queue Conn.set_streams Conn.streams].
    destruct (Z.eqb_spec i id) as [->|]; [apply lookup_insert_eq|by apply lookup_insert_ne]. }
  assert (Hsame : forall t, Conn.key_tx (conn (set_conn w s c2) t) = Conn.key_tx (conn w t) /\ Conn.key_rx (conn (set_conn w s c2) t) = Conn.key_rx (conn w t) /\
    Conn.nonce_tx (conn (set_conn w s c2) t) = Conn.nonce_tx (conn w t) /\ Conn.next_local_id (conn (set_conn w s c2) t) = Conn.next_local_id (conn w t) /\
    Conn.peer_id_parity (conn (set_conn w s c2) t) = Conn.peer_id_parity (conn w t) /\ Conn.peer_closed_below (conn (set_conn w s c2) t) = Conn.peer_closed_below (conn w t)).
  { refine (side _ s _ _); cbn [set_conn conn]; [by rewrite upd_eq|by rewrite upd_ne]. }
  split.
  - intros t. destruct (Hsame t) as (-> & _). destruct (Hsame (negb t)) as (_ & -> & _). apply (j_keys w sh HJ).
  - intros t. destruct (Hsame t) as (_ & _ & _ & _ & -> & _). apply (j_parity w sh HJ).
  - intros t. destruct (Hsame t) as (_ & _ & _ & -> & _). apply (j_local w sh HJ).
  - intros t. destruct (Hsame t) as (_ & _ & -> & _). apply (j_nonce w sh HJ).
  - apply (j_dom w sh HJ).
  - intros t i. destruct (Hsame (owner i)) as (_ & _ & _ & -> & _). apply (j_ids w sh HJ).
  - apply (j_inv w sh HJ).
  - intros t i V HV. rewrite Hstr. destruct (_ && _); [done|]. by apply (j_fits w sh HJ).
  - intros t i d. rewrite Hstr. destruct (Bool.eqb t s && (i =? id)) eqn:Eb; [|apply (j_live w sh HJ)].
    apply andb_true_iff in Eb as [->%Bool.eqb_prop ->%Z.eqb_eq]. intros [= <-]. by exists W, W'.
  - intros t i V V' HV HV'. rewrite Hstr. destruct (_ && _); [done|]. destruct (Hsame t) as (_ & _ & _ & _ & _ & ->). by apply (j_fresh w sh HJ).
  - apply (j_none w sh HJ).
  - intros t cell Hc. destruct (Hsame t) as (-> & _). by apply (j_wire w sh HJ).
Qed.

Lemma segment_J w sh s g d W' : J w sh -> small w -> Conn.streams (conn w s) !! stream_id g = Some d -> sh (negb s) !! stream_id g = Some W' -> g ∈ StreamWorld.flight W' ->
  exists sh', J (set_conn w s (Conn.with_stream (conn w s) (stream_id g) (fun d => Conn.mk_duplex (Conn.sender d) (snd (on_segment (Conn.receiver d) g))))) sh'.
Proof.
  intros HJ Hsm Ed HW' Hg. apply list_elem_of_lookup_1 in Hg as [i Hg].
  destruct (live_shadow w sh s _ d HJ Hsm Ed) as (W & V & HW & HV & Es & Er & _). assert (V = W') as -> by congruence.
  destruct (receiver_step w sh s (stream_id g) d W' (StreamWorld.Arrive i) (snd (on_segment (Conn.receiver d) g)) [] I HJ Hsm Ed HW') as [sh' HJ'];
    try (cbn [StreamWorld.step]; rewrite Hg, Er; destruct (on_segment (Conn.receiver d) g); cbn [StreamWorld.taken]; rewrite ?app_nil_r; done).
  exists sh'. unfold Conn.with_stream. rewrite Ed. apply (same_conn _ _ sh' s HJ'); try done. intros t k. cbn [set_conn wrote got]. by rewrite log_nil.
Qed.

Lemma data_J w sh s g : J w sh -> small w -> carried sh (negb s) (Data g) -> exists sh', J (set_conn w s (Conn.on_frame (conn w s) (Some (Data g)))) sh'.
Proof.
  intros HJ Hsm (W' & HW' & Hg). cbn [Conn.on_frame]. cbv zeta. case_bool_decide as Hd.
  - destruct Hd as [d Hd]. by apply (segment_J w sh s g d W').
  - apply eq_None_not_Some in Hd. destruct (_ && _) eqn:Ea.
    + apply andb_true_iff in Ea as [[Ep%Z.eqb_eq Eb%Z.leb_le]%andb_true_iff _]. rewrite (j_parity w sh HJ) in Ep.
      assert (Ho : owner (stream_id g) = negb s) by (unfold owner; rewrite Ep; by destruct s).
      assert (HWs : is_Some (sh s !! stream_id g)) by (rewrite <- (Bool.negb_involutive s); apply (j_dom w sh HJ); eauto).
      set (c1 := Conn.set_queue _ _). pose proof (implicit_open_J w sh s (stream_id g) (Conn.accept_queue (conn w s) ++ [stream_id g]) HJ HWs Hd Ho Eb) as HJ1. fold c1 in HJ1.
      assert (Hsm1 : small (set_conn w s c1)).
      { intros t i d. cbn [set_conn conn]. unfold upd. destruct (Bool.eqb t s); [|apply Hsm]. unfold c1. cbn [Conn.set_queue Conn.set_streams Conn.streams].
        destruct (decide (i = stream_id g)) as [->|Hne]; [rewrite lookup_insert_eq; by intros [= <-]|rewrite lookup_insert_ne by done; apply Hsm]. }
      destruct (segment_J (set_conn w s c1) sh s g (Conn.duplex_new (stream_id g)) W' HJ1 Hsm1) as [sh' HJ']; [|done|done|].
      * cbn [set_conn conn]. rewrite upd_eq. unfold c1. cbn [Conn.set_queue Conn.set_streams Conn.streams]. apply lookup_insert_eq.
      * exists sh'. apply (same_conn _ _ sh' s HJ'); cbn [set_conn conn]; rewrite ?upd_eq, ?upd_ne; done.
    + exists sh. unfold Conn.with_stream. rewrite Hd. apply (same_conn w _ sh s); try done; cbn [set_conn conn]; [apply upd_eq|apply upd_ne].
Qed.

Lemma cell_J w sh s cell : J w sh -> small w -> allowed w s (Cell cell) -> exists sh', J (step w s (Cell cell)) sh'.
Proof.
  intros HJ Hsm Hal. cbn [step]. assert (Hsame : J (set_conn w s (conn w s)) sh) by (apply (same_conn w _ sh s); try done; cbn [set_conn conn]; [apply upd_eq|apply upd_ne]).
  unfold Conn.on_cell. destruct Hal as [Hin|Hn]; [|rewrite Hn; by exists sh].
  destruct (j_wire w sh HJ (negb s) cell Hin) as (b & f & Hop & Hdec & Hcar). rewrite (j_keys w sh HJ), Bool.negb_involutive in Hop. rewrite Hop, Hdec.
  destruct f as [g|id a| |id].
  - by apply (data_J w sh).
  - by apply (ack_J w sh).
  - by exists sh.
  - exists sh. by apply drop_stream_J.
Qed.

Lemma open_J w sh s : J w sh -> exists sh', J (step w s Open) sh'.
Proof.
  intros HJ. cbn [step]. unfold Conn.open_stream. destruct (_ <=? _)%nat; [exists sh; apply (same_conn w _ sh s); try done; cbn [set_conn conn]; [apply upd_eq|apply upd_ne]|]. cbv zeta.
  destruct (Z.leb_spec (2 ^ 32) (Conn.next_local_id (conn w s) + 2)); cbn [snd].
  - exists sh. apply (same_conn w _ sh s); try done; cbn [set_conn conn]; [apply upd_eq|apply upd_ne].
  - eexists. by apply opened.
Qed.

Lemma accept_J w sh s : J w sh -> J (step w s Accept) sh.
Proof.
  intros HJ. cbn [step]. unfold Conn.accept. destruct (Conn.accept_queue (conn w s)); cbn [snd];
    apply (idle w _ sh s); cbn [set_conn conn]; rewrite ?upd_eq, ?upd_ne; try done; try apply (j_nonce w sh HJ); intros; by left.
Qed.

(** ** Sweeps *)

Definition sendable (sh : shadow) (s : bool) (f : Frame) : Prop := carried sh s f /\ frame_ok f.

(** The two sweeps of a sender, with the event of [StreamWorld] each of them is. *)
Record sweeper (poll : StreamSender -> list Segment * StreamSender) (e : StreamWorld.event) : Prop := {
  sw_lossless : lossless e;
  sw_step : forall W, StreamWorld.step W e = StreamWorld.sending W (poll (StreamWorld.sender W));
  sw_core : forall s, StreamWorld.timing s -> StreamWorld.core (snd (poll s)) = StreamWorld.core s;
}.

Lemma outbound_sweeper : sweeper Stream.outbound StreamWorld.Sweep.
Proof. split; [done|done|apply StreamWorld.outbound_core]. Qed.

Lemma poll_sweeper : sweeper poll_new StreamWorld.Poll.
Proof. split; [done|done|apply poll_core]. Qed.

Lemma core_total s s' : StreamWorld.core s' = StreamWorld.core s -> total s' = total s.
Proof. unfold StreamWorld.core, total. by intros [= _ -> -> _ _ _ _ _ _]. Qed.

Lemma sweep_one_J poll e w sh s id fs : sweeper poll e -> J w sh -> small w -> Forall (sendable sh s) fs ->
  let '(m', fs') := Conn.sweep_one poll (Conn.streams (conn w s), fs) id in
  exists sh', J (set_conn w s (Conn.set_streams m' (conn w s))) sh' /\ small (set_conn w s (Conn.set_streams m' (conn w s))) /\ Forall (sendable sh' s) fs'.
Proof.
  intros Hsw HJ Hsm Hfs. rewrite Conn.sweep_one_lookup. destruct (Conn.streams (conn w s) !! id) as [d|] eqn:Ed; cycle 1.
  { exists sh. split; [|split; [|done]]; [apply (same_conn w _ sh s); try done; cbn [set_conn conn]; [rewrite upd_eq; by destruct (conn w s)|apply upd_ne]|].
    intros t i d. cbn [set_conn conn]. unfold upd. destruct (Bool.eqb t s); [cbn [Conn.set_streams Conn.streams]|]; apply Hsm. }
  destruct (live_shadow w sh s id d HJ Hsm Ed) as (W & W' & HW & HW' & Es & Er & HI & HI' & Hf & Hf' & Hp & Ht & Hp' & Ht').
  pose proof (later_step W e (sw_lossless _ _ Hsw) HI Hf) as HL. pose proof (later_acking W' HI' Hf') as HL'. pose proof (sw_step _ _ Hsw W) as Est. rewrite Es in Est.
  set (d2 := Conn.mk_duplex (snd (poll (Conn.sender d))) (Conn.receiver d)).
  exists (put sh s id (StreamWorld.step W e) (acking W')). split; [|split].
  - apply (touch w _ sh s id d d2 W W' (StreamWorld.step W e) (acking W') HJ Ed HW HW'); try done; rewrite ?Est; try done; cbn [set_conn conn]; [apply upd_eq|apply upd_ne].
  - intros t i x. cbn [set_conn conn]. unfold upd. destruct (Bool.eqb t s) eqn:Et; [|apply Hsm]. cbn [Conn.set_streams Conn.streams].
    destruct (decide (i = id)) as [->|Hne]; [rewrite lookup_insert_eq; intros [= <-]|rewrite lookup_insert_ne by done; apply Hsm].
    cbn [d2 Conn.sender]. rewrite (core_total (Conn.sender d)); [by apply (Hsm s id)|]. apply (sw_core _ _ Hsw). rewrite <- Es. apply (StreamWorld.i_time W HI).
  - assert (Hmono : forall f, sendable sh s f -> sendable (put sh s id (StreamWorld.step W e) (acking W')) s f)
      by (intros f [Hc Hok]; split; [by eapply put_carried; [exact HW|exact HW'|..]|done]).
    destruct (id_u32 w sh s id HJ ltac:(eauto)) as [Hu _]. destruct (j_inv w sh HJ s id W HW) as (_ & Hsid & _).
    assert (HI2 : StreamWorld.inv (StreamWorld.step W e)) by apply HL.
    assert (Hf2 : StreamWorld.fits (StreamWorld.step W e)) by (rewrite Est; done).
    apply Forall_app. split; [eapply Forall_impl; [exact Hfs|done]|]. apply Forall_app. split.
    + apply Forall_map, Forall_forall. intros g Hg.
      assert (Hg2 : g ∈ StreamWorld.flight (StreamWorld.step W e)) by (rewrite Est; cbn [StreamWorld.sending StreamWorld.flight]; apply elem_of_app; by right).
      destruct (StreamWorld.i_flight _ HI2 g Hg2) as (Eid & _). assert (Eg : stream_id g = id) by (rewrite Eid; destruct HL as (_ & -> & _); done).
      split; [|apply (data_frame_ok (StreamWorld.step W e)); try done; destruct HL as (_ & -> & _); by rewrite Hsid].
      cbn [carried]. exists (StreamWorld.step W e). rewrite Eg, put_eq. split; [apply lookup_insert_eq|done].
    + apply Forall_singleton. split.
      * cbn [carried]. exists (acking W'). rewrite put_ne. split; [apply lookup_insert_eq|]. cbn [acking StreamWorld.acks]. rewrite Er. apply elem_of_app. right. by apply list_elem_of_singleton.
      * apply ack_frame_ok; [done|]. rewrite <- Er. apply (StreamWorld.i_recv W' HI').
Qed.

Lemma sweep_fold_J poll e s l : sweeper poll e -> forall w sh fs, J w sh -> small w -> Forall (sendable sh s) fs ->
  let '(m', fs') := fold_left (Conn.sweep_one poll) l (Conn.streams (conn w s), fs) in
  exists sh', J (set_conn w s (Conn.set_streams m' (conn w s))) sh' /\ Forall (sendable sh' s) fs'.
Proof.
  intros Hsw. induction l as [|id l IH]; intros w sh fs HJ Hsm Hfs; cbn [fold_left].
  - exists sh. split; [|done]. apply (same_conn w _ sh s); try done; cbn [set_conn conn]; [rewrite upd_eq; by destruct (conn w s)|apply upd_ne].
  - pose proof (sweep_one_J poll e w sh s id fs Hsw HJ Hsm Hfs) as H1. destruct (Conn.sweep_one poll _ id) as [m1 fs1]. destruct H1 as (sh1 & HJ1 & Hsm1 & Hfs1).
    specialize (IH _ sh1 fs1 HJ1 Hsm1 Hfs1). cbn [set_conn conn] in IH. rewrite upd_eq in IH. cbn [Conn.set_streams Conn.streams] in IH.
    destruct (fold_left (Conn.sweep_one poll) l (m1, fs1)) as [m' fs']. destruct IH as (sh' & HJ' & Hfs'). exists sh'. split; [|done].
    apply (same_conn _ _ sh' s HJ'); cbn [set_conn conn]; rewrite ?upd_eq, ?upd_ne; done.
Qed.

Context {HKL : KemLaws}.

Lemma emit_J w sh s fs cells n n' c' : J w sh -> Forall (sendable sh s) fs -> Conn.minted (Conn.key_tx (conn w s)) n n' fs cells -> Conn.sealed_from (conn w s) c' -> J (emit w s (cells, c')) sh.
Proof.
  intros HJ Hfs Hm (k & -> & Hk). pose proof (j_nonce w sh HJ s). apply (idle w _ sh s); cbn [emit conn snd fst wrote got wire]; rewrite ?upd_eq, ?upd_ne; try done; [cbn [Conn.set_nonce Conn.nonce_tx]; lia|].
  refine (side _ s _ _); [rewrite upd_eq|rewrite upd_ne; by left]. intros cell [Hc|Hc]%elem_of_app; [by left|right].
  destruct (Conn.minted_elem _ _ _ _ _ Hm cell Hc) as (f & m & Hf & _ & Hu & Es). rewrite Forall_forall in Hfs. destruct (Hfs f Hf) as [Hcar Hok].
  destruct (cell_roundtrip _ _ _ _ Hu Hok Es) as (_ & b & Hop & Hdec). exists b, f. done.
Qed.

Lemma outbound_J poll e w sh s : sweeper poll e -> J w sh -> small w ->
  let '(m, frames) := Conn.sweep poll (Conn.streams (conn w s)) in exists sh', J (emit w s (Conn.seal_frames (Conn.set_streams m (conn w s)) frames)) sh'.
Proof.
  intros Hsw HJ Hsm. unfold Conn.sweep. pose proof (sweep_fold_J poll e s (Conn.ids (Conn.streams (conn w s))) Hsw w sh [] HJ Hsm (proj2 (Forall_nil _) I)) as HF.
  destruct (fold_left (Conn.sweep_one poll) _ _) as [m fs]. destruct HF as (sh' & HJ' & Hfs). exists sh'. unfold Conn.seal_frames.
  set (c1 := Conn.set_streams m (conn w s)) in *. pose proof (Conn.seal_all fs c1 [] (j_nonce w sh HJ s)) as Hs. destruct (fold_left Conn.seal_one fs ([], c1)) as [out c'].
  destruct Hs as (Hfrom & new & -> & Hm). cbn [app].
  pose proof (emit_J (set_conn w s c1) sh' s fs new (Conn.nonce_tx c1) (Conn.nonce_tx c') c' HJ' Hfs) as HE. cbn [set_conn conn] in HE. rewrite upd_eq in HE. specialize (HE Hm Hfrom).
  apply (same_conn _ _ sh' s HE); cbn [emit set_conn conn wire fst snd]; rewrite ?upd_eq, ?upd_ne; done.
Qed.

Lemma sweep_J w sh s : J w sh -> small w -> exists sh', J (step w s Sweep) sh'.
Proof.
  intros HJ Hsm. cbn [step]. unfold Conn.outbound. pose proof (outbound_J _ _ w sh s outbound_sweeper HJ Hsm) as HO. by destruct (Conn.sweep Stream.outbound _).
Qed.

Lemma poll_J w sh s : J w sh -> small w -> exists sh', J (step w s Poll) sh'.
Proof.
  intros HJ Hsm. cbn [step]. unfold Conn.outbound_new. pose proof (outbound_J _ _ w sh s poll_sweeper HJ Hsm) as HO. by destruct (Conn.sweep poll_new _).
Qed.

Lemma padded_J w sh s k : J w sh -> small w -> exists sh', J (step w s (Padded k)) sh'.
Proof.
  intros HJ Hsm. destruct (sweep_J w sh s HJ Hsm) as [sh' HJ']. exists sh'. cbn [step] in *. unfold Conn.outbound_padded. destruct (Conn.outbound (conn w s)) as [cells c1].
  pose proof (j_nonce _ sh' HJ' s) as Hn. cbn [emit conn snd] in Hn. rewrite upd_eq in Hn.
  pose proof (Conn.pad_all (k - length cells) c1 cells Hn) as Hs. destruct (Conn.pad_loop _ cells c1) as [out c2]. destruct Hs as (Hfrom & new & -> & Hm).
  pose proof (emit_J _ sh' s (replicate (k - length cells) Padding) new (Conn.nonce_tx c1) (Conn.nonce_tx c2) c2 HJ') as HE. cbn [emit conn snd] in HE. rewrite upd_eq in HE.
  specialize (HE ltac:(apply Forall_replicate; done) Hm Hfrom).
  apply (same_conn _ _ sh' s HE); cbn [emit conn wire fst snd]; rewrite ?upd_eq, ?upd_ne; try done. refine (side _ s _ _); rewrite ?upd_eq, ?upd_ne; [by rewrite app_assoc|done].
Qed.

Lemma abandon_J w sh s id : J w sh -> small w -> exists sh', J (step w s (Abandon id)) sh'.
Proof.
  intros HJ Hsm. exists sh. cbn [step]. unfold Conn.reset_stream. destruct (Conn.streams (conn w s) !! id) as [d|] eqn:Ed; cycle 1.
  { apply (same_conn w _ sh s); try done; cbn [emit conn wire fst snd option_list]; [apply upd_eq|apply upd_ne|]. refine (side _ s _ _); rewrite ?upd_eq, ?upd_ne; [apply app_nil_r|done]. }
  destruct (j_live w sh HJ s id d Ed) as (W & _ & HW & _). destruct (id_u32 w sh s id HJ ltac:(eauto)) as [Hu _].
  pose proof (drop_stream_J w sh s id HJ Hsm) as HD. set (c1 := Conn.drop_stream (conn w s) id) in *.
  pose proof (j_nonce _ sh HD s) as Hn. cbn [set_conn conn] in Hn. rewrite upd_eq in Hn. pose proof (Conn.next_nonce_spec c1 Hn) as Hs. destruct (Conn.next_nonce c1) as [[n|] c2]; cbn [fst snd].
  - destruct Hs as (-> & Hun & -> & Hlt). cbn [Conn.set_nonce Conn.key_tx].
    assert (Hok : Forall (sendable sh s) [Reset id]) by (apply Forall_singleton; split; done).
    assert (Hfrom : Conn.sealed_from c1 (Conn.set_nonce (Conn.nonce_tx c1 + 1) c1)) by (exists (Conn.nonce_tx c1 + 1); split; [done|lia]).
    assert (Hm : Conn.minted (Conn.key_tx c1) (Conn.nonce_tx c1) (Conn.nonce_tx c1 + 1) [Reset id] (option_list (seal (Conn.key_tx c1) (Conn.nonce_tx c1) (encode_frame (Reset id))))).
    { destruct (seal _ _ _) as [cell|] eqn:Es; cbn [option_list]; [apply Conn.minted_cell; try done; constructor|apply Conn.minted_lost; constructor]. }
    pose proof (fun cells => emit_J (set_conn w s c1) sh s [Reset id] cells (Conn.nonce_tx c1) (Conn.nonce_tx c1 + 1) (Conn.set_nonce (Conn.nonce_tx c1 + 1) c1) HD Hok) as HE. cbn [set_conn conn] in HE. rewrite upd_eq in HE.
    specialize (HE _ Hm Hfrom). apply (same_conn _ _ sh s HE); cbn [emit set_conn conn wire fst snd]; rewrite ?upd_eq, ?upd_ne; done.
  - subst c2. apply (same_conn _ _ sh s HD); cbn [emit set_conn conn wire fst snd option_list]; rewrite ?upd_eq, ?upd_ne; try done. refine (side _ s _ _); rewrite ?upd_eq, ?upd_ne; [apply app_nil_r|done].
Qed.

Lemma step_J w sh s e : J w sh -> small w -> allowed w s e -> exists sh', J (step w s e) sh'.
Proof.
  intros HJ Hsm Hal. destruct e.
  - by apply (open_J w sh).
  - exists sh. by apply accept_J.
  - by apply (write_J w sh).
  - by apply (flush_J w sh).
  - by apply (finish_J w sh).
  - by apply (read_J w sh).
  - by apply (sweep_J w sh).
  - by apply (poll_J w sh).
  - by apply (padded_J w sh).
  - exists sh. by apply retire_J.
  - by apply (abandon_J w sh).
  - by apply (cell_J w sh).
Qed.

Lemma reachable_J k1 k2 w : reachable k1 k2 w -> exists sh, J w sh.
Proof. induction 1 as [|w s e _ [sh HJ] Hsm Hal]; [eexists; apply world_new_J|by apply (step_J w sh)]. Qed.

Lemma delivers_exactly (k1 k2 : list Z) (w : world) (s : bool) (id : Z) :
  reachable k1 k2 w -> small w ->
  got w (negb s) id `prefix_of` wrote w s id /\
  (Conn.receiver_finished (conn w (negb s)) id = true -> got (step w (negb s) (Read id)) (negb s) id = wrote w s id) /\
  (Conn.sender_complete (conn w s) id = true -> Conn.receiver_finished (conn w (negb s)) id = true \/ Conn.streams (conn w (negb s)) !! id = None).
Proof.
  intros Hr Hsm. destruct (reachable_J k1 k2 w Hr) as [sh HJ]. split; [|split].
  - destruct (sh s !! id) as [W|] eqn:EW; [|destruct (j_none w sh HJ s id EW) as [-> ->]; by exists []].
    destruct (j_inv w sh HJ s id W EW) as (HI & _ & <- & <-). rewrite (StreamWorld.i_taken W HI), (StreamWorld.i_push W HI).
    exists (concat (drop (Z.to_nat (delivered (StreamWorld.receiver W))) (StreamWorld.sealed W)) ++ pending (StreamWorld.sender W)). by rewrite app_assoc, <- concat_app, take_drop.
  - unfold Conn.receiver_finished. destruct (Conn.streams (conn w (negb s)) !! id) as [d|] eqn:Ed; [|done]. intros Hfin.
    destruct (live_shadow w sh (negb s) id d HJ Hsm Ed) as (V & W & HV & HW & _ & Er & _ & HI & _ & _ & _ & _ & Hp & Ht). rewrite Bool.negb_involutive in *.
    destruct (StreamWorld.finished_all W HI) as [Hf Hn]; [by rewrite Er|]. pose proof (StreamWorld.read_all W HI Hf Hn) as Hall. rewrite <- Hp, <- Hall.
    cbn [step]. unfold Conn.read. rewrite Ed. cbn [StreamWorld.step]. rewrite Er. destruct (take_ (Conn.receiver d)) as [out r]. cbn [got fst snd StreamWorld.taken]. by rewrite log_here, Ht.
  - unfold Conn.sender_complete, Conn.receiver_finished. destruct (Conn.streams (conn w s) !! id) as [d|] eqn:Ed; [|done]. intros Hc.
    destruct (Conn.streams (conn w (negb s)) !! id) as [e|] eqn:Ee; [left|by right].
    destruct (live_shadow w sh s id d HJ Hsm Ed) as (W & V & HW & _ & Es & _ & HI & _ & Hf & _).
    destruct (live_shadow w sh (negb s) id e HJ Hsm Ee) as (V' & W2 & _ & HW2 & _ & Er & _). rewrite Bool.negb_involutive in HW2. assert (W2 = W) as -> by congruence.
    unfold is_complete in Hc. rewrite <- Es, andb_true_iff, Z.leb_le, (StreamWorld.total_len W HI Hf) in Hc. destruct Hc as [Hfin Ha]. pose proof (StreamWorld.i_order W HI).
    destruct (StreamWorld.i_fin W HI Hfin) as [_ Hpos]. rewrite <- Er. unfold is_finished. rewrite (StreamWorld.i_last W HI Hfin); [apply Z.ltb_lt; lia|left; lia].
Qed.

(** C12: every stream of a connection delivers, whatever happens to the others.  Two ends open, write, flush, finish, read, sweep, pad, retire and
    abandon streams in any order, while the network loses, repeats, reorders and invents cells.  Then what an end has read from a stream is a
    prefix of what the other wrote to it; once the end of the stream has been received, one more read makes it all; and when the
    writer sees its side complete, the reader has the end of the stream or has given it up. *)
Theorem connection_delivers_exactly (k1 k2 : list Z) (w : world) (s : bool) (id : Z) :
  reachable k1 k2 w -> small w ->
  got w (negb s) id `prefix_of` wrote w s id /\
  (Conn.receiver_finished (conn w (negb s)) id = true -> got (step w (negb s) (Read id)) (negb s) id = wrote w s id) /\
  (Conn.sender_complete (conn w s) id = true -> Conn.receiver_finished (conn w (negb s)) id = true \/ Conn.streams (conn w (negb s)) !! id = None).
Proof. apply delivers_exactly. Qed.

End invariant.

(** ** Whatever the peer sends *)

Section hostile.
  Context `{KemCrypto}.

Definition held (c : Conn.Connection) : nat := map_fold (fun _ d acc => receiver_buffered_bytes (Conn.receiver d) + acc)%nat 0%nat (Conn.streams c).

(** No operation of a connection changes the window a stream is opened with. *)
Definition recv_ok (r : StreamReceiver) : Prop := receiver_inv r /\ recv_window r = DEFAULT_WINDOW.

Record conn_inv (c : Conn.Connection) : Prop := {
  ci_count : (size (Conn.streams c) <= Conn.MAX_CONCURRENT_STREAMS)%nat;
  ci_recv : map_Forall (fun _ d => recv_ok (Conn.receiver d)) (Conn.streams c);
  ci_nonce : 0 <= Conn.nonce_tx c < 2 ^ 64;
}.

(** The operations of one end, with any bytes for a cell. *)
Definition act (c : Conn.Connection) (e : event) : Conn.Connection :=
  match e with
  | Open => snd (Conn.open_stream c)
  | Accept => snd (Conn.accept c)
  | Write id bytes => Conn.write c id bytes
  | Flush id => Conn.flush c id
  | Finish id => Conn.finish c id
  | Read id => snd (Conn.read c id)
  | Sweep => snd (Conn.outbound c)
  | Poll => snd (Conn.outbound_new c)
  | Padded n => snd (Conn.outbound_padded c n)
  | Retire id => snd (Conn.retire_stream c id)
  | Abandon id => snd (Conn.reset_stream c id)
  | Cell cell => Conn.on_cell c cell
  end.

Lemma conn_new_inv k1 k2 b : conn_inv (Conn.conn_new k1 k2 b).
Proof. split; cbn; [rewrite map_size_empty; lia|apply map_Forall_empty|lia]. Qed.

Lemma fresh_receiver_ok id : recv_ok (receiver_new id).
Proof. split; [apply (receiver_new_inv id DEFAULT_WINDOW)|done]. Qed.

Lemma segment_ok r g : recv_ok r -> recv_ok (snd (on_segment r g)).
Proof. intros [Hi Hw]. split; [by apply on_segment_inv|]. by destruct (on_segment_cases r g) as [->|(_ & _ & _ & _ & _ & E)]; [|cbv zeta in E; rewrite E]. Qed.

Lemma take_ok r : recv_ok r -> recv_ok (snd (take_ r)).
Proof.
  intros [Hi Hw]. split; [by apply take_inv|]. unfold take_. by destruct (take_loop _ _ _).
Qed.

Lemma conn_inv_streams c m : conn_inv c -> (size m <= Conn.MAX_CONCURRENT_STREAMS)%nat -> map_Forall (fun _ d => recv_ok (Conn.receiver d)) m -> conn_inv (Conn.set_streams m c).
Proof. intros [_ _ Hn] Hs Hm. by split. Qed.

Lemma with_stream_inv c id f : conn_inv c -> (forall d, recv_ok (Conn.receiver d) -> recv_ok (Conn.receiver (f d))) -> conn_inv (Conn.with_stream c id f).
Proof.
  intros Hc Hf. unfold Conn.with_stream. destruct (Conn.streams c !! id) as [d|] eqn:Ed; [|done]. apply conn_inv_streams; [done| |].
  - rewrite map_size_insert, Ed. apply (ci_count c Hc).
  - apply map_Forall_insert_2; [|apply (ci_recv c Hc)]. apply Hf. by apply (ci_recv c Hc id).
Qed.

Lemma close_id_inv c id : conn_inv c -> conn_inv (Conn.close_id c id).
Proof. intros [H1 H2 H3]. destruct (Conn.close_id_fields c id) as (E1 & _ & _ & E2 & _). split; by rewrite ?E1, ?E2. Qed.

Lemma delete_inv c id : conn_inv c -> conn_inv (Conn.set_streams (delete id (Conn.streams c)) c).
Proof.
  intros Hc. apply conn_inv_streams; [done| |by apply map_Forall_delete, (ci_recv c Hc)]. etrans; [|apply (ci_count c Hc)]. apply map_subseteq_size, delete_subseteq.
Qed.

Lemma queue_inv c q : conn_inv c -> conn_inv (Conn.set_queue q c).
Proof. intros [H1 H2 H3]. by split. Qed.

Lemma insert_new_inv c id : conn_inv c -> (size (Conn.streams c) < Conn.MAX_CONCURRENT_STREAMS)%nat -> conn_inv (Conn.set_streams (<[id := Conn.duplex_new id]> (Conn.streams c)) c).
Proof.
  intros Hc Hs. apply conn_inv_streams; [done| |apply map_Forall_insert_2; [apply fresh_receiver_ok|apply (ci_recv c Hc)]].
  rewrite map_size_insert. destruct (_ !! _); unfold Datatypes.id; lia.
Qed.

Lemma sealed_from_inv c c' : conn_inv c -> Conn.sealed_from c c' -> conn_inv c'.
Proof. intros [H1 H2 H3] (n & -> & Hn). split; [done|done|cbn; lia]. Qed.

Lemma sweep_conn_inv poll c fs l : forall m, (size m <= Conn.MAX_CONCURRENT_STREAMS)%nat -> map_Forall (fun _ d => recv_ok (Conn.receiver d)) m -> conn_inv c ->
  conn_inv (Conn.set_streams (fst (fold_left (Conn.sweep_one poll) l (m, fs))) c).
Proof.
  revert fs. induction l as [|id l IH]; intros fs m Hs Hm Hc; cbn [fold_left]; [by apply conn_inv_streams|]. rewrite Conn.sweep_one_lookup.
  destruct (m !! id) as [d|] eqn:Ed; [|by apply IH]. apply IH; [by rewrite map_size_insert, Ed| |done]. apply map_Forall_insert_2; [exact (Hm id d Ed)|done].
Qed.

Lemma outbound_inv poll c : conn_inv c -> conn_inv (snd (let '(m, frames) := Conn.sweep poll (Conn.streams c) in Conn.seal_frames (Conn.set_streams m c) frames)).
Proof.
  intros Hc. pose proof (sweep_conn_inv poll c [] (Conn.ids (Conn.streams c)) (Conn.streams c) (ci_count c Hc) (ci_recv c Hc) Hc) as Hi. unfold Conn.sweep.
  destruct (fold_left _ _ _) as [m fs]. cbn [fst] in Hi. unfold Conn.seal_frames. pose proof (Conn.seal_all fs (Conn.set_streams m c) [] (ci_nonce _ Hi)) as Hs.
  destruct (fold_left Conn.seal_one fs _) as [out c']. destruct Hs as (Hf & _). cbn [snd]. by apply (sealed_from_inv (Conn.set_streams m c)).
Qed.

Lemma drop_stream_inv c id : conn_inv c -> conn_inv (Conn.drop_stream c id).
Proof. intros Hc. unfold Conn.drop_stream. by apply close_id_inv, queue_inv, delete_inv. Qed.

Lemma frame_inv c f : conn_inv c -> conn_inv (Conn.on_frame c f).
Proof.
  intros Hc. destruct f as [[g|id a| |id]|]; cbn [Conn.on_frame]; try done.
  - cbv zeta. apply with_stream_inv; [|intros d Hd; by apply segment_ok]. case_bool_decide; [done|]. destruct (_ && _) eqn:Ea; [|done].
    apply andb_true_iff in Ea as [_ Hlt%Nat.ltb_lt]. by apply queue_inv, insert_new_inv.
  - by apply with_stream_inv.
  - by apply drop_stream_inv.
Qed.

Lemma act_inv c e : conn_inv c -> conn_inv (act c e).
Proof.
  intros Hc. destruct e; cbn [act].
  - unfold Conn.open_stream. destruct (Nat.leb_spec Conn.MAX_CONCURRENT_STREAMS (size (Conn.streams c))); [done|]. cbv zeta. destruct (_ <=? _); [done|]. cbn [snd].
    apply (insert_new_inv (Conn.set_local (Conn.next_local_id c + 2) c)); [|done]. destruct Hc. by split.
  - unfold Conn.accept. destruct (Conn.accept_queue c); [done|]. by apply queue_inv.
  - by apply with_stream_inv.
  - by apply with_stream_inv.
  - by apply with_stream_inv.
  - unfold Conn.read. destruct (Conn.streams c !! id) as [d|] eqn:Ed; [|done]. destruct (take_ (Conn.receiver d)) as [out r] eqn:Et. cbn [snd].
    pose proof (with_stream_inv c id (fun d => Conn.mk_duplex (Conn.sender d) (snd (take_ (Conn.receiver d)))) Hc) as Hw. unfold Conn.with_stream in Hw. rewrite Ed, Et in Hw.
    apply Hw. intros x Hx. by apply take_ok.
  - apply (outbound_inv Stream.outbound c Hc).
  - apply (outbound_inv poll_new c Hc).
  - unfold Conn.outbound_padded. pose proof (outbound_inv Stream.outbound c Hc) as Ho. change (conn_inv (snd (Conn.outbound c))) in Ho. destruct (Conn.outbound c) as [cells c1]. cbn [snd] in Ho.
    pose proof (Conn.pad_all (min_cells - length cells) c1 cells (ci_nonce c1 Ho)) as Hp. destruct (Conn.pad_loop _ _ _) as [out c2]. destruct Hp as [Hf _]. cbn [snd]. by apply (sealed_from_inv c1).
  - unfold Conn.retire_stream. destruct (_ || _); [done|]. cbn [snd]. by apply close_id_inv, delete_inv.
  - unfold Conn.reset_stream. destruct (Conn.streams c !! id) as [d|]; [|done]. pose proof (drop_stream_inv c id Hc) as Hd.
    pose proof (Conn.next_nonce_spec _ (ci_nonce _ Hd)) as Hs. destruct (Conn.next_nonce (Conn.drop_stream c id)) as [[n|] c2]; cbn [snd]; [|by subst].
    destruct Hs as (-> & _ & -> & Hlt). destruct Hd as [H1 H2 H3]. split; [done|done|cbn; lia].
  - unfold Conn.on_cell. destruct (Cells.open _ _); [by apply frame_inv|done].
Qed.

Lemma conn_run_inv es : forall c, conn_inv c -> conn_inv (fold_left act es c).
Proof. induction es as [|e es IH]; intros c Hc; [done|]. cbn [fold_left]. by apply IH, act_inv. Qed.

Lemma receiver_bound r : recv_ok r -> (receiver_buffered_bytes r <= 32 * MAX_SEGMENT)%nat.
Proof.
  intros [Hi Hw]. unfold DEFAULT_WINDOW in Hw. unfold receiver_buffered_bytes. etrans; [apply (bounded_sum _ MAX_SEGMENT)|].
  - intros [k d] Hd%elem_of_map_to_list. by apply (ri_size r Hi k).
  - rewrite length_map_to_list. apply Nat.mul_le_mono_r. pose proof (interval_size (received r) (delivered r) (recv_window r) ltac:(lia)) as Hs.
    assert (Z.of_nat (size (received r)) <= recv_window r) by (apply Hs; intros k Hk; by apply (ri_keys r Hi)). lia.
Qed.

Lemma held_bound (m : gmap Z Conn.Duplex) : map_Forall (fun _ d => recv_ok (Conn.receiver d)) m ->
  (map_fold (fun _ d acc => receiver_buffered_bytes (Conn.receiver d) + acc)%nat 0%nat m <= size m * (32 * MAX_SEGMENT))%nat.
Proof.
  induction m as [|id d m Hn IH] using map_ind; [by rewrite map_fold_empty, map_size_empty|]. intros Hm. rewrite map_fold_insert_L; [|intros; lia|done].
  apply map_Forall_insert in Hm as [Hd Hm]; [|done]. rewrite map_size_insert, Hn. pose proof (receiver_bound _ Hd). specialize (IH Hm). lia.
Qed.

(** C14: no peer exhausts a connection.  Whatever cells arrive and whatever the application does, a connection holds at most 256 streams and
    buffers at most what the session budget states for one session, 8 MiB of what it received. *)
Theorem peer_cannot_exhaust (k1 k2 : list Z) (initiator : bool) (es : list event) :
  let c := fold_left act es (Conn.conn_new k1 k2 initiator) in
  (Conn.stream_count c <= 256)%nat /\ Z.of_nat (held c) <= Conn.STREAM_STATE_PER_SESSION.
Proof.
  intros c. pose proof (conn_run_inv es _ (conn_new_inv k1 k2 initiator)) as Hi. fold c in Hi. pose proof (ci_count c Hi) as Hc. unfold Conn.MAX_CONCURRENT_STREAMS in Hc.
  split; [exact Hc|]. pose proof (held_bound _ (ci_recv c Hi)) as Hb. fold (held c) in Hb. unfold MAX_SEGMENT in Hb.
  change Conn.STREAM_STATE_PER_SESSION with (256 * 32768). lia.
Qed.


(** ** Nonces *)

(** The cells an operation emits. *)
Definition emitted (c : Conn.Connection) (e : event) : list (list Z) :=
  match e with
  | Sweep => fst (Conn.outbound c)
  | Poll => fst (Conn.outbound_new c)
  | Padded n => fst (Conn.outbound_padded c n)
  | Abandon id => option_list (fst (Conn.reset_stream c id))
  | _ => []
  end.

Lemma step_act w s e : conn (step w s e) s = act (conn w s) e /\ conn (step w s e) (negb s) = conn w (negb s) /\
  wire (step w s e) s = wire w s ++ emitted (conn w s) e /\ wire (step w s e) (negb s) = wire w (negb s).
Proof. destruct e; cbn [step act emitted set_conn emit conn wire fst snd]; rewrite ?upd_eq, ?upd_ne, ?app_nil_r; done. Qed.

Lemma minted_one n f key : is_u64 n -> Conn.minted key n (n + 1) [f] (option_list (seal key n (encode_frame f))).
Proof. intros Hu. destruct (seal _ _ _) as [cell|] eqn:Es; cbn [option_list]; [apply Conn.minted_cell; try done; constructor|apply Conn.minted_lost; constructor]. Qed.

Lemma minted_app key n n1 n2 fs fs' l l' : Conn.minted key n n1 fs l -> Conn.minted key n1 n2 fs' l' -> Conn.minted key n n2 (fs ++ fs') (l ++ l').
Proof. induction 1; intros Hm; cbn [app]; [done|apply Conn.minted_skip|apply Conn.minted_lost|apply Conn.minted_cell]; auto. Qed.

Lemma outbound_minted poll c : 0 <= Conn.nonce_tx c < 2 ^ 64 ->
  let r := let '(m, frames) := Conn.sweep poll (Conn.streams c) in Conn.seal_frames (Conn.set_streams m c) frames in
  exists fs, Conn.minted (Conn.key_tx c) (Conn.nonce_tx c) (Conn.nonce_tx (snd r)) fs (fst r) /\ Conn.key_tx (snd r) = Conn.key_tx c /\ 0 <= Conn.nonce_tx (snd r) < 2 ^ 64.
Proof.
  intros Hn. destruct (Conn.sweep poll (Conn.streams c)) as [m fs]. cbv zeta. unfold Conn.seal_frames. pose proof (Conn.seal_all fs (Conn.set_streams m c) [] Hn) as Hs.
  destruct (fold_left Conn.seal_one fs _) as [out c']. destruct Hs as ((k & -> & Hk) & new & -> & Hm). exists fs. cbn [fst snd app]. split; [exact Hm|]. split; [done|].
  cbn [Conn.set_nonce Conn.set_streams Conn.nonce_tx] in *. lia.
Qed.

Lemma with_nonce c id f : Conn.nonce_tx (Conn.with_stream c id f) = Conn.nonce_tx c.
Proof. unfold Conn.with_stream. by destruct (Conn.streams c !! id). Qed.

Lemma quiet_act c e : emitted c e = [] -> (match e with Sweep | Poll | Padded _ | Abandon _ => False | _ => True end) -> Conn.nonce_tx (act c e) = Conn.nonce_tx c.
Proof.
  intros _. destruct e; cbn [act]; try done; intros _.
  - unfold Conn.open_stream. destruct (_ <=? _)%nat; [done|]. cbv zeta. by destruct (_ <=? _).
  - unfold Conn.accept. by destruct (Conn.accept_queue c).
  - apply with_nonce.
  - apply with_nonce.
  - apply with_nonce.
  - unfold Conn.read. destruct (_ !! _); [|done]. by destruct (take_ _).
  - unfold Conn.retire_stream. destruct (_ || _); [done|]. cbn [snd]. by destruct (Conn.close_id_fields (Conn.set_streams (delete id (Conn.streams c)) c) id) as (_ & _ & _ & -> & _).
  - unfold Conn.on_cell. destruct (Cells.open _ _) as [b|]; [|done]. destruct (decode_frame b) as [[g|id a| |id]|]; cbn [Conn.on_frame]; try done.
    + cbv zeta. rewrite with_nonce. case_bool_decide; [done|]. by destruct (_ && _).
    + apply with_nonce.
    + unfold Conn.drop_stream. set (c1 := Conn.set_queue _ _). by destruct (Conn.close_id_fields c1 id) as (_ & _ & _ & -> & _).
Qed.

Lemma act_minted c e : conn_inv c -> exists fs key, Conn.minted key (Conn.nonce_tx c) (Conn.nonce_tx (act c e)) fs (emitted c e).
Proof.
  intros Hc. pose proof (ci_nonce c Hc) as Hn. destruct e; try (exists [], []; rewrite quiet_act by done; constructor).
  - destruct (outbound_minted Stream.outbound c Hn) as (fs & Hm & _). by exists fs, (Conn.key_tx c).
  - destruct (outbound_minted poll_new c Hn) as (fs & Hm & _). by exists fs, (Conn.key_tx c).
  - destruct (outbound_minted Stream.outbound c Hn) as (fs & Hm & Hk & Hn1). change (let '(m, frames) := Conn.sweep Stream.outbound (Conn.streams c) in _) with (Conn.outbound c) in Hm, Hk, Hn1.
    cbn [act emitted]. unfold Conn.outbound_padded. destruct (Conn.outbound c) as [cells c1]. cbn [fst snd] in *.
    pose proof (Conn.pad_all (min_cells - length cells) c1 cells Hn1) as Hp. destruct (Conn.pad_loop _ _ _) as [out c2]. destruct Hp as (_ & new & -> & Hm2). cbn [fst snd].
    rewrite Hk in Hm2. eexists _, _. eapply minted_app; [exact Hm|exact Hm2].
  - cbn [act emitted]. unfold Conn.reset_stream. destruct (Conn.streams c !! id) as [d|]; [|exists [], []; constructor].
    pose proof (drop_stream_inv c id Hc) as Hd. pose proof (Conn.next_nonce_spec _ (ci_nonce _ Hd)) as Hs.
    assert (En : Conn.nonce_tx (Conn.drop_stream c id) = Conn.nonce_tx c) by (unfold Conn.drop_stream; set (c1 := Conn.set_queue _ _); by destruct (Conn.close_id_fields c1 id) as (_ & _ & _ & -> & _)).
    destruct (Conn.next_nonce (Conn.drop_stream c id)) as [[n|] c2]; cbn [fst snd].
    + destruct Hs as (-> & Hu & -> & _). rewrite En in *. exists [Reset id], (Conn.key_tx (Conn.drop_stream c id)). by apply minted_one.
    + subst c2. rewrite En. exists [], []. constructor.
Qed.

Definition stamped (hi : Z) (cells : list (list Z)) : Prop :=
  Forall (fun cell => exists n, 0 <= n < hi /\ n < 2 ^ 64 /\ take NONCE_LEN cell = le_bytes 8 n) cells /\ NoDup (take NONCE_LEN <$> cells).

Lemma minted_le key n n' fs l : Conn.minted key n n' fs l -> n <= n'.
Proof. induction 1; lia. Qed.

Lemma le_bytes_inj n m : is_u64 n -> is_u64 m -> le_bytes 8 n = le_bytes 8 m -> n = m.
Proof. intros Hn Hm E. rewrite <- (from_le_id 8 n), <- (from_le_id 8 m) by done. by rewrite E. Qed.

Lemma seal_stamp key n f cell : seal key n f = Some cell -> take NONCE_LEN cell = le_bytes 8 n.
Proof.
  unfold seal. destruct (_ <? _)%nat; [done|]. destruct (Kem.aead_seal _ _ _) as [ct|]; [|done]. cbn [mbind option_bind]. intros E. apply (inj Some) in E. subst cell.
  apply take_app_length'. by rewrite length_le_bytes.
Qed.

Lemma minted_stamped key n n' fs l : Conn.minted key n n' fs l -> forall cells, stamped n cells -> 0 <= n -> stamped n' (cells ++ l).
Proof.
  induction 1 as [n|n n' f fs l Hm IH|n n' f fs l Hm IH|n n' f fs cell l Hu Es Hm IH]; intros cells [Hf Hd] Hn.
  - rewrite app_nil_r. done.
  - by apply IH.
  - apply IH; [|lia]. split; [|done]. eapply Forall_impl; [exact Hf|]. intros c (m & Hm' & Hx). exists m. split; [lia|done].
  - rewrite cons_middle, app_assoc. apply IH; [|lia]. pose proof (seal_stamp _ _ _ _ Es) as Est. split.
    + apply Forall_app. split; [eapply Forall_impl; [exact Hf|]; intros c (m & Hm' & Hx); exists m; split; [lia|done]|]. apply Forall_singleton. exists n. unfold in_u in Hu. split; [lia|]. split; [lia|done].
    + rewrite fmap_app. apply NoDup_app. split; [done|]. split; [|apply NoDup_singleton]. intros x Hx Hy%list_elem_of_singleton. rewrite Est in Hy. subst x.
      apply list_elem_of_fmap in Hx as (c & Ec & Hc). rewrite Forall_forall in Hf. destruct (Hf c Hc) as (m & Hm' & Hm2 & Em). rewrite Em in Ec. apply le_bytes_inj in Ec; [lia|done|unfold in_u; lia].
Qed.

Definition play (w : world) (es : list (bool * event)) : world := fold_left (fun w x => step w (fst x) (snd x)) es w.

(** C15: a connection never uses a nonce twice.  Whatever both ends do and whatever cells arrive, the cells an end has emitted carry
    pairwise different counters, to the end of the counter's range, where it stops emitting. *)
Theorem nonces_never_repeat (k1 k2 : list Z) (es : list (bool * event)) (s : bool) :
  NoDup (take NONCE_LEN <$> wire (play (world_new k1 k2) es) s).
Proof.
  assert (Hg : forall w, (forall t, conn_inv (conn w t) /\ stamped (Conn.nonce_tx (conn w t)) (wire w t)) -> forall t, stamped (Conn.nonce_tx (conn (play w es) t)) (wire (play w es) t)).
  { induction es as [|[t0 e] es IH]; intros w Hw t; [apply Hw|]. cbn [play fold_left fst snd]. apply IH. clear t IH.
    destruct (step_act w t0 e) as (Ec & Ec' & Ew & Ew'). refine (side _ t0 _ _).
    - rewrite Ec, Ew. destruct (Hw t0) as [Hi Hs]. split; [by apply act_inv|]. destruct (act_minted (conn w t0) e Hi) as (fs & key & Hm).
      eapply minted_stamped; [exact Hm|done|]. pose proof (ci_nonce _ Hi). lia.
    - rewrite Ec', Ew'. apply Hw. }
  apply (Hg (world_new k1 k2)). intros t. split; [destruct t; apply conn_new_inv|]. split; [by apply Forall_nil|apply NoDup_nil; done].
Qed.

(** ** Where retirement goes too far *)

Lemma closed_stays c id e : Conn.streams c !! id = None -> id < Conn.peer_closed_below c -> Z.land id 1 = Conn.peer_id_parity c ->
  match e with Cell _ => True | _ => False end ->
  Conn.streams (act c e) !! id = None /\ id < Conn.peer_closed_below (act c e) /\ Z.land id 1 = Conn.peer_id_parity (act c e).
Proof.
  intros Hn Hb Hp. destruct e; try done. intros _. cbn [act]. unfold Conn.on_cell. destruct (Cells.open _ _) as [b|]; [|done].
  assert (Hw : forall c' i f, Conn.streams c' !! id = None -> Conn.streams (Conn.with_stream c' i f) !! id = None /\ Conn.peer_closed_below (Conn.with_stream c' i f) = Conn.peer_closed_below c' /\
    Conn.peer_id_parity (Conn.with_stream c' i f) = Conn.peer_id_parity c').
  { intros c' i f Hc'. unfold Conn.with_stream. destruct (Conn.streams c' !! i) eqn:Ei; [|done]. split; [|done]. cbn [Conn.set_streams Conn.streams].
    rewrite lookup_insert_ne; [done|]. intros ->. congruence. }
  destruct (decode_frame b) as [[g|i a| |i]|]; cbn [Conn.on_frame]; try done.
  - cbv zeta. set (c1 := if bool_decide _ then c else _).
    assert (H1 : Conn.streams c1 !! id = None /\ Conn.peer_closed_below c1 = Conn.peer_closed_below c /\ Conn.peer_id_parity c1 = Conn.peer_id_parity c).
    { unfold c1. case_bool_decide; [done|]. destruct (_ && _) eqn:Ea; [|done]. split; [|done]. cbn [Conn.set_queue Conn.set_streams Conn.streams].
      apply andb_true_iff in Ea as [[_ Hle%Z.leb_le]%andb_true_iff _]. rewrite lookup_insert_ne; [done|lia]. }
    destruct H1 as (E1 & E2 & E3). destruct (Hw c1 (stream_id g) (fun s => Conn.mk_duplex (Conn.sender s) (snd (on_segment (Conn.receiver s) g))) E1) as (-> & -> & ->). by rewrite E2, E3.
  - destruct (Hw c i (fun s => Conn.mk_duplex (on_ack (Conn.sender s) a) (Conn.receiver s)) Hn) as (-> & -> & ->). done.
  - unfold Conn.drop_stream. set (c1 := Conn.set_queue _ _). destruct (Conn.close_id_fields c1 i) as (-> & _ & _ & _ & _ & -> & _ & Hge & _).
    cbn [c1 Conn.set_queue Conn.set_streams Conn.streams Conn.peer_id_parity Conn.peer_closed_below] in *. rewrite lookup_delete_None. split; [by right|]. split; [lia|done].
Qed.

(** Retiring a stream shuts out older ones.  A peer may open several streams before their first cells arrive; when a later one is complete and
    retired first, the frontier passes the earlier one, and from then on no cell, genuine or not, ever opens it: what the
    peer wrote to it is lost. *)
Theorem retiring_shuts_out_older (c : Conn.Connection) (older newer : Z) (cells : list (list Z)) :
  Conn.is_stream_done c newer = true -> Z.land newer 1 = Conn.peer_id_parity c -> newer < 2 ^ 32 - 1 -> 0 <= older < newer ->
  Z.land older 1 = Conn.peer_id_parity c -> Conn.streams c !! older = None ->
  Conn.streams (fold_left act (map Cell cells) (snd (Conn.retire_stream c newer))) !! older = None.
Proof.
  intros Hd Hp Hlt Hr Hpo Hn. unfold Conn.retire_stream. rewrite Hd.
  assert (Hs : is_Some (Conn.streams c !! newer)) by (unfold Conn.is_stream_done, Conn.sender_complete in Hd; destruct (Conn.streams c !! newer); [by eexists|done]).
  rewrite bool_decide_true by done. cbn [negb orb snd]. set (c1 := Conn.set_streams _ _). destruct (Conn.close_id_fields c1 newer) as (E1 & _ & _ & _ & _ & E2 & _ & _ & E3).
  assert (Hgo : forall c', Conn.streams c' !! older = None -> older < Conn.peer_closed_below c' -> Z.land older 1 = Conn.peer_id_parity c' -> Conn.streams (fold_left act (map Cell cells) c') !! older = None).
  { induction cells as [|cell cells IH]; intros c' G1 G2 G3; [done|]. cbn [map fold_left]. destruct (closed_stays c' older (Cell cell) G1 G2 G3 I) as (K1 & K2 & K3). by apply IH. }
  apply Hgo; [rewrite E1; cbn [c1 Conn.set_streams Conn.streams]; apply lookup_delete_None; by right| |by rewrite E2].
  assert (newer < Conn.peer_closed_below (Conn.close_id c1 newer)); [|lia]. apply E3; [unfold in_u; lia|done|done].
Qed.

End hostile.

(** ** Witnesses *)

Definition smallb (w : world) : bool :=
  forallb (fun s => forallb (fun x => total (Conn.sender (snd x)) <? 2 ^ 32 - SACK_WIDTH) (map_to_list (Conn.streams (conn w s)))) [true; false].

Lemma smallb_small w : smallb w = true -> small w.
Proof.
  intros Hb s id d Hd. unfold smallb in Hb. rewrite forallb_forall in Hb. specialize (Hb s ltac:(destruct s; [by left|by right; left])).
  rewrite forallb_forall in Hb. specialize (Hb (id, d)). cbn [snd] in Hb. apply Z.ltb_lt, Hb. by apply list_elem_of_In, elem_of_map_to_list.
Qed.

Definition w0 : world := world_new [1] [2].
Definition w3 : world := @step toy_kem (@step toy_kem (@step toy_kem w0 true Open) true (Write 0 [7; 8; 9])) true (Finish 0).
Definition w4 : world := @step toy_kem w3 true Sweep.
Definition w4_cell : list Z := default [] (head (wire w4 true)).
Definition w5 : world := @step toy_kem w4 false (Cell w4_cell).

Lemma connection_delivers_exactly_witness :
  got (@step toy_kem w5 false (Read 0)) false 0 = [7; 8; 9].
Proof.
  assert (R4 : @reachable toy_kem [1] [2] w4).
  { unfold w4, w3. repeat (apply reach_step; [|apply smallb_small; vm_compute; reflexivity|exact I]). apply reach_new. }
  assert (R5 : @reachable toy_kem [1] [2] w5).
  { apply reach_step; [exact R4|apply smallb_small; vm_compute; reflexivity|]. left. cbn [negb]. unfold w4_cell.
    destruct (wire w4 true) as [|x l] eqn:E; [vm_compute in E; discriminate E|]. by left. }
  destruct (@connection_delivers_exactly toy_kem toy_kem_laws [1] [2] w5 true 0 R5 ltac:(apply smallb_small; vm_compute; reflexivity)) as (_ & Hf & _).
  etransitivity; [apply Hf; vm_compute; reflexivity|]. vm_compute. reflexivity.
Defined.

(** The responder after the initiator's second stream has come and gone, and the first one's cells have not come. *)
Definition w_done : Conn.Duplex :=
  Conn.mk_duplex (on_ack (snd (Stream.outbound (Stream.finish (Stream.open 2)))) (mk_ack 1 0 64)) (snd (on_segment (receiver_new 2) (mk_seg 2 0 true []))).
Definition w_late : Conn.Connection := Conn.set_streams {[2 := w_done]} (Conn.conn_new [2] [1] false).

Lemma retiring_shuts_out_older_witness :
  Conn.is_stream_done w_late 2 = true /\ Conn.streams (fold_left (@act toy_kem) (map Cell [w4_cell]) (snd (Conn.retire_stream w_late 2))) !! (0 : Z) = @None Conn.Duplex /\ is_Some (Conn.streams (@Conn.on_cell toy_kem w_late w4_cell) !! (0 : Z)).
Proof.
  split; [vm_compute; reflexivity|]. split; [|vm_compute; by eexists].
  apply (@retiring_shuts_out_older toy_kem w_late 0 2 [w4_cell]); try (vm_compute; reflexivity); lia.
Defined.

End ConnWorld.
