(* ===== verification/Handshake.v ===== *)
(** * The handshake and the session it opens

    [fanos-diaulos/src/handshake.rs] and [session.rs]: one round trip between a client that knows a service's static key and the
    service.  The client encapsulates to the static key, the service to the client's ephemeral one, and both secrets
    with the transcript give the two keys of a connection. *)
From S2P Require Import Prelude Codec Sig Kem Wire Stream Cells Conn.
Local Open Scope Z_scope.

Module Handshake.

Definition DIAULOS_TH : string := "FANOS-v1/diaulos-th".
Definition DIAULOS_KEY : string := "FANOS-v1/diaulos-key".
Definition CLIENT_HELLO_LEN : nat := PUBLIC_LEN + CIPHERTEXT_LEN.
Definition SERVER_HELLO_LEN : nat := CIPHERTEXT_LEN.
Definition KEM_OFFSET_IN_BUNDLE : nat := ED25519_VK_LEN + MLDSA65_VK_LEN.

Record SessionKeys := mk_keys { key_c2s : list Z; key_s2c : list Z }.

Definition client_connection (k : SessionKeys) : Conn.Connection := Conn.conn_new (key_c2s k) (key_s2c k) true.
Definition server_connection (k : SessionKeys) : Conn.Connection := Conn.conn_new (key_s2c k) (key_c2s k) false.

Section handshake.
  Context `{Crypto} `{KemCrypto}.

Definition service_public_from_bundle (bundle : list Z) : option Kem.HybridKemPublic :=
  letO b := slice_from KEM_OFFSET_IN_BUNDLE bundle in Kem.decode b.

Definition bundle_from_kem_public (public : Kem.HybridKemPublic) : list Z := replicate KEM_OFFSET_IN_BUNDLE 0 ++ Kem.encode public.

Definition bundle_from_identity (signing : HybridVerifier) (kem : Kem.HybridKemPublic) : list Z := vk_encode signing ++ Kem.encode kem.

Record StaticKeypair := mk_static { sp_secret : Kem.HybridKemSecret; sp_public : Kem.HybridKemPublic }.

Definition static_generate (rng : SeedRng) : StaticKeypair * SeedRng :=
  let '((secret, public), rng) := Kem.generate rng in (mk_static secret public, rng).

Definition derive_keys (ss_static ss_ephemeral transcript : list Z) : SessionKeys :=
  let th := hash_labeled DIAULOS_TH transcript in
  let okm := hash_xof DIAULOS_KEY (ss_static ++ ss_ephemeral ++ th) 64 in
  mk_keys (take 32 okm) (drop 32 okm).

Record ClientHandshake := mk_client_hs { ephemeral_secret : Kem.HybridKemSecret; ss_static_of : list Z; transcript_pre : list Z }.

Definition start (service_public : Kem.HybridKemPublic) (rng : SeedRng) : option (ClientHandshake * list Z) * SeedRng :=
  let '((ephemeral_secret, ephemeral_public), rng) := Kem.generate rng in
  let '(r, rng) := Kem.encapsulate service_public rng in
  match r with
  | None => (None, rng)
  | Some (ct_static, ss_static) =>
      let hello := Kem.encode ephemeral_public ++ Kem.ct_to_bytes ct_static in
      (Some (mk_client_hs ephemeral_secret ss_static (Kem.encode service_public ++ hello), hello), rng)
  end.

Definition finish (hs : ClientHandshake) (server_hello : list Z) : option SessionKeys :=
  if negb (length server_hello =? SERVER_HELLO_LEN)%nat then None else
  letO ct_ephemeral := Kem.ct_from_bytes server_hello in
  letO ss_ephemeral := Kem.decapsulate (ephemeral_secret hs) ct_ephemeral in
  Some (derive_keys (ss_static_of hs) ss_ephemeral (transcript_pre hs ++ server_hello)).

Definition respond (keypair : StaticKeypair) (client_hello : list Z) (rng : SeedRng) : option (SessionKeys * list Z) * SeedRng :=
  if negb (length client_hello =? CLIENT_HELLO_LEN)%nat then (None, rng) else
  match (letO p := slice 0 PUBLIC_LEN client_hello in
         letO ephemeral_public := Kem.decode p in
         letO c := slice_from PUBLIC_LEN client_hello in
         letO ct_static := Kem.ct_from_bytes c in
         letO ss_static := Kem.decapsulate (sp_secret keypair) ct_static in
         Some (ephemeral_public, ss_static)) with
  | None => (None, rng)
  | Some (ephemeral_public, ss_static) =>
      let '(r, rng) := Kem.encapsulate ephemeral_public rng in
      match r with
      | None => (None, rng)
      | Some (ct_ephemeral, ss_ephemeral) =>
          let server_hello := Kem.ct_to_bytes ct_ephemeral in
          let transcript := Kem.encode (sp_public keypair) ++ client_hello ++ server_hello in
          (Some (derive_keys ss_static ss_ephemeral transcript, server_hello), rng)
      end
  end.

(** ** Sessions *)

Record PendingDial := mk_pending { handshake : option ClientHandshake }.
Record Dialed := mk_dialed { d_conn : Conn.Connection; d_primary : Z }.

Definition dial (service_public : Kem.HybridKemPublic) (rng : SeedRng) : (PendingDial * list Z) * SeedRng :=
  let '(r, rng) := start service_public rng in
  match r with
  | Some (hs, hello) => ((mk_pending (Some hs), hello), rng)
  | None => ((mk_pending None, []), rng)
  end.

Definition dial_bundle (bundle : list Z) (rng : SeedRng) : option (PendingDial * list Z) * SeedRng :=
  match service_public_from_bundle bundle with
  | None => (None, rng)
  | Some p => let '(r, rng) := dial p rng in (Some r, rng)
  end.

Definition establish (p : PendingDial) (server_hello : list Z) : option Dialed :=
  letO hs := handshake p in
  letO keys := finish hs server_hello in
  match Conn.open_stream (client_connection keys) with
  | (Some primary, conn) => Some (mk_dialed conn primary)
  | (None, _) => None
  end.

Definition accept (keypair : StaticKeypair) (client_hello : list Z) (rng : SeedRng) : option (Conn.Connection * list Z) * SeedRng :=
  let '(r, rng) := respond keypair client_hello rng in
  match r with
  | None => (None, rng)
  | Some (keys, server_hello) => (Some (server_connection keys, server_hello), rng)
  end.

(** ** Agreement *)

  Context `{!KemLaws} `{!CryptoLaws}.

(** A key pair that [static_generate] made. *)
Definition genuine (k : StaticKeypair) : Prop := Kem.pair (sp_secret k) (sp_public k).

Lemma bundle_roundtrip p : service_public_from_bundle (bundle_from_kem_public p) = Some p.
Proof. unfold service_public_from_bundle, bundle_from_kem_public. rewrite slice_from_app by apply length_replicate. apply Kem.ek_decode_encode. Qed.

Lemma identity_roundtrip v p : service_public_from_bundle (bundle_from_identity v p) = Some p.
Proof.
  unfold service_public_from_bundle, bundle_from_identity. rewrite slice_from_app; [apply Kem.ek_decode_encode|].
  unfold vk_encode. by rewrite length_app, ed_vk_length, ml_vk_length.
Qed.

Lemma length_kem_key p : length (Kem.encode p) = PUBLIC_LEN.
Proof. unfold Kem.encode. by rewrite length_app, x_public_length, ml_ek_length. Qed.

(** What a successful start fixes. *)
Lemma start_spec p r hs hello r' : start p r = (Some (hs, hello), r') ->
  exists es ep ct ss r1, Kem.pair es ep /\ Kem.encapsulate p r1 = (Some (ct, ss), r') /\
    hello = Kem.encode ep ++ Kem.ct_to_bytes ct /\ hs = mk_client_hs es ss (Kem.encode p ++ hello).
Proof.
  unfold start. destruct (Kem.generate r) as [[es ep] r1] eqn:Eg. destruct (Kem.encapsulate p r1) as [[[ct ss]|] r2] eqn:Ee; intros E; [|done].
  injection E as <- <- <-. exists es, ep, ct, ss, r1. repeat split; [|done]. exists r. by rewrite Eg.
Qed.

(** The service reads from an honest hello what the client put into it. *)
Lemma respond_honest k r hs hello r' q : genuine k -> start (sp_public k) r = (Some (hs, hello), r') ->
  exists ep, Kem.pair (ephemeral_secret hs) ep /\
  respond k hello q = (match fst (Kem.encapsulate ep q) with
    | None => None
    | Some (ct, ss) => Some (derive_keys (ss_static_of hs) ss (transcript_pre hs ++ Kem.ct_to_bytes ct), Kem.ct_to_bytes ct) end, snd (Kem.encapsulate ep q)).
Proof.
  intros Hk (es & ep & ct & ss & r1 & Hp & He & -> & ->)%start_spec. exists ep. split; [done|]. destruct (Kem.decapsulate_encapsulate _ _ _ _ _ _ Hk He) as (Hd & Hb & Hl).
  unfold respond. rewrite length_app, length_kem_key, Hl. change (_ =? _)%nat with true. cbn [negb].
  rewrite slice_prefix by apply length_kem_key. cbn [mbind option_bind]. rewrite Kem.ek_decode_encode. cbn [mbind option_bind].
  rewrite slice_from_app by apply length_kem_key. cbn [mbind option_bind]. rewrite Hb. cbn [mbind option_bind]. rewrite Hd. cbn [mbind option_bind ephemeral_secret ss_static_of transcript_pre].
  destruct (Kem.encapsulate ep q) as [[[ct2 ss2]|] q']; cbn [fst snd]; [|done]. by rewrite <- !app_assoc.
Qed.

(** Both ends derive the same keys. *)
Lemma finish_honest k r hs hello r' q keys sh q' : genuine k -> start (sp_public k) r = (Some (hs, hello), r') ->
  respond k hello q = (Some (keys, sh), q') -> finish hs sh = Some keys.
Proof.
  intros Hk Hs. destruct (respond_honest k r hs hello r' q Hk Hs) as (ep & Hp & ->). destruct (Kem.encapsulate ep q) as [[[ct ss]|] q2] eqn:Ee; cbn [fst snd]; intros E; [|done].
  injection E as <- <- _. destruct (Kem.decapsulate_encapsulate _ _ _ _ _ _ Hp Ee) as (Hd & Hb & Hl). unfold finish. rewrite Hl. change (_ =? _)%nat with true. cbn [negb].
  rewrite Hb. cbn [mbind option_bind]. by rewrite Hd.
Qed.

(** A refused hello of either kind has the wrong length, does not parse, or contributes nothing. *)
Lemma short_hello_refused k hello q : length hello <> CLIENT_HELLO_LEN -> respond k hello q = (None, q).
Proof. intros Hl. unfold respond. apply Nat.eqb_neq in Hl. by rewrite Hl. Qed.

Lemma establish_keys p sh d : establish p sh = Some d -> exists hs keys, handshake p = Some hs /\ finish hs sh = Some keys /\
  d = mk_dialed (snd (Conn.open_stream (client_connection keys))) 0.
Proof.
  unfold establish. destruct (handshake p) as [hs|]; [|done]. cbn [mbind option_bind]. destruct (finish hs sh) as [keys|] eqn:Ef; [|done]. cbn [mbind option_bind].
  change (Conn.open_stream (client_connection keys)) with (Some 0, snd (Conn.open_stream (client_connection keys))). intros E.
  apply (inj Some) in E. by exists hs, keys.
Qed.

End handshake.
End Handshake.
