(* ===== verification/Overlay.v ===== *)
(** * Sessions over datagrams

    [fanos-diaulos/src/overlay.rs]: the client and the service half of a session, whose hellos and cells travel as tagged payloads.
    The client repeats its hello with a growing gap until one comes back; the service accepts one dial, keeps its
    hello and repeats it. *)
From S2P Require Import Prelude Element Codec Sig Kem Wire Stream Cells Conn Handshake.
Local Open Scope Z_scope.

Module Overlay.

Definition Coord : Type := Triple.

(** [Command::Send], the one command a session gives. *)
Record Send := mk_send { to : Coord; payload : list Z }.

Inductive Ingest := Folded | Unframed | OutOfState | HandshakeRefused | WrongSender.
Definition Ingest_ALL : list Ingest := [Folded; Unframed; OutOfState; HandshakeRefused; WrongSender].

Definition is_drop (i : Ingest) : bool := match i with Folded => false | _ => true end.
Definition index (i : Ingest) : nat := match i with Folded => 0 | Unframed => 1 | OutOfState => 2 | HandshakeRefused => 3 | WrongSender => 4 end.

Definition TAG_HELLO : Z := 0x01.
Definition TAG_CELL : Z := 0x02.

Definition framed (tag : Z) (body : list Z) : list Z := tag :: body.
Definition unframe (payload : list Z) : option (Z * list Z) := match payload with [] => None | tag :: rest => Some (tag, rest) end.

Definition MAX_HELLO_RESEND_GAP : Z := 32.

(** The tally has one counter per class. *)
Definition tally_at (drops : list Z) (i : Ingest) : list Z := alter (fun n => sat_add 32 n 1) (index i) drops.

Section sessions.
  Context `{Crypto} `{KemCrypto}.

(** ** The client *)

Inductive ClientState :=
| Handshaking (pending : Handshake.PendingDial) (hello : list Z) (polls_until_resend resend_gap : Z)
| Live (dialed : Handshake.Dialed)
| Failed.

Record ClientSession := mk_client { service : Coord; state : ClientState; c_drops : list Z }.

Definition set_state (c : ClientSession) (s : ClientState) : ClientSession := mk_client (service c) s (c_drops c).
Definition set_conn (d : Handshake.Dialed) (conn : Conn.Connection) : ClientState := Live (Handshake.mk_dialed conn (Handshake.d_primary d)).

Definition dial (service : Coord) (service_public : Kem.HybridKemPublic) (rng : SeedRng) : ClientSession * SeedRng :=
  let '((pending, hello), rng) := Handshake.dial service_public rng in
  (mk_client service (Handshaking pending hello 0 1) (replicate (length Ingest_ALL) 0), rng).

Definition dial_bundle (service : Coord) (bundle : list Z) (rng : SeedRng) : option ClientSession * SeedRng :=
  let '(r, rng) := Handshake.dial_bundle bundle rng in
  match r with
  | None => (None, rng)
  | Some (pending, hello) => (Some (mk_client service (Handshaking pending hello 0 1) (replicate (length Ingest_ALL) 0)), rng)
  end.

Definition poll_payloads (c : ClientSession) : list (list Z) * ClientSession :=
  match state c with
  | Handshaking pending hello polls gap =>
      if 0 <? polls then ([], set_state c (Handshaking pending hello (polls - 1) gap)) else
      ([framed TAG_HELLO hello], set_state c (Handshaking pending hello gap (Z.min (sat_mul 32 gap 2) MAX_HELLO_RESEND_GAP)))
  | Live d => let '(cells, conn) := Conn.outbound (Handshake.d_conn d) in (framed TAG_CELL <$> cells, set_state c (set_conn d conn))
  | Failed => ([], c)
  end.

Definition poll_new (c : ClientSession) : list (list Z) * ClientSession :=
  match state c with
  | Live d => let '(cells, conn) := Conn.outbound_new (Handshake.d_conn d) in (framed TAG_CELL <$> cells, set_state c (set_conn d conn))
  | Handshaking _ _ _ _ | Failed => ([], c)
  end.

Definition poll_transmit (c : ClientSession) : list Send * ClientSession :=
  let '(ps, c') := poll_payloads c in (mk_send (service c) <$> ps, c').

Definition ingest (c : ClientSession) (payload : list Z) : Ingest * ClientSession :=
  match unframe payload with
  | None => (Unframed, c)
  | Some (tag, body) =>
      match state c with
      | Handshaking pending _ _ _ =>
          if tag =? TAG_HELLO then
            match Handshake.establish pending body with
            | Some dialed => (Folded, set_state c (Live dialed))
            | None => (HandshakeRefused, set_state c Failed)
            end
          else (OutOfState, c)
      | Live d => if tag =? TAG_CELL then (Folded, set_state c (set_conn d (Conn.on_cell (Handshake.d_conn d) body))) else (OutOfState, c)
      | Failed => (OutOfState, c)
      end
  end.

Definition tally (c : ClientSession) (i : Ingest) : Ingest * ClientSession := (i, mk_client (service c) (state c) (tally_at (c_drops c) i)).

Definition handle_payload (c : ClientSession) (payload : list Z) : Ingest * ClientSession :=
  let '(i, c) := ingest c payload in tally c i.

Definition ingest_drops (c : ClientSession) : list Z := c_drops c.

Definition handle_delivery (c : ClientSession) (from : Coord) (payload : list Z) : Ingest * ClientSession :=
  if bool_decide (from = service c) then handle_payload c payload else tally c WrongSender.

Definition with_primary (c : ClientSession) (f : Conn.Connection -> Z -> Conn.Connection) : ClientSession :=
  match state c with Live d => set_state c (set_conn d (f (Handshake.d_conn d) (Handshake.d_primary d))) | _ => c end.
Definition write (c : ClientSession) (bytes : list Z) : ClientSession := with_primary c (fun conn id => Conn.write conn id bytes).
Definition flush (c : ClientSession) : ClientSession := with_primary c Conn.flush.
Definition finish (c : ClientSession) : ClientSession := with_primary c Conn.finish.

Definition read (c : ClientSession) : list Z * ClientSession :=
  match state c with
  | Live d => let '(out, conn) := Conn.read (Handshake.d_conn d) (Handshake.d_primary d) in (out, set_state c (set_conn d conn))
  | _ => ([], c)
  end.

Definition peer (c : ClientSession) : Coord := service c.
Definition is_live (c : ClientSession) : bool := match state c with Live _ => true | _ => false end.
Definition is_done (c : ClientSession) : bool :=
  match state c with Live d => Conn.is_stream_done (Handshake.d_conn d) (Handshake.d_primary d) | _ => false end.
Definition receiver_finished (c : ClientSession) : bool :=
  match state c with Live d => Conn.receiver_finished (Handshake.d_conn d) (Handshake.d_primary d) | _ => false end.
Definition stalled_attempts (c : ClientSession) : Z :=
  match state c with Live d => Conn.conn_stalled_attempts (Handshake.d_conn d) | _ => 0 end.

(** ** The service *)

Record ServerSession := mk_server {
  client : option Coord;
  conn : option Conn.Connection;
  server_hello : option (list Z);
  resend_hello : bool;
  primary : option Z;
  s_drops : list Z;
}.

Definition server_new : ServerSession := mk_server None None None false None (replicate (length Ingest_ALL) 0).

(** The hello that is due, and the cells of a poll. *)
Definition s_poll (poll : Conn.Connection -> list (list Z) * Conn.Connection) (s : ServerSession) : list (list Z) * ServerSession :=
  let out := if resend_hello s then match server_hello s with Some hello => [framed TAG_HELLO hello] | None => [] end else [] in
  match conn s with
  | Some c => let '(cells, c) := poll c in
      (out ++ (framed TAG_CELL <$> cells), mk_server (client s) (Some c) (server_hello s) false (primary s) (s_drops s))
  | None => (out, mk_server (client s) None (server_hello s) false (primary s) (s_drops s))
  end.

Definition s_poll_payloads : ServerSession -> list (list Z) * ServerSession := s_poll Conn.outbound.
Definition s_poll_new : ServerSession -> list (list Z) * ServerSession := s_poll Conn.outbound_new.

Definition s_poll_transmit (s : ServerSession) : list Send * ServerSession :=
  match client s with
  | Some c => let '(ps, s) := s_poll_payloads s in (mk_send c <$> ps, s)
  | None => ([], s)
  end.

Definition s_ingest (s : ServerSession) (keypair : Handshake.StaticKeypair) (payload : list Z) (rng : SeedRng) : Ingest * ServerSession * SeedRng :=
  match unframe payload with
  | None => (Unframed, s, rng)
  | Some (tag, body) =>
      if tag =? TAG_HELLO then
        let '(s, rng) :=
          match conn s with
          | Some _ => (s, rng)
          | None =>
              let '(r, rng) := Handshake.accept keypair body rng in
              match r with
              | Some (c, hello) => (mk_server (client s) (Some c) (Some hello) (resend_hello s) (primary s) (s_drops s), rng)
              | None => (s, rng)
              end
          end in
        if bool_decide (is_Some (server_hello s)) then (Folded, mk_server (client s) (conn s) (server_hello s) true (primary s) (s_drops s), rng)
        else (HandshakeRefused, s, rng)
      else if tag =? TAG_CELL then
        match conn s with
        | Some c =>
            let c := Conn.on_cell c body in
            let '(p, c) := match primary s with None => Conn.accept c | Some p => (Some p, c) end in
            (Folded, mk_server (client s) (Some c) (server_hello s) (resend_hello s) p (s_drops s), rng)
        | None => (OutOfState, s, rng)
        end
      else (OutOfState, s, rng)
  end.

Definition s_tally (s : ServerSession) (i : Ingest) : Ingest * ServerSession :=
  (i, mk_server (client s) (conn s) (server_hello s) (resend_hello s) (primary s) (tally_at (s_drops s) i)).

Definition s_handle_payload (s : ServerSession) (keypair : Handshake.StaticKeypair) (payload : list Z) (rng : SeedRng) : Ingest * ServerSession * SeedRng :=
  let '(i, s, rng) := s_ingest s keypair payload rng in (s_tally s i, rng).

Definition s_ingest_drops (s : ServerSession) : list Z := s_drops s.

Definition s_handle_delivery (s : ServerSession) (keypair : Handshake.StaticKeypair) (from : Coord) (payload : list Z) (rng : SeedRng) :
    Ingest * ServerSession * SeedRng :=
  if match client s with Some c => negb (bool_decide (from = c)) | None => false end then (s_tally s WrongSender, rng) else
  let '(i, s, rng) := s_handle_payload s keypair payload rng in
  let s := match client s, conn s with
    | None, Some _ => mk_server (Some from) (conn s) (server_hello s) (resend_hello s) (primary s) (s_drops s)
    | _, _ => s
    end in
  (i, s, rng).

Definition with_conn (s : ServerSession) (f : Conn.Connection -> Conn.Connection) : ServerSession :=
  mk_server (client s) (f <$> conn s) (server_hello s) (resend_hello s) (primary s) (s_drops s).
Definition s_write (s : ServerSession) (id : Z) (bytes : list Z) : ServerSession := with_conn s (fun c => Conn.write c id bytes).
Definition s_flush (s : ServerSession) (id : Z) : ServerSession := with_conn s (fun c => Conn.flush c id).
Definition s_finish (s : ServerSession) (id : Z) : ServerSession := with_conn s (fun c => Conn.finish c id).

Definition s_read (s : ServerSession) (id : Z) : list Z * ServerSession :=
  match conn s with
  | Some c => let '(out, c) := Conn.read c id in (out, with_conn s (fun _ => c))
  | None => ([], s)
  end.

Definition s_receiver_finished (s : ServerSession) (id : Z) : bool := match conn s with Some c => Conn.receiver_finished c id | None => false end.
Definition s_is_stream_done (s : ServerSession) (id : Z) : bool := match conn s with Some c => Conn.is_stream_done c id | None => false end.
Definition s_stalled_attempts (s : ServerSession) : Z := match conn s with Some c => Conn.conn_stalled_attempts c | None => 0 end.

End sessions.
End Overlay.
