(* ===== verification/SessionWorld.v ===== *)
(** * A session from dial to last byte

    The two halves of [Overlay.v] on a network that loses, repeats and reorders payloads and makes up cells, but no hellos.  The
    hellos give both halves the keys of one connection, and from then on the session is a run of the two
    connections of [ConnWorld.v]. *)
From S2P Require Import Prelude Element Codec Sig Kem Wire Stream StreamWorld Cells Conn ConnWorld Handshake Overlay.
Local Open Scope Z_scope.

Module SessionWorld.
Import Overlay.

Section world.
  Context `{Crypto} `{KemCrypto}.

(** Both halves, the payloads each sent, and what each application wrote and read. *)
Record net := mk_net {
  cl : ClientSession;
  sv : ServerSession;
  up : list (list Z);
  down : list (list Z);
  wrote : bool -> Z -> list Z;
  got : bool -> Z -> list Z;
}.

Inductive event :=
| CPoll | CPollNew | CDeliver (from : Coord) (p : list Z) | CWrite (bytes : list Z) | CFlush | CFinish | CRead
| SPoll | SPollNew | SDeliver (from : Coord) (p : list Z) (rng : SeedRng) | SWrite (id : Z) (bytes : list Z) | SFlush (id : Z) | SFinish (id : Z) | SRead (id : Z).

Definition net_new (k : Handshake.StaticKeypair) (service : Coord) (rng : SeedRng) : net :=
  mk_net (fst (dial service (Handshake.sp_public k) rng)) server_new [] [] (fun _ _ => []) (fun _ _ => []).

Definition set_cl (n : net) (c : ClientSession) : net := mk_net c (sv n) (up n) (down n) (wrote n) (got n).
Definition set_sv (n : net) (s : ServerSession) : net := mk_net (cl n) s (up n) (down n) (wrote n) (got n).
Definition send_up (n : net) (r : list (list Z) * ClientSession) : net := mk_net (snd r) (sv n) (up n ++ fst r) (down n) (wrote n) (got n).
Definition send_down (n : net) (r : list (list Z) * ServerSession) : net := mk_net (cl n) (snd r) (up n) (down n ++ fst r) (wrote n) (got n).

(** What an application's write adds to the log of its stream. *)
Definition logged (o : option Conn.Connection) (id : Z) (bytes : list Z) : list Z :=
  match o with Some c => if ConnWorld.accepts c id then bytes else [] | None => [] end.

Definition client_conn (n : net) : option Conn.Connection := match state (cl n) with Live d => Some (Handshake.d_conn d) | _ => None end.

Definition sstep (k : Handshake.StaticKeypair) (n : net) (e : event) : net :=
  match e with
  | CPoll => send_up n (poll_payloads (cl n))
  | CPollNew => send_up n (poll_new (cl n))
  | CDeliver from p => set_cl n (snd (handle_delivery (cl n) from p))
  | CWrite bytes => mk_net (write (cl n) bytes) (sv n) (up n) (down n) (ConnWorld.log (wrote n) true 0 (logged (client_conn n) 0 bytes)) (got n)
  | CFlush => set_cl n (flush (cl n))
  | CFinish => set_cl n (finish (cl n))
  | CRead => mk_net (snd (read (cl n))) (sv n) (up n) (down n) (wrote n) (ConnWorld.log (got n) true 0 (fst (read (cl n))))
  | SPoll => send_down n (s_poll_payloads (sv n))
  | SPollNew => send_down n (s_poll_new (sv n))
  | SDeliver from p rng => set_sv n (snd (fst (s_handle_delivery (sv n) k from p rng)))
  | SWrite id bytes => mk_net (cl n) (s_write (sv n) id bytes) (up n) (down n) (ConnWorld.log (wrote n) false id (logged (conn (sv n)) id bytes)) (got n)
  | SFlush id => set_sv n (s_flush (sv n) id)
  | SFinish id => set_sv n (s_finish (sv n) id)
  | SRead id => mk_net (cl n) (snd (s_read (sv n) id)) (up n) (down n) (wrote n) (ConnWorld.log (got n) false id (fst (s_read (sv n) id)))
  end.

(** The network repeats what was sent; what it makes up is no hello and does not open. *)
Definition harmless (sent : list (list Z)) (o : option Conn.Connection) (p : list Z) : Prop :=
  p ∈ sent \/ (match p with [] => True | tag :: body => tag <> TAG_HELLO /\ forall c, o = Some c -> Cells.open (Conn.key_rx c) body = None end).

Definition allowed (n : net) (e : event) : Prop :=
  match e with
  | CDeliver from p => harmless (down n) (client_conn n) p \/ from <> service (cl n)
  | SDeliver from p _ => harmless (up n) (conn (sv n)) p
  | _ => True
  end.

Definition small_conn (o : option Conn.Connection) : Prop :=
  forall c id d, o = Some c -> Conn.streams c !! id = Some d -> Stream.total (Conn.sender d) < 2 ^ 32 - Stream.SACK_WIDTH.
Definition small_net (n : net) : Prop := small_conn (client_conn n) /\ small_conn (conn (sv n)).

Inductive sreach (k : Handshake.StaticKeypair) (at_ : Coord) (rng : SeedRng) : net -> Prop :=
| sreach_new : sreach k at_ rng (net_new k at_ rng)
| sreach_step n e : sreach k at_ rng n -> small_net n -> allowed n e -> sreach k at_ rng (sstep k n e).

(** ** The stages of a session *)

Record opened (pd : Handshake.PendingDial) (hello : list Z) (n : net) (keys : Handshake.SessionKeys) (sh : list Z) (w : ConnWorld.world) : Prop := {
  o_server : conn (sv n) = Some (ConnWorld.conn w false);
  o_hello : server_hello (sv n) = Some sh;
  o_keys : Handshake.establish pd sh = Some (Handshake.mk_dialed (snd (Conn.open_stream (Handshake.client_connection keys))) 0);
  o_reach : ConnWorld.reachable (Handshake.key_c2s keys) (Handshake.key_s2c keys) w;
  o_wrote : forall s i, ConnWorld.wrote w s i = wrote n s i;
  o_got : forall s i, ConnWorld.got w s i = got n s i;
  o_up : forall p, p ∈ up n -> p = framed TAG_HELLO hello \/ exists x, x ∈ ConnWorld.wire w true /\ p = framed TAG_CELL x;
  o_down : forall p, p ∈ down n -> p = framed TAG_HELLO sh \/ exists x, x ∈ ConnWorld.wire w false /\ p = framed TAG_CELL x;
  o_client : (exists a b, 0 <= a <= 32 /\ 0 <= b <= 32 /\ state (cl n) = Handshaking pd hello a b /\ ConnWorld.conn w true = Handshake.client_connection keys) \/
    state (cl n) = Live (Handshake.mk_dialed (ConnWorld.conn w true) 0);
}.

Record dialing (pd : Handshake.PendingDial) (hello : list Z) (n : net) : Prop := {
  d_client : exists a b, 0 <= a <= 32 /\ 0 <= b <= 32 /\ state (cl n) = Handshaking pd hello a b;
  d_server : conn (sv n) = None /\ server_hello (sv n) = None;
  d_up : forall p, p ∈ up n -> p = framed TAG_HELLO hello;
  d_down : down n = [];
  d_logs : forall s i, wrote n s i = [] /\ got n s i = [];
}.

Definition stage (pd : Handshake.PendingDial) (hello : list Z) (n : net) : Prop :=
  dialing pd hello n \/ exists keys sh w, opened pd hello n keys sh w.

(** ** Reads and acknowledgements keep streams small *)

Lemma reclaim_total segs : forall base acked, 0 <= base -> let '(segs', base') := Stream.reclaim segs base acked in
  sat_add 32 base' (Stream.u32_len segs') <= sat_add 32 base (Stream.u32_len segs).
Proof.
  induction segs as [|g segs IH]; intros base acked Hb; cbn [Stream.reclaim]; [done|]. destruct (base <? acked); [|done]. specialize (IH (sat_add 32 base 1) acked ltac:(unfold sat_add; lia)).
  destruct (Stream.reclaim _ _ _) as [segs' base']. etrans; [exact IH|]. unfold sat_add, Stream.u32_len. cbn [length]. lia.
Qed.

Lemma on_ack_total s a : 0 <= Stream.base s -> Stream.total (Stream.on_ack s a) <= Stream.total s.
Proof.
  intros Hb. unfold Stream.on_ack. destruct (Stream.count_dup s a) as [[da lc] dup]. destruct (Stream.close_gap _ _ _) as [ack2 sk].
  pose proof (reclaim_total (Stream.segments s) (Stream.base s) ack2 Hb) as Hr. destruct (Stream.reclaim _ _ _) as [segs b]. exact Hr.
Qed.

Lemma small_some (o : option Conn.Connection) c : o = Some c -> small_conn o <-> small_conn (Some c).
Proof. by intros ->. Qed.

Lemma with_stream_small c id f : small_conn (Some c) -> (forall d, Conn.streams c !! id = Some d -> Stream.total (Conn.sender (f d)) <= Stream.total (Conn.sender d)) ->
  small_conn (Some (Conn.with_stream c id f)).
Proof.
  intros Hs Hf c' i d E. apply (inj Some) in E. subst c'. unfold Conn.with_stream. destruct (Conn.streams c !! id) as [x|] eqn:Ex; [|by apply (Hs c)].
  cbn [Conn.set_streams Conn.streams]. intros [[<- <-]|[_ Hd]]%lookup_insert_Some; [|by apply (Hs c i)]. specialize (Hs c id x eq_refl Ex). specialize (Hf x eq_refl). lia.
Qed.

Lemma on_cell_small c cell : small_conn (Some c) -> (forall id d, Conn.streams c !! id = Some d -> 0 <= Stream.base (Conn.sender d)) -> small_conn (Some (Conn.on_cell c cell)).
Proof.
  intros Hs Hb. unfold Conn.on_cell. destruct (Cells.open _ _) as [b|]; [|done]. destruct (Cells.decode_frame b) as [[g|i a| |i]|]; cbn [Conn.on_frame]; try done.
  - cbv zeta. apply with_stream_small; [|done]. case_bool_decide; [done|]. destruct (_ && _); [|done]. intros c' j d E. apply (inj Some) in E. subst c'.
    cbn [Conn.set_queue Conn.set_streams Conn.streams]. intros [[_ <-]|[_ Hd]]%lookup_insert_Some; [done|by apply (Hs c j)].
  - apply with_stream_small; [done|]. intros d Hd. by apply on_ack_total, (Hb i).
  - unfold Conn.drop_stream. set (c1 := Conn.set_queue _ _). intros c' j d E. apply (inj Some) in E. subst c'. destruct (Conn.close_id_fields c1 i) as (-> & _).
    cbn [c1 Conn.set_queue Conn.set_streams Conn.streams]. intros [_ Hd]%lookup_delete_Some. by apply (Hs c j).
Qed.

Lemma tally_state c i : state (snd (tally c i)) = state c.
Proof. done. Qed.

  Context `{!KemLaws}.

Lemma reachable_base k1 k2 w s id d : ConnWorld.reachable k1 k2 w -> Conn.streams (ConnWorld.conn w s) !! id = Some d -> 0 <= Stream.base (Conn.sender d).
Proof.
  intros [sh HJ]%ConnWorld.reachable_J Hd. destruct (ConnWorld.j_live w sh HJ s id d Hd) as (W & _ & HW & _ & <- & _). destruct (ConnWorld.j_inv w sh HJ s id W HW) as (HI & _).
  rewrite (StreamWorld.i_base W HI). pose proof (StreamWorld.i_order W HI). lia.
Qed.

Section simulation.
  Context (pd : Handshake.PendingDial) (hello : list Z) (k : Handshake.StaticKeypair).

Lemma opened_small n keys sh w : opened pd hello n keys sh w -> small_net n -> ConnWorld.small w.
Proof.
  intros Ho [Hc Hs] s id d Hd. destruct s; [|exact (Hs _ id d (o_server _ _ _ _ _ _ Ho) Hd)].
  destruct (o_client _ _ _ _ _ _ Ho) as [(a & b & _ & _ & _ & E)|E]; [rewrite E in Hd; cbn [Handshake.client_connection Conn.conn_new Conn.streams] in Hd; by rewrite lookup_empty in Hd|].
  refine (Hc _ id d _ Hd). unfold client_conn. by rewrite E.
Qed.

(** An operation of the service's connection. *)
Lemma server_moves n n' keys sh w e : opened pd hello n keys sh w -> ConnWorld.small w -> ConnWorld.allowed w false e ->
  cl n' = cl n -> up n' = up n -> (forall s i, ConnWorld.wrote (ConnWorld.step w false e) s i = wrote n' s i) -> (forall s i, ConnWorld.got (ConnWorld.step w false e) s i = got n' s i) ->
  conn (sv n') = Some (ConnWorld.act (ConnWorld.conn w false) e) -> server_hello (sv n') = Some sh ->
  (forall p, p ∈ down n' -> p ∈ down n \/ p = framed TAG_HELLO sh \/ exists x, x ∈ ConnWorld.emitted (ConnWorld.conn w false) e /\ p = framed TAG_CELL x) ->
  opened pd hello n' keys sh (ConnWorld.step w false e).
Proof.
  intros [G1 G2 G3 G4 G5 G6 G7 G8 G9] Hsm Hal Ec Eu Ew Eg Es Eh Hd. destruct (ConnWorld.step_act w false e) as (A1 & A2 & A3 & A4). cbn [negb] in A2, A4.
  split; try done; rewrite ?A1, ?A2, ?A3, ?A4, ?Ec, ?Eu; try done.
  - by apply ConnWorld.reach_step.
  - intros p [Hp|[->|(x & Hx & ->)]]%Hd; [|by left|right; exists x; split; [|done]; apply elem_of_app; by right].
    destruct (G8 p Hp) as [->|(x & Hx & ->)]; [by left|]. right. exists x. split; [|done]. apply elem_of_app. by left.
Qed.

(** An operation of the client's. *)
Lemma client_moves n n' keys sh w e : opened pd hello n keys sh w -> ConnWorld.small w -> ConnWorld.allowed w true e ->
  sv n' = sv n -> down n' = down n -> (forall s i, ConnWorld.wrote (ConnWorld.step w true e) s i = wrote n' s i) -> (forall s i, ConnWorld.got (ConnWorld.step w true e) s i = got n' s i) ->
  state (cl n') = Live (Handshake.mk_dialed (ConnWorld.act (ConnWorld.conn w true) e) 0) ->
  (forall p, p ∈ up n' -> p ∈ up n \/ exists x, x ∈ ConnWorld.emitted (ConnWorld.conn w true) e /\ p = framed TAG_CELL x) ->
  opened pd hello n' keys sh (ConnWorld.step w true e).
Proof.
  intros [G1 G2 G3 G4 G5 G6 G7 G8 G9] Hsm Hal Ec Eu Ew Eg Es Hd. destruct (ConnWorld.step_act w true e) as (A1 & A2 & A3 & A4). cbn [negb] in A2, A4.
  split; try done; rewrite ?A1, ?A2, ?A3, ?A4, ?Ec, ?Eu; try done.
  - by apply ConnWorld.reach_step.
  - intros p [Hp|(x & Hx & ->)]%Hd; [|right; exists x; split; [|done]; apply elem_of_app; by right].
    destruct (G7 p Hp) as [->|(x & Hx & ->)]; [by left|]. right. exists x. split; [|done]. apply elem_of_app. by left.
  - by right.
Qed.

(** Nothing happened to the connections. *)
Lemma opened_same n n' keys sh w : opened pd hello n keys sh w -> conn (sv n') = conn (sv n) -> server_hello (sv n') = server_hello (sv n) ->
  (forall s i, wrote n' s i = wrote n s i /\ got n' s i = got n s i) -> (forall p, p ∈ up n' -> p ∈ up n \/ p = framed TAG_HELLO hello) ->
  (forall p, p ∈ down n' -> p ∈ down n \/ p = framed TAG_HELLO sh) ->
  (state (cl n') = state (cl n) \/ (exists a b, state (cl n) = Handshaking pd hello a b) /\ exists a b, 0 <= a <= 32 /\ 0 <= b <= 32 /\ state (cl n') = Handshaking pd hello a b) ->
  opened pd hello n' keys sh w.
Proof.
  intros [G1 G2 G3 G4 G5 G6 G7 G8 G9] Ec Eh El Hu Hd Hs. split; rewrite ?Ec, ?Eh; try done.
  - intros s i. destruct (El s i) as [-> _]. done.
  - intros s i. destruct (El s i) as [_ ->]. done.
  - intros p [Hp| ->]%Hu; [by apply G7|by left].
  - intros p [Hp| ->]%Hd; [by apply G8|by left].
  - destruct Hs as [->|[(a & b & E) (a' & b' & Ha & Hb & E')]]; [done|]. left. exists a', b'. destruct G9 as [(? & ? & _ & _ & _ & Ek)|El']; [done|congruence].
Qed.

Lemma dialing_same n n' : dialing pd hello n -> conn (sv n') = conn (sv n) -> server_hello (sv n') = server_hello (sv n) ->
  (forall s i, wrote n' s i = wrote n s i /\ got n' s i = got n s i) -> (forall p, p ∈ up n' -> p ∈ up n \/ p = framed TAG_HELLO hello) -> down n' = down n ->
  (state (cl n') = state (cl n) \/ exists a b, 0 <= a <= 32 /\ 0 <= b <= 32 /\ state (cl n') = Handshaking pd hello a b) ->
  dialing pd hello n'.
Proof.
  intros [G1 G2 G3 G4 G5] Ec Eh El Hu Hd Hs. split; rewrite ?Ec, ?Eh, ?Hd; try done.
  - destruct Hs as [->|Hs]; done.
  - intros p [Hp| ->]%Hu; [by apply G3|done].
  - intros s i. destruct (El s i) as [-> ->]. apply G5.
Qed.

Lemma log_nothing f s i t j : ConnWorld.log f s i [] t j = f t j.
Proof. unfold ConnWorld.log. destruct (_ && _); [apply app_nil_r|done]. Qed.

Lemma log_ext f g s i x t j : (forall t j, f t j = g t j) -> ConnWorld.log f s i x t j = ConnWorld.log g s i x t j.
Proof. intros Hf. unfold ConnWorld.log. by rewrite Hf. Qed.

(** What a handshaking client does with a poll and with a delivery that is no hello. *)
Lemma poll_handshaking c a b : state c = Handshaking pd hello a b -> 0 <= a <= 32 -> 0 <= b <= 32 ->
  (forall p, p ∈ fst (poll_payloads c) -> p = framed TAG_HELLO hello) /\
  exists a' b', 0 <= a' <= 32 /\ 0 <= b' <= 32 /\ state (snd (poll_payloads c)) = Handshaking pd hello a' b'.
Proof.
  intros E Ha Hb. unfold poll_payloads. rewrite E. destruct (Z.ltb_spec 0 a); cbn [fst snd set_state state].
  - split; [by intros p Hp%elem_of_nil|]. exists (a - 1), b. split; [lia|done].
  - split; [by intros p ->%list_elem_of_singleton|]. exists b, (Z.min (sat_mul 32 b 2) MAX_HELLO_RESEND_GAP). split; [done|]. split; [|done]. unfold sat_mul, MAX_HELLO_RESEND_GAP. lia.
Qed.

Lemma deliver_state c from p : from = service c -> state (snd (handle_delivery c from p)) = state (snd (ingest c p)).
Proof. intros ->. unfold handle_delivery. rewrite bool_decide_true by done. unfold handle_payload. by destruct (ingest c p). Qed.

Lemma deliver_foreign c from p : from <> service c -> state (snd (handle_delivery c from p)) = state c.
Proof. intros Hf. unfold handle_delivery. by rewrite bool_decide_false. Qed.

(** The connection of a service after a payload. *)
Definition fed (c : Conn.Connection) (prim : option Z) (body : list Z) : Conn.Connection :=
  match prim with None => snd (Conn.accept (Conn.on_cell c body)) | Some _ => Conn.on_cell c body end.

Lemma s_ingest_open s c sh p q : conn s = Some c -> server_hello s = Some sh ->
  let s' := snd (fst (s_ingest s k p q)) in
  server_hello s' = Some sh /\ (conn s' = Some c \/ exists body, p = framed TAG_CELL body /\ conn s' = Some (fed c (primary s) body)).
Proof.
  intros Ec Eh. unfold s_ingest, unframe, framed, fed. destruct p as [|tag body]; [by split; [|left]|]. rewrite Ec. destruct (Z.eqb_spec tag TAG_HELLO) as [->|_].
  - rewrite Eh, bool_decide_true by done. cbn [fst snd server_hello conn]. by split; [|left].
  - destruct (Z.eqb_spec tag TAG_CELL) as [->|_]; [|by split; [|left]]. cbv zeta.
    split; [by destruct (primary s); [|destruct (Conn.accept _)]|]. right. exists body. split; [done|]. by destruct (primary s); [|destruct (Conn.accept _)].
Qed.

Lemma s_ingest_closed s p q : conn s = None -> server_hello s = None ->
  let s' := snd (fst (s_ingest s k p q)) in
  (conn s' = None /\ server_hello s' = None) \/
  exists body c sh, p = framed TAG_HELLO body /\ fst (Handshake.accept k body q) = Some (c, sh) /\ conn s' = Some c /\ server_hello s' = Some sh.
Proof.
  intros Ec Eh. unfold s_ingest, unframe, framed. destruct p as [|tag body]; [by left|]. rewrite Ec. destruct (Z.eqb_spec tag TAG_HELLO) as [->|_].
  - destruct (Handshake.accept k body q) as [[[c sh]|] q'] eqn:Ea; cbn [fst snd server_hello conn].
    + rewrite bool_decide_true by done. cbn [fst snd server_hello conn]. right. exists body, c, sh. by rewrite Ea.
    + rewrite Eh, bool_decide_false by (by intros [? ?]). by left.
  - by destruct (tag =? TAG_CELL); left.
Qed.

Lemma s_deliver s from p q : let s' := snd (fst (s_handle_delivery s k from p q)) in let i := snd (fst (s_ingest s k p q)) in
  (conn s' = conn s /\ server_hello s' = server_hello s) \/ (conn s' = conn i /\ server_hello s' = server_hello i).
Proof.
  unfold s_handle_delivery. destruct (match client s with Some _ => _ | None => _ end); [by left|]. right. unfold s_handle_payload. destruct (s_ingest s k p q) as [[i s1] q'].
  unfold s_tally. cbn [fst snd client conn]. destruct (client s1), (conn s1) eqn:E; cbn [fst snd conn server_hello]; by rewrite ?E.
Qed.

Context (r0 : SeedRng) (Hk : Handshake.genuine k) (Hdial : fst (Handshake.dial (Handshake.sp_public k) r0) = (pd, hello)).

(** The service accepts the client's hello with keys the client derives too. *)
Lemma accepted q c sh : fst (Handshake.accept k hello q) = Some (c, sh) -> exists keys, c = Handshake.server_connection keys /\
  Handshake.establish pd sh = Some (Handshake.mk_dialed (snd (Conn.open_stream (Handshake.client_connection keys))) 0).
Proof.
  intros Ha. unfold Handshake.accept in Ha. destruct (Handshake.respond k hello q) as [[[keys sh']|] q'] eqn:Er; [|done]. cbn [fst] in Ha.
  apply (inj Some) in Ha. injection Ha as <- <-. unfold Handshake.dial in Hdial. destruct (Handshake.start (Handshake.sp_public k) r0) as [[[hs h]|] r1] eqn:Es.
  - cbn [fst] in Hdial. injection Hdial as <- <-. pose proof (Handshake.finish_honest k r0 hs h r1 q keys sh' q' Hk Es Er) as Hf. exists keys. split; [done|].
    unfold Handshake.establish. cbn [Handshake.handshake mbind option_bind]. rewrite Hf. reflexivity.
  - cbn [fst] in Hdial. injection Hdial as <- <-. by rewrite Handshake.short_hello_refused in Er.
Qed.

Lemma dialing_step n e : dialing pd hello n -> allowed n e -> stage pd hello (sstep k n e).
Proof.
  intros Hd Hal. pose proof Hd as [(a & b & Ha & Hb & Ec) [Es Eh] Hup Hdn Hl].
  assert (Hcc : client_conn n = None) by (unfold client_conn; by rewrite Ec).
  destruct e; cbn [sstep allowed] in *.
  - left. destruct (poll_handshaking (cl n) a b Ec Ha Hb) as [Hp Hs]. apply (dialing_same n); cbn [send_up sv up down wrote got cl]; try done; [|by right].
    intros p [Hx|Hx]%elem_of_app; [by left|right; by apply Hp].
  - left. apply (dialing_same n); unfold send_up, poll_new; rewrite ?Ec; cbn [sv up down wrote got cl fst snd]; try done; [|by left]. intros p. rewrite app_nil_r. by left.
  - left. apply (dialing_same n); cbn [set_cl sv up down wrote got cl]; try done; [by left|left]. destruct (decide (from = service (cl n))) as [Hf|Hf]; [|by apply deliver_foreign].
    rewrite deliver_state by done. destruct Hal as [[Hin|Hno]|?]; [rewrite Hdn in Hin; by apply elem_of_nil in Hin| |done].
    unfold ingest, unframe. destruct p as [|tag body]; [done|]. destruct Hno as [Ht _]. rewrite Ec. apply Z.eqb_neq in Ht. rewrite Ht. cbn [snd]. done.
  - left. apply (dialing_same n); unfold write, with_primary; rewrite ?Ec, ?Hcc; cbn [sv up down wrote got cl logged]; try done; [|by left|by left]. intros s i. by rewrite log_nothing.
  - left. apply (dialing_same n); unfold flush, with_primary; rewrite ?Ec; try done; by left.
  - left. apply (dialing_same n); unfold finish, with_primary; rewrite ?Ec; try done; by left.
  - left. apply (dialing_same n); unfold read; rewrite ?Ec; cbn [sv up down wrote got cl fst snd]; try done; [|by left|by left]. intros s i. by rewrite log_nothing.
  - left. apply (dialing_same n); unfold send_down, s_poll_payloads, s_poll; rewrite ?Es, ?Eh; cbn [sv up down wrote got cl fst snd conn server_hello]; try done; [by left| |by left].
    destruct (resend_hello _); apply app_nil_r.
  - left. apply (dialing_same n); unfold send_down, s_poll_new, s_poll; rewrite ?Es, ?Eh; cbn [sv up down wrote got cl fst snd conn server_hello]; try done; [by left| |by left].
    destruct (resend_hello _); apply app_nil_r.
  - assert (Hsame : forall s', conn s' = None /\ server_hello s' = None -> stage pd hello (set_sv n s')).
    { intros s' [E1 E2]. left. apply (dialing_same n); cbn [set_sv sv up down wrote got cl]; rewrite ?E1, ?E2, ?Es, ?Eh; try done; by left. }
    destruct (s_deliver (sv n) from p rng) as [[E1 E2]|[E1 E2]]; [apply Hsame; by rewrite E1, E2, Es, Eh|].
    destruct (s_ingest_closed (sv n) p rng Es Eh) as [[I1 I2]|(body & c & sh & -> & Hacc & I1 & I2)]; [apply Hsame; by rewrite E1, E2|].
    assert (body = hello) as ->.
    { destruct Hal as [Hin|[Ht _]]; [|by destruct Ht]. specialize (Hup _ Hin). unfold framed in Hup. congruence. }
    destruct (accepted rng c sh Hacc) as (keys & -> & Hest). right. exists keys, sh, (ConnWorld.world_new (Handshake.key_c2s keys) (Handshake.key_s2c keys)).
    split; cbn [set_sv sv up down wrote got cl]; rewrite ?E1, ?E2, ?I1, ?I2; try done.
    + apply ConnWorld.reach_new.
    + intros s i. destruct (Hl s i) as [-> _]. done.
    + intros s i. destruct (Hl s i) as [_ ->]. done.
    + intros p Hp. left. by apply Hup.
    + rewrite Hdn. by intros p Hp%elem_of_nil.
    + left. by exists a, b.
  - left. apply (dialing_same n); unfold s_write, with_conn; rewrite ?Es; cbn [sv up down wrote got cl conn server_hello fmap option_fmap option_map logged]; rewrite ?Es; try done; [|by left|by left].
    intros s i. cbn [logged]. by rewrite log_nothing.
  - left. apply (dialing_same n); unfold s_flush, with_conn; rewrite ?Es; try done; by left.
  - left. apply (dialing_same n); unfold s_finish, with_conn; rewrite ?Es; try done; by left.
  - left. apply (dialing_same n); unfold s_read; rewrite ?Es; cbn [sv up down wrote got cl fst snd]; rewrite ?Es; try done; [|by left|by left]. intros s i. by rewrite log_nothing.
Qed.

(** The logs of a step of the connections, from the logs of the session. *)
Lemma logs_same n keys sh w s e : opened pd hello n keys sh w -> match e with ConnWorld.Write _ _ | ConnWorld.Read _ => False | _ => True end ->
  (forall t i, ConnWorld.wrote (ConnWorld.step w s e) t i = wrote n t i) /\ (forall t i, ConnWorld.got (ConnWorld.step w s e) t i = got n t i).
Proof. intros Ho He. pose proof (o_wrote _ _ _ _ _ _ Ho). pose proof (o_got _ _ _ _ _ _ Ho). by destruct e. Qed.

Definition client_event (n : net) (e : event) : option ConnWorld.event :=
  match e with
  | CPoll => Some ConnWorld.Sweep
  | CPollNew => Some ConnWorld.Poll
  | CDeliver from p => if bool_decide (from = service (cl n)) then match unframe p with Some (tag, body) => if tag =? TAG_CELL then Some (ConnWorld.Cell body) else None | None => None end else None
  | CWrite bytes => Some (ConnWorld.Write 0 bytes)
  | CFlush => Some (ConnWorld.Flush 0)
  | CFinish => Some (ConnWorld.Finish 0)
  | CRead => Some (ConnWorld.Read 0)
  | _ => None
  end.

(** A live client. *)
Lemma live_step n e keys sh w : opened pd hello n keys sh w -> state (cl n) = Live (Handshake.mk_dialed (ConnWorld.conn w true) 0) ->
  ConnWorld.small w -> allowed n e -> match e with SPoll | SPollNew | SDeliver _ _ _ | SWrite _ _ | SFlush _ | SFinish _ | SRead _ => False | _ => True end ->
  exists w', opened pd hello (sstep k n e) keys sh w'.
Proof.
  intros Ho El Hsm Hal He.
  assert (Hcc : client_conn n = Some (ConnWorld.conn w true)) by (unfold client_conn; by rewrite El).
  destruct e; try done; cbn [sstep].
  - exists (ConnWorld.step w true ConnWorld.Sweep). destruct (logs_same n keys sh w true ConnWorld.Sweep Ho I) as [L1 L2]. unfold send_up, poll_payloads. rewrite El. cbn [Handshake.d_conn].
    destruct (Conn.outbound (ConnWorld.conn w true)) as [cells c'] eqn:Eo. apply (client_moves n); cbn [sv up down wrote got cl fst snd]; try done; cbn [ConnWorld.act ConnWorld.emitted]; rewrite Eo; cbn [fst snd]; [done|].
    intros p [Hp|(x & -> & Hx)%list_elem_of_fmap]%elem_of_app; [by left|right; by exists x].
  - exists (ConnWorld.step w true ConnWorld.Poll). destruct (logs_same n keys sh w true ConnWorld.Poll Ho I) as [L1 L2]. unfold send_up, poll_new. rewrite El. cbn [Handshake.d_conn].
    destruct (Conn.outbound_new (ConnWorld.conn w true)) as [cells c'] eqn:Eo. apply (client_moves n); cbn [sv up down wrote got cl fst snd]; try done; cbn [ConnWorld.act ConnWorld.emitted]; rewrite Eo; cbn [fst snd]; [done|].
    intros p [Hp|(x & -> & Hx)%list_elem_of_fmap]%elem_of_app; [by left|right; by exists x].
  - destruct (client_event n (CDeliver from p)) as [ev|] eqn:Ev.
    + cbn [client_event] in Ev. case_bool_decide as Hf; [|done]. destruct p as [|tag body]; [done|]. cbn [unframe] in Ev. destruct (Z.eqb_spec tag TAG_CELL) as [->|]; [|done]. apply (inj Some) in Ev. subst ev.
      exists (ConnWorld.step w true (ConnWorld.Cell body)). destruct (logs_same n keys sh w true (ConnWorld.Cell body) Ho I) as [L1 L2].
      apply (client_moves n); cbn [set_cl sv up down wrote got cl]; try done; [| |by left].
      * cbn [ConnWorld.allowed negb]. destruct Hal as [[Hin|[_ Hno]]|?]; [|right; by apply Hno|done]. left.
        destruct (o_down _ _ _ _ _ _ Ho _ Hin) as [[=]|(x & Hx & E)]. unfold framed in E. by injection E as ->.
      * rewrite deliver_state by done. unfold ingest, unframe. rewrite El. done.
    + exists w. apply (opened_same n); cbn [set_cl sv up down wrote got cl]; try done; [by left|by left|left].
      destruct (decide (from = service (cl n))) as [Hf|Hf]; [|by apply deliver_foreign]. rewrite deliver_state by done. cbn [client_event] in Ev. rewrite bool_decide_true in Ev by done.
      unfold ingest. destruct (unframe p) as [[tag body]|]; [|done]. rewrite El. by destruct (tag =? TAG_CELL).
  - exists (ConnWorld.step w true (ConnWorld.Write 0 bytes)). unfold write, with_primary. rewrite El, Hcc. cbn [logged]. apply (client_moves n); try done; [|exact (o_got _ _ _ _ _ _ Ho)|by left].
    intros s i. cbn [ConnWorld.step ConnWorld.wrote wrote]. by apply log_ext, (o_wrote _ _ _ _ _ _ Ho).
  - exists (ConnWorld.step w true (ConnWorld.Flush 0)). destruct (logs_same n keys sh w true (ConnWorld.Flush 0) Ho I) as [L1 L2]. unfold flush, with_primary. rewrite El. apply (client_moves n); try done; by left.
  - exists (ConnWorld.step w true (ConnWorld.Finish 0)). destruct (logs_same n keys sh w true (ConnWorld.Finish 0) Ho I) as [L1 L2]. unfold finish, with_primary. rewrite El. apply (client_moves n); try done; by left.
  - exists (ConnWorld.step w true (ConnWorld.Read 0)). unfold read. rewrite El. cbn [Handshake.d_conn Handshake.d_primary]. destruct (Conn.read (ConnWorld.conn w true) 0) as [out c'] eqn:Er.
    apply (client_moves n); cbn [sv up down wrote got cl fst snd]; try done; [| | |by left].
    + exact (o_wrote _ _ _ _ _ _ Ho).
    + intros s i. cbn [ConnWorld.step ConnWorld.got]. rewrite Er. cbn [fst]. by apply log_ext, (o_got _ _ _ _ _ _ Ho).
    + cbn [ConnWorld.act]. by rewrite Er.
Qed.

(** A client whose hello was answered and that has not seen the answer. *)
Lemma waiting_step n e keys sh w a b : opened pd hello n keys sh w -> state (cl n) = Handshaking pd hello a b -> 0 <= a <= 32 -> 0 <= b <= 32 -> ConnWorld.conn w true = Handshake.client_connection keys ->
  ConnWorld.small w -> allowed n e -> match e with SPoll | SPollNew | SDeliver _ _ _ | SWrite _ _ | SFlush _ | SFinish _ | SRead _ => False | _ => True end ->
  exists w', opened pd hello (sstep k n e) keys sh w'.
Proof.
  intros Ho Ec Ha Hb Ek Hsm Hal He. assert (Hcc : client_conn n = None) by (unfold client_conn; by rewrite Ec).
  destruct e; try done; cbn [sstep].
  - exists w. destruct (poll_handshaking (cl n) a b Ec Ha Hb) as [Hp Hs]. apply (opened_same n); cbn [send_up sv up down wrote got cl]; try done; [|by left|right; eauto].
    intros p [Hx|Hx]%elem_of_app; [by left|right; by apply Hp].
  - exists w. apply (opened_same n); unfold send_up, poll_new; rewrite ?Ec; cbn [sv up down wrote got cl fst snd]; try done; [|by left|by left]. intros p. rewrite app_nil_r. by left.
  - destruct (decide (from = service (cl n))) as [Hf|Hf]; [|exists w; apply (opened_same n); cbn [set_cl sv up down wrote got cl]; try done; [by left|by left|left; by apply deliver_foreign]].
    destruct p as [|tag body]; [exists w; apply (opened_same n); cbn [set_cl sv up down wrote got cl]; try done; [by left|by left|left; by rewrite deliver_state]|].
    destruct (Z.eqb_spec tag TAG_HELLO) as [->|Ht].
    + assert (body = sh) as ->.
      { destruct Hal as [[Hin|[Ht _]]|?]; [|by destruct Ht|done]. destruct (o_down _ _ _ _ _ _ Ho _ Hin) as [E|(x & _ & E)]; unfold framed, TAG_HELLO, TAG_CELL in E; congruence. }
      exists (ConnWorld.step w true ConnWorld.Open). destruct (logs_same n keys sh w true ConnWorld.Open Ho I) as [L1 L2].
      apply (client_moves n); cbn [set_cl sv up down wrote got cl]; try done; [|by left]. rewrite deliver_state by done. unfold ingest, unframe. rewrite Ec. cbn [TAG_HELLO Z.eqb Pos.eqb].
      rewrite (o_keys _ _ _ _ _ _ Ho). cbn [snd set_state state ConnWorld.act]. by rewrite Ek.
    + exists w. apply (opened_same n); cbn [set_cl sv up down wrote got cl]; try done; [by left|by left|left]. rewrite deliver_state by done. unfold ingest, unframe. rewrite Ec.
      apply Z.eqb_neq in Ht. by rewrite Ht.
  - exists w. apply (opened_same n); unfold write, with_primary; rewrite ?Ec, ?Hcc; cbn [sv up down wrote got cl logged]; try done; [|by left|by left|by left]. intros s i. by rewrite log_nothing.
  - exists w. apply (opened_same n); unfold flush, with_primary; rewrite ?Ec; try done; by left.
  - exists w. apply (opened_same n); unfold finish, with_primary; rewrite ?Ec; try done; by left.
  - exists w. apply (opened_same n); unfold read; rewrite ?Ec; cbn [sv up down wrote got cl fst snd]; try done; [|by left|by left|by left]. intros s i. by rewrite log_nothing.
Qed.

Lemma fed_opened n keys sh w body n' prim : opened pd hello n keys sh w -> ConnWorld.small w -> ConnWorld.allowed w false (ConnWorld.Cell body) ->
  cl n' = cl n -> up n' = up n -> down n' = down n -> wrote n' = wrote n -> got n' = got n -> server_hello (sv n') = Some sh ->
  conn (sv n') = Some (fed (ConnWorld.conn w false) prim body) -> exists w', opened pd hello n' keys sh w'.
Proof.
  intros Ho Hsm Hal E1 E2 E3 E4 E5 E6 E7.
  set (m := mk_net (cl n) (mk_server None (Some (Conn.on_cell (ConnWorld.conn w false) body)) (Some sh) false None []) (up n) (down n) (wrote n) (got n)).
  destruct (logs_same n keys sh w false (ConnWorld.Cell body) Ho I) as [L1 L2].
  assert (Hm : opened pd hello m keys sh (ConnWorld.step w false (ConnWorld.Cell body))) by (apply (server_moves n); try done; by left).
  assert (Hms : ConnWorld.small (ConnWorld.step w false (ConnWorld.Cell body))).
  { intros s id d Hd. destruct (ConnWorld.step_act w false (ConnWorld.Cell body)) as (A1 & A2 & _). cbn [negb] in A2. destruct s; [rewrite A2 in Hd; exact (Hsm true id d Hd)|].
    rewrite A1 in Hd. cbn [ConnWorld.act] in Hd. refine (on_cell_small (ConnWorld.conn w false) body _ _ _ id d eq_refl Hd).
    - intros c i x E. apply (inj Some) in E. subst c. apply (Hsm false).
    - intros i x. exact (reachable_base _ _ w false i x (o_reach _ _ _ _ _ _ Ho)). }
  destruct prim as [x|]; cbn [fed] in E7.
  - exists (ConnWorld.step w false (ConnWorld.Cell body)). destruct Hm as [G1 G2 G3 G4 G5 G6 G7 G8 G9]. split; rewrite ?E1, ?E2, ?E3, ?E4, ?E5, ?E6, ?E7; done.
  - exists (ConnWorld.step (ConnWorld.step w false (ConnWorld.Cell body)) false ConnWorld.Accept). destruct (logs_same m keys sh _ false ConnWorld.Accept Hm I) as [M1 M2].
    apply (server_moves m); rewrite ?E1, ?E2, ?E3, ?E4, ?E5, ?E6, ?E7; try done. by left.
Qed.

(** The service, whatever the client's state. *)
Lemma service_step n e keys sh w : opened pd hello n keys sh w -> ConnWorld.small w -> allowed n e ->
  match e with SPoll | SPollNew | SDeliver _ _ _ | SWrite _ _ | SFlush _ | SFinish _ | SRead _ => True | _ => False end ->
  exists w', opened pd hello (sstep k n e) keys sh w'.
Proof.
  intros Ho Hsm Hal He. pose proof (o_server _ _ _ _ _ _ Ho) as Es. pose proof (o_hello _ _ _ _ _ _ Ho) as Eh. destruct e; try done; cbn [sstep].
  - exists (ConnWorld.step w false ConnWorld.Sweep). destruct (logs_same n keys sh w false ConnWorld.Sweep Ho I) as [L1 L2]. unfold send_down, s_poll_payloads, s_poll. rewrite Es, Eh.
    destruct (Conn.outbound (ConnWorld.conn w false)) as [cells c'] eqn:Eo. apply (server_moves n); cbn [sv up down wrote got cl fst snd conn server_hello]; try done; cbn [ConnWorld.act ConnWorld.emitted]; rewrite Eo; cbn [fst snd]; [done|].
    intros p [Hp|[Hp|(x & -> & Hx)%list_elem_of_fmap]%elem_of_app]%elem_of_app; [by left| |right; right; by exists x]. right; left. destruct (resend_hello _); [by apply list_elem_of_singleton in Hp|by apply elem_of_nil in Hp].
  - exists (ConnWorld.step w false ConnWorld.Poll). destruct (logs_same n keys sh w false ConnWorld.Poll Ho I) as [L1 L2]. unfold send_down, s_poll_new, s_poll. rewrite Es, Eh.
    destruct (Conn.outbound_new (ConnWorld.conn w false)) as [cells c'] eqn:Eo. apply (server_moves n); cbn [sv up down wrote got cl fst snd conn server_hello]; try done; cbn [ConnWorld.act ConnWorld.emitted]; rewrite Eo; cbn [fst snd]; [done|].
    intros p [Hp|[Hp|(x & -> & Hx)%list_elem_of_fmap]%elem_of_app]%elem_of_app; [by left| |right; right; by exists x]. right; left. destruct (resend_hello _); [by apply list_elem_of_singleton in Hp|by apply elem_of_nil in Hp].
  - set (s' := snd (fst (s_handle_delivery (sv n) k from p rng))).
    assert (Hsame : conn s' = conn (sv n) -> server_hello s' = server_hello (sv n) -> exists w', opened pd hello (set_sv n s') keys sh w').
    { intros I1 I2. exists w. apply (opened_same n); try done; by left. }
    destruct (s_deliver (sv n) from p rng) as [[I1 I2]|[I1 I2]]; [by apply Hsame|]. fold s' in I1, I2.
    destruct (s_ingest_open (sv n) _ sh p rng Es Eh) as [I3 [I4|(body & -> & I4)]]; [by apply Hsame; congruence|].
    apply (fed_opened n keys sh w body (set_sv n s') (primary (sv n)) Ho Hsm); cbn [set_sv sv up down wrote got cl]; try congruence.
    cbn [ConnWorld.allowed negb]. destruct Hal as [Hin|[_ Hno]]; [|right; by apply Hno]. left. destruct (o_up _ _ _ _ _ _ Ho _ Hin) as [[=]|(x & Hx & E)]. unfold framed in E. by injection E as ->.
  - exists (ConnWorld.step w false (ConnWorld.Write id bytes)). unfold s_write, with_conn. rewrite Es. cbn [logged]. apply (server_moves n); try done; [|exact (o_got _ _ _ _ _ _ Ho)|by left].
    intros s i. cbn [ConnWorld.step ConnWorld.wrote wrote]. by apply log_ext, (o_wrote _ _ _ _ _ _ Ho).
  - exists (ConnWorld.step w false (ConnWorld.Flush id)). destruct (logs_same n keys sh w false (ConnWorld.Flush id) Ho I) as [L1 L2]. unfold s_flush, with_conn. rewrite Es. apply (server_moves n); try done; by left.
  - exists (ConnWorld.step w false (ConnWorld.Finish id)). destruct (logs_same n keys sh w false (ConnWorld.Finish id) Ho I) as [L1 L2]. unfold s_finish, with_conn. rewrite Es. apply (server_moves n); try done; by left.
  - exists (ConnWorld.step w false (ConnWorld.Read id)). unfold s_read, with_conn. rewrite Es. destruct (Conn.read (ConnWorld.conn w false) id) as [out c'] eqn:Er. cbn [fst snd fmap option_fmap option_map].
    apply (server_moves n); cbn [sv up down wrote got cl conn server_hello]; try done; [| | |by left].
    + exact (o_wrote _ _ _ _ _ _ Ho).
    + intros s i. cbn [ConnWorld.step ConnWorld.got]. rewrite Er. cbn [fst]. by apply log_ext, (o_got _ _ _ _ _ _ Ho).
    + cbn [ConnWorld.act]. by rewrite Er.
Qed.

Lemma stage_step n e : stage pd hello n -> small_net n -> allowed n e -> stage pd hello (sstep k n e).
Proof.
  intros [Hd|(keys & sh & w & Ho)] Hsm Hal; [by apply dialing_step|]. right. exists keys, sh. pose proof (opened_small n keys sh w Ho Hsm) as Hw.
  destruct (o_client _ _ _ _ _ _ Ho) as [(a & b & Ha & Hb & Ec & Ek)|El]; destruct e;
    try (by apply (service_step n _ keys sh w)); try (by apply (live_step n _ keys sh w)); by apply (waiting_step n _ keys sh w a b).
Qed.

Lemma dialed_new at_ : dialing pd hello (net_new k at_ r0).
Proof.
  unfold net_new, dial. destruct (Handshake.dial (Handshake.sp_public k) r0) as [[p h] r1]. cbn [fst] in Hdial. injection Hdial as -> ->. split; cbn [cl sv up down wrote got fst state conn server_hello server_new]; try done.
  - exists 0, 1. done.
  - by intros p Hp%elem_of_nil.
Qed.

Lemma sreach_stage at_ n : sreach k at_ r0 n -> stage pd hello n.
Proof. induction 1 as [|n e _ IH Hs Ha]; [left; apply dialed_new|by apply stage_step]. Qed.

(** ** The client's hello is repeated and answered *)

Lemma polled n a b : state (cl n) = Handshaking pd hello a b -> 0 <= a -> exists a' b',
  let n' := fold_left (sstep k) (replicate (S (Z.to_nat a)) CPoll) n in
  state (cl n') = Handshaking pd hello a' b' /\ service (cl n') = service (cl n) /\ up n' = up n ++ [framed TAG_HELLO hello] /\ sv n' = sv n /\ down n' = down n.
Proof.
  remember (Z.to_nat a) as m eqn:Em. revert n a b Em. induction m as [|m IH]; intros n a b Em Es Ha.
  - cbn [replicate fold_left sstep]. unfold send_up, poll_payloads. rewrite Es. destruct (Z.ltb_spec 0 a); [lia|]. cbn [cl sv up down fst snd set_state state service]. by eexists _, _.
  - change (replicate (S (S m)) CPoll) with (CPoll :: replicate (S m) CPoll). cbn [fold_left]. destruct (IH (sstep k n CPoll) (a - 1) b) as (a' & b' & E1 & E2 & E3 & E4 & E5); [lia| |lia|].
    + cbn [sstep]. unfold send_up, poll_payloads. rewrite Es. destruct (Z.ltb_spec 0 a); [done|lia].
    + exists a', b'. cbv zeta. rewrite E1, E2, E3, E4, E5. cbn [sstep]. unfold send_up, poll_payloads. rewrite Es. destruct (Z.ltb_spec 0 a); [|lia].
      cbn [cl sv up down fst snd set_state service]. by rewrite app_nil_r.
Qed.

Lemma armed s me q : (client s = None \/ client s = Some me) -> Handshake.handshake pd <> None -> (forall es ep, Kem.pair es ep -> fst (Kem.encapsulate ep q) <> None) ->
  (conn s = None /\ server_hello s = None \/ exists c sh d, conn s = Some c /\ server_hello s = Some sh /\ Handshake.establish pd sh = Some d) ->
  let s' := snd (fst (s_handle_delivery s k me (framed TAG_HELLO hello) q)) in
  exists sh d, server_hello s' = Some sh /\ resend_hello s' = true /\ Handshake.establish pd sh = Some d.
Proof.
  intros Hc Hp Hq Hs. assert (Hi : let s' := snd (fst (s_ingest s k (framed TAG_HELLO hello) q)) in exists sh d, server_hello s' = Some sh /\ resend_hello s' = true /\ Handshake.establish pd sh = Some d).
  { unfold s_ingest, framed, unframe. cbn [TAG_HELLO Z.eqb Pos.eqb]. destruct Hs as [[E1 E2]|(c & sh & d & E1 & E2 & Ed)]; rewrite E1.
    - destruct (Handshake.accept k hello q) as [[[c sh]|] q'] eqn:Ea; cbn [server_hello].
      + rewrite bool_decide_true by done. destruct (accepted q c sh ltac:(by rewrite Ea)) as (keys & _ & He). by exists sh, (Handshake.mk_dialed (snd (Conn.open_stream (Handshake.client_connection keys))) 0).
      + exfalso. unfold Handshake.dial in Hdial. destruct (Handshake.start (Handshake.sp_public k) r0) as [[[hs h]|] r1] eqn:Est; cbn [fst] in Hdial; injection Hdial as <- <-; [|done].
        destruct (Handshake.respond_honest k r0 hs h r1 q Hk Est) as (ep & Hep & Er). unfold Handshake.accept in Ea. rewrite Er in Ea. specialize (Hq _ ep Hep).
        by destruct (fst (Kem.encapsulate ep q)) as [[ct ss]|].
    - rewrite E2, bool_decide_true by done. by exists sh, d. }
  unfold s_handle_delivery. assert (E : match client s with Some c => negb (bool_decide (me = c)) | None => false end = false).
  { destruct Hc as [->| ->]; [done|]. by rewrite bool_decide_true. }
  rewrite E. unfold s_handle_payload. destruct (s_ingest s k (framed TAG_HELLO hello) q) as [[i s1] q']. cbn [fst snd] in Hi. unfold s_tally. cbn [fst snd client conn].
  destruct (client s1), (conn s1); exact Hi.
Qed.

End simulation.

Lemma opened_crossed pd hello n keys sh w : opened pd hello n keys sh w -> forall s, Conn.key_tx (ConnWorld.conn w s) = Conn.key_rx (ConnWorld.conn w (negb s)).
Proof. intros Ho. destruct (ConnWorld.reachable_J _ _ w (o_reach _ _ _ _ _ _ Ho)) as [x HJ]. apply (ConnWorld.j_keys w x HJ). Qed.

(** C11: a session delivers.  Once a client that knows the service's key has dialled, and the network only loses, repeats and reorders payloads and makes up
    payloads that are neither hellos nor cells that open, the client's session never fails.  When it is live both ends hold the keys of one
    connection; what either application has read from a stream is a prefix of what the other wrote to it; and once the end of
    the stream is in, one more read has all of it. *)
Theorem session_delivers (k : Handshake.StaticKeypair) (at_ : Coord) (rng : SeedRng) (n : net) :
  Handshake.genuine k -> sreach k at_ rng n -> small_net n ->
  state (cl n) <> Failed /\
  (is_live (cl n) = true -> exists c c', client_conn n = Some c /\ conn (sv n) = Some c' /\ Conn.key_tx c = Conn.key_rx c' /\ Conn.key_tx c' = Conn.key_rx c) /\
  (forall id, got n false id `prefix_of` wrote n true id /\ got n true id `prefix_of` wrote n false id) /\
  (receiver_finished (cl n) = true -> got (sstep k n CRead) true 0 = wrote n false 0) /\
  (forall id, s_receiver_finished (sv n) id = true -> got (sstep k n (SRead id)) false id = wrote n true id).
Proof.
  intros Hk Hr Hsm. destruct (fst (Handshake.dial (Handshake.sp_public k) rng)) as [pd hello] eqn:Hd. destruct (sreach_stage pd hello k rng Hk Hd at_ n Hr) as [Hx|(keys & sh & w & Ho)].
  - destruct Hx as [(a & b & _ & _ & Ec) [Es _] _ _ Hl]. unfold is_live, receiver_finished, s_receiver_finished. rewrite Ec, Es. split; [done|]. split; [done|]. split; [|done].
    intros id. destruct (Hl true id) as [-> ->], (Hl false id) as [-> ->]. by split; exists [].
  - pose proof (opened_small pd hello n keys sh w Ho Hsm) as Hw. pose proof (opened_crossed _ _ _ _ _ _ Ho) as Hkeys. pose proof (o_wrote _ _ _ _ _ _ Ho) as Ew. pose proof (o_got _ _ _ _ _ _ Ho) as Eg.
    pose proof (fun s id => ConnWorld.delivers_exactly _ _ w s id (o_reach _ _ _ _ _ _ Ho) Hw) as Hdel.
    pose proof (o_server _ _ _ _ _ _ Ho) as Es. split; [destruct (o_client _ _ _ _ _ _ Ho) as [(a & b & _ & _ & -> & _)| ->]; done|]. split; [|split; [|split]].
    + intros Hlive. destruct (o_client _ _ _ _ _ _ Ho) as [(a & b & _ & _ & E & _)|E]; [unfold is_live in Hlive; by rewrite E in Hlive|].
      exists (ConnWorld.conn w true), (ConnWorld.conn w false). unfold client_conn. rewrite E, Es. split; [done|]. split; [done|]. split; [apply (Hkeys true)|apply (Hkeys false)].
    + intros id. rewrite <- !Ew, <- !Eg. split; [apply (Hdel true id)|apply (Hdel false id)].
    + destruct (o_client _ _ _ _ _ _ Ho) as [(a & b & _ & _ & E & _)|E]; unfold receiver_finished; rewrite E; [done|]. cbn [Handshake.d_conn Handshake.d_primary]. intros Hf.
      destruct (Hdel false 0) as (_ & Hall & _). specialize (Hall Hf). cbn [negb] in Hall. rewrite <- Ew, <- Hall. cbn [sstep ConnWorld.step got ConnWorld.got]. unfold read. rewrite E.
      cbn [Handshake.d_conn Handshake.d_primary]. destruct (Conn.read (ConnWorld.conn w true) 0) as [out c']. cbn [fst]. symmetry. by apply log_ext.
    + intros id. unfold s_receiver_finished. rewrite Es. intros Hf. destruct (Hdel true id) as (_ & Hall & _). specialize (Hall Hf). cbn [negb] in Hall. rewrite <- Ew, <- Hall.
      cbn [sstep ConnWorld.step got ConnWorld.got]. unfold s_read. rewrite Es. destruct (Conn.read (ConnWorld.conn w false) id) as [out c']. cbn [fst]. symmetry. by apply log_ext.
Qed.

(** C13: a dialled session opens.  However long the client has been waiting, it repeats its hello within 33 polls; when the hello reaches the service and the service's
    answer, sent at its next poll, reaches the client, the session is live, whatever was lost or repeated before. *)
Theorem session_opens (k : Handshake.StaticKeypair) (at_ me : Coord) (rng q : SeedRng) (n : net) (p : Handshake.PendingDial) (hello : list Z) (a b : Z) :
  Handshake.genuine k -> sreach k at_ rng n -> state (cl n) = Handshaking p hello a b -> Handshake.handshake p <> None ->
  (client (sv n) = None \/ client (sv n) = Some me) -> (forall es ep, Kem.pair es ep -> fst (Kem.encapsulate ep q) <> None) ->
  exists m sh, (m <= 33)%nat /\
    let n1 := fold_left (sstep k) (replicate m CPoll) n in
    let n2 := fold_left (sstep k) [SDeliver me (framed TAG_HELLO hello) q; SPoll] n1 in
    up n1 = up n ++ [framed TAG_HELLO hello] /\ framed TAG_HELLO sh ∈ down n2 /\
    is_live (cl (sstep k n2 (CDeliver (service (cl n)) (framed TAG_HELLO sh)))) = true.
Proof.
  intros Hk Hr Ec Hp Hm Hq. destruct (fst (Handshake.dial (Handshake.sp_public k) rng)) as [pd h] eqn:Hd. pose proof (sreach_stage pd h k rng Hk Hd at_ n Hr) as Hs.
  assert (Hx : (p = pd /\ hello = h /\ 0 <= a <= 32) /\ (conn (sv n) = None /\ server_hello (sv n) = None \/ exists c sh d, conn (sv n) = Some c /\ server_hello (sv n) = Some sh /\ Handshake.establish pd sh = Some d)).
  { destruct Hs as [[(a' & b' & Ha & _ & E) Hsv _ _ _]|(keys & sh & w & Ho)].
    - split; [|by left]. rewrite E in Ec. by injection Ec as -> -> <- _.
    - split; [|right; eexists _, sh, _; split; [exact (o_server _ _ _ _ _ _ Ho)|split; [exact (o_hello _ _ _ _ _ _ Ho)|exact (o_keys _ _ _ _ _ _ Ho)]]].
      destruct (o_client _ _ _ _ _ _ Ho) as [(a' & b' & Ha & _ & E & _)|E]; rewrite E in Ec; [by injection Ec as -> -> <- _|done]. }
  destruct Hx as [(-> & -> & Ha) Hsv]. destruct (polled pd h k n a b Ec ltac:(lia)) as (a' & b' & E1 & E2 & E3 & E4 & E5). cbv zeta in E1, E2, E3, E4, E5.
  destruct (armed pd h k rng Hk Hd (sv n) me q Hm Hp Hq Hsv) as (sh & d & A1 & A2 & A3). exists (S (Z.to_nat a)), sh. split; [lia|]. set (n1 := fold_left _ _ n) in *. cbv zeta. split; [done|].
  assert (Hl : is_live (snd (handle_delivery (cl n1) (service (cl n)) (framed TAG_HELLO sh))) = true).
  { unfold is_live. rewrite deliver_state by done. unfold ingest, framed, unframe. rewrite E1. cbn [TAG_HELLO Z.eqb Pos.eqb]. by rewrite A3. }
  set (s' := snd (fst (s_handle_delivery (sv n) k me (framed TAG_HELLO h) q))) in *. cbn [fold_left sstep]. rewrite E4. fold s'. unfold set_sv, send_down, s_poll_payloads, s_poll. cbn [sv cl up down wrote got]. rewrite A1, A2.
  destruct (conn s') as [c|]; [destruct (Conn.outbound c) as [cells c']|]; cbn [sv cl up down wrote got fst snd set_cl].
  - split; [rewrite E5; apply elem_of_app; right; apply elem_of_app; left; by apply list_elem_of_singleton|exact Hl].
  - split; [rewrite E5; apply elem_of_app; right; by apply list_elem_of_singleton|exact Hl].
Qed.

End world.
(** ** Witnesses *)

Definition small_connb (o : option Conn.Connection) : bool :=
  match o with Some c => forallb (fun x => Stream.total (Conn.sender (snd x)) <? 2 ^ 32 - Stream.SACK_WIDTH) (map_to_list (Conn.streams c)) | None => true end.

Lemma small_connb_small o : small_connb o = true -> small_conn o.
Proof.
  intros Hb c id d -> Hd. cbn [small_connb] in Hb. rewrite forallb_forall in Hb. specialize (Hb (id, d)). apply Z.ltb_lt, Hb. by apply list_elem_of_In, elem_of_map_to_list.
Qed.

Definition pick (l : list (list Z)) (i : nat) : list Z := default [] (l !! i).

Lemma pick_sent l i : (i < length l)%nat -> pick l i ∈ l.
Proof. intros [x Hx]%lookup_lt_is_Some. unfold pick. rewrite Hx. by eapply list_elem_of_lookup_2. Qed.

Definition w_rng : SeedRng := mk_rng [] 0.
Definition w_keys : @Handshake.StaticKeypair toy_kem := fst (@Handshake.static_generate toy_kem w_rng).
Definition w_at : Coord := (1, 0, 0).
Definition w_me : Coord := (0, 1, 0).
Definition w_step : @net toy_kem -> event -> @net toy_kem := @sstep toy_crypto toy_kem w_keys.

(** One exchange of hellos, three bytes of the client, and their arrival. *)
Definition n0 : net := @net_new toy_kem w_keys w_at w_rng.
Definition n1 : net := w_step n0 CPoll.
Definition n2 : net := w_step n1 (SDeliver w_me (pick (up n1) 0) w_rng).
Definition n3 : net := w_step n2 SPoll.
Definition n4 : net := w_step n3 (CDeliver w_at (pick (down n3) 0)).
Definition n5 : net := w_step n4 (CWrite [7; 8; 9]).
Definition n6 : net := w_step n5 CFinish.
Definition n7 : net := w_step n6 CPoll.
Definition n8 : net := w_step n7 (SDeliver w_me (pick (up n7) 1) w_rng).

Ltac w_next R := apply sreach_step; [exact R|split; apply small_connb_small; vm_compute; reflexivity|].

Lemma session_delivers_witness : is_live (cl n8) = true /\ got (w_step n8 (SRead 0)) false 0 = [7; 8; 9].
Proof.
  assert (Hk : @Handshake.genuine toy_kem w_keys) by (exists w_rng; reflexivity).
  assert (R0 : @sreach toy_crypto toy_kem w_keys w_at w_rng n0) by apply sreach_new.
  assert (R1 : @sreach toy_crypto toy_kem w_keys w_at w_rng n1) by (w_next R0; exact I).
  assert (R2 : @sreach toy_crypto toy_kem w_keys w_at w_rng n2) by (w_next R1; left; apply pick_sent; apply Nat.ltb_lt; vm_compute; reflexivity).
  assert (R3 : @sreach toy_crypto toy_kem w_keys w_at w_rng n3) by (w_next R2; exact I).
  assert (R4 : @sreach toy_crypto toy_kem w_keys w_at w_rng n4) by (w_next R3; left; left; apply pick_sent; apply Nat.ltb_lt; vm_compute; reflexivity).
  assert (R5 : @sreach toy_crypto toy_kem w_keys w_at w_rng n5) by (w_next R4; exact I).
  assert (R6 : @sreach toy_crypto toy_kem w_keys w_at w_rng n6) by (w_next R5; exact I).
  assert (R7 : @sreach toy_crypto toy_kem w_keys w_at w_rng n7) by (w_next R6; exact I).
  assert (R8 : @sreach toy_crypto toy_kem w_keys w_at w_rng n8) by (w_next R7; left; apply pick_sent; apply Nat.ltb_lt; vm_compute; reflexivity).
  split; [vm_compute; reflexivity|].
  destruct (@session_delivers toy_crypto toy_kem toy_kem_laws w_keys w_at w_rng n8 Hk R8 ltac:(split; apply small_connb_small; vm_compute; reflexivity)) as (_ & _ & _ & _ & Hr).
  etransitivity; [apply (Hr 0); vm_compute; reflexivity|]. vm_compute. reflexivity.
Defined.

Lemma session_opens_witness : exists (p : @Handshake.PendingDial toy_kem) hello m sh, state (cl n0) = Handshaking p hello 0 1 /\ (m <= 33)%nat /\
  is_live (cl (w_step (fold_left w_step [SDeliver w_me (framed TAG_HELLO hello) w_rng; SPoll] (fold_left w_step (replicate m CPoll) n0)) (CDeliver (service (cl n0)) (framed TAG_HELLO sh)))) = true.
Proof.
  destruct (fst (@Handshake.dial toy_kem (Handshake.sp_public w_keys) w_rng)) as [p hello] eqn:Ed.
  assert (Es : state (cl n0) = Handshaking p hello 0 1).
  { unfold n0, net_new, dial. cbn [cl]. destruct (@Handshake.dial toy_kem (Handshake.sp_public w_keys) w_rng) as [[p' h'] r]. cbn [fst] in Ed. by injection Ed as -> ->. }
  assert (Hp : Handshake.handshake p <> None).
  { unfold Handshake.dial in Ed. destruct (Handshake.start (Handshake.sp_public w_keys) w_rng) as [[[hs h]|] r] eqn:E; [cbn [fst] in Ed; by injection Ed as <- _|].
    apply (f_equal (fun x => bool_decide (is_Some (fst x)))) in E. vm_compute in E. discriminate E. }
  destruct (@session_opens toy_crypto toy_kem toy_kem_laws w_keys w_at w_me w_rng w_rng n0 p hello 0 1 ltac:(exists w_rng; reflexivity) (sreach_new _ _ _) Es Hp ltac:(by left)) as (m & sh & Hm & _ & _ & Hl).
  - intros es ep _. destruct (Kem.encapsulate ep w_rng) as [x r] eqn:E. unfold Kem.encapsulate in E. cbn [toy_kem x_random_from_rng x_was_contributory ml_encapsulate negb] in E. by injection E as <- _.
  - by exists p, hello, m, sh.
Defined.

End SessionWorld.
