(* ===== verification/Threshold.v ===== *)
(** * Threshold sealing

    [fanos-threshold/src/lib.rs]: a payload under a key that is shared among a committee, each
    share encapsulated to one member. *)
From S2P Require Import Prelude Codec Sig Shamir Kem.
Local Open Scope Z_scope.

Module Threshold.

Definition NONCE_LEN : nat := 12.
Definition TAG_LEN : nat := 16.
Definition SHARE_LEN : nat := 1 + 32.
Definition SEALED_SHARE_LEN : nat := CIPHERTEXT_LEN + SHARE_LEN + TAG_LEN.
Definition ONION_CMD_LEN : nat := 1 + 32 + 32.
Definition ONION_TARGET_DEPTH : nat := 3.
Definition ONION_PAYLOAD_TARGET : Z := 9662.

Inductive ThresholdError := Malformed | Aead | Sharing | KemError | TooLong | NonContributory | HolonomyFail.

Definition onion_slot_len (line_size : Z) : Z :=
  Z.of_nat (NONCE_LEN + 2 + 4 + ONION_CMD_LEN + TAG_LEN) + line_size * Z.of_nat SEALED_SHARE_LEN.

Definition onion_len (line_size : Z) : Z :=
  let slot := onion_slot_len line_size in
  Z.of_nat ONION_TARGET_DEPTH * slot + (if slot <? ONION_PAYLOAD_TARGET then ONION_PAYLOAD_TARGET else slot).

Record ThresholdSealed := mk_sealed {
  nonce : list Z;
  ciphertext : list Z;
  sealed_shares : list (list Z);
}.

#[global] Instance ThresholdSealed_eq_dec : EqDecision ThresholdSealed.
Proof. solve_decision. Defined.

Definition share_to_bytes (share : Shamir.Share) : option (list Z) :=
  if negb (length (Shamir.sy share) =? 32)%nat then None else Some (Shamir.sx share :: Shamir.sy share).

Definition share_from_bytes (bytes : list Z) : option Shamir.Share :=
  letO x := head bytes in
  letO y := slice 1 SHARE_LEN bytes in
  Some (Shamir.mk_share x y).

Definition member_count (s : ThresholdSealed) : nat := length (sealed_shares s).

Definition to_bytes (s : ThresholdSealed) : list Z :=
  nonce s ++ be_bytes 2 (Z.of_nat (length (sealed_shares s))) ++
  be_bytes 4 (Z.of_nat (length (ciphertext s))) ++ ciphertext s ++ concat (sealed_shares s).

(** [for _ in 0..members]: one fixed-width slot after another. *)
Fixpoint read_slots (bytes : list Z) (n pos : nat) : option (list (list Z)) :=
  match n with
  | O => Some []
  | S n =>
      letO slot := slice pos (pos + SEALED_SHARE_LEN) bytes in
      letO rest := read_slots bytes n (pos + SEALED_SHARE_LEN) in
      Some (slot :: rest)
  end.

Definition from_bytes (bytes : list Z) : option ThresholdSealed :=
  letO nc := slice 0 NONCE_LEN bytes in
  letO m := slice NONCE_LEN (NONCE_LEN + 2) bytes in
  letO l := slice (NONCE_LEN + 2) (NONCE_LEN + 6) bytes in
  let members := Z.to_nat (from_be m) in
  let ct_len := Z.to_nat (from_be l) in
  let pos := (NONCE_LEN + 6)%nat in
  letO ct := slice pos (pos + ct_len) bytes in
  letO slots := read_slots bytes members (pos + ct_len) in
  Some (mk_sealed nc ct slots).

Section sealing.
  Context `{Crypto} `{KemCrypto}.

Definition pad_onion (onion : list Z) (line_size : Z) : result (list Z) ThresholdError :=
  let bucket := onion_len line_size in
  if bucket <? Z.of_nat (length onion) then Err TooLong else
  let pad := blake3_xof (labeled_hasher "FANOS-v1/threshold-onion-pad" onion) 0
    (Z.to_nat bucket - length onion) in
  Ok (onion ++ pad).

Definition share_key (session : list Z) : list Z := hash_labeled "FANOS-v1/aphantos-threshold-share" session.

Definition aead_seal (key nonce pt : list Z) : result (list Z) ThresholdError :=
  ok_or (Kem.aead_seal key nonce pt) Aead.

Definition aead_open (key nonce ct : list Z) : result (list Z) ThresholdError :=
  ok_or (Kem.aead_open key nonce ct) Aead.

(** One pass of the loop of [seal]: the share of member [i], encapsulated to its key. *)
Definition seal_slot (nonce kem_seed : list Z) (ips : nat * (Kem.HybridKemPublic * Shamir.Share)) :
    result (list Z) ThresholdError :=
  let '(i, (public, share)) := ips in
  let? share_bytes := ok_or (share_to_bytes share) Sharing in
  let hop_seed := kem_seed ++ be_bytes 4 (Z.of_nat i) in
  let rng := Kem.from_seed hop_seed in
  let? (kem_ct, session) := ok_or (fst (Kem.encapsulate public rng)) NonContributory in
  let? sealed := aead_seal (share_key session) nonce share_bytes in
  Ok (Kem.ct_to_bytes kem_ct ++ sealed).

Definition map_err {A E F} (f : E -> F) (r : result A E) : result A F :=
  match r with Ok a => Ok a | Err e => Err (f e) end.

Definition seal (routing_cmd key nonce : list Z) (threshold : Z) (member_keys : list Kem.HybridKemPublic)
    (key_randomness kem_seed : list Z) : result ThresholdSealed ThresholdError :=
  let? line_size := (if (256 <=? length member_keys)%nat then Err Sharing
                     else Ok (Z.of_nat (length member_keys))) in
  let? ct := aead_seal key nonce routing_cmd in
  let? shares := map_err (fun _ => Sharing) (Shamir.split key threshold line_size key_randomness) in
  let pairs := zip member_keys shares in
  let? slots := rmapM (seal_slot nonce kem_seed) (zip (seq 0 (length pairs)) pairs) in
  Ok (mk_sealed nonce ct slots).

Definition member_share (s : ThresholdSealed) (i : nat) (member_secret : Kem.HybridKemSecret) :
    option Shamir.Share :=
  letO slot := sealed_shares s !! i in
  letO head := slice 0 CIPHERTEXT_LEN slot in
  letO kem_ct := Kem.ct_from_bytes head in
  letO session := Kem.decapsulate member_secret kem_ct in
  letO share_ct := slice_from CIPHERTEXT_LEN slot in
  match aead_open (share_key session) (nonce s) share_ct with
  | Ok share_bytes => share_from_bytes share_bytes
  | Err _ => None
  end.

Definition open (s : ThresholdSealed) (shares : list Shamir.Share) : result (list Z) ThresholdError :=
  let? key := map_err (fun _ => Sharing) (Shamir.reconstruct shares) in
  if negb (length key =? 32)%nat then Err Malformed else aead_open key (nonce s) (ciphertext s).

(** ** Lemmas *)

  Context `{!KemLaws}.

Lemma map_err_Ok {A E F} (f : E -> F) (r : result A E) a : map_err f r = Ok a <-> r = Ok a.
Proof. destruct r; simpl; split; congruence. Qed.

Lemma share_from_to share bs : share_to_bytes share = Some bs -> share_from_bytes bs = Some share.
Proof.
  unfold share_to_bytes, share_from_bytes.
  destruct (Nat.eqb_spec (length (Shamir.sy share)) 32) as [Hl|]; [|done]. intros [= <-]. cbn [head].
  pose proof (slice_mid [Shamir.sx share] (Shamir.sy share) [] 1 SHARE_LEN) as Hm.
  rewrite app_nil_r in Hm. cbn [app] in Hm. rewrite Hm; [by destruct share|done|].
  unfold SHARE_LEN. rewrite Hl. lia.
Qed.

(** The member whose key a slot was encapsulated to recovers its share from it. *)
Lemma slot_opens nc seed i p sk share slot slots ct :
  Kem.pair sk p -> seal_slot nc seed (i, (p, share)) = Ok slot -> slots !! i = Some slot ->
  member_share (mk_sealed nc ct slots) i sk = Some share.
Proof.
  intros Hp Hs Hi. unfold seal_slot in Hs.
  apply rbind_Ok in Hs as (bs & Hbs%ok_or_Ok & Hs).
  apply rbind_Ok in Hs as ([kct k] & He%ok_or_Ok & Hs).
  apply rbind_Ok in Hs as (sealed & Hsl%ok_or_Ok & [= <-]).
  destruct (Kem.encapsulate p _) as [o rng'] eqn:E. simpl in He. subst o.
  destruct (Kem.decapsulate_encapsulate _ _ _ _ _ _ Hp E) as (Hd & Hct & Hlen).
  unfold member_share. cbn [sealed_shares nonce]. rewrite Hi.
  rewrite slice_prefix by exact Hlen. rewrite Hct, Hd, slice_from_app by exact Hlen.
  unfold aead_open, Kem.aead_open. unfold aead_seal, Kem.aead_seal in Hsl.
  rewrite (chacha_roundtrip _ _ _ _ Hsl). simpl. by apply share_from_to.
Qed.

Lemma rmapM_lookup {A B E} (f : A -> result B E) l l' i a :
  rmapM f l = Ok l' -> l !! i = Some a -> exists b, f a = Ok b /\ l' !! i = Some b.
Proof.
  revert l' i. induction l as [|x l IH]; intros l' i; [done|]. cbn [rmapM].
  intros (y & Hy & (ys & Hys & [= <-])%rbind_Ok)%rbind_Ok. destruct i as [|i]; simpl.
  - intros [= <-]. eauto.
  - intros Hi. eauto.
Qed.

Lemma rmapM_length {A B E} (f : A -> result B E) l l' : rmapM f l = Ok l' -> length l' = length l.
Proof.
  revert l'. induction l as [|x l IH]; intros l'; cbn [rmapM]; [by intros [= <-]|].
  intros (y & Hy & (ys & Hys & [= <-])%rbind_Ok)%rbind_Ok. simpl. f_equal. by apply IH.
Qed.

Lemma split_length secret t n rnd shares :
  Shamir.split secret t n rnd = Ok shares -> 0 <= t -> 1 <= t <= n /\ Z.of_nat (length shares) = n /\
    (Z.to_nat (t - 1) * length secret <= length rnd)%nat.
Proof.
  unfold Shamir.split. intros Hs Ht.
  destruct ((t =? 0) || (n <? t)) eqn:E; [done|]. apply orb_false_iff in E as [E1%Z.eqb_neq E2%Z.ltb_ge].
  destruct (n =? 0); [done|]. destruct (Nat.ltb_spec (length rnd) (Z.to_nat (t - 1) * length secret)); [done|].
  apply rmapM_length in Hs. rewrite length_seqZ in Hs. lia.
Qed.

(** Every member of the committee recovers its own share of the key. *)
Lemma seal_shares cmd key nc t (publics : list Kem.HybridKemPublic) secrets rnd seed s :
  0 <= t -> Forall2 Kem.pair secrets publics -> seal cmd key nc t publics rnd seed = Ok s ->
  (length publics < 256)%nat /\ member_count s = length publics /\ nonce s = nc /\
  Kem.aead_seal key nc cmd = Some (ciphertext s) /\
  exists shares, Shamir.split key t (Z.of_nat (length publics)) rnd = Ok shares /\
    forall i sk, secrets !! i = Some sk -> is_Some (shares !! i) /\ member_share s i sk = shares !! i.
Proof.
  intros Ht Hp Hs. unfold seal in Hs. destruct (Nat.leb_spec 256 (length publics)) as [|Hn]; [done|].
  cbn [rbind] in Hs. apply rbind_Ok in Hs as (ct & Hct%ok_or_Ok & Hs).
  apply rbind_Ok in Hs as (shares & Hsh%map_err_Ok & Hs).
  apply rbind_Ok in Hs as (slots & Hsl & [= <-]).
  destruct (split_length _ _ _ _ _ Hsh Ht) as (_ & Hls & _).
  apply rmapM_length in Hsl as Hlen. rewrite length_zip_with, length_seq, Nat.min_id, length_zip_with in Hlen.
  unfold member_count. cbn [sealed_shares nonce ciphertext]. repeat split; [done|lia|done|].
  exists shares. split; [done|]. intros i sk Hsk.
  destruct (Forall2_lookup_l _ _ _ _ _ Hp Hsk) as (pk & Hpk & Hpair).
  destruct (lookup_lt_is_Some_2 shares i) as [sh Hshi]; [apply lookup_lt_Some in Hpk; lia|].
  split; [by eexists|]. rewrite Hshi.
  assert (Hz : zip (seq 0 (length (zip publics shares))) (zip publics shares) !! i = Some (i, (pk, sh))).
  { rewrite lookup_zip_with, lookup_seq_lt by (rewrite length_zip_with; apply lookup_lt_Some in Hpk; lia).
    simpl. rewrite lookup_zip_with, Hpk. simpl. by rewrite Hshi. }
  destruct (rmapM_lookup _ _ _ _ _ Hsl Hz) as (slot & Hslot & Hi).
  by eapply slot_opens.
Qed.

(** Any [t] or more distinct members recover the payload. *)
Lemma quorum_opens cmd key nc t publics secrets rnd seed s (who : list nat) :
  Forall2 Kem.pair secrets publics -> is_bytes key -> length key = 32%nat -> is_bytes rnd -> 0 <= t ->
  seal cmd key nc t publics rnd seed = Ok s ->
  base.NoDup who -> (forall i, i ∈ who -> (i < length publics)%nat) -> t <= Z.of_nat (length who) ->
  exists shares, mapM (fun i => letO sk := secrets !! i in member_share s i sk) who = Some shares /\
    open s shares = Ok cmd.
Proof.
  intros Hp Hk Hkl Hr Ht Hs Hnd Hin Hw.
  destruct (seal_shares _ _ _ _ _ _ _ _ _ Ht Hp Hs) as (Hn & Hc & Hnc & Hct & shares & Hsh & Hm).
  destruct (split_length _ _ _ _ _ Hsh Ht) as (Htn & Hls & Hrl).
  destruct (Shamir.split_selection key rnd t (Z.of_nat (length publics)))
    as (shares' & Hsh' & _ & Hshape & Hrec); [done|done|done|lia|done|].
  rewrite Hsh' in Hsh. injection Hsh as ->.
  assert (Hsh : forall i, i ∈ who -> exists sh, shares !! i = Some sh).
  { intros i Hi%Hin. apply lookup_lt_is_Some_2. lia. }
  exists ((fun i => default (Shamir.mk_share 0 []) (shares !! i)) <$> who). split.
  - apply mapM_total. intros i Hi. pose proof (Hin i Hi) as Hlt.
    destruct (lookup_lt_is_Some_2 secrets i) as [sk Hsk]; [by rewrite (Forall2_length _ _ _ Hp)|].
    rewrite Hsk. destruct (Hm i sk Hsk) as [[sh Hshi] ->]. by rewrite Hshi.
  - unfold open. rewrite (Hrec _).
    + simpl. rewrite Hkl. simpl. unfold aead_open, Kem.aead_open. rewrite Hnc.
      unfold Kem.aead_seal in Hct. by rewrite (chacha_roundtrip _ _ _ _ Hct).
    + apply NoDup_fmap_2_strong; [|done]. intros i j Hi Hj.
      destruct (Hsh i Hi) as [a Ha], (Hsh j Hj) as [b Hb]. rewrite Ha, Hb. simpl. intros ->.
      destruct (Hshape _ _ Ha) as [E1 _], (Hshape _ _ Hb) as [E2 _]. lia.
    + intros sh (i & -> & Hi)%list_elem_of_fmap. destruct (Hsh i Hi) as [a Ha]. rewrite Ha.
      by apply list_elem_of_lookup_2 in Ha.
    + by rewrite length_fmap.
Qed.

End sealing.

(** ** Claims *)

(** C25: a sealed payload opens for every quorum of its committee and returns what was sealed: any
    [t] or more distinct members, each decapsulating its own slot with its own key, recover the
    payload. *)
Theorem sealed_opens_for_any_quorum `{Crypto} `{KemLaws} cmd key nc t publics secrets rnd seed s (who : list nat) :
  Forall2 Kem.pair secrets publics -> is_bytes key -> length key = 32%nat -> is_bytes rnd -> 0 <= t ->
  seal cmd key nc t publics rnd seed = Ok s ->
  base.NoDup who -> (forall i, i ∈ who -> (i < length publics)%nat) -> t <= Z.of_nat (length who) ->
  exists shares, mapM (fun i => letO sk := secrets !! i in member_share s i sk) who = Some shares /\
    open s shares = Ok cmd.
Proof. apply quorum_opens. Qed.

(** The key pair of a committee member of the concrete instance. *)
Definition w_pair (i : nat) : @Kem.HybridKemSecret toy_kem * @Kem.HybridKemPublic toy_kem :=
  fst (@Kem.generate toy_kem (mk_rng [] i)).

Definition w_sealed : result ThresholdSealed ThresholdError :=
  @seal toy_crypto toy_kem [1; 2; 3] (replicate 32 9) (replicate 12 0) 2
    (snd <$> (w_pair <$> seq 0 3)) (replicate 32 77) [5].

Lemma sealed_opens_for_any_quorum_witness :
  match w_sealed with
  | Ok s => exists shares,
      mapM (fun i => letO sk := (fst <$> (w_pair <$> seq 0 3)) !! i in @member_share toy_crypto toy_kem s i sk)
        [2; 0]%nat = Some shares /\ @open toy_kem s shares = Ok [1; 2; 3]
  | Err _ => False
  end.
Proof.
  destruct w_sealed as [s|e] eqn:E; [|vm_compute in E; discriminate].
  apply (@sealed_opens_for_any_quorum toy_crypto toy_kem toy_kem_laws [1; 2; 3] (replicate 32 9) (replicate 12 0) 2
    (snd <$> (w_pair <$> seq 0 3)) (fst <$> (w_pair <$> seq 0 3)) (replicate 32 77) [5] s [2; 0]%nat).
  - repeat constructor; eexists; reflexivity.
  - apply Forall_replicate. split; lia.
  - reflexivity.
  - apply Forall_replicate. split; lia.
  - lia.
  - exact E.
  - repeat constructor; set_solver.
  - intros i Hi. apply list_elem_of_In in Hi. simpl in *. lia.
  - simpl. lia.
Defined.

(** A well-formed seal. *)
Definition sealed_ok (s : ThresholdSealed) : Prop :=
  length (nonce s) = NONCE_LEN /\ Z.of_nat (length (sealed_shares s)) < 2 ^ 16 /\
  Z.of_nat (length (ciphertext s)) < 2 ^ 32 /\
  Forall (fun slot => length slot = SEALED_SHARE_LEN) (sealed_shares s).

#[global] Instance sealed_ok_dec s : Decision (sealed_ok s).
Proof. unfold sealed_ok. apply _. Defined.

Lemma read_slots_concat slots : forall pre rest,
  Forall (fun slot : list Z => length slot = SEALED_SHARE_LEN) slots ->
  read_slots (pre ++ concat slots ++ rest) (length slots) (length pre) = Some slots.
Proof.
  induction slots as [|s slots IH]; intros pre rest Hs; [done|].
  apply Forall_cons in Hs as [Hs Hss]. cbn [concat length read_slots].
  assert (E : pre ++ (s ++ concat slots) ++ rest = (pre ++ s) ++ concat slots ++ rest) by by rewrite <- !app_assoc.
  assert (Hsl : slice (length pre) (length pre + SEALED_SHARE_LEN) (pre ++ (s ++ concat slots) ++ rest) = Some s).
  { rewrite <- app_assoc. apply slice_mid; [done|lia]. }
  rewrite Hsl, E. replace (length pre + SEALED_SHARE_LEN)%nat with (length (pre ++ s)) by (rewrite length_app; lia).
  by rewrite IH.
Qed.

(** The bytes of a seal decode to it; the reader stops at the last slot. *)
Lemma sealed_from_to_bytes s rest : sealed_ok s -> from_bytes (to_bytes s ++ rest) = Some s.
Proof.
  intros (Hn & Hm & Hc & Hs). unfold from_bytes, to_bytes.
  set (mb := be_bytes 2 _). set (lb := be_bytes 4 _).
  assert (Hmb : length mb = 2%nat) by apply length_be_bytes.
  assert (Hlb : length lb = 4%nat) by apply length_be_bytes.
  assert (Hmv : from_be mb = Z.of_nat (length (sealed_shares s))) by (apply from_be_id; unfold in_u; lia).
  assert (Hlv : from_be lb = Z.of_nat (length (ciphertext s))) by (apply from_be_id; unfold in_u; lia).
  clearbody mb lb.
  rewrite <- !app_assoc. rewrite slice_prefix by done.
  rewrite (slice_mid (nonce s) mb) by lia.
  rewrite (app_assoc (nonce s) mb). rewrite (slice_mid (nonce s ++ mb) lb) by (rewrite ?length_app; lia).
  rewrite Hmv, Hlv, !Nat2Z.id.
  rewrite (app_assoc (nonce s ++ mb) lb).
  rewrite (slice_mid ((nonce s ++ mb) ++ lb) (ciphertext s)) by (rewrite ?length_app; lia).
  rewrite (app_assoc ((nonce s ++ mb) ++ lb) (ciphertext s)).
  replace (NONCE_LEN + 6 + length (ciphertext s))%nat
    with (length (((nonce s ++ mb) ++ lb) ++ ciphertext s)) by (rewrite !length_app; lia).
  rewrite read_slots_concat by done. by destruct s.
Qed.

End Threshold.
