(* ===== verification/Tx.v ===== *)
(** * Sealed transactions

    [fanos-taxis/src/tx.rs]: a transaction sealed to a committee, ordered by its commitment and
    opened after ordering. *)
From S2P Require Import Prelude Codec Sig Shamir Kem Threshold.
Local Open Scope Z_scope.

Module Tx.

Definition KEY_LABEL : string := "FANOS-v1/taxis-tx-key".
Definition NONCE_LABEL : string := "FANOS-v1/taxis-tx-nonce".
Definition RND_LABEL : string := "FANOS-v1/taxis-tx-sharing".
Definition KEM_LABEL : string := "FANOS-v1/taxis-tx-kem".
Definition COMMIT_LABEL : string := "FANOS-v1/taxis-tx-commit".

Record Transaction := mk_tx { payload : list Z }.

Record SealedTx := mk_stx { epoch : Z; sealed : Threshold.ThresholdSealed }.

#[global] Instance Transaction_eq_dec : EqDecision Transaction.
Proof. solve_decision. Defined.
#[global] Instance SealedTx_eq_dec : EqDecision SealedTx.
Proof. solve_decision. Defined.

Definition member_count (t : SealedTx) : nat := Threshold.member_count (sealed t).

Definition to_bytes (t : SealedTx) : list Z := be_bytes 8 (epoch t) ++ Threshold.to_bytes (sealed t).

Definition from_bytes (bytes : list Z) : option SealedTx :=
  letO e := slice 0 8 bytes in
  letO rest := slice_from 8 bytes in
  letO s := Threshold.from_bytes rest in
  Some (mk_stx (from_be e) s).

Section tx.
  Context `{Crypto} `{KemCrypto}.

Definition seal (tx : Transaction) (ep : Z) (member_keys : list Kem.HybridKemPublic) (threshold : Z)
    (seed : list Z) : result SealedTx Threshold.ThresholdError :=
  let key := hash_labeled KEY_LABEL seed in
  let nonce_full := hash_labeled NONCE_LABEL seed in
  let? nonce := ok_or (slice 0 12 nonce_full) Threshold.Malformed in
  let key_rnd := blake3_xof (labeled_hasher RND_LABEL seed) 0 (Z.to_nat (sat_sub threshold 1) * 32) in
  let kem_seed := hash_labeled KEM_LABEL seed in
  let? s := Threshold.seal (payload tx) key nonce threshold member_keys key_rnd kem_seed in
  Ok (mk_stx ep s).

Definition commit (t : SealedTx) : list Z :=
  hash_labeled COMMIT_LABEL (Threshold.to_bytes (sealed t) ++ be_bytes 8 (epoch t)).

Definition member_share (t : SealedTx) (i : nat) (secret : Kem.HybridKemSecret) : option Shamir.Share :=
  Threshold.member_share (sealed t) i secret.

Definition open (t : SealedTx) (shares : list Shamir.Share) : result Transaction Threshold.ThresholdError :=
  let? payload := Threshold.open (sealed t) shares in
  Ok (mk_tx payload).

End tx.

Lemma stx_from_to_bytes t rest : is_u64 (epoch t) -> Threshold.sealed_ok (sealed t) ->
  from_bytes (to_bytes t ++ rest) = Some t.
Proof.
  intros He Hs. unfold from_bytes, to_bytes. rewrite <- app_assoc.
  rewrite slice_prefix, slice_from_app by apply length_be_bytes.
  rewrite Threshold.sealed_from_to_bytes by done. rewrite from_be_id by done. by destruct t.
Qed.

End Tx.
