(* ===== verification/Block.v ===== *)
(** * Blocks

    [fanos-taxis/src/block.rs]: the header and its commitments, the block with its payload,
    certificate, witness and openings, the availability check, and the frame budget a proposer
    packs against.  The application frames of [fanos-taxis/src/wire.rs] and
    [fanos-wire/src/frame.rs] appear because the budget is measured by encoding one. *)
From S2P Require Import Prelude Field Element Plane Varint Wire Codec Sig Lrc Erasure Params Vote Pqvrf Shamir Kem Threshold Tx.
Local Open Scope Z_scope.

Module Block.

Definition HEADER_LABEL : string := "FANOS-v1/taxis-block-header".
Definition TX_ROOT_LABEL : string := "FANOS-v1/taxis-tx-root".
Definition DA_COMMIT_LABEL : string := "FANOS-v1/taxis-da-commit".
Definition LAST_COMMIT_LABEL : string := "FANOS-v1/taxis-last-commit".
Definition REVEAL_ROOT_LABEL : string := "FANOS-v1/taxis-reveal-root".

(** ** Frames *)

Definition MAX_FRAME : Z := 2 ^ 20.
Definition APP_CODE : Z := 0x70.
Definition KIND_CONSENSUS : Z := 0.
Definition KIND_TX : Z := 1.
Definition KIND_SHARD : Z := 2.

(** A sequence shorter than [2^62] always encodes: the length of a [Vec] is below [2^63] bytes and
    the encoder panics above [2^62 - 1] only. *)
Definition wire_bytes {A} `{Wire A} (a : A) : list Z := default [] (to_wire a).

Definition varint_bytes (v : Z) : list Z := default [] (Varint.encode v).

Definition encode_frame (type_code : Z) (body : list Z) : list Z :=
  varint_bytes type_code ++ varint_bytes (Z.of_nat (length body)) ++ body.

Definition decode_frame (buf : list Z) : result ((Z * list Z) * nat) WireError :=
  let? (type_code, n0) := Varint.decode buf in
  let? rest := ok_or (get_from buf n0) UnexpectedEnd in
  let? (len, n1) := Varint.decode rest in
  let body_start := (n0 + n1)%nat in
  let end_ := Z.of_nat body_start + len in
  if 2 ^ 64 <=? end_ then Err FrameLengthOverflow else
  let? body := ok_or (slice body_start (Z.to_nat end_) buf) FrameLengthOverflow in
  Ok ((type_code, body), Z.to_nat end_).

Definition app_frame (kind : Z) (payload : list Z) : list Z := encode_frame APP_CODE (kind :: payload).

Inductive ShardMsg :=
| Deliver (block : list Z) (index : Z) (data : list Z)
| Request (block : list Z) (index : Z)
| NeedSkeleton (block : list Z).

Definition shard_block (m : ShardMsg) : list Z :=
  match m with Deliver b _ _ | Request b _ | NeedSkeleton b => b end.

Definition shard_to_bytes (m : ShardMsg) : list Z :=
  match m with
  | Deliver b i d => [0] ++ b ++ [i] ++ be_bytes 4 (u32_sat (length d)) ++ d
  | Request b i => [1] ++ b ++ [i]
  | NeedSkeleton b => [2] ++ b
  end.

Definition shard_from_bytes (bytes : list Z) : option ShardMsg :=
  match bytes with
  | [] => None
  | tag :: rest =>
      letO b := slice 0 32 rest in
      match tag with
      | 0 =>
          letO i := rest !! 32%nat in
          letO l := slice 33 37 rest in
          let end_ := (37 + Z.to_nat (from_be l))%nat in
          if negb (length rest =? end_)%nat then None else
          letO d := slice 37 end_ rest in
          Some (Deliver b i d)
      | 1 =>
          letO i := rest !! 32%nat in
          if negb (length rest =? 33)%nat then None else Some (Request b i)
      | 2 => if negb (length rest =? 32)%nat then None else Some (NeedSkeleton b)
      | _ => None
      end
  end.

Definition shard_to_frame (m : ShardMsg) : list Z := app_frame KIND_SHARD (shard_to_bytes m).

Definition zlen {A} (l : list A) : Z := Z.of_nat (length l).

Definition app_envelope : Z :=
  let probe := NeedSkeleton (replicate 32 0) in
  let framed := zlen (shard_to_frame probe) in
  let body := zlen (shard_to_bytes probe) + 1 in
  let type_varint := framed - body - Z.of_nat (Varint.encoded_len body) in
  type_varint + Z.of_nat (Varint.encoded_len MAX_FRAME) + 1.

Definition shard_frame_overhead : Z :=
  zlen (shard_to_bytes (Deliver (replicate 32 0) 0 [])) + app_envelope.

Definition CONSENSUS_VARIANT_TAG : Z := 1.
Definition consensus_msg_overhead : Z := CONSENSUS_VARIANT_TAG + app_envelope.

(** ** Data *)

Definition GENESIS_PARENT : list Z := replicate 32 0.
Definition WITNESS_ALLOWANCE : Z := 32 + 32 * Pqvrf.MAX_HEIGHT.

Record LeaderWitness := mk_witness { lw_output : list Z; lw_proof : Pqvrf.MerkleProof }.

Definition witness_to_bytes (w : LeaderWitness) : list Z := lw_output w ++ Pqvrf.proof_to_bytes (lw_proof w).

Definition witness_from_bytes (bytes : list Z) : option LeaderWitness :=
  if (length bytes <? 32)%nat || negb ((length bytes - 32) mod 32 =? 0)%nat then None else
  let out_bytes := take 32 bytes in
  let proof_bytes := drop 32 bytes in
  let height := Z.of_nat (length proof_bytes / 32) in
  letO proof := Pqvrf.proof_from_bytes proof_bytes height in
  Some (mk_witness out_bytes proof).

Record BlockHeader := mk_header {
  parent : list Z;
  height : Z;
  epoch : Z;
  proposer : Z;
  tx_root : list Z;
  da_commit : list Z;
  last_commit_root : list Z;
  reveal_root : list Z;
}.

(** The fields [#[derive(Wire)]] encodes, in declaration order. *)
Definition HeaderWire : Type :=
  byte_array 32 * (uint 8 * (uint 8 * (uint 1 * (byte_array 32 * (byte_array 32 * (byte_array 32 *
    (byte_array 32 * unit))))))).

Definition header_fields (h : BlockHeader) : HeaderWire :=
  (mk_array (parent h), (mk_uint (height h), (mk_uint (epoch h), (mk_uint (proposer h),
    (mk_array (tx_root h), (mk_array (da_commit h), (mk_array (last_commit_root h),
    (mk_array (reveal_root h), tt)))))))).

Definition header_of (w : HeaderWire) : BlockHeader :=
  let '(p, (h, (e, (pr, (t, (d, (l, (r, _)))))))) := w in
  mk_header (a_bytes p) (u_val h) (u_val e) (u_val pr) (a_bytes t) (a_bytes d) (a_bytes l) (a_bytes r).

Record CommittedReveal := mk_reveal { cr_commit : list Z; cr_member : Z; cr_share : list Z }.

Definition reveal_to_bytes (r : CommittedReveal) : list Z :=
  cr_commit r ++ [cr_member r] ++ put_var_bytes (cr_share r).

Definition MIN_WIRE : nat := 32 + 1 + 4.

Definition reveal_read (r : Reader) : option (CommittedReveal * Reader) :=
  letO (c, r) := rd_array 32 r in
  letO (m, r) := rd_u8 r in
  letO (s, r) := rd_var_bytes r in
  Some (mk_reveal c m s, r).

Record Block := mk_block {
  header : BlockHeader;
  sealed_txs : list Tx.SealedTx;
  reveals : list CommittedReveal;
  witness : option LeaderWitness;
  last_commit : option Vote.Certificate;
  pol : option Vote.Certificate;
}.

(** ** Payload *)

(** [Vec<Vec<u8>>] of the encoded transactions. *)
Definition framed (sealed : list Tx.SealedTx) : list (list (uint 1)) :=
  (fun t => mk_uint <$> Tx.to_bytes t) <$> sealed.

Definition encode_payload (sealed : list Tx.SealedTx) : list Z := wire_bytes (framed sealed).

Definition unframe (l : list (list (uint 1))) : option (list Tx.SealedTx) :=
  mapM (fun b => Tx.from_bytes (u_val <$> b)) l.

Definition decode_payload (payload : list Z) : option (list Tx.SealedTx) :=
  match from_wire (A := list (list (uint 1))) payload with
  | Ok l => unframe l
  | Err _ => None
  end.

Section block.
  Context `{Crypto}.

Definition header_hash (h : BlockHeader) : list Z := hash_labeled HEADER_LABEL (wire_bytes (header_fields h)).

Definition commits_of (sealed : list Tx.SealedTx) : list (list Z) := Tx.commit <$> sealed.

Definition tx_root_of (commits : list (list Z)) : list Z := hash_labeled TX_ROOT_LABEL (concat commits).

Definition commit_last (lc : option Vote.Certificate) : list Z :=
  match lc with
  | Some cert => hash_labeled LAST_COMMIT_LABEL (Vote.cert_to_bytes cert)
  | None => replicate 32 0
  end.

Definition commit_reveals (rs : list CommittedReveal) : list Z :=
  match rs with
  | [] => replicate 32 0
  | _ => hash_labeled REVEAL_ROOT_LABEL (concat (reveal_to_bytes <$> rs))
  end.

Definition commit_shards (shards : list (list Z)) : list Z :=
  hash_labeled DA_COMMIT_LABEL (concat ((fun s => be_bytes 4 (w32 (zlen s)) ++ s) <$> shards)).

(** ** The block's operations *)

Definition assemble (parent : list Z) (height epoch proposer : Z) (sealed : list Tx.SealedTx) : Block :=
  mk_block
    (mk_header parent height epoch proposer (tx_root_of (commits_of sealed))
       (commit_shards (Erasure.encode (encode_payload sealed))) (commit_last None) (commit_reveals []))
    sealed [] None None None.

Definition set_last_commit_root (h : BlockHeader) (r : list Z) : BlockHeader :=
  mk_header (parent h) (height h) (epoch h) (proposer h) (tx_root h) (da_commit h) r (reveal_root h).

Definition set_reveal_root (h : BlockHeader) (r : list Z) : BlockHeader :=
  mk_header (parent h) (height h) (epoch h) (proposer h) (tx_root h) (da_commit h) (last_commit_root h) r.

Definition with_last_commit (b : Block) (cert : Vote.Certificate) : Block :=
  mk_block (set_last_commit_root (header b) (commit_last (Some cert))) (sealed_txs b) (reveals b) (witness b)
    (Some cert) (pol b).

Definition with_pol (b : Block) (p : Vote.Certificate) : Block :=
  mk_block (header b) (sealed_txs b) (reveals b) (witness b) (last_commit b) (Some p).

Definition with_witness (b : Block) (w : LeaderWitness) : Block :=
  mk_block (header b) (sealed_txs b) (reveals b) (Some w) (last_commit b) (pol b).

Definition with_sealed_txs (b : Block) (txs : list Tx.SealedTx) : Block :=
  mk_block (header b) txs (reveals b) (witness b) (last_commit b) (pol b).

Definition with_reveals (b : Block) (rs : list CommittedReveal) : Block :=
  mk_block (set_reveal_root (header b) (commit_reveals rs)) (sealed_txs b) rs (witness b) (last_commit b) (pol b).

(** [Block { pol: Some(cert), witness: None, ..locked }]. *)
Definition reoffer (b : Block) (cert : Vote.Certificate) : Block :=
  mk_block (header b) (sealed_txs b) (reveals b) None (last_commit b) (Some cert).

Definition hash (b : Block) : list Z := header_hash (header b).

Definition skeleton (b : Block) : Block :=
  mk_block (header b) [] (reveals b) (witness b) (last_commit b) (pol b).

Definition opt_bytes {A} (f : A -> list Z) (o : option A) : list Z := default [] (f <$> o).

Definition to_bytes (b : Block) : list Z :=
  wire_bytes (header_fields (header b)) ++ encode_payload (sealed_txs b) ++
  put_var_bytes (opt_bytes Vote.cert_to_bytes (last_commit b)) ++
  put_var_bytes (opt_bytes witness_to_bytes (witness b)) ++
  put_var_bytes (opt_bytes Vote.cert_to_bytes (pol b)) ++
  put_u32 (w32 (zlen (reveals b))) ++ concat (reveal_to_bytes <$> reveals b).

(** [if bytes.is_empty() { None } else { Some(decode(bytes)?) }] *)
Definition read_opt {A} (f : list Z -> option A) (bytes : list Z) : option (option A) :=
  match bytes with [] => Some None | _ => letO a := f bytes in Some (Some a) end.

Definition from_bytes (bytes : list Z) : option Block :=
  match wire_decode (A := HeaderWire) bytes with
  | Err _ => None
  | Ok (hw, cur) =>
      match wire_decode (A := list (list (uint 1))) cur with
      | Err _ => None
      | Ok (fr, cur) =>
          letO txs := unframe fr in
          let r := reader_new cur in
          letO (lcb, r) := rd_var_bytes r in
          letO lc := read_opt Vote.cert_from_bytes lcb in
          letO (wb, r) := rd_var_bytes r in
          letO wt := read_opt witness_from_bytes wb in
          letO (pb, r) := rd_var_bytes r in
          letO pl := read_opt Vote.cert_from_bytes pb in
          letO (rs, r) := rd_seq MIN_WIRE reveal_read r in
          letO _ := rd_finish r in
          Some (mk_block (header_of hw) txs rs wt lc pl)
      end
  end.

Definition tx_commits (b : Block) : list (list Z) := commits_of (sealed_txs b).
Definition payload_bytes (b : Block) : list Z := encode_payload (sealed_txs b).

Definition payload_budget (b : Block) : Z :=
  let overhead := sat_sub (zlen (to_bytes b)) (zlen (payload_bytes b)) in
  let whole_block := sat_sub MAX_FRAME (overhead + consensus_msg_overhead) in
  let via_shards := sat_mul 64 (sat_sub MAX_FRAME shard_frame_overhead) Erasure.K in
  Z.min whole_block via_shards.

Definition fits_frame (b : Block) : bool := zlen (payload_bytes b) <=? payload_budget b.

Definition da_shards (b : Block) : list (list Z) := Erasure.encode (payload_bytes b).

Definition last_commit_matches (b : Block) : bool :=
  bool_decide (last_commit_root (header b) = commit_last (last_commit b)).

Definition reveals_match (b : Block) : bool :=
  bool_decide (reveal_root (header b) = commit_reveals (reveals b)).

Definition verify_structure (b : Block) : bool :=
  let tx_root_ok := bool_decide (tx_root (header b) = tx_root_of (tx_commits b)) in
  let da_ok := bool_decide (da_commit (header b) = commit_shards (da_shards b)) in
  tx_root_ok && da_ok && fits_frame b && last_commit_matches b && reveals_match b.

Definition reconstruct_payload (b : Block) (shards : list (option (list Z))) : option (list Tx.SealedTx) :=
  letO payload := Erasure.reconstruct shards in
  if negb (bool_decide (commit_shards (Erasure.encode payload) = da_commit (header b))) then None
  else decode_payload payload.

(** The loop of [pack_to_budget]. *)
Fixpoint pack_loop (used budget : Z) (sealed : list Tx.SealedTx) : list Tx.SealedTx :=
  match sealed with
  | [] => []
  | tx :: sealed =>
      let cost := sat_add 64 (zlen (Tx.to_bytes tx)) 8 in
      if budget <? sat_add 64 used cost then [] else tx :: pack_loop (w64 (used + cost)) budget sealed
  end.

Definition pack_to_budget (sealed : list Tx.SealedTx) (budget : Z) : list Tx.SealedTx :=
  pack_loop 8 budget sealed.

Definition budget_for (parent : list Z) (height epoch proposer : Z) (lc : option Vote.Certificate)
    (rs : list CommittedReveal) : Z :=
  let skel := with_reveals (assemble parent height epoch proposer []) rs in
  let skel := match lc with
              | Some cert => with_pol (with_last_commit skel cert) cert
              | None => skel
              end in
  sat_sub (payload_budget skel) WITNESS_ALLOWANCE.

Definition seal_bytes_per_tx (cell : Params.CellParams) : Z :=
  sat_mul 64 (Params.seal_committee_size cell) (Z.of_nat Threshold.SEALED_SHARE_LEN).

Definition seal_fits_a_block (cell : Params.CellParams) : bool :=
  let skel := assemble GENESIS_PARENT 0 0 0 [] in
  seal_bytes_per_tx cell <=? payload_budget skel.

(** ** Well-formed values *)

Definition tx_ok (t : Tx.SealedTx) : Prop :=
  is_u64 (Tx.epoch t) /\ Threshold.sealed_ok (Tx.sealed t) /\ is_bytes (Tx.to_bytes t) /\
  zlen (Tx.to_bytes t) <= Varint.MAX.

Definition txs_ok (txs : list Tx.SealedTx) : Prop := Forall tx_ok txs /\ zlen txs <= Varint.MAX.

Definition header_ok (h : BlockHeader) : Prop :=
  (length (parent h) = 32%nat /\ length (tx_root h) = 32%nat /\ length (da_commit h) = 32%nat /\
   length (last_commit_root h) = 32%nat /\ length (reveal_root h) = 32%nat) /\
  (is_u64 (height h) /\ is_u64 (epoch h) /\ is_u8 (proposer h)) /\
  (is_bytes (parent h) /\ is_bytes (tx_root h) /\ is_bytes (da_commit h) /\
   is_bytes (last_commit_root h) /\ is_bytes (reveal_root h)).

Definition reveal_ok (r : CommittedReveal) : Prop :=
  length (cr_commit r) = 32%nat /\ is_u8 (cr_member r) /\ zlen (cr_share r) < 2 ^ 32.

Definition block_ok (b : Block) : Prop :=
  header_ok (header b) /\ txs_ok (sealed_txs b) /\
  match last_commit b with Some c => Vote.cert_ok c | None => True end /\
  Forall reveal_ok (reveals b) /\ zlen (reveals b) < 2 ^ 32 /\
  Forall (fun s => zlen s < 2 ^ 32) (da_shards b).

#[global] Instance tx_ok_dec t : Decision (tx_ok t).
Proof. unfold tx_ok, is_bytes. apply _. Defined.
#[global] Instance txs_ok_dec txs : Decision (txs_ok txs).
Proof. unfold txs_ok. apply _. Defined.
#[global] Instance header_ok_dec h : Decision (header_ok h).
Proof. unfold header_ok, is_bytes. apply _. Defined.
#[global] Instance reveal_ok_dec r : Decision (reveal_ok r).
Proof. unfold reveal_ok. apply _. Defined.
#[global] Instance block_ok_dec b : Decision (block_ok b).
Proof. unfold block_ok. destruct (last_commit b); apply _. Defined.

(** ** Encodings in closed form *)

Lemma header_wire h :
  wire_bytes (header_fields h) =
  parent h ++ be_bytes 8 (height h) ++ be_bytes 8 (epoch h) ++ be_bytes 1 (proposer h) ++
  tx_root h ++ da_commit h ++ last_commit_root h ++ reveal_root h.
Proof. destruct h. unfold wire_bytes, to_wire. cbn. by rewrite app_nil_r. Qed.

Lemma header_dom h : header_ok h -> wire_dom (header_fields h).
Proof.
  intros ((? & ? & ? & ? & ?) & (? & ? & ?) & ? & ? & ? & ? & ?).
  destruct h. cbn in *. unfold in_u in *. repeat split; assumption || lia.
Qed.

Lemma header_of_fields h : header_of (header_fields h) = h.
Proof. by destruct h. Qed.

Lemma wire_bytes_decode {A} `{WireLaws A} (a : A) rest :
  wire_dom a -> wire_decode (wire_bytes a ++ rest) = Ok (a, rest).
Proof.
  intros Ha. destruct (wl_total a Ha) as (bs & E & _). unfold wire_bytes, to_wire. rewrite E.
  by apply wl_roundtrip.
Qed.

Lemma framed_dom txs : txs_ok txs -> wire_dom (framed txs).
Proof.
  intros [Hf Hl]. split.
  - unfold framed. apply Forall_fmap, (Forall_impl _ _ _ Hf). intros t (_ & _ & Hb & Hn). split.
    + apply Forall_fmap, (Forall_impl _ _ _ Hb). intros x Hx. exact Hx.
    + by rewrite length_fmap.
  - unfold framed. by rewrite length_fmap.
Qed.

Lemma unframe_framed txs : Forall tx_ok txs -> unframe (framed txs) = Some txs.
Proof.
  induction 1 as [|t txs (He & Hs & _) _ IH]; [done|]. unfold unframe, framed. rewrite fmap_cons. cbn [mapM].
  rewrite <- list_fmap_compose, (list_fmap_ext _ id), list_fmap_id by done.
  pose proof (Tx.stx_from_to_bytes t [] He Hs) as Ht. rewrite app_nil_r in Ht. rewrite Ht. cbn [mbind option_bind].
  unfold unframe, framed in IH. by rewrite IH.
Qed.

Lemma decode_encode_payload txs : txs_ok txs -> decode_payload (encode_payload txs) = Some txs.
Proof.
  intros Hok. unfold decode_payload, encode_payload, from_wire.
  rewrite <- (app_nil_r (wire_bytes (framed txs))), wire_bytes_decode by by apply framed_dom.
  cbn [rbind]. apply unframe_framed, Hok.
Qed.

(** ** What the hash of a block binds *)

(** The messages the header hash and the structure check of a block feed to the hash: the header,
    the framed shards, the certificate and the openings, the last two where the block has any. *)
Definition header_hashed (h : BlockHeader) : list Z := labeled_hasher HEADER_LABEL (wire_bytes (header_fields h)).

Definition shards_hashed (shards : list (list Z)) : list Z :=
  labeled_hasher DA_COMMIT_LABEL (concat ((fun s => be_bytes 4 (w32 (zlen s)) ++ s) <$> shards)).

Definition last_hashed (lc : option Vote.Certificate) : list (list Z) :=
  match lc with Some cert => [labeled_hasher LAST_COMMIT_LABEL (Vote.cert_to_bytes cert)] | None => [] end.

Definition reveals_hashed (rs : list CommittedReveal) : list (list Z) :=
  match rs with [] => [] | _ => [labeled_hasher REVEAL_ROOT_LABEL (concat (reveal_to_bytes <$> rs))] end.

Definition hashed (b : Block) : list (list Z) :=
  [header_hashed (header b); shards_hashed (da_shards b)] ++ last_hashed (last_commit b) ++ reveals_hashed (reveals b).

Lemma header_bytes_inj h h' : header_ok h -> header_ok h' ->
  wire_bytes (header_fields h) = wire_bytes (header_fields h') -> h = h'.
Proof.
  intros Hh Hh' E. pose proof (wire_bytes_decode _ [] (header_dom _ Hh)) as D.
  rewrite E, wire_bytes_decode in D by by apply header_dom.
  rewrite <- (header_of_fields h), <- (header_of_fields h'). congruence.
Qed.

(** A concatenation of self-delimiting items has one parse. *)
Lemma concat_inj {A} (enc : A -> list Z) (P : A -> Prop) (l l' : list A) :
  (forall a a' r r', P a -> P a' -> enc a ++ r = enc a' ++ r' -> a = a' /\ r = r') ->
  (forall a, P a -> enc a <> []) -> Forall P l -> Forall P l' ->
  concat (enc <$> l) = concat (enc <$> l') -> l = l'.
Proof.
  intros Hi Hn Hl. revert l'. induction Hl as [|a l Ha _ IH]; intros l' [|a' l'' Ha' Hl'']; csimpl.
  - done.
  - intros E. symmetry in E. apply app_nil in E as [E _]. by apply Hn in E.
  - intros E. apply app_nil in E as [E _]. by apply Hn in E.
  - intros E. apply Hi in E as [-> E]; [|done..]. by rewrite (IH l'').
Qed.

Lemma commits_inj txs txs' : (forall m, length (blake3 m) = 32%nat) ->
  concat (commits_of txs) = concat (commits_of txs') -> commits_of txs = commits_of txs'.
Proof.
  intros Hb E. apply (concat_inj id (fun c => length c = 32%nat)).
  - intros a a' r r' Ha Ha' Ec. unfold id in Ec. apply app_inj_1 in Ec; [done|congruence].
  - by intros [|].
  - apply Forall_fmap, Forall_forall. intros t _. apply Hb.
  - apply Forall_fmap, Forall_forall. intros t _. apply Hb.
  - by rewrite !list_fmap_id.
Qed.

Lemma prefixed_inj (s s' r r' : list Z) : zlen s < 2 ^ 32 -> zlen s' < 2 ^ 32 ->
  (be_bytes 4 (w32 (zlen s)) ++ s) ++ r = (be_bytes 4 (w32 (zlen s')) ++ s') ++ r' -> s = s' /\ r = r'.
Proof.
  unfold zlen. intros Hs Hs' E. rewrite <- !app_assoc in E.
  apply app_inj_1 in E as [E1 E2]; [|by rewrite !length_be_bytes].
  apply (f_equal from_be) in E1. rewrite !wrap_small, !from_be_id in E1 by (unfold in_u; lia).
  apply app_inj_1 in E2; [done|lia].
Qed.

Lemma shards_inj msgs (l l' : list (list Z)) : ~ broken_on msgs -> shards_hashed l ∈ msgs -> shards_hashed l' ∈ msgs ->
  Forall (fun s => zlen s < 2 ^ 32) l -> Forall (fun s => zlen s < 2 ^ 32) l' ->
  commit_shards l = commit_shards l' -> l = l'.
Proof.
  intros Hb Hm Hm' Hl Hl' E. apply (hash_labeled_inj msgs) in E; [|done..].
  apply (concat_inj _ _ _ _ (fun a a' r r' Ha Ha' => prefixed_inj a a' r r' Ha Ha')) in E; [done| |done|done].
  intros a _ En. apply app_nil in En as [En _]. done.
Qed.

Lemma encode_inj d d' : Erasure.encode d = Erasure.encode d' -> d = d'.
Proof.
  intros E. pose proof (Erasure.reconstruct_erased d 0) as R. pose proof (Erasure.reconstruct_erased d' 0) as R'.
  rewrite E, R' in R by lia. by injection (R ltac:(lia)).
Qed.

Lemma reveal_inj r r' t t' : reveal_ok r -> reveal_ok r' ->
  reveal_to_bytes r ++ t = reveal_to_bytes r' ++ t' -> r = r' /\ t = t'.
Proof.
  intros (Hc & Hm & Hs) (Hc' & Hm' & Hs') E. unfold reveal_to_bytes, put_var_bytes, put_u32 in E.
  unfold zlen in *. rewrite !u32_sat_small, <- !app_assoc in E by done.
  apply app_inj_1 in E as [E1 E]; [|congruence]. apply app_inj_1 in E as [[= E2] E]; [|done].
  apply app_inj_1 in E as [E3 E]; [|by rewrite !length_le_bytes].
  apply (f_equal from_le) in E3. rewrite !from_le_id in E3 by (unfold in_u; lia).
  apply app_inj_1 in E as [E4 E]; [|lia]. split; [|done]. destruct r, r'; simpl in *; congruence.
Qed.

Lemma commit_reveals_inj msgs l l' : ~ broken_on msgs -> reveals_hashed l ⊆ msgs -> reveals_hashed l' ⊆ msgs ->
  Forall reveal_ok l -> Forall reveal_ok l' -> commit_reveals l = commit_reveals l' -> l = l'.
Proof.
  intros Hb Hm Hm' Hl Hl' E. unfold commit_reveals, reveals_hashed in *.
  destruct l as [|r l], l' as [|r' l']; [done|..].
  - symmetry in E. apply (hash_labeled_nonzero msgs) in E; [done|done|set_solver].
  - apply (hash_labeled_nonzero msgs) in E; [done|done|set_solver].
  - apply (hash_labeled_inj msgs) in E; [|done|set_solver..].
    apply (concat_inj _ reveal_ok) in E; [done| |..|done|done].
    + intros a a' t t'. apply reveal_inj.
    + intros a _ En. unfold reveal_to_bytes in En. by apply app_nil in En as [_ ?].
Qed.

Lemma commit_last_inj msgs c c' : ~ broken_on msgs -> last_hashed c ⊆ msgs -> last_hashed c' ⊆ msgs ->
  match c with Some x => Vote.cert_ok x | None => True end ->
  match c' with Some x => Vote.cert_ok x | None => True end ->
  commit_last c = commit_last c' -> c = c'.
Proof.
  intros Hb Hm Hm' Hc Hc' E. destruct c as [c|], c' as [c'|]; simpl in *; [| | |done].
  - apply (hash_labeled_inj msgs) in E; [|done|set_solver..].
    pose proof (Vote.certificate_roundtrip c Hc) as R.
    rewrite E, (Vote.certificate_roundtrip c' Hc') in R. congruence.
  - apply (hash_labeled_nonzero msgs) in E; [done|done|set_solver].
  - symmetry in E. apply (hash_labeled_nonzero msgs) in E; [done|done|set_solver].
Qed.

Lemma verify_structure_iff b : verify_structure b = true <->
  tx_root (header b) = tx_root_of (tx_commits b) /\ da_commit (header b) = commit_shards (da_shards b) /\
  fits_frame b = true /\ last_commit_root (header b) = commit_last (last_commit b) /\
  reveal_root (header b) = commit_reveals (reveals b).
Proof.
  unfold verify_structure, last_commit_matches, reveals_match.
  rewrite !andb_true_iff, !bool_decide_eq_true. tauto.
Qed.

(** The availability check on the shards that survive a loss. *)
Lemma reconstruct_erased_payload (b : Block) (m : Z) :
  0 <= m < 128 -> txs_ok (sealed_txs b) -> verify_structure b = true ->
  reconstruct_payload b (Erasure.erase m (da_shards b)) =
    if Lrc.is_recoverable_fano m then Some (sealed_txs b) else None.
Proof.
  intros Hm Ht Hv. apply verify_structure_iff in Hv as (_ & Hd & _).
  unfold reconstruct_payload, da_shards. rewrite Erasure.reconstruct_erased by done.
  destruct (Lrc.is_recoverable_fano m); [|done]. rewrite Hd. unfold da_shards.
  rewrite bool_decide_eq_true_2 by done. by apply decode_encode_payload.
Qed.

End block.

(** ** Claims *)

(** C28: the hash of a block binds everything a block decides: two well-formed blocks that pass the
    structure check and have one hash agree on the header, the transactions in order, the openings
    and the certificate that rewards the finalisers, unless the at most eight messages those two
    blocks hash (their headers, shards, certificates and openings) hold a collision or a zero digest. *)
Theorem block_hash_binds_content `{CryptoLaws} (b b' : Block) :
  block_ok b -> block_ok b' -> verify_structure b = true -> verify_structure b' = true -> hash b = hash b' ->
  (header b = header b' /\ sealed_txs b = sealed_txs b' /\ reveals b = reveals b' /\
   last_commit b = last_commit b') \/ broken_on (hashed b ++ hashed b').
Proof.
  intros (Hh & Ht & Hc & Hr & _ & Hs) (Hh' & Ht' & Hc' & Hr' & _ & Hs').
  rewrite !verify_structure_iff. intros (_ & D & _ & L & R) (_ & D' & _ & L' & R') E.
  apply unless_broken. intros Hi. unfold hashed in Hi. apply (hash_labeled_inj _ _ _ _ Hi) in E; [|set_solver..].
  apply header_bytes_inj in E; [|done..].
  rewrite <- E in D', L', R'. rewrite D in D'. rewrite L in L'. rewrite R in R'.
  apply (shards_inj _ _ _ Hi) in D'; [|set_solver..|done|done].
  apply (commit_last_inj _ _ _ Hi) in L'; [|set_solver..|done|done].
  apply (commit_reveals_inj _ _ _ Hi) in R'; [|set_solver..|done|done].
  repeat split; [done| |done..]. apply encode_inj in D'. unfold payload_bytes in D'.
  pose proof (decode_encode_payload _ Ht) as P. rewrite D', decode_encode_payload in P by done. congruence.
Qed.

(** The availability check accepts exactly the committed payload: from the shards that survive
    any recoverable loss a validator reconstructs the block's own transactions, and from fewer it
    reconstructs nothing. *)
Theorem available_block_reconstructs `{Crypto} (b : Block) (m : Z) :
  0 <= m < 128 -> txs_ok (sealed_txs b) -> verify_structure b = true ->
  reconstruct_payload b (Erasure.erase m (da_shards b)) =
    if Lrc.is_recoverable_fano m then Some (sealed_txs b) else None.
Proof. apply reconstruct_erased_payload. Qed.

(** ** Sizes *)

Section sizes.
  Context `{Crypto}.

Definition sum_len {A} (enc : A -> list Z) (l : list A) : Z := foldr (fun a n => zlen (enc a) + n) 0 l.

Lemma zlen_app {A} (a b : list A) : zlen (a ++ b) = zlen a + zlen b.
Proof. unfold zlen. rewrite length_app. lia. Qed.

Lemma zlen_concat {A} (enc : A -> list Z) l : zlen (concat (enc <$> l)) = sum_len enc l.
Proof. induction l as [|a l IH]; [done|]. csimpl. rewrite zlen_app, IH. done. Qed.

Lemma sum_len_nonneg {A} (enc : A -> list Z) l : 0 <= sum_len enc l.
Proof. induction l as [|a l IH]; simpl; unfold zlen; lia. Qed.

Lemma zlen_var b : zlen (put_var_bytes b) = 4 + zlen b.
Proof. unfold put_var_bytes, put_u32. rewrite zlen_app. unfold zlen. rewrite length_le_bytes. lia. Qed.

Definition header_len : Z := 177.

(** The bytes a block adds around its payload. *)
Definition overhead (b : Block) : Z :=
  header_len + 16 + zlen (opt_bytes Vote.cert_to_bytes (last_commit b)) +
  zlen (opt_bytes witness_to_bytes (witness b)) + zlen (opt_bytes Vote.cert_to_bytes (pol b)) +
  sum_len reveal_to_bytes (reveals b).

Definition roots_ok (h : BlockHeader) : Prop :=
  length (parent h) = 32%nat /\ length (tx_root h) = 32%nat /\ length (da_commit h) = 32%nat /\
  length (last_commit_root h) = 32%nat /\ length (reveal_root h) = 32%nat.

Lemma to_bytes_len b : roots_ok (header b) -> zlen (to_bytes b) = overhead b + zlen (payload_bytes b).
Proof.
  intros (H1 & H2 & H3 & H4 & H5). unfold to_bytes, overhead, payload_bytes. rewrite header_wire.
  rewrite !zlen_app, !zlen_var, zlen_concat. unfold put_u32.
  assert (Hz : forall (l : list Z) n, length l = n -> zlen l = Z.of_nat n) by (by intros l n <-).
  rewrite (Hz _ _ H1), (Hz _ _ H2), (Hz _ _ H3), (Hz _ _ H4), (Hz _ _ H5).
  rewrite !(Hz _ _ (length_be_bytes _ _)), (Hz _ _ (length_le_bytes _ _)). unfold header_len. lia.
Qed.

Definition frame_room : Z := MAX_FRAME - consensus_msg_overhead.
Definition shard_room : Z := sat_mul 64 (sat_sub MAX_FRAME shard_frame_overhead) Erasure.K.

Lemma payload_budget_eq b : roots_ok (header b) ->
  payload_budget b = Z.min (Z.max 0 (frame_room - overhead b)) shard_room.
Proof.
  intros Hr. unfold payload_budget. rewrite to_bytes_len by done. unfold sat_sub, frame_room, shard_room.
  assert (0 <= overhead b).
  { unfold overhead, header_len, zlen. pose proof (sum_len_nonneg reveal_to_bytes (reveals b)). lia. }
  fold (sat_sub MAX_FRAME shard_frame_overhead). f_equal. lia.
Qed.

Lemma frame_constants : frame_room = 1048568 /\ shard_room = 3145593 /\ WITNESS_ALLOWANCE = 800.
Proof. by vm_compute. Qed.

(** The encoded payload is at most its transactions plus eight bytes each, plus eight. *)
Lemma payload_len txs : txs_ok txs ->
  1 + sum_len Tx.to_bytes txs <= zlen (encode_payload txs) <= 8 + sum_len Tx.to_bytes txs + 8 * zlen txs.
Proof.
  intros [Hf Hn].
  destruct (Varint.encode_Some (Z.of_nat (length txs))) as (h & Eh & _); [unfold zlen in Hn; lia|].
  assert (Hh : length h = Varint.encoded_len (Z.of_nat (length txs))).
  { apply Varint.encode_len in Eh; [done|unfold zlen in Hn; lia]. }
  assert (Hlen : forall v, (1 <= Varint.encoded_len v <= 8)%nat).
  { intros v. unfold Varint.encoded_len. repeat case_match; lia. }
  assert (He : exists bs, encode_elems (framed txs) = Some bs /\
    sum_len Tx.to_bytes txs <= zlen bs <= sum_len Tx.to_bytes txs + 8 * zlen txs).
  { clear Hn Eh Hh. induction Hf as [|t txs (_ & _ & Hb & Hm) Hf (bs & Ebs & Hbs)].
    { by exists []. }
    unfold framed. rewrite fmap_cons. cbn [encode_elems]. cbn [wire_encode wire_vec].
    rewrite length_fmap.
    destruct (Varint.encode_Some (Z.of_nat (length (Tx.to_bytes t)))) as (h' & Eh' & _); [unfold zlen in Hm; lia|].
    rewrite Eh'. apply Varint.encode_len in Eh'; [|unfold zlen in Hm; lia].
    assert (Ei : encode_elems (A := uint 1) (mk_uint <$> Tx.to_bytes t) = Some (Tx.to_bytes t)).
    { clear -Hb. induction Hb as [|x l Hx _ IH]; [done|]. csimpl. cbn [encode_elems wire_encode wire_uint u_val].
      rewrite IH. cbn [be_bytes app]. change (8 * Z.of_nat 0) with 0.
      f_equal. f_equal. rewrite Z.shiftr_0_r. by rewrite wrap_small. }
    rewrite Ei. unfold framed in Ebs. rewrite Ebs. eexists. split; [done|].
    rewrite !zlen_app. simpl. specialize (Hlen (Z.of_nat (length (Tx.to_bytes t)))).
    unfold zlen in *. simpl. lia. }
  destruct He as (bs & Ebs & Hbs).
  assert (E : encode_payload txs = h ++ bs).
  { unfold encode_payload, wire_bytes, to_wire. cbn [wire_encode wire_vec]. unfold framed at 1.
    by rewrite length_fmap, Eh, Ebs. }
  rewrite E, zlen_app.
  specialize (Hlen (Z.of_nat (length txs))). unfold zlen in *. lia.
Qed.

Lemma pack_loop_spec budget sealed : forall used,
  0 <= used -> budget < 2 ^ 64 - 1 -> exists rest, sealed = pack_loop used budget sealed ++ rest /\
    (pack_loop used budget sealed = [] \/
     used + sum_len Tx.to_bytes (pack_loop used budget sealed) + 8 * zlen (pack_loop used budget sealed) <= budget).
Proof.
  induction sealed as [|t sealed IH]; intros used Hu Hb; cbn [pack_loop]; [by exists []; split; [|left]|].
  set (cost := sat_add 64 (zlen (Tx.to_bytes t)) 8).
  destruct (Z.ltb_spec budget (sat_add 64 used cost)) as [|Hle]; [by eexists; split; [|left]|].
  assert (Hz : 0 <= zlen (Tx.to_bytes t)) by (unfold zlen; lia).
  assert (Hc : cost = zlen (Tx.to_bytes t) + 8 /\ used + cost <= budget).
  { unfold cost, sat_add in *. lia. }
  rewrite wrap_small by (unfold in_u; lia).
  destruct (IH (used + cost)) as (rest & E & Hfit); [lia|done|]. exists rest.
  split; [by rewrite <- app_comm_cons, <- E|]. right.
  destruct Hfit as [->|Hfit]; unfold sum_len, zlen in *; cbn [foldr length] in *; lia.
Qed.

Lemma skeleton_roots p h e pr lc rs : (forall m, length (blake3 m) = 32%nat) -> length p = 32%nat ->
  let skel := with_reveals (assemble p h e pr []) rs in
  roots_ok (header skel) /\ forall cert, roots_ok (header (with_pol (with_last_commit skel cert) lc)).
Proof.
  intros Hb Hp. split; [|intros cert]; repeat split; cbn; try apply Hb; try done;
    unfold commit_reveals; destruct rs; apply Hb || done.
Qed.

End sizes.

(** The block a proposer builds: packed payload, openings, the certificate of its parent and, in a
    secret election, its ticket. *)
Definition proposal `{Crypto} (p : list Z) (h e pr : Z) (lc : option Vote.Certificate) (rs : list CommittedReveal)
    (w : option LeaderWitness) (txs : list Tx.SealedTx) : Block :=
  let b := with_reveals (assemble p h e pr txs) rs in
  let b := match lc with Some c => with_last_commit b c | None => b end in
  match w with Some x => with_witness b x | None => b end.

Section proposals.
  Context `{CryptoLaws}.

Lemma proposal_roots p h e pr lc rs w txs : length p = 32%nat -> roots_ok (header (proposal p h e pr lc rs w txs)).
Proof.
  intros Hp. unfold proposal. destruct lc, w; repeat split; cbn; try apply blake3_length; try done;
    unfold commit_reveals; destruct rs; apply blake3_length || done.
Qed.

Lemma proposal_overhead p h e pr lc rs w txs :
  overhead (proposal p h e pr lc rs w txs) =
    header_len + 16 + zlen (opt_bytes Vote.cert_to_bytes lc) + zlen (opt_bytes witness_to_bytes w) +
    sum_len reveal_to_bytes rs.
Proof.
  unfold proposal, overhead.
  destruct lc, w; cbn -[zlen Vote.cert_to_bytes witness_to_bytes sum_len header_len];
    change (zlen (@nil Z)) with 0; lia.
Qed.

Lemma budget_eq p h e pr lc rs : length p = 32%nat ->
  budget_for p h e pr lc rs =
    Z.max 0 (Z.min (Z.max 0 (frame_room - (header_len + 16 + 2 * zlen (opt_bytes Vote.cert_to_bytes lc) +
      sum_len reveal_to_bytes rs))) shard_room - WITNESS_ALLOWANCE).
Proof.
  intros Hp. destruct (skeleton_roots p h e pr (Vote.mk_cert Vote.Commit 0 0 [] []) rs blake3_length Hp) as [H1 H2].
  unfold budget_for, sat_sub. destruct lc as [c|].
  - rewrite payload_budget_eq by (destruct (skeleton_roots p h e pr c rs blake3_length Hp) as [_ Hc]; apply Hc).
    unfold overhead. cbn -[zlen Vote.cert_to_bytes sum_len header_len frame_room shard_room WITNESS_ALLOWANCE].
    change (zlen (@nil Z)) with 0. lia.
  - rewrite payload_budget_eq by done.
    unfold overhead. cbn -[zlen Vote.cert_to_bytes sum_len header_len frame_room shard_room WITNESS_ALLOWANCE].
    change (zlen (@nil Z)) with 0. lia.
Qed.

Lemma proposal_structure p h e pr lc rs w txs :
  verify_structure (proposal p h e pr lc rs w txs) = fits_frame (proposal p h e pr lc rs w txs).
Proof.
  unfold verify_structure, last_commit_matches, reveals_match.
  assert (Hd : forall b : Block, b = proposal p h e pr lc rs w txs ->
    tx_root (header b) = tx_root_of (tx_commits b) /\ da_commit (header b) = commit_shards (da_shards b) /\
    last_commit_root (header b) = commit_last (last_commit b) /\ reveal_root (header b) = commit_reveals (reveals b)).
  { intros b ->. unfold proposal. by destruct lc, w. }
  destruct (Hd _ eq_refl) as (-> & -> & -> & ->). rewrite !bool_decide_eq_true_2 by done.
  by rewrite !andb_true_r.
Qed.

Lemma proposal_txs p h e pr lc rs w txs : sealed_txs (proposal p h e pr lc rs w txs) = txs.
Proof. unfold proposal. by destruct lc, w. Qed.

Lemma reoffer_fits p h e pr lc rs w txs pl : length p = 32%nat ->
  fits_frame (reoffer (proposal p h e pr lc rs w txs) pl) =
  (zlen (encode_payload txs) <=?
    Z.min (Z.max 0 (frame_room - (header_len + 16 + zlen (opt_bytes Vote.cert_to_bytes lc) +
      zlen (Vote.cert_to_bytes pl) + sum_len reveal_to_bytes rs))) shard_room).
Proof.
  intros Hp. unfold fits_frame. rewrite payload_budget_eq by by apply proposal_roots.
  unfold payload_bytes, overhead. cbn [reoffer sealed_txs last_commit witness pol reveals].
  replace (last_commit (proposal p h e pr lc rs w txs)) with lc by (unfold proposal; by destruct lc, w).
  replace (reveals (proposal p h e pr lc rs w txs)) with rs by (unfold proposal; by destruct lc, w).
  rewrite proposal_txs. cbn [opt_bytes fmap option_fmap option_map default].
  change (zlen (@nil Z)) with 0. unfold id. do 3 f_equal. lia.
Qed.

Lemma txs_ok_prefix txs rest : txs_ok (txs ++ rest) -> txs_ok txs.
Proof.
  intros [Hf Hl]. apply Forall_app in Hf as [Hf _]. split; [done|]. unfold zlen in *. rewrite length_app in Hl. lia.
Qed.

(** The packed payload never exceeds the budget it was packed against. *)
Lemma packed_payload budget pool : txs_ok pool -> 1 <= budget < 2 ^ 64 - 1 ->
  zlen (encode_payload (pack_to_budget pool budget)) <= budget.
Proof.
  intros Hok Hb. unfold pack_to_budget.
  destruct (pack_loop_spec budget pool 8) as (rest & E & Hfit); [lia..|].
  rewrite E in Hok. apply txs_ok_prefix in Hok. destruct Hfit as [Hnil|Hfit].
  - rewrite Hnil. etrans; [|apply Hb]. by vm_compute.
  - destruct (payload_len _ Hok). lia.
Qed.

(** Openings and a certificate as large as the frame crowd out every block that carries them. *)
Lemma crowded_out p h e pr lc rs w txs : length p = 32%nat -> txs_ok txs ->
  frame_room <= header_len + 16 + zlen (opt_bytes Vote.cert_to_bytes lc) + sum_len reveal_to_bytes rs ->
  verify_structure (proposal p h e pr lc rs w txs) = false.
Proof.
  intros Hp Htx Hbig. rewrite proposal_structure. unfold fits_frame.
  rewrite payload_budget_eq by by apply proposal_roots. rewrite proposal_overhead. apply Z.leb_gt.
  unfold payload_bytes. rewrite proposal_txs. destruct (payload_len txs Htx) as [Hlow _].
  pose proof (sum_len_nonneg Tx.to_bytes txs). assert (0 <= zlen (opt_bytes witness_to_bytes w)) by (unfold zlen; lia). lia.
Qed.

End proposals.

(** What a proposer's certificate, counted twice, and openings may take: the rest of the frame is the
    header, the four length prefixes, the ticket's allowance and one byte of payload. *)
Definition proposal_room : Z := frame_room - header_len - 16 - WITNESS_ALLOWANCE.

(** C29: when a proposer's block fits a frame.  As long as the parent's certificate counted twice and
    the openings stay below [proposal_room] (1047575 bytes), the block packed against the budget, with
    its openings, its certificate and a ticket, passes the structure check, takes a prefix of the pool
    in order, and above genesis still fits when a proof of lock of the certificate's size is attached.
    Nothing in the code enforces that bound: once the certificate and the openings alone reach the
    frame, no block with them passes the check, whatever it packs. *)
Theorem packed_block_fits_frame `{CryptoLaws} p h e pr lc rs w pool :
  length p = 32%nat -> txs_ok pool ->
  match w with Some x => zlen (witness_to_bytes x) <= WITNESS_ALLOWANCE | None => True end ->
  let b := proposal p h e pr lc rs w (pack_to_budget pool (budget_for p h e pr lc rs)) in
  (2 * zlen (opt_bytes Vote.cert_to_bytes lc) + sum_len reveal_to_bytes rs < proposal_room ->
    verify_structure b = true /\ (exists rest, pool = sealed_txs b ++ rest) /\
    forall c pl, lc = Some c -> zlen (Vote.cert_to_bytes pl) <= zlen (Vote.cert_to_bytes c) + WITNESS_ALLOWANCE ->
      fits_frame (reoffer b pl) = true) /\
  (frame_room <= header_len + 16 + zlen (opt_bytes Vote.cert_to_bytes lc) + sum_len reveal_to_bytes rs ->
    forall txs, txs_ok txs -> verify_structure (proposal p h e pr lc rs w txs) = false).
Proof.
  intros Hp Hok Hw b. split; [intros Hb|intros Hbig txs Htx; by apply crowded_out].
  destruct frame_constants as (Hfr & Hsr & Hwa). unfold proposal_room in Hb.
  pose proof (budget_eq p h e pr lc rs Hp) as Hbe.
  assert (Hrv : 0 <= sum_len reveal_to_bytes rs) by apply sum_len_nonneg.
  assert (Hlc : 0 <= zlen (opt_bytes Vote.cert_to_bytes lc)) by (unfold zlen; lia).
  assert (Hh : header_len = 177) by done.
  pose proof (packed_payload (budget_for p h e pr lc rs) pool Hok) as Hpl.
  set (bud := budget_for p h e pr lc rs) in *. rewrite Hfr, Hwa, Hh in *. rewrite Hsr in Hbe.
  specialize (Hpl ltac:(lia)).
  split; [|split].
  - unfold b. rewrite proposal_structure. unfold fits_frame.
    rewrite payload_budget_eq by by apply proposal_roots. rewrite proposal_overhead. apply Z.leb_le.
    unfold payload_bytes. rewrite proposal_txs, Hfr, Hsr, Hh.
    assert (zlen (opt_bytes witness_to_bytes w) <= 800).
    { destruct w; cbn [opt_bytes fmap option_fmap option_map default]; unfold id; [lia|by unfold zlen]. }
    lia.
  - unfold b. rewrite proposal_txs. unfold pack_to_budget.
    destruct (pack_loop_spec bud pool 8) as (rest & E & _); [lia..|]. eauto.
  - intros c pl -> Hc. unfold b. rewrite reoffer_fits by done. apply Z.leb_le.
    cbn [opt_bytes fmap option_fmap option_map default] in *. unfold id in *. lia.
Qed.

(** At genesis nothing is reserved for a proof of lock: a full first block passes the structure
    check when it is proposed, and fails it when it is proposed again with the certificate that
    locked it. *)
Theorem genesis_reoffer_exceeds_frame `{CryptoLaws} p e pr rs pl txs :
  length p = 32%nat -> txs_ok txs ->
  budget_for p 0 e pr None rs + WITNESS_ALLOWANCE < zlen (encode_payload txs) + zlen (Vote.cert_to_bytes pl) ->
  zlen (encode_payload txs) <= budget_for p 0 e pr None rs ->
  verify_structure (proposal p 0 e pr None rs None txs) = true /\
  verify_structure (reoffer (proposal p 0 e pr None rs None txs) pl) = false.
Proof.
  intros Hp Hok Hbig Hfit. destruct frame_constants as (Hfr & Hsr & Hwa). assert (Hh : header_len = 177) by done.
  pose proof (budget_eq p 0 e pr None rs Hp) as Hbe.
  assert (Hrv : 0 <= sum_len reveal_to_bytes rs) by apply sum_len_nonneg.
  assert (Hz : zlen (opt_bytes Vote.cert_to_bytes None) = 0) by done.
  assert (Hzw : zlen (opt_bytes witness_to_bytes None) = 0) by done.
  rewrite Hfr, Hsr, Hwa, Hh, Hz in Hbe.
  destruct (payload_len txs Hok) as [Hlow _]. pose proof (sum_len_nonneg Tx.to_bytes txs).
  split.
  - rewrite proposal_structure. unfold fits_frame.
    rewrite payload_budget_eq by by apply proposal_roots. rewrite proposal_overhead, Hz, Hzw. apply Z.leb_le.
    unfold payload_bytes. rewrite proposal_txs, Hfr, Hsr, Hh. lia.
  - apply not_true_iff_false. rewrite verify_structure_iff. intros (_ & _ & Hf & _).
    rewrite reoffer_fits in Hf by done. apply Z.leb_le in Hf. rewrite Hfr, Hsr, Hh, Hz in Hf. lia.
Qed.

(** ** Blocks on the wire *)

Definition witness_ok (w : LeaderWitness) : Prop :=
  length (lw_output w) = 32%nat /\ Forall (fun s : list Z => length s = 32%nat) (Pqvrf.siblings (lw_proof w)).

Definition opt_ok {A} (P : A -> Prop) (enc : A -> list Z) (o : option A) : Prop :=
  match o with Some a => P a /\ zlen (enc a) < 2 ^ 32 | None => True end.

Definition wire_ok (b : Block) : Prop :=
  header_ok (header b) /\ txs_ok (sealed_txs b) /\
  opt_ok Vote.cert_ok Vote.cert_to_bytes (last_commit b) /\ opt_ok witness_ok witness_to_bytes (witness b) /\
  opt_ok Vote.cert_ok Vote.cert_to_bytes (pol b) /\ Forall reveal_ok (reveals b) /\ zlen (reveals b) < 2 ^ 32.

#[global] Instance witness_ok_dec w : Decision (witness_ok w).
Proof. unfold witness_ok. apply _. Defined.
#[global] Instance opt_ok_dec {A} (P : A -> Prop) `{!forall a, Decision (P a)} enc o : Decision (opt_ok P enc o).
Proof. unfold opt_ok. destruct o; apply _. Defined.
#[global] Instance wire_ok_dec b : Decision (wire_ok b).
Proof. unfold wire_ok. apply _. Defined.

Lemma witness_from_to w : witness_ok w -> witness_from_bytes (witness_to_bytes w) = Some w.
Proof.
  intros [Ho Hs]. unfold witness_from_bytes, witness_to_bytes.
  assert (Hl : length (Pqvrf.proof_to_bytes (lw_proof w)) = (length (Pqvrf.siblings (lw_proof w)) * 32)%nat).
  { unfold Pqvrf.proof_to_bytes. clear -Hs. induction Hs as [|s l Hs _ IH]; [done|]. simpl. rewrite length_app. lia. }
  rewrite length_app, Ho, Hl. replace (32 + length (Pqvrf.siblings (lw_proof w)) * 32 - 32)%nat
    with (length (Pqvrf.siblings (lw_proof w)) * 32)%nat by lia.
  rewrite Nat.Div0.mod_mul, (proj2 (Nat.ltb_ge _ _)) by lia. cbn [orb negb Nat.eqb].
  rewrite take_app_length', drop_app_length' by done. rewrite Hl, Nat.div_mul by lia.
  rewrite Pqvrf.proof_bytes_roundtrip by done. by destruct w.
Qed.

Lemma read_opt_bytes {A} (P : A -> Prop) (enc : A -> list Z) (dec : list Z -> option A) o :
  (forall a, P a -> dec (enc a) = Some a) -> (forall a, P a -> enc a <> []) ->
  opt_ok P enc o -> read_opt dec (opt_bytes enc o) = Some o /\ zlen (opt_bytes enc o) < 2 ^ 32.
Proof.
  intros Hd Hn Ho. destruct o as [a|]; [|done]. destruct Ho as [Ha Hz]. split; [|done].
  cbn [opt_bytes fmap option_fmap option_map default]. unfold id, read_opt.
  destruct (enc a) as [|x l] eqn:E; [by apply Hn in E|]. by rewrite <- E, Hd.
Qed.

Lemma reveal_reads r : reveal_ok r -> reads reveal_read (reveal_to_bytes r) r.
Proof.
  intros (Hc & Hm & Hs) rd rest Hr E. unfold reveal_to_bytes in E. rewrite <- !app_assoc in E.
  destruct (rd_take_reads 32 _ Hc rd _ Hr E) as (r1 & E1 & R1 & H1).
  destruct (rd_u8_reads _ r1 _ H1 R1) as (r2 & E2 & R2 & H2).
  destruct (rd_var_bytes_reads _ Hs r2 _ H2 R2) as (r3 & E3 & R3 & H3).
  exists r3. unfold reveal_read, rd_array. rewrite E1, E2, E3. by destruct r.
Qed.

Lemma block_roundtrip (b : Block) : wire_ok b -> from_bytes (to_bytes b) = Some b.
Proof.
  intros (Hh & Ht & Hlc & Hw & Hpl & Hr & Hn). unfold from_bytes, to_bytes.
  rewrite wire_bytes_decode by by apply header_dom. unfold encode_payload.
  rewrite wire_bytes_decode by by apply framed_dom. rewrite unframe_framed by apply Ht.
  assert (Hcn : forall c, Vote.cert_ok c -> Vote.cert_to_bytes c <> []) by done.
  assert (Hwn : forall w, witness_ok w -> witness_to_bytes w <> []).
  { intros w [Hl _] E. unfold witness_to_bytes in E. apply app_nil in E as [E _]. by rewrite E in Hl. }
  apply (read_opt_bytes _ _ Vote.cert_from_bytes) in Hlc as [Elc Zlc]; [|apply Vote.certificate_roundtrip|done].
  apply (read_opt_bytes _ _ witness_from_bytes) in Hw as [Ew Zw]; [|apply witness_from_to|done].
  apply (read_opt_bytes _ _ Vote.cert_from_bytes) in Hpl as [Epl Zpl]; [|apply Vote.certificate_roundtrip|done].
  set (lcb := opt_bytes Vote.cert_to_bytes (last_commit b)) in *.
  set (wb := opt_bytes witness_to_bytes (witness b)) in *.
  set (pb := opt_bytes Vote.cert_to_bytes (pol b)) in *.
  match goal with |- context [reader_new ?bs] => destruct (rd_new_ok bs) as [H0 R0]; set (r0 := reader_new bs) in * end.
  destruct (rd_var_bytes_reads lcb Zlc r0 _ H0 R0) as (r1 & -> & R1 & H1). rewrite Elc.
  destruct (rd_var_bytes_reads wb Zw r1 _ H1 R1) as (r2 & -> & R2 & H2). rewrite Ew.
  destruct (rd_var_bytes_reads pb Zpl r2 _ H2 R2) as (r3 & -> & R3 & H3). rewrite Epl.
  destruct (rd_seq_reads reveal_read reveal_to_bytes MIN_WIRE (reveals b)) with (r := r3) (rest := @nil Z)
    as (r4 & -> & R4 & H4).
  - unfold MIN_WIRE. lia.
  - exact Hn.
  - eapply Forall_impl; [exact Hr|]. intros r Hok. split; [by apply reveal_reads|].
    destruct Hok as (Hc & _). unfold reveal_to_bytes, put_var_bytes, put_u32, MIN_WIRE.
    rewrite !length_app, length_le_bytes, Hc. simpl. lia.
  - exact H3.
  - rewrite app_nil_r, R3. unfold put_seq. rewrite u32_sat_small by exact Hn.
    rewrite wrap_small by (unfold in_u, zlen in *; lia). done.
  - rewrite (proj2 (rd_finish_iff r4 H4) R4). rewrite header_of_fields. by destruct b.
Qed.

(** A block survives the wire: what a proposer sends decodes to the same header, transactions,
    certificate, witness, proof of lock and openings. *)
Theorem block_bytes_roundtrip (b : Block) : wire_ok b -> from_bytes (to_bytes b) = Some b.
Proof. apply block_roundtrip. Qed.

(** A block of the concrete instance with one sealed transaction and one opening. *)
Definition w_tx : Tx.SealedTx :=
  match Threshold.w_sealed with
  | Ok s => Tx.mk_stx 5 s
  | Err _ => Tx.mk_stx 5 (Threshold.mk_sealed [] [] [])
  end.

Definition w_block : Block :=
  @with_reveals toy_crypto (@assemble toy_crypto GENESIS_PARENT 0 5 1 [w_tx])
    [mk_reveal (replicate 32 3) 2 [1; 2]].

Lemma w_block_ok : @block_ok w_block.
Proof. by_decide. Qed.

Lemma block_bytes_roundtrip_witness :
  from_bytes (to_bytes (with_witness w_block (mk_witness (replicate 32 1) Pqvrf.w_proof))) =
    Some (with_witness w_block (mk_witness (replicate 32 1) Pqvrf.w_proof)).
Proof. apply block_bytes_roundtrip. by_decide. Defined.

Lemma block_hash_binds_content_witness :
  (header w_block = header w_block /\ sealed_txs w_block = sealed_txs w_block /\
   reveals w_block = reveals w_block /\ last_commit w_block = last_commit w_block) \/
  @broken_on toy_crypto (@hashed w_block ++ @hashed w_block).
Proof.
  apply (@block_hash_binds_content toy_crypto toy_laws w_block w_block).
  - exact w_block_ok.
  - exact w_block_ok.
  - vm_compute. reflexivity.
  - vm_compute. reflexivity.
  - reflexivity.
Defined.

(** Two blocks that differ in one opening: no break among the messages the two hash, so the theorem
    separates their hashes. *)
Definition w_opened (share : list Z) : Block :=
  @with_reveals toy_crypto (@assemble toy_crypto GENESIS_PARENT 0 5 1 []) [mk_reveal (replicate 32 3) 2 share].

Example opened_blocks_intact : ~ @broken_on toy_crypto (hashed (w_opened [1; 2]) ++ hashed (w_opened [1; 3])).
Proof. by_decide. Qed.

Lemma available_block_reconstructs_witness :
  @reconstruct_payload toy_crypto w_block (Erasure.erase 0x45 (da_shards w_block)) =
    if Lrc.is_recoverable_fano 0x45 then Some (sealed_txs w_block) else None.
Proof.
  apply (@available_block_reconstructs toy_crypto w_block 0x45).
  - lia.
  - apply w_block_ok.
  - vm_compute. reflexivity.
Defined.

(** A transaction that nearly fills the first block, and the certificate of five votes that locks it. *)
Definition w_big : Tx.SealedTx :=
  Tx.mk_stx 5 (Threshold.mk_sealed (replicate 12 0) (replicate (Z.to_nat 1047500) 0) []).

Definition w_lock : Vote.Certificate :=
  Vote.mk_cert Vote.Prepare 0 0 (replicate 32 7)
    ((fun i => Vote.mk_signed (Vote.mk_vote 0 0 (replicate 32 7) Vote.Prepare i) (replicate HYBRID_SIG_LEN 5)) <$>
       [0; 1; 2; 3; 4]).

Lemma w_big_len : zlen (Tx.to_bytes w_big) = 1047526.
Proof.
  unfold Tx.to_bytes, Threshold.to_bytes, w_big. cbn [Tx.epoch Tx.sealed Threshold.nonce Threshold.sealed_shares
    Threshold.ciphertext concat]. rewrite app_nil_r, !zlen_app. unfold zlen.
  rewrite !length_be_bytes, !length_replicate. rewrite Z2Nat.id by lia. reflexivity.
Qed.

Lemma w_big_ok : txs_ok [w_big].
Proof.
  split; [|by_decide]. apply Forall_singleton. split; [by_decide|]. split; [|split].
  - unfold w_big, Threshold.sealed_ok.
    cbn [Tx.sealed Threshold.nonce Threshold.sealed_shares Threshold.ciphertext length].
    split; [reflexivity|]. split; [reflexivity|].
    split; [rewrite length_replicate, Z2Nat.id by lia; reflexivity|constructor].
  - unfold Tx.to_bytes, Threshold.to_bytes. rewrite !is_bytes_app. unfold w_big.
    cbn [Tx.sealed Threshold.nonce Threshold.sealed_shares Threshold.ciphertext concat].
    split; [apply is_bytes_be|]. split; [apply is_bytes_zeros|]. split; [apply is_bytes_be|].
    split; [apply is_bytes_be|]. split; [apply is_bytes_zeros|constructor].
  - rewrite w_big_len. unfold Varint.MAX. lia.
Qed.

(** A block above genesis with the certificate of its parent, an opening and one transaction. *)
Definition w_rs : list CommittedReveal := [mk_reveal (replicate 32 3) 2 [1; 2]].

Lemma packed_block_fits_frame_witness :
  let b := @proposal toy_crypto GENESIS_PARENT 1 5 1 (Some w_lock) w_rs None
    (pack_to_budget [w_tx] (@budget_for toy_crypto GENESIS_PARENT 1 5 1 (Some w_lock) w_rs)) in
  sealed_txs b = [w_tx] /\ @verify_structure toy_crypto b = true.
Proof.
  intros b. destruct (@packed_block_fits_frame toy_crypto toy_laws GENESIS_PARENT 1 5 1 (Some w_lock) w_rs None [w_tx]) as [Hf _].
  - reflexivity.
  - by_decide.
  - exact I.
  - split.
    + unfold b. rewrite proposal_txs, (@budget_eq toy_crypto toy_laws) by reflexivity. by_decide.
    + exact (proj1 (Hf ltac:(vm_compute; reflexivity))).
Defined.

Lemma genesis_reoffer_exceeds_frame_witness :
  @verify_structure toy_crypto (@proposal toy_crypto GENESIS_PARENT 0 5 1 None [] None [w_big]) = true /\
  @verify_structure toy_crypto (reoffer (@proposal toy_crypto GENESIS_PARENT 0 5 1 None [] None [w_big]) w_lock) = false.
Proof.
  destruct (payload_len [w_big] w_big_ok) as [Hl Hu].
  assert (Hs : sum_len Tx.to_bytes [w_big] = 1047526) by (unfold sum_len; cbn [foldr]; rewrite w_big_len; reflexivity).
  assert (Hb : @budget_for toy_crypto GENESIS_PARENT 0 5 1 None [] = 1047575) by (vm_compute; reflexivity).
  assert (Hc : zlen (Vote.cert_to_bytes w_lock) = 17144) by (vm_compute; reflexivity).
  assert (Hw : WITNESS_ALLOWANCE = 800) by (vm_compute; reflexivity).
  assert (Hz : zlen [w_big] = 1) by reflexivity.
  apply (@genesis_reoffer_exceeds_frame toy_crypto toy_laws GENESIS_PARENT 5 1 [] w_lock [w_big]).
  - reflexivity.
  - exact w_big_ok.
  - rewrite Hb, Hc, Hw. lia.
  - rewrite Hb. lia.
Defined.

End Block.
