(* ===== verification/Commit.v ===== *)
(** * The value commitment of the shielded pool

    [fanos-obolos/src/commit.rs] with the bytes of [fanos-obolos/src/codec.rs]: the public matrix, short
    randomness, the additively homomorphic commitment and the balance law checked on commitments alone. *)
From S2P Require Import Prelude Codec Sig Kem.
Local Open Scope Z_scope.

Module Commit.

Definition Q : Z := 0x1fffffffffffffff.
Definition N : nat := 128.
Definition L : nat := 256.
Definition MAX_VALUE : Z := 2 ^ 51.
Definition MAX_NOTES_PER_TX : Z := Q / MAX_VALUE - 2.
Definition CRS_LABEL : string := "FANOS-obolos-v1/commit-crs".
Definition RAND_LABEL : string := "FANOS-obolos-v1/commit-rand".

(** Signed wrap-around. *)
Definition i64 (x : Z) : Z := (x + 0x8000000000000000) mod 0x10000000000000000 - 0x8000000000000000.
Definition i128 (x : Z) : Z :=
  let half := 0x80000000000000000000000000000000 in
  if (- half <=? x) && (x <? half) then x else (x + half) mod (2 * half) - half.

(** [(x % Q + Q) % Q]; the sum stays below [2 * Q] and the cast below [Q]. *)
Definition rem (x : Z) : Z := Z.rem (Z.rem x Q + Q) Q.

(** [as_chunks::<K>().0]: the full chunks. *)
Definition chunks {A} (k : nat) (l : list A) : list (list A) :=
  map (fun i => take k (drop (i * k) l)) (seq 0 (length l / k)).

Record Params := mk_params { a1 : list Z; a2 : list Z }.
Record Randomness := mk_rand { coeffs : list Z }.
Record Commitment := mk_com { t0 : list Z; t1 : Z }.

#[global] Instance Randomness_eq_dec : EqDecision Randomness.
Proof. solve_decision. Defined.
#[global] Instance Commitment_eq_dec : EqDecision Commitment.
Proof. solve_decision. Defined.

Definition is_ternary (r : Randomness) : bool :=
  (length (coeffs r) =? L)%nat && forallb (fun c => (-1 <=? c) && (c <=? 1)) (coeffs r).

Definition rand_add (r s : Randomness) : Randomness := mk_rand (zip_with (fun a b => i64 (a + b)) (coeffs r) (coeffs s)).
Definition rand_sub (r s : Randomness) : Randomness := mk_rand (zip_with (fun a b => i64 (a - b)) (coeffs r) (coeffs s)).

(** [zip(..).map(..).sum()]. *)
Definition dot (row x : list Z) : Z := fold_left (fun acc p => i128 (acc + i128 (fst p * snd p))) (zip row x) 0.

Definition commit (p : Params) (value : Z) (r : Randomness) : Commitment :=
  mk_com (map (fun row => rem (dot row (coeffs r))) (chunks L (a1 p))) (rem (i128 (dot (a2 p) (coeffs r) + value))).

Definition public_value (value : Z) : Commitment := mk_com (replicate N 0) (rem value).

Definition com_add (c d : Commitment) : Commitment :=
  mk_com (zip_with (fun a b => rem (a + b)) (t0 c) (t0 d)) (rem (t1 c + t1 d)).

Definition com_sub (c d : Commitment) : Commitment :=
  mk_com (zip_with (fun a b => rem (a - b)) (t0 c) (t0 d)) (rem (t1 c - t1 d)).

Definition opens_to (c : Commitment) (p : Params) (value : Z) (r : Randomness) : bool := bool_decide (c = commit p value r).

Definition sum (cs : list Commitment) : Commitment := fold_left com_add cs (public_value 0).

Definition zero_randomness : Randomness := mk_rand (replicate L 0).

Definition sum_randomness (rs : list Randomness) : Randomness :=
  fold_left rand_add (drop 1 rs) (default zero_randomness (head rs)).

Definition verify_balance (p : Params) (inputs outputs : list Commitment) (fee : Z) (r_balance : Randomness) : bool :=
  opens_to (com_sub (com_sub (sum inputs) (sum outputs)) (public_value fee)) p 0 r_balance.

(** ** Bytes *)

Definition i64_bytes (x : Z) : list Z := le_bytes 8 (w64 x).
Definition i64_of (b : list Z) : Z := i64 (from_le b).

Definition com_to_bytes (c : Commitment) : list Z := concat (map i64_bytes (t0 c)) ++ i64_bytes (t1 c).
Definition COM_WIRE_LEN : nat := (N + 1) * 8.

Definition com_from_bytes (bytes : list Z) : option Commitment :=
  if negb (length bytes =? COM_WIRE_LEN)%nat then None else
  let words := map i64_of (chunks 8 bytes) in
  letO last := words !! N in Some (mk_com (take N words) last).

Definition rand_to_bytes (r : Randomness) : list Z := concat (map i64_bytes (coeffs r)).
Definition RAND_WIRE_LEN : nat := L * 8.

Definition rand_from_bytes (bytes : list Z) : option Randomness :=
  if negb (length bytes =? RAND_WIRE_LEN)%nat then None else
  let rand := mk_rand (map i64_of (chunks 8 bytes)) in
  if is_ternary rand then Some rand else None.

(** ** Derivation from seeds *)

Section xof.
  Context `{KemCrypto}.

Definition from_seed (seed : list Z) : Params :=
  let words := map (fun c => rem (from_le c)) (chunks 8 (hash_xof CRS_LABEL seed ((N * L + L) * 8))) in
  mk_params (take (N * L) words) (take L (drop (N * L) words)).

Definition standard : Params := from_seed (ascii_bytes "FANOS-obolos-v1/standard-crs").

(** One block of 256 bytes: those below 252, as trits. *)
Definition trits (block : list Z) : list Z := map (fun b => b mod 3 - 1) (filter (fun b => b < 252) block).

(** [while coeffs.len() < L]; the source bounds the rounds by nothing, so the fuel may end. *)
Fixpoint rand_loop (fuel : nat) (seed : list Z) (round : Z) (acc : list Z) : option (list Z) :=
  if (L <=? length acc)%nat then Some acc else
  match fuel with
  | O => None
  | S fuel => rand_loop fuel seed (w64 (round + 1)) (take L (acc ++ trits (hash_xof RAND_LABEL (seed ++ le_bytes 8 round) 256)))
  end.

Definition rand_from_seed (fuel : nat) (seed : list Z) : option Randomness := letO cs := rand_loop fuel seed 0 [] in Some (mk_rand cs).

End xof.

(** ** Arithmetic *)

Lemma rem_mod x : rem x = x mod Q.
Proof.
  unfold rem. pose proof (Z.rem_bound_abs x Q ltac:(done)) as Hb. change (Z.abs Q) with Q in Hb.
  rewrite Z.rem_mod_nonneg by (unfold Q in *; lia). rewrite <- (Z.mul_1_l Q) at 2. rewrite Z.mod_add by done.
  rewrite (Z.quot_rem x Q) at 2 by done. rewrite Z.mul_comm, Z.add_comm, Z.mod_add by done. done.
Qed.

Lemma i64_id x : - 2 ^ 63 <= x < 2 ^ 63 -> i64 x = x.
Proof. intros. unfold i64. rewrite Z.mod_small by lia. lia. Qed.
Lemma i128_id x : - 2 ^ 127 <= x < 2 ^ 127 -> i128 x = x.
Proof. intros. unfold i128. by rewrite (proj2 (Z.leb_le _ _)), (proj2 (Z.ltb_lt _ _)) by lia. Qed.

Lemma chunks_cons {A} k (a l : list A) : (0 < k)%nat -> length a = k -> chunks k (a ++ l) = a :: chunks k l.
Proof.
  intros Hk Ha. unfold chunks. rewrite length_app, Ha. replace (k + length l)%nat with (1 * k + length l)%nat by lia.
  rewrite Nat.div_add_l by lia. cbn [Nat.add seq map Nat.mul]. rewrite drop_0, take_app_length' by done. f_equal.
  rewrite <- seq_shift, map_map. apply map_ext. intros i. by rewrite Nat.mul_succ_l, Nat.add_comm, drop_app_add' by done.
Qed.

Lemma chunks_nil {A} k : (0 < k)%nat -> chunks k (@nil A) = [].
Proof. intros Hk. unfold chunks. by rewrite Nat.div_small. Qed.

Lemma chunks_concat {A} k (ls : list (list A)) : (0 < k)%nat -> Forall (fun a => length a = k) ls -> chunks k (concat ls) = ls.
Proof. intros Hk. induction 1 as [|a ls Ha _ IH]; cbn [concat]; [by apply chunks_nil|]. by rewrite chunks_cons, IH. Qed.

Lemma length_chunked {A} k (l : list A) n : (0 < k)%nat -> length l = (n * k)%nat -> length (chunks k l) = n.
Proof. intros Hk Hl. unfold chunks. by rewrite length_map, length_seq, Hl, Nat.div_mul by lia. Qed.

Lemma chunks_each {A} k (l : list A) n : (0 < k)%nat -> length l = (n * k)%nat -> Forall (fun c => length c = k /\ c ⊆ l) (chunks k l).
Proof.
  intros Hk Hl. unfold chunks. apply Forall_forall. intros c (i & -> & Hi)%list_elem_of_fmap. rewrite elem_of_seq, Hl, Nat.div_mul in Hi by lia.
  split; [rewrite length_take, length_drop; nia|]. intros x Hx. rewrite <- (take_drop (i * k) l), <- (take_drop k (drop (i * k) l)).
  apply elem_of_app. right. apply elem_of_app. by left.
Qed.

(** The exact inner product. *)
Definition zdot (row x : list Z) : Z := foldr Z.add 0 (zip_with Z.mul row x).

Definition within (b : Z) (l : list Z) : Prop := Forall (fun c => Z.abs c <= b) l.

Lemma dot_exact row x b : within (2 ^ 61) row -> within b x -> 0 <= b -> Z.of_nat (length row) * (2 ^ 61 * b) < 2 ^ 127 -> dot row x = zdot row x.
Proof.
  intros Hr Hx Hb Hl. unfold dot. enough (Hg : forall acc, Z.abs acc + Z.of_nat (length row) * (2 ^ 61 * b) < 2 ^ 127 ->
    fold_left (fun acc p => i128 (acc + i128 (fst p * snd p))) (zip row x) acc = acc + zdot row x) by (rewrite Hg; lia).
  clear Hl. revert x Hx. induction Hr as [|a row Ha _ IH]; intros x Hx acc Hacc; [unfold zdot; cbn; lia|].
  destruct Hx as [|c x Hc Hx]; [unfold zdot; cbn; lia|]. cbn [zip zip_with fold_left fst snd length] in *. rewrite Nat2Z.inj_succ in Hacc.
  assert (Hac : Z.abs (a * c) <= 2 ^ 61 * b) by (rewrite Z.abs_mul; nia). rewrite (i128_id (a * c)), i128_id by lia.
  rewrite IH by (done || lia). unfold zdot. cbn [zip_with foldr]. lia.
Qed.

Definition vadd : list Z -> list Z -> list Z := zip_with Z.add.
Definition vsub : list Z -> list Z -> list Z := zip_with Z.sub.

Lemma zdot_vadd row : forall x y, length x = length y -> zdot row (vadd x y) = zdot row x + zdot row y.
Proof.
  induction row as [|a row IH]; intros [|c x] [|d y] [=]; try done. unfold zdot, vadd in *. cbn [zip_with foldr]. rewrite IH by done. lia.
Qed.
Lemma zdot_vsub row : forall x y, length x = length y -> zdot row (vsub x y) = zdot row x - zdot row y.
Proof.
  induction row as [|a row IH]; intros [|c x] [|d y] [=]; try done. unfold zdot, vsub in *. cbn [zip_with foldr]. rewrite IH by done. lia.
Qed.
Lemma zdot_zero row n : zdot row (replicate n 0) = 0.
Proof. revert n. induction row as [|a row IH]; intros [|n]; try done. unfold zdot in *. cbn [replicate zip_with foldr]. rewrite IH. lia. Qed.

(** ** Commitments are linear *)

Record params_ok (p : Params) : Prop := {
  p_a1 : length (a1 p) = (N * L)%nat /\ within (2 ^ 61) (a1 p);
  p_a2 : length (a2 p) = L /\ within (2 ^ 61) (a2 p);
}.

(** Randomness of the right width with coefficients up to [b]. *)
Definition short (b : Z) (r : Randomness) : Prop := length (coeffs r) = L /\ within b (coeffs r).

(** The commitment without machine arithmetic, to any integer. *)
Definition com (p : Params) (v : Z) (x : list Z) : Commitment :=
  mk_com (map (fun row => zdot row x mod Q) (chunks L (a1 p))) ((zdot (a2 p) x + v) mod Q).

Lemma is_ternary_short r : is_ternary r = true <-> short 1 r.
Proof.
  unfold is_ternary, short, within. rewrite andb_true_iff, Nat.eqb_eq, forallb_forall, Forall_forall. apply and_iff_compat_l.
  split; intros Hf x Hx; specialize (Hf x ltac:(by apply list_elem_of_In)); [rewrite andb_true_iff, !Z.leb_le in Hf|rewrite andb_true_iff, !Z.leb_le]; lia.
Qed.

Lemma short_mono b c r : b <= c -> short b r -> short c r.
Proof. intros Hb [Hl Hw]. split; [done|]. eapply Forall_impl; [exact Hw|]. cbn. lia. Qed.

Lemma within_zip (f : Z -> Z -> Z) b c d x y : within b x -> within c y ->
  (forall u v, Z.abs u <= b -> Z.abs v <= c -> Z.abs (f u v) <= d) -> within d (zip_with f x y).
Proof. intros Hx Hy Hf. revert y Hy. induction Hx as [|u x Hu _ IH]; intros [|v y] Hy; try constructor; inversion Hy; subst; [by apply Hf|by apply IH]. Qed.

Lemma zip_with_within (f g : Z -> Z -> Z) b c x y : within b x -> within c y ->
  (forall u v, Z.abs u <= b -> Z.abs v <= c -> f u v = g u v) -> zip_with f x y = zip_with g x y.
Proof. intros Hx Hy Hf. revert y Hy. induction Hx as [|u x Hu _ IH]; intros [|v y] Hy; try done; inversion Hy; subst. cbn [zip_with]. by rewrite Hf, IH. Qed.

Lemma rand_add_short b c r s : short b r -> short c s -> b + c < 2 ^ 63 ->
  short (b + c) (rand_add r s) /\ coeffs (rand_add r s) = vadd (coeffs r) (coeffs s).
Proof.
  intros [Lr Wr] [Ls Ws] Hb. assert (E : coeffs (rand_add r s) = vadd (coeffs r) (coeffs s)).
  { unfold rand_add, vadd. cbn [coeffs]. apply (zip_with_within _ _ b c); [done..|]. intros u v Hu Hv. apply i64_id. lia. }
  split; [|done]. split; rewrite E; unfold vadd; [rewrite length_zip_with; lia|]. eapply within_zip; [done..|]. lia.
Qed.

Lemma rand_sub_short b c r s : short b r -> short c s -> b + c < 2 ^ 63 ->
  short (b + c) (rand_sub r s) /\ coeffs (rand_sub r s) = vsub (coeffs r) (coeffs s).
Proof.
  intros [Lr Wr] [Ls Ws] Hb. assert (E : coeffs (rand_sub r s) = vsub (coeffs r) (coeffs s)).
  { unfold rand_sub, vsub. cbn [coeffs]. apply (zip_with_within _ _ b c); [done..|]. intros u v Hu Hv. apply i64_id. lia. }
  split; [|done]. split; rewrite E; unfold vsub; [rewrite length_zip_with; lia|]. eapply within_zip; [done..|]. lia.
Qed.

Section linear.
  Context (p : Params) (Hp : params_ok p).

Lemma row_ok row : row ∈ chunks L (a1 p) -> length row = L /\ within (2 ^ 61) row.
Proof.
  intros Hr. destruct (p_a1 p Hp) as [Hl Hw]. pose proof (chunks_each L (a1 p) N ltac:(unfold L; lia) Hl) as Hc.
  rewrite Forall_forall in Hc. destruct (Hc row Hr) as [? Hs]. split; [done|]. apply Forall_forall. intros x Hx. apply Hs in Hx. by eapply Forall_forall in Hw.
Qed.

Lemma dot_short row b r : length row = L -> within (2 ^ 61) row -> short b r -> 0 <= b <= 2 ^ 40 -> dot row (coeffs r) = zdot row (coeffs r).
Proof. intros Hl Hw [_ Hr] Hb. apply (dot_exact _ _ b); try done; [lia|]. rewrite Hl. unfold L. lia. Qed.

Lemma zdot_short row b x : within (2 ^ 61) row -> within b x -> 0 <= b -> Z.abs (zdot row x) <= Z.of_nat (length row) * (2 ^ 61 * b).
Proof.
  intros Hr Hx Hb. revert x Hx. induction Hr as [|a row Ha _ IH]; intros x Hx; [unfold zdot; cbn; lia|].
  destruct Hx as [|c x Hc Hx]; [unfold zdot; cbn [zip_with foldr length]; lia|]. specialize (IH x Hx). unfold zdot in *. cbn [zip_with foldr length].
  assert (Z.abs (a * c) <= 2 ^ 61 * b) by (rewrite Z.abs_mul; nia). lia.
Qed.

(** The machine arithmetic is exact. *)
Lemma commit_com b v r : short b r -> 0 <= b <= 2 ^ 40 -> 0 <= v < 2 ^ 64 -> commit p v r = com p v (coeffs r).
Proof.
  intros Hr Hb Hv. destruct (p_a2 p Hp) as [L2 W2]. unfold commit, com. f_equal.
  - apply map_ext_in. intros row Hin%list_elem_of_In. destruct (row_ok row Hin) as [Hl Hw]. by rewrite (dot_short row b r), rem_mod.
  - rewrite (dot_short _ b r) by done. pose proof (zdot_short (a2 p) b (coeffs r) W2 (proj2 Hr) ltac:(lia)) as Hz. rewrite L2 in Hz. unfold L in Hz.
    rewrite i128_id, rem_mod by lia. done.
Qed.

Lemma com_add_com v w x y : length x = length y -> com_add (com p v x) (com p w y) = com p (v + w) (vadd x y).
Proof.
  intros Hl. unfold com_add, com. cbn [t0 t1]. f_equal.
  - induction (chunks L (a1 p)) as [|row rows IH]; [done|]. cbn [map zip_with]. by rewrite IH, rem_mod, <- Z.add_mod, zdot_vadd.
  - rewrite rem_mod, <- Z.add_mod, zdot_vadd by done. f_equal. lia.
Qed.

Lemma com_sub_com v w x y : length x = length y -> com_sub (com p v x) (com p w y) = com p (v - w) (vsub x y).
Proof.
  intros Hl. unfold com_sub, com. cbn [t0 t1]. f_equal.
  - induction (chunks L (a1 p)) as [|row rows IH]; [done|]. cbn [map zip_with]. by rewrite IH, rem_mod, <- Zminus_mod, zdot_vsub.
  - rewrite rem_mod, <- Zminus_mod, zdot_vsub by done. f_equal. lia.
Qed.

Lemma public_com v : public_value v = com p v (replicate L 0).
Proof.
  unfold public_value, com. rewrite zdot_zero, Z.add_0_l, rem_mod. f_equal. destruct (p_a1 p Hp) as [Hl _].
  rewrite <- (length_chunked L (a1 p) N ltac:(unfold L; lia) Hl). induction (chunks L (a1 p)) as [|row rows IH]; [done|].
  cbn [map length replicate]. by rewrite <- IH, zdot_zero.
Qed.

End linear.

(** ** The balance law *)

Definition zsum (l : list Z) : Z := foldr Z.add 0 l.

Lemma zsum_app l m : zsum (l ++ m) = zsum l + zsum m.
Proof. unfold zsum. induction l as [|x l IH]; cbn [app foldr]; lia. Qed.

Lemma zsum_range l : Forall (fun v => 0 <= v < MAX_VALUE) l -> 0 <= zsum l <= Z.of_nat (length l) * (MAX_VALUE - 1).
Proof. unfold zsum. induction 1 as [|v l Hv _ IH]; cbn [foldr length]; lia. Qed.

Lemma vadd_zero n x : length x = n -> vadd (replicate n 0) x = x.
Proof. intros <-. unfold vadd. induction x as [|a x IH]; [done|]. cbn [length replicate zip_with]. by rewrite IH. Qed.

(** Sums of short randomness stay short, and are sums. *)
Lemma sum_randomness_spec rs : Forall (short 1) rs -> Z.of_nat (length rs) <= 2 ^ 20 ->
  short (Z.of_nat (length rs)) (sum_randomness rs) /\ coeffs (sum_randomness rs) = fold_left vadd (map coeffs rs) (replicate L 0).
Proof.
  intros Hs Hl. destruct Hs as [|r rs Hr Hs].
  { split; [|done]. split; [apply length_replicate|]. apply Forall_replicate. cbn. lia. }
  unfold sum_randomness. cbn [drop head default map fold_left length] in *. rewrite vadd_zero by apply Hr.
  assert (Hg : forall b r, short b r -> 0 <= b -> b + Z.of_nat (length rs) <= 2 ^ 20 ->
    short (b + Z.of_nat (length rs)) (fold_left rand_add rs r) /\ coeffs (fold_left rand_add rs r) = fold_left vadd (map coeffs rs) (coeffs r)).
  { clear r Hr Hl. induction Hs as [|s rs Hs _ IH]; intros b r Hr Hb Hl; cbn [fold_left map length] in *; [rewrite Z.add_0_r; done|].
    destruct (rand_add_short b 1 r s Hr Hs ltac:(lia)) as [Ha E]. destruct (IH (b + 1) (rand_add r s) Ha ltac:(lia) ltac:(lia)) as [H1 H2].
    split; [eapply short_mono; [|exact H1]; lia|]. by rewrite H2, E. }
  destruct (Hg 1 r Hr ltac:(lia) ltac:(lia)) as [H1 H2]. split; [eapply short_mono; [|exact H1]; lia|done].
Qed.

Section balance.
  Context (p : Params) (Hp : params_ok p).

(** An opening: an amount below the range bound under ternary randomness. *)
Definition opening_ok (o : Z * Randomness) : Prop := 0 <= fst o < 2 ^ 64 /\ short 1 (snd o).

Lemma sum_com (os : list (Z * Randomness)) : Forall opening_ok os ->
  sum (map (fun o => commit p (fst o) (snd o)) os) = com p (zsum (map fst os)) (fold_left vadd (map coeffs (map snd os)) (replicate L 0)).
Proof.
  intros Ho. unfold sum. rewrite (public_com p Hp).
  enough (Hg : forall v x, length x = L -> fold_left com_add (map (fun o => commit p (fst o) (snd o)) os) (com p v x) =
    com p (v + zsum (map fst os)) (fold_left vadd (map coeffs (map snd os)) x)) by (rewrite Hg; [done|apply length_replicate]).
  induction Ho as [|[v r] os [Hv Hr] _ IH]; intros w x Hx; cbn [map fold_left zsum foldr fst snd] in *; [by rewrite Z.add_0_r|].
  rewrite (commit_com p Hp 1) by (done || lia). rewrite com_add_com by (rewrite Hx; symmetry; apply Hr).
  rewrite IH by (unfold vadd; rewrite length_zip_with, Hx, (proj1 Hr); apply Nat.min_id). by rewrite Z.add_assoc.
Qed.

Lemma length_vsum xs x : Forall (fun y => length y = L) xs -> length x = L -> length (fold_left vadd xs x) = L.
Proof.
  intros Hs. revert x. induction Hs as [|y xs Hy _ IH]; intros x Hx; [done|]. cbn [fold_left]. apply IH.
  unfold vadd. rewrite length_zip_with, Hx, Hy. apply Nat.min_id.
Qed.

(** The balance check on commitments whose openings are known decides the sums modulo [Q]. *)
Lemma verify_balance_iff ins outs fee : Forall opening_ok ins -> Forall opening_ok outs -> 0 <= fee < 2 ^ 64 ->
  Z.of_nat (length ins) + Z.of_nat (length outs) <= 2 ^ 19 ->
  verify_balance p (map (fun o => commit p (fst o) (snd o)) ins) (map (fun o => commit p (fst o) (snd o)) outs) fee
    (rand_sub (sum_randomness (map snd ins)) (sum_randomness (map snd outs))) = true <->
  (zsum (map fst ins) - zsum (map fst outs) - fee) mod Q = 0.
Proof.
  intros Hi Ho Hfee Hl. assert (Hs : forall os, Forall opening_ok os -> Forall (short 1) (map snd os))
    by (intros os Hos; induction Hos as [|o os Hx _ IH]; constructor; [apply Hx|done]).
  destruct (sum_randomness_spec (map snd ins) (Hs _ Hi) ltac:(rewrite length_map; lia)) as [Si Ei].
  destruct (sum_randomness_spec (map snd outs) (Hs _ Ho) ltac:(rewrite length_map; lia)) as [So Eo]. rewrite !length_map in *.
  destruct (rand_sub_short _ _ _ _ Si So ltac:(lia)) as [Sb Eb]. unfold verify_balance, opens_to. rewrite bool_decide_eq_true.
  rewrite !sum_com, (public_com p Hp), <- Ei, <- Eo by done. rewrite com_sub_com by (by rewrite (proj1 Si), (proj1 So)).
  rewrite (commit_com p Hp _ _ _ Sb) by lia. rewrite <- Eb.
  rewrite com_sub_com by (rewrite (proj1 Sb), length_replicate; done).
  assert (Ez : vsub (coeffs (rand_sub (sum_randomness (map snd ins)) (sum_randomness (map snd outs)))) (replicate L 0) =
    coeffs (rand_sub (sum_randomness (map snd ins)) (sum_randomness (map snd outs)))).
  { generalize (proj1 Sb). generalize (coeffs (rand_sub (sum_randomness (map snd ins)) (sum_randomness (map snd outs)))). unfold vsub.
    intros x <-. induction x as [|a x IH]; [done|]. cbn [length replicate zip_with]. rewrite IH. by rewrite Z.sub_0_r. }
  rewrite Ez. unfold com. set (d := zdot (a2 p) _). set (V := _ - fee). split.
  - intros [= E]. rewrite Z.add_0_r in E. replace V with ((d + V) - d) by lia. by rewrite Zminus_mod, E, Z.sub_diag.
  - intros E. f_equal. rewrite Z.add_0_r, Z.add_mod, E, Z.add_0_r, Z.mod_mod by done. done.
Qed.

(** Within the bounds on amounts and on their number nothing wraps: the check decides the balance law over
    the integers. *)
Lemma balance_exact ins outs fee : Forall (fun o => 0 <= fst o < MAX_VALUE /\ short 1 (snd o)) ins ->
  Forall (fun o => 0 <= fst o < MAX_VALUE /\ short 1 (snd o)) outs -> 0 <= fee < 2 * MAX_VALUE - 1 ->
  Z.of_nat (length ins) + Z.of_nat (length outs) <= MAX_NOTES_PER_TX ->
  verify_balance p (map (fun o => commit p (fst o) (snd o)) ins) (map (fun o => commit p (fst o) (snd o)) outs) fee
    (rand_sub (sum_randomness (map snd ins)) (sum_randomness (map snd outs))) = true <->
  zsum (map fst ins) = zsum (map fst outs) + fee.
Proof.
  intros Hi Ho Hfee Hl. assert (Hw : forall os, Forall (fun o : Z * Randomness => 0 <= fst o < MAX_VALUE /\ short 1 (snd o)) os ->
    Forall opening_ok os /\ Forall (fun v => 0 <= v < MAX_VALUE) (map fst os)).
  { intros os Hos. split; [eapply Forall_impl; [exact Hos|]|apply Forall_map; eapply Forall_impl; [exact Hos|]]; cbn; unfold opening_ok, MAX_VALUE; intros ? [? ?]; [|done].
    split; [lia|done]. }
  change MAX_NOTES_PER_TX with 1021 in Hl. destruct (Hw _ Hi) as [Hi1 Hi2], (Hw _ Ho) as [Ho1 Ho2].
  apply zsum_range in Hi2, Ho2. rewrite length_map in Hi2, Ho2. unfold MAX_VALUE in *.
  rewrite verify_balance_iff by (done || lia). rewrite Z.mod_divide by done. unfold Q. split; [intros [k Hk]; nia|intros ->; exists 0; lia].
Qed.

End balance.

(** ** Bytes and seeds *)

Abbreviation is_i64 x := (- 2 ^ 63 <= x < 2 ^ 63).

Lemma i64_of_bytes x : is_i64 x -> i64_of (i64_bytes x) = x.
Proof.
  intros Hx. unfold i64_of, i64_bytes. rewrite from_le_id by (apply wrap_range; lia). unfold i64, wrap.
  rewrite Zplus_mod_idemp_l, Z.mod_small by lia. lia.
Qed.

Lemma i64_bytes_of b : is_bytes b -> length b = 8%nat -> i64_bytes (i64_of b) = b /\ is_i64 (i64_of b).
Proof.
  intros Hb Hl. pose proof (from_le_range b Hb) as Hr. rewrite Hl in Hr. unfold in_u in Hr. change (8 * Z.of_nat 8) with 64 in Hr.
  unfold i64_bytes, i64_of, i64, wrap. split.
  - rewrite Zminus_mod_idemp_l, Z.add_simpl_r, Z.mod_small by done. by apply le_bytes_from_le_n.
  - pose proof (Z.mod_pos_bound (from_le b + 0x8000000000000000) 0x10000000000000000). lia.
Qed.

Lemma length_i64_bytes x : length (i64_bytes x) = 8%nat.
Proof. apply length_le_bytes. Qed.

Lemma words_roundtrip xs : Forall (fun x => is_i64 x) xs -> map i64_of (chunks 8 (concat (map i64_bytes xs))) = xs.
Proof.
  intros Hx. rewrite chunks_concat; [|lia|apply Forall_map, Forall_true, length_i64_bytes]. rewrite map_map.
  induction Hx as [|x xs Hx _ IH]; [done|]. cbn [map]. by rewrite IH, i64_of_bytes.
Qed.

Lemma length_words xs : length (concat (map i64_bytes xs)) = (length xs * 8)%nat.
Proof. induction xs as [|x xs IH]; [done|]. cbn [map concat length]. rewrite length_app, IH, length_i64_bytes. lia. Qed.

Lemma concat_words {A} k (l : list A) n : (0 < k)%nat -> length l = (n * k)%nat -> concat (chunks k l) = l.
Proof.
  intros Hk. revert l. induction n as [|n IH]; intros l Hl; [by apply length_zero_iff_nil in Hl as ->; rewrite chunks_nil|].
  rewrite <- (take_drop k l), chunks_cons; [|done|rewrite length_take; lia]. cbn [concat]. rewrite IH; [done|rewrite length_drop; lia].
Qed.

Lemma words_exact b n : is_bytes b -> length b = (n * 8)%nat ->
  concat (map i64_bytes (map i64_of (chunks 8 b))) = b /\ Forall (fun x => is_i64 x) (map i64_of (chunks 8 b)) /\ length (map i64_of (chunks 8 b)) = n.
Proof.
  intros Hb Hl. assert (Hc : Forall (fun c => length c = 8%nat /\ is_bytes c) (chunks 8 b)).
  { eapply Forall_impl; [apply (chunks_each 8 b n); [lia|done]|]. intros c [? Hs]. split; [done|]. apply Forall_forall. intros x Hx.
    apply Hs in Hx. by eapply Forall_forall in Hb. }
  split_and!.
  - rewrite <- (concat_words 8 b n) at 2 by (lia || done). f_equal. rewrite map_map. induction Hc as [|c cs [? ?] _ IH]; [done|]. cbn [map]. rewrite IH.
    by rewrite (proj1 (i64_bytes_of c ltac:(done) ltac:(done))).
  - apply Forall_map. eapply Forall_impl; [exact Hc|]. intros c [? ?]. by apply i64_bytes_of.
  - rewrite length_map. apply length_chunked; [lia|done].
Qed.

Definition com_ok (c : Commitment) : Prop := length (t0 c) = N /\ Forall (fun x => is_i64 x) (t0 c) /\ is_i64 (t1 c).

Lemma length_com_bytes c : length (t0 c) = N -> length (com_to_bytes c) = COM_WIRE_LEN.
Proof. intros Hl. unfold com_to_bytes, COM_WIRE_LEN. rewrite length_app, length_words, Hl, length_i64_bytes. lia. Qed.

Lemma com_to_bytes_words c : com_to_bytes c = concat (map i64_bytes (t0 c ++ [t1 c])).
Proof. unfold com_to_bytes. rewrite map_app, concat_app. cbn [map concat]. by rewrite app_nil_r. Qed.

Lemma com_from_to c : com_ok c -> com_from_bytes (com_to_bytes c) = Some c.
Proof.
  intros (Hl & H0 & H1). unfold com_from_bytes. rewrite length_com_bytes, Nat.eqb_refl by done. cbn [negb]. cbv zeta.
  rewrite com_to_bytes_words, words_roundtrip by (apply Forall_app; split; [done|by constructor]).
  rewrite lookup_app_r, Hl, Nat.sub_diag by lia. cbn [lookup list_lookup mbind option_bind]. rewrite take_app_length' by done. by destruct c.
Qed.

Lemma com_to_from b c : is_bytes b -> com_from_bytes b = Some c -> com_to_bytes c = b /\ com_ok c.
Proof.
  intros Hb. unfold com_from_bytes. destruct (Nat.eqb_spec (length b) COM_WIRE_LEN) as [Hl|]; cbn [negb]; [|done]. cbv zeta.
  destruct (words_exact b (N + 1) Hb Hl) as (E & Hi & Hn). set (ws := map i64_of (chunks 8 b)) in *. destruct (ws !! N) as [last|] eqn:El; [|done].
  intros [= <-]. assert (Ew : ws = take N ws ++ [last]) by (rewrite <- (take_drop N ws) at 1; f_equal; rewrite (drop_S _ _ _ El), drop_ge; [done|lia]).
  split; [rewrite com_to_bytes_words; cbn [t0 t1]; by rewrite <- Ew|]. rewrite Ew, Forall_app in Hi. destruct Hi as [Hi1 Hi2].
  split; cbn [t0 t1]; [rewrite length_take; lia|]. split; [done|by inversion Hi2].
Qed.

Lemma rand_from_to r : is_ternary r = true -> rand_from_bytes (rand_to_bytes r) = Some r.
Proof.
  intros Ht. pose proof Ht as [Hl Hw]%is_ternary_short. unfold rand_from_bytes, rand_to_bytes. rewrite length_words, Hl, Nat.eqb_refl. cbn [negb]. cbv zeta.
  rewrite words_roundtrip by (eapply Forall_impl; [exact Hw|]; cbn; lia). destruct r. cbn [coeffs]. by rewrite Ht.
Qed.

Lemma rand_to_from b r : is_bytes b -> rand_from_bytes b = Some r -> rand_to_bytes r = b /\ is_ternary r = true.
Proof.
  intros Hb. unfold rand_from_bytes. destruct (Nat.eqb_spec (length b) RAND_WIRE_LEN) as [Hl|]; cbn [negb]; [|done]. cbv zeta.
  destruct (is_ternary _) eqn:Ht; [|done]. intros [= <-]. split; [|done]. unfold rand_to_bytes. cbn [coeffs]. by apply (words_exact b L Hb Hl).
Qed.

Lemma length_rand_bytes r : length (coeffs r) = L -> length (rand_to_bytes r) = RAND_WIRE_LEN.
Proof. intros Hl. unfold rand_to_bytes, RAND_WIRE_LEN. by rewrite length_words, Hl. Qed.

Lemma commit_ok p v r : params_ok p -> com_ok (commit p v r).
Proof.
  intros Hp. destruct (p_a1 p Hp) as [Hl _]. assert (Hm : forall x, is_i64 (rem x)) by (intros x; rewrite rem_mod; pose proof (Z.mod_pos_bound x Q ltac:(done)); unfold Q in *; lia).
  unfold commit. split; cbn [t0 t1]; [rewrite length_map; apply length_chunked; [unfold L; lia|done]|]. split; [by apply Forall_map, Forall_true|done].
Qed.

Section seeds.
  Context `{KemCrypto} `{!KemLaws}.

Lemma from_seed_ok seed : params_ok (from_seed seed).
Proof.
  unfold from_seed. set (ws := map _ _). assert (Hw : within (2 ^ 61) ws).
  { apply Forall_map, Forall_true. intros c. rewrite rem_mod. pose proof (Z.mod_pos_bound (from_le c) Q ltac:(done)). unfold Q in *. lia. }
  assert (Hl : length ws = (N * L + L)%nat) by (unfold ws; rewrite length_map; apply length_chunked; [lia|apply blake3_xof_length]).
  split; cbn [a1 a2]; (split; [rewrite length_take, ?length_drop; lia|]); [by apply Forall_take|by apply Forall_take, Forall_drop].
Qed.

Lemma trits_ternary block : is_bytes block -> within 1 (trits block).
Proof.
  intros Hb. apply Forall_map, Forall_forall. intros b [_ Hin]%list_elem_of_filter. pose proof (Z.mod_pos_bound b 3). lia.
Qed.

Lemma rand_from_seed_ternary fuel seed r : rand_from_seed fuel seed = Some r -> is_ternary r = true.
Proof.
  unfold rand_from_seed. destruct (rand_loop fuel seed 0 []) as [cs|] eqn:E; [|done]. intros [= <-]. apply is_ternary_short. revert E.
  assert (Hg : forall fuel round acc, (length acc <= L)%nat -> within 1 acc -> rand_loop fuel seed round acc = Some cs -> short 1 (mk_rand cs)).
  { clear fuel. induction fuel as [|fuel IH]; intros round acc Hl Hw; cbn [rand_loop]; destruct (Nat.leb_spec L (length acc)); try done.
    - intros [= <-]. split; cbn [coeffs]; [lia|done].
    - intros [= <-]. split; cbn [coeffs]; [lia|done].
    - apply IH; [rewrite length_take; lia|]. apply Forall_take, Forall_app. split; [done|]. apply trits_ternary, blake3_xof_bytes. }
  apply Hg; [cbn; lia|constructor].
Qed.

(** A first block with no byte to reject is enough. *)
Lemma rand_from_seed_enough fuel seed : Forall (fun b => b < 252) (hash_xof RAND_LABEL (seed ++ le_bytes 8 0) 256) ->
  is_Some (rand_from_seed (S fuel) seed).
Proof.
  intros Hb. unfold rand_from_seed. cbn [rand_loop]. destruct (Nat.leb_spec L (length (@nil Z))); [by eexists|].
  assert (Hl : length (take L ([] ++ trits (hash_xof RAND_LABEL (seed ++ le_bytes 8 0) 256))) = L).
  { cbn [app]. unfold trits. assert (Ef : forall l, Forall (fun b => b < 252) l -> filter (fun b => b < 252) l = l)
      by (induction 1 as [|b l Hx _ IH]; [done|]; by rewrite filter_cons_True, IH).
    rewrite Ef, length_take, length_map by done. unfold hash_xof. rewrite blake3_xof_length. done. }
  destruct fuel; cbn [rand_loop]; rewrite Hl, Nat.leb_refl; by eexists.
Qed.

(** The trits the blocks [round], [round + 1], ... of a seed hold. *)
Definition drawn_from (seed : list Z) (round : Z) (blocks : nat) : list Z :=
  seqZ round (Z.of_nat blocks) ≫= (fun k => trits (hash_xof RAND_LABEL (seed ++ le_bytes 8 k) 256)).

Lemma rand_loop_returns seed blocks : forall fuel round acc, (L <= length acc + length (drawn_from seed round blocks))%nat ->
  (blocks <= fuel)%nat -> 0 <= round -> round + Z.of_nat blocks < 2 ^ 64 -> is_Some (rand_loop fuel seed round acc).
Proof.
  induction blocks as [|blocks IH]; intros fuel round acc Hl Hf Hr Hw.
  { change (drawn_from seed round 0) with (@nil Z) in Hl. cbn [length] in Hl. rewrite Nat.add_0_r in Hl.
    destruct fuel; cbn [rand_loop]; rewrite (proj2 (Nat.leb_le _ _) Hl); by eexists. }
  destruct fuel as [|fuel]; [lia|]. cbn [rand_loop]. destruct (Nat.leb_spec L (length acc)); [by eexists|].
  rewrite wrap_small by (unfold in_u; lia). apply IH; [|lia..]. unfold drawn_from in Hl |- *. rewrite seqZ_cons in Hl by lia.
  rewrite bind_cons, length_app in Hl. replace (Z.pred (Z.of_nat (S blocks))) with (Z.of_nat blocks) in Hl by lia.
  rewrite length_take, length_app. change (Z.succ round) with (round + 1) in Hl. lia.
Qed.

(** Sampling ends as soon as the blocks read hold [L] bytes that are not rejected. *)
Lemma rand_from_seed_returns fuel seed blocks : (L <= length (drawn_from seed 0 blocks))%nat ->
  (blocks <= fuel)%nat -> Z.of_nat blocks < 2 ^ 64 -> is_Some (rand_from_seed fuel seed).
Proof.
  intros Hl Hf Hw. unfold rand_from_seed. destruct (rand_loop_returns seed blocks fuel 0 []) as [cs ->]; [done..|]. by eexists.
Qed.

End seeds.
End Commit.
