(* ===== verification/NoteTree.v ===== *)
(** * The note-commitment tree and the nullifiers of the shielded pool

    [fanos-obolos/src/tree.rs]: the append-only tree of fixed depth with canonical empty padding, its root,
    authentication paths and their check.  [fanos-obolos/src/nullifier.rs]: position-bound nullifiers and the
    set of those revealed.  The tree is related to a reference, the root of the complete tree over the leaves
    and empty leaves. *)
From S2P Require Import Prelude Codec Sig Block.
Local Open Scope Z_scope.

Module NoteTree.

Definition TREE_DEPTH : nat := 32.
Definition NODE_LABEL : string := "FANOS-obolos-v1/tree-node".
Definition EMPTY_LEAF_LABEL : string := "FANOS-obolos-v1/tree-empty-leaf".
Definition NULLIFIER_LABEL : string := "FANOS-obolos-v1/nullifier".
Definition NF_SET_ROOT_LABEL : string := "FANOS-obolos-v1/nf-set-root".

Record AuthPath := mk_path { p_index : Z; siblings : list (list Z) }.
Record CommitmentTree := mk_tree { leaves : list (list Z) }.
Record NullifierSet := mk_nfs { seen : bset }.

#[global] Instance AuthPath_eq_dec : EqDecision AuthPath.
Proof. solve_decision. Defined.

Definition tree_new : CommitmentTree := mk_tree [].
Definition size (t : CommitmentTree) : Z := Z.of_nat (length (leaves t)).
Definition is_full (t : CommitmentTree) : bool := 2 ^ Z.of_nat TREE_DEPTH <=? size t.

Definition append (t : CommitmentTree) (cm : list Z) : option Z * CommitmentTree :=
  if is_full t then (None, t) else (Some (size t), mk_tree (leaves t ++ [cm])).

Definition tree_to_bytes (t : CommitmentTree) : list Z := put_seq (length (leaves t)) (leaves t) id.

Definition tree_from_bytes (bytes : list Z) : option CommitmentTree :=
  let r := reader_new bytes in
  letO (ls, r) := rd_seq 32 (rd_array 32) r in
  letO _ := rd_finish r in
  if 2 ^ Z.of_nat TREE_DEPTH <? Z.of_nat (length ls) then None else Some (mk_tree ls).

Definition nfs_new : NullifierSet := mk_nfs ∅.
Definition contains (s : NullifierSet) (nf : list Z) : bool := bool_decide (nf ∈ seen s).
Definition insert (s : NullifierSet) (nf : list Z) : bool * NullifierSet := (negb (contains s nf), mk_nfs ({[nf]} ∪ seen s)).

Fixpoint fresh_loop (s : NullifierSet) (within : bset) (nfs : list (list Z)) : bool :=
  match nfs with
  | [] => true
  | nf :: nfs => negb (contains s nf) && bool_decide (nf ∉ within) && fresh_loop s ({[nf]} ∪ within) nfs
  end.

Definition all_fresh (s : NullifierSet) (nfs : list (list Z)) : bool := fresh_loop s ∅ nfs.

Definition nfs_to_bytes (s : NullifierSet) : list Z := put_seq (base.size (seen s)) (bset_list (seen s)) id.

Definition nfs_from_bytes (bytes : list Z) : option NullifierSet :=
  let r := reader_new bytes in
  letO (l, r) := rd_seq 32 (rd_array 32) r in
  letO _ := rd_finish r in
  Some (mk_nfs (list_to_set l)).

Section tree.
  Context `{Crypto}.

Definition node_hash (l r : list Z) : list Z := hash_labeled NODE_LABEL (l ++ r).

Fixpoint empties_loop (n : nat) (prev : list Z) : list (list Z) :=
  match n with O => [] | S n => prev :: empties_loop n (node_hash prev prev) end.

Definition empty_leaf : list Z := hash_labeled EMPTY_LEAF_LABEL [].
Definition empty_roots : list (list Z) := empties_loop (TREE_DEPTH + 1) empty_leaf.

(** The inner loop over [nodes.chunks(2)]. *)
Fixpoint next_level (empty : list Z) (nodes : list (list Z)) : list (list Z) :=
  match nodes with
  | [] => []
  | [l] => [node_hash l empty]
  | l :: r :: nodes => node_hash l r :: next_level empty nodes
  end.

Definition root (t : CommitmentTree) : list Z :=
  let empties := empty_roots in
  let nodes := fold_left (fun nodes empty => next_level empty nodes) (take TREE_DEPTH empties) (leaves t) in
  default (default (replicate 32 0) (last empties)) (head nodes).

Fixpoint path_loop (empties : list (list Z)) (nodes : list (list Z)) (idx : Z) : list (list Z) :=
  match empties with
  | [] => []
  | empty :: empties => default empty (nodes !! Z.to_nat (Z.lxor idx 1)) :: path_loop empties (next_level empty nodes) (Z.shiftr idx 1)
  end.

Definition path (t : CommitmentTree) (index : Z) : option AuthPath :=
  if size t <=? index then None else Some (mk_path index (path_loop (take TREE_DEPTH empty_roots) (leaves t) index)).

Fixpoint climb (cur : list Z) (idx : Z) (sibs : list (list Z)) : list Z :=
  match sibs with
  | [] => cur
  | sib :: sibs => climb (if Z.land idx 1 =? 0 then node_hash cur sib else node_hash sib cur) (Z.shiftr idx 1) sibs
  end.

Definition verify (p : AuthPath) (leaf root : list Z) : bool := bool_decide (climb leaf (p_index p) (siblings p) = root).

Definition derive (nsk : list Z) (position : Z) (cm : list Z) : list Z :=
  hash_labeled NULLIFIER_LABEL (nsk ++ be_bytes 8 position ++ cm).

Definition nfs_root (s : NullifierSet) : list Z := hash_labeled NF_SET_ROOT_LABEL (concat (bset_list (seen s))).

(** ** The reference tree *)

Fixpoint empty_at (h : nat) : list Z := match h with O => empty_leaf | S h => node_hash (empty_at h) (empty_at h) end.

(** The root of the subtree of height [h] whose first leaf is [i * 2 ^ h]. *)
Fixpoint subroot (ls : list (list Z)) (h : nat) (i : Z) : list Z :=
  match h with
  | O => default empty_leaf (ls !! Z.to_nat i)
  | S h => node_hash (subroot ls h (2 * i)) (subroot ls h (2 * i + 1))
  end.

Lemma empties_at n h : empties_loop n (empty_at h) = map (fun k => empty_at (h + k)) (seq 0 n).
Proof.
  revert h. induction n as [|n IH]; intros h; [done|]. cbn [empties_loop seq map]. rewrite Nat.add_0_r. f_equal.
  change (node_hash (empty_at h) (empty_at h)) with (empty_at (S h)). rewrite IH, <- seq_shift, map_map.
  apply map_ext. intros k. by rewrite Nat.add_succ_r.
Qed.

Lemma empties_take : take TREE_DEPTH empty_roots = map empty_at (seq 0 TREE_DEPTH).
Proof. unfold empty_roots. change empty_leaf with (empty_at 0). rewrite empties_at. done. Qed.

Lemma empties_last : last empty_roots = Some (empty_at TREE_DEPTH).
Proof. unfold empty_roots. change empty_leaf with (empty_at 0). rewrite empties_at. done. Qed.

Lemma lookup_level_up e nodes (i : nat) :
  default (node_hash e e) (next_level e nodes !! i) = node_hash (default e (nodes !! (2 * i)%nat)) (default e (nodes !! (2 * i + 1)%nat)).
Proof.
  revert i. enough (Hx : forall nodes, (forall i, default (node_hash e e) (next_level e nodes !! i) = node_hash (default e (nodes !! (2 * i)%nat)) (default e (nodes !! (2 * i + 1)%nat))) /\
    forall x i, default (node_hash e e) (next_level e (x :: nodes) !! i) = node_hash (default e ((x :: nodes) !! (2 * i)%nat)) (default e ((x :: nodes) !! (2 * i + 1)%nat))) by apply Hx.
  clear nodes. induction nodes as [|y nodes [IH1 IH2]]; [split; [done|intros x [|i]; [done|by rewrite !lookup_ge_None_2 by (cbn; lia)]]|].
  split; [apply IH2|]. intros x [|i]; [done|]. cbn [next_level]. rewrite lookup_cons_ne_0 by done. cbn [Nat.pred]. rewrite IH1.
  replace (2 * S i)%nat with (S (S (2 * i))) by lia. replace (S (S (2 * i)) + 1)%nat with (S (S (2 * i + 1))) by lia. done.
Qed.

(** A level of the fold agrees with the reference tree at its height. *)
Definition level_ok (ls : list (list Z)) (h : nat) (nodes : list (list Z)) : Prop :=
  forall i, 0 <= i -> default (empty_at h) (nodes !! Z.to_nat i) = subroot ls h i.

Lemma level_ok_next ls h nodes : level_ok ls h nodes -> level_ok ls (S h) (next_level (empty_at h) nodes).
Proof.
  intros Hl i Hi. cbn [empty_at subroot]. rewrite lookup_level_up, <- !Hl by lia.
  by rewrite Z2Nat.inj_add, Z2Nat.inj_mul by lia.
Qed.

(** The root is the root of the complete tree. *)
Lemma root_subroot t : root t = subroot (leaves t) TREE_DEPTH 0.
Proof.
  unfold root. rewrite empties_take, empties_last. cbn [default from_option]. set (ns := fold_left _ _ _).
  enough (Hl : level_ok (leaves t) TREE_DEPTH ns) by (rewrite <- (Hl 0) by lia; by destruct ns).
  unfold ns. generalize TREE_DEPTH. intros n. enough (Hg : forall h nodes, level_ok (leaves t) h nodes ->
    level_ok (leaves t) (h + n) (fold_left (fun nodes empty => next_level empty nodes) (map empty_at (seq h n)) nodes)) by (apply (Hg 0%nat); by intros i Hi).
  induction n as [|n IH]; intros h nodes Hn; cbn [seq map fold_left]; [by rewrite Nat.add_0_r|]. rewrite Nat.add_succ_r. by apply (IH (S h)), level_ok_next.
Qed.

Lemma half_bit i : 0 <= i -> (Z.land i 1 = 0 /\ i = 2 * Z.shiftr i 1 /\ Z.lxor i 1 = 2 * Z.shiftr i 1 + 1 \/
  Z.land i 1 = 1 /\ i = 2 * Z.shiftr i 1 + 1 /\ Z.lxor i 1 = 2 * Z.shiftr i 1).
Proof.
  intros Hi. rewrite land_1_b2z, Z.bit0_odd. rewrite Z.shiftr_div_pow2 by lia. change (2 ^ 1) with 2. pose proof (Z.div_mod i 2 ltac:(lia)) as E. rewrite Zmod_odd in E.
  assert (Ex : Z.lxor i 1 = if Z.odd i then i - 1 else i + 1).
  { destruct i as [|[p|p|]|p]; try done; try lia. }
  rewrite Ex. destruct (Z.odd i); cbn [Z.b2z]; [right|left]; split_and!; lia.
Qed.

(** Every path leads from its leaf to the root. *)
Lemma climb_path ls n : forall h nodes idx, level_ok ls h nodes -> 0 <= idx ->
  climb (subroot ls h idx) idx (path_loop (map empty_at (seq h n)) nodes idx) = subroot ls (h + n) (Z.shiftr idx (Z.of_nat n)).
Proof.
  induction n as [|n IH]; intros h nodes idx Hn Hi; cbn [seq map path_loop climb]; [by rewrite Nat.add_0_r, Z.shiftr_0_r|].
  assert (Hs : 0 <= Z.lxor idx 1) by (apply Z.lxor_nonneg; lia). rewrite (Hn _ Hs).
  assert (E : (if Z.land idx 1 =? 0 then node_hash (subroot ls h idx) (subroot ls h (Z.lxor idx 1)) else node_hash (subroot ls h (Z.lxor idx 1)) (subroot ls h idx))
    = subroot ls (S h) (Z.shiftr idx 1)).
  { cbn [subroot]. destruct (half_bit idx Hi) as [(-> & E & ->)|(-> & E & ->)]; cbn [Z.eqb]; by rewrite <- E. }
  rewrite E, IH; [|by apply level_ok_next|by apply Z.shiftr_nonneg]. rewrite Z.shiftr_shiftr, Nat.add_succ_r by lia. do 2 f_equal. lia.
Qed.

(** ** The messages hashed *)

Definition node_hashed (l r : list Z) : list Z := labeled_hasher NODE_LABEL (l ++ r).

(** The nodes a path hashes on its way up. *)
Fixpoint climb_hashed (cur : list Z) (idx : Z) (sibs : list (list Z)) : list (list Z) :=
  match sibs with
  | [] => []
  | sib :: sibs =>
      (if Z.land idx 1 =? 0 then node_hashed cur sib else node_hashed sib cur) ::
      climb_hashed (if Z.land idx 1 =? 0 then node_hash cur sib else node_hash sib cur) (Z.shiftr idx 1) sibs
  end.

(** The node of height [S h] and index [k] of the tree over [ls]. *)
Definition tree_node (ls : list (list Z)) (h : nat) (k : Z) : list Z := node_hashed (subroot ls h (2 * k)) (subroot ls h (2 * k + 1)).

(** The nodes above leaf [i] of the tree over [ls]. *)
Definition branch_hashed (ls : list (list Z)) (i : Z) : list (list Z) :=
  (fun h => tree_node ls h (Z.shiftr i (Z.of_nat (S h)))) <$> seq 0 TREE_DEPTH.

Definition derive_hashed (nsk : list Z) (position : Z) (cm : list Z) : list Z :=
  labeled_hasher NULLIFIER_LABEL (nsk ++ be_bytes 8 position ++ cm).

  Context `{!CryptoLaws}.
  Context (msgs : list (list Z)) (Hintact : ~ broken_on msgs).

Lemma node_hash_inj a b c d : node_hashed a b ∈ msgs -> node_hashed c d ∈ msgs -> length a = length c ->
  node_hash a b = node_hash c d -> a = c /\ b = d.
Proof. intros Hm Hm' Hl E. apply (hash_labeled_inj msgs) in E; [|done..]. by apply app_inj_1 in E. Qed.

Definition wide (ls : list (list Z)) : Prop := Forall (fun l => length l = 32%nat) ls.

Lemma length_subroot ls h i : wide ls -> length (subroot ls h i) = 32%nat.
Proof.
  intros Hw. destruct h; cbn [subroot]; [|apply hash_labeled_length]. destruct (ls !! Z.to_nat i) eqn:E; [|apply hash_labeled_length].
  eapply Forall_lookup_1 in E; [|exact Hw]. done.
Qed.

(** A path that reaches a subtree's root starts at the node its low bits select, when its nodes and the
    tree's on the way show no collision. *)
Lemma climb_only ls sibs : wide ls -> wide sibs -> forall h x idx j, length x = 32%nat -> 0 <= idx ->
  let i := j * 2 ^ Z.of_nat (length sibs) + idx mod 2 ^ Z.of_nat (length sibs) in
  climb_hashed x idx sibs ⊆ msgs ->
  (forall d, (d < length sibs)%nat -> tree_node ls (h + d) (Z.shiftr i (Z.of_nat (S d))) ∈ msgs) ->
  climb x idx sibs = subroot ls (h + length sibs) j -> x = subroot ls h i.
Proof.
  intros Hl Hs. induction Hs as [|s sibs Ws _ IH]; intros h x idx j Wx Hi i Hmc Hmt E; cbn [climb climb_hashed length] in *.
  { rewrite Nat.add_0_r in E. rewrite E. f_equal. unfold i. change (2 ^ Z.of_nat 0) with 1. rewrite Z.mod_1_r. lia. }
  rewrite Nat.add_succ_r in E. change (S (h + length sibs)) with (S h + length sibs)%nat in E.
  apply list_subseteq_cons_iff in Hmc as [Hmn Hmc]. set (k := j * 2 ^ Z.of_nat (length sibs) + (Z.shiftr idx 1) mod 2 ^ Z.of_nat (length sibs)).
  assert (Hp : 0 < 2 ^ Z.of_nat (length sibs)) by (apply Z.pow_pos_nonneg; lia).
  assert (Ek : forall b, 0 <= b < 2 -> idx = 2 * Z.shiftr idx 1 + b -> i = 2 * k + b).
  { intros b Hb Eb. unfold i, k. rewrite Nat2Z.inj_succ, Z.pow_succ_r, Z.rem_mul_r by lia. assert (idx mod 2 = b) as ->
      by (rewrite Eb, Z.add_comm, Z.mul_comm, Z.mod_add, Z.mod_small by lia; done).
    assert (idx / 2 = Z.shiftr idx 1) as -> by (rewrite Z.shiftr_div_pow2 by lia; done). lia. }
  assert (Eh : Z.shiftr i 1 = k).
  { rewrite Z.shiftr_div_pow2 by lia. change (2 ^ 1) with 2. destruct (half_bit idx Hi) as [(_ & Eb & _)|(_ & Eb & _)];
      [pose proof (Ek 0 ltac:(lia) ltac:(lia))|pose proof (Ek 1 ltac:(lia) ltac:(lia))]; symmetry; apply Z.div_unique_pos with (i - 2 * k); lia. }
  apply IH in E; [|destruct (_ =? _); apply hash_labeled_length|by apply Z.shiftr_nonneg|done|].
  2:{ intros d Hd. fold k. rewrite <- Eh, Z.shiftr_shiftr by lia. replace (S h + d)%nat with (h + S d)%nat by lia.
      replace (1 + Z.of_nat (S d)) with (Z.of_nat (S (S d))) by lia. apply Hmt. lia. }
  fold k in E. cbn [subroot] in E. specialize (Hmt 0%nat ltac:(lia)). rewrite Nat.add_0_r in Hmt. change (Z.of_nat 1) with 1 in Hmt. rewrite Eh in Hmt.
  destruct (half_bit idx Hi) as [(Eb & Ei & _)|(Eb & Ei & _)]; rewrite Eb in E, Hmn; cbn [Z.eqb] in E, Hmn;
    (apply node_hash_inj in E as [E1 E2]; [|done|done|by rewrite ?Wx, ?Ws, length_subroot]).
  - rewrite (Ek 0), Z.add_0_r by lia. done.
  - rewrite (Ek 1) by lia. done.
Qed.

(** ** What a path shows *)

Definition path_ok (p : AuthPath) : Prop := 0 <= p_index p /\ length (siblings p) = TREE_DEPTH /\ wide (siblings p).

Lemma path_verifies t i : 0 <= i < size t -> size t <= 2 ^ Z.of_nat TREE_DEPTH ->
  exists p, path t i = Some p /\ p_index p = i /\ verify p (default [] (leaves t !! Z.to_nat i)) (root t) = true.
Proof.
  intros Hi Hl. unfold path. rewrite (proj2 (Z.leb_gt _ _)) by lia. eexists. split; [done|]. split; [done|].
  unfold verify. cbn [p_index siblings]. rewrite bool_decide_eq_true, empties_take, root_subroot.
  assert (E : default [] (leaves t !! Z.to_nat i) = subroot (leaves t) 0 i).
  { cbn [subroot]. unfold size in Hi. destruct (lookup_lt_is_Some_2 (leaves t) (Z.to_nat i) ltac:(lia)) as [x ->]. done. }
  rewrite E, climb_path by (done || lia). cbn [Nat.add]. f_equal. rewrite Z.shiftr_div_pow2 by lia. apply Z.div_small. split; [lia|].
  lia.
Qed.

(** A path accepted against the root of a prefix shows the leaf its low bits select, in the tree as it grew;
    the high bits of its index are free. *)
Lemma verify_leaf ls ls' p cm : wide (ls ++ ls') -> path_ok p -> length cm = 32%nat -> verify p cm (root (mk_tree ls)) = true ->
  climb_hashed cm (p_index p) (siblings p) ⊆ msgs -> branch_hashed ls (p_index p mod 2 ^ Z.of_nat TREE_DEPTH) ⊆ msgs ->
  let i := Z.to_nat (p_index p mod 2 ^ Z.of_nat TREE_DEPTH) in
  (ls ++ ls') !! i = Some cm /\ (i < length ls)%nat \/ cm = empty_leaf.
Proof.
  intros Hw (Hi & Hl & Hs) Hc Hv Hmc Hmb i. apply Forall_app in Hw as [Hw _]. unfold verify in Hv. rewrite bool_decide_eq_true, root_subroot in Hv. cbn [leaves] in Hv.
  rewrite <- Hl in Hv. apply (climb_only ls (siblings p) Hw Hs 0 cm) in Hv as ->; [|done..|].
  2:{ intros d Hd. rewrite Hl, Z.mul_0_l, Z.add_0_l in *. apply Hmb, list_elem_of_fmap. exists d. split; [done|]. apply elem_of_seq. lia. }
  rewrite Hl, Z.mul_0_l, Z.add_0_l. cbn [subroot]. fold i. destruct (ls !! i) as [x|] eqn:E; [left|by right].
  split; [by apply lookup_app_l_Some|]. by apply lookup_lt_Some in E.
Qed.

(** The index enters the check only through its low bits. *)
Lemma climb_low_bits sibs : forall x i j, 0 <= i -> 0 <= j -> i mod 2 ^ Z.of_nat (length sibs) = j mod 2 ^ Z.of_nat (length sibs) ->
  climb x i sibs = climb x j sibs.
Proof.
  induction sibs as [|s sibs IH]; intros x i j Hi Hj E; [done|]. cbn [climb length] in *. rewrite Nat2Z.inj_succ, Z.pow_succ_r in E by lia.
  assert (Hp : 0 < 2 ^ Z.of_nat (length sibs)) by (apply Z.pow_pos_nonneg; lia).
  rewrite !Z.rem_mul_r in E by lia. pose proof (Z.mod_pos_bound i 2 ltac:(lia)). pose proof (Z.mod_pos_bound j 2 ltac:(lia)).
  assert (E2 : i mod 2 = j mod 2 /\ (i / 2) mod 2 ^ Z.of_nat (length sibs) = (j / 2) mod 2 ^ Z.of_nat (length sibs)) by lia. destruct E2 as [Eb Er].
  assert (El : Z.land i 1 = Z.land j 1) by (change 1 with (Z.ones 1); by rewrite !Z.land_ones by lia). rewrite El.
  apply IH; [by apply Z.shiftr_nonneg|by apply Z.shiftr_nonneg|]. by rewrite !Z.shiftr_div_pow2 by lia.
Qed.

(** ** Nullifiers *)

Lemma derive_inj k k' i i' cm cm' : derive_hashed k i cm ∈ msgs -> derive_hashed k' i' cm' ∈ msgs ->
  length k = length k' -> is_u64 i -> is_u64 i' -> derive k i cm = derive k' i' cm' -> k = k' /\ i = i' /\ cm = cm'.
Proof.
  intros Hm Hm' Hk Hi Hi' E. apply (hash_labeled_inj msgs) in E; [|done..]. apply app_inj_1 in E as [-> E]; [|done]. apply app_inj_1 in E as [E ->]; [|by rewrite !length_be_bytes].
  split; [done|]. split; [|done]. apply (f_equal from_be) in E. by rewrite !from_be_id in E.
Qed.

End tree.

Lemma all_fresh_iff s nfs : all_fresh s nfs = true <-> NoDup nfs /\ Forall (fun nf => nf ∉ seen s) nfs.
Proof.
  unfold all_fresh. enough (Hg : forall within, fresh_loop s within nfs = true <-> NoDup nfs /\ Forall (fun nf => (nf ∉ seen s) /\ (nf ∉ within)) nfs).
  { rewrite Hg. apply and_iff_compat_l. apply Forall_iff. intros nf. set_solver. }
  induction nfs as [|nf nfs IH]; intros within; cbn [fresh_loop]; [split; [intros _; split; [constructor|by apply Forall_nil]|done]|].
  rewrite !andb_true_iff, IH, negb_true_iff, bool_decide_eq_true, NoDup_cons, Forall_cons. unfold contains. rewrite bool_decide_eq_false.
  rewrite !Forall_forall. split.
  - intros ((H1 & H2) & H3 & H4). split_and!; try done; [intros Hin; apply H4 in Hin; set_solver|]. intros x Hx. apply H4 in Hx. set_solver.
  - intros ((H1 & H2) & (H3 & H4) & H5). split_and!; try done. intros x Hx. split; [by apply H5|].
    intros [->%elem_of_singleton|Hin]%elem_of_union; [done|]. by apply (H5 x Hx).
Qed.

(** ** Snapshots *)

Lemma rd_array_reads n b : length b = n -> reads (rd_array n) b b.
Proof. apply rd_take_reads. Qed.

Lemma wide_seq_reads l : wide l -> Z.of_nat (length l) < 2 ^ 32 -> reads (rd_seq 32 (rd_array 32)) (put_seq (length l) l id) l.
Proof. intros Hw Hl. apply rd_seq_reads; [lia|done|]. eapply Forall_impl; [exact Hw|]. intros b Hb. split; [by apply rd_array_reads|]. cbn in *. unfold id. by rewrite Hb. Qed.

Lemma tree_from_to t : wide (leaves t) -> size t < 2 ^ 32 -> tree_from_bytes (tree_to_bytes t) = Some t.
Proof.
  intros Hw Hl. unfold tree_from_bytes. destruct (rd_new_ok (tree_to_bytes t)) as [Ho Hr]. rewrite <- app_nil_r in Hr.
  destruct (wide_seq_reads (leaves t) Hw Hl _ _ Ho Hr) as (r' & -> & Hr' & Ho'). cbn [mbind option_bind].
  rewrite (proj2 (rd_finish_iff r' Ho') Hr'). cbn [mbind option_bind]. unfold size in Hl. rewrite (proj2 (Z.ltb_ge _ _)) by (change (2 ^ Z.of_nat TREE_DEPTH) with (2 ^ 32); lia).
  by destruct t.
Qed.

Lemma nfs_from_to s : (forall k, k ∈ seen s -> length k = 32%nat) -> Z.of_nat (base.size (seen s)) < 2 ^ 32 -> nfs_from_bytes (nfs_to_bytes s) = Some s.
Proof.
  intros Hw Hl. unfold nfs_from_bytes. destruct (rd_new_ok (nfs_to_bytes s)) as [Ho Hr]. rewrite <- app_nil_r in Hr. unfold nfs_to_bytes in Hr at 2.
  rewrite <- bset_list_length in Hr, Hl. destruct (wide_seq_reads (bset_list (seen s))) with (r := reader_new (nfs_to_bytes s)) (rest := @nil Z) as (r' & -> & Hr' & Ho'); try done.
  { apply Forall_forall. intros k Hk%bset_list_elem. by apply Hw. }
  cbn [mbind option_bind]. rewrite (proj2 (rd_finish_iff r' Ho') Hr'). cbn [mbind option_bind]. destruct s as [s]. do 2 f_equal. cbn [seen].
  apply leibniz_equiv. intros k. rewrite elem_of_list_to_set. apply bset_list_elem.
Qed.

End NoteTree.
