(* ===== verification/Shielded.v ===== *)
(** * The shielded pool

    [fanos-obolos/src/note.rs] (notes), [note_cipher.rs] (their delivery), [tx.rs] (transactions and the
    transparent proof), [build.rs] (the wallet's builder), [state.rs] (the pool: gates, anchors, snapshots).
    Key generation draws from the deterministic generator through the third-party schemes, the operations of
    [SigKeygen]. *)
From S2P Require Import Prelude Codec Sig Block Kem Commit NoteTree.
Local Open Scope Z_scope.

(** [EdSigningKey::generate] and [MlSigningKey::generate_from_rng]. *)
Class SigKeygen `{Crypto} := {
  ed_generate : SeedRng -> EdSigningKey * SeedRng;
  ml_generate_from_rng : SeedRng -> MlSigningKey * SeedRng;
}.

Module Shielded.
Import Commit NoteTree.

Definition OWNER_PK_LABEL : string := "FANOS-obolos-v1/owner-pk".
Definition NOTE_CM_LABEL : string := "FANOS-obolos-v1/note-commitment".
Definition AUTH_COMMIT_LABEL : string := "FANOS-obolos-v1/spend-auth-commit".
Definition SIGHASH_LABEL : string := "FANOS-obolos-v1/tx-sighash".
Definition STATE_ROOT_LABEL : string := "FANOS-obolos-v1/state-root".
Definition ANCHOR_SET_ROOT_LABEL : string := "FANOS-obolos-v1/anchor-set-root".
Definition MAX_ANCHORS : nat := 1024.

Record Note := mk_note { value : Z; owner : list Z; auth : list Z; value_r : Randomness; rho : list Z }.
Record NoteCipher := mk_cipher { kem_ct : list Z; aead_ct : list Z }.
Record OutputNote := mk_output { note_commitment : list Z; value_commitment : Commitment; cipher : option NoteCipher }.

Record ShieldedTx := mk_tx {
  tx_anchor : list Z;
  tx_nullifiers : list (list Z);
  input_values : list Commitment;
  outputs : list OutputNote;
  fee : Z;
  public_value : Z;
  public_recipient : list Z;
  spend_auths : list (list Z);
}.

Record InputOpening := mk_input { i_note : Note; i_path : AuthPath; i_nsk : list Z; i_ak : list Z; i_value_r : Randomness }.
Record OutputOpening := mk_oopen { o_value : Z; o_value_r : Randomness }.
Record TransparentProof := mk_proof { p_inputs : list InputOpening; p_outputs : list OutputOpening }.

Inductive ApplyError := UnknownAnchor | DoubleSpend | InvalidProof | CapacityExceeded.

Record ShieldedState := mk_state {
  s_tree : CommitmentTree;
  s_nullifiers : NullifierSet;
  anchors : bset;
  anchor_order : list (list Z);
}.

#[global] Instance Note_eq_dec : EqDecision Note.
Proof. solve_decision. Defined.
#[global] Instance NoteCipher_eq_dec : EqDecision NoteCipher.
Proof. solve_decision. Defined.
#[global] Instance OutputNote_eq_dec : EqDecision OutputNote.
Proof. solve_decision. Defined.
#[global] Instance ShieldedTx_eq_dec : EqDecision ShieldedTx.
Proof. solve_decision. Defined.
#[global] Instance InputOpening_eq_dec : EqDecision InputOpening.
Proof. solve_decision. Defined.
#[global] Instance OutputOpening_eq_dec : EqDecision OutputOpening.
Proof. solve_decision. Defined.
#[global] Instance TransparentProof_eq_dec : EqDecision TransparentProof.
Proof. solve_decision. Defined.

Section notes.
  Context `{Crypto}.

(** ** Notes *)

Definition derive_owner_pk (nsk : list Z) : list Z := hash_labeled OWNER_PK_LABEL nsk.

Definition spend_auth_commit (ak : HybridVerifier) : list Z := hash_labeled AUTH_COMMIT_LABEL (vk_encode ak).

Definition note_value_commitment (p : Params) (n : Note) : Commitment := commit p (value n) (value_r n).

Definition commitment (p : Params) (n : Note) : list Z :=
  hash_labeled NOTE_CM_LABEL (com_to_bytes (note_value_commitment p n) ++ owner n ++ auth n ++ rho n).

Definition nullifier (n : Note) (nsk : list Z) (position : Z) (p : Params) : list Z := derive nsk position (commitment p n).

Definition is_owned_by (n : Note) (nsk : list Z) : bool := bool_decide (derive_owner_pk nsk = owner n).

(** ** Transactions and the transparent proof *)

Definition sighash (tx : ShieldedTx) : list Z :=
  hash_labeled SIGHASH_LABEL (tx_anchor tx ++ concat (tx_nullifiers tx) ++ concat (map com_to_bytes (input_values tx)) ++
    concat (map (fun o => note_commitment o ++ com_to_bytes (value_commitment o)) (outputs tx)) ++
    be_bytes 8 (fee tx) ++ be_bytes 8 (public_value tx) ++ public_recipient tx).

(** One turn of the loop over the inputs. *)
Definition input_ok (p : Params) (anchor sighash : list Z) (x : ((InputOpening * list Z) * Commitment) * list Z) : bool :=
  let '(((opening, nf), input_value), spend_auth) := x in
  let cm := commitment p (i_note opening) in
  if negb (verify (i_path opening) cm anchor) then false else
  if negb (is_owned_by (i_note opening) (i_nsk opening)) then false else
  if bool_decide (derive (i_nsk opening) (p_index (i_path opening)) cm <> nf) then false else
  match vk_decode (i_ak opening), sig_from_bytes spend_auth with
  | Some ak, Some sig =>
      if bool_decide (auth (i_note opening) <> spend_auth_commit ak) then false else
      if negb (hybrid_verify ak sighash sig) then false else
      if MAX_VALUE <=? value (i_note opening) then false else
      bool_decide (commit p (value (i_note opening)) (i_value_r opening) = input_value)
  | _, _ => false
  end.

(** One turn of the loop over the outputs. *)
Definition output_ok (p : Params) (x : OutputOpening * OutputNote) : bool :=
  let '(opening, output) := x in
  if MAX_VALUE <=? o_value opening then false else
  bool_decide (commit p (o_value opening) (o_value_r opening) = value_commitment output).

Definition proof_verify (pr : TransparentProof) (p : Params) (tx : ShieldedTx) : bool :=
  let n_in := length (tx_nullifiers tx) in
  if negb (length (p_inputs pr) =? n_in)%nat || negb (length (input_values tx) =? n_in)%nat || negb (length (spend_auths tx) =? n_in)%nat then false else
  if negb (length (p_outputs pr) =? length (outputs tx))%nat then false else
  if (MAX_NOTES_PER_TX <? Z.of_nat (n_in + length (outputs tx))) || (MAX_VALUE <=? fee tx) || (MAX_VALUE <=? public_value tx) then false else
  if negb (forallb (fun i => is_ternary (i_value_r i) && is_ternary (value_r (i_note i))) (p_inputs pr)) ||
     negb (forallb (fun o => is_ternary (o_value_r o)) (p_outputs pr)) then false else
  let sh := sighash tx in
  if negb (forallb (input_ok p (tx_anchor tx) sh) (zip (zip (zip (p_inputs pr) (tx_nullifiers tx)) (input_values tx)) (spend_auths tx))) then false else
  if negb (forallb (output_ok p) (zip (p_outputs pr) (outputs tx))) then false else
  let balance_r := rand_sub (sum_randomness (map i_value_r (p_inputs pr))) (sum_randomness (map o_value_r (p_outputs pr))) in
  verify_balance p (input_values tx) (map value_commitment (outputs tx)) (sat_add 64 (fee tx) (public_value tx)) balance_r.

Definition balance_residual (tx : ShieldedTx) : Commitment :=
  com_sub (com_sub (sum (input_values tx)) (sum (map value_commitment (outputs tx)))) (Commit.public_value (fee tx)).

(** ** The pool *)

Definition record_anchor (s : ShieldedState) (root : list Z) : ShieldedState :=
  if bool_decide (root ∈ anchors s) then s else
  let a := {[root]} ∪ anchors s in
  let order := anchor_order s ++ [root] in
  match order with
  | oldest :: rest => if (MAX_ANCHORS <? base.size a)%nat then mk_state (s_tree s) (s_nullifiers s) (a ∖ {[oldest]}) rest
                      else mk_state (s_tree s) (s_nullifiers s) a order
  | [] => mk_state (s_tree s) (s_nullifiers s) a order
  end.

Definition state_new : ShieldedState :=
  let s := mk_state tree_new nfs_new ∅ [] in record_anchor s (root (s_tree s)).

Definition state_anchor (s : ShieldedState) : list Z := root (s_tree s).
Definition note_count (s : ShieldedState) : Z := size (s_tree s).
Definition spent_count (s : ShieldedState) : nat := base.size (seen (s_nullifiers s)).
Definition is_valid_anchor (s : ShieldedState) (a : list Z) : bool := bool_decide (a ∈ anchors s).
Definition state_path (s : ShieldedState) (position : Z) : option AuthPath := path (s_tree s) position.

Definition anchor_set_root (s : ShieldedState) : list Z := hash_labeled ANCHOR_SET_ROOT_LABEL (concat (bset_list (anchors s))).

Definition state_root (s : ShieldedState) : list Z :=
  hash_labeled STATE_ROOT_LABEL (root (s_tree s) ++ nfs_root (s_nullifiers s) ++ anchor_set_root s).

Definition state_to_bytes (s : ShieldedState) : list Z :=
  put_var_bytes (tree_to_bytes (s_tree s)) ++ put_var_bytes (nfs_to_bytes (s_nullifiers s)) ++ put_seq (length (anchor_order s)) (anchor_order s) id.

Definition state_from_bytes (bytes : list Z) : option ShieldedState :=
  let r := reader_new bytes in
  letO (tb, r) := rd_var_bytes r in letO t := tree_from_bytes tb in
  letO (nb, r) := rd_var_bytes r in letO n := nfs_from_bytes nb in
  letO (order, r) := rd_seq 32 (rd_array 32) r in
  letO _ := rd_finish r in
  if (MAX_ANCHORS <? length order)%nat then None else Some (mk_state t n (list_to_set order) order).

Definition set_tree (s : ShieldedState) (t : CommitmentTree) : ShieldedState := mk_state t (s_nullifiers s) (anchors s) (anchor_order s).

Definition mint (s : ShieldedState) (cm : list Z) : option Z * ShieldedState :=
  match append (s_tree s) cm with
  | (None, _) => (None, s)
  | (Some pos, t) => let s := set_tree s t in (Some pos, record_anchor s (root t))
  end.

Definition apply_with_verdict (s : ShieldedState) (tx : ShieldedTx) (verdict : bool) : result unit ApplyError * ShieldedState :=
  if negb (is_valid_anchor s (tx_anchor tx)) then (Err UnknownAnchor, s) else
  if negb (all_fresh (s_nullifiers s) (tx_nullifiers tx)) then (Err DoubleSpend, s) else
  if 2 ^ Z.of_nat TREE_DEPTH <? sat_add 64 (size (s_tree s)) (Z.of_nat (length (outputs tx))) then (Err CapacityExceeded, s) else
  if negb verdict then (Err InvalidProof, s) else
  let nfs := fold_left (fun n nf => snd (insert n nf)) (tx_nullifiers tx) (s_nullifiers s) in
  let t := fold_left (fun t o => snd (append t (note_commitment o))) (outputs tx) (s_tree s) in
  (Ok tt, record_anchor (mk_state t nfs (anchors s) (anchor_order s)) (root t)).

Definition apply (s : ShieldedState) (p : Params) (tx : ShieldedTx) (pr : TransparentProof) : result unit ApplyError * ShieldedState :=
  apply_with_verdict s tx (proof_verify pr p tx).

(** ** The builder *)

Record SpendInput := mk_spend { sp_note : Note; sp_nsk : list Z; spend_seed : list Z; sp_path : AuthPath }.

  Context `{KemCrypto} `{!SigKeygen}.

Definition sig_generate (rng : SeedRng) : (HybridSigSecret * HybridVerifier) * SeedRng :=
  let '(ed, rng) := ed_generate rng in
  let '(ml, rng) := ml_generate_from_rng rng in
  ((mk_secret ed ml, verifier_of (mk_secret ed ml)), rng).

Definition derive_spend_auth (seed : list Z) : HybridSigSecret * HybridVerifier := fst (sig_generate (Kem.from_seed seed)).

Definition set_spend_auths (tx : ShieldedTx) (auths : list (list Z)) : ShieldedTx :=
  mk_tx (tx_anchor tx) (tx_nullifiers tx) (input_values tx) (outputs tx) (fee tx) (public_value tx) (public_recipient tx) auths.

Definition set_outputs (tx : ShieldedTx) (os : list OutputNote) : ShieldedTx :=
  mk_tx (tx_anchor tx) (tx_nullifiers tx) (input_values tx) os (fee tx) (public_value tx) (public_recipient tx) (spend_auths tx).

(** The re-randomisation of every input; the fuel is that of [rand_from_seed]. *)
Definition input_randomness (fuel : nat) (inputs : list SpendInput) : option (list Randomness) :=
  mapM (fun x => rand_from_seed fuel (sp_nsk (snd x) ++ rho (sp_note (snd x)) ++ le_bytes 8 (fst x)))
    (zip (seqZ 0 (Z.of_nat (length inputs))) inputs).

Definition sign_inputs (inputs : list SpendInput) (tx : ShieldedTx) : ShieldedTx :=
  set_spend_auths tx (map (fun i => sig_to_bytes (hybrid_sign (fst (derive_spend_auth (spend_seed i))) (sighash tx))) inputs).

Definition build_signed (fuel : nat) (p : Params) (anchor : list Z) (inputs : list SpendInput) (outs : list Note)
    (fee public_value : Z) (public_recipient : list Z) : option (ShieldedTx * TransparentProof) :=
  letO input_r := input_randomness fuel inputs in
  let nullifiers := map (fun i => nullifier (sp_note i) (sp_nsk i) (p_index (sp_path i)) p) inputs in
  let values := zip_with (fun i r => commit p (value (sp_note i)) r) inputs input_r in
  let output_notes := map (fun n => mk_output (commitment p n) (note_value_commitment p n) None) outs in
  let tx := sign_inputs inputs (mk_tx anchor nullifiers values output_notes fee public_value public_recipient []) in
  let openings := zip_with (fun i r => mk_input (sp_note i) (sp_path i) (sp_nsk i) (vk_encode (snd (derive_spend_auth (spend_seed i)))) r) inputs input_r in
  Some (tx, mk_proof openings (map (fun n => mk_oopen (value n) (value_r n)) outs)).

Definition build_transfer (fuel : nat) (p : Params) (anchor : list Z) (inputs : list SpendInput) (outs : list Note) (fee : Z) :=
  build_signed fuel p anchor inputs outs fee 0 (replicate 32 0).

Definition build_unshield (fuel : nat) (p : Params) (anchor : list Z) (inputs : list SpendInput) (outs : list Note)
    (public_value : Z) (public_recipient : list Z) (fee : Z) :=
  build_signed fuel p anchor inputs outs fee public_value public_recipient.

(** ** Delivery *)

Definition KEY_LABEL : string := "FANOS-obolos-v1/note-cipher-key".
Definition NONCE_LABEL : string := "FANOS-obolos-v1/note-cipher-nonce".
Definition OPENING_LEN : nat := 8 + RAND_WIRE_LEN + 32.

Record Address := mk_address { a_owner : list Z; a_auth : list Z; kem_public : Kem.HybridKemPublic }.

Definition derive_key_nonce (session : list Z) : list Z * list Z := (hash_labeled KEY_LABEL session, take 12 (hash_labeled NONCE_LABEL session)).

Definition encode_opening (v : Z) (r : Randomness) (rho : list Z) : list Z := le_bytes 8 v ++ rand_to_bytes r ++ rho.

Definition decode_opening (bytes : list Z) : option (Z * Randomness * list Z) :=
  if negb (length bytes =? OPENING_LEN)%nat then None else
  letO v := slice 0 8 bytes in
  letO rb := slice 8 (8 + RAND_WIRE_LEN) bytes in
  letO r := rand_from_bytes rb in
  letO rho := slice_from (8 + RAND_WIRE_LEN) bytes in
  Some (from_le v, r, rho).

Definition cipher_seal (a : Address) (v : Z) (r : Randomness) (rho : list Z) (rng : SeedRng) : option NoteCipher * SeedRng :=
  match Kem.encapsulate (kem_public a) rng with
  | (None, rng) => (None, rng)
  | (Some (ct, session), rng) =>
      let '(key, nonce) := derive_key_nonce session in
      (letO aead_ct := Kem.aead_seal key nonce (encode_opening v r rho) in Some (mk_cipher (Kem.ct_to_bytes ct) aead_ct), rng)
  end.

Definition cipher_open (c : NoteCipher) (kem_secret : Kem.HybridKemSecret) (owner auth : list Z) : option Note :=
  letO ct := Kem.ct_from_bytes (kem_ct c) in
  letO session := Kem.decapsulate kem_secret ct in
  let '(key, nonce) := derive_key_nonce session in
  letO opening := Kem.aead_open key nonce (aead_ct c) in
  letO (v, r, rho) := decode_opening opening in
  Some (mk_note v owner auth r rho).

Definition cipher_to_bytes (c : NoteCipher) : list Z := kem_ct c ++ aead_ct c.

Definition cipher_from_bytes (bytes : list Z) : option NoteCipher :=
  letO k := slice 0 CIPHERTEXT_LEN bytes in letO a := slice_from CIPHERTEXT_LEN bytes in Some (mk_cipher k a).

Definition scan (kem_secret : Kem.HybridKemSecret) (owner auth : list Z) (p : Params) (outs : list (list Z * NoteCipher)) : list Note :=
  omap (fun x => letO n := cipher_open (snd x) kem_secret owner auth in
                 if bool_decide (commitment p n = fst x) then Some n else None) outs.

Definition seal_outputs (outs : list (Note * Address)) (rng : SeedRng) (os : list OutputNote) : list OutputNote * SeedRng :=
  fold_left (fun st x =>
    let '(acc, rng) := st in let '(o, (n, a)) := x in
    let '(c, rng) := cipher_seal a (value n) (value_r n) (rho n) rng in
    (acc ++ [mk_output (note_commitment o) (value_commitment o) c], rng)) (zip os outs) ([], rng).

Definition build_transfer_delivering (fuel : nat) (p : Params) (anchor : list Z) (inputs : list SpendInput) (outs : list (Note * Address))
    (fee : Z) (rng : SeedRng) : option ((ShieldedTx * TransparentProof) * SeedRng) :=
  letO (tx, pr) := build_transfer fuel p anchor inputs (map fst outs) fee in
  let '(os, rng) := seal_outputs outs rng (outputs tx) in
  Some ((set_outputs tx os, pr), rng).

End notes.

#[local] Opaque root empty_roots commit.

(** ** What a proof shows *)

Section proofs.
  Context `{Crypto}.

(** The gates of [proof_verify], as propositions. *)
Record relation (p : Params) (tx : ShieldedTx) (pr : TransparentProof) : Prop := {
  r_arity : length (p_inputs pr) = length (tx_nullifiers tx) /\ length (input_values tx) = length (tx_nullifiers tx) /\ length (spend_auths tx) = length (tx_nullifiers tx);
  r_outs : length (p_outputs pr) = length (outputs tx);
  r_bound : Z.of_nat (length (p_inputs pr) + length (p_outputs pr)) <= MAX_NOTES_PER_TX /\ fee tx < MAX_VALUE /\ public_value tx < MAX_VALUE;
  r_short_in : Forall (fun i => short 1 (i_value_r i) /\ short 1 (value_r (i_note i))) (p_inputs pr);
  r_short_out : Forall (fun o => short 1 (o_value_r o)) (p_outputs pr);
  r_in : Forall (fun x => input_ok p (tx_anchor tx) (sighash tx) x = true) (zip (zip (zip (p_inputs pr) (tx_nullifiers tx)) (input_values tx)) (spend_auths tx));
  r_out : Forall (fun x => output_ok p x = true) (zip (p_outputs pr) (outputs tx));
  r_balance : verify_balance p (input_values tx) (map value_commitment (outputs tx)) (sat_add 64 (fee tx) (public_value tx))
    (rand_sub (sum_randomness (map i_value_r (p_inputs pr))) (sum_randomness (map o_value_r (p_outputs pr)))) = true;
}.

Lemma forallb_Forall {A} (f : A -> bool) l : forallb f l = true <-> Forall (fun x => f x = true) l.
Proof. rewrite forallb_forall, Forall_forall. by setoid_rewrite list_elem_of_In. Qed.

Lemma if_false (b x : bool) : (if b then false else x) = negb b && x.
Proof. by destruct b. Qed.

Lemma proof_verify_iff p tx pr : proof_verify pr p tx = true <-> relation p tx pr.
Proof.
  unfold proof_verify. cbv zeta. rewrite !if_false, !negb_orb, !negb_involutive, !andb_true_iff, !Nat.eqb_eq, !forallb_Forall, !negb_true_iff, Z.ltb_ge, !Z.leb_gt.
  assert (Hs : Forall (fun i => is_ternary (i_value_r i) && is_ternary (value_r (i_note i)) = true) (p_inputs pr) <->
    Forall (fun i => short 1 (i_value_r i) /\ short 1 (value_r (i_note i))) (p_inputs pr))
    by (apply Forall_iff; intros i; by rewrite andb_true_iff, !is_ternary_short).
  assert (Ht : Forall (fun o => is_ternary (o_value_r o) = true) (p_outputs pr) <-> Forall (fun o => short 1 (o_value_r o)) (p_outputs pr))
    by (apply Forall_iff; intros o; by rewrite is_ternary_short).
  rewrite Hs, Ht. split.
  - intros (((Ha & Hb) & Hc) & Ho & ((Hn & Hf) & Hv) & (Hi & Hq) & Hx & Hy & Hz). split; try done. rewrite Ha, Ho. done.
  - intros [(Ha & Hb & Hc) Ho (Hn & Hf & Hv) Hi Hq Hx Hy Hz]. rewrite Ha, Ho in Hn. done.
Qed.

(** The openings of a verified transaction, as amounts and randomness. *)
Definition in_openings (pr : TransparentProof) : list (Z * Randomness) := map (fun i => (value (i_note i), i_value_r i)) (p_inputs pr).
Definition out_openings (pr : TransparentProof) : list (Z * Randomness) := map (fun o => (o_value o, o_value_r o)) (p_outputs pr).

Lemma input_ok_iff p anchor sh i nf c s : input_ok p anchor sh (((i, nf), c), s) = true <->
  verify (i_path i) (commitment p (i_note i)) anchor = true /\ derive_owner_pk (i_nsk i) = owner (i_note i) /\
  derive (i_nsk i) (p_index (i_path i)) (commitment p (i_note i)) = nf /\
  (exists ak sig, vk_decode (i_ak i) = Some ak /\ sig_from_bytes s = Some sig /\ auth (i_note i) = spend_auth_commit ak /\ hybrid_verify ak sh sig = true) /\
  value (i_note i) < MAX_VALUE /\ commit p (value (i_note i)) (i_value_r i) = c.
Proof.
  unfold input_ok, is_owned_by. cbv zeta. rewrite !if_false, !negb_involutive, !andb_true_iff, !bool_decide_eq_true, negb_true_iff, bool_decide_eq_false.
  destruct (vk_decode (i_ak i)) as [ak|]; [|split; [by intros (_ & _ & _ & [=])|by intros (_ & _ & _ & (? & ? & [=] & _) & _)]].
  destruct (sig_from_bytes s) as [sig|]; [|split; [by intros (_ & _ & _ & [=])|by intros (_ & _ & _ & (? & ? & _ & [=] & _) & _)]].
  rewrite !if_false, !negb_involutive, !andb_true_iff, !negb_true_iff, bool_decide_eq_false, Z.leb_gt, bool_decide_eq_true. split.
  - intros (G1 & G2 & G3 & G4 & G5 & G6 & G7). split_and!; try done; [by apply dec_stable|]. exists ak, sig. split_and!; try done. by apply dec_stable.
  - intros (G1 & G2 & G3 & (ak' & sig' & [= <-] & [= <-] & G4 & G5) & G6 & G7). split_and!; try done; intros Hn; by apply Hn.
Qed.

Lemma zip_fst_Forall {A B} (P : A -> Prop) (l : list A) (k : list B) : length l = length k -> Forall (fun x => P (fst x)) (zip l k) -> Forall P l.
Proof. revert k. induction l as [|a l IH]; intros [|b k] [=] Hf; [done|]. cbn [zip zip_with] in Hf. apply Forall_cons in Hf as [? ?]. constructor; [done|]. by eapply IH. Qed.

(** Under the relation the public commitments are those of the openings. *)
Lemma relation_commitments p tx pr : relation p tx pr ->
  input_values tx = map (fun o => commit p (fst o) (snd o)) (in_openings pr) /\
  map value_commitment (outputs tx) = map (fun o => commit p (fst o) (snd o)) (out_openings pr) /\
  Forall (fun i => value (i_note i) < MAX_VALUE) (p_inputs pr) /\ Forall (fun o => o_value o < MAX_VALUE) (p_outputs pr).
Proof.
  intros [(La & Lb & Lc) Lo _ _ _ Hin Hout _]. unfold in_openings, out_openings. rewrite !map_map. cbn [fst snd]. split_and!.
  - clear Hout Lo. revert La Lb Lc Hin. generalize (tx_nullifiers tx), (input_values tx), (spend_auths tx). induction (p_inputs pr) as [|i is_ IH];
      intros [|nf nfs] [|c cs] [|s ss]; try done. intros [=] [=] [=] Hin. cbn [zip zip_with] in Hin. apply Forall_cons in Hin as [Hi Hin].
    apply input_ok_iff in Hi as (_ & _ & _ & _ & _ & <-). cbn [map]. f_equal. by apply (IH nfs cs ss).
  - clear Hin. revert Lo Hout. generalize (outputs tx). induction (p_outputs pr) as [|o os IH]; intros [|n ns]; try done. intros [=] Hout. cbn [zip zip_with] in Hout.
    apply Forall_cons in Hout as [Ho Hout]. unfold output_ok in Ho. rewrite if_false, andb_true_iff, bool_decide_eq_true in Ho. cbn [map]. rewrite <- (proj2 Ho). f_equal. by apply IH.
  - apply (zip_fst_Forall _ _ (tx_nullifiers tx)); [done|]. apply (zip_fst_Forall _ _ (input_values tx)); [rewrite length_zip_with; lia|].
    apply (zip_fst_Forall _ _ (spend_auths tx)); [rewrite !length_zip_with; lia|]. eapply Forall_impl; [exact Hin|]. intros [[[i nf] c] s] Hi. cbn [fst]. by apply input_ok_iff in Hi as (_ & _ & _ & _ & Hi & _).
  - apply (zip_fst_Forall _ _ (outputs tx)); [done|]. eapply Forall_impl; [exact Hout|]. intros [o n] Ho. cbn [fst]. unfold output_ok in Ho.
    rewrite if_false, andb_true_iff, negb_true_iff, Z.leb_gt in Ho. apply Ho.
Qed.

(** What the types of the source fix: amounts are unsigned. *)
Definition amounts_ok (tx : ShieldedTx) (pr : TransparentProof) : Prop :=
  0 <= fee tx /\ 0 <= public_value tx /\ Forall (fun i => 0 <= value (i_note i)) (p_inputs pr) /\ Forall (fun o => 0 <= o_value o) (p_outputs pr).

Lemma relation_balances p tx pr : params_ok p -> amounts_ok tx pr -> relation p tx pr ->
  zsum (map (fun i => value (i_note i)) (p_inputs pr)) = zsum (map o_value (p_outputs pr)) + fee tx + public_value tx.
Proof.
  intros Hp (Hf & Hv & Hi & Ho) Hr. destruct (relation_commitments p tx pr Hr) as (Ei & Eo & Bi & Bo).
  destruct Hr as [_ _ (Hn & Hf' & Hv') Si So _ _ Hb]. rewrite Ei, Eo in Hb.
  assert (Es : sat_add 64 (fee tx) (public_value tx) = fee tx + public_value tx) by (unfold sat_add, MAX_VALUE in *; lia). rewrite Es in Hb.
  assert (E1 : map i_value_r (p_inputs pr) = map snd (in_openings pr)) by (unfold in_openings; by rewrite map_map).
  assert (E2 : map o_value_r (p_outputs pr) = map snd (out_openings pr)) by (unfold out_openings; by rewrite map_map). rewrite E1, E2 in Hb.
  apply (balance_exact p Hp) in Hb.
  - unfold in_openings, out_openings in Hb. rewrite !map_map in Hb. cbn [fst] in Hb. rewrite <- Z.add_assoc. exact Hb.
  - apply Forall_map. rewrite Forall_forall in Hi, Bi, Si. apply Forall_forall. intros x Hx. cbn [fst snd]. split; [split; [by apply Hi|by apply Bi]|by apply Si].
  - apply Forall_map. rewrite Forall_forall in Ho, Bo, So. apply Forall_forall. intros x Hx. cbn [fst snd]. split; [split; [by apply Ho|by apply Bo]|by apply So].
  - lia.
  - unfold in_openings, out_openings. rewrite !length_map. lia.
Qed.

(** C5: an accepted transaction conserves value over the integers: what its spent notes hold is what its outputs
    are opened to, its fee and what it takes out, whatever the commitments wrap modulo [Q]. *)
Theorem accepted_transfer_balances (p : Params) (tx : ShieldedTx) (pr : TransparentProof) :
  params_ok p -> amounts_ok tx pr -> proof_verify pr p tx = true ->
  zsum (map (fun i => value (i_note i)) (p_inputs pr)) = zsum (map o_value (p_outputs pr)) + fee tx + public_value tx.
Proof. intros Hp Ha Hr%proof_verify_iff. by apply (relation_balances p). Qed.

End proofs.

(** ** The pool over time *)

Section pool.
  Context `{Crypto} `{!CryptoLaws}.

Record pool_inv (s : ShieldedState) : Prop := {
  pi_wide : wide (leaves (s_tree s));
  pi_size : size (s_tree s) <= 2 ^ Z.of_nat TREE_DEPTH;
  pi_sync : anchors s = list_to_set (anchor_order s);
  pi_nodup : NoDup (anchor_order s);
  pi_window : (length (anchor_order s) <= MAX_ANCHORS)%nat;
  pi_past : Forall (fun a => exists n, a = root (mk_tree (take n (leaves (s_tree s))))) (anchor_order s);
  pi_current : root (s_tree s) ∈ anchor_order s;
  pi_nfs : forall nf, nf ∈ seen (s_nullifiers s) -> length nf = 32%nat;
}.

Lemma size_order (order : list (list Z)) : NoDup order -> base.size (list_to_set order : bset) = length order.
Proof. intros. by apply size_list_to_set. Qed.

Lemma length_root t : wide (leaves t) -> length (root t) = 32%nat.
Proof. intros. rewrite root_subroot. by apply length_subroot. Qed.

(** Recording keeps the two views in step, the window bounded, and the new root in it. *)
Lemma record_anchor_spec s r : anchors s = list_to_set (anchor_order s) -> NoDup (anchor_order s) -> (length (anchor_order s) <= MAX_ANCHORS)%nat ->
  let s' := record_anchor s r in
  s_tree s' = s_tree s /\ s_nullifiers s' = s_nullifiers s /\ anchors s' = list_to_set (anchor_order s') /\ NoDup (anchor_order s') /\
  (length (anchor_order s') <= MAX_ANCHORS)%nat /\ r ∈ anchor_order s' /\ (forall a, a ∈ anchor_order s' -> a = r \/ a ∈ anchor_order s).
Proof.
  intros Hs Hn Hw. unfold record_anchor. case_bool_decide as Hin; cbv zeta.
  { rewrite Hs, elem_of_list_to_set in Hin. split_and!; try done. by right. }
  rewrite Hs, elem_of_list_to_set in Hin. assert (Hn' : NoDup (anchor_order s ++ [r])).
  { apply NoDup_app. split_and!; [done| |apply NoDup_singleton]. intros x Hx ->%list_elem_of_singleton. done. }
  assert (Hset : ({[r]} ∪ anchors s : bset) = list_to_set (anchor_order s ++ [r])) by (rewrite Hs, list_to_set_app_L; set_solver).
  rewrite Hset, size_order by done. destruct (anchor_order s) as [|oldest rest] eqn:Eo; cbn [app].
  - destruct (Nat.ltb_spec MAX_ANCHORS (length [r])); [cbn in *; unfold MAX_ANCHORS in *; lia|]. cbn [s_tree s_nullifiers anchors anchor_order].
    split_and!; try done; [by left|]. intros a ->%list_elem_of_singleton. by left.
  - cbn [app] in Hn'. pose proof Hn' as [Hx Hr]%NoDup_cons. destruct (Nat.ltb_spec MAX_ANCHORS (length (oldest :: rest ++ [r]))) as [Hlt|Hge]; cbn [s_tree s_nullifiers anchors anchor_order].
    + split_and!; try done; [set_solver|cbn [length] in *; rewrite length_app in *; cbn in *; lia|set_solver|]. intros a [Ha|Ha]%elem_of_app; [right; by right|].
      apply list_elem_of_singleton in Ha. by left.
    + split_and!; try done; [set_solver|]. intros a Ha. rewrite app_comm_cons, elem_of_app in Ha. destruct Ha as [Ha|Ha%list_elem_of_singleton]; [by right|by left].
Qed.

Lemma take_past (ls ls' : list (list Z)) n : exists m, take n ls = take m (ls ++ ls').
Proof. exists (Nat.min n (length ls)). by rewrite take_app_le, <- take_take, (take_ge ls (length ls)) by lia. Qed.

(** Growing the tree and recording its root keeps the invariant. *)
Lemma grow_inv s new nfs : pool_inv s -> wide new -> size (s_tree s) + Z.of_nat (length new) <= 2 ^ Z.of_nat TREE_DEPTH ->
  (forall nf, nf ∈ seen nfs -> length nf = 32%nat) ->
  let t := mk_tree (leaves (s_tree s) ++ new) in
  pool_inv (record_anchor (mk_state t nfs (anchors s) (anchor_order s)) (root t)).
Proof.
  intros [Hwi Hsi Hsy Hno Hwd Hpa Hcu Hnf] Hnew Hcap Hnfs t.
  destruct (record_anchor_spec (mk_state t nfs (anchors s) (anchor_order s)) (root t) Hsy Hno Hwd) as (Et & En & Es & Hn & Hl & Hr & Hsub).
  split; rewrite ?Et, ?En; cbn [s_tree s_nullifiers]; try done.
  - apply Forall_app. done.
  - unfold size in *. unfold t. cbn [leaves]. rewrite length_app. lia.
  - apply Forall_forall. intros a [->|Ha]%Hsub.
    + exists (length (leaves t)). by rewrite take_ge by lia.
    + cbn [anchor_order] in Ha. rewrite Forall_forall in Hpa. destruct (Hpa a Ha) as [n ->]. destruct (take_past (leaves (s_tree s)) new n) as [m ->]. by exists m.
Qed.

Lemma state_new_inv : pool_inv state_new.
Proof.
  unfold state_new. set (s := mk_state tree_new nfs_new ∅ []).
  destruct (record_anchor_spec s (root (s_tree s))) as (Et & En & Es & Hn & Hl & Hr & Hsub); [done|apply NoDup_nil; done|cbn; lia|].
  split; [rewrite Et; apply Forall_nil; exact I|rewrite Et; unfold size; cbn [s s_tree tree_new leaves length]; lia|exact Es|exact Hn|exact Hl| |rewrite Et; exact Hr|rewrite En; intros nf []%elem_of_empty].
  apply Forall_forall. intros a [->|[]%elem_of_nil]%Hsub. rewrite Et. by exists 0%nat.
Qed.

Lemma append_all outs t : size t + Z.of_nat (length outs) <= 2 ^ Z.of_nat TREE_DEPTH ->
  fold_left (fun t o => snd (append t (note_commitment o))) outs t = mk_tree (leaves t ++ map note_commitment outs).
Proof.
  revert t. induction outs as [|o outs IH]; intros t Hc; cbn [fold_left map length] in *; [rewrite app_nil_r; by destruct t|].
  unfold append at 2, is_full. rewrite (proj2 (Z.leb_gt _ _)) by lia. cbn [snd]. rewrite IH.
  - cbn [leaves]. by rewrite <- app_assoc.
  - unfold size in *. cbn [leaves]. rewrite length_app. cbn [length]. lia.
Qed.

Lemma insert_all nfs s : seen (fold_left (fun n nf => snd (insert n nf)) nfs s) = list_to_set nfs ∪ seen s.
Proof.
  revert s. induction nfs as [|nf nfs IH]; intros s; cbn [fold_left list_to_set]; [set_solver|]. rewrite IH. cbn [insert snd seen]. set_solver.
Qed.

Definition tx_typed (tx : ShieldedTx) : Prop :=
  wide (map note_commitment (outputs tx)) /\ wide (tx_nullifiers tx) /\ Z.of_nat (length (outputs tx)) < 2 ^ 63.

(** What acceptance means. *)
Lemma apply_Ok s tx v s' : pool_inv s -> tx_typed tx -> apply_with_verdict s tx v = (Ok tt, s') ->
  v = true /\ tx_anchor tx ∈ anchor_order s /\ NoDup (tx_nullifiers tx) /\ Forall (fun nf => nf ∉ seen (s_nullifiers s)) (tx_nullifiers tx) /\
  size (s_tree s) + Z.of_nat (length (outputs tx)) <= 2 ^ Z.of_nat TREE_DEPTH /\
  leaves (s_tree s') = leaves (s_tree s) ++ map note_commitment (outputs tx) /\ seen (s_nullifiers s') = list_to_set (tx_nullifiers tx) ∪ seen (s_nullifiers s) /\ pool_inv s'.
Proof.
  intros Hi (Hwo & Hwn & Hlen) E. unfold apply_with_verdict in E. destruct (is_valid_anchor s (tx_anchor tx)) eqn:Ea; cbn [negb] in E; [|done].
  destruct (all_fresh _ _) eqn:Ef; cbn [negb] in E; [|done]. destruct (_ <? _) eqn:Ec; [done|]. destruct v; cbn [negb] in E; [|done]. injection E as <-.
  unfold is_valid_anchor in Ea. rewrite bool_decide_eq_true, (pi_sync s Hi), elem_of_list_to_set in Ea. apply all_fresh_iff in Ef as [Hn Hf].
  assert (Hcap : size (s_tree s) + Z.of_nat (length (outputs tx)) <= 2 ^ Z.of_nat TREE_DEPTH).
  { apply Z.ltb_ge in Ec. unfold sat_add in Ec. change (2 ^ Z.of_nat TREE_DEPTH) with (2 ^ 32) in *. lia. }
  rewrite append_all by done. set (nfs := fold_left _ _ (s_nullifiers s)).
  assert (Hs : seen nfs = list_to_set (tx_nullifiers tx) ∪ seen (s_nullifiers s)) by apply insert_all.
  pose proof (grow_inv s (map note_commitment (outputs tx)) nfs Hi Hwo) as Hg. rewrite length_map in Hg. specialize (Hg Hcap).
  assert (Hw : forall nf, nf ∈ seen nfs -> length nf = 32%nat).
  { rewrite Hs. intros nf [Hx%elem_of_list_to_set|Hx]%elem_of_union; [|by apply (pi_nfs s Hi)]. by apply (Forall_forall (fun l => length l = 32%nat) (tx_nullifiers tx)). }
  specialize (Hg Hw). cbv zeta in Hg. set (t := mk_tree _) in *.
  destruct (record_anchor_spec (mk_state t nfs (anchors s) (anchor_order s)) (root t) (pi_sync s Hi) (pi_nodup s Hi) (pi_window s Hi)) as (Et & En & _).
  split_and!; try done; [by rewrite Et|by rewrite En].
Qed.

(** Every refusal leaves the pool as it was. *)
Lemma apply_Err s tx v e s' : apply_with_verdict s tx v = (Err e, s') -> s' = s.
Proof. unfold apply_with_verdict. repeat (destruct (negb _) || destruct (_ <? _)); by intros [= _ <-] || done. Qed.

Lemma mint_Some s cm pos s' : pool_inv s -> length cm = 32%nat -> mint s cm = (Some pos, s') ->
  pos = size (s_tree s) /\ leaves (s_tree s') = leaves (s_tree s) ++ [cm] /\ s_nullifiers s' = s_nullifiers s /\ pool_inv s'.
Proof.
  intros Hi Hc E. unfold mint, append, is_full in E. destruct (Z.leb_spec (2 ^ Z.of_nat TREE_DEPTH) (size (s_tree s))) as [|Hlt]; [done|]. injection E as <- <-.
  assert (Hg : pool_inv (record_anchor (set_tree s (mk_tree (leaves (s_tree s) ++ [cm]))) (root (mk_tree (leaves (s_tree s) ++ [cm])))))
    by (apply grow_inv; [done|by repeat constructor|cbn [length]; lia|apply (pi_nfs s Hi)]).
  destruct (record_anchor_spec (set_tree s (mk_tree (leaves (s_tree s) ++ [cm]))) (root (mk_tree (leaves (s_tree s) ++ [cm]))) (pi_sync s Hi) (pi_nodup s Hi) (pi_window s Hi))
    as (Et & En & _). split_and!; [done|by rewrite Et|by rewrite En|done].
Qed.

End pool.

(** ** A note is spent once *)

Section history.
  Context `{Crypto} `{!CryptoLaws}.

Inductive event := Mint (cm : list Z) | Spend (tx : ShieldedTx) (pr : TransparentProof).

(** The pool with the inputs it accepted, oldest first. *)
Definition step (p : Params) (w : ShieldedState * list InputOpening) (e : event) : ShieldedState * list InputOpening :=
  match e with
  | Mint cm => (snd (mint (fst w) cm), snd w)
  | Spend tx pr =>
      match apply (fst w) p tx pr with
      | (Ok _, s) => (s, snd w ++ p_inputs pr)
      | (Err _, s) => (s, snd w)
      end
  end.

Definition run (p : Params) (es : list event) : ShieldedState * list InputOpening := fold_left (step p) es (state_new, []).

(** Widths and ranges the types of the source fix. *)
Definition input_typed (i : InputOpening) : Prop :=
  length (owner (i_note i)) = 32%nat /\ length (auth (i_note i)) = 32%nat /\ length (i_nsk i) = 32%nat /\ is_u64 (p_index (i_path i)) /\ path_ok (i_path i).

Definition typed (e : event) : Prop :=
  match e with
  | Mint cm => length cm = 32%nat
  | Spend tx pr => tx_typed tx /\ Forall input_typed (p_inputs pr)
  end.

Definition position (i : InputOpening) : nat := Z.to_nat (p_index (i_path i) mod 2 ^ Z.of_nat TREE_DEPTH).
Definition revealed (p : Params) (i : InputOpening) : list Z := derive (i_nsk i) (p_index (i_path i)) (commitment p (i_note i)).

(** An accepted input is an owned leaf of the tree. *)
Definition spent_ok (p : Params) (ls : list (list Z)) (i : InputOpening) : Prop :=
  input_typed i /\ ls !! position i = Some (commitment p (i_note i)) /\ derive_owner_pk (i_nsk i) = owner (i_note i).

Record history_inv (p : Params) (w : ShieldedState * list InputOpening) : Prop := {
  hi_pool : pool_inv (fst w);
  hi_seen : seen (s_nullifiers (fst w)) = list_to_set (map (revealed p) (snd w));
  hi_nodup : NoDup (map (revealed p) (snd w));
  hi_spent : Forall (spent_ok p (leaves (s_tree (fst w)))) (snd w);
}.

Lemma spent_ok_grow p ls ls' i : spent_ok p ls i -> spent_ok p (ls ++ ls') i.
Proof. intros (? & E & ?). split_and!; try done. by apply lookup_app_l_Some. Qed.

(** ** The messages hashed for a spend *)

Definition note_hashed (p : Params) (n : Note) : list Z :=
  labeled_hasher NOTE_CM_LABEL (com_to_bytes (note_value_commitment p n) ++ owner n ++ auth n ++ rho n).

(** The spent note, its owner key, the empty leaf, the nodes of its path, and the nodes above its position in
    the tree over [ls] and over every earlier prefix of it, the trees the anchors are roots of. *)
Definition spend_hashed (p : Params) (ls : list (list Z)) (i : InputOpening) : list (list Z) :=
  [note_hashed p (i_note i); labeled_hasher OWNER_PK_LABEL (i_nsk i); labeled_hasher EMPTY_LEAF_LABEL []] ++
  climb_hashed (commitment p (i_note i)) (p_index (i_path i)) (siblings (i_path i)) ++
  (seq 0 (S (length ls)) ≫= (fun n => branch_hashed (take n ls) (p_index (i_path i) mod 2 ^ Z.of_nat TREE_DEPTH))).

(** The messages hashed for the inputs a history accepted. *)
Definition history_hashed (p : Params) (w : ShieldedState * list InputOpening) : list (list Z) :=
  snd w ≫= spend_hashed p (leaves (s_tree (fst w))).

Lemma prefix_branch p ls n i : branch_hashed (take n ls) (p_index (i_path i) mod 2 ^ Z.of_nat TREE_DEPTH) ⊆ spend_hashed p ls i.
Proof.
  intros m Hm. apply elem_of_app. right. apply elem_of_app. right. apply list_elem_of_bind. exists (Nat.min n (length ls)). split.
  - by rewrite <- take_take, (take_ge ls (length ls)).
  - apply elem_of_seq. lia.
Qed.

Lemma spend_hashed_own p ls i : note_hashed p (i_note i) ∈ spend_hashed p ls i /\
  labeled_hasher OWNER_PK_LABEL (i_nsk i) ∈ spend_hashed p ls i /\ labeled_hasher EMPTY_LEAF_LABEL [] ∈ spend_hashed p ls i.
Proof. unfold spend_hashed. split_and!; [left|right; left|right; right; left]. Qed.

Lemma spend_hashed_grow p ls ls' i : spend_hashed p ls i ⊆ spend_hashed p (ls ++ ls') i.
Proof.
  intros m [Hm|[Hm|(n & Hm & _)%list_elem_of_bind]%elem_of_app]%elem_of_app.
  - apply elem_of_app. by left.
  - apply elem_of_app. right. apply elem_of_app. by left.
  - destruct (take_past ls ls' n) as [k Ek]. rewrite Ek in Hm. by apply (prefix_branch p) in Hm.
Qed.

(** The tree and the accepted inputs only grow. *)
Definition grows (w w' : ShieldedState * list InputOpening) : Prop :=
  exists ls spent, leaves (s_tree (fst w')) = leaves (s_tree (fst w)) ++ ls /\ snd w' = snd w ++ spent.

Lemma grows_refl w : grows w w.
Proof. exists [], []. by rewrite !app_nil_r. Qed.

Lemma grows_trans w1 w2 w3 : grows w1 w2 -> grows w2 w3 -> grows w1 w3.
Proof. intros (l1 & s1 & E1 & E2) (l2 & s2 & E3 & E4). exists (l1 ++ l2), (s1 ++ s2). by rewrite E3, E1, E4, E2, !app_assoc. Qed.

Lemma grows_hashed p w w' : grows w w' -> history_hashed p w ⊆ history_hashed p w'.
Proof.
  intros (ls & sp & El & Es). unfold history_hashed. rewrite El, Es, bind_app. intros m (i & Hm & Hi)%list_elem_of_bind.
  apply elem_of_app. left. apply list_elem_of_bind. exists i. split; [by apply spend_hashed_grow|done].
Qed.

Lemma step_grows p w e : typed e -> pool_inv (fst w) -> pool_inv (fst (step p w e)) /\ grows w (step p w e).
Proof.
  intros Ht Hi. destruct e as [cm|tx pr]; cbn [step typed] in *.
  - destruct (mint (fst w) cm) as [[pos|] s'] eqn:E; cbn [fst snd].
    + destruct (mint_Some _ _ _ _ Hi Ht E) as (_ & El & _ & Hi'). split; [done|]. exists [cm], []. by rewrite app_nil_r.
    + assert (s' = fst w) as -> by (unfold mint in E; destruct (append _ _) as [[?|] ?]; by injection E). split; [done|]. destruct w; apply grows_refl.
  - destruct Ht as [Ht _]. destruct (apply (fst w) p tx pr) as [[[]|er] s'] eqn:E; unfold apply in E.
    + destruct (apply_Ok _ _ _ _ Hi Ht E) as (_ & _ & _ & _ & _ & El & _ & Hi'). split; [done|]. by exists (map note_commitment (outputs tx)), (p_inputs pr).
    + apply apply_Err in E as ->. split; [done|]. destruct w. apply grows_refl.
Qed.

Lemma step_spent P p w tx pr : Forall P (snd w) -> Forall P (p_inputs pr) -> Forall P (snd (step p w (Spend tx pr))).
Proof. intros Hw Hp. cbn [step]. destruct (apply _ _ _ _) as [[?|?] ?]; cbn [snd]; [by apply Forall_app|done]. Qed.

Lemma fold_grows p es : Forall typed es -> forall w, pool_inv (fst w) -> grows w (fold_left (step p) es w).
Proof.
  induction 1 as [|e es He _ IH]; intros w Hi; cbn [fold_left]; [apply grows_refl|].
  destruct (step_grows p w e He Hi) as [Hi' Hg]. eapply grows_trans; [exact Hg|by apply IH].
Qed.

  Context (msgs : list (list Z)) (Hintact : ~ broken_on msgs).

(** A note commitment and an empty leaf are digests under two labels. *)
Lemma commitment_not_empty p n : note_hashed p n ∈ msgs -> labeled_hasher EMPTY_LEAF_LABEL [] ∈ msgs -> commitment p n <> empty_leaf.
Proof.
  intros Hn He E. apply (hash_inj msgs) in E; [|done..]. revert E.
  generalize (com_to_bytes (note_value_commitment p n) ++ owner n ++ auth n ++ rho n). intros d El. by vm_compute in El.
Qed.

(** Every input of an accepted transaction was a leaf when its anchor was current. *)
Lemma accepted_inputs p s tx pr : pool_inv s -> tx_anchor tx ∈ anchor_order s -> Forall input_typed (p_inputs pr) -> relation p tx pr ->
  (p_inputs pr ≫= spend_hashed p (leaves (s_tree s))) ⊆ msgs ->
  map (revealed p) (p_inputs pr) = tx_nullifiers tx /\ Forall (spent_ok p (leaves (s_tree s))) (p_inputs pr).
Proof.
  intros Hi Ha Ht Hr Hm. assert (Hx : map (revealed p) (p_inputs pr) = tx_nullifiers tx /\
    Forall (fun i => verify (i_path i) (commitment p (i_note i)) (tx_anchor tx) = true /\ derive_owner_pk (i_nsk i) = owner (i_note i)) (p_inputs pr)).
  { destruct Hr as [(La & Lb & Lc) _ _ _ _ Hin _ _]. clear Ht Hm. revert La Lb Lc Hin. generalize (tx_nullifiers tx), (input_values tx), (spend_auths tx).
    induction (p_inputs pr) as [|i is_ IH]; intros [|nf nfs] [|c cs] [|x xs]; try done. intros [=] [=] [=] Hin. cbn [zip zip_with] in Hin.
    apply Forall_cons in Hin as [Hx Hin]. apply input_ok_iff in Hx as (Hv & Ho & Hn & _). destruct (IH nfs cs xs) as [E HF]; try done.
    split; [cbn [map]; unfold revealed at 1; by rewrite Hn, E|by constructor]. }
  destruct Hx as [En HF]. split; [done|]. rewrite Forall_forall in HF, Ht. apply Forall_forall. intros i Hin.
  assert (Hmi : spend_hashed p (leaves (s_tree s)) i ⊆ msgs) by (intros m Hx; apply Hm, list_elem_of_bind; by exists i).
  destruct (HF i Hin) as [Hv Ho]. pose proof (Ht i Hin) as Hty. destruct (Forall_forall (fun a => exists n, a = root (mk_tree (take n (leaves (s_tree s))))) (anchor_order s)) as [Hp _].
  destruct (Hp (pi_past s Hi) _ Ha) as [n En']. rewrite En' in Hv. set (ls := take n (leaves (s_tree s))) in *.
  assert (Els : leaves (s_tree s) = ls ++ drop n (leaves (s_tree s))) by (unfold ls; by rewrite take_drop).
  destruct (verify_leaf msgs Hintact ls (drop n (leaves (s_tree s))) (i_path i) (commitment p (i_note i))) as [[Hl _]|Hl].
  - rewrite <- Els. apply (pi_wide s Hi).
  - apply Hty.
  - apply hash_labeled_length.
  - exact Hv.
  - etrans; [|exact Hmi]. intros m Hx. apply elem_of_app. right. apply elem_of_app. by left.
  - etrans; [|exact Hmi]. apply prefix_branch.
  - split; [exact Hty|]. split; [|exact Ho]. rewrite Els. exact Hl.
  - exfalso. revert Hl. destruct (spend_hashed_own p (leaves (s_tree s)) i) as (M1 & _ & M3). apply commitment_not_empty; by apply Hmi.
Qed.

Lemma step_history p w e : typed e -> history_hashed p (step p w e) ⊆ msgs -> history_inv p w -> history_inv p (step p w e).
Proof.
  intros Ht Hm Hw. pose proof (hi_pool p w Hw) as Hi. destruct e as [cm|tx pr]; cbn [step typed] in *.
  - destruct (mint (fst w) cm) as [[pos|] s'] eqn:E; cbn [snd].
    + destruct (mint_Some _ _ _ _ Hi Ht E) as (_ & El & En & Hi'). split; cbn [fst snd]; [done|rewrite En; apply (hi_seen p w Hw)|apply (hi_nodup p w Hw)|].
      rewrite El. eapply Forall_impl; [apply (hi_spent p w Hw)|]. intros i. apply spent_ok_grow.
    + assert (s' = fst w) as -> by (unfold mint in E; destruct (append _ _) as [[?|] ?]; by injection E). by destruct w.
  - destruct Ht as [Ht Hin]. destruct (apply (fst w) p tx pr) as [[[]|er] s'] eqn:E; unfold apply in E.
    + destruct (apply_Ok _ _ _ _ Hi Ht E) as (Hv%proof_verify_iff & Ha & Hn & Hf & _ & El & Es & Hi').
      destruct (accepted_inputs p (fst w) tx pr Hi Ha Hin Hv) as [En HF].
      { etrans; [|exact Hm]. unfold history_hashed. cbn [fst snd]. rewrite bind_app, El. intros m (i & Hx & Hii)%list_elem_of_bind.
        apply elem_of_app. right. apply list_elem_of_bind. exists i. split; [by apply spend_hashed_grow|done]. }
      split; cbn [fst snd]; [done| | |].
      * rewrite Es, map_app, list_to_set_app_L, En, (hi_seen p w Hw). apply union_comm_L.
      * rewrite map_app, En. apply NoDup_app. split_and!; [apply (hi_nodup p w Hw)| |done]. intros nf Hx Hy. rewrite Forall_forall in Hf.
        apply (Hf nf Hy). rewrite (hi_seen p w Hw). by apply elem_of_list_to_set.
      * rewrite El. apply Forall_app. split; [eapply Forall_impl; [apply (hi_spent p w Hw)|]; intros i; apply spent_ok_grow|].
        eapply Forall_impl; [exact HF|]. intros i. apply spent_ok_grow.
    + apply apply_Err in E as ->. by destruct w.
Qed.

Lemma run_history p es : Forall typed es -> history_hashed p (run p es) ⊆ msgs -> history_inv p (run p es).
Proof.
  unfold run. assert (H0i : history_inv p (state_new, [])).
  { split; cbn [fst snd map]; [apply state_new_inv| |by apply NoDup_nil|by apply Forall_nil]. unfold state_new.
    destruct (record_anchor_spec (mk_state tree_new nfs_new ∅ []) (root tree_new)) as (_ & En & _); [done|by apply NoDup_nil|cbn; lia|]. cbn [s_tree]. by rewrite En. }
  revert H0i. generalize (state_new, @nil InputOpening). intros w Hw Ht. revert w Hw. induction Ht as [|e es He Hes IH]; intros w Hw Hm; cbn [fold_left] in *; [done|].
  apply IH; [|done]. apply step_history; [done| |done]. etrans; [|exact Hm]. apply grows_hashed, fold_grows; [done|].
  by apply step_grows, (hi_pool p w Hw).
Qed.

(** Two spends of one position reveal one nullifier. *)
Lemma same_note p ls i j : spend_hashed p ls i ⊆ msgs -> spend_hashed p ls j ⊆ msgs -> params_ok p -> spent_ok p ls i -> spent_ok p ls j -> p_index (i_path i) = p_index (i_path j) ->
  revealed p i = revealed p j.
Proof.
  intros Hmi Hmj Hp ((Lo & La & Ln & _) & Ei & Hi) ((Lo' & La' & Ln' & _) & Ej & Hj) E. unfold position in *. rewrite E, Ej in Ei. injection Ei as Ec.
  assert (Hv : forall n, length (com_to_bytes (note_value_commitment p n)) = COM_WIRE_LEN) by (intros n; apply length_com_bytes, commit_ok, Hp).
  destruct (spend_hashed_own p ls i) as (I1 & I2 & _), (spend_hashed_own p ls j) as (J1 & J2 & _).
  pose proof Ec as Ec'. apply (hash_labeled_inj msgs) in Ec' as Eb; [|done|by apply Hmj|by apply Hmi]. apply app_inj_1 in Eb as [_ Eb]; [|by rewrite !Hv]. apply app_inj_1 in Eb as [Eo _]; [|congruence].
  rewrite <- Hi, <- Hj in Eo. apply (hash_labeled_inj msgs) in Eo as En; [|done|by apply Hmj|by apply Hmi]. unfold revealed. by rewrite E, En, Ec.
Qed.

Lemma distinct_positions p ls spent : params_ok p -> NoDup (map (revealed p) spent) -> Forall (spent_ok p ls) spent ->
  (spent ≫= spend_hashed p ls) ⊆ msgs -> Forall (fun i => p_index (i_path i) < 2 ^ Z.of_nat TREE_DEPTH) spent -> NoDup (map position spent).
Proof.
  intros Hp. induction spent as [|i spent IH]; intros Hn Hs Hm Hb; [by apply NoDup_nil|]. cbn [map] in *. apply NoDup_cons in Hn as [Hi Hn].
  apply Forall_cons in Hs as [Hsi Hs], Hb as [Hbi Hb]. rewrite bind_cons in Hm. apply list_subseteq_app_iff_l in Hm as [Hmi Hm].
  rewrite NoDup_cons. split; [|by apply IH]. intros (j & Ej & Hj)%list_elem_of_fmap.
  rewrite Forall_forall in Hs, Hb. specialize (Hs j Hj). specialize (Hb j Hj). assert (Eij : p_index (i_path i) = p_index (i_path j)).
  { unfold position in Ej. destruct Hsi as ((_ & _ & _ & [? ?] & _) & _), Hs as ((_ & _ & _ & [? ?] & _) & _). cbn in Hbi, Hb. rewrite !Z.mod_small in Ej by lia. lia. }
  apply Hi. rewrite (same_note p ls i j Hmi) by (done || (intros m Hx; apply Hm, list_elem_of_bind; by exists j)). by apply list_elem_of_fmap_2.
Qed.

End history.

(** C6: no note is spent twice.  Over any sequence of mintings and transactions, accepted or not, the accepted inputs
    have pairwise different tree positions, as long as their indices are positions of the tree, unless the messages hashed
    for those inputs (notes, owner keys, path nodes, and the nodes above their positions in the tree as it grew) hold a
    collision or a zero digest. *)
Theorem no_note_is_spent_twice `{Crypto} `{!CryptoLaws} (p : Params) (es : list event) :
  params_ok p -> Forall typed es ->
  let spent := snd (run p es) in
  Forall (fun i => p_index (i_path i) < 2 ^ Z.of_nat TREE_DEPTH) spent ->
  NoDup (map position spent) \/ broken_on (history_hashed p (run p es)).
Proof.
  intros Hp Ht spent Hb. apply unless_broken. intros Hx. pose proof (run_history _ Hx p es Ht ltac:(done)) as Hw.
  apply (distinct_positions _ Hx p (leaves (s_tree (fst (run p es)))));
    [done|apply (hi_nodup p _ Hw)|apply (hi_spent p _ Hw)|done|done].
Qed.

(** ** What the builder builds is accepted *)

Section building.
  Context `{Crypto} {HCL : CryptoLaws} `{KemCrypto} {HKL : KemLaws} `{!SigKeygen}.

(** A note whose keys and path the holder has. *)
Record spendable (p : Params) (anchor : list Z) (i : SpendInput) : Prop := {
  sp_member : verify (sp_path i) (commitment p (sp_note i)) anchor = true;
  sp_owner : derive_owner_pk (sp_nsk i) = owner (sp_note i);
  sp_auth : auth (sp_note i) = spend_auth_commit (snd (derive_spend_auth (spend_seed i)));
  sp_range : 0 <= value (sp_note i) < MAX_VALUE;
  sp_short : short 1 (value_r (sp_note i));
}.

(** The builder, with the randomness and the note commitments of the outputs given. *)
Definition make (p : Params) (anchor : list Z) (inputs : list SpendInput) (rs : list Randomness) (cms : list (list Z)) (outs : list OutputOpening)
    (fee public_value : Z) (public_recipient : list Z) : ShieldedTx * TransparentProof :=
  let output_notes := zip_with (fun cm o => mk_output cm (commit p (o_value o) (o_value_r o)) None) cms outs in
  (sign_inputs inputs (mk_tx anchor (map (fun i => nullifier (sp_note i) (sp_nsk i) (p_index (sp_path i)) p) inputs)
     (zip_with (fun i r => commit p (value (sp_note i)) r) inputs rs) output_notes fee public_value public_recipient []),
   mk_proof (zip_with (fun i r => mk_input (sp_note i) (sp_path i) (sp_nsk i) (vk_encode (snd (derive_spend_auth (spend_seed i)))) r) inputs rs) outs).

Lemma input_randomness_spec fuel inputs rs : input_randomness fuel inputs = Some rs -> length rs = length inputs /\ Forall (short 1) rs.
Proof.
  unfold input_randomness. intros Hm. split.
  - apply length_mapM in Hm. rewrite length_zip_with, length_seqZ, Nat2Z.id in Hm. lia.
  - apply mapM_Some in Hm. clear -Hm HKL. induction Hm as [|x r xs rs Hx _ IH]; constructor; [|done]. by apply is_ternary_short, (rand_from_seed_ternary fuel _ r Hx).
Qed.

Lemma build_signed_make fuel p anchor inputs outs fee pv pr tp :
  build_signed fuel p anchor inputs outs fee pv pr = Some tp ->
  exists rs, length rs = length inputs /\ Forall (short 1) rs /\
    tp = make p anchor inputs rs (map (commitment p) outs) (map (fun n => mk_oopen (value n) (value_r n)) outs) fee pv pr.
Proof.
  unfold build_signed. destruct (input_randomness fuel inputs) as [rs|] eqn:Er; [|done]. cbn [mbind option_bind]. intros [= <-].
  destruct (input_randomness_spec _ _ _ Er) as [Hl Hs]. exists rs. split; [done|]. split; [done|]. unfold make. do 3 f_equal.
  induction outs as [|n outs IH]; [done|]. cbn [map zip_with]. by rewrite <- IH.
Qed.

Lemma derive_verifier seed : snd (derive_spend_auth seed) = verifier_of (fst (derive_spend_auth seed)).
Proof. unfold derive_spend_auth, sig_generate. destruct (ed_generate _) as [ed r]. by destruct (ml_generate_from_rng r). Qed.

Lemma make_relation p anchor inputs rs cms outs fee pv pr : params_ok p -> Forall (spendable p anchor) inputs -> length rs = length inputs -> Forall (short 1) rs ->
  length cms = length outs -> Forall (fun o => 0 <= o_value o < MAX_VALUE /\ short 1 (o_value_r o)) outs ->
  Z.of_nat (length inputs + length outs) <= MAX_NOTES_PER_TX -> 0 <= fee < MAX_VALUE -> 0 <= pv < MAX_VALUE ->
  zsum (map (fun i => value (sp_note i)) inputs) = zsum (map o_value outs) + fee + pv ->
  let '(tx, tp) := make p anchor inputs rs cms outs fee pv pr in proof_verify tp p tx = true.
Proof.
  intros Hp Hi Hl Hs Hc Ho Hn Hf Hv Hb. unfold make. apply proof_verify_iff. unfold sign_inputs. set (sh := sighash _).
  assert (Esh : sighash (set_spend_auths (mk_tx anchor (map (fun i => nullifier (sp_note i) (sp_nsk i) (p_index (sp_path i)) p) inputs)
     (zip_with (fun i r => commit p (value (sp_note i)) r) inputs rs) (zip_with (fun cm o => mk_output cm (commit p (o_value o) (o_value_r o)) None) cms outs) fee pv pr [])
     (map (fun i => sig_to_bytes (hybrid_sign (fst (derive_spend_auth (spend_seed i))) sh)) inputs)) = sh) by done.
  split; rewrite ?Esh; cbn [set_spend_auths p_inputs p_outputs tx_nullifiers input_values spend_auths outputs tx_anchor Shielded.fee Shielded.public_value].
  - rewrite !length_zip_with, !length_map, Hl, !Nat.min_id. done.
  - rewrite length_zip_with, Hc. lia.
  - rewrite length_zip_with, Hl, Nat.min_id. lia.
  - clear -Hi Hs Hl. revert rs Hl Hs. induction Hi as [|i is_ Hi _ IH]; intros [|r rs] [=] Hs; [by apply Forall_nil|]. apply Forall_cons in Hs as [? ?]. cbn [zip_with].
    constructor; [split; [done|apply (sp_short _ _ _ Hi)]|by apply IH].
  - eapply Forall_impl; [exact Ho|]. by intros o [_ ?].
  - clearbody sh. clear -Hi Hl HCL. revert rs Hl. induction Hi as [|i is_ Hi _ IH]; intros [|r rs] [=]; [by apply Forall_nil|]. cbn [map zip zip_with]. constructor; [|by apply IH].
    apply input_ok_iff. cbn [i_note i_path i_nsk i_ak i_value_r]. destruct Hi as [Hm Hw Ha Hr _]. split_and!; try done; [|by destruct Hr].
    exists (snd (derive_spend_auth (spend_seed i))), (hybrid_sign (fst (derive_spend_auth (spend_seed i))) sh).
    split; [apply vk_decode_encode|]. split; [apply sig_from_to|]. split; [done|]. rewrite derive_verifier. apply hybrid_sign_verifies.
  - clear -Ho Hc. revert cms Hc. induction Ho as [|o outs [Hr Ho] _ IH]; intros [|cm cms] [=]; [by apply Forall_nil|]. cbn [zip zip_with]. constructor; [|by apply IH].
    unfold output_ok. cbn [value_commitment]. rewrite if_false, andb_true_iff, negb_true_iff, Z.leb_gt, bool_decide_eq_true. split; [lia|done].
  - assert (E1 : zip_with (fun i r => commit p (value (sp_note i)) r) inputs rs = map (fun o => commit p (fst o) (snd o)) (zip (map (fun i => value (sp_note i)) inputs) rs)).
    { clear -Hl. revert rs Hl. induction inputs as [|i is_ IH]; intros [|r rs] [=]; [done|]. cbn [map zip zip_with fst snd]. f_equal. by apply IH. }
    assert (E2 : map value_commitment (zip_with (fun cm o => mk_output cm (commit p (o_value o) (o_value_r o)) None) cms outs) =
      map (fun o => commit p (fst o) (snd o)) (map (fun o => (o_value o, o_value_r o)) outs)).
    { clear -Hc. revert cms Hc. induction outs as [|o outs IH]; intros [|cm cms] [=]; [done|]. cbn [map zip zip_with fst snd value_commitment]. f_equal. by apply IH. }
    assert (E3 : map i_value_r (zip_with (fun i r => mk_input (sp_note i) (sp_path i) (sp_nsk i) (vk_encode (snd (derive_spend_auth (spend_seed i)))) r) inputs rs) =
      map snd (zip (map (fun i => value (sp_note i)) inputs) rs)).
    { clear -Hl. revert rs Hl. induction inputs as [|i is_ IH]; intros [|r rs] [=]; [done|]. cbn [map zip zip_with snd i_value_r]. f_equal. by apply IH. }
    assert (E4 : map o_value_r outs = map snd (map (fun o => (o_value o, o_value_r o)) outs)) by by rewrite map_map.
    rewrite E1, E2, E3, E4. assert (Es : sat_add 64 fee pv = fee + pv) by (unfold sat_add, MAX_VALUE in *; lia). rewrite Es. apply (balance_exact p Hp).
    + clear -Hi Hs Hl. revert rs Hl Hs. induction Hi as [|i is_ Hi _ IH]; intros [|r rs] [=] Hs; [by apply Forall_nil|]. apply Forall_cons in Hs as [? ?]. cbn [map zip zip_with].
      constructor; [split; [apply (sp_range _ _ _ Hi)|done]|by apply IH].
    + apply Forall_map. eapply Forall_impl; [exact Ho|]. done.
    + lia.
    + rewrite length_zip_with, !length_map, Hl, Nat.min_id. lia.
    + assert (E5 : map fst (zip (map (fun i => value (sp_note i)) inputs) rs) = map (fun i => value (sp_note i)) inputs) by (rewrite fst_zip; [done|rewrite length_map; lia]).
      rewrite E5, map_map. cbn [fst]. rewrite Z.add_assoc. exact Hb.
Qed.

Lemma apply_accepts s tx : pool_inv s -> tx_typed tx -> tx_anchor tx ∈ anchor_order s -> NoDup (tx_nullifiers tx) ->
  Forall (fun nf => nf ∉ seen (s_nullifiers s)) (tx_nullifiers tx) -> size (s_tree s) + Z.of_nat (length (outputs tx)) <= 2 ^ Z.of_nat TREE_DEPTH ->
  exists s', apply_with_verdict s tx true = (Ok tt, s').
Proof.
  intros Hi Ht Ha Hn Hf Hc. unfold apply_with_verdict, is_valid_anchor. rewrite bool_decide_true by (rewrite (pi_sync s Hi); by apply elem_of_list_to_set).
  rewrite (proj2 (all_fresh_iff _ _) (conj Hn Hf)). cbn [negb]. rewrite (proj2 (Z.ltb_ge _ _)) by (unfold sat_add; lia). by eexists.
Qed.

Lemma make_typed p anchor inputs rs cms outs fee pv pr : wide cms -> length cms = length outs -> Z.of_nat (length outs) < 2 ^ 63 ->
  tx_typed (fst (make p anchor inputs rs cms outs fee pv pr)).
Proof.
  intros Hw Hc Hl. unfold make, sign_inputs. cbn [fst]. split; [|split]; cbn [set_spend_auths outputs tx_nullifiers].
  - clear -Hw Hc. revert outs Hc. induction Hw as [|cm cms Hc _ IH]; intros [|o outs] [=]; [by apply Forall_nil|]. cbn [zip_with map note_commitment]. constructor; [done|by apply IH].
  - apply Forall_map, Forall_true. intros i. apply hash_labeled_length.
  - rewrite length_zip_with. lia.
Qed.

Lemma make_outputs p anchor inputs rs cms outs fee pv pr : length cms = length outs ->
  map note_commitment (outputs (fst (make p anchor inputs rs cms outs fee pv pr))) = cms /\ length (outputs (fst (make p anchor inputs rs cms outs fee pv pr))) = length outs.
Proof.
  intros Hc. unfold make, sign_inputs. cbn [fst set_spend_auths outputs]. split; [|rewrite length_zip_with; lia].
  revert outs Hc. induction cms as [|cm cms IH]; intros [|o outs] [=]; [done|]. cbn [zip_with map note_commitment]. by rewrite IH.
Qed.

(** Whatever is assembled from spendable notes within the bounds is accepted, with any output commitments. *)
Lemma make_accepted p s inputs rs cms outs fee pv pr : params_ok p -> pool_inv s -> Forall (spendable p (state_anchor s)) inputs ->
  length rs = length inputs -> Forall (short 1) rs -> wide cms -> length cms = length outs ->
  Forall (fun o => 0 <= o_value o < MAX_VALUE /\ short 1 (o_value_r o)) outs ->
  Z.of_nat (length inputs + length outs) <= MAX_NOTES_PER_TX -> 0 <= fee < MAX_VALUE -> 0 <= pv < MAX_VALUE ->
  zsum (map (fun i => value (sp_note i)) inputs) = zsum (map o_value outs) + fee + pv ->
  let nfs := map (fun i => nullifier (sp_note i) (sp_nsk i) (p_index (sp_path i)) p) inputs in
  NoDup nfs -> Forall (fun nf => nf ∉ seen (s_nullifiers s)) nfs -> size (s_tree s) + Z.of_nat (length outs) <= 2 ^ Z.of_nat TREE_DEPTH ->
  let '(tx, tp) := make p (state_anchor s) inputs rs cms outs fee pv pr in
  exists s', apply s p tx tp = (Ok tt, s') /\ leaves (s_tree s') = leaves (s_tree s) ++ cms /\ seen (s_nullifiers s') = list_to_set nfs ∪ seen (s_nullifiers s) /\ pool_inv s'.
Proof.
  intros Hp Hi Hsp Hl Hr Hw Hc Ho Hn Hf Hv Hb nfs Hnd Hfr Hcap.
  pose proof (make_relation p (state_anchor s) inputs rs cms outs fee pv pr Hp Hsp Hl Hr Hc Ho Hn Hf Hv Hb) as Hver.
  pose proof (make_typed p (state_anchor s) inputs rs cms outs fee pv pr Hw Hc ltac:(change MAX_NOTES_PER_TX with 1021 in Hn; lia)) as Hty.
  destruct (make_outputs p (state_anchor s) inputs rs cms outs fee pv pr Hc) as [Eo El].
  assert (En : tx_nullifiers (fst (make p (state_anchor s) inputs rs cms outs fee pv pr)) = nfs) by done.
  assert (Ea : tx_anchor (fst (make p (state_anchor s) inputs rs cms outs fee pv pr)) = state_anchor s) by done.
  destruct (make p (state_anchor s) inputs rs cms outs fee pv pr) as [tx tp]. cbn [fst] in *. unfold apply. rewrite Hver.
  destruct (apply_accepts s tx Hi Hty) as [s' Es]; [rewrite Ea; apply (pi_current s Hi)|by rewrite En|by rewrite En|by rewrite El|].
  exists s'. split; [done|]. destruct (apply_Ok _ _ _ _ Hi Hty Es) as (_ & _ & _ & _ & _ & G1 & G2 & G3). rewrite Eo in G1. rewrite En in G2.
  split; [exact G1|]. split; [exact G2|exact G3].
Qed.

(** A note of the pool with its keys and its current path. *)
Record holds (p : Params) (s : ShieldedState) (i : SpendInput) : Prop := {
  h_leaf : leaves (s_tree s) !! Z.to_nat (p_index (sp_path i)) = Some (commitment p (sp_note i));
  h_path : state_path s (p_index (sp_path i)) = Some (sp_path i) /\ 0 <= p_index (sp_path i);
  h_owner : derive_owner_pk (sp_nsk i) = owner (sp_note i);
  h_auth : auth (sp_note i) = spend_auth_commit (snd (derive_spend_auth (spend_seed i)));
  h_range : 0 <= value (sp_note i) < MAX_VALUE;
  h_short : short 1 (value_r (sp_note i));
}.

Lemma holds_spendable p s i : pool_inv s -> holds p s i -> spendable p (state_anchor s) i.
Proof.
  intros Hi [Hl [Hp H0'] Ho Ha Hr Hs]. split; try done. assert (Hb : 0 <= p_index (sp_path i) < size (s_tree s)).
  { unfold state_path, path in Hp. destruct (Z.leb_spec (size (s_tree s)) (p_index (sp_path i))); [done|lia]. }
  destruct (path_verifies (s_tree s) (p_index (sp_path i)) Hb (pi_size s Hi)) as (q & Eq & _ & Hv). unfold state_path in Hp. rewrite Hp in Eq. injection Eq as <-.
  rewrite Hl in Hv. exact Hv.
Qed.

(** What the wallet builds is accepted.  From any reachable pool, a transfer built from notes it holds, whose nullifiers
    are fresh and distinct, into notes in range, with value conserved, passes every gate; the pool then has the new
    commitments as its next leaves and the nullifiers among the spent. *)
Theorem built_transfer_is_accepted (fuel : nat) (p : Params) (s : ShieldedState) (inputs : list SpendInput) (outs : list Note)
    (fee pv : Z) (to : list Z) (tx : ShieldedTx) (pr : TransparentProof) :
  params_ok p -> pool_inv s -> Forall (holds p s) inputs ->
  Forall (fun n => 0 <= value n < MAX_VALUE /\ is_ternary (value_r n) = true) outs ->
  Z.of_nat (length inputs + length outs) <= MAX_NOTES_PER_TX -> 0 <= fee < MAX_VALUE -> 0 <= pv < MAX_VALUE ->
  zsum (map (fun i => value (sp_note i)) inputs) = zsum (map value outs) + fee + pv ->
  let nfs := map (fun i => nullifier (sp_note i) (sp_nsk i) (p_index (sp_path i)) p) inputs in
  NoDup nfs -> Forall (fun nf => nf ∉ seen (s_nullifiers s)) nfs ->
  size (s_tree s) + Z.of_nat (length outs) <= 2 ^ Z.of_nat TREE_DEPTH ->
  build_signed fuel p (state_anchor s) inputs outs fee pv to = Some (tx, pr) ->
  exists s', apply s p tx pr = (Ok tt, s') /\ leaves (s_tree s') = leaves (s_tree s) ++ map (commitment p) outs /\
    seen (s_nullifiers s') = list_to_set nfs ∪ seen (s_nullifiers s) /\ pool_inv s'.
Proof.
  intros Hp Hi Hh Ho Hn Hf Hv Hb nfs Hnd Hfr Hcap (rs & Hl & Hs & E)%build_signed_make.
  pose proof (make_accepted p s inputs rs (map (commitment p) outs) (map (fun n => mk_oopen (value n) (value_r n)) outs) fee pv to) as HM.
  rewrite <- E in HM. apply HM; try done.
  - eapply Forall_impl; [exact Hh|]. intros i. by apply holds_spendable.
  - apply Forall_map, Forall_true. intros n. apply hash_labeled_length.
  - by rewrite !length_map.
  - apply Forall_map. eapply Forall_impl; [exact Ho|]. intros n [? ?%is_ternary_short]. done.
  - rewrite length_map. lia.
  - by rewrite map_map.
  - by rewrite length_map.
Qed.

Lemma path_of_tree t i q : wide (leaves t) -> 0 <= i -> path t i = Some q -> path_ok q /\ p_index q = i.
Proof.
  intros Hw Hi. unfold path. destruct (_ <=? _); [done|]. intros [= <-]. split; [|done]. split; [done|]. cbn [siblings]. rewrite empties_take.
  assert (Hl : forall es nodes idx, wide es -> wide nodes -> length (path_loop es nodes idx) = length es /\ wide (path_loop es nodes idx)).
  { induction es as [|e es IH]; intros nodes idx He Hn; [split; [done|by apply Forall_nil]|]. apply Forall_cons in He as [He Hes]. cbn [path_loop length].
    assert (Hnext : forall ns, wide (next_level e ns) /\ forall x, wide (next_level e (x :: ns))).
    { induction ns as [|y ns [IH1 IH2]]; [split; [by apply Forall_nil|]; intros x; constructor; [apply hash_labeled_length|by apply Forall_nil]|].
      split; [apply IH2|]. intros x. cbn [next_level]. constructor; [apply hash_labeled_length|done]. }
    destruct (IH (next_level e nodes) (Z.shiftr idx 1) Hes (proj1 (Hnext nodes))) as [G1 G2]. split; [by rewrite G1|]. constructor; [|done].
    destruct (nodes !! _) eqn:E; [|done]. by eapply Forall_lookup_1 in E; [|exact Hn]. }
  destruct (Hl (map empty_at (seq 0 TREE_DEPTH)) (leaves t) i) as [G1 G2]; [|done|].
  - apply Forall_map, Forall_true. intros [|h]; apply hash_labeled_length.
  - split; [|done]. rewrite G1, length_map. apply length_seq.
Qed.

(** The holder of the keys of a leaf holds the note. *)
Lemma holds_intro p s n nsk seed pos : pool_inv s -> 0 <= pos -> leaves (s_tree s) !! Z.to_nat pos = Some (commitment p n) ->
  derive_owner_pk nsk = owner n -> auth n = spend_auth_commit (snd (derive_spend_auth seed)) -> 0 <= value n < MAX_VALUE -> short 1 (value_r n) ->
  holds p s (mk_spend n nsk seed (default (mk_path 0 []) (state_path s pos))) /\
  exists q, state_path s pos = Some q /\ path_ok q /\ p_index q = pos.
Proof.
  intros Hi H0' Hl Ho Ha Hr Hs. assert (Hb : 0 <= pos < size (s_tree s)) by (apply lookup_lt_Some in Hl; unfold size; lia).
  destruct (path_verifies (s_tree s) pos Hb (pi_size s Hi)) as (q & Eq & Ei & _). unfold state_path. rewrite Eq. cbn [default from_option id].
  split; [|exists q; split; [done|]; by apply (path_of_tree (s_tree s) pos q (pi_wide s Hi))].
  split; cbn [sp_note sp_path sp_nsk spend_seed]; rewrite ?Ei; done.
Qed.

Lemma mint_ok s cm : pool_inv s -> length cm = 32%nat -> size (s_tree s) < 2 ^ Z.of_nat TREE_DEPTH ->
  let s' := snd (mint s cm) in leaves (s_tree s') = leaves (s_tree s) ++ [cm] /\ s_nullifiers s' = s_nullifiers s /\ pool_inv s'.
Proof.
  intros Hi Hc Hs. destruct (mint s cm) as [[pos|] s'] eqn:E.
  - by destruct (mint_Some _ _ _ _ Hi Hc E) as (_ & ? & ? & ?).
  - exfalso. unfold mint, append, is_full in E. destruct (Z.leb_spec (2 ^ Z.of_nat TREE_DEPTH) (size (s_tree s))); [lia|done].
Qed.

(** ** Where the gates leave a way round *)

(** A transaction without inputs whose one output opens to nothing. *)
Definition minting_tx (p : Params) (s : ShieldedState) (n : Note) : ShieldedTx * TransparentProof :=
  make p (state_anchor s) [] [] [commitment p n] [mk_oopen 0 zero_randomness] 0 0 (replicate 32 0).

Lemma minting_accepted p s n : params_ok p -> pool_inv s -> size (s_tree s) < 2 ^ Z.of_nat TREE_DEPTH ->
  let tp := minting_tx p s n in
  exists s', apply s p (fst tp) (snd tp) = (Ok tt, s') /\ leaves (s_tree s') = leaves (s_tree s) ++ [commitment p n] /\
    seen (s_nullifiers s') = seen (s_nullifiers s) /\ pool_inv s' /\ tx_typed (fst tp) /\ public_value (fst tp) = 0 /\ fee (fst tp) = 0.
Proof.
  intros Hp Hi Hc. assert (Hw : wide [commitment p n]) by (constructor; [apply hash_labeled_length|by apply Forall_nil]).
  pose proof (make_typed p (state_anchor s) [] [] [commitment p n] [mk_oopen 0 zero_randomness] 0 0 (replicate 32 0) Hw eq_refl ltac:(cbn; lia)) as Hty.
  pose proof (make_accepted p s [] [] [commitment p n] [mk_oopen 0 zero_randomness] 0 0 (replicate 32 0)) as HM.
  assert (E0 : public_value (fst (minting_tx p s n)) = 0 /\ fee (fst (minting_tx p s n)) = 0) by done.
  unfold minting_tx in *. destruct (make _ _ _ _ _ _ _ _ _) as [tx pr]. cbn [fst snd] in *. destruct HM as (s' & Ha & Hl & Hs & Hi'); try done; try by constructor.
  - constructor; [|by apply Forall_nil]. cbn [o_value o_value_r]. split; [done|]. split; [apply length_replicate|]. apply Forall_replicate. cbn. lia.
  - cbn [length]. lia.
  - exists s'. split; [done|]. split; [done|]. split; [rewrite Hs; set_solver|done].
Qed.

(** Anyone can mint any note.  The proof opens the value commitment of an output but never relates it to the note
    commitment that enters the tree, so a transaction with no inputs, no keys and no signatures appends a
    note of any value to any reachable pool that is not full. *)
Theorem anyone_mints_any_note (p : Params) (s : ShieldedState) (n : Note) :
  params_ok p -> pool_inv s -> size (s_tree s) < 2 ^ Z.of_nat TREE_DEPTH ->
  let '(tx, pr) := minting_tx p s n in
  exists s', apply s p tx pr = (Ok tt, s') /\ leaves (s_tree s') = leaves (s_tree s) ++ [commitment p n] /\
    seen (s_nullifiers s') = seen (s_nullifiers s) /\ pool_inv s'.
Proof.
  intros Hp Hi Hc. pose proof (minting_accepted p s n Hp Hi Hc) as HM. cbv zeta in HM. destruct (minting_tx p s n) as [tx pr]. cbn [fst snd] in HM.
  destruct HM as (s' & Ha & Hl & Hs & Hi' & _). by exists s'.
Qed.

(** The sampling blocks of every input hold the trits its randomness needs. *)
Definition draws_enough (blocks : nat) (inputs : list SpendInput) : Prop :=
  Z.of_nat blocks < 2 ^ 64 /\
  Forall (fun x => (L <= length (drawn_from (sp_nsk (snd x) ++ rho (sp_note (snd x)) ++ le_bytes 8 (fst x)) 0 blocks))%nat)
    (zip (seqZ 0 (Z.of_nat (length inputs))) inputs).

(** The message a spend's nullifier hashes. *)
Definition nullifier_hashed (p : Params) (i : SpendInput) : list Z :=
  derive_hashed (sp_nsk i) (p_index (sp_path i)) (commitment p (sp_note i)).

(** The same note under an index one tree size higher. *)
Definition alias (i : SpendInput) : SpendInput :=
  mk_spend (sp_note i) (sp_nsk i) (spend_seed i) (mk_path (p_index (sp_path i) + 2 ^ Z.of_nat TREE_DEPTH) (siblings (sp_path i))).

Lemma draws_alias blocks i : draws_enough blocks [i] -> draws_enough blocks [alias i].
Proof. intros [Hw HF]. split; [done|]. inversion HF. subst. by constructor. Qed.

Lemma alias_spendable p s i : 0 <= p_index (sp_path i) -> length (siblings (sp_path i)) = TREE_DEPTH -> spendable p (state_anchor s) i -> spendable p (state_anchor s) (alias i).
Proof.
  intros H0' Hl [Hm Ho Ha Hr Hs]. split; try done. unfold verify in *. rewrite bool_decide_eq_true in *. rewrite <- Hm. cbn [alias sp_path p_index siblings sp_note].
  apply climb_low_bits; [|done|]; rewrite ?Hl.
  - pose proof (Z.pow_pos_nonneg 2 (Z.of_nat TREE_DEPTH)). lia.
  - rewrite <- (Z.mul_1_l (2 ^ Z.of_nat TREE_DEPTH)) at 1. by rewrite Z.mod_add by done.
Qed.

Lemma input_randomness_returns fuel blocks inputs : draws_enough blocks inputs -> (blocks <= fuel)%nat -> is_Some (input_randomness fuel inputs).
Proof.
  intros [Hw HF] Hf. unfold input_randomness. apply mapM_is_Some_2. eapply Forall_impl; [exact HF|]. intros x Hx. by apply (rand_from_seed_returns fuel _ blocks Hx).
Qed.

Lemma build_signed_returns fuel blocks p anchor inputs outs fee pv to : draws_enough blocks inputs -> (blocks <= fuel)%nat ->
  is_Some (build_signed fuel p anchor inputs outs fee pv to).
Proof. intros Hd Hf. unfold build_signed. destruct (input_randomness_returns fuel blocks inputs Hd Hf) as [rs ->]. by eexists. Qed.

(** C37: a note can be spent more than once.  The path check reads 32 bits of a 64-bit index and the nullifier binds all 64,
    so the holder of any unspent note of any reachable pool unshields its whole value twice, under two indices: both
    builds return, as soon as the sampling blocks of the note hold enough trits, and the pool accepts both, unless the two
    nullifiers' own messages collide or one of them was revealed before. *)
Theorem aliased_note_is_spent_again (fuel blocks : nat) (p : Params) (s : ShieldedState) (i : SpendInput) (to : list Z) :
  params_ok p -> pool_inv s -> holds p s i -> length (sp_nsk i) = 32%nat -> length (siblings (sp_path i)) = TREE_DEPTH ->
  nullifier (sp_note i) (sp_nsk i) (p_index (sp_path i)) p ∉ seen (s_nullifiers s) ->
  nullifier (sp_note i) (sp_nsk i) (p_index (sp_path (alias i))) p ∉ seen (s_nullifiers s) ->
  draws_enough blocks [i] -> (blocks <= fuel)%nat ->
  (exists tp tp' s1 s2,
    build_unshield fuel p (state_anchor s) [i] [] (value (sp_note i)) to 0 = Some tp /\
    build_unshield fuel p (state_anchor s) [alias i] [] (value (sp_note i)) to 0 = Some tp' /\
    apply s p (fst tp) (snd tp) = (Ok tt, s1) /\ apply s1 p (fst tp') (snd tp') = (Ok tt, s2)) \/
  broken_on (nullifier_hashed p <$> [i; alias i]).
Proof.
  intros Hp Hi Hh Hk Hl Hf Hf' Hd Hfuel.
  destruct (build_signed_returns fuel blocks p (state_anchor s) [i] [] 0 (value (sp_note i)) to Hd Hfuel) as [tp Etp].
  destruct (build_signed_returns fuel blocks p (state_anchor s) [alias i] [] 0 (value (sp_note i)) to (draws_alias _ _ Hd) Hfuel) as [tp' Etp'].
  unfold build_unshield. rewrite Etp, Etp'. apply build_signed_make in Etp as (rs & Lr & Sr & ->). apply build_signed_make in Etp' as (rs' & Lr' & Sr' & ->).
  apply unless_broken. intros Hx. eexists _, _. set (goal := exists s1 s2, _). enough (Hgoal : exists s1 s2,
    apply s p (fst (make p (state_anchor s) [i] rs [] [] 0 (value (sp_note i)) to)) (snd (make p (state_anchor s) [i] rs [] [] 0 (value (sp_note i)) to)) = (Ok tt, s1) /\
    apply s1 p (fst (make p (state_anchor s) [alias i] rs' [] [] 0 (value (sp_note i)) to)) (snd (make p (state_anchor s) [alias i] rs' [] [] 0 (value (sp_note i)) to)) = (Ok tt, s2))
    by (destruct Hgoal as (s1 & s2 & G1 & G2); by exists s1, s2).
  pose proof (holds_spendable p s i Hi Hh) as Hs. destruct (h_path p s i Hh) as [Hpath H0'].
  pose proof (alias_spendable p s i H0' Hl Hs) as Hs'. pose proof (h_range p s i Hh) as Hr.
  assert (Hsize : size (s_tree s) + 0 <= 2 ^ Z.of_nat TREE_DEPTH) by (pose proof (pi_size s Hi); lia).
  assert (Hb : p_index (sp_path i) < 2 ^ Z.of_nat TREE_DEPTH).
  { unfold state_path, path in Hpath. destruct (Z.leb_spec (size (s_tree s)) (p_index (sp_path i))); [done|]. pose proof (pi_size s Hi). lia. }
  destruct (make_accepted p s [i] rs [] [] 0 (value (sp_note i)) to) as (s1 & Ha & El & Es & Hi1); try done; try (by apply Forall_nil); try apply NoDup_singleton; try (by constructor); [cbn; lia|].
  cbn [map] in *. rewrite app_nil_r in El.
  assert (Et : s_tree s1 = s_tree s) by (destruct (s_tree s1), (s_tree s); cbn [leaves] in El; by subst).
  destruct (decide (nullifier (sp_note i) (sp_nsk i) (p_index (sp_path (alias i))) p = nullifier (sp_note i) (sp_nsk i) (p_index (sp_path i)) p)) as [E|Hne].
  - exfalso. cbn [alias sp_path p_index] in E. apply (derive_inj _ Hx) in E as (_ & E & _); [|set_solver|set_solver|done| |].
    + pose proof (Z.pow_pos_nonneg 2 (Z.of_nat TREE_DEPTH)). lia.
    + unfold in_u. change (2 ^ Z.of_nat TREE_DEPTH) with (2 ^ 32) in *. lia.
    + unfold in_u. change (2 ^ Z.of_nat TREE_DEPTH) with (2 ^ 32) in *. lia.
  - assert (Ean : state_anchor s1 = state_anchor s) by (unfold state_anchor; by rewrite Et).
    assert (Hfr : Forall (fun nf => nf ∉ seen (s_nullifiers s1)) [nullifier (sp_note (alias i)) (sp_nsk (alias i)) (p_index (sp_path (alias i))) p]).
    { constructor; [|by apply Forall_nil]. rewrite Es. intros [Hy|Hy]%elem_of_union; [|by apply Hf']. apply Hne. rewrite elem_of_list_to_set, list_elem_of_singleton in Hy. exact Hy. }
    assert (Hmax : Z.of_nat (length [alias i] + length (@nil OutputOpening)) <= MAX_NOTES_PER_TX) by (vm_compute; discriminate).
    assert (Hfee : 0 <= 0 < MAX_VALUE) by (unfold MAX_VALUE; lia).
    pose proof (make_accepted p s1 [alias i] rs' [] [] 0 (value (sp_note i)) to Hp Hi1) as HM. rewrite Ean, Et in HM.
    assert (Hone : Forall (spendable p (state_anchor s)) [alias i]) by (constructor; [exact Hs'|by apply Forall_nil]).
    assert (Hsum : zsum (map (fun i => value (sp_note i)) [alias i]) = zsum (map o_value []) + 0 + value (sp_note i)) by (cbn; lia).
    specialize (HM Hone Lr' Sr' (proj2 (Forall_nil _) I) eq_refl (proj2 (Forall_nil _) I) Hmax Hfee Hr Hsum (NoDup_singleton _) Hfr Hsize).
    destruct (make p (state_anchor s) [alias i] rs' [] [] 0 (value (sp_note i)) to) as [tx2 pr2] eqn:E2. destruct HM as (s2 & Ha2 & _).
    exists s1, s2. split; [exact Ha|exact Ha2].
Qed.

End building.

(** ** Delivery and snapshots *)

Section delivery.
  Context `{Crypto} {HCL : CryptoLaws} `{KemCrypto} {HKL : KemLaws}.

Lemma opening_roundtrip v r rho : is_u64 v -> is_ternary r = true -> length rho = 32%nat -> decode_opening (encode_opening v r rho) = Some (v, r, rho).
Proof.
  intros Hv Hr Hl. pose proof (length_rand_bytes r ltac:(by apply is_ternary_short)) as Lr. unfold decode_opening, encode_opening.
  rewrite !length_app, length_le_bytes, Lr, Hl. unfold OPENING_LEN. rewrite Nat.add_assoc, Nat.eqb_refl. cbn [negb].
  rewrite slice_prefix by apply length_le_bytes. rewrite slice_mid by (rewrite ?length_le_bytes, ?Lr; done). cbn [mbind option_bind].
  rewrite rand_from_to by done. cbn [mbind option_bind]. rewrite app_assoc, slice_from_app by (rewrite length_app, length_le_bytes, Lr; done). cbn [mbind option_bind].
  by rewrite from_le_id by done.
Qed.

(** A note sealed to an address is found by its holder. *)
Lemma cipher_roundtrip a sk v r rho rng c rng' : Kem.pair sk (kem_public a) -> is_u64 v -> is_ternary r = true -> length rho = 32%nat ->
  cipher_seal a v r rho rng = (Some c, rng') -> cipher_open c sk (a_owner a) (a_auth a) = Some (mk_note v (a_owner a) (a_auth a) r rho).
Proof.
  intros Hp Hv Hr Hl Hs. unfold cipher_seal in Hs. destruct (Kem.encapsulate (kem_public a) rng) as [[[ct session]|] rng1] eqn:Ee; [|done].
  destruct (Kem.decapsulate_encapsulate sk (kem_public a) rng ct session rng1 Hp Ee) as (Hd & Hc & _).
  destruct (derive_key_nonce session) as [key nonce] eqn:Ek. unfold Kem.aead_seal in Hs. destruct (chacha_encrypt key nonce _) as [ac|] eqn:Ec; [|done]. injection Hs as <- _.
  unfold cipher_open. cbn [kem_ct aead_ct]. rewrite Hc. cbn [mbind option_bind]. rewrite Hd. cbn [mbind option_bind]. rewrite Ek. unfold Kem.aead_open.
  rewrite (chacha_roundtrip _ _ _ _ Ec). cbn [mbind option_bind]. by rewrite opening_roundtrip.
Qed.

(** A scan returns the notes that open and match their commitment, and nothing else. *)
Lemma scan_elem sk ow au p outs n : n ∈ scan sk ow au p outs <-> exists cm c, (cm, c) ∈ outs /\ cipher_open c sk ow au = Some n /\ commitment p n = cm.
Proof.
  unfold scan. rewrite list_elem_of_omap. split.
  - intros ([cm c] & Hin & E). cbn [fst snd] in E. destruct (cipher_open c sk ow au) as [m|] eqn:Eo; [|done]. cbn [mbind option_bind] in E. case_bool_decide; [|done]. injection E as <-. by exists cm, c.
  - intros (cm & c & Hin & Eo & Ec). exists (cm, c). split; [done|]. cbn [fst snd]. rewrite Eo. cbn [mbind option_bind]. by rewrite bool_decide_true.
Qed.

(** The signed hash does not cover the delivery ciphers, so whoever relays a transaction can drop or replace them. *)
Definition strip (tx : ShieldedTx) : ShieldedTx := set_outputs tx (map (fun o => mk_output (note_commitment o) (value_commitment o) None) (outputs tx)).

Lemma stripped_delivery_is_accepted p tx pr s : apply s p (strip tx) pr = apply s p tx pr.
Proof.
  assert (Es : sighash (strip tx) = sighash tx) by (unfold sighash, strip; cbn [set_outputs outputs tx_anchor tx_nullifiers input_values fee public_value public_recipient]; by rewrite map_map).
  assert (Ev : proof_verify pr p (strip tx) = proof_verify pr p tx).
  { unfold proof_verify. rewrite Es. unfold strip. cbn [set_outputs outputs tx_anchor tx_nullifiers input_values fee public_value public_recipient spend_auths].
    rewrite length_map, map_map. assert (Ez : forall os l, forallb (output_ok p) (zip os (map (fun o => mk_output (note_commitment o) (value_commitment o) None) l)) = forallb (output_ok p) (zip os l)).
    { induction os as [|o os IH]; intros [|n l]; [done..|]. cbn [map zip zip_with forallb]. f_equal. apply IH. }
    by rewrite Ez. }
  unfold apply. rewrite Ev. unfold apply_with_verdict, strip. cbn [set_outputs outputs tx_anchor tx_nullifiers]. rewrite length_map.
  assert (Ef : forall os t, fold_left (fun t o => snd (append t (note_commitment o))) (map (fun o => mk_output (note_commitment o) (value_commitment o) None) os) t =
    fold_left (fun t o => snd (append t (note_commitment o))) os t) by (induction os as [|o os IH]; intros t; [done|]; cbn [map fold_left note_commitment]; apply IH).
  by rewrite Ef.
Qed.

(** A snapshot restores the pool with its window, in its order; the length prefixes hold pools of fewer than [2^27] notes. *)
Lemma state_roundtrip s : pool_inv s -> size (s_tree s) < 2 ^ 27 - 1 -> Z.of_nat (base.size (seen (s_nullifiers s))) < 2 ^ 27 - 1 ->
  state_from_bytes (state_to_bytes s) = Some s.
Proof.
  intros Hi Ht Hn. assert (Hlen : forall l : list (list Z), wide l -> length (put_seq (length l) l id) = (4 + 32 * length l)%nat).
  { intros l Hw. unfold put_seq, put_u32. rewrite length_app, length_le_bytes. f_equal. rewrite list_fmap_id. induction Hw as [|x l Hx _ IH]; [done|]. cbn [concat length]. rewrite length_app, IH, Hx. lia. }
  assert (Hwn : wide (bset_list (seen (s_nullifiers s)))) by (apply Forall_forall; intros k Hk%bset_list_elem; by apply (pi_nfs s Hi)).
  assert (Lt : length (tree_to_bytes (s_tree s)) = (4 + 32 * length (leaves (s_tree s)))%nat) by (unfold tree_to_bytes; rewrite Hlen; [reflexivity|apply (pi_wide s Hi)]).
  assert (Ln : length (nfs_to_bytes (s_nullifiers s)) = (4 + 32 * base.size (seen (s_nullifiers s)))%nat) by (unfold nfs_to_bytes; rewrite <- bset_list_length, Hlen; [reflexivity|exact Hwn]).
  assert (Hwa : wide (anchor_order s)).
  { apply Forall_forall. intros a Ha. pose proof (pi_past s Hi) as Hp. rewrite Forall_forall in Hp. destruct (Hp a Ha) as [n ->]. apply length_root. apply Forall_take, (pi_wide s Hi). }
  unfold size in Ht. unfold state_from_bytes. destruct (rd_new_ok (state_to_bytes s)) as [Ho Hr]. unfold state_to_bytes in Hr at 2.
  destruct (rd_var_bytes_reads (tree_to_bytes (s_tree s)) ltac:(rewrite Lt; lia) _ _ Ho Hr) as (r1 & E1 & R1 & O1).
  destruct (rd_var_bytes_reads (nfs_to_bytes (s_nullifiers s)) ltac:(rewrite Ln; lia) _ _ O1 R1) as (r2 & E2 & R2 & O2). rewrite <- app_nil_r in R2.
  destruct (wide_seq_reads (anchor_order s) Hwa ltac:(pose proof (pi_window s Hi); unfold MAX_ANCHORS in *; lia) _ _ O2 R2) as (r3 & E3 & R3 & O3).
  cbv zeta. rewrite E1. cbn [mbind option_bind]. rewrite tree_from_to by (apply (pi_wide s Hi) || (unfold size; lia)). cbn [mbind option_bind].
  rewrite E2. cbn [mbind option_bind]. rewrite nfs_from_to by (apply (pi_nfs s Hi) || lia). cbn [mbind option_bind].
  rewrite E3. cbn [mbind option_bind]. rewrite (proj2 (rd_finish_iff r3 O3) R3). cbn [mbind option_bind].
  rewrite (proj2 (Nat.ltb_ge _ _)) by apply (pi_window s Hi). rewrite <- (pi_sync s Hi). by destruct s.
Qed.

End delivery.

(** ** Witnesses

    A pool with one note of value five, whose holder moves three out and keeps two. *)

Section scenario.
  Context `{Crypto} {HCL : CryptoLaws} `{KemCrypto} {HKL : KemLaws} `{!SigKeygen}.

Definition w_p : Params := mk_params (replicate (N * L) 1) (replicate L 1).
Definition w_nsk : list Z := replicate 32 9.
Definition w_seed : list Z := replicate 32 4.
Definition w_note (v : Z) : Note :=
  mk_note v (derive_owner_pk w_nsk) (spend_auth_commit (snd (derive_spend_auth w_seed))) zero_randomness (replicate 32 1).
Definition w_pool : ShieldedState := snd (mint state_new (commitment w_p (w_note 5))).
Definition w_spend : SpendInput := mk_spend (w_note 5) w_nsk w_seed (default (mk_path 0 []) (state_path w_pool 0)).
Definition w_build (i : SpendInput) (outs : list Note) (pv : Z) : option (ShieldedTx * TransparentProof) :=
  build_unshield 2 w_p (state_anchor w_pool) [i] outs pv (replicate 32 8) 0.

Lemma w_p_ok : params_ok w_p.
Proof. split; (split; [apply length_replicate|apply Forall_replicate; cbn; lia]). Qed.

Lemma w_zero_short : short 1 zero_randomness.
Proof. split; [apply length_replicate|apply Forall_replicate; cbn; lia]. Qed.

Lemma state_new_empty : leaves (s_tree state_new) = [] /\ seen (s_nullifiers state_new) = ∅.
Proof.
  unfold state_new. destruct (record_anchor_spec (mk_state tree_new nfs_new ∅ []) (root (s_tree (mk_state tree_new nfs_new ∅ [])))) as (Et & En & _);
    [done|by apply NoDup_nil|cbn; lia|]. split; [rewrite Et; reflexivity|rewrite En; reflexivity].
Qed.

Lemma w_pool_spec : leaves (s_tree w_pool) = [commitment w_p (w_note 5)] /\ seen (s_nullifiers w_pool) = ∅ /\ pool_inv w_pool.
Proof.
  destruct state_new_empty as [El En].
  destruct (mint_ok state_new (commitment w_p (w_note 5)) state_new_inv (hash_labeled_length _ _)) as (Hl & Hn & Hi); [unfold size; rewrite El; cbn; lia|].
  fold w_pool in Hl, Hn, Hi. rewrite El in Hl. rewrite Hn. split; [exact Hl|]. split; [exact En|exact Hi].
Qed.

Lemma w_holds : holds w_p w_pool w_spend.
Proof.
  destruct w_pool_spec as (Hl & _ & Hi). assert (Hv : 0 <= value (w_note 5) < MAX_VALUE) by (cbn; unfold MAX_VALUE; lia).
  assert (E : leaves (s_tree w_pool) !! Z.to_nat 0 = Some (commitment w_p (w_note 5))) by (rewrite Hl; reflexivity).
  exact (proj1 (holds_intro w_p w_pool (w_note 5) w_nsk w_seed 0 Hi (Z.le_refl 0) E eq_refl eq_refl Hv w_zero_short)).
Qed.

Lemma w_path : p_index (sp_path w_spend) = 0 /\ path_ok (sp_path w_spend).
Proof.
  destruct w_pool_spec as (Hl & _ & Hi). destruct (path_verifies (s_tree w_pool) 0) as (q & Eq & Ei & _); [unfold size; rewrite Hl; cbn; lia|apply (pi_size _ Hi)|].
  destruct (path_of_tree (s_tree w_pool) 0 q (pi_wide _ Hi) ltac:(lia) Eq) as [Hp _].
  assert (E : sp_path w_spend = q) by (unfold w_spend, state_path; cbn [sp_path]; by rewrite Eq). rewrite E. split; [exact Ei|exact Hp].
Qed.

Lemma w_fresh nf : nf ∉ seen (s_nullifiers w_pool).
Proof. destruct w_pool_spec as (_ & -> & _). apply not_elem_of_empty. Qed.

Lemma w_room : size (s_tree w_pool) + 1 <= 2 ^ Z.of_nat TREE_DEPTH.
Proof. unfold size. destruct w_pool_spec as (-> & _). change (2 ^ Z.of_nat TREE_DEPTH) with 4294967296. cbn [length]. lia. Qed.

Lemma w_build_some i outs pv : draws_enough 1 [i] -> is_Some (w_build i outs pv).
Proof. intros Hd. by apply (build_signed_returns 2 1 w_p (state_anchor w_pool) [i] outs 0 pv (replicate 32 8) Hd), le_S. Qed.

(** What it returns is verified and well typed. *)
Lemma w_verified tx pr : w_build w_spend [w_note 2] 3 = Some (tx, pr) -> proof_verify pr w_p tx = true /\ amounts_ok tx pr /\
  map (fun i => value (i_note i)) (p_inputs pr) = [5] /\ typed (Spend tx pr) /\ Forall (fun i => p_index (i_path i) < 2 ^ Z.of_nat TREE_DEPTH) (p_inputs pr).
Proof.
  intros (rs & Hl & Hs & E)%build_signed_make. destruct w_pool_spec as (_ & _ & Hi). destruct w_path as (Hx & Hp).
  assert (Hsp : Forall (spendable w_p (state_anchor w_pool)) [w_spend]) by (constructor; [apply holds_spendable; [exact Hi|exact w_holds]|by apply Forall_nil]).
  assert (Hout : Forall (fun o => 0 <= o_value o < MAX_VALUE /\ short 1 (o_value_r o)) [mk_oopen 2 zero_randomness])
    by (constructor; [split; [cbn; unfold MAX_VALUE; lia|exact w_zero_short]|by apply Forall_nil]).
  pose proof (make_relation w_p (state_anchor w_pool) [w_spend] rs [commitment w_p (w_note 2)] [mk_oopen 2 zero_randomness] 0 3 (replicate 32 8)
    w_p_ok Hsp Hl Hs eq_refl Hout ltac:(vm_compute; discriminate) ltac:(unfold MAX_VALUE; lia) ltac:(unfold MAX_VALUE; lia) eq_refl) as Hv.
  pose proof (make_typed w_p (state_anchor w_pool) [w_spend] rs [commitment w_p (w_note 2)] [mk_oopen 2 zero_randomness] 0 3 (replicate 32 8)
    ltac:(constructor; [apply hash_labeled_length|by apply Forall_nil]) eq_refl ltac:(cbn; lia)) as Ht.
  destruct rs as [|r [|? ?]]; [discriminate Hl| |discriminate Hl]. change (map (commitment w_p) [w_note 2]) with [commitment w_p (w_note 2)] in E.
  change (map (fun n => mk_oopen (value n) (value_r n)) [w_note 2]) with [mk_oopen 2 zero_randomness] in E. rewrite <- E in Hv, Ht.
  unfold make in E. cbn [zip_with] in E. injection E as Et Ep. split; [exact Hv|]. rewrite Ep. cbn [p_inputs p_outputs map].
  split; [subst tx; split; [reflexivity|]; split; [discriminate|]; cbn; split; repeat constructor; discriminate|]. split; [reflexivity|].
  split; [|constructor; [change (p_index (sp_path w_spend) < 2 ^ Z.of_nat TREE_DEPTH); rewrite Hx; reflexivity|by apply Forall_nil]]. split; [exact Ht|]. constructor; [|by apply Forall_nil].
  split; [apply hash_labeled_length|]. split; [apply hash_labeled_length|]. split; [reflexivity|].
  change (is_u64 (p_index (sp_path w_spend)) /\ path_ok (sp_path w_spend)). split; [rewrite Hx; by apply in_u_0|exact Hp].
Qed.

End scenario.

Definition w_keygen : @SigKeygen toy_crypto := {| ed_generate r := (true : @EdSigningKey toy_crypto, r); ml_generate_from_rng r := (tt : @MlSigningKey toy_crypto, r) |}.

#[local] Existing Instances toy_crypto toy_laws toy_kem toy_kem_laws w_keygen.

(** One block of randomness is enough here. *)
Lemma w_draw : draws_enough 1 [w_spend].
Proof.
  split; [lia|]. constructor; [|constructor].
  change (Nat.le L (length (drawn_from (w_nsk ++ replicate 32 1 ++ le_bytes 8 0) 0 1))). by_decide.
Qed.

Lemma accepted_transfer_balances_witness : exists tx pr, w_build w_spend [w_note 2] 3 = Some (tx, pr) /\
  zsum [5] = zsum (map o_value (p_outputs pr)) + fee tx + public_value tx.
Proof.
  destruct (w_build_some w_spend [w_note 2] 3 w_draw) as [[tx pr] E]. exists tx, pr. split; [exact E|].
  destruct (w_verified tx pr E) as (Hv & Ha & Hs & _). rewrite <- Hs. exact (accepted_transfer_balances w_p tx pr w_p_ok Ha Hv).
Defined.

(** The spend and its replay, one after the other. *)
Lemma no_note_is_spent_twice_witness : exists tx pr, w_build w_spend [w_note 2] 3 = Some (tx, pr) /\
  let w := run w_p [Mint (commitment w_p (w_note 5)); Spend tx pr; Spend tx pr] in
  (NoDup (map position (snd w)) \/ broken_on (history_hashed w_p w)).
Proof.
  destruct (w_build_some w_spend [w_note 2] 3 w_draw) as [[tx pr] E]. exists tx, pr. split; [exact E|].
  destruct (w_verified tx pr E) as (_ & _ & _ & Ht & Hx).
  apply (no_note_is_spent_twice w_p [Mint (commitment w_p (w_note 5)); Spend tx pr; Spend tx pr] w_p_ok).
  - constructor; [apply hash_labeled_length|]. constructor; [exact Ht|]. constructor; [exact Ht|by apply Forall_nil].
  - cbv zeta. unfold run. cbn [fold_left]. apply step_spent; [|exact Hx]. apply step_spent; [|exact Hx]. by apply Forall_nil.
Defined.

Lemma built_transfer_is_accepted_witness : exists tx pr s', w_build w_spend [w_note 2] 3 = Some (tx, pr) /\ apply w_pool w_p tx pr = (Ok tt, s') /\
  leaves (s_tree s') = leaves (s_tree w_pool) ++ [commitment w_p (w_note 2)].
Proof.
  destruct (w_build_some w_spend [w_note 2] 3 w_draw) as [[tx pr] E]. exists tx, pr.
  destruct (built_transfer_is_accepted 2 w_p w_pool [w_spend] [w_note 2] 0 3 (replicate 32 8) tx pr w_p_ok (proj2 (proj2 w_pool_spec))) as (s' & Ha & Hl & _).
  - constructor; [exact w_holds|by apply Forall_nil].
  - constructor; [|by apply Forall_nil]. split; [cbn; unfold MAX_VALUE; lia|]. apply is_ternary_short, w_zero_short.
  - cbn [length Nat.add]. change MAX_NOTES_PER_TX with 1021. lia.
  - unfold MAX_VALUE. lia.
  - unfold MAX_VALUE. lia.
  - reflexivity.
  - apply NoDup_singleton.
  - constructor; [apply w_fresh|by apply Forall_nil].
  - exact w_room.
  - exact E.
  - exists s'. split; [exact E|]. split; [exact Ha|exact Hl].
Defined.

Lemma anyone_mints_any_note_witness : exists tx pr s', minting_tx w_p w_pool (w_note (2 ^ 50)) = (tx, pr) /\ apply w_pool w_p tx pr = (Ok tt, s') /\
  leaves (s_tree s') = leaves (s_tree w_pool) ++ [commitment w_p (w_note (2 ^ 50))].
Proof.
  pose proof (anyone_mints_any_note w_p w_pool (w_note (2 ^ 50)) w_p_ok (proj2 (proj2 w_pool_spec))) as HM. destruct (minting_tx w_p w_pool (w_note (2 ^ 50))) as [tx pr].
  destruct HM as (s' & Ha & Hl & _); [pose proof w_room; lia|]. exists tx, pr, s'. split; [reflexivity|]. split; [exact Ha|exact Hl].
Defined.

Lemma aliased_note_is_spent_again_witness :
  (exists tp tp' s1 s2, w_build w_spend [] 5 = Some tp /\ w_build (alias w_spend) [] 5 = Some tp' /\
    apply w_pool w_p (fst tp) (snd tp) = (Ok tt, s1) /\ apply s1 w_p (fst tp') (snd tp') = (Ok tt, s2)) \/
  broken_on (nullifier_hashed w_p <$> [w_spend; alias w_spend]).
Proof.
  destruct (aliased_note_is_spent_again 2 1 w_p w_pool w_spend (replicate 32 8) w_p_ok (proj2 (proj2 w_pool_spec)) w_holds)
    as [(tp & tp' & s1 & s2 & B1 & B2 & A1 & A2)|Hb].
  - reflexivity.
  - apply (proj2 w_path).
  - apply w_fresh.
  - apply w_fresh.
  - exact w_draw.
  - lia.
  - left. exists tp, tp', s1, s2. split; [exact B1|]. split; [exact B2|]. split; [exact A1|exact A2].
  - right. exact Hb.
Defined.

End Shielded.
