(* ===== verification/PoolCodec.v ===== *)
(** * The bytes of shielded submissions

    [fanos-obolos/src/codec.rs]: shielded transactions, transparent proofs and the submission that carries
    both.  The module's own reader has the accessors of the shared one ([Codec.v]) and [read_vec], which takes
    a count and that many elements.  A decoder and an encoder that fit each other exactly are a [codec]; codecs
    compose. *)
From S2P Require Import Prelude Codec Sig Kem Commit NoteTree Shielded.
Local Open Scope Z_scope.

Module PoolCodec.
Import Commit NoteTree Shielded.

(** ** Readers and writers *)

(** [(v.len() as u32).to_le_bytes()]. *)
Definition put_len {A} (l : list A) : list Z := put_u32 (w32 (Z.of_nat (length l))).

Definition read_vec {T} (f : Reader -> option (T * Reader)) (r : Reader) : option (list T * Reader) :=
  letO (count, r) := rd_u32 r in rd_loop f (Z.to_nat count) r.

Definition get_array32 (r : Reader) : option (list Z * Reader) := rd_array 32 r.

Definition put_vec {T} (f : T -> list Z) (l : list T) : list Z := put_len l ++ concat (f <$> l).

Definition get_commitment (r : Reader) : option (Commitment * Reader) :=
  letO (b, r) := rd_take r COM_WIRE_LEN in letO c := com_from_bytes b in Some (c, r).

Definition get_randomness (r : Reader) : option (Randomness * Reader) :=
  letO (b, r) := rd_take r RAND_WIRE_LEN in letO x := rand_from_bytes b in Some (x, r).

Definition put_note (n : Note) : list Z := put_u64 (value n) ++ owner n ++ auth n ++ rand_to_bytes (value_r n) ++ rho n.

Definition get_note (r : Reader) : option (Note * Reader) :=
  letO (v, r) := rd_u64 r in
  letO (ow, r) := get_array32 r in
  letO (au, r) := get_array32 r in
  letO (vr, r) := get_randomness r in
  letO (rh, r) := get_array32 r in
  Some (mk_note v ow au vr rh, r).

Definition put_auth_path (p : AuthPath) : list Z := put_u64 (p_index p) ++ concat (siblings p).

Definition get_auth_path (r : Reader) : option (AuthPath * Reader) :=
  letO (index, r) := rd_u64 r in
  letO (sibs, r) := rd_loop get_array32 TREE_DEPTH r in
  Some (mk_path index sibs, r).

(** [len ‖ bytes] with the length as [u32]. *)
Definition put_bytes (b : list Z) : list Z := put_len b ++ b.

Definition get_bytes (r : Reader) : option (list Z * Reader) := letO (len, r) := rd_u32 r in rd_take r (Z.to_nat len).

Definition put_cipher (c : option NoteCipher) : list Z :=
  match c with Some c => 1 :: put_bytes (cipher_to_bytes c) | None => [0] end.

Definition get_cipher (r : Reader) : option (option NoteCipher * Reader) :=
  letO (tag, r) := rd_u8 r in
  if tag =? 0 then Some (None, r) else
  if tag =? 1 then letO (b, r) := get_bytes r in letO c := cipher_from_bytes b in Some (Some c, r) else None.

Definition put_output (o : OutputNote) : list Z := note_commitment o ++ com_to_bytes (value_commitment o) ++ put_cipher (cipher o).

Definition get_output (r : Reader) : option (OutputNote * Reader) :=
  letO (cm, r) := get_array32 r in
  letO (vc, r) := get_commitment r in
  letO (c, r) := get_cipher r in
  Some (mk_output cm vc c, r).

Definition tx_to_bytes (tx : ShieldedTx) : list Z :=
  tx_anchor tx ++ put_vec id (tx_nullifiers tx) ++ put_vec com_to_bytes (input_values tx) ++ put_vec put_output (outputs tx) ++
  put_u64 (fee tx) ++ put_u64 (public_value tx) ++ public_recipient tx ++ put_vec put_bytes (spend_auths tx).

Definition tx_from_bytes (bytes : list Z) : option ShieldedTx :=
  let r := reader_new bytes in
  letO (anchor, r) := get_array32 r in
  letO (nfs, r) := read_vec get_array32 r in
  letO (ivs, r) := read_vec get_commitment r in
  letO (outs, r) := read_vec get_output r in
  letO (f, r) := rd_u64 r in
  letO (pv, r) := rd_u64 r in
  letO (to, r) := get_array32 r in
  letO (sas, r) := read_vec get_bytes r in
  if rd_is_empty r then Some (mk_tx anchor nfs ivs outs f pv to sas) else None.

Definition put_input (i : InputOpening) : list Z :=
  put_note (i_note i) ++ put_auth_path (i_path i) ++ i_nsk i ++ put_bytes (i_ak i) ++ rand_to_bytes (i_value_r i).

Definition get_input (r : Reader) : option (InputOpening * Reader) :=
  letO (n, r) := get_note r in
  letO (p, r) := get_auth_path r in
  letO (nsk, r) := get_array32 r in
  letO (ak, r) := get_bytes r in
  letO (vr, r) := get_randomness r in
  Some (mk_input n p nsk ak vr, r).

Definition put_oopen (o : OutputOpening) : list Z := put_u64 (o_value o) ++ rand_to_bytes (o_value_r o).

Definition get_oopen (r : Reader) : option (OutputOpening * Reader) :=
  letO (v, r) := rd_u64 r in letO (vr, r) := get_randomness r in Some (mk_oopen v vr, r).

Definition proof_to_bytes (p : TransparentProof) : list Z := put_vec put_input (p_inputs p) ++ put_vec put_oopen (p_outputs p).

Definition proof_from_bytes (bytes : list Z) : option TransparentProof :=
  let r := reader_new bytes in
  letO (ins, r) := read_vec get_input r in
  letO (outs, r) := read_vec get_oopen r in
  if rd_is_empty r then Some (mk_proof ins outs) else None.

Definition encode_submission (tx : ShieldedTx) (p : TransparentProof) : list Z := put_bytes (tx_to_bytes tx) ++ proof_to_bytes p.

Definition decode_submission (bytes : list Z) : option (ShieldedTx * TransparentProof) :=
  let r := reader_new bytes in
  letO (len, r) := rd_u32 r in
  letO (b, r) := rd_take r (Z.to_nat len) in
  letO tx := tx_from_bytes b in
  letO p := proof_from_bytes (fst (rd_rest r)) in
  Some (tx, p).

(** ** Codecs *)

(** A decoder reads back what the encoder wrote for every value of the domain, and accepts nothing else. *)
Definition codec {A} (dec : Reader -> option (A * Reader)) (enc : A -> list Z) (dom : A -> Prop) : Prop :=
  (forall a, dom a -> reads dec (enc a) a) /\ exact dec enc dom.

Lemma codec_ext {A} (d d' : Reader -> option (A * Reader)) e dom : (forall r, d r = d' r) -> codec d e dom -> codec d' e dom.
Proof.
  intros E [H1 H2]. split.
  - intros a Ha r rest Hr Er. destruct (H1 a Ha r rest Hr Er) as (r' & Ed & ?). exists r'. by rewrite <- E.
  - intros r a r' Hr Hb Ed. rewrite <- E in Ed. by apply H2.
Qed.

Definition rd_pair {A B} (d : Reader -> option (A * Reader)) (d' : Reader -> option (B * Reader)) (r : Reader) : option ((A * B) * Reader) :=
  letO (a, r) := d r in letO (b, r) := d' r in Some ((a, b), r).

Lemma codec_pair {A B} (d : Reader -> option (A * Reader)) (d' : Reader -> option (B * Reader)) e e' dom dom' :
  codec d e dom -> codec d' e' dom' -> codec (rd_pair d d') (fun p => e (fst p) ++ e' (snd p)) (fun p => dom (fst p) /\ dom' (snd p)).
Proof.
  intros [R1 X1] [R2 X2]. split.
  - intros [a b] [Ha Hb] r rest Hr Er. cbn [fst snd] in *. rewrite <- app_assoc in Er. destruct (R1 a Ha r _ Hr Er) as (r1 & E1 & Er1 & Hr1).
    destruct (R2 b Hb r1 _ Hr1 Er1) as (r2 & E2 & Er2 & Hr2). exists r2. unfold rd_pair. rewrite E1. cbn [mbind option_bind]. by rewrite E2.
  - intros r [a b] r' Hr Hby E. unfold rd_pair in E. destruct (d r) as [[a1 r1]|] eqn:E1; [|done]. cbn [mbind option_bind] in E.
    destruct (d' r1) as [[b1 r2]|] eqn:E2; [|done]. injection E as <- <- <-. destruct (X1 r a1 r1 Hr Hby E1) as (Ha & Er & Hr1).
    rewrite Er in Hby. apply is_bytes_app in Hby as [_ Hby]. destruct (X2 r1 b1 r2 Hr1 Hby E2) as (Hb & Er1 & Hr2). cbn [fst snd].
    split; [done|]. by rewrite Er, Er1, app_assoc.
Qed.

Lemma codec_map {A B} (d : Reader -> option (A * Reader)) e dom (f : A -> B) (g : B -> A) : (forall a, g (f a) = a) -> (forall b, f (g b) = b) ->
  codec d e dom -> codec (fun r => letO (a, r) := d r in Some (f a, r)) (fun b => e (g b)) (fun b => dom (g b)).
Proof.
  intros Hgf Hfg [R X]. split.
  - intros b Hb r rest Hr Er. destruct (R (g b) Hb r rest Hr Er) as (r' & E & ?). exists r'. rewrite E. cbn [mbind option_bind]. by rewrite Hfg.
  - intros r b r' Hr Hby E. destruct (d r) as [[a r1]|] eqn:E1; [|done]. injection E as <- <-. rewrite Hgf. by apply X.
Qed.

(** A fixed field parsed from its bytes. *)
Lemma codec_fixed {A} n (parse : list Z -> option A) (e : A -> list Z) (dom : A -> Prop) :
  (forall a, dom a -> parse (e a) = Some a /\ length (e a) = n) -> (forall b a, is_bytes b -> parse b = Some a -> e a = b /\ dom a) ->
  codec (fun r => letO (b, r) := rd_take r n in letO a := parse b in Some (a, r)) e dom.
Proof.
  intros Hp He. split.
  - intros a Ha r rest Hr Er. destruct (Hp a Ha) as [Hpa Hl]. destruct (rd_take_reads n (e a) Hl r rest Hr Er) as (r' & E & ?). exists r'. rewrite E. cbn [mbind option_bind].
    by rewrite Hpa.
  - intros r a r' Hr Hby E. destruct (rd_take r n) as [[b r1]|] eqn:E1; [|done]. cbn [mbind option_bind] in E. destruct (parse b) as [x|] eqn:Ep; [|done]. injection E as <- <-.
    destruct (rd_take_exact r n b r1 Hr E1) as (Hl & Er & Hr1). rewrite Er in Hby. apply is_bytes_app in Hby as [Hby _]. destruct (He b x Hby Ep) as [<- Hd]. done.
Qed.

Lemma codec_u64 : codec rd_u64 put_u64 is_u64.
Proof. split; [intros v; apply rd_u64_reads|apply rd_u64_exact]. Qed.

Definition bytes_n (n : nat) (b : list Z) : Prop := is_bytes b /\ length b = n.

Lemma codec_array32 : codec get_array32 id (bytes_n 32).
Proof.
  split.
  - intros b [_ Hl]. by apply rd_take_reads.
  - intros r b r' Hr Hby E. destruct (rd_take_exact r 32 b r' Hr E) as (Hl & Er & Hr'). rewrite Er in Hby. by apply is_bytes_app in Hby as [Hby _].
Qed.

Lemma codec_loop {T} (f : Reader -> option (T * Reader)) e dom n : codec f e dom ->
  codec (rd_loop f n) (fun l => concat (e <$> l)) (fun l => length l = n /\ Forall dom l).
Proof.
  intros [R X]. split.
  - intros l [<- Hd]. apply rd_loop_reads. eapply Forall_impl; [exact Hd|]. exact R.
  - induction n as [|n IH]; intros r l r' Hr Hby E; cbn [rd_loop] in E; [by injection E as <- <-|].
    destruct (f r) as [[x r1]|] eqn:E1; [|done]. cbn [mbind option_bind] in E. destruct (rd_loop f n r1) as [[xs r2]|] eqn:E2; [|done]. injection E as <- <-.
    destruct (X r x r1 Hr Hby E1) as (Hx & Er & Hr1). rewrite Er in Hby. apply is_bytes_app in Hby as [_ Hby]. destruct (IH r1 xs r2 Hr1 Hby E2) as ((Hl & Hxs) & Er1 & Hr2).
    split; [split; [cbn [length]; by rewrite Hl|by constructor]|]. split; [|done]. csimpl. by rewrite Er, Er1, app_assoc.
Qed.

Definition counted {T} (l : list T) : Prop := Z.of_nat (length l) < 2 ^ 32.

Lemma put_len_small {A} (l : list A) : counted l -> put_len l = put_u32 (Z.of_nat (length l)).
Proof. intros Hl. unfold put_len. by rewrite wrap_small by (unfold counted, in_u in *; lia). Qed.

Lemma codec_vec {T} (f : Reader -> option (T * Reader)) e dom : codec f e dom -> codec (read_vec f) (put_vec e) (fun l => counted l /\ Forall dom l).
Proof.
  intros Hc. split.
  - intros l [Hl Hd] r rest Hr Er. unfold put_vec in Er. rewrite put_len_small, <- app_assoc in Er by done.
    destruct (rd_u32_reads (Z.of_nat (length l)) ltac:(unfold counted, in_u in *; lia) r _ Hr Er) as (r1 & E1 & Er1 & Hr1).
    destruct (proj1 (codec_loop f e dom (length l) Hc) l (conj eq_refl Hd) r1 rest Hr1 Er1) as (r2 & E2 & ?). exists r2. unfold read_vec. rewrite E1. cbn [mbind option_bind].
    by rewrite Nat2Z.id, E2.
  - intros r l r' Hr Hby E. unfold read_vec in E. destruct (rd_u32 r) as [[n r1]|] eqn:E1; [|done]. cbn [mbind option_bind] in E.
    destruct (rd_u32_exact r n r1 Hr Hby E1) as (Hn & Er & Hr1). rewrite Er in Hby. apply is_bytes_app in Hby as [_ Hby].
    destruct (proj2 (codec_loop f e dom (Z.to_nat n) Hc) r1 l r' Hr1 Hby E) as ((Hl & Hd) & Er1 & Hr'). unfold in_u in Hn.
    assert (Hlen : Z.of_nat (length l) = n) by lia. split; [split; [unfold counted; lia|done]|]. split; [|done]. unfold put_vec. rewrite put_len_small by (unfold counted; lia).
    by rewrite Hlen, Er, Er1, app_assoc.
Qed.

Lemma codec_bytes : codec get_bytes put_bytes (fun b => counted b /\ is_bytes b).
Proof.
  split.
  - intros b [Hl Hb] r rest Hr Er. unfold put_bytes in Er. rewrite put_len_small, <- app_assoc in Er by done.
    destruct (rd_u32_reads (Z.of_nat (length b)) ltac:(unfold counted, in_u in *; lia) r _ Hr Er) as (r1 & E1 & Er1 & Hr1).
    destruct (rd_take_reads (length b) b eq_refl r1 rest Hr1 Er1) as (r2 & E2 & ?). exists r2. unfold get_bytes. rewrite E1. cbn [mbind option_bind]. by rewrite Nat2Z.id.
  - intros r b r' Hr Hby E. unfold get_bytes in E. destruct (rd_u32 r) as [[n r1]|] eqn:E1; [|done]. cbn [mbind option_bind] in E.
    destruct (rd_u32_exact r n r1 Hr Hby E1) as (Hn & Er & Hr1). rewrite Er in Hby. apply is_bytes_app in Hby as [_ Hby].
    destruct (rd_take_exact r1 _ b r' Hr1 E) as (Hl & Er1 & Hr'). unfold in_u in Hn. rewrite Er1 in Hby. apply is_bytes_app in Hby as [Hby _].
    split; [split; [unfold counted; lia|done]|]. split; [|done]. unfold put_bytes. rewrite put_len_small by (unfold counted; lia). rewrite Er, Er1, app_assoc. do 3 f_equal. lia.
Qed.

Lemma codec_commitment : codec get_commitment com_to_bytes com_ok.
Proof. apply codec_fixed; [|exact com_to_from]. intros c Hc. split; [by apply com_from_to|by apply length_com_bytes, Hc]. Qed.

Lemma codec_randomness : codec get_randomness rand_to_bytes (fun r => is_ternary r = true).
Proof. apply codec_fixed; [|exact rand_to_from]. intros r Hr. split; [by apply rand_from_to|]. apply length_rand_bytes. by apply is_ternary_short. Qed.

(** ** The objects of a submission *)

Definition note_dom (n : Note) : Prop := is_u64 (value n) /\ bytes_n 32 (owner n) /\ bytes_n 32 (auth n) /\ is_ternary (value_r n) = true /\ bytes_n 32 (rho n).

(** Compose the fields, then change to the record. *)
Ltac by_fields d c f g :=
  eapply codec_ext; [|exact (codec_map _ _ _ f g ltac:(intros; repeat match goal with p : (_ * _)%type |- _ => destruct p end; reflexivity) ltac:(intros []; reflexivity) c)];
  intros r; cbn beta; unfold rd_pair, d;
  repeat match goal with |- context [match ?x with Some _ => _ | None => _ end] =>
    lazymatch x with context [match _ with Some _ => _ | None => _ end] => fail | _ => destruct x as [[? ?]|] end end; reflexivity.

Lemma codec_note : codec get_note put_note note_dom.
Proof.
  by_fields get_note (codec_pair _ _ _ _ _ _ codec_u64 (codec_pair _ _ _ _ _ _ codec_array32 (codec_pair _ _ _ _ _ _ codec_array32 (codec_pair _ _ _ _ _ _ codec_randomness codec_array32))))
    (fun x : Z * (list Z * (list Z * (Randomness * list Z))) => let '(v, (o, (a, (r, h)))) := x in mk_note v o a r h)
    (fun n => (value n, (owner n, (auth n, (value_r n, rho n))))).
Qed.

Definition path_dom (p : AuthPath) : Prop := is_u64 (p_index p) /\ length (siblings p) = TREE_DEPTH /\ Forall (bytes_n 32) (siblings p).

Lemma codec_path : codec get_auth_path put_auth_path path_dom.
Proof.
  assert (Hs : codec (rd_loop get_array32 TREE_DEPTH) (fun l => concat l) (fun l => length l = TREE_DEPTH /\ Forall (bytes_n 32) l)).
  { destruct (codec_loop get_array32 id (bytes_n 32) TREE_DEPTH codec_array32) as [R X]. split.
    - intros l Hl. specialize (R l Hl). by rewrite list_fmap_id in R.
    - intros r l r' Hr Hb E. destruct (X r l r' Hr Hb E) as (Hd & Er & Hr'). by rewrite list_fmap_id in Er. }
  by_fields get_auth_path (codec_pair _ _ _ _ _ _ codec_u64 Hs) (fun x : Z * list (list Z) => mk_path (fst x) (snd x)) (fun p => (p_index p, siblings p)).
Qed.

Definition cipher_dom (c : option NoteCipher) : Prop :=
  match c with
  | Some c => counted (cipher_to_bytes c) /\ is_bytes (cipher_to_bytes c) /\ length (kem_ct c) = CIPHERTEXT_LEN
  | None => True
  end.

Lemma cipher_from_to c : length (kem_ct c) = CIPHERTEXT_LEN -> cipher_from_bytes (cipher_to_bytes c) = Some c.
Proof. intros Hl. unfold cipher_from_bytes, cipher_to_bytes. rewrite slice_prefix, slice_from_app by done. by destruct c. Qed.

Lemma cipher_to_from b c : cipher_from_bytes b = Some c -> cipher_to_bytes c = b /\ length (kem_ct c) = CIPHERTEXT_LEN.
Proof.
  unfold cipher_from_bytes. destruct (slice 0 CIPHERTEXT_LEN b) as [k|] eqn:E1; [|done]. destruct (slice_from CIPHERTEXT_LEN b) as [a|] eqn:E2; [|done]. intros [= <-].
  apply slice_inv in E1 as ([_ Hl] & -> & _). apply slice_from_inv in E2 as [_ ->]. unfold cipher_to_bytes. cbn [kem_ct aead_ct].
  rewrite Nat.sub_0_r, drop_0 in *. split; [apply take_drop|rewrite length_take; lia].
Qed.

Lemma codec_cipher : codec get_cipher put_cipher cipher_dom.
Proof.
  split.
  - intros [c|] Hd r rest Hr Er; cbn [put_cipher cipher_dom] in *.
    + destruct Hd as (Hc & Hb & Hl). destruct (rd_u8_reads 1 r _ Hr Er) as (r1 & E1 & Er1 & Hr1).
      destruct (proj1 codec_bytes _ (conj Hc Hb) r1 rest Hr1 Er1) as (r2 & E2 & ?). exists r2. unfold get_cipher. rewrite E1. cbn [Z.eqb Pos.eqb]. by rewrite E2, cipher_from_to.
    + destruct (rd_u8_reads 0 r _ Hr Er) as (r1 & E1 & Er1 & Hr1). exists r1. unfold get_cipher. by rewrite E1.
  - intros r c r' Hr Hby E. unfold get_cipher in E. destruct (rd_u8 r) as [[tag r1]|] eqn:E1; [|done]. destruct (rd_u8_exact r tag r1 Hr Hby E1) as (_ & Er & Hr1).
    destruct (Z.eqb_spec tag 0) as [->|]; [injection E as <- <-; done|]. destruct (Z.eqb_spec tag 1) as [->|]; [|done].
    destruct (get_bytes r1) as [[b r2]|] eqn:E2; [|done]. destruct (cipher_from_bytes b) as [x|] eqn:E3; [|done]. injection E as <- <-.
    rewrite Er in Hby. apply is_bytes_app in Hby as [_ Hby]. destruct (proj2 codec_bytes r1 b r2 Hr1 Hby E2) as ((Hc & Hb) & Er1 & Hr2).
    destruct (cipher_to_from b x E3) as [Eb Hl]. cbn [cipher_dom put_cipher]. rewrite Eb. split; [done|]. split; [|done]. by rewrite Er, Er1.
Qed.

Definition output_dom (o : OutputNote) : Prop := bytes_n 32 (note_commitment o) /\ com_ok (value_commitment o) /\ cipher_dom (cipher o).

Lemma codec_output : codec get_output put_output output_dom.
Proof.
  by_fields get_output (codec_pair _ _ _ _ _ _ codec_array32 (codec_pair _ _ _ _ _ _ codec_commitment codec_cipher))
    (fun x : list Z * (Commitment * option NoteCipher) => let '(a, (b, c)) := x in mk_output a b c) (fun o => (note_commitment o, (value_commitment o, cipher o))).
Qed.

Definition input_dom (i : InputOpening) : Prop :=
  note_dom (i_note i) /\ path_dom (i_path i) /\ bytes_n 32 (i_nsk i) /\ (counted (i_ak i) /\ is_bytes (i_ak i)) /\ is_ternary (i_value_r i) = true.

Lemma codec_input : codec get_input put_input input_dom.
Proof.
  by_fields get_input (codec_pair _ _ _ _ _ _ codec_note (codec_pair _ _ _ _ _ _ codec_path (codec_pair _ _ _ _ _ _ codec_array32 (codec_pair _ _ _ _ _ _ codec_bytes codec_randomness))))
    (fun x : Note * (AuthPath * (list Z * (list Z * Randomness))) => let '(a, (b, (c, (d, e)))) := x in mk_input a b c d e)
    (fun i => (i_note i, (i_path i, (i_nsk i, (i_ak i, i_value_r i))))).
Qed.

Definition oopen_dom (o : OutputOpening) : Prop := is_u64 (o_value o) /\ is_ternary (o_value_r o) = true.

Lemma codec_oopen : codec get_oopen put_oopen oopen_dom.
Proof. by_fields get_oopen (codec_pair _ _ _ _ _ _ codec_u64 codec_randomness) (fun x : Z * Randomness => mk_oopen (fst x) (snd x)) (fun o => (o_value o, o_value_r o)). Qed.

Definition tx_dom (tx : ShieldedTx) : Prop :=
  bytes_n 32 (tx_anchor tx) /\ (counted (tx_nullifiers tx) /\ Forall (bytes_n 32) (tx_nullifiers tx)) /\ (counted (input_values tx) /\ Forall com_ok (input_values tx)) /\
  (counted (outputs tx) /\ Forall output_dom (outputs tx)) /\ is_u64 (fee tx) /\ is_u64 (public_value tx) /\ bytes_n 32 (public_recipient tx) /\
  (counted (spend_auths tx) /\ Forall (fun b => counted b /\ is_bytes b) (spend_auths tx)).

Definition proof_dom (p : TransparentProof) : Prop :=
  (counted (p_inputs p) /\ Forall input_dom (p_inputs p)) /\ (counted (p_outputs p) /\ Forall oopen_dom (p_outputs p)).

(** A parse that must use all its bytes. *)
Definition parse_all {A} (d : Reader -> option (A * Reader)) (bytes : list Z) : option A :=
  letO (a, r) := d (reader_new bytes) in if rd_is_empty r then Some a else None.

Lemma is_empty_iff r : rd_ok r -> rd_is_empty r = true <-> rest_of r = [].
Proof. intros Hr. rewrite <- rd_finish_iff by done. unfold rd_finish. by destruct (rd_is_empty r). Qed.

Lemma codec_parse {A} (d : Reader -> option (A * Reader)) e dom b a : codec d e dom -> is_bytes b -> parse_all d b = Some a <-> dom a /\ b = e a.
Proof.
  intros [R X] Hb. destruct (rd_new_ok b) as [Ho Er]. unfold parse_all. split.
  - destruct (d (reader_new b)) as [[x r]|] eqn:E; [|done]. destruct (rd_is_empty r) eqn:Ee; [|done]. intros [= <-].
    destruct (X _ x r Ho ltac:(by rewrite Er) E) as (Hd & Eb & Hr). apply is_empty_iff in Ee; [|done]. by rewrite Er, Ee, app_nil_r in Eb.
  - intros [Hd ->]. rewrite <- app_nil_r in Er. destruct (R a Hd _ _ Ho Er) as (r & -> & Er' & Hr). by rewrite (proj2 (is_empty_iff r Hr) Er').
Qed.

Definition get_tx (r : Reader) : option (ShieldedTx * Reader) :=
  letO (anchor, r) := get_array32 r in
  letO (nfs, r) := read_vec get_array32 r in
  letO (ivs, r) := read_vec get_commitment r in
  letO (outs, r) := read_vec get_output r in
  letO (f, r) := rd_u64 r in
  letO (pv, r) := rd_u64 r in
  letO (to, r) := get_array32 r in
  letO (sas, r) := read_vec get_bytes r in
  Some (mk_tx anchor nfs ivs outs f pv to sas, r).

Lemma codec_tx : codec get_tx tx_to_bytes tx_dom.
Proof.
  by_fields get_tx (codec_pair _ _ _ _ _ _ codec_array32 (codec_pair _ _ _ _ _ _ (codec_vec _ _ _ codec_array32) (codec_pair _ _ _ _ _ _ (codec_vec _ _ _ codec_commitment)
    (codec_pair _ _ _ _ _ _ (codec_vec _ _ _ codec_output) (codec_pair _ _ _ _ _ _ codec_u64 (codec_pair _ _ _ _ _ _ codec_u64 (codec_pair _ _ _ _ _ _ codec_array32 (codec_vec _ _ _ codec_bytes))))))))
    (fun x : list Z * (list (list Z) * (list Commitment * (list OutputNote * (Z * (Z * (list Z * list (list Z))))))) =>
       let '(a, (b, (c, (d, (e, (f, (g, h))))))) := x in mk_tx a b c d e f g h)
    (fun t => (tx_anchor t, (tx_nullifiers t, (input_values t, (outputs t, (fee t, (public_value t, (public_recipient t, spend_auths t)))))))).
Qed.

Lemma tx_parse b tx : is_bytes b -> tx_from_bytes b = Some tx <-> tx_dom tx /\ b = tx_to_bytes tx.
Proof.
  intros Hb. rewrite <- (codec_parse get_tx tx_to_bytes tx_dom b tx codec_tx Hb). unfold tx_from_bytes, parse_all, get_tx. cbv zeta.
  repeat match goal with |- context [match ?x with Some _ => _ | None => _ end] =>
    lazymatch x with context [match _ with Some _ => _ | None => _ end] => fail | _ => destruct x as [[? ?]|] end end; done.
Qed.

Definition get_proof (r : Reader) : option (TransparentProof * Reader) :=
  letO (ins, r) := read_vec get_input r in letO (outs, r) := read_vec get_oopen r in Some (mk_proof ins outs, r).

Lemma codec_proof : codec get_proof proof_to_bytes proof_dom.
Proof.
  by_fields get_proof (codec_pair _ _ _ _ _ _ (codec_vec _ _ _ codec_input) (codec_vec _ _ _ codec_oopen))
    (fun x : list InputOpening * list OutputOpening => mk_proof (fst x) (snd x)) (fun p => (p_inputs p, p_outputs p)).
Qed.

Lemma proof_parse b p : is_bytes b -> proof_from_bytes b = Some p <-> proof_dom p /\ b = proof_to_bytes p.
Proof.
  intros Hb. rewrite <- (codec_parse get_proof proof_to_bytes proof_dom b p codec_proof Hb). unfold proof_from_bytes, parse_all, get_proof. cbv zeta.
  repeat match goal with |- context [match ?x with Some _ => _ | None => _ end] =>
    lazymatch x with context [match _ with Some _ => _ | None => _ end] => fail | _ => destruct x as [[? ?]|] end end; done.
Qed.

Definition submission_ok (tx : ShieldedTx) (p : TransparentProof) : Prop := tx_dom tx /\ proof_dom p /\ counted (tx_to_bytes tx).

(** A submission has one encoding.  A byte string decodes to a transaction and its proof exactly when they are well formed
    and it is their encoding: what was encoded decodes, and no other byte string does. *)
Theorem submission_is_canonical (b : list Z) (tx : ShieldedTx) (p : TransparentProof) : is_bytes b ->
  decode_submission b = Some (tx, p) <-> submission_ok tx p /\ b = encode_submission tx p.
Proof.
  intros Hb. destruct (rd_new_ok b) as [Ho Er]. unfold decode_submission, encode_submission, submission_ok. split.
  - cbv zeta. destruct (rd_u32 (reader_new b)) as [[n r]|] eqn:E1; [|done]. destruct (rd_take r (Z.to_nat n)) as [[t r2]|] eqn:E2; [|done].
    assert (Eg : get_bytes (reader_new b) = Some (t, r2)) by (unfold get_bytes; by rewrite E1).
    destruct (proj2 codec_bytes _ t r2 Ho ltac:(by rewrite Er) Eg) as ((Hc & Ht) & Eb & Hr2). rewrite Er in Eb.
    destruct (tx_from_bytes t) as [tx'|] eqn:E3; [|done]. destruct (proof_from_bytes (fst (rd_rest r2))) as [p'|] eqn:E4; [|done]. intros [= <- <-].
    apply tx_parse in E3 as [Hd ->]; [|done]. cbn [rd_rest fst] in E4. change (drop (rd_off r2) (rd_bytes r2)) with (rest_of r2) in E4.
    apply proof_parse in E4 as [Hp Ep]; [|rewrite Eb in Hb; by apply is_bytes_app in Hb as [_ Hb]]. rewrite Ep in Eb. done.
  - intros [(Hd & Hp & Hc) Eb]. rewrite Eb in Hb. pose proof Hb as [Hb1 Hb2]%is_bytes_app. apply is_bytes_app in Hb1 as [_ Hb1]. rewrite Eb in Er, Ho.
    destruct (proj1 codec_bytes (tx_to_bytes tx) (conj Hc Hb1) _ _ Ho Er) as (r2 & Eg & Er2 & Hr2). rewrite Eb. cbv zeta.
    unfold get_bytes in Eg. destruct (rd_u32 _) as [[n r]|]; [|done]. rewrite Eg. rewrite (proj2 (tx_parse _ tx Hb1) (conj Hd eq_refl)). cbn [rd_rest fst].
    change (drop (rd_off r2) (rd_bytes r2)) with (rest_of r2). rewrite Er2, (proj2 (proof_parse _ p Hb2) (conj Hp eq_refl)). done.
Qed.

Definition w_tx : ShieldedTx := mk_tx (replicate 32 1) [replicate 32 2] [] [] 7 300 (replicate 32 3) [[1; 2; 3]; []].

Lemma w_bytes : is_bytes (encode_submission w_tx (mk_proof [] [])).
Proof. by_decide. Qed.

Lemma w_submission_decodes : decode_submission (encode_submission w_tx (mk_proof [] [])) = Some (w_tx, mk_proof [] []).
Proof. vm_compute. reflexivity. Qed.

Lemma submission_is_canonical_witness : submission_ok w_tx (mk_proof [] []).
Proof. exact (proj1 (proj1 (submission_is_canonical _ w_tx (mk_proof [] []) w_bytes) w_submission_decodes)). Defined.

End PoolCodec.
