(* ===== verification/Wallet.v ===== *)
(** * Wallets: the key hierarchy of the shielded pool

    [fanos-obolos/src/wallet.rs]: the spending key, the full and the incoming viewing keys it delegates, their
    addresses, scans and bytes. *)
From S2P Require Import Prelude Codec Sig Block Kem Commit NoteTree Shielded.
Local Open Scope Z_scope.

Module Wallet.
Import Commit NoteTree Shielded.

Definition NSK_LABEL : string := "FANOS-obolos-v1/wallet-nsk".
Definition ASK_LABEL : string := "FANOS-obolos-v1/wallet-ask".
Definition KEM_LABEL : string := "FANOS-obolos-v1/wallet-kem".
Definition VIEWING_KEY_LEN : nat := 96.

Record SpendingKey := mk_spending { seed : list Z }.
Record FullViewingKey := mk_full { f_kem_seed : list Z; f_nsk : list Z; f_auth : list Z }.
Record IncomingViewingKey := mk_incoming { v_kem_seed : list Z; v_owner : list Z; v_auth : list Z }.

Definition split_96 (bytes : list Z) : option (list Z * list Z * list Z) :=
  if negb (length bytes =? VIEWING_KEY_LEN)%nat then None else
  letO a := slice 0 32 bytes in letO b := slice 32 64 bytes in letO c := slice_from 64 bytes in Some (a, b, c).

Section keys.
  Context `{Crypto} `{KemCrypto} `{!SigKeygen}.

Definition kem_keypair (kem_seed : list Z) : Kem.HybridKemSecret * Kem.HybridKemPublic := fst (Kem.generate (Kem.from_seed kem_seed)).

(** ** The spending key *)

Definition sk_generate (rng : SeedRng) : SpendingKey * SeedRng := let '(s, rng) := Kem.fill rng 32 in (mk_spending s, rng).

Definition nsk (w : SpendingKey) : list Z := hash_labeled NSK_LABEL (seed w).
Definition ask_seed (w : SpendingKey) : list Z := hash_labeled ASK_LABEL (seed w).
Definition spend_auth (w : SpendingKey) : HybridSigSecret * HybridVerifier := derive_spend_auth (ask_seed w).
Definition sk_kem_keypair (w : SpendingKey) : Kem.HybridKemSecret * Kem.HybridKemPublic := kem_keypair (hash_labeled KEM_LABEL (seed w)).

Definition sk_address (w : SpendingKey) : Address :=
  let ak := snd (spend_auth w) in mk_address (derive_owner_pk (nsk w)) (spend_auth_commit ak) (snd (sk_kem_keypair w)).

Definition full_viewing_key (w : SpendingKey) : FullViewingKey :=
  let ak := snd (spend_auth w) in mk_full (hash_labeled KEM_LABEL (seed w)) (nsk w) (spend_auth_commit ak).

Definition sk_to_bytes (w : SpendingKey) : list Z := seed w.

(** ** Viewing keys *)

Definition f_owner (k : FullViewingKey) : list Z := derive_owner_pk (f_nsk k).
Definition f_address (k : FullViewingKey) : Address := mk_address (f_owner k) (f_auth k) (snd (kem_keypair (f_kem_seed k))).
Definition f_open (k : FullViewingKey) (c : NoteCipher) : option Note := cipher_open c (fst (kem_keypair (f_kem_seed k))) (f_owner k) (f_auth k).
Definition to_incoming (k : FullViewingKey) : IncomingViewingKey := mk_incoming (f_kem_seed k) (f_owner k) (f_auth k).
Definition f_to_bytes (k : FullViewingKey) : list Z := f_kem_seed k ++ f_nsk k ++ f_auth k.
Definition f_from_bytes (bytes : list Z) : option FullViewingKey := letO (a, b, c) := split_96 bytes in Some (mk_full a b c).

Definition incoming_viewing_key (w : SpendingKey) : IncomingViewingKey := to_incoming (full_viewing_key w).

Definition v_address (k : IncomingViewingKey) : Address := mk_address (v_owner k) (v_auth k) (snd (kem_keypair (v_kem_seed k))).
Definition v_open (k : IncomingViewingKey) (c : NoteCipher) : option Note := cipher_open c (fst (kem_keypair (v_kem_seed k))) (v_owner k) (v_auth k).
Definition v_to_bytes (k : IncomingViewingKey) : list Z := v_kem_seed k ++ v_owner k ++ v_auth k.
Definition v_from_bytes (bytes : list Z) : option IncomingViewingKey := letO (a, b, c) := split_96 bytes in Some (mk_incoming a b c).

End keys.

(** ** Bytes *)

Lemma split_iff bytes a b c : split_96 bytes = Some (a, b, c) <-> bytes = a ++ b ++ c /\ length a = 32%nat /\ length b = 32%nat /\ length c = 32%nat.
Proof.
  unfold split_96. split.
  - destruct (Nat.eqb_spec (length bytes) VIEWING_KEY_LEN) as [El|]; cbn [negb]; [|done]. unfold VIEWING_KEY_LEN in El.
    rewrite !slice_Some, slice_from_Some by lia. cbn [mbind option_bind]. intros [= <- <- <-]. rewrite !length_take, !length_drop. split; [|lia].
    rewrite drop_0. change (64 - 32)%nat with 32%nat. change (32 - 0)%nat with 32%nat. change 64%nat with (32 + 32)%nat. rewrite <- drop_drop. by rewrite !take_drop.
  - intros (-> & Ha & Hb & Hc). rewrite !length_app, Ha, Hb, Hc. cbn [Nat.add VIEWING_KEY_LEN Nat.eqb negb].
    rewrite slice_prefix by done. cbn [mbind option_bind]. rewrite slice_mid by (rewrite ?Ha, ?Hb; done). cbn [mbind option_bind].
    rewrite app_assoc, slice_from_app by (rewrite length_app, Ha, Hb; done). done.
Qed.

Lemma f_bytes_canonical k bytes : f_from_bytes bytes = Some k <->
  bytes = f_to_bytes k /\ length (f_kem_seed k) = 32%nat /\ length (f_nsk k) = 32%nat /\ length (f_auth k) = 32%nat.
Proof.
  unfold f_from_bytes. destruct k as [a b c]. unfold f_to_bytes. cbn [f_kem_seed f_nsk f_auth]. rewrite <- split_iff.
  destruct (split_96 bytes) as [[[x y] z]|]; cbn [mbind option_bind]; split; by intros [=]; subst.
Qed.

Lemma v_bytes_canonical k bytes : v_from_bytes bytes = Some k <->
  bytes = v_to_bytes k /\ length (v_kem_seed k) = 32%nat /\ length (v_owner k) = 32%nat /\ length (v_auth k) = 32%nat.
Proof.
  unfold v_from_bytes. destruct k as [a b c]. unfold v_to_bytes. cbn [v_kem_seed v_owner v_auth]. rewrite <- split_iff.
  destruct (split_96 bytes) as [[[x y] z]|]; cbn [mbind option_bind]; split; by intros [=]; subst.
Qed.

(** ** Being paid *)

Section paid.
  Context `{Crypto} {HCL : CryptoLaws} `{KemCrypto} {HKL : KemLaws} `{!SigKeygen}.

(** Every key of the hierarchy sees one address. *)
Lemma addresses_agree w : f_address (full_viewing_key w) = sk_address w /\ v_address (incoming_viewing_key w) = sk_address w.
Proof. done. Qed.








(** ** A wallet that is paid *)







End paid.

#[local] Existing Instances toy_crypto toy_laws toy_kem toy_kem_laws w_keygen.




End Wallet.
