(* ===== verification/Keyper.v ===== *)
(** * The registry of decryption keys

    [fanos-taxis/src/keyper.rs]: every validator certifies, under its consensus key, the key that
    transactions are sealed to; the registry of these certificates, its succession rule, its
    commitment, and the client's sealing. *)
From S2P Require Import Prelude Codec Sig Params Vote Shamir Kem Threshold Tx Block.
Local Open Scope Z_scope.

Module Keyper.

Definition KEY_CERT_LABEL : string := "FANOS-v1/taxis-keyper-key".
Definition COMMIT_LABEL : string := "FANOS-v1/taxis-keyper-commit".
Definition CERT_LEN : nat := 8 + PUBLIC_LEN + HYBRID_SIG_LEN.
Definition GENESIS_GENERATION : Z := 0.

Section keyper.
  Context `{Crypto} `{KemCrypto}.

Record KeyperKeyCert := mk_key_cert { generation : Z; kem_public : Kem.HybridKemPublic; kc_sig : list Z }.

Record KeyperRegistry := mk_registry { certs : list KeyperKeyCert }.

(** ** Certificates *)

Definition signable (generation idx : Z) (kem_public : Kem.HybridKemPublic) : list Z :=
  ascii_bytes KEY_CERT_LABEL ++ be_bytes 8 generation ++ [idx] ++ Kem.encode kem_public.

Definition register (generation idx : Z) (kem_public : Kem.HybridKemPublic) (signer : HybridSigSecret) : KeyperKeyCert :=
  mk_key_cert generation kem_public (sig_to_bytes (hybrid_sign signer (signable generation idx kem_public))).

Definition cert_verify (c : KeyperKeyCert) (idx : Z) (verifier : HybridVerifier) : bool :=
  match sig_from_bytes (kc_sig c) with
  | None => false
  | Some s => hybrid_verify verifier (signable (generation c) idx (kem_public c)) s
  end.

Definition cert_to_bytes (c : KeyperKeyCert) : list Z :=
  be_bytes 8 (generation c) ++ Kem.encode (kem_public c) ++ kc_sig c.

Definition cert_from_bytes (bytes : list Z) : option KeyperKeyCert :=
  if negb (length bytes =? CERT_LEN)%nat then None else
  letO g := slice 0 8 bytes in
  letO k := slice 8 (8 + PUBLIC_LEN) bytes in
  letO kem_public := Kem.decode k in
  letO s := slice_from (8 + PUBLIC_LEN) bytes in
  Some (mk_key_cert (from_be g) kem_public s).

(** ** The registry *)

(** [u32::try_from(len).unwrap_or(u32::MAX)]. *)
Definition count_bytes (r : KeyperRegistry) : list Z := be_bytes 4 (Z.min (Z.of_nat (length (certs r))) (2 ^ 32 - 1)).

Definition to_bytes (r : KeyperRegistry) : list Z := count_bytes r ++ concat (cert_to_bytes <$> certs r).

(** The loop of [from_bytes]: the certificates and the offset after them. *)
Fixpoint read_certs (n off : nat) (bytes : list Z) : option (list KeyperKeyCert * nat) :=
  match n with
  | O => Some ([], off)
  | S n =>
      let end_ := (off + CERT_LEN)%nat in
      letO chunk := slice off end_ bytes in
      letO c := cert_from_bytes chunk in
      letO rest := read_certs n end_ bytes in
      Some (c :: fst rest, snd rest)
  end.

Definition from_bytes (bytes : list Z) : option KeyperRegistry :=
  letO count := slice 0 4 bytes in
  letO rest := read_certs (Z.to_nat (from_be count)) 4 bytes in
  if negb (snd rest =? length bytes)%nat then None else Some (mk_registry (fst rest)).

Definition key (r : KeyperRegistry) (i : nat) : option Kem.HybridKemPublic := kem_public <$> certs r !! i.

(** [u8::try_from(i).unwrap_or(u8::MAX)]. *)
Definition seat_byte (i : nat) : Z := Z.min (Z.of_nat i) 255.

Definition verify (r : KeyperRegistry) (verifiers : list HybridVerifier) : bool :=
  (length (certs r) =? length verifiers)%nat &&
  forallb (fun '(i, (c, v)) => cert_verify c (seat_byte i) v)
    (zip (seq 0 (length (zip (certs r) verifiers))) (zip (certs r) verifiers)).

Definition descends_from (r founding : KeyperRegistry) (verifiers : list HybridVerifier) : bool :=
  (length (certs r) =? length (certs founding))%nat && verify r verifiers &&
  forallb (fun '(now, was) => (generation was <? generation now) || bool_decide (cert_to_bytes now = cert_to_bytes was))
    (zip (certs r) (certs founding)).

Definition commit (r : KeyperRegistry) : list Z :=
  hash_labeled COMMIT_LABEL (count_bytes r ++ concat ((fun c => Kem.encode (kem_public c)) <$> certs r)).

Definition committee_keys (r : KeyperRegistry) (params : Params.CellParams) : option (list Kem.HybridKemPublic) :=
  let n := Z.to_nat (Params.seal_committee_size params) in
  if (n <=? length (certs r))%nat then mapM (key r) (seq 0 n) else None.

Definition seal_to_keyper_committee (r : KeyperRegistry) (tx : Tx.Transaction) (epoch : Z) (params : Params.CellParams)
    (rng_seed : list Z) : result Tx.SealedTx Threshold.ThresholdError :=
  if negb (Params.seal_is_sound params) || negb (Block.seal_fits_a_block params) then Err Threshold.Malformed else
  let? keys := ok_or (committee_keys r params) Threshold.Malformed in
  Tx.seal tx epoch keys (Params.seal_threshold params) rng_seed.

(** ** Lemmas *)

Definition cert_ok (c : KeyperKeyCert) : Prop := is_u64 (generation c) /\ length (kc_sig c) = HYBRID_SIG_LEN.

Definition registry_ok (r : KeyperRegistry) : Prop :=
  Z.of_nat (length (certs r)) < 2 ^ 32 /\ Forall cert_ok (certs r).

Lemma verify_iff r vs : verify r vs = true <->
  length (certs r) = length vs /\
  forall i c v, certs r !! i = Some c -> vs !! i = Some v -> cert_verify c (seat_byte i) v = true.
Proof.
  unfold verify. rewrite andb_true_iff, Nat.eqb_eq, forallb_forall. split; intros [Hl HF]; split; try done.
  - intros i c v Hc Hv. apply (HF (i, (c, v))), list_elem_of_In, list_elem_of_lookup. exists i.
    rewrite !lookup_zip_with, Hc, Hv, lookup_seq_lt; [done|]. apply lookup_lt_Some in Hc, Hv. rewrite length_zip_with. lia.
  - intros [j [c v]] (i & Hi)%list_elem_of_In%list_elem_of_lookup. rewrite lookup_zip_with in Hi.
    destruct (seq 0 _ !! i) as [j'|] eqn:Ej; [|done]. apply lookup_seq in Ej as [-> _]. simpl in Hi.
    rewrite lookup_zip_with in Hi. destruct (certs r !! i) eqn:Ec; [|done]. simpl in Hi.
    destruct (vs !! i) eqn:Ev; [|done]. simpl in Hi. injection Hi as <- <- <-. by eapply HF.
Qed.

Lemma descends_iff r f vs : descends_from r f vs = true <->
  length (certs r) = length (certs f) /\ verify r vs = true /\
  forall i now was, certs r !! i = Some now -> certs f !! i = Some was ->
    generation was < generation now \/ cert_to_bytes now = cert_to_bytes was.
Proof.
  unfold descends_from. rewrite !andb_true_iff, Nat.eqb_eq, forallb_forall.
  split; [intros [[Hl Hv] HF]; split; [done|]; split; [done|]|intros (Hl & Hv & HF); split; [done|]].
  - intros i now was Hn Hw. specialize (HF (now, was)). rewrite orb_true_iff, Z.ltb_lt, bool_decide_eq_true in HF.
    apply HF, list_elem_of_In, list_elem_of_lookup. exists i. by rewrite lookup_zip_with, Hn, Hw.
  - intros [now was] (i & Hi)%list_elem_of_In%list_elem_of_lookup. rewrite lookup_zip_with in Hi.
    destruct (certs r !! i) eqn:Ec; [|done]. simpl in Hi. destruct (certs f !! i) eqn:Ev; [|done]. simpl in Hi.
    injection Hi as <- <-. rewrite orb_true_iff, Z.ltb_lt, bool_decide_eq_true. by eapply HF.
Qed.

Lemma committee_keys_prefix r params keys : committee_keys r params = Some keys ->
  length keys = Z.to_nat (Params.seal_committee_size params) /\
  keys = kem_public <$> take (Z.to_nat (Params.seal_committee_size params)) (certs r).
Proof.
  unfold committee_keys. set (n := Z.to_nat _). destruct (Nat.leb_spec n (length (certs r))) as [Hn|]; [|done].
  intros HM%mapM_Some_1. pose proof (Forall2_length _ _ _ HM) as Hl. rewrite length_seq in Hl. split; [done|].
  apply list_eq. intros i. rewrite list_lookup_fmap. destruct (decide (i < n)%nat) as [Hi|Hi].
  - rewrite lookup_take_lt by done. destruct (lookup_lt_is_Some_2 (certs r) i) as [c Hc]; [lia|]. rewrite Hc.
    destruct (Forall2_lookup_l _ _ _ i i HM) as (k & -> & Hk); [by rewrite lookup_seq_lt|].
    unfold key in Hk. rewrite Hc in Hk. symmetry. exact Hk.
  - rewrite lookup_take_ge by lia. apply lookup_ge_None. lia.
Qed.

  Context `{!CryptoLaws, !KemLaws}.

(** A certificate a validator issues for itself verifies under its key at its seat. *)
Lemma register_verifies g i k signer :
  cert_verify (register g (seat_byte i) k signer) (seat_byte i) (verifier_of signer) = true.
Proof. unfold cert_verify, register. cbn [kc_sig generation kem_public]. rewrite sig_from_to. apply hybrid_sign_verifies. Qed.

Lemma length_encode k : length (Kem.encode k) = PUBLIC_LEN.
Proof. unfold Kem.encode. by rewrite length_app, x_public_length, ml_ek_length. Qed.

Lemma cert_from_to c : cert_ok c -> cert_from_bytes (cert_to_bytes c) = Some c.
Proof.
  intros [Hg Hs]. unfold cert_from_bytes, cert_to_bytes.
  assert (Hl : length (be_bytes 8 (generation c) ++ Kem.encode (kem_public c) ++ kc_sig c) = CERT_LEN).
  { rewrite !length_app, length_be_bytes, length_encode, Hs. unfold CERT_LEN. lia. }
  rewrite Hl, Nat.eqb_refl. cbn [negb]. rewrite slice_prefix by apply length_be_bytes. cbn [mbind option_bind].
  rewrite (slice_mid (be_bytes 8 (generation c)) (Kem.encode (kem_public c)))
    by (rewrite ?length_be_bytes, ?length_encode; reflexivity). cbn [mbind option_bind].
  rewrite Kem.ek_decode_encode. cbn [mbind option_bind]. rewrite app_assoc.
  rewrite slice_from_app by (rewrite length_app, length_be_bytes, length_encode; reflexivity).
  cbn [mbind option_bind]. rewrite from_be_id by done. by destruct c.
Qed.

Lemma length_cert_bytes c : cert_ok c -> length (cert_to_bytes c) = CERT_LEN.
Proof.
  intros [_ Hs]. unfold cert_to_bytes. rewrite !length_app, length_be_bytes, length_encode, Hs. unfold CERT_LEN. lia.
Qed.

Lemma read_certs_reads cs pre : Forall cert_ok cs ->
  read_certs (length cs) (length pre) (pre ++ concat (cert_to_bytes <$> cs)) =
    Some (cs, length (pre ++ concat (cert_to_bytes <$> cs))).
Proof.
  intros HF. revert pre. induction HF as [|c cs Hc HF IH]; intros pre; cbn [fmap list_fmap concat length read_certs].
  { by rewrite app_nil_r. }
  rewrite (slice_mid pre (cert_to_bytes c)) by (rewrite ?length_cert_bytes by done; done). cbn [mbind option_bind].
  rewrite cert_from_to by done. cbn [mbind option_bind].
  specialize (IH (pre ++ cert_to_bytes c)). rewrite length_app, length_cert_bytes, <- app_assoc in IH by done.
  rewrite IH. done.
Qed.

(** A registry survives its bytes. *)
Lemma registry_from_to r : registry_ok r -> from_bytes (to_bytes r) = Some r.
Proof.
  intros [Hl HF]. unfold from_bytes, to_bytes. assert (H4 : length (count_bytes r) = 4%nat) by apply length_be_bytes.
  rewrite slice_prefix by done. cbn [mbind option_bind]. unfold count_bytes at 1. rewrite Z.min_l, from_be_id by (unfold in_u; lia).
  rewrite Nat2Z.id. rewrite <- H4 at 1. rewrite read_certs_reads by done. cbn [mbind option_bind fst snd].
  rewrite Nat.eqb_refl. by destruct r.
Qed.

(** Validator [i] replaces its key at generation [g]. *)
Definition rotate (r : KeyperRegistry) (i : nat) (g : Z) (k : Kem.HybridKemPublic) (signer : HybridSigSecret) : KeyperRegistry :=
  mk_registry (<[i := register g (seat_byte i) k signer]> (certs r)).

(** Rotating to any later generation gives a registry that succeeds the founding one, whatever other
    generations its owner certified before or after: acceptance looks at the founding registry only. *)
Lemma rotation_descends f vs i g k signer was : verify f vs = true -> certs f !! i = Some was ->
  vs !! i = Some (verifier_of signer) -> generation was < g ->
  descends_from (rotate f i g k signer) f vs = true /\ key (rotate f i g k signer) i = Some k.
Proof.
  intros [Hl HF]%verify_iff Hw Hv Hg. pose proof (lookup_lt_Some _ _ _ Hw) as Hi. split.
  - apply descends_iff. unfold rotate. cbn [certs]. split; [apply length_insert|]. split.
    + apply verify_iff. cbn [certs]. split; [by rewrite length_insert|]. intros j c v Hc Hj.
      apply list_lookup_insert_Some in Hc as [(-> & <- & _)|[_ Hc]]; [|by eapply HF].
      rewrite Hv in Hj. injection Hj as <-. apply register_verifies.
    + intros j now was' Hn Hwas. apply list_lookup_insert_Some in Hn as [(-> & <- & _)|[_ Hn]]; [left|right; congruence].
      cbn [register generation]. congruence.
  - unfold key, rotate. cbn [certs]. by rewrite list_lookup_insert_eq.
Qed.

End keyper.
End Keyper.
