(* ===== verification/Merkle.v ===== *)
(** * The Merkle tree

    [fanos-primitives/src/merkle.rs]: a tree over hashed leaves whose root binds the leaf count, its
    authentication paths and their verification. *)
From S2P Require Import Prelude Codec Sig Block.
Local Open Scope Z_scope.

Module Merkle.

Definition NODE_LABEL : string := "FANOS-v1/merkle-node".
Definition ROOT_LABEL : string := "FANOS-v1/merkle-root".
Definition EMPTY_LABEL : string := "FANOS-v1/merkle-empty".
Definition MAX_LEAVES : Z := 2 ^ 32.

(** The number of bits of [count - 1]. *)
Definition height (count : Z) : Z := if count <=? 1 then 0 else Z.log2 (count - 1) + 1.

Section merkle.
  Context `{Crypto}.

Definition leaf (domain : string) (bytes : list Z) : list Z := hash_labeled domain bytes.

Definition empty_root : list Z := hash_labeled EMPTY_LABEL [].

Definition node (left right : list Z) : list Z := hash_labeled NODE_LABEL (left ++ right).

Definition wrap (count : Z) (bare : list Z) : list Z := hash_labeled ROOT_LABEL (be_bytes 8 count ++ bare).

(** The inner loop of [fold] and [prove]: the parents of a level, an odd tail paired with itself. *)
Fixpoint next_level (level : list (list Z)) : list (list Z) :=
  match level with
  | [] => []
  | [l] => [node l l]
  | l :: r :: level => node l r :: next_level level
  end.

(** [while level.len() > 1]; every turn shortens the level, so its length is fuel enough. *)
Fixpoint fold_loop (fuel : nat) (level : list (list Z)) : list Z :=
  match fuel with
  | O => default empty_root (head level)
  | S fuel => if (length level <=? 1)%nat then default empty_root (head level) else fold_loop fuel (next_level level)
  end.

Definition fold (leaves : list (list Z)) : list Z := fold_loop (length leaves) leaves.

Definition root (leaves : list (list Z)) : option (list Z) :=
  let count := Z.of_nat (length leaves) in
  if MAX_LEAVES <? count then None else
  if count =? 0 then Some empty_root else Some (wrap count (fold leaves)).

Definition sibling (level : list (list Z)) (idx : nat) : list Z :=
  default empty_root
    (if Nat.even idx then match level !! S idx with Some s => Some s | None => level !! idx end
     else level !! (idx - 1)%nat).

Fixpoint prove_loop (fuel : nat) (level : list (list Z)) (idx : nat) : list (list Z) :=
  match fuel with
  | O => []
  | S fuel => if (length level <=? 1)%nat then []
              else sibling level idx :: prove_loop fuel (next_level level) (idx / 2)
  end.

Definition prove (leaves : list (list Z)) (index : nat) : option (list (list Z)) :=
  if (MAX_LEAVES <? Z.of_nat (length leaves)) || (length leaves <=? index)%nat then None
  else Some (prove_loop (length leaves) leaves index).

Fixpoint climb (acc : list Z) (idx : Z) (siblings : list (list Z)) : list Z :=
  match siblings with
  | [] => acc
  | sib :: siblings => climb (if Z.even idx then node acc sib else node sib acc) (idx / 2) siblings
  end.

Definition verify (leaf : list Z) (index : Z) (siblings : list (list Z)) (root : list Z) (count : Z) : bool :=
  if (count =? 0) || (MAX_LEAVES <? count) || (count <=? index) then false else
  if negb (Z.of_nat (length siblings) =? height count) then false else
  bool_decide (wrap count (climb leaf index siblings) = root).

(** ** Levels *)

Lemma pairs_ind (P : list (list Z) -> Prop) :
  P [] -> (forall x, P [x]) -> (forall x y l, P l -> P (x :: y :: l)) -> forall l, P l.
Proof.
  intros H0 H1 H2. enough (Hx : forall l, P l /\ forall x, P (x :: l)) by (intros l; apply Hx).
  induction l as [|x l [IH1 IH2]]; split; auto.
Qed.

Lemma length_next_level level : length (next_level level) = (S (length level) / 2)%nat.
Proof.
  induction level as [|x|x y l IH] using pairs_ind; [done|done|]. cbn [next_level length]. rewrite IH.
  change (S (S (S (length l)))) with (2 + S (length l))%nat. replace (2 + S (length l))%nat with (1 * 2 + S (length l))%nat by lia.
  by rewrite Nat.div_add_l.
Qed.

Lemma next_level_shorter level : (1 < length level)%nat -> (0 < length (next_level level) < length level)%nat.
Proof.
  intros Hl. rewrite length_next_level. pose proof (Nat.Div0.div_le_mono 3 (S (length level)) 2).
  assert (3 / 2 = 1)%nat by done. split; [lia|]. apply Nat.Div0.div_lt_upper_bound. lia.
Qed.

Lemma lookup_next_level level i : (i < length level)%nat ->
  next_level level !! (i / 2)%nat =
    let j := (2 * (i / 2))%nat in
    letO l := level !! j in
    Some (node l (default l (level !! S j))).
Proof.
  revert i. induction level as [|x|x y l IH] using pairs_ind; intros i Hi; cbn [length] in Hi; [lia|by replace i with 0%nat by lia|].
  destruct i as [|[|i]]; [done|done|]. cbn [next_level].
  replace (S (S i)) with (1 * 2 + i)%nat by lia. rewrite Nat.div_add_l by lia. cbn [Nat.add lookup list_lookup].
  change ((next_level l) !! (i / 2)%nat) with (next_level l !! (i / 2)%nat). rewrite IH by lia. cbv zeta.
  by replace (2 * S (i / 2))%nat with (S (S (2 * (i / 2)))) by lia.
Qed.

(** The height is one more than the height of the parents. *)
Lemma height_next n : (1 < n)%nat -> height (Z.of_nat n) = height (Z.of_nat (S n / 2)) + 1.
Proof.
  intros Hn. unfold height. rewrite (proj2 (Z.leb_gt _ _)) by lia.
  assert (E : Z.of_nat (S n / 2) - 1 = (Z.of_nat n - 1) / 2).
  { rewrite Nat2Z.inj_div. replace (Z.of_nat (S n)) with (Z.of_nat n - 1 + 1 * 2) by lia. change (Z.of_nat 2) with 2.
    rewrite Z.div_add by lia. lia. }
  rewrite E. destruct (Z.leb_spec (Z.of_nat (S n / 2)) 1) as [Hle|Hgt].
  - assert (n = 2)%nat as ->; [|done]. assert ((Z.of_nat n - 1) / 2 < 1) by lia.
    assert (Z.of_nat n - 1 < 2) by (apply Z.nle_gt; intros Hc; apply (Z.div_le_mono 2 _ 2) in Hc; [|lia]; change (2 / 2) with 1 in Hc; lia).
    lia.
  - assert (E2 : Z.log2 ((Z.of_nat n - 1) / 2) = Z.log2 (Z.of_nat n - 1) - 1); [|lia].
    assert (H2 : 1 <= Z.log2 (Z.of_nat n - 1)).
    { apply Z.log2_le_pow2; [lia|]. change (2 ^ 1) with 2. destruct (decide (n = 2)%nat) as [->|]; [by vm_compute in Hgt|lia]. }
    change 2 with (2 ^ 1). rewrite <- Z.shiftr_div_pow2, Z.log2_shiftr by lia. lia.
Qed.

Lemma half_cases idx : (2 * (idx / 2) = idx /\ Nat.even idx = true \/ S (2 * (idx / 2)) = idx /\ Nat.even idx = false)%nat.
Proof.
  pose proof (Nat.div_mod_eq idx 2) as E. rewrite <- Nat.bit0_mod in E.
  pose proof (Nat.bit0_odd idx) as Ho. rewrite <- Nat.negb_odd, <- Ho. destruct (Nat.testbit idx 0); simpl in *; [right|left]; split; try done; lia.
Qed.

Lemma even_of_nat n : Z.even (Z.of_nat n) = Nat.even n.
Proof.
  enough (Hx : Z.even (Z.of_nat n) = Nat.even n /\ Z.even (Z.of_nat (S n)) = Nat.even (S n)) by apply Hx.
  induction n as [|n [IH1 IH2]]; [done|]. split; [done|]. by rewrite !Nat2Z.inj_succ, Z.even_succ_succ, IH1.
Qed.

(** ** A path proves its leaf *)

Lemma climb_prove fuel level idx l : (length level <= fuel)%nat -> level !! idx = Some l ->
  climb l (Z.of_nat idx) (prove_loop fuel level idx) = fold_loop fuel level /\
  Z.of_nat (length (prove_loop fuel level idx)) = height (Z.of_nat (length level)).
Proof.
  revert level idx l. induction fuel as [|fuel IH]; intros level idx l Hf Hl.
  { apply lookup_lt_Some in Hl. lia. }
  pose proof (lookup_lt_Some _ _ _ Hl) as Hi. cbn [prove_loop fold_loop]. destruct (Nat.leb_spec (length level) 1) as [H1|H1].
  - destruct level as [|x [|? ?]]; simpl in *; try lia. replace idx with 0%nat in Hl by lia. by injection Hl as ->.
  - pose proof (next_level_shorter level H1) as Hs. pose proof (lookup_next_level level idx Hi) as Hn. cbv zeta in Hn.
    assert (Hstep : next_level level !! (idx / 2)%nat =
      Some (if Z.even (Z.of_nat idx) then node l (sibling level idx) else node (sibling level idx) l)).
    { rewrite Hn. rewrite even_of_nat. unfold sibling. destruct (half_cases idx) as [[E ->]|[E ->]].
      - rewrite E, Hl. simpl. by destruct (level !! S idx).
      - destruct (lookup_lt_is_Some_2 level (2 * (idx / 2))) as [x Hx]; [lia|]. rewrite Hx, E, Hl.
        replace (idx - 1)%nat with (2 * (idx / 2))%nat by lia. by rewrite Hx. }
    destruct (IH (next_level level) (idx / 2)%nat _ ltac:(lia) Hstep) as [E1 E2]. split.
    + cbn [climb]. rewrite Nat2Z.inj_div in E1. exact E1.
    + cbn [length]. rewrite height_next by done. rewrite <- length_next_level, <- E2. lia.
Qed.

(** ** The messages a tree hashes *)

Definition node_hashed (left right : list Z) : list Z := labeled_hasher NODE_LABEL (left ++ right).

Definition wrap_hashed (count : Z) (bare : list Z) : list Z := labeled_hasher ROOT_LABEL (be_bytes 8 count ++ bare).

Fixpoint level_hashed (level : list (list Z)) : list (list Z) :=
  match level with
  | [] => []
  | [l] => [node_hashed l l]
  | l :: r :: level => node_hashed l r :: level_hashed level
  end.

Fixpoint fold_hashed (fuel : nat) (level : list (list Z)) : list (list Z) :=
  match fuel with
  | O => []
  | S fuel => if (length level <=? 1)%nat then [] else level_hashed level ++ fold_hashed fuel (next_level level)
  end.

(** The nodes and the root of a tree. *)
Definition root_hashed (leaves : list (list Z)) : list (list Z) :=
  match leaves with
  | [] => [labeled_hasher EMPTY_LABEL []]
  | _ => wrap_hashed (Z.of_nat (length leaves)) (fold leaves) :: fold_hashed (length leaves) leaves
  end.

Fixpoint climb_hashed (acc : list Z) (idx : Z) (siblings : list (list Z)) : list (list Z) :=
  match siblings with
  | [] => []
  | sib :: siblings =>
      (if Z.even idx then node_hashed acc sib else node_hashed sib acc) ::
      climb_hashed (if Z.even idx then node acc sib else node sib acc) (idx / 2) siblings
  end.

(** What [verify] hashes. *)
Definition verify_hashed (leaf : list Z) (index : Z) (siblings : list (list Z)) (count : Z) : list (list Z) :=
  wrap_hashed count (climb leaf index siblings) :: climb_hashed leaf index siblings.

Lemma level_hashed_lookup level i l : (i < length level)%nat -> level !! (2 * (i / 2))%nat = Some l ->
  node_hashed l (default l (level !! S (2 * (i / 2))%nat)) ∈ level_hashed level.
Proof.
  revert i l. induction level as [|x|x y level IH] using pairs_ind; intros i l Hi; cbn [length] in Hi; [lia| |].
  - replace i with 0%nat by lia. intros [= <-]. cbn. by left.
  - destruct i as [|[|i]]; [intros [= <-]; cbn; by left..|]. cbn [level_hashed].
    replace (S (S i)) with (1 * 2 + i)%nat by lia. rewrite Nat.div_add_l by lia.
    replace (2 * (1 + i / 2))%nat with (S (S (2 * (i / 2)))) by lia. intros Hl. right. apply IH; [lia|exact Hl].
Qed.

(** An honest path hashes nodes of the tree only. *)
Lemma climb_prove_hashed fuel level idx l : (length level <= fuel)%nat -> level !! idx = Some l ->
  climb_hashed l (Z.of_nat idx) (prove_loop fuel level idx) ⊆ fold_hashed fuel level.
Proof.
  revert level idx l. induction fuel as [|fuel IH]; intros level idx l Hf Hl; [set_solver|].
  pose proof (lookup_lt_Some _ _ _ Hl) as Hi. cbn [prove_loop fold_hashed]. destruct (Nat.leb_spec (length level) 1) as [H1|H1]; [set_solver|].
  pose proof (next_level_shorter level H1) as Hs. pose proof (lookup_next_level level idx Hi) as Hn. cbv zeta in Hn.
  cbn [climb_hashed]. rewrite even_of_nat. replace (Z.of_nat idx / 2) with (Z.of_nat (idx / 2)) by (by rewrite Nat2Z.inj_div).
  destruct (half_cases idx) as [[E Ev]|[E Ev]]; rewrite Ev; unfold sibling; rewrite Ev.
  - assert (Hd : forall o, default empty_root (match o with Some s => Some s | None => level !! idx end) = default l o)
      by (intros [?|]; [done|by rewrite Hl]). rewrite Hd.
    pose proof (level_hashed_lookup level idx l Hi ltac:(by rewrite E)) as Hin. rewrite E, Hl in Hn. rewrite E in Hin.
    pose proof (IH (next_level level) (idx / 2)%nat _ ltac:(lia) Hn). set_solver.
  - destruct (lookup_lt_is_Some_2 level (2 * (idx / 2))) as [x Hx]; [lia|].
    pose proof (level_hashed_lookup level idx x Hi Hx) as Hin. replace (idx - 1)%nat with (2 * (idx / 2))%nat by lia.
    rewrite Hx, E, Hl in Hn. rewrite E, Hl in Hin. rewrite Hx. cbn [default] in *.
    pose proof (IH (next_level level) (idx / 2)%nat _ ltac:(lia) Hn). set_solver.
Qed.

  Context `{!CryptoLaws}.
  Context (msgs : list (list Z)) (Hintact : ~ broken_on msgs).

Lemma node_inj a b c d : node_hashed a b ∈ msgs -> node_hashed c d ∈ msgs -> length a = length c ->
  node a b = node c d -> a = c /\ b = d.
Proof. intros Ha Hc Hl E. apply (hash_labeled_inj msgs) in E; [|done..]. by apply app_inj_1 in E. Qed.

Lemma next_level_width level : Forall (fun h => length h = 32%nat) (next_level level).
Proof.
  induction level as [|x|x y l IH] using pairs_ind; cbn [next_level]; [done|repeat constructor; apply hash_labeled_length|].
  constructor; [apply hash_labeled_length|done].
Qed.

(** A path that reaches the root of a tree starts at the leaf of that tree, when its nodes and the
    tree's show no collision. *)
Lemma climb_sound fuel level idx l sibs : (length level <= fuel)%nat -> (idx < length level)%nat ->
  Forall (fun h => length h = 32%nat) level -> length l = 32%nat -> Forall (fun h => length h = 32%nat) sibs ->
  Z.of_nat (length sibs) = height (Z.of_nat (length level)) ->
  climb_hashed l (Z.of_nat idx) sibs ⊆ msgs -> fold_hashed fuel level ⊆ msgs ->
  climb l (Z.of_nat idx) sibs = fold_loop fuel level -> level !! idx = Some l.
Proof.
  revert level idx l sibs. induction fuel as [|fuel IH]; intros level idx l sibs Hf Hi Hw Hl Hs Hh Hmc Hmf E; [lia|].
  cbn [fold_loop fold_hashed] in E, Hmf. destruct (Nat.leb_spec (length level) 1) as [H1|H1].
  - destruct level as [|x [|? ?]]; simpl in Hi, H1; try lia. replace idx with 0%nat in * by lia.
    destruct sibs; [|done]. simpl in E. by subst l.
  - rewrite height_next in Hh by done. destruct sibs as [|sib sibs].
    { exfalso. cbn [length] in Hh. unfold height in Hh. destruct (_ <=? 1); [lia|].
      pose proof (Z.log2_nonneg (Z.of_nat (S (length level) / 2) - 1)). lia. }
    apply Forall_cons in Hs as [Hsib Hs]. cbn [climb climb_hashed length] in E, Hh, Hmc.
    pose proof (next_level_shorter level H1) as Hsh. pose proof (lookup_next_level level idx Hi) as Hn. cbv zeta in Hn.
    change 2 with (Z.of_nat 2) in E, Hmc. rewrite <- Nat2Z.inj_div in E, Hmc.
    set (acc := if Z.even (Z.of_nat idx) then node l sib else node sib l) in E, Hmc.
    assert (La : length acc = 32%nat) by (unfold acc; destruct (Z.even _); apply hash_labeled_length).
    apply list_subseteq_app_iff_l in Hmf as [Hml Hmf]. apply list_subseteq_cons_iff in Hmc as [Hmn Hmc].
    pose proof (IH (next_level level) (idx / 2)%nat acc sibs ltac:(lia)
      ltac:(rewrite length_next_level; apply Nat.Div0.div_lt_upper_bound; destruct (half_cases idx); destruct (half_cases (S (length level))); lia)
      (next_level_width level) La Hs
      ltac:(rewrite length_next_level; lia) Hmc Hmf E) as Hx.
    destruct (lookup_lt_is_Some_2 level (2 * (idx / 2))) as [x Ex]; [destruct (half_cases idx); lia|].
    pose proof (Hml _ (level_hashed_lookup level idx x Hi Ex)) as Hmx. rewrite Hn, Ex in Hx. cbn [mbind option_bind] in Hx. apply (inj Some) in Hx. unfold acc in Hx. rewrite even_of_nat in Hx, Hmn.
    assert (Lx : length x = 32%nat) by (rewrite Forall_forall in Hw; eapply Hw, list_elem_of_lookup_2, Ex).
    destruct (half_cases idx) as [[Ei Ev]|[Ei Ev]]; rewrite Ev in Hx, Hmn; apply node_inj in Hx as [E1 E2]; try done; try congruence.
    rewrite Ei in E2. destruct (lookup_lt_is_Some_2 level idx Hi) as [y Ey]. rewrite Ey in *. simpl in E2. congruence.
Qed.

(** ** Claims *)

Lemma root_some leaves r : root leaves = Some r -> Z.of_nat (length leaves) <= MAX_LEAVES /\
  (leaves = [] /\ r = empty_root \/ leaves <> [] /\ r = wrap (Z.of_nat (length leaves)) (fold leaves)).
Proof.
  unfold root. destruct (Z.ltb_spec MAX_LEAVES (Z.of_nat (length leaves))); [done|].
  destruct leaves as [|x leaves]; simpl; intros [= <-]; split; auto; right; done.
Qed.

(** A root of an empty tree and a root of a non-empty one are digests under two labels. *)
Lemma empty_root_is_no_wrap count bare : wrap_hashed count bare ∈ msgs -> labeled_hasher EMPTY_LABEL [] ∈ msgs ->
  wrap count bare <> empty_root.
Proof. intros Hw He E. apply (hash_inj msgs) in E; [|done..]. revert E. by vm_compute. Qed.

Lemma wrap_inj count bare count' bare' : wrap_hashed count bare ∈ msgs -> wrap_hashed count' bare' ∈ msgs ->
  is_u64 count -> is_u64 count' -> wrap count bare = wrap count' bare' -> count = count' /\ bare = bare'.
Proof.
  intros Hw Hw' Hc Hc' E. apply (hash_labeled_inj msgs) in E; [|done..]. apply app_inj_1 in E as [E ->]; [|by rewrite !length_be_bytes].
  split; [|done]. rewrite <- (from_be_id 8 count), E, from_be_id by done. done.
Qed.

Lemma verify_prove leaves r i l : root leaves = Some r -> leaves !! i = Some l ->
  exists p, prove leaves i = Some p /\ verify l (Z.of_nat i) p r (Z.of_nat (length leaves)) = true.
Proof.
  intros [Hm Hr]%root_some Hl. pose proof (lookup_lt_Some _ _ _ Hl) as Hi. unfold prove.
  rewrite (proj2 (Z.ltb_ge _ _)), (proj2 (Nat.leb_gt _ _)) by lia. eexists. split; [done|].
  destruct (climb_prove (length leaves) leaves i l ltac:(lia) Hl) as [E1 E2]. unfold verify.
  rewrite (proj2 (Z.eqb_neq _ _)), (proj2 (Z.ltb_ge _ _)), (proj2 (Z.leb_gt _ _)) by lia. cbn [orb].
  rewrite E2, Z.eqb_refl, E1. cbn [negb]. apply bool_decide_eq_true. destruct Hr as [[-> _]|[_ ->]]; [by simpl in Hi|done].
Qed.

(** The path a tree gives hashes what the tree hashes. *)
Lemma prove_hashed leaves i l p : leaves !! i = Some l -> prove leaves i = Some p ->
  verify_hashed l (Z.of_nat i) p (Z.of_nat (length leaves)) ⊆ root_hashed leaves.
Proof.
  intros Hl. unfold prove. destruct (_ || _); [done|]. intros [= <-]. unfold verify_hashed, root_hashed.
  pose proof (climb_prove_hashed (length leaves) leaves i l ltac:(lia) Hl).
  destruct (climb_prove (length leaves) leaves i l ltac:(lia) Hl) as [E _]. rewrite E. unfold fold.
  destruct leaves; [done|]. set_solver.
Qed.

Lemma verify_sound leaves r l index sibs count : root leaves = Some r -> Forall (fun h => length h = 32%nat) leaves ->
  length l = 32%nat -> Forall (fun h => length h = 32%nat) sibs -> 0 <= index -> is_u64 count ->
  root_hashed leaves ⊆ msgs -> verify_hashed l index sibs count ⊆ msgs -> verify l index sibs r count = true ->
  count = Z.of_nat (length leaves) /\ leaves !! Z.to_nat index = Some l.
Proof.
  intros [Hm Hr]%root_some Hw Hl Hs Hi Hc Hmr Hmv. apply list_subseteq_cons_iff in Hmv as [Hmw Hmc]. unfold verify.
  destruct ((count =? 0) || (MAX_LEAVES <? count) || (count <=? index)) eqn:E; [done|].
  rewrite !orb_false_iff, Z.eqb_neq, Z.ltb_ge, Z.leb_gt in E. destruct E as [[E0 E1] E2].
  destruct (Z.eqb_spec (Z.of_nat (length sibs)) (height count)) as [Eh|]; [|done]. cbn [negb].
  intros Ev%bool_decide_eq_true. destruct Hr as [[-> ->]|[Hne ->]].
  { apply empty_root_is_no_wrap in Ev; [done|done|set_solver]. }
  assert (Hmf : wrap_hashed (Z.of_nat (length leaves)) (fold leaves) ∈ msgs /\ fold_hashed (length leaves) leaves ⊆ msgs).
  { destruct leaves; [done|]. by apply list_subseteq_cons_iff in Hmr. }
  apply wrap_inj in Ev as [-> Ev]; [|done|exact (proj1 Hmf)|done|unfold is_u64, in_u, MAX_LEAVES in *; lia].
  split; [done|]. apply (climb_sound (length leaves) leaves (Z.to_nat index) l sibs); try done; try lia.
  - by rewrite Z2Nat.id.
  - exact (proj2 Hmf).
  - by rewrite Z2Nat.id.
Qed.

Lemma sibling_width level idx : Forall (fun h => length h = 32%nat) level -> length (sibling level idx) = 32%nat.
Proof.
  intros HF. rewrite Forall_lookup in HF. unfold sibling.
  destruct (Nat.even idx); repeat case_match; simpl; try apply hash_labeled_length; try (by eapply HF).
  - destruct (level !! idx) eqn:E; [by eapply HF|apply hash_labeled_length].
  - destruct (level !! (idx - 1)%nat) eqn:E; [by eapply HF|apply hash_labeled_length].
Qed.

Lemma prove_loop_width fuel : forall level idx, Forall (fun h => length h = 32%nat) level ->
  Forall (fun h => length h = 32%nat) (prove_loop fuel level idx).
Proof.
  induction fuel as [|fuel IH]; intros level idx HF; [constructor|]. cbn [prove_loop]. case_match; [constructor|].
  constructor; [by apply sibling_width|]. apply IH, next_level_width.
Qed.

Lemma prove_width leaves i p : Forall (fun h => length h = 32%nat) leaves -> prove leaves i = Some p ->
  Forall (fun h => length h = 32%nat) p.
Proof. intros HF. unfold prove. case_match; [done|]. intros [= <-]. by apply prove_loop_width. Qed.

Lemma prove_short leaves i p : prove leaves i = Some p -> (length p <= length leaves)%nat.
Proof.
  unfold prove. destruct (_ || _); [done|]. intros [= <-]. generalize (length leaves) as fuel. intros fuel. revert leaves i.
  induction fuel as [|fuel IH]; intros leaves i; cbn [prove_loop]; [done|]. case_match; cbn [length]; [lia|]. specialize (IH (next_level leaves) (i / 2)%nat).
  lia.
Qed.

End merkle.

(** C31: a root opens to its own leaves and to nothing else.  Every leaf of a tree has a path that
    verifies at its index; and whatever leaf, index, path and count verify against the root of a
    tree, the count is the tree's and the leaf is the one at that index, unless the nodes and roots
    that the tree and that check hash hold a collision. *)
Theorem merkle_root_opens_to_its_leaves `{CryptoLaws} (leaves : list (list Z)) (r : list Z) :
  root leaves = Some r -> Forall (fun h => length h = 32%nat) leaves ->
  (forall i l, leaves !! i = Some l ->
    exists p, prove leaves i = Some p /\ verify l (Z.of_nat i) p r (Z.of_nat (length leaves)) = true) /\
  (forall l index sibs count, length l = 32%nat -> Forall (fun h => length h = 32%nat) sibs -> is_u64 index -> is_u64 count ->
    verify l index sibs r count = true ->
    (count = Z.of_nat (length leaves) /\ leaves !! Z.to_nat index = Some l) \/
    broken_on (root_hashed leaves ++ verify_hashed l index sibs count)).
Proof.
  intros Hr Hw. split; [by intros; eapply verify_prove|]. intros l index sibs count Hl Hs Hi Hc Hv.
  apply unless_broken. intros Hb. eapply verify_sound; try done; [apply Hi|set_solver|set_solver].
Qed.

Definition w_leaves : list (list Z) := [replicate 32 1; replicate 32 2; replicate 32 3; replicate 32 4; replicate 32 5].
Definition w_root : list Z := default [] (@root toy_crypto w_leaves).
Definition w_path : list (list Z) := default [] (@prove toy_crypto w_leaves 4).

(** No collision among what the tree and the check of a forged leaf hash. *)
Example forged_leaf_intact :
  ~ @broken_on toy_crypto (@root_hashed toy_crypto w_leaves ++ @verify_hashed toy_crypto (replicate 32 9) 4 w_path 5).
Proof. by_decide. Qed.

Lemma merkle_root_opens_to_its_leaves_witness :
  @verify toy_crypto (replicate 32 5) 4 w_path w_root 5 = true /\
  @verify toy_crypto (replicate 32 9) 4 w_path w_root 5 = false.
Proof.
  assert (Hr : @root toy_crypto w_leaves = Some w_root) by (vm_compute; reflexivity).
  assert (Hp : @prove toy_crypto w_leaves 4 = Some w_path) by (vm_compute; reflexivity).
  destruct (@merkle_root_opens_to_its_leaves toy_crypto toy_laws w_leaves w_root Hr) as [Hc Hs]; [by_decide|]. split.
  - destruct (Hc 4%nat (replicate 32 5) eq_refl) as (p & H1 & H2). rewrite Hp in H1. apply (inj Some) in H1 as <-. exact H2.
  - apply not_true_iff_false. intros Hv.
    destruct (Hs (replicate 32 9) 4 w_path 5 eq_refl ltac:(by_decide) ltac:(by_decide) ltac:(by_decide) Hv) as [[_ E]|Hb].
    + vm_compute in E. discriminate E.
    + exact (forged_leaf_intact Hb).
Defined.

End Merkle.
