(* ===== verification/Naming.v ===== *)
(** * Names

    [fanos-dromos/src/naming.rs]: the on-chain registry of names, bought and renewed with a signed
    payment to the treasury, and resolved to typed descriptors.  The registry settles its fees on
    the token ledger, so an operation changes both. *)
From S2P Require Import Prelude Codec Sig Token Ledger Block.
Local Open Scope Z_scope.

Module Naming.

Definition SIGNED_TRANSFER_LEN : nat := Token.WIRE_LEN.
Definition MIN_NAME_LEN : nat := 1.
Definition MAX_NAME_LEN : nat := 64.
Definition ROOT_LABEL : string := "FANOS-dromos-v1/name-root".
Definition NAME_KEY_LABEL : string := "FANOS-dromos-v1/name-key".

Definition price (name : list Z) (duration : Z) : Z :=
  let base := 100 in
  let n := length name in
  let tier := if (n <=? 2)%nat then 1000 else if (n <=? 4)%nat then 100 else if (n <=? 8)%nat then 10 else 1 in
  sat_mul 64 (sat_mul 64 base tier) (Z.max duration 1).

Inductive DescriptorKind := Payment | Service | Messenger | Storage | Raw.

Definition tag (k : DescriptorKind) : Z :=
  match k with Payment => 0 | Service => 1 | Messenger => 2 | Raw => 3 | Storage => 4 end.

Definition from_tag (t : Z) : option DescriptorKind :=
  match t with
  | 0 => Some Payment | 1 => Some Service | 2 => Some Messenger | 3 => Some Raw | 4 => Some Storage
  | _ => None
  end.

Record Descriptor := mk_desc { kind : DescriptorKind; data : list Z }.

Definition desc_to_bytes (d : Descriptor) : list Z := tag (kind d) :: data d.

Definition desc_from_bytes (bytes : list Z) : option Descriptor :=
  match bytes with
  | [] => None
  | t :: data => letO k := from_tag t in Some (mk_desc k data)
  end.

Record NameRecord := mk_rec { r_name : list Z; owner : list Z; target : list Z; expiry : Z }.

Inductive NameOp :=
| Register (name target : list Z) (duration : Z)
| Renew (name : list Z) (duration : Z)
| Update (name target : list Z)
| Transfer (name new_owner : list Z).

Definition op_name (o : NameOp) : list Z :=
  match o with Register n _ _ | Renew n _ | Update n _ | Transfer n _ => n end.

Inductive NameError :=
| BadName | WrongPayee | InsufficientFee | NameTaken | NotRegistered | NotOwner
| PaymentError (e : Token.TokenError).

Record NameRegistry := mk_names { records : btree NameRecord }.

Definition new : NameRegistry := mk_names ∅.
Definition len (r : NameRegistry) : nat := size (records r).
Definition is_empty (r : NameRegistry) : bool := (len r =? 0)%nat.
Definition record_at (r : NameRegistry) (key : list Z) : option NameRecord := records r !! key.

(** ** Bytes of operations *)

(** [(b.len() as u32).to_le_bytes() ‖ b]. *)
Definition put (b : list Z) : list Z := le_bytes 4 (w32 (Z.of_nat (length b))) ++ b.

Definition op_to_bytes (o : NameOp) : list Z :=
  match o with
  | Register name target duration => 0 :: put name ++ put target ++ le_bytes 8 duration
  | Renew name duration => 1 :: put name ++ le_bytes 8 duration
  | Update name target => 2 :: put name ++ put target
  | Transfer name new_owner => 3 :: put name ++ new_owner
  end.

(** The closure [take_bytes]: the bytes taken and the rest. *)
Definition take_bytes (rest : list Z) : option (list Z * list Z) :=
  letO l := slice 0 4 rest in
  let len := Z.to_nat (from_le l) in
  letO b := slice 4 (4 + len) rest in
  letO rest := slice_from (4 + len) rest in
  Some (b, rest).

Definition op_from_bytes (bytes : list Z) : option NameOp :=
  match bytes with
  | [] => None
  | t :: rest =>
      match t with
      | 0 =>
          letO (name, rest) := take_bytes rest in
          letO (target, rest) := take_bytes rest in
          letO d := slice 0 8 rest in
          Some (Register name target (from_le d))
      | 1 =>
          letO (name, rest) := take_bytes rest in
          letO d := slice 0 8 rest in
          Some (Renew name (from_le d))
      | 2 =>
          letO (name, rest) := take_bytes rest in
          letO (target, _) := take_bytes rest in
          Some (Update name target)
      | 3 =>
          letO (name, rest) := take_bytes rest in
          letO new_owner := slice 0 32 rest in
          Some (Transfer name new_owner)
      | _ => None
      end
  end.

Section names.
  Context `{Crypto}.

Definition name_digest (name : list Z) : list Z := hash_labeled NAME_KEY_LABEL name.

Record NameTx := mk_name_tx { op : NameOp; payment : Token.SignedTransfer }.

Definition tx_to_bytes (tx : NameTx) : list Z := op_to_bytes (op tx) ++ Token.st_to_bytes (payment tx).

Definition tx_from_bytes (bytes : list Z) : option NameTx :=
  if (length bytes <? SIGNED_TRANSFER_LEN)%nat then None else
  let split := (length bytes - SIGNED_TRANSFER_LEN)%nat in
  letO ob := slice 0 split bytes in
  letO o := op_from_bytes ob in
  letO pb := slice_from split bytes in
  letO p := Token.st_from_bytes pb in
  Some (mk_name_tx o p).

Definition resolve (r : NameRegistry) (name : list Z) (now : Z) : option NameRecord :=
  letO rec := records r !! name_digest name in
  if now <=? expiry rec then Some rec else None.

Definition resolve_descriptor (r : NameRegistry) (name : list Z) (now : Z) : option Descriptor :=
  letO rec := resolve r name now in desc_from_bytes (target rec).

Definition owned (r : NameRegistry) (name actor : list Z) (now : Z) : result NameRecord NameError :=
  let? rec := ok_or (resolve r name now) NotRegistered in
  if bool_decide (owner rec <> actor) then Err NotOwner else Ok rec.

(** The record [Mutation::Set] stores. *)
Definition plan (r : NameRegistry) (o : NameOp) (name actor : list Z) (now fee : Z) : result NameRecord NameError :=
  match o with
  | Register _ target duration =>
      if bool_decide (is_Some (resolve r name now)) then Err NameTaken else
      if fee <? price name duration then Err InsufficientFee else
      Ok (mk_rec name actor target (sat_add 64 now duration))
  | Renew _ duration =>
      let? rec := owned r name actor now in
      if fee <? price name duration then Err InsufficientFee else
      Ok (mk_rec (r_name rec) (owner rec) (target rec) (sat_add 64 (Z.max (expiry rec) now) duration))
  | Update _ target =>
      let? rec := owned r name actor now in
      Ok (mk_rec (r_name rec) (owner rec) target (expiry rec))
  | Transfer _ new_owner =>
      let? rec := owned r name actor now in
      Ok (mk_rec (r_name rec) new_owner (target rec) (expiry rec))
  end.

Definition commit (r : NameRegistry) (name : list Z) (rec : NameRecord) : NameRegistry :=
  mk_names (<[name_digest name := rec]> (records r)).

Definition put_record (r : NameRegistry) (rec : NameRecord) : NameRegistry :=
  mk_names (<[name_digest (r_name rec) := rec]> (records r)).

Definition apply (r : NameRegistry) (tx : NameTx) (tokens : Token.TokenLedger) (now : Z) :
    result unit NameError * NameRegistry * Token.TokenLedger :=
  let name := op_name (op tx) in
  let t := Token.transfer (payment tx) in
  if negb ((MIN_NAME_LEN <=? length name)%nat && (length name <=? MAX_NAME_LEN)%nat) then (Err BadName, r, tokens) else
  if bool_decide (Token.t_to t <> Ledger.TREASURY) then (Err WrongPayee, r, tokens) else
  let actor := Token.t_from t in
  match plan r (op tx) name actor now (Token.t_amount t) with
  | Err e => (Err e, r, tokens)
  | Ok rec =>
      match Token.apply tokens (payment tx) with
      | (Err e, _) => (Err (PaymentError e), r, tokens)
      | (Ok _, tokens) => (Ok tt, commit r name rec, tokens)
      end
  end.

(** ** Root and snapshot *)

Definition root_entry (key : list Z) (rec : NameRecord) : list Z :=
  key ++ put (r_name rec) ++ owner rec ++ le_bytes 8 (expiry rec) ++ put (target rec).

Definition state_root (r : NameRegistry) : list Z :=
  hash_labeled ROOT_LABEL (concat ((fun e => root_entry (fst e) (snd e)) <$> btree_list (records r))).

Definition rec_bytes (key : list Z) (rec : NameRecord) : list Z :=
  key ++ put_var_bytes (r_name rec) ++ owner rec ++ put_u64 (expiry rec) ++ put_var_bytes (target rec).

Definition to_bytes (r : NameRegistry) : list Z := put_map (records r) rec_bytes.

Definition read_rec (r : Reader) : option ((list Z * NameRecord) * Reader) :=
  letO (key, r) := rd_array 32 r in
  letO (name, r) := rd_var_bytes r in
  letO (owner, r) := rd_array 32 r in
  letO (expiry, r) := rd_u64 r in
  letO (target, r) := rd_var_bytes r in
  if bool_decide (key = name_digest name) then Some ((key, mk_rec name owner target expiry), r) else None.

Definition from_bytes (bytes : list Z) : option NameRegistry :=
  let r := reader_new bytes in
  letO (recs, r) := read_map 80 read_rec r in
  letO _ := rd_finish r in
  Some (mk_names recs).

(** ** Well-formed registries *)

Definition rec_ok (rec : NameRecord) : Prop :=
  Z.of_nat (length (r_name rec)) < 2 ^ 32 /\ length (owner rec) = 32%nat /\
  Z.of_nat (length (target rec)) < 2 ^ 32 /\ is_u64 (expiry rec).

Definition registry_ok (r : NameRegistry) : Prop :=
  Z.of_nat (size (records r)) < 2 ^ 32 /\
  map_Forall (fun k rec => k = name_digest (r_name rec) /\ rec_ok rec) (records r).

#[global] Instance registry_ok_dec r : Decision (registry_ok r).
Proof. unfold registry_ok, rec_ok. apply _. Defined.

Definition op_ok (o : NameOp) : Prop :=
  Z.of_nat (length (op_name o)) < 2 ^ 32 /\
  match o with
  | Register _ t d => Z.of_nat (length t) < 2 ^ 32 /\ is_u64 d
  | Renew _ d => is_u64 d
  | Update _ t => Z.of_nat (length t) < 2 ^ 32
  | Transfer _ a => length a = 32%nat
  end.

#[global] Instance op_ok_dec o : Decision (op_ok o).
Proof. unfold op_ok. destruct o; apply _. Defined.

(** ** Bytes *)

Lemma take_put b rest : Z.of_nat (length b) < 2 ^ 32 -> take_bytes (put b ++ rest) = Some (b, rest).
Proof.
  intros Hb. unfold take_bytes, put. rewrite <- app_assoc.
  set (pre := le_bytes 4 _). assert (Hp : length pre = 4%nat) by apply length_le_bytes.
  rewrite slice_prefix by done. assert (Hl : from_le pre = Z.of_nat (length b)).
  { unfold pre. rewrite from_le_id; [apply wrap_small; unfold in_u; lia|]. apply (wrap_range 32); lia. }
  rewrite Hl, Nat2Z.id, slice_mid by (done || lia).
  rewrite app_assoc, slice_from_app by (rewrite length_app; lia). done.
Qed.

(** Trailing bytes are ignored: the decoder reads a prefix. *)
Lemma op_from_to_prefix o rest : op_ok o -> op_from_bytes (op_to_bytes o ++ rest) = Some o.
Proof.
  destruct o as [n t d|n d|n t|n a]; intros (Hn & Hr); cbn [op_name] in Hn; cbn [op_to_bytes app op_from_bytes];
    rewrite <- ?app_assoc, ?app_nil_r, take_put by done.
  - destruct Hr as [Ht Hd]. rewrite take_put by done.
    rewrite slice_prefix by (by rewrite length_le_bytes). by rewrite from_le_id.
  - rewrite slice_prefix by (by rewrite length_le_bytes). by rewrite from_le_id.
  - by rewrite take_put.
  - by rewrite slice_prefix.
Qed.

Lemma rec_reads key rec `{!CryptoLaws} : key = name_digest (r_name rec) -> rec_ok rec ->
  reads read_rec (rec_bytes key rec) (key, rec) /\ (80 <= length (rec_bytes key rec))%nat.
Proof.
  intros Hk (Hn & Ho & Ht & He). assert (Hl : length key = 32%nat) by (rewrite Hk; apply hash_labeled_length).
  split.
  - intros r rest Hr E. unfold rec_bytes in E. rewrite <- !app_assoc in E.
    destruct (rd_take_reads 32 key Hl r _ Hr E) as (r1 & E1 & R1 & H1).
    destruct (rd_var_bytes_reads _ Hn r1 _ H1 R1) as (r2 & E2 & R2 & H2).
    destruct (rd_take_reads 32 _ Ho r2 _ H2 R2) as (r3 & E3 & R3 & H3).
    destruct (rd_u64_reads _ He r3 _ H3 R3) as (r4 & E4 & R4 & H4).
    destruct (rd_var_bytes_reads _ Ht r4 _ H4 R4) as (r5 & E5 & R5 & H5).
    exists r5. unfold read_rec, rd_array. rewrite E1, E2, E3, E4, E5, bool_decide_eq_true_2 by done.
    destruct rec. done.
  - unfold rec_bytes, put_var_bytes, put_u32, put_u64. rewrite !length_app, !length_le_bytes. lia.
Qed.

Lemma snapshot_restores `{!CryptoLaws} r : registry_ok r -> from_bytes (to_bytes r) = Some r.
Proof.
  intros [Hs Hm]. unfold from_bytes, to_bytes. destruct (rd_new_ok (put_map (records r) rec_bytes)) as [H1 H2].
  destruct (read_map_reads rec_bytes read_rec 80 (records r) ltac:(lia) Hs) with (r := reader_new (put_map (records r) rec_bytes))
    (rest := @nil Z) as (r' & -> & R' & H').
  - intros k v Hk. apply Hm in Hk as [Hk Hok]. by apply rec_reads.
  - done.
  - by rewrite H2, app_nil_r.
  - rewrite (proj2 (rd_finish_iff r' H')) by done. by destruct r.
Qed.

(** ** What an operation does *)

Lemma commit_resolve r name rec other now : 
  resolve (commit r name rec) other now =
    if decide (name_digest name = name_digest other) then (if now <=? expiry rec then Some rec else None)
    else resolve r other now.
Proof.
  unfold resolve, commit. cbn [records]. case_decide as E.
  - by rewrite E, lookup_insert_eq.
  - by rewrite lookup_insert_ne.
Qed.

Lemma owned_iff r name actor now rec : owned r name actor now = Ok rec <-> resolve r name now = Some rec /\ owner rec = actor.
Proof.
  unfold owned. destruct (resolve r name now) as [rc|]; cbn; [|by split; [|intros [? _]]].
  case_bool_decide as E; split; try done.
  - by intros [[= <-] ?].
  - intros [= <-]. split; [done|]. by destruct (decide (owner rc = actor)).
  - by intros [[= <-] _].
Qed.

(** A name that resolves can only be planned for by its owner. *)
Lemma plan_owner r o actor now fee rec old : plan r o (op_name o) actor now fee = Ok rec ->
  resolve r (op_name o) now = Some old -> actor = owner old.
Proof.
  intros Hp Ho. destruct o as [n t d|n d|n t|n a]; cbn [plan op_name] in *.
  - rewrite bool_decide_eq_true_2 in Hp by (rewrite Ho; done). done.
  - apply rbind_Ok in Hp as (x & [Hx Hw]%owned_iff & _). congruence.
  - apply rbind_Ok in Hp as (x & [Hx Hw]%owned_iff & _). congruence.
  - apply rbind_Ok in Hp as (x & [Hx Hw]%owned_iff & _). congruence.
Qed.

Lemma apply_inv r tx tokens now r' tokens' : apply r tx tokens now = (Ok tt, r', tokens') ->
  exists rec, plan r (op tx) (op_name (op tx)) (Token.t_from (Token.transfer (payment tx))) now
      (Token.t_amount (Token.transfer (payment tx))) = Ok rec /\
    Token.t_to (Token.transfer (payment tx)) = Ledger.TREASURY /\
    Token.apply tokens (payment tx) = (Ok tt, tokens') /\ r' = commit r (op_name (op tx)) rec /\
    (MIN_NAME_LEN <= length (op_name (op tx)) <= MAX_NAME_LEN)%nat.
Proof.
  unfold apply. destruct (negb _) eqn:El; [done|]. apply negb_false_iff, andb_true_iff in El.
  rewrite !Nat.leb_le in El. case_bool_decide as Et; [done|].
  destruct (plan _ _ _ _ _ _) as [rec|e] eqn:Ep; [|done].
  destruct (Token.apply tokens (payment tx)) as [[[]|e] l] eqn:Ea; [|done]. intros [= <- <-]. by exists rec.
Qed.

Lemma apply_cases r tx tokens now r' tokens' res : apply r tx tokens now = (res, r', tokens') ->
  res = Ok tt \/ r' = r /\ tokens' = tokens /\ exists e, res = Err e.
Proof.
  unfold apply. destruct (negb _); [intros [= <- <- <-]; right; eauto|].
  case_bool_decide; [intros [= <- <- <-]; right; eauto|].
  destruct (plan _ _ _ _ _ _); [|intros [= <- <- <-]; right; eauto].
  destruct (Token.apply _ _) as [[[]|] ?]; intros [= <- <- <-]; eauto.
Qed.

(** The bytes of a transaction decode to it, whatever stands between the operation and the
    payment. *)
Lemma tx_from_padded `{!CryptoLaws} o p junk : op_ok o -> Token.st_ok p ->
  tx_from_bytes (op_to_bytes o ++ junk ++ Token.st_to_bytes p) = Some (mk_name_tx o p).
Proof.
  intros Ho Hp. pose proof (Token.st_to_bytes_length p Hp) as Hl. unfold tx_from_bytes.
  rewrite app_assoc, length_app, Hl. fold SIGNED_TRANSFER_LEN. rewrite Nat.add_sub.
  rewrite (proj2 (Nat.ltb_ge _ _)) by lia. rewrite slice_prefix, op_from_to_prefix by done.
  rewrite slice_from_app by done. by rewrite Token.st_from_to.
Qed.

(** A history of name transactions, each at its block height. *)
Definition run (r : NameRegistry) (tokens : Token.TokenLedger) (l : list (NameTx * Z)) : NameRegistry * Token.TokenLedger :=
  fold_left (fun s tx => let '(_, r, tokens) := apply s.1 tx.1 s.2 tx.2 in (r, tokens)) l (r, tokens).

(** A transaction that does not come from the owner of [name]. *)
Definition foreign (name : list Z) (rec : NameRecord) (tx : NameTx * Z) : Prop :=
  snd tx <= expiry rec /\
  (op_name (op (fst tx)) = name -> Token.verify (payment (fst tx)) = true ->
   Token.account_id (Token.from_key (payment (fst tx))) <> owner rec).

Lemma verify_account st : Token.verify st = true -> Token.account_id (Token.from_key st) = Token.t_from (Token.transfer st).
Proof. unfold Token.verify. by case_bool_decide. Qed.

Lemma paid_verifies tokens st tokens' : Token.apply tokens st = (Ok tt, tokens') -> Token.verify st = true.
Proof. unfold Token.apply, Token.apply_with_verdict. by destruct (Token.verify st). Qed.

(** The names a history digests, [name] first. *)
Definition names_hashed (name : list Z) (history : list (NameTx * Z)) : list (list Z) :=
  labeled_hasher NAME_KEY_LABEL <$> name :: ((fun tx => op_name (op (fst tx))) <$> history).

Lemma foreign_keeps msgs r tokens name rec tx : ~ broken_on msgs -> labeled_hasher NAME_KEY_LABEL name ∈ msgs ->
  labeled_hasher NAME_KEY_LABEL (op_name (op (fst tx))) ∈ msgs ->
  foreign name rec tx -> records r !! name_digest name = Some rec ->
  records (apply r (fst tx) tokens (snd tx)).1.2 !! name_digest name = Some rec.
Proof.
  intros Hb Hm Hm' [Hnow Hf] Hr. destruct (apply r (fst tx) tokens (snd tx)) as [[res r'] tokens'] eqn:Ea. cbn [fst snd].
  destruct (apply_cases _ _ _ _ _ _ _ Ea) as [->|(-> & _ & _)]; [|done].
  apply apply_inv in Ea as (new & Hp & _ & Ht & -> & _). unfold commit. cbn [records].
  destruct (decide (name_digest (op_name (op (fst tx))) = name_digest name)) as [E|Hne]; [|by rewrite lookup_insert_ne].
  apply (hash_labeled_inj msgs) in E; [|done..]. exfalso.
  pose proof (paid_verifies _ _ _ Ht) as Hv. apply (Hf E Hv). rewrite verify_account by done.
  eapply plan_owner; [exact Hp|]. unfold resolve. rewrite E, Hr, (proj2 (Z.leb_le _ _)) by done. done.
Qed.

Lemma foreign_history msgs l : ~ broken_on msgs -> forall r tokens name rec, names_hashed name l ⊆ msgs ->
  Forall (foreign name rec) l -> records r !! name_digest name = Some rec ->
  records (run r tokens l).1 !! name_digest name = Some rec.
Proof.
  intros Hb. induction l as [|tx l IH]; intros r tokens name rec Hm HF Hr; [done|]. apply Forall_cons in HF as [Ht HF].
  unfold names_hashed in *. rewrite !fmap_cons in Hm.
  pose proof (foreign_keeps msgs r tokens name rec tx Hb ltac:(set_solver) ltac:(set_solver) Ht Hr) as Hk. unfold run in *. cbn [fold_left].
  destruct (apply (r, tokens).1 tx.1 (r, tokens).2 tx.2) as [[res r'] tokens'] eqn:E. cbn [fst snd] in E. rewrite E in Hk.
  apply IH; [set_solver|done..].
Qed.

End names.

(** ** Claims *)

(** C34: a registered name belongs to its owner.  Take any history of name transactions, whatever they
    name, pay and register, in which no transaction on that name carries a verifying payment signed by
    its owner's key; up to the height at which it expires, the name keeps its owner, its target and its
    expiry, unless two of the names in the history and it have one digest.  (A payment does not name
    the operation it pays for, so one the owner signed counts as its consent to any operation on the
    name: [payment_authorises_any_operation].) *)
Theorem names_stay_with_their_owner `{Crypto} (r : NameRegistry) (tokens : Token.TokenLedger)
    (history : list (NameTx * Z)) (name : list Z) (rec : NameRecord) (now later : Z) :
  resolve r name now = Some rec -> Forall (foreign name rec) history -> later <= expiry rec ->
  resolve (run r tokens history).1 name later = Some rec \/ broken_on (names_hashed name history).
Proof.
  intros Hr HF Hl. unfold resolve in *. destruct (records r !! name_digest name) as [x|] eqn:E; [|done].
  case_match; [|done]. injection Hr as ->.
  apply unless_broken. intros Hb. rewrite (foreign_history _ history Hb r tokens name rec ltac:(done) HF E).
  by rewrite (proj2 (Z.leb_le _ _)).
Qed.

(** The payment does not name the operation.  Whoever sees a name transaction that would be
    applied can keep its payment and replace the operation: the same payment then hands any unexpired
    name of the payer to any account, and the replaced transaction decodes from its bytes. *)
Theorem payment_authorises_any_operation `{CryptoLaws} (r : NameRegistry) (tx : NameTx) (tokens : Token.TokenLedger)
    (now : Z) (r' : NameRegistry) (tokens' : Token.TokenLedger) (victim thief : list Z) (rec : NameRecord) :
  apply r tx tokens now = (Ok tt, r', tokens') -> Token.st_ok (payment tx) ->
  (MIN_NAME_LEN <= length victim <= MAX_NAME_LEN)%nat -> length thief = 32%nat ->
  resolve r victim now = Some rec -> owner rec = Token.t_from (Token.transfer (payment tx)) ->
  let stolen := mk_name_tx (Transfer victim thief) (payment tx) in
  tx_from_bytes (tx_to_bytes stolen) = Some stolen /\
  exists r'', apply r stolen tokens now = (Ok tt, r'', tokens') /\
    resolve r'' victim now = Some (mk_rec (r_name rec) thief (target rec) (expiry rec)).
Proof.
  intros Ha Hp Hv Ht Hr Ho stolen. split.
  { unfold tx_to_bytes. apply (tx_from_padded (Transfer victim thief) (payment tx) []); [|done].
    unfold op_ok, MAX_NAME_LEN in *. cbn [op_name]. split; [lia|done]. }
  apply apply_inv in Ha as (_ & _ & Hto & Hpay & _). unfold apply. cbn [op payment op_name stolen].
  rewrite !(proj2 (Nat.leb_le _ _)) by (unfold MIN_NAME_LEN, MAX_NAME_LEN in *; lia). cbn [andb negb].
  rewrite bool_decide_eq_false_2 by (intros Hc; by apply Hc). cbn [plan].
  rewrite (proj2 (owned_iff r victim _ now rec)) by done. cbn [rbind]. rewrite Hpay. eexists. split; [done|].
  rewrite commit_resolve, decide_True by done. cbn [expiry]. unfold resolve in Hr.
  destruct (records r !! _); [|done]. case_match eqn:El; [|done]. injection Hr as ->. by rewrite El.
Qed.

(** ** Witnesses *)

#[local] Existing Instance toy_crypto.

Definition w_alice : list Z := Token.w_alice.
Definition w_name : list Z := ascii_bytes "alice".
Definition w_rec : NameRecord := mk_rec w_name w_alice [2; 7] 50.
Definition w_registry : NameRegistry := put_record new w_rec.
Definition w_fee : Token.SignedTransfer :=
  Token.sign (Token.mk_transfer w_alice Ledger.TREASURY 1000 0) Token.w_key (verifier_of Token.w_key).
Definition w_tokens : Token.TokenLedger := Token.credit Token.new w_alice 5000.
Definition w_update : NameTx := mk_name_tx (Update w_name [0; 1]) w_fee.
Definition w_other_key : HybridSigSecret := @mk_secret toy_crypto false tt.
Definition w_bob : list Z := Token.account_id (verifier_of w_other_key).
Definition w_steal : NameTx := mk_name_tx (Transfer w_name w_bob)
  (Token.sign (Token.mk_transfer w_bob Ledger.TREASURY 0 0) w_other_key (verifier_of w_other_key)).

Lemma names_stay_with_their_owner_witness : resolve (run w_registry w_tokens [(w_steal, 20)]).1 w_name 50 = Some w_rec.
Proof.
  destruct (@names_stay_with_their_owner toy_crypto w_registry w_tokens [(w_steal, 20)] w_name w_rec 10 50) as [Hr|Hb].
  - vm_compute. reflexivity.
  - constructor; [|constructor]. split; [done|]. intros _ _ E. vm_compute in E. discriminate E.
  - done.
  - exact Hr.
  - exfalso. revert Hb. by_decide.
Defined.

Lemma payment_authorises_any_operation_witness :
  exists r'', apply w_registry (mk_name_tx (Transfer w_name w_bob) w_fee) w_tokens 10 =
      (Ok tt, r'', (apply w_registry w_update w_tokens 10).2) /\
    resolve r'' w_name 10 = Some (mk_rec w_name w_bob [2; 7] 50).
Proof.
  apply (@payment_authorises_any_operation toy_crypto toy_laws w_registry w_update w_tokens 10
    (apply w_registry w_update w_tokens 10).1.2 (apply w_registry w_update w_tokens 10).2 w_name w_bob w_rec).
  - vm_compute. reflexivity.
  - by_decide.
  - vm_compute. lia.
  - vm_compute. reflexivity.
  - vm_compute. reflexivity.
  - vm_compute. reflexivity.
Defined.

End Naming.
