(* ===== verification/Content.v ===== *)
(** * Stored content

    [fanos-thesauros/src/content.rs] (content ids over position-bound Merkle leaves, manifests) and
    [fanos-thesauros/src/object.rs] (sealing an object into addressed ciphertext chunks). *)
From S2P Require Import Prelude Codec Sig Kem Block Merkle.
Local Open Scope Z_scope.

Module Content.

Definition LEAF : Z := 4096.
Definition CHUNK : Z := 262144.
Definition LEAF_LABEL : string := "FANOS-v1/thesauros-leaf".

Abbreviation zlen := Block.zlen.

Definition div_ceil (a b : Z) : Z := (a + b - 1) / b.

(** [bytes.chunks(n)]: the pieces of [n] bytes, the last one possibly shorter. *)
Definition chunks (n : Z) (bytes : list Z) : list (list Z) :=
  (fun i => take (Z.to_nat n) (drop (Z.to_nat (i * n)) bytes)) <$> seqZ 0 (div_ceil (zlen bytes) n).

Definition leaf_count (chunk : list Z) : Z :=
  match chunk with [] => 1 | _ => div_ceil (zlen chunk) LEAF end.

Definition leaf (chunk : list Z) (index : nat) : option (list Z) :=
  match chunk with
  | [] => if (index =? 0)%nat then Some [] else None
  | _ => chunks LEAF chunk !! index
  end.

Record ChunkRef := mk_ref { cid : list Z; clen : Z }.
Record Manifest := mk_manifest { m_chunks : list ChunkRef }.
Record SealedObject := mk_sealed { manifest : Manifest; so_chunks : list (list Z) }.

Definition total_len (m : Manifest) : Z := w64 (foldr (fun c acc => clen c + acc) 0 (m_chunks m)).

Definition ref_bytes (c : ChunkRef) : list Z := cid c ++ le_bytes 4 (clen c).

Definition encode (m : Manifest) : list Z :=
  le_bytes 4 (u32_sat (length (m_chunks m))) ++ concat (ref_bytes <$> m_chunks m).

Definition read_ref (entry : list Z) : option ChunkRef :=
  letO c := slice 0 32 entry in
  letO l := slice 32 36 entry in
  Some (mk_ref c (from_le l)).

Definition decode (bytes : list Z) : option Manifest :=
  letO c := slice 0 4 bytes in
  let count := from_le c in
  letO body := slice_from 4 bytes in
  if negb (zlen body =? count * 36) then None else
  letO refs := mapM read_ref (chunks 36 body) in
  Some (mk_manifest refs).

(** The index in the first eight bytes of the nonce. *)
Definition nonce (index : nat) : list Z := le_bytes 8 (Z.of_nat index) ++ replicate 4 0.

Section content.
  Context `{Crypto}.

Definition leaf_hash (index : nat) (bytes : list Z) : list Z :=
  hash_labeled LEAF_LABEL (le_bytes 8 (Z.of_nat index) ++ bytes).

Definition leaf_hashes (chunk : list Z) : list (list Z) :=
  match chunk with
  | [] => [leaf_hash 0 []]
  | _ => imap leaf_hash (chunks LEAF chunk)
  end.

Definition merkle_root (leaves : list (list Z)) : list Z := default Merkle.empty_root (Merkle.root leaves).

Definition chunk_cid (chunk : list Z) : list Z := merkle_root (leaf_hashes chunk).

Definition merkle_proof (chunk : list Z) (index : nat) : option (list (list Z)) := Merkle.prove (leaf_hashes chunk) index.

Definition prove_leaf (chunk : list Z) (index : nat) : option (list Z * list (list Z)) :=
  letO proof := merkle_proof chunk index in
  letO bytes := leaf chunk index in
  Some (bytes, proof).

Definition verify_leaf (cid : list Z) (index : nat) (leaf_bytes : list Z) (proof : list (list Z)) (leaves : Z) : bool :=
  Merkle.verify (leaf_hash index leaf_bytes) (Z.of_nat index) proof cid leaves.

(** [Manifest::of]. *)
Definition manifest_of (object : list Z) : Manifest :=
  mk_manifest ((fun c => mk_ref (chunk_cid c) (u32_sat (length c))) <$> chunks CHUNK object).

Definition manifest_cid (m : Manifest) : list Z := chunk_cid (encode m).

Section object.
  Context `{KemCrypto}.

(** The loop of [seal_object] from chunk [i] on. *)
Fixpoint seal_chunks (key : list Z) (i : nat) (l : list (list Z)) : option (list ChunkRef * list (list Z)) :=
  match l with
  | [] => Some ([], [])
  | plain :: l =>
      letO sealed := Kem.aead_seal key (nonce i) plain in
      letO (refs, cs) := seal_chunks key (S i) l in
      Some (mk_ref (chunk_cid sealed) (u32_sat (length sealed)) :: refs, sealed :: cs)
  end.

Definition seal_object (object key : list Z) : option SealedObject :=
  letO (refs, cs) := seal_chunks key 0 (chunks CHUNK object) in
  Some (mk_sealed (mk_manifest refs) cs).

Fixpoint open_chunks (key : list Z) (i : nat) (l : list (ChunkRef * list Z)) : option (list Z) :=
  match l with
  | [] => Some []
  | (entry, sealed) :: l =>
      if bool_decide (chunk_cid sealed <> cid entry) then None else
      letO plain := Kem.aead_open key (nonce i) sealed in
      letO rest := open_chunks key (S i) l in
      Some (plain ++ rest)
  end.

Definition open_object (manifest : Manifest) (sealed_chunks : list (list Z)) (key : list Z) : option (list Z) :=
  if negb (length sealed_chunks =? length (m_chunks manifest))%nat then None else
  open_chunks key 0 (zip (m_chunks manifest) sealed_chunks).

End object.
End content.

(** ** Pieces *)

Lemma length_chunks n bytes : length (chunks n bytes) = Z.to_nat (div_ceil (zlen bytes) n).
Proof. unfold chunks. by rewrite length_fmap, length_seqZ. Qed.

Lemma div_ceil_bounds a b : 0 < b -> 0 <= a ->
  0 <= div_ceil a b /\ b * (div_ceil a b - 1) < a /\ a <= b * div_ceil a b.
Proof.
  intros Hb Ha. unfold div_ceil. pose proof (Z.div_mod (a + b - 1) b ltac:(lia)). pose proof (Z.mod_pos_bound (a + b - 1) b Hb).
  pose proof (Z.div_pos (a + b - 1) b ltac:(lia) Hb). split; [done|]. split; nia.
Qed.

Lemma concat_pieces (n : nat) (k : nat) : forall (bytes : list Z) (s : nat),
  (length bytes <= (s + k) * n)%nat ->
  concat ((fun i => take n (drop (i * n) bytes)) <$> seq s k) = drop (s * n) bytes.
Proof.
  induction k as [|k IH]; intros bytes s Hl; cbn [seq fmap list_fmap concat].
  - rewrite drop_ge by lia. done.
  - rewrite IH by lia. replace (S s * n)%nat with (s * n + n)%nat by lia.
    rewrite <- drop_drop. apply take_drop.
Qed.

Lemma concat_chunks n bytes : 0 < n -> concat (chunks n bytes) = bytes.
Proof.
  intros Hn. unfold chunks. set (k := div_ceil (zlen bytes) n).
  destruct (div_ceil_bounds (zlen bytes) n Hn) as (Hk & _ & Hle); [unfold Block.zlen; lia|]. fold k in Hk, Hle.
  transitivity (drop (0 * Z.to_nat n) bytes); [|done].
  rewrite <- (concat_pieces (Z.to_nat n) (Z.to_nat k) bytes 0).
  - unfold seqZ. rewrite <- list_fmap_compose. f_equal. apply list_fmap_ext. intros i x _. simpl.
    do 2 f_equal. unfold k in *. nia.
  - unfold Block.zlen in *. nia.
Qed.

Lemma lookup_chunks n bytes i c : 0 < n -> chunks n bytes !! i = Some c ->
  c = take (Z.to_nat n) (drop (i * Z.to_nat n) bytes) /\ (i * Z.to_nat n < length bytes)%nat.
Proof.
  intros Hn Hc. pose proof (lookup_lt_Some _ _ _ Hc) as Hi. rewrite length_chunks in Hi. unfold chunks in Hc.
  rewrite list_lookup_fmap in Hc. apply fmap_Some in Hc as (z & Hz & ->). apply lookup_seqZ in Hz as [-> Hz].
  destruct (div_ceil_bounds (zlen bytes) n Hn) as (Hk & Hlo & _); [unfold Block.zlen; lia|]. split.
  - f_equal. f_equal. nia.
  - unfold Block.zlen in *. nia.
Qed.

Section leaves.
  Context `{CryptoLaws}.

Lemma length_leaf_hashes chunk : Z.of_nat (length (leaf_hashes chunk)) = leaf_count chunk.
Proof.
  destruct chunk as [|b l]; [done|]. cbn [leaf_hashes leaf_count]. rewrite length_imap, length_chunks.
  rewrite Z2Nat.id; [done|]. apply div_ceil_bounds; [done|]. unfold Block.zlen. lia.
Qed.

Lemma leaf_hashes_width chunk : Forall (fun h => length h = 32%nat) (leaf_hashes chunk).
Proof.
  destruct chunk as [|b l]; [repeat constructor; apply hash_labeled_length|]. cbn [leaf_hashes].
  apply Forall_lookup. intros i h Hi. rewrite list_lookup_imap in Hi. apply fmap_Some in Hi as (x & _ & ->).
  apply hash_labeled_length.
Qed.

Lemma leaf_hashes_lookup chunk i : leaf_hashes chunk !! i = leaf_hash i <$> leaf chunk i.
Proof.
  destruct chunk as [|b l]; [by destruct i|]. cbn [leaf_hashes leaf]. apply list_lookup_imap.
Qed.

(** The messages the id of a chunk and the check of a leaf hash. *)
Definition leaves_of (chunk : list Z) : list (list Z) := match chunk with [] => [[]] | _ => chunks LEAF chunk end.

Definition leaf_hashed (index : nat) (bytes : list Z) : list Z :=
  labeled_hasher LEAF_LABEL (le_bytes 8 (Z.of_nat index) ++ bytes).

Definition chunk_hashed (chunk : list Z) : list (list Z) :=
  imap leaf_hashed (leaves_of chunk) ++ Merkle.root_hashed (leaf_hashes chunk).

Definition verify_leaf_hashed (index : nat) (bytes : list Z) (proof : list (list Z)) (leaves : Z) : list (list Z) :=
  leaf_hashed index bytes :: Merkle.verify_hashed (leaf_hash index bytes) (Z.of_nat index) proof leaves.

Lemma leaf_hashes_of chunk : leaf_hashes chunk = imap leaf_hash (leaves_of chunk).
Proof. by destruct chunk. Qed.

Lemma leaf_hashed_in chunk i b : leaf chunk i = Some b -> leaf_hashed i b ∈ chunk_hashed chunk.
Proof.
  intros Hb. apply elem_of_app. left. apply list_elem_of_lookup. exists i. rewrite list_lookup_imap.
  replace (leaves_of chunk !! i) with (leaf chunk i) by (destruct chunk; [by destruct i|done]). by rewrite Hb.
Qed.

  Context (msgs : list (list Z)) (Hintact : ~ broken_on msgs).

Lemma leaf_hash_inj i b b' : leaf_hashed i b ∈ msgs -> leaf_hashed i b' ∈ msgs -> leaf_hash i b = leaf_hash i b' -> b = b'.
Proof. intros Hb Hb' E. apply (hash_labeled_inj msgs) in E; [|done..]. by apply app_inv_head in E. Qed.

(** A chunk small enough for a tree: its id is a real root. *)
Lemma cid_is_root chunk : leaf_count chunk <= Merkle.MAX_LEAVES -> Merkle.root (leaf_hashes chunk) = Some (chunk_cid chunk).
Proof.
  intros Hl. unfold chunk_cid, merkle_root, Merkle.root. rewrite length_leaf_hashes, (proj2 (Z.ltb_ge _ _)) by done.
  by case_match.
Qed.

(** A leaf that verifies under a chunk's id and leaf count is the leaf at that place. *)
Lemma verify_leaf_sound chunk index bytes proof leaves : leaf_count chunk <= Merkle.MAX_LEAVES ->
  Forall (fun h => length h = 32%nat) proof -> is_u64 (Z.of_nat index) -> is_u64 leaves ->
  chunk_hashed chunk ⊆ msgs -> verify_leaf_hashed index bytes proof leaves ⊆ msgs ->
  verify_leaf (chunk_cid chunk) index bytes proof leaves = true ->
  leaves = leaf_count chunk /\ leaf chunk index = Some bytes.
Proof.
  intros Hl Hp Hi Hc Hmc Hmv Hv. unfold verify_leaf in Hv. pose proof Hmc as Hmr.
  apply list_subseteq_cons_iff in Hmv as [Hmb Hmv]. apply list_subseteq_app_iff_l in Hmr as [_ Hmr].
  eapply (Merkle.verify_sound msgs Hintact (leaf_hashes chunk)) in Hv as [Hn Hlk];
    [|by apply cid_is_root|apply leaf_hashes_width|apply hash_labeled_length|done|apply Hi|done|done|done].
  rewrite length_leaf_hashes in Hn. rewrite Nat2Z.id, leaf_hashes_lookup in Hlk.
  apply fmap_Some in Hlk as (b & Hb & E). apply leaf_hash_inj in E as ->; [done|done|]. by apply Hmc, leaf_hashed_in.
Qed.

Lemma prove_leaf_verifies chunk index bytes : leaf_count chunk <= Merkle.MAX_LEAVES -> leaf chunk index = Some bytes ->
  exists proof, prove_leaf chunk index = Some (bytes, proof) /\
    verify_leaf (chunk_cid chunk) index bytes proof (leaf_count chunk) = true.
Proof.
  intros Hl Hb. destruct (Merkle.verify_prove (leaf_hashes chunk) (chunk_cid chunk) index (leaf_hash index bytes)) as (p & Hp & Hv).
  - by apply cid_is_root.
  - rewrite leaf_hashes_lookup, Hb. done.
  - exists p. unfold prove_leaf, merkle_proof. rewrite Hp, Hb. split; [done|]. rewrite length_leaf_hashes in Hv. exact Hv.
Qed.

(** Two lists with one root are one list. *)
Lemma root_inj (l l' : list (list Z)) r : Merkle.root l = Some r -> Merkle.root l' = Some r ->
  Forall (fun h => length h = 32%nat) l -> Forall (fun h => length h = 32%nat) l' -> l' <> [] ->
  Merkle.root_hashed l ⊆ msgs -> Merkle.root_hashed l' ⊆ msgs -> l = l'.
Proof.
  intros Hr Hr' Hw Hw' Hne Hm Hm'. pose proof (Merkle.root_some _ _ Hr') as [Hc' _]. unfold Merkle.MAX_LEAVES in Hc'.
  assert (Hall : forall i x, l' !! i = Some x -> length l = length l' /\ l !! i = Some x).
  { intros i x Hx. pose proof (lookup_lt_Some _ _ _ Hx).
    destruct (Merkle.verify_prove l' r i x Hr' Hx) as (p & Hp & Hv).
    apply (Merkle.verify_sound msgs Hintact l) in Hv as [Hn Hl]; [|done|done| |by eapply Merkle.prove_width|lia|unfold in_u; lia|done|].
    - rewrite Nat2Z.id in Hl. split; [lia|done].
    - rewrite Forall_lookup in Hw'. by eapply Hw'.
    - etrans; [by eapply Merkle.prove_hashed|done]. }
  destruct l' as [|x0 l'']; [done|]. destruct (Hall 0%nat x0 eq_refl) as [Hlen _].
  apply list_eq. intros i. destruct ((x0 :: l'') !! i) as [x|] eqn:Ex; [by apply Hall|].
  apply lookup_ge_None in Ex. apply lookup_ge_None. lia.
Qed.

Lemma concat_leaves chunk : concat (leaves_of chunk) = chunk.
Proof. destruct chunk; [done|]. by apply concat_chunks. Qed.

Lemma imap_leaf_inj l l' : imap leaf_hashed l ⊆ msgs -> imap leaf_hashed l' ⊆ msgs ->
  imap leaf_hash l = imap leaf_hash l' -> l = l'.
Proof.
  intros Hl Hl' E. assert (Hlen : length l = length l') by (by rewrite <- (length_imap leaf_hash l), E, length_imap).
  assert (Hin : forall ls i b, imap leaf_hashed ls ⊆ msgs -> ls !! i = Some b -> leaf_hashed i b ∈ msgs).
  { intros ls i b Hs Hb. apply Hs, list_elem_of_lookup. exists i. by rewrite list_lookup_imap, Hb. }
  apply list_eq. intros i. destruct (l !! i) as [b|] eqn:Eb.
  - destruct (lookup_lt_is_Some_2 l' i) as [b' Eb']; [apply lookup_lt_Some in Eb; lia|].
    pose proof (f_equal (fun x => x !! i) E) as Ei. cbv beta in Ei. rewrite !list_lookup_imap, Eb, Eb' in Ei. apply (inj Some) in Ei.
    rewrite (leaf_hash_inj i b b'); eauto.
  - symmetry. apply lookup_ge_None in Eb. apply lookup_ge_None. lia.
Qed.

(** A content id names one content. *)
Lemma chunk_cid_inj c c' : leaf_count c <= Merkle.MAX_LEAVES -> leaf_count c' <= Merkle.MAX_LEAVES ->
  chunk_hashed c ⊆ msgs -> chunk_hashed c' ⊆ msgs -> chunk_cid c = chunk_cid c' -> c = c'.
Proof.
  intros Hc Hc' [Hml Hmr]%list_subseteq_app_iff_l [Hml' Hmr']%list_subseteq_app_iff_l E.
  assert (El : leaf_hashes c = leaf_hashes c'); [apply (root_inj _ _ (chunk_cid c)); try done|].
  - by apply cid_is_root.
  - rewrite E. by apply cid_is_root.
  - apply leaf_hashes_width.
  - apply leaf_hashes_width.
  - intros En. pose proof (length_leaf_hashes c') as Hl. rewrite En in Hl. destruct c' as [|b l]; [done|]. cbn [leaf_count length] in Hl.
    destruct (div_ceil_bounds (zlen (b :: l)) LEAF) as (_ & _ & Hle); [done|unfold Block.zlen; lia|].
    unfold Block.zlen in *. cbn [length] in *. unfold LEAF in *. lia.
  - rewrite !leaf_hashes_of in El. apply imap_leaf_inj in El; [|done..]. by rewrite <- (concat_leaves c), El, concat_leaves.
Qed.

Lemma small_leaf_count c : zlen c < 2 ^ 32 -> leaf_count c <= Merkle.MAX_LEAVES.
Proof.
  intros Hc. unfold Merkle.MAX_LEAVES. destruct c as [|b l]; [done|]. cbn [leaf_count].
  destruct (div_ceil_bounds (zlen (b :: l)) LEAF) as (_ & Hlo & _); [done|unfold Block.zlen; lia|]. unfold LEAF in *. lia.
Qed.

End leaves.

(** ** Manifests *)

Definition ref_ok (c : ChunkRef) : Prop := length (cid c) = 32%nat /\ is_u32 (clen c).

Lemma take_pieces {A} (enc : A -> list Z) (n : nat) l : Forall (fun x => length (enc x) = n) l ->
  (fun i => take n (drop (i * n) (concat (enc <$> l)))) <$> seq 0 (length l) = enc <$> l.
Proof.
  intros HF. apply list_eq. intros i. rewrite !list_lookup_fmap.
  destruct (l !! i) as [x|] eqn:Ex.
  - pose proof (lookup_lt_Some _ _ _ Ex). rewrite lookup_seq_lt by done. simpl. f_equal.
    rewrite <- (take_drop_middle l i x Ex), fmap_app, concat_app. rewrite <- (take_drop i l) in HF at 1.
    apply Forall_app in HF as [HF1 HF2]. rewrite (drop_S _ _ _ Ex) in HF2. apply Forall_cons in HF2 as [Hx _].
    assert (Hlen : length (concat (enc <$> take i l)) = (i * n)%nat).
    { assert (Hti : length (take i l) = i) by (rewrite length_take; lia). rewrite <- Hti at 2.
      clear -HF1. induction HF1 as [|y k Hy _ IH]; [done|]. csimpl. rewrite length_app, IH, Hy. lia. }
    rewrite drop_app_length' by done. csimpl. rewrite take_app_length' by done. done.
  - apply lookup_ge_None in Ex. rewrite lookup_seq_ge by lia. done.
Qed.

Lemma manifest_decode_encode m : Forall ref_ok (m_chunks m) -> Z.of_nat (length (m_chunks m)) < 2 ^ 32 -> decode (encode m) = Some m.
Proof.
  intros HF Hl. unfold decode, encode. rewrite u32_sat_small by done.
  rewrite slice_prefix by apply length_le_bytes. rewrite slice_from_app by apply length_le_bytes.
  rewrite from_le_id by (unfold in_u; lia).
  assert (HF36 : Forall (fun c => length (ref_bytes c) = 36%nat) (m_chunks m)).
  { eapply Forall_impl; [exact HF|]. intros c [Hc _]. unfold ref_bytes. rewrite length_app, length_le_bytes. lia. }
  assert (Hz : zlen (concat (ref_bytes <$> m_chunks m)) = Z.of_nat (length (m_chunks m)) * 36).
  { unfold Block.zlen. clear -HF36. induction HF36 as [|c l Hc _ IH]; [done|]. csimpl. rewrite length_app, Hc. cbn [length]. lia. }
  rewrite Hz, Z.eqb_refl. cbn [negb].
  assert (Ec : chunks 36 (concat (ref_bytes <$> m_chunks m)) = ref_bytes <$> m_chunks m).
  { unfold chunks. rewrite Hz. assert (Ed : div_ceil (Z.of_nat (length (m_chunks m)) * 36) 36 = Z.of_nat (length (m_chunks m))).
    { unfold div_ceil. replace (Z.of_nat (length (m_chunks m)) * 36 + 36 - 1) with (35 + Z.of_nat (length (m_chunks m)) * 36) by lia.
      rewrite Z.div_add by lia. done. }
    rewrite Ed. unfold seqZ. rewrite Nat2Z.id, <- list_fmap_compose.
    etrans; [|apply (take_pieces ref_bytes 36 _ HF36)]. apply list_fmap_ext. intros i x _. simpl. do 2 f_equal. lia. }
  rewrite Ec. assert (Em : mapM read_ref (ref_bytes <$> m_chunks m) = Some (m_chunks m)); [|rewrite Em; by destruct m].
  apply mapM_Some. clear -HF. induction HF as [|c l [Hc Hn] _ IH]; constructor; [|done].
  unfold read_ref, ref_bytes. rewrite slice_prefix by done.
  rewrite <- (app_nil_r (cid c ++ _)), <- app_assoc, slice_mid by (rewrite ?length_le_bytes; done).
  rewrite from_le_id by done. by destruct c.
Qed.

(** ** Sealed objects *)

Section sealing.
  Context `{CryptoLaws} `{KemLaws}.

Lemma open_seal_chunks key l : forall i refs cs, seal_chunks key i l = Some (refs, cs) ->
  open_chunks key i (zip refs cs) = Some (concat l) /\ length refs = length l /\ length cs = length l.
Proof.
  induction l as [|p l IH]; intros i refs cs; cbn [seal_chunks]; [by intros [= <- <-]|].
  destruct (Kem.aead_seal key (nonce i) p) as [sealed|] eqn:Es; [|done].
  destruct (seal_chunks key (S i) l) as [[rs ss]|] eqn:Er; [|done]. intros [= <- <-].
  destruct (IH _ _ _ Er) as (Ho & L1 & L2). cbn [zip zip_with open_chunks cid length]. rewrite bool_decide_eq_false_2 by (by intros []).
  unfold Kem.aead_open. rewrite (chacha_roundtrip _ _ _ _ Es). fold (zip rs ss). rewrite Ho. cbn [concat]. auto.
Qed.

(** What opens under a manifest was the sealed chunk at that place. *)
Lemma open_inv key l : forall i refs cs, length cs = length refs -> open_chunks key i (zip refs cs) = Some l ->
  Forall2 (fun r c => chunk_cid c = cid r) refs cs.
Proof.
  intros i refs. revert i l. induction refs as [|r refs IH]; intros i l [|c cs] Hl; try done. cbn [zip zip_with open_chunks].
  case_bool_decide as E; [done|]. destruct (Kem.aead_open _ _ _); [|done]. fold (zip refs cs).
  destruct (open_chunks key (S i) (zip refs cs)) as [rest|] eqn:Er; [|done]. intros _. constructor; [done|].
  eapply IH; [|exact Er]. simpl in Hl. lia.
Qed.

Lemma seal_lookup key l : forall i refs cs k c, seal_chunks key i l = Some (refs, cs) -> cs !! k = Some c ->
  exists p, l !! k = Some p /\ length c = (length p + 16)%nat.
Proof.
  induction l as [|p l IH]; intros i refs cs k c; cbn [seal_chunks]; [by intros [= <- <-]|].
  destruct (Kem.aead_seal key (nonce i) p) as [sealed|] eqn:Es; [|done].
  destruct (seal_chunks key (S i) l) as [[rs ss]|] eqn:Er; [|done]. intros [= <- <-]. destruct k as [|k]; simpl.
  - intros [= <-]. exists p. split; [done|]. by eapply chacha_length.
  - intros Hk. by eapply IH.
Qed.

End sealing.

Lemma sealed_small `{CryptoLaws} `{KemLaws} object key refs cs : seal_chunks key 0 (chunks CHUNK object) = Some (refs, cs) ->
  Forall (fun c => zlen c <= CHUNK + 16) cs.
Proof.
  intros E. apply Forall_lookup. intros i c Hc. destruct (seal_lookup key _ _ _ _ _ _ E Hc) as (p & Hp & Hl).
  apply lookup_chunks in Hp as [-> _]; [|done]. unfold Block.zlen. rewrite Hl, length_take. unfold CHUNK. lia.
Qed.

Lemma same_chunks `{CryptoLaws} msgs (refs : list ChunkRef) (cs other : list (list Z)) : ~ broken_on msgs ->
  (cs ++ other) ≫= chunk_hashed ⊆ msgs ->
  Forall2 (fun r c => chunk_cid c = cid r) refs cs -> Forall2 (fun r c => chunk_cid c = cid r) refs other ->
  Forall (fun c => zlen c < 2 ^ 32) cs -> Forall (fun c => zlen c < 2 ^ 32) other -> cs = other.
Proof.
  intros Hb Hm HF. revert other Hm. induction HF as [|r c refs cs Hc _ IH]; intros other Hm HF' Hs Ho; inversion HF'; subst; [done|].
  apply Forall_cons in Hs as [? ?]. apply Forall_cons in Ho as [? ?]. rewrite bind_app, !bind_cons in Hm.
  rewrite (chunk_cid_inj msgs Hb c y); [|by apply small_leaf_count..|set_solver|set_solver|congruence].
  f_equal. apply IH; [rewrite bind_app; set_solver|done..].
Qed.

(** A sealed object comes back, and nothing else does.  Sealing splits any object into addressed
    ciphertexts that open under the same key to the object, byte for byte; and whatever a store
    returns in their place, if it opens under the manifest then it is the sealed chunks and yields
    the object, unless the leaves and nodes of the two lists of chunks hold a collision. *)
Theorem sealed_object_roundtrip `{CryptoLaws} `{KemLaws} (object key : list Z) (s : SealedObject) :
  seal_object object key = Some s ->
  open_object (manifest s) (so_chunks s) key = Some object /\
  forall other key' plain, Forall (fun c => zlen c < 2 ^ 32) other -> open_object (manifest s) other key' = Some plain ->
    (other = so_chunks s /\ (key' = key -> plain = object)) \/
    broken_on ((so_chunks s ++ other) ≫= chunk_hashed).
Proof.
  intros Hs. unfold seal_object in Hs. destruct (seal_chunks key 0 (chunks CHUNK object)) as [[refs cs]|] eqn:E; [|done].
  injection Hs as <-. destruct (open_seal_chunks key _ _ _ _ E) as (Ho & L1 & L2). unfold open_object. cbn [manifest so_chunks m_chunks].
  rewrite L1, L2, Nat.eqb_refl. cbn [negb]. rewrite concat_chunks in Ho by done. split; [done|].
  intros other key' plain Hsm. destruct (Nat.eqb_spec (length other) (length (chunks CHUNK object))) as [El|]; [|done].
  cbn [negb]. intros Hp. apply unless_broken. intros Hb.
  assert (Hsame : cs = other); [apply (same_chunks _ refs cs other Hb)|subst other].
  - done.
  - eapply open_inv; [congruence|exact Ho].
  - eapply open_inv; [congruence|exact Hp].
  - eapply Forall_impl; [by eapply sealed_small|]. intros c Hc. unfold CHUNK in Hc. cbv beta in Hc. lia.
  - done.
  - split; [done|]. intros ->. congruence.
Qed.

Lemma sealed_object_roundtrip_witness :
  @open_object toy_crypto Kem.toy_kem (manifest (default (mk_sealed (mk_manifest []) []) (@seal_object toy_crypto Kem.toy_kem [1; 2; 3] (replicate 32 9))))
    (so_chunks (default (mk_sealed (mk_manifest []) []) (@seal_object toy_crypto Kem.toy_kem [1; 2; 3] (replicate 32 9)))) (replicate 32 9)
  = Some [1; 2; 3].
Proof.
  destruct (@seal_object toy_crypto Kem.toy_kem [1; 2; 3] (replicate 32 9)) as [s|] eqn:E; [|vm_compute in E; discriminate E].
  cbn [default]. exact (proj1 (@sealed_object_roundtrip toy_crypto toy_laws Kem.toy_kem Kem.toy_kem_laws [1; 2; 3] (replicate 32 9) s E)).
Defined.

End Content.
