(* ===== verification/Por.v ===== *)
(** * Proofs of retrievability

    [fanos-thesauros/src/por.rs]: the audit a storage provider answers — the leaves a beacon selects,
    the response that opens them against the content id, its verification and its bytes. *)
From stdpp Require Import sorting.
From S2P Require Import Prelude Codec Sig Kem Block Merkle Content.
Local Open Scope Z_scope.

Module Por.

Definition CHALLENGE_LABEL : string := "FANOS-v1/thesauros-challenge".
Definition DRAW_LABEL : string := "FANOS-v1/thesauros-draw".
Definition MAX_AUDIT_LEAVES : Z := 2 ^ 20.
Definition MIN_LEAFPROOF_LEN : nat := 4 + 4 + 2.

Record LeafProof := mk_leaf { index : nat; bytes : list Z; path : list (list Z) }.

(** [chosen.into_iter()] of the ordered set. *)
Definition sorted (s : gset Z) : list Z := merge_sort Z.le (elements s).

(** [u16::try_from(n).unwrap_or(u16::MAX)]. *)
Definition u16_sat (n : nat) : Z := Z.min (Z.of_nat n) (2 ^ 16 - 1).

Definition encode_leaf_proof (lp : LeafProof) : list Z :=
  le_bytes 4 (u32_sat (index lp)) ++ le_bytes 4 (u32_sat (length (bytes lp))) ++ bytes lp ++
  le_bytes 2 (u16_sat (length (path lp))) ++ concat (path lp).

Definition encode_response (response : list LeafProof) : list Z :=
  le_bytes 4 (u32_sat (length response)) ++ concat (encode_leaf_proof <$> response).

(** The siblings, and where they end. *)
Fixpoint read_path (steps off : nat) (b : list Z) : option (list (list Z) * nat) :=
  match steps with
  | O => Some ([], off)
  | S steps =>
      letO s := slice off (off + 32) b in
      letO (rest, off) := read_path steps (off + 32) b in
      Some (s :: rest, off)
  end.

Definition decode_leaf_proof (b : list Z) : option (LeafProof * list Z) :=
  letO i := slice 0 4 b in
  letO l := slice 4 8 b in
  let leaf_end := (8 + Z.to_nat (from_le l))%nat in
  letO leaf_bytes := slice 8 leaf_end b in
  letO st := slice leaf_end (leaf_end + 2) b in
  letO (path, off) := read_path (Z.to_nat (from_le st)) (leaf_end + 2) b in
  letO rest := slice_from off b in
  Some (mk_leaf (Z.to_nat (from_le i)) leaf_bytes path, rest).

Fixpoint read_proofs (count : nat) (rest : list Z) : option (list LeafProof * list Z) :=
  match count with
  | O => Some ([], rest)
  | S count =>
      letO (lp, tail) := decode_leaf_proof rest in
      letO (lps, rest) := read_proofs count tail in
      Some (lp :: lps, rest)
  end.

Definition decode_response (b : list Z) : option (list LeafProof) :=
  letO c := slice 0 4 b in
  let count := from_le c in
  if Z.of_nat ((length b - 4) / MIN_LEAFPROOF_LEN) <? count then None else
  letO rest := slice_from 4 b in
  letO (response, rest) := read_proofs (Z.to_nat count) rest in
  match rest with [] => Some response | _ => None end.

Section por.
  Context `{Crypto}.

Definition challenge_seed (chunk beacon : list Z) : list Z := hash_labeled CHALLENGE_LABEL (chunk ++ beacon).

Definition draw (seed : list Z) (counter m : Z) : Z :=
  from_le (take 8 (hash_labeled DRAW_LABEL (seed ++ le_bytes 8 counter))) mod m.

(** [while chosen.len() < k]: nothing in the code bounds the number of draws. *)
Fixpoint draw_loop (fuel : nat) (seed : list Z) (k m counter : Z) (chosen : gset Z) : option (gset Z) :=
  if k <=? Z.of_nat (size chosen) then Some chosen else
  match fuel with
  | O => None
  | S fuel => draw_loop fuel seed k m (sat_add 64 counter 1) ({[draw seed counter m]} ∪ chosen)
  end.

Definition challenge (fuel : nat) (chunk beacon : list Z) (k leaves : Z) : option (list Z) :=
  let leaves := Z.min leaves MAX_AUDIT_LEAVES in
  let k := Z.min k leaves in
  if leaves =? 0 then Some [] else
  if leaves <=? k then Some (seqZ 0 leaves) else
  letO chosen := draw_loop fuel (challenge_seed chunk beacon) k leaves 0 ∅ in
  Some (sorted chosen).

Definition prove (chunk : list Z) (indices : list Z) : option (list LeafProof) :=
  mapM (fun i => letO (b, p) := Content.prove_leaf chunk (Z.to_nat i) in Some (mk_leaf (Z.to_nat i) b p)) indices.

(** The loop over the response and the expected indices. *)
Definition answers (chunk : list Z) (leaves : Z) (response : list LeafProof) (expected : list Z) : bool :=
  forallb (fun le => (Z.of_nat (index (fst le)) =? snd le) &&
    Content.verify_leaf chunk (Z.to_nat (snd le)) (bytes (fst le)) (path (fst le)) leaves) (zip response expected).

Definition verify (fuel : nat) (chunk beacon : list Z) (k leaves : Z) (response : list LeafProof) : option bool :=
  letO expected := challenge fuel chunk beacon k leaves in
  if negb (length response =? length expected)%nat then Some false
  else Some (answers chunk leaves response expected).

(** ** The draws *)

Lemma draw_loop_mono fuel : forall fuel' seed k m c s r, (fuel <= fuel')%nat ->
  draw_loop fuel seed k m c s = Some r -> draw_loop fuel' seed k m c s = Some r.
Proof.
  induction fuel as [|fuel IH]; intros fuel' seed k m c s r Hle; destruct fuel' as [|fuel']; simpl; case_match; try done.
  - lia.
  - apply IH. lia.
Qed.

(** The values of the first draws from [counter] on. *)
Fixpoint drawn (n : nat) (seed : list Z) (m counter : Z) : gset Z :=
  match n with O => ∅ | S n => {[draw seed counter m]} ∪ drawn n seed m (sat_add 64 counter 1) end.

(** As many draws as it takes for [k] different values are fuel enough. *)
Lemma draw_loop_enough n : forall seed k m c s, k <= Z.of_nat (size (drawn n seed m c ∪ s)) ->
  exists r, draw_loop n seed k m c s = Some r.
Proof.
  induction n as [|n IH]; intros seed k m c s Hk; cbn [drawn draw_loop] in *.
  - rewrite left_id_L in Hk by apply _. rewrite (proj2 (Z.leb_le _ _)) by done. by eexists.
  - case_match; [by eexists|]. apply IH. replace (_ ∪ ({[_]} ∪ s)) with ({[draw seed c m]} ∪ drawn n seed m (sat_add 64 c 1) ∪ s) by set_solver.
    done.
Qed.

Lemma draw_range seed c m : 0 < m -> 0 <= draw seed c m < m.
Proof. intros. by apply Z.mod_pos_bound. Qed.

Lemma draw_loop_spec fuel : forall seed k m c s r, 0 < m -> (forall x, x ∈ s -> 0 <= x < m) -> Z.of_nat (size s) <= k ->
  draw_loop fuel seed k m c s = Some r -> (forall x, x ∈ r -> 0 <= x < m) /\ Z.of_nat (size r) = k.
Proof.
  induction fuel as [|fuel IH]; intros seed k m c s r Hm Hs Hk; cbn [draw_loop]; destruct (Z.leb_spec k (Z.of_nat (size s)));
    try done; try (intros [= <-]; split; [done|lia]).
  apply IH; [done| |].
  - intros x [->%elem_of_singleton|Hx]%elem_of_union; [by apply draw_range|by apply Hs].
  - pose proof (size_union_alt ({[draw seed c m]} : gset Z) s). pose proof (size_singleton (C := gset Z) (draw seed c m)).
    assert (size (s ∖ {[draw seed c m]}) <= size s)%nat by (apply subseteq_size; set_solver). lia.
Qed.

Lemma sorted_elem (s : gset Z) x : x ∈ sorted s <-> x ∈ s.
Proof. unfold sorted. rewrite merge_sort_Permutation. apply elem_of_elements. Qed.

Lemma sorted_length (s : gset Z) : length (sorted s) = size s.
Proof. unfold sorted. rewrite merge_sort_Permutation. done. Qed.

Lemma sorted_NoDup (s : gset Z) : base.NoDup (sorted s).
Proof. unfold sorted. rewrite merge_sort_Permutation. apply NoDup_elements. Qed.

(** What a challenge is: [k] different indices below the leaf count, or all of them. *)
Lemma challenge_spec fuel chunk beacon k leaves l : 0 <= k -> 0 <= leaves <= MAX_AUDIT_LEAVES ->
  challenge fuel chunk beacon k leaves = Some l ->
  base.NoDup l /\ (forall x, x ∈ l -> 0 <= x < leaves) /\ Z.of_nat (length l) = Z.min k leaves.
Proof.
  intros Hk Hl. unfold challenge. cbv zeta. rewrite (Z.min_l leaves) by lia.
  destruct (Z.eqb_spec leaves 0) as [->|Hne].
  - intros [= <-]. split; [constructor|]. split; [by intros x ?%elem_of_nil|]. simpl. lia.
  - destruct (Z.leb_spec leaves (Z.min k leaves)).
    + intros [= <-]. split; [apply NoDup_seqZ|]. split; [intros x Hx%elem_of_seqZ; lia|]. rewrite length_seqZ. lia.
    + destruct (draw_loop _ _ _ _ _ _) as [s|] eqn:E; [|done]. intros [= <-].
      apply draw_loop_spec in E as [H1 H2]; [|lia|set_solver|rewrite size_empty; lia].
      split; [apply sorted_NoDup|]. split; [intros x Hx%sorted_elem; by apply H1|]. by rewrite sorted_length.
Qed.

(** ** Bytes of a response *)

Definition leaf_ok (lp : LeafProof) : Prop :=
  Z.of_nat (index lp) < 2 ^ 32 /\ Z.of_nat (length (bytes lp)) < 2 ^ 32 /\
  Z.of_nat (length (path lp)) < 2 ^ 16 /\ Forall (fun h => length h = 32%nat) (path lp).

Lemma read_path_concat l : forall pre rest, Forall (fun h => length h = 32%nat) l ->
  read_path (length l) (length pre) (pre ++ concat l ++ rest) = Some (l, (length pre + 32 * length l)%nat).
Proof.
  induction l as [|h l IH]; intros pre rest HF; cbn [length read_path concat].
  { do 2 f_equal. lia. }
  apply Forall_cons in HF as [Hh HF]. rewrite <- app_assoc, slice_mid by (rewrite ?Hh; done).
  rewrite app_assoc. replace (length pre + 32)%nat with (length (pre ++ h)) by (rewrite length_app; lia).
  rewrite IH by done. do 2 f_equal. rewrite length_app. lia.
Qed.

Lemma length_concat32 (l : list (list Z)) : Forall (fun h => length h = 32%nat) l -> length (concat l) = (32 * length l)%nat.
Proof. induction 1 as [|h l Hh _ IH]; [done|]. cbn [concat length]. rewrite length_app. lia. Qed.

Lemma decode_leaf_encode lp rest : leaf_ok lp -> decode_leaf_proof (encode_leaf_proof lp ++ rest) = Some (lp, rest).
Proof.
  intros (Hi & Hb & Hp & Hw). unfold decode_leaf_proof, encode_leaf_proof, u16_sat. rewrite !u32_sat_small, Z.min_l by lia.
  set (ib := le_bytes 4 _). set (lb := le_bytes 4 _). set (pb := le_bytes 2 _). rewrite <- !app_assoc.
  assert (Li : length ib = 4%nat) by apply length_le_bytes. assert (Ll : length lb = 4%nat) by apply length_le_bytes.
  assert (Lp : length pb = 2%nat) by apply length_le_bytes.
  assert (Ei : from_le ib = Z.of_nat (index lp)) by (apply from_le_id; unfold in_u; lia).
  assert (El : from_le lb = Z.of_nat (length (bytes lp))) by (apply from_le_id; unfold in_u; lia).
  assert (Ep : from_le pb = Z.of_nat (length (path lp))) by (apply from_le_id; unfold in_u; lia).
  rewrite slice_prefix by done. rewrite slice_mid by (rewrite ?Li, ?Ll; done). rewrite El, Nat2Z.id.
  rewrite (app_assoc ib lb), slice_mid by (rewrite ?length_app; lia).
  rewrite (app_assoc (ib ++ lb) (bytes lp)), slice_mid by (rewrite ?length_app; lia). rewrite Ep, Nat2Z.id.
  rewrite (app_assoc ((ib ++ lb) ++ bytes lp) pb).
  replace (8 + length (bytes lp) + 2)%nat with (length (((ib ++ lb) ++ bytes lp) ++ pb)) by (rewrite !length_app; lia).
  rewrite read_path_concat by done. rewrite (app_assoc _ (concat (path lp))), slice_from_app
    by (rewrite length_app, length_concat32 by done; lia).
  rewrite Ei, Nat2Z.id. by destruct lp.
Qed.

Lemma read_proofs_encode l rest : Forall leaf_ok l ->
  read_proofs (length l) (concat (encode_leaf_proof <$> l) ++ rest) = Some (l, rest).
Proof.
  induction 1 as [|lp l Hl _ IH]; [done|]. cbn [length read_proofs fmap list_fmap concat]. rewrite <- app_assoc, decode_leaf_encode by done.
  by rewrite IH.
Qed.

Lemma length_encode_leaf lp : (MIN_LEAFPROOF_LEN <= length (encode_leaf_proof lp))%nat.
Proof. unfold encode_leaf_proof, MIN_LEAFPROOF_LEN. rewrite !length_app, !length_le_bytes. lia. Qed.

Lemma decode_encode_response l : Forall leaf_ok l -> Z.of_nat (length l) < 2 ^ 32 -> decode_response (encode_response l) = Some l.
Proof.
  intros HF Hl. unfold decode_response, encode_response. rewrite u32_sat_small by done.
  rewrite slice_prefix by apply length_le_bytes. rewrite from_le_id by (unfold in_u; lia).
  rewrite length_app, length_le_bytes. rewrite (proj2 (Z.ltb_ge _ _)).
  - rewrite slice_from_app by apply length_le_bytes. rewrite Nat2Z.id, <- (app_nil_r (concat _)), read_proofs_encode by done. done.
  - apply Nat2Z.inj_le. replace (4 + length (concat (encode_leaf_proof <$> l)) - 4)%nat with (length (concat (encode_leaf_proof <$> l))) by lia.
    apply Nat.div_le_lower_bound; [done|]. rewrite Nat.mul_comm. apply concat_min_length.
    apply Forall_forall. intros lp _. apply length_encode_leaf.
Qed.

(** ** What an accepted response shows *)

Lemma answers_lookup chunk leaves response expected i lp : answers chunk leaves response expected = true ->
  length response = length expected -> response !! i = Some lp ->
  expected !! i = Some (Z.of_nat (index lp)) /\ Content.verify_leaf chunk (index lp) (bytes lp) (path lp) leaves = true.
Proof.
  unfold answers. rewrite forallb_forall. intros Hall Hlen Hi. destruct (lookup_lt_is_Some_2 expected i) as [e He].
  { rewrite <- Hlen. by eapply lookup_lt_Some. }
  specialize (Hall (lp, e)). cbn [fst snd] in Hall. rewrite andb_true_iff, Z.eqb_eq in Hall.
  destruct Hall as [E Hv].
  - apply list_elem_of_In, list_elem_of_lookup. exists i. rewrite lookup_zip_with, Hi. cbn. by rewrite He.
  - subst e. rewrite Nat2Z.id in Hv. done.
Qed.

Lemma verify_inv fuel chunk beacon k leaves response : verify fuel chunk beacon k leaves response = Some true ->
  exists expected, challenge fuel chunk beacon k leaves = Some expected /\ length response = length expected /\
    answers chunk leaves response expected = true.
Proof.
  unfold verify. destruct (challenge _ _ _ _ _) as [l|]; [|done]. destruct (Nat.eqb_spec (length response) (length l)); [|done].
  cbn [negb]. intros [= E]. by exists l.
Qed.

(** Whether every challenged leaf is there decides whether the response can be built. *)
Lemma prove_answers `{!CryptoLaws} chunk : Content.leaf_count chunk <= Merkle.MAX_LEAVES -> forall indices response,
  (forall x, x ∈ indices -> 0 <= x) ->
  prove chunk indices = Some response -> length response = length indices /\
  answers (Content.chunk_cid chunk) (Content.leaf_count chunk) response indices = true.
Proof.
  intros Hl indices. induction indices as [|i indices IH]; intros response Hx; unfold prove in *; cbn [mapM].
  { by intros [= <-]. }
  cbn [mbind option_bind]. destruct (Content.prove_leaf chunk (Z.to_nat i)) as [[b p]|] eqn:Ep; [|by intros].
  destruct (mapM _ indices) as [rest|] eqn:Em; [|by intros]. cbn. intros [= <-].
  assert (Eb : Content.leaf chunk (Z.to_nat i) = Some b).
  { unfold Content.prove_leaf in Ep. destruct (Content.merkle_proof _ _); [|done]. destruct (Content.leaf _ _); [|done]. by injection Ep as -> _. }
  destruct (IH rest) as [L1 L2]; [set_solver|done|]. split; [simpl; lia|]. unfold answers in *. cbn [zip zip_with forallb fst snd index bytes path].
  fold (zip rest indices). rewrite L2, andb_true_r. rewrite Z2Nat.id by (apply Hx; left). rewrite Z.eqb_refl. cbn [andb].
  destruct (Content.prove_leaf_verifies chunk (Z.to_nat i) b Hl Eb) as (p' & Hp & Hv).
  rewrite Ep in Hp. injection Hp as <-. done.
Qed.

Lemma leaf_total chunk i : 0 <= i < Content.leaf_count chunk -> is_Some (Content.leaf chunk (Z.to_nat i)).
Proof.
  intros Hi. destruct chunk as [|b l]; cbn [Content.leaf_count Content.leaf] in *.
  - replace (Z.to_nat i) with 0%nat by lia. done.
  - apply lookup_lt_is_Some_2. rewrite Content.length_chunks. lia.
Qed.

Lemma prove_total `{!CryptoLaws} chunk indices : Content.leaf_count chunk <= Merkle.MAX_LEAVES ->
  (forall x, x ∈ indices -> 0 <= x < Content.leaf_count chunk) -> is_Some (prove chunk indices).
Proof.
  intros Hl Hx. unfold prove. apply mapM_is_Some_2, Forall_forall. intros i Hi. apply Hx, leaf_total in Hi as [b Hb].
  destruct (Content.prove_leaf_verifies chunk (Z.to_nat i) b Hl Hb) as (p & Hp & _). unfold compose. rewrite Hp. done.
Qed.

Definition wire_widths (response : list LeafProof) : Prop :=
  Forall (fun lp => is_u64 (Z.of_nat (index lp)) /\ Forall (fun h => length h = 32%nat) (path lp)) response.

#[global] Instance wire_widths_dec response : Decision (wire_widths response).
Proof. unfold wire_widths. apply _. Defined.

(** What the check of a response hashes: the leaves it shows and the paths above them. *)
Definition response_hashed (leaves : Z) (response : list LeafProof) : list (list Z) :=
  response ≫= (fun lp => Content.verify_leaf_hashed (index lp) (bytes lp) (path lp) leaves).

Lemma verified_leaves `{!CryptoLaws} msgs chunk leaves response expected : ~ broken_on msgs ->
  Content.chunk_hashed chunk ⊆ msgs -> response_hashed leaves response ⊆ msgs -> Content.leaf_count chunk <= Merkle.MAX_LEAVES ->
  wire_widths response -> is_u64 leaves -> length response = length expected ->
  answers (Content.chunk_cid chunk) leaves response expected = true ->
  Forall (fun lp => leaves = Content.leaf_count chunk /\ Content.leaf chunk (index lp) = Some (bytes lp)) response.
Proof.
  intros Hb Hmc Hmr Hl Hw Hc Hlen Ha. apply Forall_lookup. intros i lp Hi.
  destruct (answers_lookup _ _ _ _ _ _ Ha Hlen Hi) as [_ Hv].
  unfold wire_widths in Hw. rewrite Forall_lookup in Hw. destruct (Hw _ _ Hi) as [Hidx Hp].
  apply (Content.verify_leaf_sound msgs Hb) in Hv; [done..|]. etrans; [|exact Hmr].
  intros m Hm. apply list_elem_of_bind. exists lp. split; [done|by eapply list_elem_of_lookup_2].
Qed.

Lemma answers_expected chunk leaves response expected : answers chunk leaves response expected = true ->
  length response = length expected -> (fun lp => Z.of_nat (index lp)) <$> response = expected.
Proof.
  intros Ha Hlen. apply list_eq. intros i. rewrite list_lookup_fmap. destruct (response !! i) as [lp|] eqn:E; cbn.
  - symmetry. by apply (answers_lookup _ _ _ _ _ _ Ha Hlen E).
  - apply lookup_ge_None in E. symmetry. apply lookup_ge_None. lia.
Qed.

(** When every leaf is audited the beacon does not matter. *)
Lemma full_audit_ignores_beacon fuel fuel' chunk beacon beacon' k leaves response : leaves <= k ->
  verify fuel chunk beacon k leaves response = verify fuel' chunk beacon' k leaves response.
Proof.
  intros Hk. unfold verify, challenge. cbv zeta. destruct (Z.min leaves MAX_AUDIT_LEAVES =? 0); [done|].
  rewrite (proj2 (Z.leb_le _ _)) by lia. done.
Qed.

End por.

(** What the prover builds fits the wire. *)
Lemma leaf_short chunk i b : Content.leaf chunk i = Some b -> (length b <= length chunk)%nat.
Proof.
  destruct chunk as [|x l]; cbn [Content.leaf]; [case_match; [|done]; by intros [= <-]|]. unfold Content.chunks.
  rewrite list_lookup_fmap. destruct (_ !! i); [|done]. cbn [fmap option_fmap option_map]. intros [= <-]. rewrite length_take, length_drop. lia.
Qed.

Lemma prove_fits `{CryptoLaws} chunk : Block.zlen chunk < 2 ^ 32 -> Content.leaf_count chunk < 2 ^ 16 -> forall indices response,
  (forall x, x ∈ indices -> 0 <= x < 2 ^ 32) -> prove chunk indices = Some response -> Forall leaf_ok response.
Proof.
  intros Hz Hl indices. induction indices as [|i indices IH]; intros response Hx; unfold prove in *; cbn [mapM].
  { by intros [= <-]. }
  cbn [mbind option_bind]. destruct (Content.prove_leaf chunk (Z.to_nat i)) as [[b p]|] eqn:Ep; [|by intros].
  destruct (mapM _ indices) as [rest|] eqn:Em; [|by intros]. cbn. intros [= <-]. constructor.
  2: { apply IH; [|done]. intros x Hin. apply Hx. by right. }
  unfold Content.prove_leaf, Content.merkle_proof in Ep. destruct (Content.leaf chunk (Z.to_nat i)) as [b'|] eqn:Eb; [|by repeat case_match].
  destruct (Merkle.prove _ _) as [p'|] eqn:Epr; [|done]. injection Ep as <- <-. unfold leaf_ok. cbn [index bytes path].
  apply leaf_short in Eb. pose proof (Merkle.prove_short _ _ _ Epr) as Hs. rewrite <- Content.length_leaf_hashes in Hl. specialize (Hx i ltac:(by left)). unfold Block.zlen in Hz.
  split; [lia|]. split; [lia|]. split; [lia|]. eapply Merkle.prove_width; [|done]. apply Content.leaf_hashes_width.
Qed.

(** What the decoder returns has the widths of the wire. *)
Lemma read_path_width steps : forall off b l e, read_path steps off b = Some (l, e) -> Forall (fun h => length h = 32%nat) l.
Proof.
  induction steps as [|n IH]; intros off b l e; cbn [read_path]; [by intros [= <- _]|].
  destruct (slice off (off + 32) b) as [s|] eqn:Es; [|done]. cbn [mbind option_bind].
  destruct (read_path n (off + 32) b) as [[rest e']|] eqn:Er; [|done]. intros [= <- _]. constructor; [|by eapply IH].
  apply slice_inv in Es as (_ & _ & Hlen). lia.
Qed.

Lemma decode_leaf_width b lp rest : is_bytes b -> decode_leaf_proof b = Some (lp, rest) ->
  (is_u64 (Z.of_nat (index lp)) /\ Forall (fun h => length h = 32%nat) (path lp)) /\ is_bytes rest.
Proof.
  intros Hb. unfold decode_leaf_proof. destruct (slice 0 4 b) as [i|] eqn:Ei; [|done]. cbn [mbind option_bind].
  destruct (slice 4 8 b) as [l|]; [|done]. cbn [mbind option_bind]. cbv zeta. destruct (slice 8 _ b); [|done]. cbn [mbind option_bind].
  destruct (slice _ (_ + 2) b); [|done]. cbn [mbind option_bind]. destruct (read_path _ _ b) as [[p off]|] eqn:Ep; [|done].
  cbn [mbind option_bind]. destruct (slice_from off b) as [r|] eqn:Er; [|done]. intros [= <- <-].
  apply slice_inv in Ei as (_ & -> & Hlen). apply slice_from_inv in Er as [_ ->]. cbn [index path].
  split; [split; [|by eapply read_path_width]|by apply Forall_drop].
  assert (Hf : is_bytes (take (4 - 0) (drop 0 b))) by by apply Forall_take, Forall_drop.
  apply from_le_range in Hf. rewrite Hlen in Hf. change (8 * Z.of_nat (4 - 0)) with 32 in Hf. unfold in_u in *. lia.
Qed.

Lemma decode_widths b l : is_bytes b -> decode_response b = Some l -> wire_widths l.
Proof.
  assert (HR : forall n r l t, is_bytes r -> read_proofs n r = Some (l, t) -> wire_widths l).
  { induction n as [|n IH]; intros r l' t Hr; cbn [read_proofs]; [by intros [= <- _]; constructor|].
    destruct (decode_leaf_proof r) as [[lp tail]|] eqn:E; [|done]. cbn [mbind option_bind].
    apply decode_leaf_width in E as [Hlp Ht]; [|done]. destruct (read_proofs n tail) as [[lps u]|] eqn:Er; [|done].
    intros [= <- _]. constructor; [done|by eapply IH]. }
  intros Hb. unfold decode_response. destruct (slice 0 4 b); [|done]. cbn [mbind option_bind]. cbv zeta. case_match; [done|].
  destruct (slice_from 4 b) as [r|] eqn:Er; [|done]. cbn [mbind option_bind]. apply slice_from_inv in Er as [_ ->].
  destruct (read_proofs _ _) as [[lps [|]]|] eqn:E; [|done..]. intros [= <-]. eapply HR; [|done]. by apply Forall_drop.
Qed.

(** ** Claims *)

(** C32: an audit shows possession.  A response accepted against the id of a chunk consists of exactly
    the leaves the beacon selects, in order, and each carries the bytes of the chunk at that place,
    unless the messages hashed for the chunk's id and for that response hold a collision; and whoever
    holds the chunk can answer every challenge. *)
Theorem audit_shows_possession `{CryptoLaws} (fuel : nat) (chunk beacon : list Z) (k leaves : Z) :
  Content.leaf_count chunk <= MAX_AUDIT_LEAVES -> 0 <= k -> is_u64 leaves ->
  (forall response, wire_widths response -> verify fuel (Content.chunk_cid chunk) beacon k leaves response = Some true ->
    (challenge fuel (Content.chunk_cid chunk) beacon k leaves = Some ((fun lp => Z.of_nat (index lp)) <$> response) /\
     Forall (fun lp => leaves = Content.leaf_count chunk /\ Content.leaf chunk (index lp) = Some (bytes lp)) response) \/
    broken_on (Content.chunk_hashed chunk ++ response_hashed leaves response)) /\
  (forall expected, challenge fuel (Content.chunk_cid chunk) beacon k (Content.leaf_count chunk) = Some expected ->
    exists response, prove chunk expected = Some response /\
      verify fuel (Content.chunk_cid chunk) beacon k (Content.leaf_count chunk) response = Some true).
Proof.
  intros Hl Hk Hc. assert (Hm : Content.leaf_count chunk <= Merkle.MAX_LEAVES).
  { unfold MAX_AUDIT_LEAVES, Merkle.MAX_LEAVES in *. lia. }
  split.
  - intros response Hw (expected & He & Hlen & Ha)%verify_inv.
    apply unless_broken. intros Hb. split; [by rewrite (answers_expected _ _ _ _ Ha Hlen)|].
    eapply (verified_leaves _ chunk leaves response expected Hb); [set_solver|set_solver|done..].
  - intros expected He. assert (Hnn : 0 <= Content.leaf_count chunk) by (rewrite <- Content.length_leaf_hashes; lia).
    destruct (challenge_spec _ _ _ _ _ _ Hk (conj Hnn Hl) He) as (_ & Hr & _).
    destruct (prove_total chunk expected Hm Hr) as [response Hp]. exists response. split; [done|].
    destruct (prove_answers chunk Hm expected response ltac:(intros x Hx; by apply Hr) Hp) as [Hlen Ha].
    unfold verify. rewrite He, Hlen, Nat.eqb_refl. cbn [negb]. by rewrite Ha.
Qed.

Definition w_chunk : list Z := [1; 2; 3; 4; 5].

(** A response with other bytes in place of the leaf: nothing it hashes collides with the chunk's. *)
Definition w_forged : list LeafProof := [mk_leaf 0 [1; 2; 3; 4; 6] []].

Example forged_response_intact :
  ~ @broken_on toy_crypto (@Content.chunk_hashed toy_crypto w_chunk ++ @response_hashed toy_crypto 1 w_forged).
Proof. by_decide. Qed.

Lemma audit_shows_possession_witness :
  (exists response, @prove toy_crypto w_chunk [0] = Some response /\
    @verify toy_crypto 0 (@Content.chunk_cid toy_crypto w_chunk) [7] 4 1 response = Some true) /\
  @verify toy_crypto 0 (@Content.chunk_cid toy_crypto w_chunk) [7] 4 1 w_forged <> Some true.
Proof.
  destruct (@audit_shows_possession toy_crypto toy_laws 0 w_chunk [7] 4 1) as [Hs Hc].
  - vm_compute. discriminate.
  - lia.
  - by_decide.
  - split; [apply (Hc [0]); vm_compute; reflexivity|]. intros Hv. destruct (Hs w_forged ltac:(by_decide) Hv) as [[_ HF]|Hb].
    + apply Forall_cons in HF as [[_ E] _]. vm_compute in E. discriminate E.
    + exact (forged_response_intact Hb).
Defined.

End Por.
