(* ===== verification/Market.v ===== *)
(** * The storage market

    [fanos-thesauros/src/market.rs] (the deal: pay in arrears per passing audit, refund the rest) and
    [fanos-dromos/src/storage.rs] (deal ids, storage transactions, the market's state). *)
From S2P Require Import Prelude Codec Sig Sums Token Kem Block Merkle Content Por.
Local Open Scope Z_scope.

Module Market.

Definition DEAL_PARAMS_LEN : nat := 32 + 8 + 8 + 1 + 4 + 4 + 4 + 8 + 32 + 32.
Definition STORAGE_ESCROW : list Z := ascii_bytes "FANOS-thesauros-storage-escrow!!".
Definition AUDIT_PERIOD : Z := 64.
Definition MAX_DEAL_SIZE : Z := Content.CHUNK.
Definition MAX_DEAL_DURATION : Z := 2 ^ 20.
Definition DEAL_ID_LABEL : string := "FANOS-dromos-v1/storage-deal".
Definition STORAGE_ROOT_LABEL : string := "FANOS-dromos-v1/storage-root".

Record DealParams := mk_params {
  cid : list Z;
  size_ : Z;
  duration : Z;
  replication : Z;
  lambda_bits : Z;
  f_tol_permille : Z;
  k : Z;
  price : Z;
  provider : list Z;
  consumer : list Z;
}.

Definition params_to_bytes (p : DealParams) : list Z :=
  cid p ++ le_bytes 8 (size_ p) ++ le_bytes 8 (duration p) ++ [replication p] ++ le_bytes 4 (lambda_bits p) ++
  le_bytes 4 (f_tol_permille p) ++ le_bytes 4 (k p) ++ le_bytes 8 (price p) ++ provider p ++ consumer p.

Definition params_from_bytes (bytes : list Z) : option DealParams :=
  if negb (length bytes =? DEAL_PARAMS_LEN)%nat then None else
  letO cid := slice 0 32 bytes in
  letO size_ := slice 32 40 bytes in
  letO duration := slice 40 48 bytes in
  letO replication := bytes !! 48%nat in
  letO lambda := slice 49 53 bytes in
  letO f_tol := slice 53 57 bytes in
  letO k := slice 57 61 bytes in
  letO price := slice 61 69 bytes in
  letO provider := slice 69 101 bytes in
  letO consumer := slice 101 133 bytes in
  Some (mk_params cid (from_le size_) (from_le duration) replication (from_le lambda) (from_le f_tol) (from_le k)
          (from_le price) provider consumer).

Inductive DealState := Active | Completed | Closed.

#[global] Instance DealState_eq_dec : EqDecision DealState.
Proof. solve_decision. Defined.

Inductive Settlement :=
| Pay (provider : list Z) (amount : Z)
| Miss (provider : list Z).

Record Deal := mk_deal {
  params : DealParams;
  epoch : Z;
  passed : Z;
  released : Z;
  state : DealState;
  last_height : option Z;
  open_height : option Z;
}.

Definition missed_audits (d : Deal) (height audit_period : Z) : option Z :=
  letO open := open_height d in
  if audit_period =? 0 then None else
  let elapsed := sat_sub height open / audit_period in
  Some (sat_sub (Z.min elapsed (duration (params d))) (passed d)).

Definition abandonment_threshold (d : Deal) : Z := lambda_bits (params d).

Definition is_abandoned (d : Deal) (height audit_period : Z) : bool :=
  match open_height d with
  | None => false
  | Some open =>
      if audit_period =? 0 then false else
      let since := default open (last_height d) in
      let silent := sat_sub height since / audit_period in
      abandonment_threshold d <=? Z.min silent (duration (params d))
  end.

Definition open_inner (p : DealParams) (open_height : option Z) : option Deal :=
  if duration p =? 0 then None else Some (mk_deal p 0 0 0 Active None open_height).

Definition open (p : DealParams) : option Deal := open_inner p None.
Definition open_at (p : DealParams) (open_height : Z) : option Deal := open_inner p (Some open_height).

Definition refundable (d : Deal) : Z := sat_sub (price (params d)) (released d).

(** [u128] product, then the quotient; a quotient beyond [u64] falls back to the price. *)
Definition owed_after_passes (d : Deal) : Z :=
  let owed := sat_mul 128 (price (params d)) (passed d) / duration (params d) in
  if owed <? 2 ^ 64 then owed else price (params d).

(** Whether the cadence admits a settlement at [height]. *)
Definition due_at (d : Deal) (height min_interval : Z) : bool :=
  match open_height d with
  | Some open => sat_add 64 (default open (last_height d)) min_interval <=? height
  | None => match last_height d with Some last => last <? height | None => true end
  end.

Definition settle_epoch (d : Deal) (height : Z) (proof_ok : bool) (min_interval : Z) : option (Settlement * Deal) :=
  if bool_decide (state d <> Active) then None else
  if negb (due_at d height min_interval) then None else
  let d := mk_deal (params d) (sat_add 64 (epoch d) 1) (passed d) (released d) (state d) (Some height) (open_height d) in
  let '(settlement, d) :=
    if proof_ok then
      let d := mk_deal (params d) (epoch d) (sat_add 64 (passed d) 1) (released d) (state d) (last_height d) (open_height d) in
      let target := owed_after_passes d in
      let amount := sat_sub target (released d) in
      (Pay (provider (params d)) amount,
       mk_deal (params d) (epoch d) (passed d) target (state d) (last_height d) (open_height d))
    else (Miss (provider (params d)), d) in
  let st := if duration (params d) <=? epoch d then Completed else state d in
  Some (settlement, mk_deal (params d) (epoch d) (passed d) (released d) st (last_height d) (open_height d)).

(** The end of a deal: everything not released goes back. *)
Definition finish (d : Deal) (st : DealState) : Deal :=
  mk_deal (params d) (epoch d) (passed d) (price (params d)) st (last_height d) (open_height d).

Definition close (d : Deal) : Z * Deal := (refundable d, finish d Closed).

Definition missed (d : Deal) : Z := sat_sub (duration (params d)) (passed d).

Definition terminate_if_abandoned (d : Deal) (height audit_period : Z) : option (Z * Deal) :=
  if bool_decide (state d <> Active) || negb (is_abandoned d height audit_period) then None
  else Some (sat_sub (price (params d)) (released d), finish d Completed).

Definition finalize_if_lapsed (d : Deal) (height audit_period : Z) : option (Z * Deal) :=
  if bool_decide (state d <> Active) then None else
  letO open := open_height d in
  let deadline := sat_add 64 open (sat_mul 64 (duration (params d)) audit_period) in
  if height <? deadline then None
  else Some (sat_sub (price (params d)) (released d), finish d Completed).

(** ** Bytes of a deal *)

Definition state_byte (s : DealState) : Z := match s with Active => 0 | Completed => 1 | Closed => 2 end.
Definition opt_height (h : option Z) : list Z := match h with Some v => 1 :: put_u64 v | None => [0] end.

Definition deal_to_bytes (d : Deal) : list Z :=
  params_to_bytes (params d) ++ put_u64 (epoch d) ++ put_u64 (passed d) ++ put_u64 (released d) ++
  [state_byte (state d)] ++ opt_height (last_height d) ++ opt_height (open_height d).

Definition rd_state (r : Reader) : option (DealState * Reader) :=
  letO (b, r) := rd_u8 r in
  match b with 0 => Some (Active, r) | 1 => Some (Completed, r) | 2 => Some (Closed, r) | _ => None end.

Definition rd_height (r : Reader) : option (option Z * Reader) :=
  letO (b, r) := rd_u8 r in
  match b with
  | 0 => Some (None, r)
  | 1 => letO (v, r) := rd_u64 r in Some (Some v, r)
  | _ => None
  end.

Definition deal_from_bytes (bytes : list Z) : option Deal :=
  let r := reader_new bytes in
  letO (pb, r) := rd_slice r DEAL_PARAMS_LEN in
  letO p := params_from_bytes pb in
  letO (epoch, r) := rd_u64 r in
  letO (passed, r) := rd_u64 r in
  letO (released, r) := rd_u64 r in
  letO (st, r) := rd_state r in
  letO (last, r) := rd_height r in
  letO (op, r) := rd_height r in
  letO _ := rd_finish r in
  Some (mk_deal p epoch passed released st last op).

(** ** The market's state and transactions *)

Record StorageMarket := mk_market { deals : btree Deal }.

Definition market_new : StorageMarket := mk_market ∅.

Definition leaves_for_size (size_ : Z) : Z := Z.max (Content.div_ceil size_ Content.LEAF) 1.

Definition to_bytes (m : StorageMarket) : list Z := put_map (deals m) (fun id d => id ++ put_var_bytes (deal_to_bytes d)).

Definition read_deal (r : Reader) : option ((list Z * Deal) * Reader) :=
  letO (id, r) := rd_array 32 r in
  letO (b, r) := rd_var_bytes r in
  letO d := deal_from_bytes b in
  Some ((id, d), r).

Definition from_bytes (bytes : list Z) : option StorageMarket :=
  let r := reader_new bytes in
  letO (m, r) := read_map 36 read_deal r in
  letO _ := rd_finish r in
  Some (mk_market m).

Section market.
  Context `{Crypto}.

Definition deal_id (p : DealParams) (funding_nonce : Z) : list Z :=
  hash_labeled DEAL_ID_LABEL (params_to_bytes p ++ le_bytes 8 funding_nonce).

Definition root_entry (id : list Z) (d : Deal) : list Z :=
  id ++ le_bytes 8 (released d) ++ le_bytes 8 (epoch d) ++ le_bytes 8 (passed d) ++ [state_byte (state d)].

Definition state_root (m : StorageMarket) : list Z :=
  hash_labeled STORAGE_ROOT_LABEL (concat ((fun e => root_entry (fst e) (snd e)) <$> btree_list (deals m))).

Inductive StorageTx :=
| Open (p : DealParams) (payment : Token.SignedTransfer)
| Prove (deal_id : list Z) (prover_auth : Token.ProverAuth) (response : list Z)
| Close (deal_id : list Z) (auth : Token.SignedTransfer).

Definition tx_to_bytes (tx : StorageTx) : list Z :=
  match tx with
  | Open p payment => 0 :: params_to_bytes p ++ Token.st_to_bytes payment
  | Prove id auth response => 1 :: id ++ Token.auth_to_bytes auth ++ response
  | Close id auth => 2 :: id ++ Token.st_to_bytes auth
  end.

Definition tx_from_bytes (bytes : list Z) : option StorageTx :=
  match bytes with
  | [] => None
  | op :: body =>
      match op with
      | 0 =>
          letO pb := slice 0 DEAL_PARAMS_LEN body in
          letO p := params_from_bytes pb in
          letO tb := slice_from DEAL_PARAMS_LEN body in
          letO payment := Token.st_from_bytes tb in
          Some (Open p payment)
      | 1 =>
          letO id := slice 0 32 body in
          let auth_end := (32 + Token.AUTH_WIRE_LEN)%nat in
          letO ab := slice 32 auth_end body in
          letO auth := Token.auth_from_bytes ab in
          letO response := slice_from auth_end body in
          Some (Prove id auth response)
      | 2 =>
          letO id := slice 0 32 body in
          letO tb := slice_from 32 body in
          letO auth := Token.st_from_bytes tb in
          Some (Close id auth)
      | _ => None
      end
  end.

End market.
(** ** The life of a deal *)

Inductive op :=
| OpSettle (height : Z) (proof_ok : bool) (min_interval : Z)
| OpClose
| OpAbandon (height audit_period : Z)
| OpLapse (height audit_period : Z).

(** What the provider and the consumer have received beside the deal. *)
Record books := mk_books { deal : Deal; paid : Z; refunded : Z }.

Definition run_op (b : books) (o : op) : books :=
  match o with
  | OpSettle h ok i =>
      match settle_epoch (deal b) h ok i with
      | None => b
      | Some (Pay _ x, d) => mk_books d (paid b + x) (refunded b)
      | Some (Miss _, d) => mk_books d (paid b) (refunded b)
      end
  | OpClose => let '(x, d) := close (deal b) in mk_books d (paid b) (refunded b + x)
  | OpAbandon h a =>
      match terminate_if_abandoned (deal b) h a with
      | None => b | Some (x, d) => mk_books d (paid b) (refunded b + x) end
  | OpLapse h a =>
      match finalize_if_lapsed (deal b) h a with
      | None => b | Some (x, d) => mk_books d (paid b) (refunded b + x) end
  end.

Definition share (p : DealParams) (n : Z) : Z := price p * n / duration p.

Definition params_ok (p : DealParams) : Prop := is_u64 (price p) /\ is_u64 (duration p) /\ 0 < duration p.

#[global] Instance params_ok_dec p : Decision (params_ok p).
Proof. unfold params_ok. apply _. Defined.

(** Everything handed out is what the deal says it released. *)
Definition books_ok (p : DealParams) (b : books) : Prop :=
  params (deal b) = p /\ paid b + refunded b = released (deal b) /\ paid b = share p (passed (deal b)) /\
  0 <= refunded b /\ released (deal b) <= price p /\ 0 <= passed (deal b) <= epoch (deal b) /\ epoch (deal b) <= duration p /\
  (state (deal b) = Active -> refunded b = 0 /\ epoch (deal b) < duration p) /\
  (state (deal b) = Closed -> released (deal b) = price p) /\
  (state (deal b) = Completed -> released (deal b) = price p \/ refunded b = 0 /\ epoch (deal b) = duration p).

Lemma share_mono p n m : params_ok p -> 0 <= n <= m -> share p n <= share p m.
Proof. intros (Hp & _ & Hd) Hn. unfold share, in_u in *. apply Z.div_le_mono; nia. Qed.

Lemma share_full p : params_ok p -> share p (duration p) = price p.
Proof. intros (_ & _ & Hd). unfold share. by apply Z.div_mul; lia. Qed.

Lemma share_le p n : params_ok p -> 0 <= n <= duration p -> 0 <= share p n <= price p.
Proof.
  intros Hp Hn. split; [|rewrite <- (share_full p Hp); by apply share_mono; [|lia]].
  destruct Hp as ([Hp _] & _ & Hd). unfold share. apply Z.div_pos; nia.
Qed.

Lemma owed_exact d : params_ok (params d) -> 0 <= passed d <= duration (params d) -> owed_after_passes d = share (params d) (passed d).
Proof.
  intros Hp Hn. pose proof (share_le _ _ Hp Hn) as Hs. destruct Hp as (Hpr & Hd & Hd0). unfold owed_after_passes, sat_mul. cbv zeta.
  assert (Hm : price (params d) * passed d <= 2 ^ 128 - 1) by (unfold in_u in *; nia).
  rewrite Z.min_l by done. fold (share (params d) (passed d)). unfold in_u in Hpr. rewrite (proj2 (Z.ltb_lt _ _)) by lia. done.
Qed.

Lemma settle_Some d h ok i s d' : settle_epoch d h ok i = Some (s, d') ->
  state d = Active /\ due_at d h i = true /\
  d' = mk_deal (params d) (sat_add 64 (epoch d) 1) (if ok then sat_add 64 (passed d) 1 else passed d)
         (if ok then owed_after_passes (mk_deal (params d) (sat_add 64 (epoch d) 1) (sat_add 64 (passed d) 1) (released d) (state d) (Some h) (open_height d))
          else released d)
         (if duration (params d) <=? sat_add 64 (epoch d) 1 then Completed else Active) (Some h) (open_height d) /\
  s = if ok then Pay (provider (params d)) (sat_sub (released d') (released d)) else Miss (provider (params d)).
Proof.
  unfold settle_epoch. case_bool_decide as Es; [done|]. apply dec_stable in Es || idtac. destruct (due_at d h i) eqn:Ed; [|done]. cbn [negb].
  destruct ok; cbn; intros [= <- <-]; cbn; (split; [done|]; split; [done|]); split; try done;
    by destruct (_ <=? _); rewrite ?Es.
Qed.

Lemma settle_books p b h ok i s d' : params_ok p -> books_ok p b -> settle_epoch (deal b) h ok i = Some (s, d') ->
  books_ok p (mk_books d' (paid b + match s with Pay _ x => x | Miss _ => 0 end) (refunded b)).
Proof.
  intros Hp (Ep & Es & Epd & Hr & Hle & Hpe & Hed & Hact & _) Hs. apply settle_Some in Hs as (Ha & _ & -> & ->).
  destruct (Hact Ha) as [Hr0 Hlt]. pose proof Hp as (Hpr & Hdu & Hd0). unfold in_u in *.
  assert (Ee : sat_add 64 (epoch (deal b)) 1 = epoch (deal b) + 1) by (unfold sat_add; lia).
  assert (Epp : sat_add 64 (passed (deal b)) 1 = passed (deal b) + 1) by (unfold sat_add; lia).
  rewrite Ee, Epp in *.
  assert (Hst : (if duration (params (deal b)) <=? epoch (deal b) + 1 then Completed else Active) = Active -> epoch (deal b) + 1 < duration p)
    by (rewrite Ep; destruct (Z.leb_spec (duration p) (epoch (deal b) + 1)); [done|lia]).
  assert (Hst' : (if duration (params (deal b)) <=? epoch (deal b) + 1 then Completed else Active) = Completed -> epoch (deal b) + 1 = duration p)
    by (rewrite Ep; destruct (Z.leb_spec (duration p) (epoch (deal b) + 1)); [lia|done]).
  assert (Hnc : (if duration (params (deal b)) <=? epoch (deal b) + 1 then Completed else Active) <> Closed) by by destruct (_ <=? _).
  destruct ok; unfold books_ok; cbn [deal params paid refunded released passed epoch state].
  - rewrite owed_exact; cbn [params passed]; rewrite ?Ep; [|done|lia]. pose proof (share_le p (passed (deal b) + 1) Hp ltac:(lia)).
    pose proof (share_mono p (passed (deal b)) (passed (deal b) + 1) Hp ltac:(lia)).
    rewrite Ep in Hst, Hst', Hnc. unfold sat_sub. split_and!; try lia; try done; [intros Hx; specialize (Hst Hx); lia|].
    intros Hx. specialize (Hst' Hx). by right.
  - rewrite Ep in *. split_and!; try lia; try done; [intros Hx; specialize (Hst Hx); lia|]. intros Hx. specialize (Hst' Hx). by right.
Qed.

Lemma finish_books p b st : books_ok p b -> st <> Active ->
  books_ok p (mk_books (finish (deal b) st) (paid b) (refunded b + sat_sub (price (params (deal b))) (released (deal b)))).
Proof.
  intros (Ep & Es & Epd & Hr & Hle & Hpe & Hed & _) Hst. unfold books_ok, finish, sat_sub. cbn. rewrite Ep.
  split_and!; try lia; try done; by left.
Qed.

Lemma run_op_books p b o : params_ok p -> books_ok p b -> books_ok p (run_op b o).
Proof.
  intros Hp Hb. destruct o as [h ok i| |h a|h a]; cbn [run_op].
  - destruct (settle_epoch (deal b) h ok i) as [[s d]|] eqn:E; [|done]. pose proof (settle_books p b h ok i s d Hp Hb E) as H1.
    destruct s; [done|]. by rewrite Z.add_0_r in H1.
  - by apply (finish_books p b Closed).
  - unfold terminate_if_abandoned. destruct (_ || _); [done|]. by apply (finish_books p b Completed).
  - unfold finalize_if_lapsed. case_bool_decide; [done|]. destruct (open_height (deal b)); [|done].
    cbv zeta. destruct (_ <? _); [done|]. by apply (finish_books p b Completed).
Qed.

(** The heights of the settlements of a history, oldest first. *)
Fixpoint settled (b : books) (history : list op) : list Z :=
  match history with
  | [] => []
  | o :: history =>
      match o with
      | OpSettle h ok i => if bool_decide (is_Some (settle_epoch (deal b) h ok i)) then [h] else []
      | _ => []
      end ++ settled (run_op b o) history
  end.

(** Each height is at least [interval] after the one before it, the first after [from]. *)
Fixpoint spaced (interval from : Z) (heights : list Z) : Prop :=
  match heights with
  | [] => True
  | h :: heights => from + interval <= h /\ spaced interval h heights
  end.

(** Settlements with one interval, at heights short of the end of the range by as much. *)
Definition at_interval (interval : Z) (o : op) : Prop :=
  match o with OpSettle h _ i => i = interval /\ 0 <= h /\ h + interval < 2 ^ 64 | _ => True end.

#[global] Instance at_interval_dec interval o : Decision (at_interval interval o).
Proof. destruct o; apply _. Defined.

(** The clock of a deal that opened at [open]. *)
Definition clocked (open interval : Z) (d : Deal) : Prop :=
  open_height d = Some open /\ default open (last_height d) + interval < 2 ^ 64.

Lemma finished_clock open interval b o : clocked open interval (deal b) -> (forall h ok i, o <> OpSettle h ok i) ->
  clocked open interval (deal (run_op b o)) /\ last_height (deal (run_op b o)) = last_height (deal b) /\
  epoch (deal (run_op b o)) = epoch (deal b).
Proof.
  intros Hc Ho. destruct o as [h ok i| |h a|h a]; [by destruct (Ho h ok i)|done|..]; cbn [run_op].
  - unfold terminate_if_abandoned. by destruct (_ || _).
  - unfold finalize_if_lapsed. case_bool_decide; [done|]. destruct (open_height (deal b)); [|done]. cbv zeta. by destruct (_ <? _).
Qed.

Lemma settled_spaced open interval p l : 0 < interval -> Forall (at_interval interval) l -> params_ok p -> forall b, books_ok p b ->
  clocked open interval (deal b) -> spaced interval (default open (last_height (deal b))) (settled b l) /\
  epoch (deal (fold_left run_op l b)) = epoch (deal b) + Z.of_nat (length (settled b l)).
Proof.
  intros Hi HF Hp. induction HF as [|o l Ho _ IH]; intros b Hb Hc; [split; [done|cbn; lia]|]. cbn [fold_left settled].
  pose proof (run_op_books p b o Hp Hb) as Hb'.
  assert (Hk : (forall h ok i, o <> OpSettle h ok i) -> spaced interval (default open (last_height (deal b))) ([] ++ settled (run_op b o) l) /\
    epoch (deal (fold_left run_op l (run_op b o))) = epoch (deal b) + Z.of_nat (length ([] ++ settled (run_op b o) l))).
  { intros Hno. destruct (finished_clock open interval b o Hc Hno) as (Hc' & El & Ee). destruct (IH _ Hb' Hc') as [H1 H2]. rewrite El in H1. rewrite Ee in H2. done. }
  destruct o as [h ok i| |h a|h a]; [clear Hk|by apply Hk..].
  cbn [run_op] in *. destruct (settle_epoch (deal b) h ok i) as [[st d]|] eqn:E.
  - rewrite bool_decide_true by done. destruct Ho as (-> & Hh0 & Hh). destruct Hc as [Eo Hl].
    destruct (settle_Some _ _ _ _ _ _ E) as (Ha & Hd & Ed & _). unfold due_at in Hd. rewrite Eo in Hd. apply Z.leb_le in Hd. unfold sat_add in Hd.
    set (b' := match st with Pay _ x => _ | Miss _ => _ end) in *. assert (Edl : deal b' = d) by (unfold b'; by destruct st).
    destruct Hb as (Epp & _ & _ & _ & _ & Hpe & Hed & Hact & _). destruct (Hact Ha) as [_ Hlt]. destruct Hp as (_ & Hdu & _). unfold in_u in Hdu.
    assert (Hlast : last_height d = Some h /\ epoch d = epoch (deal b) + 1 /\ open_height d = Some open)
      by (rewrite Ed; cbn [last_height epoch open_height]; split; [done|]; split; [unfold sat_add; lia|done]).
    destruct Hlast as (L1 & L2 & L3). destruct (IH b' Hb') as [H1 H2]; [rewrite Edl; split; [done|]; rewrite L1; exact Hh|].
    rewrite Edl, L1 in H1. rewrite Edl, L2 in H2. cbn [app spaced length]. split; [split; [lia|exact H1]|]. rewrite H2. lia.
  - rewrite bool_decide_false by (intros [? [=]]). cbn [app]. by apply IH.
Qed.

Lemma run_books p l : forall b, params_ok p -> books_ok p b -> books_ok p (fold_left run_op l b).
Proof. induction l as [|o l IH]; intros b Hp Hb; [done|]. cbn [fold_left]. apply IH; [done|]. by apply run_op_books. Qed.

(** ** Bytes *)

Definition width_ok (p : DealParams) : Prop :=
  length (cid p) = 32%nat /\ is_u64 (size_ p) /\ is_u64 (duration p) /\ is_u8 (replication p) /\ is_u32 (lambda_bits p) /\
  is_u32 (f_tol_permille p) /\ is_u32 (k p) /\ is_u64 (price p) /\ length (provider p) = 32%nat /\ length (consumer p) = 32%nat.

#[global] Instance width_ok_dec p : Decision (width_ok p).
Proof. unfold width_ok. apply _. Defined.

Lemma length_params p : width_ok p -> length (params_to_bytes p) = DEAL_PARAMS_LEN.
Proof.
  intros (H1 & _ & _ & _ & _ & _ & _ & _ & H2 & H3). unfold params_to_bytes, DEAL_PARAMS_LEN.
  rewrite !length_app, !length_le_bytes. cbn [length]. lia.
Qed.

Lemma params_from_to p : width_ok p -> params_from_bytes (params_to_bytes p) = Some p.
Proof.
  intros Hw. unfold params_from_bytes. rewrite length_params, Nat.eqb_refl by done. cbn [negb].
  destruct Hw as (H1 & H2 & H3 & H4 & H5 & H6 & H7 & H8 & H9 & H10). unfold params_to_bytes.
  rewrite slice_prefix by done. rewrite slice_mid by (rewrite ?length_le_bytes; lia).
  rewrite (app_assoc (cid p)), slice_mid by (rewrite ?length_app, ?length_le_bytes; lia).
  rewrite (app_assoc (cid p ++ _)). set (pre := (cid p ++ _) ++ _). assert (Lp : length pre = 48%nat) by (unfold pre; rewrite !length_app, !length_le_bytes; lia).
  assert (Hat : forall rest, (pre ++ [replication p] ++ rest) !! 48%nat = Some (replication p))
    by (intros rest; by apply list_lookup_middle).
  rewrite Hat.
  rewrite (app_assoc pre), slice_mid by (rewrite ?length_app, ?length_le_bytes; cbn [length]; lia).
  rewrite (app_assoc (pre ++ _)), slice_mid by (rewrite ?length_app, ?length_le_bytes; cbn [length]; lia).
  rewrite (app_assoc ((pre ++ _) ++ _)), slice_mid by (rewrite ?length_app, ?length_le_bytes; cbn [length]; lia).
  rewrite (app_assoc (((pre ++ _) ++ _) ++ _)), slice_mid by (rewrite ?length_app, ?length_le_bytes; cbn [length]; lia).
  rewrite (app_assoc ((((pre ++ _) ++ _) ++ _) ++ _)), slice_mid by (rewrite ?length_app, ?length_le_bytes; cbn [length]; lia).
  rewrite <- (app_nil_r (provider p ++ consumer p)), <- (app_assoc (provider p)), (app_assoc _ (provider p)), slice_mid
    by (rewrite ?length_app, ?length_le_bytes; cbn [length]; lia).
  rewrite !from_le_id by done. by destruct p.
Qed.

Lemma rd_state_reads st : reads rd_state [state_byte st] st.
Proof.
  intros r rest Hr E. destruct (rd_u8_reads (state_byte st) r rest Hr E) as (r' & E1 & R1). exists r'.
  unfold rd_state. rewrite E1. by destruct st.
Qed.

Lemma rd_height_reads h : match h with Some v => is_u64 v | None => True end -> reads rd_height (opt_height h) h.
Proof.
  intros Hh r rest Hr E. destruct h as [v|]; cbn [opt_height] in E.
  - destruct (rd_u8_reads 1 r (put_u64 v ++ rest) Hr) as (r1 & E1 & R1 & H1); [done|].
    destruct (rd_u64_reads v Hh r1 rest H1 R1) as (r2 & E2 & R2). exists r2. unfold rd_height. by rewrite E1, E2.
  - destruct (rd_u8_reads 0 r rest Hr) as (r1 & E1 & R1); [done|]. exists r1. unfold rd_height. by rewrite E1.
Qed.

Definition deal_wire_ok (d : Deal) : Prop :=
  width_ok (params d) /\ is_u64 (epoch d) /\ is_u64 (passed d) /\ is_u64 (released d) /\
  match last_height d with Some v => is_u64 v | None => True end /\ match open_height d with Some v => is_u64 v | None => True end.

Lemma deal_from_to d : deal_wire_ok d -> deal_from_bytes (deal_to_bytes d) = Some d.
Proof.
  intros (Hw & He & Hp & Hr & Hl & Ho). unfold deal_from_bytes, deal_to_bytes. set (bs := params_to_bytes _ ++ _).
  destruct (rd_new_ok bs) as [H1 H2].
  destruct (rd_take_reads DEAL_PARAMS_LEN _ (length_params _ Hw) (reader_new bs) _ H1 H2) as (r1 & E1 & R1 & G1).
  destruct (rd_u64_reads _ He r1 _ G1 R1) as (r2 & E2 & R2 & G2). destruct (rd_u64_reads _ Hp r2 _ G2 R2) as (r3 & E3 & R3 & G3).
  destruct (rd_u64_reads _ Hr r3 _ G3 R3) as (r4 & E4 & R4 & G4). destruct (rd_state_reads (state d) r4 _ G4 R4) as (r5 & E5 & R5 & G5).
  destruct (rd_height_reads _ Hl r5 _ G5 R5) as (r6 & E6 & R6 & G6).
  rewrite <- (app_nil_r (opt_height (open_height d))) in R6. destruct (rd_height_reads _ Ho r6 _ G6 R6) as (r7 & E7 & R7 & G7).
  unfold rd_slice. rewrite E1, params_from_to, E2, E3, E4, E5, E6, E7 by done.
  rewrite (proj2 (rd_finish_iff r7 G7)) by done. by destruct d.
Qed.

(** ** Claims *)

(** C33: what a deal hands out, and when.  Over any sequence of audits, misses, closings, abandonments
    and lapses, the provider has received exactly its share of the price for the audits passed, the
    provider and the consumer together exactly what the deal records as released, and never more than
    the price; an active deal has refunded nothing, a closed deal has handed out its whole price, and
    so has a completed one, except that a deal completed by the last of its audits has refunded
    nothing: the shares of audits it missed stay in escrow until it is closed.  Settlements come at
    least one interval after each other and after the opening, for heights short of the end of the
    64-bit range by one interval, and there are at most as many as the deal has audits. *)
Theorem deal_hands_out_its_price (p : DealParams) (open interval : Z) (d : Deal) (history : list op) :
  params_ok p -> 0 < interval -> open + interval < 2 ^ 64 ->
  Forall (at_interval interval) history -> open_at p open = Some d ->
  let b := fold_left run_op history (mk_books d 0 0) in
  let heights := settled (mk_books d 0 0) history in
  (paid b = price p * passed (deal b) / duration p /\ paid b + refunded b = released (deal b) /\
   0 <= refunded b /\ released (deal b) <= price p) /\
  ((state (deal b) = Active -> refunded b = 0) /\ (state (deal b) = Closed -> released (deal b) = price p) /\
   (state (deal b) = Completed -> released (deal b) = price p \/ refunded b = 0 /\ epoch (deal b) = duration p)) /\
  (spaced interval open heights /\ epoch (deal b) = Z.of_nat (length heights) /\
   passed (deal b) <= epoch (deal b) <= duration p).
Proof.
  intros Hp Hi Hbig HF Hopen b heights. unfold open_at, open_inner in Hopen. destruct (duration p =? 0) eqn:E0; [done|].
  injection Hopen as Ed. set (b0 := mk_books d 0 0) in b, heights. pose proof Hp as (Hpr & Hdu & Hd0). unfold in_u in *.
  assert (Hb0 : books_ok p b0).
  { unfold books_ok, b0, share. rewrite <- Ed. cbn. rewrite Z.mul_0_r, Z.div_0_l by lia. split_and!; try lia; done. }
  destruct (run_books p history b0 Hp Hb0) as (Ep & Es & Epd & Hr & Hle & Hpe & Hed & Hact & Hcl & Hco). fold b in Ep, Es, Epd, Hr, Hle, Hpe, Hed, Hact, Hcl, Hco.
  destruct (settled_spaced open interval p history Hi HF Hp b0 Hb0) as [Hs He]; [unfold b0; by rewrite <- Ed|]. fold b heights in Hs, He.
  unfold b0 in Hs, He. rewrite <- Ed in Hs, He. cbn in Hs, He.
  split; [split_and!; try done|]. split; [split_and!; try done; intros Ha; by apply Hact|]. split_and!; [exact Hs|lia|lia|lia].
Qed.

Definition w_params : DealParams :=
  mk_params (replicate 32 7) 5 10 3 30 100 4 1000 (replicate 32 170) (replicate 32 187).

(** Two audits pass, a third comes too early, and the deal is abandoned and closed twice. *)
Definition w_history : list op := [OpSettle 70 true 64; OpSettle 100 true 64; OpSettle 134 true 64; OpAbandon 150 64; OpClose; OpClose].

Lemma deal_hands_out_its_price_witness :
  exists d, open_at w_params 5 = Some d /\
    let b := fold_left run_op w_history (mk_books d 0 0) in
    paid b = 200 /\ refunded b = 800 /\ paid b + refunded b = price w_params /\ spaced 64 5 [70; 134].
Proof.
  eexists. split; [reflexivity|].
  destruct (deal_hands_out_its_price w_params 5 64 (mk_deal w_params 0 0 0 Active None (Some 5)) w_history)
    as ((_ & H2 & _) & (_ & H3 & _) & H4 & _).
  - by_decide.
  - lia.
  - lia.
  - by_decide.
  - reflexivity.
  - split; [vm_compute; reflexivity|]. split; [vm_compute; reflexivity|]. split; [|exact H4].
    rewrite <- (H3 ltac:(vm_compute; reflexivity)). exact H2.
Defined.

(** The last audit of a deal ends it, and the shares of the audits it missed stay where they are. *)
Example missed_shares_stay_in_escrow :
  let d := mk_deal (mk_params (replicate 32 7) 5 2 3 30 100 4 1000 (replicate 32 170) (replicate 32 187)) 0 0 0 Active None (Some 5) in
  let b := fold_left run_op [OpSettle 70 false 64; OpSettle 134 true 64; OpAbandon 900 64; OpLapse 900 64] (mk_books d 0 0) in
  state (deal b) = Completed /\ paid b = 500 /\ refunded b = 0 /\ refunded (run_op b OpClose) = 500.
Proof. vm_compute. auto. Qed.

End Market.
