(* ===== verification/Hybrid.v ===== *)
(** * The whole ledger: names and storage beside tokens, swaps and stake

    [fanos-dromos/src/hybrid.rs]: the storage and name transactions over the ledger of [Ledger.v], the
    audit beacon, the sweep of a block start, block rewards, and the three conservation pairs of the
    escrow accounts.  The shielded pool and the term evaluator keep their own state. *)
From S2P Require Import Prelude Codec Sig Sums Htlc Vote Incentive Token Stake Hermes Ledger Kem Block Merkle Naming Content Por Market.
Local Open Scope Z_scope.

Module Hybrid.

Record Full := mk_full {
  base : Ledger.HybridLedger;
  names : Naming.NameRegistry;
  storage : Market.StorageMarket;
  audit_beacon : list Z;
}.

Definition new (genesis_tokens : Token.TokenLedger) : Full :=
  mk_full (Ledger.new genesis_tokens) Naming.new Market.market_new (replicate 32 0).

Definition tokens (F : Full) : Token.TokenLedger := Ledger.tokens (base F).
Definition height (F : Full) : Z := Ledger.height (base F).

Definition set_tokens (l : Token.TokenLedger) (F : Full) : Full :=
  mk_full (Ledger.mk_hybrid l (Ledger.htlcs (base F)) (Ledger.stake (base F)) (Ledger.height (base F)))
    (names F) (storage F) (audit_beacon F).
Definition set_base (L : Ledger.HybridLedger) (F : Full) : Full := mk_full L (names F) (storage F) (audit_beacon F).
Definition set_deals (m : btree Market.Deal) (F : Full) : Full :=
  mk_full (base F) (names F) (Market.mk_market m) (audit_beacon F).

Definition set_audit_beacon (F : Full) (beacon : list Z) : Full := mk_full (base F) (names F) (storage F) beacon.

Definition storage_escrow (F : Full) : Z := Token.balance (tokens F) Market.STORAGE_ESCROW.

(** The unreleased escrow of every active deal, with the ledger's saturating sum. *)
Definition deals_total (F : Full) : Z :=
  sat_sum 64 ((fun e => Market.refundable (snd e)) <$>
    filter (fun e => Market.state (snd e) = Market.Active) (btree_list (Market.deals (storage F)))).

Definition conservation_storage (F : Full) : Z * Z := (storage_escrow F, deals_total F).

Record Conservation := mk_conservation { c_stake : Z * Z; c_storage : Z * Z; c_htlc : Z * Z }.

Definition conservation (F : Full) : Conservation :=
  mk_conservation (Ledger.conservation_stake (base F)) (conservation_storage F) (Ledger.conservation_htlc (base F)).

Definition holds (c : Conservation) : bool :=
  (fst (c_stake c) =? snd (c_stake c)) && (fst (c_storage c) =? snd (c_storage c)) && (fst (c_htlc c) =? snd (c_htlc c)).

(** ** The sweep at the start of a block *)

(** What ends a deal at [height]: silence first, then the deadline. *)
Definition ended (d : Market.Deal) (height : Z) : option (Z * Market.Deal) :=
  match Market.terminate_if_abandoned d height Market.AUDIT_PERIOD with
  | Some r => Some r
  | None => Market.finalize_if_lapsed d height Market.AUDIT_PERIOD
  end.

Definition swept (height : Z) (d : Market.Deal) : Market.Deal :=
  match ended d height with Some (_, d) => d | None => d end.

Definition refunds (height : Z) (m : btree Market.Deal) : list (list Z * Z) :=
  omap (fun e => match ended (snd e) height with
                 | Some (refund, d) => if 0 <? refund then Some (Market.consumer (Market.params d), refund) else None
                 | None => None
                 end) (btree_list m).

Definition pay_refunds (l : Token.TokenLedger) (rs : list (list Z * Z)) : Token.TokenLedger :=
  fold_left (fun l r => snd (Token.move_system l Market.STORAGE_ESCROW (fst r) (snd r))) rs l.

Definition finalize_lapsed_deals (F : Full) : Full :=
  let m := Market.deals (storage F) in
  let F := set_tokens (pay_refunds (tokens F) (refunds (height F) m)) F in
  set_deals (filter (fun e => Market.state (snd e) = Market.Active) (swept (height F) <$> m)) F.

Definition begin_block (F : Full) (h : Z) : Full :=
  let F := set_base (Ledger.set_height (base F) h) F in
  let F := finalize_lapsed_deals F in
  set_base (Ledger.prune_htlcs (base F)) F.

Section ops.
  Context `{Crypto}.

Definition open_deal (F : Full) (p : Market.DealParams) (payment : Token.SignedTransfer) : option bool * Full :=
  if (Market.size_ p =? 0) || (Market.MAX_DEAL_SIZE <? Market.size_ p) || (Market.k p =? 0) || (Market.duration p =? 0)
     || (Market.MAX_DEAL_DURATION <? Market.duration p) || (Market.price p =? 0) then (Some false, F) else
  let t := Token.transfer payment in
  if negb (Token.verify payment) || bool_decide (Token.t_from t <> Market.consumer p)
     || bool_decide (Token.t_to t <> Market.STORAGE_ESCROW) || negb (Token.t_amount t =? Market.price p) then (Some false, F) else
  let id := Market.deal_id p (Token.t_nonce t) in
  if bool_decide (is_Some (Market.deals (storage F) !! id)) then (Some false, F) else
  match Market.open_at p (height F) with
  | None => (Some false, F)
  | Some deal =>
      if Token.is_premature (tokens F) payment then (None, F) else
      match Token.apply (tokens F) payment with
      | (Err _, _) => (Some false, F)
      | (Ok _, l) => (Some true, set_deals (<[id := deal]> (Market.deals (storage F))) (set_tokens l F))
      end
  end.

(** [None] only when the challenge is still drawing indices after [fuel] draws. *)
Definition prove_deal (fuel : nat) (F : Full) (id : list Z) (auth : Token.ProverAuth) (response_bytes : list Z) :
    option (bool * Full) :=
  match Market.deals (storage F) !! id with
  | None => Some (false, F)
  | Some d =>
      if bool_decide (Market.state d <> Market.Active) then Some (false, F) else
      let p := Market.params d in
      if negb (Token.auth_verify auth id response_bytes (Market.provider p)) then Some (false, F) else
      match Por.decode_response response_bytes with
      | None => Some (false, F)
      | Some response =>
          let leaves := Market.leaves_for_size (Market.size_ p) in
          letO ok := Por.verify fuel (Market.cid p) (audit_beacon F) (Market.k p) leaves response in
          if negb ok then Some (false, F) else
          match Market.settle_epoch d (height F) true Market.AUDIT_PERIOD with
          | None => Some (false, F)
          | Some (settlement, d') =>
              let F := set_deals (<[id := d']> (Market.deals (storage F))) F in
              match settlement with
              | Market.Pay provider amount =>
                  Some (true, set_tokens (snd (Token.move_system (tokens F) Market.STORAGE_ESCROW provider amount)) F)
              | Market.Miss _ => Some (true, F)
              end
          end
      end
  end.

Definition close_deal (F : Full) (id : list Z) (auth : Token.SignedTransfer) : bool * Full :=
  match Market.deals (storage F) !! id with
  | None => (false, F)
  | Some d =>
      let consumer := Market.consumer (Market.params d) in
      if negb (Token.verify auth) || bool_decide (Token.t_from (Token.transfer auth) <> consumer)
         || bool_decide (Token.t_to (Token.transfer auth) <> id) then (false, F) else
      let '(refund, d') := Market.close d in
      let F := set_deals (<[id := d']> (Market.deals (storage F))) F in
      if 0 <? refund
      then (true, set_tokens (snd (Token.move_system (tokens F) Market.STORAGE_ESCROW consumer refund)) F)
      else (true, F)
  end.

(** The shares paid one after the other. *)
Definition pay_share (share : Z) (l : Token.TokenLedger) (v : HybridVerifier) : Token.TokenLedger :=
  snd (Token.move_system l Ledger.TREASURY (Token.account_id v) share).

Definition apply_block_reward (F : Full) (beneficiaries : list HybridVerifier) (amount : Z) : Full :=
  let count := Z.of_nat (length beneficiaries) in
  if (count =? 0) || (amount =? 0) then F else
  let pot := Z.min amount (Token.balance (tokens F) Ledger.TREASURY) in
  let share := pot / count in
  if share =? 0 then F else set_tokens (fold_left (pay_share share) beneficiaries (tokens F)) F.

(** ** Transactions *)

Inductive Tx :=
| TxBase (tx : Ledger.Tx)
| TxName (tx : Naming.NameTx)
| TxStorage (tx : Market.StorageTx).

Definition exec_name (F : Full) (tx : Naming.NameTx) : Ledger.ExecOutcome * Full :=
  match Naming.apply (names F) tx (tokens F) (height F) with
  | (Ok _, r, l) => (Ledger.Applied, mk_full (base (set_tokens l F)) r (storage F) (audit_beacon F))
  | (Err (Naming.PaymentError Token.NonceAhead), _, _) => (Ledger.Deferred, F)
  | (Err _, _, _) => (Ledger.Rejected, F)
  end.

Definition exec_storage (fuel : nat) (F : Full) (tx : Market.StorageTx) : option (Ledger.ExecOutcome * Full) :=
  match tx with
  | Market.Open p payment =>
      let '(r, F) := open_deal F p payment in
      Some (match r with None => Ledger.Deferred | Some ok => Ledger.outcome ok end, F)
  | Market.Prove id auth response =>
      if bool_decide (is_Some (Market.deals (storage F) !! id)) then
        letO (ok, F) := prove_deal fuel F id auth response in Some (Ledger.outcome ok, F)
      else Some (Ledger.Deferred, F)
  | Market.Close id auth =>
      if bool_decide (is_Some (Market.deals (storage F) !! id)) then
        let '(ok, F) := close_deal F id auth in Some (Ledger.outcome ok, F)
      else Some (Ledger.Deferred, F)
  end.

Definition exec (fuel : nat) (F : Full) (tx : Tx) : option (Ledger.ExecOutcome * Full) :=
  match tx with
  | TxBase tx => let '(o, L) := Ledger.exec (base F) tx in Some (o, set_base L F)
  | TxName tx => Some (exec_name F tx)
  | TxStorage tx => exec_storage fuel F tx
  end.

Inductive event :=
| Exec (tx : Tx)
| BeginBlock (h : Z)
| Beacon (b : list Z)
| Reward (beneficiaries : list HybridVerifier) (amount : Z).

Definition step (fuel : nat) (F : Full) (e : event) : option Full :=
  match e with
  | Exec tx => snd <$> exec fuel F tx
  | BeginBlock h => Some (begin_block F h)
  | Beacon b => Some (set_audit_beacon F b)
  | Reward vs x => Some (apply_block_reward F vs x)
  end.

Fixpoint run (fuel : nat) (F : Full) (es : list event) : option Full :=
  match es with
  | [] => Some F
  | e :: es => letO F := step fuel F e in run fuel F es
  end.

End ops.

(** ** The conservation invariant *)

(** What an active deal still holds in escrow. *)
Definition escrow_of : Market.Deal -> Z := counted (fun d => Market.state d = Market.Active) Market.refundable.

Definition is_sink (a : list Z) : Prop := Ledger.is_sink a \/ a = Market.STORAGE_ESCROW.

#[global] Instance is_sink_dec a : Decision (is_sink a).
Proof. unfold is_sink. apply _. Defined.

(** A stored deal has been audited [passed] times, released the provider's share of that, and released
    everything once it is over. *)
Definition deal_ok (d : Market.Deal) : Prop :=
  Market.params_ok (Market.params d) /\
  ~ is_sink (Market.consumer (Market.params d)) /\
  0 <= Market.passed d <= Market.duration (Market.params d) /\ Market.epoch d = Market.passed d /\
  match Market.state d with
  | Market.Active => Market.passed d < Market.duration (Market.params d) /\
      Market.released d = Market.share (Market.params d) (Market.passed d)
  | _ => Market.released d = Market.price (Market.params d)
  end.

#[global] Instance deal_ok_dec d : Decision (deal_ok d).
Proof. unfold deal_ok. destruct (Market.state d); apply _. Defined.

Definition party_ok (h : Htlc.Htlc) : Prop :=
  Htlc.recipient (Htlc.terms h) <> Market.STORAGE_ESCROW /\ Htlc.sender (Htlc.terms h) <> Market.STORAGE_ESCROW.

Definition inv (F : Full) : Prop :=
  Ledger.inv (base F) /\
  map_Forall (fun _ h => party_ok h) (Hermes.htlcs (Ledger.htlcs (base F))) /\
  msum escrow_of (Market.deals (storage F)) = Token.balance (tokens F) Market.STORAGE_ESCROW /\
  map_Forall (fun _ d => deal_ok d) (Market.deals (storage F)).

#[global] Instance inv_dec F : Decision (inv F).
Proof. unfold inv, party_ok. apply _. Defined.

Lemma escrow_distinct b : Ledger.is_sink b -> b <> Market.STORAGE_ESCROW.
Proof. intros [->| ->]; by vm_compute. Qed.

Lemma treasury_no_sink : ~ is_sink Ledger.TREASURY.
Proof. intros [H|E]; [by apply Ledger.treasury_not_sink in H|by vm_compute in E]. Qed.

Lemma released_range d : deal_ok d -> 0 <= Market.released d <= Market.price (Market.params d).
Proof.
  intros (Hp & _ & Hn & _ & Hr). destruct (Market.state d).
  - destruct Hr as [_ ->]. by apply Market.share_le.
  - rewrite Hr. destruct Hp as ([? _] & _). lia.
  - rewrite Hr. destruct Hp as ([? _] & _). lia.
Qed.

Lemma refundable_exact d : deal_ok d -> Market.refundable d = Market.price (Market.params d) - Market.released d.
Proof. intros Hd. pose proof (released_range d Hd). unfold Market.refundable, sat_sub. lia. Qed.

Lemma escrow_nonneg d : 0 <= escrow_of d.
Proof. unfold escrow_of, counted, Market.refundable, sat_sub. case_decide; lia. Qed.

Lemma escrow_active d : Market.state d = Market.Active -> escrow_of d = Market.refundable d.
Proof. intros E. unfold escrow_of, counted. by rewrite decide_True. Qed.

Lemma escrow_over d : Market.state d <> Market.Active -> escrow_of d = 0.
Proof. intros E. unfold escrow_of, counted. by rewrite decide_False. Qed.

Lemma escrow_le F id d : inv F -> Market.deals (storage F) !! id = Some d ->
  0 <= escrow_of d <= Token.balance (tokens F) Market.STORAGE_ESCROW.
Proof.
  intros (_ & _ & <- & _) Hd. split; [apply escrow_nonneg|]. apply (msum_le escrow_of _ id); [|done].
  intros. apply escrow_nonneg.
Qed.

(** The ledger's own check succeeds. *)
Lemma inv_holds F : inv F -> holds (conservation F) = true.
Proof.
  intros (Hb & _ & Hs & Hd). destruct (Ledger.inv_conserves (base F) Hb) as [H1 H2].
  assert (E : deals_total F = msum escrow_of (Market.deals (storage F))).
  { unfold escrow_of. rewrite <- (sat_sum_filtered 64); [done| |].
    - intros k d Hk _. unfold Market.refundable, sat_sub. lia.
    - change (msum escrow_of (Market.deals (storage F)) < 2 ^ 64). rewrite Hs. apply Token.balance_range. apply Hb. }
  unfold holds, conservation, conservation_storage. cbn [c_stake c_storage c_htlc]. rewrite H1, H2, !Z.eqb_refl.
  cbn [fst snd]. rewrite E, Hs. unfold storage_escrow. by rewrite Z.eqb_refl.
Qed.

(** Replacing the token ledger and the deals. *)
Lemma inv_update F l m : inv F -> Token.ledger_ok l ->
  (forall b, Ledger.is_sink b -> Token.balance l b = Token.balance (tokens F) b) ->
  msum escrow_of m = Token.balance l Market.STORAGE_ESCROW -> map_Forall (fun _ d => deal_ok d) m ->
  inv (set_deals m (set_tokens l F)).
Proof.
  intros ((_ & Hsv & Hs & Hh & Hc) & Hp & _ & _) Hok Hsink Hm Hd. unfold inv, Ledger.inv.
  split; [|done]. unfold Ledger.locked_sum in *.
  cbn [base set_deals set_tokens Ledger.tokens Ledger.htlcs Ledger.stake].
  pose proof (Hsink Stake.STAKE_SINK ltac:(by left)) as E1. pose proof (Hsink Hermes.HTLC_ESCROW ltac:(by right)) as E2.
  unfold tokens in E1, E2. rewrite E1, E2. done.
Qed.

(** The escrow pays an account that is no sink. *)
Lemma escrow_pays l to x : Token.ledger_ok l -> 0 <= x <= Token.balance l Market.STORAGE_ESCROW -> ~ is_sink to ->
  let l' := snd (Token.move_system l Market.STORAGE_ESCROW to x) in
  Token.ledger_ok l' /\ Token.total l' = Token.total l /\
  (forall b, Ledger.is_sink b -> Token.balance l' b = Token.balance l b) /\
  Token.balance l' Market.STORAGE_ESCROW = Token.balance l Market.STORAGE_ESCROW - x.
Proof.
  intros Hok Hx Hto l'. destruct (Ledger.move_system_exact l Market.STORAGE_ESCROW to x Hok Hx) as (H1 & H2 & H3).
  split; [done|]. split; [done|]. split.
  - intros b Hb. apply Ledger.move_system_untouched; [by apply escrow_distinct|]. intros ->. apply Hto. by left.
  - unfold l'. rewrite H3, Ledger.delta_eq, Ledger.delta_ne; [lia|]. intros E. apply Hto. by right.
Qed.

(** One deal gives up [x] of its escrow to [to]. *)
Lemma deal_pays F id d d' to x : inv F -> Market.deals (storage F) !! id = Some d -> deal_ok d' -> ~ is_sink to ->
  0 <= x -> escrow_of d' = escrow_of d - x ->
  let F' := set_tokens (snd (Token.move_system (tokens F) Market.STORAGE_ESCROW to x)) (set_deals (<[id := d']> (Market.deals (storage F))) F) in
  inv F' /\ Token.total (tokens F') = Token.total (tokens F).
Proof.
  intros Hi Hd Hd' Hto Hx He F'. pose proof (escrow_le F id d Hi Hd) as Hle. pose proof (escrow_nonneg d').
  pose proof Hi as ((Hok & _) & _ & Hs & Hm). fold (tokens F) in Hok.
  destruct (escrow_pays (tokens F) to x Hok ltac:(lia) Hto) as (H1 & H2 & H3 & H4). split; [|done].
  apply (inv_update F (snd (Token.move_system (tokens F) Market.STORAGE_ESCROW to x)) (<[id := d']> (Market.deals (storage F)))); try done.
  - rewrite H4, msum_insert, Hd, Hs. cbn [default fmap option_fmap option_map]. simpl. lia.
  - by apply map_Forall_insert_2.
Qed.

(** ** The sweep *)

Definition paid_at_end (height : Z) (d : Market.Deal) : Z :=
  match ended d height with Some (refund, _) => refund | None => 0 end.

Lemma ended_Some d h x d' : ended d h = Some (x, d') ->
  Market.state d = Market.Active /\ x = Market.refundable d /\ d' = Market.finish d Market.Completed.
Proof.
  unfold ended, Market.terminate_if_abandoned, Market.finalize_if_lapsed. case_bool_decide as Ha; cbn [orb]; [done|].
  destruct (negb _).
  - destruct (Market.open_height d); [|done]. cbn [mbind option_bind]. cbv zeta. case_match; [done|]. by intros [= <- <-].
  - by intros [= <- <-].
Qed.

Lemma finish_ok d st : deal_ok d -> st <> Market.Active -> deal_ok (Market.finish d st).
Proof.
  intros (Hp & Hs & Hn & He & _) Hst. unfold deal_ok, Market.finish. cbn [Market.params Market.passed Market.epoch Market.state Market.released].
  split; [done|]. split; [done|]. split; [done|]. split; [done|]. by destruct st.
Qed.

Lemma swept_ok h d : deal_ok d -> deal_ok (swept h d).
Proof.
  intros Hd. unfold swept. destruct (ended d h) as [[x d']|] eqn:E; [|done].
  apply ended_Some in E as (_ & _ & ->). by apply finish_ok.
Qed.

Lemma swept_escrow h d : escrow_of (swept h d) = escrow_of d - paid_at_end h d.
Proof.
  unfold swept, paid_at_end. destruct (ended d h) as [[x d']|] eqn:E; [|lia].
  apply ended_Some in E as (Ha & -> & ->). rewrite (escrow_active d Ha), escrow_over by done. lia.
Qed.

Lemma paid_nonneg h d : 0 <= paid_at_end h d.
Proof.
  unfold paid_at_end. destruct (ended d h) as [[x d']|] eqn:E; [|done].
  apply ended_Some in E as (_ & -> & _). unfold Market.refundable, sat_sub. lia.
Qed.

Definition rsum (rs : list (list Z * Z)) : Z := foldr (fun r acc => snd r + acc) 0 rs.

(** The list of refunds pays out what the ended deals held. *)
Lemma refunds_sum h m : rsum (refunds h m) = msum (paid_at_end h) m.
Proof.
  rewrite <- msum_btree_list. unfold refunds. induction (btree_list m) as [|[id d] l IH]; [done|].
  cbn [foldr omap list_omap snd]. rewrite <- IH. pose proof (paid_nonneg h d) as Hp. unfold paid_at_end in Hp |- *.
  destruct (ended d h) as [[x d']|]; [|done]. destruct (Z.ltb_spec 0 x); [done|]. replace x with 0 by lia. done.
Qed.

Lemma refunds_ok h m : map_Forall (fun _ d => deal_ok d) m ->
  Forall (fun r => ~ is_sink (fst r) /\ 0 <= snd r) (refunds h m).
Proof.
  intros Hm. apply Forall_forall. intros [a x]. unfold refunds. rewrite list_elem_of_omap.
  intros ([id d] & Hin%btree_list_elem & E). cbn [snd] in E. destruct (ended d h) as [[y d']|] eqn:Ed; [|done].
  destruct (Z.ltb_spec 0 y); [|done]. injection E as <- <-. apply ended_Some in Ed as (_ & -> & ->).
  split; [|cbn [snd]; lia]. cbn [Market.finish Market.params fst]. by apply (Hm id d) in Hin as (_ & ? & _).
Qed.

Lemma pay_refunds_exact rs : forall l, Token.ledger_ok l -> Forall (fun r => ~ is_sink (fst r) /\ 0 <= snd r) rs ->
  rsum rs <= Token.balance l Market.STORAGE_ESCROW ->
  let l' := pay_refunds l rs in
  Token.ledger_ok l' /\ Token.total l' = Token.total l /\
  (forall b, Ledger.is_sink b -> Token.balance l' b = Token.balance l b) /\
  Token.balance l' Market.STORAGE_ESCROW = Token.balance l Market.STORAGE_ESCROW - rsum rs.
Proof.
  induction rs as [|[a x] rs IH]; intros l Hok HF Hle; cbn [rsum pay_refunds fold_left foldr fst snd] in *; [unfold pay_refunds; simpl; split_and!; try done; lia|].
  apply Forall_cons in HF as [[Ha Hx] HF]. cbn [fst snd] in *.
  assert (0 <= rsum rs) by (clear -HF; induction HF as [|? ? [_ ?] ? ?]; unfold rsum in *; simpl; lia).
  destruct (escrow_pays l a x Hok) as (H1 & H2 & H3 & H4); [unfold rsum in *; lia|done|].
  destruct (IH _ H1 HF) as (G1 & G2 & G3 & G4); [rewrite H4; unfold rsum in *; lia|].
  fold (pay_refunds (snd (Token.move_system l Market.STORAGE_ESCROW a x)) rs). split; [done|]. split; [congruence|]. split.
  - intros b Hb. by rewrite G3, H3.
  - rewrite G4, H4. unfold rsum. lia.
Qed.

Lemma sweep_preserves F : inv F ->
  inv (finalize_lapsed_deals F) /\ Token.total (tokens (finalize_lapsed_deals F)) = Token.total (tokens F).
Proof.
  intros Hi. pose proof Hi as ((Hok & _) & _ & Hs & Hm). fold (tokens F) in Hok. set (m := Market.deals (storage F)) in *.
  assert (Ed : msum escrow_of (swept (height F) <$> m) = msum escrow_of m - msum (paid_at_end (height F)) m).
  { rewrite msum_fmap. apply msum_diff. intros. apply swept_escrow. }
  assert (Hnn : 0 <= msum escrow_of (swept (height F) <$> m)) by (apply msum_nonneg; intros; apply escrow_nonneg).
  destruct (pay_refunds_exact (refunds (height F) m) (tokens F) Hok) as (H1 & H2 & H3 & H4).
  - by apply refunds_ok.
  - rewrite refunds_sum. lia.
  - split; [|done].
    apply (inv_update F (pay_refunds (tokens F) (refunds (height F) m))
             (filter (fun e => Market.state (snd e) = Market.Active) (swept (height F) <$> m))); try done.
    + rewrite H4, refunds_sum, <- Hs, <- Ed. refine (msum_filter (fun d => Market.state d = Market.Active) escrow_of _ _).
      intros k d _. apply escrow_over.
    + intros k d [Hk _]%map_lookup_filter_Some. apply lookup_fmap_Some in Hk as (d0 & <- & Hk). apply swept_ok. by apply (Hm k).
Qed.

(** ** Every event preserves the invariant *)

Section conserved.
  Context `{Crypto}.
  (** The three sinks are keyless: no verifying key hashes to them. *)
  Hypothesis keyless : forall k, ~ is_sink (Token.account_id k).

(** Well-typed amounts, and no transaction that names a sink as a plain recipient or as the recipient of a
    contract.  A deal may name any provider: only a key that hashes to it is ever paid. *)
Definition tx_ok (tx : Tx) : Prop :=
  match tx with
  | TxBase tx => Ledger.tx_ok tx /\
      match tx with
      | Ledger.TxTransparent st => Token.t_to (Token.transfer st) <> Market.STORAGE_ESCROW
      | Ledger.TxHtlc (Hermes.Lock terms _) => Htlc.recipient terms <> Market.STORAGE_ESCROW
      | _ => True
      end
  | TxName tx => Token.transfer_ok (Token.transfer (Naming.payment tx))
  | TxStorage (Market.Open p payment) => Token.transfer_ok (Token.transfer payment) /\ 0 <= Market.duration p
  | TxStorage _ => True
  end.

Definition event_ok (e : event) : Prop :=
  match e with Exec tx => tx_ok tx | Reward _ x => 0 <= x | _ => True end.

Lemma base_keyless : forall k, ~ Ledger.is_sink (Token.account_id k).
Proof. intros k Hk. apply (keyless k). by left. Qed.

Lemma payer_not_sink st : Token.verify st = true -> ~ is_sink (Token.t_from (Token.transfer st)).
Proof. unfold Token.verify. case_bool_decide as E; [done|]. rewrite <- E. intros _. apply keyless. Qed.

(** A payment between accounts other than the storage escrow. *)
Lemma payment_untouched l st : Token.t_to (Token.transfer st) <> Market.STORAGE_ESCROW ->
  Token.balance (snd (Token.apply l st)) Market.STORAGE_ESCROW = Token.balance l Market.STORAGE_ESCROW.
Proof.
  intros Hto. destruct (Token.verify st) eqn:Hv.
  - apply Ledger.apply_untouched; [|done]. intros E. apply (payer_not_sink st Hv). by right.
  - unfold Token.apply, Token.apply_with_verdict. by rewrite Hv.
Qed.

Definition parties_ok (L : Ledger.HybridLedger) : Prop := map_Forall (fun _ h => party_ok h) (Hermes.htlcs (Ledger.htlcs L)).

(** What the storage side needs of a step of the base ledger. *)
Definition keeps (L L' : Ledger.HybridLedger) : Prop :=
  Token.balance (Ledger.tokens L') Market.STORAGE_ESCROW = Token.balance (Ledger.tokens L) Market.STORAGE_ESCROW /\
  (parties_ok L -> parties_ok L').

Lemma keeps_refl L : keeps L L.
Proof. done. Qed.

Lemma sink_not_escrow : Stake.STAKE_SINK <> Market.STORAGE_ESCROW /\ Hermes.HTLC_ESCROW <> Market.STORAGE_ESCROW /\
  Ledger.TREASURY <> Market.STORAGE_ESCROW.
Proof. by vm_compute. Qed.

Lemma lock_keeps L terms payment : Htlc.recipient terms <> Market.STORAGE_ESCROW ->
  keeps L (snd (Ledger.lock_htlc L terms payment)).
Proof.
  intros Hr. unfold Ledger.lock_htlc. cbv zeta.
  match goal with |- context [if ?b then (Some false, L) else _] => destruct b eqn:Eg end; [done|].
  rewrite !orb_false_iff, negb_false_iff, !bool_decide_eq_false, negb_false_iff in Eg.
  destruct Eg as ((((_ & Hv) & Ef%dec_stable) & Eto%dec_stable) & _). case_bool_decide; [done|].
  destruct (Token.is_premature _ _); [done|]. pose proof (payment_untouched (Ledger.tokens L) payment) as Hu.
  destruct (Token.apply _ payment) as [[[]|e] l']; [|done]. split.
  - apply Hu. rewrite Eto. apply sink_not_escrow.
  - intros Hp. apply map_Forall_insert_2; [|done]. split; [done|]. cbn [Htlc.new Htlc.terms]. rewrite <- Ef.
    intros E. apply (payer_not_sink payment Hv). by right.
Qed.

Lemma settle_keeps L id h to x h' : (parties_ok L -> to <> Market.STORAGE_ESCROW) -> parties_ok L ->
  Hermes.htlcs (Ledger.htlcs L) !! id = Some h -> Htlc.terms h' = Htlc.terms h ->
  keeps L (snd (Ledger.settle_htlc L id (Some (Htlc.Pay to x), h'))).
Proof.
  intros Hto Hp Hid Ht. specialize (Hto Hp). pose proof sink_not_escrow as (_ & Hn & _). split.
  - cbn [snd Ledger.settle_htlc Ledger.tokens]. apply Ledger.move_system_untouched; congruence.
  - intros _. apply map_Forall_insert_2; [|done]. unfold party_ok. rewrite Ht. by apply (Hp id h).
Qed.

Lemma claim_keeps L id preimage : parties_ok L -> keeps L (snd (Ledger.claim_htlc L id preimage)).
Proof.
  intros Hp. unfold Ledger.claim_htlc. destruct (_ !! id) as [h|] eqn:E; [|done].
  pose proof (Htlc.run_locked h (Htlc.OpClaim preimage) (Ledger.height L)) as Hr. simpl in Hr.
  destruct (Htlc.claim h preimage (Ledger.height L)) as [[r|] h']; [|done].
  destruct Hr as (_ & Ht & Hres). inversion Hres; subst. apply settle_keeps with (h := h); try done.
  intros _. by apply (Hp id h) in E as [? _].
Qed.

Lemma refund_keeps L id : parties_ok L -> keeps L (snd (Ledger.refund_htlc L id)).
Proof.
  intros Hp. unfold Ledger.refund_htlc. destruct (_ !! id) as [h|] eqn:E; [|done].
  pose proof (Htlc.run_locked h Htlc.OpRefund (Ledger.height L)) as Hr. simpl in Hr.
  destruct (Htlc.refund h (Ledger.height L)) as [[r|] h']; [|done].
  destruct Hr as (_ & Ht & Hres). inversion Hres; subst. apply settle_keeps with (h := h); try done.
  intros _. by apply (Hp id h) in E as [_ ?].
Qed.

Lemma stake_keeps L tx : keeps L (snd (Ledger.apply_stake L tx)).
Proof.
  pose proof sink_not_escrow as (Hn & _). unfold Ledger.apply_stake. cbv zeta. case_bool_decide as Eto; [done|].
  destruct tx as [st|st]; cbn [Stake.transfer] in *.
  - pose proof (payment_untouched (Ledger.tokens L) st) as Hu. destruct (Token.apply _ st) as [[[]|e] l']; [|done].
    split; [|done]. apply Hu. congruence.
  - destruct (negb (Token.verify st) || _) eqn:Eg; [done|]. rewrite orb_false_iff, negb_false_iff in Eg. destruct Eg as [Hv _].
    unfold Token.consume_nonce. destruct (negb _); [done|]. cbn [negb snd]. split; [|done]. cbn [Ledger.tokens].
    rewrite Ledger.move_system_untouched; [done|congruence|]. intros E. apply (payer_not_sink st Hv). by right.
Qed.

Lemma slash_keeps L tx : keeps L (snd (Ledger.apply_slash L tx)).
Proof.
  pose proof sink_not_escrow as (Hn & _ & Ht). unfold Ledger.apply_slash. destruct (Stake.evidence tx); [|done].
  destruct (Stake.record_slashed _ _) as [fresh s1]. destruct (negb fresh); [done|]. cbv zeta. case_match; [|done].
  split; [|done]. cbn [snd Ledger.settle_htlc Ledger.tokens]. apply Ledger.move_system_untouched; congruence.
Qed.

Lemma base_keeps L tx : parties_ok L -> tx_ok (TxBase tx) -> keeps L (snd (Ledger.exec L tx)).
Proof.
  intros Hp [_ Ht]. destruct tx as [st|[terms payment|id preimage|id]|tx|tx]; cbn [Ledger.exec Ledger.exec_htlc].
  - unfold Ledger.exec_transparent. fold (Token.apply (Ledger.tokens L) st). pose proof (payment_untouched (Ledger.tokens L) st Ht) as Hu.
    destruct (Token.apply _ st) as [[u|[]] l']; done.
  - pose proof (lock_keeps L terms payment Ht). by destruct (Ledger.lock_htlc L terms payment).
  - pose proof (claim_keeps L id preimage Hp). case_match; [|done]. by destruct (Ledger.claim_htlc L id preimage).
  - pose proof (refund_keeps L id Hp). case_match; [|done]. by destruct (Ledger.refund_htlc L id).
  - unfold Ledger.exec_stake. pose proof (stake_keeps L tx). by destruct (Ledger.apply_stake L tx).
  - unfold Ledger.exec_slash. pose proof (slash_keeps L tx). by destruct (Ledger.apply_slash L tx).
Qed.

Lemma base_preserves F tx : inv F -> tx_ok (TxBase tx) ->
  inv (set_base (snd (Ledger.exec (base F) tx)) F) /\ Token.total (Ledger.tokens (snd (Ledger.exec (base F) tx))) = Token.total (tokens F).
Proof.
  intros (Hb & Hp & Hs & Hd) Ht. destruct (base_keeps (base F) tx Hp Ht) as [He Hp'].
  destruct (Ledger.step_preserves base_keyless (base F) (Ledger.Exec tx) Hb (proj1 Ht)) as [Hb' Htot]. split; [|done].
  split; [done|]. split; [by apply Hp'|]. split; [|done]. unfold tokens. cbn [base set_base storage]. by rewrite He.
Qed.

Lemma open_preserves F p payment : inv F -> tx_ok (TxStorage (Market.Open p payment)) ->
  inv (snd (open_deal F p payment)) /\ Token.total (tokens (snd (open_deal F p payment))) = Token.total (tokens F).
Proof.
  intros Hi (Ht & Hd). unfold open_deal. cbv zeta.
  match goal with |- context [if ?b then (Some false, F) else _] => destruct b eqn:Eg end; [done|].
  match goal with |- context [if ?b then (Some false, F) else _] => destruct b eqn:Ep end; [done|].
  rewrite !orb_false_iff, !Z.eqb_neq, !Z.ltb_ge in Eg.
  rewrite !orb_false_iff, !negb_false_iff, !bool_decide_eq_false, Z.eqb_eq in Ep.
  destruct Eg as (((_ & Hd0) & Hmax) & Hp0), Ep as (((Hv & Ec%dec_stable) & Eto%dec_stable) & Ea).
  case_bool_decide as Hid; [done|]. apply eq_None_not_Some in Hid.
  unfold Market.open_at, Market.open_inner. rewrite (proj2 (Z.eqb_neq _ _)) by done.
  destruct (Token.is_premature _ _); [done|]. pose proof Hi as (Hb & _ & Hs & Hm). pose proof Hb as (Hok & _). fold (tokens F) in Hok.
  pose proof (Token.apply_settles (tokens F) payment Hok Ht) as Hset. pose proof (Ledger.apply_untouched (tokens F) payment) as Hu.
  destruct (Token.apply (tokens F) payment) as [[[]|e] l'] eqn:E; [|done]. destruct Hset as (_ & (_ & _ & Hbal & _) & Hok' & Htot).
  pose proof (payer_not_sink payment Hv) as Hns. cbn [snd] in Hu |- *. split; [|done]. apply inv_update; try done.
  - intros b Hsb. apply Hu; [|rewrite Eto; by apply escrow_distinct]. intros ->. apply Hns. by left.
  - rewrite msum_insert_new, escrow_active, Hs, Hbal, Eto, Ledger.delta_eq, Ledger.delta_ne by (done || intros E'; apply Hns; by right).
    unfold Market.refundable, sat_sub. cbn [Market.params Market.released]. destruct Ht as [[? _] _]. lia.
  - apply map_Forall_insert_2; [|done]. unfold deal_ok, Market.params_ok.
    cbn [Market.params Market.passed Market.epoch Market.state Market.released]. rewrite <- Ec, <- Ea.
    split; [split; [apply Ht|split; [unfold in_u, Market.MAX_DEAL_DURATION in *; lia|lia]]|]. split; [done|]. split; [lia|].
    split; [done|]. split; [lia|]. unfold Market.share. by rewrite Z.mul_0_r, Z.div_0_l.
Qed.

(** A passing audit moves the next share out of the deal. *)
Lemma settle_deal d h i s d' : deal_ok d -> Market.settle_epoch d h true i = Some (s, d') ->
  deal_ok d' /\ exists x, s = Market.Pay (Market.provider (Market.params d)) x /\ x = Market.share (Market.params d) (Market.passed d + 1) - Market.share (Market.params d) (Market.passed d) /\
    0 <= x /\ escrow_of d' = escrow_of d - x.
Proof.
  intros Hd Hs. apply Market.settle_Some in Hs as (Ha & _ & -> & ->). rewrite (escrow_active d Ha), refundable_exact by done.
  pose proof Hd as (Hp & Hns & Hn & He & Hst). rewrite Ha in Hst. destruct Hst as [Hlt Hr].
  pose proof Hp as ((Hp0 & _) & [_ Hdu] & Hd0).
  assert (Ee : sat_add 64 (Market.epoch d) 1 = Market.passed d + 1) by (unfold sat_add; lia).
  assert (Epd : sat_add 64 (Market.passed d) 1 = Market.passed d + 1) by (unfold sat_add; lia).
  rewrite Market.owed_exact; cbn [Market.params Market.passed]; rewrite ?Ee, ?Epd; [|done|lia].
  pose proof (Market.share_le _ (Market.passed d + 1) Hp ltac:(lia)) as Hle.
  pose proof (Market.share_mono _ (Market.passed d) (Market.passed d + 1) Hp ltac:(lia)) as Hmono.
  set (d' := Market.mk_deal _ _ _ _ _ _ _).
  assert (Hd' : deal_ok d').
  { unfold deal_ok, d'. cbn [Market.params Market.passed Market.epoch Market.state Market.released].
    split; [done|]. split; [done|]. split; [lia|]. split; [done|].
    destruct (Z.leb_spec (Market.duration (Market.params d)) (Market.passed d + 1)) as [Ec|Ec]; [|done].
    replace (Market.passed d + 1) with (Market.duration (Market.params d)) by lia. by apply Market.share_full. }
  split; [done|]. eexists. split; [done|]. unfold sat_sub. cbn [Market.released d']. rewrite Z.max_l by lia. split; [lia|]. split; [lia|].
  destruct (decide (Market.state d' = Market.Active)) as [E|E].
  - rewrite escrow_active, refundable_exact by done. unfold d'. cbn [Market.params Market.released]. lia.
  - rewrite escrow_over by done. destruct Hd' as (_ & _ & _ & _ & Hr'). unfold d' in E, Hr'. cbn [Market.state Market.params Market.released] in *.
    destruct (_ <=? _); [|done]. lia.
Qed.

Lemma prove_preserves fuel F id auth response ok F' : inv F -> prove_deal fuel F id auth response = Some (ok, F') ->
  inv F' /\ Token.total (tokens F') = Token.total (tokens F).
Proof.
  intros Hi. unfold prove_deal. destruct (_ !! id) as [d|] eqn:Ed; [|by intros [= _ <-]].
  case_bool_decide; [by intros [= _ <-]|]. cbv zeta. destruct (Token.auth_verify _ _ _ _) eqn:Hv; cbn [negb]; [|by intros [= _ <-]].
  destruct (Por.decode_response response); [|by intros [= _ <-]]. destruct (Por.verify _ _ _ _ _ _) as [v|]; [|done].
  cbn [mbind option_bind]. destruct (negb v); [by intros [= _ <-]|].
  destruct (Market.settle_epoch d (height F) true Market.AUDIT_PERIOD) as [[s d']|] eqn:Es; [|by intros [= _ <-]].
  pose proof Hi as (_ & _ & _ & Hm). pose proof (Hm id d Ed) as Hd.
  destruct (settle_deal _ _ _ _ _ Hd Es) as (Hd' & x & -> & _ & Hx & He). intros [= _ <-].
  apply (deal_pays F id d d' (Market.provider (Market.params d)) x Hi Ed Hd'); [|done|done].
  unfold Token.auth_verify in Hv. case_bool_decide as Ek; [done|]. rewrite <- Ek. apply keyless.
Qed.

Lemma close_preserves F id auth : inv F ->
  inv (snd (close_deal F id auth)) /\ Token.total (tokens (snd (close_deal F id auth))) = Token.total (tokens F).
Proof.
  intros Hi. unfold close_deal. destruct (_ !! id) as [d|] eqn:Ed; [|done]. cbv zeta. destruct (_ || _); [done|].
  pose proof Hi as (Hb & Hp & Hs & Hm). pose proof (Hm id d Ed) as Hd. cbn [Market.close].
  pose proof (finish_ok d Market.Closed Hd ltac:(done)) as Hd'.
  assert (Er : escrow_of d = Market.refundable d).
  { destruct (decide (Market.state d = Market.Active)); [by apply escrow_active|]. rewrite escrow_over, refundable_exact by done.
    destruct Hd as (_ & _ & _ & _ & Hr). destruct (Market.state d); [done|lia..]. }
  assert (E0 : escrow_of (Market.finish d Market.Closed) = escrow_of d - Market.refundable d) by (rewrite escrow_over by done; lia).
  destruct (Z.ltb_spec 0 (Market.refundable d)).
  - apply (deal_pays F id d (Market.finish d Market.Closed) (Market.consumer (Market.params d)) (Market.refundable d) Hi Ed Hd');
      [apply Hd|lia|done].
  - split; [|done]. split; [done|]. split; [done|]. split; [|by apply map_Forall_insert_2].
    cbn [snd set_deals storage Market.deals]. rewrite msum_insert, Ed. pose proof (escrow_nonneg d).
    change (tokens (set_deals _ F)) with (tokens F). rewrite Hs, E0. simpl default. lia.
Qed.

Lemma shares_paid share vs : 0 <= share -> forall l, Token.ledger_ok l ->
  let l' := fold_left (pay_share share) vs l in
  Token.ledger_ok l' /\ Token.total l' = Token.total l /\ forall b, is_sink b -> Token.balance l' b = Token.balance l b.
Proof.
  intros Hsh. induction vs as [|v vs IH]; intros l Hl; [done|]. cbn [fold_left].
  assert (Hone : Token.ledger_ok (pay_share share l v) /\ Token.total (pay_share share l v) = Token.total l).
  { unfold pay_share, Token.move_system. destruct (Z.ltb_spec (Token.balance l Ledger.TREASURY) share); [done|]. cbn [snd].
    by destruct (Token.move_exact l Ledger.TREASURY (Token.account_id v) share Hl ltac:(lia)) as (? & ? & _). }
  destruct Hone as [H1 H2]. destruct (IH _ H1) as (G1 & G2 & G3). split; [done|]. split; [congruence|]. intros b Hb. rewrite G3 by done.
  apply Ledger.move_system_untouched; intros ->; [by apply treasury_no_sink|by apply (keyless v)].
Qed.

Lemma reward_preserves F vs x : inv F -> 0 <= x ->
  inv (apply_block_reward F vs x) /\ Token.total (tokens (apply_block_reward F vs x)) = Token.total (tokens F).
Proof.
  intros Hi Hx. unfold apply_block_reward. cbv zeta. destruct (_ || _); [done|]. case_match; [done|].
  pose proof Hi as (Hb & Hp & Hs & Hm). pose proof Hb as (Hok & _). fold (tokens F) in Hok.
  set (share := _ / _). assert (Hsh : 0 <= share).
  { unfold share. destruct (length vs); [by rewrite Z.div_0_r|apply Z.div_pos; [|lia]].
    pose proof (Token.balance_range (tokens F) Ledger.TREASURY Hok) as [? _]. lia. }
  destruct (shares_paid share vs Hsh _ Hok) as (H1 & H2 & H3). split; [|done].
  apply (inv_update F (fold_left (pay_share share) vs (tokens F)) (Market.deals (storage F))); try done.
  - intros b Hsb. apply H3. by left.
  - rewrite H3 by (by right). done.
Qed.

Lemma name_preserves F tx : inv F -> tx_ok (TxName tx) ->
  inv (snd (exec_name F tx)) /\ Token.total (tokens (snd (exec_name F tx))) = Token.total (tokens F).
Proof.
  intros Hi Ht. unfold exec_name, Naming.apply. destruct (negb _); [done|]. cbv zeta. case_bool_decide as Eto; [done|].
  destruct (Naming.plan _ _ _ _ _ _); [|by repeat case_match]. pose proof Hi as (Hb & Hp & Hs & Hm). pose proof Hb as (Hok & _).
  fold (tokens F) in Hok. pose proof (Token.apply_settles (tokens F) (Naming.payment tx) Hok Ht) as Hset.
  pose proof (Ledger.apply_untouched (tokens F) (Naming.payment tx)) as Hu.
  destruct (Token.apply (tokens F) (Naming.payment tx)) as [[u|e] l'] eqn:E; [|by destruct e].
  destruct Hset as (Hv & _ & Hok' & Htot). cbn [snd] in Hu |- *. split; [|done].
  assert (Hsame : forall b, is_sink b -> Token.balance l' b = Token.balance (tokens F) b).
  { intros b Hsb. apply Hu; [intros ->; by apply (payer_not_sink (Naming.payment tx) Hv)|].
    rewrite Eto. intros ->. by apply treasury_no_sink. }
  assert (Hup : inv (set_deals (Market.deals (storage F)) (set_tokens l' F))).
  { apply inv_update; try done; [intros b Hsb; apply Hsame; by left|]. rewrite Hsame by (by right). done. }
  exact Hup.
Qed.

Lemma begin_preserves F h : inv F ->
  inv (begin_block F h) /\ Token.total (tokens (begin_block F h)) = Token.total (tokens F).
Proof.
  intros Hi. unfold begin_block. cbv zeta. set (F0 := set_base (Ledger.set_height (base F) h) F).
  assert (Hi0 : inv F0) by exact Hi.
  destruct (sweep_preserves F0 Hi0) as [Hi1 Ht1]. set (F1 := finalize_lapsed_deals F0) in *. split; [|exact Ht1].
  destruct Hi1 as (Hb & Hp & Hs & Hm). split.
  - change (Ledger.prune_htlcs (base F1)) with (Ledger.prune_htlcs (Ledger.mk_hybrid (Ledger.tokens (base F1)) (Ledger.htlcs (base F1)) (Ledger.stake (base F1)) (Ledger.height (base F1)))).
    exact (Ledger.prune_preserves (base F1) (Ledger.height (base F1)) Hb).
  - split; [|done]. intros k c [Hk _]%map_lookup_filter_Some. by apply (Hp k).
Qed.

Lemma event_preserves fuel F e F' : inv F -> event_ok e -> step fuel F e = Some F' ->
  inv F' /\ Token.total (tokens F') = Token.total (tokens F).
Proof.
  intros Hi He. destruct e as [[tx|tx|[p payment|id auth response|id auth]]|h|b|vs x]; cbn [step exec exec_storage].
  - pose proof (base_preserves F tx Hi He) as Hb. destruct (Ledger.exec (base F) tx). by intros [= <-].
  - pose proof (name_preserves F tx Hi He). by intros [= <-].
  - pose proof (open_preserves F p payment Hi He). destruct (open_deal F p payment). by intros [= <-].
  - case_bool_decide; [|by intros [= <-]]. destruct (prove_deal fuel F id auth response) as [[ok F1]|] eqn:E; [|done].
    intros [= <-]. by apply (prove_preserves _ _ _ _ _ _ _ Hi) in E.
  - case_bool_decide; [|by intros [= <-]]. pose proof (close_preserves F id auth Hi). destruct (close_deal F id auth). by intros [= <-].
  - intros [= <-]. by apply begin_preserves.
  - by intros [= <-].
  - intros [= <-]. by apply reward_preserves.
Qed.

(** Only an audit can be still drawing indices when the fuel runs out. *)
Definition no_audit (e : event) : Prop :=
  match e with Exec (TxStorage (Market.Prove _ _ _)) => False | _ => True end.

Lemma step_returns fuel F e : no_audit e -> exists F', step fuel F e = Some F'.
Proof.
  intros Hn. destruct e as [[tx|tx|[p payment|id auth response|id auth]]|h|b|vs x]; cbn [step exec exec_storage]; try (by destruct Hn); try by eexists.
  - destruct (Ledger.exec (base F) tx). by eexists.
  - destruct (open_deal F p payment). by eexists.
  - case_bool_decide; [|by eexists]. destruct (close_deal F id auth). by eexists.
Qed.

(** C4: the three escrow accounts always hold exactly what the ledger owes from them.  Whatever
    transfers, swaps, bonds, slashings, name operations, storage deals, audits, closings, block starts
    (with their sweep of abandoned and lapsed deals), beacons and block rewards arrive, in whatever order
    and whether they are applied, deferred or rejected, as long as no key hashes to a sink and no
    transaction names a sink as a plain recipient or contract recipient: the ledger's own
    three-sink check holds afterwards and the total supply is what it was.  Only an audit whose challenge
    is still drawing indices can leave the model without a result. *)
Theorem three_escrows_conserved fuel F es :
  inv F -> Forall event_ok es ->
  (forall F', run fuel F es = Some F' ->
     inv F' /\ holds (conservation F') = true /\ Token.total (tokens F') = Token.total (tokens F)) /\
  (Forall no_audit es -> exists F', run fuel F es = Some F').
Proof.
  intros Hi HF. split.
  - intros F' Hr. assert (Hx : inv F' /\ Token.total (tokens F') = Token.total (tokens F)).
    { revert F Hi Hr. induction HF as [|e es He _ IH]; intros F Hi Hr; cbn [run] in Hr; [by injection Hr as ->|].
      destruct (step fuel F e) as [F1|] eqn:E; [|done]. destruct (event_preserves fuel F e F1 Hi He E) as [Hi1 Ht1].
      destruct (IH F1 Hi1 Hr). split; [done|congruence]. }
    destruct Hx. split; [done|]. split; [by apply inv_holds|done].
  - clear Hi HF. revert F. induction es as [|e es IH]; intros F HF; [by eexists|]. apply Forall_cons in HF as [He HF]. cbn [run].
    destruct (step_returns fuel F e He) as [F1 ->]. by apply IH.
Qed.

End conserved.

(** ** Audits *)

Section audits.
  Context `{CryptoLaws}.

(** The conditions of [prove_deal], on the deal and the response. *)
Lemma prove_accepts fuel F id d auth rb response : Market.deals (storage F) !! id = Some d ->
  Market.state d = Market.Active -> Token.auth_verify auth id rb (Market.provider (Market.params d)) = true ->
  Por.decode_response rb = Some response ->
  Por.verify fuel (Market.cid (Market.params d)) (audit_beacon F) (Market.k (Market.params d))
    (Market.leaves_for_size (Market.size_ (Market.params d))) response = Some true ->
  Market.due_at d (height F) Market.AUDIT_PERIOD = true ->
  exists d' x, Market.settle_epoch d (height F) true Market.AUDIT_PERIOD = Some (Market.Pay (Market.provider (Market.params d)) x, d') /\
    prove_deal fuel F id auth rb = Some (true,
      set_tokens (snd (Token.move_system (tokens F) Market.STORAGE_ESCROW (Market.provider (Market.params d)) x))
        (set_deals (<[id := d']> (Market.deals (storage F))) F)).
Proof.
  intros Hd Ha Hv Hr Hp Hdue.
  destruct (Market.settle_epoch d (height F) true Market.AUDIT_PERIOD) as [[s d']|] eqn:Es.
  - pose proof (Market.settle_Some _ _ _ _ _ _ Es) as (_ & _ & _ & ->). eexists _, _. split; [done|].
    unfold prove_deal. rewrite Hd. rewrite bool_decide_false by (intros Hn; by apply Hn). cbv zeta. rewrite Hv. cbn [negb].
    rewrite Hr, Hp. cbn [mbind option_bind negb]. by rewrite Es.
  - unfold Market.settle_epoch in Es. rewrite bool_decide_false, Hdue in Es by (intros Hn; by apply Hn). cbn in Es. by destruct (_ <=? _).
Qed.

Lemma prove_inv fuel F id auth rb F' : prove_deal fuel F id auth rb = Some (true, F') ->
  exists d response, Market.deals (storage F) !! id = Some d /\ Market.state d = Market.Active /\
    Token.auth_verify auth id rb (Market.provider (Market.params d)) = true /\ Por.decode_response rb = Some response /\
    Por.verify fuel (Market.cid (Market.params d)) (audit_beacon F) (Market.k (Market.params d))
      (Market.leaves_for_size (Market.size_ (Market.params d))) response = Some true /\
    Market.due_at d (height F) Market.AUDIT_PERIOD = true.
Proof.
  unfold prove_deal. destruct (_ !! id) as [d|] eqn:Ed; [|done]. case_bool_decide as Ha; [done|]. cbv zeta.
  destruct (Token.auth_verify _ _ _ _) eqn:Hv; [|done]. cbn [negb]. destruct (Por.decode_response rb) as [response|]; [|done].
  destruct (Por.verify _ _ _ _ _ _) as [[]|] eqn:Hp; [|done..]. cbn [mbind option_bind negb].
  destruct (Market.settle_epoch _ _ _ _) as [[s d']|] eqn:Es; [|done]. intros _.
  apply Market.settle_Some in Es as (Hst & Hdue & _ & _). by exists d, response.
Qed.

Lemma auth_sign_verifies id rb sk : Token.auth_verify (Token.auth_sign id rb sk (verifier_of sk)) id rb (Token.account_id (verifier_of sk)) = true.
Proof.
  unfold Token.auth_verify, Token.auth_sign. cbn [Token.provider_key Token.auth_sig]. rewrite bool_decide_false by (intros Hn; by apply Hn).
  by rewrite sig_from_to, hybrid_sign_verifies.
Qed.

Lemma leaves_of_chunk chunk : Market.leaves_for_size (Block.zlen chunk) = Content.leaf_count chunk.
Proof.
  unfold Market.leaves_for_size. destruct chunk as [|b l]; [done|]. cbn [Content.leaf_count]. apply Z.max_l.
  unfold Content.div_ceil, Block.zlen, Content.LEAF. cbn [length]. apply Z.div_le_lower_bound; lia.
Qed.

(** A size the market admits is at most 64 leaves. *)
Lemma leaves_admitted s : s <= Market.MAX_DEAL_SIZE -> 1 <= Market.leaves_for_size s <= 64.
Proof.
  unfold Market.MAX_DEAL_SIZE, Content.CHUNK, Market.leaves_for_size, Content.div_ceil, Content.LEAF. intros Hs. split; [lia|].
  apply Z.max_lub; [|done]. apply Z.lt_succ_r, Z.div_lt_upper_bound; lia.
Qed.

(** C9: a provider that keeps the chunk is paid.  Take an active deal whose id and whose declared size
    are those of a chunk of at most [MAX_DEAL_SIZE] bytes and whose provider is not the escrow account.
    When its audit is due and the beacon's draw of the challenge comes to an end, whoever holds the chunk
    and the provider's key can answer it, the ledger accepts the answer, and the provider's balance
    grows by exactly the next share of the price.  (A deal on a sealed chunk of full size does not meet
    the size condition: [full_sealed_chunk_never_pays].) *)
Theorem honest_provider_is_paid fuel F id d chunk sk expected :
  inv F -> Market.deals (storage F) !! id = Some d -> Market.state d = Market.Active ->
  Market.cid (Market.params d) = Content.chunk_cid chunk -> Market.size_ (Market.params d) = Block.zlen chunk ->
  Block.zlen chunk <= Market.MAX_DEAL_SIZE -> Market.provider (Market.params d) = Token.account_id (verifier_of sk) ->
  Token.account_id (verifier_of sk) <> Market.STORAGE_ESCROW ->
  0 <= Market.k (Market.params d) -> Market.due_at d (height F) Market.AUDIT_PERIOD = true ->
  Por.challenge fuel (Content.chunk_cid chunk) (audit_beacon F) (Market.k (Market.params d)) (Content.leaf_count chunk) = Some expected ->
  exists response F', Por.prove chunk expected = Some response /\
    let rb := Por.encode_response response in
    prove_deal fuel F id (Token.auth_sign id rb sk (verifier_of sk)) rb = Some (true, F') /\
    Token.balance (tokens F') (Token.account_id (verifier_of sk)) =
      Token.balance (tokens F) (Token.account_id (verifier_of sk)) +
        (Market.share (Market.params d) (Market.passed d + 1) - Market.share (Market.params d) (Market.passed d)).
Proof.
  intros Hi Hd Ha Ec Esz Hsz Epr Hne Hk Hdue Hch. set (vk := verifier_of sk) in *.
  assert (Hlc : 0 <= Content.leaf_count chunk <= 64).
  { rewrite <- leaves_of_chunk. pose proof (leaves_admitted _ Hsz). lia. }
  assert (Hm : Content.leaf_count chunk <= Merkle.MAX_LEAVES) by (unfold Merkle.MAX_LEAVES; lia).
  assert (Hmx : Content.leaf_count chunk <= Por.MAX_AUDIT_LEAVES) by (unfold Por.MAX_AUDIT_LEAVES; lia).
  destruct (Por.challenge_spec _ _ _ _ _ _ Hk (conj (proj1 Hlc) Hmx) Hch) as (_ & Hr & Hlen).
  destruct (Por.prove_total chunk expected Hm Hr) as [response Hp]. exists response.
  destruct (Por.prove_answers chunk Hm expected response ltac:(intros x Hx; by apply Hr) Hp) as [Hl Hans].
  set (rb := Por.encode_response response).
  assert (Hdec : Por.decode_response rb = Some response).
  { apply Por.decode_encode_response; [|rewrite Hl; lia]. eapply Por.prove_fits; [| | |done].
    - unfold Market.MAX_DEAL_SIZE, Content.CHUNK in Hsz. lia.
    - lia.
    - intros x Hx%Hr. lia. }
  destruct (prove_accepts fuel F id d (Token.auth_sign id rb sk vk) rb response Hd Ha) as (d' & x & Es & Hpd).
  - rewrite Epr. apply auth_sign_verifies.
  - done.
  - rewrite Ec, Esz, leaves_of_chunk. unfold Por.verify. rewrite Hch, Hl, Nat.eqb_refl. cbn [mbind option_bind negb]. by rewrite Hans.
  - done.
  - eexists. split; [done|]. split; [exact Hpd|]. pose proof Hi as ((Hok & _) & _ & _ & Hmd).
    pose proof (Hmd id d Hd) as Hdo. destruct (settle_deal _ _ _ _ _ Hdo Es) as (Hd' & y & [= <-] & Ex & Hx & He).
    pose proof (escrow_le F id d Hi Hd). pose proof (escrow_nonneg d').
    destruct (Ledger.move_system_exact (tokens F) Market.STORAGE_ESCROW (Market.provider (Market.params d)) x) as (_ & _ & Hb); [done|lia|].
    etrans; [apply Hb|]. rewrite Epr, Ledger.delta_eq, Ledger.delta_ne, <- Ex by done. lia.
Qed.

(** Where a deal audits every leaf, an audit transaction can be replayed.  The signature of a proof
    covers the deal and the response and nothing of the epoch; when the challenge is all the leaves the
    response does not depend on the beacon either, so a proof accepted once is accepted, from anyone,
    at every later epoch at which the deal is due, whatever the beacon. *)
Theorem full_audit_is_replayable fuel F id d auth rb F' :
  Market.deals (storage F) !! id = Some d -> Market.leaves_for_size (Market.size_ (Market.params d)) <= Market.k (Market.params d) ->
  prove_deal fuel F id auth rb = Some (true, F') ->
  forall fuel' G d', Market.deals (storage G) !! id = Some d' -> Market.params d' = Market.params d ->
    Market.state d' = Market.Active -> Market.due_at d' (height G) Market.AUDIT_PERIOD = true ->
    exists G', prove_deal fuel' G id auth rb = Some (true, G').
Proof.
  intros Hd Hk Hp fuel' G d' Hd' Ep Ha Hdue. apply prove_inv in Hp as (d0 & response & Hd0 & _ & Hv & Hr & Hver & _).
  rewrite Hd in Hd0. injection Hd0 as <-.
  destruct (prove_accepts fuel' G id d' auth rb response Hd' Ha) as (d2 & x & _ & E); rewrite ?Ep; try done; [|by eexists].
  by rewrite (Por.full_audit_ignores_beacon fuel' fuel _ _ (audit_beacon F)).
Qed.

(** The messages hashed for a chunk's id and by the audit of a response against it hold a break. *)
Definition breaks_audit (chunk : list Z) (params : Market.DealParams) (rb : list Z) : Prop :=
  exists response, Por.decode_response rb = Some response /\
    broken_on (Content.chunk_hashed chunk ++ Por.response_hashed (Market.leaves_for_size (Market.size_ params)) response).

(** No response proves a chunk that has more leaves than the deal says. *)
Lemma wrong_leaf_count fuel F id d auth rb F' chunk : Market.deals (storage F) !! id = Some d ->
  0 < Market.k (Market.params d) -> Market.size_ (Market.params d) <= Market.MAX_DEAL_SIZE -> is_bytes rb ->
  Market.cid (Market.params d) = Content.chunk_cid chunk -> 64 < Content.leaf_count chunk <= Merkle.MAX_LEAVES ->
  prove_deal fuel F id auth rb = Some (true, F') -> breaks_audit chunk (Market.params d) rb.
Proof.
  intros Hd Hk Hs Hb Ec [Hgt Hm] Hp. apply prove_inv in Hp as (d0 & response & Hd0 & _ & _ & Hr & Hver & _).
  rewrite Hd in Hd0. injection Hd0 as <-. pose proof (leaves_admitted _ Hs) as Hl. rewrite Ec in Hver.
  apply Por.verify_inv in Hver as (expected & He & Hlen & Ha).
  set (leaves := Market.leaves_for_size _) in *. assert (Hu : is_u64 leaves) by (unfold in_u; lia).
  exists response. split; [done|]. fold leaves. apply dec_stable. intros Hx.
  pose proof (Por.verified_leaves _ chunk leaves response expected Hx ltac:(set_solver) ltac:(set_solver) Hm (Por.decode_widths _ _ Hb Hr) Hu Hlen Ha) as HF.
  apply Por.challenge_spec in He as (_ & _ & He); [|lia|unfold Por.MAX_AUDIT_LEAVES; lia].
  destruct HF as [|lp ? [E _] _]; [simpl in Hlen; lia|lia].
Qed.

End audits.

(** No deal pays for a full sealed chunk.  Sealing adds a tag of 16 bytes to every chunk, so a piece
    of exactly the chunk size seals to one leaf more than the largest deal the market admits has; an
    audit of it under any admitted deal that is accepted exhibits a collision among the messages
    hashed for the chunk's id and by that audit. *)
Theorem full_sealed_chunk_never_pays `{CryptoLaws} `{KemLaws} fuel F id d auth rb F' key i pieces refs chunks j piece chunk :
  Content.seal_chunks key i pieces = Some (refs, chunks) -> pieces !! j = Some piece -> Block.zlen piece = Content.CHUNK ->
  chunks !! j = Some chunk ->
  Market.deals (storage F) !! id = Some d -> Market.cid (Market.params d) = Content.chunk_cid chunk ->
  0 < Market.k (Market.params d) -> Market.size_ (Market.params d) <= Market.MAX_DEAL_SIZE -> is_bytes rb ->
  prove_deal fuel F id auth rb = Some (true, F') -> breaks_audit chunk (Market.params d) rb.
Proof.
  intros Hs Hp Hz Hc Hd Ec Hk Hsz Hb Hpd. destruct (Content.seal_lookup _ _ _ _ _ _ _ Hs Hc) as (p & Hp' & Hlen).
  rewrite Hp in Hp'. injection Hp' as <-. eapply wrong_leaf_count; try done.
  assert (Hx : Block.zlen chunk = 262160) by (unfold Block.zlen, Content.CHUNK in *; lia). rewrite <- leaves_of_chunk, Hx. done.
Qed.

(** ** Witnesses at the concrete signature instance *)

Definition w_chunk : list Z := [1; 2; 3; 4; 5].
Definition w_params : Market.DealParams :=
  Market.mk_params (@Content.chunk_cid toy_crypto w_chunk) 5 3 1 2 0 1 300 (@Token.account_id toy_crypto (@verifier_of toy_crypto Ledger.w_key))
    Ledger.w_alice.
Definition w_id : list Z := @Market.deal_id toy_crypto w_params 0.
Definition w_fund : Full := new (Token.credit Token.new Ledger.w_alice 1000).
Definition w_open : @event toy_crypto := Exec (TxStorage (Market.Open w_params (Ledger.w_pay Market.STORAGE_ESCROW 300 0))).
Definition w_response : list Z := Por.encode_response (default [] (@Por.prove toy_crypto w_chunk [0])).
Definition w_auth : @Token.ProverAuth toy_crypto := @Token.auth_sign toy_crypto w_id w_response Ledger.w_key Ledger.w_vk.
Definition w_prove : @event toy_crypto := Exec (TxStorage (Market.Prove w_id w_auth w_response)).

(** Open a deal, pass the first audit, fall silent until the sweep returns the rest. *)
Definition w_events : list (@event toy_crypto) := [w_open; BeginBlock 64; Beacon [7]; w_prove; BeginBlock 256].

Lemma w_no_key : forall k : @HybridVerifier toy_crypto, ~ is_sink (@Token.account_id toy_crypto k).
Proof. intros [[] []]; by_decide. Qed.

Lemma w_events_ok : Forall event_ok w_events.
Proof. repeat (constructor; [vm_compute; intuition discriminate|]). constructor. Qed.

Lemma w_fund_inv : inv w_fund.
Proof. by_decide. Qed.

Lemma three_escrows_conserved_witness :
  match @run toy_crypto 0 w_fund w_events with
  | Some F => holds (conservation F) = true /\ Token.total (tokens F) = 1000 /\ Token.balance (tokens F) Ledger.w_alice = 1000
  | None => False
  end.
Proof.
  destruct (@three_escrows_conserved toy_crypto w_no_key 0 w_fund w_events w_fund_inv w_events_ok) as [Hc _].
  destruct (@run toy_crypto 0 w_fund w_events) as [F|] eqn:E; [|vm_compute in E; discriminate E].
  destruct (Hc F eq_refl) as (_ & Hh & Ht). split; [exact Hh|]. split; [exact Ht|].
  assert (Hb : (fun F => Token.balance (tokens F) Ledger.w_alice) <$> @run toy_crypto 0 w_fund w_events = Some 1000) by (vm_compute; reflexivity).
  rewrite E in Hb. injection Hb as Hb. exact Hb.
Defined.

(** A deal open since height 0, at its first audit. *)
Definition w_deal : Market.Deal := Market.mk_deal w_params 0 0 0 Market.Active None (Some 0).
Definition w_at (h : Z) (beacon : list Z) : Full :=
  mk_full (Ledger.mk_hybrid (Token.credit (Token.credit Token.new Ledger.w_alice 700) Market.STORAGE_ESCROW 300) (Hermes.mk_book ∅) Stake.new h)
    Naming.new (Market.mk_market {[ w_id := w_deal ]}) beacon.

Lemma w_at_inv : inv (w_at 64 [7]).
Proof. by_decide. Qed.

Lemma w_lookup h b : Market.deals (storage (w_at h b)) !! w_id = Some w_deal.
Proof. apply lookup_singleton_eq. Qed.

Lemma honest_provider_is_paid_witness :
  exists response F', @Por.prove toy_crypto w_chunk [0] = Some response /\
    @prove_deal toy_crypto 0 (w_at 64 [7]) w_id (@Token.auth_sign toy_crypto w_id (Por.encode_response response) Ledger.w_key Ledger.w_vk)
      (Por.encode_response response) = Some (true, F') /\
    Token.balance (tokens F') Ledger.w_alice = Token.balance (tokens (w_at 64 [7])) Ledger.w_alice + (Market.share w_params 1 - Market.share w_params 0).
Proof.
  exact (@honest_provider_is_paid toy_crypto toy_laws 0 (w_at 64 [7]) w_id w_deal w_chunk Ledger.w_key [0] w_at_inv (w_lookup 64 [7]) eq_refl
    eq_refl eq_refl ltac:(vm_compute; discriminate) eq_refl ltac:(vm_compute; discriminate) ltac:(vm_compute; discriminate) ltac:(vm_compute; reflexivity) ltac:(vm_compute; reflexivity)).
Defined.

Lemma full_audit_is_replayable_witness :
  exists G', @prove_deal toy_crypto 0 (w_at 128 [9]) w_id w_auth w_response = Some (true, G').
Proof.
  destruct (@prove_deal toy_crypto 0 (w_at 64 [7]) w_id w_auth w_response) as [[[] F']|] eqn:E; [|exfalso..].
  - refine (@full_audit_is_replayable toy_crypto 0 (w_at 64 [7]) w_id w_deal w_auth w_response F' (w_lookup 64 [7]) _ E 0 (w_at 128 [9]) w_deal
      (w_lookup 128 [9]) eq_refl eq_refl _).
    + vm_compute. discriminate.
    + vm_compute. reflexivity.
  - assert (Hx : fst <$> @prove_deal toy_crypto 0 (w_at 64 [7]) w_id w_auth w_response = Some true) by (vm_compute; reflexivity).
    rewrite E in Hx. discriminate Hx.
  - assert (Hx : fst <$> @prove_deal toy_crypto 0 (w_at 64 [7]) w_id w_auth w_response = Some true) by (vm_compute; reflexivity).
    rewrite E in Hx. discriminate Hx.
Defined.

End Hybrid.
