(* ===== verification/PoolLedger.v ===== *)
(** * The ledger over the shielded pool

    [fanos-dromos/src/bridge.rs] (the transaction that shields public tokens), the pool's part of
    [fanos-dromos/src/hybrid.rs] (shielding, the commit of a shielded transaction, their dispatch), and the
    pool as a state machine of its own ([ShieldedLedger] of [fanos-dromos/src/lib.rs]). *)
From S2P Require Import Prelude Codec Sig Sums Block Kem Token Ledger Hybrid Commit NoteTree Shielded PoolCodec.
Local Open Scope Z_scope.

Module PoolLedger.
Import Commit NoteTree Shielded PoolCodec.

Definition POOL_SINK : list Z := ascii_bytes "FANOS-obolos-shielded-pool-sink!".
Definition TAG_SHIELDED : Z := 1.
Definition TAG_SHIELD : Z := 3.
Definition NOTE_OPENING_LEN : nat := 104 + RAND_WIRE_LEN.

Section ops.
  Context `{Crypto} `{KemCrypto}.

Record ShieldTx := mk_shield { payment : Token.SignedTransfer; s_note : Note }.

Definition shield_to_bytes (sx : ShieldTx) : list Z :=
  Token.st_to_bytes (payment sx) ++ le_bytes 8 (value (s_note sx)) ++ owner (s_note sx) ++ auth (s_note sx) ++
  rand_to_bytes (value_r (s_note sx)) ++ rho (s_note sx).

Definition shield_from_bytes (bytes : list Z) : option ShieldTx :=
  if negb (length bytes =? Token.WIRE_LEN + NOTE_OPENING_LEN)%nat then None else
  letO payment := slice 0 Token.WIRE_LEN bytes ≫= Token.st_from_bytes in
  letO rest := slice_from Token.WIRE_LEN bytes in
  letO value := slice 0 8 rest in
  letO owner := slice 8 40 rest in
  letO auth := slice 40 72 rest in
  letO rb := slice 72 (72 + RAND_WIRE_LEN) rest in
  letO value_r := rand_from_bytes rb in
  letO rho := slice_from (72 + RAND_WIRE_LEN) rest in
  Some (mk_shield payment (mk_note (from_le value) owner auth value_r rho)).

(** The ledger of [Hybrid.v] with its pool and the parameters of the pool's commitments. *)
Record HybridLedger := mk_ledger { pub : Hybrid.Full; shielded : ShieldedState; params : Params }.

Definition set_tokens (l : Token.TokenLedger) (G : HybridLedger) : HybridLedger :=
  mk_ledger (Hybrid.set_tokens l (pub G)) (shielded G) (params G).
Definition set_shielded (s : ShieldedState) (G : HybridLedger) : HybridLedger := mk_ledger (pub G) s (params G).
Definition tokens (G : HybridLedger) : Token.TokenLedger := Hybrid.tokens (pub G).

Definition mint_shielded (G : HybridLedger) (cm : list Z) : option Z * HybridLedger :=
  let '(pos, s) := mint (shielded G) cm in (pos, set_shielded s G).

Definition pool_backing (G : HybridLedger) : Z := Token.balance (tokens G) POOL_SINK.

Definition shield_payload (sx : ShieldTx) : list Z := TAG_SHIELD :: shield_to_bytes sx.
Definition shielded_payload (submission : list Z) : list Z := TAG_SHIELDED :: submission.

(** [None] is a premature payment. *)
Definition shield (G : HybridLedger) (sx : ShieldTx) : option bool * HybridLedger :=
  let t := Token.transfer (payment sx) in
  if negb (bool_decide (Token.t_to t = POOL_SINK)) || negb (Token.t_amount t =? value (s_note sx)) then (Some false, G) else
  if 2 ^ Z.of_nat TREE_DEPTH <=? note_count (shielded G) then (Some false, G) else
  if Token.is_premature (tokens G) (payment sx) then (None, G) else
  match Token.apply (tokens G) (payment sx) with
  | (Err _, _) => (Some false, G)
  | (Ok _, l) =>
      let '(pos, G) := mint_shielded (set_tokens l G) (commitment (params G) (s_note sx)) in
      (Some (bool_decide (is_Some pos)), G)
  end.

Definition apply_shielded (G : HybridLedger) (stx : ShieldedTx) (proof_ok : bool) : bool * HybridLedger :=
  let leaving := sat_add 64 (public_value stx) (fee stx) in
  if (0 <? leaving) && (pool_backing G <? leaving) then (false, G) else
  match apply_with_verdict (shielded G) stx proof_ok with
  | (Err _, _) => (false, G)
  | (Ok _, s) =>
      let G := set_shielded s G in
      let G := if 0 <? public_value stx
               then set_tokens (snd (Token.move_system (tokens G) POOL_SINK (public_recipient stx) (public_value stx))) G
               else G in
      let G := if 0 <? fee stx
               then set_tokens (snd (Token.move_system (tokens G) POOL_SINK Ledger.TREASURY (fee stx))) G
               else G in
      (true, G)
  end.

(** The two arms of the dispatch; a verdict is what the parallel pass found, or absent. *)
Definition exec_shielded (G : HybridLedger) (body : list Z) (verdict : option bool) : Ledger.ExecOutcome * HybridLedger :=
  match decode_submission body with
  | Some (stx, proof) =>
      let ok := default (proof_verify proof (params G) stx) verdict in
      let '(r, G) := apply_shielded G stx ok in (Ledger.outcome r, G)
  | None => (Ledger.Malformed, G)
  end.

Definition exec_shield (G : HybridLedger) (body : list Z) : Ledger.ExecOutcome * HybridLedger :=
  match shield_from_bytes body with
  | Some sx => let '(r, G) := shield G sx in (match r with None => Ledger.Deferred | Some ok => Ledger.outcome ok end, G)
  | None => (Ledger.Malformed, G)
  end.

(** ** The pool alone *)

Record ShieldedLedger := mk_pool { sl_state : ShieldedState; sl_params : Params }.

Definition sl_new : ShieldedLedger := mk_pool state_new standard.
Definition sl_with_params (p : Params) : ShieldedLedger := mk_pool state_new p.

Definition sl_mint (L : ShieldedLedger) (cm : list Z) : option Z * ShieldedLedger :=
  let '(pos, s) := mint (sl_state L) cm in (pos, mk_pool s (sl_params L)).

Definition sl_apply (L : ShieldedLedger) (payload : list Z) : Ledger.ExecOutcome * ShieldedLedger :=
  match decode_submission payload with
  | None => (Ledger.Malformed, L)
  | Some (tx, proof) =>
      match apply (sl_state L) (sl_params L) tx proof with
      | (Ok _, s) => (Ledger.Applied, mk_pool s (sl_params L))
      | (Err _, s) => (Ledger.Rejected, mk_pool s (sl_params L))
      end
  end.

Definition sl_state_root (L : ShieldedLedger) : list Z := state_root (sl_state L).
Definition sl_snapshot (L : ShieldedLedger) : list Z := state_to_bytes (sl_state L).

Definition sl_restore (snapshot : list Z) : option ShieldedLedger :=
  letO s := state_from_bytes snapshot in Some (mk_pool s standard).

End ops.

(** ** Wire round trip *)

Section wire.
  Context `{Crypto} `{!CryptoLaws}.

Lemma length_shield sx : Token.st_ok (payment sx) -> length (owner (s_note sx)) = 32%nat -> length (auth (s_note sx)) = 32%nat ->
  is_ternary (value_r (s_note sx)) = true -> length (rho (s_note sx)) = 32%nat -> length (shield_to_bytes sx) = (Token.WIRE_LEN + NOTE_OPENING_LEN)%nat.
Proof.
  intros Hs Ho Ha Hr Hh. unfold shield_to_bytes. rewrite !length_app, Token.st_to_bytes_length, length_le_bytes, Ho, Ha, Hh, length_rand_bytes by (done || by apply is_ternary_short).
  unfold NOTE_OPENING_LEN. lia.
Qed.

Lemma shield_roundtrip sx : Token.st_ok (payment sx) -> is_u64 (value (s_note sx)) -> length (owner (s_note sx)) = 32%nat -> length (auth (s_note sx)) = 32%nat ->
  is_ternary (value_r (s_note sx)) = true -> length (rho (s_note sx)) = 32%nat -> shield_from_bytes (shield_to_bytes sx) = Some sx.
Proof.
  intros Hs Hv Ho Ha Hr Hh. unfold shield_from_bytes. rewrite length_shield, Nat.eqb_refl by done. cbn [negb]. pose proof (Token.st_to_bytes_length _ Hs) as Ls.
  pose proof (length_rand_bytes (value_r (s_note sx)) ltac:(by apply is_ternary_short)) as Lr.
  unfold shield_to_bytes. rewrite slice_prefix by done. cbn [mbind option_bind]. rewrite Token.st_from_to by done. cbn [mbind option_bind].
  rewrite slice_from_app by done. cbn [mbind option_bind]. rewrite slice_prefix by apply length_le_bytes. cbn [mbind option_bind].
  rewrite slice_mid by (rewrite ?length_le_bytes, ?Ho; done). cbn [mbind option_bind].
  rewrite (app_assoc _ (owner _)), slice_mid by (rewrite ?length_app, ?length_le_bytes, ?Ho, ?Ha; done). cbn [mbind option_bind].
  rewrite (app_assoc _ (auth _)), slice_mid by (rewrite ?length_app, ?length_le_bytes, ?Ho, ?Ha, ?Lr; done). cbn [mbind option_bind].
  rewrite rand_from_to by done. cbn [mbind option_bind]. rewrite (app_assoc _ (rand_to_bytes _)), slice_from_app by (rewrite ?length_app, ?length_le_bytes, ?Ho, ?Ha, ?Lr; done).
  cbn [mbind option_bind]. rewrite from_le_id by done. by destruct sx as [? []].
Qed.

End wire.

(** ** One step *)

Section steps.
  Context `{Crypto} {HCL : CryptoLaws}.

(** The sink is keyless: no verifying key hashes to it. *)
Definition sink_keyless : Prop := forall k, Token.account_id k <> POOL_SINK.

Definition ledger_inv (G : HybridLedger) : Prop := Token.ledger_ok (tokens G) /\ pool_inv (shielded G) /\ params_ok (params G).

Lemma tokens_set l G : tokens (set_tokens l G) = l.
Proof. done. Qed.

Lemma treasury_not_pool : Ledger.TREASURY <> POOL_SINK.
Proof. by vm_compute. Qed.

(** Shielding is atomic: applied, it moves the note's value to the sink and appends the note; otherwise nothing changes. *)
Lemma shield_spec G sx : sink_keyless -> ledger_inv G -> Token.transfer_ok (Token.transfer (payment sx)) ->
  let '(r, G') := shield G sx in
  match r with
  | Some true => ledger_inv G' /\ Token.total (tokens G') = Token.total (tokens G) /\ pool_backing G' = pool_backing G + value (s_note sx) /\
      leaves (s_tree (shielded G')) = leaves (s_tree (shielded G)) ++ [commitment (params G) (s_note sx)] /\
      s_nullifiers (shielded G') = s_nullifiers (shielded G) /\ params G' = params G
  | _ => G' = G
  end.
Proof.
  intros Hk (Hl & Hp & Hq) Ht. unfold shield. cbv zeta. case_bool_decide as Eto; cbn [negb orb]; [|done].
  destruct (Z.eqb_spec (Token.t_amount (Token.transfer (payment sx))) (value (s_note sx))) as [Ea|]; cbn [negb]; [|done].
  destruct (Z.leb_spec (2 ^ Z.of_nat TREE_DEPTH) (note_count (shielded G))) as [|Hroom]; [done|]. destruct (Token.is_premature _ _); [done|].
  pose proof (Token.apply_settles (tokens G) (payment sx) Hl Ht) as Hs. destruct (Token.apply (tokens G) (payment sx)) as [[u|e] l]; [|done].
  destruct Hs as (Hv & (_ & _ & Hb & _) & Hl' & Htot). unfold mint_shielded.
  destruct (mint_ok (shielded G) (commitment (params G) (s_note sx)) Hp (hash_labeled_length _ _) Hroom) as (G1 & G2 & G3).
  cbn [shielded set_tokens params]. destruct (mint (shielded G) _) as [[pos|] s] eqn:Em; cbn [snd] in *; cycle 1.
  { exfalso. unfold mint, append, is_full in Em. unfold note_count in Hroom. rewrite (proj2 (Z.leb_gt _ _)) in Em by done. done. }
  rewrite bool_decide_true by by eexists. unfold ledger_inv, pool_backing. cbn [set_shielded pub shielded params]. change (tokens (mk_ledger _ _ _)) with l.
  split; [done|]. split; [done|]. split; [|done]. rewrite Hb, Eto, Ea. unfold Token.delta. rewrite decide_False, decide_True by (done || (unfold Token.verify in Hv;
    case_bool_decide as Ef; [done|]; rewrite <- Ef; intros E; by apply (Hk (Token.from_key (payment sx))))). lia.
Qed.

Definition pays (G G' : HybridLedger) (stx : ShieldedTx) : Prop := forall b,
  Token.balance (tokens G') b = Token.balance (tokens G) b - Token.delta POOL_SINK (public_value stx + fee stx) b +
    Token.delta (public_recipient stx) (public_value stx) b + Token.delta Ledger.TREASURY (fee stx) b.

Lemma move_covered l to x : Token.ledger_ok l -> 0 <= x <= Token.balance l POOL_SINK ->
  let l' := if 0 <? x then snd (Token.move_system l POOL_SINK to x) else l in
  Token.ledger_ok l' /\ Token.total l' = Token.total l /\ forall b, Token.balance l' b = Token.balance l b - Token.delta POOL_SINK x b + Token.delta to x b.
Proof.
  intros Hl Hx. destruct (Z.ltb_spec 0 x) as [Hpos|Hz]; cbv zeta.
  - unfold Token.move_system. rewrite (proj2 (Z.ltb_ge _ _)) by lia. cbn [snd]. destruct (Token.move_exact l POOL_SINK to x Hl Hx) as (G1 & G2 & G3 & _). done.
  - split; [done|]. split; [done|]. intros b. assert (x = 0) as -> by lia. unfold Token.delta. repeat case_decide; lia.
Qed.

(** A shielded transaction is atomic: applied, its public value and its fee leave the sink and nothing else moves. *)
Lemma shielded_spec G stx ok : ledger_inv G -> tx_typed stx -> 0 <= public_value stx -> 0 <= fee stx ->
  (ok = true -> public_value stx + fee stx < 2 ^ 64) ->
  let '(r, G') := apply_shielded G stx ok in
  if r then ok = true /\ ledger_inv G' /\ Token.total (tokens G') = Token.total (tokens G) /\ public_value stx + fee stx <= pool_backing G /\ pays G G' stx /\
    apply_with_verdict (shielded G) stx true = (Ok tt, shielded G') /\ params G' = params G
  else G' = G.
Proof.
  intros (Hl & Hp & Hq) Hty Hv Hf Hsum. unfold apply_shielded. cbv zeta. destruct ((0 <? _) && _) eqn:Eb; [done|].
  destruct (apply_with_verdict (shielded G) stx ok) as [[[]|e] s] eqn:Ea; [|done]. destruct (apply_Ok _ _ _ _ Hp Hty Ea) as (-> & _ & _ & _ & _ & _ & _ & Hp').
  specialize (Hsum eq_refl). pose proof (Token.balance_range (tokens G) POOL_SINK Hl) as Hr. fold (pool_backing G) in Hr. unfold in_u in Hr.
  assert (Hcov : public_value stx + fee stx <= pool_backing G).
  { unfold sat_add in Eb. rewrite andb_false_iff, !Z.ltb_ge in Eb. lia. }
  split; [done|]. destruct (move_covered (tokens G) (public_recipient stx) (public_value stx) Hl ltac:(fold (pool_backing G); lia)) as (Hl1 & Ht1 & Hb1). cbv zeta in *.
  set (l1 := if 0 <? public_value stx then _ else _) in *.
  assert (Hcov2 : 0 <= fee stx <= Token.balance l1 POOL_SINK).
  { rewrite Hb1. unfold Token.delta. rewrite decide_True by done. fold (pool_backing G). case_decide; lia. }
  destruct (move_covered l1 Ledger.TREASURY (fee stx) Hl1 Hcov2) as (Hl2 & Ht2 & Hb2). cbv zeta in *. set (l2 := if 0 <? fee stx then _ else _) in *.
  assert (Et : forall G1 : HybridLedger, tokens G1 = l1 -> shielded G1 = s -> params G1 = params G ->
    let G2 := if 0 <? fee stx then set_tokens (snd (Token.move_system (tokens G1) POOL_SINK Ledger.TREASURY (fee stx))) G1 else G1 in
    tokens G2 = l2 /\ shielded G2 = s /\ params G2 = params G).
  { intros G1 E1 E2 E3. unfold l2. rewrite E1. destruct (0 <? fee stx); done. }
  edestruct Et as (E1 & E2 & E3); [| | |rewrite E2, E3; unfold ledger_inv, pays; rewrite E1, E2, E3].
  - unfold l1. destruct (0 <? public_value stx); done.
  - destruct (0 <? public_value stx); done.
  - destruct (0 <? public_value stx); done.
  - split; [done|]. split; [by rewrite Ht2, Ht1|]. split; [done|]. split; [|done].
    intros b. rewrite Hb2, Hb1. unfold Token.delta. repeat case_decide; lia.
Qed.


End steps.

(** ** The backing of the pool over time *)

Section backing.
  Context `{Crypto} {HCL : CryptoLaws}.

Inductive event := Pay (st : Token.SignedTransfer) | Shield (sx : ShieldTx) | Submit (tx : ShieldedTx) (pr : TransparentProof).

(** The ledger, the value its accepted openings declare the pool to hold, and what was given to the sink. *)
Record world := mk_world { w_ledger : HybridLedger; declared : Z; donated : Z }.

Definition to_sink (a : list Z) (x : Z) : Z := Token.delta POOL_SINK x a.

Definition step (w : world) (e : event) : world :=
  let G := w_ledger w in
  match e with
  | Pay st =>
      match Token.apply (tokens G) st with
      | (Ok _, l) => mk_world (set_tokens l G) (declared w) (donated w + to_sink (Token.t_to (Token.transfer st)) (Token.t_amount (Token.transfer st)))
      | (Err _, _) => w
      end
  | Shield sx =>
      match shield G sx with
      | (Some true, G) => mk_world G (declared w + value (s_note sx)) (donated w)
      | (_, G) => mk_world G (declared w) (donated w)
      end
  | Submit tx pr =>
      match apply_shielded G tx (proof_verify pr (params G) tx) with
      | (true, G) => mk_world G (declared w + zsum (map o_value (p_outputs pr)) - zsum (map (fun i => value (i_note i)) (p_inputs pr)))
          (donated w + to_sink (public_recipient tx) (public_value tx))
      | (false, G) => mk_world G (declared w) (donated w)
      end
  end.

Definition run (w : world) (es : list event) : world := fold_left step es w.

(** Widths and ranges the types of the source fix. *)
Definition typed (e : event) : Prop :=
  match e with
  | Pay st => Token.transfer_ok (Token.transfer st)
  | Shield sx => Token.transfer_ok (Token.transfer (payment sx))
  | Submit tx pr => tx_typed tx /\ amounts_ok tx pr
  end.

Definition backed (G0 : HybridLedger) (w : world) : Prop :=
  ledger_inv (w_ledger w) /\ Token.total (tokens (w_ledger w)) = Token.total (tokens G0) /\ 0 <= donated w /\
  pool_backing (w_ledger w) = pool_backing G0 + declared w + donated w.

Lemma to_sink_nonneg a x : 0 <= x -> 0 <= to_sink a x.
Proof. unfold to_sink, Token.delta. case_decide; lia. Qed.

Lemma pay_backed G0 w st : sink_keyless -> Token.transfer_ok (Token.transfer st) -> backed G0 w -> backed G0 (step w (Pay st)).
Proof.
  intros Hk Ht ((Hl & Hp & Hq) & Htot & Hd & Hb). cbn [step]. pose proof (Token.apply_settles (tokens (w_ledger w)) st Hl Ht) as Hs.
  destruct (Token.apply (tokens (w_ledger w)) st) as [[u|e] l]; [|done]. destruct Hs as (Hv & (_ & _ & Hbal & _) & Hl' & Htot').
  unfold backed, ledger_inv, pool_backing. cbn [w_ledger declared donated]. rewrite tokens_set. split; [done|]. split; [congruence|].
  split; [pose proof (to_sink_nonneg (Token.t_to (Token.transfer st)) (Token.t_amount (Token.transfer st)) ltac:(apply Ht)); lia|].
  rewrite Hbal. unfold pool_backing in Hb. rewrite Hb. unfold to_sink, Token.delta. rewrite (decide_False (P := POOL_SINK = Token.t_from _)).
  - repeat case_decide; lia || congruence.
  - unfold Token.verify in Hv. case_bool_decide as Ef; [done|]. rewrite <- Ef. intros E. by apply (Hk (Token.from_key st)).
Qed.

Lemma submit_backed G0 w tx pr : tx_typed tx -> amounts_ok tx pr -> backed G0 w -> backed G0 (step w (Submit tx pr)).
Proof.
  intros Ht Ha (Hi & Htot & Hd & Hb). cbn [step]. pose proof Ha as (Hf & Hv & _).
  pose proof (shielded_spec (w_ledger w) tx (proof_verify pr (params (w_ledger w)) tx) Hi Ht Hv Hf) as Hs.
  destruct (apply_shielded _ _ _) as [[|] G].
  - destruct Hs as (Hok & Hi' & Htot' & _ & Hpay & _); [intros Hr%proof_verify_iff; destruct Hr as [_ _ (_ & ? & ?) _ _ _ _ _]; unfold MAX_VALUE in *; lia|].
    apply proof_verify_iff in Hok. pose proof (relation_balances _ _ _ (proj2 (proj2 Hi)) Ha Hok) as Hsum.
    unfold backed. cbn [w_ledger declared donated]. split; [done|]. split; [congruence|].
    split; [pose proof (to_sink_nonneg (public_recipient tx) (public_value tx) Hv); lia|].
    unfold pool_backing at 1. rewrite Hpay. fold (pool_backing (w_ledger w)). rewrite Hb. unfold to_sink, Token.delta.
    pose proof treasury_not_pool. repeat case_decide; lia || congruence.
  - rewrite Hs; [done|]. intros Hr%proof_verify_iff; destruct Hr as [_ _ (_ & ? & ?) _ _ _ _ _]; unfold MAX_VALUE in *; lia.
Qed.

Lemma step_backed G0 w e : sink_keyless -> typed e -> backed G0 w -> backed G0 (step w e).
Proof.
  intros Hk. destruct e as [st|sx|tx pr]; cbn [typed].
  - by apply pay_backed.
  - intros Ht (Hi & Htot & Hd & Hb). cbn [step]. pose proof (shield_spec (w_ledger w) sx Hk Hi Ht) as Hs.
    destruct (shield (w_ledger w) sx) as [[[|]|] G]; cbn in Hs; [|by subst|by subst]. destruct Hs as (Hi' & Htot' & Hb' & _).
    unfold backed. cbn [w_ledger declared donated]. split; [done|]. split; [congruence|]. split; [done|lia].
  - intros [Ht Ha]. by apply submit_backed.
Qed.

(** C7: the pool is backed by what its openings declare.  Over every sequence of payments, shields and shielded
    transactions, applied or refused, the balance of the sink is its first balance, the value the accepted openings put
    in less the value they took out, and what was given to it outright; the token supply never changes. *)
Theorem sink_backs_declared_value (G : HybridLedger) (es : list event) :
  sink_keyless -> ledger_inv G -> Forall typed es ->
  let w := run (mk_world G 0 0) es in
  pool_backing (w_ledger w) = pool_backing G + declared w + donated w /\ 0 <= donated w /\
  Token.total (tokens (w_ledger w)) = Token.total (tokens G) /\ ledger_inv (w_ledger w).
Proof.
  intros Hk Hi Hes. assert (Hb : backed G (mk_world G 0 0)) by (split; [done|split; [done|split; [cbn; lia|cbn; lia]]]).
  unfold run. revert Hb. generalize (mk_world G 0 0). induction Hes as [|e es He _ IH]; intros w Hb; cbn [fold_left].
  - destruct Hb as (? & ? & ? & ?). done.
  - apply IH. by apply step_backed.
Qed.

End backing.

(** ** The backing can be taken *)

Section drain.
  Context `{Crypto} {HCL : CryptoLaws} `{KemCrypto} {HKL : KemLaws} `{!SigKeygen}.




Lemma minting_typed p s n : params_ok p -> pool_inv s -> size (s_tree s) < 2 ^ Z.of_nat TREE_DEPTH ->
  typed (Submit (fst (minting_tx p s n)) (snd (minting_tx p s n))).
Proof.
  intros Hp Hi Hr. destruct (minting_accepted p s n Hp Hi Hr) as (_ & _ & _ & _ & _ & Ht & Ev & Ef). split; [exact Ht|].
  split; [by rewrite Ef|]. split; [by rewrite Ev|]. split; [by apply Forall_nil|]. constructor; [done|by apply Forall_nil].
Qed.

Lemma p_empty_room : size (s_tree state_new) < 2 ^ Z.of_nat TREE_DEPTH.
Proof. unfold size. rewrite (proj1 state_new_empty). reflexivity. Qed.


End drain.

(** ** A ledger with a funded sink *)

Definition p_ledger : Token.TokenLedger := Token.credit (Token.credit Token.new Ledger.w_alice 1000) POOL_SINK 100.

#[local] Existing Instances toy_crypto toy_laws toy_kem toy_kem_laws w_keygen.

Local Abbreviation p_start := (mk_ledger (Hybrid.new p_ledger) state_new w_p).

Lemma p_tokens_ok : Token.ledger_ok p_ledger.
Proof. by_decide. Qed.

Lemma p_inv : ledger_inv p_start.
Proof. split; [exact p_tokens_ok|]. split; [exact state_new_inv|exact w_p_ok]. Qed.

Lemma p_keyless : sink_keyless.
Proof. intros [[] []]; by_decide. Qed.

Lemma p_shield_typed : Token.transfer_ok (Token.transfer (Ledger.w_pay POOL_SINK 5 0)).
Proof. by_decide. Qed.

Lemma p_pay_typed : Token.transfer_ok (Token.transfer (Ledger.w_pay POOL_SINK 7 1)).
Proof. by_decide. Qed.

Lemma sink_backs_declared_value_witness :
  let es := [Shield (mk_shield (Ledger.w_pay POOL_SINK 5 0) (w_note 5)); Pay (Ledger.w_pay POOL_SINK 7 1);
             Submit (fst (minting_tx w_p state_new (w_note 50))) (snd (minting_tx w_p state_new (w_note 50)))] in
  let w := run (mk_world p_start 0 0) es in pool_backing (w_ledger w) = 100 + declared w + donated w.
Proof.
  intros es w. refine (proj1 (sink_backs_declared_value p_start es p_keyless p_inv _)).
  constructor; [exact p_shield_typed|]. constructor; [exact p_pay_typed|]. constructor; [|by apply Forall_nil].
  exact (minting_typed w_p state_new (w_note 50) w_p_ok state_new_inv p_empty_room).
Defined.



End PoolLedger.
