(* ===== verification/ErgonHost.v ===== *)
(** * The ledger as the host of ERGON terms

    [fanos-dromos/src/ergon_host.rs] and [apply_term] of [fanos-dromos/src/hybrid.rs]: the adapter that
    presents the ledger as term state, the two effects and the predicate of the ledger, the signed
    envelope of a term and its execution as a transaction. *)
From S2P Require Import Prelude Codec Sig Sums Htlc Token Hermes Ledger Ergon ErgonExec ErgonCodec Scheduler Executor Naming Market Hybrid.
Local Open Scope Z_scope.

Module ErgonHost.
Import Ergon ErgonExec.

Definition TAG_TRANSPARENT : Z := 0.
Definition TAG_NAME : Z := 2.
Definition TAG_ERGON : Z := 8.
Definition EFFECT_TRANSFER : Z := TAG_TRANSPARENT.
Definition EFFECT_NAME_REGISTER : Z := TAG_NAME.
Definition PRED_NAME_OWNED : Z := TAG_NAME.
Definition SPACE_NAME : Z := 2.
Definition SPACE_STORAGE : Z := 3.
Definition TERM_LABEL : string := "FANOS/ergon/term/v1".

Abbreviation balance_key := Executor.balance_key.
Abbreviation SPACE_BALANCE := Executor.SPACE_BALANCE.
Abbreviation SPACE_HTLC := Executor.SPACE_HTLC.

Definition name_key (name_hash : list Z) : Key := at_key Executor.LEDGER_POINT SPACE_NAME name_hash.
Definition storage_key (deal : list Z) : Key := at_key Executor.LEDGER_POINT SPACE_STORAGE deal.

(** ** Records as values *)

Definition NAME : Z := 3.
Definition OWNER : Z := 0.
Definition TARGET : Z := 1.
Definition EXPIRY : Z := 2.

Definition name_record_value (rec : Naming.NameRecord) : Value :=
  default (Int 0) (record
    [(NAME, Bytes (Naming.r_name rec)); (OWNER, Bytes32 (Naming.owner rec));
     (TARGET, Bytes (Naming.target rec)); (EXPIRY, Int (Naming.expiry rec))]).

(** [result.ok()]. *)
Definition ok {A E} (r : result A E) : option A := match r with Ok a => Some a | Err _ => None end.

Definition name_record_from (v : Value) : option Naming.NameRecord :=
  letO name := ok (let? f := field v NAME in as_bytes f) in
  letO owner := ok (let? f := field v OWNER in as_bytes32 f) in
  letO target := ok (let? f := field v TARGET in as_bytes f) in
  letO expiry := ok (let? f := field v EXPIRY in as_int f) in
  if expiry <? 2 ^ 64 then Some (Naming.mk_rec name owner target expiry) else None.

(** ** Terms *)

Definition transfer_term_with (from to : list Z) (amount : Expr) : Term :=
  let footprint := fp_new [] [balance_key from; balance_key to] in
  Do (with_args (internal EFFECT_TRANSFER footprint) [Lit (Bytes32 from); Lit (Bytes32 to); amount]).

Definition transfer_term (from to : list Z) (amount : Z) : Term := transfer_term_with from to (Lit (Int amount)).

Definition payment_term (from : list Z) (legs : list (list Z * Z)) : option Term :=
  match legs with
  | [] => None
  | [(to, amount)] => Some (transfer_term from to amount)
  | many => Some (Seq (map (fun '(to, amount) => transfer_term from to amount) many))
  end.

Section host.
  Context `{Crypto}.

Definition name_register_term (name target : list Z) (duration fee : Z) (payer : list Z) : Term :=
  let footprint := fp_new [] [balance_key payer; balance_key Ledger.TREASURY; name_key (Naming.name_digest name)] in
  Do (with_args (internal EFFECT_NAME_REGISTER footprint)
    [Lit (Bytes name); Lit (Bytes target); Lit (Int duration); Lit (Int fee)]).

(** ** The envelope *)

Record SignedTerm := mk_signed { term : list Z; nonce : Z; caller_key : HybridVerifier; sig : list Z }.

Definition signable (nonce : Z) (term : list Z) : list Z := ascii_bytes TERM_LABEL ++ le_bytes 8 nonce ++ term.

Definition sign (term : list Z) (nonce : Z) (signer : HybridSigSecret) (caller_key : HybridVerifier) : SignedTerm :=
  mk_signed term nonce caller_key (sig_to_bytes (hybrid_sign signer (signable nonce term))).

Definition caller (st : SignedTerm) : list Z := Token.account_id (caller_key st).

Definition verify (st : SignedTerm) : bool :=
  match sig_from_bytes (sig st) with
  | None => false
  | Some s => hybrid_verify (caller_key st) (signable (nonce st) (term st)) s
  end.

Definition to_bytes (st : SignedTerm) : list Z := le_bytes 8 (nonce st) ++ vk_encode (caller_key st) ++ sig st ++ term st.

Definition from_bytes (bytes : list Z) : option SignedTerm :=
  letO n := slice 0 8 bytes in
  letO kb := slice 8 (8 + HYBRID_VK_LEN) bytes in
  letO key := vk_decode kb in
  letO sg := slice (8 + HYBRID_VK_LEN) (8 + HYBRID_VK_LEN + HYBRID_SIG_LEN) bytes in
  letO tm := slice_from (8 + HYBRID_VK_LEN + HYBRID_SIG_LEN) bytes in
  Some (mk_signed tm (from_le n) key sg).

Definition checked (st : SignedTerm) (limits : Limits) : option Term := ok (ErgonCodec.checked_decode (term st) limits).

Definition term_payload (st : SignedTerm) : list Z := TAG_ERGON :: to_bytes st.

(** The access list of a term transaction: the footprint the term derives. *)
Definition term_access (body : list Z) : Executor.AccessList :=
  match (letO st := from_bytes body in checked st unbounded) with
  | Some t => Scheduler.access_new (reads (term_footprint t)) (writes (term_footprint t))
  | None => Scheduler.access_new [] []
  end.

(** ** The ledger as term state *)

Record LedgerState := mk_state { ledger : Hybrid.Full; unmapped : option Key }.

Definition state_new (F : Hybrid.Full) : LedgerState := mk_state F None.

(** [self.unmapped.get().or(Some(key))]. *)
Definition unroutable (s : LedgerState) (k : Key) : LedgerState :=
  mk_state (ledger s) (match unmapped s with Some k => Some k | None => Some k end).

Definition ls_get (s : LedgerState) (k : Key) : option Value * LedgerState :=
  if space k =? SPACE_BALANCE then (Some (Int (Token.balance (Hybrid.tokens (ledger s)) (slot k))), s)
  else if space k =? SPACE_HTLC then
    ((fun h => Bytes32 (Htlc.lock_hash (Htlc.terms h))) <$> Hermes.htlcs (Ledger.htlcs (Hybrid.base (ledger s))) !! slot k, s)
  else if space k =? SPACE_NAME then (name_record_value <$> Naming.record_at (Hybrid.names (ledger s)) (slot k), s)
  else (None, unroutable s k).

Definition set_names (r : Naming.NameRegistry) (F : Hybrid.Full) : Hybrid.Full :=
  Hybrid.mk_full (Hybrid.base F) r (Hybrid.storage F) (Hybrid.audit_beacon F).

Definition ls_set (s : LedgerState) (k : Key) (v : Value) : LedgerState :=
  match space k =? SPACE_BALANCE, as_u64 v with
  | true, Ok n => mk_state (Hybrid.set_tokens (Token.set_balance (Hybrid.tokens (ledger s)) (slot k) n) (ledger s)) (unmapped s)
  | _, _ =>
      if space k =? SPACE_NAME then
        match name_record_from v with
        | Some rec =>
            if bool_decide (Naming.name_digest (Naming.r_name rec) = slot k)
            then mk_state (set_names (Naming.put_record (Hybrid.names (ledger s)) rec) (ledger s)) (unmapped s)
            else unroutable s k
        | None => unroutable s k
        end
      else unroutable s k
  end.

#[global] Instance ledger_state : State LedgerState := { get := ls_get; set := ls_set }.

(** [TokenState]: balances alone. *)
Definition ts_get (l : Token.TokenLedger) (k : Key) : option Value * Token.TokenLedger :=
  if negb (space k =? SPACE_BALANCE) then (None, l) else (Some (Int (Token.balance l (slot k))), l).

Definition ts_set (l : Token.TokenLedger) (k : Key) (v : Value) : Token.TokenLedger :=
  match space k =? SPACE_BALANCE, as_u64 v with
  | true, Ok n => Token.set_balance l (slot k) n
  | _, _ => l
  end.

#[global] Instance token_state : State Token.TokenLedger := { get := ts_get; set := ts_set }.

(** ** The rules *)

(** A fallible step of a rule. *)
Definition pbind {A} (r : result A Fault) (k : A -> prog (result unit Fault)) : prog (result unit Fault) :=
  match r with Ok a => k a | Err f => Ret (Err f) end.

Definition checked_sub (a b : Z) (f : Fault) : result Z Fault := if b <=? a then Ok (a - b) else Err f.
Definition checked_add (a b : Z) (f : Fault) : result Z Fault := if a + b <? 2 ^ 64 then Ok (a + b) else Err f.

(** [state.get(&key).ok_or(f)?.as_u64()?]. *)
Definition read_u64 (v : option Value) (f : Fault) : result Z Fault := let? v := ok_or v f in as_u64 v.

Definition apply_transfer (caller : list Z) (args : list Value) : prog (result unit Fault) :=
  let reject := Rejected EFFECT_TRANSFER in
  match args with
  | [f; t; a] =>
      pbind (as_bytes32 f) (fun from => pbind (as_bytes32 t) (fun to => pbind (as_u64 a) (fun amount =>
      if bool_decide (from <> caller) then Ret (Err reject) else
      Get (balance_key from) (fun v => pbind (read_u64 v reject) (fun from_bal =>
      Get (balance_key to) (fun v => pbind (read_u64 v reject) (fun to_bal =>
      pbind (checked_sub from_bal amount reject) (fun debited =>
      pbind (checked_add to_bal amount Overflow) (fun credited =>
      Put (balance_key from) (Int debited) (Put (balance_key to) (Int credited) (Ret (Ok tt))))))))))))
  | _ => Ret (Err reject)
  end.

Definition apply_name_register (caller : list Z) (height : Z) (args : list Value) : prog (result unit Fault) :=
  let reject := Rejected EFFECT_NAME_REGISTER in
  match args with
  | [name; target; duration; fee] =>
      pbind (as_bytes name) (fun name => pbind (as_bytes target) (fun target =>
      pbind (as_u64 duration) (fun duration => pbind (as_u64 fee) (fun fee =>
      if negb ((Naming.MIN_NAME_LEN <=? length name) && (length name <=? Naming.MAX_NAME_LEN))%nat then Ret (Err reject) else
      let key := name_key (Naming.name_digest name) in
      Get key (fun existing =>
      if match existing with
         | Some v => match name_record_from v with Some rec => height <=? Naming.expiry rec | None => false end
         | None => false
         end then Ret (Err reject) else
      if fee <? Naming.price name duration then Ret (Err reject) else
      let payer := balance_key caller in
      let payee := balance_key Ledger.TREASURY in
      Get payer (fun v => pbind (read_u64 v reject) (fun from =>
      Get payee (fun v => pbind (read_u64 v reject) (fun to =>
      pbind (checked_sub from fee reject) (fun debited =>
      pbind (checked_add to fee Overflow) (fun credited =>
      Put payer (Int debited) (Put payee (Int credited)
        (Put key (name_record_value (Naming.mk_rec name caller target (sat_add 64 height duration))) (Ret (Ok tt)))))))))))))))
  | _ => Ret (Err reject)
  end.

Definition host_effect (caller : list Z) (height kind : Z) (args : list Value) : prog (result unit Fault) :=
  if kind =? EFFECT_TRANSFER then apply_transfer caller args
  else if kind =? EFFECT_NAME_REGISTER then apply_name_register caller height args
  else Ret (Err (Rejected kind)).

Definition host_predicate (height kind : Z) (reads : list Key) (args : list Value) : rprog (result bool Fault) :=
  if kind =? PRED_NAME_OWNED then
    match reads, args with
    | key :: _, [owner] =>
        match as_bytes32 owner with
        | Err f => RRet (Err f)
        | Ok owner =>
            RGet key (fun v => RRet (Ok (match (letO v := v in name_record_from v) with
              | Some rec => (height <=? Naming.expiry rec) && bool_decide (Naming.owner rec = owner)
              | None => false
              end)))
        end
    | _, _ => RRet (Err (Rejected kind))
    end
  else RRet (Err (Rejected kind)).

(** [LedgerHost]: the authenticated caller and the height of the block. *)
Definition ledger_host (caller : list Z) (height : Z) : HostOps :=
  mk_host (host_effect caller height) (host_predicate height) verify_default.

(** ** The transaction *)

Definition apply_term (F : Hybrid.Full) (body : list Z) (verdict : option bool) : Ledger.ExecOutcome * Hybrid.Full :=
  match from_bytes body with
  | None => (Ledger.Malformed, F)
  | Some envelope =>
      if negb (default (verify envelope) verdict) then (Ledger.Rejected, F) else
      let caller := caller envelope in
      let expected := Token.nonce (Hybrid.tokens F) caller in
      if expected <? nonce envelope then (Ledger.Deferred, F) else
      if negb (nonce envelope =? expected) then (Ledger.Rejected, F) else
      match checked envelope unbounded with
      | None => (Ledger.Malformed, F)
      | Some t =>
          let '(outcome, s) := eval (ledger_host caller (Hybrid.height F)) [] t (state_new F) in
          let F := ledger s in
          match unmapped s with
          | Some _ => (Ledger.Rejected, F)
          | None =>
              match outcome with
              | Ok _ => (Ledger.Applied, Hybrid.set_tokens (Token.bump_nonce (Hybrid.tokens F) caller) F)
              | Err _ => (Ledger.Rejected, F)
              end
          end
      end
  end.

End host.

(** ** Records survive the value language *)

Lemma name_record_sorted rec : name_record_value rec =
  Record_ [(OWNER, Bytes32 (Naming.owner rec)); (TARGET, Bytes (Naming.target rec));
           (EXPIRY, Int (Naming.expiry rec)); (NAME, Bytes (Naming.r_name rec))].
Proof. reflexivity. Qed.

Lemma name_record_roundtrip rec : Naming.expiry rec < 2 ^ 64 -> name_record_from (name_record_value rec) = Some rec.
Proof.
  intros He. rewrite name_record_sorted. unfold name_record_from.
  set (v := Record_ _). assert (ok (let? f := field v NAME in as_bytes f) = Some (Naming.r_name rec)) as -> by reflexivity.
  assert (ok (let? f := field v OWNER in as_bytes32 f) = Some (Naming.owner rec)) as -> by reflexivity.
  assert (ok (let? f := field v TARGET in as_bytes f) = Some (Naming.target rec)) as -> by reflexivity.
  assert (ok (let? f := field v EXPIRY in as_int f) = Some (Naming.expiry rec)) as -> by reflexivity.
  rewrite (proj2 (Z.ltb_lt _ _) He). by destruct rec.
Qed.

Lemma name_record_from_expiry v rec : name_record_from v = Some rec -> Naming.expiry rec < 2 ^ 64.
Proof. unfold name_record_from. repeat case_match; try done. intros [= <-]. by apply Z.ltb_lt. Qed.

Section laws.
  Context `{Crypto}.
  Implicit Types (s : LedgerState) (j : @Journal LedgerState).

(** ** The adapter keeps the promises of a state

    on the keys at the point where the ledger lives. *)

Definition ledger_write (k : Key) (v : Value) (old : option Value) : option Value :=
  if space k =? SPACE_BALANCE then match as_u64 v with Ok n => Some (Int n) | Err _ => old end
  else if space k =? SPACE_NAME then
    match name_record_from v with
    | Some rec => if bool_decide (Naming.name_digest (Naming.r_name rec) = slot k) then Some (name_record_value rec) else old
    | None => old
    end
  else old.

Lemma view_unroutable s k k' : view (unroutable s k) k' = view s k'.
Proof. unfold view. cbn [get ledger_state]. unfold ls_get. by repeat case_match. Qed.

Lemma ls_view_get s k k' : view (snd (get s k)) k' = view s k'.
Proof.
  cbn [get ledger_state]. unfold ls_get. destruct (space k =? SPACE_BALANCE); [done|]. destruct (space k =? SPACE_HTLC); [done|].
  destruct (space k =? SPACE_NAME); [done|]. apply view_unroutable.
Qed.

Lemma balance_set_balance l a n b : Token.balance (Token.set_balance l a n) b = if decide (a = b) then n else Token.balance l b.
Proof. unfold Token.balance, Token.set_balance. cbn [Token.balances]. case_decide as E; [subst; by rewrite lookup_insert_eq|by rewrite lookup_insert_ne]. Qed.

(** What a write does to every view: its slot of its space, nothing else. *)
Lemma ls_view_set s k v k' : view (set s k v) k' =
  if decide (space k = space k' /\ slot k = slot k') then ledger_write k v (view s k') else view s k'.
Proof.
  cbn [set ledger_state]. unfold ls_set, ledger_write.
  assert (Hun : view (unroutable s k) k' = if decide (space k = space k' /\ slot k = slot k') then view s k' else view s k')
    by (case_decide; apply view_unroutable).
  destruct (space k =? SPACE_BALANCE) eqn:Eb.
  - destruct (as_u64 v) as [n|f]; [|destruct (Z.eqb_spec (space k) SPACE_NAME) as [E|]; [rewrite E in Eb; done|exact Hun]].
    apply Z.eqb_eq in Eb. unfold view. cbn [get ledger_state]. unfold ls_get. cbn [ledger]. case_decide as E.
    + destruct E as [<- <-]. rewrite Eb. rewrite Z.eqb_refl. cbn [fst]. unfold Hybrid.tokens at 1. cbn [Hybrid.base Hybrid.set_tokens Ledger.tokens]. by rewrite balance_set_balance, decide_True.
    + destruct (Z.eqb_spec (space k') SPACE_BALANCE) as [E'|]; [|by repeat case_match]. cbn [fst]. unfold Hybrid.tokens at 1.
      cbn [Hybrid.base Hybrid.set_tokens Ledger.tokens]. rewrite balance_set_balance, decide_False; [done|].
      intros Es. apply E. by rewrite Eb, E'.
  - destruct (Z.eqb_spec (space k) SPACE_NAME) as [En|]; [|exact Hun]. destruct (name_record_from v) as [rec|] eqn:Er; [|exact Hun].
    case_bool_decide as Ed; [|exact Hun]. unfold view. cbn [get ledger_state]. unfold ls_get. cbn [ledger set_names Hybrid.base Hybrid.tokens Hybrid.names].
    unfold Naming.record_at, Naming.put_record. cbn [Naming.records]. rewrite Ed. case_decide as E.
    + destruct E as [E1 E2]. rewrite <- E1, En, <- E2. cbn. by rewrite lookup_insert_eq.
    + destruct (Z.eqb_spec (space k') SPACE_BALANCE) as [|]; [done|]. destruct (space k' =? SPACE_HTLC); [done|].
      destruct (Z.eqb_spec (space k') SPACE_NAME) as [E'|]; [|done]. cbn [fst]. rewrite lookup_insert_ne; [done|].
      intros Es. apply E. by rewrite En, E'.
Qed.

#[global] Program Instance ledger_state_laws : StateLaws LedgerState (fun k => point k = Executor.LEDGER_POINT) := { write := ledger_write }.
Next Obligation. intros. apply ls_view_get. Qed.
Next Obligation. intros s k v _. by rewrite ls_view_set, decide_True. Qed.
Next Obligation. intros s [p a b] [p' a' b'] v Hp Hp' Hne. rewrite ls_view_set, decide_False; [done|]. cbn in *. intros [-> ->]. apply Hne. congruence. Qed.

(** Two points, one balance: keys that differ only in their point are the same account to the adapter. *)
Lemma points_alias s p a n : is_u64 n -> view (set s (balance_key a) (Int n)) (at_key p SPACE_BALANCE a) = Some (Int n).
Proof.
  intros Hn. rewrite ls_view_set, decide_True by done. unfold ledger_write, as_u64. cbn [space Executor.balance_key].
  by rewrite Z.eqb_refl, bool_decide_eq_true_2.
Qed.

(** ** What a term may do to others

    The account [c] the envelope authenticates, the height [h] of the block and the ledger [F0] the term
    starts from. *)

Section safety.
  Context (c : list Z) (h : Z) (F0 : Hybrid.Full).

Definition live (d : list Z) (rec : Naming.NameRecord) : Prop :=
  Naming.records (Hybrid.names F0) !! d = Some rec /\ h <= Naming.expiry rec.

Definition not_less (a : list Z) (n : Z) : Prop := is_u64 n /\ (a <> c -> Token.balance (Hybrid.tokens F0) a <= n).

(** No other account has less, no live name has changed. *)
Definition kept (F : Hybrid.Full) : Prop :=
  (forall a, not_less a (Token.balance (Hybrid.tokens F) a)) /\
  (forall d rec, live d rec -> Naming.records (Hybrid.names F) !! d = Some rec).

(** A write that keeps this. *)
Definition harmless (k : Key) (v : Value) : Prop :=
  (space k = SPACE_BALANCE -> exists n, v = Int n /\ not_less (slot k) n) /\
  (space k = SPACE_NAME -> forall rec, ~ live (slot k) rec).

Lemma kept_set s k v : kept (ledger s) -> harmless k v -> kept (ledger (set s k v)).
Proof.
  intros Hk [Hb Hn]. cbn [set ledger_state]. unfold ls_set. destruct (Z.eqb_spec (space k) SPACE_BALANCE) as [E|E].
  - destruct (Hb E) as (n & -> & Hl). cbn [as_u64]. rewrite bool_decide_eq_true_2 by apply Hl. destruct Hk as [H1 H2]. split; [|done].
    intros a. cbn [ledger]. unfold Hybrid.tokens at 1. cbn [Hybrid.base Hybrid.set_tokens Ledger.tokens]. rewrite balance_set_balance. case_decide; [by subst|apply H1].
  - destruct (Z.eqb_spec (space k) SPACE_NAME) as [E'|]; [|done]. destruct (name_record_from v) as [rec|]; [|done].
    case_bool_decide as Ed; [|done]. destruct Hk as [H1 H2]. split; [done|]. intros d rec' Hl. cbn. rewrite Ed.
    rewrite lookup_insert_ne; [by apply H2|]. intros <-. by eapply Hn.
Qed.

Lemma ledger_get s k : ledger (snd (get s k)) = ledger s.
Proof. cbn [get ledger_state]. unfold ls_get. by repeat case_match. Qed.

Lemma restore_set s e : restore s e = set s (fst e) (default (Int 0) (snd e)).
Proof. unfold restore. by destruct (snd e). Qed.

Definition guarded j : Prop := kept (ledger (inner j)) /\ Forall (fun e => harmless (fst e) (default (Int 0) (snd e))) (undo j).

Lemma guarded_get j k : guarded j -> guarded (snd (jget j k)).
Proof. intros [Hk Hu]. unfold jget. pose proof (ledger_get (inner j) k) as E. destruct (get (inner j) k). split; [by rewrite <- E in Hk|done]. Qed.

(** What the adapter answers for a balance. *)
Lemma balance_view s a : view s (balance_key a) = Some (Int (Token.balance (Hybrid.tokens (ledger s)) a)).
Proof. done. Qed.

Lemma guarded_set j k v : guarded j -> harmless k v -> guarded (jset j k v).
Proof.
  intros [Hk Hu] Hh. unfold jset. destruct (existsb _ _); [split; [by apply kept_set|done]|].
  pose proof (ledger_get (inner j) k) as E. destruct (get (inner j) k) as [b s] eqn:Eg. cbn [snd] in E. rewrite <- E in Hk.
  split; [by apply kept_set|]. cbn [undo]. apply Forall_app. split; [done|]. constructor; [|constructor]. cbn [fst snd].
  split; [|apply Hh]. intros Es. cbn [get ledger_state] in Eg. unfold ls_get in Eg. rewrite Es in Eg. injection Eg as <- <-.
  eexists. split; [done|]. apply Hk.
Qed.

Lemma guarded_rollback j : guarded j -> kept (ledger (inner (rollback j))).
Proof.
  intros [Hk Hu]. unfold rollback. cbn [inner]. apply Forall_reverse in Hu. revert Hk Hu. generalize (inner j) as s. generalize (reverse (undo j)) as l.
  induction l as [|e l IH]; intros s Hk Hu; [done|]. apply Forall_cons in Hu as [He Hu]. cbn [fold_left]. apply IH; [|done].
  rewrite restore_set. by apply kept_set.
Qed.

(** A rule behind a confined view that keeps the guard, whatever it may touch. *)
Definition safe fp (p : prog (result unit Fault)) : Prop := forall j v, guarded j -> guarded (snd (fst (run_confined fp p j v))).

Lemma safe_ret fp r : safe fp (Ret r).
Proof. by intros j v. Qed.

Lemma safe_pbind {A} fp (r : result A Fault) k : (forall a, r = Ok a -> safe fp (k a)) -> safe fp (pbind r k).
Proof. intros Hk. destruct r; [by apply Hk|apply safe_ret]. Qed.

Lemma safe_if fp (b : bool) r p : (b = false -> safe fp p) -> safe fp (if b then Ret r else p).
Proof. intros Hp. destruct b; [apply safe_ret|by apply Hp]. Qed.

(** An answer for a balance is no less than it was; an answer for a live name is its record, unless the
    key may not be written either. *)
Lemma safe_get_balance fp a rest : (forall v, (forall n, v = Some (Int n) -> not_less a n) -> safe fp (rest v)) -> safe fp (Get (balance_key a) rest).
Proof.
  intros Hr j v Hj. cbn [run_confined]. case_bool_decide; [|by apply Hr]. pose proof (guarded_get j (balance_key a) Hj) as Hg.
  pose proof (jget_view j (balance_key a)) as Ev. destruct (jget j (balance_key a)) as [x j']. cbn [fst snd] in *. apply Hr; [|done].
  unfold jview in Ev. rewrite balance_view in Ev. subst x. intros n [= <-]. apply Hj.
Qed.

Lemma safe_get_name fp d rest :
  (forall v, (name_key d ∈ writes fp -> forall rec, live d rec -> v = Some (name_record_value rec)) -> safe fp (rest v)) -> safe fp (Get (name_key d) rest).
Proof.
  intros Hr j v Hj. cbn [run_confined]. case_bool_decide as Hin; [|apply Hr; [|done]; intros Hw; by destruct Hin; right].
  pose proof (guarded_get j (name_key d) Hj) as Hg.
  pose proof (jget_view j (name_key d)) as Ev. destruct (jget j (name_key d)) as [x j']. cbn [fst snd] in *. apply Hr; [|done].
  intros _ rec Hl. destruct Hj as [[_ Hn] _]. subst x. unfold jview, view. cbn. unfold Naming.record_at. by rewrite (Hn d rec Hl).
Qed.

Lemma safe_put fp k v rest : (k ∈ writes fp -> harmless k v) -> safe fp rest -> safe fp (Put k v rest).
Proof. intros Hh Hr j w Hj. cbn [run_confined]. case_bool_decide; apply Hr; [|done]. apply guarded_set; auto. Qed.

Lemma harmless_balance a n : not_less a n -> harmless (balance_key a) (Int n).
Proof. intros Hn. split; [intros _; by exists n|done]. Qed.

Lemma read_u64_inv v f n : read_u64 v f = Ok n -> v = Some (Int n).
Proof. unfold read_u64, as_u64. destruct v as [[]|]; cbn [ok_or rbind]; try done. case_bool_decide; [|done]. by intros [= <-]. Qed.

Lemma checked_add_inv a b f n : checked_add a b f = Ok n -> n = a + b /\ a + b < 2 ^ 64.
Proof. unfold checked_add. case_match eqn:E; [|done]. intros [= <-]. by apply Z.ltb_lt in E. Qed.

Lemma checked_sub_inv a b f n : checked_sub a b f = Ok n -> n = a - b /\ b <= a.
Proof. unfold checked_sub. case_match eqn:E; [|done]. intros [= <-]. by apply Z.leb_le in E. Qed.

Lemma as_u64_inv v n : as_u64 v = Ok n -> v = Int n /\ is_u64 n.
Proof. destruct v as [m| | |]; cbn [as_u64]; try done. case_bool_decide as E; [|done]. by intros [= <-]. Qed.

Lemma transfer_safe fp vs : safe fp (apply_transfer c vs).
Proof.
  unfold apply_transfer. destruct vs as [|f [|t [|a [|]]]]; try apply safe_ret.
  apply safe_pbind. intros from _. apply safe_pbind. intros to _. apply safe_pbind. intros amount [_ [Ha _]]%as_u64_inv.
  case_bool_decide as Ec; [apply safe_ret|]. destruct (decide (from = c)) as [->|]; [|done].
  apply safe_get_balance. intros v Hf. apply safe_pbind. intros x Ex%read_u64_inv.
  apply safe_get_balance. intros w Ht. apply safe_pbind. intros y Ey%read_u64_inv.
  apply safe_pbind. intros d [-> Hd]%checked_sub_inv. apply safe_pbind. intros e [-> He]%checked_add_inv.
  destruct (Hf x Ex) as [[Hx Hx'] _]. destruct (Ht y Ey) as [[Hy _] Hy'].
  apply safe_put; [intros _; apply harmless_balance; split; [unfold in_u; lia|done]|].
  apply safe_put; [intros _; apply harmless_balance; split; [unfold in_u; lia|]|apply safe_ret].
  intros Hn. specialize (Hy' Hn). lia.
Qed.

  Hypothesis names_ok : map_Forall (fun _ rec => Naming.expiry rec < 2 ^ 64) (Naming.records (Hybrid.names F0)).

Lemma name_register_safe fp vs : safe fp (apply_name_register c h vs).
Proof.
  unfold apply_name_register. destruct vs as [|n [|t [|d [|f [|]]]]]; try apply safe_ret.
  apply safe_pbind. intros name _. apply safe_pbind. intros target _. apply safe_pbind. intros duration _.
  apply safe_pbind. intros fee [_ [Hfee _]]%as_u64_inv. apply safe_if. intros _. cbv zeta.
  apply safe_get_name. intros v Hv. apply safe_if. intros Etaken. apply safe_if. intros _.
  apply safe_get_balance. intros v1 Hf. apply safe_pbind. intros x Ex%read_u64_inv.
  apply safe_get_balance. intros v2 Ht. apply safe_pbind. intros y Ey%read_u64_inv.
  apply safe_pbind. intros z [-> Hz]%checked_sub_inv. apply safe_pbind. intros e [-> He]%checked_add_inv.
  destruct (Hf x Ex) as [[Hx Hx'] _]. destruct (Ht y Ey) as [[Hy _] Hy'].
  apply safe_put; [intros _; apply harmless_balance; split; [unfold in_u; lia|done]|].
  apply safe_put; [intros _; apply harmless_balance; split; [unfold in_u; lia|]; intros Hn; specialize (Hy' Hn); lia|].
  apply safe_put; [|apply safe_ret]. intros Hw. split; [done|]. intros _ rec Hl. cbn [slot name_key] in Hl.
  rewrite (Hv Hw rec Hl) in Etaken. destruct Hl as [Hrec Hh]. rewrite name_record_roundtrip in Etaken by by eapply names_ok.
  apply Z.leb_gt in Etaken. lia.
Qed.

Lemma eval_kept t : kept F0 -> kept (ledger (snd (eval (ledger_host c h) [] t (state_new F0)))).
Proof.
  intros Hk. unfold eval.
  assert (Hr : guarded (snd (fst (run (ledger_host c h) [] t (journal_new (state_new F0)) receipt_default)))).
  { apply (run_inv (ledger_host c h) [] guarded guarded_get (fun _ => True)); [|done|].
    - intros fp kind vs j _ Hj. unfold run_rule. cbn [effect ledger_host].
      assert (Hs : safe fp (host_effect c h kind vs)).
      { unfold host_effect. case_match; [apply transfer_safe|]. case_match; [apply name_register_safe|apply safe_ret]. }
      specialize (Hs j None Hj). by destruct (run_confined fp (host_effect c h kind vs) j None) as [[o j'] [k|]].
    - by split. }
  destruct (run _ _ _ _ _) as [[[u|f] j] r]; [apply Hr|]. by apply guarded_rollback.
Qed.

End safety.

(** The ledger after the nonce of [a] was used. *)
Definition bumped (a : list Z) (F : Hybrid.Full) : Hybrid.Full := Hybrid.set_tokens (Token.bump_nonce (Hybrid.tokens F) a) F.

Definition ledger_wf (F : Hybrid.Full) : Prop :=
  Token.values_ok (Token.balances (Hybrid.tokens F)) /\
  map_Forall (fun _ rec => Naming.expiry rec < 2 ^ 64) (Naming.records (Hybrid.names F)).

#[global] Instance ledger_wf_dec F : Decision (ledger_wf F).
Proof. unfold ledger_wf, Token.values_ok. apply _. Defined.

(** Either the ledger is as it was, or the envelope was accepted and its term evaluated. *)
Lemma apply_term_inv F body verdict : let F' := snd (apply_term F body verdict) in
  F' = F \/ exists st t, from_bytes body = Some st /\ default (verify st) verdict = true /\
    nonce st = Token.nonce (Hybrid.tokens F) (caller st) /\ checked st unbounded = Some t /\
    let s := snd (eval (ledger_host (caller st) (Hybrid.height F)) [] t (state_new F)) in F' = ledger s \/ F' = bumped (caller st) (ledger s).
Proof.
  cbv zeta. unfold apply_term. destruct (from_bytes body) as [st|]; [|by left].
  destruct (default (verify st) verdict) eqn:Ev; cbn [negb]; [|by left]. cbv zeta. destruct (_ <? _); [by left|].
  destruct (nonce st =? _) eqn:En; cbn [negb]; [|by left]. destruct (checked st unbounded) as [t|] eqn:Et; [|by left].
  right. exists st, t. apply Z.eqb_eq in En. split_and!; try done. unfold bumped.
  destruct (eval _ _ _ _) as [o s]. repeat case_match; auto.
Qed.

(** C18: a term spends only for the account that signed it, and takes no live name from anyone.  Whatever
    the bytes of a term transaction, if an account ends with less than it had then the transaction is an
    envelope of that account, accepted by its signature and carrying the account's next nonce; and every
    name that is live at this height keeps its record. *)
Theorem terms_spend_only_for_their_caller (F : Hybrid.Full) (body : list Z) (verdict : option bool) :
  ledger_wf F -> let F' := snd (apply_term F body verdict) in
  (forall a, Token.balance (Hybrid.tokens F') a < Token.balance (Hybrid.tokens F) a ->
     exists st, from_bytes body = Some st /\ caller st = a /\ default (verify st) verdict = true /\
       nonce st = Token.nonce (Hybrid.tokens F) a) /\
  (forall d rec, Naming.records (Hybrid.names F) !! d = Some rec -> Hybrid.height F <= Naming.expiry rec ->
     Naming.records (Hybrid.names F') !! d = Some rec).
Proof.
  intros [Hb Hn] F'. unfold F'. destruct (apply_term_inv F body verdict) as [->|(st & t & Eb & Ev & En & _ & Hc)]; [split; [lia|done]|].
  set (F'' := snd (apply_term F body verdict)) in *.
  assert (Hk : kept (caller st) (Hybrid.height F) F F).
  { split; [|by intros d rec [? _]]. intros a. split; [|lia]. unfold Token.balance. destruct (_ !! a) eqn:Ea; [by eapply Hb|done]. }
  pose proof (eval_kept (caller st) (Hybrid.height F) F Hn t Hk) as [H1 H2]. set (s := snd (eval _ _ _ _)) in *.
  assert (Hs : (forall a, Token.balance (Hybrid.tokens F'') a = Token.balance (Hybrid.tokens (ledger s)) a) /\
    Hybrid.names F'' = Hybrid.names (ledger s)) by (destruct Hc as [->| ->]; done).
  destruct Hs as [Hba ->]. split; [|intros; by apply H2]. intros a Hlt. rewrite Hba in Hlt. destruct (H1 a) as [_ Hle].
  destruct (decide (a = caller st)) as [->|Hne]; [by exists st|]. specialize (Hle Hne). lia.
Qed.

(** ** The transfer effect *)

Lemma transfer_writes from to amount k : k = balance_key from \/ k = balance_key to ->
  k ∈ writes (term_footprint (transfer_term from to amount)).
Proof.
  intros Hk. unfold transfer_term, transfer_term_with. cbn [term_footprint]. unfold effect_footprint. cbn [args with_args].
  apply normalise_elem. cbn [footprint with_args internal writes fp_new]. apply normalise_elem.
  rewrite !elem_of_cons. naive_solver.
Qed.

(** A permitted access of a rule. *)
Lemma confined_get {A} fp k (rest : option Value -> prog A) j v : k ∈ writes fp ->
  run_confined fp (Get k rest) j v = (let '(x, j) := jget j k in run_confined fp (rest x) j v).
Proof. intros Hk. cbn [run_confined]. by rewrite bool_decide_eq_true_2 by by right. Qed.

Lemma confined_put {A} fp k w (rest : prog A) j v : k ∈ writes fp -> run_confined fp (Put k w rest) j v = run_confined fp rest (jset j k w) v.
Proof. intros Hk. cbn [run_confined]. by rewrite bool_decide_eq_true_2. Qed.

Lemma jget_balance F u a : jget (mk_journal (state_new F) u) (balance_key a) =
  (Some (Int (Token.balance (Hybrid.tokens F) a)), mk_journal (state_new F) u).
Proof. done. Qed.

Lemma jset_balance F u a n : is_u64 n -> exists u', jset (mk_journal (state_new F) u) (balance_key a) (Int n) =
  mk_journal (state_new (Hybrid.set_tokens (Token.set_balance (Hybrid.tokens F) a n) F)) u'.
Proof.
  intros Hn. unfold jset. assert (Hs : set (state_new F) (balance_key a) (Int n) =
    state_new (Hybrid.set_tokens (Token.set_balance (Hybrid.tokens F) a n) F)).
  { cbn [set ledger_state]. unfold ls_set. cbn [space Executor.balance_key slot as_u64]. by rewrite Z.eqb_refl, bool_decide_eq_true_2. }
  destruct (existsb _ _); [exists u|exists (u ++ [(balance_key a, Some (Int (Token.balance (Hybrid.tokens F) a)))])]; cbn [inner undo]; [by rewrite Hs|].
  change (get (state_new F) (balance_key a)) with (Some (Int (Token.balance (Hybrid.tokens F) a)), state_new F).
  cbv iota. cbn [inner undo]. by rewrite Hs.
Qed.

Definition moved (F : Hybrid.Full) (from to : list Z) (amount : Z) : Hybrid.Full :=
  let l := Hybrid.tokens F in
  Hybrid.set_tokens (Token.set_balance (Token.set_balance l from (Token.balance l from - amount)) to (Token.balance l to + amount)) F.

Lemma moved_balance F from to amount a : Token.balance (Hybrid.tokens (moved F from to amount)) a =
  if decide (to = a) then Token.balance (Hybrid.tokens F) to + amount
  else if decide (from = a) then Token.balance (Hybrid.tokens F) from - amount else Token.balance (Hybrid.tokens F) a.
Proof. unfold moved, Hybrid.tokens at 1. cbn [Hybrid.base Hybrid.set_tokens Ledger.tokens]. by rewrite !balance_set_balance. Qed.

Lemma bumped_balance F a b : Token.balance (Hybrid.tokens (bumped a F)) b = Token.balance (Hybrid.tokens F) b.
Proof. done. Qed.

Lemma bumped_nonce F a b : Token.nonce (Hybrid.tokens (bumped a F)) b =
  if decide (b = a) then w64 (Token.nonce (Hybrid.tokens F) b + 1) else Token.nonce (Hybrid.tokens F) b.
Proof.
  unfold bumped, Hybrid.tokens at 1. cbn [Hybrid.base Hybrid.set_tokens Ledger.tokens]. unfold Token.bump_nonce, Token.nonce at 1. cbn [Token.nonces].
  case_decide; [subst; by rewrite lookup_insert_eq|by rewrite lookup_insert_ne].
Qed.

(** What the transfer term of the caller does to the ledger. *)
Lemma eval_transfer F from to amount h : let l := Hybrid.tokens F in
  is_u64 amount -> is_u64 (Token.balance l from) -> is_u64 (Token.balance l to) ->
  eval (ledger_host from h) [] (transfer_term from to amount) (state_new F) =
  (if Token.balance l from <? amount then (Err (Rejected EFFECT_TRANSFER), state_new F)
   else if Token.balance l to + amount <? 2 ^ 64 then (Ok (mk_receipt 1 0 0 0), state_new (moved F from to amount))
   else (Err Overflow, state_new F)).
Proof.
  intros l Ha Hf Ht. unfold eval, transfer_term, transfer_term_with. cbn [run].
  assert (Hargs : forall j : @Journal LedgerState, eval_args [] [Lit (Bytes32 from); Lit (Bytes32 to); Lit (Int amount)] j =
    (Ok [Bytes32 from; Bytes32 to; Int amount], j)) by done.
  cbn [args with_args]. rewrite Hargs. cbv iota beta. unfold run_rule. cbn [kind with_args internal effect ledger_host host_effect].
  change (host_effect from h EFFECT_TRANSFER) with (apply_transfer from). unfold apply_transfer.
  pose proof (transfer_writes from to amount) as Hw. unfold transfer_term, transfer_term_with in Hw. cbn [term_footprint] in Hw.
  set (fp := effect_footprint _) in *. cbn [as_bytes32 pbind as_u64]. rewrite (bool_decide_eq_true_2 (0 <= amount < 2 ^ 64)) by done.
  cbn [pbind]. rewrite (bool_decide_eq_false_2 (from <> from)) by naive_solver.
  rewrite confined_get by by apply Hw; left. unfold journal_new. rewrite jget_balance. cbv iota beta. cbn [read_u64 ok_or rbind as_u64].
  rewrite bool_decide_eq_true_2 by done. cbn [pbind].
  rewrite confined_get by by apply Hw; right. rewrite jget_balance. cbv iota beta. cbn [read_u64 ok_or rbind as_u64].
  rewrite bool_decide_eq_true_2 by done. cbn [pbind]. unfold checked_sub. fold l. rewrite Z.leb_antisym.
  destruct (Token.balance l from <? amount) eqn:El; cbn [negb pbind]; [done|]. apply Z.ltb_ge in El.
  unfold checked_add. destruct (Token.balance l to + amount <? 2 ^ 64) eqn:Eo; cbn [pbind]; [|done]. apply Z.ltb_lt in Eo.
  unfold in_u in *. rewrite confined_put by by apply Hw; left.
  destruct (jset_balance F [] from (Token.balance l from - amount)) as [u1 ->]; [unfold in_u; lia|].
  rewrite confined_put by by apply Hw; right.
  destruct (jset_balance (Hybrid.set_tokens (Token.set_balance (Hybrid.tokens F) from (Token.balance l from - amount)) F) u1 to (Token.balance l to + amount)) as [u2 ->]; [unfold in_u; lia|].
  done.
Qed.

(** ** The envelope *)

Context {laws : CryptoLaws}.

Lemma envelope_from_to st : is_u64 (nonce st) -> length (sig st) = HYBRID_SIG_LEN -> from_bytes (to_bytes st) = Some st.
Proof.
  intros Hn Hs. destruct st as [tm n k sg]. cbn [nonce sig] in Hn, Hs. unfold from_bytes, to_bytes. cbn [term nonce caller_key sig].
  rewrite slice_prefix by apply length_le_bytes.
  rewrite slice_mid by (rewrite ?length_le_bytes, ?vk_encode_length; done). rewrite vk_decode_encode, (app_assoc (le_bytes 8 n)).
  rewrite slice_mid by (rewrite ?length_app, ?length_le_bytes, ?vk_encode_length, ?Hs; done).
  rewrite (app_assoc _ sg), slice_from_app by (rewrite ?length_app, ?length_le_bytes, ?vk_encode_length, ?Hs; done).
  by rewrite from_le_id.
Qed.

Lemma sign_ok sk b n : let st := sign b n sk (verifier_of sk) in verify st = true /\ length (sig st) = HYBRID_SIG_LEN.
Proof.
  cbv zeta. split; [|apply sig_to_bytes_length]. unfold verify, sign. cbn [sig caller_key nonce term]. rewrite sig_from_to. apply hybrid_sign_verifies.
Qed.

Lemma transfer_encodable from to amount : is_bytes from -> length from = 32%nat -> is_bytes to -> length to = 32%nat -> is_u64 amount ->
  ErgonCodec.encodable (transfer_term from to amount).
Proof.
  intros Hf Lf Ht Lt Ha. assert (Hkey : forall a, is_bytes a -> length a = 32%nat -> ErgonCodec.key_enc (balance_key a)) by done.
  assert (Hfp : ErgonCodec.fp_enc (fp_new [] [balance_key from; balance_key to])).
  { split; (split; [unfold ErgonCodec.short, fp_new; cbn [reads writes]|split; [apply normalise_normal|]]); [done|constructor| |].
    - pose proof (length_normalise [balance_key from; balance_key to]). cbn [length] in *. unfold ErgonCodec.SEQ_MAX. lia.
    - apply Forall_forall. intros k Hk. cbn [fp_new writes] in Hk. rewrite normalise_elem, !elem_of_cons, elem_of_nil in Hk. destruct Hk as [->|[->|[]]]; by apply Hkey. }
  split; [by vm_compute|]. split; [exact Hfp|]. split; [by vm_compute|]. unfold in_u in Ha.
  repeat constructor; try done; lia.
Qed.

Lemma transfer_checked from to amount n sk : is_bytes from -> length from = 32%nat -> is_bytes to -> length to = 32%nat -> is_u64 amount ->
  checked (sign (ErgonCodec.encode (transfer_term from to amount)) n sk (verifier_of sk)) unbounded = Some (transfer_term from to amount).
Proof.
  intros. unfold checked, ErgonCodec.checked_decode. cbn [sign term]. rewrite ErgonCodec.term_decode_encode by by apply transfer_encodable. done.
Qed.

(** The transaction of a signed transfer term, on every branch. *)
Lemma apply_transfer_term F sk to amount n : let from := Token.account_id (verifier_of sk) in let l := Hybrid.tokens F in
  is_bytes to -> length to = 32%nat -> is_u64 amount -> is_u64 n -> is_u64 (Token.balance l from) -> is_u64 (Token.balance l to) ->
  apply_term F (to_bytes (sign (ErgonCodec.encode (transfer_term from to amount)) n sk (verifier_of sk))) None =
  (if Token.nonce l from <? n then (Ledger.Deferred, F)
   else if negb (n =? Token.nonce l from) then (Ledger.Rejected, F)
   else if Token.balance l from <? amount then (Ledger.Rejected, F)
   else if Token.balance l to + amount <? 2 ^ 64 then (Ledger.Applied, bumped from (moved F from to amount))
   else (Ledger.Rejected, F)).
Proof.
  intros from l Ht Lt Ha Hn Hbf Hbt. set (st := sign _ n sk _). destruct (sign_ok sk (ErgonCodec.encode (transfer_term from to amount)) n) as [Hv Hl].
  fold st in Hv, Hl. unfold apply_term. rewrite envelope_from_to by done. cbn [default]. rewrite Hv. cbn [negb]. change (caller st) with from.
  change (nonce st) with n. fold l. destruct (_ <? n); [done|]. destruct (n =? _); cbn [negb]; [|done].
  unfold st. rewrite transfer_checked by (done || apply hash_labeled_bytes || apply hash_labeled_length).
  rewrite eval_transfer by done. fold l. destruct (_ <? amount); [done|]. by destruct (_ <? 2 ^ 64).
Qed.

(** C21: a transfer submitted as a term and the same transfer submitted under its own tag agree.  For a
    recipient other than the sender the two transactions have the same outcome on every branch (applied,
    deferred for an early nonce, rejected), leave every account the same balance and nonce, and the term
    touches nothing but the token ledger. *)
Theorem transfer_term_is_the_native_transfer (F : Hybrid.Full) (sk : HybridSigSecret) (to : list Z) (amount n : Z) :
  let from := Token.account_id (verifier_of sk) in
  let by_term := apply_term F (to_bytes (sign (ErgonCodec.encode (transfer_term from to amount)) n sk (verifier_of sk))) None in
  let by_tag := Ledger.exec (Hybrid.base F) (Ledger.TxTransparent (Token.sign (Token.mk_transfer from to amount n) sk (verifier_of sk))) in
  Token.ledger_ok (Hybrid.tokens F) -> is_bytes to -> length to = 32%nat -> is_u64 amount -> is_u64 n -> from <> to ->
  fst by_term = fst by_tag /\
  (forall a, Token.balance (Hybrid.tokens (snd by_term)) a = Token.balance (Ledger.tokens (snd by_tag)) a /\
             Token.nonce (Hybrid.tokens (snd by_term)) a = Token.nonce (Ledger.tokens (snd by_tag)) a) /\
  snd by_term = Hybrid.set_tokens (Hybrid.tokens (snd by_term)) F.
Proof.
  intros from by_term by_tag Hok Hbt Lt Ha Hn Hne. set (l := Hybrid.tokens F) in *.
  pose proof (Token.balance_range l from Hok) as Hbf. pose proof (Token.balance_range l to Hok) as Hbto.
  set (st := Token.sign (Token.mk_transfer from to amount n) sk (verifier_of sk)) in by_tag.
  assert (Hv : Token.verify st = true) by by apply Token.sign_verifies.
  pose proof (Token.apply_settles l st Hok) as Hs. pose proof (apply_transfer_term F sk to amount n Hbt Lt Ha Hn Hbf Hbto) as Et.
  cbv zeta in Et. fold from l by_term in Et. rewrite Et. clear Et by_term.
  assert (Etag : by_tag = match Token.apply l st with
    | (Ok _, l') => (Ledger.Applied, Ledger.mk_hybrid l' (Ledger.htlcs (Hybrid.base F)) (Ledger.stake (Hybrid.base F)) (Ledger.height (Hybrid.base F)))
    | (Err Token.NonceAhead, _) => (Ledger.Deferred, Hybrid.base F)
    | (Err _, _) => (Ledger.Rejected, Hybrid.base F) end) by done.
  rewrite Etag. revert Hs. unfold Token.apply, Token.apply_with_verdict. rewrite Hv. cbn [negb st Token.sign Token.transfer Token.t_from Token.t_nonce Token.t_amount Token.t_to].
  assert (Hsame : F = Hybrid.set_tokens l F) by by destruct F as [[] ? ? ?].
  destruct (_ <? n); [done|]. destruct (n =? _) eqn:En; cbn [negb]; [|done]. destruct (_ <? amount) eqn:El; [done|].
  intros Hs. destruct Hs as (_ & (_ & _ & Hbal & Hnon) & Hok' & _); [done|].
  set (l' := Token.bump_nonce _ from) in *. cbn [st Token.sign Token.transfer Token.t_from Token.t_nonce Token.t_amount Token.t_to] in Hbal, Hnon.
  assert (Ho : Token.balance l to + amount < 2 ^ 64).
  { pose proof (Token.balance_range l' to Hok') as Hr. rewrite Hbal in Hr. unfold Token.delta in Hr.
    rewrite decide_False, decide_True in Hr by done. unfold in_u in Hr. lia. }
  rewrite (proj2 (Z.ltb_lt _ _) Ho). cbn [fst snd]. split; [done|]. split; [|done]. intros a. split.
  - cbn [Ledger.tokens]. rewrite Hbal, bumped_balance, moved_balance. fold l. unfold Token.delta. repeat case_decide; try congruence; try (subst a; lia); lia.
  - cbn [Ledger.tokens]. rewrite Hnon. apply bumped_nonce.
Qed.

(** A transfer term to oneself mints its amount: the rule reads both balances first and writes the credit
    last, to the same account.  The native transfer leaves the balance as it was. *)
Theorem self_transfer_mints F sk amount : let me := Token.account_id (verifier_of sk) in let l := Hybrid.tokens F in
  is_u64 amount -> is_u64 (Token.nonce l me) -> is_u64 (Token.balance l me) -> amount <= Token.balance l me -> Token.balance l me + amount < 2 ^ 64 ->
  exists F', apply_term F (to_bytes (sign (ErgonCodec.encode (transfer_term me me amount)) (Token.nonce l me) sk (verifier_of sk))) None =
    (Ledger.Applied, F') /\ Token.balance (Hybrid.tokens F') me = Token.balance l me + amount.
Proof.
  intros me l Ha Hn Hb Hle Ho. exists (bumped me (moved F me me amount)). split; [|by rewrite bumped_balance, moved_balance, decide_True].
  pose proof (apply_transfer_term F sk me amount (Token.nonce l me) (hash_labeled_bytes _ _) (hash_labeled_length _ _) Ha Hn Hb Hb) as Et.
  cbv zeta in Et. fold me l in Et. rewrite Z.ltb_irrefl, Z.eqb_refl, (proj2 (Z.ltb_ge _ _) Hle), (proj2 (Z.ltb_lt _ _) Ho) in Et. exact Et.
Qed.

End laws.

(** ** Witnesses *)

Definition w_F : Hybrid.Full := Hybrid.new (Token.credit (Token.credit Token.new Ledger.w_alice 50000) Ledger.w_bob 7).
Definition w_submit (t : Term) (n : Z) : list Z :=
  @to_bytes toy_crypto (@sign toy_crypto (ErgonCodec.encode t) n Ledger.w_key Ledger.w_vk).
Definition w_run (F : Hybrid.Full) (t : Term) (n : Z) : Ledger.ExecOutcome * Hybrid.Full := @apply_term toy_crypto F (w_submit t n) None.

(** The balances of the two accounts, the nonce of the first and the number of names. *)
Definition w_seen (F : Hybrid.Full) : Z * Z * Z * nat :=
  (Token.balance (Hybrid.tokens F) Ledger.w_alice, Token.balance (Hybrid.tokens F) Ledger.w_bob,
   Token.nonce (Hybrid.tokens F) Ledger.w_alice, Naming.len (Hybrid.names F)).

Definition w_pay : Term := transfer_term Ledger.w_alice Ledger.w_bob 5.

Lemma w_pay_run : let r := w_run w_F w_pay 0 in (fst r, w_seen (snd r)) = (Ledger.Applied, (49995, 12, 1, 0%nat)).
Proof. vm_compute. reflexivity. Qed.

Lemma w_F_wf : ledger_wf w_F.
Proof. by_decide. Qed.

Lemma terms_spend_only_for_their_caller_witness :
  exists st, @from_bytes toy_crypto (w_submit w_pay 0) = Some st /\ @caller toy_crypto st = Ledger.w_alice /\
    @nonce toy_crypto st = 0.
Proof.
  destruct (@terms_spend_only_for_their_caller toy_crypto w_F (w_submit w_pay 0) None w_F_wf) as [H _].
  assert (Hlt : Token.balance (Hybrid.tokens (snd (w_run w_F w_pay 0))) Ledger.w_alice < Token.balance (Hybrid.tokens w_F) Ledger.w_alice)
    by (vm_compute; reflexivity).
  destruct (H Ledger.w_alice Hlt) as (st & H1 & H2 & _ & H4). exists st. exact (conj H1 (conj H2 H4)).
Defined.

Lemma transfer_term_is_the_native_transfer_witness : fst (w_run w_F w_pay 0) = Ledger.Applied.
Proof.
  assert (Hok : Token.ledger_ok (Hybrid.tokens w_F)) by by_decide.
  assert (Hb : is_bytes Ledger.w_bob) by by_decide.
  assert (Hne : @Token.account_id toy_crypto (@verifier_of toy_crypto Ledger.w_key) <> Ledger.w_bob) by by_decide.
  destruct (@transfer_term_is_the_native_transfer toy_crypto toy_laws w_F Ledger.w_key Ledger.w_bob 5 0 Hok Hb eq_refl
    ltac:(by_decide) ltac:(by_decide) Hne) as [E _].
  refine (eq_trans E _). vm_compute. reflexivity.
Defined.

(** ** What the ledger does with terms that fail half-way *)

Definition w_name : list Z := ascii_bytes "alice".
Definition w_fault : Term := Do (internal 9 fp_empty).

(** A term that registers a name and then fails is rejected, gives the fee back and spends no nonce, but the
    name stays registered: the roll-back hands the absent key back as the integer zero, which the name
    space does not take. *)
Example free_name_by_failing :
  let r := w_run w_F (Seq [@name_register_term toy_crypto w_name [1] 10 10000 Ledger.w_alice; w_fault]) 0 in
  (fst r, w_seen (snd r)) = (Ledger.Rejected, (50000, 7, 0, 1%nat)) /\
  Naming.owner <$> @Naming.resolve toy_crypto (Hybrid.names (snd r)) w_name 10 = Some Ledger.w_alice.
Proof. vm_compute. split; reflexivity. Qed.

(** A term that pays and then reads a space the adapter does not map is rejected, but the payment stays and
    no nonce is spent, so the same bytes pay again. *)
Definition w_unmapped : Term := Seq [w_pay; Gate (Host PRED_NAME_OWNED [storage_key (replicate 32 0)] [Lit (Bytes32 Ledger.w_alice)]) w_fault].

Example rejected_payment_commits_and_replays :
  let r := w_run w_F w_unmapped 0 in let r' := w_run (snd r) w_unmapped 0 in
  (fst r, w_seen (snd r)) = (Ledger.Rejected, (49995, 12, 0, 0%nat)) /\
  (fst r', w_seen (snd r')) = (Ledger.Rejected, (49990, 17, 0, 0%nat)).
Proof. vm_compute. split; reflexivity. Qed.

(** A read of a balance through another point is invisible to the conflict check. *)
Example aliased_read_is_no_conflict :
  let t := Gate (Compare Eq (Load (at_key 1 SPACE_BALANCE Ledger.w_alice)) (Lit (Int 50000))) w_fault in
  parallel_safe (term_footprint w_pay) (term_footprint t) = true /\
  fst (w_run w_F (Seq [w_pay; t]) 0) = Ledger.Applied /\ fst (w_run w_F (Seq [t; w_pay]) 0) = Ledger.Rejected.
Proof. vm_compute. split_and!; reflexivity. Qed.

End ErgonHost.
