(* ===== verification/Chain.v ===== *)
(** * State machines, the finalized chain and execution checkpoints

    [fanos-taxis/src/state.rs] (the trait the engine executes blocks through, as a class),
    [fanos-taxis/src/chain.rs] (the finalized headers over a base height) and
    [fanos-taxis/src/checkpoint.rs] (execution attestations and their certificates). *)
From S2P Require Import Prelude Codec Sig Vote Threshold Tx Block Ledger.
Local Open Scope Z_scope.

(** The trait [StateMachine]: [&mut self] methods return the new state. *)
Class StateMachine `{Crypto} (S : Type) := {
  sm_begin_block : S -> Z -> S;
  sm_set_audit_beacon : S -> list Z -> S;
  sm_apply_block_reward : S -> list HybridVerifier -> Z -> S;
  sm_pays_block_reward : bool;
  sm_apply_block : S -> list Tx.Transaction -> S * list Ledger.ExecOutcome;
  sm_state_root : S -> list Z;
  sm_snapshot : S -> list Z;
  sm_restore : list Z -> option S;
}.

(** The provided [apply_block]: the transactions one after another. *)
Definition sm_apply_serial {S} (apply : S -> Tx.Transaction -> S * Ledger.ExecOutcome) (s : S)
    (txs : list Tx.Transaction) : S * list Ledger.ExecOutcome :=
  fold_left (fun '(s, out) tx => let '(s, o) := apply s tx in (s, out ++ [o])) txs (s, []).

(** ** The chain *)

Module Chain.
Section chain.
  Context `{Crypto} {S : Type} `{!StateMachine S}.

Record Chain := mk_chain {
  headers : list Block.BlockHeader;
  chead : list Z;
  state : S;
  base_height : Z;
}.

Definition new (genesis_state : S) : Chain := mk_chain [] Block.GENESIS_PARENT genesis_state 0.

Definition restore (c : Chain) (height : Z) (head : list Z) (st : S) : Chain :=
  mk_chain [] head st (sat_add 64 height 1).

Definition next_height (c : Chain) : Z := w64 (base_height c + Z.of_nat (length (headers c))).

Definition state_root (c : Chain) : list Z := sm_state_root (state c).

Definition links (c : Chain) (h : Block.BlockHeader) : bool :=
  bool_decide (Block.parent h = chead c) && (Block.height h =? next_height c).

Definition finalize (c : Chain) (h : Block.BlockHeader) : Chain :=
  mk_chain (headers c ++ [h]) (Block.header_hash h) (state c) (base_height c).

Definition set_state (c : Chain) (s : S) : Chain := mk_chain (headers c) (chead c) s (base_height c).

Definition begin_block (c : Chain) (height : Z) : Chain := set_state c (sm_begin_block (state c) height).
Definition set_audit_beacon (c : Chain) (beacon : list Z) : Chain :=
  set_state c (sm_set_audit_beacon (state c) beacon).
Definition apply_block_reward (c : Chain) (beneficiaries : list HybridVerifier) (amount : Z) : Chain :=
  set_state c (sm_apply_block_reward (state c) beneficiaries amount).
Definition execute_block (c : Chain) (txs : list Tx.Transaction) : Chain * list Ledger.ExecOutcome :=
  let '(s, out) := sm_apply_block (state c) txs in (set_state c s, out).

(** A well-formed chain: its headers sit at consecutive heights from the base, each naming the hash
    of the one before as its parent, and the head is the hash of the last. *)
Definition linked (c : Chain) : Prop :=
  forall i h, headers c !! i = Some h ->
    Block.height h = base_height c + Z.of_nat i /\
    (forall g, headers c !! Datatypes.S i = Some g -> Block.parent g = Block.header_hash h) /\
    (Datatypes.S i = length (headers c) -> chead c = Block.header_hash h).

Lemma next_height_finalize c h :
  0 <= base_height c -> base_height c + Z.of_nat (length (headers c)) + 1 < 2 ^ 64 ->
  next_height (finalize c h) = next_height c + 1.
Proof.
  intros Hb Hlt. unfold next_height, finalize. cbn [headers base_height]. rewrite length_app. cbn [length].
  rewrite !wrap_small by (unfold in_u; lia). lia.
Qed.

Lemma linked_finalize c h :
  0 <= base_height c -> base_height c + Z.of_nat (length (headers c)) < 2 ^ 64 ->
  linked c -> links c h = true -> linked (finalize c h).
Proof.
  unfold links. rewrite andb_true_iff, bool_decide_eq_true, Z.eqb_eq. intros Hb Hn Hl [Hp Hh] i x Hi.
  unfold next_height in Hh. rewrite wrap_small in Hh by (unfold in_u; lia).
  unfold finalize in *. cbn [headers chead base_height] in *. rewrite length_app. cbn [length].
  apply lookup_app_Some in Hi as [Hi|[Hge Hi]].
  - destruct (Hl i x Hi) as (H1 & H2 & H3). split; [done|]. pose proof (lookup_lt_Some _ _ _ Hi) as Hlt. split.
    + intros g Hg. apply lookup_app_Some in Hg as [Hg|[Hge Hg]]; [by apply H2|].
      destruct (Datatypes.S i - length (headers c))%nat eqn:E; [|done]. injection Hg as <-.
      rewrite Hp. apply H3. lia.
    + lia.
  - destruct (i - length (headers c))%nat eqn:E; [|done]. injection Hi as <-. split; [|split].
    + rewrite Hh. lia.
    + intros g Hg. apply lookup_lt_Some in Hg. rewrite length_app in Hg. cbn in Hg. lia.
    + done.
Qed.

End chain.
Arguments Chain S : clear implicits.
End Chain.

(** ** Checkpoints *)

Module Checkpoint.

Record ExecVote := mk_exec {
  ev_height : Z;
  ev_state_root : list Z;
  ev_head : list Z;
  ev_voter : Z;
  ev_sig : list Z;
}.

Record ExecCertificate := mk_exec_cert {
  xc_height : Z;
  xc_state_root : list Z;
  xc_head : list Z;
  xc_votes : list ExecVote;
}.

Definition signable (height : Z) (state_root head : list Z) (voter : Z) : list Z :=
  be_bytes 8 height ++ state_root ++ head ++ [voter].

Definition EXEC_LEN : nat := 8 + 32 + 32 + 1 + HYBRID_SIG_LEN.

Definition exec_to_bytes (v : ExecVote) : list Z :=
  be_bytes 8 (ev_height v) ++ ev_state_root v ++ ev_head v ++ [ev_voter v] ++ ev_sig v.

Definition exec_from_bytes (bytes : list Z) : option ExecVote :=
  if negb (length bytes =? EXEC_LEN)%nat then None else
  letO h := slice 0 8 bytes in
  letO r := slice 8 40 bytes in
  letO d := slice 40 72 bytes in
  letO v := bytes !! 72%nat in
  letO s := slice_from 73 bytes in
  Some (mk_exec (from_be h) r d v s).

Definition cert_to_bytes (c : ExecCertificate) : list Z :=
  be_bytes 8 (xc_height c) ++ xc_state_root c ++ xc_head c ++
  be_bytes 2 (wrap 16 (Z.of_nat (length (xc_votes c)))) ++ concat (exec_to_bytes <$> xc_votes c).

(** [for i in 0..count]: fixed-width votes from the body. *)
Fixpoint read_exec (body : list Z) (count start : nat) : option (list ExecVote) :=
  match count with
  | O => Some []
  | S count =>
      letO s := slice start (start + EXEC_LEN) body in
      letO v := exec_from_bytes s in
      letO vs := read_exec body count (start + EXEC_LEN) in
      Some (v :: vs)
  end.

Definition cert_from_bytes (bytes : list Z) : option ExecCertificate :=
  letO h := slice 0 8 bytes in
  letO r := slice 8 40 bytes in
  letO d := slice 40 72 bytes in
  letO n := slice 72 74 bytes in
  let count := Z.to_nat (from_be n) in
  letO body := slice_from 74 bytes in
  if negb (length body =? count * EXEC_LEN)%nat then None else
  letO vs := read_exec body count 0 in
  Some (mk_exec_cert (from_be h) r d vs).

Section verification.
  Context `{Crypto}.

Definition exec_sign (height : Z) (state_root head : list Z) (voter : Z) (signer : HybridSigSecret) : ExecVote :=
  mk_exec height state_root head voter (sig_to_bytes (hybrid_sign signer (signable height state_root head voter))).

Definition exec_verify (v : ExecVote) (verifier : HybridVerifier) : bool :=
  match sig_from_bytes (ev_sig v) with
  | None => false
  | Some s => hybrid_verify verifier (signable (ev_height v) (ev_state_root v) (ev_head v) (ev_voter v)) s
  end.

(** The loop of [verify_by]: [None] is an early [return false]; a seat without a known key is
    claimed but not counted. *)
Fixpoint count_exec (c : ExecCertificate) (key : nat -> option HybridVerifier) (vs : list ExecVote)
    (seen : list bool) (count : nat) : option nat :=
  match vs with
  | [] => Some count
  | v :: vs =>
      if negb (ev_height v =? xc_height c) || bool_decide (ev_state_root v <> xc_state_root c)
         || bool_decide (ev_head v <> xc_head c) then None else
      let i := Z.to_nat (ev_voter v) in
      match seen !! i with
      | None => None
      | Some true => None
      | Some false =>
          let seen := <[i := true]> seen in
          match key i with
          | None => count_exec c key vs seen count
          | Some verifier =>
              if negb (exec_verify v verifier) then None else count_exec c key vs seen (S count)
          end
      end
  end.

Definition verify_by (c : ExecCertificate) (quorum seats : nat) (key : nat -> option HybridVerifier) : bool :=
  match count_exec c key (xc_votes c) (replicate seats false) 0 with
  | None => false
  | Some count => (quorum <=? count)%nat
  end.

Definition xc_verify (c : ExecCertificate) (quorum : nat) (verifiers : list HybridVerifier) : bool :=
  verify_by c quorum (length verifiers) (fun i => verifiers !! i).

Definition conflicting (c : ExecCertificate) (v : ExecVote) (verifiers : list HybridVerifier) : option Z :=
  if negb (ev_height v =? xc_height c) || bool_decide (ev_state_root v = xc_state_root c) then None else
  letO verifier := verifiers !! Z.to_nat (ev_voter v) in
  if exec_verify v verifier then Some (ev_voter v) else None.

(** An attestation for the claim of [c] that verifies under its voter's key. *)
Definition attests (c : ExecCertificate) (key : nat -> option HybridVerifier) (v : ExecVote) : Prop :=
  ev_height v = xc_height c /\ ev_state_root v = xc_state_root c /\ ev_head v = xc_head c /\
  exists k, key (Z.to_nat (ev_voter v)) = Some k /\ exec_verify v k = true.

(** What counted: distinct seats, each with a verified attestation. *)
Lemma count_exec_sound c key vs : forall seen count m,
  count_exec c key vs seen count = Some m ->
  exists who : list nat, base.NoDup who /\ m = (count + length who)%nat /\
    forall i, i ∈ who -> seen !! i = Some false /\
      exists v, v ∈ vs /\ Z.to_nat (ev_voter v) = i /\ attests c key v.
Proof.
  induction vs as [|v vs IH]; intros seen count m; cbn [count_exec].
  { intros [= <-]. exists []. split; [constructor|]. split; [simpl; lia|]. set_solver. }
  destruct (negb (ev_height v =? xc_height c) || bool_decide (ev_state_root v <> xc_state_root c)
    || bool_decide (ev_head v <> xc_head c)) eqn:Et; [done|].
  rewrite !orb_false_iff, negb_false_iff, Z.eqb_eq, !bool_decide_eq_false in Et. destruct Et as [[E1 E2] E3].
  apply dec_stable in E2, E3.
  set (i := Z.to_nat (ev_voter v)). destruct (seen !! i) as [[]|] eqn:Es; [done| |done].
  assert (Hstep : forall who : list nat,
    (forall j, j ∈ who -> <[i:=true]> seen !! j = Some false /\
      exists v', v' ∈ vs /\ Z.to_nat (ev_voter v') = j /\ attests c key v') ->
    (i ∉ who) /\ forall j, j ∈ who -> seen !! j = Some false /\
      exists v', v' ∈ v :: vs /\ Z.to_nat (ev_voter v') = j /\ attests c key v').
  { intros who Hw. split.
    - intros Hi%Hw. destruct Hi as [Hi _]. rewrite list_lookup_insert_eq in Hi; [done|by apply lookup_lt_Some in Es].
    - intros j Hj. destruct (Hw j Hj) as (Hs & v' & Hv & Hj' & Ha).
      rewrite list_lookup_insert_ne in Hs.
      + split; [done|]. exists v'. split; [by apply elem_of_cons; right|done].
      + intros <-. rewrite list_lookup_insert_eq in Hs; [done|by apply lookup_lt_Some in Es]. }
  destruct (key i) as [k|] eqn:Ek.
  - destruct (exec_verify v k) eqn:Ev; simpl; [|done].
    intros (who & Hnd & -> & Hw)%IH. destruct (Hstep who Hw) as (Hni & Hw').
    exists (i :: who). split; [by constructor|]. split; [simpl; lia|].
    intros j [->|Hj]%elem_of_cons; [|by apply Hw'].
    split; [done|]. exists v. split; [by apply elem_of_cons; left|]. split; [done|].
    repeat split; [done..|]. exists k. done.
  - intros (who & Hnd & -> & Hw)%IH. destruct (Hstep who Hw) as (_ & Hw').
    exists who. done.
Qed.

(** A certificate that verifies has a quorum of distinct seats behind its claim. *)
Lemma xc_verify_sound c quorum verifiers :
  xc_verify c quorum verifiers = true ->
  exists who : list nat, base.NoDup who /\ (quorum <= length who)%nat /\
    forall i, i ∈ who -> (i < length verifiers)%nat /\
      exists v, v ∈ xc_votes c /\ Z.to_nat (ev_voter v) = i /\ attests c (fun j => verifiers !! j) v.
Proof.
  unfold xc_verify, verify_by. destruct (count_exec _ _ _ _ _) as [m|] eqn:E; [|done].
  apply count_exec_sound in E as (who & Hnd & -> & Hw). intros Hq%Nat.leb_le.
  exists who. split; [done|]. split; [done|]. intros i Hi. destruct (Hw i Hi) as (Hs & Hv). split; [|done].
  apply lookup_replicate in Hs. lia.
Qed.

End verification.
End Checkpoint.
