(* ===== verification/Accounts.v ===== *)
(** * The reference state machine

    [fanos-taxis/src/state.rs]: [Accounts], plain transfers with nonces, as the instance of the
    state-machine interface that the consensus engine executes blocks through.  It carries no
    signatures; the shipping ledger is the one of [fanos-dromos]. *)
From S2P Require Import Prelude Varint Wire Codec Sig Threshold Tx Block Ledger Chain.
Local Open Scope Z_scope.

Module Accounts.

Definition STATE_ROOT_LABEL : string := "FANOS-v1/taxis-state-root".

Record Transfer := mk_transfer { from : list Z; to : list Z; amount : Z; t_nonce : Z }.

Record Accounts := mk_accounts { balances : btree Z; nonces : btree Z }.

#[global] Instance Accounts_eq_dec : EqDecision Accounts.
Proof. solve_decision. Defined.

(** The fields [#[derive(Wire)]] encodes, in declaration order. *)
Definition TransferWire : Type := byte_array 32 * (byte_array 32 * (uint 8 * (uint 8 * unit))).

Definition transfer_fields (t : Transfer) : TransferWire :=
  (mk_array (from t), (mk_array (to t), (mk_uint (amount t), (mk_uint (t_nonce t), tt)))).

Definition transfer_of (w : TransferWire) : Transfer :=
  let '(f, (t, (a, (n, _)))) := w in mk_transfer (a_bytes f) (a_bytes t) (u_val a) (u_val n).

Definition into_tx (t : Transfer) : Tx.Transaction := Tx.mk_tx (Block.wire_bytes (transfer_fields t)).

Definition new : Accounts := mk_accounts ∅ ∅.

Definition balance (s : Accounts) (a : list Z) : Z := default 0 (balances s !! a).
Definition nonce (s : Accounts) (a : list Z) : Z := default 0 (nonces s !! a).

Definition credit (s : Accounts) (a : list Z) (x : Z) : Accounts :=
  mk_accounts (<[a := sat_add 64 (balance s a) x]> (balances s)) (nonces s).

Definition apply (s : Accounts) (tx : Tx.Transaction) : Accounts * Ledger.ExecOutcome :=
  match from_wire (A := TransferWire) (Tx.payload tx) with
  | Err _ => (s, Ledger.Malformed)
  | Ok w =>
      let t := transfer_of w in
      let expected := nonce s (from t) in
      if expected <? t_nonce t then (s, Ledger.Deferred) else
      if negb (t_nonce t =? expected) then (s, Ledger.Rejected) else
      if balance s (from t) <? amount t then (s, Ledger.Rejected) else
      let b := <[from t := balance s (from t) - amount t]> (balances s) in
      let b := <[to t := sat_add 64 (default 0 (b !! to t)) (amount t)]> b in
      (mk_accounts b (<[from t := w64 (expected + 1)]> (nonces s)), Ledger.Applied)
  end.

Definition entry_bytes (a : list Z) (x : Z) : list Z := a ++ put_u64 x.

Definition snapshot (s : Accounts) : list Z := put_map (balances s) entry_bytes ++ put_map (nonces s) entry_bytes.

Definition read_entry (r : Reader) : option ((list Z * Z) * Reader) :=
  letO (a, r) := rd_array 32 r in
  letO (x, r) := rd_u64 r in
  Some ((a, x), r).

Definition restore (bytes : list Z) : option Accounts :=
  letO (b, r) := read_map 40 read_entry (reader_new bytes) in
  letO (n, r) := read_map 40 read_entry r in
  letO _ := rd_finish r in
  Some (mk_accounts b n).

Definition known_accounts (s : Accounts) : bset := dom (balances s) ∪ dom (nonces s).

Section root.
  Context `{Crypto}.

Definition state_root (s : Accounts) : list Z :=
  hash_labeled STATE_ROOT_LABEL
    (concat ((fun a => a ++ be_bytes 8 (balance s a) ++ be_bytes 8 (nonce s a)) <$> bset_list (known_accounts s))).

(** The trait implementation: the clock, the beacon and the reward keep their empty defaults. *)
#[global] Instance accounts_machine : StateMachine Accounts := {
  sm_begin_block s _ := s;
  sm_set_audit_beacon s _ := s;
  sm_apply_block_reward s _ _ := s;
  sm_pays_block_reward := false;
  sm_apply_block := sm_apply_serial apply;
  sm_state_root := state_root;
  sm_snapshot := snapshot;
  sm_restore := restore;
}.

End root.

(** ** Snapshots *)

Definition map_ok (m : btree Z) : Prop :=
  Z.of_nat (size m) < 2 ^ 32 /\ map_Forall (fun k v => length k = 32%nat /\ is_u64 v) m.

Lemma account_entry_reads a x : length a = 32%nat -> is_u64 x -> reads read_entry (entry_bytes a x) (a, x).
Proof.
  intros Ha Hx r rest Hr E. unfold entry_bytes in E. rewrite <- app_assoc in E.
  destruct (rd_take_reads 32 a Ha r _ Hr E) as (r1 & E1 & R1 & H1).
  destruct (rd_u64_reads x Hx r1 rest H1 R1) as (r2 & E2 & R2 & H2).
  exists r2. unfold read_entry, rd_array. rewrite E1, E2. done.
Qed.

Lemma read_map_ok m : map_ok m -> reads (read_map 40 read_entry) (put_map m entry_bytes) m.
Proof.
  intros [Hs Hm]. apply read_map_reads; [lia|done|]. intros k v Hk. destruct (Hm k v Hk) as [H1 H2].
  split; [by apply account_entry_reads|]. unfold entry_bytes, put_u64. rewrite length_app, length_le_bytes. lia.
Qed.

(** Restoring a snapshot gives the state back, so with it the state root. *)
Lemma restore_snapshot s : map_ok (balances s) -> map_ok (nonces s) -> restore (snapshot s) = Some s.
Proof.
  intros Hb Hn. unfold restore, snapshot. set (bytes := _ ++ _).
  destruct (rd_new_ok bytes) as [H0 R0].
  destruct (read_map_ok _ Hb (reader_new bytes) _ H0 R0) as (r1 & -> & R1 & H1).
  rewrite <- (app_nil_r (put_map (nonces s) _)) in R1.
  destruct (read_map_ok _ Hn r1 _ H1 R1) as (r2 & -> & R2 & H2).
  rewrite (proj2 (rd_finish_iff r2 H2) R2). by destruct s.
Qed.

End Accounts.
