(* ===== verification/Messages.v ===== *)
(** * Consensus messages

    [fanos-taxis/src/consensus.rs] ([RevealMsg], [ConsensusMsg], [Input], [Output]) and
    [fanos-taxis/src/wire.rs] (the application frames that carry them). *)
From S2P Require Import Prelude Varint Wire Codec Sig Lrc Erasure Vote Incentive Shamir Kem Threshold Tx Block Chain.
Local Open Scope Z_scope.

Module Messages.

(** ** Reveals *)

Record RevealMsg := mk_rmsg { r_commit : list Z; r_member : Z; r_share : list Z; r_sig : list Z }.

Definition share_to_bytes (s : Shamir.Share) : list Z := Shamir.sx s :: Shamir.sy s.

Definition share_from_bytes (bytes : list Z) : option Shamir.Share :=
  match bytes with [] => None | x :: y => Some (Shamir.mk_share x y) end.

Definition signable (commit : list Z) (member : Z) (share : list Z) : list Z := commit ++ [member] ++ share.

Definition reveal_to_bytes (r : RevealMsg) : list Z := r_commit r ++ [r_member r] ++ r_sig r ++ r_share r.

Definition reveal_from_bytes (bytes : list Z) : option RevealMsg :=
  letO c := slice 0 32 bytes in
  letO m := bytes !! 32%nat in
  letO sg := slice 33 (33 + HYBRID_SIG_LEN) bytes in
  letO sh := slice_from (33 + HYBRID_SIG_LEN) bytes in
  Some (mk_rmsg c m sh sg).

Section reveals.
  Context `{Crypto}.

Definition reveal_signed (commit : list Z) (member : Z) (share : list Z) (signer : HybridSigSecret) : RevealMsg :=
  mk_rmsg commit member share (sig_to_bytes (hybrid_sign signer (signable commit member share))).

Definition reveal_verify (r : RevealMsg) (verifier : HybridVerifier) : bool :=
  match sig_from_bytes (r_sig r) with
  | None => false
  | Some s => hybrid_verify verifier (signable (r_commit r) (r_member r) (r_share r)) s
  end.

End reveals.

(** ** Messages *)

Inductive ConsensusMsg :=
| MPropose (b : Block.Block)
| MVote (sv : Vote.SignedVote)
| MReveal (r : RevealMsg)
| MExecVote (v : Checkpoint.ExecVote)
| MSyncReq (have_height : Z) (have_root : list Z)
| MSyncResp (cert : Checkpoint.ExecCertificate) (above : list Vote.Certificate) (snapshot : list Z)
| MCommitCert (cert : Vote.Certificate)
| MNeedBody (block : list Z)
| MBody (b : Block.Block).

Definition msg_to_bytes (m : ConsensusMsg) : list Z :=
  match m with
  | MPropose b => 0 :: Block.to_bytes b
  | MVote sv => 1 :: Vote.sv_to_bytes sv
  | MReveal r => 2 :: reveal_to_bytes r
  | MExecVote v => 3 :: Checkpoint.exec_to_bytes v
  | MSyncReq h root => 4 :: put_u64 h ++ root
  | MSyncResp cert above snapshot =>
      5 :: put_var_bytes (Checkpoint.cert_to_bytes cert) ++ put_u32 (w32 (Z.of_nat (length above))) ++
      concat ((fun c => put_var_bytes (Vote.cert_to_bytes c)) <$> above) ++ snapshot
  | MCommitCert cert => 6 :: Vote.cert_to_bytes cert
  | MNeedBody b => 7 :: b
  | MBody b => 8 :: Block.to_bytes b
  end.

Definition read_cert (r : Reader) : option (Vote.Certificate * Reader) :=
  letO (b, r) := rd_var_bytes r in
  letO c := Vote.cert_from_bytes b in
  Some (c, r).

Definition msg_from_bytes (bytes : list Z) : option ConsensusMsg :=
  match bytes with
  | [] => None
  | tag :: body =>
      match tag with
      | 0 => letO b := Block.from_bytes body in Some (MPropose b)
      | 1 => letO sv := Vote.sv_from_bytes body in Some (MVote sv)
      | 2 => letO r := reveal_from_bytes body in Some (MReveal r)
      | 3 => letO v := Checkpoint.exec_from_bytes body in Some (MExecVote v)
      | 4 =>
          letO (h, r) := rd_u64 (reader_new body) in
          letO (root, r) := rd_array 32 r in
          letO _ := rd_finish r in
          Some (MSyncReq h root)
      | 5 =>
          letO (cb, r) := rd_var_bytes (reader_new body) in
          letO cert := Checkpoint.cert_from_bytes cb in
          letO (above, r) := rd_seq 4 read_cert r in
          let '(snapshot, _) := rd_rest r in
          Some (MSyncResp cert above snapshot)
      | 6 => letO c := Vote.cert_from_bytes body in Some (MCommitCert c)
      | 7 =>
          letO (b, r) := rd_array 32 (reader_new body) in
          letO _ := rd_finish r in
          Some (MNeedBody b)
      | 8 => letO b := Block.from_bytes body in Some (MBody b)
      | _ => None
      end
  end.

Inductive TaxisApp :=
| AConsensus (m : ConsensusMsg)
| ATx (tx : Tx.SealedTx)
| AShard (m : Block.ShardMsg).

Definition to_frame (m : ConsensusMsg) : list Z := Block.app_frame Block.KIND_CONSENSUS (msg_to_bytes m).
Definition tx_to_frame (tx : Tx.SealedTx) : list Z := Block.app_frame Block.KIND_TX (Tx.to_bytes tx).

Definition parse_app_body (body : list Z) : option TaxisApp :=
  match body with
  | [] => None
  | kind :: payload =>
      if kind =? Block.KIND_CONSENSUS then letO m := msg_from_bytes payload in Some (AConsensus m)
      else if kind =? Block.KIND_TX then letO t := Tx.from_bytes payload in Some (ATx t)
      else if kind =? Block.KIND_SHARD then letO s := Block.shard_from_bytes payload in Some (AShard s)
      else None
  end.

Definition from_frame (bytes : list Z) : option TaxisApp :=
  match Block.decode_frame bytes with
  | Err _ => None
  | Ok ((type_code, body), _) =>
      if negb (type_code =? Block.APP_CODE) then None else parse_app_body body
  end.

(** ** Events and actions of the engine *)

Inductive Input :=
| ITick
| IPropose (b : Block.Block) (shards : list (option (list Z)))
| ISkeleton (b : Block.Block)
| IVote (sv : Vote.SignedVote)
| IReveal (r : RevealMsg)
| IExecVote (v : Checkpoint.ExecVote)
| ITimeout
| ISyncReq (from : Z) (have_height : Z) (have_root : list Z)
| ICommitCert (cert : Vote.Certificate)
| INeedBody (from : Z) (block : list Z)
| IBody (b : Block.Block)
| ISyncResp (cert : Checkpoint.ExecCertificate) (above : list Vote.Certificate) (snapshot : list Z).

Inductive Output :=
| Send (m : ConsensusMsg)
| Committed (height : Z) (block_hash : list Z)
| Slash (e : Incentive.SlashEvidence)
| SendTo (to : Z) (m : ConsensusMsg).

(** ** Round trips *)

Definition reveal_ok (r : RevealMsg) : Prop :=
  length (r_commit r) = 32%nat /\ length (r_sig r) = HYBRID_SIG_LEN.

Lemma reveal_from_to r : reveal_ok r -> reveal_from_bytes (reveal_to_bytes r) = Some r.
Proof.
  intros [Hc Hs]. unfold reveal_from_bytes, reveal_to_bytes. rewrite slice_prefix by done.
  assert (Hm : (r_commit r ++ [r_member r] ++ r_sig r ++ r_share r) !! 32%nat = Some (r_member r))
    by (by rewrite lookup_app_r, Hc by lia).
  rewrite Hm, (app_assoc (r_commit r)), (slice_mid (r_commit r ++ [r_member r])) by (rewrite ?length_app; simpl; lia).
  rewrite app_assoc, slice_from_app by (rewrite !length_app; simpl; lia). by destruct r.
Qed.

Definition exec_ok (v : Checkpoint.ExecVote) : Prop :=
  is_u64 (Checkpoint.ev_height v) /\ length (Checkpoint.ev_state_root v) = 32%nat /\
  length (Checkpoint.ev_head v) = 32%nat /\ length (Checkpoint.ev_sig v) = HYBRID_SIG_LEN.

Lemma exec_to_bytes_length v : exec_ok v -> length (Checkpoint.exec_to_bytes v) = Checkpoint.EXEC_LEN.
Proof.
  intros (_ & Hr & Hh & Hs). unfold Checkpoint.exec_to_bytes. rewrite !length_app, length_be_bytes, Hr, Hh, Hs.
  reflexivity.
Qed.

Lemma exec_from_to v : exec_ok v -> Checkpoint.exec_from_bytes (Checkpoint.exec_to_bytes v) = Some v.
Proof.
  intros Hok. unfold Checkpoint.exec_from_bytes. rewrite exec_to_bytes_length, Nat.eqb_refl by done. cbn [negb].
  destruct Hok as (Hu & Hr & Hh & Hs). unfold Checkpoint.exec_to_bytes.
  set (hb := be_bytes 8 (Checkpoint.ev_height v)).
  assert (Hhb : length hb = 8%nat) by apply length_be_bytes.
  assert (Hhv : from_be hb = Checkpoint.ev_height v) by (by apply from_be_id). clearbody hb.
  rewrite slice_prefix by done. rewrite (slice_mid hb) by lia.
  rewrite (app_assoc hb), (slice_mid (hb ++ _)) by (rewrite ?length_app; lia).
  rewrite (app_assoc (hb ++ _)). set (pre := (hb ++ _) ++ _).
  assert (Hpre : length pre = 72%nat) by (unfold pre; rewrite !length_app; lia). clearbody pre.
  assert (Hm : (pre ++ [Checkpoint.ev_voter v] ++ Checkpoint.ev_sig v) !! 72%nat = Some (Checkpoint.ev_voter v))
    by (by rewrite lookup_app_r, Hpre by lia).
  rewrite Hm, (app_assoc pre [_]), slice_from_app by (rewrite length_app; simpl; lia). rewrite Hhv. by destruct v.
Qed.

Definition xcert_ok (c : Checkpoint.ExecCertificate) : Prop :=
  is_u64 (Checkpoint.xc_height c) /\ length (Checkpoint.xc_state_root c) = 32%nat /\
  length (Checkpoint.xc_head c) = 32%nat /\ Forall exec_ok (Checkpoint.xc_votes c) /\
  Z.of_nat (length (Checkpoint.xc_votes c)) < 2 ^ 16.

Lemma read_exec_concat vs : forall pre, Forall exec_ok vs ->
  Checkpoint.read_exec (pre ++ concat (Checkpoint.exec_to_bytes <$> vs)) (length vs) (length pre) = Some vs.
Proof.
  induction vs as [|v vs IH]; intros pre Hf; [done|]. apply Forall_cons in Hf as [Hv Hf].
  rewrite fmap_cons. cbn [concat length Checkpoint.read_exec].
  rewrite slice_mid by (rewrite ?exec_to_bytes_length by done; done).
  rewrite exec_from_to by done. specialize (IH (pre ++ Checkpoint.exec_to_bytes v) Hf).
  rewrite length_app, exec_to_bytes_length, <- app_assoc in IH by done. by rewrite IH.
Qed.

Lemma exec_concat_length vs : Forall exec_ok vs ->
  length (concat (Checkpoint.exec_to_bytes <$> vs)) = (length vs * Checkpoint.EXEC_LEN)%nat.
Proof.
  induction 1 as [|v vs Hv _ IH]; [done|]. rewrite fmap_cons. cbn [concat length].
  rewrite length_app, exec_to_bytes_length, IH, Nat.mul_succ_l by done. lia.
Qed.

Lemma xcert_from_to c : xcert_ok c -> Checkpoint.cert_from_bytes (Checkpoint.cert_to_bytes c) = Some c.
Proof.
  intros (Hu & Hr & Hh & Hf & Hn). unfold Checkpoint.cert_from_bytes, Checkpoint.cert_to_bytes.
  rewrite (wrap_small 16) by (unfold in_u; lia).
  set (hb := be_bytes 8 _). set (nb := be_bytes 2 _).
  assert (Hhb : length hb = 8%nat) by apply length_be_bytes.
  assert (Hnb : length nb = 2%nat) by apply length_be_bytes.
  assert (Hhv : from_be hb = Checkpoint.xc_height c) by (by apply from_be_id).
  assert (Hnv : from_be nb = Z.of_nat (length (Checkpoint.xc_votes c))) by (apply from_be_id; unfold in_u; lia).
  clearbody hb nb. rewrite slice_prefix by done. rewrite (slice_mid hb) by lia.
  rewrite (app_assoc hb), (slice_mid (hb ++ _)) by (rewrite ?length_app; lia).
  rewrite (app_assoc (hb ++ _)), (slice_mid ((hb ++ _) ++ _)) by (rewrite ?length_app; lia).
  rewrite (app_assoc ((hb ++ _) ++ _)), slice_from_app by (rewrite !length_app; lia).
  rewrite Hnv, Nat2Z.id, exec_concat_length, Nat.eqb_refl by done. cbn [negb].
  pose proof (read_exec_concat (Checkpoint.xc_votes c) [] Hf) as Hread. cbn [app length] in Hread. rewrite Hread.
  rewrite Hhv. by destruct c.
Qed.

(** Values a message may carry. *)
Definition msg_ok (m : ConsensusMsg) : Prop :=
  match m with
  | MPropose b | MBody b => Block.wire_ok b
  | MVote sv => Vote.sv_ok sv
  | MReveal r => reveal_ok r
  | MExecVote v => exec_ok v
  | MSyncReq h root => is_u64 h /\ length root = 32%nat
  | MSyncResp cert above _ =>
      xcert_ok cert /\ Block.zlen (Checkpoint.cert_to_bytes cert) < 2 ^ 32 /\ Block.zlen above < 2 ^ 32 /\
      Forall (fun c => Vote.cert_ok c /\ Block.zlen (Vote.cert_to_bytes c) < 2 ^ 32) above
  | MCommitCert c => Vote.cert_ok c
  | MNeedBody b => length b = 32%nat
  end.

#[global] Instance msg_ok_dec m : Decision (msg_ok m).
Proof. destruct m; unfold msg_ok, reveal_ok, exec_ok, xcert_ok, exec_ok; apply _. Defined.

Lemma read_cert_reads c : Vote.cert_ok c -> Block.zlen (Vote.cert_to_bytes c) < 2 ^ 32 ->
  reads read_cert (put_var_bytes (Vote.cert_to_bytes c)) c.
Proof.
  intros Hc Hz r rest Hr E. destruct (rd_var_bytes_reads _ Hz r rest Hr E) as (r' & E' & H').
  exists r'. unfold read_cert. by rewrite E', Vote.certificate_roundtrip.
Qed.

(** The three messages read through a cursor. *)
Lemma sync_req_roundtrip h root : is_u64 h -> length root = 32%nat ->
  msg_from_bytes (msg_to_bytes (MSyncReq h root)) = Some (MSyncReq h root).
Proof.
  intros Hh Hl. cbn [msg_to_bytes msg_from_bytes].
  destruct (rd_new_ok (put_u64 h ++ root)) as [H0 R0].
  destruct (rd_u64_reads h Hh _ _ H0 R0) as (r1 & -> & R1 & H1).
  destruct (rd_take_reads 32 root Hl r1 [] H1) as (r2 & E2 & R2 & H2); [by rewrite app_nil_r|].
  unfold rd_array. rewrite E2. by rewrite (proj2 (rd_finish_iff r2 H2) R2).
Qed.

Lemma need_body_roundtrip b : length b = 32%nat ->
  msg_from_bytes (msg_to_bytes (MNeedBody b)) = Some (MNeedBody b).
Proof.
  intros Hl. cbn [msg_to_bytes msg_from_bytes]. destruct (rd_new_ok b) as [H0 R0].
  destruct (rd_take_reads 32 b Hl _ [] H0) as (r2 & E2 & R2 & H2); [by rewrite app_nil_r|].
  unfold rd_array. rewrite E2. by rewrite (proj2 (rd_finish_iff r2 H2) R2).
Qed.

Lemma sync_resp_roundtrip cert above snapshot : msg_ok (MSyncResp cert above snapshot) ->
  msg_from_bytes (msg_to_bytes (MSyncResp cert above snapshot)) = Some (MSyncResp cert above snapshot).
Proof.
  intros (Hx & Hz & Hn & Ha). cbn [msg_to_bytes msg_from_bytes].
  match goal with |- context [reader_new ?bs] => destruct (rd_new_ok bs) as [H0 R0] end.
  destruct (rd_var_bytes_reads _ Hz _ _ H0 R0) as (r1 & -> & R1 & H1). rewrite xcert_from_to by done.
  destruct (rd_seq_reads read_cert (fun c => put_var_bytes (Vote.cert_to_bytes c)) 4 above)
    with (r := r1) (rest := snapshot) as (r2 & -> & R2 & H2).
  - lia.
  - exact Hn.
  - eapply Forall_impl; [exact Ha|]. intros c [Hc Hcz]. split; [by apply read_cert_reads|].
    unfold put_var_bytes, put_u32. rewrite length_app, length_le_bytes. lia.
  - exact H1.
  - rewrite R1. unfold put_seq. rewrite u32_sat_small by exact Hn.
    rewrite wrap_small by (unfold in_u, Block.zlen in *; lia). by rewrite <- app_assoc.
  - unfold rd_rest. cbn. do 2 f_equal. exact R2.
Qed.

Lemma msg_from_to m : msg_ok m -> msg_from_bytes (msg_to_bytes m) = Some m.
Proof.
  destruct m as [b|sv|r|v|h root|cert above snapshot|c|b|b]; intros Hm.
  - cbn [msg_to_bytes msg_from_bytes]. by rewrite Block.block_roundtrip.
  - cbn [msg_to_bytes msg_from_bytes]. by rewrite Vote.sv_from_to.
  - cbn [msg_to_bytes msg_from_bytes]. by rewrite reveal_from_to.
  - cbn [msg_to_bytes msg_from_bytes]. by rewrite exec_from_to.
  - destruct Hm. by apply sync_req_roundtrip.
  - by apply sync_resp_roundtrip.
  - cbn [msg_to_bytes msg_from_bytes]. by rewrite Vote.certificate_roundtrip.
  - by apply need_body_roundtrip.
  - cbn [msg_to_bytes msg_from_bytes]. by rewrite Block.block_roundtrip.
Qed.

Lemma decode_app_frame kind payload : Block.zlen payload + 1 <= Varint.MAX ->
  exists n, Block.decode_frame (Block.app_frame kind payload) = Ok ((Block.APP_CODE, kind :: payload), n).
Proof.
  intros Hz. unfold Block.zlen in Hz. unfold Block.app_frame, Block.encode_frame, Block.varint_bytes.
  destruct (Varint.encode_Some Block.APP_CODE) as (h & Eh & _); [unfold Varint.MAX; by_decide|].
  destruct (Varint.encode_Some (Z.of_nat (length (kind :: payload)))) as (l & El & _); [cbn [length]; lia|].
  rewrite Eh, El. cbn [default]. unfold id, Block.decode_frame.
  rewrite (Varint.decode_encode Block.APP_CODE h) by (done || unfold Varint.MAX; by_decide). cbn [rbind].
  rewrite get_from_app. cbn [ok_or rbind].
  rewrite (Varint.decode_encode (Z.of_nat (length (kind :: payload))) l) by (done || cbn [length]; lia).
  cbn [rbind]. unfold Varint.MAX in Hz.
  assert (Hhl : (length h <= 8)%nat /\ (length l <= 8)%nat).
  { apply Varint.encode_len in Eh; [|unfold Varint.MAX; by_decide].
    apply Varint.encode_len in El; [|unfold Varint.MAX; cbn [length]; lia].
    rewrite Eh, El. unfold Varint.encoded_len. split; repeat case_match; lia. }
  rewrite (proj2 (Z.leb_gt _ _)) by (cbn [length]; lia).
  set (body := kind :: payload). exists (length h + length l + length body)%nat.
  replace (Z.to_nat (Z.of_nat (length h + length l) + Z.of_nat (length body)))
    with (length h + length l + length body)%nat by lia.
  assert (Es : slice (length h + length l) (length h + length l + length body) (h ++ l ++ body) = Some body).
  { pose proof (slice_mid (h ++ l) body [] (length h + length l) (length h + length l + length body)) as Hsl.
    rewrite app_nil_r, <- app_assoc in Hsl. apply Hsl; [by rewrite length_app|done]. }
  rewrite Es. done.
Qed.

(** Every consensus message survives its frame: what one validator puts on the wire is what
    another reads, for each of the nine kinds. *)
Theorem message_frame_roundtrip (m : ConsensusMsg) :
  msg_ok m -> Block.zlen (msg_to_bytes m) + 1 <= Varint.MAX -> from_frame (to_frame m) = Some (AConsensus m).
Proof.
  intros Hm Hz. unfold from_frame, to_frame.
  destruct (decode_app_frame Block.KIND_CONSENSUS (msg_to_bytes m) Hz) as (n & ->).
  rewrite Z.eqb_refl. cbn [negb parse_app_body]. rewrite Z.eqb_refl. by rewrite msg_from_to.
Qed.

Lemma message_frame_roundtrip_witness :
  from_frame (to_frame (MSyncReq 9 (replicate 32 4))) = Some (AConsensus (MSyncReq 9 (replicate 32 4))) /\
  from_frame (to_frame (MPropose Block.w_block)) = Some (AConsensus (MPropose Block.w_block)).
Proof.
  split.
  - apply (message_frame_roundtrip (MSyncReq 9 (replicate 32 4))); [by_decide|vm_compute; discriminate].
  - apply (message_frame_roundtrip (MPropose Block.w_block)); [by_decide|vm_compute; discriminate].
Defined.

End Messages.
