(* ===== verification/CrossCell.v ===== *)
(** * Messages between cells

    [fanos-taxis/src/crosscell.rs]: the outbox of a cell, committed in its state root, and the
    receipt by which another cell checks, against the source committee's keys alone, that a message
    was emitted. *)
From S2P Require Import Prelude Codec Sig Vote Block Merkle Chain Messages.
Local Open Scope Z_scope.

Module CrossCell.

Definition LEAF_LABEL : string := "FANOS-v1/taxis-crossmsg-leaf".
Definition STATE_LABEL : string := "FANOS-v1/taxis-state-root".

Record CrossMsg := mk_msg { dest_cell : Z; nonce : Z; payload : list Z }.

Record Outbox := mk_outbox { msgs : list CrossMsg }.

Record CrossCellReceipt := mk_receipt {
  r_msg : CrossMsg;
  r_index : Z;
  r_count : Z;
  r_proof : list (list Z);
  r_accounts_root : list Z;
  r_outbox_root : list Z;
  r_cert : Checkpoint.ExecCertificate;
}.

(** ** Messages *)

Definition leaf_bytes (m : CrossMsg) : list Z :=
  be_bytes 4 (dest_cell m) ++ be_bytes 8 (nonce m) ++ be_bytes 8 (w64 (Z.of_nat (length (payload m)))) ++ payload m.

Definition msg_to_bytes (m : CrossMsg) : list Z :=
  be_bytes 4 (dest_cell m) ++ be_bytes 8 (nonce m) ++ be_bytes 4 (Prelude.wrap 32 (Z.of_nat (length (payload m)))) ++ payload m.

Definition from_prefix (bytes : list Z) : option (CrossMsg * nat) :=
  letO d := slice 0 4 bytes in
  letO n := slice 4 12 bytes in
  letO l := slice 12 16 bytes in
  let plen := Z.to_nat (from_be l) in
  letO p := slice 16 (16 + plen) bytes in
  Some (mk_msg (from_be d) (from_be n) p, (16 + plen)%nat).

(** ** The outbox *)

Definition new : Outbox := mk_outbox [].
Definition push (o : Outbox) (m : CrossMsg) : Outbox := mk_outbox (msgs o ++ [m]).
Definition len (o : Outbox) : nat := length (msgs o).

Definition outbox_to_bytes (o : Outbox) : list Z :=
  put_seq (length (msgs o)) (msgs o) (fun m => put_var_bytes (msg_to_bytes m)).

Definition read_msg (r : Reader) : option (CrossMsg * Reader) :=
  letO (bytes, r) := rd_var_bytes r in letO (m, _) := from_prefix bytes in Some (m, r).

Definition outbox_from_bytes (bytes : list Z) : option Outbox :=
  letO (ms, r) := rd_seq 20 read_msg (reader_new bytes) in
  letO _ := rd_finish r in
  Some (mk_outbox ms).

(** ** Receipts *)

Definition receipt_to_bytes (r : CrossCellReceipt) : list Z :=
  msg_to_bytes (r_msg r) ++ be_bytes 8 (r_index r) ++ be_bytes 8 (r_count r) ++
  be_bytes 2 (Prelude.wrap 16 (Z.of_nat (length (r_proof r)))) ++ concat (r_proof r) ++
  r_accounts_root r ++ r_outbox_root r ++ Checkpoint.cert_to_bytes (r_cert r).

(** [for _ in 0..proof_len]: the siblings and the offset after them. *)
Fixpoint read_proof (n off : nat) (bytes : list Z) : option (list (list Z) * nat) :=
  match n with
  | O => Some ([], off)
  | S n =>
      letO s := slice off (off + 32) bytes in
      letO rest := read_proof n (off + 32) bytes in
      Some (s :: fst rest, snd rest)
  end.

Definition receipt_from_bytes (bytes : list Z) : option CrossCellReceipt :=
  letO mo := from_prefix bytes in
  let off := snd mo in
  letO i := slice off (off + 8) bytes in
  letO c := slice (off + 8) (off + 16) bytes in
  letO l := slice (off + 16) (off + 18) bytes in
  let count := from_be c in
  if negb (from_be l =? Merkle.height count) then None else
  letO po := read_proof (Z.to_nat (from_be l)) (off + 18) bytes in
  let off := snd po in
  letO a := slice off (off + 32) bytes in
  letO o := slice (off + 32) (off + 64) bytes in
  letO rest := slice_from (off + 64) bytes in
  letO cert := Checkpoint.cert_from_bytes rest in
  Some (mk_receipt (fst mo) (from_be i) count (fst po) a o cert).

Section crosscell.
  Context `{Crypto}.

Definition msg_leaf (m : CrossMsg) : list Z := hash_labeled LEAF_LABEL (leaf_bytes m).

Definition compose_state_root (accounts_root outbox_root : list Z) : list Z :=
  hash_labeled STATE_LABEL (accounts_root ++ outbox_root).

Definition empty_outbox_root : list Z := Merkle.empty_root.

Definition leaves (o : Outbox) : list (list Z) := msg_leaf <$> msgs o.

Definition outbox_root (o : Outbox) : list Z := default Merkle.empty_root (Merkle.root (leaves o)).

Definition prove (o : Outbox) (index : nat) : option (list (list Z)) := Merkle.prove (leaves o) index.

Definition receipt (o : Outbox) (index : nat) (accounts_root : list Z) (cert : Checkpoint.ExecCertificate) :
    option CrossCellReceipt :=
  letO m := msgs o !! index in
  letO p := prove o index in
  Some (mk_receipt m (Z.of_nat index) (Z.of_nat (length (msgs o))) p accounts_root (outbox_root o) cert).

Definition receipt_verify (r : CrossCellReceipt) (source_verifiers : list HybridVerifier) (quorum : nat) : option CrossMsg :=
  if negb (Checkpoint.xc_verify (r_cert r) quorum source_verifiers) then None else
  if bool_decide (compose_state_root (r_accounts_root r) (r_outbox_root r) <> Checkpoint.xc_state_root (r_cert r)) then None else
  if Merkle.verify (msg_leaf (r_msg r)) (r_index r) (r_proof r) (r_outbox_root r) (r_count r) then Some (r_msg r) else None.

(** ** Lemmas *)

Definition msg_ok (m : CrossMsg) : Prop :=
  in_u 32 (dest_cell m) /\ is_u64 (nonce m) /\ Z.of_nat (length (payload m)) < 2 ^ 32.

Definition receipt_ok (r : CrossCellReceipt) : Prop :=
  msg_ok (r_msg r) /\ is_u64 (r_index r) /\ is_u64 (r_count r) /\ Forall (fun h => length h = 32%nat) (r_proof r) /\
  length (r_accounts_root r) = 32%nat /\ length (r_outbox_root r) = 32%nat.

(** The messages hashed for a state root that commits an outbox, and by the check of a receipt. *)
Definition msg_hashed (m : CrossMsg) : list Z := labeled_hasher LEAF_LABEL (leaf_bytes m).

Definition state_hashed (accounts_root outbox_root : list Z) : list Z := labeled_hasher STATE_LABEL (accounts_root ++ outbox_root).

Definition outbox_hashed (o : Outbox) (accounts_root : list Z) : list (list Z) :=
  state_hashed accounts_root (outbox_root o) :: (msg_hashed <$> msgs o) ++ Merkle.root_hashed (leaves o).

Definition receipt_hashed (r : CrossCellReceipt) : list (list Z) :=
  state_hashed (r_accounts_root r) (r_outbox_root r) :: msg_hashed (r_msg r) ::
  Merkle.verify_hashed (msg_leaf (r_msg r)) (r_index r) (r_proof r) (r_count r).

  Context `{!CryptoLaws}.

Lemma msg_leaf_inj hashed m m' : ~ broken_on hashed -> msg_hashed m ∈ hashed -> msg_hashed m' ∈ hashed ->
  msg_ok m -> msg_ok m' -> msg_leaf m = msg_leaf m' -> m = m'.
Proof.
  intros Hb Hm Hm' (Hd & Hn & Hp) (Hd' & Hn' & Hp') E. apply (hash_labeled_inj hashed) in E; [|done..]. unfold leaf_bytes in E.
  apply app_inj_1 in E as [E1 E]; [|by rewrite !length_be_bytes]. apply app_inj_1 in E as [E2 E]; [|by rewrite !length_be_bytes].
  apply app_inj_1 in E as [_ E3]; [|by rewrite !length_be_bytes]. destruct m as [d n p], m' as [d' n' p']. cbn in *.
  rewrite <- (from_be_id 4 d), E1, from_be_id by done. rewrite <- (from_be_id 8 n), E2, from_be_id by done. by subst.
Qed.

Lemma compose_inj hashed a o a' o' : ~ broken_on hashed -> state_hashed a o ∈ hashed -> state_hashed a' o' ∈ hashed ->
  length a = length a' -> compose_state_root a o = compose_state_root a' o' -> a = a' /\ o = o'.
Proof. intros Hb Hm Hm' Hl E. apply (hash_labeled_inj hashed) in E; [|done..]. by apply app_inj_1 in E. Qed.

Lemma outbox_root_some o : Z.of_nat (length (msgs o)) <= Merkle.MAX_LEAVES -> Merkle.root (leaves o) = Some (outbox_root o).
Proof.
  intros Hl. unfold outbox_root. assert (Hx : is_Some (Merkle.root (leaves o))).
  { unfold Merkle.root, leaves. rewrite length_fmap, (proj2 (Z.ltb_ge _ _)) by lia. case_match; by eexists. }
  by destruct Hx as [r ->].
Qed.

Lemma leaves_width o : Forall (fun h => length h = 32%nat) (leaves o).
Proof. unfold leaves. apply Forall_fmap, Forall_forall. intros m _. apply hash_labeled_length. Qed.

Lemma receipt_verifies o i m a cert keys quorum : Z.of_nat (length (msgs o)) <= Merkle.MAX_LEAVES -> msgs o !! i = Some m ->
  Checkpoint.xc_verify cert quorum keys = true -> Checkpoint.xc_state_root cert = compose_state_root a (outbox_root o) ->
  exists r, receipt o i a cert = Some r /\ receipt_verify r keys quorum = Some m.
Proof.
  intros Hl Hm Hv Hs. assert (Hlf : leaves o !! i = Some (msg_leaf m)) by (unfold leaves; by rewrite list_lookup_fmap, Hm).
  destruct (Merkle.verify_prove (leaves o) (outbox_root o) i (msg_leaf m) (outbox_root_some o Hl) Hlf) as (p & Hp & Hok).
  unfold receipt, prove. rewrite Hm. cbn [mbind option_bind]. rewrite Hp. cbn [mbind option_bind]. eexists. split; [done|].
  unfold receipt_verify. cbn [r_cert r_accounts_root r_outbox_root r_msg r_index r_proof r_count]. rewrite Hv. cbn [negb].
  rewrite bool_decide_false by (by intros []). unfold leaves in Hok. rewrite length_fmap in Hok. by rewrite Hok.
Qed.

Lemma receipt_sound o a keys quorum r m : Z.of_nat (length (msgs o)) <= Merkle.MAX_LEAVES -> Forall msg_ok (msgs o) ->
  length a = 32%nat -> receipt_ok r -> Checkpoint.xc_state_root (r_cert r) = compose_state_root a (outbox_root o) ->
  receipt_verify r keys quorum = Some m ->
  msgs o !! Z.to_nat (r_index r) = Some m \/ broken_on (outbox_hashed o a ++ receipt_hashed r).
Proof.
  intros Hl Hms Ha (Hm & Hi & Hc & Hp & Har & Hor) Hs. unfold receipt_verify. destruct (negb _); [done|].
  case_bool_decide as E; [done|]. rewrite Hs in E.
  destruct (Merkle.verify _ _ _ _ _) eqn:Ev; [|done]. intros [= <-].
  apply unless_broken. intros Hb. unfold outbox_hashed, receipt_hashed in Hb.
  apply (compose_inj _ _ _ _ _ Hb) in E as [_ E]; [|set_solver|set_solver|congruence]. rewrite E in Ev.
  eapply (Merkle.verify_sound _ Hb) in Ev as [_ Hx];
    [|by apply outbox_root_some|apply leaves_width|apply hash_labeled_length|done|apply Hi|done|set_solver|set_solver].
  unfold leaves in Hx. rewrite list_lookup_fmap in Hx. destruct (msgs o !! Z.to_nat (r_index r)) as [m'|] eqn:Em; [|done].
  apply (inj Some) in Hx. rewrite Forall_forall in Hms. pose proof (list_elem_of_lookup_2 _ _ _ Em) as Hin.
  apply (msg_leaf_inj _ _ _ Hb) in Hx as ->; [done| |set_solver|by apply Hms|done].
  apply elem_of_app. left. right. apply elem_of_app. left. by apply list_elem_of_fmap_2.
Qed.

(** ** Bytes *)

Lemma from_prefix_msg m rest : msg_ok m -> from_prefix (msg_to_bytes m ++ rest) = Some (m, length (msg_to_bytes m)).
Proof.
  intros (Hd & Hn & Hp). unfold from_prefix, msg_to_bytes. rewrite wrap_small by (unfold in_u; lia).
  set (l := be_bytes 4 (Z.of_nat (length (payload m)))). rewrite <- !app_assoc.
  rewrite slice_prefix by apply length_be_bytes. cbn [mbind option_bind].
  rewrite (slice_mid (be_bytes 4 (dest_cell m)) (be_bytes 8 (nonce m))) by (rewrite ?length_be_bytes; done). cbn [mbind option_bind].
  rewrite (app_assoc (be_bytes 4 (dest_cell m))).
  rewrite (slice_mid (be_bytes 4 (dest_cell m) ++ be_bytes 8 (nonce m)) l) by (unfold l; rewrite ?length_app, ?length_be_bytes; done).
  cbn [mbind option_bind]. unfold l at 1 2. rewrite from_be_id, Nat2Z.id by (unfold in_u; lia).
  rewrite (app_assoc _ l). rewrite (slice_mid _ (payload m)) by (unfold l; rewrite ?length_app, ?length_be_bytes; done).
  cbn [mbind option_bind]. unfold l. rewrite !length_app, !length_be_bytes, !from_be_id by (done || (unfold in_u; lia)).
  rewrite Nat2Z.id. by destruct m.
Qed.

Lemma read_proof_reads ps pre rest : Forall (fun h => length h = 32%nat) ps ->
  read_proof (length ps) (length pre) (pre ++ concat ps ++ rest) = Some (ps, (length pre + length (concat ps))%nat).
Proof.
  intros HF. revert pre. induction HF as [|x ps Hx HF IH]; intros pre; cbn [length concat read_proof]; [by rewrite Nat.add_0_r|].
  rewrite <- app_assoc. rewrite (slice_mid pre x) by (rewrite ?Hx; done). cbn [mbind option_bind].
  specialize (IH (pre ++ x)). rewrite length_app, Hx, <- app_assoc in IH. rewrite IH. cbn [mbind option_bind fst snd].
  rewrite length_app, Hx. do 2 f_equal. lia.
Qed.

(** A receipt survives its bytes. *)
Lemma receipt_from_to r : receipt_ok r -> Messages.xcert_ok (r_cert r) ->
  Z.of_nat (length (r_proof r)) = Merkle.height (r_count r) -> receipt_from_bytes (receipt_to_bytes r) = Some r.
Proof.
  intros (Hm & Hi & Hc & Hp & Ha & Ho) Hx Hh. unfold receipt_from_bytes, receipt_to_bytes.
  assert (Hs : 0 <= Merkle.height (r_count r) < 2 ^ 16).
  { unfold Merkle.height. destruct (Z.leb_spec (r_count r) 1); [lia|]. pose proof (Z.log2_nonneg (r_count r - 1)).
    assert (Z.log2 (r_count r - 1) < 64) by (apply Z.log2_lt_pow2; unfold is_u64, in_u in Hc; lia). lia. }
  rewrite (wrap_small 16) by (unfold in_u; lia). rewrite from_prefix_msg by done. cbn [mbind option_bind fst snd].
  set (M := msg_to_bytes (r_msg r)). set (I := be_bytes 8 (r_index r)). set (C := be_bytes 8 (r_count r)).
  set (L := be_bytes 2 _). set (P := concat (r_proof r)). set (T := Checkpoint.cert_to_bytes (r_cert r)).
  assert (LI : length I = 8%nat) by apply length_be_bytes. assert (LC : length C = 8%nat) by apply length_be_bytes.
  assert (LL : length L = 2%nat) by apply length_be_bytes.
  rewrite (slice_mid M I) by lia. cbn [mbind option_bind].
  rewrite (app_assoc M I). rewrite (slice_mid (M ++ I) C) by (rewrite ?length_app; lia). cbn [mbind option_bind].
  rewrite (app_assoc _ C). rewrite (slice_mid ((M ++ I) ++ C) L) by (rewrite ?length_app; lia). cbn [mbind option_bind].
  assert (EC : from_be C = r_count r) by (unfold C; by apply from_be_id).
  assert (EL : from_be L = Z.of_nat (length (r_proof r))) by (unfold L; apply from_be_id; unfold in_u; lia).
  rewrite EC, EL, Hh, Z.eqb_refl. cbn [negb]. rewrite <- Hh, Nat2Z.id. rewrite (app_assoc _ L). set (pre := ((M ++ I) ++ C) ++ L).
  assert (Lpre : length pre = (length M + 18)%nat) by (unfold pre; rewrite !length_app; lia).
  rewrite <- Lpre. rewrite read_proof_reads by done. cbn [mbind option_bind fst snd]. fold P.
  rewrite (app_assoc pre P), <- length_app. set (q := pre ++ P).
  rewrite (slice_mid q (r_accounts_root r)) by (rewrite ?Ha; done). cbn [mbind option_bind].
  rewrite (app_assoc q). rewrite (slice_mid (q ++ r_accounts_root r) (r_outbox_root r)) by (rewrite ?length_app, ?Ha, ?Ho; lia).
  cbn [mbind option_bind]. rewrite (app_assoc _ (r_outbox_root r)).
  rewrite slice_from_app by (rewrite !length_app, Ha, Ho; lia). cbn [mbind option_bind]. unfold T.
  rewrite Messages.xcert_from_to by done. cbn [mbind option_bind]. unfold I. rewrite from_be_id by apply Hi. by destruct r.
Qed.

(** The votes of correct seats in a certificate were signed by them. *)
Definition genuine (issued : list Checkpoint.ExecVote) (keys : list HybridVerifier) (byz : gset nat)
    (c : Checkpoint.ExecCertificate) : Prop :=
  forall v k, v ∈ Checkpoint.xc_votes c -> Z.to_nat (Checkpoint.ev_voter v) ∉ byz ->
    keys !! Z.to_nat (Checkpoint.ev_voter v) = Some k -> Checkpoint.exec_verify v k = true -> v ∈ issued.

(** A certificate with more votes than there are faulty seats speaks for a correct one. *)
Lemma certificate_has_correct_vote issued c keys quorum (byz : gset nat) : Checkpoint.xc_verify c quorum keys = true ->
  (size byz < quorum)%nat -> genuine issued keys byz c ->
  exists v, v ∈ issued /\ Checkpoint.ev_height v = Checkpoint.xc_height c /\
    Checkpoint.ev_state_root v = Checkpoint.xc_state_root c.
Proof.
  intros (who & Hnd & Hq & Hw)%Checkpoint.xc_verify_sound Hb Hg.
  assert (Hx : exists i, i ∈ who /\ i ∉ byz).
  { destruct (decide (Exists (fun i => i ∉ byz) who)) as [Hx%Exists_exists|Hx]; [done|]. exfalso.
    apply not_Exists_Forall in Hx; [|apply _].
    assert (Hsub : list_to_set who ⊆ byz).
    { intros i Hi%elem_of_list_to_set. rewrite Forall_forall in Hx. apply Hx in Hi. by apply dec_stable in Hi. }
    apply subseteq_size in Hsub. rewrite size_list_to_set in Hsub by done. lia. }
  destruct Hx as (i & Hi & Hni). destruct (Hw i Hi) as (_ & v & Hin & Hv & E1 & E2 & _ & k & Hk & Hver).
  exists v. split; [|done]. by eapply Hg; [done|rewrite Hv| |].
Qed.

End crosscell.

(** C35: a receipt proves emission.  Let the correct seats of a source cell attest, at height [h],
    only the state root that commits an outbox.  Then every certificate for that height yields, for
    every message of the outbox, a receipt that verifies under the cell's keys; and whatever receipt
    for that height verifies, with fewer faulty seats than the quorum and no forged signatures of
    correct ones, carries the message that stands in the outbox at its index: no bridge can invent,
    alter or move one, unless the messages hashed for that state root and by the check of that receipt
    hold a collision. *)
Theorem receipt_proves_emission `{CryptoLaws} (o : Outbox) (accounts_root : list Z) (keys : list HybridVerifier)
    (quorum : nat) (byz : gset nat) (issued : list Checkpoint.ExecVote) (h : Z) :
  Z.of_nat (length (msgs o)) <= Merkle.MAX_LEAVES -> Forall msg_ok (msgs o) -> length accounts_root = 32%nat ->
  (size byz < quorum)%nat ->
  (forall v, v ∈ issued -> Checkpoint.ev_height v = h ->
    Checkpoint.ev_state_root v = compose_state_root accounts_root (outbox_root o)) ->
  (forall i m cert, msgs o !! i = Some m -> Checkpoint.xc_height cert = h -> genuine issued keys byz cert ->
    Checkpoint.xc_verify cert quorum keys = true ->
    exists r, receipt o i accounts_root cert = Some r /\ receipt_verify r keys quorum = Some m) /\
  (forall r m, receipt_ok r -> Checkpoint.xc_height (r_cert r) = h -> genuine issued keys byz (r_cert r) ->
    receipt_verify r keys quorum = Some m ->
    msgs o !! Z.to_nat (r_index r) = Some m \/ broken_on (outbox_hashed o accounts_root ++ receipt_hashed r)).
Proof.
  intros Hl Hms Ha Hb Hon.
  assert (Hroot : forall cert, Checkpoint.xc_height cert = h -> genuine issued keys byz cert ->
    Checkpoint.xc_verify cert quorum keys = true ->
    Checkpoint.xc_state_root cert = compose_state_root accounts_root (outbox_root o)).
  { intros cert Hh Hg Hv. destruct (certificate_has_correct_vote _ _ _ _ byz Hv Hb Hg) as (v & H1 & H2 & <-).
    apply Hon; [done|congruence]. }
  split.
  - intros i m cert Hm Hh Hg Hv. apply receipt_verifies; auto.
  - intros r m Hr Hh Hg Hv. eapply receipt_sound; try done. apply Hroot; [done|done|].
    unfold receipt_verify in Hv. by destruct (Checkpoint.xc_verify _ _ _).
Qed.

(** Four validators, of which three attest an outbox of two messages. *)
Definition w_signer (i : Z) : @HybridSigSecret toy_crypto := @mk_secret toy_crypto (Z.even i) tt.
Definition w_keys : list (@HybridVerifier toy_crypto) := (fun i => @verifier_of toy_crypto (w_signer i)) <$> seqZ 0 4.
Definition w_outbox : Outbox := push (push new (mk_msg 7 0 [1; 2])) (mk_msg 9 1 [3]).
Definition w_root : list Z := @compose_state_root toy_crypto (replicate 32 8) (@outbox_root toy_crypto w_outbox).
Definition w_votes : list Checkpoint.ExecVote :=
  (fun i => @Checkpoint.exec_sign toy_crypto 5 w_root (replicate 32 1) i (w_signer i)) <$> seqZ 0 3.
Definition w_cert : Checkpoint.ExecCertificate := Checkpoint.mk_exec_cert 5 w_root (replicate 32 1) w_votes.

Definition w_receipt : CrossCellReceipt :=
  default (mk_receipt (mk_msg 0 0 []) 0 0 [] [] [] w_cert) (@receipt toy_crypto w_outbox 1 (replicate 32 8) w_cert).

Lemma w_receipt_ok : receipt_ok w_receipt.
Proof. by_decide. Qed.

(** No collision among what the outbox's state root and the receipt's check hash. *)
Example w_receipt_intact :
  ~ @broken_on toy_crypto (@outbox_hashed toy_crypto w_outbox (replicate 32 8) ++ @receipt_hashed toy_crypto w_receipt).
Proof. by_decide. Qed.

Lemma receipt_proves_emission_witness :
  exists r, @receipt toy_crypto w_outbox 1 (replicate 32 8) w_cert = Some r /\
    @receipt_verify toy_crypto r w_keys 3 = Some (mk_msg 9 1 [3]) /\
    msgs w_outbox !! Z.to_nat (r_index r) = Some (mk_msg 9 1 [3]).
Proof.
  destruct (@receipt_proves_emission toy_crypto toy_laws w_outbox (replicate 32 8) w_keys 3 ∅ w_votes 5) as [Hc Hs].
  - vm_compute. discriminate.
  - by_decide.
  - reflexivity.
  - rewrite size_empty. lia.
  - intros v (i & -> & _)%list_elem_of_fmap _. reflexivity.
  - assert (Hg : @genuine toy_crypto w_votes w_keys ∅ w_cert) by (intros v k Hv _ _ _; exact Hv).
    destruct (Hc 1%nat (mk_msg 9 1 [3]) w_cert eq_refl eq_refl Hg) as (r & H1 & H2); [vm_compute; reflexivity|].
    exists r. split; [exact H1|]. split; [exact H2|].
    assert (Er : r = w_receipt) by (unfold w_receipt; rewrite H1; reflexivity). subst r.
    case (Hs w_receipt (mk_msg 9 1 [3]) w_receipt_ok eq_refl Hg H2); [intros He; exact He|].
    intros Hb. destruct (w_receipt_intact Hb).
Defined.

End CrossCell.
