(* ===== verification/Hierarchy.v ===== *)
(** * A parent's view of its child cells

    [fanos-taxis/src/hierarchy.rs]: the registry in which a parent cell records, per child, the
    latest execution certificate it has verified and whose data is available. *)
From S2P Require Import Prelude Codec Sig Lrc Vote Incentive Chain.
Local Open Scope Z_scope.

Module Hierarchy.

Section hierarchy.
  Context `{Crypto}.

Record ChildCommittee := mk_committee {
  cc_cell : list Z;
  cc_verifiers : list (option HybridVerifier);
  cc_quorum : nat;
}.

Record ChildRegistry := mk_children {
  committees : btree ChildCommittee;
  attested : btree Checkpoint.ExecCertificate;
}.

Definition new : ChildRegistry := mk_children ∅ ∅.

Definition register (r : ChildRegistry) (c : ChildCommittee) : ChildRegistry :=
  mk_children (<[cc_cell c := c]> (committees r)) (attested r).

(** [committee.verifiers.get(i).and_then(Option::as_ref)]. *)
Definition seat_key (c : ChildCommittee) (i : nat) : option HybridVerifier := cc_verifiers c !! i ≫= id.

Definition certifies (c : ChildCommittee) (cert : Checkpoint.ExecCertificate) : bool :=
  Checkpoint.verify_by cert (cc_quorum c) (length (cc_verifiers c)) (seat_key c).

Definition attest (r : ChildRegistry) (cell : list Z) (cert : Checkpoint.ExecCertificate) :
    option (Z * list Z) * ChildRegistry :=
  match committees r !! cell with
  | None => (None, r)
  | Some committee =>
      if negb (certifies committee cert) then (None, r) else
      if match attested r !! cell with
         | Some c => Checkpoint.xc_height cert <=? Checkpoint.xc_height c
         | None => false
         end then (None, r) else
      (Some (Checkpoint.xc_height cert, Checkpoint.xc_state_root cert),
       mk_children (committees r) (<[cell := cert]> (attested r)))
  end.

(** [!present & 0x7F] on a byte. *)
Definition missing_mask (present : Z) : Z := Z.land (Z.lnot present) 0x7F.

Definition attest_available (r : ChildRegistry) (cell : list Z) (cert : Checkpoint.ExecCertificate) (present : Z) :
    option (Z * list Z) * ChildRegistry :=
  if negb (Lrc.is_recoverable_fano (missing_mask present)) then (None, r) else attest r cell cert.

Definition latest (r : ChildRegistry) (cell : list Z) : option Checkpoint.ExecCertificate := attested r !! cell.

Definition conflict (r : ChildRegistry) (cell : list Z) (cert : Checkpoint.ExecCertificate) : option (Z * list Z * list Z) :=
  letO committee := committees r !! cell in
  letO prior := attested r !! cell in
  if negb (Checkpoint.xc_height cert =? Checkpoint.xc_height prior) ||
     bool_decide (Checkpoint.xc_state_root cert = Checkpoint.xc_state_root prior) then None else
  if negb (certifies committee cert) then None else
  Some (Checkpoint.xc_height cert, Checkpoint.xc_state_root prior, Checkpoint.xc_state_root cert).

(** ** What the registry holds *)

(** The operations of a parent. *)
Inductive op :=
| Register (c : ChildCommittee)
| Attest (cell : list Z) (cert : Checkpoint.ExecCertificate) (present : Z).

Definition run_op (r : ChildRegistry) (o : op) : ChildRegistry :=
  match o with
  | Register c => register r c
  | Attest cell cert present => (attest_available r cell cert present).2
  end.

Definition run (ops : list op) : ChildRegistry := fold_left run_op ops new.

(** An attestation replaces the recorded one by a strictly higher one, and changes no other cell. *)
Lemma attest_cases r cell cert present : let r' := (attest_available r cell cert present).2 in
  r' = r \/
  (Lrc.is_recoverable_fano (missing_mask present) = true /\
   (exists c, committees r !! cell = Some c /\ certifies c cert = true) /\
   (forall old, attested r !! cell = Some old -> Checkpoint.xc_height old < Checkpoint.xc_height cert) /\
   r' = mk_children (committees r) (<[cell := cert]> (attested r))).
Proof.
  unfold attest_available. destruct (Lrc.is_recoverable_fano _) eqn:E; cbn [negb]; [|by left].
  unfold attest. destruct (committees r !! cell) as [c|] eqn:Ec; [|by left].
  destruct (certifies c cert) eqn:Ev; cbn [negb]; [|by left].
  destruct (attested r !! cell) as [old|] eqn:Ea.
  - destruct (Z.leb_spec (Checkpoint.xc_height cert) (Checkpoint.xc_height old)) as [|Hlt]; [by left|]. right.
    split; [done|]. split; [by exists c|]. split; [|done]. by intros ? [= <-].
  - right. split; [done|]. split; [by exists c|]. by split.
Qed.

(** Once recorded, a child's height never falls, whatever is registered and attested afterwards. *)
Lemma finality_never_regresses ops r cell c : attested r !! cell = Some c ->
  exists c', attested (fold_left run_op ops r) !! cell = Some c' /\ Checkpoint.xc_height c <= Checkpoint.xc_height c' /\
    (Checkpoint.xc_height c = Checkpoint.xc_height c' -> c = c').
Proof.
  revert r c. induction ops as [|o ops IH]; intros r c Hc; [exists c; split; [done|]; split; [lia|done]|]. cbn [fold_left].
  assert (Hs : exists c1, attested (run_op r o) !! cell = Some c1 /\ (c1 = c \/ Checkpoint.xc_height c < Checkpoint.xc_height c1)).
  { destruct o as [k|cell' cert present]; cbn [run_op]; [exists c; split; [done|by left]|].
    destruct (attest_cases r cell' cert present) as [->|(_ & _ & Hlt & ->)]; [exists c; split; [done|by left]|]. cbn [attested].
    destruct (decide (cell' = cell)) as [->|Hne]; [rewrite lookup_insert_eq|rewrite lookup_insert_ne by done].
    - exists cert. split; [done|]. right. by apply Hlt.
    - exists c. split; [done|by left]. }
  destruct Hs as (c1 & H1 & H2). destruct (IH _ _ H1) as (c' & Hc' & Hle & He). exists c'. split; [done|].
  destruct H2 as [->|Hlt]; [done|]. split; [lia|]. lia.
Qed.

(** Every recorded certificate was certified by a committee registered for its cell. *)
Lemma attested_certified ops : forall cell c, attested (run ops) !! cell = Some c ->
  exists k pre post, ops = pre ++ post /\ committees (run pre) !! cell = Some k /\ certifies k c = true.
Proof.
  induction ops as [|o ops IH] using rev_ind; intros cell c; [done|]. unfold run. rewrite fold_left_app. cbn [fold_left].
  fold (run ops). assert (Hold : attested (run ops) !! cell = Some c ->
    exists k pre post, ops ++ [o] = pre ++ post /\ committees (run pre) !! cell = Some k /\ certifies k c = true).
  { intros (k & pre & post & -> & H1 & H2)%IH. exists k, pre, (post ++ [o]). by rewrite app_assoc. }
  destruct o as [k|cell' cert present]; cbn [run_op]; [exact Hold|].
  destruct (attest_cases (run ops) cell' cert present) as [->|(_ & (k & Hk & Hv) & _ & ->)]; [exact Hold|]. cbn [attested].
  intros [[<- <-]|[_ Hc]]%lookup_insert_Some; [|by apply Hold]. by exists k, ops, [Attest cell' cert present].
Qed.

(** ** A fork of a child *)

Lemma verify_by_sound c quorum seats key : Checkpoint.verify_by c quorum seats key = true ->
  exists who : list nat, base.NoDup who /\ (quorum <= length who)%nat /\
    forall i, i ∈ who -> (i < seats)%nat /\
      exists v, v ∈ Checkpoint.xc_votes c /\ Z.to_nat (Checkpoint.ev_voter v) = i /\ Checkpoint.attests c key v.
Proof.
  unfold Checkpoint.verify_by. destruct (Checkpoint.count_exec _ _ _ _ _) as [m|] eqn:E; [|done].
  apply Checkpoint.count_exec_sound in E as (who & Hnd & -> & Hw). intros Hq%Nat.leb_le. exists who. split; [done|]. split; [done|].
  intros i Hi. destruct (Hw i Hi) as (Hs & Hv). split; [|done]. apply lookup_replicate in Hs. lia.
Qed.

(** A seat that attested two states at one height under one key. *)
Definition double_attested (c : ChildCommittee) (i : nat) : Prop :=
  exists k v v', seat_key c i = Some k /\ Checkpoint.exec_verify v k = true /\ Checkpoint.exec_verify v' k = true /\
    Z.to_nat (Checkpoint.ev_voter v) = i /\ Z.to_nat (Checkpoint.ev_voter v') = i /\
    Checkpoint.ev_height v = Checkpoint.ev_height v' /\ Checkpoint.ev_state_root v <> Checkpoint.ev_state_root v'.

Lemma certificates_overlap c a b : certifies c a = true -> certifies c b = true ->
  Checkpoint.xc_height a = Checkpoint.xc_height b -> Checkpoint.xc_state_root a <> Checkpoint.xc_state_root b ->
  exists who, base.NoDup who /\ (2 * cc_quorum c <= length who + length (cc_verifiers c))%nat /\ Forall (double_attested c) who.
Proof.
  intros (wa & Na & Qa & Ha)%verify_by_sound (wb & Nb & Qb & Hb)%verify_by_sound Hh Hr.
  exists (filter (fun i => i ∈ wb) wa). split; [by apply NoDup_filter|]. split.
  - assert (Fa : Forall (fun i => i < length (cc_verifiers c))%nat wa) by (apply Forall_forall; intros i Hi; apply Ha, Hi).
    assert (Fb : Forall (fun i => i < length (cc_verifiers c))%nat wb) by (apply Forall_forall; intros i Hi; apply Hb, Hi).
    pose proof (Incentive.quorum_intersection wa wb _ Na Nb Fa Fb). lia.
  - apply Forall_forall. intros i [Hi Hi']%list_elem_of_filter.
    destruct (Ha i Hi') as (_ & v & _ & Ev & E1 & E2 & _ & k & Hk & Hv).
    destruct (Hb i Hi) as (_ & v' & _ & Ev' & E1' & E2' & _ & k' & Hk' & Hv'). rewrite Ev in Hk. rewrite Ev' in Hk'.
    assert (k' = k) as -> by congruence. exists k, v, v'. repeat (split; [congruence|]). congruence.
Qed.

Lemma registered_committee ops cell k : committees (run ops) !! cell = Some k -> Register k ∈ ops /\ cc_cell k = cell.
Proof.
  induction ops as [|o ops IH] using rev_ind; [done|]. unfold run. rewrite fold_left_app. cbn [fold_left]. fold (run ops).
  destruct o as [c|cell' cert present]; cbn [run_op].
  - unfold register. cbn [committees]. intros [[<- <-]|[_ Hk]]%lookup_insert_Some; [set_solver|apply IH in Hk; set_solver].
  - destruct (attest_cases (run ops) cell' cert present) as [->|(_ & _ & _ & ->)]; cbn [committees]; intros Hk; apply IH in Hk; set_solver.
Qed.

End hierarchy.

(** A parent never loses finality, and a forked child is exposed.  Under any sequence of
    registrations and attestations the height recorded for a child never falls and the certificate
    at a height never changes; and when the parent reports a conflict for a child whose committee it
    registered once, at least [2 Q - n] distinct seats of that child attested two states at one
    height under their own keys. *)
Theorem child_finality_is_accountable `{Crypto} (before after : list op) (cell : list Z) (c : ChildCommittee) :
  (forall k, Register k ∈ before ++ after -> cc_cell k = cell -> k = c) ->
  (forall old, latest (run before) cell = Some old ->
    exists now, latest (run (before ++ after)) cell = Some now /\ Checkpoint.xc_height old <= Checkpoint.xc_height now /\
      (Checkpoint.xc_height old = Checkpoint.xc_height now -> old = now)) /\
  (forall cert report, conflict (run (before ++ after)) cell cert = Some report ->
    exists who, base.NoDup who /\ (2 * cc_quorum c <= length who + length (cc_verifiers c))%nat /\
      Forall (double_attested c) who).
Proof.
  intros Hone. split.
  - intros old Ho. unfold latest, run. rewrite fold_left_app. by apply finality_never_regresses.
  - intros cert report. unfold conflict. destruct (committees _ !! cell) as [k|] eqn:Ek; [|done]. cbn [mbind option_bind].
    destruct (attested _ !! cell) as [prior|] eqn:Ep; [|done]. cbn [mbind option_bind].
    destruct (negb _ || _) eqn:Et; [done|]. rewrite orb_false_iff, negb_false_iff, Z.eqb_eq, bool_decide_eq_false in Et.
    destruct Et as [Eh Er]. destruct (certifies k cert) eqn:Ev; [|done]. intros _.
    apply registered_committee in Ek as [Hk Hc]. apply Hone in Hk; [|done]. subst k.
    destruct (attested_certified _ _ _ Ep) as (k & pre & post & E & Hk' & Hv). apply registered_committee in Hk' as [Hk' Hc'].
    assert (k = c) as -> by (apply Hone; [rewrite E; by apply elem_of_app; left|done]).
    eapply certificates_overlap; [exact Hv|exact Ev|done|]. congruence.
Qed.

(** Three of four seats of a child attest a state and then, at the same height, another. *)
Definition w_key (i : Z) : @HybridSigSecret toy_crypto := @mk_secret toy_crypto (Z.even i) tt.
Definition w_child : ChildCommittee :=
  @mk_committee toy_crypto [5] ((fun i => Some (@verifier_of toy_crypto (w_key i))) <$> seqZ 0 4) 3.
Definition w_cert (root : list Z) : Checkpoint.ExecCertificate :=
  Checkpoint.mk_exec_cert 2 root (replicate 32 1)
    ((fun i => @Checkpoint.exec_sign toy_crypto 2 root (replicate 32 1) i (w_key i)) <$> seqZ 0 3).

Lemma child_finality_is_accountable_witness :
  exists who, base.NoDup who /\ (2 * 3 <= length who + 4)%nat /\ Forall (@double_attested toy_crypto w_child) who.
Proof.
  destruct (@child_finality_is_accountable toy_crypto [@Register toy_crypto w_child]
    [@Attest toy_crypto [5] (w_cert (replicate 32 6)) 0x7F] [5] w_child) as [_ Hc].
  - intros k Hk _. apply elem_of_cons in Hk as [[= ->]|Hk]; [reflexivity|]. apply list_elem_of_singleton in Hk. discriminate Hk.
  - apply (Hc (w_cert (replicate 32 7)) (2, replicate 32 6, replicate 32 7)). vm_compute. reflexivity.
Defined.

End Hierarchy.
