(* ===== verification/Da.v ===== *)
(** * Data-availability sampling

    [fanos-taxis/src/da.rs]: one validator's sampling state — its own shards, the skeletons whose
    payload it is gathering, the relevance rule that protects them from eviction, and the retry
    schedule. *)
From S2P Require Import Prelude Codec Sig Bounded Fano Lrc Erasure Tx Block.
Local Open Scope Z_scope.

Module Da.

Definition HELD_CAP : nat := 512.
Definition PENDING_CAP : nat := 64.
Definition RESAMPLE_MAX_INTERVAL : Z := 160.

Record Pending := mk_pending {
  skeleton : Block.Block;
  shards : list (option (list Z));
  wait : Z;
  interval : Z;
}.

Record Sampler := mk_sampler {
  s_me : Z;
  held : Bounded.BoundedMap (list Z) (list Z);
  pending : Bounded.BoundedMap (list Z) Pending;
  relevant : list (list Z);
}.

Definition set_held (v : Bounded.BoundedMap (list Z) (list Z)) (s : Sampler) : Sampler :=
  mk_sampler (s_me s) v (pending s) (relevant s).
Definition set_pending (v : Bounded.BoundedMap (list Z) Pending) (s : Sampler) : Sampler :=
  mk_sampler (s_me s) (held s) v (relevant s).

Definition new (me : Z) : Sampler :=
  mk_sampler me (Bounded.new HELD_CAP) (Bounded.new PENDING_CAP) [].

Definition hold (s : Sampler) (block shard : list Z) : Sampler := set_held (Bounded.insert (held s) block shard).1 s.

Definition retain_relevant (s : Sampler) (blocks : list (list Z)) : Sampler :=
  mk_sampler (s_me s) (held s) (pending s) blocks.

Definition missing (s : Sampler) (block : list Z) : list Z :=
  match Bounded.get (pending s) block with
  | None => []
  | Some p =>
      filter (fun i => i <> s_me s /\ default None (shards p !! Z.to_nat i) = None) (seqZ 0 (Z.of_nat (length (shards p))))
  end.

(** One entry of the sweep: count down, or ask now and double the gap. *)
Definition due_entry (p : Pending) : bool * Pending :=
  if 0 <? wait p then (false, mk_pending (skeleton p) (shards p) (wait p - 1) (interval p))
  else (true, mk_pending (skeleton p) (shards p) (interval p)
    (Z.min (sat_mul 32 (interval p) 2) RESAMPLE_MAX_INTERVAL)).

Definition due (s : Sampler) : list (list Z * list Z) * Sampler :=
  let m := Bounded.bm_map (pending s) in
  let out := fst <$> filter (fun kv => (due_entry (snd kv)).1 = true) (btree_list m) in
  let s := set_pending (Bounded.mk_bm ((fun p => (due_entry p).2) <$> m) (Bounded.bm_order (pending s))
             (Bounded.bm_capacity (pending s))) s in
  (filter (fun hm => snd hm <> []) ((fun h => (h, missing s h)) <$> out), s).

Definition proposer_of (s : Sampler) (block : list Z) : option Z :=
  (fun p => Block.proposer (Block.header (skeleton p))) <$> Bounded.get (pending s) block.

Definition serve (s : Sampler) (block : list Z) (index : Z) : option (list Z) :=
  if index =? s_me s then Bounded.get (held s) block else None.

Definition forget (s : Sampler) (block : list Z) : Sampler :=
  mk_sampler (s_me s) (held s) (Bounded.remove (pending s) block).1 (filter (fun h => h <> block) (relevant s)).

Definition prune_below (s : Sampler) (height : Z) : Sampler :=
  let stale := fst <$> filter (fun kv => Block.height (Block.header (skeleton (snd kv))) < height /\ fst kv ∉ relevant s)
                 (btree_list (Bounded.bm_map (pending s))) in
  set_pending (fold_left (fun m h => (Bounded.remove m h).1) stale (pending s)) s.

Definition is_sampling (s : Sampler) (block : list Z) : bool := Bounded.contains_key (pending s) block.
Definition in_flight (s : Sampler) : nat := Bounded.len (pending s).

(** Room for one more skeleton: at the cap, the oldest entry that is not relevant goes. *)
Definition make_room (s : Sampler) : bool * Bounded.BoundedMap (list Z) Pending :=
  if (PENDING_CAP <=? Bounded.len (pending s))%nat then
    let '(pend, evicted) := Bounded.remove_oldest_where (pending s) (fun h => bool_decide (h ∉ relevant s)) in
    (bool_decide (is_Some evicted), pend)
  else (true, pending s).

Section sampler.
  Context `{Crypto}.

Definition begin (s : Sampler) (b : Block.Block) : bool * Sampler :=
  let hash := Block.hash b in
  if Bounded.contains_key (pending s) hash then (false, s) else
  let empty := replicate 7 None in
  let shards := match Bounded.get (held s) hash with
                | Some mine => <[Z.to_nat (s_me s) := Some mine]> empty
                | None => empty
                end in
  let '(room, pend) := make_room s in
  if negb room then (false, set_pending pend s)
  else (true, set_pending (Bounded.insert pend hash (mk_pending b shards 0 1)).1 s).

Definition reconstruct (s : Sampler) (block : list Z) : option Block.Block * Sampler :=
  match (letO p := Bounded.get (pending s) block in
         letO txs := Block.reconstruct_payload (skeleton p) (shards p) in
         Some (Block.with_sealed_txs (skeleton p) txs)) with
  | None => (None, s)
  | Some full => (Some full, set_pending (Bounded.remove (pending s) block).1 s)
  end.

(** The slot takes the shard; a slot that was empty restarts the schedule. *)
Definition take_shard (index : Z) (shard : list Z) (p : Pending) : Pending :=
  match shards p !! Z.to_nat index with
  | None => p
  | Some slot =>
      let filled := <[Z.to_nat index := Some shard]> (shards p) in
      match slot with
      | None => mk_pending (skeleton p) filled 0 1
      | Some _ => mk_pending (skeleton p) filled (wait p) (interval p)
      end
  end.

Definition accept (s : Sampler) (block : list Z) (index : Z) (shard : list Z) : option Block.Block * Sampler :=
  let s := if index =? s_me s then hold s block shard else s in
  reconstruct (set_pending (Bounded.get_mut (pending s) block (take_shard index shard)) s) block.

(** ** Gathering genuine shards *)

Lemma erase_insert (m : Z) (l : list (list Z)) (i : nat) x : 0 <= m -> l !! i = Some x ->
  <[i := Some x]> (Erasure.erase m l) = Erasure.erase (Z.clearbit m (Z.of_nat i)) l.
Proof.
  intros Hm Hx. pose proof (lookup_lt_Some _ _ _ Hx) as Hi. apply list_eq. intros j. unfold Erasure.erase.
  destruct (decide (i = j)) as [<-|Hne].
  - rewrite list_lookup_insert_eq by (by rewrite length_imap). rewrite list_lookup_imap, Hx. simpl. by rewrite Z.clearbit_eq.
  - rewrite list_lookup_insert_ne, !list_lookup_imap by done. destruct (l !! j); [|done]. simpl.
    rewrite Z.clearbit_neq; [done|]. intros E. apply Hne. by apply Nat2Z.inj.
Qed.

Lemma length_erase {A} m (l : list A) : length (Erasure.erase m l) = length l.
Proof. apply length_imap. Qed.

Lemma clear_range : forallb (fun m => forallb (fun i => let m' := Z.clearbit m i in
  (0 <=? m') && (m' <? 128) && implb (Lrc.is_recoverable_fano m) (Lrc.is_recoverable_fano m')) (seqZ 0 7)) (seqZ 0 128) = true.
Proof. vm_compute. reflexivity. Qed.

(** Filling a slot keeps the mask a mask and never loses recoverability. *)
Lemma clearbit_ok m i : 0 <= m < 128 -> 0 <= i < 7 -> 0 <= Z.clearbit m i < 128 /\
  (Lrc.is_recoverable_fano m = true -> Lrc.is_recoverable_fano (Z.clearbit m i) = true).
Proof.
  intros Hm Hi. pose proof clear_range as E. rewrite forallb_forall in E.
  specialize (E m ltac:(apply list_elem_of_In, elem_of_seqZ; lia)). rewrite forallb_forall in E.
  specialize (E i ltac:(apply list_elem_of_In, elem_of_seqZ; lia)). cbv zeta in E.
  apply andb_prop in E as [E1 E2]. apply andb_prop in E1 as [E0 E1]. split; [lia|]. intros R. by rewrite R in E2.
Qed.

(** The entry of a block holds the block's own shards, except those in the mask [m]. *)
Definition gathering (s : Sampler) (b : Block.Block) (m : Z) : Prop :=
  exists p, Bounded.get (pending s) (Block.hash b) = Some p /\ skeleton p = Block.skeleton b /\
    shards p = Erasure.erase m (Block.da_shards b).

(** Deliveries for one block until one of them completes it. *)
Fixpoint deliver (s : Sampler) (h : list Z) (l : list (Z * list Z)) : option Block.Block * Sampler :=
  match l with
  | [] => (None, s)
  | (i, shard) :: l =>
      match accept s h i shard with
      | (Some full, s) => (Some full, s)
      | (None, s) => deliver s h l
      end
  end.

Lemma hold_pending s b sh : pending (hold s b sh) = pending s.
Proof. done. Qed.

(** What [accept] looks at after filling the slot. *)
Lemma accept_entry s h i shard p : Bounded.get (pending s) h = Some p ->
  exists s1, accept s h i shard = reconstruct s1 h /\ Bounded.get (pending s1) h = Some (take_shard i shard p).
Proof.
  intros Hp. unfold accept. eexists. split; [done|]. unfold Bounded.get in *. cbn [pending set_pending].
  destruct (i =? s_me s); unfold Bounded.get_mut; cbn [Bounded.bm_map]; rewrite ?hold_pending;
    rewrite lookup_alter_eq; unfold hold; cbn [pending set_held]; by rewrite Hp.
Qed.

Lemma length_da_shards b : length (Block.da_shards b) = 7%nat.
Proof. unfold Block.da_shards, Erasure.encode. by rewrite length_fmap, length_seqZ. Qed.

Lemma accept_genuine s b m i x : 0 <= m < 128 -> Block.txs_ok (Block.sealed_txs b) -> Block.verify_structure b = true ->
  gathering s b m -> 0 <= i -> Block.da_shards b !! Z.to_nat i = Some x ->
  let m' := Z.clearbit m i in
  (Lrc.is_recoverable_fano m' = true /\ (accept s (Block.hash b) i x).1 = Some b) \/
  (Lrc.is_recoverable_fano m' = false /\ (accept s (Block.hash b) i x).1 = None /\ gathering (accept s (Block.hash b) i x).2 b m').
Proof.
  intros Hm Ht Hv (p & Hp & Hsk & Hsh) Hi Hx m'. pose proof (lookup_lt_Some _ _ _ Hx) as Hlt. rewrite length_da_shards in Hlt.
  destruct (accept_entry s (Block.hash b) i x p Hp) as (s1 & -> & H1).
  assert (Hs' : skeleton (take_shard i x p) = Block.skeleton b /\ shards (take_shard i x p) = Erasure.erase m' (Block.da_shards b)).
  { assert (E : <[Z.to_nat i := Some x]> (shards p) = Erasure.erase m' (Block.da_shards b)).
    { rewrite Hsh, erase_insert by (done || lia). unfold m'. by rewrite Z2Nat.id. }
    unfold take_shard. destruct (shards p !! Z.to_nat i) as [[?|]|] eqn:Es; cbn [skeleton shards]; try done.
    exfalso. apply lookup_ge_None in Es. rewrite Hsh, length_erase, length_da_shards in Es. lia. }
  destruct Hs' as [E1 E2]. unfold reconstruct. rewrite H1. cbn [mbind option_bind]. rewrite E1, E2.
  destruct (clearbit_ok m i Hm ltac:(lia)) as [Hb _]. fold m' in Hb.
  change (Block.reconstruct_payload (Block.skeleton b)) with (Block.reconstruct_payload b).
  rewrite Block.reconstruct_erased_payload by done.
  destruct (Lrc.is_recoverable_fano m') eqn:Er; [left|right].
  - split; [done|]. simpl. by destruct b.
  - split; [done|]. split; [done|]. exists (take_shard i x p). done.
Qed.

Lemma deliver_genuine l : forall s b m, 0 <= m < 128 -> Block.txs_ok (Block.sealed_txs b) ->
  Block.verify_structure b = true -> gathering s b m -> Lrc.is_recoverable_fano m = false ->
  Forall (fun ix => 0 <= ix.1 /\ Block.da_shards b !! Z.to_nat ix.1 = Some ix.2) l ->
  (deliver s (Block.hash b) l).1 =
    if Lrc.is_recoverable_fano (foldl (fun m ix => Z.clearbit m ix.1) m l) then Some b else None.
Proof.
  induction l as [|[i x] l IH]; intros s b m Hm Ht Hv Hg Hn HF; cbn [deliver foldl fst].
  { by rewrite Hn. }
  apply Forall_cons in HF as [[Hi Hx] HF]. cbn [fst snd] in *.
  pose proof (lookup_lt_Some _ _ _ Hx) as Hlt. rewrite length_da_shards in Hlt.
  destruct (clearbit_ok m i Hm ltac:(lia)) as [Hm' _].
  destruct (accept_genuine s b m i x Hm Ht Hv Hg Hi Hx) as [[Hr Ha]|(Hr & Ha & Hg')];
    destruct (accept s (Block.hash b) i x) as [o s'] eqn:E; cbn [fst snd] in *; subst o.
  - clear IH E. assert (HR : Lrc.is_recoverable_fano (foldl (fun m ix => Z.clearbit m ix.1) (Z.clearbit m i) l) = true);
      [|by rewrite HR].
    clear Hm Hn. revert Hm' Hr. generalize (Z.clearbit m i). induction l as [|[j y] l IH]; intros m1 Hm1 Hr; [done|].
    apply Forall_cons in HF as [[Hj Hy] HF]. cbn [foldl fst snd] in *.
    pose proof (lookup_lt_Some _ _ _ Hy) as Hy'. rewrite length_da_shards in Hy'.
    destruct (clearbit_ok m1 j Hm1 ltac:(lia)) as [H1 H2]. by apply IH; [..|apply H2].
  - by apply IH.
Qed.

(** ** Room for a new skeleton *)

Definition inv (s : Sampler) : Prop := Bounded.inv (pending s) /\ Bounded.bm_capacity (pending s) = PENDING_CAP.

Lemma pending_step s m : inv s -> Bounded.step (pending s) m -> inv (set_pending m s).
Proof. intros [Hi Hc] Hs. destruct (Bounded.step_inv _ _ Hs Hi) as [H1 H2]. split; [done|]. cbn. congruence. Qed.

Lemma remove_oldest_size (b : Bounded.BoundedMap (list Z) Pending) f : Bounded.inv b ->
  let r := Bounded.remove_oldest_where b f in is_Some r.2 -> S (Bounded.len r.1) = Bounded.len b.
Proof.
  intros Hb r [[k v] Hv]. destruct (Bounded.remove_oldest_where_spec b f Hb) as [Hi Hs]. fold r in Hi, Hs.
  rewrite Hv in Hs. destruct Hs as (l1 & l2 & E & _ & _ & E').
  unfold Bounded.len. rewrite !Bounded.inv_size, <- !Bounded.inv_entries_length, E, E', !length_app by done. simpl. lia.
Qed.

Lemma remove_oldest_keeps (b : Bounded.BoundedMap (list Z) Pending) f h : Bounded.inv b -> f h = false ->
  Bounded.get (Bounded.remove_oldest_where b f).1 h = Bounded.get b h.
Proof.
  intros Hb Hf. unfold Bounded.remove_oldest_where. destruct (Bounded.position _ _) as [i|] eqn:Ei; [|done].
  destruct (Bounded.position_Some _ _ _ Ei) as (l1 & k & l2 & Eo & <- & Ek & _).
  rewrite Eo, list_lookup_middle by done. cbn. unfold Bounded.get. cbn. apply lookup_delete_ne. congruence.
Qed.

Lemma insert_room (b : Bounded.BoundedMap (list Z) Pending) k v h :
  (Bounded.len b < Bounded.bm_capacity b)%nat ->
  Bounded.get (Bounded.insert b k v).1 h = if decide (k = h) then Some v else Bounded.get b h.
Proof.
  intros Hl. unfold Bounded.insert, Bounded.get, Bounded.len in *.
  assert (E : <[k := v]> (Bounded.bm_map b) !! h = if decide (k = h) then Some v else Bounded.bm_map b !! h)
    by (case_decide; [subst; apply lookup_insert_eq|by apply lookup_insert_ne]).
  destruct (bool_decide _) eqn:Eb; [done|]. apply bool_decide_eq_false, eq_None_not_Some in Eb.
  rewrite map_size_insert_None by done. rewrite (proj2 (Nat.ltb_ge _ _)) by lia. done.
Qed.

Lemma make_room_spec s : inv s ->
  Bounded.inv (make_room s).2 /\ Bounded.bm_capacity (make_room s).2 = PENDING_CAP /\
  (forall h, h ∈ relevant s -> Bounded.get (make_room s).2 h = Bounded.get (pending s) h) /\
  if (make_room s).1 then (Bounded.len (make_room s).2 < PENDING_CAP)%nat else (make_room s).2 = pending s.
Proof.
  intros [Hi Hcap]. unfold make_room. destruct (Nat.leb_spec PENDING_CAP (Bounded.len (pending s))) as [Hfull|Hroom]; [|done].
  set (f := fun h => bool_decide (h ∉ relevant s)). pose proof (remove_oldest_size (pending s) f Hi) as Hsz.
  destruct (Bounded.step_inv _ _ (Bounded.step_remove_oldest (pending s) f) Hi) as [Hi' Hc'].
  assert (Hk : forall h, h ∈ relevant s -> Bounded.get (Bounded.remove_oldest_where (pending s) f).1 h = Bounded.get (pending s) h).
  { intros h Hh. apply remove_oldest_keeps; [done|]. unfold f. apply bool_decide_eq_false. by intros []. }
  destruct (Bounded.remove_oldest_where_spec (pending s) f Hi) as [_ Hspec].
  destruct (Bounded.remove_oldest_where (pending s) f) as [pend [ev|]]; cbn [fst snd] in *.
  - split; [done|]. split; [congruence|]. split; [done|]. rewrite bool_decide_eq_true_2 by done. specialize (Hsz ltac:(done)).
    unfold Bounded.len in Hsz at 2. rewrite Bounded.inv_size in Hsz by done. destruct Hi as (_ & _ & Hl & _). lia.
  - destruct Hspec as [_ ->]. rewrite bool_decide_eq_false_2 by (intros [? ?]; done). done.
Qed.

(** The shards a new entry starts with: this validator's own, where it holds it. *)
Definition seeded (s : Sampler) (h : list Z) : list (option (list Z)) :=
  match Bounded.get (held s) h with
  | Some mine => <[Z.to_nat (s_me s) := Some mine]> (replicate 7 None)
  | None => replicate 7 None
  end.

(** [begin] adds its block, or refuses it, and takes away no relevant one. *)
Lemma begin_pending s b : inv s ->
  inv (begin s b).2 /\ relevant (begin s b).2 = relevant s /\
  (forall h, h ∈ relevant s -> h <> Block.hash b -> Bounded.get (pending (begin s b).2) h = Bounded.get (pending s) h) /\
  if (begin s b).1 then Bounded.get (pending s) (Block.hash b) = None /\
    Bounded.get (pending (begin s b).2) (Block.hash b) = Some (mk_pending b (seeded s (Block.hash b)) 0 1)
  else (begin s b).2 = s.
Proof.
  intros Hi. unfold begin. destruct (Bounded.contains_key _ _) eqn:Ec; [done|].
  apply bool_decide_eq_false, eq_None_not_Some in Ec.
  destruct (make_room_spec s Hi) as (H1 & H2 & H3 & H4). destruct (make_room s) as [[] pend]; cbn [negb fst snd] in *.
  - cbn [pending set_pending relevant]. split; [by apply (pending_step (set_pending pend s)); [|apply Bounded.step_insert]|].
    split; [done|]. split.
    + intros h Hh Hne. rewrite insert_room by lia. rewrite decide_False by congruence. by apply H3.
    + split; [done|]. rewrite insert_room by lia. by rewrite decide_True.
  - subst pend. by destruct s.
Qed.

(** ** Operations other than those that finish a block *)

Inductive op :=
| OpBegin (b : Block.Block)
| OpDue
| OpPrune (height : Z)
| OpHold (block shard : list Z)
| OpAccept (block : list Z) (index : Z) (shard : list Z).

Definition run_op (s : Sampler) (o : op) : Sampler :=
  match o with
  | OpBegin b => (begin s b).2
  | OpDue => (due s).2
  | OpPrune n => prune_below s n
  | OpHold b sh => hold s b sh
  | OpAccept b i sh => (accept s b i sh).2
  end.

Definition concerns (h : list Z) (o : op) : Prop :=
  match o with OpAccept b _ _ => b = h | _ => False end.

(** The entry of [h] is there with the same skeleton and shards. *)
Definition keeps (s s' : Sampler) (h : list Z) : Prop :=
  forall p, Bounded.get (pending s) h = Some p ->
    exists p', Bounded.get (pending s') h = Some p' /\ skeleton p' = skeleton p /\ shards p' = shards p.

Lemma keeps_eq s s' h : Bounded.get (pending s') h = Bounded.get (pending s) h -> keeps s s' h.
Proof. intros E p Hp. exists p. by rewrite E. Qed.

Lemma remove_get (b : Bounded.BoundedMap (list Z) Pending) k h : k <> h -> Bounded.get (Bounded.remove b k).1 h = Bounded.get b h.
Proof. intros Hne. unfold Bounded.remove. case_match; [|done]. by apply lookup_delete_ne. Qed.

Lemma remove_all l : forall s, inv s ->
  inv (set_pending (fold_left (fun m h => (Bounded.remove m h).1) l (pending s)) s) /\
  forall h, h ∉ l -> Bounded.get (fold_left (fun m h => (Bounded.remove m h).1) l (pending s)) h = Bounded.get (pending s) h.
Proof.
  induction l as [|k l IH]; intros s Hs; cbn [fold_left]; [by destruct s|].
  pose proof (pending_step s _ Hs (Bounded.step_remove (pending s) k)) as H1.
  destruct (IH _ H1) as [H2 H3]. cbn in H2, H3. split; [exact H2|]. intros h Hh.
  rewrite H3 by set_solver. apply remove_get. set_solver.
Qed.

Lemma due_inv s : inv s -> inv (due s).2.
Proof.
  intros [(H1 & H2 & H3) Hc]. split; [|done]. split; [done|]. split; [|done]. cbn. intros k. rewrite H2, lookup_fmap.
  by rewrite fmap_is_Some.
Qed.

Lemma due_entry_same p : skeleton (due_entry p).2 = skeleton p /\ shards (due_entry p).2 = shards p.
Proof. unfold due_entry. by destruct (0 <? wait p). Qed.

Lemma accept_state s b i sh : inv s -> inv (accept s b i sh).2 /\ relevant (accept s b i sh).2 = relevant s /\
  forall h, h <> b -> Bounded.get (pending (accept s b i sh).2) h = Bounded.get (pending s) h.
Proof.
  intros Hs. unfold accept. set (s0 := if i =? s_me s then hold s b sh else s).
  assert (E0 : pending s0 = pending s /\ relevant s0 = relevant s) by (unfold s0; by destruct (i =? s_me s)).
  destruct E0 as [Ep Er]. assert (Hs0 : inv s0) by (unfold inv; by rewrite Ep).
  set (s1 := set_pending _ s0). assert (Hs1 : inv s1) by (apply pending_step; [done|apply Bounded.step_get_mut]).
  assert (E1 : forall h, h <> b -> Bounded.get (pending s1) h = Bounded.get (pending s) h).
  { intros h Hh. unfold s1. cbn. rewrite Ep. unfold Bounded.get. cbn. by apply lookup_alter_ne. }
  assert (Hr : (reconstruct s1 b).2 = s1 \/ (reconstruct s1 b).2 = set_pending (Bounded.remove (pending s1) b).1 s1)
    by (unfold reconstruct; case_match; [by right|by left]).
  destruct Hr as [->| ->]; [done|].
  split; [apply pending_step; [done|apply Bounded.step_remove]|]. split; [done|]. intros h Hh. cbn [pending set_pending].
  rewrite remove_get by congruence. by apply E1.
Qed.

Lemma run_op_keeps s o h : inv s -> h ∈ relevant s -> ~ concerns h o ->
  inv (run_op s o) /\ relevant (run_op s o) = relevant s /\ keeps s (run_op s o) h.
Proof.
  intros Hs Hh Hc. destruct o as [b| |n|b sh|b i sh]; cbn [run_op concerns] in *.
  - destruct (begin_pending s b Hs) as (H1 & H2 & H3 & H4). split; [done|]. split; [done|].
    destruct (decide (h = Block.hash b)) as [->|Hne]; [|by apply keeps_eq, H3].
    destruct ((begin s b).1); [|by apply keeps_eq; rewrite H4]. destruct H4 as [H4 _]. intros p Hp. congruence.
  - split; [by apply due_inv|]. split; [done|]. intros p Hp. exists (due_entry p).2.
    unfold due, Bounded.get in *. cbn. rewrite lookup_fmap, Hp. split; [done|]. apply due_entry_same.
  - unfold prune_below. set (stale := fst <$> _). destruct (remove_all stale s Hs) as [H1 H2].
    split; [done|]. split; [done|]. apply keeps_eq. cbn [pending set_pending]. apply H2. unfold stale.
    intros (kv & -> & [[_ Hr] _]%list_elem_of_filter)%list_elem_of_fmap. by apply Hr.
  - split; [exact Hs|]. split; [done|]. by apply keeps_eq.
  - destruct (accept_state s b i sh Hs) as (H1 & H2 & H3). split; [done|]. split; [done|].
    apply keeps_eq, H3. congruence.
Qed.

Lemma run_ops_keep l : forall s h, inv s -> h ∈ relevant s -> Forall (fun o => ~ concerns h o) l ->
  inv (foldl run_op s l) /\ keeps s (foldl run_op s l) h.
Proof.
  induction l as [|o l IH]; intros s h Hs Hh HF; [by split; [|apply keeps_eq]|].
  apply Forall_cons in HF as [Ho HF]. destruct (run_op_keeps s o h Hs Hh Ho) as (H1 & H2 & H3).
  destruct (IH (run_op s o) h H1) as [H4 H5]; [by rewrite H2|done|]. split; [done|].
  intros p Hp. destruct (H3 p Hp) as (p' & Hp' & E1 & E2). destruct (H5 p' Hp') as (p'' & Hp'' & E3 & E4).
  exists p''. split; [done|]. split; congruence.
Qed.

(** ** A shard of the wrong length *)

Lemma da_shards_length b i x : Block.da_shards b !! i = Some x ->
  length x = length (Erasure.as_chunks (Erasure.pad (Block.encode_payload (Block.sealed_txs b)))).
Proof.
  unfold Block.da_shards. rewrite Erasure.encode_shards, list_lookup_fmap.
  intros (p & _ & ->)%fmap_Some. apply length_fmap.
Qed.

(** The entry of [b] holds [bad] in slot [j], and elsewhere only shards of the block. *)
Definition poisoned (s : Sampler) (b : Block.Block) (j : Z) (bad : list Z) : Prop :=
  exists p, Bounded.get (pending s) (Block.hash b) = Some p /\ length (shards p) = 7%nat /\
    shards p !! Z.to_nat j = Some (Some bad) /\
    forall i x, i <> Z.to_nat j -> shards p !! i = Some (Some x) -> Block.da_shards b !! i = Some x.

Lemma mask_of_one (l : list (option Z)) j : (j < 7)%nat -> length l = 7%nat ->
  (forall i x, l !! i = Some (Some x) -> i = j) -> Lrc.is_recoverable_fano (Erasure.mask_of l) = false.
Proof.
  intros Hj Hl Hx. assert (E : l = <[j := default None (l !! j)]> (replicate 7 None)).
  { apply list_eq. intros i. destruct (decide (j = i)) as [<-|Hne].
    - rewrite list_lookup_insert_eq by (by rewrite length_replicate). destruct (l !! j) eqn:Ej; [done|].
      apply lookup_ge_None in Ej. lia.
    - rewrite list_lookup_insert_ne by done. destruct (l !! i) as [[x|]|] eqn:Ei.
      + exfalso. by apply Hne, eq_sym, (Hx i x).
      + apply lookup_lt_Some in Ei. symmetry. apply lookup_replicate_2. lia.
      + apply lookup_ge_None in Ei. symmetry. apply lookup_ge_None. rewrite length_replicate. lia. }
  rewrite E. do 7 (destruct j as [|j]; [by destruct (default None _)|]). lia.
Qed.

Lemma poisoned_no_payload (b : Block.Block) (l : list (option (list Z))) j bad x0 : (j < 7)%nat ->
  length l = 7%nat -> l !! j = Some (Some bad) -> Block.da_shards b !! j = Some x0 -> length bad <> length x0 ->
  (forall i x, i <> j -> l !! i = Some (Some x) -> Block.da_shards b !! i = Some x) -> Erasure.reconstruct l = None.
Proof.
  intros Hj Hl Hbad Hx0 Hlen Hgen. apply da_shards_length in Hx0. unfold Erasure.reconstruct.
  destruct (Erasure.first_len l) as [groups|] eqn:Eg; [|done]. cbn [mbind option_bind].
  destruct (existsb _ l) eqn:Ee; [done|].
  assert (Hall : forall i x, l !! i = Some (Some x) -> length x = groups).
  { intros i x Hi. destruct (decide (length x = groups)) as [|Hne]; [done|]. exfalso. revert Ee.
    apply not_false_iff_true, existsb_exists. exists (Some x). split; [apply list_elem_of_In; by eapply list_elem_of_lookup_2|].
    by apply negb_true_iff, Nat.eqb_neq. }
  assert (Hone : forall i x, l !! i = Some (Some x) -> i = j).
  { intros i x Hi. destruct (decide (i = j)) as [|Hne]; [done|]. exfalso. apply Hlen.
    rewrite Hx0, <- (da_shards_length b i x) by (by apply Hgen). rewrite (Hall _ _ Hbad). by rewrite (Hall _ _ Hi). }
  destruct groups as [|g]; [done|].
  assert (Es : Erasure.reconstruct_stripe l 0 = None); [|cbn [seq mapM]; by rewrite Es].
  unfold Erasure.reconstruct_stripe. rewrite (mask_of_one _ j Hj); [done| |].
  - by rewrite length_fmap, length_seqZ.
  - intros i x Hi. rewrite list_lookup_fmap in Hi. apply fmap_Some in Hi as (p & Hp & Hi).
    apply lookup_seqZ in Hp as [-> _]. unfold Fano.tget in Hi.
    destruct (l !! Z.to_nat _) as [[y|]|] eqn:Ey; cbn in Hi; rewrite ?Ey in Hi; try done.
    apply Hone in Ey. lia.
Qed.

Lemma accept_poisoned s b j bad x0 i x : 0 <= j < 7 -> 0 <= i -> poisoned s b j bad ->
  Block.da_shards b !! Z.to_nat j = Some x0 -> length bad <> length x0 -> i <> j -> Block.da_shards b !! Z.to_nat i = Some x ->
  (accept s (Block.hash b) i x).1 = None /\ poisoned (accept s (Block.hash b) i x).2 b j bad.
Proof.
  intros Hj Hi (p & Hp & Hl & Hbad & Hgen) Hx0 Hlen Hne Hx. pose proof (lookup_lt_Some _ _ _ Hx) as Hlt.
  rewrite length_da_shards in Hlt. destruct (accept_entry s (Block.hash b) i x p Hp) as (s1 & -> & H1).
  assert (Es : shards (take_shard i x p) = <[Z.to_nat i := Some x]> (shards p)).
  { unfold take_shard. destruct (shards p !! Z.to_nat i) as [[?|]|] eqn:Es; cbn [shards]; try done.
    apply lookup_ge_None in Es. lia. }
  assert (Hq : length (shards (take_shard i x p)) = 7%nat /\ shards (take_shard i x p) !! Z.to_nat j = Some (Some bad) /\
    forall k y, k <> Z.to_nat j -> shards (take_shard i x p) !! k = Some (Some y) -> Block.da_shards b !! k = Some y).
  { rewrite Es. split; [by rewrite length_insert|]. split; [rewrite list_lookup_insert_ne by lia; done|].
    intros k y Hk. destruct (decide (Z.to_nat i = k)) as [<-|Hki].
    - rewrite list_lookup_insert_eq by lia. by intros [= <-].
    - rewrite list_lookup_insert_ne by done. by apply Hgen. }
  destruct Hq as (Q1 & Q2 & Q3). unfold reconstruct. rewrite H1. cbn [mbind option_bind]. unfold Block.reconstruct_payload.
  rewrite (poisoned_no_payload b _ (Z.to_nat j) bad x0) by (done || lia). cbn. split; [done|].
  exists (take_shard i x p). done.
Qed.

Lemma poisoned_not_asked s b j bad : poisoned s b j bad -> 0 <= j -> j ∉ missing s (Block.hash b).
Proof.
  intros (p & Hp & _ & Hbad & _) Hj. unfold missing. rewrite Hp. intros [[_ Hn] _]%list_elem_of_filter.
  rewrite Hbad in Hn. done.
Qed.

Lemma deliver_poisoned l : forall s b j bad x0, 0 <= j < 7 -> poisoned s b j bad ->
  Block.da_shards b !! Z.to_nat j = Some x0 -> length bad <> length x0 ->
  Forall (fun ix => 0 <= ix.1 /\ ix.1 <> j /\ Block.da_shards b !! Z.to_nat ix.1 = Some ix.2) l ->
  (deliver s (Block.hash b) l).1 = None /\ poisoned (deliver s (Block.hash b) l).2 b j bad.
Proof.
  induction l as [|[i x] l IH]; intros s b j bad x0 Hj Hp Hx0 Hlen HF; cbn [deliver]; [done|].
  apply Forall_cons in HF as [(Hi & Hne & Hx) HF]. cbn [fst snd] in *.
  destruct (accept_poisoned s b j bad x0 i x Hj Hi Hp Hx0 Hlen Hne Hx) as [H1 H2].
  destruct (accept s (Block.hash b) i x) as [o s']. cbn [fst snd] in *. subst o. by eapply IH.
Qed.

(** The first delivery of a shard of the wrong length poisons the entry. *)
Lemma accept_false s b j m bad x0 : 0 <= j < 7 -> gathering s b m -> Block.da_shards b !! Z.to_nat j = Some x0 ->
  length bad <> length x0 -> poisoned (accept s (Block.hash b) j bad).2 b j bad.
Proof.
  intros Hj (p & Hp & Hsk & Hsh) Hx0 Hlen. destruct (accept_entry s (Block.hash b) j bad p Hp) as (s2 & -> & H2).
  assert (Es : shards (take_shard j bad p) = <[Z.to_nat j := Some bad]> (shards p)).
  { unfold take_shard. destruct (shards p !! Z.to_nat j) as [[?|]|] eqn:Es; cbn [shards]; try done.
    apply lookup_ge_None in Es. rewrite Hsh, length_erase, length_da_shards in Es. lia. }
  assert (Hp1 : shards (take_shard j bad p) !! Z.to_nat j = Some (Some bad) /\ length (shards (take_shard j bad p)) = 7%nat /\
    forall i x, i <> Z.to_nat j -> shards (take_shard j bad p) !! i = Some (Some x) -> Block.da_shards b !! i = Some x).
  { rewrite Es, length_insert, Hsh, length_erase, length_da_shards. split; [|split; [done|]].
    - rewrite list_lookup_insert_eq; [done|]. rewrite length_erase, length_da_shards. lia.
    - intros i x Hi. rewrite list_lookup_insert_ne by done. unfold Erasure.erase. rewrite list_lookup_imap.
      destruct (Block.da_shards b !! i); cbn; [|done]. by case_match; intros [= ->]. }
  destruct Hp1 as (P1 & P2 & P3). unfold reconstruct. rewrite H2. cbn [mbind option_bind]. unfold Block.reconstruct_payload.
  rewrite (poisoned_no_payload b _ (Z.to_nat j) bad x0) by (done || lia). cbn. exists (take_shard j bad p). done.
Qed.

(** A sampler that just began [b], with its own genuine shard or none. *)
Lemma begin_gathers s b : inv s -> 0 <= s_me s < 7 -> (begin s (Block.skeleton b)).1 = true ->
  (forall x, Bounded.get (held s) (Block.hash b) = Some x -> Block.da_shards b !! Z.to_nat (s_me s) = Some x) ->
  gathering (begin s (Block.skeleton b)).2 b
    (match Bounded.get (held s) (Block.hash b) with Some _ => Z.clearbit 127 (s_me s) | None => 127 end).
Proof.
  intros Hs Hme Hb Hh. destruct (begin_pending s (Block.skeleton b) Hs) as (_ & _ & _ & H4). rewrite Hb in H4.
  destruct H4 as [_ H4]. change (Block.hash (Block.skeleton b)) with (Block.hash b) in H4. eexists. split; [exact H4|]. split; [done|].
  cbn [shards]. unfold seeded.
  assert (E : replicate 7 None = Erasure.erase 127 (Block.da_shards b)).
  { pose proof (length_da_shards b) as Hl. destruct (Block.da_shards b) as [|x0 [|x1 [|x2 [|x3 [|x4 [|x5 [|x6 [|]]]]]]]]; done. }
  destruct (Bounded.get (held s) (Block.hash b)) as [x|] eqn:Ex; [|done].
  rewrite E, erase_insert by (lia || by apply Hh). by rewrite Z2Nat.id by lia.
Qed.

Lemma retain_inv s l : inv s -> inv (retain_relevant s l).
Proof. done. Qed.

Lemma begin_entry s b : inv s -> (begin s (Block.skeleton b)).1 = true -> Bounded.get (held s) (Block.hash b) = None ->
  Bounded.get (pending (begin s (Block.skeleton b)).2) (Block.hash b) = Some (mk_pending (Block.skeleton b) (replicate 7 None) 0 1).
Proof.
  intros Hs Hb Hh. destruct (begin_pending s (Block.skeleton b) Hs) as (_ & _ & _ & H4). rewrite Hb in H4.
  destruct H4 as [_ H4]. change (Block.hash (Block.skeleton b)) with (Block.hash b) in H4. rewrite H4. unfold seeded. by rewrite Hh.
Qed.

End sampler.

(** ** Claims *)

(** Sampling completes exactly when the code allows it: a validator that begins a skeleton and is
    then delivered shards of the block, in any order and with any repetition, returns the full
    block at the delivery after which the shards still missing are recoverable from those present,
    and returns nothing while they are not. *)
Theorem sampling_completes_exactly `{Crypto} (s : Sampler) (b : Block.Block) (l : list (Z * list Z)) :
  inv s -> 0 <= s_me s < 7 -> Block.txs_ok (Block.sealed_txs b) -> Block.verify_structure b = true ->
  (forall x, Bounded.get (held s) (Block.hash b) = Some x -> Block.da_shards b !! Z.to_nat (s_me s) = Some x) ->
  (begin s (Block.skeleton b)).1 = true ->
  Forall (fun ix => 0 <= ix.1 /\ Block.da_shards b !! Z.to_nat ix.1 = Some ix.2) l ->
  let own := match Bounded.get (held s) (Block.hash b) with Some _ => Z.clearbit 127 (s_me s) | None => 127 end in
  (deliver (begin s (Block.skeleton b)).2 (Block.hash b) l).1 =
    if Lrc.is_recoverable_fano (foldl (fun m ix => Z.clearbit m ix.1) own l) then Some b else None.
Proof.
  intros Hs Hme Ht Hv Hh Hb HF own. apply deliver_genuine; try done.
  - unfold own. destruct (Bounded.get (held s) (Block.hash b)); [|lia]. by apply clearbit_ok.
  - by apply begin_gathers.
  - unfold own. destruct (Bounded.get (held s) (Block.hash b)); [|done].
    assert (E : forallb (fun i => negb (Lrc.is_recoverable_fano (Z.clearbit 127 i))) (seqZ 0 7) = true) by (vm_compute; reflexivity).
    apply negb_true_iff. apply (forallb_seqZ _ 0 7 E). lia.
Qed.

(** What the engine can still decide is never evicted: whatever skeletons, shards of other blocks,
    sweeps and prunings arrive, a block listed as relevant keeps its skeleton and every shard
    gathered for it, and the number of blocks in flight stays within the cap. *)
Theorem relevant_sampling_survives `{Crypto} (s : Sampler) (h : list Z) (p : Pending) (ops : list op) :
  inv s -> h ∈ relevant s -> Bounded.get (pending s) h = Some p -> Forall (fun o => ~ concerns h o) ops ->
  (exists p', Bounded.get (pending (foldl run_op s ops)) h = Some p' /\ skeleton p' = skeleton p /\ shards p' = shards p) /\
  (in_flight (foldl run_op s ops) <= PENDING_CAP)%nat.
Proof.
  intros Hs Hh Hp HF. destruct (run_ops_keep ops s h Hs Hh HF) as [[H1 Hc] H2]. split; [by apply H2|].
  unfold in_flight, Bounded.len. rewrite Bounded.inv_size by done. destruct H1 as (_ & _ & Hl & _). by rewrite Hc in Hl.
Qed.

(** One shard of the wrong length stalls a block: once any peer has delivered such a shard for a
    slot, the validator never asks for that slot again, and the genuine shards of all six other
    slots, in any order and however often, do not complete the block. *)
Theorem false_shard_stalls_sampling `{Crypto} (s : Sampler) (b : Block.Block) (j m : Z) (bad x0 : list Z) (l : list (Z * list Z)) :
  0 <= j < 7 -> gathering s b m -> Block.da_shards b !! Z.to_nat j = Some x0 -> length bad <> length x0 ->
  Forall (fun ix => 0 <= ix.1 /\ ix.1 <> j /\ Block.da_shards b !! Z.to_nat ix.1 = Some ix.2) l ->
  let s1 := (accept s (Block.hash b) j bad).2 in
  (deliver s1 (Block.hash b) l).1 = None /\ j ∉ missing (deliver s1 (Block.hash b) l).2 (Block.hash b).
Proof.
  intros Hj Hg Hx0 Hlen HF s1. pose proof (accept_false s b j m bad x0 Hj Hg Hx0 Hlen) as HP.
  destruct (deliver_poisoned l s1 b j bad x0 Hj HP Hx0 Hlen HF) as [H5 H6]. split; [done|].
  apply (poisoned_not_asked _ _ _ bad); [done|lia].
Qed.

(** A block that is never completed is asked for 17 times in 1600 sweeps. *)
Fixpoint asks (n : nat) (p : Pending) : nat :=
  match n with
  | O => O
  | S n => let '(now, p) := due_entry p in ((if now then 1 else 0) + asks n p)%nat
  end.

Lemma unanswered_block_asks sk sh : asks 1600 (mk_pending sk sh 0 1) = 17%nat.
Proof. vm_compute. reflexivity. Qed.

(** ** Witnesses *)

#[local] Existing Instance toy_crypto.

Definition w_new : Sampler := new 0.
Definition w_begun : Sampler := (begin w_new (Block.skeleton Block.w_block)).2.

Lemma w_new_inv : inv w_new.
Proof. split; [apply Bounded.new_inv|done]. Qed.

Definition w_deliveries (l : list Z) : list (Z * list Z) :=
  (fun i => (i, default [] (Block.da_shards Block.w_block !! Z.to_nat i))) <$> l.

Lemma w_begins : (begin w_new (Block.skeleton Block.w_block)).1 = true.
Proof. vm_compute. reflexivity. Qed.

Lemma w_held : Bounded.get (held w_new) (Block.hash Block.w_block) = None.
Proof. apply lookup_empty. Qed.

Lemma w_held_genuine x : Bounded.get (held w_new) (Block.hash Block.w_block) = Some x ->
  Block.da_shards Block.w_block !! Z.to_nat (s_me w_new) = Some x.
Proof. by rewrite w_held. Qed.

Lemma w_me : 0 <= s_me w_new < 7.
Proof. done. Qed.

Lemma w_gathering : gathering w_begun Block.w_block 127.
Proof.
  pose proof (begin_gathers w_new Block.w_block w_new_inv w_me w_begins w_held_genuine) as Hg. by rewrite w_held in Hg.
Qed.

Lemma sampling_completes_exactly_witness :
  (deliver w_begun (Block.hash Block.w_block) (w_deliveries [1; 2; 2; 4])).1 = Some Block.w_block /\
  (deliver w_begun (Block.hash Block.w_block) (w_deliveries [1; 2; 2])).1 = None.
Proof.
  unfold w_begun. split.
  - rewrite (sampling_completes_exactly w_new Block.w_block (w_deliveries [1; 2; 2; 4])).
    + vm_compute. reflexivity.
    + apply w_new_inv.
    + apply w_me.
    + by_decide.
    + vm_compute. reflexivity.
    + apply w_held_genuine.
    + apply w_begins.
    + by_decide.
  - rewrite (sampling_completes_exactly w_new Block.w_block (w_deliveries [1; 2; 2])).
    + vm_compute. reflexivity.
    + apply w_new_inv.
    + apply w_me.
    + by_decide.
    + vm_compute. reflexivity.
    + apply w_held_genuine.
    + apply w_begins.
    + by_decide.
Defined.

Definition w_entry : Pending := mk_pending (Block.skeleton Block.w_block) (replicate 7 None) 0 1.
Definition w_ops : list op :=
  [OpDue; OpPrune 9; OpBegin (Block.assemble (Block.hash Block.w_block) 1 5 2 []); OpAccept [7] 3 [1]].

Lemma w_begun_inv l : inv (retain_relevant w_begun l).
Proof. apply retain_inv. unfold w_begun. apply begin_pending, w_new_inv. Qed.

Lemma w_entry_there : Bounded.get (pending w_begun) (Block.hash Block.w_block) = Some w_entry.
Proof. exact (begin_entry w_new Block.w_block w_new_inv w_begins w_held). Qed.

Lemma relevant_sampling_survives_witness :
  let h := Block.hash Block.w_block in
  let s := retain_relevant w_begun [h] in
  (exists p', Bounded.get (pending (foldl run_op s w_ops)) h = Some p' /\ skeleton p' = skeleton w_entry /\
     shards p' = shards w_entry) /\
  (in_flight (foldl run_op s w_ops) <= PENDING_CAP)%nat.
Proof.
  intros h s. apply (relevant_sampling_survives s h w_entry w_ops).
  - apply w_begun_inv.
  - left.
  - apply w_entry_there.
  - apply Forall_cons_2; [by intros []|]. apply Forall_cons_2; [by intros []|]. apply Forall_cons_2; [by intros []|].
    apply Forall_cons_2; [|apply Forall_nil_2]. intros E. change ([7] = Block.hash Block.w_block) in E. apply (f_equal length) in E.
    unfold Block.hash, Block.header_hash in E. rewrite (@hash_labeled_length toy_crypto toy_laws) in E. discriminate E.
Defined.

Lemma false_shard_stalls_sampling_witness :
  let s1 := (accept w_begun (Block.hash Block.w_block) 3 [9]).2 in
  (deliver s1 (Block.hash Block.w_block) (w_deliveries [0; 1; 2; 4; 5; 6])).1 = None /\
  3 ∉ missing (deliver s1 (Block.hash Block.w_block) (w_deliveries [0; 1; 2; 4; 5; 6])).2 (Block.hash Block.w_block).
Proof.
  apply (false_shard_stalls_sampling w_begun Block.w_block 3 127 [9] (default [] (Block.da_shards Block.w_block !! 3%nat))).
  - lia.
  - apply w_gathering.
  - vm_compute. reflexivity.
  - vm_compute. done.
  - by_decide.
Defined.

End Da.
