(* ===== verification/EngineState.v ===== *)
(** * The state of the consensus engine

    [fanos-taxis/src/consensus.rs]: [Sortition] and [ConsensusEngine].  The fields are grouped by
    their life time; the diagnostic counters, which only [probe] reads, are left out. *)
From stdpp Require Import sorting.
From S2P Require Import Prelude Codec Sig Bounded Params Vote Pqvrf Shamir Kem Threshold Tx Block Keyper Chain Messages.
Local Open Scope Z_scope.

Module EngineState.

Definition MAX_REVEAL_SUBSETS : nat := 4096.
Definition MAX_PENDING_REVEAL_COMMITS : Z := 4096.
Definition REVEAL_WINDOW : Z := 4.
Definition COLLECT_WINDOW_TICKS : Z := 1.
Definition RECENT_BODY_CAP : nat := 64.
Definition MEMPOOL_CAP : nat := 4096.
Definition EXEC_VOTE_HEIGHTS : nat := 1024.
Definition DEFERRAL_CAP : nat := 64.

(** Iteration of a [BTreeMap] with integer keys, in key order. *)
Definition zkey_le {V} (a b : Z * V) : Prop := fst a <= fst b.

#[global] Instance zkey_le_dec {V} (a b : Z * V) : Decision (zkey_le a b).
Proof. unfold zkey_le. apply _. Defined.

Definition zlist {V} (m : gmap Z V) : list (Z * V) := merge_sort zkey_le (map_to_list m).

Record Sortition := mk_sortition {
  so_secret : Pqvrf.MerkleVrfSecret;
  so_roots : list (list Z);
  so_height : Z;
  so_base : Z;
}.

Definition index_for (s : Sortition) (height : Z) : option Z :=
  if height <? so_base s then None else
  let idx := height - so_base s in
  if idx <? Pqvrf.shl_one (so_height s) then Some idx else None.

Section state.
  Context `{Crypto} `{KemCrypto} {S : Type} `{!StateMachine S}.

(** The fields that never change after [new]. *)
Record Config := mk_config {
  cf_params : Params.CellParams;
  cf_me : Z;
  cf_signer : HybridSigSecret;
  cf_kem_secret : Kem.HybridKemSecret;
  cf_verifiers : list HybridVerifier;
  cf_keyper_founding : Keyper.KeyperRegistry;
  cf_seed : list Z;
  cf_epoch : Z;
}.

(** Per-height working state: everything [reset_round_state] clears. *)
Record Working := mk_working {
  round : Z;
  proposals : btree Block.Block;
  proposed_round : option Z;
  prepares : list Vote.SignedVote;
  commits : list Vote.SignedVote;
  sent_prepare : gset Z;
  sent_commit : gset Z;
  locked_block : option (list Z);
  locked_cert : option Vote.Certificate;
  valid_value : option (list Z * Vote.Certificate);
  round0_tickets : gmap Z (list Z * list Z);
  round0_window : option Z;
}.

Definition set_round (v : Z) (w : Working) : Working :=
  mk_working v (proposals w) (proposed_round w) (prepares w) (commits w) (sent_prepare w) (sent_commit w)
    (locked_block w) (locked_cert w) (valid_value w) (round0_tickets w) (round0_window w).
Definition set_proposals (v : btree Block.Block) (w : Working) : Working :=
  mk_working (round w) v (proposed_round w) (prepares w) (commits w) (sent_prepare w) (sent_commit w)
    (locked_block w) (locked_cert w) (valid_value w) (round0_tickets w) (round0_window w).
Definition set_proposed_round (v : option Z) (w : Working) : Working :=
  mk_working (round w) (proposals w) v (prepares w) (commits w) (sent_prepare w) (sent_commit w) (locked_block
    w) (locked_cert w) (valid_value w) (round0_tickets w) (round0_window w).
Definition set_prepares (v : list Vote.SignedVote) (w : Working) : Working :=
  mk_working (round w) (proposals w) (proposed_round w) v (commits w) (sent_prepare w) (sent_commit w)
    (locked_block w) (locked_cert w) (valid_value w) (round0_tickets w) (round0_window w).
Definition set_commits (v : list Vote.SignedVote) (w : Working) : Working :=
  mk_working (round w) (proposals w) (proposed_round w) (prepares w) v (sent_prepare w) (sent_commit w)
    (locked_block w) (locked_cert w) (valid_value w) (round0_tickets w) (round0_window w).
Definition set_sent_prepare (v : gset Z) (w : Working) : Working :=
  mk_working (round w) (proposals w) (proposed_round w) (prepares w) (commits w) v (sent_commit w)
    (locked_block w) (locked_cert w) (valid_value w) (round0_tickets w) (round0_window w).
Definition set_sent_commit (v : gset Z) (w : Working) : Working :=
  mk_working (round w) (proposals w) (proposed_round w) (prepares w) (commits w) (sent_prepare w) v
    (locked_block w) (locked_cert w) (valid_value w) (round0_tickets w) (round0_window w).
Definition set_locked_block (v : option (list Z)) (w : Working) : Working :=
  mk_working (round w) (proposals w) (proposed_round w) (prepares w) (commits w) (sent_prepare w) (sent_commit
    w) v (locked_cert w) (valid_value w) (round0_tickets w) (round0_window w).
Definition set_locked_cert (v : option Vote.Certificate) (w : Working) : Working :=
  mk_working (round w) (proposals w) (proposed_round w) (prepares w) (commits w) (sent_prepare w) (sent_commit
    w) (locked_block w) v (valid_value w) (round0_tickets w) (round0_window w).
Definition set_valid_value (v : option (list Z * Vote.Certificate)) (w : Working) : Working :=
  mk_working (round w) (proposals w) (proposed_round w) (prepares w) (commits w) (sent_prepare w) (sent_commit
    w) (locked_block w) (locked_cert w) v (round0_tickets w) (round0_window w).
Definition set_round0_tickets (v : gmap Z (list Z * list Z)) (w : Working) : Working :=
  mk_working (round w) (proposals w) (proposed_round w) (prepares w) (commits w) (sent_prepare w) (sent_commit
    w) (locked_block w) (locked_cert w) (valid_value w) v (round0_window w).
Definition set_round0_window (v : option Z) (w : Working) : Working :=
  mk_working (round w) (proposals w) (proposed_round w) (prepares w) (commits w) (sent_prepare w) (sent_commit
    w) (locked_block w) (locked_cert w) (valid_value w) (round0_tickets w) v.

(** Ordering and execution: the pool of sealed transactions, the openings and the queue of
    finalized blocks that wait for them. *)
Record Execution := mk_execution {
  mempool : btree Tx.SealedTx;
  deferred_since : Bounded.BoundedMap (list Z) Z;
  reveals : btree (gmap Z Shamir.Share);
  pending_reveals : gmap Z (Bounded.BoundedMap (list Z) Messages.RevealMsg);
  committed_reveals : gmap Z (list Block.CommittedReveal);
  exec_queue : list Block.Block;
  reward_per_block : Z;
}.

Definition set_mempool (v : btree Tx.SealedTx) (x : Execution) : Execution :=
  mk_execution v (deferred_since x) (reveals x) (pending_reveals x) (committed_reveals x) (exec_queue x)
    (reward_per_block x).
Definition set_deferred_since (v : Bounded.BoundedMap (list Z) Z) (x : Execution) : Execution :=
  mk_execution (mempool x) v (reveals x) (pending_reveals x) (committed_reveals x) (exec_queue x)
    (reward_per_block x).
Definition set_reveals (v : btree (gmap Z Shamir.Share)) (x : Execution) : Execution :=
  mk_execution (mempool x) (deferred_since x) v (pending_reveals x) (committed_reveals x) (exec_queue x)
    (reward_per_block x).
Definition set_pending_reveals (v : gmap Z (Bounded.BoundedMap (list Z) Messages.RevealMsg)) (x : Execution) : Execution :=
  mk_execution (mempool x) (deferred_since x) (reveals x) v (committed_reveals x) (exec_queue x)
    (reward_per_block x).
Definition set_committed_reveals (v : gmap Z (list Block.CommittedReveal)) (x : Execution) : Execution :=
  mk_execution (mempool x) (deferred_since x) (reveals x) (pending_reveals x) v (exec_queue x)
    (reward_per_block x).
Definition set_exec_queue (v : list Block.Block) (x : Execution) : Execution :=
  mk_execution (mempool x) (deferred_since x) (reveals x) (pending_reveals x) (committed_reveals x) v
    (reward_per_block x).
Definition set_reward_per_block (v : Z) (x : Execution) : Execution :=
  mk_execution (mempool x) (deferred_since x) (reveals x) (pending_reveals x) (committed_reveals x)
    (exec_queue x) v.

(** What is kept to serve or to repair a lagging validator. *)
Record Recovery := mk_recovery {
  certified : gmap Z Vote.Certificate;
  recent_bodies : Bounded.BoundedMap (list Z) Block.Block;
  pending_finalize : gmap Z (list Z);
  exec_votes : gmap Z (gmap Z Checkpoint.ExecVote);
  checkpoint : option Checkpoint.ExecCertificate;
  diverged : option Z;
  max_seen_height : Z;
  sync_states : btree (list Z);
  sync_heads : gmap Z (list Z * list Z);
  body_asks : Z;
}.

Definition set_certified (v : gmap Z Vote.Certificate) (r : Recovery) : Recovery :=
  mk_recovery v (recent_bodies r) (pending_finalize r) (exec_votes r) (checkpoint r) (diverged r)
    (max_seen_height r) (sync_states r) (sync_heads r) (body_asks r).
Definition set_recent_bodies (v : Bounded.BoundedMap (list Z) Block.Block) (r : Recovery) : Recovery :=
  mk_recovery (certified r) v (pending_finalize r) (exec_votes r) (checkpoint r) (diverged r) (max_seen_height
    r) (sync_states r) (sync_heads r) (body_asks r).
Definition set_pending_finalize (v : gmap Z (list Z)) (r : Recovery) : Recovery :=
  mk_recovery (certified r) (recent_bodies r) v (exec_votes r) (checkpoint r) (diverged r) (max_seen_height r)
    (sync_states r) (sync_heads r) (body_asks r).
Definition set_exec_votes (v : gmap Z (gmap Z Checkpoint.ExecVote)) (r : Recovery) : Recovery :=
  mk_recovery (certified r) (recent_bodies r) (pending_finalize r) v (checkpoint r) (diverged r)
    (max_seen_height r) (sync_states r) (sync_heads r) (body_asks r).
Definition set_checkpoint (v : option Checkpoint.ExecCertificate) (r : Recovery) : Recovery :=
  mk_recovery (certified r) (recent_bodies r) (pending_finalize r) (exec_votes r) v (diverged r)
    (max_seen_height r) (sync_states r) (sync_heads r) (body_asks r).
Definition set_diverged (v : option Z) (r : Recovery) : Recovery :=
  mk_recovery (certified r) (recent_bodies r) (pending_finalize r) (exec_votes r) (checkpoint r) v
    (max_seen_height r) (sync_states r) (sync_heads r) (body_asks r).
Definition set_max_seen_height (v : Z) (r : Recovery) : Recovery :=
  mk_recovery (certified r) (recent_bodies r) (pending_finalize r) (exec_votes r) (checkpoint r) (diverged r)
    v (sync_states r) (sync_heads r) (body_asks r).
Definition set_sync_states (v : btree (list Z)) (r : Recovery) : Recovery :=
  mk_recovery (certified r) (recent_bodies r) (pending_finalize r) (exec_votes r) (checkpoint r) (diverged r)
    (max_seen_height r) v (sync_heads r) (body_asks r).
Definition set_sync_heads (v : gmap Z (list Z * list Z)) (r : Recovery) : Recovery :=
  mk_recovery (certified r) (recent_bodies r) (pending_finalize r) (exec_votes r) (checkpoint r) (diverged r)
    (max_seen_height r) (sync_states r) v (body_asks r).
Definition set_body_asks (v : Z) (r : Recovery) : Recovery :=
  mk_recovery (certified r) (recent_bodies r) (pending_finalize r) (exec_votes r) (checkpoint r) (diverged r)
    (max_seen_height r) (sync_states r) (sync_heads r) v.

(** The engine.  [history] is not a field of the source: it lists every vote this validator signed,
    in the order of signing, and nothing reads it; the safety theorems are about it. *)
Record Engine := mk_engine {
  cfg : Config;
  sortition : option Sortition;
  chain : Chain.Chain S;
  working : Working;
  execution : Execution;
  recovery : Recovery;
  last_finalized_cert : option Vote.Certificate;
  history : list Vote.Vote;
}.

Definition set_cfg (v : Config) (e : Engine) : Engine :=
  mk_engine v (sortition e) (chain e) (working e) (execution e) (recovery e) (last_finalized_cert e) (history
    e).
Definition set_sortition (v : option Sortition) (e : Engine) : Engine :=
  mk_engine (cfg e) v (chain e) (working e) (execution e) (recovery e) (last_finalized_cert e) (history e).
Definition set_chain (v : Chain.Chain S) (e : Engine) : Engine :=
  mk_engine (cfg e) (sortition e) v (working e) (execution e) (recovery e) (last_finalized_cert e) (history
    e).
Definition set_working (v : Working) (e : Engine) : Engine :=
  mk_engine (cfg e) (sortition e) (chain e) v (execution e) (recovery e) (last_finalized_cert e) (history e).
Definition set_execution (v : Execution) (e : Engine) : Engine :=
  mk_engine (cfg e) (sortition e) (chain e) (working e) v (recovery e) (last_finalized_cert e) (history e).
Definition set_recovery (v : Recovery) (e : Engine) : Engine :=
  mk_engine (cfg e) (sortition e) (chain e) (working e) (execution e) v (last_finalized_cert e) (history e).
Definition set_last_finalized_cert (v : option Vote.Certificate) (e : Engine) : Engine :=
  mk_engine (cfg e) (sortition e) (chain e) (working e) (execution e) (recovery e) v (history e).
Definition set_history (v : list Vote.Vote) (e : Engine) : Engine :=
  mk_engine (cfg e) (sortition e) (chain e) (working e) (execution e) (recovery e) (last_finalized_cert e) v.


Definition upd_w (f : Working -> Working) (e : Engine) : Engine := set_working (f (working e)) e.
Definition upd_x (f : Execution -> Execution) (e : Engine) : Engine := set_execution (f (execution e)) e.
Definition upd_r (f : Recovery -> Recovery) (e : Engine) : Engine := set_recovery (f (recovery e)) e.

Definition fresh_working : Working :=
  mk_working 0 ∅ None [] [] ∅ ∅ None None None ∅ None.

Definition new (c : Config) (genesis_state : S) : Engine :=
  mk_engine c None (Chain.new genesis_state) fresh_working
    (mk_execution ∅ (Bounded.new DEFERRAL_CAP) ∅ ∅ ∅ [] 0)
    (mk_recovery ∅ (Bounded.new RECENT_BODY_CAP) ∅ ∅ None None 0 ∅ ∅ 0)
    None [].

Definition enable_sortition (secret : Pqvrf.MerkleVrfSecret) (roots : list (list Z)) (base : Z) (e : Engine) : Engine :=
  set_sortition (Some (mk_sortition secret roots (Pqvrf.vrf_height secret) base)) e.

Definition set_reward (reward : Z) (e : Engine) : bool * Engine :=
  if (0 <? reward) && negb sm_pays_block_reward then (false, e)
  else (true, upd_x (set_reward_per_block reward) e).

Definition height (e : Engine) : Z := Chain.next_height (chain e).
Definition me (e : Engine) : Z := cf_me (cfg e).
Definition verifiers (e : Engine) : list HybridVerifier := cf_verifiers (cfg e).
Definition verifier_at (e : Engine) (i : Z) : option HybridVerifier := verifiers e !! Z.to_nat i.
Definition quorum (e : Engine) : nat := Z.to_nat (Params.quorum (cf_params (cfg e))).

Definition keyper_commit (e : Engine) : list Z := Keyper.commit (cf_keyper_founding (cfg e)).

Definition accepts_keyper_registry (registry : Keyper.KeyperRegistry) (e : Engine) : bool :=
  Keyper.descends_from registry (cf_keyper_founding (cfg e)) (verifiers e).

End state.
Arguments Engine {_ _} S.
End EngineState.
