(* ===== verification/TinyCell.v ===== *)
(** * A concrete cell

    Seven validators over the small executable cryptography, the reference accounts and the Fano
    parameters: the instance at which the theorems about the engine are evaluated. *)
From S2P Require Import Prelude Codec Sig Params Vote Shamir Kem Threshold Tx Block Keyper Chain Accounts Messages EngineState.
Local Open Scope Z_scope.

Module TinyCell.

Definition signer (i : nat) : @HybridSigSecret toy_crypto := @mk_secret toy_crypto (Nat.even i) tt.

Definition keys : list (@HybridVerifier toy_crypto) := (fun i => @verifier_of toy_crypto (signer i)) <$> seq 0 7.

(** The founding certificates of the seats' decryption keys. *)
Definition founding : @Keyper.KeyperRegistry toy_kem :=
  @Keyper.mk_registry toy_kem ((fun i => @Keyper.register toy_crypto toy_kem Keyper.GENESIS_GENERATION (Keyper.seat_byte i)
    (snd (Threshold.w_pair i)) (signer i)) <$> seq 0 7).

Definition config (i : nat) : @EngineState.Config toy_crypto toy_kem :=
  @EngineState.mk_config toy_crypto toy_kem Params.FANO (Z.of_nat i) (signer i) (fst (Threshold.w_pair i)) keys founding
    (replicate 32 7) 1.

(** The validator of seat [i] at genesis. *)
Definition engine (i : nat) : @EngineState.Engine toy_crypto toy_kem Accounts.Accounts :=
  @EngineState.new toy_crypto toy_kem Accounts.Accounts (config i) Accounts.new.

(** The signed vote of seat [i] in round 0. *)
Definition vote (i : nat) (h : Z) (p : Vote.Phase) (b : list Z) : Vote.SignedVote :=
  @Vote.sign toy_crypto (Vote.mk_vote h 0 b p (Z.of_nat i)) (signer i).

(** An empty first block by the leader of the first round, which is seat 0. *)
Definition block : Block.Block := @Block.assemble toy_crypto Block.GENESIS_PARENT 0 1 0 [].

Definition proposal : Messages.Input := Messages.IPropose block (Some <$> Block.da_shards block).

(** The proposal, then PREPAREs and COMMITs of seats 1 to 4: enough for seat 0 to finalize. *)
Definition first_height : list Messages.Input :=
  [proposal] ++ ((fun i => Messages.IVote (vote i 0 Vote.Prepare (@Block.hash toy_crypto block))) <$> seq 1 4) ++
  ((fun i => Messages.IVote (vote i 0 Vote.Commit (@Block.hash toy_crypto block))) <$> seq 1 4).

(** A COMMIT certificate for the first block by five seats. *)
Definition commit_cert (seats : list nat) : Vote.Certificate :=
  Vote.mk_cert Vote.Commit 0 0 (@Block.hash toy_crypto block)
    ((fun i => vote i 0 Vote.Commit (@Block.hash toy_crypto block)) <$> seats).

(** The second block, whose proposer, seat 1, saw the COMMITs of seats 1 to 5 first. *)
Definition block1 : Block.Block :=
  @Block.with_last_commit toy_crypto (@Block.assemble toy_crypto (@Block.hash toy_crypto block) 1 1 1 [])
    (commit_cert (seq 1 5)).

(** The proposal of the second block and enough PREPAREs for seat 0 to lock it. *)
Definition second_height : list Messages.Input :=
  [Messages.IPropose block1 (Some <$> Block.da_shards block1)] ++
  ((fun i => Messages.IVote (vote i 1 Vote.Prepare (@Block.hash toy_crypto block1))) <$> seq 1 4).

Definition second_commits : list Messages.Input :=
  (fun i => Messages.IVote (vote i 1 Vote.Commit (@Block.hash toy_crypto block1))) <$> seq 1 4.

(** A ledger no validator of the run has: seat 0 finds itself contradicted by a quorum about it. *)
Definition other_state : Accounts.Accounts := Accounts.credit Accounts.new (replicate 32 1) 5.

Definition exec_vote (h : Z) (head : list Z) (i : nat) : Checkpoint.ExecVote :=
  @Checkpoint.exec_sign toy_crypto h (@Accounts.state_root toy_crypto other_state) head (Z.of_nat i) (signer i).

Definition exec_cert (h : Z) (head : list Z) : Checkpoint.ExecCertificate :=
  Checkpoint.mk_exec_cert h (@Accounts.state_root toy_crypto other_state) head (exec_vote h head <$> seq 1 5).

End TinyCell.
