(* ===== verification/Pipeline.v ===== *)
(** * Ordering, openings and execution

    The half of [fanos-taxis/src/consensus.rs] that runs after a block is finalized: the pool of
    sealed transactions, the share openings, the execution of finalized blocks in order, deferrals,
    execution attestations and what is retained for lagging peers. *)
From stdpp Require Import sorting.
From S2P Require Import Prelude Codec Sig Bounded Params Vote Incentive Pqvrf Shamir Kem Threshold Tx Block Chain Messages EngineState Ledger.
Local Open Scope Z_scope.

Module Pipeline.
Export EngineState.

Section pipeline.
  Context `{Crypto} `{KemCrypto} {S : Type} `{!StateMachine S}.
  Implicit Types e : Engine S.

(** ** Opening a transaction from a subset of shares *)

(** [next_combination]: the largest index that can still move, and the reset of those after it. *)
Fixpoint next_from (t n : nat) (idx : list nat) (i : nat) : option (list nat) :=
  match i with
  | O => None
  | Datatypes.S i =>
      let x := default 0%nat (idx !! i) in
      if (x =? i + n - t)%nat then next_from t n idx i
      else Some (take i idx ++ ((fun j => x + 1 + j)%nat <$> seq 0 (t - i)))
  end.

Definition next_combination (idx : list nat) (n : nat) : option (list nat) :=
  let t := length idx in
  if (t =? 0)%nat || (n <? t)%nat then None else next_from t n idx t.

Fixpoint search_subsets (fuel : nat) (tx : Tx.SealedTx) (shares : list Shamir.Share) (idx : list nat) :
    option Tx.Transaction :=
  match fuel with
  | O => None
  | Datatypes.S fuel =>
      let subset := omap (fun i => shares !! i) idx in
      match Tx.open tx subset with
      | Ok txn => Some txn
      | Err _ =>
          match next_combination idx (length shares) with
          | Some idx => search_subsets fuel tx shares idx
          | None => None
          end
      end
  end.

Definition open_from_subset (tx : Tx.SealedTx) (shares : list Shamir.Share) (t : nat) : option Tx.Transaction :=
  if (length shares <? t)%nat then None else
  match Tx.open tx shares with
  | Ok txn => Some txn
  | Err _ => search_subsets MAX_REVEAL_SUBSETS tx shares (seq 0 t)
  end.

(** ** The pool *)

Definition valid_seal (tx : Tx.SealedTx) e : bool :=
  (Tx.epoch tx =? cf_epoch (cfg e)) &&
  (Z.of_nat (Tx.member_count tx) =? Params.seal_committee_size (cf_params (cfg e))).

Definition submit (tx : Tx.SealedTx) e : bool * Engine S :=
  if negb (valid_seal tx e) then (false, e) else
  let commit := Tx.commit tx in
  if bool_decide (is_Some (mempool (execution e) !! commit)) then (false, e) else
  if (MEMPOOL_CAP <=? size (mempool (execution e)))%nat then (false, e) else
  (true, upd_x (fun x => set_mempool (<[commit := tx]> (mempool x)) x) e).

(** [map.entry(k).or_insert(v)]. *)
Definition or_insert {V} (k : list Z) (v : V) (m : btree V) : btree V :=
  match m !! k with Some _ => m | None => <[k := v]> m end.

Definition readmit (tx : Tx.SealedTx) e : Engine S :=
  upd_x (fun x => set_mempool (or_insert (Tx.commit tx) tx (mempool x)) x) e.

(** ** Openings *)

Definition note_height (h : Z) e : Engine S :=
  upd_r (fun r => set_max_seen_height (Z.max (max_seen_height r) h) r) e.

(** [self.reveals.entry(commit).or_default().entry(member).or_insert(share)]. *)
Definition reveals_or_insert (commit : list Z) (member : Z) (share : Shamir.Share)
    (m : btree (gmap Z Shamir.Share)) : btree (gmap Z Shamir.Share) :=
  let inner := default ∅ (m !! commit) in
  let inner := match inner !! member with Some _ => inner | None => <[member := share]> inner end in
  <[commit := inner]> m.

Fixpoint emit_reveals (txs : list Tx.SealedTx) e : Engine S * list Messages.Output :=
  match txs with
  | [] => (e, [])
  | tx :: txs =>
      let pos := Z.to_nat (me e) in
      if Params.seal_committee_size (cf_params (cfg e)) <=? Z.of_nat pos then emit_reveals txs e else
      match Tx.member_share tx pos (cf_kem_secret (cfg e)) with
      | None => emit_reveals txs e
      | Some share =>
          let commit := Tx.commit tx in
          let e := upd_x (fun x => set_reveals (reveals_or_insert commit (me e) share (reveals x)) x) e in
          let out := Messages.Send (Messages.MReveal
            (Messages.reveal_signed commit (me e) (Messages.share_to_bytes share) (cf_signer (cfg e)))) in
          let '(e, outs) := emit_reveals txs e in
          (e, out :: outs)
      end
  end.

Definition sealed_tx_for (commit : list Z) e : option Tx.SealedTx :=
  List.find (fun tx => bool_decide (Tx.commit tx = commit)) (exec_queue (execution e) ≫= Block.sealed_txs).

Definition validate_and_record (r : Messages.RevealMsg) e : bool * Engine S :=
  if bool_decide (is_Some (reveals (execution e) !! Messages.r_commit r ≫= fun m => m !! Messages.r_member r))
  then (false, e) else
  match sealed_tx_for (Messages.r_commit r) e with
  | None => (false, e)
  | Some _ =>
      let pos := Z.to_nat (Messages.r_member r) in
      if Params.seal_committee_size (cf_params (cfg e)) <=? Z.of_nat pos then (false, e) else
      match verifier_at e (Messages.r_member r) with
      | None => (false, e)
      | Some verifier =>
          if negb (Messages.reveal_verify r verifier) then (false, e) else
          match Messages.share_from_bytes (Messages.r_share r) with
          | None => (false, e)
          | Some share =>
              if negb (Z.to_nat (Shamir.sx share) =? pos + 1)%nat then (false, e) else
              (true, upd_x (fun x => set_reveals
                (<[Messages.r_commit r :=
                   <[Messages.r_member r := share]> (default ∅ (reveals x !! Messages.r_commit r))]> (reveals x)) x) e)
          end
      end
  end.

Definition regossip (r : Messages.RevealMsg) : Messages.Output := Messages.Send (Messages.MReveal r).

(** [values_mut().filter_map(|m| m.remove(&commit))] over the partitions in member order. *)
Fixpoint take_early (commit : list Z) (members : list Z)
    (m : gmap Z (Bounded.BoundedMap (list Z) Messages.RevealMsg)) :
    list Messages.RevealMsg * gmap Z (Bounded.BoundedMap (list Z) Messages.RevealMsg) :=
  match members with
  | [] => ([], m)
  | i :: members =>
      match m !! i with
      | None => take_early commit members m
      | Some b =>
          let '(b, o) := Bounded.remove b commit in
          let '(rs, m) := take_early commit members (<[i := b]> m) in
          (match o with Some r => r :: rs | None => rs end, m)
      end
  end.

Fixpoint record_all (rs : list Messages.RevealMsg) e : Engine S * list Messages.Output :=
  match rs with
  | [] => (e, [])
  | r :: rs =>
      let '(fresh, e) := validate_and_record r e in
      let '(e, outs) := record_all rs e in
      (e, if fresh : bool then regossip r :: outs else outs)
  end.

Fixpoint drain_pending_reveals (txs : list Tx.SealedTx) e : Engine S * list Messages.Output :=
  match txs with
  | [] => (e, [])
  | tx :: txs =>
      let commit := Tx.commit tx in
      let members := (zlist (pending_reveals (execution e))).*1 in
      let '(early, m) := take_early commit members (pending_reveals (execution e)) in
      let '(e, out) := record_all early (upd_x (set_pending_reveals m) e) in
      let '(e, outs) := drain_pending_reveals txs e in
      (e, out ++ outs)
  end.

(** ** Openings the chain has committed *)

Definition absorb_committed_reveals (b : Block.Block) e : Engine S :=
  match Block.reveals b with
  | [] => e
  | rs => upd_x (fun x => set_committed_reveals (<[Block.height (Block.header b) := rs]> (committed_reveals x)) x) e
  end.

(** One committed opening into the fold of [openings_in]: the first writer wins. *)
Definition fold_opening (out : btree (gmap Z Shamir.Share)) (r : Block.CommittedReveal) :
    btree (gmap Z Shamir.Share) :=
  match Messages.share_from_bytes (Block.cr_share r) with
  | None => out
  | Some share => reveals_or_insert (Block.cr_commit r) (Block.cr_member r) share out
  end.

(** [committed_reveals.range(after + 1..=through)], flattened in height order. *)
Definition committed_between (after through : Z) (m : gmap Z (list Block.CommittedReveal)) :
    list Block.CommittedReveal :=
  zlist (filter (fun kv => after < fst kv <= through) m) ≫= snd.

Definition openings_in (after through : Z) (m : gmap Z (list Block.CommittedReveal)) :
    btree (gmap Z Shamir.Share) :=
  if through <=? after then ∅ else fold_left fold_opening (committed_between after through m) ∅.

(** The shares collected for one transaction, in member order. *)
Definition shares_for (tx : Tx.SealedTx) (committed : btree (gmap Z Shamir.Share)) : list Shamir.Share :=
  default [] ((fun m => (zlist m).*2) <$> committed !! Tx.commit tx).

Definition opens (t : nat) (committed : btree (gmap Z Shamir.Share)) (tx : Tx.SealedTx) : option Tx.Transaction :=
  let shares := shares_for tx committed in
  if (t <=? length shares)%nat then open_from_subset tx shares t else None.

(** [execution_height], over the heights [h0 + 1 ..= last]; [None] while undecided. *)
Fixpoint scan_heights (t : nat) (b : Block.Block) (m : gmap Z (list Block.CommittedReveal)) (finalized last : Z)
    (hs : list Z) : option Z :=
  match hs with
  | [] => Some last
  | h :: hs =>
      if finalized <? h then None else
      let committed := openings_in (Block.height (Block.header b)) h m in
      if forallb (fun tx => bool_decide (is_Some (opens t committed tx))) (Block.sealed_txs b) then Some h
      else scan_heights t b m finalized last hs
  end.

Definition execution_height_of (t : nat) (b : Block.Block) (m : gmap Z (list Block.CommittedReveal)) (next : Z) :
    option Z :=
  let h0 := Block.height (Block.header b) in
  let last := sat_add 64 h0 REVEAL_WINDOW in
  let finalized := sat_sub next 1 in
  let first := w64 (h0 + 1) in
  scan_heights t b m finalized last (seqZ first (last - first + 1)).

Definition seal_threshold e : nat := Z.to_nat (Params.seal_threshold (cf_params (cfg e))).

Definition execution_height (b : Block.Block) e : option Z :=
  execution_height_of (seal_threshold e) b (committed_reveals (execution e)) (height e).

Definition reveals_to_commit (h : Z) e : list Block.CommittedReveal :=
  let floor := sat_sub h REVEAL_WINDOW in
  let already := openings_in (sat_sub floor 1) (sat_sub h 1) (committed_reveals (execution e)) in
  exec_queue (execution e) ≫= fun b =>
    if Block.height (Block.header b) <? floor then [] else
    Block.sealed_txs b ≫= fun tx =>
      let commit := Tx.commit tx in
      match reveals (execution e) !! commit with
      | None => []
      | Some mine =>
          zlist mine ≫= fun '(member, share) =>
            if bool_decide (is_Some (already !! commit ≫= fun m => m !! member)) then []
            else [Block.mk_reveal commit member (Messages.share_to_bytes share)]
      end.

(** ** Attestations, checkpoints and retention *)

Definition prune_recovery_retention e : Engine S :=
  match checkpoint (recovery e) with
  | None => e
  | Some c =>
      let floor := Checkpoint.xc_height c in
      upd_r (fun r =>
        let heads := filter (fun kv => floor <= fst kv) (sync_heads r) in
        let live : list (list Z) := (fun kv => fst (snd kv)) <$> map_to_list heads in
        let stale := filter (fun kv => Block.height (Block.header (snd kv)) < floor) (Bounded.entries (recent_bodies r)) in
        let bodies := fold_left (fun b kv => fst (Bounded.remove b (fst kv))) stale (recent_bodies r) in
        set_sync_heads heads
          (set_certified (filter (fun kv => floor <= fst kv) (certified r))
          (set_exec_votes (filter (fun kv => floor < fst kv) (exec_votes r))
          (set_sync_states (filter (fun kv => fst kv ∈ live) (sync_states r))
          (set_recent_bodies bodies r))))) e
  end.

(** The votes of one height grouped by the state and head they attest, in key order. *)
Definition by_state (vs : list Checkpoint.ExecVote) : btree (list Checkpoint.ExecVote) :=
  fold_left (fun m v =>
    let k := Checkpoint.ev_state_root v ++ Checkpoint.ev_head v in
    <[k := default [] (m !! k) ++ [v]]> m) vs ∅.

Definition try_form_checkpoint (h : Z) e : Engine S :=
  let r := recovery e in
  if match checkpoint r with Some c => h <=? Checkpoint.xc_height c | None => false end then e else
  match exec_votes r !! h with
  | None => e
  | Some by_voter =>
      let mine := Checkpoint.ev_state_root <$> by_voter !! me e in
      let groups := btree_list (by_state ((zlist by_voter).*2)) in
      match List.find (fun kv => (quorum e <=? length (snd kv))%nat) groups with
      | Some (_, (v :: _) as votes) =>
          let root := Checkpoint.ev_state_root v in
          let e := match mine with
                   | Some ours => if bool_decide (ours <> root) then upd_r (set_diverged (Some h)) e else e
                   | None => e
                   end in
          let cert := Checkpoint.mk_exec_cert h root (Checkpoint.ev_head v) votes in
          prune_recovery_retention (upd_r (set_checkpoint (Some cert)) e)
      | _ => e
      end
  end.

(** [while self.exec_votes.len() > EXEC_VOTE_HEIGHTS], dropping the lowest height. *)
Fixpoint trim_lowest (fuel : nat) (m : gmap Z (gmap Z Checkpoint.ExecVote)) : gmap Z (gmap Z Checkpoint.ExecVote) :=
  match fuel with
  | O => m
  | Datatypes.S fuel =>
      if (size m <=? EXEC_VOTE_HEIGHTS)%nat then m else
      match zlist m with
      | [] => m
      | (lowest, _) :: _ => trim_lowest fuel (delete lowest m)
      end
  end.

Definition record_exec_vote (v : Checkpoint.ExecVote) e : Engine S :=
  let h := Checkpoint.ev_height v in
  let e := upd_r (fun r =>
    let inner := default ∅ (exec_votes r !! h) in
    let inner := match inner !! Checkpoint.ev_voter v with
                 | Some _ => inner
                 | None => <[Checkpoint.ev_voter v := v]> inner
                 end in
    let m := <[h := inner]> (exec_votes r) in
    set_exec_votes (trim_lowest (size m) m) r) e in
  try_form_checkpoint h e.

Definition emit_exec_vote (h : Z) (head : list Z) e : Engine S * Messages.Output :=
  let v := Checkpoint.exec_sign h (Chain.state_root (chain e)) head (me e) (cf_signer (cfg e)) in
  (record_exec_vote v e, Messages.Send (Messages.MExecVote v)).

Definition capture_sync_snapshot (b : Block.Block) e : Engine S :=
  let root := Chain.state_root (chain e) in
  upd_r (fun r =>
    set_sync_states (or_insert root (sm_snapshot (Chain.state (chain e))) (sync_states r))
      (set_sync_heads (<[Block.height (Block.header b) := (root, Block.header_hash (Block.header b))]> (sync_heads r)) r)) e.

(** ** Execution *)

Fixpoint note_deferrals (pairs : list (Tx.SealedTx * Ledger.ExecOutcome)) e : Engine S :=
  match pairs with
  | [] => e
  | (tx, outcome) :: pairs =>
      let commit := Tx.commit tx in
      let d := deferred_since (execution e) in
      let forget := upd_x (set_deferred_since (fst (Bounded.remove d commit))) e in
      let retry n := readmit tx (upd_x (set_deferred_since (fst (Bounded.insert d commit n))) e) in
      note_deferrals pairs
        (match outcome with
         | Ledger.Deferred =>
             match Bounded.get d commit with
             | None => if (Bounded.len d <? DEFERRAL_CAP)%nat then retry 1 else e
             | Some tries => if REVEAL_WINDOW <=? tries then forget else retry (w64 (tries + 1))
             end
         | _ => forget
         end)
  end.

(** The members who opened something in the interval. *)
Definition revealers_of (committed : btree (gmap Z Shamir.Share)) : gset Z :=
  ⋃ ((fun kv => dom (snd kv)) <$> map_to_list committed).

(** What executing a block does to the state machine: the clock, the beacon, the reward, then the
    opened transactions. *)
Definition run_block (c : Config) (reward : Z) (b : Block.Block) (committed : btree (gmap Z Shamir.Share))
    (opened : list Tx.Transaction) (ch : Chain.Chain S) : Chain.Chain S * list Ledger.ExecOutcome :=
  let ch := Chain.begin_block ch (Block.height (Block.header b)) in
  let ch := Chain.set_audit_beacon ch (Block.parent (Block.header b)) in
  let ch := match Block.last_commit b with
            | Some cert =>
                if 0 <? reward then
                  let voters := (fun sv => Vote.voter (Vote.vote sv)) <$> Vote.votes cert in
                  let paid := Incentive.reveal_gated_beneficiaries voters (revealers_of committed)
                    (negb (bool_decide (Block.sealed_txs b = []))) in
                  let beneficiaries := omap (fun v => cf_verifiers c !! Z.to_nat v) paid in
                  Chain.apply_block_reward ch beneficiaries reward
                else ch
            | None => ch
            end in
  Chain.execute_block ch opened.

(** The loop of [try_execute]; every pass takes the first block off the queue. *)
Fixpoint execute_queue (queue : list Block.Block) e : Engine S * list Messages.Output :=
  match queue with
  | [] => (e, [])
  | b :: queue =>
      match execution_height b e with
      | None => (e, [])
      | Some at_ =>
          let t := seal_threshold e in
          let committed := openings_in (Block.height (Block.header b)) at_ (committed_reveals (execution e)) in
          let opened := omap (fun tx => (fun txn => (tx, txn)) <$> opens t committed tx) (Block.sealed_txs b) in
          let e := upd_x (set_exec_queue queue) e in
          let '(ch, outcomes) := run_block (cfg e) (reward_per_block (execution e)) b committed (opened.*2) (chain e) in
          let e := note_deferrals (zip (opened.*1) outcomes) (set_chain ch e) in
          let '(e, out) := emit_exec_vote (Block.height (Block.header b)) (Block.header_hash (Block.header b)) e in
          let e := capture_sync_snapshot b e in
          let '(e, outs) := execute_queue queue e in
          (e, out :: outs)
      end
  end.

Definition try_execute e : Engine S * list Messages.Output := execute_queue (exec_queue (execution e)) e.

Definition on_reveal (r : Messages.RevealMsg) e : Engine S * list Messages.Output :=
  let '(e, out) :=
    if bool_decide (is_Some (sealed_tx_for (Messages.r_commit r) e)) then
      let '(fresh, e) := validate_and_record r e in (e, if fresh : bool then [regossip r] else [])
    else
      let known := pending_reveals (execution e) !! Messages.r_member r ≫= fun b => Bounded.get b (Messages.r_commit r) in
      if bool_decide (is_Some known) then (e, []) else
      match verifier_at e (Messages.r_member r) with
      | None => (e, [])
      | Some vk =>
          if negb (Messages.reveal_verify r vk) then (e, []) else
          let share := MAX_PENDING_REVEAL_COMMITS / Z.max (Params.line_size (cf_params (cfg e))) 1 in
          let mine := default (Bounded.new (Z.to_nat share)) (pending_reveals (execution e) !! Messages.r_member r) in
          let mine := match Bounded.get mine (Messages.r_commit r) with
                      | None => fst (Bounded.insert mine (Messages.r_commit r) r)
                      | Some _ => mine
                      end in
          (upd_x (fun x => set_pending_reveals (<[Messages.r_member r := mine]> (pending_reveals x)) x) e, [])
      end in
  let '(e, outs) := try_execute e in
  (e, out ++ outs).

Definition on_exec_vote (v : Checkpoint.ExecVote) e : Engine S :=
  match verifier_at e (Checkpoint.ev_voter v) with
  | None => e
  | Some verifier =>
      if negb (Checkpoint.exec_verify v verifier) then e else
      let e := if height e <=? Checkpoint.ev_height v then note_height (Checkpoint.ev_height v) e else e in
      record_exec_vote v e
  end.

End pipeline.
End Pipeline.
