(* ===== verification/Openings.v ===== *)
(** * Opening a transaction from committed shares

    Theory of the share search of [fanos-taxis/src/consensus.rs] ([next_combination],
    [open_from_subset], [openings_in], [execution_height]): which subsets the search tries, when
    that is enough to open a transaction in spite of false shares, and when it is not. *)
From stdpp Require Import sorting.
From S2P Require Import Prelude Codec Sig Bounded Params Vote Shamir Kem Threshold Tx Block Keyper Chain Messages EngineState TinyCell Accounts Pipeline.
Local Open Scope Z_scope.

Module Openings.
Export Pipeline.

Section combinations.
Local Open Scope nat_scope.

(** The increasing lists of [t] numbers from [lo] up to [n], in lexicographic order. *)
Fixpoint combos (t lo n : nat) : list (list nat) :=
  match t with
  | O => [[]]
  | Datatypes.S t => seq lo (n - t - lo) ≫= fun x => cons x <$> combos t (Datatypes.S x) n
  end.

Fixpoint increasing (lo n : nat) (idx : list nat) : Prop :=
  match idx with
  | [] => True
  | x :: idx => lo <= x < n /\ increasing (Datatypes.S x) n idx
  end.

(** The number of [t]-subsets of [m] things. *)
Fixpoint choose (m t : nat) : N :=
  match m, t with
  | _, O => 1
  | O, Datatypes.S _ => 0
  | Datatypes.S m, Datatypes.S t => choose m t + choose m (Datatypes.S t)
  end%N.

Lemma increasing_room lo n idx : increasing lo n idx -> lo <= n -> lo + length idx <= n.
Proof.
  revert lo. induction idx as [|x idx IH]; intros lo; simpl; [lia|]. intros [Hx Hi] _.
  specialize (IH _ Hi). lia.
Qed.

Lemma elem_of_combos t lo n idx : idx ∈ combos t lo n <-> length idx = t /\ increasing lo n idx.
Proof.
  revert lo idx. induction t as [|t IH]; intros lo idx; simpl.
  - rewrite list_elem_of_singleton. split; [by intros ->|]. by destruct idx; intros [? _].
  - rewrite list_elem_of_bind. split.
    + intros (x & (l & -> & [Hl Hi]%IH)%list_elem_of_fmap & Hx%elem_of_seq). simpl. repeat split; [congruence|lia..|done].
    + destruct idx as [|x idx]; simpl; [by intros [? _]|]. intros ([= Hl] & Hx & Hi). exists x. split.
      * apply list_elem_of_fmap. exists idx. split; [done|]. by apply IH.
      * apply elem_of_seq. apply increasing_room in Hi; lia.
Qed.

Lemma combos_unfold t lo n : lo + Datatypes.S t <= n ->
  combos (Datatypes.S t) lo n =
    (cons lo <$> combos t (Datatypes.S lo) n) ++ combos (Datatypes.S t) (Datatypes.S lo) n.
Proof.
  intros Hn. cbn [combos]. replace (n - t - lo) with (Datatypes.S (n - t - Datatypes.S lo)) by lia.
  by rewrite <- cons_seq, bind_cons.
Qed.

Lemma combos_none t lo n : n < lo + Datatypes.S t -> combos (Datatypes.S t) lo n = [].
Proof. intros Hn. cbn [combos]. by replace (n - t - lo) with 0 by lia. Qed.

Lemma length_combos t lo n : lo <= n -> N.of_nat (length (combos t lo n)) = choose (n - lo) t.
Proof.
  intros Hn. remember (n - lo) as k eqn:Ek. revert t lo Hn Ek.
  induction k as [|k IH]; intros [|t] lo Hn Ek; try done.
  - rewrite combos_none by lia. done.
  - simpl choose. destruct (decide (lo + Datatypes.S t <= n)) as [Hr|Hr].
    + rewrite combos_unfold, length_app, length_fmap, Nat2N.inj_add by done.
      by rewrite !IH by lia.
    + rewrite combos_none by lia. pose proof (IH (Datatypes.S t) (Datatypes.S lo)) as E. rewrite combos_none in E by lia.
      rewrite <- E by lia. simpl. pose proof (IH t (Datatypes.S lo)) as E'. destruct t as [|t]; [lia|].
      rewrite combos_none in E' by lia. rewrite <- E' by lia. done.
Qed.

Lemma head_combos t lo n : lo + t <= n -> exists L, combos t lo n = seq lo t :: L.
Proof.
  revert lo. induction t as [|t IH]; intros lo Hn; [by exists []|].
  destruct (IH (Datatypes.S lo)) as [L E]; [lia|]. rewrite combos_unfold, E by lia. simpl. by eexists.
Qed.

(** ** The successor of a combination *)

(** The successor by recursion from the left; [next_combination] finds it from the right. *)
Fixpoint successor (n : nat) (idx : list nat) : option (list nat) :=
  match idx with
  | [] => None
  | x :: idx =>
      match successor n idx with
      | Some idx => Some (x :: idx)
      | None => if x =? n - Datatypes.S (length idx) then None
                else Some (seq (Datatypes.S x) (Datatypes.S (length idx)))
      end
  end.

Lemma successor_app n pre post r : successor n post = Some r -> successor n (pre ++ post) = Some (pre ++ r).
Proof. intros E. induction pre as [|x pre IH]; simpl; [done|]. by rewrite IH. Qed.

Lemma shifted_seq x k : ((fun j => x + 1 + j) <$> seq 0 k) = seq (Datatypes.S x) k.
Proof. rewrite (fmap_add_seq (x + 1)). f_equal. lia. Qed.

Lemma next_from_successor n idx i : i <= length idx <= n -> successor n (drop i idx) = None ->
  next_from (length idx) n idx i = successor n idx.
Proof.
  induction i as [|i IH]; intros [Hi Hn] Hs; [by rewrite drop_0 in Hs|]. cbn [next_from].
  destruct (lookup_lt_is_Some_2 idx i) as [x Hx]; [lia|]. rewrite Hx. simpl default.
  assert (Hd : successor n (drop i idx) = if x =? n - (length idx - i) then None
                                          else Some (seq (Datatypes.S x) (length idx - i))).
  { rewrite (drop_S _ _ _ Hx). cbn [successor]. rewrite Hs, length_drop.
    by replace (Datatypes.S (length idx - Datatypes.S i)) with (length idx - i) by lia. }
  replace (i + n - length idx) with (n - (length idx - i)) by lia.
  destruct (x =? n - (length idx - i)); [apply IH; [lia|done]|].
  rewrite shifted_seq. apply (successor_app n (take i idx)) in Hd. by rewrite take_drop in Hd.
Qed.

Lemma next_combination_successor n idx : length idx <= n -> next_combination idx n = successor n idx.
Proof.
  intros Hn. unfold next_combination. destruct idx as [|x idx]; [done|]. cbn [length Nat.eqb orb].
  rewrite (proj2 (Nat.ltb_ge _ _)) by done. change (Datatypes.S (length idx)) with (length (x :: idx)). apply next_from_successor; [lia|]. by rewrite drop_all.
Qed.

(** Every element's successor is the next element; the last one's is [h]. *)
Fixpoint chain_to (n : nat) (h : option (list nat)) (L : list (list nat)) : Prop :=
  match L with
  | [] => True
  | a :: L => successor n a = match L with [] => h | b :: _ => Some b end /\ chain_to n h L
  end.

Lemma chain_app n h A B :
  chain_to n (match B with [] => h | b :: _ => Some b end) A -> chain_to n h B -> chain_to n h (A ++ B).
Proof. intros HA HB. induction A as [|a [|a' A] IH]; simpl in *; [done|tauto|tauto]. Qed.

Lemma chain_cons n x t A : Forall (fun a => length a = t) A -> chain_to n None A ->
  chain_to n (if x =? n - Datatypes.S t then None else Some (seq (Datatypes.S x) (Datatypes.S t))) (cons x <$> A).
Proof.
  intros HF HA. induction HF as [|a A Ha HF IH]; [done|]. destruct HA as [Hs HA]. split; [|by apply IH].
  cbn [successor]. rewrite Hs, Ha. by destruct A.
Qed.

Lemma chain_combos t lo n : lo + t <= n -> chain_to n None (combos t lo n).
Proof.
  revert lo. induction t as [|t IH]; intros lo Hn; [done|].
  remember (n - lo) as k eqn:Ek. revert lo Hn Ek. induction k as [|k IHk]; intros lo Hn Ek; [lia|].
  rewrite combos_unfold by lia.
  assert (HF : Forall (fun a => length a = t) (combos t (Datatypes.S lo) n)).
  { apply Forall_forall. intros a [Ha _]%elem_of_combos. done. }
  assert (HA : chain_to n None (combos t (Datatypes.S lo) n)) by (apply IH; lia).
  pose proof (chain_cons n lo t _ HF HA) as HC.
  destruct (Nat.eqb_spec lo (n - Datatypes.S t)) as [El|Nl].
  - rewrite (combos_none t (Datatypes.S lo)) by lia. by rewrite app_nil_r.
  - apply chain_app; [|apply IHk; lia]. destruct (head_combos (Datatypes.S t) (Datatypes.S lo) n) as [L ->]; [lia|]. done.
Qed.

End combinations.

(** ** The search *)

Section search.
  Context `{Crypto} `{KemCrypto}.
  Implicit Types (tx : Tx.SealedTx) (shares : list Shamir.Share).

Definition pick shares (idx : list nat) : list Shamir.Share := omap (fun i => shares !! i) idx.

Definition attempt tx shares (idx : list nat) : option Tx.Transaction :=
  match Tx.open tx (pick shares idx) with Ok txn => Some txn | Err _ => None end.

(** The first subset of a list of subsets that opens the transaction. *)
Definition first_open tx shares (L : list (list nat)) : option Tx.Transaction := head (omap (attempt tx shares) L).

Lemma search_chain tx shares fuel idx L : chain_to (length shares) None (idx :: L) ->
  Forall (fun a => length a <= length shares)%nat (idx :: L) ->
  search_subsets fuel tx shares idx = first_open tx shares (take fuel (idx :: L)).
Proof.
  revert idx L. induction fuel as [|fuel IH]; intros idx L [Hs HC] [Hl HF]%Forall_cons; [done|].
  cbn [search_subsets take]. unfold first_open. cbn [omap list_omap]. unfold attempt at 1.
  change (omap (fun i => shares !! i) idx) with (pick shares idx). destruct (Tx.open _ _) as [txn|er]; [done|].
  rewrite next_combination_successor, Hs by done. destruct L as [|b L]; [by destruct fuel|].
  by apply IH.
Qed.

Lemma open_from_subset_first tx shares t : (t <= length shares)%nat ->
  open_from_subset tx shares t =
    match Tx.open tx shares with
    | Ok txn => Some txn
    | Err _ => first_open tx shares (take MAX_REVEAL_SUBSETS (combos t 0 (length shares)))
    end.
Proof.
  intros Ht. unfold open_from_subset. rewrite (proj2 (Nat.ltb_ge _ _)) by done.
  destruct (Tx.open tx shares) as [|er]; [done|]. destruct (head_combos t 0 (length shares)) as [L E]; [lia|].
  rewrite E. apply search_chain; rewrite <- E; [by apply chain_combos|].
  apply Forall_forall. intros a [-> _]%elem_of_combos. done.
Qed.

Lemma first_open_Some tx shares L txn : first_open tx shares L = Some txn ->
  exists idx, idx ∈ L /\ Tx.open tx (pick shares idx) = Ok txn.
Proof.
  intros E%head_Some_elem_of%list_elem_of_omap. destruct E as (idx & Hi & Ha). exists idx. split; [done|].
  unfold attempt in Ha. destruct (Tx.open _ _); by simplify_eq.
Qed.

Lemma first_open_None tx shares L : first_open tx shares L = None ->
  forall idx, idx ∈ L -> attempt tx shares idx = None.
Proof.
  intros E idx Hi. destruct (attempt tx shares idx) as [txn|] eqn:Ea; [|done].
  assert (Hin : txn ∈ omap (attempt tx shares) L) by (apply list_elem_of_omap; eauto).
  unfold first_open in E. destruct (omap _ L); [by apply elem_of_nil in Hin|done].
Qed.

Lemma pick_sublist shares idx n : increasing 0 n idx -> pick shares idx `sublist_of` shares.
Proof.
  enough (forall lo, increasing lo n idx -> pick shares idx `sublist_of` drop lo shares) as Hx
    by (intros Hi; rewrite <- (drop_0 shares) at 2; by apply Hx).
  induction idx as [|x idx IH]; intros lo; simpl; [intros _; apply sublist_nil_l|]. intros [Hx Hi].
  specialize (IH _ Hi). unfold pick. cbn [omap list_omap]. replace lo with (lo + 0)%nat by lia.
  assert (Hd : drop x shares `sublist_of` drop lo shares).
  { replace x with (lo + (x - lo))%nat by lia. rewrite <- drop_drop. apply sublist_drop. }
  rewrite Nat.add_0_r. etrans; [|exact Hd]. destruct (shares !! x) as [s|] eqn:Es.
  - rewrite (drop_S _ _ _ Es). by apply sublist_skip.
  - etrans; [exact IH|]. replace (Datatypes.S x) with (x + 1)%nat by lia. rewrite <- drop_drop. apply sublist_drop.
Qed.

Lemma increasing_S lo n idx : increasing lo n idx -> increasing (Datatypes.S lo) (Datatypes.S n) (Datatypes.S <$> idx).
Proof. revert lo. induction idx as [|x idx IH]; intros lo; simpl; [done|]. intros [Hx Hi]. split; [lia|by apply IH]. Qed.

Lemma increasing_weaken lo lo' n idx : (lo' <= lo)%nat -> increasing lo n idx -> increasing lo' n idx.
Proof. destruct idx; simpl; [done|]. intros Hl [Hx Hi]. split; [lia|done]. Qed.

Lemma pick_S s shares idx : pick (s :: shares) (Datatypes.S <$> idx) = pick shares idx.
Proof.
  induction idx as [|x idx IH]; [done|]. unfold pick in *. cbn [fmap list_fmap omap list_omap lookup list_lookup].
  by rewrite IH.
Qed.

(** Every sublist is a selection by increasing positions. *)
Lemma sublist_pick sel shares : sel `sublist_of` shares ->
  exists idx, length idx = length sel /\ increasing 0 (length shares) idx /\ pick shares idx = sel.
Proof.
  induction 1 as [|x sel shares Hs (idx & H1 & H2 & H3)|x sel shares Hs (idx & H1 & H2 & H3)].
  - by exists [].
  - exists (0 :: (Datatypes.S <$> idx))%nat. cbn [length increasing]. rewrite length_fmap, H1. split; [done|].
    split; [split; [lia|by apply increasing_S]|].
    change (pick (x :: shares) (0%nat :: (Datatypes.S <$> idx))) with (x :: pick (x :: shares) (Datatypes.S <$> idx)).
    by rewrite pick_S, H3.
  - exists (Datatypes.S <$> idx). rewrite length_fmap. split; [done|]. rewrite pick_S. split; [|done].
    apply (increasing_weaken 1); [lia|]. by apply increasing_S.
Qed.

(** With few enough subsets, a selection that opens is found, in spite of the other shares. *)
Lemma search_complete tx shares t sel txn : (choose (length shares) t <= N.of_nat MAX_REVEAL_SUBSETS)%N ->
  sel `sublist_of` shares -> length sel = t -> Tx.open tx sel = Ok txn -> is_Some (open_from_subset tx shares t).
Proof.
  intros Hc Hs Hl Ho. pose proof (sublist_length _ _ Hs) as Hle. rewrite open_from_subset_first by lia.
  destruct (Tx.open tx shares); [by eexists|]. rewrite take_ge.
  - destruct (first_open _ _ _) as [x|] eqn:E; [by eexists|]. exfalso.
    destruct (sublist_pick _ _ Hs) as (idx & H1 & H2 & H3).
    assert (Hn : attempt tx shares idx = None).
    { eapply first_open_None; [exact E|]. apply elem_of_combos. split; [by rewrite H1|done]. }
    unfold attempt in Hn. by rewrite H3, Ho in Hn.
  - pose proof (length_combos t 0 (length shares)) as E. rewrite Nat.sub_0_r in E. lia.
Qed.

(** What the search returns comes from at least [t] of the shares. *)
Lemma search_sound tx shares t txn : open_from_subset tx shares t = Some txn ->
  exists sel, sel `sublist_of` shares /\ (t <= length sel)%nat /\ Tx.open tx sel = Ok txn.
Proof.
  intros E. assert (Ht : (t <= length shares)%nat).
  { unfold open_from_subset in E. destruct (Nat.ltb_spec (length shares) t); [done|lia]. }
  rewrite open_from_subset_first in E by done. destruct (Tx.open tx shares) as [x|] eqn:Eo.
  - injection E as ->. by exists shares.
  - apply first_open_Some in E as (idx & Hi & E). apply elem_of_take in Hi as (k & Hi%list_elem_of_lookup_2 & _).
    apply elem_of_combos in Hi as [Hl Hi].
    exists (pick shares idx). split; [by eapply pick_sublist|]. split; [|done].
    rewrite <- Hl. clear -Hi. revert Hi. generalize 0%nat. induction idx as [|x idx IH]; intros lo; simpl; [lia|].
    intros [Hx Hi%IH]. destruct (lookup_lt_is_Some_2 shares x) as [s Es]; [lia|].
    unfold pick in *. cbn [omap list_omap]. rewrite Es. simpl. lia.
Qed.

End search.

(** ** Iterating a map by key *)

Lemma zlist_elem {V} (m : gmap Z V) k v : (k, v) ∈ zlist m <-> m !! k = Some v.
Proof. unfold zlist. rewrite merge_sort_Permutation. apply elem_of_map_to_list. Qed.

Lemma zlist_keys_NoDup {V} (m : gmap Z V) : base.NoDup (zlist m).*1.
Proof. unfold zlist. rewrite merge_sort_Permutation. apply NoDup_fst_map_to_list. Qed.

#[local] Instance zkey_le_total {V} : Total (@zkey_le V).
Proof. intros a b. unfold zkey_le. lia. Qed.

#[local] Instance zkey_le_trans {V} : Transitive (@zkey_le V).
Proof. intros a b c. unfold zkey_le. lia. Qed.

(** The least key comes first. *)
Lemma zlist_least {V} (m : gmap Z V) k v : m !! k = Some v -> (forall k' v', m !! k' = Some v' -> k <= k') ->
  exists l, zlist m = (k, v) :: l /\ forall kv, kv ∈ l -> m !! kv.1 = Some kv.2 /\ kv.1 <> k.
Proof.
  intros Hk Hmin. pose proof (StronglySorted_merge_sort zkey_le (map_to_list m)) as HS.
  pose proof (zlist_keys_NoDup m) as HN. apply zlist_elem in Hk as Hin. change (StronglySorted zkey_le (zlist m)) in HS.
  destruct (zlist m) as [|[k0 v0] l] eqn:E; [by apply elem_of_nil in Hin|].
  apply StronglySorted_inv in HS as [_ HF]. rewrite fmap_cons in HN. apply NoDup_cons in HN as [Hni HN].
  assert (H0 : m !! k0 = Some v0) by (apply zlist_elem; rewrite E; by left).
  assert (Hkk : k0 = k).
  { apply Hmin in H0 as Hle. apply elem_of_cons in Hin as [[= -> ->]|Hin]; [done|].
    rewrite List.Forall_forall in HF. apply list_elem_of_In, HF in Hin. unfold zkey_le in Hin. simpl in Hin. lia. }
  subst k0. assert (v0 = v) as -> by congruence. exists l. split; [done|]. intros [k' v'] Hl. split.
  - apply zlist_elem. rewrite E. by right.
  - simpl. intros ->. apply Hni. apply list_elem_of_fmap. by exists (k, v').
Qed.

Lemma length_zlist {V} (m : gmap Z V) : length (zlist m) = size m.
Proof. unfold zlist. by rewrite merge_sort_Permutation, length_map_to_list. Qed.

Lemma filter_keys_NoDup {V} (P : Z * V -> Prop) `{!forall x, Decision (P x)} (l : list (Z * V)) :
  base.NoDup l.*1 -> base.NoDup (filter P l).*1.
Proof. intros Hl. eapply sublist_NoDup; [exact Hl|]. apply fmap_sublist, sublist_filter. Qed.

Section sealed.
  Context `{CryptoLaws} `{KemLaws}.

(** Another key than the sealing key opens the ciphertext: the cipher is broken. *)
Definition second_key (seed : list Z) (s : Tx.SealedTx) : Prop :=
  exists key p, key <> hash_labeled Tx.KEY_LABEL seed /\
    Kem.aead_open key (Threshold.nonce (Tx.sealed s)) (Threshold.ciphertext (Tx.sealed s)) = Some p.

Lemma seal_inv tx ep publics t seed s : Tx.seal tx ep publics t seed = Ok s ->
  exists nc, Threshold.seal (Tx.payload tx) (hash_labeled Tx.KEY_LABEL seed) nc t publics
    (blake3_xof (labeled_hasher Tx.RND_LABEL seed) 0 (Z.to_nat (sat_sub t 1) * 32)) (hash_labeled Tx.KEM_LABEL seed) =
    Ok (Tx.sealed s).
Proof.
  unfold Tx.seal. intros (nc & _ & (x & Hx & [= <-])%rbind_Ok)%rbind_Ok. by exists nc.
Qed.

(** Whatever opens a sealed transaction opens it to itself. *)
Lemma open_is_original tx ep publics secrets t seed s sel txn : 0 <= t -> Forall2 Kem.pair secrets publics ->
  Tx.seal tx ep publics t seed = Ok s -> Tx.open s sel = Ok txn -> txn = tx \/ second_key seed s.
Proof.
  intros Ht Hp (nc & Hs)%seal_inv Ho. destruct (Threshold.seal_shares _ _ _ _ _ _ _ _ _ Ht Hp Hs) as (_ & _ & Hn & Hc & _).
  unfold Tx.open in Ho. apply rbind_Ok in Ho as (p & Ho & [= <-]). unfold Threshold.open in Ho.
  apply rbind_Ok in Ho as (key & _ & Ho). destruct (negb _); [done|].
  apply ok_or_Ok in Ho. destruct (decide (key = hash_labeled Tx.KEY_LABEL seed)) as [->|Hk].
  - left. unfold Kem.aead_seal in Hc. apply chacha_roundtrip in Hc. unfold Kem.aead_open in Ho. rewrite Hn, Hc in Ho.
    injection Ho as <-. by destruct tx.
  - right. by exists key, p.
Qed.

(** The entries of a map under the members [who]. *)
Definition entries_of (who : list nat) (m : gmap Z Shamir.Share) : list (Z * Shamir.Share) :=
  filter (fun kv => kv.1 ∈ (Z.of_nat <$> who)) (zlist m).

Lemma entries_keys who m : base.NoDup who -> (forall i, i ∈ who -> is_Some (m !! Z.of_nat i)) ->
  (entries_of who m).*1 ≡ₚ Z.of_nat <$> who.
Proof.
  intros Hnd Hin. apply NoDup_Permutation.
  - apply filter_keys_NoDup, zlist_keys_NoDup.
  - by apply NoDup_fmap_2; [apply _|].
  - intros k. rewrite list_elem_of_fmap. split.
    + intros ([k' v] & -> & [Hk _]%list_elem_of_filter). done.
    + intros Hk. apply list_elem_of_fmap in Hk as Hi. destruct Hi as (i & -> & [v Hv]%Hin).
      exists (Z.of_nat i, v). split; [done|]. apply list_elem_of_filter. split; [done|]. by apply zlist_elem.
Qed.

(** The genuine shares of [t] members, in the order the map gives them, open the transaction. *)
Lemma entries_open tx ep publics secrets t seed s who m : 0 <= t -> Forall2 Kem.pair secrets publics ->
  Tx.seal tx ep publics t seed = Ok s -> base.NoDup who -> t <= Z.of_nat (length who) ->
  (forall i, i ∈ who -> exists sk sh, secrets !! i = Some sk /\ Tx.member_share s i sk = Some sh /\ m !! Z.of_nat i = Some sh) ->
  Tx.open s (entries_of who m).*2 = Ok tx.
Proof.
  intros Ht Hp (nc & Hs)%seal_inv Hnd Hl Hin.
  assert (Hk : (entries_of who m).*1 ≡ₚ Z.of_nat <$> who).
  { apply entries_keys; [done|]. intros i (sk & sh & _ & _ & E)%Hin. by eexists. }
  assert (Hw : (Z.to_nat <$> (entries_of who m).*1) ≡ₚ who).
  { rewrite Hk, <- list_fmap_compose. enough (E : (Z.to_nat ∘ Z.of_nat <$> who) = who) by (by rewrite E).
    rewrite <- (list_fmap_id who) at 2. apply list_fmap_ext. intros j i _. unfold compose. simpl. lia. }
  destruct (Threshold.quorum_opens _ _ _ _ _ _ _ _ _ (Z.to_nat <$> (entries_of who m).*1) Hp (hash_labeled_bytes _ _)
    (hash_labeled_length _ _) (blake3_xof_bytes _ _ _) Ht Hs) as (shares & Hm & Ho).
  - by rewrite Hw.
  - intros i. rewrite Hw. intros (sk & sh & Hsk & _)%Hin. apply lookup_lt_Some in Hsk.
    by rewrite (Forall2_length _ _ _ Hp) in Hsk.
  - rewrite length_fmap, <- (length_fmap Z.to_nat), Hw. done.
  - replace (entries_of who m).*2 with shares; [unfold Tx.open; rewrite Ho; by destruct tx|].
    apply mapM_Some_1 in Hm. symmetry. apply list_eq. intros j. rewrite list_lookup_fmap.
    destruct (entries_of who m !! j) as [[k v]|] eqn:Ej; simpl.
    + assert (Hj : (Z.to_nat <$> (entries_of who m).*1) !! j = Some (Z.to_nat k)) by (by rewrite !list_lookup_fmap, Ej).
      destruct (Forall2_lookup_l _ _ _ _ _ Hm Hj) as (sh & -> & Hsh). f_equal.
      apply list_elem_of_lookup_2, list_elem_of_filter in Ej as [(i & E & Hi)%list_elem_of_fmap Hv%zlist_elem].
      simpl in E. subst k. destruct (Hin i Hi) as (sk & sh' & Hsk & Hms & Hmi). rewrite Nat2Z.id, Hsk in Hsh. simpl in Hsh.
      unfold Tx.member_share in Hms. congruence.
    + symmetry. apply lookup_ge_None. apply Forall2_length in Hm. apply lookup_ge_None in Ej.
      rewrite <- Hm, !length_fmap. done.
Qed.

Lemma member_share_len tx ep publics secrets t seed s i sk sh : 0 <= t -> Forall2 Kem.pair secrets publics ->
  Tx.seal tx ep publics t seed = Ok s -> secrets !! i = Some sk -> Tx.member_share s i sk = Some sh ->
  length (Shamir.sy sh) = 32%nat.
Proof.
  intros Ht Hp (nc & Hs)%seal_inv Hi Hm.
  destruct (Threshold.seal_shares _ _ _ _ _ _ _ _ _ Ht Hp Hs) as (Hn & _ & _ & _ & shares & Hsh & Hx).
  destruct (Threshold.split_length _ _ _ _ _ Hsh Ht) as (Htn & _ & Hrl).
  destruct (Shamir.split_selection _ _ t (Z.of_nat (length publics)) (hash_labeled_bytes Tx.KEY_LABEL seed)
    (blake3_xof_bytes (labeled_hasher Tx.RND_LABEL seed) 0 (Z.to_nat (sat_sub t 1) * 32)) Htn)
    as (shares' & Hsh' & _ & Hshape & _); [lia|exact Hrl|].
  rewrite Hsh' in Hsh. injection Hsh as ->. destruct (Hx i sk Hi) as [_ E]. unfold Tx.member_share in Hm. rewrite E in Hm.
  destruct (Hshape _ _ Hm) as (_ & -> & _). apply hash_labeled_length.
Qed.

End sealed.

(** ** The claims *)

Section claims.
  Context `{CryptoLaws} `{KemLaws}.

Lemma small_cells k : (k <= 7)%nat -> (choose k 3 <= N.of_nat MAX_REVEAL_SUBSETS)%N.
Proof.
  intros Hk. assert (HF : forallb (fun k => choose k 3 <=? N.of_nat MAX_REVEAL_SUBSETS)%N (seq 0 8) = true) by (vm_compute; reflexivity).
  rewrite forallb_forall in HF. apply N.leb_le, HF, in_seq. lia.
Qed.

Lemma order_three_cells k : (k <= 13)%nat -> (choose k 5 <= N.of_nat MAX_REVEAL_SUBSETS)%N.
Proof.
  intros Hk. assert (HF : forallb (fun k => choose k 5 <=? N.of_nat MAX_REVEAL_SUBSETS)%N (seq 0 14) = true) by (vm_compute; reflexivity).
  rewrite forallb_forall in HF. apply N.leb_le, HF, in_seq. lia.
Qed.

(** In a cell of order two or three the search has tries enough for every subset. *)
Lemma searchable_cell q0 cell k : q0 <= 3 -> Params.for_order q0 = Some cell -> Z.of_nat k <= Params.n cell ->
  (choose k (Z.to_nat (Params.seal_threshold cell)) <= N.of_nat MAX_REVEAL_SUBSETS)%N.
Proof.
  intros Hq Hc. assert (Hq2 : q0 = 2 \/ q0 = 3).
  { unfold Params.for_order in Hc. destruct (Z.ltb_spec q0 2); [done|lia]. }
  destruct Hq2 as [-> | ->]; vm_compute in Hc; injection Hc as <-; intros Hk; simpl in Hk.
  - apply small_cells. lia.
  - apply order_three_cells. lia.
Qed.

(** Once the openings committed for a transaction include the genuine shares of a threshold of
    members, the search opens it. *)
Lemma genuine_quorum_opens (q0 : Z) (cell : Params.CellParams) tx ep publics secrets seed s
    (committed : btree (gmap Z Shamir.Share)) (m : gmap Z Shamir.Share) (who : list nat) :
  q0 <= 3 -> Params.for_order q0 = Some cell -> Forall2 Kem.pair secrets publics ->
  Tx.seal tx ep publics (Params.seal_threshold cell) seed = Ok s ->
  committed !! Tx.commit s = Some m -> Z.of_nat (size m) <= Params.n cell ->
  base.NoDup who -> Z.of_nat (length who) = Params.seal_threshold cell ->
  (forall i, i ∈ who -> exists sk sh, secrets !! i = Some sk /\ Tx.member_share s i sk = Some sh /\ m !! Z.of_nat i = Some sh) ->
  exists txn, opens (Z.to_nat (Params.seal_threshold cell)) committed s = Some txn /\ (txn = tx \/ second_key seed s).
Proof.
  intros Hq Hc Hp Hs Hm Hsz Hnd Hl Hin. set (t := Z.to_nat (Params.seal_threshold cell)).
  assert (Ho : Tx.open s (entries_of who m).*2 = Ok tx) by (eapply entries_open; eauto; lia).
  assert (Hen : length (entries_of who m).*2 = t).
  { rewrite length_fmap, <- (length_fmap fst), entries_keys, length_fmap by (try done; intros i (?&?&?&?&?)%Hin; by eexists). lia. }
  assert (Hsub : (entries_of who m).*2 `sublist_of` (zlist m).*2) by (apply fmap_sublist, sublist_filter).
  assert (Hx : is_Some (opens t committed s)).
  { unfold opens, shares_for. rewrite Hm. simpl. pose proof (sublist_length _ _ Hsub). rewrite (proj2 (Nat.leb_le _ _)) by lia.
    eapply search_complete; [|exact Hsub|exact Hen|exact Ho].
    eapply searchable_cell; [done..|]. by rewrite length_fmap, length_zlist. }
  destruct Hx as [txn Hx]. exists txn. split; [done|]. unfold opens in Hx. destruct (_ <=? _)%nat; [|done].
  apply search_sound in Hx as (sel & _ & _ & E). eapply open_is_original; eauto; lia.
Qed.

Lemma keyper_seal_inv r tx ep cell seed s : Keyper.seal_to_keyper_committee r tx ep cell seed = Ok s ->
  exists keys, Keyper.committee_keys r cell = Some keys /\ Tx.seal tx ep keys (Params.seal_threshold cell) seed = Ok s.
Proof.
  unfold Keyper.seal_to_keyper_committee. destruct (negb _ || negb _); [done|].
  intros (keys & Hk%ok_or_Ok & Hs)%rbind_Ok. by exists keys.
Qed.

Lemma derived_seal q0 cell : q0 < 2 ^ 31 -> Params.for_order q0 = Some cell ->
  0 <= Params.seal_threshold cell /\ 0 <= Params.n cell.
Proof.
  intros Hq Hc. destruct (Params.small_params q0 cell Hq Hc) as (? & _ & ? & ? & _ & ? & _).
  unfold Params.seal_threshold. cbv zeta. case_match; lia.
Qed.

(** C26: what a client seals is admitted and opens.  A transaction sealed through the registry of a
    cell passes the engine's admission check; and in a cell of order two or three, once the openings
    committed for it include the genuine shares of a threshold of members and stand under at most as many
    names as the cell has members, it opens whatever the other names contributed, to the transaction that
    was sealed unless a second key opens the ciphertext.  (Blocks may commit openings under any of 256
    names, and more names than members can exhaust the subsets that are tried:
    [bad_first_share_blocks].) *)
Theorem client_transaction_opens {S : Type} `{!StateMachine S} (e : Engine S) (q0 : Z) (registry : Keyper.KeyperRegistry) tx secrets seed s :
  Keyper.seal_to_keyper_committee registry tx (cf_epoch (cfg e)) (cf_params (cfg e)) seed = Ok s ->
  Forall2 Kem.pair secrets
    (Keyper.kem_public <$> take (Z.to_nat (Params.seal_committee_size (cf_params (cfg e)))) (Keyper.certs registry)) ->
  q0 < 2 ^ 31 -> Params.for_order q0 = Some (cf_params (cfg e)) ->
  valid_seal s e = true /\
  forall (committed : btree (gmap Z Shamir.Share)) (m : gmap Z Shamir.Share) (who : list nat),
    q0 <= 3 ->
    committed !! Tx.commit s = Some m -> Z.of_nat (size m) <= Params.n (cf_params (cfg e)) ->
    base.NoDup who -> Z.of_nat (length who) = Params.seal_threshold (cf_params (cfg e)) ->
    (forall i, i ∈ who -> exists sk sh, secrets !! i = Some sk /\ Tx.member_share s i sk = Some sh /\ m !! Z.of_nat i = Some sh) ->
    exists txn, opens (seal_threshold e) committed s = Some txn /\ (txn = tx \/ second_key seed s).
Proof.
  intros (keys & Hk & Hs)%keyper_seal_inv Hp Hq Hc. apply Keyper.committee_keys_prefix in Hk as [Hl ->]. split.
  - unfold valid_seal. apply andb_true_iff. unfold Tx.seal in Hs. apply rbind_Ok in Hs as (nc & _ & Hs).
    apply rbind_Ok in Hs as (x & Hx & [= <-]). cbn [Tx.epoch]. rewrite Z.eqb_refl. split; [done|].
    destruct (derived_seal _ _ Hq Hc) as [Ht Hn].
    destruct (Threshold.seal_shares _ _ _ _ _ _ _ _ _ Ht Hp Hx) as (_ & Hm & _).
    unfold Tx.member_count. cbn [Tx.sealed]. rewrite Hm, Hl. unfold Params.seal_committee_size. apply Z.eqb_eq. lia.
  - intros committed m who Hq3 Hm Hsz Hnd Hlen Hin. eapply genuine_quorum_opens; eauto.
Qed.

(** ** When the search is not enough *)

(** Shares of unequal length never open anything. *)
Lemma unequal_shares_fail s bad rest sh : sh ∈ rest -> length (Shamir.sy sh) <> length (Shamir.sy bad) ->
  exists er, Tx.open s (bad :: rest) = Err er.
Proof.
  intros Hin Hl. unfold Tx.open, Threshold.open, Shamir.reconstruct. cbn [head ok_or rbind].
  rewrite (proj2 (existsb_exists _ _)); [by eexists|]. exists sh. split; [apply list_elem_of_In; by right|].
  by rewrite (proj2 (Nat.eqb_neq _ _) Hl).
Qed.

(** The tries all include the first share when the others have that many subsets. *)
Lemma first_tries t n : (N.of_nat MAX_REVEAL_SUBSETS <= choose n t)%N ->
  forall idx, idx ∈ take MAX_REVEAL_SUBSETS (combos (Datatypes.S t) 0 (Datatypes.S n)) ->
  exists l, idx = 0%nat :: l /\ length l = t /\ increasing 1 (Datatypes.S n) l.
Proof.
  intros Hc idx Hi. pose proof (length_combos t 1 (Datatypes.S n)) as Hl.
  replace (Datatypes.S n - 1)%nat with n in Hl by lia. set (k := MAX_REVEAL_SUBSETS) in *.
  assert (Hlen : (k <= length (combos t 1 (Datatypes.S n)))%nat) by (specialize (Hl ltac:(lia)); clearbody k; lia).
  assert (Hne : (Datatypes.S t <= Datatypes.S n)%nat).
  { destruct (decide (t <= n)%nat); [lia|]. destruct t as [|t]; [lia|]. rewrite combos_none in Hlen by lia.
    unfold k, MAX_REVEAL_SUBSETS in Hlen. simpl in Hlen. lia. }
  rewrite combos_unfold, take_app_le in Hi by (rewrite ?length_fmap; lia).
  rewrite <- fmap_take in Hi. apply list_elem_of_fmap in Hi as (l & -> & (j & Hj%list_elem_of_lookup_2 & _)%elem_of_take).
  exists l. split; [done|]. by apply elem_of_combos.
Qed.

Lemma bad_first_share_blocks s bad rest t : (N.of_nat MAX_REVEAL_SUBSETS <= choose (length rest) (Datatypes.S t))%N ->
  Forall (fun sh => length (Shamir.sy sh) <> length (Shamir.sy bad)) rest ->
  open_from_subset s (bad :: rest) (Datatypes.S (Datatypes.S t)) = None.
Proof.
  intros Hc HF. destruct (decide (length (bad :: rest) < Datatypes.S (Datatypes.S t))%nat) as [Hlt|Hge].
  { unfold open_from_subset. by rewrite (proj2 (Nat.ltb_lt _ _) Hlt). }
  rewrite open_from_subset_first by lia.
  destruct rest as [|r rest]; [simpl in Hge; lia|]. apply Forall_cons in HF as HF'. destruct HF' as [Hr _].
  destruct (unequal_shares_fail s bad (r :: rest) r) as [er ->]; [by left|done|].
  destruct (first_open _ _ _) as [txn|] eqn:E; [|done]. exfalso.
  apply first_open_Some in E as (idx & Hi & Ho).
  change (length (bad :: r :: rest)) with (Datatypes.S (length (r :: rest))) in Hi.
  destruct (first_tries _ _ Hc idx Hi) as (l & -> & Hl & Hinc). destruct l as [|x l]; [done|]. destruct Hinc as [Hx _].
  destruct (lookup_lt_is_Some_2 (bad :: r :: rest) x) as [sh Hsh]; [simpl in *; lia|].
  assert (Hp : pick (bad :: r :: rest) (0%nat :: x :: l) = bad :: sh :: pick (bad :: r :: rest) l).
  { unfold pick. cbn [omap list_omap]. rewrite Hsh. done. }
  rewrite Hp in Ho. destruct (unequal_shares_fail s bad (sh :: pick (bad :: r :: rest) l) sh) as [er' E']; [by left| |by rewrite E' in Ho].
  destruct x as [|x]; [lia|]. simpl in Hsh. apply list_elem_of_lookup_2 in Hsh. rewrite Forall_forall in HF. by apply HF.
Qed.

Lemma twenty_choose_six k : (15 <= k <= 20)%nat -> (N.of_nat MAX_REVEAL_SUBSETS <= choose k 6)%N.
Proof.
  intros Hk. assert (HF : forallb (fun k => N.of_nat MAX_REVEAL_SUBSETS <=? choose k 6)%N (seq 15 6) = true) by (vm_compute; reflexivity).
  rewrite forallb_forall in HF. apply N.leb_le, HF, in_seq. lia.
Qed.

(** One false share can keep a transaction closed in a larger cell.  In the cell of order four
    (21 members, threshold 7) let member 0 contribute a share of the wrong length and every other
    member its genuine one.  The other twenty shares open the transaction, but every subset the
    search has the tries for contains the false share, so the search gives up. *)
Theorem one_false_share_blocks_order_four (cell : Params.CellParams) tx ep publics secrets seed s
    (committed : btree (gmap Z Shamir.Share)) (m : gmap Z Shamir.Share) (bad : Shamir.Share) :
  Params.for_order 4 = Some cell -> Forall2 Kem.pair secrets publics -> length publics = 21%nat ->
  Tx.seal tx ep publics (Params.seal_threshold cell) seed = Ok s ->
  committed !! Tx.commit s = Some m ->
  m !! 0 = Some bad -> length (Shamir.sy bad) <> 32%nat ->
  (forall k sh, m !! k = Some sh -> 0 <= k <= 20) ->
  (forall i, i ∈ seq 1 20 -> exists sk sh, secrets !! i = Some sk /\ Tx.member_share s i sk = Some sh /\ m !! Z.of_nat i = Some sh) ->
  opens (Z.to_nat (Params.seal_threshold cell)) committed s = None /\
  Tx.open s (entries_of (seq 1 20) m).*2 = Ok tx.
Proof.
  intros Hc Hp Hn Hs Hm Hz Hb Hk Hin. vm_compute in Hc. injection Hc as <-.
  change (Params.seal_threshold _) with 7 in *. split.
  - destruct (zlist_least m 0 bad Hz) as (l & El & Hl); [intros k' v' Hk'; apply Hk in Hk'; lia|].
    assert (Hrest : forall kv, kv ∈ l -> exists i sk, i ∈ seq 1 20 /\ kv.1 = Z.of_nat i /\ secrets !! i = Some sk /\
      Tx.member_share s i sk = Some kv.2).
    { intros kv [Hv Hne]%Hl. pose proof (Hk _ _ Hv) as Hr. assert (Hi : Z.to_nat kv.1 ∈ seq 1 20) by (apply elem_of_seq; lia).
      destruct (Hin _ Hi) as (sk & sh & E1 & E2 & E3). rewrite Z2Nat.id in E3 by lia. exists (Z.to_nat kv.1), sk.
      split; [done|]. split; [lia|]. split; [done|]. congruence. }
    unfold opens, shares_for. rewrite Hm. cbn [fmap option_fmap option_map default id]. rewrite El, fmap_cons. cbn [snd].
    case_match; [|done]. change (Z.to_nat 7) with 7%nat. apply (bad_first_share_blocks s bad l.*2 5).
    + apply twenty_choose_six. rewrite length_fmap. split.
      * assert (Hsub : (Z.of_nat <$> seq 1 20) ⊆+ l.*1).
        { apply NoDup_submseteq; [apply NoDup_fmap_2, NoDup_seq; apply _|]. intros k (i & -> & Hi)%list_elem_of_fmap.
          destruct (Hin i Hi) as (_ & sh & _ & _ & E). apply elem_of_seq in Hi. apply zlist_elem in E. rewrite El in E.
          apply elem_of_cons in E as [[= E _]|E]; [lia|]. apply list_elem_of_fmap. by exists (Z.of_nat i, sh). }
        apply submseteq_length in Hsub. rewrite !length_fmap, length_seq in Hsub. lia.
      * assert (Hsub : l.*1 ⊆+ (Z.of_nat <$> seq 1 20)).
        { pose proof (zlist_keys_NoDup m) as HN. rewrite El, fmap_cons in HN. apply NoDup_cons in HN as [_ HN].
          apply NoDup_submseteq; [done|]. intros k (kv & -> & (i & _ & Hi & -> & _)%Hrest)%list_elem_of_fmap.
          apply list_elem_of_fmap. by exists i. }
        apply submseteq_length in Hsub. rewrite !length_fmap, length_seq in Hsub. lia.
    + apply Forall_forall. intros sh (kv & -> & (i & sk & _ & _ & Hsk & Hms)%Hrest)%list_elem_of_fmap.
      rewrite (member_share_len tx ep publics secrets 7 seed s i sk kv.2); [by intros E; apply Hb|lia|done..].
  - eapply entries_open; [|exact Hp|exact Hs|apply NoDup_seq|simpl; lia|exact Hin]. lia.
Qed.

End claims.

(** ** Openings a proposer made up *)

(** Openings for one transaction in the name of every possible member, each without content. *)
Definition stuffing (commit : list Z) : list Block.CommittedReveal :=
  (fun i => Block.mk_reveal commit i [i]) <$> seqZ 0 256.

Section stuffed.
  Context `{Crypto} `{KemCrypto}.

(** The entries recorded for one transaction. *)
Definition held (c : list Z) (out : btree (gmap Z Shamir.Share)) : gmap Z Shamir.Share := default ∅ (out !! c).

Definition hollow (m : gmap Z Shamir.Share) : Prop := forall i sh, m !! i = Some sh -> Shamir.sy sh = [].

Lemma hollow_shares_fail s sel : Forall (fun sh => Shamir.sy sh = []) sel -> exists er, Tx.open s sel = Err er.
Proof.
  intros HF. unfold Tx.open, Threshold.open, Shamir.reconstruct. destruct sel as [|sh sel]; [by eexists|].
  cbn [head ok_or rbind]. destruct (existsb _ _); [by eexists|]. destruct (Shamir.has_duplicate _); [by eexists|].
  apply Forall_cons in HF as [-> _]. unfold Shamir.weighted_sum. cbn [length replicate Threshold.map_err rbind].
  assert (E : forall l, foldl (fun acc (jxy : nat * (Z * list Z)) => let '(j, (x, y)) := jxy in
    Shamir.accumulate (Shamir.lagrange_coeff (Shamir.sx <$> sh :: sel) j x) acc y) [] l = []).
  { induction l as [|[j [x y]] l IH]; [done|]. exact IH. }
  rewrite E. by eexists.
Qed.

Lemma hollow_stays_closed t s committed : hollow (held (Tx.commit s) committed) -> opens t committed s = None.
Proof.
  intros Hh. destruct (opens t committed s) as [txn|] eqn:E; [|done]. unfold opens in E. destruct (_ <=? _)%nat; [|done].
  apply search_sound in E as (sel & Hsub & _ & Ho).
  destruct (hollow_shares_fail s sel) as [er E]; [|by rewrite E in Ho]. apply Forall_forall. intros sh Hin.
  apply sublist_submseteq, (elem_of_submseteq _ _ _ Hin) in Hsub. unfold shares_for in Hsub. unfold held in Hh.
  destruct (committed !! Tx.commit s) as [m|]; simpl in *; [|by apply elem_of_nil in Hsub].
  apply list_elem_of_fmap in Hsub as ([k v] & -> & Hk%zlist_elem). by eapply Hh.
Qed.

Lemma held_reveal c member share c' out : held c' (reveals_or_insert c member share out) =
  if bool_decide (c' = c) then match held c' out !! member with Some _ => held c' out | None => <[member := share]> (held c' out) end
  else held c' out.
Proof.
  unfold held, reveals_or_insert. case_bool_decide as E; [subst; by rewrite lookup_insert_eq|by rewrite lookup_insert_ne].
Qed.

Lemma fold_opening_keeps c rs out : (forall r, r ∈ rs -> 0 <= Block.cr_member r < 256) ->
  (forall i, 0 <= i < 256 -> is_Some (held c out !! i)) -> held c (fold_left fold_opening rs out) = held c out.
Proof.
  revert out. induction rs as [|r rs IH]; intros out Hr Hf; [done|]. cbn [fold_left].
  assert (E : held c (fold_opening out r) = held c out).
  { unfold fold_opening. destruct (Messages.share_from_bytes _); [|done]. rewrite held_reveal. case_bool_decide; [|done].
    destruct (Hf (Block.cr_member r)) as [x ->]; [apply Hr; by left|done]. }
  rewrite IH; [done| |by rewrite E]. intros r' Hr'. apply Hr. by right.
Qed.

Lemma fold_stuffing c l out : hollow (held c out) ->
  let out' := fold_left fold_opening ((fun i => Block.mk_reveal c i [i]) <$> l) out in
  hollow (held c out') /\ forall i, i ∈ l \/ is_Some (held c out !! i) -> is_Some (held c out' !! i).
Proof.
  revert out. induction l as [|x l IH]; intros out Hh; cbn [fmap list_fmap fold_left].
  { split; [done|]. intros i [Hi|Hi]; [by apply elem_of_nil in Hi|done]. }
  set (o1 := fold_opening out _). assert (E : held c o1 = match held c out !! x with Some _ => held c out
    | None => <[x := Shamir.mk_share x []]> (held c out) end).
  { unfold o1, fold_opening. cbn [Block.cr_share Block.cr_commit Block.cr_member Messages.share_from_bytes].
    rewrite held_reveal. by rewrite bool_decide_true. }
  assert (H1 : hollow (held c o1)).
  { rewrite E. destruct (held c out !! x); [done|]. intros i sh [[<- <-]|[_ Hi]]%lookup_insert_Some; [done|by eapply Hh]. }
  destruct (IH o1 H1) as [H2 H3]. split; [done|]. intros i [Hi|Hi]; apply H3.
  - apply elem_of_cons in Hi as [->|Hi]; [right|by left]. rewrite E. destruct (held c out !! x) eqn:Ex; [by rewrite Ex|].
    by rewrite lookup_insert_eq.
  - right. rewrite E. destruct (held c out !! x) eqn:Ex; [done|]. destruct (decide (i = x)) as [->|Hne]; [by rewrite lookup_insert_eq|].
    by rewrite lookup_insert_ne.
Qed.

(** Stuffed in the first block after it, a transaction never opens. *)
Lemma stuffed_never_opens t s h0 through (m : gmap Z (list Block.CommittedReveal)) :
  m !! (h0 + 1) = Some (stuffing (Tx.commit s)) ->
  (forall h rs r, m !! h = Some rs -> r ∈ rs -> 0 <= Block.cr_member r < 256) ->
  opens t (openings_in h0 through m) s = None.
Proof.
  intros Hm Hu. apply hollow_stays_closed. unfold openings_in. destruct (Z.leb_spec through h0) as [|Hlt].
  { unfold held. rewrite lookup_empty. intros i sh. simpl. by rewrite lookup_empty. }
  unfold committed_between. set (f := filter _ m).
  destruct (zlist_least f (h0 + 1) (stuffing (Tx.commit s))) as (l & -> & Hl).
  - apply map_lookup_filter_Some. split; [done|]. simpl. lia.
  - intros k v [_ Hk]%map_lookup_filter_Some. simpl in Hk. lia.
  - rewrite bind_cons. cbn [snd]. rewrite fold_left_app. unfold stuffing at 1.
    destruct (fold_stuffing (Tx.commit s) (seqZ 0 256) ∅) as [H1 H2].
    { unfold held. rewrite lookup_empty. intros i sh. simpl. by rewrite lookup_empty. }
    rewrite fold_opening_keeps; [done| |].
    + intros r (kv & Hr & [Hk _]%Hl)%list_elem_of_bind. apply map_lookup_filter_Some in Hk as [Hk _]. by eapply Hu.
    + intros i Hi. apply H2. left. apply elem_of_seqZ. lia.
Qed.

Lemma scan_to_last t b m finalized last hs tx : (forall h, h ∈ hs -> h <= finalized) -> tx ∈ Block.sealed_txs b ->
  (forall h, opens t (openings_in (Block.height (Block.header b)) h m) tx = None) ->
  scan_heights t b m finalized last hs = Some last.
Proof.
  intros Hf Htx Ho. induction hs as [|h hs IH]; [done|]. cbn [scan_heights].
  rewrite (proj2 (Z.ltb_ge _ _)) by (apply Hf; by left).
  assert (E : forallb (fun tx => bool_decide (is_Some (opens t (openings_in (Block.height (Block.header b)) h m) tx)))
    (Block.sealed_txs b) = false).
  { apply not_true_iff_false. rewrite forallb_forall. intros HF. apply list_elem_of_In in Htx. apply HF in Htx.
    apply bool_decide_eq_true in Htx. rewrite Ho in Htx. by apply is_Some_None in Htx. }
  rewrite E. apply IH. intros h' Hh'. apply Hf. by right.
Qed.

(** C38: one proposer can censor a finalized transaction.  The openings in a block are not signed,
    and the first one recorded for a member stays.  If the block that follows a transaction's block
    carries made-up openings in every member's name, the transaction never opens, whatever the
    members release later: its block waits for the whole reveal window and executes without it. *)
Theorem stuffed_openings_censor (t : nat) (b : Block.Block) (s : Tx.SealedTx)
    (m : gmap Z (list Block.CommittedReveal)) (next : Z) :
  let h0 := Block.height (Block.header b) in
  0 <= h0 < 2 ^ 64 - 5 -> s ∈ Block.sealed_txs b -> m !! (h0 + 1) = Some (stuffing (Tx.commit s)) ->
  (forall h rs r, m !! h = Some rs -> r ∈ rs -> 0 <= Block.cr_member r < 256) -> h0 + REVEAL_WINDOW < next ->
  execution_height_of t b m next = Some (h0 + REVEAL_WINDOW) /\
  forall through, opens t (openings_in h0 through m) s = None.
Proof.
  intros h0 Hh Hs Hm Hu Hn. assert (Ho : forall through, opens t (openings_in h0 through m) s = None).
  { intros through. by apply stuffed_never_opens. }
  split; [|done]. unfold execution_height_of. fold h0. unfold REVEAL_WINDOW in *. cbv zeta.
  assert (E : sat_add 64 h0 4 = h0 + 4) by (unfold sat_add; lia). rewrite E.
  rewrite (wrap_small 64 (h0 + 1)) by (unfold in_u; lia). eapply scan_to_last; [|exact Hs|exact Ho].
  intros h Hin%elem_of_seqZ. unfold sat_sub. lia.
Qed.

End stuffed.

(** ** Concrete cells *)

Definition w_tx : Tx.Transaction := Tx.mk_tx [1; 2; 3].
Definition w_secrets (n : nat) : list (@Kem.HybridKemSecret toy_kem) := fst <$> (Threshold.w_pair <$> seq 0 n).
Definition w_publics (n : nat) : list (@Kem.HybridKemPublic toy_kem) := snd <$> (Threshold.w_pair <$> seq 0 n).

(** The transaction sealed to a cell of [n] members. *)
Definition w_seal (n : nat) (t : Z) : result Tx.SealedTx Threshold.ThresholdError :=
  @Tx.seal toy_crypto toy_kem w_tx 1 (w_publics n) t [5].

Definition w_share (n : nat) (s : Tx.SealedTx) (i : nat) : option Shamir.Share :=
  letO sk := w_secrets n !! i in @Tx.member_share toy_crypto toy_kem s i sk.

(** What the members contribute: genuine shares from [who], false ones of one byte from the others. *)
Definition w_contributed (n : nat) (who : list nat) (s : Tx.SealedTx) : gmap Z Shamir.Share :=
  list_to_map ((fun i => (Z.of_nat i,
    if bool_decide (i ∈ who) then default (Shamir.mk_share 0 []) (w_share n s i)
    else Shamir.mk_share (Z.of_nat i + 1) [9])) <$> seq 0 n).

#[global] Instance Share_eq_dec : EqDecision Shamir.Share.
Proof. solve_decision. Defined.

(** Every member of [who] contributed its genuine share. *)
Definition w_genuine (n : nat) (who : list nat) (s : Tx.SealedTx) (m : gmap Z Shamir.Share) : bool :=
  forallb (fun i => match w_secrets n !! i with
    | Some sk => match @Tx.member_share toy_crypto toy_kem s i sk with
        | Some sh => bool_decide (m !! Z.of_nat i = Some sh)
        | None => false
        end
    | None => false
    end) who.

Lemma w_genuine_true n who s m : w_genuine n who s m = true -> forall i, i ∈ who ->
  exists sk sh, w_secrets n !! i = Some sk /\ @Tx.member_share toy_crypto toy_kem s i sk = Some sh /\ m !! Z.of_nat i = Some sh.
Proof.
  unfold w_genuine. rewrite forallb_forall. intros HF i Hi%list_elem_of_In%HF.
  destruct (w_secrets n !! i) as [sk|]; [|discriminate Hi].
  destruct (Tx.member_share s i sk) as [sh|] eqn:E; [|discriminate Hi]. apply bool_decide_eq_true in Hi. by exists sk, sh.
Qed.

Lemma w_pairs n : Forall2 (@Kem.pair toy_kem) (w_secrets n) (w_publics n).
Proof.
  unfold w_secrets, w_publics. apply Forall2_fmap, Forall_Forall2_diag, Forall_forall. intros p (i & -> & _)%list_elem_of_fmap.
  by eexists.
Qed.

(** The registry of the concrete cell seals; three of its seven members tell the truth. *)
Definition w_client : result Tx.SealedTx Threshold.ThresholdError :=
  @Keyper.seal_to_keyper_committee toy_crypto toy_kem TinyCell.founding w_tx 1 Params.FANO [5].

Lemma client_transaction_opens_witness :
  match w_client with
  | Ok s => valid_seal s (TinyCell.engine 0) = true /\
      exists txn, @opens toy_crypto toy_kem 3 {[@Tx.commit toy_crypto s := w_contributed 7 [1; 3; 6]%nat s]} s = Some txn /\
        (txn = w_tx \/ @second_key toy_crypto toy_kem [5] s)
  | Err _ => False
  end.
Proof.
  assert (Hc : match w_client with
    | Ok s => w_genuine 7 [1; 3; 6]%nat s (w_contributed 7 [1; 3; 6]%nat s) &&
        (size (w_contributed 7 [1; 3; 6]%nat s) <=? 7)%nat
    | Err _ => false end = true) by (vm_compute; reflexivity).
  destruct w_client as [s|] eqn:E; [|discriminate Hc]. apply andb_true_iff in Hc as [Hg Hz].
  destruct (@client_transaction_opens toy_crypto toy_laws toy_kem toy_kem_laws Accounts.Accounts _ (TinyCell.engine 0) 2
    TinyCell.founding w_tx (w_secrets 7) [5] s) as [Hv Ho].
  - exact E.
  - apply w_pairs.
  - lia.
  - vm_compute. reflexivity.
  - split; [exact Hv|]. apply (Ho _ (w_contributed 7 [1; 3; 6]%nat s) [1; 3; 6]%nat).
    + lia.
    + apply lookup_singleton_eq.
    + apply Nat.leb_le in Hz. change (Params.n _) with 7. lia.
    + by_decide.
    + reflexivity.
    + apply w_genuine_true. exact Hg.
Defined.

(** Twenty of twenty-one members tell the truth. *)
Lemma one_false_share_blocks_order_four_witness :
  match w_seal 21 7 with
  | Ok s => let m := w_contributed 21 (seq 1 20) s in
      @opens toy_crypto toy_kem 7 {[@Tx.commit toy_crypto s := m]} s = None /\ @Tx.open toy_kem s (entries_of (seq 1 20) m).*2 = Ok w_tx
  | Err _ => False
  end.
Proof.
  assert (Hc : match w_seal 21 7 with
    | Ok s => let m := w_contributed 21 (seq 1 20) s in
        w_genuine 21 (seq 1 20) s m && bool_decide (m !! 0 = Some (Shamir.mk_share 1 [9])) &&
        forallb (fun kv => (0 <=? fst kv) && (fst kv <=? 20)) (map_to_list m)
    | Err _ => false end = true) by (vm_compute; reflexivity).
  destruct (w_seal 21 7) as [s|] eqn:E; [|discriminate Hc]. cbv zeta in Hc |- *.
  apply andb_true_iff in Hc as [[Hg Hz]%andb_true_iff Hr]. apply bool_decide_eq_true in Hz.
  apply (@one_false_share_blocks_order_four toy_crypto toy_laws toy_kem toy_kem_laws (Params.mk_params 4 21 6 14) w_tx 1 (w_publics 21)
    (w_secrets 21) [5] s _ (w_contributed 21 (seq 1 20) s) (Shamir.mk_share 1 [9])).
  - vm_compute. reflexivity.
  - apply w_pairs.
  - reflexivity.
  - exact E.
  - apply lookup_singleton_eq.
  - exact Hz.
  - discriminate.
  - intros k sh Hk. rewrite forallb_forall in Hr. apply elem_of_map_to_list, list_elem_of_In, Hr in Hk. simpl in Hk. lia.
  - apply w_genuine_true. exact Hg.
Defined.

(** The block of the transaction at height 0, made-up openings at height 1, and the genuine shares of
    all seven members at height 2. *)
Definition w_stuffed (s : Tx.SealedTx) : gmap Z (list Block.CommittedReveal) :=
  let commit := @Tx.commit toy_crypto s in
  {[1 := stuffing commit;
    2 := (fun kv : Z * Shamir.Share => Block.mk_reveal commit (fst kv) (Messages.share_to_bytes (snd kv))) <$>
           zlist (w_contributed 7 (seq 0 7) s)]}.

Lemma stuffed_openings_censor_witness :
  match w_seal 7 3 with
  | Ok s =>
      let b := @Block.assemble toy_crypto Block.GENESIS_PARENT 0 1 0 [s] in
      (@execution_height_of toy_crypto toy_kem 3 b (w_stuffed s) 9 = Some 4 /\
       forall through, @opens toy_crypto toy_kem 3 (openings_in 0 through (w_stuffed s)) s = None) /\
      @opens toy_crypto toy_kem 3 (openings_in 0 4 (delete 1 (w_stuffed s))) s = Some w_tx
  | Err _ => False
  end.
Proof.
  assert (Hc : match w_seal 7 3 with
    | Ok s => bool_decide (@opens toy_crypto toy_kem 3 (openings_in 0 4 (delete 1 (w_stuffed s))) s = Some w_tx) &&
        forallb (fun kv => forallb (fun r => (0 <=? Block.cr_member r) && (Block.cr_member r <? 256)) (snd kv))
          (map_to_list (w_stuffed s))
    | Err _ => false end = true) by (vm_compute; reflexivity).
  destruct (w_seal 7 3) as [s|] eqn:E; [|discriminate Hc]. cbv zeta.
  apply andb_true_iff in Hc as [Ho Hr]. apply bool_decide_eq_true in Ho. split; [|exact Ho].
  apply (@stuffed_openings_censor toy_crypto toy_kem 3 (@Block.assemble toy_crypto Block.GENESIS_PARENT 0 1 0 [s]) s (w_stuffed s) 9).
  - simpl. lia.
  - simpl. by left.
  - reflexivity.
  - intros h rs r Hh Hin. rewrite forallb_forall in Hr. apply elem_of_map_to_list, list_elem_of_In, Hr in Hh. simpl in Hh.
    rewrite forallb_forall in Hh. apply list_elem_of_In, Hh in Hin. lia.
  - unfold REVEAL_WINDOW. simpl. lia.
Defined.

End Openings.
