(* ===== verification/Engine.v ===== *)
(** * The voting engine

    The half of [fanos-taxis/src/consensus.rs] that agrees on blocks: proposing, preparing,
    locking, committing, changing rounds, finalizing, and the recovery of bodies, certificates and
    whole states.  [accept_vote] is re-entered by the votes the engine casts itself, so it and its
    callers take fuel and answer [None] when it runs out. *)
From stdpp Require Import sorting.
From S2P Require Import Prelude Codec Sig Bounded Params Vote Incentive Pqvrf Committee Shamir Kem Threshold Tx Block Chain Messages EngineState Ledger Pipeline.
Local Open Scope Z_scope.

Module Engine.
Export Pipeline.

Definition Zge_rel (a b : Z) : Prop := b <= a.

#[global] Instance Zge_rel_dec a b : Decision (Zge_rel a b).
Proof. unfold Zge_rel. apply _. Defined.

(** When a proof of lock releases: a PREPARE certificate for this very block at this height, from a
    round after the one we locked at and not after the one we are in. *)
Definition pol_shape_releases (pol : Vote.Certificate) (block_hash : list Z) (height locked_round now : Z) : bool :=
  bool_decide (Vote.c_phase pol = Vote.Prepare) && (Vote.c_height pol =? height) &&
  bool_decide (Vote.c_block_hash pol = block_hash) && (locked_round <? Vote.c_round pol) &&
  (Vote.c_round pol <=? now).

Section engine.
  Context `{Crypto} `{KemCrypto} {S : Type} `{!StateMachine S}.
  Implicit Types e : Engine S.

Definition Result : Type := option (Engine S * list Messages.Output).

Definition and_then (r : Result) (k : Engine S -> Result) : Result :=
  match r with
  | None => None
  | Some (e, out) =>
      match k e with
      | None => None
      | Some (e, outs) => Some (e, out ++ outs)
      end
  end.

Definition bheight (b : Block.Block) : Z := Block.height (Block.header b).

Definition cert_valid (c : Vote.Certificate) e : bool := Vote.cert_verify c (quorum e) (verifiers e).

Definition has_proposal (h : list Z) e : bool := bool_decide (is_Some (proposals (working e) !! h)).

(** ** What the engine is waiting for, and what it can serve *)

Definition body_of (h : list Z) e : option Block.Block :=
  match proposals (working e) !! h with
  | Some b => Some b
  | None => Bounded.get (recent_bodies (recovery e)) h
  end.

(** The tally of votes at this height for blocks that are not held. *)
Definition tally_unheld (svs : list Vote.SignedVote) e : btree Z :=
  fold_left (fun m sv =>
    let v := Vote.vote sv in
    let hash := Vote.block_hash v in
    if bool_decide (hash <> Vote.NIL) && (Vote.height v =? height e) && bool_decide (body_of hash e = None)
    then <[hash := default 0 (m !! hash) + 1]> m else m) svs ∅.

(** [max_by_key(|&(hash, n)| (n, hash))]: hashes come in increasing order, so the last maximum. *)
Definition max_tally (m : btree Z) : option (list Z) :=
  fst <$> fold_left (fun best kv =>
    match best with
    | Some (_, n) => if n <=? snd kv then Some kv else best
    | None => Some kv
    end) (btree_list m) None.

Definition awaited_body e : option (list Z) :=
  let want := match pending_finalize (recovery e) !! height e with
              | Some h => Some h
              | None => locked_block (working e)
              end in
  let by_votes := max_tally (tally_unheld (prepares (working e) ++ commits (working e)) e) in
  match want with
  | Some w => if has_proposal w e then by_votes else Some w
  | None => by_votes
  end.

Definition skeleton_of (h : list Z) e : option Block.Block := Block.skeleton <$> body_of h e.

Definition shard_of (h : list Z) (index : Z) e : option (list Z) :=
  body_of h e ≫= fun b => Block.da_shards b !! Z.to_nat index.

Definition relevant_bodies e : list (list Z) :=
  fold_left (fun out o =>
    match o with
    | Some h => if bool_decide (h ∈ out) then out else out ++ [h]
    | None => out
    end) [awaited_body e; locked_block (working e); fst <$> valid_value (working e)] [].

Definition note_certified_height (b : Block.Block) e : Engine S :=
  let claimed := bheight b in
  if (claimed <=? height e) || (claimed <=? max_seen_height (recovery e)) then e else
  match Block.last_commit b with
  | Some cert =>
      if bool_decide (Vote.c_phase cert = Vote.Commit) && (Vote.c_height cert =? sat_sub claimed 1) && cert_valid cert e
      then note_height (sat_add 64 (Vote.c_height cert) 1) e else e
  | None => e
  end.

Definition maybe_request_sync e : list Messages.Output :=
  if (max_seen_height (recovery e) <=? height e) && bool_decide (diverged (recovery e) = None) then [] else
  [Messages.Send (Messages.MSyncReq (height e) (Chain.state_root (chain e)))].

Definition maybe_request_body e : Engine S * list Messages.Output :=
  match pending_finalize (recovery e) !! height e, certified (recovery e) !! height e with
  | Some block, Some cert =>
      let voters := filter (fun v => v <> me e) ((fun sv => Vote.voter (Vote.vote sv)) <$> Vote.votes cert) in
      let turn := body_asks (recovery e) mod Z.of_nat (length voters) in
      match voters !! Z.to_nat turn with
      | None => (e, [])
      | Some pick =>
          (upd_r (fun r => set_body_asks (sat_add 64 (body_asks r) 1) r) e,
           [Messages.SendTo pick (Messages.MNeedBody block)])
      end
  | _, _ => (e, [])
  end.

Definition on_need_body (from : Z) (block : list Z) e : list Messages.Output :=
  match body_of block e with
  | None => []
  | Some full => [Messages.SendTo from (Messages.MBody full)]
  end.

Definition servable_sync e : option (Checkpoint.ExecCertificate * list Z) :=
  letO cert := checkpoint (recovery e) in
  letO rh := sync_heads (recovery e) !! Checkpoint.xc_height cert in
  letO snapshot := sync_states (recovery e) !! fst rh in
  Some (cert, snapshot).

Definition offer_commit_cert (to have_height : Z) e : list Messages.Output :=
  match certified (recovery e) !! have_height with
  | Some cert =>
      if bool_decide (Vote.c_phase cert = Vote.Commit) then [Messages.SendTo to (Messages.MCommitCert cert)] else []
  | None => []
  end.

Definition on_sync_req (from have_height : Z) (have_root : list Z) e : list Messages.Output :=
  let r := recovery e in
  match checkpoint r with
  | None => offer_commit_cert from have_height e
  | Some cert =>
      let behind := have_height <? Checkpoint.xc_height cert in
      let diverged := match sync_heads r !! sat_sub have_height 1 with
                      | Some (root, _) => bool_decide (root <> have_root)
                      | None => false
                      end in
      if negb behind && negb diverged then offer_commit_cert from have_height e else
      match sync_heads r !! Checkpoint.xc_height cert ≫= fun rh => sync_states r !! fst rh with
      | None => offer_commit_cert from have_height e
      | Some snapshot =>
          let above := (zlist (filter (fun kv => w64 (Checkpoint.xc_height cert + 1) <= fst kv) (certified r))).*2 in
          let above := filter (fun c => Vote.c_phase c = Vote.Commit) above in
          [Messages.SendTo from (Messages.MSyncResp cert above snapshot)]
      end
  end.

(** ** Votes *)

Definition find_equivocation (sv : Vote.SignedVote) e : option Incentive.SlashEvidence :=
  let v := Vote.vote sv in
  letO verifier := verifier_at e (Vote.voter v) in
  let bucket := match Vote.phase v with
                | Vote.Prepare => prepares (working e)
                | Vote.Commit => commits (working e)
                end in
  head (omap (fun x =>
    let xv := Vote.vote x in
    if (Vote.voter xv =? Vote.voter v) && (Vote.height xv =? Vote.height v) && (Vote.round xv =? Vote.round v) &&
       bool_decide (Vote.phase xv = Vote.phase v) && bool_decide (Vote.block_hash xv <> Vote.block_hash v)
    then Incentive.detect_equivocation x sv verifier else None) bucket).

(** The first copy of a vote wins; its height is the current one. *)
Definition push_vote (sv : Vote.SignedVote) (bucket : list Vote.SignedVote) : list Vote.SignedVote :=
  let v := Vote.vote sv in
  if forallb (fun x =>
       let xv := Vote.vote x in
       negb ((Vote.voter xv =? Vote.voter v) && (Vote.round xv =? Vote.round v) &&
             bool_decide (Vote.block_hash xv = Vote.block_hash v))) bucket
  then bucket ++ [sv] else bucket.

Definition store_vote (sv : Vote.SignedVote) e : Engine S :=
  upd_w (fun w =>
    match Vote.phase (Vote.vote sv) with
    | Vote.Prepare => set_prepares (push_vote sv (prepares w)) w
    | Vote.Commit => set_commits (push_vote sv (commits w)) w
    end) e.

(** The loop of [collect_cert]: one vote per seat. *)
Fixpoint collect (p : Vote.Phase) (h r : Z) (block_hash : list Z) (seen : list bool)
    (src : list Vote.SignedVote) : list Vote.SignedVote :=
  match src with
  | [] => []
  | sv :: src =>
      let v := Vote.vote sv in
      if bool_decide (Vote.phase v = p) && (Vote.height v =? h) && (Vote.round v =? r) &&
         bool_decide (Vote.block_hash v = block_hash) && bool_decide (seen !! Vote.idx sv = Some false)
      then sv :: collect p h r block_hash (<[Vote.idx sv := true]> seen) src
      else collect p h r block_hash seen src
  end.

Definition collect_cert (p : Vote.Phase) (block_hash : list Z) e : Vote.Certificate :=
  let r := round (working e) in
  let src := match p with Vote.Prepare => prepares (working e) | Vote.Commit => commits (working e) end in
  Vote.mk_cert p (height e) r block_hash
    (collect p (height e) r block_hash (replicate (length (verifiers e)) false) src).

Definition valid_last_commit (b : Block.Block) e : bool :=
  match Block.last_commit b with
  | None => bheight b =? 0
  | Some cert =>
      bool_decide (Vote.c_phase cert = Vote.Commit) &&
      bool_decide (Vote.c_block_hash cert = Block.parent (Block.header b)) &&
      (Vote.c_height cert =? sat_sub (bheight b) 1) && cert_valid cert e
  end.

(** ** Finalization *)

Definition reset_round_state e : Engine S := set_working fresh_working e.

(** [for prior in &awaiting { out.extend(self.emit_reveals(prior)) }]. *)
Fixpoint emit_all (bs : list Block.Block) e : Engine S * list Messages.Output :=
  match bs with
  | [] => (e, [])
  | b :: bs =>
      let '(e, out) := emit_reveals (Block.sealed_txs b) e in
      let '(e, outs) := emit_all bs e in
      (e, out ++ outs)
  end.

Definition finalize (block_hash : list Z) e : Engine S * list Messages.Output :=
  let h := height e in
  match proposals (working e) !! block_hash with
  | None =>
      (upd_r (fun r =>
        let c := match certified r !! h with
                 | Some _ => certified r
                 | None => <[h := collect_cert Vote.Commit block_hash e]> (certified r)
                 end in
        set_pending_finalize (<[h := block_hash]> (pending_finalize r)) (set_certified c r)) e, [])
  | Some block =>
      let included := Tx.commit <$> Block.sealed_txs block in
      let finalizer := default (collect_cert Vote.Commit block_hash e) (certified (recovery e) !! h) in
      let e := upd_r (fun r =>
        set_pending_finalize (delete h (pending_finalize r))
          (set_recent_bodies (fst (Bounded.insert (recent_bodies r) block_hash block))
          (set_certified (<[h := finalizer]> (certified r)) r))) e in
      let e := prune_recovery_retention e in
      let e := set_last_finalized_cert (Some finalizer) e in
      let e := set_chain (Chain.finalize (chain e) (Block.header block)) e in
      let '(e, out1) := emit_reveals (Block.sealed_txs block) e in
      let '(e, out2) := emit_all (exec_queue (execution e)) e in
      let e := absorb_committed_reveals block e in
      let e := upd_x (fun x => set_exec_queue (exec_queue x ++ [block]) x) e in
      let '(e, out3) := drain_pending_reveals (Block.sealed_txs block) e in
      let e := upd_x (fun x => set_mempool (filter (fun kv => fst kv ∉ included) (mempool x)) x) e in
      let '(e, out4) := try_execute e in
      (reset_round_state e, Messages.Committed h block_hash :: out1 ++ out2 ++ out3 ++ out4)
  end.

Definition on_body (b : Block.Block) e : Engine S * list Messages.Output :=
  let bh := Block.hash b in
  let h := height e in
  let awaited := bool_decide (pending_finalize (recovery e) !! h = Some bh) in
  let wanted := awaited || bool_decide (locked_block (working e) = Some bh) in
  if negb wanted || negb (bheight b =? h) || negb (Block.verify_structure b) then (e, []) else
  let e := upd_w (fun w => set_proposals (<[bh := b]> (proposals w)) w) e in
  if awaited then finalize bh e else (e, []).

Definition adopt_commit_cert (cert : Vote.Certificate) e : Engine S * list Messages.Output :=
  let h := height e in
  if negb (Vote.c_height cert =? h) || bool_decide (Vote.c_phase cert <> Vote.Commit) then (e, []) else
  if negb (cert_valid cert e) then (e, []) else
  finalize (Vote.c_block_hash cert) (upd_r (fun r => set_certified (<[h := cert]> (certified r)) r) e).

Definition on_commit_cert (cert : Vote.Certificate) e : Engine S * list Messages.Output := adopt_commit_cert cert e.

Definition adopt_certified_parent (b : Block.Block) e : Engine S * list Messages.Output :=
  if bheight b <=? height e then (e, []) else
  match Block.last_commit b with
  | None => (e, [])
  | Some cert => adopt_commit_cert cert e
  end.

(** ** State synchronisation *)

(** One certificate above the checkpoint: parked if it is a verified COMMIT at or above us. *)
Definition park (c : Vote.Certificate) e : Engine S :=
  if bool_decide (Vote.c_phase c <> Vote.Commit) || (Vote.c_height c <? height e) then e else
  if negb (cert_valid c e) then e else
  upd_r (fun r => set_pending_finalize (<[Vote.c_height c := Vote.c_block_hash c]> (pending_finalize r))
                    (set_certified (<[Vote.c_height c := c]> (certified r)) r)) e.

Definition on_sync_resp (cert : Checkpoint.ExecCertificate) (above : list Vote.Certificate) (snapshot : list Z)
    e : Engine S * list Messages.Output :=
  if (Checkpoint.xc_height cert <? height e) && bool_decide (diverged (recovery e) = None) then (e, []) else
  if negb (Checkpoint.xc_verify cert (quorum e) (verifiers e)) then (e, []) else
  match sm_restore snapshot with
  | None => (e, [])
  | Some state =>
      let root := Checkpoint.xc_state_root cert in
      if bool_decide (sm_state_root state <> root) then (e, []) else
      let h := Checkpoint.xc_height cert in
      let head := Checkpoint.xc_head cert in
      let e := reset_round_state (set_chain (Chain.restore (chain e) h head state) e) in
      let e := upd_x (fun x => mk_execution ∅ (deferred_since x) ∅ ∅ ∅ [] (reward_per_block x)) e in
      let e := upd_r (fun r => mk_recovery (certified r) (recent_bodies r) ∅ ∅ (Some cert) None
                 (max_seen_height r) {[root := snapshot]} {[h := (root, head)]} (body_asks r)) e in
      let e := fold_left (fun e c => park c e) above e in
      let e := note_height (height e) e in
      let '(e, out) := maybe_request_body e in
      (e, Messages.Committed h head :: out)
  end.

(** ** Proposing *)

Definition leader_witness (h : Z) e : option Block.LeaderWitness :=
  letO s := sortition e in
  letO index := index_for s h in
  letO op := Pqvrf.prove (so_secret s) index in
  Some (Block.mk_witness (fst op) (snd op)).

Definition verify_witness (b : Block.Block) e : option (list Z) :=
  letO s := sortition e in
  letO w := Block.witness b in
  let h := bheight b in
  letO index := index_for s h in
  letO root := so_roots s !! Z.to_nat (Block.proposer (Block.header b)) in
  Committee.verify_leader_ticket root (so_height s) index (cf_seed (cfg e)) h (round (working e))
    (Block.lw_output w) (Block.lw_proof w).

(** Round 0 is a draw among the members of the elected line when sortition is on. *)
Definition sortition_round0 e : bool := bool_decide (is_Some (sortition e)) && (round (working e) =? 0).

Definition may_propose (proposer : Z) e : bool :=
  let seed := cf_seed (cfg e) in
  if sortition_round0 e then Committee.is_line_member seed (height e) 0 proposer
  else w8 (Committee.leader seed (height e) (round (working e))) =? proposer.

(** The block to offer again: the locked one, or else the last one shown to be prepared. *)
Definition locked_offer e : option (Block.Block * Vote.Certificate) :=
  let w := working e in
  let lock := letO h := locked_block w in
              letO b := proposals w !! h in
              letO c := locked_cert w in Some (b, c) in
  match lock with
  | Some bc => Some bc
  | None =>
      letO hc := valid_value w in
      letO b := proposals w !! fst hc in
      Some (b, snd hc)
  end.

Definition fresh_block (h : Z) e : Block.Block :=
  let sealed := (btree_list (mempool (execution e))).*2 in
  let rs := reveals_to_commit h e in
  let hd := Chain.chead (chain e) in
  let budget := Block.budget_for hd h (cf_epoch (cfg e)) (me e) (last_finalized_cert e) rs in
  Block.with_reveals (Block.assemble hd h (cf_epoch (cfg e)) (me e) (Block.pack_to_budget sealed budget)) rs.

Definition maybe_propose e : Engine S * list Messages.Output :=
  let h := height e in
  let w := working e in
  let can_reoffer := (max_seen_height (recovery e) <=? h) &&
    match locked_block w with
    | Some b => has_proposal b e && bool_decide (is_Some (locked_cert w))
    | None => false
    end in
  if (negb (may_propose (me e) e) && negb can_reoffer) || bool_decide (proposed_round w = Some (round w)) then (e, []) else
  if (0 <? h) && bool_decide (last_finalized_cert e = None) then (e, []) else
  let block := match locked_offer e with
               | Some (locked, cert) => Block.reoffer locked cert
               | None => fresh_block h e
               end in
  let block := match last_finalized_cert e with
               | Some cert => Block.with_last_commit block cert
               | None => block
               end in
  let block := if sortition_round0 e then (fun wit => Block.with_witness block wit) <$> leader_witness h e
               else Some block in
  match block with
  | None => (e, [])
  | Some block =>
      (upd_w (fun w => set_proposed_round (Some (round w)) w) e, [Messages.Send (Messages.MPropose block)])
  end.

(** ** The knot: casting a vote re-enters [accept_vote] *)

Section knot.
  Variable accept : Vote.SignedVote -> Engine S -> Result.

(** Sign a vote, process it as if received, then broadcast it. *)
Definition cast (p : Vote.Phase) (block_hash : list Z) e : Result :=
  let v := Vote.mk_vote (height e) (round (working e)) block_hash p (me e) in
  let sv := Vote.sign v (cf_signer (cfg e)) in
  and_then (accept sv (set_history (history e ++ [v]) e))
    (fun e => Some (e, [Messages.Send (Messages.MVote sv)])).

Definition sent_prepare_now e : bool := bool_decide (round (working e) ∈ sent_prepare (working e)).

(** Every PREPARE is preceded by [sent_prepare.insert(self.round)]. *)
Definition cast_prepare (block_hash : list Z) e : Result :=
  cast Vote.Prepare block_hash (upd_w (fun w => set_sent_prepare ({[round w]} ∪ sent_prepare w) w) e).

Definition check_prepared (block_hash : list Z) (r : Z) e : Result :=
  let w := working e in
  if bool_decide (block_hash = Vote.NIL) || negb (r =? round w) || bool_decide (round w ∈ sent_commit w)
  then Some (e, []) else
  let cert := collect_cert Vote.Prepare block_hash e in
  if negb (cert_valid cert e) then Some (e, []) else
  cast Vote.Commit block_hash
    (upd_w (fun w => set_sent_commit ({[round w]} ∪ sent_commit w)
                       (set_locked_cert (Some cert) (set_locked_block (Some block_hash) w))) e).

Definition check_committed (block_hash : list Z) e : Result :=
  if negb (cert_valid (collect_cert Vote.Commit block_hash e) e) then Some (e, [])
  else Some (finalize block_hash e).

Definition reprepare_lock e : Result :=
  match locked_block (working e) with
  | None => Some (e, [])
  | Some bh => if sent_prepare_now e || negb (has_proposal bh e) then Some (e, []) else cast_prepare bh e
  end.

Definition advance_round e : Result :=
  and_then (reprepare_lock (upd_w (fun w => set_round (sat_add 32 (round w) 1) w) e))
    (fun e => Some (maybe_propose e)).

(** The voters of this round and the voters of each value. *)
Definition round_voters e : list Vote.Vote :=
  filter (fun v => Vote.height v = height e /\ Vote.round v = round (working e)) (Vote.vote <$> prepares (working e)).

Definition by_value (vs : list Vote.Vote) : btree (gset Z) :=
  fold_left (fun m v => <[Vote.block_hash v := {[Vote.voter v]} ∪ default ∅ (m !! Vote.block_hash v)]> m) vs ∅.

Definition round_failed_by_votes e : Result :=
  let vs := round_voters e in
  let voters : gset Z := list_to_set (Vote.voter <$> vs) in
  let q := Params.quorum (cf_params (cfg e)) in
  if Z.of_nat (size voters) <? q then Some (e, []) else
  let undecided := sat_sub (Params.n (cf_params (cfg e))) (Z.of_nat (size voters)) in
  let alive := existsb (fun kv => bool_decide (fst kv <> Vote.NIL) && (q <=? sat_add 64 (Z.of_nat (size (snd kv))) undecided))
                 (btree_list (by_value vs)) in
  if alive then Some (e, []) else advance_round e.

(** The highest round above ours that each other validator is known to have voted in. *)
Definition highest_rounds e : gmap Z Z :=
  fold_left (fun m sv =>
    let v := Vote.vote sv in
    if (Vote.height v =? height e) && (round (working e) <? Vote.round v) && negb (Vote.voter v =? me e)
    then <[Vote.voter v := Z.max (default 0 (m !! Vote.voter v)) (Vote.round v)]> m else m)
    (prepares (working e) ++ commits (working e)) ∅.

Definition maybe_advance_round e : Result :=
  let highest := highest_rounds e in
  let threshold := Params.f (cf_params (cfg e)) + 1 in
  if Z.of_nat (size highest) <? threshold then Some (e, []) else
  match merge_sort Zge_rel ((zlist highest).*2) !! Z.to_nat (threshold - 1) with
  | None => Some (e, [])
  | Some target =>
      if target <=? round (working e) then Some (e, []) else
      and_then (reprepare_lock (upd_w (set_round target) e)) (fun e => Some (maybe_propose e))
  end.

(** One call of [accept_vote]. *)
Definition accept_body (sv : Vote.SignedVote) e : Result :=
  let v := Vote.vote sv in
  match verifier_at e (Vote.voter v) with
  | None => Some (e, [])
  | Some verifier =>
      if negb (Vote.verify sv verifier) then Some (e, []) else
      if negb (Vote.height v =? height e) then
        Some (if height e <? Vote.height v then note_height (Vote.height v) e else e, [])
      else
      let slash := match find_equivocation sv e with Some ev => [Messages.Slash ev] | None => [] end in
      let stored := store_vote sv e in
      and_then
        (and_then
          (and_then (Some (stored, slash))
            (match Vote.phase v with
             | Vote.Prepare => check_prepared (Vote.block_hash v) (Vote.round v)
             | Vote.Commit => check_committed (Vote.block_hash v)
             end))
          round_failed_by_votes)
        maybe_advance_round
  end.

(** ** The other handlers that cast votes *)

Definition prepare_nil e : Result :=
  if sent_prepare_now e then Some (e, []) else cast_prepare Vote.NIL e.

Definition on_timeout e : Result := if sent_prepare_now e then advance_round e else prepare_nil e.

Definition prepare_round0_min e : Result :=
  let w := working e in
  if negb (round w =? 0) || bool_decide (0 ∈ sent_prepare w) then Some (e, []) else
  match Committee.min_by_key fst ((zlist (round0_tickets w)).*2) with
  | None => Some (e, [])
  | Some (_, bh) =>
      if negb (has_proposal bh e) then Some (e, []) else
      if match locked_block w with Some l => bool_decide (l <> bh) | None => false end then Some (e, []) else
      cast_prepare bh e
  end.

Definition tick_round0_window e : Result :=
  let w := working e in
  if negb (round w =? 0) || bool_decide (0 ∈ sent_prepare w) then Some (e, []) else
  match round0_window w with
  | None => Some (e, [])
  | Some t =>
      let e := upd_w (set_round0_window (Some (w32 (t + 1)))) e in
      if (w32 (t + 1) <? COLLECT_WINDOW_TICKS) || bool_decide (round0_tickets w = ∅) then Some (e, [])
      else prepare_round0_min e
  end.

Definition rank_round0 (proposer : Z) (ticket bh : list Z) (h : Z) e : Result :=
  let e := upd_w (fun w =>
    let t := match round0_tickets w !! proposer with
             | Some _ => round0_tickets w
             | None => <[proposer := (ticket, bh)]> (round0_tickets w)
             end in
    set_round0_window (match round0_window w with None => Some 0 | Some n => Some n end) (set_round0_tickets t w)) e in
  let line_size := match Committee.line_members (Committee.leader_line (cf_seed (cfg e)) h 0) with
                   | Some m => length m
                   | None => 0%nat
                   end in
  if (line_size <=? size (round0_tickets (working e)))%nat then prepare_round0_min e else
  match round0_window (working e) with
  | Some w => if COLLECT_WINDOW_TICKS <=? w then prepare_round0_min e else Some (e, [])
  | None => Some (e, [])
  end.

Definition on_skeleton (b : Block.Block) e : Result :=
  let '(e, adopted) := adopt_certified_parent b e in
  match adopted with
  | _ :: _ => Some (e, adopted)
  | [] =>
      let e := note_certified_height b e in
      let w := working e in
      if bool_decide (sortition e = None) || negb (round w =? 0) || bool_decide (0 ∈ sent_prepare w) then Some (e, []) else
      let hdr := Block.header b in
      let h := height e in
      if negb (Committee.is_line_member (cf_seed (cfg e)) h 0 (Block.proposer hdr)) ||
         negb (Block.height hdr =? h) || bool_decide (Block.parent hdr <> Chain.chead (chain e)) ||
         negb (Block.epoch hdr =? cf_epoch (cfg e)) || negb (Block.last_commit_matches b) ||
         negb (valid_last_commit b e) then Some (e, []) else
      match verify_witness b e with
      | None => Some (e, [])
      | Some ticket => rank_round0 (Block.proposer hdr) ticket (Block.hash b) h e
      end
  end.

Definition unlocks_us (b : Block.Block) e : bool :=
  match locked_cert (working e), Block.pol b with
  | Some held, Some pol =>
      pol_shape_releases pol (Block.hash b) (height e) (Vote.c_round held) (round (working e)) && cert_valid pol e
  | _, _ => false
  end.

(** Does the proposal carry a proof that its block was prepared at this height? *)
Definition pol_ok (b : Block.Block) e : bool :=
  match Block.pol b with
  | Some c =>
      bool_decide (Vote.c_phase c = Vote.Prepare) && (Vote.c_height c =? height e) &&
      bool_decide (Vote.c_block_hash c = Block.hash b) && cert_valid c e
  | None => false
  end.

Definition note_valid_value (b : Block.Block) e : Engine S :=
  match Block.pol b with
  | Some c =>
      let newer := match valid_value (working e) with
                   | Some (_, held) => Vote.c_round held <=? Vote.c_round c
                   | None => true
                   end in
      if pol_ok b e && newer then upd_w (set_valid_value (Some (Block.hash b, c))) e else e
  | None => e
  end.

(** A proposal that does not extend our head, or proves its parent badly: its certificates may
    still tell us where the chain is. *)
Definition learn_from_unlinked (b : Block.Block) e : Engine S * list Messages.Output :=
  if bheight b <=? height e then (e, []) else adopt_certified_parent b (note_certified_height b e).

(** The end of [on_propose], from the moment the block is known to be well-formed and available. *)
Definition vote_on_proposal (b : Block.Block) (proposer_ok : bool) (ticket : option (list Z)) e : Result :=
  let h := height e in
  let bh := Block.hash b in
  let proposer := Block.proposer (Block.header b) in
  let releases := unlocks_us b e in
  if negb proposer_ok &&
     existsb (fun kv => Block.proposer (Block.header (snd kv)) =? proposer) (map_to_list (proposals (working e)))
  then Some (e, []) else
  let e := upd_w (fun w => set_proposals (or_insert bh b (proposals w)) w) e in
  if bool_decide (pending_finalize (recovery e) !! h = Some bh) then Some (finalize bh e) else
  if negb proposer_ok then Some (e, []) else
  match ticket with
  | Some t => rank_round0 proposer t bh h e
  | None =>
      if match locked_block (working e) with Some l => bool_decide (l <> bh) && negb releases | None => false end
      then Some (e, []) else
      if sent_prepare_now e then Some (e, []) else cast_prepare bh e
  end.

Definition on_propose (b : Block.Block) (shards : list (option (list Z))) e : Result :=
  let hdr := Block.header b in
  let proved := pol_ok b e in
  let e := note_valid_value b e in
  let proposer_ok := proved || may_propose (Block.proposer hdr) e in
  let links := (Block.height hdr =? height e) && bool_decide (Block.parent hdr = Chain.chead (chain e)) &&
               (Block.epoch hdr =? cf_epoch (cfg e)) in
  if negb links || negb (Block.verify_structure b) || negb (valid_last_commit b e)
  then Some (learn_from_unlinked b e) else
  if negb (forallb (fun tx => valid_seal tx e) (Block.sealed_txs b)) then Some (e, []) else
  if bool_decide (Block.reconstruct_payload b shards = None) then Some (e, []) else
  if sortition_round0 e then
    match verify_witness b e with
    | None => Some (e, [])
    | Some t => vote_on_proposal b proposer_ok (Some t) e
    end
  else vote_on_proposal b proposer_ok None e.

End knot.

Fixpoint accept_vote (fuel : nat) (sv : Vote.SignedVote) e : Result :=
  match fuel with
  | O => None
  | Datatypes.S fuel => accept_body (accept_vote fuel) sv e
  end.

(** The whole reaction of the engine to one input. *)
Definition step (fuel : nat) (i : Messages.Input) e : Result :=
  let accept := accept_vote fuel in
  match i with
  | Messages.ITick =>
      and_then (and_then (and_then (Some (maybe_propose e)) (tick_round0_window accept))
        (fun e => Some (e, maybe_request_sync e))) (fun e => Some (maybe_request_body e))
  | Messages.IPropose b shards => on_propose accept b shards e
  | Messages.ISkeleton b => on_skeleton accept b e
  | Messages.IVote sv => accept sv e
  | Messages.IReveal r => Some (on_reveal r e)
  | Messages.IExecVote v => Some (on_exec_vote v e, [])
  | Messages.ITimeout => on_timeout accept e
  | Messages.ISyncReq from h root => Some (e, on_sync_req from h root e)
  | Messages.INeedBody from block => Some (e, on_need_body from block e)
  | Messages.IBody b => Some (on_body b e)
  | Messages.ICommitCert cert => Some (on_commit_cert cert e)
  | Messages.ISyncResp cert above snapshot => Some (on_sync_resp cert above snapshot e)
  end.

End engine.
End Engine.
