(* ===== verification/Agreement.v ===== *)
(** * Agreement of locked voting

    The argument that the locking rules of the voting engine cannot decide two blocks at one height,
    as a theory of logs: the votes that correct validators sign, in the order they sign them.  It
    speaks of no engine; the engine is shown to produce such logs. *)
From S2P Require Import Prelude Codec Sig Params Vote Incentive.
Local Open Scope Z_scope.

Module Agreement.

(** The seat a vote names. *)
Definition seat (v : Vote.Vote) : nat := Z.to_nat (Vote.voter v).

(** [v] is a vote of phase [p] for block [b] at height [h] in round [r]. *)
Definition claims (p : Vote.Phase) (h r : Z) (b : list Z) (v : Vote.Vote) : Prop :=
  Vote.phase v = p /\ Vote.height v = h /\ Vote.round v = r /\ Vote.block_hash v = b.

#[global] Instance claims_dec p h r b v : Decision (claims p h r b v).
Proof. unfold claims. apply _. Defined.

Section agreement.
  Variables (n f quorum : nat) (byz : gset nat).
  Hypothesis Hsafe : (n + f < 2 * quorum)%nat.
  Hypothesis Hbyz : (size byz <= f)%nat.
  Implicit Types (L : list Vote.Vote) (v u : Vote.Vote).

(** A quorum of distinct seats, every correct one of which signed the claim in [L]. *)
Definition quorum_for L (p : Vote.Phase) (h r : Z) (b : list Z) : Prop :=
  exists who : list nat, NoDup who /\ (quorum <= length who)%nat /\ Forall (fun i => (i < n)%nat) who /\
    forall i, i ∈ who -> i ∉ byz -> exists v, v ∈ L /\ seat v = i /\ claims p h r b v.

(** A block is decided at a height when some round of it has a COMMIT quorum. *)
Definition decided L (h : Z) (b : list Z) : Prop := exists r, quorum_for L Vote.Commit h r b.

(** The COMMIT votes of one seat at one height, oldest first. *)
Definition commits_of L (i : nat) (h : Z) : list Vote.Vote :=
  filter (fun v => seat v = i /\ Vote.height v = h /\ Vote.phase v = Vote.Commit) L.

Definition last_commit L (i : nat) (h : Z) : option Vote.Vote := last (commits_of L i h).

(** What a correct validator checks before it signs [v], given all that was signed before: it has
    not voted in this height, round and phase; it has not been in a later round of this height; it
    commits only a block with a PREPARE quorum in this round; and it prepares a block only if that is
    the block it last committed at this height, or a PREPARE quorum for it exists from a round after
    that commit. *)
Definition vote_ok L v : Prop :=
  (forall u, u ∈ L -> seat u = seat v -> Vote.height u = Vote.height v ->
     Vote.round u <= Vote.round v /\ (Vote.round u = Vote.round v -> Vote.phase u <> Vote.phase v)) /\
  match Vote.phase v with
  | Vote.Commit =>
      Vote.block_hash v <> Vote.NIL /\ quorum_for L Vote.Prepare (Vote.height v) (Vote.round v) (Vote.block_hash v)
  | Vote.Prepare =>
      Vote.block_hash v = Vote.NIL \/
      forall u, last_commit L (seat v) (Vote.height v) = Some u ->
        Vote.block_hash v = Vote.block_hash u \/
        exists r, Vote.round u < r <= Vote.round v /\ quorum_for L Vote.Prepare (Vote.height v) r (Vote.block_hash v)
  end.

(** Logs of correct validators, built vote by vote. *)
Inductive log_ok : list Vote.Vote -> Prop :=
| log_nil : log_ok []
| log_snoc L v : log_ok L -> vote_ok L v -> log_ok (L ++ [v]).

(** ** Facts about quorums and logs *)

Lemma quorum_for_mono L L' p h r b : (forall v, v ∈ L -> v ∈ L') -> quorum_for L p h r b -> quorum_for L' p h r b.
Proof.
  intros Hs (who & N & Q & F & W). exists who. split; [done|]. split; [done|]. split; [done|].
  intros i Hi Hb. destruct (W i Hi Hb) as (v & Hv & Hw). eauto.
Qed.

Lemma decided_mono L L' h b : (forall v, v ∈ L -> v ∈ L') -> decided L h b -> decided L' h b.
Proof. intros Hs [r Hq]. exists r. by eapply quorum_for_mono. Qed.

(** Two quorums share a correct seat. *)
Lemma correct_in_both (a b : list nat) :
  NoDup a -> NoDup b -> (quorum <= length a)%nat -> (quorum <= length b)%nat ->
  Forall (fun i => (i < n)%nat) a -> Forall (fun i => (i < n)%nat) b ->
  exists i, i ∈ a /\ i ∈ b /\ i ∉ byz.
Proof.
  intros Na Nb Qa Qb Fa Fb. pose proof (Incentive.quorum_intersection a b n Na Nb Fa Fb) as HI.
  set (c := filter (fun i => i ∈ b) a) in *.
  destruct (decide (Exists (fun i => i ∉ byz) c)) as [He|He].
  - apply Exists_exists in He as (i & Hi & Hb). apply list_elem_of_filter in Hi as [H1 H2]. eauto.
  - exfalso. assert (Hc : (list_to_set c : gset nat) ⊆ byz).
    { intros i Hi%elem_of_list_to_set. destruct (decide (i ∈ byz)) as [|Hn]; [done|].
      exfalso. apply He, Exists_exists. eauto. }
    apply subseteq_size in Hc. rewrite size_list_to_set in Hc by (by apply NoDup_filter). lia.
Qed.

Lemma quorums_meet L1 L2 p1 h1 r1 b1 p2 h2 r2 b2 :
  quorum_for L1 p1 h1 r1 b1 -> quorum_for L2 p2 h2 r2 b2 ->
  exists v1 v2, v1 ∈ L1 /\ v2 ∈ L2 /\ seat v1 = seat v2 /\ claims p1 h1 r1 b1 v1 /\ claims p2 h2 r2 b2 v2.
Proof.
  intros (w1 & N1 & Q1 & F1 & W1) (w2 & N2 & Q2 & F2 & W2).
  destruct (correct_in_both w1 w2) as (i & Hi1 & Hi2 & Hb); [done..|].
  destruct (W1 i Hi1 Hb) as (v1 & ? & ? & ?), (W2 i Hi2 Hb) as (v2 & ? & ? & ?).
  exists v1, v2. split; [done|]. split; [done|]. split; [congruence|done].
Qed.

(** Every vote of a log was fit to be signed after what precedes it. *)
Lemma log_ok_at L L1 v L2 : log_ok L -> L = L1 ++ v :: L2 -> log_ok L1 /\ vote_ok L1 v.
Proof.
  intros HL. revert L2. induction HL as [|L u HL IH Hu]; intros L2 E; [by destruct L1|].
  induction L2 as [|x L2 _] using rev_ind.
  - apply app_inj_tail in E as [<- <-]. done.
  - rewrite app_comm_cons, app_assoc in E. apply app_inj_tail in E as [-> <-]. by eapply IH.
Qed.

(** Two votes of one seat in one height, round and phase are the same vote position: a correct
    validator never contradicts itself. *)
Lemma log_unique L v u : log_ok L -> v ∈ L -> u ∈ L -> seat v = seat u -> Vote.height v = Vote.height u ->
  Vote.round v = Vote.round u -> Vote.phase v = Vote.phase u -> v = u.
Proof.
  clear Hsafe Hbyz. intros HL. revert v u.
  induction HL as [|L x HL IH [Hx _]]; intros v u Hv Hu Es Eh Er Ep; [by apply elem_of_nil in Hv|].
  apply elem_of_app in Hv as [Hv|Hv], Hu as [Hu|Hu].
  - by apply IH.
  - apply list_elem_of_singleton in Hu as ->. destruct (Hx v Hv Es Eh) as [_ Hd]. exfalso. by apply Hd.
  - apply list_elem_of_singleton in Hv as ->. destruct (Hx u Hu) as [_ Hd]; [done..|]. exfalso. by apply Hd.
  - apply list_elem_of_singleton in Hv as ->, Hu as ->. done.
Qed.

(** A COMMIT in the log rests on a PREPARE quorum for its block in its round. *)
Lemma commit_prepared L v : log_ok L -> v ∈ L -> Vote.phase v = Vote.Commit ->
  Vote.block_hash v <> Vote.NIL /\ quorum_for L Vote.Prepare (Vote.height v) (Vote.round v) (Vote.block_hash v).
Proof.
  intros HL Hv Ep. apply list_elem_of_split in Hv as (L1 & L2 & E).
  destruct (log_ok_at _ _ _ _ HL E) as (_ & _ & Hok). rewrite Ep in Hok. destruct Hok as [Hn Hq].
  split; [done|]. eapply quorum_for_mono; [|exact Hq]. subst L. set_solver.
Qed.

(** The last COMMIT of a seat at a height is one, and no earlier one is in a later round. *)
Lemma last_commit_Some L i h u : last_commit L i h = Some u ->
  u ∈ L /\ seat u = i /\ Vote.height u = h /\ Vote.phase u = Vote.Commit.
Proof.
  unfold last_commit, commits_of. intros Hl%last_Some_elem_of. apply list_elem_of_filter in Hl. tauto.
Qed.

Lemma last_commit_latest L i h c : log_ok L -> c ∈ commits_of L i h ->
  exists u, last_commit L i h = Some u /\ Vote.round c <= Vote.round u.
Proof.
  intros HL. revert c. induction HL as [|L v HL IH [Hv _]]; intros c Hc; [by apply elem_of_nil in Hc|].
  unfold last_commit, commits_of in *. rewrite filter_app in *. cbn in *.
  case_decide as Hd; rewrite ?app_nil_r in *; [|by apply IH].
  rewrite last_snoc. exists v. split; [done|]. destruct Hd as (<- & <- & _).
  apply elem_of_app in Hc as [Hc|Hc]; [|apply list_elem_of_singleton in Hc as ->; lia].
  apply list_elem_of_filter in Hc as [(E1 & E2 & _) Hc]. by apply Hv.
Qed.

(** Two PREPARE quorums of one round are for one block. *)
Lemma prepare_quorum_unique L h r b b' : log_ok L ->
  quorum_for L Vote.Prepare h r b -> quorum_for L Vote.Prepare h r b' -> b = b'.
Proof.
  intros HL Q1 Q2. destruct (quorums_meet _ _ _ _ _ _ _ _ _ _ Q1 Q2) as (v1 & v2 & V1 & V2 & Es & C1 & C2).
  destruct C1 as (P1 & H1 & R1 & <-), C2 as (P2 & H2 & R2 & <-). f_equal.
  eapply log_unique; [exact HL|..]; congruence.
Qed.

(** The first element of a list that satisfies a decidable property. *)
Lemma first_such {A} (P : A -> Prop) `{!forall x, Decision (P x)} (l : list A) x :
  x ∈ l -> P x -> exists l1 y l2, l = l1 ++ y :: l2 /\ P y /\ forall z, z ∈ l1 -> ~ P z.
Proof.
  revert x. induction l as [|a l IH]; intros x Hx Px; [by apply elem_of_nil in Hx|].
  destruct (decide (P a)) as [Ha|Ha]; [exists [], a, l; repeat split; set_solver|].
  apply elem_of_cons in Hx as [->|Hx]; [done|].
  destruct (IH x Hx Px) as (l1 & y & l2 & -> & Py & Hz).
  exists (a :: l1), y, l2. split; [done|]. split; [done|]. intros z [->|Hz']%elem_of_cons; [done|]. by apply Hz.
Qed.

(** ** Agreement *)

Section fixed.
  Context (L : list Vote.Vote) (h r : Z) (b : list Z) (who : list nat).
  Hypothesis HL : log_ok L.
  Hypothesis HN : NoDup who.
  Hypothesis HQ : (quorum <= length who)%nat.
  Hypothesis HF : Forall (fun i => (i < n)%nat) who.
  Hypothesis HW : forall i, i ∈ who -> i ∉ byz -> exists v, v ∈ L /\ seat v = i /\ claims Vote.Commit h r b v.

(** A PREPARE of this claim by a correct member of the committing quorum. *)
Definition member_prepares (r' : Z) (b' : list Z) (v : Vote.Vote) : Prop :=
  claims Vote.Prepare h r' b' v /\ seat v ∈ who /\ seat v ∉ byz.

Lemma quorum_has_member L' r' b' : quorum_for L' Vote.Prepare h r' b' ->
  exists v, v ∈ L' /\ member_prepares r' b' v.
Proof.
  intros (w & N & Q & F & W). destruct (correct_in_both w who) as (i & Hi & Hi' & Hb); [done..|].
  destruct (W i Hi Hb) as (v & Hv & <- & Hc). exists v. done.
Qed.

(** The step of the induction: rounds between [r] and [r'] prepared only [b]. *)
Lemma later_quorum_step r' b' :
  (forall r1 b1, r <= r1 < r' -> b1 <> Vote.NIL -> quorum_for L Vote.Prepare h r1 b1 -> b1 = b) ->
  r < r' -> b' <> Vote.NIL -> quorum_for L Vote.Prepare h r' b' -> b' = b.
Proof.
  intros IH Hr Hn Hq. destruct (quorum_has_member _ _ _ Hq) as (v0 & Hv0 & Pv0).
  destruct (first_such (member_prepares r' b') L v0 Hv0 Pv0) as (L1 & v & L2 & E & Pv & Hfirst).
  pose proof (log_ok_at _ _ _ _ HL E) as (HL1 & Hord & Hok).
  destruct Pv as ((Vp & Vh & Vr & Vb) & Hin & Hnb). rewrite Vp, Vh, Vr, Vb in Hok.
  destruct Hok as [|Hlast]; [done|].
  assert (Hsub : forall x, x ∈ L1 -> x ∈ L) by (subst L; set_solver).
  assert (Hno : forall r1, r1 = r' -> ~ quorum_for L1 Vote.Prepare h r1 b').
  { intros ? -> Hq1. destruct (quorum_has_member _ _ _ Hq1) as (x & Hx & Px). by apply (Hfirst x). }
  destruct (HW _ Hin Hnb) as (c & Hc & Ecs & Cp & Ch & Cr & Cb).
  assert (Hc1 : c ∈ L1).
  { rewrite E in Hc. apply elem_of_app in Hc as [|[->|Hc2]%elem_of_cons]; [done|congruence|].
    apply list_elem_of_split in Hc2 as (L3 & L4 & ->).
    pose proof (log_ok_at L (L1 ++ v :: L3) c L4 HL) as (_ & Hoc & _); [by rewrite E, <- app_assoc|].
    destruct (Hoc v) as [Hle _]; [set_solver|congruence|congruence|]. lia. }
  destruct (last_commit_latest L1 (seat v) h c HL1) as (u & Hu & Hcu).
  { apply list_elem_of_filter. done. }
  pose proof (last_commit_Some _ _ _ _ Hu) as (Hu1 & Us & Uh & Up).
  destruct (commit_prepared L1 u HL1 Hu1 Up) as [Un Uq]. rewrite Uh in Uq.
  destruct (Hord u Hu1 ltac:(congruence) ltac:(congruence)) as [Hur _].
  destruct (decide (Vote.round u = r')) as [Eur|Nur].
  { exfalso. assert (Eb : Vote.block_hash u = b').
    { eapply prepare_quorum_unique; [exact HL| |exact Hq]. rewrite <- Eur. by eapply quorum_for_mono. }
    rewrite Eur, Eb in Uq. exact (Hno _ eq_refl Uq). }
  assert (Eub : Vote.block_hash u = b).
  { eapply IH; [|exact Un|eapply quorum_for_mono; [exact Hsub|exact Uq]]. lia. }
  destruct (Hlast u Hu) as [->|(r1 & Hr1 & Hq1)]; [done|].
  destruct (decide (r1 = r')) as [Er1|Nr1]; [by destruct (Hno r1 Er1)|].
  eapply IH; [|exact Hn|eapply quorum_for_mono; [exact Hsub|exact Hq1]]. lia.
Qed.

(** From the round of a COMMIT quorum on, no other block gathers a PREPARE quorum. *)
Lemma later_quorum r' b' : r <= r' -> b' <> Vote.NIL -> quorum_for L Vote.Prepare h r' b' -> b' = b.
Proof.
  intros Hr. remember (Z.to_nat (r' - r)) as k eqn:Ek. revert r' b' Hr Ek.
  induction (lt_wf k) as [k _ IH]. intros r' b' Hr Ek Hn Hq.
  destruct (decide (r' = r)) as [->|Hne].
  - destruct (correct_in_both who who) as (i & Hi & _ & Hb); [done..|].
    destruct (HW i Hi Hb) as (c & Hc & _ & Cp & Ch & Cr & Cb).
    destruct (commit_prepared L c HL Hc Cp) as [_ Cq]. rewrite Ch, Cr, Cb in Cq.
    by eapply prepare_quorum_unique.
  - apply (later_quorum_step r'); [|lia|done|done].
    intros r1 b1 Hr1 Hn1 Hq1. apply (IH (Z.to_nat (r1 - r)) ltac:(lia) r1 b1 ltac:(lia) eq_refl Hn1 Hq1).
Qed.

End fixed.

(** Any two blocks decided at one height are the same. *)
Lemma decided_unique L h b b' : log_ok L -> decided L h b -> decided L h b' -> b = b'.
Proof.
  intros HL. assert (Hw : forall r r' x y, r <= r' ->
    quorum_for L Vote.Commit h r x -> quorum_for L Vote.Commit h r' y -> y = x).
  { intros r r' x y Hr (who & N & Q & F & W) Hq.
    destruct (quorums_meet _ _ _ _ _ _ _ _ _ _ Hq Hq) as (c & _ & Hc & _ & _ & (Cp & Ch & Cr & Cb) & _).
    destruct (commit_prepared L c HL Hc Cp) as [Cn Cq]. rewrite Ch, Cr, Cb in Cq. rewrite Cb in Cn.
    by eapply (later_quorum L h r x who). }
  intros [r Hq] [r' Hq']. destruct (Z.le_ge_cases r r'); [symmetry|]; by eapply Hw.
Qed.

End agreement.
End Agreement.
