(* ===== verification/Safety.v ===== *)
(** * The engine keeps the rules of safe voting

    Every reaction of the engine of [fanos-taxis/src/consensus.rs] preserves an invariant that
    relates its working state to the votes signed so far, and signs only votes that the locking
    rules allow. *)
From stdpp Require Import sorting.
From S2P Require Import Prelude Codec Sig Bounded Params Vote Incentive Pqvrf Committee Shamir Kem Threshold Tx Block Chain Messages EngineState Ledger Pipeline Engine Agreement.
Local Open Scope Z_scope.

Module Safety.
Export Engine.

Section safety.
  Context `{Crypto} `{KemCrypto} {S : Type} `{!StateMachine S}.
  Variables (vks : list HybridVerifier) (q : nat) (byz : gset nat).
  Implicit Types (e : Engine S) (L : list Vote.Vote) (outs : list Messages.Output).

Local Abbreviation n := (length vks).
Local Abbreviation decided := (Agreement.decided n q byz).
Local Abbreviation quorum_for := (Agreement.quorum_for n q byz).
Local Abbreviation log_ok := (Agreement.log_ok n q byz).
Local Abbreviation vote_ok := (Agreement.vote_ok n q byz).

(** ** Heights, seats and evidence *)

(** The height before it is reduced to 64 bits. *)
Definition zheight e : Z := Chain.base_height (chain e) + Z.of_nat (length (Chain.headers (chain e))).

Definition own e (v : Vote.Vote) : Prop := Agreement.seat v = Z.to_nat (me e).

(** A vote that can be received: its round is a 32-bit number, and a verifying vote of a correct
    validator is one that it signed (signatures are not forged). *)
Definition known L (sv : Vote.SignedVote) : Prop :=
  Vote.round (Vote.vote sv) <= 2 ^ 32 - 1 /\
  (Agreement.seat (Vote.vote sv) ∉ byz ->
   (exists k, vks !! Vote.idx sv = Some k /\ Vote.verify sv k = true) -> Vote.vote sv ∈ L).

Lemma known_mono L L' sv : (forall v, v ∈ L -> v ∈ L') -> known L sv -> known L' sv.
Proof. unfold known. intuition. Qed.

(** A certificate that verifies is a quorum for its claim. *)
Lemma cert_quorum L c : Forall (known L) (Vote.votes c) -> Vote.cert_verify c q vks = true ->
  quorum_for L (Vote.c_phase c) (Vote.c_height c) (Vote.c_round c) (Vote.c_block_hash c).
Proof.
  intros HK (Hq & HS & HN)%Vote.cert_verify_iff. exists (Vote.idx <$> Vote.votes c).
  rewrite length_fmap. split; [done|]. split; [done|]. split.
  - apply Forall_fmap. eapply Forall_impl; [exact HS|]. apply Incentive.supports_index.
  - intros i (sv & -> & Hsv)%list_elem_of_fmap Hb. rewrite Forall_forall in HK, HS.
    destruct (HS sv Hsv) as (H1 & H2 & H3 & H4 & Hk). exists (Vote.vote sv).
    destruct (HK sv Hsv) as [_ Hk']. split; [by apply Hk'|]. done.
Qed.

(** ** The invariant *)

Record Inv e : Prop := {
  inv_vks : verifiers e = vks;
  inv_q : quorum e = q;
  inv_base : 0 <= Chain.base_height (chain e);
  inv_log : log_ok (history e);
  inv_round : round (working e) <= 2 ^ 32 - 1;
  inv_past : forall v, v ∈ history e -> own e v -> Vote.height v <= zheight e;
  inv_now : forall v, v ∈ history e -> own e v -> Vote.height v = zheight e ->
    Vote.round v <= round (working e) /\
    match Vote.phase v with
    | Vote.Prepare => Vote.round v ∈ sent_prepare (working e)
    | Vote.Commit => Vote.round v ∈ sent_commit (working e)
    end;
  inv_lock : forall u, Agreement.last_commit (history e) (Z.to_nat (me e)) (zheight e) = Some u ->
    locked_block (working e) = Some (Vote.block_hash u) /\
    exists c, locked_cert (working e) = Some c /\ Vote.c_round c = Vote.round u;
  inv_known : Forall (known (history e)) (prepares (working e) ++ commits (working e));
  inv_pending : forall h b, pending_finalize (recovery e) !! h = Some b -> decided (history e) h b;
  inv_proposals : forall k b, proposals (working e) !! k = Some b -> Block.hash b = k /\ bheight b = zheight e;
  inv_queue : forall b, b ∈ exec_queue (execution e) -> decided (history e) (bheight b) (Block.hash b);
}.

(** What the outputs promise: a committed block, or one attested as executed, is decided, and every
    vote sent is in the log. *)
Definition out_ok L (o : Messages.Output) : Prop :=
  match o with
  | Messages.Committed h b => decided L h b
  | Messages.Send (Messages.MExecVote v) => decided L (Checkpoint.ev_height v) (Checkpoint.ev_head v)
  | Messages.Send (Messages.MVote sv) => Vote.vote sv ∈ L
  | _ => True
  end.

Lemma out_ok_mono L L' o : (forall v, v ∈ L -> v ∈ L') -> out_ok L o -> out_ok L' o.
Proof.
  intros Hs. destruct o as [[]| | |]; simpl; try done;
    first [apply Hs | by apply Agreement.decided_mono].
Qed.

(** The engine's reaction is sound: configuration kept, height not lowered, only own votes signed,
    and, short of the last height, the invariant kept and the outputs true. *)
Definition sound e (r : Engine S * list Messages.Output) : Prop :=
  let '(e', outs) := r in
  cfg e' = cfg e /\ zheight e <= zheight e' /\
  (exists new, history e' = history e ++ new /\ Forall (own e) new) /\
  (zheight e' < 2 ^ 64 - 1 -> Inv e -> Inv e' /\ Forall (out_ok (history e')) outs).

Lemma sound_refl e outs : Forall (out_ok (history e)) outs -> sound e (e, outs).
Proof. intros Ho. split; [done|]. split; [lia|]. split; [exists []; by rewrite app_nil_r|done]. Qed.

Lemma sound_trans e e1 out1 e2 out2 :
  sound e (e1, out1) -> sound e1 (e2, out2) -> sound e (e2, out1 ++ out2).
Proof.
  intros (C1 & Z1 & (new1 & H1 & O1) & I1) (C2 & Z2 & (new2 & H2 & O2) & I2).
  split; [congruence|]. split; [lia|]. split.
  - exists (new1 ++ new2). split; [by rewrite H2, H1, app_assoc|]. apply Forall_app. split; [done|].
    eapply Forall_impl; [exact O2|]. unfold own, me. by rewrite C1.
  - intros Hz Hi. destruct I1 as [I1 F1]; [lia|done|]. destruct I2 as [I2 F2]; [done|done|].
    split; [done|]. apply Forall_app. split; [|done]. eapply Forall_impl; [exact F1|].
    intros o. apply out_ok_mono. rewrite H2. set_solver.
Qed.

(** ** Reactions that leave the votes alone *)

(** Nothing the invariant speaks of changes, except that the queue of blocks may shrink. *)
Definition quiet e e' : Prop :=
  cfg e' = cfg e /\ working e' = working e /\ history e' = history e /\
  Chain.headers (chain e') = Chain.headers (chain e) /\ Chain.base_height (chain e') = Chain.base_height (chain e) /\
  pending_finalize (recovery e') = pending_finalize (recovery e) /\
  (forall b, b ∈ exec_queue (execution e') -> b ∈ exec_queue (execution e)).

#[global] Instance quiet_preorder : PreOrder quiet.
Proof.
  split.
  - intros e. repeat split; auto.
  - intros a b c (?&?&?&?&?&?&?) (?&?&?&?&?&?&?). repeat split; try congruence. auto.
Qed.

Lemma quiet_inv e e' : quiet e e' -> Inv e -> Inv e'.
Proof.
  intros (C & W & Hh & Hd & Hb & P & X) I.
  assert (Ez : zheight e' = zheight e) by (unfold zheight; congruence).
  assert (Em : me e' = me e) by (unfold me; congruence).
  destruct I. split; unfold verifiers, quorum, own in *; rewrite ?C, ?W, ?Hh, ?Hb, ?P, ?Ez, ?Em; auto.
Qed.

Lemma quiet_sound e e' outs : quiet e e' -> (Inv e -> Forall (out_ok (history e)) outs) -> sound e (e', outs).
Proof.
  intros Hq Ho. pose proof Hq as (C & W & Hh & Hd & Hb & P & X). split; [done|].
  split; [unfold zheight; rewrite Hd, Hb; lia|]. split; [exists []; by rewrite app_nil_r|].
  intros _ I. rewrite Hh. split; [by eapply quiet_inv|by apply Ho].
Qed.

(** As [quiet], with everything that execution depends on unchanged as well. *)
Definition steady e e' : Prop :=
  quiet e e' /\ exec_queue (execution e') = exec_queue (execution e) /\ chain e' = chain e /\
  committed_reveals (execution e') = committed_reveals (execution e) /\
  reward_per_block (execution e') = reward_per_block (execution e).

#[global] Instance steady_preorder : PreOrder steady.
Proof.
  split; [intros e; split; done|]. intros a b c (Q1 & ? & ? & ? & ?) (Q2 & ? & ? & ? & ?).
  split; [by trans b|]. repeat split; congruence.
Qed.

(** An output that promises nothing. *)
Definition neutral (o : Messages.Output) : Prop :=
  match o with
  | Messages.Committed _ _ | Messages.Send (Messages.MExecVote _) | Messages.Send (Messages.MVote _) => False
  | _ => True
  end.

Lemma neutral_ok L outs : Forall neutral outs -> Forall (out_ok L) outs.
Proof. intros HF. eapply Forall_impl; [exact HF|]. by intros [[]| | |]. Qed.

Lemma upd_x_steady fx e :
  (forall x, exec_queue (fx x) = exec_queue x /\ committed_reveals (fx x) = committed_reveals x /\
     reward_per_block (fx x) = reward_per_block x) -> steady e (upd_x fx e).
Proof. intros Hx. destruct (Hx (execution e)) as (H1 & H2 & H3). repeat split; simpl; intros *; by rewrite ?H1. Qed.

Lemma upd_r_steady fr e : (forall r, pending_finalize (fr r) = pending_finalize r) -> steady e (upd_r fr e).
Proof. intros Hr. repeat split; simpl; done. Qed.

Lemma note_height_steady h e : steady e (note_height h e).
Proof. by apply upd_r_steady. Qed.

Lemma readmit_steady tx e : steady e (readmit tx e).
Proof. by apply upd_x_steady. Qed.

Lemma emit_reveals_steady txs e : steady e (emit_reveals txs e).1 /\ Forall neutral (emit_reveals txs e).2.
Proof.
  revert e. induction txs as [|tx txs IH]; intros e; cbn [emit_reveals]; [done|].
  case_match; [by apply IH|]. case_match; [|by apply IH].
  match goal with |- context [emit_reveals txs ?e'] => specialize (IH e'); destruct (emit_reveals txs e') as [e2 out] end.
  destruct IH as [IH1 IH2]. split; [|by constructor]. simpl. etrans; [|exact IH1]. by apply upd_x_steady.
Qed.

Lemma validate_and_record_steady r e : steady e (validate_and_record r e).2.
Proof. unfold validate_and_record. repeat case_match; try reflexivity. by apply upd_x_steady. Qed.

Lemma record_all_steady rs e : steady e (record_all rs e).1 /\ Forall neutral (record_all rs e).2.
Proof.
  revert e. induction rs as [|r rs IH]; intros e; cbn [record_all]; [done|].
  pose proof (validate_and_record_steady r e) as Hv. destruct (validate_and_record r e) as [fresh e1].
  specialize (IH e1). destruct (record_all rs e1) as [e2 out]. destruct IH as [IH1 IH2]. simpl in *.
  split; [by trans e1|]. destruct fresh; [by constructor|done].
Qed.

Lemma drain_steady txs e : steady e (drain_pending_reveals txs e).1 /\ Forall neutral (drain_pending_reveals txs e).2.
Proof.
  revert e. induction txs as [|tx txs IH]; intros e; cbn [drain_pending_reveals]; [done|].
  destruct (take_early _ _ _) as [early m].
  pose proof (record_all_steady early (upd_x (set_pending_reveals m) e)) as Hr.
  destruct (record_all early _) as [e1 out1]. specialize (IH e1). destruct (drain_pending_reveals txs e1) as [e2 out2].
  destruct Hr as [R1 R2], IH as [I1 I2]. simpl in *. split; [|by apply Forall_app].
  etrans; [|exact I1]. etrans; [|exact R1]. by apply upd_x_steady.
Qed.

Lemma absorb_quiet b e : quiet e (absorb_committed_reveals b e) /\
  exec_queue (execution (absorb_committed_reveals b e)) = exec_queue (execution e).
Proof. unfold absorb_committed_reveals. case_match; split; done. Qed.

Lemma prune_steady e : steady e (prune_recovery_retention e).
Proof. unfold prune_recovery_retention. case_match; [|reflexivity]. by apply upd_r_steady. Qed.

Lemma try_form_checkpoint_steady h e : steady e (try_form_checkpoint h e).
Proof.
  unfold try_form_checkpoint. cbv zeta. repeat case_match; try reflexivity;
    (etrans; [|apply prune_steady]; (etrans; [|by apply upd_r_steady]); try reflexivity; by apply upd_r_steady).
Qed.

Lemma record_exec_vote_steady v e : steady e (record_exec_vote v e).
Proof. unfold record_exec_vote. etrans; [|apply try_form_checkpoint_steady]. by apply upd_r_steady. Qed.

Lemma note_deferrals_steady ps e : steady e (note_deferrals ps e).
Proof.
  revert e. induction ps as [|[tx o] ps IH]; intros e; cbn [note_deferrals]; [reflexivity|].
  etrans; [|apply IH]. repeat case_match; try reflexivity; try (by apply upd_x_steady);
    (etrans; [|apply readmit_steady]; by apply upd_x_steady).
Qed.

Lemma run_block_chain c rw b m opened (ch : Chain.Chain S) :
  Chain.headers (run_block c rw b m opened ch).1 = Chain.headers ch /\
  Chain.base_height (run_block c rw b m opened ch).1 = Chain.base_height ch.
Proof.
  unfold run_block, Chain.execute_block. cbv zeta. repeat case_match; simpl; done.
Qed.

(** Execution attests only blocks of the queue. *)
Lemma execute_queue_quiet queue e : exec_queue (execution e) = queue ->
  quiet e (execute_queue queue e).1 /\
  Forall (fun o => exists b v, b ∈ queue /\ o = Messages.Send (Messages.MExecVote v) /\
    Checkpoint.ev_height v = bheight b /\ Checkpoint.ev_head v = Block.hash b) (execute_queue queue e).2.
Proof.
  revert e. induction queue as [|b queue IH]; intros e Eq; cbn [execute_queue]; [done|].
  destruct (execution_height b e) as [at_|]; [|done]. cbv zeta.
  set (committed := openings_in _ _ _). set (opened := omap _ _). set (e1 := upd_x (set_exec_queue queue) e).
  pose proof (run_block_chain (cfg e1) (reward_per_block (execution e1)) b committed (opened.*2) (chain e1)) as [R1 R2].
  destruct (run_block _ _ _ _ _ _) as [ch outcomes]. simpl in R1, R2.
  set (e2 := note_deferrals (zip (opened.*1) outcomes) (set_chain ch e1)).
  pose proof (note_deferrals_steady (zip (opened.*1) outcomes) (set_chain ch e1)) as S2. fold e2 in S2.
  unfold emit_exec_vote. set (v := Checkpoint.exec_sign _ _ _ _ _).
  set (e3 := capture_sync_snapshot b (record_exec_vote v e2)).
  assert (S3 : steady (set_chain ch e1) e3).
  { trans e2; [done|]. etrans; [apply (record_exec_vote_steady v)|]. by apply upd_r_steady. }
  specialize (IH e3). destruct (execute_queue queue e3) as [e4 outs]. destruct IH as [I1 I2].
  { destruct S3 as (_ & -> & _). done. }
  simpl in *. split.
  - assert (quiet e (set_chain ch e1)) as Q1.
    { repeat split; try done. intros x Hx. simpl in Hx. rewrite Eq. by right. }
    etrans; [exact Q1|]. etrans; [apply S3|]. done.
  - constructor.
    + exists b, v. split; [by left|]. done.
    + eapply Forall_impl; [exact I2|]. intros o (b' & v' & Hb & Ho). exists b', v'. split; [by right|done].
Qed.

(** ** Finalization *)

Lemma height_z e : Inv e -> zheight e < 2 ^ 64 -> height e = zheight e.
Proof.
  intros I Hz. unfold height, Chain.next_height. apply wrap_small. unfold in_u, zheight in *.
  pose proof (inv_base e I). lia.
Qed.

(** Entering a new height with fresh working state keeps the invariant: nothing was voted there. *)
Lemma fresh_inv e e' :
  Inv e -> cfg e' = cfg e -> history e' = history e -> working e' = fresh_working -> zheight e < zheight e' ->
  0 <= Chain.base_height (chain e') ->
  (forall h b, pending_finalize (recovery e') !! h = Some b -> decided (history e) h b) ->
  (forall b, b ∈ exec_queue (execution e') -> decided (history e) (bheight b) (Block.hash b)) -> Inv e'.
Proof.
  intros I C Hh W Hz Hb P X.
  assert (Em : me e' = me e) by (unfold me; congruence).
  assert (Hnone : forall v, v ∈ history e -> own e v -> Vote.height v = zheight e' -> False).
  { intros v Hv Ho Ev. pose proof (inv_past e I v Hv Ho). lia. }
  split; rewrite ?Hh, ?W, ?Em; unfold own; rewrite ?Em; try done.
  - unfold verifiers. rewrite C. apply I.
  - unfold quorum. rewrite C. apply I.
  - apply I.
  - intros v Hv Ho. pose proof (inv_past e I v Hv Ho). lia.
  - intros v Hv Ho Ev. by destruct (Hnone v).
  - intros u (Hu & Ho & Eu & _)%Agreement.last_commit_Some. by destruct (Hnone u).
Qed.

Lemma emit_all_steady bs e : steady e (emit_all bs e).1 /\ Forall neutral (emit_all bs e).2.
Proof.
  revert e. induction bs as [|b bs IH]; intros e; cbn [emit_all]; [done|].
  pose proof (emit_reveals_steady (Block.sealed_txs b) e) as Hr. destruct (emit_reveals _ e) as [e1 out1].
  specialize (IH e1). destruct (emit_all bs e1) as [e2 out2]. destruct Hr as [R1 R2], IH as [I1 I2]. simpl in *.
  split; [by trans e1|by apply Forall_app].
Qed.

(** Everything the invariant needs to know of a finalization with the body at hand. *)
Lemma finalize_facts bh b e : proposals (working e) !! bh = Some b ->
  let '(e', outs) := finalize bh e in
  cfg e' = cfg e /\ history e' = history e /\ working e' = fresh_working /\
  Chain.headers (chain e') = Chain.headers (chain e) ++ [Block.header b] /\
  Chain.base_height (chain e') = Chain.base_height (chain e) /\
  pending_finalize (recovery e') = delete (height e) (pending_finalize (recovery e)) /\
  (forall x, x ∈ exec_queue (execution e') -> x ∈ exec_queue (execution e) ++ [b]) /\
  Forall (fun o => o = Messages.Committed (height e) bh \/ neutral o \/
    exists x v, x ∈ exec_queue (execution e) ++ [b] /\ o = Messages.Send (Messages.MExecVote v) /\
      Checkpoint.ev_height v = bheight x /\ Checkpoint.ev_head v = Block.hash x) outs.
Proof.
  intros Hb. unfold finalize. rewrite Hb. cbv zeta. set (finalizer := default _ _).
  set (e1 := upd_r _ e).
  set (e2 := set_chain _ (set_last_finalized_cert _ (prune_recovery_retention e1))).
  pose proof (prune_steady e1) as [(P1 & P2 & P3 & P4 & P5 & P6 & _) [P7 _]].
  pose proof (emit_reveals_steady (Block.sealed_txs b) e2) as E3.
  destruct (emit_reveals _ e2) as [e3 out1]. destruct E3 as [S3 N3].
  pose proof (emit_all_steady (exec_queue (execution e3)) e3) as E4.
  destruct (emit_all _ e3) as [e4 out2]. destruct E4 as [S4 N4]. simpl in S3, N3, S4, N4.
  set (e5 := absorb_committed_reveals b e4). pose proof (absorb_quiet b e4) as [S5 X5]. fold e5 in S5, X5.
  assert (S24 : steady e2 e4) by (by trans e3).
  assert (S25 : quiet e2 e5) by (trans e4; [apply S24|done]). destruct S24 as (_ & X4 & _). clear S3 S4 S5.
  set (e6 := upd_x (fun x => set_exec_queue (exec_queue x ++ [b]) x) e5).
  pose proof (drain_steady (Block.sealed_txs b) e6) as E7. destruct (drain_pending_reveals _ e6) as [e7 out3].
  destruct E7 as [S7 N7]. simpl in S7, N7.
  set (e8 := upd_x _ e7). assert (S8 : steady e6 e8) by (trans e7; [done|]; by apply upd_x_steady).
  unfold try_execute. pose proof (execute_queue_quiet _ e8 eq_refl) as E9.
  destruct (execute_queue _ e8) as [e9 out4]. destruct E9 as [S9 N9]. cbn [fst snd] in S9, N9.
  destruct S25 as (A1 & A2 & A3 & A4 & A5 & A6 & _), S8 as [(B1 & B2 & B3 & B4 & B5 & B6 & _) [B7 _]].
  destruct S9 as (C1 & C2 & C3 & C4 & C5 & C6 & C7).
  assert (Q8 : exec_queue (execution e8) = exec_queue (execution e) ++ [b]).
  { rewrite B7. unfold e6. cbn [execution upd_x set_execution exec_queue set_exec_queue]. rewrite X5, X4.
    unfold e2. cbn [execution set_chain set_last_finalized_cert]. by rewrite P7. }
  rewrite Q8 in N9.
  unfold e6, e2, e1 in *. cbn [cfg chain working execution recovery history upd_x upd_r set_execution set_recovery
    set_chain set_last_finalized_cert pending_finalize set_pending_finalize Chain.headers Chain.base_height
    Chain.finalize reset_round_state set_working] in *.
  repeat split; try congruence.
  - intros x Hx. setoid_rewrite Q8 in C7. by apply C7.
  - constructor; [by left|]. rewrite !Forall_app.
    repeat split; (eapply Forall_impl; [eassumption|]); auto.
Qed.

Lemma finalize_sound bh e :
  (Inv e -> zheight e < 2 ^ 64 - 1 -> decided (history e) (zheight e) bh) -> sound e (finalize bh e).
Proof.
  intros Hd. destruct (proposals (working e) !! bh) as [b|] eqn:Eb.
  - pose proof (finalize_facts bh b e Eb) as Hf. destruct (finalize bh e) as [e' outs].
    destruct Hf as (C & Hh & W & Hd' & Hb & P & X & O).
    assert (Ez : zheight e' = zheight e + 1) by (unfold zheight; rewrite Hd', Hb, length_app; cbn; lia).
    split; [done|]. split; [lia|]. split; [exists []; by rewrite app_nil_r|]. intros Hz I.
    specialize (Hd I ltac:(lia)). pose proof (height_z e I ltac:(lia)) as Eh.
    destruct (inv_proposals e I bh b Eb) as [Hb1 Hb2].
    assert (HX : forall x, x ∈ exec_queue (execution e) ++ [b] -> decided (history e) (bheight x) (Block.hash x)).
    { intros x [Hx|Hx]%elem_of_app; [by apply (inv_queue e I)|]. apply list_elem_of_singleton in Hx as ->. by rewrite Hb1, Hb2. }
    split.
    + apply (fresh_inv e); auto; [lia|rewrite Hb; apply I|].
      rewrite P. intros h x [_ Hx]%lookup_delete_Some. by apply (inv_pending e I).
    + rewrite Hh. eapply Forall_impl; [exact O|]. intros o [ -> | [Hn|(x & v & Hx & -> & E1 & E2)]].
      * simpl. by rewrite Eh.
      * by destruct o as [[]| | |].
      * simpl. rewrite E1, E2. by apply HX.
  - unfold finalize. rewrite Eb. set (e' := upd_r _ e). split; [done|]. split; [unfold zheight; simpl; lia|].
    split; [exists []; by rewrite app_nil_r|]. intros Hz I. assert (Hze : zheight e' = zheight e) by done.
    rewrite Hze in Hz. split; [|done]. destruct I as [] eqn:EI. split; try done.
    unfold e'. simpl. rewrite (height_z e I) by lia.
    intros h x [[<- <-]|[_ Hx]]%lookup_insert_Some; [by apply Hd|by eapply inv_pending].
Qed.

Lemma steady_sound e e1 r : steady e e1 -> sound e1 r -> sound e r.
Proof.
  destruct r as [e' outs]. intros [Hq _] Hs.
  apply (sound_trans e e1 [] e' outs); [|done]. apply quiet_sound; [done|constructor].
Qed.

(** Working-state updates that keep rounds, votes and locks. *)
Lemma upd_w_sound fw e :
  (forall w, round (fw w) = round w /\ prepares (fw w) = prepares w /\ commits (fw w) = commits w /\
     sent_prepare (fw w) = sent_prepare w /\ sent_commit (fw w) = sent_commit w /\
     locked_block (fw w) = locked_block w /\ locked_cert (fw w) = locked_cert w) ->
  (Inv e -> zheight e < 2 ^ 64 - 1 -> forall k b, proposals (fw (working e)) !! k = Some b ->
     Block.hash b = k /\ bheight b = zheight e) ->
  sound e (upd_w fw e, []).
Proof.
  intros Hf Hp. destruct (Hf (working e)) as (F1 & F2 & F3 & F4 & F5 & F6 & F7).
  split; [done|]. split; [unfold zheight; simpl; lia|]. split; [exists []; by rewrite app_nil_r|].
  intros Hz I. change (zheight (upd_w fw e)) with (zheight e) in Hz. split; [|constructor].
  destruct I as [] eqn:EI. split; try done; simpl;
    rewrite ?F1, ?F2, ?F3, ?F4, ?F5, ?F6, ?F7; try done. by apply Hp.
Qed.

(** ** Certificates, bodies and synchronisation *)

Lemma valid_quorum L e c : Inv e -> Forall (known L) (Vote.votes c) -> cert_valid c e = true ->
  quorum_for L (Vote.c_phase c) (Vote.c_height c) (Vote.c_round c) (Vote.c_block_hash c).
Proof.
  intros I HK HV. apply cert_quorum; [done|]. unfold cert_valid in HV. by rewrite (inv_q e I), (inv_vks e I) in HV.
Qed.

Lemma adopt_commit_cert_sound c e : Forall (known (history e)) (Vote.votes c) -> sound e (adopt_commit_cert c e).
Proof.
  intros HK. unfold adopt_commit_cert. cbv zeta.
  destruct (Z.eqb_spec (Vote.c_height c) (height e)) as [Eh|]; [|by apply sound_refl].
  case_bool_decide as Ep; [by apply sound_refl|]. cbn [negb orb].
  destruct (cert_valid c e) eqn:Ev; [|by apply sound_refl]. cbn [negb].
  set (e1 := upd_r _ e). apply (steady_sound e e1); [by apply upd_r_steady|]. apply finalize_sound. intros I Hz.
  change (zheight e1) with (zheight e) in *. change (history e1) with (history e).
  assert (I' : Inv e) by (eapply quiet_inv; [|exact I]; repeat split; auto).
  exists (Vote.c_round c). rewrite <- Ep, <- (height_z e), <- Eh by (done || lia). by eapply valid_quorum.
Qed.

(** Every certificate a block carries holds votes that can be received. *)
Definition block_known L (b : Block.Block) : Prop :=
  forall c, Block.pol b = Some c \/ Block.last_commit b = Some c -> Forall (known L) (Vote.votes c).

Lemma adopt_certified_parent_sound b e : block_known (history e) b -> sound e (adopt_certified_parent b e).
Proof.
  intros HK. unfold adopt_certified_parent. case_match; [by apply sound_refl|].
  destruct (Block.last_commit b) as [c|] eqn:Ec; [|by apply sound_refl].
  apply adopt_commit_cert_sound, HK. by right.
Qed.

Lemma note_certified_height_steady b e : steady e (note_certified_height b e).
Proof. unfold note_certified_height. repeat case_match; try reflexivity. apply note_height_steady. Qed.

Lemma on_body_sound b e : sound e (on_body b e).
Proof.
  unfold on_body. cbv zeta. set (awaited := bool_decide _). set (wanted := awaited || _).
  destruct (negb wanted || _ || _) eqn:Et; [by apply sound_refl|].
  rewrite !orb_false_iff, !negb_false_iff in Et. destruct Et as [[_ Eh%Z.eqb_eq] _].
  set (e1 := upd_w _ e). assert (S1 : sound e (e1, [])).
  { apply upd_w_sound; [done|]. intros I Hz k x. simpl.
    intros [[<- <-]|[_ Hx]]%lookup_insert_Some; [|by apply (inv_proposals e I)].
    split; [done|]. rewrite Eh. apply height_z; [done|lia]. }
  destruct awaited eqn:Ea; [|done]. apply bool_decide_eq_true in Ea.
  assert (S2 : sound e1 (finalize (Block.hash b) e1)).
  { apply finalize_sound. intros I Hz. apply (inv_pending e1 I). by rewrite <- (height_z e1) by (done || lia). }
  destruct (finalize (Block.hash b) e1) as [e2 outs]. by apply (sound_trans e e1 [] e2 outs).
Qed.

Lemma maybe_request_body_steady e : steady e (maybe_request_body e).1 /\ Forall neutral (maybe_request_body e).2.
Proof.
  unfold maybe_request_body. repeat case_match; simpl; split; try reflexivity; try (by repeat constructor).
Qed.

Lemma maybe_propose_sound e : sound e (maybe_propose e).
Proof.
  unfold maybe_propose. cbv zeta. repeat case_match; try (by apply sound_refl);
    match goal with |- sound e (?e', ?o) => change o with ([] ++ o); apply (sound_trans e e') end;
    try (apply upd_w_sound; [done|]; intros I _; apply (inv_proposals e I));
    by apply sound_refl; repeat constructor.
Qed.

(** Parking certificates: nothing but decided blocks awaits its body. *)
Lemma park_sound c e : Forall (known (history e)) (Vote.votes c) -> sound e (park c e, []).
Proof.
  intros HK. unfold park. case_bool_decide as Ep; [by apply sound_refl|].
  destruct (_ <? _); [by apply sound_refl|]. destruct (cert_valid c e) eqn:Ev; [|by apply sound_refl]. cbn [orb negb].
  set (e' := upd_r _ e). split; [done|]. split; [unfold zheight; simpl; lia|].
  split; [exists []; by rewrite app_nil_r|]. intros _ I. split; [|constructor].
  destruct I as [] eqn:EI. split; try done. simpl.
  intros h x [[<- <-]|[_ Hx]]%lookup_insert_Some; [|by apply inv_pending].
  exists (Vote.c_round c). rewrite <- Ep. by eapply valid_quorum.
Qed.

Lemma park_all_sound cs e : Forall (fun c => Forall (known (history e)) (Vote.votes c)) cs ->
  sound e (fold_left (fun e c => park c e) cs e, []).
Proof.
  revert e. induction cs as [|c cs IH]; intros e; cbn [fold_left]; [intros _; by apply sound_refl|].
  rewrite Forall_cons. intros [Hc Hcs]. apply (sound_trans e (park c e) [] _ []); [by apply park_sound|].
  apply IH. replace (history (park c e)) with (history e); [done|]. unfold park. by repeat case_match.
Qed.

(** Adopting a certified state from a decided block at or above our height. *)
Lemma on_sync_resp_sound cert above snapshot e :
  zheight e < 2 ^ 64 - 1 -> zheight e <= Checkpoint.xc_height cert ->
  (Inv e -> Checkpoint.xc_verify cert q vks = true ->
     decided (history e) (Checkpoint.xc_height cert) (Checkpoint.xc_head cert)) ->
  Forall (fun c => Forall (known (history e)) (Vote.votes c)) above ->
  sound e (on_sync_resp cert above snapshot e).
Proof.
  intros Hz Hle Hd HK. unfold on_sync_resp. destruct (_ && _); [by apply sound_refl|].
  destruct (Checkpoint.xc_verify cert (quorum e) (verifiers e)) eqn:Ev; [|by apply sound_refl]. cbn [negb].
  destruct (sm_restore snapshot) as [st|]; [|by apply sound_refl]. cbv zeta.
  destruct (bool_decide (sm_state_root st <> _)); [by apply sound_refl|].
  set (h := Checkpoint.xc_height cert) in *. set (hd := Checkpoint.xc_head cert) in *.
  set (e1 := upd_r _ _).
  assert (Hz1 : zheight e1 = sat_add 64 h 1) by (unfold zheight; simpl; lia).
  assert (S1 : sound e (e1, [Messages.Committed h hd])).
  { split; [done|]. rewrite Hz1. unfold sat_add in *. split; [lia|]. split; [exists []; by rewrite app_nil_r|].
    intros Hlt I. rewrite (inv_q e I), (inv_vks e I) in Ev. specialize (Hd I Ev). split.
    - pose proof (inv_base e I). apply (fresh_inv e); try done.
      + rewrite Hz1. unfold sat_add. lia.
      + simpl. unfold sat_add, zheight in *. lia.
      + intros b Hb. simpl in Hb. by apply elem_of_nil in Hb.
    - by repeat constructor. }
  set (e2 := fold_left _ _ _). pose proof (park_all_sound above e1 HK) as S2. fold e2 in S2.
  set (e3 := note_height _ e2). pose proof (maybe_request_body_steady e3) as [S3 N3].
  destruct (maybe_request_body e3) as [e4 out]. simpl in S3, N3.
  change (Messages.Committed h hd :: out) with ([Messages.Committed h hd] ++ [] ++ out).
  eapply sound_trans; [exact S1|]. eapply sound_trans; [exact S2|].
  apply quiet_sound; [|by intros; apply neutral_ok]. etrans; [apply note_height_steady|]. apply S3.
Qed.

(** ** Signing *)

Lemma collect_sub p h r bh seen src sv : sv ∈ collect p h r bh seen src -> sv ∈ src.
Proof.
  revert seen. induction src as [|x src IH]; intros seen; cbn [collect]; [done|].
  case_match; [|intros Hs; right; by eapply IH].
  intros [ -> |Hs]%elem_of_cons; [by left|right; by eapply IH].
Qed.

Lemma collected_known p bh e : Inv e -> Forall (known (history e)) (Vote.votes (collect_cert p bh e)).
Proof.
  intros I. pose proof (inv_known e I) as HK. rewrite Forall_forall in HK. apply Forall_forall. intros sv Hsv.
  apply HK, elem_of_app. apply collect_sub in Hsv. destruct p; auto.
Qed.

Lemma last_commit_snoc L v i h :
  Agreement.last_commit (L ++ [v]) i h =
    if decide (Agreement.seat v = i /\ Vote.height v = h /\ Vote.phase v = Vote.Commit) then Some v
    else Agreement.last_commit L i h.
Proof.
  unfold Agreement.last_commit, Agreement.commits_of. rewrite filter_app. cbn. case_decide.
  - by rewrite last_snoc.
  - by rewrite app_nil_r.
Qed.

(** Signing a vote that the rules allow, with the working state updated to remember it. *)
Lemma sign_sound fw p bh e :
  let w := working e in
  let v := Vote.mk_vote (height e) (round w) bh p (me e) in
  round (fw w) = round w -> prepares (fw w) = prepares w -> commits (fw w) = commits w ->
  proposals (fw w) = proposals w -> sent_prepare w ⊆ sent_prepare (fw w) -> sent_commit w ⊆ sent_commit (fw w) ->
  match p with
  | Vote.Prepare => round w ∈ sent_prepare (fw w) /\
      locked_block (fw w) = locked_block w /\ locked_cert (fw w) = locked_cert w
  | Vote.Commit => round w ∈ sent_commit (fw w) /\ locked_block (fw w) = Some bh /\
      exists c, locked_cert (fw w) = Some c /\ Vote.c_round c = round w
  end ->
  (Inv e -> zheight e < 2 ^ 64 - 1 -> vote_ok (history e) v) ->
  sound e (set_history (history e ++ [v]) (upd_w fw e), []).
Proof.
  intros w v F1 F2 F3 F4 F5 F6 F7 Hok. set (e' := set_history _ _).
  split; [done|]. split; [unfold zheight; simpl; lia|]. split.
  { exists [v]. split; [done|]. by repeat constructor. }
  intros Hz I. change (zheight e') with (zheight e) in Hz. specialize (Hok I Hz). split; [|constructor].
  pose proof (height_z e I ltac:(lia)) as Eh.
  assert (Hsub : forall x, x ∈ history e -> x ∈ history e') by (intros x Hx; simpl; set_solver).
  assert (Hin : forall x, x ∈ history e' -> x ∈ history e \/ x = v).
  { intros x [Hx|Hx]%elem_of_app; [by left|right]. by apply list_elem_of_singleton in Hx. }
  split; change (zheight e') with (zheight e); change (me e') with (me e); change (own e') with (own e);
    change (working e') with (fw w); change (pending_finalize (recovery e')) with (pending_finalize (recovery e));
    change (execution e') with (execution e); rewrite ?F1, ?F2, ?F3, ?F4.
  - apply I.
  - apply I.
  - apply I.
  - constructor; [apply I|done].
  - apply I.
  - intros x [Hx| ->]%Hin Ho; [by apply (inv_past e I)|]. simpl. lia.
  - intros x [Hx| ->]%Hin Ho Ex.
    + destruct (inv_now e I x Hx Ho Ex) as [Hr Hs]. split; [done|]. destruct (Vote.phase x); set_solver.
    + split; [simpl; lia|]. simpl. destruct p; apply F7.
  - intros u. change (history e') with (history e ++ [v]). rewrite last_commit_snoc.
    case_decide as Hd.
    + intros [= <-]. destruct Hd as (_ & _ & Ep). simpl in Ep. subst p. apply F7.
    + intros Hu. destruct p; [|exfalso; apply Hd; repeat split; simpl; done].
      destruct F7 as (_ & -> & ->). by apply (inv_lock e I).
  - eapply Forall_impl; [apply (inv_known e I)|]. intros sv. by apply known_mono.
  - intros h b Hb. eapply Agreement.decided_mono; [exact Hsub|]. by apply (inv_pending e I).
  - apply I.
  - intros b Hb. eapply Agreement.decided_mono; [exact Hsub|]. by apply (inv_queue e I).
Qed.

(** What the sent sets say about the votes already signed. *)
Lemma unsent_fresh p e : Inv e -> zheight e < 2 ^ 64 - 1 ->
  (match p with Vote.Prepare => round (working e) ∉ sent_prepare (working e)
              | Vote.Commit => round (working e) ∉ sent_commit (working e) end) ->
  forall bh u, u ∈ history e ->
    let v := Vote.mk_vote (height e) (round (working e)) bh p (me e) in
    Agreement.seat u = Agreement.seat v -> Vote.height u = Vote.height v ->
    Vote.round u <= Vote.round v /\ (Vote.round u = Vote.round v -> Vote.phase u <> Vote.phase v).
Proof.
  intros I Hz Hs bh u Hu v Es Ev. simpl in Es, Ev |- *. rewrite (height_z e I) in Ev by lia.
  destruct (inv_now e I u Hu Es Ev) as [Hr Hp]. split; [done|]. intros Er Ep. rewrite Ep, Er in Hp. by destruct p.
Qed.

(** ** The knot *)

Definition rec_ok (accept : Vote.SignedVote -> Engine S -> Result) : Prop :=
  forall sv e r, (Inv e -> known (history e) sv) -> accept sv e = Some r -> sound e r.

Lemma and_then_sound e m k r :
  (forall r1, m = Some r1 -> sound e r1) -> (forall e1 r2, k e1 = Some r2 -> sound e1 r2) ->
  and_then m k = Some r -> sound e r.
Proof.
  intros Hm Hk. unfold and_then. destruct m as [[e1 o1]|]; [|done].
  destruct (k e1) as [[e2 o2]|] eqn:E; [|done]. intros [= <-].
  eapply sound_trans; [by apply Hm|by apply Hk].
Qed.

Section knot.
  Variable accept : Vote.SignedVote -> Engine S -> option (Engine S * list Messages.Output).
  Hypothesis Hrec : rec_ok accept.

Lemma cast_sound fw p bh e r :
  let w := working e in
  let v := Vote.mk_vote (height e) (round w) bh p (me e) in
  sound e (set_history (history e ++ [v]) (upd_w fw e), []) -> round (fw w) = round w ->
  cast accept p bh (upd_w fw e) = Some r -> sound e r.
Proof.
  intros w v Hs Er. unfold cast.
  change (height (upd_w fw e)) with (height e). change (me (upd_w fw e)) with (me e).
  change (round (working (upd_w fw e))) with (round (fw w)). rewrite Er. fold v.
  change (history (upd_w fw e)) with (history e). set (e1 := set_history _ _) in *.
  set (sv := Vote.sign v _). destruct (accept sv e1) as [[e2 o]|] eqn:Ea; [|done]. intros [= <-].
  assert (S2 : sound e1 (e2, o)).
  { eapply Hrec; [|exact Ea]. intros I1. split.
    - simpl. rewrite <- Er. exact (inv_round e1 I1).
    - intros _ _. simpl. apply elem_of_app. right. by apply list_elem_of_singleton. }
  assert (Hin : v ∈ history e2).
  { destruct S2 as (_ & _ & (new & -> & _) & _). simpl. set_solver. }
  apply (sound_trans e e1 [] e2 _); [done|]. apply (sound_trans e1 e2 o e2 _); [done|].
  apply sound_refl. by repeat constructor.
Qed.

(** A PREPARE is sound when the round has none yet and the lock allows the block. *)
Lemma cast_prepare_sound bh e r :
  sent_prepare_now e = false ->
  (Inv e -> zheight e < 2 ^ 64 - 1 -> bh = Vote.NIL \/ forall u,
     Agreement.last_commit (history e) (Z.to_nat (me e)) (zheight e) = Some u ->
     bh = Vote.block_hash u \/
     exists r, Vote.round u < r <= round (working e) /\ quorum_for (history e) Vote.Prepare (zheight e) r bh) ->
  cast_prepare accept bh e = Some r -> sound e r.
Proof.
  intros Hs%bool_decide_eq_false Hok. unfold cast_prepare. apply cast_sound; [|done].
  apply sign_sound; simpl; try done; try set_solver.
  intros I Hz. split; [by apply unsent_fresh|]. simpl. rewrite (height_z e I) by lia. by apply Hok.
Qed.

Lemma reprepare_lock_sound e r : reprepare_lock accept e = Some r -> sound e r.
Proof.
  unfold reprepare_lock. destruct (locked_block (working e)) as [bh|] eqn:El; [|intros [= <-]; by apply sound_refl].
  destruct (sent_prepare_now e) eqn:Es; [intros [= <-]; by apply sound_refl|].
  destruct (has_proposal bh e); [|intros [= <-]; by apply sound_refl]. cbn [orb negb].
  apply cast_prepare_sound; [done|]. intros I Hz. right. intros u Hu. left.
  destruct (inv_lock e I u Hu) as [E _]. congruence.
Qed.

Lemma check_prepared_sound bh r e res : check_prepared accept bh r e = Some res -> sound e res.
Proof.
  unfold check_prepared. cbv zeta. case_bool_decide as En; [intros [= <-]; by apply sound_refl|].
  destruct (r =? _); [|intros [= <-]; by apply sound_refl].
  case_bool_decide as Es; [intros [= <-]; by apply sound_refl|]. cbn [orb negb].
  set (cert := collect_cert Vote.Prepare bh e).
  destruct (cert_valid cert e) eqn:Ev; [|intros [= <-]; by apply sound_refl]. cbn [negb].
  apply cast_sound; [|done]. apply sign_sound; simpl; try done; try set_solver.
  intros I Hz. split; [by apply unsent_fresh|]. simpl. split; [done|].
  pose proof (valid_quorum _ e cert I (collected_known Vote.Prepare bh e I) Ev) as Hq. exact Hq.
Qed.

Lemma check_committed_sound bh e res : check_committed bh e = Some res -> sound e res.
Proof.
  unfold check_committed. set (cert := collect_cert Vote.Commit bh e).
  destruct (cert_valid cert e) eqn:Ev; [|intros [= <-]; by apply sound_refl]. cbn [negb]. intros [= <-].
  apply finalize_sound. intros I Hz. exists (round (working e)).
  pose proof (valid_quorum _ e cert I (collected_known Vote.Commit bh e I) Ev) as Hq.
  simpl in Hq. by rewrite (height_z e I) in Hq by lia.
Qed.

(** Moving to a later round keeps the invariant. *)
Lemma set_round_sound r e :
  (Inv e -> round (working e) <= r <= 2 ^ 32 - 1) -> sound e (upd_w (set_round r) e, []).
Proof.
  intros Hr. split; [done|]. split; [unfold zheight; simpl; lia|]. split; [exists []; by rewrite app_nil_r|].
  intros _ I. specialize (Hr I). split; [|constructor]. destruct I as [] eqn:EI. split; try done; simpl; [lia|].
  intros v Hv Ho Ev. destruct (inv_now0 v Hv Ho Ev). split; [lia|done].
Qed.

(** Entering a round: the lock is prepared again, then a proposal may follow. *)
Lemma enter_round_sound r e res :
  (Inv e -> round (working e) <= r <= 2 ^ 32 - 1) ->
  and_then (reprepare_lock accept (upd_w (set_round r) e)) (fun e => Some (maybe_propose e)) = Some res ->
  sound e res.
Proof.
  intros Hr. apply and_then_sound.
  - intros [e1 o] E. apply (sound_trans e (upd_w (set_round r) e) [] e1 o); [by apply set_round_sound|].
    by apply reprepare_lock_sound.
  - intros e1 r2 [= <-]. apply maybe_propose_sound.
Qed.

Lemma advance_round_sound e res : advance_round accept e = Some res -> sound e res.
Proof.
  unfold advance_round. apply (enter_round_sound (sat_add 32 (round (working e)) 1)).
  intros I. pose proof (inv_round e I). unfold sat_add. lia.
Qed.

Lemma round_failed_sound e res : round_failed_by_votes accept e = Some res -> sound e res.
Proof.
  unfold round_failed_by_votes. cbv zeta. case_match; [intros [= <-]; by apply sound_refl|].
  case_match; [intros [= <-]; by apply sound_refl|]. apply advance_round_sound.
Qed.

Lemma highest_rounds_bound e k r : Inv e -> highest_rounds e !! k = Some r -> r <= 2 ^ 32 - 1.
Proof.
  intros I. pose proof (inv_known e I) as HK. unfold highest_rounds.
  assert (Hm : forall k r, (∅ : gmap Z Z) !! k = Some r -> r <= 2 ^ 32 - 1) by (intros ? ?; by rewrite lookup_empty).
  revert Hm k r. generalize (∅ : gmap Z Z) as m. induction HK as [|sv svs [Hr _] _ IH]; intros m Hm k r; [apply Hm|].
  cbn [fold_left]. apply IH. clear k r. intros k r. case_match; [|apply Hm].
  intros [[<- <-]|[_ Hk]]%lookup_insert_Some; [|by eapply Hm].
  destruct (m !! Vote.voter (Vote.vote sv)) as [x|] eqn:Ex; simpl; [pose proof (Hm _ _ Ex)|]; lia.
Qed.

Lemma maybe_advance_round_sound e res : maybe_advance_round accept e = Some res -> sound e res.
Proof.
  unfold maybe_advance_round. cbv zeta. case_match; [intros [= <-]; by apply sound_refl|].
  destruct (merge_sort _ _ !! _) as [target|] eqn:Et; [|intros [= <-]; by apply sound_refl].
  destruct (Z.leb_spec target (round (working e))); [intros [= <-]; by apply sound_refl|].
  apply enter_round_sound. intros I. split; [lia|].
  apply list_elem_of_lookup_2 in Et. rewrite merge_sort_Permutation in Et.
  apply list_elem_of_fmap in Et as ([k t] & -> & Hk). unfold zlist in Hk.
  rewrite merge_sort_Permutation in Hk. apply elem_of_map_to_list in Hk. by eapply highest_rounds_bound.
Qed.

Lemma push_vote_known L sv svs : known L sv -> Forall (known L) svs -> Forall (known L) (push_vote sv svs).
Proof. intros. unfold push_vote. case_match; [|done]. apply Forall_app. split; [done|by apply Forall_singleton]. Qed.

Lemma store_vote_sound sv e : (Inv e -> known (history e) sv) -> sound e (store_vote sv e, []).
Proof.
  intros HK. split; [done|]. split; [unfold zheight; simpl; lia|]. split; [exists []; by rewrite app_nil_r|].
  intros _ I. specialize (HK I). split; [|constructor]. destruct I.
  apply Forall_app in inv_known0 as [K1 K2]. split; try done; unfold store_vote; simpl; destruct (Vote.phase _); simpl;
    try done; apply Forall_app; split; try done; by apply push_vote_known.
Qed.

Lemma accept_body_sound sv e res :
  (Inv e -> known (history e) sv) -> accept_body accept sv e = Some res -> sound e res.
Proof.
  intros HK. unfold accept_body. cbv zeta.
  destruct (verifier_at e _) as [k|]; [|intros [= <-]; by apply sound_refl].
  destruct (Vote.verify sv k); [|intros [= <-]; by apply sound_refl]. cbn [negb].
  destruct (_ =? _); cbn [negb].
  2: { intros [= <-]. apply quiet_sound; [|constructor]. case_match; [apply note_height_steady|reflexivity]. }
  apply and_then_sound; [|apply maybe_advance_round_sound]. intros r1.
  apply and_then_sound; [|apply round_failed_sound]. intros r2.
  apply and_then_sound.
  - intros r3 [= <-]. rewrite <- (app_nil_l (match find_equivocation sv e with _ => _ end)).
    eapply sound_trans; [by apply store_vote_sound|]. apply sound_refl. case_match; by repeat constructor.
  - intros e1 r3. destruct (Vote.phase _); [apply check_prepared_sound|apply check_committed_sound].
Qed.

(** ** The other handlers *)

Lemma prepare_nil_sound e res : prepare_nil accept e = Some res -> sound e res.
Proof.
  unfold prepare_nil. destruct (sent_prepare_now e) eqn:Es; [intros [= <-]; by apply sound_refl|].
  apply cast_prepare_sound; [done|]. by left.
Qed.

Lemma on_timeout_sound e res : on_timeout accept e = Some res -> sound e res.
Proof. unfold on_timeout. case_match; [apply advance_round_sound|apply prepare_nil_sound]. Qed.

Lemma prepare_round0_min_sound e res : prepare_round0_min accept e = Some res -> sound e res.
Proof.
  unfold prepare_round0_min. cbv zeta.
  destruct (Z.eqb_spec (round (working e)) 0) as [E0|]; [|intros [= <-]; by apply sound_refl].
  case_bool_decide as Es; [intros [= <-]; by apply sound_refl|]. cbn [orb negb].
  destruct (Committee.min_by_key _ _) as [[t bh]|]; [|intros [= <-]; by apply sound_refl].
  destruct (has_proposal bh e); [|intros [= <-]; by apply sound_refl]. cbn [negb].
  case_match eqn:El; [intros [= <-]; by apply sound_refl|].
  apply cast_prepare_sound; [apply bool_decide_eq_false; by rewrite E0|]. intros I Hz. right. intros u Hu. left.
  destruct (inv_lock e I u Hu) as [E _]. rewrite E in El. apply bool_decide_eq_false in El. by apply dec_stable in El.
Qed.

Lemma tick_round0_window_sound e res : tick_round0_window accept e = Some res -> sound e res.
Proof.
  unfold tick_round0_window. cbv zeta. case_match; [intros [= <-]; by apply sound_refl|].
  destruct (round0_window (working e)) as [t|]; [|intros [= <-]; by apply sound_refl].
  set (e1 := upd_w _ e).
  assert (S1 : sound e (e1, [])) by (apply upd_w_sound; [done|]; intros I _; apply (inv_proposals e I)).
  case_match; [by intros [= <-]|]. destruct res as [e2 o]. intros E.
  eapply (sound_trans e e1 []); [done|]. by apply prepare_round0_min_sound.
Qed.

Lemma rank_round0_sound proposer t bh h e res : rank_round0 accept proposer t bh h e = Some res -> sound e res.
Proof.
  unfold rank_round0. cbv zeta. set (e1 := upd_w _ e).
  assert (S1 : sound e (e1, [])) by (apply upd_w_sound; [done|]; intros I _; apply (inv_proposals e I)).
  destruct res as [e2 o].
  assert (Hmin : prepare_round0_min accept e1 = Some (e2, o) -> sound e (e2, o)).
  { intros E. eapply (sound_trans e e1 []); [done|]. by apply prepare_round0_min_sound. }
  repeat case_match; auto; by intros [= <- <-].
Qed.

Lemma on_skeleton_sound b e res :
  block_known (history e) b -> on_skeleton accept b e = Some res -> sound e res.
Proof.
  intros HK. unfold on_skeleton. pose proof (adopt_certified_parent_sound b e HK) as Ha.
  destruct (adopt_certified_parent b e) as [e1 adopted]. destruct adopted as [|o os]; [|by intros [= <-]].
  cbv zeta. set (e2 := note_certified_height b e1).
  assert (S2 : sound e (e2, [])).
  { apply (sound_trans e e1 [] e2 []); [done|]. apply quiet_sound; [|constructor]. apply note_certified_height_steady. }
  destruct res as [e3 o]. repeat case_match; try (by intros [= <- <-]).
  intros E. apply (sound_trans e e2 [] e3 o); [done|]. by eapply rank_round0_sound.
Qed.

(** A block that unlocks us has a PREPARE quorum from after the round we locked in. *)
Lemma unlocks_quorum b e : Inv e -> zheight e < 2 ^ 64 - 1 -> block_known (history e) b -> unlocks_us b e = true ->
  exists held r, locked_cert (working e) = Some held /\ Vote.c_round held < r <= round (working e) /\
    quorum_for (history e) Vote.Prepare (zheight e) r (Block.hash b).
Proof.
  intros I Hz HK. unfold unlocks_us. destruct (locked_cert (working e)) as [held|]; [|done].
  destruct (Block.pol b) as [c|] eqn:Ec; [|done]. intros [Hs Hv]%andb_true_iff. unfold pol_shape_releases in Hs.
  rewrite !andb_true_iff, !bool_decide_eq_true, Z.eqb_eq, Z.ltb_lt, Z.leb_le in Hs.
  destruct Hs as [[[[Ep Eh] Eb] Hlt] Hle]. exists held, (Vote.c_round c). split; [done|]. split; [done|].
  rewrite <- Ep, <- Eb, <- (height_z e I), <- Eh by lia. eapply valid_quorum; [done|apply HK; by left|done].
Qed.

Lemma vote_on_proposal_sound b ok t e res :
  block_known (history e) b -> bheight b = height e ->
  vote_on_proposal accept b ok t e = Some res -> sound e res.
Proof.
  intros HK Eh. unfold vote_on_proposal. cbv zeta. set (bh := Block.hash b).
  destruct (unlocks_us b e) eqn:Eu; destruct (_ && existsb _ _); try (by intros [= <-]; apply sound_refl).
  all: set (e1 := upd_w _ e); assert (S1 : sound e (e1, []));
    [apply upd_w_sound; [done|]; intros I Hz k x; simpl; unfold or_insert;
       (destruct (proposals (working e) !! bh); [apply (inv_proposals e I)|]);
       intros [[<- <-]|[_ Hx]]%lookup_insert_Some; [|by apply (inv_proposals e I)];
       split; [done|]; rewrite Eh; apply height_z; [done|lia]|].
  all: destruct res as [e2 o]; assert (Hk : sound e1 (e2, o) -> sound e (e2, o)) by
    (intros Hs; by apply (sound_trans e e1 [] e2 o)).
  all: case_bool_decide as Ep; [intros [= E]; apply Hk; rewrite <- E; apply finalize_sound; intros I Hz;
    apply (inv_pending e1 I); by rewrite <- (height_z e1) by (done || lia)|].
  all: destruct ok; [|by intros [= <- <-]]; cbn [negb]; destruct t as [t|];
    [intros E; apply Hk; by eapply rank_round0_sound|].
  all: case_match eqn:El; [by intros [= <- <-]|].
  all: destruct (sent_prepare_now e1) eqn:Es; [by intros [= <- <-]|].
  all: intros E; apply Hk; eapply cast_prepare_sound; [exact Es| |exact E]; intros I1 Hz; right; intros u Hu.
  - right. destruct (inv_lock e1 I1 u Hu) as (_ & c & Hc & Hr).
    destruct (unlocks_quorum b e1) as (held & r & Hh & Hlt & Hq); [done|done|done|done|].
    exists r. replace (Vote.round u) with (Vote.c_round held); [done|]. congruence.
  - left. destruct (inv_lock e1 I1 u Hu) as [E1 _]. rewrite E1 in El. rewrite andb_true_r in El.
    apply bool_decide_eq_false in El. by apply dec_stable in El.
Qed.

Lemma note_valid_value_sound b e : sound e (note_valid_value b e, []).
Proof.
  unfold note_valid_value. repeat case_match; try (by apply sound_refl);
    (apply upd_w_sound; [done|]; intros I _; apply (inv_proposals e I)).
Qed.

Lemma on_propose_sound b shards e res :
  block_known (history e) b -> on_propose accept b shards e = Some res -> sound e res.
Proof.
  intros HK. unfold on_propose. cbv zeta. set (e1 := note_valid_value b e).
  pose proof (note_valid_value_sound b e) as S1. fold e1 in S1.
  assert (Hh : history e1 = history e) by (unfold e1, note_valid_value; by repeat case_match).
  destruct res as [e2 o]. assert (Hk : sound e1 (e2, o) -> sound e (e2, o)).
  { intros Hs. by apply (sound_trans e e1 [] e2 o). }
  rewrite <- Hh in HK. set (links := _ && _ && _).
  destruct (negb links || _ || _) eqn:Et.
  { intros [= E]. apply Hk. unfold learn_from_unlinked in E. case_match; [injection E as <- <-; by apply sound_refl|].
    rewrite <- E. eapply steady_sound; [apply (note_certified_height_steady b)|]. apply adopt_certified_parent_sound.
    destruct (note_certified_height_steady b e1) as [(_ & _ & -> & _) _]. done. }
  rewrite !orb_false_iff, !negb_false_iff in Et. destruct Et as [[El _] _]. unfold links in El.
  rewrite !andb_true_iff, Z.eqb_eq in El. destruct El as [[Eh _] _].
  repeat case_match; try (by intros [= <- <-]; apply Hk, sound_refl);
    intros E; apply Hk; by eapply vote_on_proposal_sound.
Qed.

End knot.

Lemma accept_vote_sound fuel : rec_ok (accept_vote fuel).
Proof.
  induction fuel as [|fuel IH]; intros sv e r HK; cbn [accept_vote]; [done|]. by apply accept_body_sound.
Qed.

Lemma try_execute_sound e : sound e (try_execute e).
Proof.
  unfold try_execute. pose proof (execute_queue_quiet _ e eq_refl) as Hq. destruct (execute_queue _ e) as [e' outs].
  destruct Hq as [Hq Ho]. apply quiet_sound; [done|]. intros I. eapply Forall_impl; [exact Ho|].
  intros o (b & v & Hb & -> & E1 & E2). simpl. rewrite E1, E2. by apply (inv_queue e I).
Qed.

Lemma on_reveal_sound r e : sound e (on_reveal r e).
Proof.
  unfold on_reveal. set (first := if bool_decide _ then _ else _).
  assert (Hf : steady e first.1 /\ Forall neutral first.2).
  { unfold first. pose proof (validate_and_record_steady r e) as Hv.
    repeat case_match; simpl; split; try reflexivity; try done; try (by repeat constructor); by apply upd_x_steady. }
  destruct first as [e1 out]. destruct Hf as [S1 N1]. simpl in S1, N1. pose proof (try_execute_sound e1) as S2.
  destruct (try_execute e1) as [e2 outs]. apply (sound_trans e e1 out e2 outs); [|done].
  apply quiet_sound; [apply S1|]. intros _. by apply neutral_ok.
Qed.

Lemma on_exec_vote_steady v e : steady e (on_exec_vote v e).
Proof.
  unfold on_exec_vote. case_match; [|reflexivity]. case_match; [reflexivity|].
  etrans; [|apply record_exec_vote_steady]. case_match; [apply note_height_steady|reflexivity].
Qed.

Lemma sync_answers_neutral from h root e : Forall neutral (on_sync_req from h root e).
Proof. unfold on_sync_req, offer_commit_cert. repeat case_match; by repeat constructor. Qed.

(** What the network guarantees of an input: its votes can be received, and a state sync does not
    roll the engine back and rests on a block that is decided. *)
Definition input_ok e (i : Messages.Input) : Prop :=
  let L := history e in
  match i with
  | Messages.IPropose b _ | Messages.ISkeleton b => block_known L b
  | Messages.IVote sv => known L sv
  | Messages.ICommitCert c => Forall (known L) (Vote.votes c)
  | Messages.ISyncResp cert above _ =>
      Forall (fun c => Forall (known L) (Vote.votes c)) above /\ zheight e < 2 ^ 64 - 1 /\
      (zheight e <= Checkpoint.xc_height cert \/ diverged (recovery e) = None) /\
      (Checkpoint.xc_verify cert q vks = true -> decided L (Checkpoint.xc_height cert) (Checkpoint.xc_head cert))
  | _ => True
  end.

(** Every reaction of the engine is sound. *)
Lemma step_sound fuel i e r : Inv e -> input_ok e i -> step fuel i e = Some r -> sound e r.
Proof.
  intros I Hi. destruct i; cbn [step]; cbv zeta; unfold input_ok in Hi; try (intros [= <-]).
  - apply and_then_sound; [|intros e1 r2 [= <-]; pose proof (maybe_request_body_steady e1) as [S1 N1];
      destruct (maybe_request_body e1); apply quiet_sound; [apply S1|intros _; by apply neutral_ok]].
    intros r1. apply and_then_sound; [|intros e1 r2 [= <-]; apply sound_refl;
      unfold maybe_request_sync; case_match; by repeat constructor].
    intros r2. apply and_then_sound; [intros r3 [= <-]; apply maybe_propose_sound|].
    apply tick_round0_window_sound, accept_vote_sound.
  - apply on_propose_sound; [apply accept_vote_sound|done].
  - apply on_skeleton_sound; [apply accept_vote_sound|done].
  - apply accept_vote_sound. done.
  - apply on_reveal_sound.
  - apply quiet_sound; [apply on_exec_vote_steady|constructor].
  - apply on_timeout_sound, accept_vote_sound.
  - apply sound_refl, neutral_ok, sync_answers_neutral.
  - by apply adopt_commit_cert_sound.
  - apply sound_refl. unfold on_need_body. case_match; by repeat constructor.
  - apply on_body_sound.
  - destruct Hi as (HA & Hz & [Hle|Hd] & Hx); [by apply on_sync_resp_sound|].
    destruct (decide (zheight e <= Checkpoint.xc_height cert)); [by apply on_sync_resp_sound|].
    unfold on_sync_resp. rewrite (height_z e I) by lia. rewrite (proj2 (Z.ltb_lt _ _)) by lia.
    rewrite bool_decide_true by done. by apply sound_refl.
Qed.

End safety.
End Safety.
