(* ===== verification/Fuel.v ===== *)
(** * The engine always answers

    A vote the engine casts re-enters [accept_vote], which may cast the next one.  The chain of such
    votes is finite: each of them either sets a lock, or prepares a lock in a round that stored votes
    of other validators made it enter.  So the recursion depth is bounded by the number of stored
    votes, and no input leaves the engine without an answer. *)
From stdpp Require Import sorting.
From S2P Require Import Prelude Codec Sig Bounded Params Vote Incentive Pqvrf Committee Shamir Kem Threshold Tx Block Chain Accounts Messages EngineState TinyCell Ledger Pipeline Engine Agreement Safety.
Local Open Scope Z_scope.

Module Fuel.
Export Safety.

Section fuel.
  Context `{Crypto} `{KemCrypto} {S : Type} `{!StateMachine S}.
  Implicit Types (e : Engine S) (w : Working).

(** The rounds in which other validators are known to have voted. *)
Definition other_rounds (m : Z) w : list Z :=
  (fun sv => Vote.round (Vote.vote sv)) <$>
    filter (fun sv => Vote.voter (Vote.vote sv) <> m) (prepares w ++ commits w).

(** How many of them are still ahead, counting those at the current round once and the later ones
    twice. *)
Definition ahead (m : Z) w : nat :=
  length (filter (fun r => round w <= r) (other_rounds m w)) + length (filter (fun r => round w < r) (other_rounds m w)).

Definition can_commit (m : Z) w : nat :=
  if bool_decide (other_rounds m w <> [] /\ round w ∉ sent_commit w) then 1 else 0.

Definition can_reprepare w : nat :=
  if bool_decide (is_Some (locked_block w) /\ round w ∉ sent_prepare w) then 1 else 0.

(** Every vote cast inside [accept_vote] lowers this. *)
Definition votes_left (m : Z) w : nat := 4 * ahead m w + can_reprepare w + 2 * can_commit m w.

Definition left e : nat := votes_left (me e) (working e).

(** Rounds fit their 32 bits, and a quorum is more than one validator. *)
Definition rounds_ok e : Prop :=
  0 <= round (working e) <= 2 ^ 32 - 1 /\
  Forall (fun sv => Vote.round (Vote.vote sv) <= 2 ^ 32 - 1) (prepares (working e) ++ commits (working e)) /\
  2 <= Params.quorum (cf_params (cfg e)).

(** The answer exists, within the budget of votes. *)
Definition answers e (r : option (Engine S * list Messages.Output)) (bound : nat) : Prop :=
  exists e' outs, r = Some (e', outs) /\ cfg e' = cfg e /\ rounds_ok e' /\ (left e' <= bound)%nat.

Lemma answers_self e outs b : rounds_ok e -> (left e <= b)%nat -> answers e (Some (e, outs)) b.
Proof. intros. by exists e, outs. Qed.

Lemma answers_then e m k b :
  answers e m b -> (forall e1, cfg e1 = cfg e -> rounds_ok e1 -> (left e1 <= b)%nat -> answers e1 (k e1) b) ->
  answers e (and_then m k) b.
Proof.
  intros (e1 & o1 & -> & C1 & R1 & L1) Hk. destruct (Hk e1 C1 R1 L1) as (e2 & o2 & E & C2 & R2 & L2).
  exists e2, (o1 ++ o2). unfold and_then. rewrite E. split; [done|]. split; [congruence|done].
Qed.

(** ** Counting *)

Lemma filter_le_length {A} (P Q : A -> Prop) `{!forall x, Decision (P x), !forall x, Decision (Q x)} (l : list A) :
  (forall x, P x -> Q x) -> (length (filter P l) <= length (filter Q l))%nat.
Proof.
  intros HPQ. induction l as [|x l IH]; [done|]. rewrite !filter_cons. repeat case_decide; simpl; try lia. naive_solver.
Qed.

Lemma filter_lt_length {A} (P Q : A -> Prop) `{!forall x, Decision (P x), !forall x, Decision (Q x)} (l : list A) y :
  (forall x, P x -> Q x) -> y ∈ l -> Q y -> ~ P y -> (length (filter P l) < length (filter Q l))%nat.
Proof.
  intros HPQ Hy Qy Py. induction l as [|x l IH]; [by apply elem_of_nil in Hy|]. rewrite !filter_cons.
  apply elem_of_cons in Hy as [<-|Hy].
  - rewrite decide_False, decide_True by done. pose proof (filter_le_length P Q l HPQ). simpl. lia.
  - specialize (IH Hy). repeat case_decide; simpl; try lia. naive_solver.
Qed.

(** Entering a later round reached by a stored vote, or left by one, uses up votes. *)
Lemma enter_uses m w r x :
  round w < r -> x ∈ other_rounds m w -> x = round w \/ x = r -> (votes_left m (set_round r w) < votes_left m w)%nat.
Proof.
  intros Hr Hx Hxr. set (R := other_rounds m w).
  assert (HR : other_rounds m (set_round r w) = R) by done.
  assert (Ha : (ahead m (set_round r w) < ahead m w)%nat).
  { unfold ahead. rewrite HR. fold R. change (round (set_round r w)) with r.
    pose proof (filter_le_length (fun y => r <= y) (fun y => round w <= y) R ltac:(cbn; intros; lia)).
    pose proof (filter_le_length (fun y => r < y) (fun y => round w < y) R ltac:(cbn; intros; lia)).
    destruct Hxr as [->| ->].
    - pose proof (filter_lt_length (fun y => r <= y) (fun y => round w <= y) R (round w) ltac:(cbn; intros; lia) Hx
        ltac:(cbn; lia) ltac:(cbn; lia)). lia.
    - pose proof (filter_lt_length (fun y => r < y) (fun y => round w < y) R r ltac:(cbn; intros; lia) Hx
        ltac:(cbn; lia) ltac:(cbn; lia)). lia. }
  unfold votes_left, can_reprepare, can_commit. repeat case_bool_decide; lia.
Qed.

(** Among two distinct voters one is not us. *)
Lemma two_voters (m : Z) (X : gset Z) : (2 <= size X)%nat -> exists v, v ∈ X /\ v <> m.
Proof.
  intros Hs. destruct (decide (exists v, v ∈ X /\ v <> m)) as [|Hn]; [done|].
  exfalso. assert (X ⊆ {[m]}) as Hsub%subseteq_size.
  { intros v Hv. apply elem_of_singleton. destruct (decide (v = m)); [done|]. exfalso. eauto. }
  rewrite size_singleton in Hsub. lia.
Qed.

(** ** Stored votes *)

Lemma other_rounds_in e sv : sv ∈ prepares (working e) ++ commits (working e) -> Vote.voter (Vote.vote sv) <> me e ->
  Vote.round (Vote.vote sv) ∈ other_rounds (me e) (working e).
Proof.
  intros Hs Hv. unfold other_rounds. apply list_elem_of_fmap. exists sv. split; [done|]. by apply list_elem_of_filter.
Qed.

(** A certificate over a quorum of two or more holds a vote of another validator. *)
Lemma cert_other p bh e : (2 <= quorum e)%nat -> cert_valid (collect_cert p bh e) e = true ->
  other_rounds (me e) (working e) <> [].
Proof.
  intros Hq (Hl & _ & HN)%Vote.cert_verify_iff. set (vs := Vote.votes (collect_cert p bh e)) in *.
  destruct (two_voters (me e) (list_to_set ((fun sv => Vote.voter (Vote.vote sv)) <$> vs))) as (v & Hv & Hne).
  - rewrite size_list_to_set; [rewrite length_fmap; lia|].
    apply (NoDup_fmap_1 Z.to_nat). by rewrite <- list_fmap_compose.
  - apply elem_of_list_to_set, list_elem_of_fmap in Hv as (sv & -> & Hsv). apply collect_sub in Hsv.
    assert (Hin : sv ∈ prepares (working e) ++ commits (working e)) by (apply elem_of_app; destruct p; auto).
    pose proof (other_rounds_in e sv Hin Hne) as Hr. intros E. rewrite E in Hr. by apply elem_of_nil in Hr.
Qed.

Lemma highest_other e k r : 0 <= round (working e) -> highest_rounds e !! k = Some r ->
  r ∈ other_rounds (me e) (working e).
Proof.
  intros H0r. unfold highest_rounds. set (svs := prepares (working e) ++ commits (working e)).
  assert (Hin : forall sv, sv ∈ svs -> sv ∈ prepares (working e) ++ commits (working e)) by done.
  assert (Hm : forall k r, (∅ : gmap Z Z) !! k = Some r -> r ∈ other_rounds (me e) (working e)).
  { intros ? ?. by rewrite lookup_empty. }
  revert Hin Hm k r. generalize (∅ : gmap Z Z) as m. clearbody svs.
  induction svs as [|sv svs IH]; intros m Hin Hm k r; [apply Hm|]. cbn [fold_left].
  apply IH; [intros x Hx; apply Hin; by right|]. clear k r. intros k r.
  destruct (_ && _ && _) eqn:Et; [|apply Hm].
  rewrite !andb_true_iff, negb_true_iff, Z.ltb_lt, Z.eqb_neq in Et. destruct Et as [[_ Hlt] Hne].
  intros [[<- <-]|[_ Hk]]%lookup_insert_Some; [|by eapply Hm].
  assert (Hs : Vote.round (Vote.vote sv) ∈ other_rounds (me e) (working e)).
  { apply other_rounds_in; [apply Hin; by left|done]. }
  destruct (m !! Vote.voter (Vote.vote sv)) as [x|] eqn:Ex; simpl.
  - destruct (Z.max_spec x (Vote.round (Vote.vote sv))) as [[_ ->]|[_ ->]]; [done|by eapply Hm].
  - by rewrite Z.max_r by lia.
Qed.

(** Storing a vote inserts it once, or not at all. *)
Lemma store_votes sv e : let w := working e in let w' := working (store_vote sv e) in
  exists a b, prepares w ++ commits w = a ++ b /\
    (prepares w' ++ commits w' = a ++ [sv] ++ b \/ prepares w' ++ commits w' = a ++ b) /\
  round w' = round w /\ sent_prepare w' = sent_prepare w /\ sent_commit w' = sent_commit w /\ locked_block w' = locked_block w.
Proof.
  intros w w'. unfold w', store_vote. cbn [upd_w working set_working]. fold w. unfold push_vote.
  destruct (Vote.phase _); simpl.
  - exists (prepares w), (commits w). split; [done|]. split; [|done]. case_match; [left|by right].
    by rewrite <- app_assoc.
  - exists (prepares w ++ commits w), []. split; [by rewrite app_nil_r|]. split; [|done]. rewrite !app_nil_r.
    case_match; [left|by right]. by rewrite app_assoc.
Qed.

Lemma store_rounds_ok sv e : Vote.round (Vote.vote sv) <= 2 ^ 32 - 1 -> rounds_ok e -> rounds_ok (store_vote sv e).
Proof.
  intros Hr (H1 & H2 & H3). destruct (store_votes sv e) as (a & b & E & E' & Er & _). unfold rounds_ok. rewrite Er.
  split; [done|]. split; [|done]. rewrite E in H2. apply Forall_app in H2 as [Ha Hb].
  destruct E' as [->| ->]; repeat (apply Forall_app; split); try done. by apply Forall_singleton.
Qed.

Lemma store_own sv e : Vote.voter (Vote.vote sv) = me e -> left (store_vote sv e) = left e.
Proof.
  intros Hv. destruct (store_votes sv e) as (a & b & E & E' & Er & Ep & Ec & El).
  assert (HR : other_rounds (me e) (working (store_vote sv e)) = other_rounds (me e) (working e)).
  { unfold other_rounds. rewrite E. destruct E' as [->| ->]; [|done]. rewrite !filter_app.
    by rewrite (filter_cons_False _ sv) by auto. }
  unfold left, votes_left, ahead, can_commit, can_reprepare. change (me (store_vote sv e)) with (me e).
  by rewrite HR, Er, Ep, Ec, El.
Qed.

(** The most votes a state can give rise to. *)
Definition most e : nat := 4 * ahead (me e) (working e) + 3.

Lemma left_most e : (left e <= most e)%nat.
Proof. unfold left, votes_left, most, can_commit, can_reprepare. repeat case_bool_decide; lia. Qed.

Lemma store_most sv e : (most (store_vote sv e) <= most e + 8)%nat.
Proof.
  destruct (store_votes sv e) as (a & b & E & E' & Er & _). unfold most, ahead.
  change (me (store_vote sv e)) with (me e). rewrite Er. unfold other_rounds. rewrite E.
  destruct E' as [->| ->]; [|lia]. rewrite !filter_app, !fmap_app, !filter_app, !length_app.
  assert (Hs : forall (P : Z -> Prop) `{!forall x, Decision (P x)} (l : list Vote.SignedVote), (length l <= 1)%nat ->
    (length (filter P ((fun x => Vote.round (Vote.vote x)) <$> l)) <= 1)%nat).
  { intros P ? l Hl. etrans; [apply length_filter|]. by rewrite length_fmap. }
  assert (Hl : (length (filter (fun x => Vote.voter (Vote.vote x) <> me e) [sv]) <= 1)%nat) by apply length_filter.
  pose proof (Hs (fun r => round (working e) <= r) _ _ Hl). pose proof (Hs (fun r => round (working e) < r) _ _ Hl). lia.
Qed.

Lemma most_bound e : (most e <= 8 * (length (prepares (working e)) + length (commits (working e))) + 3)%nat.
Proof.
  unfold most, ahead, other_rounds. rewrite <- (length_app (prepares (working e))). set (l := prepares _ ++ commits _).
  assert (Hl : (length (filter (fun sv => Vote.voter (Vote.vote sv) <> me e) l) <= length l)%nat) by apply length_filter.
  set (l' := filter (fun sv => Vote.voter (Vote.vote sv) <> me e) l) in *.
  assert (Hf : forall (P : Z -> Prop) `{!forall x, Decision (P x)},
    (length (filter P ((fun x => Vote.round (Vote.vote x)) <$> l')) <= length l')%nat).
  { intros P ?. etrans; [apply length_filter|]. by rewrite length_fmap. }
  pose proof (Hf (fun r => round (working e) <= r) _). pose proof (Hf (fun r => round (working e) < r) _). lia.
Qed.

(** Marking the round as prepared leaves no more votes, and fewer when locked. *)
Definition prepared_mark e : Engine S := upd_w (fun w => set_sent_prepare ({[round w]} ∪ sent_prepare w) w) e.

Lemma prepared_mark_left e : sent_prepare_now e = false ->
  (left (prepared_mark e) + (if locked_block (working e) is Some _ then 1 else 0) <= left e)%nat.
Proof.
  intros Hs%bool_decide_eq_false. unfold left, votes_left, can_reprepare, prepared_mark. simpl.
  change (can_commit (me _) (set_sent_prepare _ _)) with (can_commit (me e) (working e)).
  change (ahead (me _) (set_sent_prepare _ _)) with (ahead (me e) (working e)).
  rewrite bool_decide_false by (intros [_ Hn]; set_solver).
  destruct (locked_block (working e)); [rewrite bool_decide_true by done; lia|].
  rewrite bool_decide_false by (by intros [[? [=]] _]). lia.
Qed.

(** ** The knot *)

Section knot.
  Variables (accept : Vote.SignedVote -> Engine S -> option (Engine S * list Messages.Output)) (F : nat).
  Hypothesis Haccept : forall sv e, Vote.voter (Vote.vote sv) = me e -> Vote.round (Vote.vote sv) <= 2 ^ 32 - 1 ->
    rounds_ok e -> (left e < F)%nat -> answers e (accept sv e) (left e).

Lemma cast_answers p bh e : rounds_ok e -> (left e < F)%nat -> answers e (cast accept p bh e) (left e).
Proof.
  intros R HF. unfold cast. set (v := Vote.mk_vote _ _ _ _ _). set (sv := Vote.sign v _).
  apply (answers_then (set_history (history e ++ [v]) e)).
  - apply (Haccept sv (set_history (history e ++ [v]) e)); [done|apply R|done|done].
  - intros e1 C1 R1 L1. by apply answers_self.
Qed.

Lemma cast_prepare_answers bh e : rounds_ok e -> sent_prepare_now e = false -> (left (prepared_mark e) < F)%nat ->
  answers e (cast_prepare accept bh e) (left e).
Proof.
  intros R Hs HF. pose proof (prepared_mark_left e Hs).
  destruct (cast_answers Vote.Prepare bh (prepared_mark e)) as (e' & o & E & C & R' & L); [done|done|].
  exists e', o. split; [done|]. split; [done|]. split; [done|]. lia.
Qed.

Lemma reprepare_lock_answers e : rounds_ok e -> (left e <= F)%nat -> answers e (reprepare_lock accept e) (left e).
Proof.
  intros R HF. unfold reprepare_lock. destruct (locked_block (working e)) eqn:El; [|by apply answers_self].
  destruct (sent_prepare_now e) eqn:Es; [by apply answers_self|]. cbn [orb]. case_match; [by apply answers_self|].
  pose proof (prepared_mark_left e Es) as Hl. rewrite El in Hl. apply cast_prepare_answers; [done|done|lia].
Qed.

Lemma maybe_propose_answers e b : rounds_ok e -> (left e <= b)%nat -> answers e (Some (maybe_propose e)) b.
Proof.
  intros R HF. unfold maybe_propose. cbv zeta. repeat case_match; try (by apply answers_self);
    (eexists _, _; split; [done|]; by split).
Qed.

(** Entering a round that fits, with what that round leaves to vote. *)
Lemma enter_round_answers r e : rounds_ok e -> 0 <= r <= 2 ^ 32 - 1 -> (left (upd_w (set_round r) e) <= F)%nat ->
  answers e (and_then (reprepare_lock accept (upd_w (set_round r) e)) (fun e => Some (maybe_propose e)))
    (left (upd_w (set_round r) e)).
Proof.
  intros R Hr HF. set (e1 := upd_w (set_round r) e) in *.
  assert (R1 : rounds_ok e1) by (split; [done|apply R]).
  apply (answers_then e); [exact (reprepare_lock_answers e1 R1 HF)|].
  intros e2 _ R2 L2. by apply maybe_propose_answers.
Qed.

Lemma check_prepared_answers bh r e : rounds_ok e -> (left e <= F)%nat ->
  answers e (check_prepared accept bh r e) (left e).
Proof.
  intros R HF. unfold check_prepared. cbv zeta. set (cert := collect_cert _ _ _).
  destruct (_ || _ || _) eqn:Et; [by apply answers_self|].
  rewrite !orb_false_iff, !bool_decide_eq_false in Et. destruct Et as [_ Hc].
  destruct (cert_valid cert e) eqn:Ev; [|by apply answers_self]. cbn [negb].
  set (e1 := upd_w _ e).
  assert (Hl : (left e1 < left e)%nat).
  { unfold left, votes_left, can_commit, can_reprepare, e1. cbn [working upd_w set_working].
    change (ahead (me _) (set_sent_commit _ _)) with (ahead (me e) (working e)).
    rewrite (bool_decide_true (_ /\ round (working e) ∉ sent_commit (working e))).
    - rewrite (bool_decide_false (_ /\ _ ∉ sent_commit (set_sent_commit _ _))) by (simpl; intros [_ Hn]; set_solver).
      repeat case_bool_decide; lia.
    - split; [|done]. eapply cert_other; [|exact Ev]. pose proof (proj2 (proj2 R)). unfold quorum. lia. }
  destruct (cast_answers Vote.Commit bh e1) as (e' & o & E & C & R' & L); [done|lia|].
  exists e', o. split; [done|]. split; [done|]. split; [done|]. lia.
Qed.

Lemma finalize_answers bh e b : rounds_ok e -> (left e <= b)%nat -> answers e (Some (finalize bh e)) b.
Proof.
  intros R HF. destruct (proposals (working e) !! bh) as [x|] eqn:Ex.
  - pose proof (finalize_facts bh x e Ex) as Hf. destruct (finalize bh e) as [e' o].
    destruct Hf as (C & _ & W & _). exists e', o. split; [done|]. split; [done|].
    unfold rounds_ok, left. rewrite W, C. split; [split; [done|split; [constructor|apply R]]|]. cbn. lia.
  - unfold finalize. rewrite Ex. eexists _, _. split; [done|]. by split.
Qed.

Lemma check_committed_answers bh e b : rounds_ok e -> (left e <= b)%nat -> answers e (check_committed bh e) b.
Proof.
  intros R HF. unfold check_committed. case_match; [by apply answers_self|by apply finalize_answers].
Qed.

Lemma advance_from r e b : rounds_ok e -> (left e <= F)%nat -> (left e <= b)%nat ->
  round (working e) ∈ other_rounds (me e) (working e) \/ r ∈ other_rounds (me e) (working e) ->
  round (working e) <= r <= 2 ^ 32 - 1 ->
  answers e (and_then (reprepare_lock accept (upd_w (set_round r) e)) (fun e => Some (maybe_propose e))) b.
Proof.
  intros R HF Hb Hx Hr. assert (Hl : (left (upd_w (set_round r) e) <= left e)%nat).
  { destruct (decide (r = round (working e))) as [->|Hne].
    - by destruct e as [? ? ? [] ? ? ? ?].
    - unfold left. cbn [working upd_w set_working]. change (me (upd_w _ _)) with (me e).
      destruct Hx as [Hx|Hx]; pose proof (enter_uses (me e) (working e) r _ ltac:(lia) Hx ltac:(auto)); lia. }
  pose proof (proj1 R).
  destruct (enter_round_answers r e) as (e' & o & E & C & R' & L); [done|lia|lia|].
  exists e', o. split; [done|]. split; [done|]. split; [done|]. lia.
Qed.

Lemma round_failed_answers e b : rounds_ok e ->
  (left e <= F)%nat -> (left e <= b)%nat -> answers e (round_failed_by_votes accept e) b.
Proof.
  intros R HF Hb. pose proof (proj2 (proj2 R)) as Hq. unfold round_failed_by_votes. cbv zeta. set (X := list_to_set _).
  destruct (Z.ltb_spec (Z.of_nat (size X)) (Params.quorum (cf_params (cfg e)))); [by apply answers_self|].
  case_match; [by apply answers_self|]. destruct (two_voters (me e) X) as (v & Hv & Hne); [lia|].
  apply elem_of_list_to_set, list_elem_of_fmap in Hv as (u & -> & Hu). unfold round_voters in Hu.
  apply list_elem_of_filter in Hu as [[_ Er] Hu]. apply list_elem_of_fmap in Hu as (sv & -> & Hsv).
  apply advance_from; try done.
  - left. rewrite <- Er. apply other_rounds_in; [apply elem_of_app; by left|done].
  - pose proof (proj1 R). unfold sat_add. lia.
Qed.

Lemma maybe_advance_round_answers e b : rounds_ok e -> (left e <= F)%nat -> (left e <= b)%nat ->
  answers e (maybe_advance_round accept e) b.
Proof.
  intros R HF Hb. unfold maybe_advance_round. cbv zeta. case_match; [by apply answers_self|].
  destruct (merge_sort _ _ !! _) as [target|] eqn:Et; [|by apply answers_self].
  destruct (Z.leb_spec target (round (working e))); [by apply answers_self|].
  apply list_elem_of_lookup_2 in Et. rewrite merge_sort_Permutation in Et.
  apply list_elem_of_fmap in Et as ([k t] & -> & Hk). unfold zlist in Hk.
  rewrite merge_sort_Permutation in Hk. apply elem_of_map_to_list in Hk. simpl in *.
  pose proof (highest_other e k t (proj1 (proj1 R)) Hk) as Ht. apply advance_from; try done; [by right|].
  split; [lia|]. unfold other_rounds in Ht. apply list_elem_of_fmap in Ht as (sv & -> & Hsv).
  apply list_elem_of_filter in Hsv as [_ Hsv]. destruct R as (_ & R & _). rewrite Forall_forall in R. by apply R.
Qed.

Lemma accept_body_answers sv e b :
  rounds_ok e -> Vote.round (Vote.vote sv) <= 2 ^ 32 - 1 ->
  (left (store_vote sv e) <= F)%nat -> (left e <= b)%nat -> (left (store_vote sv e) <= b)%nat -> (b <= F)%nat ->
  answers e (accept_body accept sv e) b.
Proof.
  intros R Hr HF Hb Hb' HbF. unfold accept_body. cbv zeta. case_match; [|by apply answers_self].
  case_match; [by apply answers_self|]. case_match.
  { case_match; [|by apply answers_self]. eexists _, _. split; [done|]. by split. }
  apply (answers_then e).
  - apply (answers_then e).
    + apply (answers_then e).
      * exists (store_vote sv e). eexists. split; [done|]. split; [done|]. split; [by apply store_rounds_ok|done].
      * intros e1 C1 R1 L1. case_match; [|by apply check_committed_answers].
        destruct (check_prepared_answers (Vote.block_hash (Vote.vote sv)) (Vote.round (Vote.vote sv)) e1)
          as (e' & o & E & C & R' & L); [done|lia|].
        exists e', o. split; [done|]. split; [done|]. split; [done|]. lia.
    + intros e1 C1 R1 L1. apply round_failed_answers; [done|lia|done].
  - intros e1 C1 R1 L1. apply maybe_advance_round_answers; [done|lia|done].
Qed.

End knot.

(** With more fuel than votes left, a vote of our own is always processed. *)
Lemma accept_vote_own fuel sv e :
  Vote.voter (Vote.vote sv) = me e -> Vote.round (Vote.vote sv) <= 2 ^ 32 - 1 ->
  rounds_ok e -> (left e < fuel)%nat -> answers e (accept_vote fuel sv e) (left e).
Proof.
  revert sv e. induction fuel as [|fuel IH]; intros sv e Hv Hr R HF; [lia|]. cbn [accept_vote].
  apply (accept_body_answers _ fuel); rewrite ?store_own by done; try done; try lia.
Qed.

(** ** Every input *)

Section handlers.
  Variable fuel : nat.
  Local Abbreviation accept := (accept_vote fuel).

Lemma enter_most r e : round (working e) <= r -> (most (upd_w (set_round r) e) <= most e)%nat.
Proof.
  intros Hr. unfold most, ahead. change (me (upd_w _ e)) with (me e). cbn [working upd_w set_working].
  change (other_rounds (me e) (set_round r (working e))) with (other_rounds (me e) (working e)).
  change (round (set_round r (working e))) with r.
  pose proof (filter_le_length (fun y => r <= y) (fun y => round (working e) <= y) (other_rounds (me e) (working e))
    ltac:(cbn; intros; lia)).
  pose proof (filter_le_length (fun y => r < y) (fun y => round (working e) < y) (other_rounds (me e) (working e))
    ltac:(cbn; intros; lia)). lia.
Qed.

Lemma cast_prepare_total bh e : rounds_ok e -> (most e < fuel)%nat -> sent_prepare_now e = false ->
  is_Some (cast_prepare accept bh e).
Proof.
  intros R HF Hs. pose proof (left_most e). pose proof (prepared_mark_left e Hs).
  destruct (cast_prepare_answers accept fuel (fun sv e => accept_vote_own fuel sv e) bh e) as (e' & o & E & _);
    [done|done|lia|]. by rewrite E.
Qed.

Lemma prepare_nil_total e : rounds_ok e -> (most e < fuel)%nat -> is_Some (prepare_nil accept e).
Proof. intros R HF. unfold prepare_nil. case_match; [done|by apply cast_prepare_total]. Qed.

Lemma on_timeout_total e : rounds_ok e -> (most e < fuel)%nat -> is_Some (on_timeout accept e).
Proof.
  intros R HF. unfold on_timeout. case_match; [|by apply prepare_nil_total]. unfold advance_round.
  pose proof (proj1 R). set (r := sat_add 32 (round (working e)) 1).
  assert (Hr : round (working e) <= r <= 2 ^ 32 - 1) by (unfold r, sat_add; lia).
  pose proof (enter_most r e ltac:(lia)). pose proof (left_most (upd_w (set_round r) e)).
  destruct (enter_round_answers accept fuel (fun sv e => accept_vote_own fuel sv e) r e) as (e' & o & E & _);
    [done|lia|lia|]. unfold r in E. unfold upd_w in *. by rewrite E.
Qed.

Lemma prepare_round0_min_total e : rounds_ok e -> (most e < fuel)%nat -> is_Some (prepare_round0_min accept e).
Proof.
  intros R HF. unfold prepare_round0_min. cbv zeta. destruct (Z.eqb_spec (round (working e)) 0) as [E0|]; [|done].
  case_bool_decide as Es; [done|]. cbn [orb negb]. repeat case_match; try done;
    (apply cast_prepare_total; [done|done|]; apply bool_decide_eq_false; by rewrite E0).
Qed.

Lemma tick_round0_window_total e : rounds_ok e -> (most e < fuel)%nat -> is_Some (tick_round0_window accept e).
Proof. intros R HF. unfold tick_round0_window. cbv zeta. repeat case_match; try done. by apply prepare_round0_min_total. Qed.

Lemma rank_round0_total proposer t bh h e : rounds_ok e -> (most e < fuel)%nat -> is_Some (rank_round0 accept proposer t bh h e).
Proof. intros R HF. unfold rank_round0. cbv zeta. repeat case_match; try done; by apply prepare_round0_min_total. Qed.

(** Adopting a certificate leaves the working state alone or starts a new height. *)
Definition settled e e' : Prop := cfg e' = cfg e /\ (working e' = working e \/ working e' = fresh_working).

Lemma settled_ok e e' : settled e e' -> rounds_ok e -> (most e < fuel)%nat -> rounds_ok e' /\ (most e' < fuel)%nat.
Proof.
  intros [C W] R HF. unfold rounds_ok, most, me in *. rewrite C. destruct W as [->| ->]; [done|].
  split; [|cbn; lia]. split; [done|]. split; [constructor|apply R].
Qed.

Lemma finalize_settled bh e : settled e (finalize bh e).1.
Proof.
  destruct (proposals (working e) !! bh) as [b|] eqn:Eb.
  - pose proof (finalize_facts bh b e Eb) as Hf. destruct (finalize bh e) as [e' o].
    destruct Hf as (C & _ & W & _). split; [done|by right].
  - unfold finalize. rewrite Eb. split; [done|by left].
Qed.

Lemma adopt_certified_parent_settled b e : settled e (adopt_certified_parent b e).1.
Proof.
  unfold adopt_certified_parent, adopt_commit_cert. cbv zeta. repeat case_match; try (split; [done|by left]).
  match goal with |- settled e (finalize ?x ?y).1 => exact (finalize_settled x y) end.
Qed.

Lemma on_skeleton_total b e : rounds_ok e -> (most e < fuel)%nat -> is_Some (on_skeleton accept b e).
Proof.
  intros R HF. unfold on_skeleton. pose proof (adopt_certified_parent_settled b e) as Ha.
  destruct (adopt_certified_parent b e) as [e1 adopted]. destruct adopted; [|done]. cbv zeta.
  set (e2 := note_certified_height b e1).
  assert (Hs : settled e e2).
  { destruct (note_certified_height_steady b e1) as [(C & W & _) _]. fold e2 in C, W.
    destruct Ha as [C1 W1]. simpl in *. split; [congruence|]. by rewrite W. }
  destruct (settled_ok e e2 Hs R HF). repeat case_match; try done. by apply rank_round0_total.
Qed.

Lemma vote_on_proposal_total b ok t e : rounds_ok e -> (most e < fuel)%nat -> is_Some (vote_on_proposal accept b ok t e).
Proof.
  intros R HF. unfold vote_on_proposal. cbv zeta. set (e1 := upd_w _ e).
  assert (R1 : rounds_ok e1 /\ (most e1 < fuel)%nat) by done. destruct R1.
  repeat case_match; try done; first [by apply rank_round0_total | by apply cast_prepare_total].
Qed.

Lemma on_propose_total b shards e : rounds_ok e -> (most e < fuel)%nat -> is_Some (on_propose accept b shards e).
Proof.
  intros R HF. unfold on_propose. cbv zeta. set (e1 := note_valid_value b e).
  assert (R1 : rounds_ok e1 /\ (most e1 < fuel)%nat) by (unfold e1, note_valid_value; by repeat case_match).
  destruct R1. repeat case_match; try done; by apply vote_on_proposal_total.
Qed.

End handlers.

(** Fuel that is always enough. *)
Definition fuel_for e : nat := 8 * (length (prepares (working e)) + length (commits (working e))) + 13.

Lemma accept_vote_total fuel sv e : rounds_ok e -> Vote.round (Vote.vote sv) <= 2 ^ 32 - 1 -> (fuel_for e <= fuel)%nat ->
  is_Some (accept_vote fuel sv e).
Proof.
  intros R Hr HF. destruct fuel as [|fuel]; [unfold fuel_for in HF; lia|]. cbn [accept_vote].
  pose proof (most_bound e). pose proof (store_most sv e). pose proof (left_most e). pose proof (left_most (store_vote sv e)).
  unfold fuel_for in HF.
  destruct (accept_body_answers (accept_vote fuel) fuel (fun sv e => accept_vote_own fuel sv e) sv e fuel) as (e' & o & E & _);
    try done; lia.
Qed.

(** ** More fuel changes nothing *)

Definition below (a b : Vote.SignedVote -> Engine S -> option (Engine S * list Messages.Output)) : Prop :=
  forall sv e r, a sv e = Some r -> b sv e = Some r.

Lemma and_then_below m m' k k' (r : Engine S * list Messages.Output) :
  (forall x, m = Some x -> m' = Some x) -> (forall e x, k e = Some x -> k' e = Some x) ->
  and_then m k = Some r -> and_then m' k' = Some r.
Proof.
  intros Hm Hk. unfold and_then. destruct m as [[e1 o1]|]; [|done]. rewrite (Hm _ eq_refl).
  destruct (k e1) as [[e2 o2]|] eqn:E; [|done]. by rewrite (Hk _ _ E).
Qed.

Section below.
  Variables a b : Vote.SignedVote -> Engine S -> option (Engine S * list Messages.Output).
  Hypothesis Hab : below a b.

Lemma cast_below p bh e r : cast a p bh e = Some r -> cast b p bh e = Some r.
Proof. apply and_then_below; [apply Hab|done]. Qed.

Lemma check_prepared_below bh rd e r : check_prepared a bh rd e = Some r -> check_prepared b bh rd e = Some r.
Proof. unfold check_prepared. cbv zeta. repeat case_match; try done. apply cast_below. Qed.

Lemma reprepare_lock_below e r : reprepare_lock a e = Some r -> reprepare_lock b e = Some r.
Proof. unfold reprepare_lock, cast_prepare. repeat case_match; try done. apply cast_below. Qed.

Lemma advance_round_below e r : advance_round a e = Some r -> advance_round b e = Some r.
Proof. apply and_then_below; [apply reprepare_lock_below|done]. Qed.

Lemma accept_body_below sv e r : accept_body a sv e = Some r -> accept_body b sv e = Some r.
Proof.
  unfold accept_body. cbv zeta. case_match; [|done]. case_match; [done|]. case_match; [done|].
  apply and_then_below.
  - intros x. apply and_then_below.
    + intros y. apply and_then_below; [done|]. intros e1 z. case_match; [apply check_prepared_below|done].
    + intros e1 y. unfold round_failed_by_votes. cbv zeta. repeat case_match; try done. apply advance_round_below.
  - intros e1 x. unfold maybe_advance_round. cbv zeta. repeat case_match; try done.
    apply and_then_below; [apply reprepare_lock_below|done].
Qed.

Lemma on_timeout_below e r : on_timeout a e = Some r -> on_timeout b e = Some r.
Proof.
  unfold on_timeout, prepare_nil, cast_prepare. repeat case_match; try done; [apply advance_round_below|apply cast_below].
Qed.

Lemma prepare_round0_min_below e r : prepare_round0_min a e = Some r -> prepare_round0_min b e = Some r.
Proof. unfold prepare_round0_min, cast_prepare. cbv zeta. repeat case_match; try done; apply cast_below. Qed.

Lemma rank_round0_below p t bh h e r : rank_round0 a p t bh h e = Some r -> rank_round0 b p t bh h e = Some r.
Proof. unfold rank_round0. cbv zeta. repeat case_match; try done; apply prepare_round0_min_below. Qed.

Lemma tick_round0_window_below e r : tick_round0_window a e = Some r -> tick_round0_window b e = Some r.
Proof. unfold tick_round0_window. cbv zeta. repeat case_match; try done; apply prepare_round0_min_below. Qed.

Lemma on_skeleton_below blk e r : on_skeleton a blk e = Some r -> on_skeleton b blk e = Some r.
Proof.
  unfold on_skeleton. destruct (adopt_certified_parent blk e) as [e1 o]. cbv zeta.
  repeat case_match; try done; apply rank_round0_below.
Qed.

Lemma vote_on_proposal_below blk ok t e r : vote_on_proposal a blk ok t e = Some r -> vote_on_proposal b blk ok t e = Some r.
Proof.
  unfold vote_on_proposal, cast_prepare. cbv zeta.
  repeat case_match; try done; first [apply rank_round0_below | apply cast_below].
Qed.

Lemma on_propose_below blk shards e r : on_propose a blk shards e = Some r -> on_propose b blk shards e = Some r.
Proof. unfold on_propose. cbv zeta. repeat case_match; try done; apply vote_on_proposal_below. Qed.

End below.

Lemma accept_vote_below fuel fuel' : (fuel <= fuel')%nat -> below (accept_vote fuel) (accept_vote fuel').
Proof.
  revert fuel'. induction fuel as [|fuel IH]; intros fuel' Hle sv e r; cbn [accept_vote]; [done|].
  destruct fuel' as [|fuel']; [lia|]. cbn [accept_vote]. apply accept_body_below, IH. lia.
Qed.

Lemma step_below fuel fuel' i e r : (fuel <= fuel')%nat -> step fuel i e = Some r -> step fuel' i e = Some r.
Proof.
  intros Hle. pose proof (accept_vote_below _ _ Hle) as Hb. destruct i; cbn [step]; cbv zeta; try done.
  - apply and_then_below; [|done]. intros x. apply and_then_below; [|done]. intros y.
    apply and_then_below; [done|]. intros e1 z. by apply tick_round0_window_below.
  - by apply on_propose_below.
  - by apply on_skeleton_below.
  - apply Hb.
  - by apply on_timeout_below.
Qed.

(** The reaction is defined with the counted fuel. *)
Lemma step_total (e : Engine S) (i : Messages.Input) :
  rounds_ok e -> (forall sv, i = Messages.IVote sv -> Vote.round (Vote.vote sv) <= 2 ^ 32 - 1) ->
  is_Some (step (fuel_for e) i e).
Proof.
  intros R Hi. pose proof (most_bound e). assert (Hm : (most e < fuel_for e)%nat) by (unfold fuel_for; lia).
  destruct i; cbn [step]; cbv zeta; try done.
  - unfold and_then. pose proof (maybe_propose_answers e (left e) R (le_n _)) as (e1 & o & E & C & R1 & _).
    injection E as E. rewrite E.
    assert (Hm1 : (most e1 < fuel_for e)%nat).
    { replace (most e1) with (most e); [done|]. replace e1 with (maybe_propose e).1 by (by rewrite E).
      unfold maybe_propose. cbv zeta. by repeat case_match. }
    destruct (tick_round0_window_total _ e1 R1 Hm1) as [[e2 o2] ->].
    by destruct (maybe_request_body e2).
  - by apply on_propose_total.
  - by apply on_skeleton_total.
  - apply accept_vote_total; [done|by apply Hi|done].
  - by apply on_timeout_total.
Qed.

End fuel.

(** C22: the engine answers every input.  For any state whose rounds fit 32 bits, in a cell whose
    quorum is more than one validator, the votes it casts to itself stop after at most as many
    re-entries as [fuel_for] counts (eight per stored vote and thirteen more); the reaction is then
    defined, and more fuel does not change it. *)
Theorem engine_always_answers `{Crypto} `{KemCrypto} {S : Type} `{!StateMachine S} (e : Engine S)
    (i : Messages.Input) (fuel : nat) :
  rounds_ok e -> (forall sv, i = Messages.IVote sv -> Vote.round (Vote.vote sv) <= 2 ^ 32 - 1) ->
  (fuel_for e <= fuel)%nat ->
  exists r, step fuel i e = Some r /\ step (fuel_for e) i e = Some r.
Proof.
  intros R Hi HF. destruct (step_total e i R Hi) as [r E]. exists r. split; [by eapply step_below|done].
Qed.

Lemma engine_always_answers_witness :
  exists r, @step toy_crypto toy_kem Accounts.Accounts _ 100 Messages.ITimeout (TinyCell.engine 3) = Some r /\
    step (fuel_for (TinyCell.engine 3)) Messages.ITimeout (TinyCell.engine 3) = Some r.
Proof.
  apply (@engine_always_answers toy_crypto toy_kem Accounts.Accounts _ (TinyCell.engine 3) Messages.ITimeout 100).
  - split; [simpl; lia|]. split; [constructor|simpl; lia].
  - intros sv. discriminate.
  - apply Nat.leb_le. reflexivity.
Defined.

End Fuel.
