(* ===== verification/Replay.v ===== *)
(** * The ledger is a replay of the committed blocks

    What a validator executes depends on nothing it heard by gossip: its chain, its queue and its
    ledger state are the fold of one pure function over the blocks it committed and the certified
    states it adopted, whatever openings, votes, attestations and timeouts arrived in between ([try_execute] and its callers in
    [fanos-taxis/src/consensus.rs]). *)
From S2P Require Import Prelude Codec Sig Bounded Params Vote Incentive Pqvrf Committee Shamir Kem Threshold Tx Block Chain Accounts Messages EngineState TinyCell Ledger Pipeline Engine Agreement Safety.
Local Open Scope Z_scope.

Module Replay.
Export Safety.

Section replay.
  Context `{Crypto} `{KemCrypto} {S : Type} `{!StateMachine S}.
  Implicit Types (e : Engine S).

(** ** The reference execution *)

Record View := mk_view {
  v_chain : Chain.Chain S;
  v_queue : list Block.Block;
  v_committed : gmap Z (list Block.CommittedReveal);
}.

(** Execute from the front of the queue while the openings the chain has committed decide it. *)
Fixpoint settle (c : Config) (reward next : Z) (m : gmap Z (list Block.CommittedReveal))
    (queue : list Block.Block) (ch : Chain.Chain S) : list Block.Block * Chain.Chain S :=
  match queue with
  | [] => ([], ch)
  | b :: rest =>
      let t := Z.to_nat (Params.seal_threshold (cf_params c)) in
      match execution_height_of t b m next with
      | None => (queue, ch)
      | Some at_ =>
          let committed := openings_in (Block.height (Block.header b)) at_ m in
          settle c reward next m rest
            (run_block c reward b committed (omap (opens t committed) (Block.sealed_txs b)) ch).1
      end
  end.

(** One more committed block: link it, note its openings, queue it, execute what is decided. *)
Definition extend (c : Config) (reward : Z) (v : View) (b : Block.Block) : View :=
  let ch := Chain.finalize (v_chain v) (Block.header b) in
  let m := match Block.reveals b with
           | [] => v_committed v
           | rs => <[Block.height (Block.header b) := rs]> (v_committed v)
           end in
  let '(queue, ch) := settle c reward (Chain.next_height ch) m (v_queue v ++ [b]) ch in
  mk_view ch queue m.

Definition view e : View := mk_view (chain e) (exec_queue (execution e)) (committed_reveals (execution e)).

(** The block hashes an engine reports as committed. *)
Definition committed_hashes (outs : list Messages.Output) : list (list Z) :=
  omap (fun o => match o with Messages.Committed _ b => Some b | _ => None end) outs.

(** Inputs one after another. *)
Fixpoint feed (fuel : nat) (inputs : list Messages.Input) e : option (Engine S * list Messages.Output) :=
  match inputs with
  | [] => Some (e, [])
  | i :: inputs => and_then (step fuel i e) (feed fuel inputs)
  end.

(** ** The engine's execution is the reference *)

Lemma opened_snd t committed txs :
  (omap (fun tx => (fun txn => (tx, txn)) <$> opens t committed tx) txs).*2 = omap (opens t committed) txs.
Proof.
  induction txs as [|tx txs IH]; [done|]. csimpl. destruct (opens t committed tx); csimpl; by rewrite IH.
Qed.

Lemma execute_queue_settle queue e : exec_queue (execution e) = queue ->
  let e' := (execute_queue queue e).1 in
  (exec_queue (execution e'), chain e') =
    settle (cfg e) (reward_per_block (execution e)) (height e) (committed_reveals (execution e)) queue (chain e) /\
  committed_reveals (execution e') = committed_reveals (execution e) /\ cfg e' = cfg e /\
  reward_per_block (execution e') = reward_per_block (execution e).
Proof.
  revert e. induction queue as [|b queue IH]; intros e Eq; cbn [execute_queue settle]; [simpl; by rewrite Eq|].
  change (execution_height_of _ b _ (height e)) with (execution_height b e).
  destruct (execution_height b e) as [at_|]; [|simpl; by rewrite Eq]. cbv zeta.
  set (committed := openings_in _ _ _). set (opened := omap (fun tx => _ <$> _) _).
  set (e1 := upd_x (set_exec_queue queue) e).
  pose proof (run_block_chain (cfg e) (reward_per_block (execution e)) b committed (opened.*2) (chain e)) as [R1 R2].
  unfold opened in R1, R2 |- *. rewrite opened_snd in R1, R2 |- *.
  change (cfg e1) with (cfg e). change (reward_per_block (execution e1)) with (reward_per_block (execution e)).
  change (chain e1) with (chain e). fold (seal_threshold e).
  destruct (run_block _ _ _ _ _ _) as [ch outcomes]. simpl in R1, R2. fold opened.
  set (e2 := note_deferrals (zip (opened.*1) outcomes) (set_chain ch e1)).
  pose proof (note_deferrals_steady (zip (opened.*1) outcomes) (set_chain ch e1)) as S2. fold e2 in S2.
  unfold emit_exec_vote. set (v := Checkpoint.exec_sign _ _ _ _ _).
  set (e3 := capture_sync_snapshot b (record_exec_vote v e2)).
  assert (S3 : steady (set_chain ch e1) e3).
  { trans e2; [done|]. etrans; [apply (record_exec_vote_steady v)|]. by apply upd_r_steady. }
  destruct S3 as ((C3 & _) & X3 & H3 & M3 & W3).
  change (cfg e3 = cfg e) in C3. change (exec_queue (execution e3) = queue) in X3. change (chain e3 = ch) in H3.
  change (committed_reveals (execution e3) = committed_reveals (execution e)) in M3.
  change (reward_per_block (execution e3) = reward_per_block (execution e)) in W3.
  specialize (IH e3 X3). destruct (execute_queue queue e3) as [e4 outs]. cbn [fst] in IH |- *.
  assert (Eh : height e3 = height e) by (unfold height, Chain.next_height; by rewrite H3, R1, R2).
  rewrite C3, H3, M3, W3, Eh in IH. done.
Qed.

(** Execution stops at the first block whose openings are not decided. *)
Definition blocked e : Prop :=
  match exec_queue (execution e) with [] => True | b :: _ => execution_height b e = None end.

Lemma settle_blocked c reward next m queue ch :
  match (settle c reward next m queue ch).1 with
  | [] => True
  | b :: _ => execution_height_of (Z.to_nat (Params.seal_threshold (cf_params c))) b m next = None
  end.
Proof.
  revert ch. induction queue as [|b queue IH]; intros ch; cbn [settle]; [done|]. cbv zeta.
  destruct (execution_height_of _ b m next) eqn:E; [apply IH|done].
Qed.

Lemma settle_height c reward next m queue ch :
  Chain.next_height (settle c reward next m queue ch).2 = Chain.next_height ch.
Proof.
  revert ch. induction queue as [|b queue IH]; intros ch; cbn [settle]; [done|]. cbv zeta.
  destruct (execution_height_of _ b m next) as [a|]; [|done]. rewrite IH. unfold Chain.next_height.
  by destruct (run_block_chain c reward b (openings_in (Block.height (Block.header b)) a m)
    (omap (opens (Z.to_nat (Params.seal_threshold (cf_params c))) (openings_in (Block.height (Block.header b)) a m))
      (Block.sealed_txs b)) ch) as [-> ->].
Qed.

Lemma settle_none c reward next m b queue ch :
  execution_height_of (Z.to_nat (Params.seal_threshold (cf_params c))) b m next = None ->
  settle c reward next m (b :: queue) ch = (b :: queue, ch).
Proof. intros E. cbn [settle]. cbv zeta. by rewrite E. Qed.

Lemma neutral_hashes outs : Forall neutral outs -> committed_hashes outs = [].
Proof. induction 1 as [|o outs Ho _ IH]; [done|]. by destruct o as [[]| | |]. Qed.

Lemma hashes_app a b : committed_hashes (a ++ b) = committed_hashes a ++ committed_hashes b.
Proof. apply omap_app. Qed.

Lemma execute_queue_hashes queue e : exec_queue (execution e) = queue -> committed_hashes (execute_queue queue e).2 = [].
Proof.
  intros Eq. destruct (execute_queue_quiet queue e Eq) as [_ HF]. revert HF. generalize (execute_queue queue e).2.
  induction 1 as [|o outs Ho _ IH]; [done|]. destruct Ho as (b & v & _ & -> & _). exact IH.
Qed.

(** Finalizing a held block is one application of [extend]. *)
Lemma finalize_view bh b e : proposals (working e) !! bh = Some b ->
  let r := finalize bh e in
  view r.1 = extend (cfg e) (reward_per_block (execution e)) (view e) b /\
  reward_per_block (execution r.1) = reward_per_block (execution e) /\ committed_hashes r.2 = [bh].
Proof.
  intros Hb. unfold finalize. rewrite Hb. cbv zeta. set (finalizer := default _ _).
  set (e1 := upd_r _ e). pose proof (prune_steady e1) as ((P1 & _) & P2 & P3 & P4 & P5).
  set (ep := prune_recovery_retention e1) in *.
  set (e2 := set_chain _ (set_last_finalized_cert (Some finalizer) ep)).
  pose proof (emit_reveals_steady (Block.sealed_txs b) e2) as E3.
  destruct (emit_reveals _ e2) as [e3 out1]. destruct E3 as [S3 N3].
  pose proof (emit_all_steady (exec_queue (execution e3)) e3) as E4.
  destruct (emit_all _ e3) as [e4 out2]. destruct E4 as [S4 N4]. cbn [fst snd] in S3, N3, S4, N4.
  assert (S24 : steady e2 e4) by (by trans e3). destruct S24 as ((A1 & _) & A2 & A3 & A4 & A5).
  set (e6 := upd_x _ (absorb_committed_reveals b e4)).
  assert (B : cfg e6 = cfg e4 /\ chain e6 = chain e4 /\ exec_queue (execution e6) = exec_queue (execution e4) ++ [b] /\
    reward_per_block (execution e6) = reward_per_block (execution e4) /\
    committed_reveals (execution e6) = match Block.reveals b with
      | [] => committed_reveals (execution e4)
      | rs => <[Block.height (Block.header b) := rs]> (committed_reveals (execution e4)) end).
  { unfold e6, absorb_committed_reveals. by destruct (Block.reveals b). }
  destruct B as (B1 & B2 & B3 & B4 & B5).
  pose proof (drain_steady (Block.sealed_txs b) e6) as E7. destruct (drain_pending_reveals _ e6) as [e7 out3].
  destruct E7 as [S7 N7]. cbn [fst snd] in S7, N7.
  set (e8 := upd_x _ e7). assert (S8 : steady e6 e8) by (trans e7; [done|]; by apply upd_x_steady).
  destruct S8 as ((C1 & _) & C2 & C3 & C4 & C5). unfold try_execute.
  pose proof (execute_queue_settle _ e8 eq_refl) as E9. pose proof (execute_queue_hashes _ e8 eq_refl) as N9.
  destruct (execute_queue _ e8) as [e9 out4]. cbn [fst snd] in E9, N9 |- *. destruct E9 as (E9 & M9 & D9 & W9).
  change (chain e2) with (Chain.finalize (chain ep) (Block.header b)) in A3.
  change (execution e2) with (execution ep) in *. change (cfg e2) with (cfg ep) in *.
  change (execution e1) with (execution e) in *. change (chain e1) with (chain e) in *. change (cfg e1) with (cfg e) in *.
  assert (Eh : height e8 = Chain.next_height (Chain.finalize (chain e) (Block.header b))).
  { unfold height. by rewrite C3, B2, A3, P3. }
  split; [|split].
  - unfold view, extend. cbn [v_chain v_queue v_committed execution chain reset_round_state set_working].
    rewrite Eh, C1, B1, A1, P1, C2, B3, A2, P2, C3, B2, A3, P3, C4, B5, A4, P4, C5, B4, A5, P5 in E9.
    rewrite M9, C4, B5, A4, P4. by destruct (settle _ _ _ _ _ _) as [queue ch]; injection E9 as -> ->.
  - cbn [execution reset_round_state set_working]. congruence.
  - cbn. fold (committed_hashes (out1 ++ out2 ++ out3 ++ out4)).
    by rewrite !hashes_app, N9, !neutral_hashes by done.
Qed.

Lemma extend_blocked e b e' : cfg e' = cfg e -> view e' = extend (cfg e) (reward_per_block (execution e)) (view e) b ->
  blocked e'.
Proof.
  intros C E. unfold blocked, execution_height, seal_threshold, height. rewrite C.
  unfold extend in E. cbv zeta in E.
  set (ch := Chain.finalize _ _) in E. set (m := match Block.reveals b with [] => _ | _ => _ end) in E.
  set (qs := v_queue (view e) ++ [b]) in E.
  pose proof (settle_blocked (cfg e) (reward_per_block (execution e)) (Chain.next_height ch) m qs ch) as HB.
  pose proof (settle_height (cfg e) (reward_per_block (execution e)) (Chain.next_height ch) m qs ch) as HH.
  destruct (settle _ _ _ m qs ch) as [queue ch']. cbn [fst snd] in HB, HH. unfold view in E.
  injection E as -> -> ->. by rewrite HH.
Qed.

(** ** Every reaction follows the committed blocks *)

(** Blocks are held under their hashes. *)
Definition held e : Prop := forall k b, proposals (working e) !! k = Some b -> Block.hash b = k.

Definition follows e (r : Engine S * list Messages.Output) : Prop :=
  cfg r.1 = cfg e /\ reward_per_block (execution r.1) = reward_per_block (execution e) /\
  (blocked e -> held e -> blocked r.1 /\ held r.1 /\
     exists bs, committed_hashes r.2 = Block.hash <$> bs /\
       view r.1 = fold_left (extend (cfg e) (reward_per_block (execution e))) bs (view e)).

Lemma follows_trans e e1 o1 e2 o2 : follows e (e1, o1) -> follows e1 (e2, o2) -> follows e (e2, o1 ++ o2).
Proof.
  intros (C1 & W1 & F1) (C2 & W2 & F2). cbn [fst snd] in *. unfold follows. cbn [fst snd]. split; [congruence|]. split; [congruence|].
  intros HB HH. destruct (F1 HB HH) as (B1 & H1 & bs1 & E1 & V1). destruct (F2 B1 H1) as (B2 & H2 & bs2 & E2 & V2).
  split; [done|]. split; [done|]. exists (bs1 ++ bs2). cbn [fst snd].
  rewrite hashes_app, fmap_app, E1, E2. split; [done|]. by rewrite V2, V1, fold_left_app, C1, W1.
Qed.

(** Reactions that leave execution and the held blocks alone. *)
Definition idle e e' : Prop :=
  cfg e' = cfg e /\ view e' = view e /\ reward_per_block (execution e') = reward_per_block (execution e) /\
  proposals (working e') = proposals (working e).

#[global] Instance idle_preorder : PreOrder idle.
Proof.
  split; [by intros e|]. intros a b c (?&?&?&?) (?&?&?&?). repeat split; congruence.
Qed.

Lemma view_blocked e e' : cfg e' = cfg e -> view e' = view e -> blocked e -> blocked e'.
Proof.
  intros C V. unfold view in V. injection V as E1 E2 E3.
  unfold blocked, execution_height, seal_threshold, height. by rewrite C, E1, E2, E3.
Qed.

Lemma idle_follows e e' outs : idle e e' -> committed_hashes outs = [] -> follows e (e', outs).
Proof.
  intros (C & V & W & P) Ho. split; [done|]. split; [done|]. cbn [fst snd]. intros HB HH.
  split; [by eapply view_blocked|]. split; [unfold held; by rewrite P|]. by exists [].
Qed.

Lemma steady_idle e e' : steady e e' -> idle e e'.
Proof.
  intros ((C & W & _) & E1 & E2 & E3 & E4). split; [done|]. unfold view. rewrite E1, E2, E3, W. done.
Qed.

Lemma upd_w_idle fw e : proposals (fw (working e)) = proposals (working e) -> idle e (upd_w fw e).
Proof. intros. by repeat split. Qed.

Lemma hold_follows k b e : Block.hash b = k ->
  follows e (upd_w (fun w => set_proposals (<[k := b]> (proposals w)) w) e, []).
Proof.
  intros Hk. split; [done|]. split; [done|]. cbn [fst snd]. intros HB HH. split; [done|]. split; [|by exists []].
  intros k' x. simpl. intros [[<- <-]|[_ Hx]]%lookup_insert_Some; [done|by apply HH].
Qed.

Lemma finalize_follows bh e : follows e (finalize bh e).
Proof.
  destruct (proposals (working e) !! bh) as [b|] eqn:Eb.
  - destruct (finalize_view bh b e Eb) as (V & W & Ho). pose proof (finalize_facts bh b e Eb) as Hf.
    destruct (finalize bh e) as [e' outs]. destruct Hf as (C & _ & Wk & _). cbn [fst snd] in *.
    split; [done|]. split; [done|]. cbn [fst snd]. intros HB HH. split; [by eapply extend_blocked|].
    split; [intros k x; by rewrite Wk|]. exists [b]. rewrite Ho. split; [|done]. csimpl. by rewrite (HH bh b Eb).
  - unfold finalize. rewrite Eb. by apply idle_follows.
Qed.

Lemma and_then_follows e m k r :
  (forall r1, m = Some r1 -> follows e r1) -> (forall e1 r2, k e1 = Some r2 -> follows e1 r2) ->
  and_then m k = Some r -> follows e r.
Proof.
  intros Hm Hk. unfold and_then. destruct m as [[e1 o1]|]; [|done].
  destruct (k e1) as [[e2 o2]|] eqn:E; [|done]. intros [= <-].
  eapply follows_trans; [by apply Hm|by apply Hk].
Qed.

Lemma idle_then e e1 r : idle e e1 -> follows e1 r -> follows e r.
Proof. destruct r as [e2 o]. intros Hi Hf. apply (follows_trans e e1 [] e2 o); [by apply idle_follows|done]. Qed.

Lemma follows_self e outs : committed_hashes outs = [] -> follows e (e, outs).
Proof. by apply idle_follows. Qed.

Lemma some_follows e e' o r : Some (e', o) = Some r -> follows e (e', o) -> follows e r.
Proof. by intros [= <-]. Qed.

Ltac unchanged := intros [= <-]; by apply follows_self.

Lemma adopt_commit_cert_follows c e : follows e (adopt_commit_cert c e).
Proof.
  unfold adopt_commit_cert. cbv zeta. repeat case_match; try (by apply follows_self).
  match goal with |- follows e (finalize ?x ?e1) => apply (idle_then e e1); [done|apply finalize_follows] end.
Qed.

Lemma adopt_certified_parent_follows b e : follows e (adopt_certified_parent b e).
Proof.
  unfold adopt_certified_parent. repeat case_match; try (by apply follows_self). apply adopt_commit_cert_follows.
Qed.

Lemma on_body_follows b e : follows e (on_body b e).
Proof.
  unfold on_body. cbv zeta. destruct (negb _ || _ || _); [by apply follows_self|].
  pose proof (hold_follows (Block.hash b) b e eq_refl) as Hh. case_match; [|done].
  match goal with |- follows e (finalize ?x ?e1) => pose proof (finalize_follows x e1) as Hf; destruct (finalize x e1) as [e2 o] end.
  by eapply (follows_trans e _ []).
Qed.

Lemma maybe_propose_follows e : follows e (maybe_propose e).
Proof. unfold maybe_propose. cbv zeta. repeat case_match; try (by apply follows_self); by apply idle_follows. Qed.

Lemma maybe_request_body_follows e : follows e (maybe_request_body e).
Proof.
  pose proof (maybe_request_body_steady e) as [S1 N1]. destruct (maybe_request_body e).
  apply idle_follows; [by apply steady_idle|by apply neutral_hashes].
Qed.

Section knot.
  Variable accept : Vote.SignedVote -> Engine S -> option (Engine S * list Messages.Output).
  Hypothesis Hrec : forall sv e r, accept sv e = Some r -> follows e r.

Lemma cast_follows p bh e r : cast accept p bh e = Some r -> follows e r.
Proof.
  unfold cast. cbv zeta. apply and_then_follows.
  - intros r1 E. eapply idle_then; [|by apply Hrec in E]. done.
  - intros e1 r2. unchanged.
Qed.

Lemma cast_prepare_follows bh e r : cast_prepare accept bh e = Some r -> follows e r.
Proof.
  intros E. eapply idle_then; [|unfold cast_prepare in E; by apply cast_follows in E]. by apply upd_w_idle.
Qed.

Lemma check_prepared_follows bh rd e r : check_prepared accept bh rd e = Some r -> follows e r.
Proof.
  unfold check_prepared. cbv zeta. repeat case_match; try unchanged. intros E.
  eapply idle_then; [|by apply cast_follows in E]. by apply upd_w_idle.
Qed.

Lemma check_committed_follows bh e r : check_committed bh e = Some r -> follows e r.
Proof. unfold check_committed. case_match; [unchanged|]. intros [= <-]. apply finalize_follows. Qed.

Lemma reprepare_lock_follows e r : reprepare_lock accept e = Some r -> follows e r.
Proof. unfold reprepare_lock. repeat case_match; try unchanged. apply cast_prepare_follows. Qed.

Lemma enter_round_follows rd e r :
  and_then (reprepare_lock accept (upd_w (set_round rd) e)) (fun e => Some (maybe_propose e)) = Some r -> follows e r.
Proof.
  intros E. eapply (idle_then e (upd_w (set_round rd) e)); [by apply upd_w_idle|].
  revert E. apply and_then_follows; [apply reprepare_lock_follows|]. intros e1 r2 [= <-]. apply maybe_propose_follows.
Qed.

Lemma advance_round_follows e r : advance_round accept e = Some r -> follows e r.
Proof. apply (enter_round_follows (sat_add 32 (round (working e)) 1)). Qed.

Lemma store_vote_idle sv e : idle e (store_vote sv e).
Proof. unfold store_vote. apply upd_w_idle. by destruct (Vote.phase _). Qed.

Lemma accept_body_follows sv e r : accept_body accept sv e = Some r -> follows e r.
Proof.
  unfold accept_body. cbv zeta. case_match; [|unchanged]. case_match; [unchanged|].
  case_match; [intros [= <-]; apply idle_follows; [|done]; case_match; [apply steady_idle, note_height_steady|done]|].
  apply and_then_follows.
  - intros r1. apply and_then_follows.
    + intros r2. apply and_then_follows.
      * intros r3 [= <-]. apply idle_follows; [apply store_vote_idle|by case_match].
      * intros e1 r3. case_match; [apply check_prepared_follows|apply check_committed_follows].
    + intros e1 r2. unfold round_failed_by_votes. cbv zeta. repeat case_match; try unchanged. apply advance_round_follows.
  - intros e1 r1. unfold maybe_advance_round. cbv zeta. repeat case_match; try unchanged. apply enter_round_follows.
Qed.

Lemma on_timeout_follows e r : on_timeout accept e = Some r -> follows e r.
Proof.
  unfold on_timeout, prepare_nil. repeat case_match; try unchanged; [apply advance_round_follows|apply cast_prepare_follows].
Qed.

Lemma prepare_round0_min_follows e r : prepare_round0_min accept e = Some r -> follows e r.
Proof. unfold prepare_round0_min. cbv zeta. repeat case_match; try unchanged; apply cast_prepare_follows. Qed.

Lemma tick_round0_window_follows e r : tick_round0_window accept e = Some r -> follows e r.
Proof.
  unfold tick_round0_window. cbv zeta. case_match; [unchanged|]. case_match; [|unchanged].
  case_match; [intros [= <-]; by apply idle_follows|]. intros E.
  eapply idle_then; [|by apply prepare_round0_min_follows in E]. by apply upd_w_idle.
Qed.

Lemma rank_round0_follows p t bh h e r : rank_round0 accept p t bh h e = Some r -> follows e r.
Proof.
  unfold rank_round0. cbv zeta. set (e1 := upd_w _ e). assert (Hi : idle e e1) by (by apply upd_w_idle).
  repeat case_match; try (intros [= <-]; by apply idle_follows);
    (intros E; eapply idle_then; [exact Hi|by apply prepare_round0_min_follows in E]).
Qed.

Lemma on_skeleton_follows b e r : on_skeleton accept b e = Some r -> follows e r.
Proof.
  unfold on_skeleton. pose proof (adopt_certified_parent_follows b e) as Ha.
  destruct (adopt_certified_parent b e) as [e1 adopted]. destruct adopted as [|o os]; [|by intros [= <-]].
  cbv zeta. set (e2 := note_certified_height b e1).
  assert (S2 : follows e (e2, [])).
  { apply (follows_trans e e1 [] e2 []); [done|]. apply idle_follows; [|done]. apply steady_idle, note_certified_height_steady. }
  destruct r as [e3 o]. repeat case_match; try (by intros [= <- <-]).
  intros E. apply (follows_trans e e2 [] e3 o); [done|]. by apply rank_round0_follows in E.
Qed.

Lemma vote_on_proposal_follows b ok t e r : vote_on_proposal accept b ok t e = Some r -> follows e r.
Proof.
  unfold vote_on_proposal. cbv zeta. set (bh := Block.hash b). case_match; [unchanged|]. set (e1 := upd_w _ e).
  assert (S1 : follows e (e1, [])).
  { unfold e1. destruct (proposals (working e) !! bh) eqn:Ep.
    - apply idle_follows; [|done]. apply upd_w_idle. simpl. unfold or_insert. by rewrite Ep.
    - replace (upd_w _ e) with (upd_w (fun w => set_proposals (<[bh := b]> (proposals w)) w) e);
        [by apply hold_follows|]. unfold upd_w, or_insert. by rewrite Ep. }
  destruct r as [e2 o]. assert (Hk : follows e1 (e2, o) -> follows e (e2, o)).
  { intros Hs. by apply (follows_trans e e1 [] e2 o). }
  repeat case_match; try (by intros [= <- <-]).
  - intros [= E]. apply Hk. rewrite <- E. apply finalize_follows.
  - intros E. apply Hk. by apply rank_round0_follows in E.
  - intros E. apply Hk. by apply cast_prepare_follows in E.
  - intros E. apply Hk. by apply cast_prepare_follows in E.
Qed.

Lemma on_propose_follows b shards e r : on_propose accept b shards e = Some r -> follows e r.
Proof.
  unfold on_propose. cbv zeta. set (e1 := note_valid_value b e).
  assert (S1 : idle e e1) by (unfold e1, note_valid_value; repeat case_match; done).
  repeat case_match; try (intros [= <-]; by apply idle_follows).
  - intros [= E]. eapply idle_then; [exact S1|]. rewrite <- E. unfold learn_from_unlinked.
    case_match; [by apply follows_self|]. eapply idle_then; [|apply adopt_certified_parent_follows].
    apply steady_idle, note_certified_height_steady.
  - intros E. eapply idle_then; [exact S1|]. by apply vote_on_proposal_follows in E.
  - intros E. eapply idle_then; [exact S1|]. by apply vote_on_proposal_follows in E.
Qed.

End knot.

Lemma accept_vote_follows fuel sv e r : accept_vote fuel sv e = Some r -> follows e r.
Proof.
  revert sv e r. induction fuel as [|fuel IH]; intros sv e r; cbn [accept_vote]; [done|].
  by apply accept_body_follows.
Qed.

(** Where execution is blocked there is nothing to execute. *)
Lemma try_execute_follows e : follows e (try_execute e).
Proof.
  unfold try_execute. pose proof (execute_queue_settle _ e eq_refl) as (E & M & C & W).
  pose proof (execute_queue_hashes _ e eq_refl) as Ho. pose proof (execute_queue_quiet _ e eq_refl) as [(_ & Wk & _) _].
  destruct (execute_queue _ e) as [e' outs]. cbn [fst snd] in *. split; [done|]. split; [done|]. cbn [fst snd].
  intros HB HH. assert (V : view e' = view e).
  { unfold blocked in HB. unfold view. rewrite M. destruct (exec_queue (execution e)) as [|b queue]; [by injection E as -> ->|].
    rewrite settle_none in E by done. by injection E as -> ->. }
  split; [by eapply view_blocked|]. split; [unfold held; by rewrite Wk|]. by exists [].
Qed.

Lemma on_reveal_follows r e : follows e (on_reveal r e).
Proof.
  unfold on_reveal. set (first := if bool_decide _ then _ else _).
  assert (Hf : steady e first.1 /\ Forall neutral first.2).
  { unfold first. pose proof (validate_and_record_steady r e) as Hv.
    repeat case_match; simpl; split; try reflexivity; try done; try (by repeat constructor); by apply upd_x_steady. }
  destruct first as [e1 out]. destruct Hf as [S1 N1]. cbn [fst snd] in S1, N1. pose proof (try_execute_follows e1) as S2.
  destruct (try_execute e1) as [e2 outs]. apply (follows_trans e e1 out e2 outs); [|done].
  apply idle_follows; [by apply steady_idle|by apply neutral_hashes].
Qed.

(** The inputs that only vote, gossip and recover: all but a whole-state transfer. *)
Definition no_sync (i : Messages.Input) : Prop :=
  match i with Messages.ISyncResp _ _ _ => False | _ => True end.

#[global] Instance no_sync_dec i : Decision (no_sync i).
Proof. destruct i; apply _. Defined.

Lemma step_follows fuel i e r : no_sync i -> step fuel i e = Some r -> follows e r.
Proof.
  intros Hi. destruct i; cbn [step]; cbv zeta; try done; try (intros [= <-]).
  - apply and_then_follows; [|intros e1 r2 [= <-]; apply maybe_request_body_follows].
    intros r1. apply and_then_follows; [|intros e1 r2 [= <-]; apply follows_self; unfold maybe_request_sync; by case_match].
    intros r2. apply and_then_follows; [intros r3 [= <-]; apply maybe_propose_follows|].
    intros e1 r3. apply tick_round0_window_follows, accept_vote_follows.
  - apply on_propose_follows, accept_vote_follows.
  - apply on_skeleton_follows, accept_vote_follows.
  - apply accept_vote_follows.
  - apply on_reveal_follows.
  - apply idle_follows; [apply steady_idle, on_exec_vote_steady|done].
  - apply on_timeout_follows, accept_vote_follows.
  - apply follows_self, neutral_hashes, sync_answers_neutral.
  - apply adopt_commit_cert_follows.
  - apply follows_self. unfold on_need_body. by case_match.
  - apply on_body_follows.
Qed.

(** ** State transfers *)

(** What a validator commits to: a block it finalized, or a state it adopted under a certificate. *)
Inductive fact :=
| Finalized (b : Block.Block)
| Adopted (cert : Checkpoint.ExecCertificate) (state : S).

Definition fact_hash (f : fact) : list Z :=
  match f with Finalized b => Block.hash b | Adopted cert _ => Checkpoint.xc_head cert end.

(** An adopted state replaces the chain and leaves nothing queued. *)
Definition replay (c : Config) (reward : Z) (v : View) (f : fact) : View :=
  match f with
  | Finalized b => extend c reward v b
  | Adopted cert state => mk_view (Chain.restore (v_chain v) (Checkpoint.xc_height cert) (Checkpoint.xc_head cert) state) [] ∅
  end.

(** An adopted state is the one a quorum of the cell's validators attested. *)
Definition attested (c : Config) (f : fact) : Prop :=
  match f with
  | Finalized _ => True
  | Adopted cert state =>
      Checkpoint.xc_verify cert (Z.to_nat (Params.quorum (cf_params c))) (cf_verifiers c) = true /\
      sm_state_root state = Checkpoint.xc_state_root cert
  end.

Definition tracks e (r : Engine S * list Messages.Output) : Prop :=
  cfg r.1 = cfg e /\ reward_per_block (execution r.1) = reward_per_block (execution e) /\
  (blocked e -> held e -> blocked r.1 /\ held r.1 /\
     exists fs, committed_hashes r.2 = fact_hash <$> fs /\ Forall (attested (cfg e)) fs /\
       view r.1 = fold_left (replay (cfg e) (reward_per_block (execution e))) fs (view e)).

Lemma tracks_trans e e1 o1 e2 o2 : tracks e (e1, o1) -> tracks e1 (e2, o2) -> tracks e (e2, o1 ++ o2).
Proof.
  intros (C1 & W1 & F1) (C2 & W2 & F2). cbn [fst snd] in *. unfold tracks. cbn [fst snd]. split; [congruence|]. split; [congruence|].
  intros HB HH. destruct (F1 HB HH) as (B1 & H1 & fs1 & E1 & A1 & V1). destruct (F2 B1 H1) as (B2 & H2 & fs2 & E2 & A2 & V2).
  split; [done|]. split; [done|]. exists (fs1 ++ fs2). rewrite C1 in A2.
  rewrite hashes_app, fmap_app, E1, E2. split; [done|]. split; [by apply Forall_app|]. by rewrite V2, V1, fold_left_app, C1, W1.
Qed.

Lemma follows_tracks e r : follows e r -> tracks e r.
Proof.
  intros (C & W & F). split; [done|]. split; [done|]. intros HB HH. destruct (F HB HH) as (HB' & HH' & bs & E & V).
  split; [done|]. split; [done|]. exists (Finalized <$> bs). rewrite E, V, <- list_fmap_compose. split; [done|].
  split; [by apply Forall_fmap, Forall_true|]. clear. generalize (view e). induction bs as [|b bs IH]; intros v; [done|]. cbn [fmap list_fmap fold_left]. apply IH.
Qed.

Lemma park_idle cs e : idle e (fold_left (fun e c => park c e) cs e).
Proof.
  revert e. induction cs as [|c cs IH]; intros e; cbn [fold_left]; [done|]. etrans; [|apply IH]. unfold park. by repeat case_match.
Qed.

Lemma on_sync_resp_tracks cert above snapshot e : tracks e (on_sync_resp cert above snapshot e).
Proof.
  assert (Hsame : tracks e (e, [])) by (apply follows_tracks; by apply follows_self).
  unfold on_sync_resp. case_match; [done|]. destruct (Checkpoint.xc_verify _ _ _) eqn:Hx; [|done]. cbn [negb].
  destruct (sm_restore snapshot) as [state|]; [|done]. cbv zeta.
  destruct (bool_decide (sm_state_root state <> _)) eqn:Hr; [done|]. apply bool_decide_eq_false, dec_stable in Hr.
  set (e1 := upd_r _ (upd_x _ _)). pose proof (park_idle above e1) as (C2 & V2 & W2 & P2). set (e2 := fold_left _ _ _) in *.
  pose proof (maybe_request_body_steady (note_height (height e2) e2)) as [S3 N3].
  destruct (maybe_request_body _) as [e3 out]. cbn [fst snd] in S3, N3. destruct (steady_idle _ _ S3) as (C3 & V3 & W3 & P3).
  split; [cbn [fst]; rewrite C3; exact C2|]. split; [cbn [fst]; rewrite W3; exact W2|]. intros _ _. cbn [fst snd].
  assert (V : view e3 = view e1) by (rewrite V3; exact V2).
  split; [apply (view_blocked e1); [rewrite C3; exact C2|done|done]|].
  split; [unfold held; rewrite P3; change (proposals (working (note_height (height e2) e2))) with (proposals (working e2)); rewrite P2; by intros k b|].
  exists [Adopted cert state]. cbn [committed_hashes omap list_omap fmap list_fmap fact_hash]. fold (committed_hashes out). rewrite neutral_hashes by done.
  split; [done|]. split; [by repeat constructor|]. by rewrite V.
Qed.

Lemma step_tracks fuel i e r : step fuel i e = Some r -> tracks e r.
Proof.
  intros E. destruct (decide (no_sync i)) as [Hi|Hi]; [by apply follows_tracks, (step_follows fuel i)|].
  destruct i; try by destruct Hi. injection E as <-. apply on_sync_resp_tracks.
Qed.

Lemma feed_tracks fuel inputs : forall e r, feed fuel inputs e = Some r -> tracks e r.
Proof.
  induction inputs as [|i inputs IH]; intros e [e2 o2]; cbn [feed]; [intros [= <- <-]; by apply follows_tracks, follows_self|].
  unfold and_then. destruct (step fuel i e) as [[e1 o1]|] eqn:E1; [|done]. cbn [mbind option_bind].
  destruct (feed fuel inputs e1) as [[e3 o3]|] eqn:E3; [|done]. intros [= <- <-].
  apply (tracks_trans e e1 o1 e3 o3); [by apply step_tracks in E1|by apply IH in E3].
Qed.

(** C3: the ledger is a replay of what was committed.  Start a validator at genesis with any reward
    per block and feed it any inputs: proposals, votes, openings, attestations, timeouts, certificates,
    bodies and whole-state transfers, in any order.  Its chain, its queue of blocks still to execute,
    the openings it counts and its ledger state are exactly the fold of [replay] over the facts whose
    hashes it reported as committed, in that order: each a block, executed by the reference [extend],
    or a state transfer, whose state is the one a quorum of the cell's keys attested. *)
Theorem engine_replays_committed_blocks (c : Config) (s : S) (reward : Z) (fuel : nat) (inputs : list Messages.Input)
    (e : Engine S) (outs : list Messages.Output) :
  feed fuel inputs (upd_x (set_reward_per_block reward) (new c s)) = Some (e, outs) ->
  exists fs, committed_hashes outs = fact_hash <$> fs /\ Forall (attested c) fs /\
    view e = fold_left (replay c reward) fs (mk_view (Chain.new s) [] ∅).
Proof.
  intros E. destruct (feed_tracks fuel inputs _ _ E) as (_ & _ & Hf).
  destruct Hf as (_ & _ & fs & Hb & HA & V); [done|by intros k b|]. by exists fs.
Qed.

End replay.

(** Two blocks are finalized, then a certified state of height 5 is adopted. *)
Definition w_inputs : list Messages.Input :=
  TinyCell.first_height ++ TinyCell.second_height ++ TinyCell.second_commits ++
  [Messages.ISyncResp (TinyCell.exec_cert 5 (replicate 32 9)) [] (Accounts.snapshot TinyCell.other_state)].

Lemma engine_replays_committed_blocks_witness :
  exists (e : @Engine toy_crypto toy_kem Accounts.Accounts) outs fs,
    @feed toy_crypto toy_kem Accounts.Accounts _ 10 w_inputs
      (upd_x (set_reward_per_block 3) (TinyCell.engine 0)) = Some (e, outs) /\
    committed_hashes outs = [@Block.hash toy_crypto TinyCell.block; @Block.hash toy_crypto TinyCell.block1; replicate 32 9] /\
    committed_hashes outs = @fact_hash toy_crypto Accounts.Accounts <$> fs /\
    view e = fold_left (replay (TinyCell.config 0) 3) fs (mk_view (Chain.new Accounts.new) [] ∅).
Proof.
  assert (Hc : committed_hashes <$> (snd <$> @feed toy_crypto toy_kem Accounts.Accounts _ 10 w_inputs
    (upd_x (set_reward_per_block 3) (TinyCell.engine 0))) = Some [@Block.hash toy_crypto TinyCell.block; @Block.hash toy_crypto TinyCell.block1; replicate 32 9])
    by (vm_compute; reflexivity).
  destruct (feed 10 w_inputs _) as [[e outs]|] eqn:E; [|discriminate Hc]. injection Hc as Hc.
  destruct (engine_replays_committed_blocks (TinyCell.config 0) Accounts.new 3 10 w_inputs e outs) as (fs & H1 & _ & H2).
  - exact E.
  - exists e, outs, fs. split; [reflexivity|]. split; [exact Hc|]. split; [exact H1|exact H2].
Defined.

End Replay.
