(* ===== verification/Network.v ===== *)
(** * Agreement of a cell of engines

    Correct validators run the engine of [fanos-taxis/src/consensus.rs]; the network and up to [f]
    other validators choose which inputs they see, in which order, and may invent anything except
    signatures of correct validators.  No two correct validators commit different blocks at one
    height, and none of them ever signs two conflicting votes.

    An engine that has seen a quorum contradict its state adopts a certified state below its own
    height (the rollback of [on_sync_resp]) and then signs again at heights it has voted at:
    [Limits.rollback_makes_validator_slashable].  A seat to which that happens is counted among the
    faulty ones here: its engine runs in the model too, on any input, rollbacks included, and the
    bound [f] covers it. *)
From S2P Require Import Prelude Codec Sig Bounded Params Vote Incentive Pqvrf Committee Shamir Kem Threshold Tx Block Chain Accounts Messages EngineState TinyCell Ledger Pipeline Engine Agreement Safety.
Local Open Scope Z_scope.

Module Network.
Export Safety.

Section network.
  Context `{Crypto} `{KemCrypto} {S : Type} `{!StateMachine S}.
  Variables (cell : Params.CellParams) (vks : list HybridVerifier) (byz : gset nat).
  Implicit Types (e : Engine S).

Local Abbreviation q := (Z.to_nat (Params.quorum cell)).
Local Abbreviation n := (length vks).

(** The engines by seat, the votes the correct ones signed in order of signing, and all the engines
    have put out.  [byz] are the faulty seats: those that do anything, and those whose engine is rolled
    back at some time. *)
Record Net := mk_net {
  engines : gmap nat (Engine S);
  log : list Vote.Vote;
  trace : list (nat * Messages.Output);
}.

Implicit Types N : Net.

(** Attestations of correct validators are not forged either. *)
Definition exec_known N (v : Checkpoint.ExecVote) : Prop :=
  Z.to_nat (Checkpoint.ev_voter v) ∉ byz ->
  (exists k, vks !! Z.to_nat (Checkpoint.ev_voter v) = Some k /\ Checkpoint.exec_verify v k = true) ->
  exists i, (i ∉ byz) /\ (i, Messages.Send (Messages.MExecVote v)) ∈ trace N.

(** What may arrive at a correct engine: any input whose signatures by correct validators are genuine
    and whose rounds fit their field; a certified state below the engine's height only while the engine
    has not seen a quorum contradict its state, when it ignores it. *)
Definition deliverable N e (i : Messages.Input) : Prop :=
  let L := log N in
  match i with
  | Messages.IPropose b _ | Messages.ISkeleton b => block_known vks byz L b
  | Messages.IVote sv => known vks byz L sv
  | Messages.ICommitCert c => Forall (known vks byz L) (Vote.votes c)
  | Messages.ISyncResp cert above _ =>
      Forall (fun c => Forall (known vks byz L) (Vote.votes c)) above /\
      Forall (exec_known N) (Checkpoint.xc_votes cert) /\
      (height e <= Checkpoint.xc_height cert \/ diverged (recovery e) = None)
  | _ => True
  end.

(** One event at one engine: an input, or a call of the embedding node.  The engine of a faulty seat
    takes any input, one that rolls it back included. *)
Inductive net_step : Net -> Net -> Prop :=
| net_deliver N i e input fuel e' outs :
    i ∉ byz -> engines N !! i = Some e -> deliverable N e input ->
    step fuel input (set_history (log N) e) = Some (e', outs) -> zheight e' < 2 ^ 64 - 1 ->
    net_step N (mk_net (<[i := e']> (engines N)) (history e') (trace N ++ (pair i <$> outs)))
| net_faulty N i e input fuel e' outs :
    i ∈ byz -> engines N !! i = Some e -> step fuel input e = Some (e', outs) ->
    net_step N (mk_net (<[i := e']> (engines N)) (log N) (trace N ++ (pair i <$> outs)))
| net_submit N i e tx :
    engines N !! i = Some e ->
    net_step N (mk_net (<[i := (submit tx e).2]> (engines N)) (log N) (trace N))
| net_sortition N i e secret roots base :
    engines N !! i = Some e ->
    net_step N (mk_net (<[i := enable_sortition secret roots base e]> (engines N)) (log N) (trace N))
| net_reward N i e reward :
    engines N !! i = Some e ->
    net_step N (mk_net (<[i := (set_reward reward e).2]> (engines N)) (log N) (trace N)).

(** Every engine starts fresh, in its own seat, with the cell's keys and parameters. *)
Definition initial N : Prop :=
  log N = [] /\ trace N = [] /\
  forall i e, engines N !! i = Some e -> exists c s, e = new c s /\
    cf_me c = Z.of_nat i /\ cf_verifiers c = vks /\ cf_params c = cell.

Inductive reachable : Net -> Prop :=
| reach_init N : initial N -> reachable N
| reach_step N N' : reachable N -> net_step N N' -> reachable N'.

(** ** The invariant of the cell *)

Record NetInv N : Prop := {
  net_log : Agreement.log_ok n q byz (log N);
  net_engines : forall i e, i ∉ byz -> engines N !! i = Some e ->
    me e = Z.of_nat i /\ zheight e < 2 ^ 64 - 1 /\ Inv vks q byz (set_history (log N) e);
  net_trace : forall i o, i ∉ byz -> (i, o) ∈ trace N -> out_ok vks q byz (log N) o;
}.

Lemma engine_new_inv c (s : S) : cf_verifiers c = vks -> cf_params c = cell -> Inv vks q byz (set_history [] (new c s)).
Proof.
  intros E1 E2. split; simpl; try done.
  - unfold quorum. simpl. by rewrite E2.
  - constructor.
  - intros v Hv. by apply elem_of_nil in Hv.
  - intros v Hv. by apply elem_of_nil in Hv.
  - intros b Hb. by apply elem_of_nil in Hb.
Qed.

(** Votes signed elsewhere do not disturb an engine. *)
Lemma inv_extend e new :
  Inv vks q byz e -> Agreement.log_ok n q byz (history e ++ new) -> Forall (fun v => ~ own e v) new ->
  Inv vks q byz (set_history (history e ++ new) e).
Proof.
  intros I HL HN. rewrite Forall_forall in HN.
  assert (Hin : forall v, v ∈ history e ++ new -> own e v -> v ∈ history e).
  { intros v [Hv|Hv]%elem_of_app Ho; [done|]. by destruct (HN v Hv). }
  assert (Hsub : forall v, v ∈ history e -> v ∈ history e ++ new) by (intros v Hv; set_solver).
  destruct I. split; simpl; try done; unfold own, me in *.
  - intros v Hv Ho. by apply inv_past0; [apply Hin|].
  - intros v Hv Ho. by apply inv_now0; [apply Hin|].
  - intros u Hu. apply inv_lock0. rewrite <- Hu. unfold Agreement.last_commit, Agreement.commits_of.
    rewrite filter_app. set (l := filter _ new). assert (l = []) as ->; [|by rewrite app_nil_r].
    apply elem_of_nil_inv. intros v [[Hs _] Hv]%list_elem_of_filter. by apply (HN v Hv).
  - eapply Forall_impl; [exact inv_known0|]. intros sv. by apply known_mono.
  - intros h b Hb. eapply Agreement.decided_mono; [exact Hsub|]. by apply inv_pending0.
  - intros b Hb. eapply Agreement.decided_mono; [exact Hsub|]. by apply inv_queue0.
Qed.

(** An operation that touches only the pool, the sortition or the reward keeps the invariant. *)
Lemma steady_net N i e e' : NetInv N -> engines N !! i = Some e ->
  (forall L, Inv vks q byz (set_history L e) -> Inv vks q byz (set_history L e')) ->
  cfg e' = cfg e -> zheight e' = zheight e ->
  NetInv (mk_net (<[i := e']> (engines N)) (log N) (trace N)).
Proof.
  intros I Hi Hq C Hz. split; simpl; [apply I| |apply I].
  intros j x Hj [[<- <-]|[_ Hx]]%lookup_insert_Some; [|by apply (net_engines N I)].
  destruct (net_engines N I i e Hj Hi) as (E1 & E2 & E3). unfold me in *. rewrite C, Hz. auto.
Qed.

(** A verified execution certificate names a decided block. *)
Lemma exec_cert_decided N cert f :
  NetInv N -> (n + f < 2 * q)%nat -> (size byz <= f)%nat ->
  Forall (exec_known N) (Checkpoint.xc_votes cert) -> Checkpoint.xc_verify cert q vks = true ->
  Agreement.decided n q byz (log N) (Checkpoint.xc_height cert) (Checkpoint.xc_head cert).
Proof.
  intros I Hs Hb HK (who & Hnd & Hq & Hw)%Checkpoint.xc_verify_sound.
  destruct (Agreement.correct_in_both n f q byz Hs Hb who who) as (i & Hi & _ & Hn); try done.
  1, 2: apply Forall_forall; intros j Hj; by apply Hw.
  destruct (Hw i Hi) as (_ & v & Hv & Ei & E1 & E2 & E3 & k & Hk & Hver).
  rewrite Forall_forall in HK. destruct (HK v Hv) as (j & Hb' & Hj); [by rewrite Ei|by exists k|].
  pose proof (net_trace N I _ _ Hb' Hj) as Hd. simpl in Hd. by rewrite E1, E3 in Hd.
Qed.

Lemma net_step_inv N N' f : (n + f < 2 * q)%nat -> (size byz <= f)%nat -> NetInv N -> net_step N N' -> NetInv N'.
Proof.
  intros Hs Hb I Hstep. destruct Hstep as [N i e input fuel e' outs Hc Hi Hd He Hz|N i e input fuel e' outs Hc Hi He|N i e tx Hi|N i e sec roots base Hi|N i e rw Hi].
  - destruct (net_engines N I i e Hc Hi) as (Em & Ez & Ie). set (e0 := set_history (log N) e) in *.
    assert (Hin : input_ok vks q byz e0 input).
    { destruct input; simpl; try done. destruct Hd as (D1 & D2 & D3). split; [done|]. split; [done|]. split.
      - destruct D3 as [D3|D3]; [left|by right].
        by rewrite <- (height_z vks q byz e0 Ie) by (change (zheight e0) with (zheight e); lia).
      - by eapply exec_cert_decided. }
    destruct (step_sound vks q byz _ _ _ _ Ie Hin He) as (C & _ & (new & Hh & Ho) & Hpost).
    destruct (Hpost Hz Ie) as [I' O']. simpl in Hh. split; simpl.
    + apply I'.
    + intros j x Hj [[<- <-]|[Hne Hx]]%lookup_insert_Some.
      { split; [unfold me; by rewrite C|]. split; [done|]. by destruct e'. }
      destruct (net_engines N I j x Hj Hx) as (Xm & Xz & Xi). split; [done|]. split; [done|].
      rewrite Hh. apply (inv_extend (set_history (log N) x) new); [done| |].
      * simpl. rewrite <- Hh. apply I'.
      * eapply Forall_impl; [exact Ho|]. unfold own. intros v Hv Hv'. apply Hne.
        rewrite Hv in Hv'. change (me e0) with (me e) in Hv'.
        change (me (set_history (log N) x)) with (me x) in Hv'. rewrite Em, Xm in Hv'. lia.
    + intros j o Hj [Ho'|Ho']%elem_of_app.
      * eapply out_ok_mono; [|by eapply (net_trace N I)]. rewrite Hh. set_solver.
      * apply list_elem_of_fmap in Ho' as (o' & [= -> ->] & Ho'). rewrite Forall_forall in O'. by apply O'.
  - split; simpl; [apply I| |].
    + intros j x Hj [[<- <-]|[_ Hx]]%lookup_insert_Some; [done|by apply (net_engines N I)].
    + intros j o Hj [Ho|(o' & [= -> ->] & _)%list_elem_of_fmap]%elem_of_app; [by apply (net_trace N I j)|done].
  - apply (steady_net N i e); try done; unfold submit; repeat case_match; simpl; try done.
    intros L. apply quiet_inv. repeat split; auto.
  - apply (steady_net N i e); try done. intros L. apply quiet_inv. repeat split; auto.
  - apply (steady_net N i e); try done; unfold set_reward; repeat case_match; simpl; try done.
    intros L. apply quiet_inv. repeat split; auto.
Qed.

Lemma initial_inv N : initial N -> NetInv N.
Proof.
  intros (EL & ET & HE). split; rewrite ?EL, ?ET; [constructor| |by intros ? ? _ ?%elem_of_nil].
  intros i e _ Hi. destruct (HE i e Hi) as (c & s & -> & E1 & E2 & E3).
  split; [done|]. split; [done|]. by apply engine_new_inv.
Qed.

Lemma reachable_inv N f : (n + f < 2 * q)%nat -> (size byz <= f)%nat -> reachable N -> NetInv N.
Proof. intros Hs Hb. induction 1; [by apply initial_inv|by eapply net_step_inv]. Qed.

End network.

(** ** The theorems *)

Section theorems.
  Context `{Crypto} `{KemCrypto} {S : Type} `{!StateMachine S}.

(** A cell of a known order with its validators' keys and at most its fault budget of seats that do
    not run the engine. *)
Definition cell_ok (q0 : Z) (cell : Params.CellParams) (vks : list HybridVerifier) (byz : gset nat) : Prop :=
  q0 < 2 ^ 31 /\ Params.for_order q0 = Some cell /\ Z.of_nat (length vks) = Params.n cell /\
  Z.of_nat (size byz) <= Params.f cell.

Lemma cell_ok_safe q0 cell vks byz : cell_ok q0 cell vks byz ->
  (length vks + Z.to_nat (Params.f cell) < 2 * Z.to_nat (Params.quorum cell))%nat /\
  (size byz <= Z.to_nat (Params.f cell))%nat.
Proof.
  intros (Hq & Hp & Hn & Hb). destruct (Params.small_params q0 cell Hq Hp) as (_ & _ & _ & _ & HQ & HF & _). lia.
Qed.

(** C1: agreement.  As long as at most [f] seats are faulty, be it that they misbehave or that their
    engine is rolled back to a certified state below its height, then whatever is delivered, lost,
    reordered, repeated or invented by the faulty ones, two correct validators never commit different
    blocks at the same height, be it by finalizing the block or by adopting a certified state on top of
    it.  (A rollback has to count: it makes an engine vote again at heights it has voted at.) *)
Theorem engines_agree (q0 : Z) (cell : Params.CellParams) (vks : list HybridVerifier) (byz : gset nat)
    (N : Net (S := S)) (i j : nat) (h : Z) (b b' : list Z) :
  cell_ok q0 cell vks byz -> reachable cell vks byz N -> i ∉ byz -> j ∉ byz ->
  (i, Messages.Committed h b) ∈ trace N -> (j, Messages.Committed h b') ∈ trace N -> b = b'.
Proof.
  intros Hc HR Hi Hj Hb Hb'. destruct (cell_ok_safe _ _ _ _ Hc) as [Hs Hf].
  pose proof (reachable_inv cell vks byz N _ Hs Hf HR) as I.
  eapply (Agreement.decided_unique _ _ _ _ Hs Hf); [apply (net_log _ _ _ _ I)|..].
  - exact (net_trace _ _ _ _ I _ _ Hi Hb).
  - exact (net_trace _ _ _ _ I _ _ Hj Hb').
Qed.

(** C2: a correct validator is never slashable.  No two votes that validators broadcast which neither
    misbehave nor are ever rolled back to a certified state below their height are evidence of
    equivocation under any key, in any run in which at most [f] seats are faulty or rolled back. *)
Theorem correct_engines_never_equivocate (q0 : Z) (cell : Params.CellParams) (vks : list HybridVerifier)
    (byz : gset nat) (N : Net (S := S)) (i j : nat) (sv sv' : Vote.SignedVote) (k : HybridVerifier) :
  cell_ok q0 cell vks byz -> reachable cell vks byz N -> i ∉ byz -> j ∉ byz ->
  (i, Messages.Send (Messages.MVote sv)) ∈ trace N -> (j, Messages.Send (Messages.MVote sv')) ∈ trace N ->
  Incentive.detect_equivocation sv sv' k = None.
Proof.
  intros Hc HR Hi Hj Hv Hv'. destruct (cell_ok_safe _ _ _ _ Hc) as [Hs Hf].
  pose proof (reachable_inv cell vks byz N _ Hs Hf HR) as I.
  destruct (Incentive.detect_equivocation sv sv' k) eqn:E; [|done]. exfalso.
  destruct (proj1 (Incentive.detect_equivocation_iff sv sv' k)) as (E1 & E2 & E3 & E4 & E5 & _); [by rewrite E|].
  apply E5. f_equal. eapply Agreement.log_unique; [apply (net_log _ _ _ _ I)|..]; try done.
  - exact (net_trace _ _ _ _ I _ _ Hi Hv).
  - exact (net_trace _ _ _ _ I _ _ Hj Hv').
  - unfold Agreement.seat. by rewrite E1.
Qed.

End theorems.

(** ** A cell that runs

    An executable scheduler for the events of a cell, and one run of it in which two of five correct
    validators, with two seats silent, finalize the first block. *)

Inductive Event := Tick (i : nat) | Relay (i k : nat).

Section run.
  Context `{Crypto} `{KemCrypto} {S : Type} `{!StateMachine S}.
  Variables (cell : Params.CellParams) (vks : list HybridVerifier) (byz : gset nat).

(** The [k]-th output of the cell as an input of an engine; a proposal arrives with all its shards. *)
Definition as_input (o : Messages.Output) : option Messages.Input :=
  match o with
  | Messages.Send (Messages.MPropose b) => Some (Messages.IPropose b (Some <$> Block.da_shards b))
  | Messages.Send (Messages.MVote sv) => Some (Messages.IVote sv)
  | _ => None
  end.

Definition event_input (N : Net (S := S)) (ev : Event) : option (nat * Messages.Input) :=
  match ev with
  | Tick i => Some (i, Messages.ITick)
  | Relay i k => letO io := trace N !! k in letO input := as_input (snd io) in Some (i, input)
  end.

Definition genuine (L : list Vote.Vote) (i : Messages.Input) : bool :=
  match i with
  | Messages.ITick => true
  | Messages.IVote sv => (Vote.round (Vote.vote sv) <=? 2 ^ 32 - 1) && bool_decide (Vote.vote sv ∈ L)
  | Messages.IPropose b _ => bool_decide (Block.pol b = None) && bool_decide (Block.last_commit b = None)
  | _ => false
  end.

Definition play (fuel : nat) (N : Net (S := S)) (ev : Event) : option Net :=
  letO ii := event_input N ev in
  let '(i, input) := ii in
  letO e := engines N !! i in
  letO r := step fuel input (set_history (log N) e) in
  let '(e', outs) := r in
  if bool_decide (i ∉ byz) && genuine (log N) input && (zheight e' <? 2 ^ 64 - 1) then
    Some (mk_net (<[i := e']> (engines N)) (history e') (trace N ++ (pair i <$> outs)))
  else None.

Fixpoint plays (fuel : nat) (evs : list Event) (N : Net (S := S)) : option Net :=
  match evs with
  | [] => Some N
  | ev :: evs => letO N := play fuel N ev in plays fuel evs N
  end.

Lemma play_step fuel N ev N' : play fuel N ev = Some N' -> net_step vks byz N N'.
Proof.
  unfold play. destruct (event_input N ev) as [[i input]|]; [|done].
  destruct (engines N !! i) as [e|] eqn:Ee; [|done].
  destruct (step fuel input (set_history (log N) e)) as [[e' outs]|] eqn:Es; [|done].
  destruct (bool_decide_reflect (i ∉ byz)) as [Hbi|]; [|done].
  destruct (genuine (log N) input) eqn:Eg; [|done]. destruct (Z.ltb_spec (zheight e') (2 ^ 64 - 1)); [|done].
  cbn [andb]. intros [= <-]. eapply net_deliver; try done.
  destruct input; simpl in *; try done.
  - apply andb_true_iff in Eg as [E1%bool_decide_eq_true E2%bool_decide_eq_true].
    intros c [Hc|Hc]; congruence.
  - apply andb_true_iff in Eg as [E1%Z.leb_le E2%bool_decide_eq_true]. by split.
Qed.

Lemma plays_reachable fuel evs N N' : reachable cell vks byz N -> plays fuel evs N = Some N' -> reachable cell vks byz N'.
Proof.
  revert N. induction evs as [|ev evs IH]; intros N HR; cbn [plays]; [by intros [= <-]|].
  destruct (play fuel N ev) as [N1|] eqn:E; [|done]. apply IH. eapply reach_step; [exact HR|]. by eapply play_step.
Qed.

(** What an engine committed, oldest first. *)
Definition committed_by (N : Net (S := S)) (i : nat) : list (Z * list Z) :=
  omap (fun io => match io with
                  | (j, Messages.Committed h b) => if (i =? j)%nat then Some (h, b) else None
                  | _ => None
                  end) (trace N).

Lemma committed_by_trace N i h b : (h, b) ∈ committed_by N i -> (i, Messages.Committed h b) ∈ trace N.
Proof.
  unfold committed_by. rewrite list_elem_of_omap. intros ([j o] & Hin & E).
  destruct o; try done. destruct (Nat.eqb_spec i j) as [<-|]; [|done]. by injection E as <- <-.
Qed.

End run.

(** The run: seven seats, seats 5 and 6 silent. *)
Definition w_byz : gset nat := {[5%nat; 6%nat]}.
Definition w_net : @Net toy_crypto toy_kem Accounts.Accounts :=
  @mk_net toy_crypto toy_kem Accounts.Accounts
    (list_to_map ((fun i => (i, TinyCell.engine i)) <$> seq 0 5)) [] [].

(** The leader ticks; its proposal reaches all; every PREPARE reaches all; the COMMITs reach two. *)
Definition w_events : list Event :=
  [Tick 0] ++ ((fun i => Relay i 0) <$> seq 0 5) ++
  (seq 0 5 ≫= fun i => (fun j => Relay i (1 + j)) <$> filter (fun j => j <> i) (seq 0 5)) ++
  (seq 0 2 ≫= fun i => (fun j => Relay i (6 + j)) <$> filter (fun j => j <> i) (seq 0 5)).

Definition w_run : option (@Net toy_crypto toy_kem Accounts.Accounts) :=
  @plays toy_crypto toy_kem Accounts.Accounts _ w_byz 10 w_events w_net.

(** The votes an engine broadcast. *)
Definition votes_by {C : Crypto} {K : KemCrypto} {S} (N : @Net C K S) (i : nat) : list Vote.SignedVote :=
  omap (fun io => match io with
                  | (j, Messages.Send (Messages.MVote sv)) => if (i =? j)%nat then Some sv else None
                  | _ => None
                  end) (trace N).

Lemma votes_by_trace {C : Crypto} {K : KemCrypto} {S} (N : @Net C K S) i sv :
  sv ∈ votes_by N i -> (i, Messages.Send (Messages.MVote sv)) ∈ trace N.
Proof.
  unfold votes_by. rewrite list_elem_of_omap. intros ([j o] & Hin & E).
  destruct o as [[]| | |]; try done. destruct (Nat.eqb_spec i j) as [<-|]; [|done]. by injection E as <-.
Qed.

Lemma w_cell_ok : cell_ok 2 Params.FANO TinyCell.keys w_byz.
Proof. split; [done|]. split; [done|]. by split. Qed.

Lemma w_reachable N : w_run = Some N -> reachable Params.FANO TinyCell.keys w_byz N.
Proof.
  apply plays_reachable. apply reach_init. split; [done|]. split; [done|]. intros i e Hi.
  apply elem_of_list_to_map_2, list_elem_of_fmap in Hi as (j & [= -> ->] & Hj).
  by exists (TinyCell.config j), Accounts.new.
Qed.

(** The run ends, two engines have committed one block each, and the first sent two votes. *)
Lemma w_run_outcome : exists N b b' sv sv', w_run = Some N /\
  (0%nat, Messages.Committed 0 b) ∈ trace N /\ (1%nat, Messages.Committed 0 b') ∈ trace N /\
  (0%nat, Messages.Send (Messages.MVote sv)) ∈ trace N /\ (0%nat, Messages.Send (Messages.MVote sv')) ∈ trace N /\
  Vote.height (Vote.vote sv) = Vote.height (Vote.vote sv') /\ Vote.phase (Vote.vote sv) <> Vote.phase (Vote.vote sv').
Proof.
  assert (E : match w_run with
    | Some N => match committed_by N 0, committed_by N 1, votes_by N 0 with
                | (h, _) :: _, (h', _) :: _, [v; v'] =>
                    (h =? 0) && (h' =? 0) && (Vote.height (Vote.vote v) =? Vote.height (Vote.vote v')) &&
                    bool_decide (Vote.phase (Vote.vote v) <> Vote.phase (Vote.vote v'))
                | _, _, _ => false
                end
    | None => false
    end = true) by (vm_compute; reflexivity).
  destruct w_run as [N|] eqn:EN; [|discriminate E].
  destruct (committed_by N 0) as [|[h b] l] eqn:E0; [discriminate E|].
  destruct (committed_by N 1) as [|[h' b'] l'] eqn:E1; [discriminate E|].
  destruct (votes_by N 0) as [|v [|v' [|? ?]]] eqn:E2; [discriminate E|discriminate E| |discriminate E].
  rewrite !andb_true_iff, !Z.eqb_eq, bool_decide_eq_true in E. destruct E as [[[-> ->] Ev] Ep].
  exists N, b, b', v, v'. split; [reflexivity|]. clear EN.
  split; [apply committed_by_trace; rewrite E0; by left|]. split; [apply committed_by_trace; rewrite E1; by left|].
  split; [apply votes_by_trace; rewrite E2; by left|]. split; [|done].
  apply votes_by_trace. rewrite E2. right. by left.
Qed.

Lemma engines_agree_witness : exists (N : @Net toy_crypto toy_kem Accounts.Accounts) b b',
  (0%nat, Messages.Committed 0 b) ∈ trace N /\ (1%nat, Messages.Committed 0 b') ∈ trace N /\ b = b'.
Proof.
  destruct w_run_outcome as (N & b & b' & _ & _ & EN & H1 & H2 & _). exists N, b, b'.
  split; [done|]. split; [done|].
  exact (engines_agree 2 Params.FANO TinyCell.keys w_byz N 0 1 0 b b' w_cell_ok (w_reachable N EN) ltac:(by vm_compute) ltac:(by vm_compute) H1 H2).
Defined.

Lemma correct_engines_never_equivocate_witness : exists (N : @Net toy_crypto toy_kem Accounts.Accounts) sv sv',
  (0%nat, Messages.Send (Messages.MVote sv)) ∈ trace N /\ (0%nat, Messages.Send (Messages.MVote sv')) ∈ trace N /\
  Vote.height (Vote.vote sv) = Vote.height (Vote.vote sv') /\
  @Incentive.detect_equivocation toy_crypto sv sv' (@verifier_of toy_crypto (TinyCell.signer 0)) = None.
Proof.
  destruct w_run_outcome as (N & _ & _ & sv & sv' & EN & _ & _ & H1 & H2 & H3 & _). exists N, sv, sv'.
  split; [done|]. split; [done|]. split; [done|].
  exact (correct_engines_never_equivocate 2 Params.FANO TinyCell.keys w_byz N 0 0 sv sv' _ w_cell_ok (w_reachable N EN) ltac:(by vm_compute) ltac:(by vm_compute) H1 H2).
Defined.

End Network.
