(* ===== verification/Limits.v ===== *)
(** * Where the engine stops short of its comments

    Four reactions of the engine of [fanos-taxis/src/consensus.rs] that its comments describe
    differently: offering a locked block again, proposing after a state transfer, voting after
    a rollback, and proposing with openings of any length. *)
From S2P Require Import Prelude Codec Sig Bounded Params Vote Incentive Pqvrf Committee Shamir Kem Threshold Tx Block Chain Accounts Messages EngineState TinyCell Ledger Pipeline Openings Engine Agreement Safety Fuel Replay.
Local Open Scope Z_scope.

Module Limits.
Export Replay Fuel.

Section limits.
  Context `{Crypto} `{KemCrypto} {S : Type} `{!StateMachine S}.
  Implicit Types (e : Engine S).

(** What the engine would offer, before a sortition ticket is attached. *)
Definition draft e : Block.Block :=
  let b := match locked_offer e with
           | Some (locked, cert) => Block.reoffer locked cert
           | None => fresh_block (height e) e
           end in
  match last_finalized_cert e with Some c => Block.with_last_commit b c | None => b end.

(** The proof of lock a block carries convinces no engine of any cell. *)
Definition proof_ignored (b : Block.Block) : Prop := forall receiver : Engine S, pol_ok b receiver = false.

(** No engine of any cell takes the block's record of who committed its parent. *)
Definition record_refused (b : Block.Block) : Prop := forall receiver : Engine S, valid_last_commit b receiver = false.

(** Two votes signed with one key are evidence against its owner. *)
Definition slashable (k : HybridSigSecret) (v v' : Vote.Vote) : Prop :=
  is_Some (Incentive.detect_equivocation (Vote.sign v k) (Vote.sign v' k) (verifier_of k)).

(** A proposal is the draft, with at most a ticket attached. *)
Lemma proposal_is_draft e e' b : maybe_propose e = (e', [Messages.Send (Messages.MPropose b)]) ->
  Block.header b = Block.header (draft e) /\ Block.pol b = Block.pol (draft e) /\
  Block.last_commit b = Block.last_commit (draft e).
Proof.
  unfold maybe_propose. cbv zeta. destruct ((negb _ && negb _) || _); [done|].
  destruct (_ && bool_decide (last_finalized_cert e = None)); [done|].
  change (match last_finalized_cert e with Some _ => _ | None => _ end) with (draft e).
  destruct (sortition_round0 e).
  - destruct (leader_witness (height e) e) as [w|]; [|done]. simpl. by intros [= _ <-].
  - by intros [= _ <-].
Qed.

(** ** Offering a locked block again *)

Lemma header_with_root h r : CryptoLaws -> Block.header_ok h -> length r = 32%nat -> is_bytes r ->
  r <> Block.last_commit_root h -> Block.header_hash (Block.set_last_commit_root h r) <> Block.header_hash h \/
  broken_on (Block.header_hashed <$> [Block.set_last_commit_root h r; h]).
Proof.
  intros Hl Hh Hr Hb Hne. set (h' := Block.set_last_commit_root h r). apply unless_broken. intros Hx E.
  apply (hash_labeled_inj _ _ _ _ Hx) in E; [|set_solver..].
  assert (Hh' : Block.header_ok h') by (destruct Hh as ((?&?&?&?&?) & ? & (?&?&?&?&?)); split; [|split]; simpl; tauto).
  apply Block.header_bytes_inj in E; [|done|done]. by rewrite <- E in Hne.
Qed.

(** A locked block offered again is another block.  An engine locked on a block, with the
    certificate that locked it, offers it again with its own record of who committed the parent.
    If that record differs from the one in the locked block (other COMMIT votes reached it first),
    then, unless the two headers collide, the offered block has another hash, its proof of lock
    is for a block that is not there, and no receiver accepts the proof. *)
Theorem reoffered_block_loses_its_proof (Hl : CryptoLaws) (e e' : Engine S) (b b' : Block.Block)
    (cert lc : Vote.Certificate) :
  locked_offer e = Some (b, cert) -> Vote.c_block_hash cert = Block.hash b -> Block.header_ok (Block.header b) ->
  last_finalized_cert e = Some lc -> Block.commit_last (Some lc) <> Block.last_commit_root (Block.header b) ->
  maybe_propose e = (e', [Messages.Send (Messages.MPropose b')]) ->
  broken_on (Block.header_hashed <$> [Block.header b'; Block.header b]) \/ Block.hash b' <> Block.hash b /\ proof_ignored b'.
Proof.
  intros Ho Hc Hh Hf Hne (Eh & Ep & _)%proposal_is_draft. unfold draft in Eh, Ep. rewrite Ho, Hf in Eh, Ep.
  simpl in Eh, Ep.
  destruct (header_with_root (Block.header b) (Block.commit_last (Some lc)) Hl Hh) as [Hn|]; [| |done| |left; by rewrite Eh].
  - apply hash_labeled_length.
  - apply hash_labeled_bytes.
  - right. assert (Hd : Block.hash b' <> Block.hash b) by (unfold Block.hash; by rewrite Eh). split; [done|].
    intros r. unfold pol_ok. rewrite Ep, Hc, (bool_decide_false (Block.hash b = Block.hash b')) by congruence.
    by rewrite andb_false_r.
Qed.

(** ** Proposing after a state transfer *)

Lemma park_all_cert cs e : last_finalized_cert (fold_left (fun e c => park c e) cs e) = last_finalized_cert e /\
  working (fold_left (fun e c => park c e) cs e) = working e /\ chain (fold_left (fun e c => park c e) cs e) = chain e.
Proof.
  revert e. induction cs as [|c cs IH]; intros e; cbn [fold_left]; [done|].
  destruct (IH (park c e)) as (-> & -> & ->). unfold park. by repeat case_match.
Qed.

(** What an adopted state transfer leaves behind. *)
Lemma sync_adopted cert above snapshot e e1 outs : on_sync_resp cert above snapshot e = (e1, outs) -> outs <> [] ->
  last_finalized_cert e1 = last_finalized_cert e /\ working e1 = fresh_working /\
  height e1 = w64 (sat_add 64 (Checkpoint.xc_height cert) 1 + 0).
Proof.
  unfold on_sync_resp. case_match; [by intros [= <- <-]|]. case_match; [by intros [= <- <-]|].
  case_match; [|by intros [= <- <-]]. cbv zeta. case_match; [by intros [= <- <-]|].
  set (e0 := upd_r _ _). pose proof (park_all_cert above e0) as (P1 & P2 & P3).
  set (ep := fold_left _ _ _) in *. set (en := note_height _ ep).
  assert (Hm : (maybe_request_body en).1 = en \/ exists f, (maybe_request_body en).1 = upd_r f en).
  { unfold maybe_request_body. repeat case_match; simpl; eauto. }
  destruct (maybe_request_body en) as [em out]. simpl in Hm. intros [= <- <-] _. unfold height.
  destruct Hm as [->|[f ->]]; simpl; by rewrite P1, P2, P3.
Qed.

(** A synced validator proposes with a stale record.  When a validator that has finalized a
    block before adopts a certified state from further ahead, it keeps the certificate of its old
    block, and every block it then proposes records that certificate as the commit of a parent it
    does not belong to: no receiver, whatever its keys, accepts the record. *)
Theorem synced_proposal_is_refused (cert : Checkpoint.ExecCertificate) (above : list Vote.Certificate)
    (snapshot : list Z) (e e1 e2 : Engine S) (outs : list Messages.Output) (lc : Vote.Certificate) (b : Block.Block) :
  0 <= Checkpoint.xc_height cert < 2 ^ 64 - 1 ->
  on_sync_resp cert above snapshot e = (e1, outs) -> outs <> [] ->
  last_finalized_cert e = Some lc -> Vote.c_height lc <> Checkpoint.xc_height cert ->
  maybe_propose e1 = (e2, [Messages.Send (Messages.MPropose b)]) ->
  Block.last_commit b = Some lc /\ record_refused b.
Proof.
  intros Hu Hs Hn Hf Hne (Eh & _ & El)%proposal_is_draft.
  destruct (sync_adopted _ _ _ _ _ _ Hs Hn) as (F1 & W1 & H1). rewrite Hf in F1.
  unfold draft, locked_offer in Eh, El. rewrite W1, F1 in Eh, El. simpl in Eh, El. split; [done|].
  intros r. unfold valid_last_commit. rewrite El.
  assert (Hh : bheight b = Checkpoint.xc_height cert + 1).
  { unfold bheight. rewrite Eh. simpl. rewrite H1. unfold sat_add. rewrite wrap_small by (unfold in_u; lia). lia. }
  rewrite Hh. unfold sat_sub. rewrite (proj2 (Z.eqb_neq _ _)) by lia. by rewrite andb_false_r.
Qed.

(** ** Voting after a rollback *)

(** A first timeout in a fresh round signs an empty PREPARE. *)
Lemma timeout_signs_nil fuel e r : working e = fresh_working -> on_timeout (accept_vote fuel) e = Some r ->
  Vote.mk_vote (height e) 0 Vote.NIL Vote.Prepare (me e) ∈ history r.1.
Proof.
  intros W. unfold on_timeout, prepare_nil, sent_prepare_now. rewrite W. simpl.
  rewrite !(bool_decide_false (0 ∈ (∅ : gset Z))) by set_solver. unfold cast_prepare, cast. cbv zeta.
  set (v := Vote.mk_vote _ _ _ _ _). set (e1 := set_history _ _). set (sv := Vote.sign v _).
  assert (Ev : v = Vote.mk_vote (height e) 0 Vote.NIL Vote.Prepare (me e)) by (unfold v; simpl; by rewrite W).
  destruct (accept_vote fuel sv e1) as [[e2 o]|] eqn:Ea; [|done]. intros [= <-]. simpl. rewrite <- Ev.
  destruct (accept_vote_sound [] (Datatypes.S (quorum e1)) ∅ fuel sv e1 (e2, o)) as (_ & _ & (new & -> & _) & _).
  - intros I. pose proof (inv_q _ _ _ _ I). lia.
  - done.
  - unfold e1. simpl. apply elem_of_app; left; apply elem_of_app; right; by apply list_elem_of_singleton.
Qed.

(** A rollback makes a correct validator contradict itself.  A validator whose state a quorum
    has contradicted adopts a certified state below its own height, as the code intends, and forgets
    which votes it signed above it; the next timeout signs an empty PREPARE in a height and round
    where it had prepared a block, and the two signed votes are slashing evidence against it. *)
Theorem rollback_makes_validator_slashable (Hl : CryptoLaws) (e : Engine S) (cert : Checkpoint.ExecCertificate)
    (snapshot : list Z) (st : S) (b : list Z) (fuel : nat) :
  diverged (recovery e) <> None -> 0 <= Checkpoint.xc_height cert < 2 ^ 64 - 1 ->
  2 <= Params.quorum (cf_params (cfg e)) ->
  Checkpoint.xc_verify cert (quorum e) (verifiers e) = true ->
  sm_restore snapshot = Some st -> sm_state_root st = Checkpoint.xc_state_root cert ->
  let h := Checkpoint.xc_height cert + 1 in
  let v := Vote.mk_vote h 0 b Vote.Prepare (me e) in
  let v' := Vote.mk_vote h 0 Vote.NIL Vote.Prepare (me e) in
  v ∈ history e -> b <> Vote.NIL -> (13 <= fuel)%nat ->
  exists e1 o1 e2 o2, step fuel (Messages.ISyncResp cert [] snapshot) e = Some (e1, o1) /\
    step fuel Messages.ITimeout e1 = Some (e2, o2) /\ v ∈ history e2 /\ v' ∈ history e2 /\
    slashable (cf_signer (cfg e)) v v'.
Proof.
  intros Hd Hu Hq Hx Hr Hroot h v v' Hv Hb HF.
  destruct (on_sync_resp cert [] snapshot e) as [e1 o1] eqn:Es.
  assert (Ho : o1 <> [] /\ cfg e1 = cfg e /\ history e1 = history e).
  { revert Es. unfold on_sync_resp. rewrite (bool_decide_false (diverged _ = None)), andb_false_r, Hx, Hr by done.
    cbn [negb]. cbv zeta. rewrite bool_decide_false by (by intros ?). cbn [fold_left].
    set (en := note_height _ _). assert (Hm : cfg (maybe_request_body en).1 = cfg en /\ history (maybe_request_body en).1 = history en).
    { unfold maybe_request_body. by repeat case_match. }
    destruct (maybe_request_body en) as [em out]. cbn [fst] in Hm. intros [= <- <-]. by destruct Hm as [-> ->]. }
  destruct Ho as (Ho & C1 & H1). destruct (sync_adopted _ _ _ _ _ _ Es Ho) as (_ & W1 & Eh).
  assert (Ehh : height e1 = h).
  { rewrite Eh. unfold sat_add. rewrite wrap_small by (unfold in_u; lia). unfold h. lia. }
  assert (R1 : rounds_ok e1).
  { unfold rounds_ok. rewrite W1, C1. split; [simpl; lia|]. split; [constructor|done]. }
  destruct (step_total e1 Messages.ITimeout R1) as [[e2 o2] E2]; [by intros sv|].
  apply (step_below _ fuel) in E2; [|unfold fuel_for; rewrite W1; simpl; lia].
  exists e1, o1, e2, o2. split; [simpl; by rewrite Es|]. split; [done|].
  assert (Hn : v' ∈ history e2).
  { pose proof (timeout_signs_nil fuel e1 (e2, o2) W1 E2) as Hn. simpl in Hn. unfold me in Hn. by rewrite Ehh, C1 in Hn. }
  split; [|split; [done|]].
  - destruct (on_timeout_sound [] (Datatypes.S (quorum e1)) ∅ _ (accept_vote_sound _ _ _ fuel) e1 (e2, o2) E2)
      as (_ & _ & (new & -> & _) & _). rewrite H1. apply elem_of_app. by left.
  - apply Incentive.detect_equivocation_iff. assert (Hs : forall x, Vote.verify (Vote.sign x (cf_signer (cfg e)))
      (verifier_of (cf_signer (cfg e))) = true).
    { intros x. unfold Vote.verify, Vote.sign. cbn [Vote.sig Vote.vote]. rewrite sig_from_to. apply hybrid_sign_verifies. }
    repeat split; simpl; try done; apply Hs.
Qed.

(** ** Openings of any length *)

(** The pool the next block is packed from. *)
Definition pool e : list Tx.SealedTx := (btree_list (mempool (execution e))).*2.

Lemma fresh_proposal e e' b : locked_offer e = None -> maybe_propose e = (e', [Messages.Send (Messages.MPropose b)]) ->
  exists w txs rest, pool e = txs ++ rest /\
    b = Block.proposal (Chain.chead (chain e)) (height e) (cf_epoch (cfg e)) (me e) (last_finalized_cert e)
          (reveals_to_commit (height e) e) w txs.
Proof.
  intros Ho. unfold maybe_propose. cbv zeta. rewrite Ho. destruct ((negb _ && negb _) || _); [done|].
  destruct (_ && bool_decide (last_finalized_cert e = None)); [done|]. unfold fresh_block. cbv zeta. fold (pool e).
  set (bud := Block.budget_for _ _ _ _ _ _). assert (Hp : exists rest, pool e = Block.pack_to_budget (pool e) bud ++ rest).
  { unfold Block.pack_to_budget. generalize 8. induction (pool e) as [|t l IH]; intros used; cbn [Block.pack_loop]; [by exists []|].
    cbv zeta. case_match; [by eexists|]. destruct (IH (w64 (used + sat_add 64 (Block.zlen (Tx.to_bytes t)) 8))) as [rest Er].
    exists rest. by rewrite <- app_comm_cons, <- Er. }
  destruct Hp as [rest Hp]. destruct (sortition_round0 e).
  - destruct (leader_witness (height e) e) as [w|]; [|done]. cbn [fmap option_fmap option_map]. intros [= _ <-].
    exists (Some w), (Block.pack_to_budget (pool e) bud), rest. split; [done|]. unfold Block.proposal. by destruct (last_finalized_cert e).
  - intros [= _ <-]. exists None, (Block.pack_to_budget (pool e) bud), rest. split; [done|]. unfold Block.proposal. by destruct (last_finalized_cert e).
Qed.

(** A recorded opening is one the next block commits. *)
Lemma recorded_is_committed e b tx m share r : b ∈ exec_queue (execution e) -> sat_sub (height e) REVEAL_WINDOW <= Block.height (Block.header b) ->
  tx ∈ Block.sealed_txs b -> reveals (execution e) !! Tx.commit tx = Some m -> m !! r = Some share ->
  (openings_in (sat_sub (sat_sub (height e) REVEAL_WINDOW) 1) (sat_sub (height e) 1) (committed_reveals (execution e)) !! Tx.commit tx ≫= fun m => m !! r) = None ->
  Block.mk_reveal (Tx.commit tx) r (Messages.share_to_bytes share) ∈ reveals_to_commit (height e) e.
Proof.
  intros Hb Hh Ht Hm Hr Ha. unfold reveals_to_commit. cbv zeta. apply list_elem_of_bind. exists b. split; [|done].
  rewrite (proj2 (Z.ltb_ge _ _)) by done. apply list_elem_of_bind. exists tx. split; [|done]. rewrite Hm.
  apply list_elem_of_bind. exists (r, share). split; [|by apply Openings.zlist_elem]. rewrite Ha. cbn. by left.
Qed.

Lemma sum_len_elem {A} (enc : A -> list Z) l x : x ∈ l -> Block.zlen (enc x) <= Block.sum_len enc l.
Proof.
  induction l as [|y l IH]; [by intros ?%elem_of_nil|]. cbn [Block.sum_len foldr]. pose proof (Block.sum_len_nonneg enc l).
  intros [->|Hx]%elem_of_cons; [unfold Block.sum_len in *; lia|]. specialize (IH Hx). unfold Block.sum_len, Block.zlen in *. lia.
Qed.

(** One oversized opening stops a proposer.  A member of the sealing committee signs, for a
    transaction that waits to be executed, an opening of the right coordinate and any number of bytes.
    The engine records it as it would a genuine one, whatever its length, and commits it in the next
    block it proposes; when the certificate of the parent and that opening together take a frame, the
    block does not fit one whatever it packs, so no receiver's structure check accepts it. *)
Theorem oversized_opening_starves_proposer (Hl : CryptoLaws) (e : Engine S) (r : Messages.RevealMsg) (y : list Z)
    (queued : Block.Block) (tx : Tx.SealedTx) (verifier : HybridVerifier) :
  queued ∈ exec_queue (execution e) -> sat_sub (height e) REVEAL_WINDOW <= Block.height (Block.header queued) ->
  tx ∈ Block.sealed_txs queued -> Tx.commit tx = Messages.r_commit r ->
  reveals (execution e) !! Messages.r_commit r = None ->
  (openings_in (sat_sub (sat_sub (height e) REVEAL_WINDOW) 1) (sat_sub (height e) 1) (committed_reveals (execution e)) !! Messages.r_commit r
     ≫= fun m => m !! Messages.r_member r) = None ->
  0 <= Messages.r_member r < Params.seal_committee_size (cf_params (cfg e)) ->
  verifier_at e (Messages.r_member r) = Some verifier -> Messages.reveal_verify r verifier = true ->
  Messages.r_share r = (Messages.r_member r + 1) :: y ->
  Block.frame_room <= Block.header_len + 16 + Block.zlen (Block.opt_bytes Vote.cert_to_bytes (last_finalized_cert e)) + Block.zlen y ->
  locked_offer e = None -> length (Chain.chead (chain e)) = 32%nat -> Block.txs_ok (pool e) ->
  let '(recorded, e1) := validate_and_record r e in
  recorded = true /\ forall e2 b, maybe_propose e1 = (e2, [Messages.Send (Messages.MPropose b)]) -> Block.verify_structure b = false.
Proof.
  intros Hq Hh Ht Hc Hr Ha Hm Hv Hs Hy Hbig Ho Hhd Hpool. unfold validate_and_record. rewrite Hr. cbn [mbind option_bind].
  rewrite bool_decide_false by (intros [? [=]]). destruct (sealed_tx_for (Messages.r_commit r) e) as [t|] eqn:Et.
  2:{ exfalso. unfold sealed_tx_for in Et. pose proof (List.find_none _ _ Et tx) as Hn. cbv beta in Hn.
      rewrite bool_decide_true in Hn by done. discriminate Hn. apply list_elem_of_In, list_elem_of_bind. by exists queued. }
  cbv zeta. rewrite Z2Nat.id by lia. rewrite (proj2 (Z.leb_gt _ _)) by lia. rewrite Hv, Hs, Hy. cbn [negb Messages.share_from_bytes Shamir.sx].
  replace (Z.to_nat (Messages.r_member r + 1)) with (Z.to_nat (Messages.r_member r) + 1)%nat by lia. rewrite Nat.eqb_refl. cbn [negb].
  set (e1 := upd_x _ e). split; [done|]. intros e2 b (w & txs & rest & Ep & ->)%fresh_proposal; [|done].
  apply Block.crowded_out; [done|by apply (Block.txs_ok_prefix txs rest); rewrite <- Ep|].
  assert (Hin : Block.mk_reveal (Tx.commit tx) (Messages.r_member r) (Messages.share_to_bytes (Shamir.mk_share (Messages.r_member r + 1) y)) ∈ reveals_to_commit (height e1) e1).
  { eapply (recorded_is_committed e1 queued tx); try done; rewrite ?Hc; [|by apply lookup_insert_eq|done].
    cbn [e1 upd_x execution set_reveals reveals]. by apply lookup_insert_eq. }
  apply (sum_len_elem Block.reveal_to_bytes) in Hin. unfold Block.reveal_to_bytes at 1 in Hin. unfold put_var_bytes, put_u32 in Hin.
  cbn [Block.cr_commit Block.cr_member Block.cr_share Messages.share_to_bytes Shamir.sx Shamir.sy] in Hin. rewrite !Block.zlen_app in Hin.
  unfold Messages.share_to_bytes in Hin. cbn [Shamir.sx Shamir.sy] in Hin.
  assert (Hx : forall x : Z, Block.zlen y <= Block.zlen (x :: y)) by (intros x; unfold Block.zlen; cbn [length]; lia).
  specialize (Hx (Messages.r_member r + 1)). change (last_finalized_cert e1) with (last_finalized_cert e).
  assert (Hz : forall l : list Z, 0 <= Block.zlen l) by (intros l; unfold Block.zlen; lia).
  pose proof (Hz (Tx.commit tx)). pose proof (Hz [Messages.r_member r]).
  revert Hin. set (pre := Block.zlen (le_bytes _ _)). assert (0 <= pre) by apply Hz. cbn [app] in *. lia.
Qed.

End limits.

(** ** The first three, in one validator's life *)

(** Seat 0 of the concrete cell after some inputs. *)
Definition w_after (inputs : list Messages.Input) : option (@Engine toy_crypto toy_kem Accounts.Accounts) :=
  fst <$> @feed toy_crypto toy_kem Accounts.Accounts _ 20 inputs (TinyCell.engine 0).

(** It finalizes the first block from the COMMITs of seats 0 to 4 and then locks the second block,
    whose proposer recorded the COMMITs of seats 1 to 5. *)
Definition w_locked : list Messages.Input := TinyCell.first_height ++ TinyCell.second_height.

Lemma reoffered_block_loses_its_proof_witness :
  exists (e e' : @Engine toy_crypto toy_kem Accounts.Accounts) b b',
    w_after w_locked = Some e /\ maybe_propose e = (e', [Messages.Send (Messages.MPropose b')]) /\
    (@broken_on toy_crypto (Block.header_hashed <$> [Block.header b'; Block.header b]) \/ @Block.hash toy_crypto b' <> @Block.hash toy_crypto b /\
     @proof_ignored toy_crypto toy_kem Accounts.Accounts b').
Proof.
  assert (Hc : match w_after w_locked with
    | Some e => match locked_offer e, last_finalized_cert e, maybe_propose e with
        | Some (b, cert), Some lc, (_, [Messages.Send (Messages.MPropose _)]) =>
            bool_decide (Vote.c_block_hash cert = @Block.hash toy_crypto b) && bool_decide (Block.header_ok (Block.header b)) &&
            bool_decide (@Block.commit_last toy_crypto (Some lc) <> Block.last_commit_root (Block.header b))
        | _, _, _ => false
        end
    | None => false
    end = true) by (vm_compute; reflexivity).
  destruct (w_after w_locked) as [e|]; [|discriminate Hc].
  destruct (locked_offer e) as [[b cert]|] eqn:E1; [|discriminate Hc].
  destruct (last_finalized_cert e) as [lc|] eqn:E2; [|discriminate Hc].
  destruct (maybe_propose e) as [e' [|[[b'| | | | | | | |]| | |] [|? ?]]] eqn:E3; try discriminate Hc.
  rewrite !andb_true_iff, !bool_decide_eq_true in Hc. destruct Hc as [[H1 H2] H3].
  exists e, e', b, b'. split; [reflexivity|]. split; [exact E3|].
  exact (@reoffered_block_loses_its_proof toy_crypto toy_kem Accounts.Accounts toy_laws e e' b b' cert lc E1 H1 H2 E2 H3 E3).
Defined.

(** It finalizes the first block, then adopts a certified state at height 5 and leads height 6. *)
Lemma synced_proposal_is_refused_witness :
  exists (e e1 e2 : @Engine toy_crypto toy_kem Accounts.Accounts) outs b lc,
    w_after TinyCell.first_height = Some e /\
    on_sync_resp (TinyCell.exec_cert 5 (replicate 32 9)) [] (Accounts.snapshot TinyCell.other_state) e = (e1, outs) /\
    maybe_propose e1 = (e2, [Messages.Send (Messages.MPropose b)]) /\
    Block.last_commit b = Some lc /\
    @record_refused toy_crypto toy_kem Accounts.Accounts b.
Proof.
  set (cert := TinyCell.exec_cert 5 (replicate 32 9)). set (snap := Accounts.snapshot TinyCell.other_state).
  assert (Hc : match w_after TinyCell.first_height with
    | Some e => match last_finalized_cert e with
        | Some lc => let '(e1, outs) := on_sync_resp cert [] snap e in
            match outs, maybe_propose e1 with
            | _ :: _, (_, [Messages.Send (Messages.MPropose _)]) => negb (Vote.c_height lc =? Checkpoint.xc_height cert)
            | _, _ => false
            end
        | None => false
        end
    | None => false
    end = true) by (vm_compute; reflexivity).
  destruct (w_after TinyCell.first_height) as [e|]; [|discriminate Hc].
  destruct (last_finalized_cert e) as [lc|] eqn:E1; [|discriminate Hc].
  destruct (on_sync_resp cert [] snap e) as [e1 [|o outs]] eqn:E2; [discriminate Hc|].
  destruct (maybe_propose e1) as [e2 [|[[b| | | | | | | |]| | |] [|? ?]]] eqn:E3; try discriminate Hc.
  apply negb_true_iff, Z.eqb_neq in Hc.
  exists e, e1, e2, (o :: outs), b, lc. split; [reflexivity|]. split; [exact E2|]. split; [exact E3|].
  apply (@synced_proposal_is_refused toy_crypto toy_kem Accounts.Accounts _ cert [] snap e e1 e2 (o :: outs) lc b);
    [simpl; lia|exact E2|discriminate|exact E1|exact Hc|exact E3].
Defined.

(** It finalizes two blocks, executes the first, and a quorum attests another state for it. *)
Definition w_diverged : list Messages.Input :=
  w_locked ++ TinyCell.second_commits ++
  (Messages.IExecVote <$> Checkpoint.xc_votes (TinyCell.exec_cert 0 (@Block.hash toy_crypto TinyCell.block))).

Lemma rollback_makes_validator_slashable_witness :
  exists (e e1 e2 : @Engine toy_crypto toy_kem Accounts.Accounts) o1 o2,
    w_after w_diverged = Some e /\
    step 20 (Messages.ISyncResp (TinyCell.exec_cert 0 (@Block.hash toy_crypto TinyCell.block)) []
      (Accounts.snapshot TinyCell.other_state)) e = Some (e1, o1) /\
    step 20 Messages.ITimeout e1 = Some (e2, o2) /\
    Vote.mk_vote 1 0 (@Block.hash toy_crypto TinyCell.block1) Vote.Prepare (me e) ∈ history e2 /\
    Vote.mk_vote 1 0 Vote.NIL Vote.Prepare (me e) ∈ history e2.
Proof.
  set (cert := TinyCell.exec_cert 0 (@Block.hash toy_crypto TinyCell.block)).
  set (snap := Accounts.snapshot TinyCell.other_state). set (bh := @Block.hash toy_crypto TinyCell.block1).
  assert (Hc : match w_after w_diverged with
    | Some e => bool_decide (diverged (recovery e) <> None) && (2 <=? Params.quorum (cf_params (cfg e))) &&
        @Checkpoint.xc_verify toy_crypto cert (quorum e) (verifiers e) &&
        bool_decide (Vote.mk_vote 1 0 bh Vote.Prepare (me e) ∈ history e)
    | None => false
    end = true) by (vm_compute; reflexivity).
  assert (Hs : bool_decide (Accounts.restore snap = Some TinyCell.other_state) && bool_decide (bh <> Vote.NIL) = true)
    by (vm_compute; reflexivity).
  destruct (w_after w_diverged) as [e|]; [|discriminate Hc].
  rewrite !andb_true_iff, !bool_decide_eq_true, Z.leb_le in Hc. destruct Hc as [[[H1 H2] H3] H4].
  rewrite andb_true_iff, !bool_decide_eq_true in Hs. destruct Hs as [H5 H6].
  destruct (@rollback_makes_validator_slashable toy_crypto toy_kem Accounts.Accounts (@Accounts.accounts_machine toy_crypto) toy_laws e cert snap
    TinyCell.other_state bh 20 H1 ltac:(simpl; lia) H2 H3 H5 eq_refl H4 H6 ltac:(lia)) as (e1 & o1 & e2 & o2 & S1 & S2 & V1 & V2 & _).
  exists e, e1, e2, o1, o2. split; [reflexivity|]. split; [exact S1|]. split; [exact S2|]. split; [exact V1|exact V2].
Defined.

End Limits.
